(* ===== verification/_CoqProject ===== *)
-Q . S2P
Prelude.v
Clock.v
Locator.v
SumTree.v
Cursor.v
Search.v
KeyedTree.v
TreeMap.v
UndoMap.v
OperationQueue.v
Text.v
Bitmap.v
Select.v
Utf8.v
Summary.v
Chunk.v
ChunkBits.v
History.v
HistoryEdits.v
Patch.v
Subscription.v
Fragment.v
Cells.v
BufferInv.v
LocalEdit.v
Undo.v
UndoIndex.v
RemoteCells.v
RemoteEdit.v
RemoteEditOk.v
Tracking.v
Converge.v
Waiters.v
Buffer.v
BufferState.v
BufferOk.v
Replica.v
Delivery.v
ChunkOk.v
ChunkPoints.v
ChunkClip.v
ChunkSummary.v
ChunkLongest.v
Rope.v
RopeOk.v
RopeSeek.v
RopeConv.v
RopeClip.v
RopeSlice.v
RopeProps.v
Float.v
StreamingDiff.v
StreamingDiffOk.v
RopeChunks.v
RopeIter.v
RopeRanges.v
Measures.v
LineDiff.v
Anchor.v
AnchorOk.v
AnchorProps.v
Versions.v
VersionsOk.v
VersionsProps.v
Selection.v
CursorBack.v
CursorMoves.v
CursorIter.v
TreeSet.v
TreeBuild.v
RopeLines.v
RopeLinesOk.v
RopeMoves.v
RopeReading.v
EditedRanges.v
CharBag.v
Reindent.v
Snippet.v
SnippetOk.v
