(* ===== verification/Prelude.v ===== *)
(** * The text engine of Stcode: verification development

    Stcode is an editor.  Everything it shows, edits, undoes, replicates and
    diffs goes through a small set of crates that hold no I/O: the summarised
    B-tree [crates/sum_tree], the rope [crates/rope], the replicated buffer
    [crates/text] with the clocks of [crates/clock], and the streaming diffs of
    [crates/streaming_diff].  This development models those crates, and proves
    what the rest of the editor relies on.  Around them it models the parts of
    other crates that are pure algorithms on text: the snippet parser
    [crates/snippet], the reindenting of streamed edits in [crates/agent] and the
    character bags of [crates/fuzzy].  The other crates are listed at the
    end with the reason why they are left out.

    ** The parts and how they use each other

    - [clock] gives operations their Lamport timestamps and buffers their
      version vectors.  [Clock.v].
    - [sum_tree] is a B+ tree whose nodes cache summaries; a cursor over it finds
      a place by any dimension of the summaries.  [SumTree.v] (the tree),
      [Cursor.v] (the cursor's stack, seek, slice, suffix, summary), [Search.v]
      (next, search_forward, find), [CursorBack.v] and [CursorMoves.v] (moving
      backward, and any mix of moves), [CursorIter.v] (Iter, FilterCursor),
      [TreeBuild.v] (parallel construction, items, equality), [KeyedTree.v]
      (insert, remove, edit and get of trees ordered by a key), [TreeMap.v] and
      [TreeSet.v] (the ordered map and set over them).
    - [rope] is a tree of chunks of at most [MAX_BASE] bytes, each with four
      bitmaps.  [Bitmap.v] and [Select.v] (the machine words), [Utf8.v]
      (characters and boundaries), [Summary.v] (points and TextSummary),
      [Chunk.v] with [ChunkBits.v], [ChunkOk.v], [ChunkPoints.v], [ChunkClip.v],
      [ChunkSummary.v], [ChunkLongest.v]; [Rope.v] with [RopeOk.v], [RopeSeek.v],
      [RopeConv.v], [RopeClip.v], [RopeSlice.v], [RopeProps.v]; the iterators in
      [RopeChunks.v], [RopeIter.v], [RopeRanges.v] (chunks in a range) and
      [RopeLines.v], [RopeLinesOk.v], [RopeMoves.v], [RopeReading.v] (bytes,
      lines, moving by lines); [Measures.v] (the dimensions in which buffers
      count text).
    - [text] is the buffer, a CRDT.  Its text is a sequence of fragments, each a
      run of bytes of one insertion, ordered by dense identifiers ([Locator.v],
      [Fragment.v]).  [LocalEdit.v], [RemoteEdit.v] and [Undo.v] are the three
      passes that rebuild the fragments; two index trees say where the pieces of
      an insertion are ([Tracking.v], [UndoIndex.v]); [UndoMap.v] counts undos;
      [OperationQueue.v] keeps the operations that arrived too early; [History.v]
      and [HistoryEdits.v] are the undo stacks; [Patch.v] and [Subscription.v]
      report changes; [Waiters.v] are the futures of edits and versions;
      [Buffer.v] puts them together.  [Anchor.v] (positions that survive edits),
      [Versions.v] (past texts and the edits since),
      [EditedRanges.v] (where edits are, batches of anchors), [Selection.v] and [Text.v]
      (line endings, indentation) read the result.
    - [streaming_diff] turns a stream of new text into edits of an old one.
      [Float.v], [StreamingDiff.v] and [StreamingDiffOk.v] (characters),
      [LineDiff.v] (lines).
    - Around the engine: [Reindent.v] is the adapter of [agent] that gives the
      lines of a streamed edit the indentation of what they replace; [Snippet.v]
      and [SnippetOk.v] are the parser of [snippet]; [CharBag.v] is the filter
      with which [fuzzy] discards candidates.

    Each file names the source file of what it models, and a definition has the
    name of the function it translates where the name is free.  A struct is a
    Record with the fields in the order of the source, an enum an Inductive type,
    a method a function of the old state to the new one; a loop is a Fixpoint
    over its list or with fuel.

    ** Conventions

    - Panics are values.  A failed assertion, an [unwrap] of [None], an index or
      slice out of range, a subtraction below zero and an [ArrayVec] beyond its
      capacity are [None] of the option monad, so "returns [Some]" in a theorem
      includes "does not panic".  [debug_assert!] is treated like [assert!]
      where the theorems prove it holds; [debug_panic!], which only reports in
      release builds, follows the flag [debug] where both behaviours differ.
    - The replica id 65535 is reserved: [Global::observe] asserts that no
      operation carries it ([Clock.try_observe]).  A replica that stamps
      operations has a smaller one ([BufferOk.can_stamp], [Clock.Lamport_wf]).
    - Ranges of local edits may end inside a character or beyond the text, and
      are rounded down to character boundaries first ([LocalEdit.clip_edits]).
      Remote edits carry ranges that were rounded by their author.
    - Positions are measured in bytes, UTF-16 units, points or pairs of these
      ([Measures.MeasureOk]).  Rows and columns are [u32]: what is said in points
      is said of texts below 4 GB ([RopeSeek.fits32], [Measures.fits16]); beyond,
      the additions of rows and columns overflow, which is not modelled for the
      summaries of the rope's inner nodes.
    - Integers keep their width where the code can overflow: bitmaps are [N]
      below [2 ^ MAX_BASE] with checked shifts, rows and columns [N] modulo
      [2 ^ 32] ([Prelude.wrap_u32]), the words of locators [Z] modulo [2 ^ 64].
      [usize] offsets are [nat] with checked subtraction.
    - Text is a list of bytes; [Utf8.v] says when it is a [str].
    - Shared state is explicit: subscriptions share a heap of patches; one-shot
      senders are logged with what was done to them.
    - Fuel.  Walks over a tree take fuel of [Cursor.seek_fuel], more than the
      nodes a tree of the cursor's depth has levels to climb and descend, and the
      theorems about them start from [walkable] trees (height below the cursor's
      stack of 16, as [heights_ok] says): with it they return [Some].  The loops
      over chunks take one step for each chunk and one to stop ([chunks_fuel],
      [lines_fuel]); those over fragments, patches and operations are fuelled by
      the lengths of the lists they consume.  No theorem is conditional on a loop
      returning: each states the result, which includes that the fuel suffices.

    ** Representation of trees by sequences

    [SumTree.v] and the cursor files prove that the tree and its cursors refine
    a list with a place in it: append is concatenation, slices and suffixes cut
    the list, seeking is a linear scan, a moving cursor is a place
    ([CursorMoves.cursor_follows_place]), filtered cursors and iterators visit
    the (accepted) items ([CursorIter.iteration_exact]).  The files of the rope
    and of the buffer therefore use the list: a rope is the list of its chunks
    with their summaries, the fragment tree is the list of fragments, and their
    cursors are places.  The two index trees, the undo map, the queue and
    TreeMap are used as trees.

    ** What the theorems show

    - sum_tree: trees built by any operation are balanced, with correct summaries
      and occupancy, and no operation panics; cursors and iterators are exact;
      TreeMap and TreeSet are finite maps and sets.
    - rope: the bitmaps of a chunk are always those of its text, every conversion,
      clip and summary computed on them is the one of the text, the select on
      words is exact and free of overflow; a rope built by any operations holds
      the described text in balanced chunks; its coordinates, comparisons,
      chunks, bytes, lines and line movements are those of the text.
    - text, one replica: a local edit replaces exactly the given ranges, rounded
      to character boundaries, and keeps the text UTF-8; a remote edit does what
      the specification on cells ([RemoteCells.v]) says, undo makes visible what
      is not undone; every operation keeps the invariant of the buffer and never
      fails in a reachable state; undo and redo restore texts; patches compose;
      subscriptions, waiters, anchors, past versions and edits since a version
      are exact through any further operations.
    - text, several replicas: any two concurrent edits commute, whatever else was
      inserted concurrently (only the order of recorded deletions may differ); a
      remote replica replays a local edit exactly, and operations delivered in
      any order, in any batches and any number of times are all applied once
      those they depend on have arrived.
    - streaming_diff: the operations always turn the old text into the new one,
      however the text arrives; the line operations delete and insert exactly
      the rows they should.
    - agent, snippet, fuzzy: reindenting does not depend on how a text is cut
      into pieces, and changes the indentation of every line that is not blank;
      parsing a snippet is total, its tabstops lie in the text and are apart or
      nested, and a printed snippet parses to its meaning; the filter is exact on
      what it counts and discards no candidate that contains the query.

    ** Abstract specifications

    The specification of the buffer is the sequence of cells ([Cells.v]): every
    byte ever inserted with its insertion, its offset in it, its visibility and
    its deletions.  The passes refine functions on cells; convergence, anchors
    and versions are proved there.  The specification of trees is the list, of
    the maps [gmap], of ropes the text, of patches the relation that one text
    becomes another, of LineDiff two sets of rows, of Reindenter a
    function on each line, of snippets a tree of elements with its expansion.

    ** Parameters

    What is not the repository's is a parameter with its documented behaviour:
    the segmentation of graphemes ([Chunk.v]), the receiving end of a one-shot
    channel ([Waiters.v]), the ordered results of rayon ([TreeBuild.v]), and
    [powi] of binary64 numbers, whose rounding the platform chooses, in the
    scores of [StreamingDiff.v] (the theorems hold for every score), and
    Unicode's lowercase of a character ([CharBag.v]).

    ** Defects the proofs met

    - [TreeMap::extend] duplicates keys that occur twice in its argument.
    - [LineDiff::trim_buffered_end] compares with the wrong buffer.
    - [TextSummary::add_newline] doubles the UTF-16 length.
    - [Selection::swap_head_tail] leaves a selection that is not reversed with
      its ends out of order.
    - [Chunks::seek] on an exhausted reversed iterator loses the rest of the
      range, and mixing [next] with [read] on [Bytes] repeats bytes
      ([RopeReading.v]).
    - [parse_choices] of snippets drops the escaped characters of every choice
      but the first ([SnippetOk.as_parsed]).
    - Two comments of [text.rs] say what the code does not do: which concurrent
      insertions a remote edit passes, and what [push_empty_transaction] clears;
      so does the documentation of [Cursor::seek_forward], which says that it
      panics on a cursor that was not sought before ([CursorMoves.v]).

    ** Not modelled

    - The nodes of the rope's and of the fragments' tree (see above); seeks of a
      cursor in a [VersionedFullOffset] inside inner nodes, which may be invalid
      there: the list cursor looks at items only.
    - The random edits and invariant checks that [text.rs] has for tests.
    - Formatting ([Debug], [Display]), serialisation, logging, locks (an operation
      on a topic is one step) and the executors that run futures.
    - The other crates: the editor's display maps and input handling, the user
      interface framework and the platforms under it, language servers, debug
      adapters, extensions, settings, remote and agent crates.  They are
      asynchronous I/O, drawing or wire formats over libraries that are not part
      of the repository; other pure parts among them (the fuzzy scores, markdown,
      the agents' edit parsers) are not modelled. *)

From stdpp Require Export base decidable option list list_numbers numbers gmap sorting.

(** ** Machine integers

    The source mixes [u16], [u32], [u64], [u128] and [usize].  Values are
    kept in [N] or [Z] (or [nat] where they only count list elements) and the
    width is written out wherever the code can overflow. *)

Declare Scope word_scope.
Delimit Scope word_scope with word.

Definition u16_max : N := 65535.
Definition u32_max : N := 4294967295.
Definition u64_max : Z := 18446744073709551615.

Definition wrap_u16 (n : N) : N := (n mod 2 ^ 16)%N.
Definition wrap_u32 (n : N) : N := (n mod 2 ^ 32)%N.
Definition wrap_u64 (z : Z) : Z := (z mod 2 ^ 64)%Z.

Definition is_u16 (n : N) : Prop := (n ≤ u16_max)%N.
Definition is_u32 (n : N) : Prop := (n ≤ u32_max)%N.
Definition is_u64 (z : Z) : Prop := (0 ≤ z ≤ u64_max)%Z.

(** [saturating_sub] and [saturating_add] of unsigned integers. *)
Definition sat_sub (a b : Z) : Z := Z.max 0 (a - b).
Definition sat_add (maxv a b : Z) : Z := Z.min maxv (a + b).

Notation "a -sat b" := (sat_sub a b) (at level 50, left associativity) : word_scope.

Lemma wrap_u32_small z : is_u32 z → wrap_u32 z = z.
Proof. unfold is_u32, wrap_u32, u32_max. intros. apply N.mod_small. lia. Qed.

Lemma wrap_u64_small z : is_u64 z → wrap_u64 z = z.
Proof. unfold is_u64, wrap_u64, u64_max. intros. apply Z.mod_small. lia. Qed.

Lemma wrap_u16_small z : is_u16 z → wrap_u16 z = z.
Proof. unfold is_u16, wrap_u16, u16_max. intros. apply N.mod_small. lia. Qed.

(** A [usize] cast to [u32]. *)
Definition as_u32 (n : nat) : nat := N.to_nat (wrap_u32 (N.of_nat n)).
Lemma as_u32_small n : is_u32 (N.of_nat n) → as_u32 n = n.
Proof. intros H. unfold as_u32. rewrite wrap_u32_small by done. lia. Qed.

(** ** Total orders

    Rust's [Ord] trait: a three-way comparison that agrees with equality, is
    antisymmetric and transitive.  Keys of trees, timestamps and locators all
    implement it; clients are proved against this interface. *)

Class Ord (A : Type) := {
  cmp : A → A → comparison;
  cmp_eq_iff : ∀ x y, cmp x y = Eq ↔ x = y;
  cmp_antisym : ∀ x y, cmp y x = CompOpp (cmp x y);
  cmp_lt_trans : ∀ x y z, cmp x y = Lt → cmp y z = Lt → cmp x z = Lt;
}.

Definition ltb `{Ord A} (x y : A) : bool := match cmp x y with Lt => true | _ => false end.
Definition leb `{Ord A} (x y : A) : bool := match cmp x y with Gt => false | _ => true end.

(** [std::cmp::max] returns the second argument on ties, [min] the first. *)
Definition cmp_max `{Ord A} (x y : A) : A := if leb x y then y else x.
Definition cmp_min `{Ord A} (x y : A) : A := if leb x y then x else y.

Declare Scope ord_scope.
Delimit Scope ord_scope with ord.
Notation "x ≺ y" := (cmp x y = Lt) (at level 70, no associativity) : ord_scope.
Notation "x ≼ y" := (cmp x y ≠ Gt) (at level 70, no associativity) : ord_scope.

(** Lexicographic combination, [Ordering::then_with]. *)
Definition then_with (c d : comparison) : comparison :=
  match c with Eq => d | _ => c end.

Section ord_facts.
Context `{HO : Ord A}.
Implicit Types x y z : A.
Local Open Scope ord_scope.

Lemma cmp_refl x : cmp x x = Eq.
Proof. by apply cmp_eq_iff. Qed.

Lemma cmp_gt_lt x y : cmp x y = Gt ↔ y ≺ x.
Proof. rewrite (cmp_antisym x y). by destruct (cmp x y). Qed.

Lemma cmp_lt_irrefl x : ¬ x ≺ x.
Proof. by rewrite cmp_refl. Qed.

Lemma cmp_lt_asym x y : x ≺ y → ¬ y ≺ x.
Proof. intros Hxy. by rewrite (cmp_antisym x y), Hxy. Qed.

Lemma cmp_le_lt_or_eq x y : x ≼ y ↔ x ≺ y ∨ x = y.
Proof.
  rewrite <- cmp_eq_iff. destruct (cmp x y); naive_solver.
Qed.

Lemma cmp_le_refl x : x ≼ x.
Proof. by rewrite cmp_refl. Qed.

Lemma cmp_lt_le x y : x ≺ y → x ≼ y.
Proof. by intros ->. Qed.

Lemma cmp_le_lt_trans x y z : x ≼ y → y ≺ z → x ≺ z.
Proof. intros [?| ->]%cmp_le_lt_or_eq ?; [by eapply cmp_lt_trans | done]. Qed.

Lemma cmp_lt_le_trans x y z : x ≺ y → y ≼ z → x ≺ z.
Proof. intros ? [?|<-]%cmp_le_lt_or_eq; [by eapply cmp_lt_trans | done]. Qed.

Lemma cmp_le_trans x y z : x ≼ y → y ≼ z → x ≼ z.
Proof.
  intros [?| ->]%cmp_le_lt_or_eq ?; [| done].
  by eapply cmp_lt_le, cmp_lt_le_trans.
Qed.

Lemma cmp_not_lt_le x y : ¬ x ≺ y ↔ y ≼ x.
Proof. rewrite (cmp_antisym x y). by destruct (cmp x y). Qed.

Lemma cmp_not_le_lt x y : ¬ x ≼ y ↔ y ≺ x.
Proof. rewrite (cmp_antisym x y). destruct (cmp x y); naive_solver. Qed.

Lemma cmp_le_antisym x y : x ≼ y → y ≼ x → x = y.
Proof.
  intros [?| ?]%cmp_le_lt_or_eq [?| ?]%cmp_le_lt_or_eq; [| done..].
  exfalso. by eapply cmp_lt_asym.
Qed.

Lemma cmp_trichotomy x y : x ≺ y ∨ x = y ∨ y ≺ x.
Proof.
  rewrite <- cmp_eq_iff, <- (cmp_gt_lt x y). destruct (cmp x y); auto.
Qed.

Lemma ltb_lt x y : ltb x y = true ↔ x ≺ y.
Proof. unfold ltb. by destruct (cmp x y). Qed.

Lemma leb_le x y : leb x y = true ↔ x ≼ y.
Proof. unfold leb. by destruct (cmp x y). Qed.

Lemma ltb_false x y : ltb x y = false ↔ y ≼ x.
Proof. rewrite <- cmp_not_lt_le, <- ltb_lt. by destruct (ltb x y). Qed.

Lemma leb_false x y : leb x y = false ↔ y ≺ x.
Proof. rewrite <- cmp_not_le_lt, <- leb_le. by destruct (leb x y). Qed.

Lemma cmp_max_l x y : x ≼ cmp_max x y.
Proof.
  unfold cmp_max. destruct (leb x y) eqn:E; [by apply leb_le | apply cmp_le_refl].
Qed.

Lemma cmp_max_r x y : y ≼ cmp_max x y.
Proof.
  unfold cmp_max. destruct (leb x y) eqn:E; [apply cmp_le_refl |].
  apply leb_false in E. by apply cmp_lt_le.
Qed.

Lemma cmp_max_lub x y z : x ≼ z → y ≼ z → cmp_max x y ≼ z.
Proof. unfold cmp_max. by destruct (leb x y). Qed.

Definition ord_eq_dec : EqDecision A.
Proof.
  intros x y. destruct (cmp x y) eqn:E.
  - left. by apply cmp_eq_iff.
  - right. intros ->. by rewrite cmp_refl in E.
  - right. intros ->. by rewrite cmp_refl in E.
Defined.
End ord_facts.

#[export, refine] Instance Z_Ord : Ord Z := {
  cmp := Z.compare;
  cmp_eq_iff := Z.compare_eq_iff;
  cmp_antisym := Z.compare_antisym;
  cmp_lt_trans := _;
}.
Proof. intros x y z. rewrite !Z.compare_lt_iff. lia. Defined.

#[export, refine] Instance N_Ord : Ord N := {
  cmp := N.compare;
  cmp_eq_iff := N.compare_eq_iff;
  cmp_antisym := N.compare_antisym;
  cmp_lt_trans := _;
}.
Proof. intros x y z. rewrite !N.compare_lt_iff. lia. Defined.

#[export, refine] Instance nat_Ord : Ord nat := {
  cmp := Nat.compare;
  cmp_eq_iff := Nat.compare_eq_iff;
  cmp_antisym := Nat.compare_antisym;
  cmp_lt_trans := _;
}.
Proof. intros x y z. rewrite !Nat.compare_lt_iff. lia. Defined.

(** Lexicographic order on pairs, the order [#[derive(Ord)]] gives a struct
    with two fields and [then_with] chains spell out. *)
#[export, refine] Instance prod_Ord `{Ord A, Ord B} : Ord (A * B) := {
  cmp := fun x y => then_with (cmp x.1 y.1) (cmp x.2 y.2);
  cmp_eq_iff := _; cmp_antisym := _; cmp_lt_trans := _;
}.
Proof.
  - intros [a b] [a' b']; simpl. split; [| by intros [= -> ->]; rewrite !cmp_refl].
    destruct (cmp a a') eqn:E; try done; simpl.
    apply cmp_eq_iff in E as ->. by intros ->%cmp_eq_iff.
  - intros [a b] [a' b']; simpl.
    rewrite (cmp_antisym a a'), (cmp_antisym b b'). by destruct (cmp a a').
  - intros [a b] [a' b'] [a'' b'']; simpl.
    destruct (cmp a a') eqn:E1; [| |done]; destruct (cmp a' a'') eqn:E2; try done; simpl.
    + apply cmp_eq_iff in E1 as ->, E2 as ->. rewrite cmp_refl. apply cmp_lt_trans.
    + apply cmp_eq_iff in E1 as ->. by rewrite E2.
    + apply cmp_eq_iff in E2 as ->. by rewrite E1.
    + by rewrite (cmp_lt_trans _ _ _ E1 E2).
Defined.

(** Lexicographic order on sequences ([Ord] of slices and [SmallVec]). *)
Fixpoint list_cmp `{Ord A} (l k : list A) : comparison :=
  match l, k with
  | [], [] => Eq
  | [], _ :: _ => Lt
  | _ :: _, [] => Gt
  | x :: l, y :: k => then_with (cmp x y) (list_cmp l k)
  end.

#[export, refine] Instance list_Ord `{Ord A} : Ord (list A) := {
  cmp := list_cmp; cmp_eq_iff := _; cmp_antisym := _; cmp_lt_trans := _;
}.
Proof.
  - induction x as [|a x IH]; intros [|b y]; simpl; try naive_solver.
    destruct (cmp a b) eqn:E; simpl; rewrite ?IH;
      [apply cmp_eq_iff in E as ->; naive_solver | | ];
      (split; [done | intros [= -> ->]; by rewrite cmp_refl in E]).
  - induction x as [|a x IH]; intros [|b y]; simpl; try done.
    rewrite (cmp_antisym a b), IH. by destruct (cmp a b).
  - induction x as [|a x IH]; intros [|b y] [|c z]; simpl; try done.
    destruct (cmp a b) eqn:E1; [| |done]; destruct (cmp b c) eqn:E2; try done; simpl.
    + apply cmp_eq_iff in E1 as ->, E2 as ->. rewrite cmp_refl. apply IH.
    + apply cmp_eq_iff in E1 as ->. by rewrite E2.
    + apply cmp_eq_iff in E2 as ->. by rewrite E1.
    + by rewrite (cmp_lt_trans _ _ _ E1 E2).
Defined.

(** An order transported along an injection (newtypes and records). *)
Definition inj_Ord `{Ord B} {A} (f : A → B) (Hf : ∀ x y, f x = f y → x = y) : Ord A.
Proof.
  refine {| cmp := λ x y, cmp (f x) (f y) |}.
  - intros x y. rewrite cmp_eq_iff. split; [apply Hf | by intros ->].
  - intros x y. apply cmp_antisym.
  - intros x y z. apply cmp_lt_trans.
Defined.

(** ** Vectors

    [Vec::resize], [Vec::truncate] and indexing with a default. *)

Definition resize {A} (n : nat) (d : A) (l : list A) : list A :=
  take n l ++ replicate (n - length l) d.

Lemma resize_length {A} n (d : A) l : length (resize n d l) = n.
Proof. unfold resize. rewrite length_app, length_take, length_replicate. lia. Qed.

Lemma resize_grow {A} n (d : A) l :
  length l ≤ n → resize n d l = l ++ replicate (n - length l) d.
Proof. intros. unfold resize. by rewrite take_ge. Qed.

(** [iter().enumerate().rposition(p)] and [rfind]: the last match. *)
Fixpoint position {A} (p : A → bool) (l : list A) : option nat :=
  match l with
  | [] => None
  | x :: l => if p x then Some 0 else S <$> position p l
  end.

Fixpoint rposition {A} (p : A → bool) (l : list A) : option nat :=
  match l with
  | [] => None
  | x :: l =>
      match rposition p l with
      | Some i => Some (S i)
      | None => if p x then Some 0 else None
      end
  end.

Lemma rposition_None {A} (p : A → bool) l :
  rposition p l = None → ∀ j y, l !! j = Some y → p y = false.
Proof.
  induction l as [|a l IH]; simpl; [by intros _ j y; rewrite lookup_nil|].
  destruct (rposition p l); [done|]. destruct (p a) eqn:Ea; [done|].
  intros _ [|j] y; simpl; [naive_solver|]. by apply IH.
Qed.

Lemma rposition_Some {A} (p : A → bool) l i :
  rposition p l = Some i ↔
  (∃ x, l !! i = Some x ∧ p x = true) ∧
  ∀ j y, i < j → l !! j = Some y → p y = false.
Proof.
  revert i. induction l as [|x l IH]; intros i; simpl.
  { split; [done|]. intros [[y [Hy _]] _]. by rewrite lookup_nil in Hy. }
  destruct (rposition p l) as [k|] eqn:E.
  - destruct (proj1 (IH k) eq_refl) as [[y [Hy Hp]] Hlast]. split.
    + intros [= <-]. split; [by exists y |]. intros [|j] z ?; [lia|].
      simpl. intros. apply (Hlast j); [lia|done].
    + intros [[z [Hz Hpz]] Hl]. destruct i as [|i].
      * specialize (Hl (S k) y ltac:(lia) Hy). congruence.
      * f_equal. assert (Some k = Some i) as [=]; [|lia].
        apply IH. split; [by exists z|]. intros j w Hj. apply (Hl (S j)). lia.
  - pose proof (rposition_None p l E) as Hnone.
    destruct (p x) eqn:Ex; split.
    + intros [= <-]. split; [by exists x|]. intros [|j] y ?; [lia|]. apply Hnone.
    + intros [[z [Hz Hpz]] Hl]. destruct i as [|i]; [done|].
      apply Hnone in Hz. congruence.
    + done.
    + intros [[z [Hz Hpz]] Hl]. destruct i as [|i]; simpl in Hz; [congruence|].
      apply Hnone in Hz. congruence.
Qed.

(** [Vec::remove]. *)
Definition vec_remove {A} (i : nat) (l : list A) : list A := take i l ++ drop (S i) l.

(** [for (left, right) in l.iter_mut().zip(k)]: update the common prefix,
    leave the rest of [l] alone. *)
Fixpoint zip_update {A B} (f : A → B → A) (l : list A) (k : list B) : list A :=
  match l, k with
  | x :: l, y :: k => f x y :: zip_update f l k
  | l, _ => l
  end.

Lemma zip_update_length {A B} (f : A → B → A) l k :
  length (zip_update f l k) = length l.
Proof. revert k. induction l; intros [|??]; simpl; auto. Qed.

Lemma zip_update_lookup {A B} (f : A → B → A) l k i :
  zip_update f l k !! i =
    match l !! i, k !! i with Some x, Some y => Some (f x y) | o, _ => o end.
Proof.
  revert k i. induction l as [|x l IH]; intros [|y k] [|i]; simpl; auto.
  by destruct (l !! i).
Qed.

(** [iter().zip(..).all(..)] and [.any(..)]. *)
Definition zip_all {A B} (p : A → B → bool) (l : list A) (k : list B) : bool :=
  forallb (λ xy, p xy.1 xy.2) (zip l k).
Definition zip_any {A B} (p : A → B → bool) (l : list A) (k : list B) : bool :=
  existsb (λ xy, p xy.1 xy.2) (zip l k).

Lemma zip_all_spec {A B} (p : A → B → bool) l k :
  zip_all p l k = true ↔
  ∀ i x y, l !! i = Some x → k !! i = Some y → p x y = true.
Proof.
  unfold zip_all. revert k. induction l as [|x l IH]; intros [|y k]; simpl.
  1-3: split; [intros _ i ??; by rewrite ?lookup_nil | done].
  rewrite andb_true_iff, IH. split.
  - intros [??] [|i] ??; simpl; [by intros [= ->] [= ->] | eauto].
  - intros Hp. split; [by apply (Hp 0) | intros i; apply (Hp (S i))].
Qed.

Lemma zip_any_negb {A B} (p : A → B → bool) l k :
  zip_any p l k = negb (zip_all (λ x y, negb (p x y)) l k).
Proof.
  unfold zip_any, zip_all. induction (zip l k) as [|[x y] z IH]; simpl; [done|].
  rewrite IH. by destruct (p x y).
Qed.

Lemma drop_S_app {A} (l : list A) x k : drop (S (length l)) (l ++ x :: k) = k.
Proof. by induction l. Qed.

Lemma drop_S_lookup {A} (l : list A) i x : l !! i = Some x → drop i l = x :: drop (S i) l.
Proof. revert i. induction l as [|y l IH]; intros [|i]; simpl; naive_solver. Qed.

(** ** Binary search

    [slice::binary_search_by] of the standard library; [inl] is [Ok], [inr]
    is [Err]. *)
Fixpoint bsearch_loop {A} (fuel : nat) (f : A → comparison) (l : list A) (base size : nat) : nat :=
  match fuel with
  | O => base
  | S fuel =>
      if 1 <? size then
        let half := size / 2 in
        let mid := base + half in
        let base := match f <$> l !! mid with Some Gt => base | _ => mid end in
        bsearch_loop fuel f l base (size - half)
      else base
  end.

Definition binary_search_by {A} (f : A → comparison) (l : list A) : nat + nat :=
  match l with
  | [] => inr 0
  | _ =>
      let base := bsearch_loop (length l) f l 0 (length l) in
      match f <$> l !! base with
      | Some Eq => inl base
      | Some Lt => inr (S base)
      | _ => inr base
      end
  end.

(** The list is sorted for the probe: once it answers [Gt] ([Eq]) it never
    goes back to [Eq] ([Lt]). *)
Definition probe_sorted {A} (f : A → comparison) (l : list A) : Prop :=
  ∀ i j x y, i < j → l !! i = Some x → l !! j = Some y →
    (f x = Gt → f y = Gt) ∧ (f y = Lt → f x = Lt).

Lemma bsearch_loop_ok {A} (f : A → comparison) l fuel base size :
  probe_sorted f l → size ≤ fuel → 1 ≤ size → base + size ≤ length l →
  (∀ i x, i < base → l !! i = Some x → f x ≠ Gt) →
  (∀ i x, base + size ≤ i → l !! i = Some x → f x = Gt) →
  (base = 0 ∨ ∀ x, l !! base = Some x → f x ≠ Gt) →
  let r := bsearch_loop fuel f l base size in
  r < length l ∧ (r = 0 ∨ ∀ x, l !! r = Some x → f x ≠ Gt) ∧
  (∀ i x, i < r → l !! i = Some x → f x ≠ Gt) ∧
  (∀ i x, r < i → l !! i = Some x → f x = Gt).
Proof.
  intros Hs. revert base size.
  induction fuel as [|fuel IH]; intros base size Hf H1 Hlen Hlo Hhi Hb; [lia|].
  cbn [bsearch_loop]. cbv zeta. destruct (Nat.ltb_spec 1 size) as [Hsz|Hsz].
  - assert (1 ≤ size / 2 ∧ 2 * (size / 2) ≤ size) as [Hh1 Hh2].
    { split; [by apply Nat.div_le_lower_bound; lia|apply Nat.Div0.mul_div_le]. }
    remember (size / 2) as half eqn:Hhalf. clear Hhalf.
    destruct (lookup_lt_is_Some_2 l (base + half)) as [y Hy]; [lia|]. rewrite Hy. simpl.
    assert (f y ≠ Gt → ∀ i x, i < base + half → l !! i = Some x → f x ≠ Gt) as Hle.
    { intros Hny i x Hi Hx HG. apply Hny. by apply (Hs i (base + half) x y). }
    destruct (f y) eqn:Hc.
    + apply IH; [lia..|by apply Hle|intros i x Hi; apply Hhi; lia|].
      right. intros x. rewrite Hy. intros [= <-]. congruence.
    + apply IH; [lia..|by apply Hle|intros i x Hi; apply Hhi; lia|].
      right. intros x. rewrite Hy. intros [= <-]. congruence.
    + apply IH; [lia..|done| |done]. intros i x Hi Hx. destruct (decide (i = base + half)) as [->|].
      * by rewrite Hy in Hx; injection Hx as <-.
      * apply (Hs (base + half) i y x); [lia|done..].
  - assert (size = 1) as -> by lia. split_and!; [lia|done|done|]. intros i x Hi. apply Hhi. lia.
Qed.

(** What the search returns, for any list sorted for the probe. *)
Lemma binary_search_by_spec {A} (f : A → comparison) l :
  probe_sorted f l →
  match binary_search_by f l with
  | inl i => ∃ x, l !! i = Some x ∧ f x = Eq
  | inr i => i ≤ length l ∧ (∀ j x, j < i → l !! j = Some x → f x = Lt) ∧
      (∀ j x, i ≤ j → l !! j = Some x → f x = Gt)
  end.
Proof.
  intros Hs. unfold binary_search_by. destruct l as [|x0 l]; [by split_and!|].
  set (k := x0 :: l) in *.
  destruct (bsearch_loop_ok f k (length k) 0 (length k) Hs) as (Hr & Hz & Hlo & Hhi);
    [simpl; lia..| |by left|].
  { intros i x Hi Hx. apply lookup_lt_Some in Hx. simpl in *. lia. }
  set (r := bsearch_loop _ _ _ _ _) in *. clearbody r k.
  destruct (lookup_lt_is_Some_2 k r Hr) as [y Hy]. rewrite Hy. simpl.
  destruct (f y) eqn:Hc.
  - by exists y.
  - split_and!; [lia| |intros j x Hj; apply Hhi; lia].
    intros j x Hj Hx. destruct (decide (j = r)) as [->|]; [congruence|].
    apply (Hs j r x y); [lia|done..].
  - split_and!; [lia| |].
    + destruct Hz as [->|Hz]; [lia|]. by apply Hz in Hy.
    + intros j x Hj Hx. destruct (decide (j = r)) as [->|]; [congruence|]. apply Hhi with j; [lia|done].
Qed.

(** ** Invariants of step relations *)
Lemma rtc_preserves {S} (R : S → S → Prop) (P : S → Prop) :
  (∀ s s', P s → R s s' → P s') → ∀ s s', rtc R s s' → P s → P s'.
Proof. intros Hs s s'. induction 1; eauto. Qed.

(** [std::cmp::max] is associative and absorbs smaller arguments. *)
Section cmp_max_facts.
Context `{HO : Ord A}.
Local Open Scope ord_scope.

Lemma cmp_max_eq_r (x y : A) : x ≼ y → cmp_max x y = y.
Proof. intros H. unfold cmp_max. by rewrite (proj2 (leb_le x y) H). Qed.

Lemma cmp_max_eq_l (x y : A) : y ≼ x → cmp_max x y = x.
Proof.
  intros H. unfold cmp_max. destruct (leb x y) eqn:E; [|done].
  apply leb_le in E. by apply cmp_le_antisym.
Qed.

Lemma cmp_max_assoc (x y z : A) : cmp_max (cmp_max x y) z = cmp_max x (cmp_max y z).
Proof.
  apply cmp_le_antisym.
  - apply cmp_max_lub; [apply cmp_max_lub|]; [apply cmp_max_l| |];
      (eapply cmp_le_trans; [|apply cmp_max_r]); [apply cmp_max_l|apply cmp_max_r].
  - apply cmp_max_lub; [|apply cmp_max_lub]; [| |apply cmp_max_r];
      (eapply cmp_le_trans; [|apply cmp_max_l]); [apply cmp_max_l|apply cmp_max_r].
Qed.
End cmp_max_facts.
