(* ===== verification/Clock.v ===== *)
(** * Logical clocks ([crates/clock/src/clock.rs])

    Lamport timestamps and version vectors.  [Global] is the version vector
    that every buffer carries; its well-formedness ([Global_wf]: no trailing
    zero entry) is what makes the length comparisons in [observed_all] and
    [changed_since] decide the pointwise order. *)

From S2P Require Import Prelude.

Local Open Scope N_scope.

(** ** Data *)

Abbreviation ReplicaId := N.
Abbreviation Seq := N.

Definition LOCAL : ReplicaId := 0.
Definition REMOTE_SERVER : ReplicaId := 1.
Definition AGENT : ReplicaId := 2.
Definition LOCAL_BRANCH : ReplicaId := 3.
Definition FIRST_COLLAB_ID : ReplicaId := 8.

Definition is_remote (r : ReplicaId) : bool :=
  (r =? REMOTE_SERVER) || (FIRST_COLLAB_ID <=? r).

Record Lamport := mkLamport { value : Seq; replica_id : ReplicaId }.
Record Global := mkGlobal { values : list N }.

#[export] Instance Lamport_eq_dec : EqDecision Lamport.
Proof. solve_decision. Defined.
#[export] Instance Global_eq_dec : EqDecision Global.
Proof. solve_decision. Defined.

(** [impl Ord for Lamport]: by value, ties broken by the replica id. *)
Definition Lamport_key (t : Lamport) : N * N := (value t, replica_id t).
#[export] Instance Lamport_Ord : Ord Lamport.
Proof. refine (inj_Ord Lamport_key _). by intros [??] [??] [= -> ->]. Defined.

#[export] Instance Lamport_countable : Countable Lamport.
Proof.
  refine (inj_countable' Lamport_key (λ p, mkLamport p.1 p.2) _). by intros [??].
Defined.

(** ** Version vectors *)

Definition new_global : Global := mkGlobal [].

Definition get (g : Global) (r : ReplicaId) : Seq :=
  default 0 (values g !! N.to_nat r).

(** The body of [observe] below its assertion: [entry = max(entry,
    timestamp.value)] after growing the vector; a zero timestamp is ignored. *)
Definition observe (g : Global) (t : Lamport) : Global :=
  if 0 <? value t then
    let ix := N.to_nat (replica_id t) in
    let new_len := S ix in
    let vals :=
      if (length (values g) <? new_len)%nat then resize new_len 0 (values g)
      else values g in
    mkGlobal (alter (λ entry, N.max entry (value t)) ix vals)
  else g.

(** [debug_assert_ne!(timestamp.replica_id, Lamport::MAX.replica_id)]: the
    replica id 65535 is reserved. *)
Definition observe_asserts (t : Lamport) : bool := negb (replica_id t =? u16_max).
(** [observe] with its assertion. *)
Definition try_observe (g : Global) (t : Lamport) : option Global :=
  if observe_asserts t then Some (observe g t) else None.

Definition grow_to (n : nat) (l : list N) : list N :=
  if (length l <? n)%nat then resize n 0 l else l.

Definition join (g other : Global) : Global :=
  mkGlobal (zip_update N.max (grow_to (length (values other)) (values g)) (values other)).

(** One iteration of the loop of [meet]. *)
Definition meet_entry (left right : N) : N :=
  match left, right with
  | 0, _ => right
  | _, 0 => left
  | _, _ => N.min left right
  end.

(** The loop over [iter_mut().zip(..).enumerate()]: the updated vector and the
    final [new_len]. *)
Fixpoint meet_loop (ix new_len : nat) (ls rs : list N) : list N * nat :=
  match ls, rs with
  | l :: ls, r :: rs =>
      let l' := meet_entry l r in
      let new_len := if l' =? 0 then new_len else S ix in
      let '(ls', n) := meet_loop (S ix) new_len ls rs in
      (l' :: ls', n)
  | ls, _ => (ls, new_len)
  end.

Definition meet (g other : Global) : Global :=
  let vals := grow_to (length (values other)) (values g) in
  let '(vals', new_len) := meet_loop 0 0 vals (values other) in
  if (length (values other) =? length vals')%nat
  then mkGlobal (take new_len vals') else mkGlobal vals'.

Definition observed (g : Global) (t : Lamport) : bool := value t <=? get g (replica_id t).

Definition iter (g : Global) : list Lamport :=
  imap (λ ix v, mkLamport v (wrap_u16 (N.of_nat ix))) (values g).

Definition observed_any (g other : Global) : bool :=
  zip_any (λ l r, (0 <? value r) && (value r <=? value l)) (iter g) (iter other).

Definition observed_all (g other : Global) : bool :=
  if (length (values g) <? length (values other))%nat then false
  else zip_all (λ l r, value r <=? value l) (iter g) (iter other).

Definition changed_since (g other : Global) : bool :=
  (length (values other) <? length (values g))%nat
  || zip_any (λ l r, r <? l) (values g) (values other).

(** [Iterator::max_by_key]: the last of the maximal elements. *)
Fixpoint max_by_value (best : Lamport) (l : list Lamport) : Lamport :=
  match l with
  | [] => best
  | t :: l => max_by_value (if value best <=? value t then t else best) l
  end.

Definition most_recent (g : Global) : option Lamport :=
  match iter g with [] => None | t :: l => Some (max_by_value t l) end.

Definition from_iter (locals : list Lamport) : option Global := foldl (λ g t, g ← g; try_observe g t) (Some new_global) locals.

(** ** Lamport clocks *)

Definition LAMPORT_MIN : Lamport := mkLamport 0 0.
Definition LAMPORT_MAX : Lamport := mkLamport u32_max u16_max.

Definition new_lamport (r : ReplicaId) : Lamport := mkLamport 1 r.

Definition as_u64 (t : Lamport) : N := N.lor (N.shiftl (value t) 32) (replica_id t).

(** [tick] returns the old timestamp and advances the clock (the addition
    wraps in release builds). *)
Definition tick (c : Lamport) : Lamport * Lamport :=
  (c, mkLamport (wrap_u32 (value c + 1)) (replica_id c)).

Definition lamport_observe (c t : Lamport) : Lamport :=
  mkLamport (wrap_u32 (N.max (value c) (value t) + 1)) (replica_id c).

(** ** Invariants *)

Definition wf_values (l : list N) : Prop := Forall is_u32 l ∧ last l ≠ Some 0.
Definition Global_wf (g : Global) : Prop := wf_values (values g).
(** The ids replicas may have: [Lamport::MAX]'s is reserved. *)
Definition is_replica (r : ReplicaId) : Prop := r < u16_max.
Definition Lamport_wf (t : Lamport) : Prop := is_u32 (value t) ∧ is_replica (replica_id t).

#[export] Instance Lamport_wf_dec t : Decision (Lamport_wf t).
Proof. unfold Lamport_wf, is_u32, is_replica. apply _. Defined.

#[export] Instance Global_wf_dec g : Decision (Global_wf g).
Proof. unfold Global_wf, wf_values, is_u32. apply _. Defined.

(** Reading position [i] of a vector, absent entries counting as zero. *)
Declare Scope clock_scope.
Notation "g @ i" := (default 0 (values g !! i)) (at level 20) : clock_scope.
Local Open Scope clock_scope.

Lemma get_at g r : get g r = g @ N.to_nat r.
Proof. done. Qed.

Lemma wf_values_at l i : Forall is_u32 l → is_u32 (default 0 (l !! i)).
Proof.
  intros Hl. destruct (l !! i) eqn:E; simpl; [by eapply Forall_lookup_1 | done].
Qed.

(** The last entry of a well-formed vector is positive. *)
Lemma wf_values_last l i :
  wf_values l → length l = S i → 0 < default 0 (l !! i).
Proof.
  intros [Hall Hlast] Hlen. rewrite last_lookup, Hlen in Hlast. simpl in Hlast.
  destruct (lookup_lt_is_Some_2 l i ltac:(lia)) as [x Hx]. rewrite Hx in *. simpl.
  eapply Forall_lookup_1 in Hx as Hx'; [|done]. unfold is_u32 in Hx'.
  assert (x ≠ 0) by (by intros ->). lia.
Qed.

(** A vector dominating another one pointwise is at least as long. *)
Lemma wf_values_dom_length l k :
  wf_values k → (∀ i, default 0 (k !! i) ≤ default 0 (l !! i)) →
  (length k ≤ length l)%nat.
Proof.
  intros Hk Hle. destruct (length k) as [|n] eqn:E; [lia|].
  pose proof (wf_values_last k n Hk E) as Hpos. specialize (Hle n).
  destruct (decide (length l ≤ n)%nat) as [Hn|]; [|lia].
  rewrite (lookup_ge_None_2 l n Hn) in Hle. simpl in Hle. lia.
Qed.

Lemma wf_values_intro l :
  (∀ i, is_u32 (default 0 (l !! i))) →
  (∀ n, length l = S n → 0 < default 0 (l !! n)) → wf_values l.
Proof.
  intros Hall Hlast. split.
  - apply Forall_lookup_2. intros i x Hx. specialize (Hall i). by rewrite Hx in Hall.
  - rewrite last_lookup. intros Hl. pose proof (lookup_lt_Some _ _ _ Hl).
    specialize (Hlast (pred (length l)) ltac:(lia)). rewrite Hl in Hlast. simpl in Hlast. lia.
Qed.

(** Well-formed version vectors are determined by their entries. *)
Lemma Global_ext g h : Global_wf g → Global_wf h → (∀ i, g @ i = h @ i) → g = h.
Proof.
  destruct g as [l], h as [k]. unfold Global_wf; simpl. intros Hl Hk Heq. f_equal.
  assert (length l = length k) as Hlen.
  { apply Nat.le_antisymm; apply wf_values_dom_length; auto; intros i; rewrite Heq; lia. }
  apply list_eq_same_length with (length l); [done|lia|].
  intros i x y Hi Hx Hy. specialize (Heq i). rewrite Hx, Hy in Heq. by simpl in Heq.
Qed.

(** ** The operations entry by entry *)

Lemma grow_to_lookup n l i : default 0 (grow_to n l !! i) = default 0 (l !! i).
Proof.
  unfold grow_to. destruct (Nat.ltb_spec (length l) n); [|done].
  rewrite resize_grow by lia. destruct (decide (i < length l)%nat).
  - by rewrite lookup_app_l.
  - rewrite lookup_app_r by lia. rewrite (lookup_ge_None_2 l i) by lia. simpl.
    destruct (replicate _ _ !! _) eqn:E; [|done].
    by apply lookup_replicate in E as [-> _].
Qed.

Lemma grow_to_length n l : length (grow_to n l) = Nat.max n (length l).
Proof.
  unfold grow_to. destruct (Nat.ltb_spec (length l) n); [rewrite resize_length|]; lia.
Qed.

Lemma grow_to_u32 n l : Forall is_u32 l → Forall is_u32 (grow_to n l).
Proof.
  intros Hl. unfold grow_to. destruct (_ <? _)%nat; [|done].
  unfold resize. apply Forall_app; split; [by apply Forall_take|].
  apply Forall_replicate. done.
Qed.

Lemma observe_eq g t :
  0 < value t →
  observe g t = mkGlobal (alter (λ entry, N.max entry (value t)) (N.to_nat (replica_id t))
                 (grow_to (S (N.to_nat (replica_id t))) (values g))).
Proof. intros Ht. unfold observe, grow_to. by rewrite (proj2 (N.ltb_lt _ _) Ht). Qed.

Lemma observe_at g t i :
  observe g t @ i =
    if decide (i = N.to_nat (replica_id t)) then N.max (g @ i) (value t) else g @ i.
Proof.
  destruct (decide (0 < value t)) as [Hpos|].
  - rewrite observe_eq by done. simpl. rewrite list_lookup_alter.
    destruct (decide (i = _)) as [->|Hne].
    + rewrite decide_True by done.
      pose proof (grow_to_length (S (N.to_nat (replica_id t))) (values g)).
      destruct (lookup_lt_is_Some_2 (grow_to (S (N.to_nat (replica_id t))) (values g))
        (N.to_nat (replica_id t))) as [x Hx]; [lia|].
      pose proof (grow_to_lookup (S (N.to_nat (replica_id t))) (values g)
        (N.to_nat (replica_id t))) as Hg'.
      rewrite Hx in Hg' |- *. simpl in Hg' |- *. by rewrite <- Hg'.
    + rewrite decide_False by done. by rewrite grow_to_lookup.
  - unfold observe. rewrite (proj2 (N.ltb_ge _ _)) by lia.
    case_decide; lia.
Qed.

Lemma join_at g h i :
  join g h @ i = N.max (g @ i) (h @ i).
Proof.
  unfold join. simpl. rewrite zip_update_lookup.
  pose proof (grow_to_lookup (length (values h)) (values g) i) as Hgi.
  pose proof (grow_to_length (length (values h)) (values g)).
  destruct (values h !! i) as [y|] eqn:Eh; simpl.
  - apply lookup_lt_Some in Eh.
    destruct (lookup_lt_is_Some_2 (grow_to (length (values h)) (values g)) i) as [x Hx]; [lia|].
    rewrite Hx in *. simpl in *. lia.
  - destruct (grow_to _ _ !! i); simpl in *; lia.
Qed.

Lemma join_length g h :
  length (values (join g h)) = Nat.max (length (values h)) (length (values g)).
Proof. unfold join; simpl. by rewrite zip_update_length, grow_to_length. Qed.

Lemma join_wf g h : Global_wf g → Global_wf h → Global_wf (join g h).
Proof.
  intros Hg Hh. apply wf_values_intro; intros n; rewrite join_at.
  - pose proof (wf_values_at _ n (proj1 Hg)). pose proof (wf_values_at _ n (proj1 Hh)).
    unfold is_u32 in *. lia.
  - rewrite join_length. intros Hlen.
    destruct (decide (length (values g) ≤ length (values h))%nat).
    + pose proof (wf_values_last _ n Hh ltac:(lia)). lia.
    + pose proof (wf_values_last _ n Hg ltac:(lia)). lia.
Qed.

(** The assertion of [observe] holds of every timestamp of a replica. *)
Lemma try_observe_ok g t : Lamport_wf t → try_observe g t = Some (observe g t).
Proof. intros [_ H]. unfold try_observe, observe_asserts. unfold is_replica in H. by rewrite (proj2 (N.eqb_neq _ _)) by lia. Qed.

Lemma observe_wf g t : Global_wf g → Lamport_wf t → Global_wf (observe g t).
Proof.
  intros Hg [Ht _]. unfold is_u32 in Ht.
  destruct (decide (0 < value t)) as [Hpos|].
  2:{ unfold observe. by rewrite (proj2 (N.ltb_ge _ _)) by lia. }
  apply wf_values_intro; intros n; rewrite observe_at.
  - pose proof (wf_values_at _ n (proj1 Hg)). unfold is_u32 in *. case_decide; lia.
  - rewrite observe_eq by done. simpl. rewrite length_alter, grow_to_length. intros Hlen.
    case_decide; [lia|]. pose proof (wf_values_last _ n Hg ltac:(lia)). lia.
Qed.

(** The pointwise order on version vectors. *)
Definition global_le (g h : Global) : Prop := ∀ i, g @ i ≤ h @ i.

Lemma zip_all_le l k :
  Forall is_u32 l → (length k ≤ length l)%nat →
  zip_all (λ x y, y <=? x) l k = true ↔ ∀ i, default 0 (k !! i) ≤ default 0 (l !! i).
Proof.
  intros Hl Hlen. rewrite zip_all_spec. split.
  - intros Hall i. destruct (k !! i) as [y|] eqn:Ek; simpl.
    + pose proof (lookup_lt_Some _ _ _ Ek).
      destruct (lookup_lt_is_Some_2 l i ltac:(lia)) as [x Hx]. rewrite Hx. simpl.
      apply N.leb_le. eauto.
    + lia.
  - intros Hle i x y Hx Hy. specialize (Hle i). rewrite Hx, Hy in Hle. by apply N.leb_le.
Qed.

(** Comparing the iterators compares the entries. *)
Lemma iter_zip_all (p : N → N → bool) g h :
  zip_all (λ l r, p (value l) (value r)) (iter g) (iter h) =
  zip_all p (values g) (values h).
Proof.
  apply eq_iff_eq_true. rewrite !zip_all_spec. unfold iter.
  setoid_rewrite list_lookup_imap. split.
  - intros Hall i x y Hx Hy.
    apply (Hall i (mkLamport x (wrap_u16 (N.of_nat i))) (mkLamport y (wrap_u16 (N.of_nat i))));
      by rewrite ?Hx, ?Hy.
  - intros Hall i x y (a & Ha & ->)%fmap_Some (b & Hb & ->)%fmap_Some. eauto.
Qed.

Lemma observed_all_le g h :
  Global_wf g → Global_wf h → observed_all g h = true ↔ global_le h g.
Proof.
  intros Hg Hh. unfold observed_all, global_le.
  destruct (Nat.ltb_spec (length (values g)) (length (values h))).
  - split; [done|]. intros Hle. apply wf_values_dom_length in Hle; [lia|done].
  - rewrite (iter_zip_all (λ x y, y <=? x)). apply zip_all_le; [apply Hg|done].
Qed.

Lemma changed_since_le g h :
  Global_wf g → Global_wf h → changed_since g h = false ↔ global_le g h.
Proof.
  intros Hg Hh. unfold changed_since, global_le. rewrite orb_false_iff, Nat.ltb_ge.
  rewrite zip_any_negb, negb_false_iff.
  assert (∀ x y, negb (y <? x) = (x <=? y)) as Hneg by (intros; by rewrite N.leb_antisym).
  split.
  - intros [Hlen Hall] i. rewrite zip_all_spec in Hall.
    destruct (values g !! i) as [x|] eqn:Ex; simpl; [|lia].
    pose proof (lookup_lt_Some _ _ _ Ex).
    destruct (lookup_lt_is_Some_2 (values h) i ltac:(lia)) as [y Hy]. rewrite Hy. simpl.
    specialize (Hall i x y Ex Hy). rewrite Hneg in Hall. by apply N.leb_le.
  - intros Hle. split; [by apply wf_values_dom_length|].
    apply zip_all_spec. intros i x y Hx Hy. specialize (Hle i).
    rewrite Hx, Hy in Hle. simpl in Hle. rewrite Hneg. by apply N.leb_le.
Qed.

(** ** Meet *)

Lemma meet_entry_eq l r :
  meet_entry l r = if l =? 0 then r else if r =? 0 then l else N.min l r.
Proof. unfold meet_entry. by destruct l, r. Qed.

Lemma meet_entry_u32 l r : is_u32 l → is_u32 r → is_u32 (meet_entry l r).
Proof.
  rewrite meet_entry_eq. unfold is_u32.
  destruct (N.eqb_spec l 0); [lia|]. destruct (N.eqb_spec r 0); lia.
Qed.

(** The loop of [meet] updates the common prefix with [meet_entry] and counts
    up to the last non-zero entry of that prefix. *)
Lemma meet_loop_vals ix n ls rs : (meet_loop ix n ls rs).1 = zip_update meet_entry ls rs.
Proof.
  revert ix n rs. induction ls as [|l ls IH]; intros ix n [|r rs]; simpl; [done..|].
  specialize (IH (S ix) (if meet_entry l r =? 0 then n else S ix) rs).
  destruct (meet_loop _ _ ls rs). simpl in *. by rewrite IH.
Qed.

(** [n] is one past the last non-zero entry of the first [k] entries of [l]. *)
Definition trimmed (l : list N) (n : nat) : Prop :=
  (∀ i, (n ≤ i)%nat → default 0 (l !! i) = 0) ∧
  (∀ m, n = S m → default 0 (l !! m) ≠ 0).

Lemma meet_loop_len ix n ls rs :
  length ls = length rs →
  let '(vals, n') := meet_loop ix n ls rs in
  (n' = n ∧ trimmed vals 0) ∨ ∃ m, (n' = ix + m)%nat ∧ (0 < m)%nat ∧ trimmed vals m.
Proof.
  revert ix n rs. induction ls as [|l ls IH]; intros ix n [|r rs]; simpl; intros Hlen; try done.
  { left. split; [done|]. by split. }
  injection Hlen as Hlen.
  specialize (IH (S ix) (if meet_entry l r =? 0 then n else S ix) rs Hlen).
  destruct (meet_loop _ _ ls rs) as [vals n']. simpl.
  destruct IH as [[-> [Hz _]]|(m & -> & Hm & Hz & Hnz)].
  - destruct (N.eqb_spec (meet_entry l r) 0) as [->|Hne].
    + left. split; [done|]. split; [|done]. intros [|i] _; simpl; [done|]. apply Hz. lia.
    + right. exists 1%nat. split_and!; [lia..|]. split.
      * intros [|i] ?; [lia|]. simpl. apply Hz. lia.
      * by intros m [= <-].
  - right. exists (S m). split_and!; [lia..|]. split.
    + intros [|i] ?; [lia|]. simpl. apply Hz. lia.
    + intros m' [= ->]. destruct m' as [|m']; [lia|]. simpl. by apply Hnz.
Qed.

Lemma meet_at g h i :
  meet g h @ i = meet_entry (g @ i) (h @ i).
Proof.
  unfold meet.
  set (vals := grow_to _ _).
  pose proof (meet_loop_vals 0 0 vals (values h)) as Hvals.
  pose proof (grow_to_length (length (values h)) (values g)) as Hlen. fold vals in Hlen.
  assert (∀ i, default 0 (zip_update meet_entry vals (values h) !! i)
    = meet_entry (g @ i) (h @ i)) as Hat.
  { intros j. rewrite zip_update_lookup.
    pose proof (grow_to_lookup (length (values h)) (values g) j) as Hj. fold vals in Hj.
    rewrite <- Hj. rewrite meet_entry_eq.
    destruct (values h !! j) as [y|] eqn:Eh; simpl.
    - apply lookup_lt_Some in Eh.
      destruct (lookup_lt_is_Some_2 vals j) as [x Hx]; [lia|]. rewrite Hx. simpl.
      apply meet_entry_eq.
    - destruct (vals !! j) as [z|]; simpl; [|done]. destruct (N.eqb_spec z 0); done. }
  pose proof (meet_loop_len 0 0 vals (values h)) as Hloop.
  destruct (meet_loop 0 0 vals (values h)) as [vals' n]. simpl in Hvals. subst vals'.
  destruct (Nat.eqb_spec (length (values h)) (length (zip_update meet_entry vals (values h))))
    as [Heq|Hne]; simpl; [|apply Hat].
  rewrite zip_update_length in Heq. rewrite <- Hat.
  destruct (decide (i < n)%nat); [by rewrite lookup_take_lt|].
  rewrite lookup_take_ge by lia. simpl. symmetry.
  destruct (Hloop (eq_sym Heq)) as [[-> [Hz _]]|(m & -> & _ & Hz & _)]; apply Hz; lia.
Qed.

Lemma meet_wf g h : Global_wf g → Global_wf h → Global_wf (meet g h).
Proof.
  intros Hg Hh. apply wf_values_intro.
  { intros i. rewrite meet_at.
    apply meet_entry_u32; apply wf_values_at; [apply Hg|apply Hh]. }
  intros n Hn. rewrite meet_at.
  pose proof (meet_entry_u32 _ _ (wf_values_at _ n (proj1 Hg)) (wf_values_at _ n (proj1 Hh))) as Hu.
  enough (meet_entry (g @ n) (h @ n) ≠ 0) by (unfold is_u32 in Hu; lia).
  clear Hu.
  rewrite <- meet_at. revert Hn. unfold meet.
  set (vals := grow_to _ _).
  pose proof (grow_to_length (length (values h)) (values g)) as Hlen. fold vals in Hlen.
  pose proof (meet_loop_vals 0 0 vals (values h)) as Hvals.
  pose proof (meet_loop_len 0 0 vals (values h)) as Hloop.
  destruct (meet_loop 0 0 vals (values h)) as [vals' m]. simpl in Hvals. subst vals'.
  destruct (Nat.eqb_spec (length (values h)) (length (zip_update meet_entry vals (values h))))
    as [Heq|Hne]; simpl.
  - rewrite zip_update_length in Heq. rewrite length_take, zip_update_length.
    destruct (Hloop (eq_sym Heq)) as [[-> _]|(k & -> & Hk & _ & Hnz)]; [lia|].
    intros Hn. rewrite lookup_take_lt by lia. simpl. simpl in Hn.
    destruct (decide (k ≤ length vals)%nat) as [|Hk']; [apply Hnz; lia|].
    specialize (Hnz (pred k) ltac:(lia)).
    rewrite lookup_ge_None_2 in Hnz by (rewrite zip_update_length; lia). done.
  - rewrite zip_update_length in *. intros Hn.
    rewrite zip_update_lookup, (lookup_ge_None_2 (values h) n) by lia.
    pose proof (wf_values_last _ n Hg ltac:(lia)).
    pose proof (grow_to_lookup (length (values h)) (values g) n) as Hg'. fold vals in Hg'.
    destruct (vals !! n); simpl in *; lia.
Qed.

(** ** Lamport clocks *)

(** [as_u64] packs without overlap. *)
Lemma as_u64_add t : Lamport_wf t → as_u64 t = value t * 2 ^ 32 + replica_id t.
Proof.
  intros [Hv Hr]. unfold as_u64, is_u32, is_replica, u32_max, u16_max in *.
  rewrite N.shiftl_mul_pow2.
  enough (N.land (value t * 2 ^ 32) (replica_id t) = 0) as H0.
  { by rewrite <- N.lxor_lor, <- N.add_nocarry_lxor. }
  apply N.bits_inj. intros n.
  rewrite N.land_spec, N.bits_0. destruct (decide (n < 32)).
  - rewrite N.mul_pow2_bits_low by lia. done.
  - rewrite (N.bits_above_log2 (replica_id t)); [by rewrite andb_false_r|].
    destruct (decide (replica_id t = 0)) as [->|]; [by simpl; lia|].
    apply N.log2_lt_pow2; [lia|].
    assert (2 ^ 32 ≤ 2 ^ n) by (apply N.pow_le_mono_r; lia). lia.
Qed.

Lemma tick_lt c : is_u32 (value c + 1) → (c ≺ (tick c).2)%ord.
Proof.
  intros Hc. simpl. rewrite wrap_u32_small by done.
  rewrite (proj2 (N.compare_lt_iff _ _)); [done|lia].
Qed.

Lemma lamport_observe_lt c t :
  is_u32 (N.max (value c) (value t) + 1) →
  (c ≺ lamport_observe c t)%ord ∧ (t ≺ lamport_observe c t)%ord.
Proof.
  intros Hc. simpl. rewrite wrap_u32_small by done.
  by split; rewrite (proj2 (N.compare_lt_iff _ _)) by lia.
Qed.

Lemma observe_comm g t u :
  Global_wf g → Lamport_wf t → Lamport_wf u →
  observe (observe g t) u = observe (observe g u) t.
Proof.
  intros Hg Ht Hu.
  pose proof (observe_wf g t Hg Ht) as Hgt. pose proof (observe_wf g u Hg Hu) as Hgu.
  apply Global_ext; [apply observe_wf; assumption..|]. intros i.
  rewrite !observe_at.
  repeat case_decide; lia.
Qed.

Lemma foldl_observe_wf l g :
  Global_wf g → Forall Lamport_wf l → Global_wf (foldl observe g l).
Proof.
  intros Hg Hl. revert g Hg. induction Hl; simpl; [done|]. intros. by apply IHHl, observe_wf.
Qed.

Lemma foldl_observe_perm l k g :
  l ≡ₚ k → Global_wf g → Forall Lamport_wf l → foldl observe g l = foldl observe g k.
Proof.
  intros Hp. revert g. induction Hp; simpl; intros g Hg Hl; decompose_Forall_hyps.
  - done.
  - apply IHHp; [by apply observe_wf|done].
  - by rewrite observe_comm.
  - rewrite IHHp1 by done. apply IHHp2; [done|]. by rewrite <- Hp1.
Qed.

Lemma new_global_wf : Global_wf new_global.
Proof. by split. Qed.

Create HintDb clock.
#[export] Hint Resolve join_wf observe_wf meet_wf new_global_wf foldl_observe_wf : clock.
#[export] Hint Rewrite join_at observe_at meet_at : clock.

(** ** Properties *)

(** [observed_all] decides the pointwise order of version vectors: on
    vectors without trailing zeros [observed_all a b] holds exactly when every
    replica's sequence number in [b] is at most the one in [a], and
    [changed_since a b] is its exact complement with the arguments swapped. *)
Theorem observed_all_pointwise a b :
  Global_wf a → Global_wf b →
  (observed_all a b = true ↔ ∀ r : ReplicaId, get b r ≤ get a r) ∧
  changed_since b a = negb (observed_all a b).
Proof.
  intros Ha Hb. split.
  - rewrite observed_all_le by done. unfold global_le, get. split; [auto|].
    intros Hle i. specialize (Hle (N.of_nat i)). by rewrite Nat2N.id in Hle.
  - pose proof (observed_all_le a b Ha Hb). pose proof (changed_since_le b a Hb Ha).
    destruct (changed_since b a), (observed_all a b); naive_solver.
Qed.

Example observed_all_pointwise_witness :
  observed_all (mkGlobal [3; 0; 2]) (mkGlobal [1; 0; 2]) = true ∧
  changed_since (mkGlobal [1; 0; 2]) (mkGlobal [3; 0; 2]) =
    negb (observed_all (mkGlobal [3; 0; 2]) (mkGlobal [1; 0; 2])).
Proof.
  split; [reflexivity|].
  apply (observed_all_pointwise (mkGlobal [3; 0; 2]) (mkGlobal [1; 0; 2]));
    by apply (bool_decide_unpack _).
Defined.

(** [join] is the least upper bound of two version vectors: a version has
    observed the join exactly when it has observed both arguments, and the
    join is well formed again. *)
Theorem join_lub a b c :
  Global_wf a → Global_wf b → Global_wf c →
  Global_wf (join a b) ∧
  observed_all c (join a b) = observed_all c a && observed_all c b.
Proof.
  intros Ha Hb Hc. pose proof (join_wf a b Ha Hb) as Hj. split; [done|].
  apply eq_iff_eq_true. rewrite andb_true_iff, !observed_all_le by done.
  unfold global_le. setoid_rewrite join_at. split.
  - intros Hle. split; intros i; specialize (Hle i); lia.
  - intros [H1 H2] i. specialize (H1 i). specialize (H2 i). lia.
Qed.

Example join_lub_witness :
  Global_wf (join (mkGlobal [3]) (mkGlobal [0; 5])) ∧
  observed_all (mkGlobal [3; 5]) (join (mkGlobal [3]) (mkGlobal [0; 5])) = true.
Proof.
  destruct (join_lub (mkGlobal [3]) (mkGlobal [0; 5]) (mkGlobal [3; 5])) as [Hwf Heq];
    [by apply (bool_decide_unpack _)..|].
  split; [exact Hwf|]. rewrite Heq. reflexivity.
Defined.

Lemma clock_from_iter_ok l : Forall Lamport_wf l → from_iter l = Some (foldl observe new_global l).
Proof.
  unfold from_iter. generalize new_global. induction l as [|t l IH]; intros g Hl; [done|]. apply Forall_cons in Hl as [Ht Hl].
  cbn [foldl]. cbn [mbind option_bind]. rewrite try_observe_ok by done. by apply IH.
Qed.

(** The version vector built from a set of timestamps does not depend on
    the order in which they arrive, and it has observed each of them. *)
Theorem from_iter_order_independent l k :
  l ≡ₚ k → Forall Lamport_wf l →
  ∃ g, from_iter l = Some g ∧ from_iter k = Some g ∧ ∀ t, t ∈ l → observed g t = true.
Proof.
  intros Hp Hl. exists (foldl observe new_global k). rewrite (clock_from_iter_ok k) by by rewrite <- Hp.
  rewrite (clock_from_iter_ok l) by done.
  pose proof (foldl_observe_perm l k new_global Hp new_global_wf Hl) as Heq.
  split; [by rewrite Heq|]. split; [done|]. rewrite <- Heq. clear Hp k Heq. revert Hl.
  induction l as [|u l IH] using rev_ind; intros Hl t; [by rewrite elem_of_nil|].
  apply Forall_app in Hl as [Hl Hu]. rewrite Forall_singleton in Hu.
  rewrite foldl_app, elem_of_app, list_elem_of_singleton. simpl. unfold observed, get.
  rewrite observe_at.
  intros [Ht| ->].
  - apply (IH Hl), N.leb_le in Ht. unfold get in Ht. apply N.leb_le. case_decide; lia.
  - rewrite decide_True by done. apply N.leb_le. lia.
Qed.

Example from_iter_order_independent_witness :
  ∃ g, from_iter [mkLamport 4 1; mkLamport 2 0] = Some g ∧ from_iter [mkLamport 2 0; mkLamport 4 1] = Some g ∧
    ∀ t, t ∈ [mkLamport 4 1; mkLamport 2 0] → observed g t = true.
Proof.
  apply (from_iter_order_independent [mkLamport 4 1; mkLamport 2 0]).
  - apply Permutation_swap.
  - repeat constructor; discriminate.
Defined.

(** packing a timestamp with [as_u64] preserves the order of timestamps
    (value first, replica id as the tie breaker), so it is injective too. *)
Theorem as_u64_order a b :
  Lamport_wf a → Lamport_wf b → (as_u64 a ?= as_u64 b) = cmp a b.
Proof.
  intros Ha Hb. rewrite !as_u64_add by done.
  destruct a as [v r], b as [v' r'], Ha as [Hv Hr], Hb as [Hv' Hr']. simpl in *.
  unfold is_u32, is_replica, u32_max, u16_max in *. unfold then_with.
  destruct (N.compare_spec v v') as [->|?|?].
  - destruct (N.compare_spec r r'); subst.
    + by rewrite N.compare_refl.
    + apply N.compare_lt_iff. lia.
    + apply N.compare_gt_iff. lia.
  - apply N.compare_lt_iff. lia.
  - apply N.compare_gt_iff. lia.
Qed.

Example as_u64_order_witness :
  (as_u64 (mkLamport 2 7) ?= as_u64 (mkLamport 3 1)) = Lt.
Proof.
  rewrite (as_u64_order (mkLamport 2 7) (mkLamport 3 1));
    [reflexivity | by apply (bool_decide_unpack _)..].
Defined.
