(* ===== verification/Locator.v ===== *)
(** * Locators ([crates/text/src/locator.rs])

    Dense identifiers for the position of a fragment: sequences of [u64]
    compared lexicographically, with [between] producing a new identifier
    strictly inside any gap. *)

From S2P Require Import Prelude.

Local Open Scope Z_scope.

(** [struct Locator(SmallVec<[u64; 2]>)], ordered as a slice. *)
Record Locator := mkLocator { digits : list Z }.

#[export] Instance Locator_eq_dec : EqDecision Locator.
Proof. solve_decision. Defined.

#[export] Instance Locator_Ord : Ord Locator.
Proof. refine (inj_Ord digits _). by intros [?] [?] [= ->]. Defined.

Definition min : Locator := mkLocator [0].
Definition max : Locator := mkLocator [u64_max].
Definition default_locator : Locator := min.

(** [assign]: resize to the other's length, then copy its elements. *)
Definition assign (self other : Locator) : Locator :=
  mkLocator (zip_update (λ _ y, y) (resize (length (digits other)) 0 (digits self)) (digits other)).

Definition len (l : Locator) : nat := length (digits l).
Definition is_empty (l : Locator) : bool := (len l =? 0)%nat.

(** [let mid = lhs + ((rhs.saturating_sub(lhs)) >> 48)]. *)
Definition midpoint (l r : Z) : Z := wrap_u64 (l + Z.shiftr (sat_sub r l) 48).

(** The loop of [between] over [lhs.chain(repeat(MIN))] zipped with
    [rhs.chain(repeat(MAX))]; it stops after the first [mid > lhs]. *)
Fixpoint between_loop (fuel : nat) (lhs rhs : list Z) : list Z :=
  match fuel with
  | O => []
  | S fuel =>
      let l := hd 0 lhs in
      let r := hd u64_max rhs in
      let mid := midpoint l r in
      if l <? mid then [mid] else mid :: between_loop fuel (tl lhs) (tl rhs)
  end.

(** Once both sequences are exhausted the digits are [MIN] and [MAX] and the
    loop breaks, hence the fuel. *)
Definition between_fuel (lhs rhs : Locator) : nat :=
  S (Nat.max (length (digits lhs)) (length (digits rhs))).

Definition between (lhs rhs : Locator) : Locator :=
  mkLocator (between_loop (between_fuel lhs rhs) (digits lhs) (digits rhs)).

(** [Summary]/[Dimension] of a locator: the summary is the last one added. *)
Definition add_summary (self summary : Locator) : Locator := assign self summary.

(** ** Well-formedness

    Every digit is a [u64]; a locator that was produced by [between] ends in
    a positive digit ([proper]). *)
Definition Locator_wf (l : Locator) : Prop := Forall is_u64 (digits l).
Definition proper (l : Locator) : Prop :=
  Locator_wf l ∧ ∃ d, last (digits l) = Some d ∧ 0 < d.

#[export] Instance Locator_wf_dec l : Decision (Locator_wf l).
Proof. unfold Locator_wf, is_u64. apply _. Defined.

Lemma assign_eq self other : assign self other = other.
Proof.
  unfold assign. destruct other as [k]. simpl. f_equal.
  assert (length (resize (length k) 0 (digits self)) = length k) as Hl by apply resize_length.
  revert Hl. generalize (resize (length k) 0 (digits self)) as l.
  induction k as [|y k IH]; intros [|x l]; simpl; intros; simplify_eq/=; [done|].
  f_equal. by apply IH.
Qed.

(** ** The midpoint *)

Lemma midpoint_eq l r :
  is_u64 l → is_u64 r → midpoint l r = l + Z.shiftr (Z.max 0 (r - l)) 48.
Proof.
  unfold is_u64, u64_max, midpoint, sat_sub, wrap_u64. intros.
  apply Z.mod_small. rewrite Z.shiftr_div_pow2 by lia.
  assert (0 ≤ Z.max 0 (r - l) / 2 ^ 48 ≤ Z.max 0 (r - l)).
  { split; [apply Z.div_pos; lia|]. apply Z.div_le_upper_bound; lia. }
  lia.
Qed.

Lemma midpoint_bounds l r :
  is_u64 l → is_u64 r →
  is_u64 (midpoint l r) ∧ l ≤ midpoint l r ∧ (l < r → midpoint l r < r) ∧
  (r ≤ l → midpoint l r = l).
Proof.
  intros Hl Hr. rewrite midpoint_eq by done. rewrite Z.shiftr_div_pow2 by lia.
  unfold is_u64, u64_max in *.
  assert (0 ≤ Z.max 0 (r - l) / 2 ^ 48) by (apply Z.div_pos; lia).
  assert (Z.max 0 (r - l) / 2 ^ 48 * 2 ^ 48 ≤ Z.max 0 (r - l)).
  { rewrite Z.mul_comm. apply Z.mul_div_le. lia. }
  split_and!; lia.
Qed.

Lemma midpoint_full : midpoint 0 u64_max = 65535.
Proof. reflexivity. Qed.

(** ** The loop *)

Lemma hd_u64 d l : is_u64 d → Forall is_u64 l → is_u64 (hd d l).
Proof. by intros ? [|]. Qed.
Lemma tl_u64 l : Forall is_u64 l → Forall is_u64 (tl l).
Proof. by intros [|]. Qed.
Lemma u64_0 : is_u64 0.
Proof. done. Qed.
Lemma u64_max_u64 : is_u64 u64_max.
Proof. done. Qed.

Create HintDb locator.
#[export] Hint Resolve hd_u64 tl_u64 u64_0 u64_max_u64 : locator.

(** The loop has broken out before the fuel of [between] runs out, so extra
    fuel changes nothing. *)
Lemma between_loop_fuel n m lhs rhs :
  (length lhs ≤ n)%nat → (length rhs ≤ n)%nat →
  between_loop (S n + m) lhs rhs = between_loop (S n) lhs rhs.
Proof.
  revert lhs rhs. induction n as [|n IH]; intros lhs rhs Hl Hr.
  - destruct lhs, rhs; simpl in Hl, Hr; [|lia..]. simpl. by rewrite midpoint_full.
  - change (S (S n) + m)%nat with (S (S n + m)).
    remember (S n) as k. simpl. subst k.
    rewrite IH; [done| |].
    + destruct lhs; simpl in *; lia.
    + destruct rhs; simpl in *; lia.
Qed.

Lemma between_loop_wf n lhs rhs :
  Forall is_u64 lhs → Forall is_u64 rhs → Forall is_u64 (between_loop n lhs rhs).
Proof.
  revert lhs rhs. induction n as [|n IH]; intros lhs rhs Hl Hr; simpl; [constructor|].
  pose proof (midpoint_bounds (hd 0 lhs) (hd u64_max rhs)) as [? _]; [auto with locator..|].
  destruct (_ <? _); constructor; auto with locator.
Qed.

Lemma between_loop_last n lhs rhs :
  Forall is_u64 lhs → Forall is_u64 rhs → (length lhs ≤ n)%nat → (length rhs ≤ n)%nat →
  ∃ d, last (between_loop (S n) lhs rhs) = Some d ∧ 0 < d.
Proof.
  revert lhs rhs. induction n as [|n IH]; intros lhs rhs Hl Hr Hnl Hnr.
  - destruct lhs, rhs; simpl in Hnl, Hnr; [|lia..]. simpl. rewrite midpoint_full. by exists 65535.
  - remember (S n) as k. simpl.
    pose proof (hd_u64 0 lhs u64_0 Hl) as Hh. unfold is_u64 in Hh.
    destruct (Z.ltb_spec (hd 0 lhs) (midpoint (hd 0 lhs) (hd u64_max rhs))).
    + eexists. split; [done|]. lia.
    + destruct (IH (tl lhs) (tl rhs)) as (d & Hd & Hpos); [auto with locator..| | |].
      { destruct lhs; simpl in *; lia. } { destruct rhs; simpl in *; lia. }
      exists d. split; [|done]. subst k. rewrite <- Hd. by destruct (between_loop (S n) _ _).
Qed.

(** The result is above [lhs] whatever [rhs] is. *)
Lemma between_loop_gt n lhs rhs :
  Forall is_u64 lhs → Forall is_u64 rhs → (length lhs ≤ n)%nat → (length rhs ≤ n)%nat →
  list_cmp lhs (between_loop (S n) lhs rhs) = Lt.
Proof.
  revert lhs rhs. induction n as [|n IH]; intros lhs rhs Hl Hr Hnl Hnr.
  - by destruct lhs, rhs; simpl in Hnl, Hnr; [|lia..].
  - remember (S n) as k. simpl.
    pose proof (midpoint_bounds (hd 0 lhs) (hd u64_max rhs)) as (_ & Hge & _ & _);
      [auto with locator..|].
    destruct lhs as [|x lhs]; [by destruct (_ <? _)|]. simpl in *.
    destruct (Z.ltb_spec x (midpoint x (hd u64_max rhs))); simpl.
    + by rewrite (proj2 (Z.compare_lt_iff _ _)).
    + rewrite (proj2 (Z.compare_eq_iff _ _)) by lia. simpl. subst k.
      decompose_Forall_hyps. apply IH; auto with locator; [lia|]. destruct rhs; simpl in *; lia.
Qed.

(** The result is below any larger [rhs], unless [rhs] only continues the
    shared digits with zeros. *)
Lemma between_loop_lt n lhs rhs :
  Forall is_u64 lhs → Forall is_u64 rhs → (length lhs ≤ n)%nat → (length rhs ≤ n)%nat →
  (∃ d, last rhs = Some d ∧ 0 < d) →
  list_cmp lhs rhs = Lt → list_cmp (between_loop (S n) lhs rhs) rhs = Lt.
Proof.
  revert lhs rhs. induction n as [|n IH]; intros lhs rhs Hl Hr Hnl Hnr Hlast Hlt.
  { by destruct lhs, rhs; simpl in Hnl, Hnr; [|lia..]. }
  remember (S n) as k. simpl.
  pose proof (midpoint_bounds (hd 0 lhs) (hd u64_max rhs)) as (_ & Hge & Hmid & Hsat);
    [auto with locator..|].
  destruct rhs as [|y rhs]; [by destruct lhs|]. simpl in *.
  apply Forall_cons in Hr as [Hy Hr]. unfold is_u64 in Hy.
  assert (hd 0 lhs ≤ y) as Hle.
  { destruct lhs as [|x lhs]; simpl in *; [lia|]. by destruct (Z.compare_spec x y); [lia..|]. }
  destruct (Z.ltb_spec (hd 0 lhs) (midpoint (hd 0 lhs) y)); simpl.
  { by rewrite (proj2 (Z.compare_lt_iff _ _)) by lia. }
  destruct (decide (hd 0 lhs < y)).
  { by rewrite (proj2 (Z.compare_lt_iff _ _)) by lia. }
  rewrite (proj2 (Z.compare_eq_iff _ _)) by lia. simpl. subst k.
  assert (∃ d, last rhs = Some d ∧ 0 < d) as Hlast'.
  { destruct Hlast as (d & Hd & ?). destruct rhs as [|z rhs]; [|by exists d].
    simpl in Hd. injection Hd as ->. destruct lhs as [|x [|]]; simpl in *; [lia|..].
    all: by replace x with d in Hlt by lia; rewrite Z.compare_refl in Hlt. }
  apply IH; auto with locator; [destruct lhs; simpl in *; lia|lia|].
  destruct lhs as [|x lhs]; simpl in *; [|by replace x with y in Hlt by lia; rewrite Z.compare_refl in Hlt].
  destruct Hlast' as (d & Hd & _). by destruct rhs.
Qed.

(** ** Consequences for [between] *)

Lemma between_wf lhs rhs : Locator_wf lhs → Locator_wf rhs → Locator_wf (between lhs rhs).
Proof. apply between_loop_wf. Qed.

Lemma between_proper lhs rhs : Locator_wf lhs → Locator_wf rhs → proper (between lhs rhs).
Proof.
  intros Hl Hr. split; [by apply between_wf|]. apply between_loop_last; [done|done|lia|lia].
Qed.

Lemma between_gt lhs rhs :
  Locator_wf lhs → Locator_wf rhs → (lhs ≺ between lhs rhs)%ord.
Proof. intros Hl Hr. apply between_loop_gt; [done|done|lia|lia]. Qed.

Lemma between_lt lhs rhs :
  Locator_wf lhs → proper rhs → (lhs ≺ rhs)%ord → (between lhs rhs ≺ rhs)%ord.
Proof. intros Hl [Hr Hp] Hlt. by apply between_loop_lt; [..|lia|lia| |]. Qed.

Lemma min_wf : Locator_wf min.
Proof. by apply (bool_decide_unpack _). Qed.
Lemma max_proper : proper max.
Proof. split; [by apply (bool_decide_unpack _)|]. by exists u64_max. Qed.
Lemma proper_wf l : proper l → Locator_wf l.
Proof. by intros []. Qed.

(** Everything [between] produces lies above [min]. *)
Lemma proper_min l : proper l → (min ≺ l)%ord.
Proof.
  destruct l as [ds]. intros [Hwf (d & Hd & Hpos)]. simpl in *.
  destruct ds as [|x [|y ds]]; simpl in *; [done|..]; apply Forall_cons in Hwf as [Hx _].
  - injection Hd as ->. destruct d; done.
  - unfold is_u64 in *. destruct x; done || lia.
Qed.

#[export] Hint Resolve between_wf between_proper min_wf max_proper proper_wf : locator.

(** A one-digit locator followed by the end of the collection. *)
Lemma between_single_max x :
  0 ≤ x ≤ u64_max - 2 ^ 48 →
  ∃ y, between (mkLocator [x]) max = mkLocator [y] ∧ x < y ≤ x + 65535.
Proof.
  intros Hx. unfold between, between_fuel. simpl.
  rewrite midpoint_eq by (unfold is_u64, u64_max in *; lia).
  rewrite Z.shiftr_div_pow2 by lia.
  assert (1 ≤ Z.max 0 (u64_max - x) / 2 ^ 48).
  { apply Z.div_le_lower_bound; lia. }
  assert (Z.max 0 (u64_max - x) / 2 ^ 48 < 65536).
  { apply Z.div_lt_upper_bound; unfold u64_max in *; lia. }
  rewrite (proj2 (Z.ltb_lt _ _)) by lia. eexists. split; [done|]. lia.
Qed.

(** [n] items appended one after the other to an empty collection. *)
Definition append_n (n : nat) : Locator := Nat.iter n (λ prev, between prev max) min.

(** ** Properties *)

(** C40: [Locator::between] is dense: for [lhs < rhs] it returns a locator
    strictly between the two.  [rhs] must end in a positive digit, which every
    locator made by [between] does, and so does the result; no digit overflows
    a [u64]. *)
Theorem between_dense lhs rhs :
  Locator_wf lhs → proper rhs → (lhs ≺ rhs)%ord →
  (lhs ≺ between lhs rhs)%ord ∧ (between lhs rhs ≺ rhs)%ord ∧ proper (between lhs rhs).
Proof.
  intros Hl Hr Hlt. split_and!; [|by apply between_lt|]; auto using between_gt with locator.
Qed.

Example between_dense_witness :
  (mkLocator [5] ≺ between (mkLocator [5]) (mkLocator [6]))%ord ∧
  between (mkLocator [5]) (mkLocator [6]) = mkLocator [5; 65535].
Proof.
  split; [|reflexivity].
  apply (between_dense (mkLocator [5]) (mkLocator [6])).
  - by apply (bool_decide_unpack _).
  - split; [by apply (bool_decide_unpack _)|]. by exists 6.
  - reflexivity.
Defined.

(** the unbounded loop of [between] terminates: it has left through its
    [break] within [max (len lhs) (len rhs) + 1] iterations, so running it
    longer gives the same digits. *)
Theorem between_terminates lhs rhs m :
  between_loop (between_fuel lhs rhs + m) (digits lhs) (digits rhs) = digits (between lhs rhs) ∧
  (len (between lhs rhs) ≤ between_fuel lhs rhs)%nat.
Proof.
  split; [apply between_loop_fuel; lia|].
  unfold len, between. cbn [digits]. generalize (between_fuel lhs rhs) as n, (digits lhs), (digits rhs).
  induction n as [|n IH]; intros l r; simpl; [lia|].
  destruct (_ <? _); simpl; [lia|]. specialize (IH (tl l) (tl r)). lia.
Qed.

(** sequential typing is cheap: up to 2^48 items appended one after the
    other all get a locator of a single digit. *)
Theorem append_single_digit n :
  Z.of_nat n ≤ 2 ^ 48 → len (append_n n) = 1%nat.
Proof.
  intros Hn. enough (∃ x, append_n n = mkLocator [x] ∧ 0 ≤ x ≤ 65535 * Z.of_nat n) as (x & -> & _);
    [done|].
  induction n as [|n IH]; [by exists 0|].
  destruct IH as (x & Hx & Hb); [lia|].
  destruct (between_single_max x) as (y & Hy & Hgt & Hle); [unfold u64_max; lia|].
  exists y. split; [|lia]. unfold append_n in *. by rewrite Nat.iter_succ, Hx.
Qed.

Example append_single_digit_witness : len (append_n 3) = 1%nat ∧ append_n 2 = mkLocator [131070].
Proof. split; [apply (append_single_digit 3); lia | vm_compute; reflexivity]. Defined.
