(* ===== verification/SumTree.v ===== *)
(** * The sum tree ([crates/sum_tree/src/sum_tree.rs])

    A B+ tree whose nodes cache the summaries of what is below them.  Trees
    are kept exactly as the source builds them; an [ArrayVec] that would exceed
    its capacity and an [unwrap] of a missing element are [None], so the
    theorems also show that the operations do not panic.  Contexts ([cx]) are
    fixed by the instance of [Summary]. *)

From S2P Require Import Prelude.

(** ** Interfaces

    [trait Summary]: a monoid of summaries (the left unit is the only unit
    law the tree needs: [Locator] and the keyed summaries keep the last key).
    [trait Item] gives every item its summary. *)
Class Summary (Sm : Type) := {
  zero : Sm;
  add : Sm → Sm → Sm;
  add_zero_l : ∀ s, add zero s = s;
  add_assoc : ∀ s t u, add (add s t) u = add s (add t u);
}.

Class Item (T Sm : Type) := { summary : T → Sm }.

(** [fn sum]: fold a sequence of summaries from [zero]. *)
Definition sum `{Summary Sm} (l : list Sm) : Sm := foldl add zero l.

Lemma foldl_add_acc `{Summary Sm} (a b : Sm) l :
  foldl add (add a b) l = add a (foldl add b l).
Proof. revert b. induction l as [|x l IH]; intros b; simpl; [done|]. by rewrite add_assoc, IH. Qed.

Lemma sum_app `{Summary Sm} (l k : list Sm) : sum (l ++ k) = foldl add (sum l) k.
Proof. unfold sum. by rewrite foldl_app. Qed.

(** Adding a non-empty sum adds its elements one after the other. *)
Lemma foldl_add_sum `{Summary Sm} (a : Sm) l : l ≠ [] → foldl add a l = add a (sum l).
Proof.
  destruct l as [|x l]; [done|]. intros _. unfold sum. simpl.
  by rewrite foldl_add_acc, add_zero_l.
Qed.

Lemma sum_app_add `{Summary Sm} (l k : list Sm) : k ≠ [] → sum (l ++ k) = add (sum l) (sum k).
Proof. intros. rewrite sum_app. by apply foldl_add_sum. Qed.

Lemma sum_cons `{Summary Sm} (x : Sm) l : sum (x :: l) = foldl add x l.
Proof. unfold sum. simpl. by rewrite add_zero_l. Qed.

Lemma sum_singleton `{Summary Sm} (x : Sm) : sum [x] = x.
Proof. apply add_zero_l. Qed.

(** ** Nodes *)

Inductive Node (T Sm : Type) :=
| Internal (height : nat) (summary : Sm) (child_summaries : list Sm) (child_trees : list (Node T Sm))
| Leaf (summary : Sm) (items : list T) (item_summaries : list Sm).
Arguments Internal {T Sm} height summary child_summaries child_trees.
Arguments Leaf {T Sm} summary items item_summaries.

Section sum_tree.
Context `{HS : Summary Sm} `{HI : Item T Sm}.
(** [TREE_BASE] is 6, and 2 when the crate is compiled for its own tests. *)
Context (TREE_BASE : nat).
Implicit Types t u : Node T Sm.

Definition capacity : nat := 2 * TREE_BASE.

(** Filling an [ArrayVec] of capacity [2 * TREE_BASE]; overflowing panics. *)
Definition array_vec {A} (l : list A) : option (list A) :=
  if length l <=? capacity then Some l else None.

Definition is_leaf t : bool := match t with Leaf _ _ _ => true | _ => false end.
Definition node_height t : nat := match t with Internal h _ _ _ => h | Leaf _ _ _ => 0 end.
Definition node_summary t : Sm :=
  match t with Internal _ s _ _ => s | Leaf s _ _ => s end.
Definition node_child_summaries t : list Sm :=
  match t with Internal _ _ cs _ => cs | Leaf _ _ cs => cs end.
Definition node_child_trees t : option (list (Node T Sm)) :=
  match t with Internal _ _ _ ts => Some ts | Leaf _ _ _ => None end.
Definition node_items t : option (list T) :=
  match t with Leaf _ xs _ => Some xs | Internal _ _ _ _ => None end.
Definition is_underflowing t : bool :=
  match t with
  | Internal _ _ _ ts => length ts <? TREE_BASE
  | Leaf _ xs _ => length xs <? TREE_BASE
  end.
Definition is_empty t : bool :=
  match t with Internal _ _ _ _ => false | Leaf _ xs _ => length xs =? 0 end.

(** [SumTree::new] and [SumTree::from_summary]. *)
Definition new : Node T Sm := Leaf zero [] [].
Definition from_summary (s : Sm) : Node T Sm := Leaf s [] [].

(** The abstract content of a tree: its items from left to right. *)
Fixpoint items t : list T :=
  match t with
  | Leaf _ xs _ => xs
  | Internal _ _ _ ts => concat (map items ts)
  end.

(** [last_mut().unwrap() = x]. *)
Definition set_last {A} (l : list A) (x : A) : option (list A) :=
  match l with [] => None | _ => Some (take (pred (length l)) l ++ [x]) end.

Definition from_child_trees (left right : Node T Sm) : option (Node T Sm) :=
  cs ← array_vec [node_summary left; node_summary right];
  ts ← array_vec [left; right];
  Some (Internal (node_height left + 1) (sum cs) cs ts).

(** The second half of [push_tree_recursive] at an internal node: extend the
    children, or split them at the midpoint when they do not fit. *)
Definition extend_or_split (height : nat) (summary : Sm) (child_summaries : list Sm)
    (child_trees : list (Node T Sm)) (summaries_to_append : list Sm)
    (trees_to_append : list (Node T Sm)) : option (Node T Sm * option (Node T Sm)) :=
  let child_count := length child_trees + length trees_to_append in
  if capacity <? child_count then
    let midpoint := (child_count + child_count mod 2) / 2 in
    let all_summaries := child_summaries ++ summaries_to_append in
    let all_trees := child_trees ++ trees_to_append in
    left_summaries ← array_vec (take midpoint all_summaries);
    right_summaries ← array_vec (drop midpoint all_summaries);
    left_trees ← array_vec (take midpoint all_trees);
    right_trees ← array_vec (drop midpoint all_trees);
    Some (Internal height (sum left_summaries) left_summaries left_trees,
          Some (Internal height (sum right_summaries) right_summaries right_trees))
  else
    cs ← array_vec (child_summaries ++ summaries_to_append);
    ts ← array_vec (child_trees ++ trees_to_append);
    Some (Internal height summary cs ts, None).

(** [push_tree_recursive]: appends [other] below the last child on the right
    level; returns the updated node and the right half when it had to split.
    [fuel] bounds the depth of the recursion. *)
Fixpoint push_tree_recursive (fuel : nat) (self other : Node T Sm)
    : option (Node T Sm * option (Node T Sm)) :=
  match fuel with
  | O => None
  | S fuel =>
    match self with
    | Internal height summary child_summaries child_trees_ =>
        let summary := add summary (node_summary other) in
        if height <? node_height other then None else
        let height_delta := height - node_height other in
        '(child_summaries, child_trees_, summaries_to_append, trees_to_append) ←
          (if height_delta =? 0 then
             ts ← node_child_trees other;
             Some (child_summaries, child_trees_, node_child_summaries other, ts)
           else if (height_delta =? 1) && negb (is_underflowing other) then
             Some (child_summaries, child_trees_, [node_summary other], [other])
           else
             last_child ← last child_trees_;
             '(last_child, tree_to_append) ← push_tree_recursive fuel last_child other;
             child_trees_ ← set_last child_trees_ last_child;
             child_summaries ← set_last child_summaries (node_summary last_child);
             Some (child_summaries, child_trees_,
               match tree_to_append with Some split_tree => [node_summary split_tree] | None => [] end,
               match tree_to_append with Some split_tree => [split_tree] | None => [] end));
        extend_or_split height summary child_summaries child_trees_ summaries_to_append trees_to_append
    | Leaf summary items_ item_summaries =>
        other_items ← node_items other;
        let child_count := length items_ + length other_items in
        if capacity <? child_count then
          let midpoint := (child_count + child_count mod 2) / 2 in
          let all_items := items_ ++ other_items in
          let all_summaries := item_summaries ++ node_child_summaries other in
          left_items ← array_vec (take midpoint all_items);
          right_items ← array_vec (drop midpoint all_items);
          left_summaries ← array_vec (take midpoint all_summaries);
          right_summaries ← array_vec (drop midpoint all_summaries);
          Some (Leaf (sum left_summaries) left_items left_summaries,
                Some (Leaf (sum right_summaries) right_items right_summaries))
        else
          xs ← array_vec (items_ ++ other_items);
          cs ← array_vec (item_summaries ++ node_child_summaries other);
          Some (Leaf (add summary (node_summary other)) xs cs, None)
    end
  end.

(** [merge_into_right]: prepend an underflowing node to one of the same
    height; returns the left half when both do not fit. *)
Definition merge_into_right (small large : Node T Sm) : option (Node T Sm * option (Node T Sm)) :=
  match small, large with
  | Internal _ small_summary small_child_summaries small_child_trees,
    Internal height summary child_summaries child_trees =>
      let total_child_count := length child_trees + length small_child_trees in
      if total_child_count <=? capacity then
        ts ← array_vec (small_child_trees ++ child_trees);
        cs ← array_vec (small_child_summaries ++ child_summaries);
        Some (Internal height (add small_summary summary) cs ts, None)
      else
        let midpoint := (total_child_count + 1) / 2 in
        let all_trees := small_child_trees ++ child_trees in
        let all_summaries := small_child_summaries ++ child_summaries in
        left_trees ← array_vec (take midpoint all_trees);
        right_trees ← array_vec (drop midpoint all_trees);
        left_summaries ← array_vec (take midpoint all_summaries);
        right_summaries ← array_vec (drop midpoint all_summaries);
        Some (Internal height (sum right_summaries) right_summaries right_trees,
              Some (Internal height (sum left_summaries) left_summaries left_trees))
  | Leaf small_summary small_items small_item_summaries, Leaf summary items_ item_summaries =>
      let total_child_count := length small_items + length items_ in
      if total_child_count <=? capacity then
        xs ← array_vec (small_items ++ items_);
        cs ← array_vec (small_item_summaries ++ item_summaries);
        Some (Leaf (add small_summary summary) xs cs, None)
      else
        let midpoint := (total_child_count + 1) / 2 in
        let all_items := small_items ++ items_ in
        let all_summaries := small_item_summaries ++ item_summaries in
        left_items ← array_vec (take midpoint all_items);
        right_items ← array_vec (drop midpoint all_items);
        left_summaries ← array_vec (take midpoint all_summaries);
        right_summaries ← array_vec (drop midpoint all_summaries);
        Some (Leaf (sum right_summaries) right_items right_summaries,
              Some (Leaf (sum left_summaries) left_items left_summaries))
  | _, _ => None
  end.

(** [append_large]: appends the taller [large] to [small]; returns the updated
    [large] and, when its root was full, the new left sibling. *)
Fixpoint append_large (fuel : nat) (small large : Node T Sm)
    : option (Node T Sm * option (Node T Sm)) :=
  match fuel with
  | O => None
  | S fuel =>
    if node_height small =? node_height large then
      if negb (is_underflowing small) then Some (large, Some small)
      else merge_into_right small large
    else
      match large with
      | Leaf _ _ _ => None
      | Internal height summary child_summaries child_trees =>
          let summary := add (node_summary small) summary in
          first ← head child_trees;
          '(first, res) ← append_large fuel small first;
          _ ← head child_summaries;
          let child_summaries := node_summary first :: tail child_summaries in
          let child_trees := first :: tail child_trees in
          match res with
          | None => Some (Internal height summary child_summaries child_trees, None)
          | Some tree =>
              if length child_trees <? capacity then
                cs ← array_vec (node_summary tree :: child_summaries);
                ts ← array_vec (tree :: child_trees);
                Some (Internal height summary cs ts, None)
              else
                new_child_summaries ← array_vec (node_summary tree :: take TREE_BASE child_summaries);
                new_child_trees ← array_vec (tree :: take TREE_BASE child_trees);
                let child_summaries := drop TREE_BASE child_summaries in
                let child_trees := drop TREE_BASE child_trees in
                Some (Internal height (sum child_summaries) child_summaries child_trees,
                      Some (Internal height (sum new_child_summaries)
                              new_child_summaries new_child_trees))
          end
      end
  end.

(** [append] *)
Definition append (self other : Node T Sm) : option (Node T Sm) :=
  if is_empty self then Some other
  else if negb (is_leaf other) || negb (from_option (λ xs, length xs =? 0) false (node_items other)) then
    if node_height self <? node_height other then
      '(other, res) ← append_large (S (node_height other)) self other;
      match res with
      | Some tree => from_child_trees tree other
      | None => Some other
      end
    else
      '(self, res) ← push_tree_recursive (S (node_height self)) self other;
      match res with
      | Some split_tree => from_child_trees self split_tree
      | None => Some self
      end
  else Some self.

(** [push] *)
Definition push (self : Node T Sm) (item : T) : option (Node T Sm) :=
  append self (Leaf (summary item) [item] [summary item]).

(** [from_item] *)
Definition from_item (item : T) : option (Node T Sm) := push new item.

(** [iter.by_ref().take(n)] until the iterator is exhausted. *)
Fixpoint chunks {A} (fuel n : nat) (l : list A) : list (list A) :=
  match fuel, l with
  | S fuel, _ :: _ => take n l :: chunks fuel n (drop n l)
  | _, _ => []
  end.

(** The leaves built by [from_iter]: the summary starts from the first item's. *)
Definition leaf_of_chunk (items_ : list T) : Node T Sm :=
  let item_summaries := summary <$> items_ in
  Leaf (match item_summaries with s :: rest => foldl add s rest | [] => zero end)
    items_ item_summaries.

(** One parent of the level being built: it fills up from [zero]. *)
Definition parent_of_chunk (height : nat) (child_trees : list (Node T Sm)) : Node T Sm :=
  Internal height (foldl (λ s t, add s (node_summary t)) zero child_trees)
    (node_summary <$> child_trees) child_trees.

Fixpoint build_levels (fuel height : nat) (nodes : list (Node T Sm)) : list (Node T Sm) :=
  match fuel with
  | O => nodes
  | S fuel =>
      if 1 <? length nodes then
        build_levels fuel (S height)
          (parent_of_chunk (S height) <$> chunks (length nodes) capacity nodes)
      else nodes
  end.

(** [from_iter]: the leaves, then one level of parents after the other while
    there is more than one node. *)
Definition from_iter (l : list T) : Node T Sm :=
  let nodes := leaf_of_chunk <$> chunks (length l) capacity l in
  match build_levels (length nodes) 0 nodes with
  | [] => new
  | nodes => default new (last nodes)
  end.

(** [extend] *)
Definition extend (self : Node T Sm) (l : list T) : option (Node T Sm) :=
  append self (from_iter l).

(** [leftmost_leaf], [rightmost_leaf], [first], [last], [last_summary]. *)
Fixpoint leftmost_leaf (fuel : nat) t : option (Node T Sm) :=
  match fuel, t with
  | S fuel, Internal _ _ _ ts => t ← head ts; leftmost_leaf fuel t
  | S _, Leaf _ _ _ => Some t
  | O, _ => None
  end.
Fixpoint rightmost_leaf (fuel : nat) t : option (Node T Sm) :=
  match fuel, t with
  | S fuel, Internal _ _ _ ts => t ← last ts; rightmost_leaf fuel t
  | S _, Leaf _ _ _ => Some t
  | O, _ => None
  end.
Definition first_item t : option T :=
  l ← leftmost_leaf (S (node_height t)) t; xs ← node_items l; head xs.
Definition last_item t : option T :=
  l ← rightmost_leaf (S (node_height t)) t; xs ← node_items l; last xs.
Definition last_summary t : option Sm :=
  l ← rightmost_leaf (S (node_height t)) t; last (node_child_summaries l).

(** [update_last_recursive]: the result is [None] exactly when the source
    panics (an [unwrap] on a missing summary or child). *)
Fixpoint update_last_recursive (fuel : nat) (f : T → T) t : option (Node T Sm * option Sm) :=
  match fuel, t with
  | S fuel, Internal height _ child_summaries child_trees =>
      last_child ← last child_trees;
      '(last_child, s) ← update_last_recursive fuel f last_child;
      s ← s;
      child_summaries ← set_last child_summaries s;
      child_trees ← set_last child_trees last_child;
      Some (Internal height (sum child_summaries) child_summaries child_trees,
            Some (sum child_summaries))
  | S _, Leaf summary_ items_ item_summaries =>
      match last items_, last item_summaries with
      | Some item, Some _ =>
          let item := f item in
          items_ ← set_last items_ item;
          item_summaries ← set_last item_summaries (summary item);
          Some (Leaf (sum item_summaries) items_ item_summaries, Some (sum item_summaries))
      | _, _ => Some (t, None)
      end
  | O, _ => None
  end.

Fixpoint update_first_recursive (fuel : nat) (f : T → T) t : option (Node T Sm * option Sm) :=
  match fuel, t with
  | S fuel, Internal height _ child_summaries child_trees =>
      first_child ← head child_trees;
      '(first_child, s) ← update_first_recursive fuel f first_child;
      s ← s;
      _ ← head child_summaries;
      let child_summaries := s :: tail child_summaries in
      Some (Internal height (sum child_summaries) child_summaries (first_child :: tail child_trees),
            Some (sum child_summaries))
  | S _, Leaf summary_ items_ item_summaries =>
      match head items_, head item_summaries with
      | Some item, Some _ =>
          let item := f item in
          let item_summaries := summary item :: tail item_summaries in
          Some (Leaf (sum item_summaries) (item :: tail items_) item_summaries,
                Some (sum item_summaries))
      | _, _ => Some (t, None)
      end
  | O, _ => None
  end.

Definition update_last (f : T → T) t : option (Node T Sm) :=
  fst <$> update_last_recursive (S (node_height t)) f t.
Definition update_first (f : T → T) t : option (Node T Sm) :=
  fst <$> update_first_recursive (S (node_height t)) f t.

(** ** The B+ tree invariant

    Every leaf is at the same depth, every node is non-empty and within
    capacity, heights are recorded and all cached summaries are right.  Only
    the root may be an empty leaf. *)

Definition mk_leaf (xs : list T) : Node T Sm := Leaf (sum (summary <$> xs)) xs (summary <$> xs).
Definition mk_internal (h : nat) (ts : list (Node T Sm)) : Node T Sm :=
  Internal h (sum (node_summary <$> ts)) (node_summary <$> ts) ts.

Inductive wf : nat → Node T Sm → Prop :=
| wf_leaf xs : xs ≠ [] → length xs ≤ capacity → wf 0 (mk_leaf xs)
| wf_internal h ts :
    ts ≠ [] → length ts ≤ capacity → Forall (wf h) ts → wf (S h) (mk_internal (S h) ts).

Definition wf_tree t : Prop := t = new ∨ ∃ h, wf h t.

Definition content (ts : list (Node T Sm)) : list T := concat (map items ts).

Lemma content_app ts us : content (ts ++ us) = content ts ++ content us.
Proof. unfold content. by rewrite map_app, concat_app. Qed.

Lemma content_cons t ts : content (t :: ts) = items t ++ content ts.
Proof. done. Qed.

Lemma content_singleton t : content [t] = items t.
Proof. unfold content. simpl. by rewrite app_nil_r. Qed.

#[local] Arguments content : simpl never.

Lemma wf_items_nonempty h t : wf h t → items t ≠ [].
Proof.
  revert t. induction h as [|h IH]; intros t; inversion 1 as [|? ts Hne ? Hall]; subst; simpl; [done|].
  destruct ts as [|t ts]; [done|]. apply Forall_cons in Hall as [Ht _].
  apply IH in Ht. simpl. by destruct (items t).
Qed.

Lemma wf_height h t : wf h t → node_height t = h.
Proof. by inversion 1. Qed.

(** The cached summary of a node is the sum over its items. *)
Lemma content_summary h ts :
  (∀ t, wf h t → node_summary t = sum (summary <$> items t)) →
  Forall (wf h) ts → sum (node_summary <$> ts) = sum (summary <$> content ts).
Proof.
  intros Hs. induction ts as [|t ts IH] using rev_ind; [done|]. intros Hall.
  apply Forall_app in Hall as [Hts Ht]. rewrite Forall_singleton in Ht.
  rewrite content_app, content_singleton, !fmap_app.
  pose proof (wf_items_nonempty h t Ht). rewrite !sum_app_add.
  - rewrite IH by done. simpl. rewrite sum_singleton. f_equal. by apply Hs.
  - by destruct (items t).
  - done.
Qed.

Lemma wf_summary h t : wf h t → node_summary t = sum (summary <$> items t).
Proof.
  revert t. induction h as [|h IH]; intros t; inversion 1 as [|? ts Hne ? Hall]; subst; [done|].
  apply (content_summary h ts IH Hall).
Qed.

Lemma wf_content_summary h ts :
  Forall (wf h) ts → sum (node_summary <$> ts) = sum (summary <$> content ts).
Proof. apply content_summary. intros t. apply wf_summary. Qed.

Lemma array_vec_fits {A} (l : list A) : length l ≤ capacity → array_vec l = Some l.
Proof. intros. unfold array_vec. by rewrite (proj2 (Nat.leb_le _ _)). Qed.

Lemma set_last_snoc {A} (l : list A) x y : set_last (l ++ [x]) y = Some (l ++ [y]).
Proof.
  unfold set_last. rewrite length_app. simpl.
  replace (pred (length l + 1)) with (length l) by lia. rewrite take_app_length.
  by destruct l.
Qed.

Lemma wf_mk_internal h ts :
  ts ≠ [] → length ts ≤ capacity → Forall (wf h) ts → wf (S h) (mk_internal (S h) ts).
Proof. by constructor. Qed.

(** Both halves of an overfull node are non-empty and fit. *)
Lemma split_bounds n :
  capacity < n → n ≤ 2 * capacity →
  0 < (n + n mod 2) / 2 < n ∧ (n + n mod 2) / 2 ≤ capacity ∧ n - (n + n mod 2) / 2 ≤ capacity.
Proof.
  intros Hlo Hhi. pose proof (Nat.div_mod_eq (n + n mod 2) 2).
  pose proof (Nat.mod_upper_bound n 2). pose proof (Nat.mod_upper_bound (n + n mod 2) 2).
  unfold capacity in *. lia.
Qed.

Lemma div_ceil_bounds n :
  capacity < n → n ≤ 2 * capacity →
  0 < (n + 1) / 2 < n ∧ (n + 1) / 2 ≤ capacity ∧ n - (n + 1) / 2 ≤ capacity.
Proof.
  intros Hlo Hhi. pose proof (Nat.div_mod_eq (n + 1) 2).
  pose proof (Nat.mod_upper_bound (n + 1) 2). unfold capacity in *. lia.
Qed.

(** What one step of appending yields: nodes of the same height whose contents
    are, in order, the two appended ones. *)
Definition split_ok (h : nat) (l : list T) (left : Node T Sm) (right : option (Node T Sm)) : Prop :=
  match right with
  | None => wf h left ∧ items left = l
  | Some r => wf h left ∧ wf h r ∧ items left ++ items r = l
  end.

Lemma split_leaves xs m :
  0 < m < length xs → m ≤ capacity → length xs - m ≤ capacity →
  wf 0 (mk_leaf (take m xs)) ∧ wf 0 (mk_leaf (drop m xs)).
Proof.
  intros. split; constructor.
  - intros E. apply (f_equal length) in E. rewrite length_take in E. simpl in E. lia.
  - rewrite length_take. lia.
  - intros E. apply (f_equal length) in E. rewrite length_drop in E. simpl in E. lia.
  - rewrite length_drop. lia.
Qed.

Lemma split_internals h ts m :
  0 < m < length ts → m ≤ capacity → length ts - m ≤ capacity → Forall (wf h) ts →
  wf (S h) (mk_internal (S h) (take m ts)) ∧ wf (S h) (mk_internal (S h) (drop m ts)).
Proof.
  intros. split; constructor.
  - intros E. apply (f_equal length) in E. rewrite length_take in E. simpl in E. lia.
  - rewrite length_take. lia.
  - by apply Forall_take.
  - intros E. apply (f_equal length) in E. rewrite length_drop in E. simpl in E. lia.
  - rewrite length_drop. lia.
  - by apply Forall_drop.
Qed.

Lemma content_take_drop m ts : content (take m ts) ++ content (drop m ts) = content ts.
Proof. by rewrite <- content_app, take_drop. Qed.

(** [extend_or_split] on well-formed children. *)
Lemma extend_or_split_ok h s ts us :
  ts ≠ [] → length ts ≤ capacity → length us ≤ capacity → Forall (wf h) (ts ++ us) →
  s = sum (summary <$> content (ts ++ us)) →
  ∃ left right,
    extend_or_split (S h) s (node_summary <$> ts) ts (node_summary <$> us) us = Some (left, right) ∧
    split_ok (S h) (content (ts ++ us)) left right.
Proof.
  intros Hne Hts Hus Hall ->. rewrite <- (wf_content_summary h) by done.
  unfold extend_or_split. rewrite <- fmap_app.
  destruct (Nat.ltb_spec capacity (length ts + length us)) as [Hlt|Hle].
  - destruct (split_bounds (length ts + length us)) as (Hm & Hml & Hmr); [lia..|].
    set (m := (length ts + length us + (length ts + length us) mod 2) / 2) in *.
    rewrite !array_vec_fits; simpl; rewrite ?length_take, ?length_drop, ?length_fmap, ?length_app; [|lia..].
    rewrite <- fmap_take, <- fmap_drop.
    eexists _, _. split; [done|].
    destruct (split_internals h (ts ++ us) m); rewrite ?length_app; [lia..|done|].
    split_and!; [done|done|]. apply content_take_drop.
  - rewrite !array_vec_fits; simpl; rewrite ?length_fmap, ?length_app; [|lia..].
    eexists _, None. split; [done|]. split; [|done].
    apply wf_mk_internal; [by destruct ts|by rewrite length_app; lia|done].
Qed.

Lemma Forall_snoc_inv {A} (P : A → Prop) l x : Forall P (l ++ [x]) → Forall P l ∧ P x.
Proof. by rewrite Forall_app, Forall_singleton. Qed.

Lemma nonempty_snoc {A} (l : list A) : l ≠ [] → ∃ l' x, l = l' ++ [x].
Proof. destruct l as [|x l _] using rev_ind; [done|]. intros _. by exists l, x. Qed.

Lemma push_leaf_ok fuel xs ys :
  xs ≠ [] → ys ≠ [] → length xs ≤ capacity → length ys ≤ capacity →
  ∃ left right,
    push_tree_recursive (S fuel) (mk_leaf xs) (mk_leaf ys) = Some (left, right) ∧
    split_ok 0 (xs ++ ys) left right.
Proof.
  intros Hne Hne' Hlen Hlen'.
  cbn [push_tree_recursive mk_leaf node_items mbind option_bind node_child_summaries].
  destruct (Nat.ltb_spec capacity (length xs + length ys)) as [Hlt|Hle].
  - destruct (split_bounds (length xs + length ys)) as (Hm & Hml & Hmr); [lia..|].
    set (m := (length xs + length ys + (length xs + length ys) mod 2) / 2) in *.
    rewrite <- fmap_app, !array_vec_fits; simpl;
      rewrite ?length_take, ?length_drop, ?length_fmap, ?length_app; [|lia..].
    rewrite <- fmap_take, <- fmap_drop. eexists _, _. split; [done|].
    destruct (split_leaves (xs ++ ys) m); rewrite ?length_app; [lia..|].
    split_and!; [done|done|]. apply take_drop.
  - rewrite <- fmap_app, !array_vec_fits; simpl; rewrite ?length_fmap, ?length_app; [|lia..].
    eexists _, None. split; [done|].
    rewrite <- sum_app_add, <- fmap_app by by destruct ys.
    split; [|done]. apply wf_leaf; [by destruct xs|rewrite length_app; lia].
Qed.

(** [push_tree_recursive] on well-formed trees neither panics nor runs out of
    fuel; it keeps the invariant and appends the items. *)
Lemma push_tree_recursive_ok fuel h k self other :
  wf h self → wf k other → k ≤ h → h < fuel →
  ∃ left right,
    push_tree_recursive fuel self other = Some (left, right) ∧
    split_ok h (items self ++ items other) left right.
Proof.
  revert h self. induction fuel as [|fuel IH]; [lia|].
  intros h self Hself Hother Hk Hfuel.
  destruct Hself as [xs Hne Hlen|h ts Hne Hlen Hall].
  { destruct Hother as [ys Hne' Hlen'|]; [|lia]. by apply push_leaf_ok. }
  cbn [push_tree_recursive mk_internal]. rewrite (wf_height k other) by done.
  rewrite (proj2 (Nat.ltb_ge (S h) k)) by lia.
  assert (add (sum (node_summary <$> ts)) (node_summary other) =
    sum (summary <$> (content ts ++ items other))) as Hsum.
  { rewrite (wf_content_summary h), (wf_summary k other) by done.
    rewrite fmap_app, sum_app_add; [done|].
    apply wf_items_nonempty in Hother. by destruct (items other). }
  change (items (mk_internal (S h) ts)) with (content ts). rewrite Hsum.
  destruct (Nat.eqb_spec (S h - k) 0) as [Hz|Hnz].
  { destruct Hother as [|k us Hne' Hlen' Hall']; [lia|]. replace k with h in * by lia.
    cbn [mk_internal node_child_trees mbind option_bind node_child_summaries].
    change (items (mk_internal (S h) us)) with (content us). rewrite <- content_app.
    apply extend_or_split_ok; [done..|by apply Forall_app|done]. }
  destruct ((S h - k =? 1) && negb (is_underflowing other)) eqn:Hdirect.
  { apply andb_true_iff in Hdirect as [Hk1%Nat.eqb_eq _]. replace k with h in * by lia.
    rewrite <- (content_singleton other), <- content_app. cbn [mbind option_bind].
    apply (extend_or_split_ok h _ ts [other]); [done|done| |by apply Forall_app; auto|done].
    simpl. unfold capacity in *. destruct ts; simpl in *; [done|lia]. }
  destruct (nonempty_snoc ts Hne) as (init & lc & ->).
  apply Forall_snoc_inv in Hall as [Hinit Hlc].
  rewrite last_snoc. cbn [mbind option_bind].
  destruct (IH h lc) as (lc' & res & -> & Hok); [done|done|lia|lia|]. cbn [mbind option_bind].
  rewrite set_last_snoc, (fmap_app node_summary init [lc]). simpl (node_summary <$> [lc]).
  cbn [mbind option_bind]. rewrite set_last_snoc. cbn [mbind option_bind].
  rewrite length_app in Hlen. simpl in Hlen.
  replace (content (init ++ [lc]) ++ items other) with
    (content ((init ++ [lc']) ++ from_option (λ r, [r]) [] res)).
  2:{ rewrite !content_app, !content_singleton, <- !app_assoc. f_equal.
      destruct res as [r|]; simpl in Hok.
      - destruct Hok as (_ & _ & <-). cbn [from_option]. by rewrite content_singleton.
      - destruct Hok as (_ & <-). cbn [from_option]. by rewrite app_nil_r. }
  change ([node_summary lc']) with (node_summary <$> [lc']). rewrite <- fmap_app.
  replace (match res with Some split_tree => [node_summary split_tree] | None => [] end)
    with (node_summary <$> from_option (λ r, [r]) [] res) by by destruct res.
  replace (match res with Some split_tree => [split_tree] | None => [] end)
    with (from_option (λ r, [r]) [] res) by by destruct res.
  apply extend_or_split_ok.
  - by destruct init.
  - rewrite length_app. done.
  - destruct res; simpl; unfold capacity in *; lia.
  - rewrite !Forall_app, Forall_singleton. split_and!; [done| |]; destruct res; simpl in *;
      naive_solver.
  - done.
Qed.

(** What prepending yields: the left node, when there is one, comes first. *)
Definition prepend_ok (h : nat) (l : list T) (large : Node T Sm) (left : option (Node T Sm)) : Prop :=
  match left with
  | None => wf h large ∧ items large = l
  | Some t => wf h t ∧ wf h large ∧ items t ++ items large = l
  end.

Lemma merge_into_right_ok h small large :
  wf h small → wf h large →
  ∃ large' left,
    merge_into_right small large = Some (large', left) ∧
    prepend_ok h (items small ++ items large) large' left.
Proof.
  intros Hsmall Hlarge. destruct Hsmall as [xs Hne Hlen|h ts Hne Hlen Hall].
  - inversion Hlarge as [ys Hne' Hlen'|]; subst. cbn [merge_into_right mk_leaf items].
    destruct (Nat.leb_spec (length xs + length ys) capacity) as [Hle|Hlt].
    + rewrite <- fmap_app, !array_vec_fits; simpl; rewrite ?length_fmap, ?length_app; [|lia..].
      eexists _, None. split; [done|]. rewrite <- sum_app_add, <- fmap_app by by destruct ys.
      split; [|done]. apply wf_leaf; [by destruct xs|rewrite length_app; lia].
    + destruct (div_ceil_bounds (length xs + length ys)) as (Hm & Hml & Hmr); [lia..|].
      set (m := (length xs + length ys + 1) / 2) in *.
      rewrite <- fmap_app, !array_vec_fits; simpl;
        rewrite ?length_take, ?length_drop, ?length_fmap, ?length_app; [|lia..].
      rewrite <- fmap_take, <- fmap_drop. eexists _, (Some _). split; [done|].
      destruct (split_leaves (xs ++ ys) m); rewrite ?length_app; [lia..|].
      split_and!; [done|done|]. apply take_drop.
  - inversion Hlarge as [|? us Hne' Hlen' Hall']; subst. cbn [merge_into_right mk_internal].
    change (items (mk_internal (S h) ts) ++ items (mk_internal (S h) us))
      with (content ts ++ content us). rewrite <- content_app.
    assert (Forall (wf h) (ts ++ us)) by by apply Forall_app.
    destruct (Nat.leb_spec (length us + length ts) capacity) as [Hle|Hlt].
    + rewrite <- fmap_app, !array_vec_fits; simpl; rewrite ?length_fmap, ?length_app; [|lia..].
      eexists _, None. split; [done|]. rewrite <- sum_app_add, <- fmap_app by by destruct us.
      split; [|done]. apply wf_internal; [by destruct ts|rewrite length_app; lia|done].
    + destruct (div_ceil_bounds (length us + length ts)) as (Hm & Hml & Hmr); [lia..|].
      set (m := (length us + length ts + 1) / 2) in *.
      rewrite <- fmap_app, !array_vec_fits; simpl;
        rewrite ?length_take, ?length_drop, ?length_fmap, ?length_app; [|lia..].
      rewrite <- fmap_take, <- fmap_drop. eexists _, (Some _). split; [done|].
      destruct (split_internals h (ts ++ us) m); rewrite ?length_app; [lia..|done|].
      split_and!; [done|done|]. apply content_take_drop.
Qed.

(** The children of a node after one more was inserted in front. *)
Lemma insert_front_ok h ts tree :
  1 ≤ TREE_BASE → ts ≠ [] → length ts ≤ capacity → Forall (wf h) ts → wf h tree →
  ∃ large' left,
    (if length ts <? capacity then
       cs ← array_vec (node_summary tree :: (node_summary <$> ts));
       us ← array_vec (tree :: ts);
       Some (Internal (S h) (sum (summary <$> content (tree :: ts))) cs us, None)
     else
       new_child_summaries ← array_vec (node_summary tree :: take TREE_BASE (node_summary <$> ts));
       new_child_trees ← array_vec (tree :: take TREE_BASE ts);
       let child_summaries := drop TREE_BASE (node_summary <$> ts) in
       let child_trees := drop TREE_BASE ts in
       Some (Internal (S h) (sum child_summaries) child_summaries child_trees,
             Some (Internal (S h) (sum new_child_summaries) new_child_summaries new_child_trees))) =
      Some (large', left) ∧
    prepend_ok (S h) (content (tree :: ts)) large' left.
Proof.
  intros HB Hne Hlen Hall Ht.
  assert (Forall (wf h) (tree :: ts)) as Hall' by by constructor.
  destruct (Nat.ltb_spec (length ts) capacity) as [Hlt|Hge].
  - rewrite !array_vec_fits; simpl; rewrite ?length_fmap; [|lia..].
    eexists _, None. split; [done|]. rewrite <- (wf_content_summary h (tree :: ts)) by done.
    split; [|done]. by apply wf_internal.
  - rewrite !array_vec_fits; simpl; unfold capacity in *;
      rewrite ?length_take, ?length_fmap; [|lia..].
    rewrite <- fmap_take, <- fmap_drop. eexists _, (Some _). split; [done|].
    split_and!.
    + apply (wf_internal h (tree :: take TREE_BASE ts)); [done| |].
      * unfold capacity. simpl. rewrite length_take. lia.
      * constructor; [done|]. by apply Forall_take.
    + apply wf_internal.
      * intros E. apply (f_equal length) in E. rewrite length_drop in E. simpl in E. lia.
      * unfold capacity. rewrite length_drop. lia.
      * by apply Forall_drop.
    + change (content (tree :: take TREE_BASE ts) ++ content (drop TREE_BASE ts)
        = content (tree :: ts)).
      rewrite !content_cons, <- app_assoc. f_equal. apply content_take_drop.
Qed.

(** [append_large] on well-formed trees. *)
Lemma append_large_ok fuel h k small large :
  1 ≤ TREE_BASE → wf k small → wf h large → k ≤ h → h < fuel →
  ∃ large' left,
    append_large fuel small large = Some (large', left) ∧
    prepend_ok h (items small ++ items large) large' left.
Proof.
  intros HB Hsmall. revert h large. induction fuel as [|fuel IH]; [lia|].
  intros h large Hlarge Hk Hfuel. cbn [append_large].
  rewrite (wf_height k small), (wf_height h large) by done.
  destruct (Nat.eqb_spec k h) as [->|Hne].
  { destruct (is_underflowing small); simpl; [by apply merge_into_right_ok|].
    eexists _, (Some _). split; [done|]. by split. }
  destruct Hlarge as [|h ts Hts Hlen Hall]; [lia|]. cbn [mk_internal].
  destruct ts as [|t ts]; [done|]. apply Forall_cons in Hall as [Ht Hall].
  cbn [head mbind option_bind].
  destruct (IH h t) as (t' & res & -> & Hok); [done|lia|lia|]. rewrite fmap_cons. cbn [mbind option_bind head tail].
  change (items (mk_internal (S h) (t :: ts))) with (content (t :: ts)).
  assert (add (node_summary small) (sum (node_summary t :: (node_summary <$> ts))) =
    sum (summary <$> items small ++ content (t :: ts))) as Hsum.
  { rewrite <- (fmap_cons node_summary t ts), (wf_content_summary h), (wf_summary k small) by (done || by constructor).
    rewrite fmap_app, sum_app_add; [done|]. rewrite content_cons.
    apply wf_items_nonempty in Ht. by destruct (items t). }
  rewrite Hsum, <- (fmap_cons node_summary t' ts), content_cons, app_assoc.
  destruct res as [tree|]; simpl in Hok.
  - destruct Hok as (Htree & Ht' & Heq). rewrite <- Heq, <- app_assoc, <- !content_cons.
    by apply insert_front_ok; [..|constructor|].
  - destruct Hok as (Ht' & Heq). rewrite <- Heq, <- content_cons.
    rewrite <- (wf_content_summary h) by by constructor.
    eexists _, None. split; [done|]. split; [|done]. apply wf_internal; [done|done|by constructor].
Qed.

Lemma from_child_trees_ok h l r :
  1 ≤ TREE_BASE → wf h l → wf h r →
  ∃ t, from_child_trees l r = Some t ∧ wf (S h) t ∧ items t = items l ++ items r.
Proof.
  intros HB Hl Hr. unfold from_child_trees.
  rewrite !array_vec_fits by (unfold capacity; simpl; lia). simpl.
  rewrite (wf_height h l), Nat.add_1_r by done. eexists. split; [done|].
  split; [|simpl; by rewrite app_nil_r].
  apply (wf_internal h [l; r]); [done| |by repeat constructor].
  unfold capacity. simpl. lia.
Qed.

Lemma wf_not_empty h t : wf h t → is_empty t = false.
Proof. destruct 1 as [xs|]; [|done]. by destruct xs. Qed.

Lemma wf_tree_items_nil t : wf_tree t → items t = [] → t = new.
Proof. intros [->|[h Ht]]; [done|]. intros E. by apply wf_items_nonempty in Ht. Qed.

Lemma wf_append h k self other :
  1 ≤ TREE_BASE → wf h self → wf k other →
  ∃ t, append self other = Some t ∧ (∃ n, wf n t) ∧ items t = items self ++ items other.
Proof.
  intros HB Hs Ho. unfold append. rewrite (wf_not_empty h self) by done.
  assert (negb (is_leaf other)
    || negb (from_option (λ xs, length xs =? 0) false (node_items other)) = true) as ->.
  { destruct Ho as [xs Hne|]; [|done]. simpl. by destruct xs. }
  rewrite (wf_height h self), (wf_height k other) by done.
  destruct (Nat.ltb_spec h k).
  - destruct (append_large_ok (S k) k h self other) as (large & left & -> & Hok); [done|done|done|lia|lia|].
    simpl. destruct left as [tree|]; simpl in Hok.
    + destruct Hok as (? & ? & <-). destruct (from_child_trees_ok k tree large) as (t & ? & ? & ?); eauto.
    + destruct Hok as (? & <-). eauto.
  - destruct (push_tree_recursive_ok (S h) h k self other) as (l & r & -> & Hok); [done|done|lia|lia|].
    simpl. destruct r as [r|]; simpl in Hok.
    + destruct Hok as (? & ? & <-). destruct (from_child_trees_ok h l r) as (t & ? & ? & ?); eauto.
    + destruct Hok as (? & <-). eauto.
Qed.

(** [append] is total on well-formed trees, keeps them well formed and
    concatenates their items. *)
Lemma append_ok self other :
  1 ≤ TREE_BASE → wf_tree self → wf_tree other →
  ∃ t, append self other = Some t ∧ wf_tree t ∧ items t = items self ++ items other.
Proof.
  intros HB [->|[h Hs]] Ho; [by exists other|].
  destruct Ho as [->|[k Ho]].
  - exists self. unfold append. rewrite (wf_not_empty h self) by done. simpl.
    rewrite app_nil_r. split_and!; [done|right; eauto|done].
  - destruct (wf_append h k self other) as (t & ? & ? & ?); [done..|].
    exists t. split_and!; [done|by right|done].
Qed.

Lemma wf_single item : 1 ≤ TREE_BASE → wf 0 (Leaf (summary item) [item] [summary item]).
Proof.
  intros HB. replace (Leaf (summary item) [item] [summary item]) with (mk_leaf [item]).
  - apply wf_leaf; [done|]. unfold capacity. simpl. lia.
  - unfold mk_leaf. simpl. by rewrite sum_singleton.
Qed.

Lemma push_ok self item :
  1 ≤ TREE_BASE → wf_tree self →
  ∃ t, push self item = Some t ∧ wf_tree t ∧ items t = items self ++ [item].
Proof. intros HB Hs. apply append_ok; [done|done|]. right. eauto using wf_single. Qed.

(** *** [from_iter] *)

Lemma chunks_concat {A} fuel n (l : list A) :
  0 < n → length l ≤ fuel → concat (chunks fuel n l) = l.
Proof.
  intros Hn. revert l. induction fuel as [|fuel IH]; intros [|x l] Hl; simpl in *; [done|lia|done|].
  rewrite IH; [by rewrite take_drop with (l := x :: l)|].
  rewrite length_drop. simpl. lia.
Qed.

Lemma chunks_bounds {A} fuel n (l : list A) :
  0 < n → Forall (λ c, c ≠ [] ∧ length c ≤ n) (chunks fuel n l).
Proof.
  intros Hn. revert l. induction fuel as [|fuel IH]; intros [|x l]; cbn [chunks]; constructor; auto.
  split; [by destruct n; [lia|]|]. rewrite length_take. lia.
Qed.

Lemma chunks_length {A} fuel n (l : list A) :
  2 ≤ n → 2 * length (chunks fuel n l) ≤ length l + 1.
Proof.
  intros Hn. revert l. induction fuel as [|fuel IH]; intros [|x l]; cbn [chunks length]; try lia.
  specialize (IH (drop n (x :: l))). rewrite length_drop in IH. simpl length in IH.
  destruct (decide (n ≤ S (length l))); [lia|].
  replace (drop n (x :: l)) with (@nil A) in * by (symmetry; apply drop_ge; simpl; lia).
  destruct fuel; simpl in *; lia.
Qed.

Lemma leaf_of_chunk_eq c : c ≠ [] → leaf_of_chunk c = mk_leaf c.
Proof.
  destruct c as [|x c]; [done|]. intros _. unfold leaf_of_chunk, mk_leaf.
  cbn [fmap list_fmap]. by rewrite sum_cons.
Qed.

Lemma parent_of_chunk_eq h c : parent_of_chunk h c = mk_internal h c.
Proof.
  unfold parent_of_chunk, mk_internal, sum. f_equal.
  generalize (@zero Sm _). induction c as [|t c IH]; intros s; simpl; auto.
Qed.

Lemma build_levels_ok fuel h nodes :
  1 ≤ TREE_BASE → nodes ≠ [] → Forall (wf h) nodes → length nodes ≤ fuel →
  ∃ k t, build_levels fuel h nodes = [t] ∧ wf k t ∧ items t = content nodes.
Proof.
  intros HB. revert h nodes. induction fuel as [|fuel IH]; intros h nodes Hne Hall Hlen.
  { destruct nodes; simpl in *; [done|lia]. }
  cbn [build_levels]. destruct (Nat.ltb_spec 1 (length nodes)) as [Hlt|Hle].
  - set (cs := chunks (length nodes) capacity nodes).
    pose proof (chunks_bounds (length nodes) capacity nodes ltac:(unfold capacity; lia)) as Hb.
    pose proof (chunks_length (length nodes) capacity nodes ltac:(unfold capacity; lia)) as Hl.
    pose proof (chunks_concat (length nodes) capacity nodes ltac:(unfold capacity; lia)
      ltac:(lia)) as Hc. fold cs in Hb, Hl, Hc.
    destruct (IH (S h) (parent_of_chunk (S h) <$> cs)) as (k & t & -> & Ht & Hi).
    + intros E%fmap_nil_inv. rewrite E in Hc. by subst nodes.
    + rewrite <- Hc in Hall. clear -Hall Hb. induction cs as [|c cs IH]; simpl; constructor.
      * simpl in Hall. apply Forall_app in Hall as [? _]. apply Forall_cons in Hb as [[? ?] _].
        rewrite parent_of_chunk_eq. by apply wf_internal.
      * simpl in Hall. apply Forall_app in Hall as [_ ?]. apply Forall_cons in Hb as [_ ?]. by apply IH.
    + rewrite length_fmap. lia.
    + exists k, t. split_and!; [done|done|]. rewrite Hi, <- Hc. clear.
      induction cs as [|c cs IH]; [done|].
      cbn [fmap list_fmap concat]. rewrite content_cons, content_app. by f_equal.
  - destruct nodes as [|t [|]]; simpl in Hle; [done| |lia].
    apply Forall_cons in Hall as [Ht _]. exists h, t. by rewrite content_singleton.
Qed.

Lemma from_iter_ok l :
  1 ≤ TREE_BASE → wf_tree (from_iter l) ∧ items (from_iter l) = l.
Proof.
  intros HB. unfold from_iter. set (cs := chunks (length l) capacity l).
  pose proof (chunks_bounds (length l) capacity l ltac:(unfold capacity; lia)) as Hb.
  pose proof (chunks_concat (length l) capacity l ltac:(unfold capacity; lia) ltac:(lia)) as Hc.
  fold cs in Hb, Hc.
  destruct (decide (cs = [])) as [E|Hne].
  { rewrite E in *. simpl in Hc. subst l. split; [by left|done]. }
  destruct (build_levels_ok (length (leaf_of_chunk <$> cs)) 0 (leaf_of_chunk <$> cs))
    as (k & t & -> & Ht & Hi); [done| | |lia|].
  - by intros ?%fmap_nil_inv.
  - clear -Hb. induction Hb as [|c cs [? ?]]; simpl; constructor; [|done].
    rewrite leaf_of_chunk_eq by done. by constructor.
  - simpl. split; [right; eauto|]. rewrite Hi, <- Hc. clear.
    induction cs as [|c cs IH]; [done|].
    cbn [fmap list_fmap concat]. rewrite content_cons. by f_equal.
Qed.

Lemma extend_ok self l :
  1 ≤ TREE_BASE → wf_tree self →
  ∃ t, extend self l = Some t ∧ wf_tree t ∧ items t = items self ++ l.
Proof.
  intros HB Hs. destruct (from_iter_ok l HB) as [Hw Hi].
  destruct (append_ok self (from_iter l) HB Hs Hw) as (t & ? & ? & Ht).
  exists t. by rewrite <- Hi at 2.
Qed.

(** *** First and last item *)

Lemma leftmost_leaf_ok fuel h t :
  wf h t → h < fuel → ∃ xs, leftmost_leaf fuel t = Some (mk_leaf xs) ∧ xs ≠ [] ∧
    ∃ rest, items t = xs ++ rest.
Proof.
  revert h t. induction fuel as [|fuel IH]; [lia|]. intros h t Ht Hf.
  destruct Ht as [xs|h [|t ts] ? ? Hall]; [| done|].
  - exists xs. split_and!; [done|done|]. exists []. simpl. by rewrite app_nil_r.
  - apply Forall_cons in Hall as [Ht _]. destruct (IH h t Ht ltac:(lia)) as (xs & ? & ? & rest & E).
    exists xs. split_and!; [done|done|]. exists (rest ++ content ts).
    change (items (mk_internal (S h) (t :: ts))) with (content (t :: ts)).
    by rewrite content_cons, E, app_assoc.
Qed.

Lemma rightmost_leaf_ok fuel h t :
  wf h t → h < fuel → ∃ xs, rightmost_leaf fuel t = Some (mk_leaf xs) ∧ xs ≠ [] ∧
    ∃ rest, items t = rest ++ xs.
Proof.
  revert h t. induction fuel as [|fuel IH]; [lia|]. intros h t Ht Hf.
  destruct Ht as [xs|h ts Hne ? Hall].
  - exists xs. split_and!; [done|done|]. by exists [].
  - destruct (nonempty_snoc ts Hne) as (init & u & ->). apply Forall_snoc_inv in Hall as [_ Hu].
    destruct (IH h u Hu ltac:(lia)) as (xs & Hr & ? & rest & E).
    exists xs. split_and!; [|done|].
    + cbn [rightmost_leaf mk_internal]. rewrite last_snoc. done.
    + exists (content init ++ rest).
      change (items (mk_internal (S h) (init ++ [u]))) with (content (init ++ [u])).
      by rewrite content_app, content_singleton, E, app_assoc.
Qed.

Lemma first_item_ok t : wf_tree t → first_item t = head (items t).
Proof.
  intros [->|[h Ht]]; [done|]. unfold first_item.
  destruct (leftmost_leaf_ok (S (node_height t)) h t Ht) as (xs & -> & Hne & rest & ->).
  { rewrite (wf_height h t Ht). lia. }
  by destruct xs.
Qed.

Lemma last_item_ok t : wf_tree t → last_item t = last (items t).
Proof.
  intros [->|[h Ht]]; [done|]. unfold last_item.
  destruct (rightmost_leaf_ok (S (node_height t)) h t Ht) as (xs & -> & Hne & rest & ->).
  { rewrite (wf_height h t Ht). lia. }
  simpl. destruct (nonempty_snoc xs Hne) as (ys & y & ->). by rewrite app_assoc, !last_snoc.
Qed.

Lemma last_summary_ok t : wf_tree t → last_summary t = summary <$> last (items t).
Proof.
  intros [->|[h Ht]]; [done|]. unfold last_summary.
  destruct (rightmost_leaf_ok (S (node_height t)) h t Ht) as (xs & -> & Hne & rest & ->).
  { rewrite (wf_height h t Ht). lia. }
  simpl. destruct (nonempty_snoc xs Hne) as (ys & y & ->).
  by rewrite fmap_last, app_assoc, !last_snoc.
Qed.

(** *** Updating the first and last item *)

Lemma wf_set_last h ts u :
  1 ≤ TREE_BASE → length (ts ++ [u]) ≤ capacity → Forall (wf h) ts → wf h u →
  wf (S h) (mk_internal (S h) (ts ++ [u])).
Proof.
  intros. apply wf_internal; [by destruct ts|done|]. by apply Forall_app; split; [|constructor].
Qed.

(** [update_last_recursive] replaces the last item and refreshes every summary
    on the way up. *)
Lemma update_last_recursive_ok fuel f h t l x :
  1 ≤ TREE_BASE → wf h t → h < fuel → items t = l ++ [x] →
  ∃ u, update_last_recursive fuel f t = Some (u, Some (node_summary u)) ∧
    wf h u ∧ items u = l ++ [f x].
Proof.
  intros HB. revert h t l. induction fuel as [|fuel IH]; [lia|]. intros h t l Ht Hf Hi.
  destruct Ht as [xs Hne Hlen|h ts Hne Hlen Hall].
  - simpl in Hi. subst xs. cbn [update_last_recursive mk_leaf].
    rewrite fmap_last, last_snoc. cbn [fmap option_fmap option_map].
    rewrite set_last_snoc. cbn [mbind option_bind].
    rewrite (fmap_app summary l [x]). change (summary <$> [x]) with [summary x].
    rewrite set_last_snoc. cbn [mbind option_bind].
    change ([summary (f x)]) with (summary <$> [f x]). rewrite <- fmap_app.
    exists (mk_leaf (l ++ [f x])). split; [done|]. split; [|done]. apply wf_leaf.
    + by destruct l.
    + rewrite length_app in *. done.
  - destruct (nonempty_snoc ts Hne) as (init & u & ->). apply Forall_snoc_inv in Hall as [Hinit Hu].
    change (content (init ++ [u]) = l ++ [x]) in Hi.
    rewrite content_app, content_singleton in Hi.
    destruct (nonempty_snoc (items u) (wf_items_nonempty h u Hu)) as (k & y & Hy).
    rewrite Hy, app_assoc in Hi. apply app_inj_tail in Hi as [<- ->].
    destruct (IH h u k Hu ltac:(lia) Hy) as (u' & Hrec & Hu' & Hy').
    cbn [update_last_recursive mk_internal]. rewrite last_snoc. cbn [mbind option_bind].
    rewrite Hrec. cbn [mbind option_bind]. rewrite fmap_app. change (node_summary <$> [u]) with [node_summary u].
    rewrite set_last_snoc. cbn [mbind option_bind]. rewrite set_last_snoc. cbn [mbind option_bind].
    change ([node_summary u']) with (node_summary <$> [u']). rewrite <- fmap_app.
    exists (mk_internal (S h) (init ++ [u'])). split; [done|]. split.
    + apply wf_set_last; [done|by rewrite length_app in *|done|done].
    + change (content (init ++ [u']) = (content init ++ k) ++ [f x]).
      by rewrite content_app, content_singleton, Hy', app_assoc.
Qed.

Lemma update_last_ok f t l x :
  1 ≤ TREE_BASE → wf_tree t → items t = l ++ [x] →
  ∃ u, update_last f t = Some u ∧ wf_tree u ∧ items u = l ++ [f x].
Proof.
  intros HB [->|[h Ht]] Hi; [by destruct l|]. unfold update_last.
  rewrite (wf_height h t Ht).
  destruct (update_last_recursive_ok (S h) f h t l x) as (u & -> & ? & ?); [done..|lia|done|].
  exists u. split_and!; [done|right; eauto|done].
Qed.

Lemma update_first_recursive_ok fuel f h t l x :
  1 ≤ TREE_BASE → wf h t → h < fuel → items t = x :: l →
  ∃ u, update_first_recursive fuel f t = Some (u, Some (node_summary u)) ∧
    wf h u ∧ items u = f x :: l.
Proof.
  intros HB. revert h t l. induction fuel as [|fuel IH]; [lia|]. intros h t l Ht Hf Hi.
  destruct Ht as [xs Hne Hlen|h ts Hne Hlen Hall].
  - simpl in Hi. subst xs. cbn. exists (mk_leaf (f x :: l)). split; [reflexivity|]. split; [|done].
    by apply (wf_leaf (f x :: l)).
  - destruct ts as [|u ts]; [done|]. apply Forall_cons in Hall as [Hu Hall].
    change (content (u :: ts) = x :: l) in Hi. rewrite content_cons in Hi.
    destruct (items u) as [|y k] eqn:Hy; [by apply wf_items_nonempty in Hu|].
    simpl in Hi. injection Hi as -> <-.
    destruct (IH h u k Hu ltac:(lia) Hy) as (u' & Hrec & Hu' & Hy').
    cbn [update_first_recursive mk_internal head mbind option_bind]. rewrite Hrec.
    cbn [mbind option_bind]. rewrite fmap_cons. cbn [mbind option_bind head tail].
    rewrite <- fmap_cons. exists (mk_internal (S h) (u' :: ts)). split; [done|]. split.
    + apply (wf_internal h (u' :: ts)); [done|done|by constructor].
    + change (content (u' :: ts) = f x :: k ++ content ts). by rewrite content_cons, Hy'.
Qed.

Lemma update_first_ok f t l x :
  1 ≤ TREE_BASE → wf_tree t → items t = x :: l →
  ∃ u, update_first f t = Some u ∧ wf_tree u ∧ items u = f x :: l.
Proof.
  intros HB [->|[h Ht]] Hi; [done|]. unfold update_first.
  rewrite (wf_height h t Ht).
  destruct (update_first_recursive_ok (S h) f h t l x) as (u & -> & ? & ?); [done..|lia|done|].
  exists u. split_and!; [done|right; eauto|done].
Qed.

(** ** Properties *)

Lemma wf_tree_summary t : wf_tree t → node_summary t = sum (summary <$> items t).
Proof. intros [->|[h Ht]]; [done|by eapply wf_summary]. Qed.

(** C13: [append] of two well-formed trees never panics and refines list
    concatenation: the result is a balanced tree (all leaves at one depth, no
    node over capacity, cached summaries equal to the sums of what is below)
    whose items are those of the first tree followed by those of the second,
    and whose summary is the sum of the two. *)
Theorem append_refines_app t u :
  1 ≤ TREE_BASE → wf_tree t → wf_tree u →
  ∃ v, append t u = Some v ∧ wf_tree v ∧ items v = items t ++ items u ∧
    node_summary v = sum (summary <$> (items t ++ items u)).
Proof.
  intros HB Ht Hu. destruct (append_ok t u HB Ht Hu) as (v & E & Hv & Hi).
  exists v. split_and!; [done..|]. rewrite <- Hi. by apply wf_tree_summary.
Qed.

(** [from_iter] builds, bottom-up, a well-formed tree with exactly the
    given items; [extend] appends more. *)
Theorem build_refines_list l k :
  1 ≤ TREE_BASE →
  wf_tree (from_iter l) ∧ items (from_iter l) = l ∧
  ∃ u, extend (from_iter l) k = Some u ∧ wf_tree u ∧ items u = l ++ k.
Proof.
  intros HB. destruct (from_iter_ok l HB) as (Ht & Hi).
  destruct (extend_ok (from_iter l) k HB Ht) as (u & E' & Hu & Hu'). rewrite Hi in Hu'.
  split_and!; [done..|]. by exists u.
Qed.

(** [update_last] and [update_first] change only the last (first) item of
    a non-empty tree and recompute every summary on the path. *)
Theorem update_ends_refine_list f t x l y :
  1 ≤ TREE_BASE → wf_tree t → items t = x :: l ++ [y] →
  ∃ u v, update_last f t = Some u ∧ wf_tree u ∧ items u = x :: l ++ [f y] ∧
    update_first f t = Some v ∧ wf_tree v ∧ items v = f x :: l ++ [y].
Proof.
  intros HB Ht Hi.
  destruct (update_last_ok f t (x :: l) y HB Ht Hi) as (u & ? & ? & ?).
  destruct (update_first_ok f t (l ++ [y]) x HB Ht Hi) as (v & ? & ? & ?).
  by exists u, v.
Qed.

End sum_tree.

(** ** Witnesses: trees of integers that count their items, base 2. *)

Module Counting.
#[export, refine] Instance nat_Summary : Summary nat := {| zero := 0; add := Nat.add |}.
Proof. - done. - simpl. lia. Defined.
#[export] Instance nat_Item : Item Z nat := {| summary := λ _, 1 |}.

Definition t2 : Node Z nat := mk_internal 1 [mk_leaf [10; 20]%Z; mk_leaf [30]%Z].
Lemma t2_wf : wf_tree 2 t2.
Proof.
  right. exists 1. unfold t2. constructor; [done|simpl; unfold capacity; lia|].
  repeat constructor; simpl; unfold capacity; try done; lia.
Defined.

Example append_refines_app_witness :
  ∃ v, append 2 t2 t2 = Some v ∧ wf_tree 2 v ∧ items v = items t2 ++ items t2 ∧
    node_summary v = sum (summary <$> (items t2 ++ items t2)).
Proof. apply (append_refines_app 2 t2 t2); [lia|apply t2_wf..]. Defined.

Example build_refines_list_witness :
  wf_tree 2 (from_iter 2 [1; 2; 3; 4; 5; 6; 7]%Z) ∧
  items (from_iter 2 [1; 2; 3; 4; 5; 6; 7]%Z) = [1; 2; 3; 4; 5; 6; 7]%Z ∧
  ∃ u, extend 2 (from_iter 2 [1; 2; 3; 4; 5; 6; 7]%Z) [8]%Z = Some u ∧ wf_tree 2 u ∧ items u = [1; 2; 3; 4; 5; 6; 7]%Z ++ [8]%Z.
Proof. apply (build_refines_list 2 [1; 2; 3; 4; 5; 6; 7]%Z [8]%Z). lia. Defined.

Example update_ends_refine_list_witness :
  ∃ u v, update_last (Z.add 1) t2 = Some u ∧ wf_tree 2 u ∧ items u = [10; 20; 31]%Z ∧
    update_first (Z.add 1) t2 = Some v ∧ wf_tree 2 v ∧ items v = [11; 20; 30]%Z.
Proof.
  apply (update_ends_refine_list 2 (Z.add 1) t2 10%Z [20]%Z 30%Z); [lia|apply t2_wf|done].
Defined.
End Counting.
