(* ===== verification/Cursor.v ===== *)
(** * Cursors over sum trees ([crates/sum_tree/src/cursor.rs], [find] of
    [crates/sum_tree/src/sum_tree.rs])

    The cursor keeps a stack of (node, index, position) entries and never looks
    at more than one root-to-leaf path.  The file models it with its stack, and
    shows that seeking and slicing refine a scan over the list of items. *)

From S2P Require Import Prelude SumTree.

(** [trait Dimension]: a measure that summaries add to. *)
Class Dimension (D Sm : Type) `{Summary Sm} := {
  dzero : D;
  dadd : D → Sm → D;
  dadd_assoc : ∀ d s t, dadd (dadd d s) t = dadd d (add s t);
  dadd_zero : dadd dzero zero = dzero;
}.

Inductive Bias := Left | Right.
#[export] Instance Bias_eq_dec : EqDecision Bias.
Proof. solve_decision. Defined.

Definition invert (b : Bias) : Bias := match b with Left => Right | Right => Left end.

(** The test every descent makes: the target lies beyond a position. *)
Definition past (c : comparison) (bias : Bias) : bool :=
  match c, bias with Gt, _ => true | Eq, Right => true | _, _ => false end.

Section cursor.
Context `{HS : Summary Sm} `{HI : Item T Sm} `{HD : !Dimension D Sm}.
Context (TREE_BASE : nat).
Implicit Types t u : Node T Sm.

Record StackEntry := mkEntry { entry_tree : Node T Sm; entry_index : nat; entry_position : D }.

(** [stack] is kept with its top first; the source's vector holds at most 16
    entries and panics beyond. *)
Record Cursor := mkCursor {
  tree : Node T Sm;
  stack : list StackEntry;
  position : D;
  did_seek : bool;
  at_end : bool;
}.

Definition STACK_CAPACITY : nat := 16.
Definition stack_push (e : StackEntry) (s : list StackEntry) : option (list StackEntry) :=
  if length s <? STACK_CAPACITY then Some (e :: s) else None.

(** [Cursor::new], [reset] *)
Definition cursor_new t : Cursor := mkCursor t [] dzero false (is_empty t).
Definition reset (c : Cursor) : Cursor := cursor_new (tree c).

(** [item] and [item_summary]; the outer option is the panic of
    [assert_did_seek]. *)
Definition cursor_item (c : Cursor) : option (option T) :=
  if did_seek c then
    match stack c with
    | mkEntry (Leaf _ xs _) i _ :: _ => Some (xs !! i)
    | mkEntry (Internal _ _ _ _) _ _ :: _ => None
    | [] => Some None
    end
  else None.

Definition item_summary (c : Cursor) : option (option Sm) :=
  if did_seek c then
    match stack c with
    | mkEntry (Leaf _ _ ss) i _ :: _ => Some (ss !! i)
    | mkEntry (Internal _ _ _ _) _ _ :: _ => None
    | [] => Some None
    end
  else None.

(** [start] and [end]. *)
Definition start (c : Cursor) : D := position c.
Definition cursor_end (c : Cursor) : option D :=
  s ← item_summary c;
  Some (match s with Some s => dadd (start c) s | None => start c end).

(** *** [search_forward] and [next] *)

(** The inner loops: skip the children (or items) the filter rejects. *)
Fixpoint skip_children (filter_node : Sm → bool) (index : nat) (pos epos : D) (ss : list Sm) : nat * D * D :=
  match ss with
  | s :: ss =>
      if filter_node s then (index, pos, epos)
      else skip_children filter_node (S index) (dadd pos s) (dadd epos s) ss
  | [] => (index, pos, epos)
  end.

Fixpoint search_forward_loop (fuel : nat) (filter_node : Sm → bool) (descend : bool)
    (pos : D) (st : list StackEntry) : option (D * list StackEntry) :=
  match fuel with
  | O => None
  | S fuel =>
    match st with
    | [] => Some (pos, [])
    | mkEntry t index epos :: rest =>
      match t with
      | Internal _ _ child_summaries child_trees =>
          let '(index, epos) := if descend then (index, epos) else (S index, pos) in
          let '(index, pos, epos) := skip_children filter_node index pos epos (drop index child_summaries) in
          match child_trees !! index with
          | Some subtree =>
              st ← stack_push (mkEntry subtree 0 pos) (mkEntry t index epos :: rest);
              search_forward_loop fuel filter_node true pos st
          | None => search_forward_loop fuel filter_node false pos rest
          end
      | Leaf _ _ item_summaries =>
          '(index, pos, epos) ←
            (if descend then Some (index, pos, epos)
             else s ← item_summaries !! index; Some (S index, dadd pos s, dadd epos s));
          let '(index, pos, epos) := skip_children filter_node index pos epos (drop index item_summaries) in
          if index <? length item_summaries then Some (pos, mkEntry t index epos :: rest)
          else search_forward_loop fuel filter_node false pos rest
      end
    end
  end.

(** Each iteration visits a node for the first time or leaves it. *)
Fixpoint node_count t : nat :=
  match t with Leaf _ _ _ => 1 | Internal _ _ _ ts => S (sum_list (map node_count ts)) end.
Definition search_fuel (st : list StackEntry) : nat :=
  2 * sum_list (map (λ e, node_count (entry_tree e)) st) + 1.

Definition search_forward (filter_node : Sm → bool) (c : Cursor) : option Cursor :=
  '(st, descend) ←
    (match stack c with
     | [] => if at_end c then Some ([], false)
             else st ← stack_push (mkEntry (tree c) 0 dzero) []; Some (st, true)
     | st => Some (st, false)
     end);
  '(pos, st) ← search_forward_loop (search_fuel st) filter_node descend (position c) st;
  Some (mkCursor (tree c) st pos true (match st with [] => true | _ => false end)).

Definition next (c : Cursor) : option Cursor := search_forward (λ _, true) c.

(** *** [seek_internal] *)

(** [trait SeekAggregate] as a record of operations; filling a leaf that is
    too large panics. *)
Record SeekAggregate (A : Type) := {
  begin_leaf : A → A;
  end_leaf : A → option A;
  push_item : A → T → Sm → option A;
  push_tree : A → Node T Sm → Sm → option A;
}.
Arguments begin_leaf {A} _ _.
Arguments end_leaf {A} _ _.
Arguments push_item {A} _ _ _ _.
Arguments push_tree {A} _ _ _ _.

(** The scan over the children of an internal node from [index]: the children
    the target lies beyond are passed to the aggregate; the result holds the
    first other child. *)
Fixpoint scan_children {A} (agg : SeekAggregate A) (target : D → comparison) (bias : Bias)
    (a : A) (pos : D) (index : nat) (cts : list (Node T Sm * Sm))
    : option (A * D * nat * option (Node T Sm)) :=
  match cts with
  | [] => Some (a, pos, index, None)
  | (child_tree, child_summary) :: cts =>
      let child_end := dadd pos child_summary in
      if past (target child_end) bias then
        a ← push_tree agg a child_tree child_summary;
        scan_children agg target bias a child_end (S index) cts
      else Some (a, pos, index, Some child_tree)
  end.

Fixpoint scan_items {A} (agg : SeekAggregate A) (target : D → comparison) (bias : Bias)
    (a : A) (pos : D) (index : nat) (its : list (T * Sm)) : option (A * D * nat * bool) :=
  match its with
  | [] => Some (a, pos, index, false)
  | (item, s) :: its =>
      let child_end := dadd pos s in
      if past (target child_end) bias then
        a ← push_item agg a item s;
        scan_items agg target bias a child_end (S index) its
      else Some (a, pos, index, true)
  end.

Fixpoint seek_loop {A} (agg : SeekAggregate A) (target : D → comparison) (bias : Bias) (fuel : nat)
    (a : A) (pos : D) (ascending : bool) (st : list StackEntry) : option (A * D * list StackEntry) :=
  match fuel with
  | O => None
  | S fuel =>
    match st with
    | [] => Some (a, pos, [])
    | mkEntry t index epos :: rest =>
      match t with
      | Internal _ _ child_summaries child_trees =>
          let '(index, epos) := if ascending then (S index, pos) else (index, epos) in
          if length child_trees <? index then None else
          '(a, pos', index', child) ←
            scan_children agg target bias a pos index
              (zip (drop index child_trees) (drop index child_summaries));
          let epos := if index' =? index then epos else pos' in
          match child with
          | Some child_tree =>
              st ← stack_push (mkEntry child_tree 0 pos') (mkEntry t index' epos :: rest);
              seek_loop agg target bias fuel a pos' false st
          | None => seek_loop agg target bias fuel a pos' true rest
          end
      | Leaf _ items_ item_summaries =>
          if length items_ <? index then None else
          '(a, pos, index, found) ←
            scan_items agg target bias (begin_leaf agg a) pos index
              (zip (drop index items_) (drop index item_summaries));
          a ← end_leaf agg a;
          if (found : bool) then Some (a, pos, mkEntry t index epos :: rest)
          else seek_loop agg target bias fuel a pos true rest
      end
    end
  end.

(** The cursor climbs at most to the root and then descends to a leaf. *)
Definition seek_fuel : nat := 2 * STACK_CAPACITY + 1.

Definition seek_internal {A} (agg : SeekAggregate A) (target : D → comparison) (bias : Bias)
    (a : A) (c : Cursor) : option (A * Cursor * bool) :=
  (* assert!(target.cmp(&self.position).is_ge(), "cannot seek backward") *)
  match target (position c) with
  | Lt => None
  | _ =>
      st ← (if did_seek c then Some (stack c)
            else stack_push (mkEntry (tree c) 0 dzero) (stack c));
      '(a, pos, st) ← seek_loop agg target bias seek_fuel a (position c) false st;
      let c := mkCursor (tree c) st pos true (match st with [] => true | _ => false end) in
      s ← item_summary c;
      let e := match bias, s with Left, Some s => dadd pos s | _, _ => pos end in
      Some (a, c, match target e with Eq => true | _ => false end)
  end.

(** The three aggregates: none, a slice of the tree, a summary. *)
Definition no_aggregate : SeekAggregate () := {|
  begin_leaf := id; end_leaf := Some;
  push_item := λ a _ _, Some a; push_tree := λ a _ _, Some a |}.

Record SliceSeekAggregate := mkSlice {
  slice_tree : Node T Sm;
  leaf_items : list T;
  leaf_item_summaries : list Sm;
  leaf_summary : Sm;
}.

Definition slice_aggregate : SeekAggregate SliceSeekAggregate := {|
  begin_leaf := id;
  end_leaf a :=
    t ← append TREE_BASE (slice_tree a) (Leaf (leaf_summary a) (leaf_items a) (leaf_item_summaries a));
    Some (mkSlice t [] [] zero);
  push_item a item s :=
    xs ← array_vec TREE_BASE (leaf_items a ++ [item]);
    ss ← array_vec TREE_BASE (leaf_item_summaries a ++ [s]);
    Some (mkSlice (slice_tree a) xs ss (add (leaf_summary a) s));
  push_tree a t _ :=
    t ← append TREE_BASE (slice_tree a) t;
    Some (mkSlice t (leaf_items a) (leaf_item_summaries a) (leaf_summary a)) |}.

Definition summary_aggregate {O} `{!Dimension O Sm} : SeekAggregate O := {|
  begin_leaf := id; end_leaf := Some;
  push_item := λ o _ s, Some (dadd o s); push_tree := λ o _ s, Some (dadd o s) |}.

(** [seek], [seek_forward], [slice], [suffix], [summary]. *)
Definition seek (target : D → comparison) (bias : Bias) (c : Cursor) : option (Cursor * bool) :=
  '(_, c, b) ← seek_internal no_aggregate target bias () (reset c); Some (c, b).
Definition seek_forward (target : D → comparison) (bias : Bias) (c : Cursor) : option (Cursor * bool) :=
  '(_, c, b) ← seek_internal no_aggregate target bias () c; Some (c, b).
Definition slice (target : D → comparison) (bias : Bias) (c : Cursor) : option (Node T Sm * Cursor) :=
  '(a, c, _) ← seek_internal slice_aggregate target bias (mkSlice new [] [] zero) c;
  Some (slice_tree a, c).
Definition End : D → comparison := λ _, Gt.
Definition suffix (c : Cursor) : option (Node T Sm * Cursor) := slice End Right c.
Definition cursor_summary {O} `{!Dimension O Sm} (target : D → comparison) (bias : Bias) (c : Cursor)
    : option (O * Cursor) :=
  '(o, c, _) ← seek_internal summary_aggregate target bias dzero c; Some (o, c).

(** ** The list-level specification

    Seeking is a scan over the items: it passes every item whose end the
    target lies beyond and stops at the first other one. *)

Fixpoint lseek (beyond : D → bool) (d : D) (l : list T) : list T * D * list T :=
  match l with
  | [] => ([], d, [])
  | x :: l' =>
      let e := dadd d (summary x) in
      if beyond e then let '(sk, d', r) := lseek beyond e l' in (x :: sk, d', r)
      else ([], d, l)
  end.

(** The position after a list of items. *)
Definition dpos (d : D) (l : list T) : D := foldl dadd d (summary <$> l).

(** The target compares monotonically: once an end position is passed, so are
    all earlier ones.  Every seek in an ordered tree satisfies this. *)
Definition monotone (beyond : D → bool) (d : D) (l : list T) : Prop :=
  ∀ l1 l2 l3, l = l1 ++ l2 ++ l3 → l1 ≠ [] →
    beyond (dpos d (l1 ++ l2)) = true → beyond (dpos d l1) = true.

Lemma dpos_app d l k : dpos d (l ++ k) = dpos (dpos d l) k.
Proof. unfold dpos. by rewrite fmap_app, foldl_app. Qed.

Lemma dpos_cons d x l : dpos d (x :: l) = dpos (dadd d (summary x)) l.
Proof. done. Qed.

Lemma foldl_dadd_sum d (s : Sm) ss : foldl dadd (dadd d s) ss = dadd d (foldl add s ss).
Proof. revert s. induction ss as [|u ss IH]; intros s; simpl; [done|]. by rewrite dadd_assoc, IH. Qed.

(** Adding a cached summary moves past all items of the subtree at once. *)
Lemma dpos_sum d l : l ≠ [] → dadd d (sum (summary <$> l)) = dpos d l.
Proof.
  destruct l as [|x l]; [done|]. intros _. unfold dpos. rewrite fmap_cons, sum_cons.
  simpl. by rewrite foldl_dadd_sum.
Qed.

Lemma monotone_app beyond d l k : monotone beyond d (l ++ k) → monotone beyond (dpos d l) k.
Proof.
  intros Hm l1 l2 l3 -> Hne. rewrite <- !dpos_app. intros Hb.
  destruct l as [|x l]; [by eapply (Hm l1 l2 l3)|].
  apply (Hm ((x :: l) ++ l1) l2 l3); [by rewrite <- !app_assoc|done|by rewrite <- app_assoc].
Qed.

Lemma monotone_prefix beyond d l k : monotone beyond d (l ++ k) → monotone beyond d l.
Proof. intros Hm l1 l2 l3 ->. apply (Hm l1 l2 (l3 ++ k)). by rewrite <- !app_assoc. Qed.

Definition prepend (l : list T) (r : list T * D * list T) : list T * D * list T :=
  (l ++ r.1.1, r.1.2, r.2).

(** A whole run that ends before the target is skipped by the scan. *)
Lemma lseek_skip beyond d l k :
  l ≠ [] → monotone beyond d (l ++ k) → beyond (dpos d l) = true →
  lseek beyond d (l ++ k) = prepend l (lseek beyond (dpos d l) k).
Proof.
  intros _. revert d. induction l as [|x l IH]; intros d Hm Hb.
  { unfold prepend. simpl. change (dpos d []) with d. by destruct (lseek beyond d k) as [[??]?]. }
  simpl. assert (beyond (dadd d (summary x)) = true) as Hx.
  { apply (Hm [x] l k); [done|done|done]. }
  rewrite Hx, IH; [|by apply (monotone_app beyond d [x])|done]. done.
Qed.

(** A run that ends at or after the target stops the scan. *)
Lemma lseek_stop beyond d l k :
  l ≠ [] → beyond (dpos d l) = false →
  ∃ sk x r, lseek beyond d l = (sk, dpos d sk, x :: r) ∧ l = sk ++ x :: r ∧
    lseek beyond d (l ++ k) = (sk, dpos d sk, x :: r ++ k).
Proof.
  revert d. induction l as [|x l IH]; intros d; [done|]. intros _ Hb. simpl.
  destruct (beyond (dadd d (summary x))) eqn:Hx.
  - destruct l as [|y l]; [unfold dpos in Hb; simpl in Hb; congruence|].
    destruct (IH (dadd d (summary x)) ltac:(done) Hb) as (sk & z & r & H1 & H2 & H3).
    rewrite H1, H3. exists (x :: sk), z, r. by rewrite H2.
  - by exists [], x, l.
Qed.

Lemma lseek_split beyond d l :
  let '(sk, d', r) := lseek beyond d l in
  l = sk ++ r ∧ d' = dpos d sk ∧ (∀ x k, r = x :: k → beyond (dadd d' (summary x)) = false).
Proof.
  revert d. induction l as [|x l IH]; intros d; simpl; [by split_and!|].
  destruct (beyond (dadd d (summary x))) eqn:Hx.
  - specialize (IH (dadd d (summary x))). destruct (lseek _ _ l) as [[sk d'] r].
    destruct IH as (-> & -> & ?). by split_and!.
  - split_and!; [done..|]. by intros ? ? [= -> ->].
Qed.

(** The target lies beyond the end of every skipped item. *)
Lemma lseek_passed beyond d l :
  let '(sk, _, _) := lseek beyond d l in
  ∀ l1 x l2, sk = l1 ++ x :: l2 → beyond (dpos d (l1 ++ [x])) = true.
Proof.
  revert d. induction l as [|y l IH]; intros d; simpl; [by intros [|??]|].
  destruct (beyond (dadd d (summary y))) eqn:Hy; [|by intros [|??]].
  specialize (IH (dadd d (summary y))). destruct (lseek _ _ l) as [[sk d'] r].
  intros [|z l1] x l2 [= -> ->]; [done|]. by apply (IH l1 x l2).
Qed.

Lemma lseek_end d l : lseek (λ p, past (End p) Right) d l = (l, dpos d l, []).
Proof. revert d. induction l as [|x l IH]; intros d; simpl; [done|]. by rewrite IH. Qed.

(** ** The cursor invariant

    [up_ok n k st rest]: [st] are the entries above a subtree of height [k]
    on a path from a root of height [n], and [rest] the items right of it. *)
Inductive up_ok (n : nat) : nat → list StackEntry → list T → Prop :=
| up_nil : up_ok n n [] []
| up_cons k ts i pos st rest :
    i < length ts → ts ≠ [] → length ts ≤ capacity TREE_BASE → Forall (wf TREE_BASE k) ts →
    up_ok n (S k) st rest →
    up_ok n k (mkEntry (mk_internal (S k) ts) i pos :: st) (content (drop (S i) ts) ++ rest).

Lemma up_ok_length n k st rest : up_ok n k st rest → k + length st = n.
Proof. induction 1; simpl in *; lia. Qed.

(** [seeked n st l]: the stack stands before the items [l]. *)
Definition seeked (n : nat) (st : list StackEntry) (l : list T) : Prop :=
  match st with
  | [] => l = []
  | mkEntry t i _ :: st =>
      ∃ xs rest, t = mk_leaf xs ∧ i < length xs ∧ length xs ≤ capacity TREE_BASE ∧
        up_ok n 0 st rest ∧ l = drop i xs ++ rest
  end.

(** [cursor_at c d l]: [c] is at position [d] with the items [l] ahead of it. *)
Definition cursor_at (c : Cursor) (d : D) (l : list T) : Prop :=
  position c = d ∧
  ((did_seek c = false ∧ stack c = [] ∧ at_end c = is_empty (tree c) ∧
      d = dzero ∧ l = items (tree c) ∧
      (tree c = new ∨ ∃ n, n < STACK_CAPACITY ∧ wf TREE_BASE n (tree c))) ∨
   (did_seek c = true ∧ at_end c = match stack c with [] => true | _ => false end ∧
      ∃ n, n < STACK_CAPACITY ∧ seeked n (stack c) l)).

(** ** Aggregates

    [agg_ok a done pending]: the aggregate holds the items [done] and, inside
    a leaf, the items [pending] not yet attached. *)
Class AggregateOK {A} (agg : SeekAggregate A) (agg_ok : A → list T → list T → Prop) := {
  begin_leaf_ok : ∀ a l, agg_ok a l [] → agg_ok (begin_leaf agg a) l [];
  push_item_ok : ∀ a l p x, agg_ok a l p → length p < capacity TREE_BASE →
    ∃ a', push_item agg a x (summary x) = Some a' ∧ agg_ok a' l (p ++ [x]);
  end_leaf_ok : ∀ a l p, agg_ok a l p →
    ∃ a', end_leaf agg a = Some a' ∧ agg_ok a' (l ++ p) [];
  push_tree_ok : ∀ a l k t, agg_ok a l [] → wf TREE_BASE k t →
    ∃ a', push_tree agg a t (node_summary t) = Some a' ∧ agg_ok a' (l ++ items t) [];
}.

#[local] Instance no_aggregate_ok : AggregateOK no_aggregate (λ _ _ _, True).
Proof. constructor; simpl; eauto. Qed.

Definition slice_ok (a : SliceSeekAggregate) (l p : list T) : Prop :=
  wf_tree TREE_BASE (slice_tree a) ∧ items (slice_tree a) = l ∧
  leaf_items a = p ∧ leaf_item_summaries a = summary <$> p ∧
  leaf_summary a = sum (summary <$> p) ∧ length p ≤ capacity TREE_BASE.

Lemma slice_aggregate_ok : 1 ≤ TREE_BASE → AggregateOK slice_aggregate slice_ok.
Proof.
  intros HB. constructor; unfold slice_ok; simpl.
  - done.
  - intros [t xs ss s] l p x (Ht & Hl & Hp & Hss & Hs & Hlen) Hlt. simpl in *. subst.
    rewrite !array_vec_fits; rewrite ?length_app, ?length_fmap; simpl; [|lia..].
    eexists. split; [done|]. simpl.
    rewrite fmap_app, sum_app_add by done. simpl. rewrite sum_singleton.
    split_and!; [done..|lia].
  - intros [t xs ss s] l p (Ht & Hl & Hp & Hss & Hs & Hlen). simpl in *. subst.
    assert (wf_tree TREE_BASE (Leaf (sum (summary <$> p)) p (summary <$> p))) as Hw.
    { destruct p as [|x p]; [by left|]. right. exists 0. by apply (wf_leaf TREE_BASE (x :: p)). }
    destruct (append_ok TREE_BASE t _ HB Ht Hw) as (u & -> & Hu & Hi). simpl.
    eexists. split; [done|]. simpl. split_and!; auto; lia.
  - intros [t xs ss s] l k u (Ht & Hl & Hp & Hss & Hs & Hlen) Hu. simpl in *. subst.
    destruct (append_ok TREE_BASE t u HB Ht) as (v & -> & Hv & Hi); [right; eauto|]. simpl.
    eexists. split; [done|]. simpl. by split_and!.
Qed.

(** ** The scans refine the list scan *)

Section refinement.
Context {A} (agg : SeekAggregate A) (agg_ok : A → list T → list T → Prop).
Context (HA : AggregateOK agg agg_ok).
Context (target : D → comparison) (bias : Bias).
Let beyond : D → bool := λ p, past (target p) bias.

Lemma scan_items_ok a l p d i xs :
  agg_ok a l p → length p + length xs ≤ capacity TREE_BASE →
  let '(sk, d', r) := lseek beyond d xs in
  ∃ a', scan_items agg target bias a d i (zip xs (summary <$> xs)) =
      Some (a', d', i + length sk, negb (bool_decide (length r = 0))) ∧ agg_ok a' l (p ++ sk).
Proof.
  revert a p d i. induction xs as [|x xs IH]; intros a p d i Ha Hlen; simpl.
  { exists a. rewrite Nat.add_0_r, app_nil_r. done. }
  unfold beyond at 1. destruct (past (target (dadd d (summary x))) bias) eqn:Hp.
  - simpl in Hlen. destruct (push_item_ok a l p x Ha ltac:(lia)) as (a' & -> & Ha').
    specialize (IH a' (p ++ [x]) (dadd d (summary x)) (S i) Ha').
    rewrite length_app in IH. simpl in IH. specialize (IH ltac:(lia)).
    destruct (lseek _ _ xs) as [[sk d'] r]. destruct IH as (a'' & E & Ha'').
    exists a''. split.
    + etransitivity; [exact E|]. simpl.
      by replace (i + S (length sk)) with (S (i + length sk)) by lia.
    + by rewrite <- app_assoc in Ha''.
  - exists a. rewrite Nat.add_0_r, app_nil_r. done.
Qed.

(** Scanning children from position [d]: the skipped ones are whole prefixes of
    the list scan, the scan stops at the first child containing the target. *)
Lemma scan_children_ok a l d i k ts rest :
  agg_ok a l [] → Forall (wf TREE_BASE k) ts → monotone beyond d (content ts ++ rest) →
  ∃ a' sk us, ts = sk ++ us ∧ agg_ok a' (l ++ content sk) [] ∧
    lseek beyond d (content ts ++ rest) =
      prepend (content sk) (lseek beyond (dpos d (content sk)) (content us ++ rest)) ∧
    scan_children agg target bias a d i (zip ts (node_summary <$> ts)) =
      Some (a', dpos d (content sk), i + length sk, head us) ∧
    (∀ u us', us = u :: us' → beyond (dpos (dpos d (content sk)) (items u)) = false).
Proof.
  revert a l d i. induction ts as [|t ts IH]; intros a l d i Ha Hall Hm.
  { exists a, [], []. split_and!; [done|by rewrite app_nil_r| | |done].
    - unfold prepend. simpl. change (dpos d (content [])) with d. by destruct (lseek _ _ _) as [[??]?].
    - by rewrite Nat.add_0_r. }
  apply Forall_cons in Hall as [Ht Hall].
  pose proof (wf_items_nonempty TREE_BASE k t Ht) as Hne.
  assert (dadd d (node_summary t) = dpos d (items t)) as Hend.
  { by rewrite (wf_summary TREE_BASE k t Ht), dpos_sum. }
  rewrite content_cons, <- app_assoc in Hm |- *. rewrite fmap_cons.
  cbn [zip zip_with scan_children]. rewrite Hend.
  destruct (past (target (dpos d (items t))) bias) eqn:Hp.
  - destruct (push_tree_ok a l k t Ha Ht) as (a' & -> & Ha'). cbn [mbind option_bind].
    destruct (IH a' (l ++ items t) (dpos d (items t)) (S i) Ha' Hall) as
      (a'' & sk & us & -> & Ha'' & Hseek & Hscan & Hstop).
    { by eapply monotone_app. }
    exists a'', (t :: sk), us. rewrite content_cons, dpos_app, app_assoc. split_and!; [done..| | |done].
    + rewrite lseek_skip by done. rewrite Hseek. unfold prepend. simpl. by rewrite app_assoc.
    + etransitivity; [exact Hscan|]. simpl.
      by replace (i + S (length sk)) with (S (i + length sk)) by lia.
  - exists a, [], (t :: ts). split_and!; [done|by rewrite app_nil_r| | |].
    + unfold prepend. simpl. change (dpos d (content [])) with d.
      rewrite content_cons, <- app_assoc. by destruct (lseek _ _ _) as [[??]?].
    + simpl. by rewrite Nat.add_0_r.
    + intros u us' [= <- <-]. done.
Qed.

Lemma stack_push_ok n k e e' ups rest :
  up_ok n (S k) ups rest → n < STACK_CAPACITY → stack_push e (e' :: ups) = Some (e :: e' :: ups).
Proof.
  intros Hup Hn. unfold stack_push. apply up_ok_length in Hup. simpl.
  by rewrite (proj2 (Nat.ltb_lt _ _)) by lia.
Qed.

Lemma stack_push_nil e : stack_push e [] = Some [e].
Proof. done. Qed.

Lemma seek_fuel_eq : ∃ f, seek_fuel = S (S f) ∧ S f = 2 * STACK_CAPACITY.
Proof. by exists 31. Qed.

(** Descending into a subtree that contains the target. *)
Lemma descend_ok n k t a l d p ups rest fuel :
  wf TREE_BASE k t → up_ok n k ups rest → n < STACK_CAPACITY → agg_ok a l [] →
  monotone beyond d (items t) → beyond (dpos d (items t)) = false → k < fuel →
  ∃ a' sk x r st,
    lseek beyond d (items t) = (sk, dpos d sk, x :: r) ∧ items t = sk ++ x :: r ∧
    seek_loop agg target bias fuel a d false (mkEntry t 0 p :: ups) = Some (a', dpos d sk, st) ∧
    st ≠ [] ∧ seeked n st (x :: r ++ rest) ∧ agg_ok a' (l ++ sk) [].
Proof.
  revert t a l d p ups rest fuel. induction k as [|k IH];
    intros t a l d p ups rest fuel Ht Hup Hn Ha Hm Hb Hf; (destruct fuel as [|fuel]; [lia|]).
  - destruct (lseek_stop beyond d (items t) [] (wf_items_nonempty _ _ _ Ht) Hb)
      as (sk & x & r & Hseek & Hsplit & _).
    inversion Ht as [xs Hne Hlen|]; subst. cbn [items mk_leaf] in *.
    pose proof (scan_items_ok (begin_leaf agg a) l [] d 0 xs (begin_leaf_ok _ _ Ha) Hlen) as Hscan.
    rewrite Hseek in Hscan. destruct Hscan as (a' & Hscan & Ha').
    destruct (end_leaf_ok a' l _ Ha') as (a'' & Hend & Ha'').
    exists a'', sk, x, r, (mkEntry (mk_leaf xs) (length sk) p :: ups). split_and!; try done.
    + cbn [seek_loop mk_leaf]. rewrite !drop_0, Hscan. simpl. by rewrite Hend.
    + exists xs, rest. split_and!; [done| |done|done|].
      * rewrite Hsplit, length_app. simpl. lia.
      * by rewrite Hsplit, drop_app_length.
  - inversion Ht as [|? ts Hne Hlen Hall]; subst.
    change (items (mk_internal (S k) ts)) with (content ts) in *.
    rewrite <- (app_nil_r (content ts)) in Hm.
    destruct (scan_children_ok a l d 0 k ts [] Ha Hall Hm) as
      (a' & sk & us & -> & Ha' & Hseek & Hscan & Hstop).
    destruct us as [|u us]; [rewrite app_nil_r in Hb|].
    { destruct (lseek_stop beyond d (content sk) []) as (sk' & x & r & Hs1 & Hs2 & _); [|done|].
      - intros E. destruct sk as [|v sk]; [done|]. apply Forall_cons in Hall as [Hv _].
        rewrite content_cons in E. apply app_nil in E as [E _]. by apply wf_items_nonempty in Hv.
      - rewrite !app_nil_r, Hs1 in Hseek. unfold prepend in Hseek. simpl in Hseek. congruence. }
    apply Forall_app in Hall as [Hsk [Hu Hus]%Forall_cons].
    specialize (Hstop u us eq_refl).
    destruct (IH u a' (l ++ content sk) (dpos d (content sk)) (dpos d (content sk))
      (mkEntry (mk_internal (S k) (sk ++ u :: us)) (length sk)
         (if length sk =? 0 then p else dpos d (content sk)) :: ups)
      (content us ++ rest) fuel) as (a'' & sk' & x & r & st & Hs & Hi & Hloop & Hst & Hsk' & Ha'');
      [done| |done|done| |done|lia|].
    { replace (content us) with (content (drop (S (length sk)) (sk ++ u :: us))).
      - constructor; [rewrite length_app; simpl; lia|done|done|by apply Forall_app; auto|done].
      - by rewrite drop_S_app. }
    { rewrite !app_nil_r, content_app in Hm. apply monotone_app in Hm.
      rewrite content_cons in Hm. by eapply monotone_prefix. }
    exists a'', (content sk ++ sk'), x, (r ++ content us), st.
    rewrite !app_nil_r, content_cons in Hseek.
    destruct (lseek_stop beyond (dpos d (content sk)) (items u) (content us)
      (wf_items_nonempty _ _ _ Hu) Hstop) as (sk2 & x2 & r2 & Hs1 & Hi1 & Hs2).
    rewrite Hs in Hs1. simplify_eq.
    rewrite Hs2 in Hseek. rewrite dpos_app. split_and!; try done.
    + by rewrite content_app, content_cons, Hi, <- !app_assoc.
    + cbn [seek_loop mk_internal]. rewrite !drop_0, Hscan. cbn [mbind option_bind head].
      rewrite (stack_push_ok n k _ _ ups rest) by done. cbn [mbind option_bind].
      exact Hloop.
    + rewrite <- app_assoc. done.
    + rewrite app_assoc. done.
Qed.

(** A subtree that ends before the target is passed as a whole. *)
Lemma pass_ok k t a l d p fuel ups :
  wf TREE_BASE k t → agg_ok a l [] → monotone beyond d (items t) →
  beyond (dpos d (items t)) = true →
  ∃ a', seek_loop agg target bias (S fuel) a d false (mkEntry t 0 p :: ups) =
      seek_loop agg target bias fuel a' (dpos d (items t)) true ups ∧
    agg_ok a' (l ++ items t) [] ∧ lseek beyond d (items t) = (items t, dpos d (items t), []).
Proof.
  intros Ht Ha Hm Hb.
  assert (lseek beyond d (items t) = (items t, dpos d (items t), [])) as Hseek.
  { rewrite <- (app_nil_r (items t)) at 1. rewrite lseek_skip; [|by eapply wf_items_nonempty| |done].
    - unfold prepend. simpl. by rewrite app_nil_r.
    - by rewrite app_nil_r. }
  destruct Ht as [xs Hne Hlen|k ts Hne Hlen Hall].
  - cbn [items mk_leaf] in *.
    pose proof (scan_items_ok (begin_leaf agg a) l [] d 0 xs (begin_leaf_ok _ _ Ha) Hlen) as Hscan.
    rewrite Hseek in Hscan. destruct Hscan as (a' & Hscan & Ha').
    destruct (end_leaf_ok a' l _ Ha') as (a'' & Hend & Ha'').
    exists a''. split_and!; [|done|done].
    cbn [seek_loop mk_leaf]. rewrite !drop_0, Hscan. simpl. by rewrite Hend.
  - change (items (mk_internal (S k) ts)) with (content ts) in *.
    pose proof Hm as Hm'. rewrite <- (app_nil_r (content ts)) in Hm'.
    destruct (scan_children_ok a l d 0 k ts [] Ha Hall Hm') as
      (a' & sk & us & -> & Ha' & _ & Hscan & Hstop).
    destruct us as [|u us].
    + rewrite app_nil_r in *. exists a'. split_and!; [|done|done].
      cbn [seek_loop mk_internal]. rewrite !drop_0, Hscan. done.
    + exfalso. specialize (Hstop u us eq_refl). rewrite <- dpos_app in Hstop.
      apply Forall_app in Hall as [_ [Hu _]%Forall_cons].
      rewrite content_app, content_cons in Hm, Hb.
      rewrite (Hm (content sk ++ items u) (content us) []) in Hstop; [done| | |].
      * by rewrite app_nil_r, <- app_assoc.
      * apply wf_items_nonempty in Hu. intros [_ ?]%app_nil. done.
      * by rewrite <- app_assoc.
Qed.

(** Climbing out of a finished subtree. *)
Lemma ascend_ok n k ups rest a l d fuel :
  up_ok n k ups rest → n < STACK_CAPACITY → agg_ok a l [] → monotone beyond d rest →
  length ups + n < fuel →
  let '(sk, d', r) := lseek beyond d rest in
  ∃ a' st, seek_loop agg target bias fuel a d true ups = Some (a', d', st) ∧
    seeked n st r ∧ agg_ok a' (l ++ sk) [].
Proof.
  intros Hup Hn. revert a l d fuel.
  induction Hup as [|k ts i pos st rest Hi Hne Hlen Hall Hup IH]; intros a l d fuel Ha Hm Hf;
    (destruct fuel as [|fuel]; [simpl in *; lia|]).
  { simpl. exists a, []. rewrite app_nil_r. done. }
  cbn [seek_loop mk_internal]. rewrite (proj2 (Nat.ltb_ge _ _)) by lia.
  rewrite <- fmap_drop.
  destruct (scan_children_ok a l d (S i) k (drop (S i) ts) rest Ha) as
    (a' & sk & us & Hts & Ha' & Hseek & Hscan & Hstop); [by apply Forall_drop|done|].
  rewrite Hscan. cbn [mbind option_bind]. rewrite Hseek. simpl length in Hf.
  assert (Forall (wf TREE_BASE k) (sk ++ us)) as Hall' by (rewrite <- Hts; by apply Forall_drop).
  assert (monotone beyond (dpos d (content sk)) (content us ++ rest)) as Hm'.
  { rewrite Hts, content_app, <- app_assoc in Hm. by apply monotone_app in Hm. }
  destruct us as [|u us]; cbn [head].
  - specialize (IH a' (l ++ content sk) (dpos d (content sk)) fuel Ha').
    change (content [] ++ rest) with rest in *. specialize (IH Hm' ltac:(lia)).
    destruct (lseek beyond (dpos d (content sk)) rest) as [[sk' d'] r].
    destruct IH as (a'' & st' & ? & ? & ?). unfold prepend. simpl.
    exists a'', st'. by rewrite app_assoc.
  - apply Forall_app in Hall' as [_ [Hu Hus]%Forall_cons]. specialize (Hstop u us eq_refl).
    rewrite (stack_push_ok n k _ _ st rest) by done. cbn [mbind option_bind].
    rewrite content_cons, <- app_assoc in Hm'.
    destruct (lseek_stop beyond (dpos d (content sk)) (items u) (content us ++ rest)
      (wf_items_nonempty _ _ _ Hu) Hstop) as (sk2 & x & r & Hs1 & Hi1 & Hs2).
    assert (up_ok n k (mkEntry (mk_internal (S k) ts) (S i + length sk)
      (if S i + length sk =? S i then d else dpos d (content sk)) :: st) (content us ++ rest)) as Hup'.
    { replace us with (drop (S (S i + length sk)) ts).
      - constructor; try done. apply (f_equal length) in Hts.
        rewrite length_drop, length_app in Hts. simpl in Hts. lia.
      - replace (S (S i + length sk)) with (S i + S (length sk)) by lia.
        by rewrite <- drop_drop, Hts, drop_S_app. }
    destruct (descend_ok n k u a' (l ++ content sk) (dpos d (content sk)) (dpos d (content sk))
      _ _ fuel Hu Hup' Hn Ha') as (a'' & sk' & x' & r' & st' & Hs & Hi' & Hloop & Hst & Hsk' & Ha'');
      [by eapply monotone_prefix|done|apply up_ok_length in Hup; lia|].
    rewrite Hs in Hs1. simplify_eq. rewrite content_cons, <- app_assoc, Hs2. unfold prepend. simpl.
    exists a'', st'. rewrite <- app_assoc in Ha''. split_and!; [exact Hloop|done|done].
Qed.

Lemma new_loop_ok a l d p fuel :
  agg_ok a l [] →
  ∃ a', seek_loop agg target bias (S (S fuel)) a d false [mkEntry new 0 p] = Some (a', d, []) ∧
    agg_ok a' l [].
Proof.
  intros Ha. destruct (end_leaf_ok _ l [] (begin_leaf_ok _ _ Ha)) as (a' & Hend & Ha').
  rewrite app_nil_r in Ha'. exists a'. split; [|done]. simpl. by rewrite Hend.
Qed.

(** The loop started at the root. *)
Lemma root_loop_ok n t a l d p fuel :
  wf TREE_BASE n t → n < fuel → n < STACK_CAPACITY → agg_ok a l [] → monotone beyond d (items t) →
  let '(sk, d', r) := lseek beyond d (items t) in
  ∃ a' st, seek_loop agg target bias (S (S fuel)) a d false [mkEntry t 0 p] = Some (a', d', st) ∧
    seeked n st r ∧ agg_ok a' (l ++ sk) [].
Proof.
  intros Ht Hf Hn Ha Hm. destruct (beyond (dpos d (items t))) eqn:Hb.
  - destruct (pass_ok n t a l d p (S fuel) [] Ht Ha Hm Hb) as (a' & Hloop & Ha' & ->).
    exists a', []. split_and!; [|done|done]. exact Hloop.
  - destruct (descend_ok n n t a l d p [] [] (S (S fuel)) Ht) as
      (a' & sk & x & r & st & -> & Hi & Hloop & Hst & Hsk & Ha'); [constructor|done..|lia|].
    exists a', st. rewrite app_nil_r in Hsk. done.
Qed.

(** The loop resumed from inside the tree. *)
Lemma resume_loop_ok n st a l0 d l fuel :
  seeked n st l → n < STACK_CAPACITY → agg_ok a l0 [] → monotone beyond d l → n + n < fuel →
  let '(sk, d', r) := lseek beyond d l in
  ∃ a' st', seek_loop agg target bias (S fuel) a d false st = Some (a', d', st') ∧
    seeked n st' r ∧ agg_ok a' (l0 ++ sk) [].
Proof.
  intros Hst Hn Ha Hm Hf. destruct st as [|[t i p] ups]; simpl in Hst.
  { subst l. simpl. exists a, []. by rewrite app_nil_r. }
  destruct Hst as (xs & rest & -> & Hi & Hlen & Hup & ->).
  pose proof (scan_items_ok (begin_leaf agg a) l0 [] d i (drop i xs) (begin_leaf_ok _ _ Ha)) as Hscan.
  rewrite length_drop in Hscan. simpl in Hscan. specialize (Hscan ltac:(lia)).
  pose proof (up_ok_length _ _ _ _ Hup) as Hups.
  cbn [seek_loop mk_leaf]. rewrite (proj2 (Nat.ltb_ge _ _)), <- fmap_drop by lia.
  assert (drop i xs ≠ []) as Hne.
  { intros E. apply (f_equal length) in E. rewrite length_drop in E. simpl in E. lia. }
  destruct (beyond (dpos d (drop i xs))) eqn:Hb.
  - rewrite lseek_skip by done.
    pose proof (lseek_skip beyond d (drop i xs) [] Hne) as Hall.
    rewrite app_nil_r in Hall. specialize (Hall (monotone_prefix _ _ _ _ Hm) Hb).
    rewrite Hall in Hscan. unfold prepend in Hscan. simpl in Hscan. rewrite app_nil_r in Hscan.
    destruct Hscan as (a' & -> & Ha'). destruct (end_leaf_ok a' l0 _ Ha') as (a'' & Hend & Ha'').
    simpl. rewrite Hend. simpl.
    pose proof (ascend_ok n 0 ups rest a'' (l0 ++ drop i xs) (dpos d (drop i xs)) fuel Hup Hn Ha'') as Hasc.
    specialize (Hasc (monotone_app _ _ _ _ Hm) ltac:(lia)).
    destruct (lseek _ _ rest) as [[sk' d'] r]. destruct Hasc as (a3 & st' & ? & ? & ?).
    exists a3, st'. unfold prepend. simpl. by rewrite app_assoc.
  - destruct (lseek_stop beyond d (drop i xs) rest Hne Hb) as (sk & x & r & Hs1 & Hi1 & Hs2).
    rewrite Hs1 in Hscan. rewrite Hs2. destruct Hscan as (a' & -> & Ha').
    destruct (end_leaf_ok a' l0 _ Ha') as (a'' & Hend & Ha''). simpl. rewrite Hend. simpl.
    eexists a'', _. split_and!; [done| |done].
    exists xs, rest. split_and!; [done| |done|done|].
    + apply (f_equal length) in Hi1. rewrite length_drop, length_app in Hi1. simpl in Hi1. lia.
    + rewrite <- drop_drop, Hi1, drop_app_length. done.
Qed.

Lemma seeked_item_summary n t st p e l :
  seeked n st l → ∃ s, item_summary (mkCursor t st p true e) = Some s.
Proof.
  destruct st as [|[u i q] ups]; simpl; [by eexists|].
  intros (xs & rest & -> & _). simpl. by eexists.
Qed.

(** The loop as [seek_internal] starts it. *)
Lemma start_loop_ok c a l0 d l fuel :
  cursor_at c d l → agg_ok a l0 [] → monotone beyond d l → 2 * STACK_CAPACITY ≤ S fuel →
  let '(sk, d', r) := lseek beyond d l in ∃ n st st' a',
    (if did_seek c then Some (stack c) else stack_push (mkEntry (tree c) 0 dzero) (stack c)) = Some st ∧
    seek_loop agg target bias (S (S fuel)) a d false st = Some (a', d', st') ∧
    n < STACK_CAPACITY ∧ seeked n st' r ∧ agg_ok a' (l0 ++ sk) [].
Proof.
  intros [Hpos Hc] Ha Hm Hf.
  destruct Hc as [(Hd & Hstk & _ & -> & -> & Hw)|(Hd & _ & n & Hn & Hst)]; rewrite Hd.
  - rewrite Hstk, stack_push_nil. destruct Hw as [Ht|(n & Hn & Hw)].
    + rewrite Ht. change (lseek beyond dzero (items new)) with (@nil T, dzero : D, @nil T).
      destruct (new_loop_ok a l0 dzero dzero fuel Ha) as (a' & Hl & Ha').
      exists 0, [mkEntry new 0 dzero], [], a'. rewrite app_nil_r.
      split_and!; [done|exact Hl|unfold STACK_CAPACITY; lia|done|done].
    + pose proof (root_loop_ok n (tree c) a l0 dzero dzero fuel Hw ltac:(lia) Hn Ha Hm) as Hr.
      destruct (lseek _ _ _) as [[sk d'] r]. destruct Hr as (a' & st & ? & ? & ?).
      by exists n, [mkEntry (tree c) 0 dzero], st, a'.
  - pose proof (resume_loop_ok n (stack c) a l0 d l (S fuel) Hst Hn Ha Hm ltac:(lia)) as Hr.
    destruct (lseek _ _ _) as [[sk d'] r]. destruct Hr as (a' & st & ? & ? & ?).
    by exists n, (stack c), st, a'.
Qed.

(** Seeking from any position: the linear scan, without panics. *)
Lemma seek_internal_ok c a l0 d l :
  cursor_at c d l → agg_ok a l0 [] → monotone beyond d l → target d ≠ Lt →
  let '(sk, d', r) := lseek beyond d l in
  ∃ a' c' b, seek_internal agg target bias a c = Some (a', c', b) ∧
    cursor_at c' d' r ∧ did_seek c' = true ∧ tree c' = tree c ∧ agg_ok a' (l0 ++ sk) [].
Proof.
  intros Hc Ha Hm Hge. unfold seek_internal. rewrite (proj1 Hc).
  destruct seek_fuel_eq as (f & -> & Hf).
  pose proof (start_loop_ok c a l0 d l f Hc Ha Hm ltac:(lia)) as Hloop.
  destruct (lseek beyond d l) as [[sk d'] r].
  destruct Hloop as (n & st & st' & a' & -> & Hl & Hn & Hst' & Ha').
  cbn [mbind option_bind]. rewrite Hl. cbn [mbind option_bind].
  destruct (seeked_item_summary n (tree c) st' d' (match st' with [] => true | _ => false end) r Hst')
    as (s & Hs). rewrite Hs. cbn [mbind option_bind].
  destruct (target d); [|done|]; eexists _, _, _; split_and!; try done; (split; [done|]); right; eauto.
Qed.

End refinement.

(** ** The operations on well-formed trees *)

(** A tree a cursor can walk: well formed and lower than the stack. *)
Definition walkable t : Prop := t = new ∨ ∃ n, n < STACK_CAPACITY ∧ wf TREE_BASE n t.

Lemma cursor_new_at t : walkable t → cursor_at (cursor_new t) dzero (items t).
Proof. intros Hw. split; [done|]. left. by split_and!. Qed.

Lemma cursor_at_item c d l :
  cursor_at c d l → did_seek c = true → cursor_item c = Some (head l).
Proof.
  intros [_ [(? & _)|(Hd & _ & n & _ & Hst)]] Hs; [congruence|].
  unfold cursor_item. rewrite Hd. destruct (stack c) as [|[t i p] ups]; simpl in Hst; [by subst|].
  destruct Hst as (xs & rest & -> & Hi & _ & _ & ->). simpl.
  destruct (lookup_lt_is_Some_2 xs i Hi) as [x Hx]. by rewrite Hx, (drop_S _ _ _ Hx).
Qed.

Lemma cursor_at_end c d l :
  cursor_at c d l → did_seek c = true →
  cursor_end c = Some (match l with x :: _ => dadd d (summary x) | [] => d end).
Proof.
  intros [Hp [(? & _)|(Hd & _ & n & _ & Hst)]] Hs; [congruence|].
  unfold cursor_end, item_summary, start. rewrite Hd, Hp.
  destruct (stack c) as [|[t i p] ups]; simpl in Hst; [by subst|].
  destruct Hst as (xs & rest & -> & Hi & _ & _ & ->). simpl.
  destruct (lookup_lt_is_Some_2 xs i Hi) as [x Hx].
  by rewrite list_lookup_fmap, Hx, (drop_S_lookup _ _ _ Hx).
Qed.

Lemma seek_forward_ok c target bias d l :
  cursor_at c d l → monotone (λ p, past (target p) bias) d l → target d ≠ Lt →
  let '(sk, d', r) := lseek (λ p, past (target p) bias) d l in
  ∃ c' b, seek_forward target bias c = Some (c', b) ∧ cursor_at c' d' r ∧ did_seek c' = true ∧
    tree c' = tree c.
Proof.
  intros Hc Hm Hge.
  pose proof (seek_internal_ok no_aggregate (λ _ _ _, True) _ target bias c () [] d l Hc I Hm Hge) as H.
  destruct (lseek _ d l) as [[sk d'] r]. destruct H as (a & c' & b & E & ? & ? & ? & _).
  exists c', b. unfold seek_forward. by rewrite E.
Qed.

Lemma slice_ok_new : slice_ok (mkSlice new [] [] zero) [] [].
Proof. unfold slice_ok. simpl. split_and!; [by left|done..|lia]. Qed.

Lemma cursor_slice_ok c target bias d l :
  1 ≤ TREE_BASE → cursor_at c d l → monotone (λ p, past (target p) bias) d l → target d ≠ Lt →
  let '(sk, d', r) := lseek (λ p, past (target p) bias) d l in
  ∃ t c', slice target bias c = Some (t, c') ∧ wf_tree TREE_BASE t ∧ items t = sk ∧
    cursor_at c' d' r ∧ did_seek c' = true ∧ tree c' = tree c.
Proof.
  intros HB Hc Hm Hge.
  pose proof (seek_internal_ok slice_aggregate slice_ok (slice_aggregate_ok HB) target bias c
    _ [] d l Hc slice_ok_new Hm Hge) as H.
  destruct (lseek _ d l) as [[sk d'] r]. destruct H as (a & c' & b & E & ? & ? & ? & Ha).
  exists (slice_tree a), c'. unfold slice. rewrite E. by destruct Ha as (? & ? & _).
Qed.

Lemma monotone_End d l : monotone (λ p, past (End p) Right) d l.
Proof. by intros. Qed.

Lemma cursor_suffix_ok c d l :
  1 ≤ TREE_BASE → cursor_at c d l →
  ∃ t c', suffix c = Some (t, c') ∧ wf_tree TREE_BASE t ∧ items t = l ∧ cursor_at c' (dpos d l) [].
Proof.
  intros HB Hc.
  pose proof (cursor_slice_ok c End Right d l HB Hc (monotone_End d l) ltac:(done)) as H.
  rewrite lseek_end in H. destruct H as (t & c' & ? & ? & ? & ? & _). by exists t, c'.
Qed.

(** ** Properties *)

(** [Cursor::seek] on a fresh cursor over a well-formed tree no higher than
    the cursor's stack never panics and finds exactly what a linear scan finds:
    the item it stops at is the first one whose end the target does not lie
    beyond, and [start] is the sum of the summaries before it. *)
Theorem seek_refines_scan t target bias :
  walkable t → monotone (λ p, past (target p) bias) dzero (items t) → target dzero ≠ Lt →
  ∃ c b sk r, seek target bias (cursor_new t) = Some (c, b) ∧ items t = sk ++ r ∧
    start c = dpos dzero sk ∧ cursor_item c = Some (head r) ∧
    (∀ l x k, sk = l ++ x :: k → past (target (dpos dzero (l ++ [x]))) bias = true) ∧
    (∀ x k, r = x :: k → past (target (dpos dzero (sk ++ [x]))) bias = false).
Proof.
  intros Hw Hm Hge.
  pose proof (seek_forward_ok _ target bias _ _ (cursor_new_at t Hw) Hm Hge) as H.
  pose proof (lseek_split (λ p, past (target p) bias) dzero (items t)) as Hs.
  pose proof (lseek_passed (λ p, past (target p) bias) dzero (items t)) as Hp.
  destruct (lseek _ _ _) as [[sk d'] r]. destruct H as (c & b & E & Hc & Hd & _).
  destruct Hs as (Hi & -> & Hstop). exists c, b, sk, r. split_and!; [exact E|done| | |done|].
  - apply (proj1 Hc).
  - by eapply cursor_at_item.
  - intros x k Hr. rewrite dpos_app. by eapply Hstop.
Qed.

(** C23: slicing up to a target and then taking the suffix cuts the sequence in
    two: both results are well-formed trees and together hold exactly the
    original items in order, with the cut where a linear scan puts it. *)
Theorem slice_suffix_partition t target bias :
  1 ≤ TREE_BASE → walkable t → monotone (λ p, past (target p) bias) dzero (items t) →
  target dzero ≠ Lt →
  ∃ l r c c', slice target bias (cursor_new t) = Some (l, c) ∧ suffix c = Some (r, c') ∧
    wf_tree TREE_BASE l ∧ wf_tree TREE_BASE r ∧ items l ++ items r = items t ∧
    start c = dpos dzero (items l) ∧
    lseek (λ p, past (target p) bias) dzero (items t) = (items l, start c, items r).
Proof.
  intros HB Hw Hm Hge.
  pose proof (cursor_slice_ok _ target bias _ _ HB (cursor_new_at t Hw) Hm Hge) as H.
  pose proof (lseek_split (λ p, past (target p) bias) dzero (items t)) as Hs.
  destruct (lseek _ _ _) as [[sk d'] r]. destruct Hs as (Hi & -> & _).
  destruct H as (l & c & E & Hl & <- & Hc & _).
  destruct (cursor_suffix_ok c _ r HB Hc) as (u & c' & E' & Hu & <- & _).
  exists l, u, c, c'. unfold start. by rewrite (proj1 Hc).
Qed.

End cursor.

(** ** Witnesses: counting items of a small tree with base 1. *)

Module Seeking.
Import Counting.
#[export, refine] Instance nat_Dimension : Dimension nat nat := {| dzero := 0; dadd := Nat.add |}.
Proof. - simpl. lia. - done. Defined.

Definition t5 : Node Z nat :=
  mk_internal 1 [mk_leaf [10; 20]%Z; mk_leaf [30]%Z; mk_leaf [40; 50]%Z].

(** Seeking to the [k]-th item. *)
Definition nth_target (k d : nat) : comparison := Nat.compare k d.

Lemma t5_walkable : walkable 2 t5.
Proof.
  right. exists 1. split; [unfold STACK_CAPACITY; lia|]. unfold t5.
  constructor; [done|simpl; unfold capacity; lia|].
  repeat constructor; simpl; unfold capacity; try done; lia.
Defined.

Lemma nth_monotone k d (l : list Z) : monotone (λ p, past (nth_target k p) Right) d l.
Proof.
  intros l1 l2 l3 _ _. rewrite dpos_app. generalize (dpos d l1). clear. intros e.
  assert (e ≤ dpos e l2) as Hle.
  { revert e. induction l2 as [|x l2 IH]; intros e; [done|].
    rewrite dpos_cons. specialize (IH (e + 1)). simpl in *. unfold summary in *. simpl in *. lia. }
  unfold nth_target, past.
  destruct (Nat.compare_spec k (dpos e l2)), (Nat.compare_spec k e); try done; lia.
Defined.

Example seek_refines_scan_witness : ∃ c b sk r,
  seek (nth_target 3) Right (cursor_new t5) = Some (c, b) ∧ items t5 = sk ++ r ∧
  start c = dpos dzero sk ∧ cursor_item c = Some (head r) ∧
  (∀ l x k, sk = l ++ x :: k → past (nth_target 3 (dpos dzero (l ++ [x]))) Right = true) ∧
  (∀ x k, r = x :: k → past (nth_target 3 (dpos dzero (sk ++ [x]))) Right = false).
Proof.
  apply (seek_refines_scan 2 t5 (nth_target 3) Right);
    [apply t5_walkable|apply nth_monotone|done].
Defined.

Example slice_suffix_partition_witness : ∃ l r c c',
  slice 2 (nth_target 3) Right (cursor_new t5) = Some (l, c) ∧ suffix 2 c = Some (r, c') ∧
  wf_tree 2 l ∧ wf_tree 2 r ∧ items l ++ items r = items t5 ∧
  start c = dpos dzero (items l) ∧
  lseek (λ p, past (nth_target 3 p) Right) dzero (items t5) = (items l, start c, items r).
Proof.
  apply (slice_suffix_partition 2 t5 (nth_target 3) Right);
    [lia|apply t5_walkable|apply nth_monotone|done].
Defined.
End Seeking.
