(* ===== verification/Search.v ===== *)
(** * Moving a cursor forward, and [find]

    [Cursor::search_forward] (and with it [next] and filtered cursors) skips
    the items a filter rejects, and [SumTree::find] is a seek without a cursor;
    both refine a walk over the list of items. *)

From S2P Require Import Prelude SumTree Cursor.

Section search.
Context `{HS : Summary Sm} `{HI : Item T Sm} `{HD : !Dimension D Sm}.
Context (TREE_BASE : nat).
Implicit Types t u : Node T Sm.

(** ** [find], [find_exact], [find_with_prev]

    [EXACT] is the const generic of [find_iterate]. *)

Definition in_child (c : comparison) (bias : Bias) : bool :=
  match c, bias with Lt, _ => true | Eq, Left => true | _, _ => false end.

Definition entry_found (EXACT : bool) (c : comparison) (bias : Bias) : bool :=
  if EXACT then match c with Eq => true | _ => false end else in_child c bias.

Fixpoint find_child (target : D → comparison) (bias : Bias) (pos : D) (prev : option T)
    (cts : list (Node T Sm * Sm)) : D * option T * option (Node T Sm) :=
  match cts with
  | [] => (pos, prev, None)
  | (child_tree, child_summary) :: cts =>
      let child_end := dadd pos child_summary in
      if in_child (target child_end) bias then (pos, prev, Some child_tree)
      else find_child target bias child_end (last_item child_tree) cts
  end.

Fixpoint find_item (EXACT : bool) (target : D → comparison) (bias : Bias) (pos : D) (prev : option T)
    (its : list (T * Sm)) : D * option (option T * T * D) :=
  match its with
  | [] => (pos, None)
  | (item, s) :: its =>
      let child_end := dadd pos s in
      if entry_found EXACT (target child_end) bias then (pos, Some (prev, item, child_end))
      else find_item EXACT target bias child_end (Some item) its
  end.

(** [find_with_prev_iterate]; [find_iterate] is the same walk without [prev]. *)
Fixpoint find_with_prev_iterate (fuel : nat) (EXACT : bool) (target : D → comparison) (bias : Bias)
    (pos : D) (prev : option T) (this : Node T Sm) : option (D * option (option T * T * D)) :=
  match fuel with
  | O => None
  | S fuel =>
    match this with
    | Internal _ _ child_summaries child_trees =>
        match find_child target bias pos prev (zip child_trees child_summaries) with
        | (pos, prev, Some child) => find_with_prev_iterate fuel EXACT target bias pos prev child
        | (pos, _, None) => Some (pos, None)
        end
    | Leaf _ items_ item_summaries =>
        Some (find_item EXACT target bias pos prev (zip items_ item_summaries))
    end
  end.

Definition find_iterate (fuel : nat) (EXACT : bool) (target : D → comparison) (bias : Bias)
    (pos : D) (this : Node T Sm) : option (D * option (T * D)) :=
  '(pos, r) ← find_with_prev_iterate fuel EXACT target bias pos None this;
  Some (pos, '(_, x, e) ← r; Some (x, e)).

(** The early return at the end of the tree. *)
Definition at_tree_end (target : D → comparison) (bias : Bias) t : option D :=
  let tree_end := dadd dzero (node_summary t) in
  if past (target tree_end) bias then Some tree_end else None.

Definition find_fuel t : nat := S (node_height t).

Definition find_gen (EXACT : bool) (target : D → comparison) (bias : Bias) t
    : option (D * D * option T) :=
  match at_tree_end target bias t with
  | Some tree_end => Some (tree_end, tree_end, None)
  | None =>
      '(pos, r) ← find_iterate (find_fuel t) EXACT target bias dzero t;
      Some match r with Some (item, e) => (pos, e, Some item) | None => (pos, pos, None) end
  end.
Definition find_exact := find_gen true.
Definition find := find_gen false.

Definition find_with_prev (target : D → comparison) (bias : Bias) t
    : option (D * D * option (option T * T)) :=
  match at_tree_end target bias t with
  | Some tree_end => Some (tree_end, tree_end, None)
  | None =>
      '(pos, r) ← find_with_prev_iterate (find_fuel t) false target bias dzero None t;
      Some match r with
           | Some (prev, item, e) => (pos, e, Some (prev, item))
           | None => (pos, pos, None)
           end
  end.

Lemma in_child_past c bias : in_child c bias = negb (past c bias).
Proof. by destruct c, bias. Qed.

Lemma in_child_false c bias : past c bias = true → in_child c bias = false.
Proof. rewrite in_child_past. by intros ->. Qed.
Lemma in_child_true c bias : past c bias = false → in_child c bias = true.
Proof. rewrite in_child_past. by intros ->. Qed.

Section find.
Context (target : D → comparison) (bias : Bias).
Let beyond : D → bool := λ p, past (target p) bias.

(** What the search finds at an item: [EXACT] also wants its end to compare
    equal, and goes on through the leaf otherwise. *)
Lemma find_item_ok d prev xs :
  let '(sk, d', r) := lseek beyond d xs in
  find_item false target bias d prev (zip xs (summary <$> xs)) =
    (d', match r with
         | [] => None
         | x :: _ => Some (match last sk with Some y => Some y | None => prev end, x, dadd d' (summary x))
         end).
Proof.
  revert d prev. induction xs as [|x xs IH]; intros d prev; [done|].
  rewrite fmap_cons. cbn [zip zip_with find_item entry_found lseek].
  unfold beyond at 1. destruct (past (target (dadd d (summary x))) bias) eqn:Hp.
  - rewrite (in_child_false _ _ Hp). specialize (IH (dadd d (summary x)) (Some x)).
    destruct (lseek beyond _ xs) as [[sk d'] r]. rewrite IH. f_equal. destruct r; [done|].
    rewrite last_cons. by destruct (last sk).
  - by rewrite (in_child_true _ _ Hp).
Qed.

Lemma find_child_ok d prev k ts :
  Forall (wf TREE_BASE k) ts → monotone beyond d (content ts) →
  beyond (dpos d (content ts)) = false → ts ≠ [] →
  ∃ sk u us, ts = sk ++ u :: us ∧
    find_child target bias d prev (zip ts (node_summary <$> ts)) =
      (dpos d (content sk), match last (content sk) with Some y => Some y | None => prev end, Some u) ∧
    lseek beyond d (content ts) =
      prepend (content sk) (lseek beyond (dpos d (content sk)) (content (u :: us))) ∧
    beyond (dpos (dpos d (content sk)) (items u)) = false.
Proof.
  revert d prev. induction ts as [|t ts IH]; intros d prev Hall Hm Hb Hne; [done|].
  apply Forall_cons in Hall as [Ht Hall].
  pose proof (wf_items_nonempty TREE_BASE k t Ht) as Hti.
  assert (dadd d (node_summary t) = dpos d (items t)) as Hend.
  { by rewrite (wf_summary TREE_BASE k t Ht), dpos_sum. }
  rewrite fmap_cons. cbn [zip zip_with find_child]. rewrite Hend.
  destruct (past (target (dpos d (items t))) bias) eqn:Hp.
  - rewrite (in_child_false _ _ Hp). rewrite content_cons in Hm, Hb |- *.
    destruct ts as [|t' ts]; [unfold content in Hb; simpl in Hb; rewrite app_nil_r in Hb; unfold beyond in Hb; congruence|].
    rewrite dpos_app in Hb.
    destruct (IH (dpos d (items t)) (last_item t) Hall (monotone_app _ _ _ _ Hm) Hb ltac:(done))
      as (sk & u & us & E & Hfc & Hsk & Hst).
    exists (t :: sk), u, us. rewrite content_cons, dpos_app. split_and!; [by rewrite E| | |done].
    + rewrite Hfc. f_equal. f_equal. rewrite last_app.
      destruct (last (content sk)); [done|].
      rewrite (last_item_ok TREE_BASE t) by (right; eauto).
      destruct (last (items t)) eqn:El; [done|]. by apply last_None in El.
    + rewrite lseek_skip by done. rewrite Hsk. unfold prepend. simpl. by rewrite app_assoc.
  - exists [], t, ts. rewrite (in_child_true _ _ Hp). split_and!; [done|done| |done].
    unfold prepend. simpl. change (dpos d (content [])) with d.
    by destruct (lseek _ _ _) as [[??]?].
Qed.

Lemma find_loop_ok k t d prev fuel :
  wf TREE_BASE k t → monotone beyond d (items t) → beyond (dpos d (items t)) = false → k < fuel →
  ∃ sk x r, lseek beyond d (items t) = (sk, dpos d sk, x :: r) ∧ items t = sk ++ x :: r ∧
    find_with_prev_iterate fuel false target bias d prev t =
      Some (dpos d sk, Some (match last sk with Some y => Some y | None => prev end, x,
                             dadd (dpos d sk) (summary x))).
Proof.
  revert t d prev fuel. induction k as [|k IH]; intros t d prev fuel Ht Hm Hb Hf;
    (destruct fuel as [|fuel]; [lia|]).
  - destruct (lseek_stop beyond d (items t) [] (wf_items_nonempty _ _ _ Ht) Hb)
      as (sk & x & r & Hseek & Hsplit & _).
    exists sk, x, r. split_and!; [done|done|]. inversion Ht as [xs Hne Hlen|]; subst.
    cbn [find_with_prev_iterate mk_leaf]. pose proof (find_item_ok d prev xs) as Hfi.
    cbn [items mk_leaf] in Hseek. rewrite Hseek in Hfi. by rewrite Hfi.
  - inversion Ht as [|? ts Hne Hlen Hall]; subst.
    change (items (mk_internal (S k) ts)) with (content ts) in *.
    destruct (find_child_ok d prev k ts Hall Hm Hb Hne) as (sk & u & us & -> & Hfc & Hseek & Hst).
    apply Forall_app in Hall as [Hsk [Hu Hus]%Forall_cons].
    rewrite content_app in Hm. apply monotone_app in Hm. rewrite content_cons in Hm.
    destruct (IH u (dpos d (content sk)) (match last (content sk) with Some y => Some y | None => prev end)
      fuel Hu (monotone_prefix _ _ _ _ Hm) Hst ltac:(lia)) as (sk' & x & r & Hs & Hi & Hloop).
    destruct (lseek_stop beyond (dpos d (content sk)) (items u) (content us)
      (wf_items_nonempty _ _ _ Hu) Hst) as (sk2 & x2 & r2 & Hs1 & _ & Hs2).
    rewrite Hs in Hs1. simplify_eq. exists (content sk ++ sk2), x2, (r2 ++ content us).
    rewrite dpos_app. split_and!.
    + rewrite Hseek, content_cons, Hs2. done.
    + by rewrite content_app, content_cons, Hi, <- !app_assoc.
    + cbn [find_with_prev_iterate mk_internal]. rewrite Hfc, Hloop, last_app.
      by destruct (last sk2).
Qed.

(** Whatever [EXACT] is, the walk ends in the leaf where the scan stops. *)
Lemma find_leaf_ok EXACT k t d prev fuel :
  wf TREE_BASE k t → monotone beyond d (items t) → beyond (dpos d (items t)) = false → k < fuel →
  ∃ pre xs post prev', items t = pre ++ xs ++ post ∧ xs ≠ [] ∧
    (pre ≠ [] → beyond (dpos d pre) = true) ∧ beyond (dpos d (pre ++ xs)) = false ∧
    find_with_prev_iterate fuel EXACT target bias d prev t =
      Some (find_item EXACT target bias (dpos d pre) prev' (zip xs (summary <$> xs))).
Proof.
  revert t d prev fuel. induction k as [|k IH]; intros t d prev fuel Ht Hm Hb Hf;
    (destruct fuel as [|fuel]; [lia|]).
  - inversion Ht as [xs Hne Hlen|]; subst. exists [], xs, [], prev. cbn [items mk_leaf] in *.
    rewrite app_nil_r. by split_and!.
  - inversion Ht as [|? ts Hne Hlen Hall]; subst.
    change (items (mk_internal (S k) ts)) with (content ts) in *.
    destruct (find_child_ok d prev k ts Hall Hm Hb Hne) as (sk & u & us & -> & Hfc & Hseek & Hst).
    pose proof Hm as Hm'. apply Forall_app in Hall as [Hsk [Hu Hus]%Forall_cons].
    rewrite content_app in Hm. apply monotone_app in Hm. rewrite content_cons in Hm.
    destruct (IH u (dpos d (content sk)) (match last (content sk) with Some y => Some y | None => prev end)
      fuel Hu (monotone_prefix _ _ _ _ Hm) Hst ltac:(lia)) as (pre & xs & post & prev' & Hi & Hxs & Hpre & Hbx & Hloop).
    exists (content sk ++ pre), xs, (post ++ content us), prev'.
    rewrite <- app_assoc, !dpos_app in *. split_and!; [by rewrite content_app, content_cons, Hi, <- !app_assoc|done| | |].
    + intros Hne'. destruct (decide (pre = [])) as [->|Hp]; [|by apply Hpre].
      rewrite app_nil_r in Hne'. change (dpos (dpos d (content sk)) []) with (dpos d (content sk)).
      pose proof (lseek_passed beyond d (content (sk ++ u :: us))) as Hpass. rewrite Hseek in Hpass.
      unfold prepend in Hpass. simpl in Hpass. destruct (lseek _ _ (content (u :: us))) as [[q1 q2] q3].
      simpl in Hpass. destruct (nonempty_snoc (content sk) Hne') as (ys & y & E). rewrite E in *.
      apply (Hpass ys y q1). by rewrite <- app_assoc.
    + done.
    + cbn [find_with_prev_iterate mk_internal]. by rewrite Hfc.
Qed.

(** [find] on any well-formed tree is the linear scan. *)
Lemma find_ok t :
  wf_tree TREE_BASE t → monotone beyond dzero (items t) →
  let '(sk, d', r) := lseek beyond dzero (items t) in
  find_with_prev target bias t =
    Some (d', match r with x :: _ => dadd d' (summary x) | [] => d' end,
          match r with x :: _ => Some (last sk, x) | [] => None end).
Proof.
  intros Hw Hm. unfold find_with_prev, at_tree_end.
  destruct Hw as [->|[k Ht]].
  { cbn [node_summary new items lseek]. rewrite dadd_zero.
    destruct (past (target dzero) bias) eqn:Hp; [done|]. by vm_compute. }
  assert (dadd dzero (node_summary t) = dpos dzero (items t)) as ->.
  { rewrite (wf_summary TREE_BASE k t Ht). by apply dpos_sum, (wf_items_nonempty TREE_BASE k). }
  destruct (past (target (dpos dzero (items t))) bias) eqn:Hb.
  - rewrite <- (app_nil_r (items t)), lseek_skip;
      [|by eapply wf_items_nonempty|by rewrite app_nil_r|done].
    unfold prepend. simpl. by rewrite app_nil_r.
  - destruct (find_loop_ok k t dzero None (find_fuel t) Ht Hm Hb) as (sk & x & r & -> & _ & ->).
    { unfold find_fuel. rewrite (wf_height TREE_BASE k t Ht). lia. }
    cbn [mbind option_bind]. by destruct (last sk).
Qed.

Lemma find_eq t :
  find target bias t =
    match find_with_prev target bias t with
    | Some (p, e, r) => Some (p, e, match r with Some (_, x) => Some x | None => None end)
    | None => None
    end.
Proof.
  unfold find, find_gen, find_with_prev, find_iterate. destruct (at_tree_end target bias t); [done|].
  destruct (find_with_prev_iterate _ _ _ _ _ _ _) as [[p [[[q x] e]|]]|]; done.
Qed.

End find.

(** ** [search_forward] *)

Section forward.
Context (filter_node : Sm → bool).

(** Skipping the rejected items, list-level. *)
Fixpoint lskip (d : D) (l : list T) : list T * D * list T :=
  match l with
  | [] => ([], d, [])
  | x :: l' =>
      if filter_node (summary x) then ([], d, l)
      else let '(sk, d', r) := lskip (dadd d (summary x)) l' in (x :: sk, d', r)
  end.

(** A rejected subtree holds only rejected items. *)
Definition filter_sound : Prop := ∀ l, l ≠ [] → filter_node (sum (summary <$> l)) = false →
  Forall (λ x, filter_node (summary x) = false) l.

Lemma lskip_split d l :
  let '(sk, d', r) := lskip d l in
  l = sk ++ r ∧ d' = dpos d sk ∧ Forall (λ x, filter_node (summary x) = false) sk ∧
  (∀ x k, r = x :: k → filter_node (summary x) = true).
Proof.
  revert d. induction l as [|x l IH]; intros d; simpl; [by split_and!|].
  destruct (filter_node (summary x)) eqn:Hx.
  - split_and!; [done..|]. by intros ? ? [= <- <-].
  - specialize (IH (dadd d (summary x))). destruct (lskip _ l) as [[sk d'] r].
    destruct IH as (-> & -> & ? & ?). split_and!; [done|done|by constructor|done].
Qed.

Lemma lskip_app d l k :
  lskip d (l ++ k) =
    let '(sk, d', r) := lskip d l in
    match r with [] => prepend l (lskip (dpos d l) k) | _ => (sk, d', r ++ k) end.
Proof.
  revert d. induction l as [|x l IH]; intros d; simpl.
  { unfold prepend. change (dpos d []) with d. by destruct (lskip d k) as [[??]?]. }
  destruct (filter_node (summary x)); [done|]. rewrite IH.
  destruct (lskip _ l) as [[sk d'] [|y r]]; [|done]. done.
Qed.

Lemma lskip_all d l : Forall (λ x, filter_node (summary x) = false) l → lskip d l = (l, dpos d l, []).
Proof. intros Hl. revert d. induction Hl as [|x l Hx Hl IH]; intros d; simpl; [done|]. by rewrite Hx, IH. Qed.

Lemma skip_children_items i d p xs :
  let '(sk, d', r) := lskip d xs in
  ∃ p', skip_children filter_node i d p (summary <$> xs) = (i + length sk, d', p').
Proof.
  revert i d p. induction xs as [|x xs IH]; intros i d p.
  { exists p. simpl. by rewrite Nat.add_0_r. }
  rewrite fmap_cons. cbn [skip_children lskip].
  destruct (filter_node (summary x)); [exists p; simpl; by rewrite Nat.add_0_r|].
  specialize (IH (S i) (dadd d (summary x)) (dadd p (summary x))). destruct (lskip _ xs) as [[sk d'] r].
  destruct IH as [p' ->]. exists p'. simpl. f_equal. f_equal. lia.
Qed.

(** *** Iterations

    [visit t] iterations visit a subtree, [climb st] those above the stack. *)
Definition visit t : nat := 2 * node_count t - 1.

Lemma node_count_pos t : 1 ≤ node_count t.
Proof. destruct t; simpl; lia. Qed.

Definition visits (ts : list (Node T Sm)) : nat := 2 * sum_list (map node_count ts).

Lemma visits_cons t ts : visits (t :: ts) = S (visit t) + visits ts.
Proof. unfold visits, visit. simpl. pose proof (node_count_pos t). lia. Qed.

Lemma visits_drop i ts : visits (drop i ts) ≤ visits ts.
Proof.
  revert i. induction ts as [|t ts IH]; intros [|i]; rewrite ?drop_0; [done..|].
  rewrite visits_cons. simpl. specialize (IH i). lia.
Qed.

(** The outcome of walking over [l] with [rest] to the right: stop at an item,
    or leave the subtree. *)
Definition outcome (n : nat) (cost : nat) (loop : nat → option (D * list (@StackEntry Sm T D)))
    (continue : nat → D → option (D * list (@StackEntry Sm T D))) (d : D) (l rest : list T) : Prop :=
  let '(sk, d', r) := lskip d l in
  ∃ c, c ≤ cost ∧
  match r with
  | [] => ∀ fuel, loop (c + fuel) = continue fuel (dpos d l)
  | x :: r' => ∃ st, seeked TREE_BASE n st (x :: r' ++ rest) ∧ st ≠ [] ∧
      ∀ fuel, loop (c + fuel) = Some (d', st)
  end.

(** Walking over a leaf from index [i]. *)
Lemma leaf_outcome n i xs ups rest d p :
  up_ok TREE_BASE n 0 ups rest → i ≤ length xs → length xs ≤ capacity TREE_BASE →
  outcome n 1 (λ fuel, search_forward_loop fuel filter_node true d (mkEntry (mk_leaf xs) i p :: ups))
    (λ fuel d', search_forward_loop fuel filter_node false d' ups) d (drop i xs) rest.
Proof.
  intros Hup Hi Hlen. unfold outcome.
  pose proof (skip_children_items i d p (drop i xs)) as Hsk.
  pose proof (lskip_split d (drop i xs)) as Hsp.
  destruct (lskip d (drop i xs)) as [[sk d'] r]. destruct Hsk as [p' Hsk].
  destruct Hsp as (Hd & -> & _ & _). exists 1. split; [done|].
  pose proof (f_equal length Hd) as Hl. rewrite length_drop, length_app in Hl.
  destruct r as [|x r].
  - intros fuel. cbn [Nat.add search_forward_loop mk_leaf mbind option_bind].
    rewrite <- fmap_drop, Hsk, length_fmap. rewrite (proj2 (Nat.ltb_ge _ _)) by (simpl in Hl; lia).
    by rewrite Hd, app_nil_r.
  - exists (mkEntry (mk_leaf xs) (i + length sk) p' :: ups). split_and!; [|done|].
    + exists xs, rest. split_and!; [done|simpl in Hl; lia|done|done|].
      by rewrite <- drop_drop, Hd, drop_app_length.
    + intros fuel. cbn [Nat.add search_forward_loop mk_leaf mbind option_bind].
      rewrite <- fmap_drop, Hsk, length_fmap. by rewrite (proj2 (Nat.ltb_lt _ _)) by (simpl in Hl; lia).
Qed.

(** Outcomes compose along the sequence. *)
Lemma outcome_reject n c loop loop' cont d l l' rest :
  Forall (λ x, filter_node (summary x) = false) l → (∀ fuel, loop fuel = loop' fuel) →
  outcome n c loop' cont (dpos d l) l' rest → outcome n c loop cont d (l ++ l') rest.
Proof.
  intros Hl Hloop Ho. unfold outcome in *. rewrite lskip_app, lskip_all by done.
  destruct (lskip (dpos d l) l') as [[sk d'] r]. unfold prepend. simpl.
  destruct Ho as (c' & Hc & Ho). exists c'. split; [done|]. destruct r as [|x r].
  - intros fuel. by rewrite Hloop, Ho, dpos_app.
  - destruct Ho as (st & ? & ? & Ho). exists st. split_and!; [done..|]. intros fuel. by rewrite Hloop.
Qed.

Lemma outcome_app k n c1 c2 loop loop1 cont1 cont d l l2 rest :
  outcome n c1 loop1 cont1 d l (l2 ++ rest) → (∀ fuel, loop (k + fuel) = loop1 fuel) →
  (∀ d', outcome n c2 (λ fuel, cont1 fuel d') cont d' l2 rest) →
  outcome n (k + (c1 + c2)) loop cont d (l ++ l2) rest.
Proof.
  intros Ho Hloop Ho2. unfold outcome in *. rewrite lskip_app.
  destruct (lskip d l) as [[sk d'] r]. destruct Ho as (c & Hc & Ho).
  destruct r as [|x r].
  - specialize (Ho2 (dpos d l)). destruct (lskip (dpos d l) l2) as [[sk2 d2] r2].
    unfold prepend. simpl. destruct Ho2 as (c' & Hc' & Ho2). exists (k + (c + c')). split; [lia|].
    assert (∀ fuel, loop (k + (c + c') + fuel) = cont1 (c' + fuel) (dpos d l)) as E.
    { intros fuel. rewrite <- Nat.add_assoc, Hloop, <- Nat.add_assoc. apply Ho. }
    destruct r2 as [|y r2].
    + intros fuel. by rewrite E, Ho2, dpos_app.
    + destruct Ho2 as (st & ? & ? & Ho2). exists st. split_and!; [done..|]. intros fuel. by rewrite E.
  - exists (k + c). split; [lia|]. destruct Ho as (st & Hst & Hne & Ho).
    exists st. split_and!; [by rewrite <- app_assoc|done|]. intros fuel.
    by rewrite <- Nat.add_assoc, Hloop.
Qed.

(** Walking over the children of an internal node from index [i]. *)
Lemma internal_outcome n k ts ups rest :
  filter_sound → n < STACK_CAPACITY → ts ≠ [] → length ts ≤ capacity TREE_BASE →
  Forall (wf TREE_BASE k) ts → up_ok TREE_BASE n (S k) ups rest →
  (∀ u d p ups' rest', u ∈ ts → up_ok TREE_BASE n k ups' rest' →
    outcome n (visit u) (λ fuel, search_forward_loop fuel filter_node true d (mkEntry u 0 p :: ups'))
      (λ fuel d', search_forward_loop fuel filter_node false d' ups') d (items u) rest') →
  ∀ us i d p, drop i ts = us →
    outcome n (S (visits us))
      (λ fuel, search_forward_loop fuel filter_node true d (mkEntry (mk_internal (S k) ts) i p :: ups))
      (λ fuel d', search_forward_loop fuel filter_node false d' ups) d (content us) rest.
Proof.
  intros Hf Hn Hne Hlen Hall Hup Hsub us. induction us as [|u us IH]; intros i d p Hd.
  - exists 1. split; [lia|]. intros fuel.
    cbn [Nat.add search_forward_loop mk_internal]. rewrite <- fmap_drop, Hd. cbn [fmap list_fmap skip_children].
    rewrite (lookup_ge_None_2 ts i); [done|]. apply (f_equal length) in Hd. rewrite length_drop in Hd. simpl in Hd. lia.
  - assert (ts !! i = Some u) as Hi.
    { rewrite <- (Nat.add_0_r i), <- lookup_drop, Hd. done. }
    assert (drop (S i) ts = us) as Hd'.
    { pose proof (drop_S_lookup ts i u Hi) as E. congruence. }
    assert (u ∈ ts) as Hu by by eapply list_elem_of_lookup_2.
    assert (wf TREE_BASE k u) as Hw by (by apply (proj1 (Forall_forall _ _) Hall)).
    pose proof (wf_items_nonempty TREE_BASE k u Hw) as Hui.
    pose proof (wf_summary TREE_BASE k u Hw) as Hus.
    rewrite content_cons. destruct (filter_node (node_summary u)) eqn:Hfu.
    + rewrite visits_cons. change (S (S (visit u) + visits us)) with (S (S (visit u) + visits us)).
      replace (S (S (visit u) + visits us)) with (S (visit u + S (visits us))) by lia.
      eapply (outcome_app 1); [apply (Hsub u d d (mkEntry (mk_internal (S k) ts) i p :: ups)); [done|]| |].
      * rewrite <- Hd'. constructor; [by eapply lookup_lt_Some|done..].
      * intros fuel. cbn [Nat.add search_forward_loop mk_internal].
        rewrite <- fmap_drop, Hd, fmap_cons. cbn [skip_children]. rewrite Hfu, Hi.
        by rewrite (stack_push_ok TREE_BASE n k _ _ ups rest).
      * intros d'. eapply (outcome_reject n _ _ _ _ d' []); [done| |by apply (IH (S i) d' d')].
        by intros [|fuel].
    + eapply (outcome_reject n _ _ _ _ d (items u)).
      * apply Hf; [done|congruence].
      * intros fuel. instantiate (1 := λ fuel, search_forward_loop fuel filter_node true (dpos d (items u))
          (mkEntry (mk_internal (S k) ts) (S i) (dadd p (node_summary u)) :: ups)). simpl.
        destruct fuel as [|fuel]; [done|]. cbn [search_forward_loop mk_internal].
        rewrite <- !fmap_drop, Hd, Hd', fmap_cons. cbn [skip_children].
        by rewrite Hfu, <- dpos_sum, Hus.
      * pose proof (IH (S i) (dpos d (items u)) (dadd p (node_summary u)) Hd') as Ho.
        unfold outcome in *. destruct (lskip _ (content us)) as [[sk d'] r].
        destruct Ho as (c & Hc & Ho). exists c. split; [rewrite visits_cons; lia|done].
Qed.

(** Walking over a whole subtree. *)
Lemma subtree_outcome n k u d p ups rest :
  filter_sound → n < STACK_CAPACITY → wf TREE_BASE k u → up_ok TREE_BASE n k ups rest →
  outcome n (visit u) (λ fuel, search_forward_loop fuel filter_node true d (mkEntry u 0 p :: ups))
    (λ fuel d', search_forward_loop fuel filter_node false d' ups) d (items u) rest.
Proof.
  intros Hf Hn. revert u d p ups rest. induction k as [|k IH]; intros u d p ups rest Hu Hup.
  - inversion Hu as [xs Hne Hlen|]; subst. apply (leaf_outcome n 0); [done|lia|done].
  - inversion Hu as [|? ts Hne Hlen Hall]; subst.
    assert (visit (mk_internal (S k) ts) = S (visits ts)) as ->.
    { unfold visit, visits, mk_internal. simpl. lia. }
    apply (internal_outcome n k ts ups rest); [done..| |done].
    intros u' d' p' ups' rest' Hin Hup'. apply IH; [|done]. by apply (proj1 (Forall_forall _ _) Hall).
Qed.

(** Leaving a finished subtree. *)
Definition climb (st : list (@StackEntry Sm T D)) : nat :=
  2 * sum_list (map (λ e, node_count (entry_tree e)) st).

Lemma climb_outcome n k ups rest d :
  filter_sound → n < STACK_CAPACITY → up_ok TREE_BASE n k ups rest →
  outcome n (climb ups) (λ fuel, search_forward_loop fuel filter_node false d ups)
    (λ fuel d', search_forward_loop fuel filter_node false d' []) d rest [].
Proof.
  intros Hf Hn Hup. revert d. induction Hup as [|k ts i p st rest Hi Hne Hlen Hall Hup IH]; intros d.
  { exists 0. split; [done|]. done. }
  pose proof (internal_outcome n k ts st rest Hf Hn Hne Hlen Hall Hup) as Hint.
  specialize (Hint ltac:(intros; apply (subtree_outcome n k); [done..| |done];
    by apply (proj1 (Forall_forall _ _) Hall)) (drop (S i) ts) (S i) d d eq_refl).
  assert (∀ fuel, search_forward_loop fuel filter_node false d (mkEntry (mk_internal (S k) ts) i p :: st) =
    search_forward_loop fuel filter_node true d (mkEntry (mk_internal (S k) ts) (S i) d :: st)) as E
    by by intros [|fuel].
  unfold outcome in *. rewrite lskip_app.
  destruct (lskip d (content (drop (S i) ts))) as [[sk d'] r]. destruct Hint as (c & Hc & Ho).
  assert (c + climb st ≤ climb (mkEntry (mk_internal (S k) ts) i p :: st)) as Hcl.
  { pose proof (visits_drop (S i) ts). unfold climb, visits in *. simpl. lia. }
  destruct r as [|x r].
  - specialize (IH (dpos d (content (drop (S i) ts)))).
    destruct (lskip _ rest) as [[sk2 d2] r2]. unfold prepend. simpl.
    destruct IH as (c' & Hc' & IH). exists (c + c'). split; [lia|].
    destruct r2 as [|y r2].
    + intros fuel. rewrite E, <- Nat.add_assoc, Ho, dpos_app. apply IH.
    + destruct IH as (st' & ? & ? & IH). exists st'. split_and!; [done..|].
      intros fuel. rewrite E, <- Nat.add_assoc, Ho. apply IH.
  - exists c. split; [lia|]. destruct Ho as (st' & ? & ? & Ho). exists st'.
    rewrite app_nil_r. split_and!; [done..|]. intros fuel. by rewrite E.
Qed.

(** Running the loop with the fuel [search_forward] gives it. *)
Lemma outcome_run n cost loop d l st :
  outcome n cost loop (λ fuel d', search_forward_loop fuel filter_node false d' []) d l [] →
  cost ≤ climb st → n < STACK_CAPACITY →
  let '(_, d', r) := lskip d l in
  ∃ st', loop (search_fuel st) = Some (d', st') ∧ seeked TREE_BASE n st' r.
Proof.
  intros Ho Hc Hn. unfold outcome in Ho. pose proof (lskip_split d l) as Hs.
  destruct (lskip d l) as [[sk d'] r]. destruct Ho as (c & Hle & Ho).
  replace (search_fuel st) with (c + S (climb st - c)) by (unfold search_fuel, climb in *; lia).
  destruct Hs as (Hl & -> & _). destruct r as [|x r].
  - exists []. split; [|done]. rewrite Ho. by rewrite Hl, app_nil_r.
  - destruct Ho as (st' & Hst & _ & Ho). exists st'. rewrite app_nil_r in Hst. by rewrite Ho.
Qed.

(** The items ahead once the current one is left, and their position. *)
Definition after_current (c : @Cursor Sm T D) (d : D) (l : list T) : D * list T :=
  match did_seek c, l with true, x :: l => (dadd d (summary x), l) | _, _ => (d, l) end.

Lemma search_forward_ok c d l :
  filter_sound → cursor_at TREE_BASE c d l →
  let '(d0, l0) := after_current c d l in
  let '(sk, d', r) := lskip d0 l0 in
  ∃ c', search_forward filter_node c = Some c' ∧ cursor_at TREE_BASE c' d' r ∧
    did_seek c' = true ∧ tree c' = tree c.
Proof.
  intros Hf [Hpos Hc].
  enough (let '(d0, l0) := after_current c d l in let '(sk, d', r) := lskip d0 l0 in
    ∃ n st descend st', n < STACK_CAPACITY ∧
      (match stack c with
       | [] => if at_end c then Some ([], false)
               else st ← stack_push (mkEntry (tree c) 0 dzero) []; Some (st, true)
       | st => Some (st, false) end) = Some (st, descend) ∧
      search_forward_loop (search_fuel st) filter_node descend d st = Some (d', st') ∧
      seeked TREE_BASE n st' r) as Hl.
  { destruct (after_current c d l) as [d0 l0]. destruct (lskip d0 l0) as [[sk d'] r].
    destruct Hl as (n & st & descend & st' & Hn & Hst & Hloop & Hsk).
    unfold search_forward. rewrite Hst, Hpos. cbn [mbind option_bind]. rewrite Hloop.
    eexists. split; [reflexivity|]. split_and!; [|done..]. split; [done|]. right. eauto. }
  unfold after_current.
  destruct Hc as [(Hd & Hst & Hae & -> & -> & Hw)|(Hd & Hae & n & Hn & Hsk)]; rewrite Hd, Hae.
  - rewrite Hst. destruct Hw as [->|(n & Hn & Hw)].
    + change (lskip dzero (items new)) with (@nil T, dzero : D, @nil T).
      exists 0, [], false, []. split_and!; [unfold STACK_CAPACITY; lia|done..].
    + rewrite (wf_not_empty TREE_BASE n _ Hw). rewrite stack_push_nil. cbn [mbind option_bind].
      pose proof (subtree_outcome n n (tree c) dzero dzero [] [] Hf Hn Hw (up_nil TREE_BASE n)) as Ho.
      pose proof (outcome_run n _ _ _ _ [mkEntry (tree c) 0 dzero] Ho) as Hr.
      specialize (Hr ltac:(unfold visit, climb; simpl; lia) Hn).
      destruct (lskip _ _) as [[sk d'] r]. destruct Hr as (st' & Hr & Hsk).
      exists n, [mkEntry (tree c) 0 dzero], true, st'. done.
  - destruct (stack c) as [|[t i q] ups] eqn:Est; simpl in Hsk.
    { subst l. simpl. exists n, [], false, []. done. }
    destruct Hsk as (xs & rest & -> & Hi & Hlen & Hup & ->).
    destruct (lookup_lt_is_Some_2 xs i Hi) as [x Hx]. rewrite (drop_S_lookup xs i x Hx).
    cbn [app]. set (st := mkEntry (mk_leaf xs) i q :: ups).
    pose proof (leaf_outcome n (S i) xs ups rest (dadd d (summary x)) (dadd q (summary x)) Hup Hi Hlen) as Hlf.
    assert (outcome n (0 + (1 + climb ups)) (λ fuel, search_forward_loop fuel filter_node false d st)
      (λ fuel d', search_forward_loop fuel filter_node false d' []) (dadd d (summary x))
      (drop (S i) xs ++ rest) []) as Ho.
    { eapply (outcome_app 0); [rewrite app_nil_r; exact Hlf| |intros d'; by apply (climb_outcome n 0)].
      intros [|fuel]; [done|]. cbn [Nat.add search_forward_loop mk_leaf st].
      by rewrite list_lookup_fmap, Hx. }
    pose proof (outcome_run n _ _ _ _ st Ho) as Hr.
    specialize (Hr ltac:(unfold climb, st; simpl; lia) Hn).
    destruct (lskip _ _) as [[sk d'] r]. destruct Hr as (st' & Hr & Hsk).
    by exists n, st, false, st'.
Qed.

End forward.

(** [next]: the filter that accepts everything. *)
Lemma lskip_true d l : lskip (λ _, true) d l = ([], d, l).
Proof. by destruct l. Qed.

Lemma next_ok c d x l :
  cursor_at TREE_BASE c d (x :: l) → did_seek c = true →
  ∃ c', next c = Some c' ∧ cursor_at TREE_BASE c' (dadd d (summary x)) l ∧
    did_seek c' = true ∧ tree c' = tree c.
Proof.
  intros Hc Hd. pose proof (search_forward_ok (λ _, true) c d (x :: l)) as H.
  unfold after_current in H. rewrite Hd, lskip_true in H. apply H; [by intros|done].
Qed.

Lemma next_first c d l :
  cursor_at TREE_BASE c d l → did_seek c = false →
  ∃ c', next c = Some c' ∧ cursor_at TREE_BASE c' d l ∧ did_seek c' = true ∧ tree c' = tree c.
Proof.
  intros Hc Hd. pose proof (search_forward_ok (λ _, true) c d l) as H.
  unfold after_current in H. rewrite Hd, lskip_true in H. apply H; [by intros|done].
Qed.

(** ** Iteration

    [impl Iterator for Cursor]: move to the first item if the cursor is fresh,
    then hand out the current item and move on. *)
Definition iter_next (c : @Cursor Sm T D) : option (option T * @Cursor Sm T D) :=
  c ← (if did_seek c then Some c else next c);
  it ← cursor_item c;
  match it with
  | Some x => c ← next c; Some (Some x, c)
  | None => Some (None, c)
  end.

(** A [for] loop over a cursor that breaks when [f] says so. *)
Fixpoint iterate {B} (fuel : nat) (f : B → T → B * bool) (b : B) (c : @Cursor Sm T D) : option B :=
  match fuel with
  | O => None
  | S fuel =>
      '(it, c) ← iter_next c;
      match it with
      | Some x => let '(b, continue) := f b x in if continue : bool then iterate fuel f b c else Some b
      | None => Some b
      end
  end.

Fixpoint fold_until {B} (f : B → T → B * bool) (b : B) (l : list T) : B :=
  match l with
  | [] => b
  | x :: l => let '(b, continue) := f b x in if continue : bool then fold_until f b l else b
  end.

Definition iterate_fuel (c : @Cursor Sm T D) : nat := S (length (items (tree c))).

Lemma iter_next_ok c d l : cursor_at TREE_BASE c d l → did_seek c = true →
  ∃ c' d', iter_next c = Some (head l, c') ∧ cursor_at TREE_BASE c' d' (tail l) ∧ did_seek c' = true.
Proof.
  intros Hc Hd. unfold iter_next. rewrite Hd. cbn [mbind option_bind].
  rewrite (cursor_at_item TREE_BASE c d l Hc Hd). cbn [mbind option_bind].
  destruct l as [|x l]; [by exists c, d|]. cbn [head].
  destruct (next_ok c d x l Hc Hd) as (c' & -> & ? & ? & _). by exists c', (dadd d (summary x)).
Qed.

Lemma iterate_ok {B} (f : B → T → B * bool) fuel b c d l :
  cursor_at TREE_BASE c d l → did_seek c = true → length l < fuel →
  iterate fuel f b c = Some (fold_until f b l).
Proof.
  revert b c d l. induction fuel as [|fuel IH]; intros b c d l Hc Hd Hf; [lia|].
  cbn [iterate]. destruct (iter_next_ok c d l Hc Hd) as (c' & d' & -> & Hc' & Hd'). cbn [mbind option_bind].
  destruct l as [|x l]; [done|]. cbn [head tail fold_until] in *. destruct (f b x) as [b' [|]]; [|done].
  eapply IH; [done|done|simpl in Hf; lia].
Qed.

(** ** Properties *)

(** [find] and [find_with_prev] on a well-formed tree of any height agree
    with the linear scan: they return the first item whose end the target does
    not lie beyond, the position before it, its end, and the item just before. *)
Theorem find_refines_scan t target bias :
  wf_tree TREE_BASE t → monotone (λ p, past (target p) bias) dzero (items t) →
  let '(sk, d, r) := lseek (λ p, past (target p) bias) dzero (items t) in
  let e := match r with x :: _ => dadd d (summary x) | [] => d end in
  find target bias t = Some (d, e, head r) ∧
  find_with_prev target bias t =
    Some (d, e, match r with x :: _ => Some (last sk, x) | [] => None end).
Proof.
  intros Hw Hm. pose proof (find_ok target bias t Hw Hm) as Hf. rewrite find_eq.
  destruct (lseek _ _ _) as [[sk d] r]. rewrite Hf. by destruct r.
Qed.

(** [search_forward] with a filter on summaries moves the cursor to the next
    item the filter accepts and skips exactly the rejected ones in between,
    provided a rejected subtree holds only rejected items; it never panics. *)
Theorem search_forward_refines filter_node c d x l :
  filter_sound filter_node → cursor_at TREE_BASE c d (x :: l) → did_seek c = true →
  ∃ c' sk r, search_forward filter_node c = Some c' ∧ l = sk ++ r ∧
    start c' = dpos (dadd d (summary x)) sk ∧ cursor_item c' = Some (head r) ∧
    Forall (λ y, filter_node (summary y) = false) sk ∧
    (∀ y k, r = y :: k → filter_node (summary y) = true).
Proof.
  intros Hf Hc Hd. pose proof (search_forward_ok filter_node c d (x :: l) Hf Hc) as H.
  unfold after_current in H. rewrite Hd in H.
  pose proof (lskip_split filter_node (dadd d (summary x)) l) as Hs.
  destruct (lskip _ _ l) as [[sk d'] r]. destruct H as (c' & E & Hc' & Hd' & _).
  destruct Hs as (Hl & -> & ? & ?). exists c', sk, r. split_and!; try done.
  - apply (proj1 Hc').
  - by eapply cursor_at_item.
Qed.

End search.

(** ** Witnesses *)

Module SearchExamples.
Import Counting Seeking.

Example find_refines_scan_witness :
  let '(sk, d, r) := lseek (λ p, past (nth_target 3 p) Right) dzero (items t5) in
  let e := match r with x :: _ => dadd d (summary x) | [] => d end in
  find (nth_target 3) Right t5 = Some (d, e, head r) ∧
  find_with_prev (nth_target 3) Right t5 =
    Some (d, e, match r with x :: _ => Some (last sk, x) | [] => None end).
Proof.
  apply (find_refines_scan 2 t5 (nth_target 3) Right); [|apply nth_monotone].
  destruct t5_walkable as [E|(n & _ & H)]; [by left|right; eauto].
Defined.

(** A cursor on the first item. *)
Definition c5 : @Cursor nat Z nat := default (cursor_new t5) (next (cursor_new t5)).

Lemma c5_at : cursor_at 2 c5 0 [10; 20; 30; 40; 50]%Z ∧ did_seek c5 = true.
Proof.
  destruct (next_first (HD:=nat_Dimension) 2 (cursor_new t5) 0 (items t5)
    (cursor_new_at (HD:=nat_Dimension) 2 t5 t5_walkable) eq_refl)
    as (c & E & Hc & Hd & _).
  unfold c5. rewrite E. done.
Defined.

Example search_forward_refines_witness : ∃ c' sk r,
  search_forward (λ n, 1 <? n) c5 = Some c' ∧ [20; 30; 40; 50]%Z = sk ++ r ∧
  start c' = dpos (dadd (dzero : nat) (summary 10%Z)) sk ∧ cursor_item c' = Some (head r) ∧
  Forall (λ y : Z, (1 <? summary y) = false) sk ∧ (∀ y k, r = y :: k → (1 <? summary (y : Z)) = true).
Proof.
  apply (search_forward_refines (HD:=nat_Dimension) 2 (λ n, 1 <? n) c5 0 10%Z [20; 30; 40; 50]%Z); [|apply c5_at..].
  intros l _ _. induction l; by constructor.
Defined.
End SearchExamples.
