(* ===== verification/KeyedTree.v ===== *)
(** * Keyed trees ([KeyedItem] operations of [crates/sum_tree/src/sum_tree.rs])

    A tree whose items are ordered by a key that is also a dimension.  Insert,
    replace, remove, batched [edit] and [get] are slices and suffixes of a
    cursor; they refine the operations of a strictly sorted list. *)

From S2P Require Import Prelude SumTree Cursor Search.
Local Open Scope ord_scope.

(** [trait KeyedItem]: the key dimension of an item is its key.  The law is what
    every key of the repository satisfies when keys come in order. *)
Class KeyedItem (T K : Type) {Sm : Type} `{HS : !Summary Sm} `{HI : !Item T Sm} `{HD : !Dimension K Sm}
  `{HO : !Ord K} := {
  key : T → K;
  key_end : ∀ d x, d ≼ key x → dadd d (summary x) = key x;
}.

(** [enum Edit<T>] *)
Inductive Edit (T K : Type) := Insert (item : T) | Remove (k : K).
Arguments Insert {T K} item.
Arguments Remove {T K} k.

Section keyed.
Context `{HS : Summary Sm} `{HI : !Item T Sm} `{HD : !Dimension K Sm} `{HO : !Ord K}
  `{HK : !KeyedItem T K}.
Context (TREE_BASE : nat).
Implicit Types t : Node T Sm.

Definition edit_key (e : Edit T K) : K := match e with Insert x => key x | Remove k => k end.

(** ** Operations *)

(** The item under the cursor, if it has key [k]; the cursor is then moved past
    it. *)
Definition take_match (k : K) (c : @Cursor Sm T K) : option (option T * @Cursor Sm T K) :=
  it ← cursor_item c;
  match it with
  | Some x =>
      match cmp (key x) k with
      | Eq => c ← next c; Some (Some x, c)
      | _ => Some (None, c)
      end
  | None => Some (None, c)
  end.

Definition insert_or_replace t (item : T) : option (option T * Node T Sm) :=
  '(new_tree, c) ← slice TREE_BASE (cmp (key item)) Left (cursor_new t);
  '(replaced, c) ← take_match (key item) c;
  new_tree ← push TREE_BASE new_tree item;
  '(rest, _) ← suffix TREE_BASE c;
  new_tree ← append TREE_BASE new_tree rest;
  Some (replaced, new_tree).

Definition remove t (k : K) : option (option T * Node T Sm) :=
  '(new_tree, c) ← slice TREE_BASE (cmp k) Left (cursor_new t);
  '(removed, c) ← take_match k c;
  '(rest, _) ← suffix TREE_BASE c;
  new_tree ← append TREE_BASE new_tree rest;
  Some (removed, new_tree).

(** [edit]: the state of the loop over the sorted edits. *)
Record EditState := mkEditState {
  cursor : @Cursor Sm T K;
  new_tree : Node T Sm;
  buffered_items : list T;
  removed : list T;
}.

Definition edit_step (s : EditState) (e : Edit T K) : option EditState :=
  let new_key := edit_key e in
  old_item ← cursor_item (cursor s);
  s ← (if match old_item with Some x => ltb (key x) new_key | None => false end then
         t ← extend TREE_BASE (new_tree s) (buffered_items s);
         '(sl, c) ← slice TREE_BASE (cmp new_key) Left (cursor s);
         t ← append TREE_BASE t sl;
         Some (mkEditState c t [] (removed s))
       else Some s);
  '(old, c) ← take_match new_key (cursor s);
  let removed := match old with Some x => removed s ++ [x] | None => removed s end in
  let buffered := match e with Insert x => buffered_items s ++ [x] | Remove _ => buffered_items s end in
  Some (mkEditState c (new_tree s) buffered removed).

Fixpoint edit_loop (edits : list (Edit T K)) (s : EditState) : option EditState :=
  match edits with
  | [] => Some s
  | e :: edits => s ← edit_step s e; edit_loop edits s
  end.

(** [sort_unstable_by_key]: the order of equal keys is unspecified; the merge
    sort is one of its implementations. *)
Definition edit_le (e1 e2 : Edit T K) : Prop := edit_key e1 ≼ edit_key e2.
#[local] Instance edit_le_dec : RelDecision edit_le.
Proof. intros e1 e2. unfold edit_le. apply _. Defined.
Definition sort_edits (edits : list (Edit T K)) : list (Edit T K) := merge_sort edit_le edits.

Definition edit t (edits : list (Edit T K)) : option (list T * Node T Sm) :=
  match edits with
  | [] => Some ([], t)
  | _ =>
      '(c, _) ← seek (cmp dzero) Left (cursor_new t);
      s ← edit_loop (sort_edits edits) (mkEditState c new [] []);
      new_tree ← extend TREE_BASE (new_tree s) (buffered_items s);
      '(rest, _) ← suffix TREE_BASE (cursor s);
      new_tree ← append TREE_BASE new_tree rest;
      Some (removed s, new_tree)
  end.

Definition get t (k : K) : option (option T) :=
  '(_, _, r) ← find_exact (cmp k) Left t; Some r.

(** ** Sorted lists *)

Definition key_lt (x y : T) : Prop := key x ≺ key y.
Definition ksorted (l : list T) : Prop := StronglySorted key_lt l.
Definition below (d : K) (l : list T) : Prop := Forall (λ x, d ≼ key x) l.
Definition keys_lt (l : list T) (k : K) : Prop := Forall (λ x, key x ≺ k) l.
Definition keys_gt (k : K) (l : list T) : Prop := Forall (λ x, k ≺ key x) l.

(** The list the operations refine: the items before, at and after a key. *)
Definition lower (k : K) (l : list T) : list T := filter (λ x, key x ≺ k) l.
Definition upper (k : K) (l : list T) : list T := filter (λ x, k ≺ key x) l.
Definition lget (k : K) (l : list T) : option T := head (filter (λ x, cmp (key x) k = Eq) l).

Lemma ksorted_app l r : ksorted (l ++ r) ↔ ksorted l ∧ ksorted r ∧ ∀ x y, x ∈ l → y ∈ r → key_lt x y.
Proof.
  unfold ksorted. induction l as [|x l IH]; simpl.
  - split; [intros ?; split_and!; [constructor|done|by intros ?? ?%elem_of_nil]|naive_solver].
  - split.
    + intros Hs. apply StronglySorted_inv in Hs as [Hs Hx]. apply IH in Hs as (? & ? & Hlr).
      apply Forall_app in Hx as [Hx1 Hx2]. split_and!; [by constructor|done|].
      intros a b [->|Ha]%elem_of_cons Hb; [by eapply Forall_forall in Hx2|by apply Hlr].
    + intros (Hs & Hr & Hlr). apply StronglySorted_inv in Hs as [Hs Hx]. constructor.
      * apply IH. split_and!; [done..|]. intros a b Ha. apply Hlr. by right.
      * apply Forall_app. split; [done|]. apply Forall_forall. intros b Hb. apply Hlr; [by left|done].
Qed.

Lemma below_weaken d d' l : d ≼ d' → below d' l → below d l.
Proof. intros H Hb. eapply Forall_impl; [exact Hb|]. intros x. by apply cmp_le_trans. Qed.

(** Positions in a sorted tree are keys. *)
Lemma dadd_le d x l : below d (x :: l) → ksorted (x :: l) →
  dadd d (summary x) = key x ∧ below (key x) l.
Proof.
  intros Hb Hs. apply Forall_cons in Hb as [Hx Hb]. apply StronglySorted_inv in Hs as [Hs Hx'].
  split; [by apply key_end|]. eapply Forall_impl; [done|]. intros y. apply cmp_lt_le.
Qed.

Lemma dpos_ge d l : below d l → ksorted l → d ≼ dpos d l.
Proof.
  revert d. induction l as [|x l IH]; intros d Hb Hs; [apply cmp_le_refl|].
  rewrite dpos_cons. destruct (dadd_le d x l Hb Hs) as [-> Hb'].
  apply Forall_cons in Hb as [Hx _]. eapply cmp_le_trans; [done|].
  apply IH; [done|]. by apply StronglySorted_inv in Hs as [? _].
Qed.

Lemma dpos_below d l r : below d (l ++ r) → ksorted (l ++ r) → below (dpos d l) r.
Proof.
  revert d. induction l as [|x l IH]; intros d Hb Hs; [done|].
  rewrite dpos_cons. destruct (dadd_le d x (l ++ r) Hb Hs) as [-> Hb'].
  apply IH; [done|]. by apply StronglySorted_inv in Hs as [? _].
Qed.

Lemma past_left k p : past (cmp k p) Left = true ↔ p ≺ k.
Proof. rewrite <- cmp_gt_lt. unfold past. by destruct (cmp k p). Qed.

Lemma key_monotone d l k : below d l → ksorted l → monotone (λ p, past (cmp k p) Left) d l.
Proof.
  intros Hb Hs l1 l2 l3 -> _. rewrite !past_left, dpos_app. intros Hlt.
  eapply cmp_le_lt_trans; [|done]. rewrite app_assoc in Hb, Hs.
  apply Forall_app in Hb as [Hb _]. apply ksorted_app in Hs as (Hs & _).
  apply dpos_ge; [by apply dpos_below|]. by apply ksorted_app in Hs as (_ & ? & _).
Qed.

(** Seeking a key splits the list at it. *)
Lemma lseek_key d l k : below d l → ksorted l →
  let '(sk, d', r) := lseek (λ p, past (cmp k p) Left) d l in
  l = sk ++ r ∧ keys_lt sk k ∧ Forall (λ x, k ≼ key x) r ∧ (d ≼ k → d' ≼ k) ∧ (d ≺ k → d' ≺ k) ∧
  below d' r.
Proof.
  revert d. induction l as [|x l IH]; intros d Hb Hs; cbn [lseek]; [by split_and!; try constructor|].
  destruct (dadd_le d x l Hb Hs) as [Hd Hb']. rewrite Hd.
  pose proof Hs as Hs'. apply StronglySorted_inv in Hs' as [Hsl Hx].
  destruct (past (cmp k (key x)) Left) eqn:Hp.
  - apply past_left in Hp. specialize (IH (key x) Hb' Hsl).
    destruct (lseek _ _ l) as [[sk d'] r]. destruct IH as (-> & ? & ? & Hk & Hk' & ?).
    split_and!; [done|by constructor|done| | |done]; intros _; [apply Hk, cmp_lt_le, Hp|apply Hk', Hp].
  - split_and!; [done|constructor| |done..].
    assert (k ≼ key x) as Hk by (rewrite <- cmp_not_lt_le, <- past_left; congruence).
    constructor; [done|]. eapply Forall_impl; [done|]. intros y Hy.
    apply cmp_lt_le. by eapply cmp_le_lt_trans.
Qed.

(** The rest after a seek starts with the item of that key, if there is one. *)
Lemma head_key k r : ksorted r → Forall (λ x, k ≼ key x) r →
  (∃ x r', r = x :: r' ∧ key x = k ∧ keys_gt k r') ∨ keys_gt k r.
Proof.
  intros Hs Hr. destruct r as [|x r]; [by right; constructor|].
  apply Forall_cons in Hr as [Hx Hr]. apply StronglySorted_inv in Hs as [Hs Hxr].
  apply cmp_le_lt_or_eq in Hx as [Hx|Hx].
  - right. constructor; [done|]. eapply Forall_impl; [exact Hxr|]. intros y. by apply cmp_lt_trans.
  - left. exists x, r. split_and!; [done..|]. by rewrite Hx.
Qed.

Lemma filter_none_of (P : T → Prop) `{∀ x, Decision (P x)} l : Forall (λ x, ¬ P x) l → filter P l = [].
Proof. induction 1; [done|]. by rewrite filter_cons_False. Qed.

Lemma filter_all_of (P : T → Prop) `{∀ x, Decision (P x)} l : Forall P l → filter P l = l.
Proof. induction 1 as [|x l Hx Hl IH]; [done|]. by rewrite filter_cons_True, IH. Qed.

(** A list split at [k] in terms of [lower], [lget] and [upper]. *)
Lemma split_at_key k sk o r :
  keys_lt sk k → keys_gt k r → (∀ x, o = Some x → key x = k) →
  let l := sk ++ option_list o ++ r in
  lower k l = sk ∧ upper k l = r ∧ lget k l = o.
Proof.
  intros Hsk Hr Ho. unfold lower, upper, lget. rewrite !filter_app.
  assert (∀ x, key x ≺ k → ¬ k ≺ key x ∧ ¬ cmp (key x) k = Eq) as Hlt.
  { intros x Hx. split; [by apply cmp_lt_asym|by rewrite Hx]. }
  assert (∀ x, k ≺ key x → ¬ key x ≺ k ∧ ¬ cmp (key x) k = Eq) as Hgt.
  { intros x Hx. split; [by apply cmp_lt_asym|by rewrite (cmp_antisym k), Hx]. }
  assert (Forall (λ x, ¬ key x ≺ k) (option_list o) ∧ Forall (λ x, ¬ k ≺ key x) (option_list o) ∧
    Forall (λ x, cmp (key x) k = Eq) (option_list o)) as (H1 & H2 & H3).
  { destruct o as [x|]; simpl; [|by split_and!; constructor].
    rewrite !Forall_singleton, (Ho x eq_refl), cmp_refl. done. }
  assert (Forall (λ x, ¬ k ≺ key x) sk ∧ Forall (λ x, ¬ cmp (key x) k = Eq) sk) as [H4 H5].
  { split; (eapply Forall_impl; [exact Hsk|]); intros x Hx; by apply Hlt. }
  assert (Forall (λ x, ¬ key x ≺ k) r ∧ Forall (λ x, ¬ cmp (key x) k = Eq) r) as [H6 H7].
  { split; (eapply Forall_impl; [exact Hr|]); intros x Hx; by apply Hgt. }
  rewrite !(filter_none_of _ _ H1), !(filter_none_of _ _ H2), !(filter_none_of _ _ H4),
    !(filter_none_of _ _ H5), !(filter_none_of _ _ H6), !(filter_none_of _ _ H7), !filter_all_of by done.
  rewrite !app_nil_r. simpl. split_and!; [done..|]. by destruct o.
Qed.

(** ** Refinement *)

(** The cursor stands before the items [r], all at or after [k]. *)
Definition key_cursor (c : @Cursor Sm T K) (k : K) (r : list T) : Prop :=
  ∃ d, cursor_at TREE_BASE c d r ∧ did_seek c = true ∧ d ≼ k ∧ below d r ∧ ksorted r.

Lemma key_cursor_weaken c k k' r : k ≼ k' → key_cursor c k r → key_cursor c k' r.
Proof. intros Hk (d & ? & ? & ? & ? & ?). exists d. split_and!; try done. by eapply cmp_le_trans. Qed.

Lemma slice_key_ok c d l k :
  1 ≤ TREE_BASE → cursor_at TREE_BASE c d l → d ≼ k → below d l → ksorted l →
  ∃ t c' r, slice TREE_BASE (cmp k) Left c = Some (t, c') ∧ wf_tree TREE_BASE t ∧
    l = items t ++ r ∧ keys_lt (items t) k ∧ Forall (λ x, k ≼ key x) r ∧ key_cursor c' k r ∧
    (d ≺ k → position c' ≺ k).
Proof.
  intros HB Hc Hd Hb Hs.
  pose proof (cursor_slice_ok TREE_BASE c (cmp k) Left d l HB Hc (key_monotone d l k Hb Hs)) as Hsl.
  pose proof (lseek_key d l k Hb Hs) as Hk.
  destruct (lseek _ d l) as [[sk d'] r]. destruct Hk as (-> & Hsk & Hr & Hd' & Hd'' & Hb').
  destruct Hsl as (t & c' & E & Ht & <- & Hc' & Hds & _).
  { rewrite (cmp_antisym d k). by destruct (cmp d k). }
  exists t, c', r. rewrite (proj1 Hc'). split_and!; [done..| |done].
  apply ksorted_app in Hs as (_ & Hs & _). exists d'. split_and!; auto.
Qed.

Lemma take_match_ok c k r :
  key_cursor c k r → Forall (λ x, k ≼ key x) r →
  ∃ o r' c', take_match k c = Some (o, c') ∧ r = option_list o ++ r' ∧
    (∀ x, o = Some x → key x = k) ∧ keys_gt k r' ∧ key_cursor c' k r'.
Proof.
  intros (d & Hc & Hds & Hd & Hb & Hs) Hr. unfold take_match.
  rewrite (cursor_at_item TREE_BASE c d r Hc Hds). cbn [mbind option_bind].
  destruct (head_key k r Hs Hr) as [(x & r' & -> & Hx & Hgt)|Hgt].
  - cbn [head]. rewrite (proj2 (cmp_eq_iff _ _) Hx).
    destruct (next_ok TREE_BASE c d x r' Hc Hds) as (c' & -> & Hc' & Hds' & _).
    exists (Some x), r', c'. split_and!; [done|done|by intros ? [= <-]|done|].
    destruct (dadd_le d x r' Hb Hs) as [Hdx Hb']. rewrite Hdx in Hc'.
    exists (key x). apply StronglySorted_inv in Hs as [Hs _].
    split_and!; [done|done|rewrite Hx; apply cmp_le_refl|done|done].
  - exists None, r, c. split_and!; [|done|done|done|by exists d].
    destruct r as [|x r]; [done|]. cbn [head]. apply Forall_cons in Hgt as [Hx _].
    by rewrite (cmp_antisym k), Hx.
Qed.

(** A cursor at the front of a sorted tree. *)
Definition keyed t : Prop := walkable TREE_BASE t ∧ ksorted (items t) ∧ below dzero (items t).

Lemma suffix_append_ok t c k r :
  1 ≤ TREE_BASE → wf_tree TREE_BASE t → key_cursor c k r →
  ∃ s c' u, suffix TREE_BASE c = Some (s, c') ∧ append TREE_BASE t s = Some u ∧
    wf_tree TREE_BASE u ∧ items u = items t ++ r.
Proof.
  intros HB Ht (d & Hc & _). destruct (cursor_suffix_ok TREE_BASE c d r HB Hc) as (s & c' & E & Hs & <- & _).
  destruct (append_ok TREE_BASE t s HB Ht Hs) as (u & E' & Hu & Hi). by exists s, c', u.
Qed.

Lemma insert_or_replace_ok t x :
  1 ≤ TREE_BASE → keyed t → dzero ≼ key x →
  let l := items t in
  ∃ u, insert_or_replace t x = Some (lget (key x) l, u) ∧ wf_tree TREE_BASE u ∧
    items u = lower (key x) l ++ x :: upper (key x) l.
Proof.
  intros HB (Hw & Hs & Hb) Hz l. unfold insert_or_replace.
  destruct (slice_key_ok _ _ _ (key x) HB (cursor_new_at TREE_BASE t Hw) Hz Hb Hs)
    as (t1 & c1 & r & -> & Ht1 & Hl & Hlt & Hr & Hc1 & _). cbn [mbind option_bind].
  destruct (take_match_ok c1 (key x) r Hc1 Hr) as (o & r' & c2 & -> & -> & Ho & Hgt & Hc2).
  cbn [mbind option_bind].
  destruct (push_ok TREE_BASE t1 x HB Ht1) as (t2 & -> & Ht2 & Hi2). cbn [mbind option_bind].
  destruct (suffix_append_ok t2 c2 _ r' HB Ht2 Hc2) as (s & c3 & u & -> & Hap & Hu & Hi).
  cbn [mbind option_bind]. rewrite Hap. cbn [mbind option_bind].
  destruct (split_at_key (key x) (items t1) o r' Hlt Hgt Ho) as (El & Eu & Eg).
  rewrite <- Hl in El, Eu, Eg. exists u. unfold l. rewrite El, Eu, Eg. split_and!; [done|done|].
  rewrite Hi, Hi2, <- app_assoc. done.
Qed.

Lemma remove_ok t k :
  1 ≤ TREE_BASE → keyed t → dzero ≼ k →
  let l := items t in
  ∃ u, remove t k = Some (lget k l, u) ∧ wf_tree TREE_BASE u ∧ items u = lower k l ++ upper k l.
Proof.
  intros HB (Hw & Hs & Hb) Hz l. unfold remove.
  destruct (slice_key_ok _ _ _ k HB (cursor_new_at TREE_BASE t Hw) Hz Hb Hs)
    as (t1 & c1 & r & -> & Ht1 & Hl & Hlt & Hr & Hc1 & _). cbn [mbind option_bind].
  destruct (take_match_ok c1 k r Hc1 Hr) as (o & r' & c2 & -> & -> & Ho & Hgt & Hc2).
  cbn [mbind option_bind].
  destruct (suffix_append_ok t1 c2 _ r' HB Ht1 Hc2) as (s & c3 & u & -> & Hap & Hu & Hi).
  cbn [mbind option_bind]. rewrite Hap. cbn [mbind option_bind].
  destruct (split_at_key k (items t1) o r' Hlt Hgt Ho) as (El & Eu & Eg).
  rewrite <- Hl in El, Eu, Eg. exists u. unfold l. by rewrite El, Eu, Eg.
Qed.

(** *** [edit] *)

(** Applying strictly sorted edits to a sorted list. *)
Definition inserted (e : Edit T K) : list T := match e with Insert x => [x] | Remove _ => [] end.

Fixpoint lmerge (es : list (Edit T K)) (l : list T) : list T :=
  match es with
  | [] => l
  | e :: es => lower (edit_key e) l ++ inserted e ++ lmerge es (upper (edit_key e) l)
  end.

Fixpoint lremoved (es : list (Edit T K)) (l : list T) : list T :=
  match es with
  | [] => []
  | e :: es => option_list (lget (edit_key e) l) ++ lremoved es (upper (edit_key e) l)
  end.

Definition edits_sorted (es : list (Edit T K)) : Prop :=
  StronglySorted (λ e1 e2, edit_key e1 ≺ edit_key e2) es.

Lemma edit_step_ok s e r :
  1 ≤ TREE_BASE → wf_tree TREE_BASE (new_tree s) → key_cursor (cursor s) (edit_key e) r →
  ∃ s', edit_step s e = Some s' ∧ wf_tree TREE_BASE (new_tree s') ∧
    key_cursor (cursor s') (edit_key e) (upper (edit_key e) r) ∧
    items (new_tree s') ++ buffered_items s' =
      items (new_tree s) ++ buffered_items s ++ lower (edit_key e) r ++ inserted e ∧
    removed s' = removed s ++ option_list (lget (edit_key e) r).
Proof.
  intros HB Ht Hc. set (k := edit_key e) in *. unfold edit_step. fold k.
  pose proof Hc as (d & Hc' & Hds & Hd & Hb & Hs).
  rewrite (cursor_at_item TREE_BASE _ d r Hc' Hds). cbn [mbind option_bind].
  enough (∃ s1 sk r1, (if match head r with Some x => ltb (key x) k | None => false end then
         t ← extend TREE_BASE (new_tree s) (buffered_items s);
         '(sl, c) ← slice TREE_BASE (cmp k) Left (cursor s);
         t ← append TREE_BASE t sl;
         Some (mkEditState c t [] (removed s))
       else Some s) = Some s1 ∧ r = sk ++ r1 ∧ keys_lt sk k ∧ Forall (λ x, k ≼ key x) r1 ∧
       wf_tree TREE_BASE (new_tree s1) ∧ key_cursor (cursor s1) k r1 ∧
       items (new_tree s1) ++ buffered_items s1 = items (new_tree s) ++ buffered_items s ++ sk ∧
       removed s1 = removed s) as (s1 & sk & r1 & -> & -> & Hsk & Hr1 & Ht1 & Hc1 & Hi1 & Hrm).
  { cbn [mbind option_bind].
    destruct (take_match_ok _ k r1 Hc1 Hr1) as (o & r' & c2 & -> & -> & Ho & Hgt & Hc2).
    cbn [mbind option_bind].
    destruct (split_at_key k sk o r' Hsk Hgt Ho) as (-> & -> & ->).
    eexists. split; [reflexivity|]. cbn [new_tree cursor buffered_items removed]. split_and!; [done|done| |].
    - rewrite (app_assoc (buffered_items s)), (app_assoc (items (new_tree s))), <- Hi1.
      destruct e; simpl; by rewrite ?app_nil_r, <- ?app_assoc.
    - destruct o; simpl; by rewrite ?app_nil_r, Hrm. }
  destruct (match head r with Some x => ltb (key x) k | None => false end) eqn:Hh.
  - destruct (extend_ok TREE_BASE (new_tree s) (buffered_items s) HB Ht) as (t1 & -> & Ht1 & Hi1).
    cbn [mbind option_bind].
    destruct (slice_key_ok _ d r k HB Hc' Hd Hb Hs) as (sl & c1 & r1 & -> & Hsl & Hr & Hlt & Hge & Hc1 & _).
    cbn [mbind option_bind].
    destruct (append_ok TREE_BASE t1 sl HB Ht1 Hsl) as (t2 & -> & Ht2 & Hi2). cbn [mbind option_bind].
    eexists _, (items sl), r1. split; [reflexivity|]. cbn [new_tree cursor buffered_items removed].
    split_and!; try done. by rewrite app_nil_r, Hi2, Hi1, <- app_assoc.
  - exists s, [], r. rewrite app_nil_r. split_and!; try done; [constructor|].
    destruct r as [|x r]; [constructor|]. simpl in Hh. apply ltb_false in Hh.
    apply StronglySorted_inv in Hs as [_ Hx]. constructor; [done|].
    eapply Forall_impl; [exact Hx|]. intros y Hy. apply cmp_lt_le. by eapply cmp_le_lt_trans.
Qed.

Lemma edit_loop_ok es s k r :
  1 ≤ TREE_BASE → wf_tree TREE_BASE (new_tree s) → key_cursor (cursor s) k r →
  edits_sorted es → Forall (λ e, k ≼ edit_key e) es →
  ∃ s' k' r', edit_loop es s = Some s' ∧ wf_tree TREE_BASE (new_tree s') ∧
    key_cursor (cursor s') k' r' ∧
    items (new_tree s') ++ buffered_items s' ++ r' =
      items (new_tree s) ++ buffered_items s ++ lmerge es r ∧
    removed s' = removed s ++ lremoved es r.
Proof.
  intros HB. revert s k r. induction es as [|e es IH]; intros s k r Ht Hc Hs Hk.
  { exists s, k, r. simpl. by rewrite app_nil_r. }
  apply Forall_cons in Hk as [Hke Hk]. apply StronglySorted_inv in Hs as [Hs He].
  destruct (edit_step_ok s e r HB Ht (key_cursor_weaken _ _ _ _ Hke Hc)) as
    (s1 & E & Ht1 & Hc1 & Hi1 & Hr1).
  cbn [edit_loop]. rewrite E. cbn [mbind option_bind].
  destruct (IH s1 (edit_key e) (upper (edit_key e) r) Ht1 Hc1 Hs) as (s2 & k' & r' & E2 & Ht2 & Hc2 & Hi2 & Hr2).
  { eapply Forall_impl; [exact He|]. intros e'. apply cmp_lt_le. }
  exists s2, k', r'. split_and!; [done..| |].
  - rewrite Hi2, app_assoc, Hi1. simpl. by rewrite <- !app_assoc.
  - rewrite Hr2, Hr1. simpl. by rewrite <- app_assoc.
Qed.

(** What the merge contains. *)
Lemma elem_of_lower k x l : x ∈ lower k l ↔ x ∈ l ∧ key x ≺ k.
Proof. unfold lower. rewrite list_elem_of_filter. naive_solver. Qed.
Lemma elem_of_upper k x l : x ∈ upper k l ↔ x ∈ l ∧ k ≺ key x.
Proof. unfold upper. rewrite list_elem_of_filter. naive_solver. Qed.

Lemma elem_of_lmerge es l x :
  edits_sorted es →
  x ∈ lmerge es l ↔ Insert x ∈ es ∨ (x ∈ l ∧ ∀ e, e ∈ es → edit_key e ≠ key x).
Proof.
  revert l. induction es as [|e es IH]; intros l Hs.
  { simpl. split; [|intros [Hx|[Hx _]]; [by apply elem_of_nil in Hx|done]].
    intros Hx. right. split; [done|]. by intros e ?%elem_of_nil. }
  apply StronglySorted_inv in Hs as [Hs He]. rewrite Forall_forall in He.
  cbn [lmerge]. rewrite !elem_of_app, elem_of_lower, (IH (upper (edit_key e) l) Hs), elem_of_upper, elem_of_cons.
  assert (x ∈ inserted e ↔ Insert x = e) as ->.
  { destruct e as [y|k]; simpl; [rewrite list_elem_of_singleton|rewrite elem_of_nil]; naive_solver. }
  split.
  - intros [[Hx Hlt]|[->|[Hx|[[Hx Hgt] Hn]]]].
    + right. split; [done|]. intros e' [->|He']%elem_of_cons Heq.
      * rewrite Heq in Hlt. by apply cmp_lt_irrefl in Hlt.
      * apply He in He'. rewrite Heq in He'. by eapply cmp_lt_asym.
    + by left; left.
    + by left; right.
    + right. split; [done|]. intros e' [->|He']%elem_of_cons Heq; [|by eapply Hn].
      rewrite Heq in Hgt. by apply cmp_lt_irrefl in Hgt.
  - intros [[Hx|Hx]|[Hx Hn]]; [by right; left|by right; right; left|].
    destruct (cmp_trichotomy (key x) (edit_key e)) as [?|[Heq|?]]; [by left| |].
    + exfalso. apply (Hn e); [by left|done].
    + right; right; right. split; [done|]. intros e' He'. apply Hn. by right.
Qed.

Lemma ksorted_filter (P : T → Prop) `{∀ x, Decision (P x)} l : ksorted l → ksorted (filter P l).
Proof.
  induction 1 as [|x l Hl IH Hx]; [constructor|]. rewrite filter_cons. destruct (decide (P x)); [|done].
  constructor; [done|]. apply Forall_forall. intros y [_ Hy]%list_elem_of_filter.
  by eapply Forall_forall in Hx.
Qed.

(** Keys are unique in a sorted list. *)
Lemma ksorted_inj l x y : ksorted l → x ∈ l → y ∈ l → key x = key y → x = y.
Proof.
  induction 1 as [|z l Hl IH Hz]; [by intros ?%elem_of_nil|]. rewrite Forall_forall in Hz.
  intros [->|Hx]%elem_of_cons [->|Hy]%elem_of_cons Hk; [done| | |by apply IH].
  - apply Hz in Hy. unfold key_lt in Hy. rewrite Hk in Hy. by apply cmp_lt_irrefl in Hy.
  - apply Hz in Hx. unfold key_lt in Hx. rewrite Hk in Hx. by apply cmp_lt_irrefl in Hx.
Qed.

(** A sorted list is determined by its elements. *)
Lemma ksorted_ext l r : ksorted l → ksorted r → (∀ x, x ∈ l ↔ x ∈ r) → l = r.
Proof.
  intros Hl. revert r. induction Hl as [|x l Hl IH Hx]; intros r Hr Hin.
  { destruct r as [|y r]; [done|]. exfalso. apply (not_elem_of_nil y), Hin. by left. }
  rewrite Forall_forall in Hx. destruct Hr as [|y r Hr Hy].
  { exfalso. apply (not_elem_of_nil x), Hin. by left. }
  rewrite Forall_forall in Hy.
  assert (x = y) as <-.
  { pose proof (proj1 (Hin x) ltac:(by left)) as H1. pose proof (proj2 (Hin y) ltac:(by left)) as H2.
    apply elem_of_cons in H1 as [|H1]; [done|]. apply elem_of_cons in H2 as [|H2]; [done|].
    apply Hy in H1. apply Hx in H2. exfalso. by eapply cmp_lt_asym. }
  f_equal. apply IH; [done|]. intros z.
  assert (∀ l' : list T, (∀ w, w ∈ l' → key_lt x w) → z ∈ l' → z ≠ x) as Hne.
  { intros l' Hl' Hz ->. by eapply cmp_lt_irrefl, Hl'. }
  specialize (Hin z). rewrite !elem_of_cons in Hin. split; intros Hz.
  - destruct (proj1 Hin (or_intror Hz)) as [->|]; [by destruct (Hne l Hx Hz)|done].
  - destruct (proj2 Hin (or_intror Hz)) as [->|]; [by destruct (Hne r Hy Hz)|done].
Qed.

Lemma lget_spec k l x : ksorted l → lget k l = Some x ↔ x ∈ l ∧ key x = k.
Proof.
  intros Hs. unfold lget.
  assert (∀ y, y ∈ filter (λ x, cmp (key x) k = Eq) l ↔ y ∈ l ∧ key y = k) as Hin.
  { intros y. rewrite list_elem_of_filter, cmp_eq_iff. naive_solver. }
  destruct (filter _ l) as [|y r].
  - split; [done|]. intros Hx%Hin. by apply elem_of_nil in Hx.
  - destruct (proj1 (Hin y) ltac:(by left)) as [Hy Hk]. simpl. split.
    + by intros [= <-].
    + intros [Hx Hkx]. f_equal. apply (ksorted_inj l); [done..|by rewrite Hk].
Qed.

Lemma lmerge_sorted es l : edits_sorted es → ksorted l → ksorted (lmerge es l).
Proof.
  revert l. induction es as [|e es IH]; intros l Hs Hl; [done|].
  pose proof Hs as Hs'. apply StronglySorted_inv in Hs' as [Hs' He]. rewrite Forall_forall in He.
  cbn [lmerge].
  assert (ksorted (lower (edit_key e) l) ∧ ksorted (upper (edit_key e) l)) as [Hlo Hup].
  { split; by apply ksorted_filter. }
  assert (∀ x, x ∈ lmerge es (upper (edit_key e) l) → edit_key e ≺ key x) as Hgt.
  { intros x. rewrite elem_of_lmerge, elem_of_upper by done. intros [Hx|[[_ ?] _]]; [|done].
    by apply He in Hx. }
  assert (∀ x, x ∈ inserted e → key x = edit_key e) as Hins.
  { intros x. destruct e as [y|k]; simpl; [by intros ->%list_elem_of_singleton|by intros ?%elem_of_nil]. }
  rewrite !ksorted_app. split_and!; [done| |by apply IH| |].
  - destruct e; simpl; [by repeat constructor|constructor].
  - intros x y Hx Hy. unfold key_lt. rewrite (Hins x Hx). by apply Hgt.
  - intros x y [_ Hx]%elem_of_lower [Hy|Hy]%elem_of_app; unfold key_lt; [by rewrite (Hins y Hy)|].
    eapply cmp_lt_trans; [done|]. by apply Hgt.
Qed.

Lemma elem_of_lremoved es l x :
  edits_sorted es → ksorted l → x ∈ lremoved es l ↔ x ∈ l ∧ ∃ e, e ∈ es ∧ edit_key e = key x.
Proof.
  revert l. induction es as [|e es IH]; intros l Hs Hl.
  { simpl. rewrite elem_of_nil. split; [done|]. intros (_ & e & ?%elem_of_nil & _). done. }
  apply StronglySorted_inv in Hs as [Hs He]. rewrite Forall_forall in He.
  cbn [lremoved]. rewrite elem_of_app, IH, elem_of_upper by (done || by apply ksorted_filter).
  assert (x ∈ option_list (lget (edit_key e) l) ↔ x ∈ l ∧ key x = edit_key e) as ->.
  { rewrite <- (lget_spec _ l x Hl). destruct (lget _ l) as [y|]; simpl.
    - rewrite list_elem_of_singleton. naive_solver.
    - rewrite elem_of_nil. naive_solver. }
  split.
  - intros [[Hx Hk]|[[Hx Hgt] (e' & He' & Hk)]]; (split; [done|]).
    + exists e. split; [by left|done].
    + exists e'. split; [by right|done].
  - intros [Hx (e' & [->|He']%elem_of_cons & Hk)]; [by left|]. right.
    split; [split; [done|]|by exists e']. rewrite <- Hk. by apply He.
Qed.

(** The sort puts edits of distinct keys in strict order. *)
#[local] Instance edit_le_trans : Transitive edit_le.
Proof. intros e1 e2 e3. unfold edit_le. apply cmp_le_trans. Qed.
#[local] Instance edit_le_total : Total edit_le.
Proof.
  intros e1 e2. unfold edit_le. rewrite (cmp_antisym (edit_key e1) (edit_key e2)).
  destruct (cmp (edit_key e1) _); auto.
Qed.

Lemma sort_edits_ok es : NoDup (edit_key <$> es) → edits_sorted (sort_edits es) ∧ sort_edits es ≡ₚ es.
Proof.
  intros Hnd. assert (sort_edits es ≡ₚ es) as Hp by apply merge_sort_Permutation. split; [|done].
  assert (NoDup (edit_key <$> sort_edits es)) as Hnd' by by rewrite Hp.
  pose proof (StronglySorted_merge_sort edit_le es) as Hs. fold (sort_edits es) in Hs.
  clear Hnd Hp. induction Hs as [|e l Hl IH He]; [constructor|].
  rewrite fmap_cons in Hnd'. apply NoDup_cons in Hnd' as [Hni Hnd'].
  constructor; [by apply IH|]. rewrite Forall_forall in He |- *. intros e' He'.
  pose proof (He e' He') as Hle. apply cmp_le_lt_or_eq in Hle as [?|Heq]; [done|].
  exfalso. apply Hni. rewrite Heq. by apply list_elem_of_fmap_2.
Qed.

Lemma edit_ok t es :
  1 ≤ TREE_BASE → keyed t → NoDup (edit_key <$> es) → Forall (λ e, dzero ≼ edit_key e) es →
  ∃ u, edit t es = Some (lremoved (sort_edits es) (items t), u) ∧ wf_tree TREE_BASE u ∧
    items u = lmerge (sort_edits es) (items t).
Proof.
  intros HB (Hw & Hs & Hb) Hnd Hz. destruct (sort_edits_ok es Hnd) as [Hsorted Hperm].
  assert (wf_tree TREE_BASE t) as Ht by (destruct Hw as [->|(n & _ & ?)]; [by left|right; eauto]).
  destruct es as [|e es]; [exists t; by split_and!|]. unfold edit. remember (e :: es) as es' eqn:Ees.
  pose proof (seek_forward_ok TREE_BASE _ (cmp dzero) Left _ _ (cursor_new_at TREE_BASE t Hw)
    (key_monotone dzero (items t) dzero Hb Hs) ltac:(by rewrite cmp_refl)) as Hsk.
  pose proof (lseek_key dzero (items t) dzero Hb Hs) as Hk.
  destruct (lseek _ dzero (items t)) as [[sk d'] r]. destruct Hk as (Hi & Hsk' & _ & Hd' & _ & Hb').
  assert (sk = []) as ->.
  { destruct sk as [|y sk]; [done|]. apply Forall_cons in Hsk' as [Hy _]. rewrite Hi in Hb.
    apply Forall_cons in Hb as [Hy' _]. by apply cmp_not_lt_le in Hy'. }
  simpl in Hi. subst r. destruct Hsk as (c & b & E & Hc & Hds & _).
  change (seek (cmp dzero) Left (cursor_new t)) with (seek_forward (cmp dzero) Left (cursor_new t)).
  rewrite E. cbn [mbind option_bind].
  destruct (edit_loop_ok (sort_edits es') (mkEditState c new [] []) dzero (items t) HB) as
    (s & k' & r' & -> & Ht' & Hc' & Hi' & Hr'); [by left| |done|by rewrite Hperm|].
  { exists d'. split_and!; try done. apply Hd', cmp_le_refl. }
  cbn [mbind option_bind].
  destruct (extend_ok TREE_BASE _ (buffered_items s) HB Ht') as (t2 & -> & Ht2 & Hi2). cbn [mbind option_bind].
  destruct (suffix_append_ok t2 (cursor s) k' r' HB Ht2 Hc') as (sf & c3 & u & -> & Hap & Hu & Hiu).
  cbn [mbind option_bind]. rewrite Hap. cbn [mbind option_bind].
  exists u. simpl in Hr'. rewrite Hr'. split_and!; [done|done|].
  rewrite Hiu, Hi2, <- app_assoc. exact Hi'.
Qed.

(** Inserting items with different keys. *)
Lemma insert_all_ok t (xs : list T) :
  1 ≤ TREE_BASE → keyed t → NoDup (key <$> xs) → Forall (λ x, dzero ≼ key x) xs →
  ∃ rm u, edit t (Insert <$> xs) = Some (rm, u) ∧ wf_tree TREE_BASE u ∧ ksorted (items u) ∧
    ∀ x, x ∈ items u ↔ x ∈ xs ∨ (x ∈ items t ∧ ∀ y, y ∈ xs → key y ≠ key x).
Proof.
  intros HB Hk Hnd Hz.
  assert (NoDup (edit_key <$> (Insert <$> xs))) as Hnd' by by rewrite <- list_fmap_compose.
  destruct (edit_ok t (Insert <$> xs) HB Hk Hnd') as (u & E & Hu & Hi); [by apply Forall_fmap|].
  destruct (sort_edits_ok _ Hnd') as [Hs Hp]. destruct Hk as (_ & Ht & _).
  eexists _, u. split; [exact E|]. rewrite Hi. split_and!; [done|by apply lmerge_sorted|].
  intros x. rewrite elem_of_lmerge by done. setoid_rewrite Hp. setoid_rewrite list_elem_of_fmap. naive_solver.
Qed.

(** *** [get] *)

Lemma dpos_last d l x : below d l → ksorted l → last l = Some x → dpos d l = key x.
Proof.
  intros Hb Hs Hl. apply last_Some in Hl as [k ->]. rewrite dpos_app.
  pose proof (dpos_below d k [x] Hb Hs) as Hb'. apply Forall_cons in Hb' as [Hb' _].
  exact (key_end _ _ Hb').
Qed.

Lemma key_le_dpos d l x : below d l → ksorted l → x ∈ l → key x ≼ dpos d l.
Proof.
  intros Hb Hs Hx. destruct (last l) as [y|] eqn:Hl.
  2: { apply last_None in Hl as ->. by apply elem_of_nil in Hx. }
  rewrite (dpos_last d l y) by done. apply last_Some in Hl as [k ->].
  apply ksorted_app in Hs as (_ & _ & Hlt). apply elem_of_app in Hx as [Hx|Hx].
  - apply cmp_lt_le, Hlt; [done|by left].
  - apply list_elem_of_singleton in Hx as ->. apply cmp_le_refl.
Qed.

Lemma dpos_lt_key d l r x : below d (l ++ r) → ksorted (l ++ r) → l ≠ [] → x ∈ r → dpos d l ≺ key x.
Proof.
  intros Hb Hs Hne Hx. destruct (last l) as [y|] eqn:Hl; [|by apply last_None in Hl].
  pose proof Hb as Hb'. apply Forall_app in Hb as [Hb _]. apply ksorted_app in Hs as (Hs & _ & Hlt).
  rewrite (dpos_last d l y) by done. apply Hlt; [|done]. apply last_Some in Hl as [k ->].
  apply elem_of_app. right. by left.
Qed.

Lemma find_item_exact k d prev xs : below d xs → ksorted xs →
  match snd (find_item true (cmp k) Left d prev (zip xs (summary <$> xs))) with
  | Some (_, x, _) => Some x | None => None end = lget k xs.
Proof.
  revert d prev. induction xs as [|x xs IH]; intros d prev Hb Hs; [done|].
  rewrite fmap_cons. cbn [zip zip_with find_item entry_found].
  destruct (dadd_le d x xs Hb Hs) as [-> Hb']. unfold lget.
  rewrite filter_cons. rewrite (cmp_antisym k (key x)).
  destruct (cmp k (key x)) eqn:E; simpl.
  - done.
  - apply StronglySorted_inv in Hs as [Hs _]. by apply IH.
  - apply StronglySorted_inv in Hs as [Hs _]. by apply IH.
Qed.

Lemma get_ok t k :
  wf_tree TREE_BASE t → ksorted (items t) → below dzero (items t) →
  get t k = Some (lget k (items t)).
Proof.
  intros Hw Hs Hb. unfold get, find_exact, find_gen, at_tree_end.
  destruct Hw as [->|[n Ht]].
  { cbn [node_summary new]. rewrite dadd_zero. by destruct (past _ _). }
  assert (dadd dzero (node_summary t) = dpos dzero (items t)) as ->.
  { rewrite (wf_summary TREE_BASE n t Ht). by apply dpos_sum, (wf_items_nonempty TREE_BASE n). }
  destruct (past (cmp k (dpos dzero (items t))) Left) eqn:Hp.
  - apply past_left in Hp. cbn [mbind option_bind]. f_equal. symmetry.
    destruct (lget k (items t)) as [x|] eqn:Hg; [|done]. apply lget_spec in Hg as [Hx Hk]; [|done].
    pose proof (key_le_dpos dzero (items t) x Hb Hs Hx) as Hle. rewrite Hk in Hle.
    by apply cmp_not_lt_le in Hle.
  - destruct (find_leaf_ok TREE_BASE (cmp k) Left true n t dzero None (find_fuel t) Ht
      (key_monotone dzero (items t) k Hb Hs) Hp) as (pre & xs & post & prev' & Hi & Hne & Hpre & Hxs & Hloop).
    { unfold find_fuel. rewrite (wf_height TREE_BASE n t Ht). lia. }
    unfold find_iterate. rewrite Hloop. cbn [mbind option_bind]. rewrite Hi in Hs, Hb |- *.
    pose proof (dpos_below dzero pre (xs ++ post) Hb Hs) as Hb'. apply Forall_app in Hb' as [Hb' _].
    pose proof Hs as Hs'. apply ksorted_app in Hs' as (Hspre & Hs' & _). apply ksorted_app in Hs' as (Hsx & _ & _).
    pose proof (find_item_exact k (dpos dzero pre) prev' xs Hb' Hsx) as Hfi.
    assert (lget k (pre ++ xs ++ post) = lget k xs) as ->.
    { destruct (lget k xs) as [x|] eqn:Hg.
      - apply lget_spec in Hg as [Hx Hk]; [|done]. apply lget_spec; [done|].
        rewrite !elem_of_app. naive_solver.
      - destruct (lget k (pre ++ xs ++ post)) as [y|] eqn:Hy; [|done]. exfalso.
        apply lget_spec in Hy as [[Hy|[Hy|Hy]%elem_of_app]%elem_of_app Hk]; [| | |done].
        + assert (pre ≠ []) as Hpne by (intros ->; by apply elem_of_nil in Hy).
          specialize (Hpre Hpne). apply past_left in Hpre.
          apply Forall_app in Hb as [Hb _]. pose proof (key_le_dpos dzero pre y Hb Hspre Hy) as Hle.
          rewrite Hk in Hle. by apply cmp_not_lt_le in Hle.
        + rewrite (proj2 (lget_spec k xs y Hsx)) in Hg; done.
        + assert (dpos dzero (pre ++ xs) ≺ k) as Hlt.
          { rewrite <- Hk. rewrite app_assoc in Hb, Hs. apply (dpos_lt_key dzero (pre ++ xs) post); [done..| |done].
            by destruct pre. }
          apply past_left in Hlt. congruence. }
    rewrite <- Hfi. by destruct (find_item _ _ _ _ _ _) as [p [[[q x] e]|]].
Qed.

(** ** Properties *)

(** [insert_or_replace] and [remove] on a key-ordered tree never panic and
    refine the sorted list: the tree keeps its B-tree shape and order, holds the
    items below the key, the new item, and those above, and the displaced item
    is returned. *)
Theorem insert_remove_refine t x k :
  1 ≤ TREE_BASE → keyed t → dzero ≼ key x → dzero ≼ k →
  let l := items t in
  (∃ u, insert_or_replace t x = Some (lget (key x) l, u) ∧ wf_tree TREE_BASE u ∧
     items u = lower (key x) l ++ x :: upper (key x) l ∧ ksorted (items u)) ∧
  (∃ u, remove t k = Some (lget k l, u) ∧ wf_tree TREE_BASE u ∧
     items u = lower k l ++ upper k l ∧ ksorted (items u)).
Proof.
  intros HB Hk Hzx Hz l.
  destruct (insert_or_replace_ok t x HB Hk Hzx) as (u & E & Hu & Hi).
  destruct (remove_ok t k HB Hk Hz) as (v & E' & Hv & Hj). destruct Hk as (_ & Hs & _).
  split; [exists u|exists v]; (split_and!; [done..|]); rewrite ?Hi, ?Hj.
  - apply (lmerge_sorted [Insert x] (items t)); [by repeat constructor|done].
  - apply (lmerge_sorted [Remove k] (items t)); [by repeat constructor|done].
Qed.

(** a batched [edit] whose edits have distinct keys does what its edits say:
    the result holds the inserted items and the old items whose key no edit
    names, in key order; exactly the old items with an edited key are
    returned. *)
Theorem edit_refines t es :
  1 ≤ TREE_BASE → keyed t → NoDup (edit_key <$> es) → Forall (λ e, dzero ≼ edit_key e) es →
  ∃ rm u, edit t es = Some (rm, u) ∧ wf_tree TREE_BASE u ∧ ksorted (items u) ∧
    (∀ x, x ∈ items u ↔ Insert x ∈ es ∨ (x ∈ items t ∧ ∀ e, e ∈ es → edit_key e ≠ key x)) ∧
    (∀ x, x ∈ rm ↔ x ∈ items t ∧ ∃ e, e ∈ es ∧ edit_key e = key x).
Proof.
  intros HB Hk Hnd Hz. destruct (edit_ok t es HB Hk Hnd Hz) as (u & E & Hu & Hi).
  destruct (sort_edits_ok es Hnd) as [Hs Hp]. destruct Hk as (_ & Ht & _).
  exists (lremoved (sort_edits es) (items t)), u. rewrite Hi. split_and!; [done|done|by apply lmerge_sorted| |].
  - intros x. rewrite elem_of_lmerge by done. by setoid_rewrite Hp.
  - intros x. rewrite elem_of_lremoved by done. by setoid_rewrite Hp.
Qed.

(** [get] finds the item of a key in a key-ordered tree of any height, and
    nothing else. *)
Theorem get_refines t k x :
  wf_tree TREE_BASE t → ksorted (items t) → below dzero (items t) →
  ∃ o, get t k = Some o ∧ (o = Some x ↔ x ∈ items t ∧ key x = k).
Proof.
  intros Hw Hs Hb. exists (lget k (items t)). split; [by apply get_ok|by apply lget_spec].
Qed.

End keyed.

(** ** Witnesses: trees of natural numbers that are their own keys. *)

Module KeyedExamples.
#[export, refine] Instance max_Summary : Summary nat := {| zero := 0; add := Nat.max |}.
Proof. - done. - intros. simpl. lia. Defined.
#[export] Instance self_Item : Item nat nat := {| summary n := n |}.
#[export, refine] Instance max_Dimension : Dimension nat nat := {| dzero := 0; dadd := Nat.max |}.
Proof. - intros. symmetry. apply Nat.max_assoc. - done. Defined.
#[export, refine] Instance self_KeyedItem : KeyedItem nat nat := {| key n := n |}.
Proof. intros d x Hd. simpl in *. apply Nat.compare_le_iff in Hd. lia. Defined.

Definition t4 : Node nat nat := mk_leaf [2; 3; 5; 8].

Lemma t4_keyed : keyed 2 t4.
Proof.
  split_and!.
  - right. exists 0. split; [unfold STACK_CAPACITY; lia|]. apply (wf_leaf 2 [2; 3; 5; 8]); [done|].
    simpl. unfold capacity. lia.
  - repeat constructor.
  - by repeat constructor.
Defined.

Example insert_remove_refine_witness :
  (∃ u, insert_or_replace 2 t4 4 = Some (lget (key 4) (items t4), u) ∧ wf_tree 2 u ∧
     items u = lower (key 4) (items t4) ++ 4 :: upper (key 4) (items t4) ∧ ksorted (items u)) ∧
  (∃ u, remove 2 t4 5 = Some (lget 5 (items t4), u) ∧ wf_tree 2 u ∧
     items u = lower 5 (items t4) ++ upper 5 (items t4) ∧ ksorted (items u)).
Proof. apply (insert_remove_refine 2 t4 4 5); [lia|apply t4_keyed|done|done]. Defined.

Example edit_refines_witness :
  ∃ rm u, edit 2 t4 [Remove 5; Insert 4] = Some (rm, u) ∧ wf_tree 2 u ∧ ksorted (items u) ∧
    (∀ x, x ∈ items u ↔ Insert x ∈ [Remove 5; Insert 4] ∨
       (x ∈ items t4 ∧ ∀ e, e ∈ [Remove 5; Insert 4] → edit_key e ≠ key x)) ∧
    (∀ x, x ∈ rm ↔ x ∈ items t4 ∧ ∃ e, e ∈ [Remove 5; Insert 4] ∧ edit_key e = key x).
Proof.
  apply (edit_refines 2 t4 [Remove 5; Insert 4]); [lia|apply t4_keyed| |by repeat constructor].
  by apply (bool_decide_unpack _).
Defined.

Example get_refines_witness : ∃ o, get t4 5 = Some o ∧ (o = Some 5 ↔ 5 ∈ items t4 ∧ key 5 = 5).
Proof.
  apply (get_refines 2 t4 5 5); [|apply t4_keyed|apply t4_keyed].
  destruct (proj1 t4_keyed) as [E|(n & _ & H)]; [by left|right; eauto].
Defined.
End KeyedExamples.
