(* ===== verification/TreeMap.v ===== *)
(** * [TreeMap] ([crates/sum_tree/src/tree_map.rs])

    An ordered map stored as a key-ordered sum tree whose summary is the last
    key; its operations are proved to be those of a finite map. *)

From S2P Require Import Prelude SumTree Cursor Search KeyedTree.
Local Open Scope ord_scope.

Record MapEntry (K V : Type) := mkEntry { entry_key : K; entry_value : V }.
Arguments mkEntry {K V} _ _.
Arguments entry_key {K V} _.
Arguments entry_value {K V} _.

(** [MapKey(Option<K>)] with the derived order: [None] comes first. *)
Definition option_cmp `{Ord K} (x y : option K) : comparison :=
  match x, y with
  | None, None => Eq | None, Some _ => Lt | Some _, None => Gt
  | Some x, Some y => cmp x y
  end.
#[export, refine] Instance option_Ord `{Ord K} : Ord (option K) := {| cmp := option_cmp |}.
Proof.
  - intros [x|] [y|]; simpl; rewrite ?cmp_eq_iff; naive_solver.
  - intros [x|] [y|]; simpl; [apply cmp_antisym|done..].
  - intros [x|] [y|] [z|]; simpl; try done. apply cmp_lt_trans.
Defined.

Lemma seek_new {Sm T D} `{HS : Summary Sm, HI : Item T Sm, HD : !Dimension D Sm} (target : D → comparison) bias (t : Node T Sm) :
  seek target bias (cursor_new t) = seek_forward target bias (cursor_new t).
Proof. done. Qed.

Section tree_map.
Context {K V : Type} `{HO : !Ord K}.
Context (TREE_BASE : nat).

(** The summary of a map is its last key; as a dimension it is replaced by
    the summary added. *)
#[local, refine] Instance MapKey_Summary : Summary (option K) := {| zero := None; add := λ _ s, s |}.
Proof. all: done. Defined.
#[local] Instance MapEntry_Item : Item (MapEntry K V) (option K) := {| summary e := Some (entry_key e) |}.
#[local, refine] Instance MapKey_Dimension : Dimension (option K) (option K) :=
  {| dzero := None; dadd := λ _ s, s |}.
Proof. all: done. Defined.
#[local, refine] Instance MapEntry_KeyedItem : KeyedItem (MapEntry K V) (option K) :=
  {| key e := Some (entry_key e) |}.
Proof. done. Defined.

Abbreviation TreeMap := (Node (MapEntry K V) (option K)).
Implicit Types m : TreeMap.

Definition from_ordered_entries (entries : list (K * V)) : TreeMap :=
  from_iter TREE_BASE ((λ e, mkEntry e.1 e.2) <$> entries).

Definition map_is_empty m : bool := is_empty m.

Definition map_get m (k : K) : option (option V) :=
  '(_, _, item) ← find (cmp (Some k)) Left m;
  Some (match item with
        | Some e => match cmp k (entry_key e) with Eq => Some (entry_value e) | _ => None end
        | None => None
        end).

Definition contains_key m (k : K) : option bool :=
  o ← map_get m k; Some (match o with Some _ => true | None => false end).

(** [.map(|it| it.value)] *)
Definition value_of (o : option (MapEntry K V)) : option V := entry_value <$> o.

Definition map_insert_or_replace m (k : K) (v : V) : option (option V * TreeMap) :=
  '(o, m) ← insert_or_replace (K:=option K) TREE_BASE m (mkEntry k v); Some (value_of o, m).
Definition map_insert m (k : K) (v : V) : option TreeMap :=
  '(_, m) ← insert_or_replace (K:=option K) TREE_BASE m (mkEntry k v); Some m.

Definition map_extend m (l : list (K * V)) : option TreeMap :=
  '(_, m) ← edit (K:=option K) TREE_BASE m ((λ e, Insert (mkEntry e.1 e.2)) <$> l); Some m.

Definition map_iter m : list (K * V) := (λ e, (entry_key e, entry_value e)) <$> items m.
Definition insert_tree m (other : TreeMap) : option TreeMap := map_extend m (map_iter other).

(** [key.cmp(&cursor.end())] decides whether the cursor is at the key. *)
Definition map_remove m (k : K) : option (option V * TreeMap) :=
  '(new_tree, c) ← slice TREE_BASE (cmp (Some k)) Left (cursor_new m);
  e ← cursor_end c;
  '(removed, c) ← (match cmp (Some k) e with
                   | Eq => it ← cursor_item c; x ← it; c ← next c; Some (Some (entry_value x), c)
                   | _ => Some (None, c)
                   end);
  '(rest, _) ← suffix TREE_BASE c;
  new_tree ← append TREE_BASE new_tree rest;
  Some (removed, new_tree).

Definition map_update {R} m (k : K) (f : V → V * R) : option (option R * TreeMap) :=
  '(new_tree, c) ← slice TREE_BASE (cmp (Some k)) Left (cursor_new m);
  e ← cursor_end c;
  '(new_tree, result, c) ← (match cmp (Some k) e with
     | Eq => it ← cursor_item c; x ← it;
             let '(v, r) := f (entry_value x) in
             new_tree ← push TREE_BASE new_tree (mkEntry (entry_key x) v);
             c ← next c;
             Some (new_tree, Some r, c)
     | _ => Some (new_tree, None, c)
     end);
  '(rest, _) ← suffix TREE_BASE c;
  new_tree ← append TREE_BASE new_tree rest;
  Some (result, new_tree).

(** [MapSeekTargetAdaptor]: every target lies after the start. *)
Definition seek_target_adaptor (target : K → comparison) (p : option K) : comparison :=
  match p with Some k => target k | None => Gt end.

Definition remove_range m (start_ end_ : K → comparison) : option TreeMap :=
  '(new_tree, c) ← slice TREE_BASE (seek_target_adaptor start_) Left (cursor_new m);
  '(c, _) ← seek (seek_target_adaptor end_) Left c;
  '(rest, _) ← suffix TREE_BASE c;
  append TREE_BASE new_tree rest.

(** [iter_from]: the iterator collected. *)
Definition iter_from m (from : K) : option (list (K * V)) :=
  '(c, _) ← seek (cmp (Some from)) Left (cursor_new m);
  iterate (iterate_fuel c) (λ acc e, (acc ++ [(entry_key e, entry_value e)], true)) [] c.

Fixpoint retain_loop (fuel : nat) (predicate : K → V → bool) (new_map : TreeMap)
    (c : @Cursor (option K) (MapEntry K V) (option K)) : option TreeMap :=
  match fuel with
  | O => None
  | S fuel =>
      it ← cursor_item c;
      match it with
      | Some e =>
          new_map ← (if predicate (entry_key e) (entry_value e) then push TREE_BASE new_map e
                     else Some new_map);
          c ← next c;
          retain_loop fuel predicate new_map c
      | None => Some new_map
      end
  end.
Definition retain m (predicate : K → V → bool) : option TreeMap :=
  c ← next (cursor_new m : @Cursor (option K) (MapEntry K V) (option K));
  retain_loop (iterate_fuel c) predicate new c.

Definition map_first m : option (K * V) := (λ e, (entry_key e, entry_value e)) <$> first_item m.
Definition map_last m : option (K * V) := (λ e, (entry_key e, entry_value e)) <$> last_item m.

(** ** The map a tree stands for *)

Definition lookup_map (k : K) (l : list (MapEntry K V)) : option V := entry_value <$> lget (Some k) l.

(** A map whose entries are in strict key order. *)
Definition ordered m : Prop := wf_tree TREE_BASE m ∧ ksorted (items m).

Lemma below_none (l : list (MapEntry K V)) : below None l.
Proof. by induction l; constructor. Qed.

Lemma none_le (k : K) : (None : option K) ≼ Some k.
Proof. done. Qed.

Lemma keyed_ordered m : walkable TREE_BASE m → ksorted (items m) → keyed TREE_BASE m.
Proof. intros Hw Hs. split_and!; [done|done|apply below_none]. Qed.

Lemma walkable_wf m : walkable TREE_BASE m → wf_tree TREE_BASE m.
Proof. intros [->|(n & _ & ?)]; [by left|right; eauto]. Qed.

Lemma map_get_ok m k : ordered m → map_get m k = Some (lookup_map k (items m)).
Proof.
  intros [Hw Hs]. unfold map_get. rewrite find_eq.
  pose proof (find_ok TREE_BASE (cmp (Some k)) Left m Hw (key_monotone _ _ _ (below_none _) Hs)) as Hf.
  pose proof (lseek_key dzero (items m) (Some k) (below_none _) Hs) as Hk.
  destruct (lseek _ _ _) as [[sk d'] r]. rewrite Hf. clear Hf.
  destruct Hk as (Hi & Hlt & Hge & _). unfold lookup_map. rewrite Hi.
  pose proof Hs as Hs'. rewrite Hi in Hs'. apply ksorted_app in Hs' as (_ & Hsr & _).
  destruct (head_key (Some k) r Hsr Hge) as [(x & r' & -> & Hx & Hgt)|Hgt].
  - cbn [mbind option_bind]. injection Hx as Hx. rewrite Hx, cmp_refl.
    destruct (split_at_key (Some k) sk (Some x) r' Hlt Hgt) as (_ & _ & Eg).
    { intros y [= <-]. simpl. by rewrite Hx. }
    simpl in Eg. by rewrite Eg.
  - destruct (split_at_key (Some k) sk None r Hlt Hgt) as (_ & _ & Eg); [done|].
    simpl in Eg. rewrite Eg. destruct r as [|x r]; [done|]. cbn [mbind option_bind].
    apply Forall_cons in Hgt as [Hx _]. simpl in Hx. by rewrite Hx.
Qed.

Lemma lookup_map_spec k v (l : list (MapEntry K V)) :
  ksorted l → lookup_map k l = Some v ↔ mkEntry k v ∈ l.
Proof.
  intros Hs. unfold lookup_map. rewrite fmap_Some. split.
  - intros (x & [Hx Hk]%lget_spec & ->); [|done]. injection Hk as <-. by destruct x.
  - intros Hx. exists (mkEntry k v). split; [|done]. by apply lget_spec.
Qed.

(** The lookups of a list with one key replaced by [o]. *)
Lemma lookup_map_update k o (l l' : list (MapEntry K V)) :
  ksorted l → ksorted l' →
  (∀ x, x ∈ l' ↔ (entry_key x = k ∧ o = Some (entry_value x)) ∨ (x ∈ l ∧ entry_key x ≠ k)) →
  ∀ k', lookup_map k' l' = match cmp k' k with Eq => o | _ => lookup_map k' l end.
Proof.
  intros Hs Hs' Hin k'. apply option_eq. intros v. rewrite lookup_map_spec, Hin by done. simpl.
  destruct (cmp k' k) eqn:E.
  - apply cmp_eq_iff in E as ->. naive_solver.
  - rewrite lookup_map_spec by done. assert (k' ≠ k) by (intros ->; by apply cmp_lt_irrefl in E). naive_solver.
  - rewrite lookup_map_spec by done. assert (k' ≠ k) by (intros ->; by rewrite cmp_refl in E). naive_solver.
Qed.

Lemma elem_of_around k x (mid l : list (MapEntry K V)) :
  x ∈ lower (Some k) l ++ mid ++ upper (Some k) l ↔ x ∈ mid ∨ (x ∈ l ∧ entry_key x ≠ k).
Proof.
  rewrite !elem_of_app, elem_of_lower, elem_of_upper. simpl.
  destruct (cmp_trichotomy (entry_key x) k) as [H|[->|H]]; simpl in *.
  - assert (entry_key x ≠ k) by (intros E; rewrite E in H; by apply cmp_lt_irrefl in H).
    pose proof (cmp_lt_asym _ _ H). naive_solver.
  - rewrite cmp_refl. naive_solver.
  - assert (entry_key x ≠ k) by (intros E; rewrite E in H; by apply cmp_lt_irrefl in H).
    pose proof (cmp_lt_asym _ _ H). naive_solver.
Qed.

(** Cutting a map at a key, with the test on the cursor's end. *)
Lemma map_split_ok m k :
  1 ≤ TREE_BASE → walkable TREE_BASE m → ksorted (items m) →
  ∃ t c o r, slice TREE_BASE (cmp (Some k)) Left (cursor_new m) = Some (t, c) ∧ wf_tree TREE_BASE t ∧
    key_cursor TREE_BASE c (Some k) (option_list o ++ r) ∧
    items t = lower (Some k) (items m) ∧ r = upper (Some k) (items m) ∧ o = lget (Some k) (items m) ∧
    match o with
    | Some x => entry_key x = k ∧ cursor_item c = Some (Some x) ∧ cursor_end c = Some (Some k) ∧
        ∃ c', next c = Some c' ∧ key_cursor TREE_BASE c' (Some k) r
    | None => ∃ e, cursor_end c = Some e ∧ cmp (Some k) e ≠ Eq
    end.
Proof.
  intros HB Hw Hs.
  destruct (slice_key_ok (HK:=MapEntry_KeyedItem) TREE_BASE (cursor_new m) None (items m) (Some k) HB
    (cursor_new_at TREE_BASE m Hw) (none_le k) (below_none _) Hs) as (t & c & r0 & E & Ht & Hl & Hlt & Hge & Hc & Hpos).
  pose proof Hc as (d & Hcd & Hds & Hd & Hb & Hsr).
  destruct (head_key (Some k) r0 Hsr Hge) as [(x & r & -> & Hx & Hgt)|Hgt].
  - destruct (split_at_key (Some k) (items t) (Some x) r Hlt Hgt) as (El & Eu & Eg); [by intros ? [= <-]|].
    simpl in El, Eu, Eg. rewrite <- Hl in El, Eu, Eg.
    injection Hx as Hx.
    exists t, c, (Some x), r. split_and!;
      [done|done|exact Hc|by rewrite El|by rewrite Eu|by rewrite Eg|done
      |by rewrite (cursor_at_item TREE_BASE c d _ Hcd Hds)
      |by rewrite (cursor_at_end TREE_BASE c d _ Hcd Hds), <- Hx|].
    destruct (next_ok TREE_BASE c d x r Hcd Hds) as (c' & ? & ? & ? & _).
    exists c'. split; [done|]. apply StronglySorted_inv in Hsr as [Hsr _].
    exists (Some (entry_key x)). split_and!; [done|done|rewrite Hx; apply cmp_le_refl| |done].
    eapply Forall_impl; [exact Hgt|]. rewrite Hx. intros y. apply cmp_lt_le.
  - destruct (split_at_key (Some k) (items t) None r0 Hlt Hgt) as (El & Eu & Eg); [done|].
    simpl in El, Eu, Eg. rewrite <- Hl in El, Eu, Eg.
    exists t, c, None, r0. split_and!; [done|done|exact Hc|by rewrite El|by rewrite Eu|by rewrite Eg|].
    rewrite (cursor_at_end TREE_BASE c d _ Hcd Hds). eexists. split; [done|].
    destruct r0 as [|x r0].
    + rewrite (proj1 Hcd) in Hpos. specialize (Hpos eq_refl). intros Heq%cmp_eq_iff. rewrite Heq in Hpos.
      by apply cmp_lt_irrefl in Hpos.
    + apply Forall_cons in Hgt as [Hgt _]. simpl in Hgt |- *. by rewrite Hgt.
Qed.

Lemma around_sorted k (mid l : list (MapEntry K V)) :
  ksorted l → (mid = [] ∨ ∃ v, mid = [mkEntry k v]) →
  ksorted (lower (Some k) l ++ mid ++ upper (Some k) l).
Proof.
  intros Hs [->|[v ->]].
  - apply (lmerge_sorted (HK:=MapEntry_KeyedItem) [Remove (Some k)] l); [by repeat constructor|done].
  - apply (lmerge_sorted (HK:=MapEntry_KeyedItem) [Insert (mkEntry k v)] l); [by repeat constructor|done].
Qed.

Lemma map_insert_ok m k v :
  1 ≤ TREE_BASE → walkable TREE_BASE m → ksorted (items m) →
  ∃ u, map_insert_or_replace m k v = Some (lookup_map k (items m), u) ∧ map_insert m k v = Some u ∧
    ordered u ∧ items u = lower (Some k) (items m) ++ [mkEntry k v] ++ upper (Some k) (items m).
Proof.
  intros HB Hw Hs. unfold map_insert_or_replace, map_insert.
  destruct (insert_or_replace_ok TREE_BASE m (mkEntry k v) HB (keyed_ordered m Hw Hs) (none_le k))
    as (u & -> & Hu & Hi). exists u. cbn [mbind option_bind]. split_and!; [done|done|split; [done|]|done].
  rewrite Hi. apply (around_sorted k [mkEntry k v]); eauto.
Qed.

Lemma map_remove_ok m k :
  1 ≤ TREE_BASE → walkable TREE_BASE m → ksorted (items m) →
  ∃ u, map_remove m k = Some (lookup_map k (items m), u) ∧ ordered u ∧
    items u = lower (Some k) (items m) ++ [] ++ upper (Some k) (items m).
Proof.
  intros HB Hw Hs. unfold map_remove, lookup_map.
  destruct (map_split_ok m k HB Hw Hs) as (t & c & o & r & -> & Ht & Hc & Hlo & Hr & Hg & Ho).
  cbn [mbind option_bind]. pose proof (around_sorted k [] (items m) Hs (or_introl eq_refl)) as Hso.
  rewrite <- Hlo, <- Hr, <- Hg in *.
  enough (∃ c', (e ← cursor_end c; match cmp (Some k) e with
      | Eq => it ← cursor_item c; x ← it; c ← next c; Some (Some (entry_value x), c)
      | _ => Some (None, c) end) = Some (entry_value <$> o, c') ∧ key_cursor TREE_BASE c' (Some k) r)
    as (c' & E & Hc').
  { destruct (cursor_end c) as [e|]; [|done]. cbn [mbind option_bind] in E |- *. rewrite E.
    cbn [mbind option_bind].
    destruct (suffix_append_ok TREE_BASE t c' _ _ HB Ht Hc') as (s & c2 & u & -> & Hap & Hu & Hi).
    cbn [mbind option_bind]. rewrite Hap. cbn [mbind option_bind]. exists u. unfold ordered. by rewrite Hi. }
  destruct o as [x|].
  - destruct Ho as (Hk & -> & -> & c' & -> & Hc'). exists c'. cbn [mbind option_bind].
    by rewrite cmp_refl.
  - destruct Ho as (e & -> & Hne). exists c. cbn [mbind option_bind]. by destruct (cmp (Some k) e).
Qed.

Lemma map_update_ok {R} m k (f : V → V * R) :
  1 ≤ TREE_BASE → walkable TREE_BASE m → ksorted (items m) →
  let o := lookup_map k (items m) in
  ∃ u, map_update m k f = Some ((λ v, (f v).2) <$> o, u) ∧ ordered u ∧
    items u = lower (Some k) (items m) ++ option_list ((λ v, mkEntry k (f v).1) <$> o) ++ upper (Some k) (items m).
Proof.
  intros HB Hw Hs. unfold map_update, lookup_map.
  destruct (map_split_ok m k HB Hw Hs) as (t & c & o & r & -> & Ht & Hc & Hlo & Hr & Hg & Ho).
  cbn [mbind option_bind].
  assert (∀ mid, (mid = [] ∨ ∃ v, mid = [mkEntry k v]) → ksorted (items t ++ mid ++ r)) as Hso.
  { intros mid Hm. rewrite Hlo, Hr. by apply around_sorted. }
  rewrite <- Hlo, <- Hr, <- Hg in *.
  enough (∃ t' c', (e ← cursor_end c; match cmp (Some k) e with
     | Eq => it ← cursor_item c; x ← it;
             let '(v, r) := f (entry_value x) in
             new_tree ← push TREE_BASE t (mkEntry (entry_key x) v);
             c ← next c;
             Some (new_tree, Some r, c)
     | _ => Some (t, None, c) end) = Some (t', (λ v, (f v).2) <$> (entry_value <$> o), c') ∧
     wf_tree TREE_BASE t' ∧ items t' = items t ++ option_list ((λ v, mkEntry k (f v).1) <$> (entry_value <$> o)) ∧
     key_cursor TREE_BASE c' (Some k) r)
    as (t' & c' & E & Ht' & Hi' & Hc').
  { destruct (cursor_end c) as [e|]; [|done]. cbn [mbind option_bind] in E |- *. rewrite E.
    cbn [mbind option_bind].
    destruct (suffix_append_ok TREE_BASE t' c' _ _ HB Ht' Hc') as (s & c2 & u & -> & Hap & Hu & Hi).
    cbn [mbind option_bind]. rewrite Hap. cbn [mbind option_bind]. exists u.
    rewrite Hi' , <- app_assoc in Hi. split_and!; [done|split; [done|]|done]. rewrite Hi. apply Hso.
    destruct o; simpl; eauto. }
  destruct o as [x|].
  - destruct Ho as (Hk & -> & -> & c' & -> & Hc'). cbn [mbind option_bind]. rewrite cmp_refl.
    simpl. destruct (f (entry_value x)) as [v w] eqn:Ef.
    destruct (push_ok TREE_BASE t (mkEntry (entry_key x) v) HB Ht) as (t' & -> & Ht' & Hi').
    cbn [mbind option_bind]. exists t', c'. rewrite Hi', Hk. by split_and!.
  - destruct Ho as (e & -> & Hne). cbn [mbind option_bind]. exists t, c. rewrite app_nil_r.
    split_and!; [by destruct (cmp (Some k) e)|done..].
Qed.

(** [retain] and [iter_from]. *)
Lemma retain_loop_ok fuel predicate new_map c d l :
  1 ≤ TREE_BASE → wf_tree TREE_BASE new_map → cursor_at TREE_BASE c d l → did_seek c = true →
  length l < fuel →
  ∃ u, retain_loop fuel predicate new_map c = Some u ∧ wf_tree TREE_BASE u ∧
    items u = items new_map ++ filter (λ e, predicate (entry_key e) (entry_value e) = true) l.
Proof.
  intros HB. revert new_map c d l. induction fuel as [|fuel IH]; intros new_map c d l Hw Hc Hd Hf; [lia|].
  cbn [retain_loop]. rewrite (cursor_at_item TREE_BASE c d l Hc Hd). cbn [mbind option_bind].
  destruct l as [|e l]; cbn [head].
  { exists new_map. by rewrite app_nil_r. }
  destruct (next_ok TREE_BASE c d e l Hc Hd) as (c' & Hn & Hc' & Hd' & _). simpl in Hf.
  rewrite filter_cons. destruct (predicate (entry_key e) (entry_value e)) eqn:Hp.
  - destruct (push_ok TREE_BASE new_map e HB Hw) as (t' & -> & Ht' & Hi'). cbn [mbind option_bind].
    rewrite Hn. cbn [mbind option_bind].
    destruct (IH t' c' _ l Ht' Hc' Hd' ltac:(lia)) as (u & E & Hu & Hi). exists u. rewrite E.
    rewrite decide_True by done. by rewrite Hi, Hi', <- app_assoc.
  - cbn [mbind option_bind]. rewrite Hn. cbn [mbind option_bind].
    destruct (IH new_map c' _ l Hw Hc' Hd' ltac:(lia)) as (u & E & Hu & Hi). exists u. rewrite E.
    by rewrite decide_False.
Qed.

Lemma retain_ok m predicate :
  1 ≤ TREE_BASE → walkable TREE_BASE m → ksorted (items m) →
  ∃ u, retain m predicate = Some u ∧ ordered u ∧
    items u = filter (λ e, predicate (entry_key e) (entry_value e) = true) (items m).
Proof.
  intros HB Hw Hs. unfold retain.
  destruct (next_first TREE_BASE _ _ _ (cursor_new_at TREE_BASE m Hw) eq_refl) as (c & -> & Hc & Hd & Ht).
  cbn [mbind option_bind].
  destruct (retain_loop_ok (iterate_fuel c) predicate new c None (items m) HB) as (u & E & Hu & Hi);
    [by left|done|done|unfold iterate_fuel; rewrite Ht; simpl; lia|].
  exists u. split_and!; [done|split; [done|]|done]. rewrite Hi. simpl. by apply ksorted_filter.
Qed.

(** [iter_from]: the entries from a key on. *)
Lemma fold_collect acc (l : list (MapEntry K V)) :
  fold_until (λ acc e, (acc ++ [(entry_key e, entry_value e)], true)) acc l = acc ++ ((λ e, (entry_key e, entry_value e)) <$> l).
Proof.
  revert acc. induction l as [|e l IH]; intros acc; cbn [fold_until]; [by rewrite app_nil_r|]. by rewrite IH, <- app_assoc.
Qed.

Lemma iter_from_ok m from :
  walkable TREE_BASE m → ksorted (items m) →
  ∃ sk r, iter_from m from = Some ((λ e, (entry_key e, entry_value e)) <$> r) ∧ items m = sk ++ r ∧
    Forall (λ e, entry_key e ≺ from) sk ∧ Forall (λ e, from ≼ entry_key e) r.
Proof.
  intros Hw Hs. unfold iter_from.
  pose proof (seek_forward_ok TREE_BASE _ (cmp (Some from)) Left _ _ (cursor_new_at TREE_BASE m Hw)
    (key_monotone _ _ (Some from) (below_none _) Hs)) as Hsk.
  pose proof (lseek_key dzero (items m) (Some from) (below_none _) Hs) as Hk.
  destruct (lseek _ dzero (items m)) as [[sk d'] r]. destruct Hk as (Hi & Hlt & Hge & _).
  destruct Hsk as (c & b & E & Hc & Hd & Ht); [done|].
  rewrite seek_new, E. cbn [mbind option_bind]. exists sk, r. split; [|done]. rewrite <- (app_nil_l (_ <$> r)), <- fold_collect.
  apply (iterate_ok TREE_BASE _ _ _ c d' r Hc Hd). unfold iterate_fuel. rewrite Ht. cbn [tree cursor_new].
  rewrite Hi, length_app. lia.
Qed.

(** ** Properties *)

(** C38: a [TreeMap] is a finite map.  On a map with its entries in key order,
    [get] looks a key up; [insert_or_replace], [remove] and [update] never
    panic, return the old value (or the closure's result), keep the order, and
    change the lookup of that key only. *)
Theorem treemap_refines_map {R} m k v (f : V → V * R) :
  1 ≤ TREE_BASE → walkable TREE_BASE m → ksorted (items m) →
  let look k' := lookup_map k' (items m) in
  (∀ k', map_get m k' = Some (look k')) ∧
  (∃ u, map_insert_or_replace m k v = Some (look k, u) ∧ ordered u ∧
     ∀ k', map_get u k' = Some (match cmp k' k with Eq => Some v | _ => look k' end)) ∧
  (∃ u, map_remove m k = Some (look k, u) ∧ ordered u ∧
     ∀ k', map_get u k' = Some (match cmp k' k with Eq => None | _ => look k' end)) ∧
  (∃ u, map_update m k f = Some ((λ w, (f w).2) <$> look k, u) ∧ ordered u ∧
     ∀ k', map_get u k' =
       Some (match cmp k' k with Eq => (λ w, (f w).1) <$> look k | _ => look k' end)).
Proof.
  intros HB Hw Hs look.
  assert (∀ u (o : option V), ordered u →
    items u = lower (Some k) (items m) ++ option_list (mkEntry k <$> o) ++ upper (Some k) (items m) →
    ∀ k', map_get u k' = Some (match cmp k' k with Eq => o | _ => look k' end)) as Hget.
  { intros u o Hu Hi k'. rewrite map_get_ok by done. f_equal.
    apply (lookup_map_update k o (items m) (items u) Hs (proj2 Hu)). intros x.
    rewrite Hi, elem_of_around. destruct o as [w|]; simpl; [|by rewrite elem_of_nil; naive_solver].
    rewrite list_elem_of_singleton. destruct x as [kx vx]. simpl. naive_solver. }
  split_and!.
  - intros k'. apply map_get_ok. split; [by apply walkable_wf|done].
  - destruct (map_insert_ok m k v HB Hw Hs) as (u & E & _ & Hu & Hi).
    exists u. split_and!; [done|apply Hu..|by apply (Hget u (Some v))].
  - destruct (map_remove_ok m k HB Hw Hs) as (u & E & Hu & Hi).
    exists u. split_and!; [done|apply Hu..|by apply (Hget u None)].
  - destruct (map_update_ok m k f HB Hw Hs) as (u & E & Hu & Hi).
    exists u. split_and!; [done|apply Hu..|]. apply Hget; [done|]. rewrite Hi. unfold look.
    by destruct (lookup_map k (items m)).
Qed.

(** [retain] keeps exactly the entries the predicate accepts, in order. *)
Theorem retain_filters m predicate :
  1 ≤ TREE_BASE → walkable TREE_BASE m → ksorted (items m) →
  ∃ u, retain m predicate = Some u ∧ wf_tree TREE_BASE u ∧
    map_iter u = filter (λ kv, predicate kv.1 kv.2 = true) (map_iter m).
Proof.
  intros HB Hw Hs. destruct (retain_ok m predicate HB Hw Hs) as (u & E & [Hu _] & Hi).
  exists u. split_and!; [done|done|]. unfold map_iter. rewrite Hi. clear.
  induction (items m) as [|x l IH]; [done|]. rewrite fmap_cons, !filter_cons. simpl.
  destruct (decide _); [|done]. by rewrite fmap_cons, IH.
Qed.

End tree_map.

(** ** Witnesses *)

Module TreeMapExamples.
Definition m3 : Node (MapEntry Z Z) (option Z) :=
  from_ordered_entries 2 [(1, 10); (2, 20); (5, 50)]%Z.

Lemma m3_walkable :
  walkable (HS:=MapKey_Summary) (HI:=MapEntry_Item) 2 m3.
Proof.
  right. exists 0. split; [unfold STACK_CAPACITY; lia|].
  apply (wf_leaf (HS:=MapKey_Summary) (HI:=MapEntry_Item) 2
    [mkEntry 1 10; mkEntry 2 20; mkEntry 5 50]%Z); [done|simpl; unfold capacity; lia].
Defined.

Lemma m3_sorted : ksorted (HK:=MapEntry_KeyedItem) (items m3).
Proof. repeat constructor. Defined.

Example treemap_refines_map_witness :
  let look k' := lookup_map k' (items m3) in
  (∀ k', map_get m3 k' = Some (look k')) ∧
  (∃ u, map_insert_or_replace 2 m3 2%Z 7%Z = Some (look 2%Z, u) ∧ ordered 2 u ∧
     ∀ k', map_get u k' = Some (match cmp k' 2%Z with Eq => Some 7%Z | _ => look k' end)) ∧
  (∃ u, map_remove 2 m3 2%Z = Some (look 2%Z, u) ∧ ordered 2 u ∧
     ∀ k', map_get u k' = Some (match cmp k' 2%Z with Eq => None | _ => look k' end)) ∧
  (∃ u, map_update 2 m3 2%Z (λ w, (w + 1, w)%Z) = Some ((λ w, (w + 1, w)%Z.2) <$> look 2%Z, u) ∧
     ordered 2 u ∧
     ∀ k', map_get u k' =
       Some (match cmp k' 2%Z with Eq => (λ w, (w + 1, w)%Z.1) <$> look 2%Z | _ => look k' end)).
Proof.
  apply (treemap_refines_map 2 m3 2%Z 7%Z (λ w, (w + 1, w)%Z)); [lia|apply m3_walkable|apply m3_sorted].
Defined.

Example retain_filters_witness :
  ∃ u, retain 2 m3 (λ k _, Z.even k) = Some u ∧
    wf_tree (HS:=MapKey_Summary) (HI:=MapEntry_Item) 2 u ∧
    map_iter u = filter (λ kv, Z.even kv.1 = true) (map_iter m3).
Proof. apply (retain_filters 2 m3 (λ k _, Z.even k)); [lia|apply m3_walkable|apply m3_sorted]. Defined.

(** [extend] does not deduplicate: two pairs with one key leave two entries. *)
Example extend_keeps_duplicates :
  map_iter <$> map_extend 2 m3 [(3, 30); (3, 31)]%Z =
    Some [(1, 10); (2, 20); (3, 30); (3, 31); (5, 50)]%Z.
Proof. vm_compute. reflexivity. Qed.
End TreeMapExamples.
