(* ===== verification/UndoMap.v ===== *)
(** * The undo map ([crates/text/src/undo_map.rs])

    Undo operations are recorded per edit and per undo; an edit is undone when
    the largest count recorded for it is odd.  The map is a keyed sum tree:
    inserting is its batched [edit], a query is a cursor seek and a scan. *)

From S2P Require Import Prelude Clock SumTree Cursor Search KeyedTree.
Local Open Scope ord_scope.

Record UndoMapKey := mkKey { edit_id : Lamport; undo_id : Lamport }.
Record UndoMapEntry := mkUndoEntry { entry_key : UndoMapKey; undo_count : N }.

(** [#[derive(Ord)]] *)
#[export] Instance UndoMapKey_Ord : Ord UndoMapKey.
Proof. refine (inj_Ord (λ k, (edit_id k, undo_id k)) _). by intros [??] [??] [= -> ->]. Defined.

Definition zero_key : UndoMapKey := mkKey LAMPORT_MIN LAMPORT_MIN.

Lemma lamport_min_le t : LAMPORT_MIN ≼ t.
Proof. destruct t as [[|v] [|r]]; done. Qed.

Lemma zero_key_le k : zero_key ≼ k.
Proof. destruct k as [[[|v] [|r]] [[|v'] [|r']]]; done. Qed.

(** [ContextLessSummary for UndoMapKey]: the maximum. *)
#[export, refine] Instance UndoMapKey_Summary : Summary UndoMapKey :=
  {| zero := zero_key; add := cmp_max |}.
Proof.
  - intros s. apply cmp_max_eq_r, zero_key_le.
  - intros. apply cmp_max_assoc.
Defined.
#[export] Instance UndoMapEntry_Item : Item UndoMapEntry UndoMapKey := {| summary := entry_key |}.
#[export, refine] Instance UndoMapKey_Dimension : Dimension UndoMapKey UndoMapKey :=
  {| dzero := zero_key; dadd := cmp_max |}.
Proof.
  - intros. apply cmp_max_assoc.
  - apply cmp_max_eq_r, zero_key_le.
Defined.
#[export, refine] Instance UndoMapEntry_KeyedItem : KeyedItem UndoMapEntry UndoMapKey :=
  {| key := entry_key |}.
Proof. intros d x. apply cmp_max_eq_r. Defined.

(** [UndoOperation]; [counts] is the source's hash map. *)
Record UndoOperation := mkUndoOperation {
  timestamp : Lamport;
  op_version : Global;
  counts : gmap Lamport N;
}.

Section undo_map.
Context (TREE_BASE : nat).

Abbreviation UndoMap := (Node UndoMapEntry UndoMapKey).
Implicit Types m : UndoMap.

(** [UndoMap::insert] *)
Definition undo_edits (undo : UndoOperation) : list (Edit UndoMapEntry UndoMapKey) :=
  (λ ec, Insert (mkUndoEntry (mkKey ec.1 (timestamp undo)) ec.2)) <$> map_to_list (counts undo).

Definition insert_undo m (undo : UndoOperation) : option UndoMap :=
  '(_, m) ← edit TREE_BASE m (undo_edits undo); Some m.

(** The loop of the queries: the entries of [id], filtered. *)
Definition count_step (visible : UndoMapEntry → bool) (id : Lamport) (n : N) (e : UndoMapEntry) : N * bool :=
  if decide (edit_id (entry_key e) = id)
  then ((if visible e then N.max n (undo_count e) else n), true)
  else (n, false).

Definition query m (visible : UndoMapEntry → bool) (id : Lamport) : option N :=
  '(c, _) ← seek (cmp (mkKey id LAMPORT_MIN)) Left (cursor_new m);
  iterate (iterate_fuel c) (count_step visible id) 0%N c.

Definition map_undo_count m (id : Lamport) : option N := query m (λ _, true) id.

Definition is_undone m (id : Lamport) : option bool :=
  n ← map_undo_count m id; Some (n mod 2 =? 1)%N.

Definition was_undone m (id : Lamport) (version : Global) : option bool :=
  n ← query m (λ e, observed version (undo_id (entry_key e))) id; Some (n mod 2 =? 1)%N.

(** ** Specification *)

(** The largest count recorded for [id] among the visible entries. *)
Definition max_count (visible : UndoMapEntry → bool) (id : Lamport) (l : list UndoMapEntry) : N :=
  foldr N.max 0%N (undo_count <$> filter (λ e, edit_id (entry_key e) = id ∧ visible e = true) l).

Lemma undo_below (l : list UndoMapEntry) : below zero_key l.
Proof. apply Forall_forall. intros x _. apply zero_key_le. Qed.

Lemma undo_keyed m : walkable TREE_BASE m → ksorted (items m) → keyed TREE_BASE m.
Proof. intros Hw Hs. split_and!; [done|done|apply undo_below]. Qed.

Lemma key_cmp_edit_id k k' : edit_id k ≺ edit_id k' → k ≺ k'.
Proof. intros H. change (then_with (cmp (edit_id k) (edit_id k')) (cmp (undo_id k) (undo_id k')) = Lt). by rewrite H. Qed.

Lemma key_le_edit_id k k' : k ≼ k' → edit_id k ≼ edit_id k'.
Proof.
  change (then_with (cmp (edit_id k) (edit_id k')) (cmp (undo_id k) (undo_id k')) ≠ Gt → edit_id k ≼ edit_id k').
  by destruct (cmp (edit_id k) (edit_id k')).
Qed.

(** Scanning entries that start at or after [id] collects all of [id]. *)
Lemma fold_until_max visible id n l :
  ksorted l → Forall (λ e, mkKey id LAMPORT_MIN ≼ entry_key e) l →
  fold_until (count_step visible id) n l = N.max n (max_count visible id l).
Proof.
  revert n. induction l as [|e l IH]; intros n Hs Hge; [unfold max_count; simpl; lia|].
  apply StronglySorted_inv in Hs as [Hs He]. apply Forall_cons in Hge as [Hg Hge].
  cbn [fold_until]. unfold count_step at 1. unfold max_count. rewrite filter_cons.
  destruct (decide (edit_id (entry_key e) = id)) as [Heq|Hne].
  - rewrite IH by done. unfold max_count. destruct (visible e).
    + rewrite decide_True by done. rewrite fmap_cons. cbn [foldr]. symmetry. apply N.max_assoc.
    + by rewrite decide_False by naive_solver.
  - rewrite decide_False by naive_solver.
    replace (filter _ l) with (@nil UndoMapEntry); [by rewrite N.max_0_r|].
    symmetry. apply filter_none_of, Forall_forall. intros e' He' [Heq _].
    rewrite Forall_forall in He. apply He in He'. unfold key_lt in He'.
    apply cmp_lt_le, key_le_edit_id in He'. change (key e') with (entry_key e') in He'. rewrite Heq in He'.
    apply key_le_edit_id in Hg. simpl in Hg. by apply Hne, cmp_le_antisym.
Qed.

(** Entries before the seek position belong to smaller edits. *)
Lemma max_count_before visible id sk r :
  keys_lt sk (mkKey id LAMPORT_MIN) → max_count visible id (sk ++ r) = max_count visible id r.
Proof.
  intros Hsk. unfold max_count. rewrite filter_app, (filter_none_of _ sk); [done|].
  eapply Forall_impl; [exact Hsk|]. intros e He. cbn beta in He |- *. intros [Heq _]. change (key e) with (entry_key e) in He.
  assert (mkKey id LAMPORT_MIN ≼ entry_key e) as Hle; [|by apply cmp_not_lt_le in Hle].
  change (then_with (cmp id (edit_id (entry_key e))) (cmp LAMPORT_MIN (undo_id (entry_key e))) ≠ Gt).
  rewrite Heq, cmp_refl. apply lamport_min_le.
Qed.

Lemma mod2_odd n : (n mod 2 =? 1)%N = N.odd n.
Proof.
  destruct (N.Even_or_Odd n) as [[k ->]|[k ->]].
  - by rewrite N.odd_mul, N.mul_comm, N.Div0.mod_mul.
  - by rewrite N.odd_add, N.odd_mul, N.add_comm, N.mul_comm, N.Div0.mod_add.
Qed.

Lemma query_ok m visible id :
  walkable TREE_BASE m → ksorted (items m) → query m visible id = Some (max_count visible id (items m)).
Proof.
  intros Hw Hs. unfold query. set (k := mkKey id LAMPORT_MIN).
  pose proof (seek_forward_ok TREE_BASE _ (cmp k) Left _ _ (cursor_new_at TREE_BASE m Hw)
    (key_monotone _ _ k (undo_below _) Hs)) as Hsk.
  pose proof (lseek_key dzero (items m) k (undo_below _) Hs) as Hk.
  destruct (lseek _ dzero (items m)) as [[sk d'] r]. destruct Hk as (Hi & Hlt & Hge & _).
  destruct Hsk as (c & b & E & Hc & Hd & Ht).
  { change (cmp k zero_key ≠ Lt). rewrite (cmp_antisym zero_key k). pose proof (zero_key_le k) as Hz. by destruct (cmp zero_key k). }
  change (seek (cmp k) Left (cursor_new m)) with (seek_forward (cmp k) Left (cursor_new m)).
  rewrite E. cbn [mbind option_bind].
  rewrite (iterate_ok TREE_BASE (count_step visible id) _ 0%N c d' r Hc Hd).
  - pose proof Hs as Hs'. rewrite Hi in Hs'. apply ksorted_app in Hs' as (_ & Hsr & _).
    rewrite fold_until_max by done. by rewrite Hi, max_count_before, N.max_0_l by done.
  - unfold iterate_fuel. rewrite Ht. simpl. rewrite Hi, length_app. lia.
Qed.

Lemma max_count_le visible id l n :
  (max_count visible id l ≤ n)%N ↔
    ∀ e, e ∈ l → edit_id (entry_key e) = id → visible e = true → (undo_count e ≤ n)%N.
Proof.
  unfold max_count. induction l as [|e l IH].
  { simpl. split; [by intros _ e ?%elem_of_nil|lia]. }
  rewrite filter_cons. destruct (decide _) as [[Hid Hv]|Hno].
  - rewrite fmap_cons. cbn [foldr]. rewrite N.max_lub_iff, IH. split.
    + intros [He Hl] e' [->|He']%elem_of_cons; auto.
    + intros Hl. split; [apply Hl; [by left|done..]|]. intros e' He'. apply Hl. by right.
  - rewrite IH. split.
    + intros Hl e' [->|He']%elem_of_cons ??; [naive_solver|by apply Hl].
    + intros Hl e' He'. apply Hl. by right.
Qed.

Lemma elem_of_undo_edits x undo :
  Insert x ∈ undo_edits undo ↔
    undo_id (entry_key x) = timestamp undo ∧ counts undo !! edit_id (entry_key x) = Some (undo_count x).
Proof.
  unfold undo_edits. rewrite list_elem_of_fmap. split.
  - intros ([e c] & [= ->] & Hc%elem_of_map_to_list). done.
  - intros [Hu Hc]. exists (edit_id (entry_key x), undo_count x). rewrite elem_of_map_to_list. split; [|done].
    destruct x as [[e u] c]. simpl in *. by rewrite Hu.
Qed.

Lemma undo_edit_key e undo : e ∈ undo_edits undo →
  undo_id (edit_key e) = timestamp undo ∧ is_Some (counts undo !! edit_id (edit_key e)).
Proof.
  unfold undo_edits. intros ([id c] & -> & Hc%elem_of_map_to_list)%list_elem_of_fmap. simpl. eauto.
Qed.

Lemma undo_edits_nodup undo : NoDup (edit_key <$> undo_edits undo).
Proof.
  unfold undo_edits. rewrite <- list_fmap_compose.
  assert ((edit_key ∘ λ ec : Lamport * N, Insert (mkUndoEntry (mkKey ec.1 (timestamp undo)) ec.2)) <$>
    map_to_list (counts undo) = (λ id, mkKey id (timestamp undo)) <$> (map_to_list (counts undo)).*1) as ->.
  { rewrite <- list_fmap_compose. by apply list_fmap_ext. }
  apply NoDup_fmap_2; [by intros ?? [=]|]. apply NoDup_fst_map_to_list.
Qed.

Lemma insert_undo_ok m undo :
  1 ≤ TREE_BASE → walkable TREE_BASE m → ksorted (items m) →
  ∃ u, insert_undo m undo = Some u ∧ wf_tree TREE_BASE u ∧ ksorted (items u) ∧
    ∀ x, x ∈ items u ↔
      (undo_id (entry_key x) = timestamp undo ∧ counts undo !! edit_id (entry_key x) = Some (undo_count x)) ∨
      (x ∈ items m ∧ ¬ (undo_id (entry_key x) = timestamp undo ∧
                        is_Some (counts undo !! edit_id (entry_key x)))).
Proof.
  intros HB Hw Hs.
  destruct (edit_ok TREE_BASE m (undo_edits undo) HB (undo_keyed m Hw Hs) (undo_edits_nodup undo)) as (u & E & Hu & Hi).
  { apply Forall_forall. intros e _. apply zero_key_le. }
  destruct (sort_edits_ok _ (undo_edits_nodup undo)) as [Hso Hp].
  exists u. unfold insert_undo. rewrite E, Hi. split_and!; [done|done|by apply lmerge_sorted|].
  intros x. rewrite elem_of_lmerge, Hp, elem_of_undo_edits by done. f_equiv. f_equiv. split.
  - intros Hn [Hu' [c Hc]].
    apply (Hn (Insert (mkUndoEntry (entry_key x) c))).
    + rewrite Hp. by apply elem_of_undo_edits.
    + done.
  - intros Hn e He Heq. rewrite Hp in He. apply undo_edit_key in He. rewrite Heq in He. by apply Hn.
Qed.

(** ** Properties *)

(** an edit is undone exactly when the largest undo count recorded for it
    is odd; at a version, when the largest count among the undo operations that
    version has observed is.  The queries never panic. *)
Theorem undone_is_parity m id version :
  walkable TREE_BASE m → ksorted (items m) →
  is_undone m id = Some (N.odd (max_count (λ _, true) id (items m))) ∧
  was_undone m id version =
    Some (N.odd (max_count (λ e, observed version (undo_id (entry_key e))) id (items m))).
Proof.
  intros Hw Hs. unfold is_undone, was_undone, map_undo_count. rewrite !query_ok by done.
  cbn [mbind option_bind].
  by rewrite !mod2_odd.
Qed.

(** Recording an undo operation with a new timestamp raises the count of
    every edit it names to the operation's count if that is larger, and leaves
    the other edits alone; for a query at a version the operation only counts
    once it is observed. *)
Theorem insert_undo_raises m undo visible id :
  1 ≤ TREE_BASE → walkable TREE_BASE m → ksorted (items m) →
  (∀ e, e ∈ items m → undo_id (entry_key e) ≠ timestamp undo) →
  ∃ u, insert_undo m undo = Some u ∧ wf_tree TREE_BASE u ∧ ksorted (items u) ∧
    max_count (λ e, visible (undo_id (entry_key e))) id (items u) =
      N.max (if visible (timestamp undo) : bool then default 0%N (counts undo !! id) else 0%N)
            (max_count (λ e, visible (undo_id (entry_key e))) id (items m)).
Proof.
  intros HB Hw Hs Hfresh. destruct (insert_undo_ok m undo HB Hw Hs) as (u & E & Hu & Hsu & Hin).
  exists u. split_and!; [done..|].
  set (vis := λ e, visible (undo_id (entry_key e))).
  assert (∀ l e, e ∈ l → edit_id (entry_key e) = id → vis e = true → (undo_count e ≤ max_count vis id l)%N) as Hge.
  { intros l. apply max_count_le. apply N.le_refl. }
  apply N.le_antisymm.
  - apply max_count_le. intros e [[Hid Hc]|[He _]]%Hin Heid Hv.
    + unfold vis in Hv. rewrite Heid in Hc. rewrite Hid in Hv. rewrite Hv, Hc. simpl. lia.
    + specialize (Hge (items m) e He Heid Hv). lia.
  - apply N.max_lub.
    + destruct (visible (timestamp undo)) eqn:Hv; [|lia].
      destruct (counts undo !! id) as [c|] eqn:Hc; simpl; [|lia].
      apply (Hge _ (mkUndoEntry (mkKey id (timestamp undo)) c)); [|done|done]. apply Hin. by left.
    + apply max_count_le. intros e He Heid Hv. apply Hge; [|done|done].
      apply Hin. right. split; [done|]. intros [Ht _]. by apply (Hfresh e).
Qed.

(** undo operations with different timestamps commute: inserting them in
    either order leaves the same entries in the map, so replicas that receive
    them in different orders agree. *)
Theorem insert_undo_commutes m o1 o2 m1 m2 :
  1 ≤ TREE_BASE → walkable TREE_BASE m → ksorted (items m) → timestamp o1 ≠ timestamp o2 →
  insert_undo m o1 = Some m1 → insert_undo m o2 = Some m2 →
  walkable TREE_BASE m1 → walkable TREE_BASE m2 →
  ∃ m12 m21, insert_undo m1 o2 = Some m12 ∧ insert_undo m2 o1 = Some m21 ∧ items m12 = items m21.
Proof.
  intros HB Hw Hs Hne E1 E2 Hw1 Hw2.
  destruct (insert_undo_ok m o1 HB Hw Hs) as (u1 & E1' & _ & Hs1 & Hin1).
  destruct (insert_undo_ok m o2 HB Hw Hs) as (u2 & E2' & _ & Hs2 & Hin2). simplify_eq.
  destruct (insert_undo_ok m1 o2 HB Hw1 Hs1) as (m12 & E12 & _ & Hs12 & Hin12).
  destruct (insert_undo_ok m2 o1 HB Hw2 Hs2) as (m21 & E21 & _ & Hs21 & Hin21).
  exists m12, m21. split_and!; [done..|]. apply ksorted_ext; [done..|].
  intros x. rewrite Hin12, Hin21, Hin1, Hin2.
  destruct (decide (undo_id (entry_key x) = timestamp o1)), (decide (undo_id (entry_key x) = timestamp o2));
    [congruence|tauto..].
Qed.

End undo_map.

(** ** Witnesses *)

Module UndoMapExamples.
Definition l (v r : N) : Lamport := mkLamport v r.
Definition m1 : Node UndoMapEntry UndoMapKey :=
  mk_leaf [mkUndoEntry (mkKey (l 1 0) (l 5 0)) 1; mkUndoEntry (mkKey (l 2 0) (l 5 0)) 1;
           mkUndoEntry (mkKey (l 2 0) (l 6 0)) 2].

Lemma m1_walkable : walkable 6 m1.
Proof.
  right. exists 0. split; [unfold STACK_CAPACITY; lia|].
  apply (wf_leaf 6 [mkUndoEntry (mkKey (l 1 0) (l 5 0)) 1; mkUndoEntry (mkKey (l 2 0) (l 5 0)) 1;
           mkUndoEntry (mkKey (l 2 0) (l 6 0)) 2]); [done|simpl; unfold capacity; lia].
Defined.
Lemma m1_sorted : ksorted (items m1).
Proof. repeat constructor. Defined.

Definition o1 : UndoOperation := mkUndoOperation (l 7 1) new_global {[l 1 0 := 2%N]}.
Definition o2 : UndoOperation := mkUndoOperation (l 7 2) new_global {[l 1 0 := 3%N; l 4 0 := 1%N]}.

Example undone_is_parity_witness :
  is_undone m1 (l 2 0) = Some (N.odd (max_count (λ _, true) (l 2 0) (items m1))) ∧
  was_undone m1 (l 2 0) (mkGlobal [5%N]) =
    Some (N.odd (max_count (λ e, observed (mkGlobal [5%N]) (undo_id (entry_key e))) (l 2 0) (items m1))).
Proof. apply (undone_is_parity 6 m1); [apply m1_walkable|apply m1_sorted]. Defined.

Example insert_undo_raises_witness :
  ∃ u, insert_undo 6 m1 o1 = Some u ∧ wf_tree 6 u ∧ ksorted (items u) ∧
    max_count (λ e, (λ _, true) (undo_id (entry_key e))) (l 1 0) (items u) =
      N.max (default 0%N (counts o1 !! l 1 0))
            (max_count (λ e, (λ _, true) (undo_id (entry_key e))) (l 1 0) (items m1)).
Proof.
  apply (insert_undo_raises 6 m1 o1 (λ _, true) (l 1 0)); [lia|apply m1_walkable|apply m1_sorted|].
  apply (Forall_forall (λ e, undo_id (entry_key e) ≠ timestamp o1)). by apply (bool_decide_unpack _).
Defined.

(** The maps after one operation are still leaves. *)
Definition leaf_of (entries : list UndoMapEntry) : Node UndoMapEntry UndoMapKey := mk_leaf entries.
Lemma leaf_walkable entries : entries ≠ [] → length entries ≤ 12 → walkable 6 (mk_leaf entries).
Proof. intros ??. right. exists 0. split; [unfold STACK_CAPACITY; lia|by apply wf_leaf]. Defined.

Definition m1o1 := default new (insert_undo 6 m1 o1).
Definition m1o2 := default new (insert_undo 6 m1 o2).

Example insert_undo_commutes_witness :
  ∃ m12 m21, insert_undo 6 m1o1 o2 = Some m12 ∧ insert_undo 6 m1o2 o1 = Some m21 ∧ items m12 = items m21.
Proof.
  apply (insert_undo_commutes 6 m1 o1 o2 m1o1 m1o2);
    [lia|apply m1_walkable|apply m1_sorted|done|by vm_compute|by vm_compute| |].
  - assert (m1o1 = mk_leaf (items m1o1)) as -> by by vm_compute.
    apply leaf_walkable; [by vm_compute|]. apply (bool_decide_unpack _). by vm_compute.
  - assert (m1o2 = mk_leaf (items m1o2)) as -> by by vm_compute.
    apply leaf_walkable; [by vm_compute|]. apply (bool_decide_unpack _). by vm_compute.
Defined.
End UndoMapExamples.
