(* ===== verification/OperationQueue.v ===== *)
(** * The queue of deferred operations ([crates/text/src/operation_queue.rs])

    A keyed tree of operations ordered by Lamport timestamp; the summary keeps
    the last timestamp and the number of operations. *)

From S2P Require Import Prelude Clock SumTree Cursor Search KeyedTree.
Local Open Scope ord_scope.

(** [trait Operation] *)
Class Operation (T : Type) := { lamport_timestamp : T → Lamport }.

Record OperationSummary := mkOperationSummary { summary_key : Lamport; summary_len : nat }.

(** [add_summary] asserts [self.key < other.key] before it takes the other key
    and adds the lengths; [add_asserts] is the assertion. *)
Definition add_asserts (self other : OperationSummary) : bool := ltb (summary_key self) (summary_key other).

#[export, refine] Instance OperationSummary_Summary : Summary OperationSummary := {|
  zero := mkOperationSummary LAMPORT_MIN 0;
  add self other := mkOperationSummary (summary_key other) (summary_len self + summary_len other) |}.
Proof.
  - by intros [??].
  - intros [??] [??] [??]. simpl. f_equal. lia.
Defined.
#[export, refine] Instance OperationKey_Dimension : Dimension Lamport OperationSummary :=
  {| dzero := LAMPORT_MIN; dadd _ s := summary_key s |}.
Proof. all: done. Defined.

Section queue.
Context {T : Type} `{HOp : !Operation T}.
Context (TREE_BASE : nat).

#[export] Instance OperationItem_Item : Item T OperationSummary :=
  {| summary op := mkOperationSummary (lamport_timestamp op) 1 |}.
#[export, refine] Instance OperationItem_KeyedItem : KeyedItem T Lamport := {| key := lamport_timestamp |}.
Proof. done. Defined.

Abbreviation OperationQueue := (Node T OperationSummary).
Implicit Types q : OperationQueue.

Definition new_queue : OperationQueue := new.
Definition len q : nat := summary_len (node_summary q).
Definition queue_is_empty q : bool := len q =? 0.

Definition op_le (a b : T) : Prop := lamport_timestamp a ≼ lamport_timestamp b.
#[local] Instance op_le_dec : RelDecision op_le.
Proof. intros a b. unfold op_le. apply _. Defined.

(** [dedup_by_key]: drop an element whose key equals that of the last one
    kept. *)
Fixpoint dedup_from (last : Lamport) (l : list T) : list T :=
  match l with
  | [] => []
  | x :: l =>
      match cmp (lamport_timestamp x) last with
      | Eq => dedup_from last l
      | _ => x :: dedup_from (lamport_timestamp x) l
      end
  end.
Definition dedup (l : list T) : list T :=
  match l with [] => [] | x :: l => x :: dedup_from (lamport_timestamp x) l end.

Definition insert_ops q (ops : list T) : option OperationQueue :=
  '(_, q) ← edit (HK:=OperationItem_KeyedItem) TREE_BASE q (Insert <$> dedup (merge_sort op_le ops)); Some q.

(** [drain]: the operations, and the emptied queue. *)
Definition drain q : OperationQueue * OperationQueue := (q, new).

Definition iter_ops q : list T := items q.

(** ** Lemmas *)

#[local] Instance op_le_trans : Transitive op_le.
Proof. intros a b c. apply cmp_le_trans. Qed.
#[local] Instance op_le_total : Total op_le.
Proof.
  intros a b. unfold op_le. rewrite (cmp_antisym (lamport_timestamp a) (lamport_timestamp b)).
  destruct (cmp (lamport_timestamp a) _); auto.
Qed.

Lemma dedup_from_ok k l :
  StronglySorted op_le l → Forall (λ x, k ≼ lamport_timestamp x) l →
  ksorted (HK:=OperationItem_KeyedItem) (dedup_from k l) ∧ Forall (λ x, k ≺ lamport_timestamp x) (dedup_from k l) ∧
  (∀ x, x ∈ dedup_from k l → x ∈ l) ∧
  (∀ x, x ∈ l → lamport_timestamp x = k ∨ ∃ y, y ∈ dedup_from k l ∧ lamport_timestamp y = lamport_timestamp x).
Proof.
  intros Hs. revert k. induction Hs as [|x l Hs IH Hx]; intros k Hk; cbn [dedup_from].
  { split_and!; [constructor|constructor|done|]. by intros x ?%elem_of_nil. }
  apply Forall_cons in Hk as [Hkx Hk]. destruct (cmp (lamport_timestamp x) k) eqn:E.
  - apply cmp_eq_iff in E. destruct (IH k Hk) as (? & ? & Hsub & Hall). split_and!; [done|done| |].
    + intros y Hy. right. by apply Hsub.
    + intros y [->|Hy]%elem_of_cons; [by left|by apply Hall].
  - exfalso. by apply cmp_not_lt_le in Hkx.
  - assert (k ≺ lamport_timestamp x) as Hlt by by apply cmp_gt_lt.
    destruct (IH (lamport_timestamp x) Hx) as (Hs' & Hgt & Hsub & Hall). split_and!.
    + constructor; [done|]. exact Hgt.
    + constructor; [done|]. eapply Forall_impl; [exact Hgt|]. intros y. by apply cmp_lt_trans.
    + intros y [->|Hy]%elem_of_cons; [by left|right; by apply Hsub].
    + intros y [->|Hy]%elem_of_cons; right; [exists x; split; [by left|done]|].
      destruct (Hall y Hy) as [->|(z & Hz & ?)]; [exists x; split; [by left|done]|].
      exists z. split; [by right|done].
Qed.

Lemma dedup_ok l :
  StronglySorted op_le l →
  ksorted (HK:=OperationItem_KeyedItem) (dedup l) ∧ (∀ x, x ∈ dedup l → x ∈ l) ∧
  (∀ x, x ∈ l → ∃ y, y ∈ dedup l ∧ lamport_timestamp y = lamport_timestamp x).
Proof.
  intros Hs. destruct Hs as [|x l Hs Hx]; cbn [dedup].
  { split_and!; [constructor|done|by intros x ?%elem_of_nil]. }
  destruct (dedup_from_ok (lamport_timestamp x) l Hs Hx) as (Hs' & Hgt & Hsub & Hall). split_and!.
  - by constructor.
  - intros y [->|Hy]%elem_of_cons; [by left|right; by apply Hsub].
  - intros y [->|Hy]%elem_of_cons; [exists x; split; [by left|done]|].
    destruct (Hall y Hy) as [->|(z & Hz & ?)]; [exists x; split; [by left|done]|].
    exists z. split; [by right|done].
Qed.

Lemma queue_below (l : list T) : below (HK:=OperationItem_KeyedItem) LAMPORT_MIN l.
Proof. apply Forall_forall. intros x _. simpl. destruct (lamport_timestamp x) as [[|v] [|r]]; done. Qed.

Lemma insert_keys_nodup (l : list T) :
  ksorted (HK:=OperationItem_KeyedItem) l → NoDup (edit_key (HK:=OperationItem_KeyedItem) <$> (Insert <$> l)).
Proof.
  rewrite <- list_fmap_compose. induction 1 as [|x l Hs IH Hx]; [constructor|].
  rewrite fmap_cons. constructor; [|done]. intros (y & Heq & Hy)%list_elem_of_fmap.
  rewrite Forall_forall in Hx. apply Hx in Hy. unfold key_lt in Hy. simpl in Heq.
  change (lamport_timestamp x ≺ lamport_timestamp y) in Hy. rewrite Heq in Hy. by apply cmp_lt_irrefl in Hy.
Qed.

Lemma sum_len (l : list T) : summary_len (sum (summary <$> l)) = length l.
Proof.
  assert (∀ s : OperationSummary, summary_len (foldl add s (summary <$> l)) = summary_len s + length l) as H.
  { induction l as [|x l IH]; intros s; simpl; [lia|]. rewrite IH. simpl. lia. }
  apply H.
Qed.

Lemma sum_key_last (l : list T) x : last l = Some x → summary_key (sum (summary <$> l)) = lamport_timestamp x.
Proof. intros [k ->]%last_Some. by rewrite fmap_app, sum_app_add. Qed.

(** Inserting a batch. *)
Lemma queue_insert_ok q ops :
  1 ≤ TREE_BASE → walkable TREE_BASE q → ksorted (HK:=OperationItem_KeyedItem) (items q) →
  (∀ a b, a ∈ ops → b ∈ ops → lamport_timestamp a = lamport_timestamp b → a = b) →
  ∃ q', insert_ops q ops = Some q' ∧ wf_tree TREE_BASE q' ∧
    ksorted (HK:=OperationItem_KeyedItem) (items q') ∧
    (∀ x, x ∈ items q' ↔
       x ∈ ops ∨ (x ∈ items q ∧ ∀ op, op ∈ ops → lamport_timestamp op ≠ lamport_timestamp x)) ∧
    len q' = length (iter_ops q').
Proof.
  intros HB Hw Hs Hinj. unfold insert_ops.
  set (l := merge_sort op_le ops). assert (l ≡ₚ ops) as Hp by apply merge_sort_Permutation.
  destruct (dedup_ok l (StronglySorted_merge_sort op_le ops)) as (Hsd & Hsub & Hall).
  pose proof (insert_keys_nodup _ Hsd) as Hnd.
  destruct (edit_ok (HK:=OperationItem_KeyedItem) TREE_BASE q (Insert <$> dedup l) HB) as (q' & E & Hq' & Hi).
  { split_and!; [done|done|apply queue_below]. }
  { done. }
  { apply Forall_forall. intros e (x & -> & _)%list_elem_of_fmap.
    pose proof (queue_below [x]) as Hb. by apply Forall_cons in Hb as [? _]. }
  destruct (sort_edits_ok (HK:=OperationItem_KeyedItem) _ Hnd) as [Hso Hps].
  exists q'. rewrite E. split_and!; [done|done|rewrite Hi; by apply lmerge_sorted| |].
  - intros x. rewrite Hi, elem_of_lmerge by done. rewrite Hps.
    assert (x ∈ dedup l ↔ x ∈ ops) as Hx.
    { split; [intros Hx; rewrite <- Hp; by apply Hsub|]. intros Hx.
      destruct (Hall x) as (y & Hy & Heq); [by rewrite Hp|].
      assert (x = y) as ->; [|done]. apply Hinj; [done|rewrite <- Hp; by apply Hsub|by symmetry]. }
    assert (Insert x ∈ (Insert <$> dedup l : list (Edit T Lamport)) ↔ x ∈ ops) as ->.
    { rewrite list_elem_of_fmap, <- Hx. split; [by intros (y & [= ->] & ?)|eauto]. }
    f_equiv. f_equiv. split.
    + intros Hn op Hop. destruct (Hall op) as (y & Hy & <-); [by rewrite Hp|].
      apply (Hn (Insert y)). rewrite Hps. by apply list_elem_of_fmap_2.
    + intros Hn e He. rewrite Hps in He. apply list_elem_of_fmap in He as (y & -> & Hy). simpl.
      apply Hn. rewrite <- Hp. by apply Hsub.
  - unfold len, iter_ops. rewrite (wf_tree_summary TREE_BASE q' Hq'). apply sum_len.
Qed.

(** ** Properties *)

(** inserting a batch of operations (in any order, repetitions allowed, a
    timestamp naming one operation) keeps the queue sorted by timestamp without
    duplicates; it then holds exactly the new operations and the old ones with
    other timestamps, and [len] counts them. *)
Theorem queue_insert q ops :
  1 ≤ TREE_BASE → walkable TREE_BASE q → ksorted (HK:=OperationItem_KeyedItem) (items q) →
  (∀ a b, a ∈ ops → b ∈ ops → lamport_timestamp a = lamport_timestamp b → a = b) →
  ∃ q', insert_ops q ops = Some q' ∧ wf_tree TREE_BASE q' ∧
    ksorted (HK:=OperationItem_KeyedItem) (items q') ∧
    (∀ x, x ∈ items q' ↔
       x ∈ ops ∨ (x ∈ items q ∧ ∀ op, op ∈ ops → lamport_timestamp op ≠ lamport_timestamp x)) ∧
    len q' = length (iter_ops q').
Proof. apply queue_insert_ok. Qed.

(** the assertion of [OperationSummary::add_summary] never fires on a queue
    sorted by timestamp whose timestamps come after [Lamport::MIN]: neither for
    the empty summary and a first run of operations, nor for two adjacent
    runs. *)
Theorem queue_assertions_hold (l k : list T) :
  ksorted (HK:=OperationItem_KeyedItem) (l ++ k) → k ≠ [] →
  Forall (λ op, LAMPORT_MIN ≺ lamport_timestamp op) (l ++ k) →
  add_asserts (sum (summary <$> l)) (sum (summary <$> k)) = true.
Proof.
  intros Hs Hk Hpos. unfold add_asserts. apply ltb_lt.
  destruct (last k) as [y|] eqn:Ek; [|by apply last_None in Ek].
  rewrite (sum_key_last k y Ek). apply last_Some in Ek as [k' ->].
  destruct (last l) as [x|] eqn:El.
  - rewrite (sum_key_last l x El). apply last_Some in El as [l' ->].
    apply ksorted_app in Hs as (_ & _ & Hlt). apply Hlt; apply elem_of_app; right; by left.
  - apply last_None in El as ->. apply (proj1 (Forall_forall _ _) Hpos).
    apply elem_of_app. right. apply elem_of_app. right. by left.
Qed.

End queue.

(** ** Witnesses *)

Module QueueExamples.
#[export] Instance Lamport_Operation : Operation Lamport := {| lamport_timestamp t := t |}.
Definition q0 : Node Lamport OperationSummary := new.
Definition ops : list Lamport := [mkLamport 3 1; mkLamport 1 2; mkLamport 3 1].

Example queue_insert_witness :
  ∃ q', insert_ops 6 q0 ops = Some q' ∧ wf_tree 6 q' ∧
    ksorted (HK:=OperationItem_KeyedItem) (items q') ∧
    (∀ x, x ∈ items q' ↔
       x ∈ ops ∨ (x ∈ items q0 ∧ ∀ op, op ∈ ops → lamport_timestamp op ≠ lamport_timestamp x)) ∧
    len q' = length (iter_ops q').
Proof. apply (queue_insert 6 q0 ops); [lia|by left|constructor|done]. Defined.

Example queue_assertions_hold_witness :
  add_asserts (sum (summary <$> [mkLamport 1 2])) (sum (summary <$> [mkLamport 3 1])) = true.
Proof.
  apply (queue_assertions_hold [mkLamport 1 2] [mkLamport 3 1]); [by repeat constructor|done|by repeat constructor].
Defined.
End QueueExamples.
