(* ===== verification/Text.v ===== *)
(** * Text: bytes, line endings and indentation (parts of [crates/text/src/text.rs])

    A [str], [String] or [Rope] is the list of its UTF-8 bytes; a rope's chunks
    are a list of such lists. *)

From S2P Require Import Prelude.
From Stdlib Require Export Strings.Byte.

Abbreviation Text := (list byte).

#[export] Instance byte_eq_decision : EqDecision byte := Byte.byte_eq_dec.

Definition LF : byte := x0a.
Definition CR : byte := x0d.

(** ** Char boundaries *)

(** A byte that does not continue a UTF-8 sequence, [(b as i8) >= -0x40]. *)
Definition is_utf8_char_boundary (b : byte) : bool :=
  let n := Byte.to_N b in ((n <? 128) || (192 <=? n))%N.

(** [str::is_char_boundary]. *)
Definition is_char_boundary (t : Text) (i : nat) : bool :=
  if i =? 0 then true
  else match t !! i with
       | Some b => is_utf8_char_boundary b
       | None => i =? length t
       end.

(** The loop that steps back to a boundary, of [floor_char_boundary] and of
    [LineEnding::detect]. *)
Fixpoint step_back (t : Text) (i : nat) : nat :=
  if is_char_boundary t i then i else match i with O => O | S i => step_back t i end.

Definition floor_char_boundary (t : Text) (i : nat) : nat :=
  if length t <=? i then length t else step_back t i.

Lemma boundary_length t : is_char_boundary t (length t) = true.
Proof. unfold is_char_boundary. destruct (length t =? 0); [done|]. rewrite lookup_ge_None_2 by lia. apply Nat.eqb_refl. Qed.

Lemma boundary_le t i : is_char_boundary t i = true → i ≤ length t.
Proof.
  unfold is_char_boundary. destruct (Nat.eqb_spec i 0); [lia|]. destruct (t !! i) as [b|] eqn:E; [apply lookup_lt_Some in E; lia|].
  intros ->%Nat.eqb_eq. lia.
Qed.

Lemma step_back_le t i : step_back t i ≤ i.
Proof. induction i as [|i IH]; cbn [step_back]; destruct (is_char_boundary _ _); lia. Qed.
Lemma floor_le t i : floor_char_boundary t i ≤ length t.
Proof. unfold floor_char_boundary. destruct (Nat.leb_spec (length t) i); [done|]. pose proof (step_back_le t i). lia. Qed.
Lemma step_back_mono t i j : i ≤ j → step_back t i ≤ step_back t j.
Proof.
  induction j as [|j IH]; intros Hij; [by replace i with 0 by lia|]. destruct (decide (i = S j)) as [->|]; [done|].
  cbn [step_back]. destruct (is_char_boundary t (S j)); [pose proof (step_back_le t i); lia|]. apply IH. lia.
Qed.
(** Rounding down keeps the order. *)
Lemma floor_mono t i j : i ≤ j → floor_char_boundary t i ≤ floor_char_boundary t j.
Proof.
  intros Hij. unfold floor_char_boundary. pose proof (step_back_le t i). pose proof (step_back_mono t i j Hij).
  destruct (Nat.leb_spec (length t) i), (Nat.leb_spec (length t) j); lia.
Qed.
Lemma floor_boundary t i : is_char_boundary t (floor_char_boundary t i) = true.
Proof.
  unfold floor_char_boundary. destruct (length t <=? i); [apply boundary_length|].
  induction i as [|i IH]; cbn [step_back]; [by destruct (is_char_boundary t 0) eqn:E|]. by destruct (is_char_boundary t (S i)) eqn:E.
Qed.
Lemma boundary_floor t n : is_char_boundary t n = true → floor_char_boundary t n = n.
Proof.
  intros H. pose proof (boundary_le t n H). unfold floor_char_boundary. destruct (Nat.leb_spec (length t) n); [lia|].
  by destruct n; cbn [step_back]; rewrite H.
Qed.

(** ** Line endings *)

Inductive LineEnding := Unix | Windows.
#[export] Instance LineEnding_eq_dec : EqDecision LineEnding.
Proof. solve_decision. Defined.

(** [LineEnding::default] on Unix. *)
Definition default_line_ending : LineEnding := Unix.

Definition as_str (e : LineEnding) : Text := match e with Unix => [LF] | Windows => [CR; LF] end.

Definition detect (t : Text) : LineEnding :=
  let max_ix := step_back t (Nat.min (length t) 1000) in
  match position (λ b, bool_decide (b = LF)) (take max_ix t) with
  | Some ix => if bool_decide (0 < ix ∧ t !! (ix - 1) = Some CR) then Windows else Unix
  | None => default_line_ending
  end.

(** [replace_all] of [\r\n|\r] by [\n]; [normalize], [normalize_arc] and
    [normalize_cow] differ only in how the string is held. *)
Fixpoint normalize (t : Text) : Text :=
  match t with
  | [] => []
  | c :: rest =>
      if bool_decide (c = CR) then
        match rest with
        | d :: rest' => if bool_decide (d = LF) then LF :: normalize rest' else LF :: normalize rest
        | [] => [LF]
        end
      else c :: normalize rest
  end.

(** [str::lines]: the pieces ended by a newline, without it and without one
    carriage return before it. *)
Definition strip_cr (l : Text) : Text :=
  match last l with
  | Some c => if bool_decide (c = CR) then take (length l - 1) l else l
  | None => l
  end.
Fixpoint lines_from (cur t : Text) : list Text :=
  match t with
  | [] => match cur with [] => [] | _ => [cur] end
  | c :: t => if bool_decide (c = LF) then strip_cr cur :: lines_from [] t else lines_from (cur ++ [c]) t
  end.
Definition lines (t : Text) : list Text := lines_from [] t.

(** The pieces one chunk of the rope is turned into. *)
Definition chunk_with_line_ending (e : LineEnding) (chunk : Text) : list Text :=
  let end_with_newline := match last chunk with
                          | Some c => if bool_decide (c = LF) then [as_str e] else []
                          | None => []
                          end in
  (match lines chunk with
   | [] => []
   | l :: ls => l :: concat ((λ line, [as_str e; line]) <$> ls)
   end) ++ end_with_newline.

Definition chunks_with_line_ending (chunks : list Text) (e : LineEnding) : list Text :=
  concat (chunk_with_line_ending e <$> chunks).

(** ** Indentation *)

Abbreviation Char := N.
Definition char_tab : Char := 9.
Definition char_space : Char := 32.
Definition char_newline : Char := 10.

Record LineIndent := mkLineIndent { li_tabs : N; li_spaces : N; line_blank : bool }.

(** The loop over the characters of a line, shared by [from_iter] and
    [from_chunks]; the flag tells that it ran into the end of its input. *)
Fixpoint indent_loop (li : LineIndent) (chars : list Char) : LineIndent * bool :=
  match chars with
  | [] => (li, true)
  | c :: rest =>
      if (c =? char_tab)%N then indent_loop (mkLineIndent (wrap_u32 (li_tabs li + 1)) (li_spaces li) (line_blank li)) rest
      else if (c =? char_space)%N then indent_loop (mkLineIndent (li_tabs li) (wrap_u32 (li_spaces li + 1)) (line_blank li)) rest
      else (mkLineIndent (li_tabs li) (li_spaces li) (if (c =? char_newline)%N then line_blank li else false), false)
  end.

Definition indent_from_iter (chars : list Char) : LineIndent := (indent_loop (mkLineIndent 0 0 true) chars).1.

(** [from_chunks]: the outer loop over the rope's chunks, and what it leaves
    of them. *)
Fixpoint from_chunks_loop (li : LineIndent) (chunks : list (list Char)) : LineIndent * list (list Char) :=
  match chunks with
  | [] => (li, [])
  | chunk :: rest =>
      let '(li, exhausted) := indent_loop li chunk in
      if exhausted : bool then from_chunks_loop li rest else (li, chunk :: rest)
  end.
Definition from_chunks (chunks : list (list Char)) : LineIndent * list (list Char) :=
  from_chunks_loop (mkLineIndent 0 0 true) chunks.

Definition spaces (n : N) : LineIndent := mkLineIndent 0 n true.
Definition tabs (n : N) : LineIndent := mkLineIndent n 0 true.
Definition is_line_empty (li : LineIndent) : bool :=
  (li_tabs li =? 0)%N && (li_spaces li =? 0)%N && line_blank li.
Definition is_line_blank (li : LineIndent) : bool := line_blank li.
Definition raw_len (li : LineIndent) : N := wrap_u32 (li_tabs li + li_spaces li).
Definition indent_len (li : LineIndent) (tab_size : N) : N :=
  wrap_u32 (wrap_u32 (li_tabs li * tab_size) + li_spaces li).

(** ** Lemmas *)

(** What rendering with a line ending should do: replace every newline. *)
Definition render (e : LineEnding) (t : Text) : Text :=
  concat ((λ c, if bool_decide (c = LF) then as_str e else [c]) <$> t).

Lemma render_app e t u : render e (t ++ u) = render e t ++ render e u.
Proof. unfold render. by rewrite fmap_app, concat_app. Qed.

Lemma render_cons e c t : render e (c :: t) = (if bool_decide (c = LF) then as_str e else [c]) ++ render e t.
Proof. done. Qed.

Lemma render_no_lf e t : LF ∉ t → render e t = t.
Proof.
  induction t as [|c t IH]; [done|]. intros [Hc Ht]%not_elem_of_cons.
  rewrite render_cons, bool_decide_eq_false_2 by congruence. simpl. by rewrite IH.
Qed.

Lemma normalize_cr_free t : CR ∉ normalize t.
Proof.
  remember (length t) as n eqn:Hn. revert t Hn.
  induction (lt_wf n) as [n _ IH]. intros [|c t] ->; [by apply not_elem_of_nil|]. cbn [normalize].
  destruct (bool_decide_reflect (c = CR)) as [->|Hc].
  - destruct t as [|d t]; [by apply not_elem_of_cons; split; [|apply not_elem_of_nil]|].
    case_bool_decide; apply not_elem_of_cons; (split; [done|]).
    + eapply (IH (length t)); [simpl; lia|done].
    + eapply (IH (length (d :: t))); [simpl; lia|done].
  - apply not_elem_of_cons. split; [congruence|]. eapply (IH (length t)); [simpl; lia|done].
Qed.

Lemma normalize_id t : CR ∉ t → normalize t = t.
Proof.
  induction t as [|c t IH]; [done|]. intros [Hc Ht]%not_elem_of_cons. cbn [normalize].
  rewrite bool_decide_eq_false_2 by congruence. by rewrite IH.
Qed.

Lemma normalize_render e t : CR ∉ t → normalize (render e t) = t.
Proof.
  induction t as [|c t IH]; [done|]. intros [Hc Ht]%not_elem_of_cons. rewrite render_cons.
  case_bool_decide as Hl; [subst c; destruct e; simpl; by rewrite IH|].
  cbn [app normalize]. rewrite bool_decide_eq_false_2 by congruence. by rewrite IH.
Qed.

Lemma strip_cr_id l : CR ∉ l → strip_cr l = l.
Proof.
  intros Hl. unfold strip_cr. destruct (last l) as [c|] eqn:E; [|done].
  apply last_Some in E as [k ->]. rewrite bool_decide_eq_false_2; [done|]. intros ->.
  apply Hl, elem_of_app. right. by apply list_elem_of_singleton.
Qed.

Lemma lines_from_cons cur c t : ∃ l ls, lines_from cur (c :: t) = l :: ls.
Proof.
  revert cur c. induction t as [|d t IH]; intros cur c.
  - cbn [lines_from]. case_bool_decide; [eauto|]. destruct cur; simpl; eauto.
  - cbn [lines_from]. case_bool_decide; [eauto|]. apply (IH _ d).
Qed.

(** The lines put together with an ending between them. *)
Definition join_lines (e : LineEnding) (ls : list Text) : Text :=
  match ls with [] => [] | l :: ls => l ++ concat ((λ line, as_str e ++ line) <$> ls) end.
Definition end_of (e : LineEnding) (t : Text) : Text :=
  match last t with Some c => if bool_decide (c = LF) then as_str e else [] | None => [] end.

Lemma join_lines_end e cur t :
  CR ∉ cur → CR ∉ t → LF ∉ cur → join_lines e (lines_from cur t) ++ end_of e (cur ++ t) = cur ++ render e t.
Proof.
  revert cur. induction t as [|c t IH]; intros cur Hc Ht Hl.
  { unfold end_of. rewrite app_nil_r. destruct (last cur) as [c|] eqn:E.
    - rewrite bool_decide_eq_false_2.
      + destruct cur; simpl; by rewrite ?app_nil_r.
      + intros ->. apply last_Some in E as [k ->]. apply Hl, elem_of_app. right. by apply list_elem_of_singleton.
    - by apply last_None in E as ->. }
  apply not_elem_of_cons in Ht as [Hc' Ht]. rewrite render_cons. cbn [lines_from].
  case_bool_decide as E.
  - subst c. rewrite (strip_cr_id cur Hc). destruct t as [|d t].
    { simpl. unfold end_of. rewrite last_snoc, bool_decide_eq_true_2 by done. by rewrite !app_nil_r. }
    specialize (IH [] ltac:(by apply not_elem_of_nil) Ht ltac:(by apply not_elem_of_nil)).
    destruct (lines_from_cons [] d t) as (l & ls & El). rewrite El in IH |- *. cbn [app] in IH. rewrite <- IH.
    assert (end_of e (cur ++ LF :: d :: t) = end_of e (d :: t)) as ->.
    { unfold end_of. rewrite last_app. change (last (LF :: d :: t)) with (last (d :: t)).
      destruct (last (d :: t)) eqn:El2; [done|]. by apply last_None in El2. }
    simpl. by rewrite <- !app_assoc.
  - specialize (IH (cur ++ [c])). rewrite <- !app_assoc in IH. apply IH; [|done|].
    + rewrite elem_of_app, list_elem_of_singleton. naive_solver.
    + rewrite elem_of_app, list_elem_of_singleton. naive_solver.
Qed.

Lemma chunk_rendered e chunk : CR ∉ chunk → concat (chunk_with_line_ending e chunk) = render e chunk.
Proof.
  intros Hc. pose proof (join_lines_end e [] chunk ltac:(by apply not_elem_of_nil) Hc ltac:(by apply not_elem_of_nil)) as Hj.
  cbn [app] in Hj. rewrite <- Hj. unfold chunk_with_line_ending. rewrite concat_app. f_equal.
  - unfold lines, join_lines. destruct (lines_from [] chunk) as [|l ls]; [done|]. cbn [concat]. f_equal. clear Hj.
    induction ls as [|k ls IH]; [done|]. rewrite !fmap_cons. cbn [concat app]. rewrite <- app_assoc. do 2 f_equal. exact IH.
  - unfold end_of. destruct (last chunk) as [c|]; [|done]. case_bool_decide; [|done]. simpl. by rewrite app_nil_r.
Qed.

Lemma chunks_rendered e chunks :
  CR ∉ concat chunks → concat (chunks_with_line_ending chunks e) = render e (concat chunks).
Proof.
  unfold chunks_with_line_ending. induction chunks as [|c chunks IH]; [done|].
  rewrite fmap_cons. cbn [concat]. rewrite elem_of_app. intros Hc. rewrite concat_app, render_app.
  rewrite chunk_rendered by naive_solver. f_equal. apply IH. naive_solver.
Qed.

(** Short texts are searched whole for their first newline. *)
Lemma detect_short t : length t ≤ 1000 →
  detect t = match position (λ b, bool_decide (b = LF)) t with
             | Some ix => if bool_decide (0 < ix ∧ t !! (ix - 1) = Some CR) then Windows else Unix
             | None => Unix
             end.
Proof.
  intros Hlen. unfold detect. rewrite Nat.min_l by done.
  assert (step_back t (length t) = length t) as ->; [|by rewrite firstn_all].
  assert (is_char_boundary t (length t) = true) as Hb.
  { unfold is_char_boundary. case_match; [done|]. rewrite lookup_ge_None_2 by done. apply Nat.eqb_refl. }
  revert Hb. generalize (length t). intros [|n] Hb; cbn [step_back]; by rewrite Hb.
Qed.

Lemma position_app_no (p t : Text) :
  LF ∉ p → position (λ b, bool_decide (b = LF)) (p ++ t) =
    (λ i, length p + i) <$> position (λ b, bool_decide (b = LF)) t.
Proof.
  induction p as [|c p IH]; [intros _; cbn [app length]; by destruct (position _ t)|]. intros [Hc Hp]%not_elem_of_cons.
  cbn [app position]. rewrite bool_decide_eq_false_2 by congruence. rewrite (IH Hp).
  by destruct (position _ t).
Qed.

Lemma first_lf (t : Text) : LF ∈ t → ∃ p u, t = p ++ LF :: u ∧ LF ∉ p.
Proof.
  induction t as [|c t IH]; [by intros ?%elem_of_nil|]. intros Hin.
  destruct (decide (c = LF)) as [->|Hc]; [exists [], t; split; [done|by apply not_elem_of_nil]|].
  apply elem_of_cons in Hin as [?|Hin]; [congruence|]. destruct (IH Hin) as (p & u & -> & Hp).
  exists (c :: p), u. split; [done|]. apply not_elem_of_cons. split; congruence.
Qed.

Lemma detect_render e t :
  CR ∉ t → LF ∈ t → length (render e t) ≤ 1000 → detect (render e t) = e.
Proof.
  intros Hc Hl Hlen. rewrite detect_short by done. destruct (first_lf t Hl) as (p & u & -> & Hp).
  rewrite elem_of_app in Hc.
  rewrite render_app, render_cons, (render_no_lf e p Hp), bool_decide_eq_true_2 by done.
  rewrite position_app_no by done. destruct e; cbn [as_str app position fmap option_fmap option_map].
  - rewrite bool_decide_eq_true_2 by done. cbn. rewrite bool_decide_eq_false_2; [done|].
    intros [Hpos Hcr]. rewrite Nat.add_0_r, lookup_app_l in Hcr by lia.
    apply Hc. left. by eapply list_elem_of_lookup_2.
  - rewrite bool_decide_eq_false_2, bool_decide_eq_true_2 by done. cbn. rewrite bool_decide_eq_true_2; [done|].
    split; [lia|]. replace (length p + 1 - 1) with (length p) by lia. by rewrite list_lookup_middle.
Qed.

(** ** Properties *)

(** a text without carriage returns, in whatever chunks a rope holds it,
    written with either line ending and normalised again is unchanged;
    writing replaces exactly the newlines; normalising leaves no carriage
    return and changes nothing the second time; the ending a text with a
    newline (of at most 1000 bytes) was written with is detected. *)
Theorem line_endings_roundtrip chunks e raw :
  CR ∉ concat chunks →
  let written := concat (chunks_with_line_ending chunks e) in
  normalize written = concat chunks ∧
  written = render e (concat chunks) ∧
  (LF ∈ concat chunks → length written ≤ 1000 → detect written = e) ∧
  CR ∉ normalize raw ∧ normalize (normalize raw) = normalize raw.
Proof.
  intros Hc. cbv zeta. rewrite (chunks_rendered e chunks Hc). split_and!.
  - by apply normalize_render.
  - done.
  - by apply detect_render.
  - apply normalize_cr_free.
  - apply normalize_id, normalize_cr_free.
Qed.

Lemma indent_loop_app li l k :
  indent_loop li (l ++ k) =
    let '(li', exhausted) := indent_loop li l in if exhausted : bool then indent_loop li' k else (li', false).
Proof.
  revert li. induction l as [|c l IH]; intros li; [done|]. cbn [app indent_loop].
  by destruct (c =? char_tab)%N; [|destruct (c =? char_space)%N].
Qed.

(** The characters an indentation is made of. *)
Definition is_indent (c : Char) : bool := ((c =? char_tab) || (c =? char_space))%N.
Definition count_char (c : Char) (l : list Char) : N := N.of_nat (length (List.filter (N.eqb c) l)).

Lemma count_char_cons c d l : count_char c (d :: l) = ((if (c =? d)%N then 1 else 0) + count_char c l)%N.
Proof. unfold count_char. simpl. destruct (c =? d)%N; simpl; lia. Qed.

Lemma indent_loop_ok li pre rest :
  Forall (λ c, is_indent c = true) pre →
  (li_tabs li + li_spaces li + N.of_nat (length pre) ≤ u32_max)%N →
  (match rest with c :: _ => is_indent c = false | [] => True end) →
  (indent_loop li (pre ++ rest)).1 =
    mkLineIndent (li_tabs li + count_char char_tab pre) (li_spaces li + count_char char_space pre)
      (line_blank li && match rest with c :: _ => (c =? char_newline)%N | [] => true end).
Proof.
  intros Hp. revert li. induction Hp as [|c pre Hc Hp IH]; intros li Hle Hr.
  - cbn [app]. unfold count_char. simpl. rewrite !N.add_0_r. destruct rest as [|c rest]; simpl.
    + rewrite andb_true_r. by destruct li.
    + unfold is_indent in Hr. apply orb_false_iff in Hr as [-> ->]. simpl.
      destruct (c =? char_newline)%N; simpl; by rewrite ?andb_true_r, ?andb_false_r.
  - cbn [length] in Hle. cbn [app indent_loop]. rewrite !count_char_cons. unfold is_indent in Hc.
    destruct (N.eqb_spec c char_tab) as [->|Ht].
    + rewrite wrap_u32_small by (unfold is_u32; lia). rewrite IH by (done || simpl; lia). simpl.
      f_equal; lia.
    + simpl in Hc. rewrite Hc. apply N.eqb_eq in Hc as ->.
      rewrite wrap_u32_small by (unfold is_u32; lia). rewrite IH by (done || simpl; lia). simpl.
      f_equal; lia.
Qed.

Lemma from_chunks_loop_ok li chunks : (from_chunks_loop li chunks).1 = (indent_loop li (concat chunks)).1.
Proof.
  revert li. induction chunks as [|c chunks IH]; intros li; [done|]. cbn [concat from_chunks_loop].
  rewrite indent_loop_app. by destruct (indent_loop li c) as [li' [|]].
Qed.

Lemma count_indent pre :
  Forall (λ c, is_indent c = true) pre →
  (count_char char_tab pre + count_char char_space pre = N.of_nat (length pre))%N.
Proof.
  induction 1 as [|c pre Hc Hp IH]; [done|]. rewrite !count_char_cons. cbn [length]. unfold is_indent in Hc.
  apply orb_true_iff in Hc as [->%N.eqb_eq| ->%N.eqb_eq]; simpl; lia.
Qed.

(** the indentation of a line counts the tabs and the spaces before the
    first other character, and is blank exactly when that character is a
    newline or absent; reading it from a rope's chunks gives the same result
    as reading the whole line; its length in columns is exact while it fits
    32 bits. *)
Theorem line_indent_counts pre rest chunks tab_size :
  Forall (λ c, is_indent c = true) pre →
  (match rest with c :: _ => is_indent c = false | [] => True end) →
  (N.of_nat (length pre) * N.max 1 tab_size ≤ u32_max)%N →
  concat chunks = pre ++ rest →
  let li := indent_from_iter (pre ++ rest) in
  li = mkLineIndent (count_char char_tab pre) (count_char char_space pre)
         (match rest with c :: _ => (c =? char_newline)%N | [] => true end) ∧
  (from_chunks chunks).1 = li ∧
  raw_len li = N.of_nat (length pre) ∧
  indent_len li tab_size = (count_char char_tab pre * tab_size + count_char char_space pre)%N.
Proof.
  intros Hp Hr Hle Hc. cbv zeta.
  pose proof (count_indent pre Hp) as Hcount.
  assert (N.of_nat (length pre) ≤ u32_max)%N as Hlen by nia.
  assert (indent_from_iter (pre ++ rest) = mkLineIndent (count_char char_tab pre) (count_char char_space pre)
    (match rest with c :: _ => (c =? char_newline)%N | [] => true end)) as Hli.
  { unfold indent_from_iter. by rewrite indent_loop_ok. }
  split; [done|]. rewrite Hli. split; [|unfold raw_len, indent_len; simpl; split].
  - unfold from_chunks. rewrite from_chunks_loop_ok, Hc. exact Hli.
  - rewrite wrap_u32_small; unfold is_u32; lia.
  - assert (count_char char_tab pre * tab_size + count_char char_space pre ≤ u32_max)%N as Hfit.
    { rewrite <- Hcount in Hle. destruct (N.max_spec 1 tab_size) as [[? Hm]|[? Hm]]; rewrite Hm in Hle; nia. }
    rewrite (wrap_u32_small (count_char char_tab pre * tab_size)) by (unfold is_u32; lia).
    apply wrap_u32_small. exact Hfit.
Qed.

(** ** Concrete texts *)
Module TextExamples.

Definition a : byte := x61.

(** Three chunks, one of them a lone newline. *)
Definition chunks : list Text := [[a; LF; a]; [LF]; [LF; a]].

Example windows_bytes :
  concat (chunks_with_line_ending chunks Windows) = [a; CR; LF; a; CR; LF; CR; LF; a].
Proof. vm_compute. reflexivity. Qed.

Example line_endings_roundtrip_witness :
  let written := concat (chunks_with_line_ending chunks Windows) in
  normalize written = concat chunks ∧
  written = render Windows (concat chunks) ∧
  (LF ∈ concat chunks → length written ≤ 1000 → detect written = Windows) ∧
  CR ∉ normalize [CR; CR; LF] ∧ normalize (normalize [CR; CR; LF]) = normalize [CR; CR; LF].
Proof. apply (line_endings_roundtrip chunks Windows [CR; CR; LF]). by apply (bool_decide_unpack _). Defined.

Example line_indent_counts_witness :
  let li := indent_from_iter ([9; 32; 32] ++ [120; 10])%N in
  li = mkLineIndent (count_char char_tab [9; 32; 32]%N) (count_char char_space [9; 32; 32]%N) false ∧
  (from_chunks [[9; 32]; []; [32; 120; 10]]%N).1 = li ∧
  raw_len li = N.of_nat 3 ∧
  indent_len li 4 = (count_char char_tab [9; 32; 32]%N * 4 + count_char char_space [9; 32; 32]%N)%N.
Proof.
  apply (line_indent_counts [9; 32; 32] [120; 10] [[9; 32]; []; [32; 120; 10]] 4)%N;
    [by repeat constructor|done|by vm_compute|done].
Defined.

End TextExamples.
