(* ===== verification/Bitmap.v ===== *)
(** * Bitmaps

    The fixed-width unsigned integers [crates/rope/src/chunk.rs] keeps one bit
    per byte of text in: their operations as Rust has them, and what they mean
    on the list of bits, least significant first. *)

From S2P Require Import Prelude.

(** ** Operations

    [BITS] is 128, or 16 in tests.  A plain shift by the width or more panics. *)
Section ops.
Context (BITS : nat).

Definition wrap (x : N) : N := (x mod 2 ^ N.of_nat BITS)%N.
Definition shl (x : N) (n : nat) : option N := if n <? BITS then Some (wrap (N.shiftl x (N.of_nat n))) else None.
Definition shr (x : N) (n : nat) : option N := if n <? BITS then Some (N.shiftr x (N.of_nat n)) else None.
Definition unbounded_shl (x : N) (n : nat) : N := if n <? BITS then wrap (N.shiftl x (N.of_nat n)) else 0%N.
Definition unbounded_shr (x : N) (n : nat) : N := if n <? BITS then N.shiftr x (N.of_nat n) else 0%N.
Definition wrapping_sub (x y : N) : N := wrap (x + 2 ^ N.of_nat BITS - y)%N.
Definition bit_not (x : N) : N := N.lxor x (N.ones (N.of_nat BITS)).
Definition bits_max : N := N.ones (N.of_nat BITS).

Definition to_bits (x : N) : list bool := (λ i, N.testbit x (N.of_nat i)) <$> seq 0 BITS.
Definition count_true (l : list bool) : nat := length (List.filter (λ b, b) l).
(** How many [false] come first. *)
Fixpoint lead (l : list bool) : nat := match l with false :: l => S (lead l) | _ => 0 end.

Definition count_ones (x : N) : nat := count_true (to_bits x).
Definition trailing_zeros (x : N) : nat := lead (to_bits x).
Definition leading_zeros (x : N) : nat := lead (rev (to_bits x)).
End ops.

(** ** Lists of bits *)

Fixpoint of_bits (l : list bool) : N :=
  match l with [] => 0%N | b :: l => (N.b2n b + 2 * of_bits l)%N end.

Lemma testbit_of_bits l i : N.testbit (of_bits l) (N.of_nat i) = default false (l !! i).
Proof.
  revert i. induction l as [|b l IH]; intros [|i]; cbn [of_bits]; [done..| |].
  - rewrite N.add_comm, N.testbit_0_r. done.
  - rewrite Nat2N.inj_succ, N.add_comm, N.testbit_succ_r. apply IH.
Qed.

Lemma testbit_of_bits_N l i : N.testbit (of_bits l) i = default false (l !! N.to_nat i).
Proof. rewrite <- (N2Nat.id i) at 1. apply testbit_of_bits. Qed.

Lemma of_bits_ext l k : (∀ i, default false (l !! i) = default false (k !! i)) → of_bits l = of_bits k.
Proof. intros H. apply N.bits_inj. intros i. by rewrite !testbit_of_bits_N. Qed.

Lemma of_bits_app l k : N.lor (of_bits l) (N.shiftl (of_bits k) (N.of_nat (length l))) = of_bits (l ++ k).
Proof.
  apply N.bits_inj. intros i. rewrite N.lor_spec, !testbit_of_bits_N. destruct (decide (N.to_nat i < length l)) as [Hi|Hi].
  - rewrite N.shiftl_spec_low by lia. by rewrite orb_false_r, lookup_app_l.
  - rewrite N.shiftl_spec_high by lia. rewrite testbit_of_bits_N, lookup_app_r, (lookup_ge_None_2 l) by lia. cbn. f_equal. f_equal. lia.
Qed.

Lemma of_bits_drop l n : N.shiftr (of_bits l) (N.of_nat n) = of_bits (drop n l).
Proof.
  apply N.bits_inj. intros i. rewrite N.shiftr_spec, !testbit_of_bits_N, lookup_drop by lia. do 2 f_equal. lia.
Qed.

Lemma of_bits_take l n : N.land (of_bits l) (N.ones (N.of_nat n)) = of_bits (take n l).
Proof.
  apply N.bits_inj. intros i. rewrite N.land_spec, !testbit_of_bits_N. destruct (decide (N.to_nat i < n)).
  - rewrite N.ones_spec_low, andb_true_r, lookup_take_lt by lia. done.
  - rewrite N.ones_spec_high, andb_false_r, lookup_take_ge by lia. done.
Qed.

Lemma of_bits_lt l : (of_bits l < 2 ^ N.of_nat (length l))%N.
Proof.
  induction l as [|b l IH]; cbn [of_bits length]; [cbn; lia|]. rewrite Nat2N.inj_succ, N.pow_succ_r'. destruct b; cbn [N.b2n]; lia.
Qed.

Lemma of_bits_replicate n : of_bits (replicate n false) = 0%N.
Proof. induction n as [|n IH]; [done|]. cbn [of_bits replicate]. by rewrite IH. Qed.

Lemma of_bits_pad l n : of_bits (l ++ replicate n false) = of_bits l.
Proof.
  apply of_bits_ext. intros i. destruct (decide (i < length l)); [by rewrite lookup_app_l|].
  rewrite lookup_app_r, (lookup_ge_None_2 l) by lia. cbn. destruct (replicate n false !! _) eqn:E; [|done].
  by apply lookup_replicate in E as [-> _].
Qed.

Lemma of_bits_nil_iff l : of_bits l = 0%N ↔ Forall (λ b, b = false) l.
Proof.
  split.
  - intros H. apply Forall_lookup. intros i b Hb. pose proof (testbit_of_bits l i) as E. by rewrite H, Hb, N.bits_0 in E.
  - induction 1 as [|b l -> _ IH]; [done|]. cbn. by rewrite IH.
Qed.

(** ** The operations on bits *)

Section bits.
Context (BITS : nat).
Implicit Types l : list bool.

Lemma to_bits_length x : length (to_bits BITS x) = BITS.
Proof. unfold to_bits. by rewrite length_fmap, length_seq. Qed.

Lemma to_bits_of l : length l ≤ BITS → to_bits BITS (of_bits l) = l ++ replicate (BITS - length l) false.
Proof.
  intros Hl. apply list_eq. intros i. unfold to_bits. rewrite list_lookup_fmap. destruct (decide (i < BITS)) as [Hi|Hi].
  - rewrite lookup_seq_lt by done. cbn. rewrite testbit_of_bits. destruct (decide (i < length l)) as [Hil|Hil].
    + rewrite lookup_app_l by done. destruct (lookup_lt_is_Some_2 l i Hil) as [b ->]. done.
    + rewrite lookup_app_r, (lookup_ge_None_2 l), lookup_replicate_2 by lia. done.
  - rewrite lookup_seq_ge by lia. symmetry. apply lookup_ge_None_2. rewrite length_app, length_replicate. lia.
Qed.

Lemma count_ones_eq x : count_ones BITS x = count_true (to_bits BITS x).
Proof. reflexivity. Qed.

(** Every word is its bits. *)
Lemma of_to_bits x : (x < 2 ^ N.of_nat BITS)%N → of_bits (to_bits BITS x) = x.
Proof.
  intros Hx. apply N.bits_inj. intros i. rewrite testbit_of_bits_N. unfold to_bits. rewrite list_lookup_fmap.
  destruct (decide (N.to_nat i < BITS)) as [Hi|Hi].
  - rewrite lookup_seq_lt by done. cbn. by rewrite N2Nat.id.
  - rewrite lookup_seq_ge by lia. cbn. symmetry. destruct (decide (x = 0%N)) as [->|Hx0]; [apply N.bits_0|].
    apply N.bits_above_log2. apply N.log2_lt_pow2; [lia|]. eapply N.lt_le_trans; [exact Hx|]. apply N.pow_le_mono_r; lia.
Qed.

Lemma count_true_app l k : count_true (l ++ k) = count_true l + count_true k.
Proof. unfold count_true. by rewrite List.filter_app, length_app. Qed.
Lemma count_true_cons b l : count_true (b :: l) = Nat.b2n b + count_true l.
Proof. by destruct b. Qed.
Lemma count_true_replicate n : count_true (replicate n false) = 0.
Proof. by induction n. Qed.
Lemma count_true_le l : count_true l ≤ length l.
Proof. induction l as [|[] l IH]; cbn in *; unfold count_true in *; cbn; lia. Qed.

Lemma count_ones_of l : length l ≤ BITS → count_ones BITS (of_bits l) = count_true l.
Proof. intros Hl. unfold count_ones. rewrite to_bits_of by done. rewrite count_true_app, count_true_replicate. lia. Qed.

Lemma lead_app l k : lead (l ++ k) = if bool_decide (Forall (λ b, b = false) l) then length l + lead k else lead l.
Proof.
  induction l as [|[] l IH]; cbn [app lead]; [done| |].
  - rewrite bool_decide_eq_false_2; [done|]. by intros [? _]%Forall_cons.
  - rewrite IH. rewrite (bool_decide_ext (Forall _ (false :: l)) (Forall (λ b, b = false) l)); [by case_bool_decide|].
    rewrite Forall_cons. tauto.
Qed.
Lemma lead_replicate n : lead (replicate n false) = n.
Proof. induction n as [|n IH]; [done|]. cbn. by rewrite IH. Qed.
Lemma lead_le l : lead l ≤ length l.
Proof. induction l as [|[] l IH]; cbn; lia. Qed.
Lemma lead_all l : Forall (λ b, b = false) l → lead l = length l.
Proof. induction 1 as [|b l -> _ IH]; [done|]. cbn. by rewrite IH. Qed.

Lemma trailing_zeros_of l : length l ≤ BITS →
  trailing_zeros BITS (of_bits l) = if bool_decide (Forall (λ b, b = false) l) then BITS else lead l.
Proof.
  intros Hl. unfold trailing_zeros. rewrite to_bits_of, lead_app by done. rewrite lead_replicate. case_bool_decide; [lia|done].
Qed.

Lemma rev_replicate {A} n (x : A) : rev (replicate n x) = replicate n x.
Proof. rewrite rev_alt. apply (reverse_replicate n x). Qed.

Lemma leading_zeros_of l : length l ≤ BITS → leading_zeros BITS (of_bits l) = BITS - length l + lead (rev l).
Proof.
  intros Hl. unfold leading_zeros. rewrite to_bits_of by done. rewrite rev_app_distr, lead_app.
  rewrite rev_replicate.
  rewrite bool_decide_eq_true_2; [by rewrite length_replicate|]. by apply Forall_replicate.
Qed.

Lemma wrap_small x : (x < 2 ^ N.of_nat BITS)%N → wrap BITS x = x.
Proof. intros H. by apply N.mod_small. Qed.

Lemma of_bits_small l : length l ≤ BITS → (of_bits l < 2 ^ N.of_nat BITS)%N.
Proof. intros Hl. eapply N.lt_le_trans; [apply of_bits_lt|]. apply N.pow_le_mono_r; lia. Qed.

(** [(1 << n) - 1] without overflow: the low [n] bits. *)
Lemma low_mask n : wrapping_sub BITS (unbounded_shl BITS 1 n) 1 = if n <? BITS then N.ones (N.of_nat n) else bits_max BITS.
Proof.
  unfold wrapping_sub, unbounded_shl, bits_max. destruct (Nat.ltb_spec n BITS) as [Hn|Hn].
  - assert (2 ^ N.of_nat n < 2 ^ N.of_nat BITS)%N as Hlt by (apply N.pow_lt_mono_r; lia).
    rewrite N.shiftl_1_l, (wrap_small (2 ^ N.of_nat n)) by done. unfold wrap. rewrite N.ones_equiv.
    replace (2 ^ N.of_nat n + 2 ^ N.of_nat BITS - 1)%N with (N.pred (2 ^ N.of_nat n) + 1 * 2 ^ N.of_nat BITS)%N by lia.
    rewrite N.Div0.mod_add. apply N.mod_small. lia.
  - unfold wrap. rewrite N.ones_equiv. pose proof (N.pow_nonzero 2 (N.of_nat BITS)). rewrite N.mod_small by lia. lia.
Qed.

(** Masking keeps the first [n] bits. *)
Lemma mask_take l n : length l ≤ BITS →
  N.land (of_bits l) (wrapping_sub BITS (unbounded_shl BITS 1 n) 1) = of_bits (take n l).
Proof.
  intros Hl. rewrite low_mask. destruct (Nat.ltb_spec n BITS); [apply of_bits_take|].
  unfold bits_max. rewrite of_bits_take. by rewrite !take_ge by lia.
Qed.

(** Shifting appends. *)
Lemma shl_app l k : length l + length k ≤ BITS → k ≠ [] →
  (x ← shl BITS (of_bits k) (length l); Some (N.lor (of_bits l) x)) = Some (of_bits (l ++ k)).
Proof.
  intros Hl Hk. assert (length k ≠ 0) by by destruct k. unfold shl. rewrite (proj2 (Nat.ltb_lt _ _)) by lia. cbn [mbind option_bind].
  rewrite wrap_small; [by rewrite of_bits_app|]. rewrite N.shiftl_mul_pow2.
  eapply N.lt_le_trans; [apply N.mul_lt_mono_pos_r; [apply N.neq_0_lt_0, N.pow_nonzero; lia|apply of_bits_lt]|].
  rewrite <- N.pow_add_r. apply N.pow_le_mono_r; lia.
Qed.
End bits.
