(* ===== verification/Select.v ===== *)
(** * Finding the n-th set bit

    [nth_set_bit] and [nth_set_bit_u64] of [crates/rope/src/chunk.rs]: the
    parallel bit counts, the branchless descent over them, and that together
    they find the position of the [n]-th one.  An overflow or a shift by the
    width is [None]. *)

From S2P Require Import Prelude Bitmap.

Local Open Scope N_scope.

Definition u64_MAX : N := N.ones 64.
Definition add64 (x y : N) : option N := if x + y <? 2 ^ 64 then Some (x + y) else None.
Definition sub64 (x y : N) : option N := if y <=? x then Some (x - y) else None.
Definition shr64 (x s : N) : option N := shr 64 x (N.to_nat s).
Definition reverse_bits (x : N) : N := of_bits (rev (to_bits 64 x)).

(** [s -= (t.wrapping_sub(n) & 256) >> k; n -= t & (t.wrapping_sub(n) >> 8);] *)
Definition select_step (t s n k : N) : option (N * N) :=
  s ← sub64 s (N.shiftr (N.land (wrapping_sub 64 t n) 256) k);
  n ← sub64 n (N.land t (N.shiftr (wrapping_sub 64 t n) 8));
  Some (s, n).

(** The last three steps of the select, and the position they end at. *)
Definition select_in_byte (v a b s n : N) : option N :=
  s4 ← sub64 s 4; t ← shr64 b s4;
  '(s, n) ← select_step (N.land t 0x7) s n 6;
  s2 ← sub64 s 2; t ← shr64 a s2;
  '(s, n) ← select_step (N.land t 0x3) s n 7;
  s1 ← sub64 s 1; t ← shr64 v s1;
  s ← sub64 s (N.shiftr (N.land (wrapping_sub 64 (N.land t 0x1) n) 256) 8);
  r ← sub64 65 s;
  sub64 r 1.

Definition nth_set_bit_u64 (v n : N) : option N :=
  let v := reverse_bits v in
  let s := 64 in
  a ← sub64 v (N.land (N.shiftr v 1) (u64_MAX / 3));
  b ← add64 (N.land a (u64_MAX / 5)) (N.land (N.shiftr a 2) (u64_MAX / 5));
  c' ← add64 b (N.shiftr b 4);
  let c := N.land c' (u64_MAX / 0x11) in
  d' ← add64 c (N.shiftr c 8);
  let d := N.land d' (u64_MAX / 0x101) in
  t ← add64 (N.shiftr d 32) (N.shiftr d 48);
  '(s, n) ← select_step t s n 3;
  s16 ← sub64 s 16; t ← shr64 d s16;
  '(s, n) ← select_step (N.land t 0xff) s n 4;
  s8 ← sub64 s 8; t ← shr64 c s8;
  '(s, n) ← select_step (N.land t 0xf) s n 5;
  select_in_byte v a b s n.

Definition nth_set_bit (v : N) (n : nat) : option nat :=
  let low := N.land v u64_MAX in
  let high := N.shiftr v 64 in
  let low_count := count_ones 64 low in
  if (low_count <? n)%nat then r ← nth_set_bit_u64 high (N.of_nat (n - low_count)); Some (64 + N.to_nat r)%nat
  else N.to_nat <$> nth_set_bit_u64 low (N.of_nat n).

(** The position of the [n]-th [true], counting from one. *)
Fixpoint nth_true (l : list bool) (n : nat) : nat :=
  match l with
  | [] => 0
  | b :: l => if b then match n with 0 | 1 => 0 | S n => S (nth_true l n) end else S (nth_true l n)
  end%nat.

(** ** The n-th [true] *)

Section nth_true.
Local Open Scope nat_scope.
Implicit Types l k : list bool.

Lemma nth_true_cons b l n : 1 ≤ n →
  nth_true (b :: l) n = if b && (n =? 1) then 0 else S (nth_true l (n - Nat.b2n b)).
Proof. intros Hn. destruct b, n as [|[|n]]; cbn -[Nat.sub]; try done; try lia; do 2 f_equal; lia. Qed.

Lemma nth_true_app l k n : 1 ≤ n →
  nth_true (l ++ k) n = if n <=? count_true l then nth_true l n else length l + nth_true k (n - count_true l).
Proof.
  revert n. induction l as [|b l IH]; intros n Hn; cbn [app].
  - change (count_true []) with 0. rewrite (proj2 (Nat.leb_gt _ _)), Nat.sub_0_r by lia. done.
  - rewrite !nth_true_cons, count_true_cons by done. destruct (Nat.eqb_spec n 1) as [->|H1]; destruct b; cbn [andb Nat.b2n].
    + done.
    + rewrite IH by lia. change (1 - 0) with 1. cbn [plus]. by destruct (1 <=? count_true l).
    + rewrite IH by lia. destruct (Nat.leb_spec (n - 1) (count_true l)), (Nat.leb_spec n (1 + count_true l)); try lia.
      cbn [length plus]. do 3 f_equal. lia.
    + rewrite IH by lia. cbn [plus]. rewrite Nat.sub_0_r. by destruct (n <=? count_true l).
Qed.

Lemma nth_true_spec l n : 1 ≤ n ≤ count_true l →
  l !! nth_true l n = Some true ∧ count_true (take (nth_true l n) l) = n - 1.
Proof.
  revert n. induction l as [|b l IH]; intros n Hn; [cbn in Hn; lia|].
  rewrite nth_true_cons by lia. rewrite count_true_cons in Hn. destruct (Nat.eqb_spec n 1) as [->|H1]; destruct b; cbn [andb Nat.b2n] in *.
  - done.
  - cbn [lookup list_lookup]. destruct (IH (1 - 0)) as [? IH2]; [lia|]. split; [done|]. cbn [take]. rewrite count_true_cons, IH2. cbn; lia.
  - cbn [lookup list_lookup]. destruct (IH (n - 1)) as [? IH2]; [lia|]. split; [done|]. cbn [take]. rewrite count_true_cons, IH2. cbn; lia.
  - cbn [lookup list_lookup]. destruct (IH (n - 0)) as [? IH2]; [lia|]. split; [done|]. cbn [take]. rewrite count_true_cons, IH2. cbn; lia.
Qed.

Lemma nth_true_lt l n : 1 ≤ n ≤ count_true l → nth_true l n < length l.
Proof. intros H. apply nth_true_spec in H as [H _]. by apply lookup_lt_Some in H. Qed.
End nth_true.

(** ** Bytes of a word *)

Fixpoint of_bytes (l : list N) : N := match l with [] => 0 | x :: l => x + 256 * of_bytes l end.

Lemma testbit_high x i k : x < 2 ^ k → k ≤ i → N.testbit x i = false.
Proof.
  intros Hx Hi. destruct (decide (x = 0)) as [->|]; [by rewrite N.bits_0|].
  apply N.bits_above_log2. pose proof (proj1 (N.log2_lt_pow2 x k ltac:(lia)) Hx). lia.
Qed.

Lemma testbit_byte x r i : x < 256 → N.testbit (x + 256 * r) i = if i <? 8 then N.testbit x i else N.testbit r (i - 8).
Proof.
  intros Hx. change 256 with (2 ^ 8). rewrite (N.mul_comm _ r), <- N.shiftl_mul_pow2.
  assert (N.land x (N.shiftl r 8) = 0) as Hd.
  { apply N.bits_inj_0. intros j. rewrite N.land_spec. destruct (N.ltb_spec j 8); [by rewrite N.shiftl_spec_low, andb_false_r|].
    by rewrite (testbit_high x _ 8). }
  rewrite N.add_nocarry_lxor, N.lxor_lor, N.lor_spec by done. destruct (N.ltb_spec i 8).
  - by rewrite N.shiftl_spec_low, orb_false_r.
  - rewrite N.shiftl_spec_high by lia. by rewrite (testbit_high x _ 8).
Qed.

Lemma shift_mask_byte x r m q k : x < 256 → N.shiftl m k < 256 →
  N.land (N.shiftr (x + 256 * r) k) (m + 256 * q) = N.land (N.shiftr x k) m + 256 * N.land (N.shiftr r k) q.
Proof.
  intros Hx Hm. rewrite N.shiftl_mul_pow2 in Hm.
  assert (2 ^ k ≠ 0) as Hk by (apply N.pow_nonzero; lia). assert (m < 256) as Hm' by nia.
  assert (N.land (N.shiftr x k) m < 256) as Hl.
  { destruct (decide (N.land (N.shiftr x k) m = 0)) as [->|]; [lia|]. change 256 with (2 ^ 8). apply N.log2_lt_pow2; [lia|].
    eapply N.le_lt_trans; [apply N.log2_land|]. apply N.min_lt_iff. right. destruct (decide (m = 0)) as [->|]; [cbn; lia|].
    apply N.log2_lt_pow2; lia. }
  apply N.bits_inj. intros i. rewrite N.land_spec, N.shiftr_spec, !testbit_byte by lia.
  destruct (N.ltb_spec i 8) as [Hi|Hi].
  - rewrite N.land_spec, N.shiftr_spec by lia. destruct (N.ltb_spec (i + k) 8) as [Hik|Hik]; [done|].
    destruct (N.testbit m i) eqn:Em; [|by rewrite !andb_false_r]. exfalso.
    assert (2 ^ 8 ≤ 2 ^ (i + k)) by (apply N.pow_le_mono_r; lia). rewrite N.pow_add_r in H.
    assert (2 ^ i ≤ m); [|change (2 ^ 8) with 256 in *; nia].
    apply N.nlt_ge. intros Hlt. by rewrite (testbit_high m i i) in Em by (done || lia).
  - rewrite N.land_spec, N.shiftr_spec by lia. destruct (N.ltb_spec (i + k) 8) as [Hik|Hik]; [lia|].
    replace (i + k - 8) with (i - 8 + k) by lia. done.
Qed.

Lemma shift_mask_bytes l ms k : length l = length ms → Forall (λ x, x < 256) l → Forall (λ m, N.shiftl m k < 256) ms →
  N.land (N.shiftr (of_bytes l) k) (of_bytes ms) = of_bytes (zip_with (λ x m, N.land (N.shiftr x k) m) l ms).
Proof.
  intros Hl. revert ms Hl. induction l as [|x l IH]; intros [|m ms] Hl Hx Hm; try done.
  - cbn [of_bytes]. by rewrite N.land_0_r.
  - apply Forall_cons in Hx as [? ?], Hm as [? ?]. cbn [of_bytes zip_with]. rewrite shift_mask_byte, IH by (done || by injection Hl). done.
Qed.

Lemma add_bytes l k : length l = length k → of_bytes l + of_bytes k = of_bytes (zip_with N.add l k).
Proof. revert k. induction l as [|x l IH]; intros [|y k] Hl; try done. cbn [of_bytes zip_with]. rewrite <- IH by by injection Hl. lia. Qed.

Lemma sub_bytes l k : Forall2 (λ x y, y ≤ x) l k →
  of_bytes k ≤ of_bytes l ∧ of_bytes l - of_bytes k = of_bytes (zip_with N.sub l k).
Proof.
  induction 1 as [|x y l k Hxy _ [IH1 IH2]]; [done|]. cbn [of_bytes zip_with]. rewrite <- IH2. lia.
Qed.

Lemma of_bytes_lt l : Forall (λ x, x < 256) l → of_bytes l < 2 ^ (8 * N.of_nat (length l)).
Proof.
  induction 1 as [|x l Hx _ IH]; [done|]. cbn [of_bytes length]. rewrite Nat2N.inj_succ, N.mul_succ_r, N.add_comm, N.pow_add_r. lia.
Qed.

Lemma shiftr_bytes l j : Forall (λ x, x < 256) l → N.shiftr (of_bytes l) (8 * N.of_nat j) = of_bytes (drop j l).
Proof.
  intros Hl. revert l Hl. induction j as [|j IH]; intros l Hl; [by rewrite N.shiftr_0_r|].
  destruct Hl as [|x l Hx Hl]; [apply N.shiftr_0_l|]. cbn [drop of_bytes].
  replace (8 * N.of_nat (S j)) with (8 + 8 * N.of_nat j) by lia. rewrite <- N.shiftr_shiftr, <- IH by done. f_equal.
  rewrite N.shiftr_div_pow2. change (2 ^ 8) with 256. symmetry; apply N.div_unique with (r := x); [done|lia].
Qed.

(** Within a byte the shift by a nibble brings the next byte's low nibble in. *)
Fixpoint shift_nibble (l : list N) : list N :=
  match l with [] => [] | x :: l => x / 16 + 16 * (default 0 (head l) mod 16) :: shift_nibble l end.

Lemma shiftr_nibble l : Forall (λ x, x < 256) l → N.shiftr (of_bytes l) 4 = of_bytes (shift_nibble l).
Proof.
  induction 1 as [|x l Hx Hl IH]; [done|]. cbn [of_bytes shift_nibble]. rewrite <- IH.
  rewrite !N.shiftr_div_pow2. change (2 ^ 4) with 16.
  assert (of_bytes l mod 16 = default 0 (head l) mod 16) as <-.
  { destruct l as [|y l]; [done|]. cbn [of_bytes head default]. replace (256 * of_bytes l) with (16 * of_bytes l * 16) by lia. apply N.Div0.mod_add. }
  pose proof (N.div_mod (of_bytes l) 16). pose proof (N.div_mod x 16). symmetry.
  apply N.div_unique with (r := x mod 16); [apply N.mod_lt; lia|]. lia.
Qed.

Lemma of_bits_cat l k : of_bits (l ++ k) = of_bits l + 2 ^ N.of_nat (length l) * of_bits k.
Proof.
  induction l as [|b l IH]; cbn [app of_bits length]; [rewrite N.pow_0_r; lia|]. rewrite IH, Nat2N.inj_succ, N.pow_succ_r'. lia.
Qed.

Lemma of_bytes_of_bits (ls : list (list bool)) : Forall (λ l, length l = 8%nat) ls → of_bits (concat ls) = of_bytes (of_bits <$> ls).
Proof.
  induction 1 as [|l ls Hl _ IH]; [done|]. cbn [concat fmap list_fmap of_bytes]. rewrite of_bits_cat, Hl, IH. done.
Qed.

(** ** The parallel counts *)

Definition bytes_below (n : nat) : list N := N.of_nat <$> seq 0 n.
Lemma forallb_below p n : forallb p (bytes_below n) = true → ∀ x, x < N.of_nat n → p x = true.
Proof.
  intros H x Hx. apply (proj1 (List.forallb_forall p _) H). apply list_elem_of_In, list_elem_of_fmap.
  exists (N.to_nat x). split; [by rewrite N2Nat.id|]. apply elem_of_seq. lia.
Qed.

Definition pair_counts (x : N) : N := x - N.land (N.shiftr x 1) 0x55.
Definition nibble_counts (a : N) : N := N.land a 0x33 + N.land (N.shiftr a 2) 0x33.
Definition ones (x : N) : N := N.of_nat (count_true (to_bits 8 x)).

Definition byte_counts_ok (x : N) : bool :=
  let a := pair_counts x in
  let b := nibble_counts a in
  (N.land (N.shiftr x 1) 0x55 <=? x) && (a <? 256) && (b <? 256) && (b mod 16 <=? 4) && (ones x <=? 8) &&
  forallb (λ h, let z := b + (b / 16 + 16 * h) in (z <? 256) && (N.land z 15 =? ones x)) (bytes_below 5).

Lemma byte_counts x : x < 256 →
  N.land (N.shiftr x 1) 0x55 ≤ x ∧ pair_counts x < 256 ∧ nibble_counts (pair_counts x) < 256 ∧
  nibble_counts (pair_counts x) mod 16 ≤ 4 ∧ ones x ≤ 8 ∧
  (∀ h, h ≤ 4 → let b := nibble_counts (pair_counts x) in let z := b + (b / 16 + 16 * h) in z < 256 ∧ N.land z 15 = ones x).
Proof.
  intros Hx. assert (byte_counts_ok x = true) as H by (apply (forallb_below _ 256); [vm_compute; reflexivity|lia]).
  unfold byte_counts_ok in H. rewrite !andb_true_iff, !N.leb_le, !N.ltb_lt in H. destruct H as [[[[[? ?] ?] ?] ?] Hh].
  do 5 (split; [done|]). intros h Hle b z. pose proof (forallb_below _ 5 Hh h ltac:(lia)) as Hz. cbn beta zeta in Hz.
  rewrite andb_true_iff, N.ltb_lt, N.eqb_eq in Hz. done.
Qed.

Section word.
Context (xs : list N) (Hlen : length xs = 8%nat) (Hxs : Forall (λ x, x < 256) xs).

Lemma add64_bytes l k : length l = 8%nat → length k = 8%nat → Forall (λ x, x < 256) (zip_with N.add l k) →
  add64 (of_bytes l) (of_bytes k) = Some (of_bytes (zip_with N.add l k)).
Proof.
  intros Hl Hk Hf. unfold add64. rewrite add_bytes by congruence. pose proof (of_bytes_lt _ Hf) as Hlt.
  rewrite length_zip_with, Hl, Hk in Hlt. change (8 * N.of_nat (8 `min` 8)) with 64 in Hlt. by rewrite (proj2 (N.ltb_lt _ _) Hlt).
Qed.

Lemma zip_replicate_r {A B C} (f : A → B → C) l n y : length l = n → zip_with f l (replicate n y) = (λ x, f x y) <$> l.
Proof. intros <-. induction l as [|x l IH]; [done|]. cbn. by rewrite IH. Qed.

Lemma mask_const l k m : length l = 8%nat → Forall (λ x, x < 256) l → N.shiftl m k < 256 →
  N.land (N.shiftr (of_bytes l) k) (of_bytes (replicate 8 m)) = of_bytes ((λ x, N.land (N.shiftr x k) m) <$> l).
Proof.
  intros Hl Hx Hm. rewrite shift_mask_bytes; [by rewrite zip_replicate_r| |done|by apply Forall_replicate].
  by rewrite length_replicate.
Qed.

Lemma zip_fmap_same {A B} (g : N → N → B) (f h : A → N) l : zip_with g (f <$> l) (h <$> l) = (λ x, g (f x) (h x)) <$> l.
Proof. induction l as [|x l IH]; [done|]. cbn. by rewrite IH. Qed.

Lemma pairs_ok : sub64 (of_bytes xs) (N.land (N.shiftr (of_bytes xs) 1) (u64_MAX / 3)) = Some (of_bytes (pair_counts <$> xs)).
Proof.
  change (u64_MAX / 3) with (of_bytes (replicate 8 0x55)). rewrite mask_const by done. unfold sub64.
  destruct (sub_bytes xs ((λ x, N.land (N.shiftr x 1) 0x55) <$> xs)) as [Hle ->].
  - apply Forall2_fmap_r, Forall_Forall2_diag. eapply Forall_impl; [exact Hxs|]. intros x Hx. by apply byte_counts.
  - rewrite (proj2 (N.leb_le _ _) Hle). do 2 f_equal. rewrite <- (list_fmap_id xs) at 1. by rewrite (zip_fmap_same N.sub id).
Qed.

Lemma Forall_bytes (f : N → N) : (∀ x, x < 256 → f x < 256) → Forall (λ x, x < 256) (f <$> xs).
Proof. intros Hf. apply Forall_fmap. eapply Forall_impl; [exact Hxs|]. exact Hf. Qed.

Lemma pairs_lt : Forall (λ x, x < 256) (pair_counts <$> xs).
Proof. apply Forall_bytes. intros x Hx. by apply byte_counts. Qed.

Lemma nibbles_ok :
  add64 (N.land (of_bytes (pair_counts <$> xs)) (u64_MAX / 5)) (N.land (N.shiftr (of_bytes (pair_counts <$> xs)) 2) (u64_MAX / 5)) =
    Some (of_bytes ((λ x, nibble_counts (pair_counts x)) <$> xs)).
Proof.
  change (u64_MAX / 5) with (of_bytes (replicate 8 0x33)). rewrite <- (N.shiftr_0_r (of_bytes _)) at 1.
  rewrite !mask_const by (rewrite ?length_fmap; done || apply pairs_lt).
  rewrite <- !list_fmap_compose, add64_bytes, zip_fmap_same; rewrite ?length_fmap; try done.
  rewrite zip_fmap_same. apply Forall_bytes. intros x Hx. cbn. rewrite N.shiftr_0_r. by apply byte_counts.
Qed.
End word.

Section word_counts.
Context (xs : list N) (Hlen : length xs = 8%nat) (Hxs : Forall (λ x, x < 256) xs).
Abbreviation bs := ((λ x, nibble_counts (pair_counts x)) <$> xs).

Lemma octets_ok : ∃ zs, add64 (of_bytes bs) (N.shiftr (of_bytes bs) 4) = Some (of_bytes zs) ∧
  N.land (of_bytes zs) (u64_MAX / 0x11) = of_bytes (ones <$> xs).
Proof.
  assert (Forall (λ x, x < 256) bs) as Hbs by (apply Forall_bytes; [done|]; intros x Hx; by apply byte_counts).
  assert (length (shift_nibble bs) = length bs) as Hsl.
  { generalize bs. intros l. induction l as [|x l IH]; [done|]. cbn. by rewrite IH. }
  assert (Forall2 (λ z x, z < 256 ∧ N.land z 15 = ones x) (zip_with N.add bs (shift_nibble bs)) xs) as HF.
  { clear Hlen Hbs Hsl. induction Hxs as [|x l Hx Hl IH]; [constructor|]. cbn. constructor; [|exact (IH Hl)].
    apply (byte_counts x Hx). destruct Hl as [|y l Hy _]; [done|]. by apply byte_counts. }
  exists (zip_with N.add bs (shift_nibble bs)). rewrite shiftr_nibble by done. split.
  - apply add64_bytes; rewrite ?Hsl, ?length_fmap; try done. apply Forall_lookup. intros i z Hz.
    destruct (Forall2_lookup_l _ _ _ _ _ HF Hz) as (x & _ & [? _]). done.
  - change (u64_MAX / 0x11) with (of_bytes (replicate 8 15)). rewrite <- (N.shiftr_0_r (of_bytes (zip_with _ _ _))).
    rewrite mask_const; [|by rewrite (Forall2_length _ _ _ HF)| |done].
    + f_equal. clear Hlen Hxs Hbs Hsl. induction HF as [|z x zs l [_ Hz] _ IH]; [done|]. cbn [fmap list_fmap]. rewrite IH, N.shiftr_0_r, Hz. done.
    + apply Forall_lookup. intros i z Hz. destruct (Forall2_lookup_l _ _ _ _ _ HF Hz) as (x & _ & [? _]). done.
Qed.
End word_counts.

Lemma land_255 x : x < 256 → N.land x 255 = x.
Proof. intros Hx. change 255 with (N.ones 8). rewrite N.land_ones. by apply N.mod_small. Qed.

Lemma pairs16_ok c0 c1 c2 c3 c4 c5 c6 c7 : Forall (λ c, c ≤ 8) [c0; c1; c2; c3; c4; c5; c6; c7] →
  let c := of_bytes [c0; c1; c2; c3; c4; c5; c6; c7] in
  ∃ d', add64 c (N.shiftr c 8) = Some d' ∧
    N.land d' (u64_MAX / 0x101) = of_bytes [c0 + c1; 0; c2 + c3; 0; c4 + c5; 0; c6 + c7; 0].
Proof.
  intros Hc c. rewrite !Forall_cons in Hc. exists (of_bytes [c0 + c1; c1 + c2; c2 + c3; c3 + c4; c4 + c5; c5 + c6; c6 + c7; c7 + 0]). split.
  - subst c. change 8 with (8 * N.of_nat 1). rewrite shiftr_bytes by (repeat constructor; lia). cbn [drop].
    change (of_bytes [c1; c2; c3; c4; c5; c6; c7]) with (of_bytes [c1; c2; c3; c4; c5; c6; c7; 0]).
    rewrite add64_bytes; [done..|]. repeat constructor; lia.
  - change (u64_MAX / 0x101) with (of_bytes [255; 0; 255; 0; 255; 0; 255; 0]). rewrite <- (N.shiftr_0_r (of_bytes [c0 + c1; _; _; _; _; _; _; _])).
    rewrite shift_mask_bytes; [|done|repeat constructor; lia|repeat constructor; done]. cbn [zip_with].
    rewrite !N.shiftr_0_r, !N.land_0_r, !land_255 by lia. done.
Qed.

(** ** The descent *)

Lemma split_byte x r m q : x < 256 → m < 256 → N.land (x + 256 * r) (m + 256 * q) = N.land x m + 256 * N.land r q.
Proof.
  intros Hx Hm. rewrite <- (N.shiftr_0_r (x + 256 * r)), shift_mask_byte by (done || by rewrite N.shiftl_0_r).
  by rewrite !N.shiftr_0_r.
Qed.

(** The wrapped difference, byte by byte. *)
Lemma difference_bytes T h n : T ≤ 32 → 1 ≤ n ≤ 64 → h ≤ 16 → ∃ z q hi,
  wrapping_sub 64 (T + 65536 * h) n = z + 256 * (q + 256 * hi) ∧ z < 256 ∧ q = (if T <? n then 255 else 0) ∧ (h = 0 ∨ hi < 256).
Proof.
  intros HT Hn Hh. unfold wrapping_sub, wrap. change (2 ^ N.of_nat 64) with 18446744073709551616.
  destruct (N.ltb_spec T n) as [Hlt|Hge].
  - exists (256 + T - n), 255. destruct (N.eq_dec h 0) as [->|H0].
    + exists (2 ^ 48 - 1). change (2 ^ 48 - 1) with 281474976710655. rewrite N.mod_small by lia. lia.
    + exists (h - 1). replace (T + 65536 * h + 18446744073709551616 - n)
        with (256 + T - n + 256 * (255 + 256 * (h - 1)) + 1 * 18446744073709551616) by lia.
      rewrite N.Div0.mod_add, N.mod_small by lia. lia.
  - exists (T - n), 0, h. replace (T + 65536 * h + 18446744073709551616 - n)
      with (T - n + 256 * (0 + 256 * h) + 1 * 18446744073709551616) by lia.
    rewrite N.Div0.mod_add, N.mod_small by lia. lia.
Qed.

Lemma step_masks T n h : T ≤ 32 → 1 ≤ n ≤ 64 → h ≤ 16 → let t := T + 65536 * h in
  N.land (wrapping_sub 64 t n) 256 = (if T <? n then 256 else 0) ∧
  N.land t (N.shiftr (wrapping_sub 64 t n) 8) = (if T <? n then T else 0).
Proof.
  intros HT Hn Hh. destruct (difference_bytes T h n HT Hn Hh) as (z & q & hi & E & Hz & Hq & Hhi). cbn zeta. rewrite E.
  assert (q < 256) by (subst q; by destruct (T <? n)). split.
  - change 256 with (0 + 256 * (1 + 256 * 0)) at 3. rewrite !split_byte, N.land_0_r by lia. rewrite N.land_0_r. subst q. by destruct (T <? n).
  - assert (N.shiftr (z + 256 * (q + 256 * hi)) 8 = q + 256 * hi) as ->.
    { rewrite N.shiftr_div_pow2. change (2 ^ 8) with 256. symmetry. apply N.div_unique with (r := z); [done|lia]. }
    replace (T + 65536 * h) with (T + 256 * (0 + 256 * h)) by lia. rewrite split_byte by lia.
    assert (N.land (0 + 256 * h) hi = 0) as ->.
    { destruct Hhi as [->|Hhi]; [done|]. replace hi with (hi + 256 * 0) by lia. rewrite split_byte by lia. by rewrite N.land_0_r. }
    subst q. destruct (T <? n); [rewrite land_255 by lia|rewrite N.land_0_r]; lia.
Qed.

(** A step goes down when fewer than [n] ones lie above. *)
Lemma select_step_ok T h s n k : T ≤ 32 → 1 ≤ n ≤ 64 → h ≤ 16 → k ≤ 8 → 2 ^ (8 - k) ≤ s →
  select_step (T + 65536 * h) s n k = Some (if T <? n then (s - 2 ^ (8 - k), n - T) else (s, n)).
Proof.
  intros HT Hn Hh Hk Hs. destruct (step_masks T n h HT Hn Hh) as [H1 H2]. unfold select_step. rewrite H1, H2.
  destruct (N.ltb_spec T n) as [HTn|HTn].
  - change 256 with (2 ^ 8). rewrite N.shiftr_div_pow2, <- N.pow_sub_r by lia. unfold sub64. cbn [mbind option_bind].
    rewrite (proj2 (N.leb_le _ _) Hs). cbn [mbind option_bind]. by rewrite (proj2 (N.leb_le T n)) by lia.
  - rewrite N.shiftr_0_l. unfold sub64. cbn [mbind option_bind]. by rewrite !(proj2 (N.leb_le 0 _)), !N.sub_0_r by lia.
Qed.

Lemma select_step_small T s n k : T ≤ 32 → 1 ≤ n ≤ 64 → k ≤ 8 → 2 ^ (8 - k) ≤ s →
  select_step T s n k = Some (if T <? n then (s - 2 ^ (8 - k), n - T) else (s, n)).
Proof. intros HT Hn Hk Hs. rewrite <- (select_step_ok T 0) by lia. f_equal. lia. Qed.

Lemma land_le x m : N.land x m ≤ m.
Proof.
  apply N.ldiff_le, N.bits_inj_0. intros i. rewrite N.ldiff_spec, N.land_spec.
  by destruct (N.testbit x i), (N.testbit m i).
Qed.

Lemma shiftr_mask_bytes l j k m x : l !! j = Some x → Forall (λ x, x < 256) l → N.shiftl m k < 256 →
  N.land (N.shiftr (of_bytes l) (8 * N.of_nat j + k)) m = N.land (N.shiftr x k) m.
Proof.
  intros Hx Hl Hm. rewrite <- N.shiftr_shiftr, shiftr_bytes, (drop_S l x j Hx) by done. cbn [of_bytes].
  transitivity (N.land (N.shiftr (x + 256 * of_bytes (drop (S j) l)) k) (m + 256 * 0)); [f_equal; lia|].
  rewrite shift_mask_byte, N.land_0_r; [lia| |done]. by eapply Forall_lookup_1 in Hl.
Qed.

(** Where the last three steps end within a byte. *)
Definition byte_pos (x n : N) : N :=
  let a := pair_counts x in
  let b := nibble_counts a in
  let t := N.land (N.shiftr b 4) 7 in
  let '(s, n) := if t <? n then (4, n - t) else (8, n) in
  let t := N.land (N.shiftr a (s - 2)) 3 in
  let '(s, n) := if t <? n then (s - 2, n - t) else (s, n) in
  let t := N.land (N.shiftr x (s - 1)) 1 in
  if t <? n then s - 1 else s.

Lemma byte_table : forallb (λ x, forallb (λ n, (n =? 0) || (ones x <? n) ||
  (byte_pos x n =? 8 - N.of_nat (nth_true (rev (to_bits 8 x)) (N.to_nat n)))) (bytes_below 9)) (bytes_below 256) = true.
Proof. vm_compute. reflexivity. Qed.

Lemma byte_pos_ok x n : x < 256 → 1 ≤ n ≤ ones x → byte_pos x n = 8 - N.of_nat (nth_true (rev (to_bits 8 x)) (N.to_nat n)).
Proof.
  intros Hx Hn. pose proof (forallb_below _ 256 byte_table x ltac:(lia)) as H1. cbn beta in H1.
  pose proof (proj1 (proj2 (proj2 (proj2 (proj2 (byte_counts x Hx)))))) as Ho.
  pose proof (forallb_below _ 9 H1 n ltac:(lia)) as H2. cbn beta in H2.
  rewrite (proj2 (N.eqb_neq n 0)), (proj2 (N.ltb_ge _ _)) in H2 by lia. cbn [orb] in H2. by apply N.eqb_eq in H2.
Qed.

Lemma shr64_ok x s : s < 64 → shr64 x s = Some (N.shiftr x s).
Proof. intros Hs. unfold shr64, shr. rewrite (proj2 (Nat.ltb_lt _ _)) by lia. by rewrite N2Nat.id. Qed.

Lemma sub64_ok x y : y ≤ x → sub64 x y = Some (x - y).
Proof. intros H. unfold sub64. by rewrite (proj2 (N.leb_le _ _) H). Qed.

Section descent.
Context (xs : list N) (Hlen : length xs = 8%nat) (Hxs : Forall (λ x, x < 256) xs).
Context (j : nat) (x : N) (Hx : xs !! j = Some x).
Abbreviation V := (of_bytes xs).
Abbreviation A := (of_bytes (pair_counts <$> xs)).
Abbreviation B := (of_bytes ((λ x, nibble_counts (pair_counts x)) <$> xs)).
Abbreviation base := (8 * N.of_nat j).

Lemma byte_lt : x < 256 ∧ (j < 8)%nat.
Proof using All. split; [by eapply Forall_lookup_1 in Hxs|]. apply lookup_lt_Some in Hx. lia. Qed.

Lemma in_a s k m : s < 8 → s = k → N.shiftl m k < 256 → N.land (N.shiftr A (base + s)) m = N.land (N.shiftr (pair_counts x) k) m.
Proof using All.
  intros _ -> Hm. apply shiftr_mask_bytes; [by rewrite list_lookup_fmap, Hx|by apply pairs_lt|done].
Qed.

Lemma in_b m : N.shiftl m 4 < 256 → N.land (N.shiftr B (base + 4)) m = N.land (N.shiftr (nibble_counts (pair_counts x)) 4) m.
Proof using All.
  intros Hm. apply shiftr_mask_bytes; [by rewrite list_lookup_fmap, Hx| |done].
  apply Forall_bytes; [done|]. intros y Hy. by apply byte_counts.
Qed.

Lemma in_v k m : N.shiftl m k < 256 → N.land (N.shiftr V (base + k)) m = N.land (N.shiftr x k) m.
Proof using All. intros Hm. by apply shiftr_mask_bytes. Qed.

(** The last step, from a position within the byte. *)
Lemma select_last s n : 1 ≤ s ≤ 8 → 1 ≤ n ≤ 64 →
  (s1 ← sub64 (base + s) 1; t ← shr64 V s1;
   s ← sub64 (base + s) (N.shiftr (N.land (wrapping_sub 64 (N.land t 0x1) n) 256) 8);
   r ← sub64 65 s; sub64 r 1) =
  Some (64 - (base + (let t := N.land (N.shiftr x (s - 1)) 1 in if t <? n then s - 1 else s))).
Proof using All.
  intros Hs Hn. destruct byte_lt as [Hx256 Hj]. rewrite sub64_ok by lia. cbn [mbind option_bind].
  replace (base + s - 1) with (base + (s - 1)) by lia. rewrite shr64_ok by lia. cbn [mbind option_bind].
  rewrite in_v.
  2: { rewrite N.shiftl_1_l. change 256 with (2 ^ 8). apply N.pow_lt_mono_r; lia. }
  set (t := N.land (N.shiftr x (s - 1)) 1). assert (t ≤ 1) by apply land_le.
  pose proof (select_step_small t (base + s) n 8 ltac:(lia) Hn ltac:(lia)) as Hstep. change (2 ^ (8 - 8)) with 1 in Hstep.
  specialize (Hstep ltac:(lia)). unfold select_step in Hstep.
  destruct (sub64 (base + s) _) as [s'|]; [|done]. cbn [mbind option_bind] in *.
  destruct (sub64 n _) as [n'|]; [|done]. cbn [mbind option_bind] in *. injection Hstep as Hstep.
  assert (s' = base + (if t <? n then s - 1 else s)) as ->.
  { destruct (t <? n); injection Hstep as -> ->; lia. }
  cbn zeta. destruct (t <? n); rewrite (sub64_ok 65) by lia; cbn [mbind option_bind]; rewrite sub64_ok by lia; f_equal; lia.
Qed.

Lemma select_in_byte_ok n : 1 ≤ n ≤ 64 → select_in_byte V A B (base + 8) n = Some (64 - (base + byte_pos x n)).
Proof using All.
  intros Hn. destruct byte_lt as [Hx256 Hj]. unfold select_in_byte, byte_pos. rewrite sub64_ok by lia. cbn [mbind option_bind].
  replace (base + 8 - 4) with (base + 4) by lia. rewrite shr64_ok by lia. cbn [mbind option_bind].
  rewrite in_b by done. set (t4 := N.land _ 7). assert (t4 ≤ 7) by apply land_le.
  rewrite select_step_small by (try lia; change (2 ^ (8 - 6)) with 4; lia). cbn [mbind option_bind]. cbn zeta.
  assert (∃ s n', (if t4 <? n then (base + 8 - 2 ^ (8 - 6), n - t4) else (base + 8, n)) = (base + s, n') ∧
    (if t4 <? n then (4, n - t4) else (8, n)) = (s, n') ∧ (s = 4 ∨ s = 8) ∧ 1 ≤ n' ≤ 64) as (s & n' & -> & -> & Hs & Hn').
  { destruct (N.ltb_spec t4 n); [exists 4, (n - t4)|exists 8, n]; (split; [change (2 ^ (8 - 6)) with 4; f_equal; lia|]); split_and!; auto; lia. }
  rewrite sub64_ok by lia. cbn [mbind option_bind]. replace (base + s - 2) with (base + (s - 2)) by lia.
  rewrite shr64_ok by lia. cbn [mbind option_bind].
  rewrite (in_a (s - 2) (s - 2)) by (try lia; destruct Hs as [-> | ->]; done).
  set (t2 := N.land _ 3). assert (t2 ≤ 3) by apply land_le.
  rewrite select_step_small by (try lia; change (2 ^ (8 - 7)) with 2; lia). cbn [mbind option_bind].
  assert (∃ s' n'', (if t2 <? n' then (base + s - 2 ^ (8 - 7), n' - t2) else (base + s, n')) = (base + s', n'') ∧
    (if t2 <? n' then (s - 2, n' - t2) else (s, n')) = (s', n'') ∧ 1 ≤ s' ≤ 8 ∧ 1 ≤ n'' ≤ 64) as (s' & n'' & -> & -> & Hs' & Hn'').
  { destruct (N.ltb_spec t2 n'); [exists (s - 2), (n' - t2)|exists s, n']; (split; [change (2 ^ (8 - 7)) with 2; f_equal; lia|]); split_and!; auto; lia. }
  by apply select_last.
Qed.
End descent.

Lemma nth_true_mid pre y post n : (count_true pre < n ≤ count_true pre + count_true y)%nat →
  nth_true (pre ++ y ++ post) n = (length pre + nth_true y (n - count_true pre))%nat.
Proof.
  intros Hn. rewrite nth_true_app, (proj2 (Nat.leb_gt _ _)), nth_true_app, (proj2 (Nat.leb_le _ _)) by lia. done.
Qed.

(** The three steps over the sums choose the byte, the rest the bit. *)
Definition top_bits (xs : list N) : list bool := concat ((λ x, rev (to_bits 8 x)) <$> rev xs).

Lemma count_true_rev l : count_true (rev l) = count_true l.
Proof.
  induction l as [|b l IH]; [done|]. cbn [rev]. rewrite count_true_app, IH, !count_true_cons. unfold count_true. cbn. lia.
Qed.

Lemma select_in_top xs (j : nat) x n pre : length xs = 8%nat → Forall (λ x, x < 256) xs → xs !! j = Some x →
  pre = sum_list ((λ x, count_true (to_bits 8 x)) <$> drop (S j) xs) → N.of_nat pre < n ≤ N.of_nat pre + ones x →
  select_in_byte (of_bytes xs) (of_bytes (pair_counts <$> xs)) (of_bytes ((λ x, nibble_counts (pair_counts x)) <$> xs))
    (8 * N.of_nat j + 8) (n - N.of_nat pre) = Some (N.of_nat (nth_true (top_bits xs) (N.to_nat n))).
Proof.
  intros Hlen Hxs Hj -> Hn. assert (x < 256) as Hx by by eapply Forall_lookup_1 in Hxs.
  pose proof (byte_counts x Hx) as (_ & _ & _ & _ & Ho & _). pose proof (lookup_lt_Some _ _ _ Hj) as Hj8.
  rewrite (select_in_byte_ok xs Hlen Hxs j x Hj) by lia. rewrite byte_pos_ok by (done || lia).
  assert (top_bits xs = concat ((λ x, rev (to_bits 8 x)) <$> rev (drop (S j) xs)) ++ rev (to_bits 8 x) ++
    concat ((λ x, rev (to_bits 8 x)) <$> rev (take j xs))) as ->.
  { unfold top_bits. rewrite <- (take_drop_middle xs j x Hj) at 1. rewrite rev_app_distr. cbn [rev].
    rewrite <- app_assoc, !fmap_app, !concat_app. cbn [fmap list_fmap concat]. by rewrite app_nil_r. }
  assert (∀ l : list N, count_true (concat ((λ x, rev (to_bits 8 x)) <$> rev l)) = sum_list ((λ x, count_true (to_bits 8 x)) <$> l)
    ∧ length (concat ((λ x, rev (to_bits 8 x)) <$> rev l)) = (8 * length l)%nat) as Hc.
  { intros l. induction l as [|z l [IH1 IH2]]; [done|]. cbn [rev fmap list_fmap sum_list length].
    rewrite fmap_app, concat_app, count_true_app, length_app, IH1, IH2. cbn [fmap list_fmap concat]. rewrite app_nil_r.
    rewrite count_true_rev, length_rev, to_bits_length. split; [|lia]. cbn. lia. }
  destruct (Hc (drop (S j) xs)) as [Hc1 Hc2]. rewrite nth_true_mid by (rewrite Hc1, count_true_rev; unfold ones in Hn; lia).
  rewrite Hc1, Hc2, length_drop, Hlen. f_equal.
  pose proof (nth_true_lt (rev (to_bits 8 x)) (N.to_nat (n - N.of_nat (sum_list ((λ x, count_true (to_bits 8 x)) <$> drop (S j) xs))))) as Hlt.
  rewrite count_true_rev, length_rev, to_bits_length in Hlt. unfold ones in Hn. specialize (Hlt ltac:(lia)).
  rewrite N2Nat.inj_sub, Nat2N.id in *. lia.
Qed.

Lemma ones_eq x : ones x = N.of_nat (count_true (to_bits 8 x)).
Proof. done. Qed.

Lemma digit_at l i m y : l !! i = Some y → Forall (λ x, x < 256) l → m < 256 → N.land y m = y →
  N.land (N.shiftr (of_bytes l) (8 * N.of_nat i)) m = y.
Proof.
  intros Hy Hl Hm Hland. rewrite <- (N.add_0_r (8 * _)), (shiftr_mask_bytes l i 0 m y) by (done || by rewrite N.shiftl_0_r).
  by rewrite N.shiftr_0_r.
Qed.

Lemma land_below x k m : m = N.ones k → x < 2 ^ k → N.land x m = x.
Proof. intros -> Hx. rewrite N.land_ones. by apply N.mod_small. Qed.

(** The steps over the 32-, 16- and 8-bit sums: the byte holding the [n]-th
    one, and the ones above it. *)
Definition choose_byte (o : nat → N) (n : N) : nat * N :=
  if o 4%nat + o 5%nat + o 6%nat + o 7%nat <? n then
    let p := o 4%nat + o 5%nat + o 6%nat + o 7%nat in
    if p + (o 2%nat + o 3%nat) <? n then if p + (o 2%nat + o 3%nat) + o 1%nat <? n then (0%nat, p + (o 2%nat + o 3%nat) + o 1%nat) else (1%nat, p + (o 2%nat + o 3%nat))
    else if p + o 3%nat <? n then (2%nat, p + o 3%nat) else (3%nat, p)
  else if o 6%nat + o 7%nat <? n then
    if o 6%nat + o 7%nat + o 5%nat <? n then (4%nat, o 6%nat + o 7%nat + o 5%nat) else (5%nat, o 6%nat + o 7%nat)
  else if o 7%nat <? n then (6%nat, o 7%nat) else (7%nat, 0).

Definition select_from_sums (v a b c d n : N) : option N :=
  t ← add64 (N.shiftr d 32) (N.shiftr d 48);
  '(s, n) ← select_step t 64 n 3;
  s16 ← sub64 s 16; t ← shr64 d s16;
  '(s, n) ← select_step (N.land t 0xff) s n 4;
  s8 ← sub64 s 8; t ← shr64 c s8;
  '(s, n) ← select_step (N.land t 0xf) s n 5;
  select_in_byte v a b s n.

Lemma step_at word s i y m k q n (F : N → N → option N) :
  N.land (N.shiftr word (8 * N.of_nat i)) m = y → s = 8 * N.of_nat i + q → 8 * N.of_nat i < 64 → y ≤ 32 → 1 ≤ n ≤ 64 →
  k ≤ 8 → 2 ^ (8 - k) ≤ s →
  (s' ← sub64 s q; t ← shr64 word s'; '(s, n) ← select_step (N.land t m) s n k; F s n) =
  if y <? n then F (s - 2 ^ (8 - k)) (n - y) else F s n.
Proof.
  intros Hy Hs Hi Hy64 Hn Hk Hpow. rewrite sub64_ok by lia. cbn [mbind option_bind].
  replace (s - q) with (8 * N.of_nat i) by lia. rewrite shr64_ok by done. cbn [mbind option_bind].
  rewrite Hy, select_step_small by done. cbn [mbind option_bind]. by destruct (y <? n).
Qed.

Ltac side := first [lia | match goal with H : _ |- _ => apply H; [done|lia] end | done].
Ltac pick := repeat (match goal with |- context [?x <? ?y] => first [rewrite (proj2 (N.ltb_lt x y)) by lia | rewrite (proj2 (N.ltb_ge x y)) by lia] end);
    change (2 ^ (8 - 5)) with 8; f_equal; lia.

Lemma sums_ok v a b o0 o1 o2 o3 o4 o5 o6 o7 n : let os := [o0; o1; o2; o3; o4; o5; o6; o7] in
  Forall (λ c, c ≤ 8) os → 1 ≤ n ≤ 64 →
  let '(j, p) := choose_byte (λ i, os !!! i) n in
  select_from_sums v a b (of_bytes os) (of_bytes [o0 + o1; 0; o2 + o3; 0; o4 + o5; 0; o6 + o7; 0]) n =
    select_in_byte v a b (8 * N.of_nat j + 8) (n - p).
Proof.
  intros os Ho Hn. set (ds := [o0 + o1; 0; o2 + o3; 0; o4 + o5; 0; o6 + o7; 0]).
  pose proof Ho as Ho'. unfold os in Ho'. rewrite !Forall_cons in Ho'. destruct Ho' as (?&?&?&?&?&?&?&?&_).
  assert (Forall (λ x, x < 256) ds) as Hds by (repeat constructor; lia).
  assert (Forall (λ x, x < 256) os) as Hos by (repeat constructor; lia).
  assert (∀ i y, ds !! i = Some y → (y < 2 ^ 8) → N.land (N.shiftr (of_bytes ds) (8 * N.of_nat i)) 0xff = y) as Hd.
  { intros i y Hi Hy. apply digit_at; [done..|]. by apply (land_below y 8). }
  assert (∀ i y, os !! i = Some y → (y < 2 ^ 4) → N.land (N.shiftr (of_bytes os) (8 * N.of_nat i)) 0xf = y) as Hc.
  { intros i y Hi Hy. apply digit_at; [done..|]. by apply (land_below y 4). }
  assert (add64 (N.shiftr (of_bytes ds) 32) (N.shiftr (of_bytes ds) 48) = Some (o4 + o5 + o6 + o7 + 65536 * (o6 + o7))) as Hadd.
  { change 32 with (8 * N.of_nat 4). change 48 with (8 * N.of_nat 6). rewrite !shiftr_bytes by done. cbn [drop ds of_bytes].
    unfold add64. rewrite (proj2 (N.ltb_lt _ _)) by (change (2 ^ 64) with 18446744073709551616; lia). f_equal. lia. }
  unfold select_from_sums. rewrite Hadd. cbn [mbind option_bind].
  rewrite select_step_ok by (try lia; change (2 ^ (8 - 3)) with 32; lia). cbn [mbind option_bind].
  unfold choose_byte. cbn [os lookup_total list_lookup_total]. change (2 ^ (8 - 3)) with 32.
  assert (∀ i y, ds !! i = Some y → y ≤ 16 → N.land (N.shiftr (of_bytes ds) (8 * N.of_nat i)) 0xff = y) as Hd'.
  { intros i y Hi Hy. apply Hd; [done|]. change (2 ^ 8) with 256. lia. }
  assert (∀ i y, os !! i = Some y → y ≤ 8 → N.land (N.shiftr (of_bytes os) (8 * N.of_nat i)) 0xf = y) as Hc'.
  { intros i y Hi Hy. apply Hc; [done|]. change (2 ^ 4) with 16. lia. }
  destruct (N.ltb_spec (o4 + o5 + o6 + o7) n) as [HA|HA]; cbn [mbind option_bind].
  - rewrite (step_at _ (64 - 32) 2 (o2 + o3)) by side. change (64 - 32) with 32. change (2 ^ (8 - 4)) with 16.
    destruct (N.ltb_spec (o2 + o3) (n - (o4 + o5 + o6 + o7))) as [HB|HB].
    + rewrite (step_at _ (32 - 16) 1 o1) by side. destruct (N.ltb_spec o1 (n - (o4 + o5 + o6 + o7) - (o2 + o3))); pick.
    + rewrite (step_at _ 32 3 o3) by side. destruct (N.ltb_spec o3 (n - (o4 + o5 + o6 + o7))); pick.
  - rewrite (step_at _ 64 6 (o6 + o7)) by side. change (2 ^ (8 - 4)) with 16. destruct (N.ltb_spec (o6 + o7) n) as [HB|HB].
    + rewrite (step_at _ (64 - 16) 5 o5) by side. destruct (N.ltb_spec o5 (n - (o6 + o7))); pick.
    + rewrite (step_at _ 64 7 o7) by side. destruct (N.ltb_spec o7 n); pick.
Qed.

Lemma choose_byte_ok x0 x1 x2 x3 x4 x5 x6 x7 n : let xs := [x0; x1; x2; x3; x4; x5; x6; x7] in
  1 ≤ n ≤ ones x0 + ones x1 + ones x2 + ones x3 + ones x4 + ones x5 + ones x6 + ones x7 →
  ∃ j p x, choose_byte (λ i, (ones <$> xs) !!! i) n = (j, N.of_nat p) ∧ xs !! j = Some x ∧
    p = sum_list ((λ x, count_true (to_bits 8 x)) <$> drop (S j) xs) ∧ N.of_nat p < n ≤ N.of_nat p + ones x.
Proof.
  intros xs Hn. unfold choose_byte. cbn [xs fmap list_fmap lookup_total list_lookup_total].
  repeat match goal with |- context [?x <? ?y] => destruct (N.ltb_spec x y) end;
    (eexists _, _, _; split; [reflexivity || (f_equal; symmetry; apply N2Nat.id)|]; split; [reflexivity|]);
    cbn [drop xs fmap list_fmap sum_list sum_list_with]; unfold ones, id in *; split; lia.
Qed.

(** The whole select on a reversed word of eight bytes. *)
Lemma select_bytes x0 x1 x2 x3 x4 x5 x6 x7 n v : let xs := [x0; x1; x2; x3; x4; x5; x6; x7] in
  Forall (λ x, x < 256) xs → reverse_bits v = of_bytes xs →
  1 ≤ n ≤ ones x0 + ones x1 + ones x2 + ones x3 + ones x4 + ones x5 + ones x6 + ones x7 →
  nth_set_bit_u64 v n = Some (N.of_nat (nth_true (top_bits xs) (N.to_nat n))).
Proof.
  intros xs Hxs Hv Hn. assert (length xs = 8%nat) as Hlen by done.
  assert (Forall (λ c, c ≤ 8) (ones <$> xs)) as Hos.
  { apply Forall_fmap. eapply Forall_impl; [exact Hxs|]. intros x Hx. by apply byte_counts. }
  unfold nth_set_bit_u64. rewrite Hv. cbn zeta. rewrite (pairs_ok xs Hlen Hxs). cbn [mbind option_bind].
  rewrite (nibbles_ok xs Hlen Hxs). cbn [mbind option_bind].
  destruct (octets_ok xs Hlen Hxs) as (zs & -> & Hc). cbn [mbind option_bind]. rewrite Hc. cbn [xs fmap list_fmap] in Hos.
  destruct (pairs16_ok _ _ _ _ _ _ _ _ Hos) as (d & Hd & Hd'). cbn zeta in Hd. cbn [xs fmap list_fmap]. rewrite Hd. cbn [mbind option_bind]. rewrite Hd'.
  assert (1 ≤ n ≤ 64) as Hn64 by (rewrite !Forall_cons in Hos; lia).
  destruct (choose_byte_ok x0 x1 x2 x3 x4 x5 x6 x7 n Hn) as (j & p & x & Hch & Hj & Hp & Hnp).
  rewrite <- (select_in_top xs j x n p Hlen Hxs Hj Hp Hnp).
  pose proof (sums_ok (of_bytes xs) (of_bytes (pair_counts <$> xs)) (of_bytes ((λ x, nibble_counts (pair_counts x)) <$> xs))
    _ _ _ _ _ _ _ _ n Hos Hn64) as Hsums.
  cbn [xs fmap list_fmap] in Hch. rewrite Hch in Hsums. exact Hsums.
Qed.

Lemma split_octets l n : length l = (8 * n)%nat → ∃ ys, l = concat ys ∧ length ys = n ∧ Forall (λ y : list bool, length y = 8%nat) ys.
Proof.
  revert l. induction n as [|n IH]; intros l Hl.
  - exists []. by destruct l.
  - destruct (IH (drop 8 l)) as (ys & Hys & Hn & Hf); [rewrite length_drop; lia|].
    exists (take 8 l :: ys). cbn [concat length]. rewrite <- Hys, take_drop, Hn. split_and!; [done..|].
    constructor; [rewrite length_take; lia|done].
Qed.

Lemma rev_concat (ys : list (list bool)) : rev (concat ys) = concat ((λ y, rev y) <$> rev ys).
Proof.
  induction ys as [|y ys IH]; [done|]. cbn [concat rev]. rewrite rev_app_distr, IH, fmap_app, concat_app. cbn [fmap list_fmap concat].
  by rewrite app_nil_r.
Qed.

Lemma nth_set_bit_u64_of l n : length l = 64%nat → (1 ≤ n ≤ count_true l)%nat →
  nth_set_bit_u64 (of_bits l) (N.of_nat n) = Some (N.of_nat (nth_true l n)).
Proof.
  intros Hl Hn. destruct (split_octets l 8 Hl) as (ys & -> & Hys & Hf).
  destruct ys as [|y0 [|y1 [|y2 [|y3 [|y4 [|y5 [|y6 [|y7 [|]]]]]]]]]; try done.
  set (xs := (λ y, of_bits (rev y)) <$> rev [y0; y1; y2; y3; y4; y5; y6; y7]).
  assert (∀ y, length y = 8%nat → rev (to_bits 8 (of_bits (rev y))) = y ∧ ones (of_bits (rev y)) = N.of_nat (count_true y)) as Hy.
  { intros y Hy. unfold ones. rewrite to_bits_of by by rewrite length_rev, Hy. rewrite length_rev, Hy. cbn [Nat.sub replicate].
    by rewrite app_nil_r, rev_involutive, count_true_rev. }
  assert (Forall (λ x, x < 256) xs) as Hxs.
  { apply Forall_fmap, Forall_forall. intros y Hin. rewrite <- rev_alt in Hin || idtac. cbn.
    rewrite Forall_forall in Hf. pose proof (of_bits_lt (rev y)) as Hlt. rewrite length_rev, (Hf y) in Hlt; [done|].
    apply list_elem_of_In, in_rev, list_elem_of_In. done. }
  assert (reverse_bits (of_bits (concat [y0; y1; y2; y3; y4; y5; y6; y7])) = of_bytes xs) as Hrev.
  { unfold reverse_bits. rewrite to_bits_of, Hl, app_nil_r by lia. rewrite rev_concat, of_bytes_of_bits; [by rewrite <- list_fmap_compose|].
    apply Forall_fmap. apply Forall_forall. intros y Hin. cbn. rewrite length_rev. rewrite Forall_forall in Hf. apply Hf.
    apply list_elem_of_In, in_rev, list_elem_of_In. done. }
  rewrite !Forall_cons in Hf. destruct Hf as (L0&L1&L2&L3&L4&L5&L6&L7&_).
  cbn [concat] in Hn. rewrite !count_true_app in Hn. change (count_true []) with 0%nat in Hn.
  rewrite (select_bytes _ _ _ _ _ _ _ _ _ _ Hxs Hrev), Nat2N.id; [|rewrite (proj2 (Hy _ L0)), (proj2 (Hy _ L1)), (proj2 (Hy _ L2)),
    (proj2 (Hy _ L3)), (proj2 (Hy _ L4)), (proj2 (Hy _ L5)), (proj2 (Hy _ L6)), (proj2 (Hy _ L7)); lia].
  do 3 f_equal. unfold top_bits. cbn [rev app fmap list_fmap concat].
  by rewrite (proj1 (Hy _ L0)), (proj1 (Hy _ L1)), (proj1 (Hy _ L2)), (proj1 (Hy _ L3)), (proj1 (Hy _ L4)), (proj1 (Hy _ L5)),
    (proj1 (Hy _ L6)), (proj1 (Hy _ L7)).
Qed.

(** [nth_set_bit] finds the [n]-th one of a 128-bit word. *)
Lemma nth_set_bit_of l n : length l = 128%nat → (1 ≤ n ≤ count_true l)%nat → nth_set_bit (of_bits l) n = Some (nth_true l n).
Proof.
  intros Hl Hn. unfold nth_set_bit.
  assert (N.land (of_bits l) u64_MAX = of_bits (take 64 l)) as -> by apply (of_bits_take l 64).
  assert (N.shiftr (of_bits l) 64 = of_bits (drop 64 l)) as -> by apply (of_bits_drop l 64).
  cbn zeta. rewrite count_ones_of by (rewrite length_take; lia).
  assert (nth_true l n = nth_true (take 64 l ++ drop 64 l) n) as -> by by rewrite take_drop.
  rewrite <- (take_drop 64 l), count_true_app in Hn. rewrite nth_true_app by lia.
  destruct (Nat.ltb_spec (count_true (take 64 l)) n) as [Hlt|Hge].
  - rewrite nth_set_bit_u64_of by (rewrite ?length_drop; lia). cbn [mbind option_bind].
    rewrite (proj2 (Nat.leb_gt _ _)), length_take, Nat2N.id, Hl by done. done.
  - rewrite nth_set_bit_u64_of by (rewrite ?length_take; lia). cbn. by rewrite Nat2N.id, (proj2 (Nat.leb_le _ _)).
Qed.

Lemma nth_set_bit_of_spec l n : length l = 128%nat → (1 ≤ n ≤ count_true l)%nat →
  ∃ i, nth_set_bit (of_bits l) n = Some i ∧ N.testbit (of_bits l) (N.of_nat i) = true ∧
    count_ones 128 (N.land (of_bits l) (N.ones (N.of_nat i))) = (n - 1)%nat.
Proof.
  intros Hl Hn. destruct (nth_true_spec l n Hn) as [Hi Hc]. exists (nth_true l n). split; [by apply nth_set_bit_of|].
  rewrite testbit_of_bits, Hi. split; [done|]. rewrite of_bits_take, count_ones_of; [done|]. rewrite length_take. lia.
Qed.

(** C33: On a 128-bit word with at least [n] ones, [nth_set_bit] returns,
    without any overflow or overlong shift, the position of the [n]-th one:
    that bit is set and [n - 1] set bits lie below it. *)
Theorem nth_set_bit_finds v n : v < 2 ^ 128 → (1 ≤ n ≤ count_ones 128 v)%nat →
  ∃ i, nth_set_bit v n = Some i ∧ N.testbit v (N.of_nat i) = true ∧
    count_ones 128 (N.land v (N.ones (N.of_nat i))) = (n - 1)%nat.
Proof.
  intros Hv Hn. rewrite count_ones_eq in Hn. pose proof (nth_set_bit_of_spec (to_bits 128 v) n (to_bits_length 128 v) Hn) as H.
  by rewrite (of_to_bits 128 v Hv) in H.
Qed.

Lemma nth_set_bit_finds_witness :
  let v := N.shiftl 0xB100F0 64 + 0xFF00000000000001 in
  v < 2 ^ 128 ∧ count_ones 128 v = 17%nat ∧ nth_set_bit v 13 = Some (64 + 7)%nat ∧
  ∃ i, nth_set_bit v 13 = Some i ∧ N.testbit v (N.of_nat i) = true ∧
    count_ones 128 (N.land v (N.ones (N.of_nat i))) = 12%nat.
Proof.
  cbn zeta. split; [reflexivity|]. split; [vm_compute; reflexivity|]. split; [vm_compute; reflexivity|].
  apply (nth_set_bit_finds (N.shiftl 0xB100F0 64 + 0xFF00000000000001) 13); [reflexivity|]. vm_compute. split; apply Nat.leb_le; reflexivity.
Defined.
