(* ===== verification/Utf8.v ===== *)
(** * UTF-8 text

    A [str] is valid UTF-8: its bytes encode a list of characters.  The
    encoding and the decoding of Rust's [char] and [str], how many bytes and
    UTF-16 units a character takes, and where the character boundaries are. *)

From S2P Require Import Prelude Text.

(** ** Characters *)

Definition is_char (c : Char) : bool := ((c <? 0xD800) || ((0xE000 <=? c) && (c <? 0x110000)))%N.

Definition byte_of (n : N) : byte := default x00 (Byte.of_N n).

Definition len_utf8 (c : Char) : nat := if (c <? 0x80)%N then 1 else if (c <? 0x800)%N then 2 else if (c <? 0x10000)%N then 3 else 4.
Definition char_len_utf16 (c : Char) : nat := if (c <? 0x10000)%N then 1 else 2.

(** [char::encode_utf8]. *)
Definition encode_char (c : Char) : Text :=
  if (c <? 0x80)%N then [byte_of c]
  else if (c <? 0x800)%N then [byte_of (0xC0 + c / 64); byte_of (0x80 + c mod 64)]
  else if (c <? 0x10000)%N then [byte_of (0xE0 + c / 4096); byte_of (0x80 + (c / 64) mod 64); byte_of (0x80 + c mod 64)]
  else [byte_of (0xF0 + c / 262144); byte_of (0x80 + (c / 4096) mod 64); byte_of (0x80 + (c / 64) mod 64); byte_of (0x80 + c mod 64)].

Definition encode (cs : list Char) : Text := concat (encode_char <$> cs).

(** [str::chars]. *)
Fixpoint decode (t : Text) : list Char :=
  match t with
  | [] => []
  | b0 :: t1 =>
      let n0 := Byte.to_N b0 in
      let cont (b : byte) := (Byte.to_N b - 0x80)%N in
      if (n0 <? 0x80)%N then n0 :: decode t1
      else match t1 with
      | [] => []
      | b1 :: t2 =>
          if (n0 <? 0xE0)%N then ((n0 - 0xC0) * 64 + cont b1)%N :: decode t2
          else match t2 with
          | [] => []
          | b2 :: t3 =>
              if (n0 <? 0xF0)%N then ((n0 - 0xE0) * 4096 + cont b1 * 64 + cont b2)%N :: decode t3
              else match t3 with
              | [] => []
              | b3 :: t4 => ((n0 - 0xF0) * 262144 + cont b1 * 4096 + cont b2 * 64 + cont b3)%N :: decode t4
              end
          end
      end
  end.

Definition chars_ok (cs : list Char) : Prop := Forall (λ c, is_char c = true) cs.
Definition utf8 (t : Text) : Prop := ∃ cs, chars_ok cs ∧ t = encode cs.

(** Decide the comparisons of a goal by arithmetic. *)
Ltac ncompare :=
  repeat match goal with
  | |- context [(?a <? ?b)%N] => first [rewrite (proj2 (N.ltb_lt a b)) by lia | rewrite (proj2 (N.ltb_ge a b)) by lia]
  | |- context [(?a <=? ?b)%N] => first [rewrite (proj2 (N.leb_le a b)) by lia | rewrite (proj2 (N.leb_gt a b)) by lia]
  end.

(** ** Encoding and decoding *)

Lemma to_byte_of n : (n < 256)%N → Byte.to_N (byte_of n) = n.
Proof.
  intros Hn. unfold byte_of. destruct (Byte.of_N n) as [b|] eqn:E; [by apply Byte.to_of_N|].
  apply Byte.of_N_None_iff in E. lia.
Qed.

Lemma is_char_lt c : is_char c = true → (c < 0x110000)%N.
Proof. unfold is_char. rewrite orb_true_iff, andb_true_iff, N.leb_le, !N.ltb_lt. lia. Qed.

(** The cases of a character's encoding. *)
Inductive encoded (c : Char) : Text → Prop :=
  | enc1 : (c < 0x80)%N → encoded c [byte_of c]
  | enc2 x y : (x < 32 ∧ y < 64 ∧ c = x * 64 + y ∧ 0x80 <= c)%N → encoded c [byte_of (0xC0 + x); byte_of (0x80 + y)]
  | enc3 x y z : (x < 16 ∧ y < 64 ∧ z < 64 ∧ c = x * 4096 + y * 64 + z ∧ 0x800 <= c)%N →
      encoded c [byte_of (0xE0 + x); byte_of (0x80 + y); byte_of (0x80 + z)]
  | enc4 w x y z : (w < 8 ∧ x < 64 ∧ y < 64 ∧ z < 64 ∧ c = w * 262144 + x * 4096 + y * 64 + z ∧ 0x10000 <= c)%N →
      encoded c [byte_of (0xF0 + w); byte_of (0x80 + x); byte_of (0x80 + y); byte_of (0x80 + z)].

Lemma encode_char_cases c : is_char c = true → encoded c (encode_char c).
Proof.
  intros Hc%is_char_lt. unfold encode_char. pose proof (N.mod_lt c 64 ltac:(done)). pose proof (N.mod_lt (c / 64) 64 ltac:(done)).
  pose proof (N.mod_lt (c / 4096) 64 ltac:(done)). pose proof (N.div_mod c 64 ltac:(done)) as E1.
  pose proof (N.div_mod (c / 64) 64 ltac:(done)) as E2. pose proof (N.div_mod (c / 4096) 64 ltac:(done)) as E3.
  rewrite N.Div0.div_div in E2, E3. change (64 * 64)%N with 4096%N in E2. change (4096 * 64)%N with 262144%N in E3.
  revert E1 E2 E3. generalize dependent (c mod 64)%N. generalize dependent ((c / 64) mod 64)%N.
  generalize dependent ((c / 4096) mod 64)%N. generalize (c / 64)%N (c / 4096)%N (c / 262144)%N. intros q1 q2 q3 r3 ? r2 ? r1 ? E1 E2 E3.
  destruct (N.ltb_spec c 0x80); [by constructor|]. destruct (N.ltb_spec c 0x800); [apply enc2; lia|].
  destruct (N.ltb_spec c 0x10000); [apply enc3; lia|]. apply enc4; lia.
Qed.

Lemma encode_char_length c : length (encode_char c) = len_utf8 c.
Proof. unfold encode_char, len_utf8. by repeat case_match. Qed.

Lemma len_utf8_bounds c : 1 ≤ len_utf8 c ≤ 4.
Proof. unfold len_utf8. repeat case_match; lia. Qed.

Lemma decode_encode_app cs t : chars_ok cs → decode (encode cs ++ t) = cs ++ decode t.
Proof.
  induction 1 as [|c cs Hc _ IH]; [done|]. unfold encode in *. cbn [fmap list_fmap concat]. rewrite <- app_assoc. cbn [app]. rewrite <- IH.
  destruct (encode_char_cases c Hc) as [H|x y (?&?&->&?)|x y z (?&?&?&->&?)|w x y z (?&?&?&?&->&?)]; cbn [app decode];
    rewrite !to_byte_of by lia;
    ncompare;
    f_equal; lia.
Qed.

(** [chars] gives back the characters a string encodes. *)
Lemma decode_encode cs : chars_ok cs → decode (encode cs) = cs.
Proof. intros H. rewrite <- (app_nil_r (encode cs)), decode_encode_app by done. apply app_nil_r. Qed.

Lemma encode_app cs ds : encode (cs ++ ds) = encode cs ++ encode ds.
Proof. unfold encode. by rewrite fmap_app, concat_app. Qed.
Lemma encode_cons c cs : encode (c :: cs) = encode_char c ++ encode cs.
Proof. done. Qed.

(** ** Boundaries *)

(** The bytes of a character: the first is a boundary, the others are not. *)
Lemma encode_char_boundary c : is_char c = true →
  is_utf8_char_boundary <$> encode_char c = true :: replicate (len_utf8 c - 1) false.
Proof.
  intros Hc. destruct (encode_char_cases c Hc) as [H|x y (?&?&->&?)|x y z (?&?&?&->&?)|w x y z (?&?&?&?&->&?)];
    unfold is_utf8_char_boundary, len_utf8; cbn [fmap list_fmap]; rewrite !to_byte_of by lia;
    ncompare; done.
Qed.

(** A byte is 240 or more exactly when it starts a four-byte character. *)
Definition wide (b : byte) : bool := (240 <=? Byte.to_N b)%N.
Lemma encode_char_wide c : is_char c = true →
  wide <$> encode_char c = (char_len_utf16 c =? 2) :: replicate (len_utf8 c - 1) false.
Proof.
  intros Hc. destruct (encode_char_cases c Hc) as [H|x y (?&?&->&?)|x y z (?&?&?&->&?)|w x y z (?&?&?&?&->&?)];
    unfold wide, len_utf8, char_len_utf16; cbn [fmap list_fmap]; rewrite !to_byte_of by lia;
    ncompare; done.
Qed.

(** An ASCII byte occurs only as the one byte of its character. *)
Lemma encode_char_ascii a c : (a < 128)%N → is_char c = true →
  (λ b, bool_decide (b = byte_of a)) <$> encode_char c = bool_decide (c = a) :: replicate (len_utf8 c - 1) false.
Proof.
  intros Ha Hc.
  assert (∀ n, (n < 256)%N → bool_decide (byte_of n = byte_of a) = (n =? a)%N) as Hb.
  { intros n Hn. destruct (N.eqb_spec n a) as [->|Hna]; [by apply bool_decide_eq_true_2|]. apply bool_decide_eq_false_2.
    intros H%(f_equal Byte.to_N). rewrite !to_byte_of in H by lia. done. }
  assert (bool_decide (c = a) = (c =? a)%N) as -> by (destruct (N.eqb_spec c a); by case_bool_decide).
  destruct (encode_char_cases c Hc) as [H|x y (?&?&->&?)|x y z (?&?&?&->&?)|w x y z (?&?&?&?&->&?)];
    unfold len_utf8; cbn [fmap list_fmap]; rewrite !Hb by lia;
    ncompare;
    repeat match goal with |- context [(?a =? ?b)%N] => rewrite (proj2 (N.eqb_neq a b)) by lia end; done.
Qed.
