(* ===== verification/Summary.v ===== *)
(** * Points and text summaries ([crates/rope/src/point.rs] and [TextSummary] of [rope.rs])

    A summary counts bytes, characters, UTF-16 units, lines and the longest
    row of a text; ropes keep one per chunk and add them up.  Rows, columns
    and the per-line counts are [u32] and wrap. *)

From S2P Require Import Prelude Text Utf8.

(** ** Points *)

Record Point := mkPoint { row : N; column : N }.
#[export] Instance Point_eq_dec : EqDecision Point.
Proof. solve_decision. Defined.

Definition sub_u32 (a b : N) : N := wrap_u32 (a + 2 ^ 32 - b).

Definition point_zero : Point := mkPoint 0 0.
Definition point_add (p q : Point) : Point :=
  if (row q =? 0)%N then mkPoint (row p) (wrap_u32 (column p + column q)) else mkPoint (wrap_u32 (row p + row q)) (column q).
Definition point_sub (p q : Point) : Point :=
  if (row p =? row q)%N then mkPoint 0 (sub_u32 (column p) (column q)) else mkPoint (sub_u32 (row p) (row q)) (column p).

(** Both coordinates packed into one 64-bit word. *)
Definition point_cmp (p q : Point) : comparison :=
  let a := N.lor (N.shiftl (row p) 32) (column p) in
  let b := N.lor (N.shiftl (row q) 32) (column q) in
  N.compare a b.

Definition point_ltb (p q : Point) : bool := match point_cmp p q with Lt => true | _ => false end.
Definition point_leb (p q : Point) : bool := match point_cmp p q with Gt => false | _ => true end.
Definition saturating_sub (p q : Point) : Point := if point_ltb p q then point_zero else point_sub p q.

(** [str::split('\n')], and the point after the last byte. *)
Fixpoint split_lines (cur t : Text) : list Text :=
  match t with
  | [] => [cur]
  | b :: t => if bool_decide (b = LF) then cur :: split_lines [] t else split_lines (cur ++ [b]) t
  end.
Definition parse_str (s : Text) : Point :=
  foldl (λ _ '(r, line), mkPoint (wrap_u32 (N.of_nat r)) (wrap_u32 (N.of_nat (length line)))) point_zero
    (imap pair (split_lines [] s)).

(** [PointUtf16] has the same operations; its columns count UTF-16 units. *)
Definition PointUtf16 : Type := Point.

(** ** Summaries *)

Record TextSummary := mkSummary {
  s_len : nat;
  s_chars : nat;
  s_len_utf16 : nat;
  s_lines : Point;
  first_line_chars : N;
  last_line_chars : N;
  last_line_len_utf16 : N;
  longest_row : N;
  longest_row_chars : N;
}.

Definition summary_default : TextSummary := mkSummary 0 0 0 point_zero 0 0 0 0 0.
Definition lines_utf16 (s : TextSummary) : PointUtf16 := mkPoint (row (s_lines s)) (last_line_len_utf16 s).
Definition newline_summary : TextSummary := mkSummary 1 1 1 (mkPoint 1 0) 0 0 0 0 0.
Definition add_newline (s : TextSummary) : TextSummary :=
  mkSummary (s_len s + 1) (s_chars s) (s_len_utf16 s + (s_len_utf16 s + 1)) (point_add (s_lines s) (mkPoint 1 0))
    (first_line_chars s) 0 0 (longest_row s) (longest_row_chars s).

(** One round of the loop of [From<&str>], which leaves the length alone. *)
Definition from_char (s : TextSummary) (c : Char) : TextSummary :=
  let chars := S (s_chars s) in
  let len_utf16 := s_len_utf16 s + char_len_utf16 c in
  let lines := if (c =? char_newline)%N then point_add (s_lines s) (mkPoint 1 0)
               else mkPoint (row (s_lines s)) (wrap_u32 (column (s_lines s) + N.of_nat (len_utf8 c))) in
  let last_line_len_utf16 := if (c =? char_newline)%N then 0%N else wrap_u32 (last_line_len_utf16 s + N.of_nat (char_len_utf16 c)) in
  let last_line_chars := if (c =? char_newline)%N then 0%N else wrap_u32 (last_line_chars s + 1) in
  let first_line_chars := if (row lines =? 0)%N then last_line_chars else first_line_chars s in
  let '(longest_row, longest_row_chars) :=
    if (longest_row_chars s <? last_line_chars)%N then (row lines, last_line_chars) else (longest_row s, longest_row_chars s) in
  mkSummary (s_len s) chars len_utf16 lines first_line_chars last_line_chars last_line_len_utf16 longest_row longest_row_chars.

Definition from_str (text : Text) : TextSummary :=
  let s := foldl from_char summary_default (decode text) in
  mkSummary (length text) (s_chars s) (s_len_utf16 s) (s_lines s) (first_line_chars s) (last_line_chars s) (last_line_len_utf16 s)
    (longest_row s) (longest_row_chars s).

(** [AddAssign]. *)
Definition add_assign (self other : TextSummary) : TextSummary :=
  let joined_chars := wrap_u32 (last_line_chars self + first_line_chars other) in
  let '(lr, lrc) :=
    if (longest_row_chars self <? joined_chars)%N then (row (s_lines self), joined_chars) else (longest_row self, longest_row_chars self) in
  let '(lr, lrc) :=
    if (lrc <? longest_row_chars other)%N then (wrap_u32 (row (s_lines self) + longest_row other), longest_row_chars other) else (lr, lrc) in
  let flc := if (row (s_lines self) =? 0)%N then wrap_u32 (first_line_chars self + first_line_chars other) else first_line_chars self in
  let llc := if (row (s_lines other) =? 0)%N then wrap_u32 (last_line_chars self + first_line_chars other) else last_line_chars other in
  let llu := if (row (s_lines other) =? 0)%N then wrap_u32 (last_line_len_utf16 self + last_line_len_utf16 other)
             else last_line_len_utf16 other in
  mkSummary (s_len self + s_len other) (s_chars self + s_chars other) (s_len_utf16 self + s_len_utf16 other)
    (point_add (s_lines self) (s_lines other)) flc llc llu lr lrc.

(** ** Points are ordered by row, then by column *)

Definition point_ok (p : Point) : Prop := is_u32 (row p) ∧ is_u32 (column p).

Lemma shifted_disjoint r c : is_u32 c → N.land (N.shiftl r 32) c = 0%N.
Proof.
  intros Hc. unfold is_u32, u32_max in Hc. apply N.bits_inj_0. intros i. rewrite N.land_spec.
  destruct (N.ltb_spec i 32); [by rewrite N.shiftl_spec_low|].
  rewrite (N.bits_above_log2 c); [by rewrite andb_false_r|]. destruct (decide (c = 0%N)) as [->|]; [cbn; lia|].
  pose proof (proj1 (N.log2_lt_pow2 c 32 ltac:(lia)) ltac:(change (2 ^ 32)%N with 4294967296%N; lia)). lia.
Qed.

Lemma pack_eq p : point_ok p → N.lor (N.shiftl (row p) 32) (column p) = (row p * 2 ^ 32 + column p)%N.
Proof.
  intros [_ Hc]. rewrite <- N.lxor_lor, <- N.add_nocarry_lxor by by apply shifted_disjoint. by rewrite N.shiftl_mul_pow2.
Qed.

Lemma point_cmp_lex p q : point_ok p → point_ok q →
  point_cmp p q = then_with (N.compare (row p) (row q)) (N.compare (column p) (column q)).
Proof.
  intros Hp Hq. unfold point_cmp. cbn zeta. rewrite !pack_eq by done. destruct Hp as [_ Hp], Hq as [_ Hq].
  unfold is_u32, u32_max in Hp, Hq. change (2 ^ 32)%N with 4294967296%N.
  destruct (N.compare_spec (row p) (row q)) as [->|H|H]; cbn [then_with].
  - destruct (N.compare_spec (column p) (column q)) as [->|H|H]; [by apply N.compare_eq_iff|apply N.compare_lt_iff; lia|apply N.compare_gt_iff; lia].
  - apply N.compare_lt_iff. lia.
  - apply N.compare_gt_iff. lia.
Qed.

(** ** The summary of a concatenation *)

Definition run (cs : list Char) : TextSummary := foldl from_char summary_default cs.

(** Every count is at most [n]. *)
Record bounded (n : N) (s : TextSummary) : Prop := {
  bd_row : (row (s_lines s) ≤ n)%N;
  bd_column : (column (s_lines s) ≤ n)%N;
  bd_first : (first_line_chars s ≤ n)%N;
  bd_last : (last_line_chars s ≤ n)%N;
  bd_last16 : (last_line_len_utf16 s ≤ n)%N;
  bd_row_longest : (longest_row s ≤ row (s_lines s))%N;
  bd_longest : (longest_row_chars s ≤ n)%N;
}.

(** What the loop keeps: the longest row is one of the rows, and on one line
    the first, the last and the longest row are the same. *)
Record coherent (s : TextSummary) : Prop := {
  co_first : (first_line_chars s ≤ longest_row_chars s)%N;
  co_last : (last_line_chars s ≤ longest_row_chars s)%N;
  co_single : row (s_lines s) = 0%N →
    first_line_chars s = last_line_chars s ∧ longest_row_chars s = last_line_chars s ∧ longest_row s = 0%N;
}.

Lemma bounded_default : bounded 0 summary_default.
Proof. by constructor. Qed.
Lemma coherent_default : coherent summary_default.
Proof. by constructor. Qed.

Lemma bounded_mono m n s : (m ≤ n)%N → bounded m s → bounded n s.
Proof. intros Hmn []. constructor; lia. Qed.

Lemma char_sizes c : 1 ≤ len_utf8 c ≤ 4 ∧ 1 ≤ char_len_utf16 c ≤ len_utf8 c.
Proof. unfold len_utf8, char_len_utf16. repeat case_match; repeat match goal with H : (_ <? _)%N = _ |- _ => first [apply N.ltb_lt in H|apply N.ltb_ge in H] end; lia. Qed.

Lemma from_char_bounded n s c : bounded n s → is_u32 (n + N.of_nat (len_utf8 c)) → coherent s →
  bounded (n + N.of_nat (len_utf8 c)) (from_char s c) ∧ coherent (from_char s c).
Proof.
  intros [] H32 []. destruct (char_sizes c) as [? ?]. destruct s as [l ch u [r co] f la la16 lr lrc]. unfold from_char, point_add. cbn in *.
  unfold is_u32 in *.
  destruct (N.eqb_spec c char_newline); cbn; rewrite ?wrap_u32_small by (unfold is_u32; lia).
  - destruct (N.eqb_spec (r + 1) 0); [lia|]. destruct (N.ltb_spec lrc 0); [lia|]. split; constructor; cbn in *; lia.
  - destruct (N.eqb_spec r 0), (N.ltb_spec lrc (la + 1)); split; constructor; cbn in *; lia.
Qed.

(** Decide, innermost first, the comparisons two summaries are computed by. *)
Ltac unwrap := repeat match goal with |- context [wrap_u32 ?x] => rewrite (wrap_u32_small x) by (unfold is_u32; lia) end.
Ltac summary_simpl :=
  cbn [row column s_lines s_len s_chars s_len_utf16 first_line_chars last_line_chars last_line_len_utf16 longest_row longest_row_chars]; unwrap.
Ltac atomic_test a b :=
  lazymatch constr:((a, b)) with context [match _ with _ => _ end] => fail | context [wrap_u32] => fail | _ => idtac end.
Ltac summary_cases :=
  summary_simpl;
  repeat (match goal with
    | |- context [N.eqb ?a ?b] => atomic_test a b; destruct (N.eqb_spec a b)
    | |- context [N.ltb ?a ?b] => atomic_test a b; destruct (N.ltb_spec a b)
    end; try lia; summary_simpl).

Lemma from_char_add m n a b c : bounded m a → bounded n b → coherent a → coherent b →
  is_u32 (m + n + N.of_nat (len_utf8 c)) →
  from_char (add_assign a b) c = add_assign a (from_char b c).
Proof.
  intros [] [] [] [] H32. destruct (char_sizes c) as [? ?]. unfold is_u32 in H32.
  destruct a as [l1 c1 u1 [r1 k1] f1 la1 l161 lr1 lrc1], b as [l2 c2 u2 [r2 k2] f2 la2 l162 lr2 lrc2].
  unfold from_char, add_assign, point_add. cbn in *.
  destruct (N.eqb_spec c char_newline) as [->|Hc].
  - change (N.of_nat (len_utf8 char_newline)) with 1%N in H32. summary_cases; f_equal; try lia; f_equal; lia.
  - summary_cases; f_equal; try lia; f_equal; lia.
Qed.

Lemma encode_snoc_length cs c : length (encode (cs ++ [c])) = length (encode cs) + len_utf8 c.
Proof. rewrite encode_app, length_app. cbn. by rewrite app_nil_r, encode_char_length. Qed.

Definition fits (cs : list Char) : Prop := is_u32 (N.of_nat (length (encode cs))).

Lemma run_ok cs : fits cs → bounded (N.of_nat (length (encode cs))) (run cs) ∧ coherent (run cs).
Proof.
  unfold fits. induction cs as [|c cs IH] using rev_ind; [split; [apply bounded_default|apply coherent_default]|].
  rewrite encode_snoc_length. intros H32. unfold run. rewrite foldl_app. cbn [foldl]. fold (run cs).
  destruct IH as [Hb Hc]; [unfold is_u32 in *; lia|]. rewrite Nat2N.inj_add in *. by apply from_char_bounded.
Qed.

Lemma fits_app cs ds : fits (cs ++ ds) → fits cs ∧ fits ds.
Proof. unfold fits, is_u32. rewrite encode_app, length_app. lia. Qed.

Lemma add_default n s : bounded n s → is_u32 n → coherent s → add_assign s summary_default = s.
Proof.
  intros [] Hn []. destruct s as [l c u [r k] f la l16 lr lrc]. unfold is_u32 in *. unfold add_assign, point_add. cbn in *.
  rewrite !N.add_0_r, !Nat.add_0_r. unwrap. rewrite (proj2 (N.ltb_ge _ _)) by lia. cbn. by destruct (r =? 0)%N, lrc.
Qed.

Lemma run_app cs ds : fits (cs ++ ds) → run (cs ++ ds) = add_assign (run cs) (run ds).
Proof.
  induction ds as [|d ds IH] using rev_ind; intros Hf.
  - rewrite app_nil_r in *. destruct (run_ok cs Hf). symmetry. by eapply add_default.
  - rewrite app_assoc in *. destruct (fits_app _ _ Hf) as [Hf' _]. destruct (fits_app _ _ Hf') as [Hc Hd].
    specialize (IH Hf'). unfold run in *. rewrite !foldl_app in *. cbn [foldl]. rewrite IH.
    destruct (run_ok cs Hc), (run_ok ds Hd). eapply from_char_add; [done..|].
    unfold fits in Hf. rewrite encode_snoc_length, encode_app, length_app, !Nat2N.inj_add in Hf. done.
Qed.

(** ** The summary of a string *)

Definition set_len (n : nat) (s : TextSummary) : TextSummary :=
  mkSummary n (s_chars s) (s_len_utf16 s) (s_lines s) (first_line_chars s) (last_line_chars s) (last_line_len_utf16 s)
    (longest_row s) (longest_row_chars s).

Lemma from_str_encode cs : chars_ok cs → from_str (encode cs) = set_len (length (encode cs)) (run cs).
Proof. intros H. unfold from_str. by rewrite decode_encode. Qed.

Lemma set_len_add m n s t : add_assign (set_len m s) (set_len n t) = set_len (m + n) (add_assign s t).
Proof. unfold add_assign, set_len. cbn. by repeat case_match. Qed.

(** Adding the summaries of two strings gives the summary of the strings joined. *)
Lemma from_str_app t u : utf8 t → utf8 u → is_u32 (N.of_nat (length (t ++ u))) →
  from_str (t ++ u) = add_assign (from_str t) (from_str u).
Proof.
  intros (cs & Hcs & ->) (ds & Hds & ->) Hf. rewrite <- encode_app in *. rewrite !from_str_encode by (done || by apply Forall_app).
  rewrite set_len_add, <- length_app, <- encode_app, run_app; done.
Qed.
