(* ===== verification/Chunk.v ===== *)
(** * Chunks ([crates/rope/src/chunk.rs])

    A chunk holds at most [MAX_BASE] bytes of text, and four bitmaps with one
    bit per byte.  Every query is answered by bit operations on them.  [None]
    is a failed [unwrap], an overflow, an overlong shift or a slice that does
    not start and end at a character boundary. *)

From S2P Require Import Prelude Text Bitmap Select Utf8 Summary.
From S2P Require Cursor.

Abbreviation Bias := Cursor.Bias.
Abbreviation Left := Cursor.Left.
Abbreviation Right := Cursor.Right.

Section chunk.
(** [MAX_BASE = Bitmap::BITS]: 128, and 16 in tests. *)
Context (MAX_BASE : nat).
Abbreviation MIN_BASE := (MAX_BASE / 2).

(** [Chunk] owns its text, a [ChunkSlice] borrows it. *)
Record Chunk := mkChunk {
  chars : N;
  chars_utf16 : N;
  newlines : N;
  tabs : N;
  text : Text;
}.
Abbreviation ChunkSlice := Chunk.

Definition chunk_default : Chunk := mkChunk 0 0 0 0 [].

Definition saturating_shl_mask (offset : nat) : N := wrapping_sub MAX_BASE (unbounded_shl MAX_BASE 1 offset) 1.
Definition saturating_shr_mask (offset : nat) : N := bit_not MAX_BASE (unbounded_shr MAX_BASE (bits_max MAX_BASE) offset).

(** ** [str] operations of the standard library *)

Definition is_str_boundary (t : Text) (i : nat) : bool := is_char_boundary t i.
Definition str_split_at (t : Text) (mid : nat) : option (Text * Text) :=
  if is_str_boundary t mid then Some (take mid t, drop mid t) else None.
Definition str_slice (t : Text) (s e : nat) : option Text :=
  if (s <=? e) && is_str_boundary t s && is_str_boundary t e then Some (take (e - s) (drop s t)) else None.
(** [str::ceil_char_boundary]. *)
Fixpoint step_forward (fuel : nat) (t : Text) (i : nat) : option nat :=
  match fuel with
  | O => None
  | S fuel => if is_str_boundary t i then Some i else step_forward fuel t (S i)
  end.
Definition ceil_char_boundary (t : Text) (i : nat) : nat :=
  if length t <=? i then length t else default (length t) (step_forward (S (length t)) t i).

Definition checked_sub (x y : nat) : option nat := if y <=? x then Some (x - y) else None.

(** ** Building chunks *)

(** One byte of a bitmap: a bit per byte of a group of eight. *)
Definition group_mask (p : byte → bool) (group : Text) : N :=
  foldl (λ acc '(ix, b), N.lor acc (N.shiftl (N.b2n (p b)) (N.of_nat ix))) 0%N (imap pair group).

Fixpoint groups (fuel : nat) (bytes : Text) : list Text :=
  match fuel, bytes with
  | S fuel, _ :: _ => let n := Nat.min (length bytes) 8 in take n bytes :: groups fuel (drop n bytes)
  | _, _ => []
  end.

Definition is_newline (b : byte) : bool := bool_decide (b = LF).
Definition is_tab (b : byte) : bool := bool_decide (b = x09).

Definition new (t : Text) : option Chunk :=
  if length t <=? MAX_BASE then
    let gs := groups (length t) t in
    let chars := of_bytes (group_mask is_utf8_char_boundary <$> gs) in
    chars_utf16 ← shl MAX_BASE (of_bytes (group_mask wide <$> gs)) 1;
    Some (mkChunk chars (N.lor chars_utf16 chars) (of_bytes (group_mask is_newline <$> gs)) (of_bytes (group_mask is_tab <$> gs)) t)
  else None.

Definition append (self slice : Chunk) : option Chunk :=
  if bool_decide (text slice = []) then Some self
  else
    let base_ix := length (text self) in
    c ← shl MAX_BASE (chars slice) base_ix;
    u ← shl MAX_BASE (chars_utf16 slice) base_ix;
    n ← shl MAX_BASE (newlines slice) base_ix;
    b ← shl MAX_BASE (tabs slice) base_ix;
    if length (text self) + length (text slice) <=? MAX_BASE then
      Some (mkChunk (N.lor (chars self) c) (N.lor (chars_utf16 self) u) (N.lor (newlines self) n) (N.lor (tabs self) b)
        (text self ++ text slice))
    else None.

Definition prepend (self slice : Chunk) : option Chunk :=
  if bool_decide (text slice = []) then Some self
  else if bool_decide (text self = []) then new (text slice)
  else
    let shift := length (text slice) in
    c ← shl MAX_BASE (chars self) shift;
    u ← shl MAX_BASE (chars_utf16 self) shift;
    n ← shl MAX_BASE (newlines self) shift;
    b ← shl MAX_BASE (tabs self) shift;
    if length (text slice) + length (text self) <=? MAX_BASE then
      Some (mkChunk (N.lor (chars slice) c) (N.lor (chars_utf16 slice) u) (N.lor (newlines slice) n) (N.lor (tabs slice) b)
        (text slice ++ text self))
    else None.

Definition push_str (self : Chunk) (t : Text) : option Chunk := c ← new t; append self c.
Definition prepend_str (self : Chunk) (t : Text) : option Chunk := c ← new t; prepend self c.

(** ** Boundaries and slices *)

Definition chunk_is_char_boundary (self : Chunk) (offset : nat) : bool :=
  negb (N.land (unbounded_shl MAX_BASE 1 (as_u32 offset)) (chars self) =? 0)%N || (offset =? length (text self)).

(** [Chunk::floor_char_boundary] walks back over the bytes. *)
Fixpoint floor_loop (t : Text) (i : nat) : option nat :=
  match i with
  | O => Some O
  | S j => b ← t !! i; if is_utf8_char_boundary b then Some i else floor_loop t j
  end.
Definition chunk_floor_char_boundary (self : Chunk) (index : nat) : option nat :=
  if length (text self) <=? index then Some (length (text self)) else floor_loop (text self) index.

Definition split_at (self : ChunkSlice) (mid : nat) : option (ChunkSlice * ChunkSlice) :=
  if mid =? MAX_BASE then Some (self, chunk_default)
  else
    m ← shl MAX_BASE 1 mid;
    let mask := (m - 1)%N in
    '(left_text, right_text) ← str_split_at (text self) mid;
    c ← shr MAX_BASE (chars self) mid; u ← shr MAX_BASE (chars_utf16 self) mid;
    n ← shr MAX_BASE (newlines self) mid; b ← shr MAX_BASE (tabs self) mid;
    Some (mkChunk (N.land (chars self) mask) (N.land (chars_utf16 self) mask) (N.land (newlines self) mask)
            (N.land (tabs self) mask) left_text,
          mkChunk c u n b right_text).

Definition slice (self : ChunkSlice) (s e : nat) : option ChunkSlice :=
  if s =? MAX_BASE then Some chunk_default
  else
    let s := if chunk_is_char_boundary self s then s else ceil_char_boundary (text self) s in
    let e := if chunk_is_char_boundary self e then e else if e <? s then s else floor_char_boundary (text self) e in
    let mask := saturating_shl_mask (as_u32 e) in
    c ← shr MAX_BASE (N.land (chars self) mask) s; u ← shr MAX_BASE (N.land (chars_utf16 self) mask) s;
    n ← shr MAX_BASE (N.land (newlines self) mask) s; b ← shr MAX_BASE (N.land (tabs self) mask) s;
    t ← str_slice (text self) s e;
    Some (mkChunk c u n b t).

(** ** Summaries *)

Definition chunk_len (self : ChunkSlice) : nat := length (text self).
Definition len_utf16 (self : ChunkSlice) : nat := count_ones MAX_BASE (chars_utf16 self).

Definition chunk_lines (self : ChunkSlice) : option Point :=
  let r := count_ones MAX_BASE (newlines self) in
  unused ← checked_sub MAX_BASE (length (text self));
  c ← checked_sub (leading_zeros MAX_BASE (newlines self)) unused;
  Some (mkPoint (N.of_nat r) (N.of_nat c)).

Definition chunk_first_line_chars (self : ChunkSlice) : nat :=
  count_ones MAX_BASE (N.land (chars self) (saturating_shl_mask (trailing_zeros MAX_BASE (newlines self)))).
Definition chunk_last_line_chars (self : ChunkSlice) : nat :=
  count_ones MAX_BASE (N.land (chars self) (saturating_shr_mask (leading_zeros MAX_BASE (newlines self)))).
Definition chunk_last_line_len_utf16 (self : ChunkSlice) : nat :=
  count_ones MAX_BASE (N.land (chars_utf16 self) (saturating_shr_mask (leading_zeros MAX_BASE (newlines self)))).

(** The loop of [longest_row]; a row's characters are counted in a [u8]. *)
Fixpoint longest_row_loop (fuel : nat) (chars newlines : N) (total r lr : nat) (lrc : N) : option (nat * (nat * N)) :=
  match fuel with
  | O => None
  | S fuel =>
      if (newlines =? 0)%N then
        let row_chars := (N.of_nat (count_ones MAX_BASE chars) mod 256)%N in
        let total := total + N.to_nat row_chars in
        Some (total, if (lrc <? row_chars)%N then (r, row_chars) else (lr, lrc))
      else
        let newline_ix := trailing_zeros MAX_BASE newlines in
        m ← shl MAX_BASE 1 newline_ix;
        let row_chars := (N.of_nat (count_ones MAX_BASE (N.land chars (m - 1))) mod 256)%N in
        let total := total + N.to_nat row_chars in
        let '(lr, lrc) := if (lrc <? row_chars)%N then (r, row_chars) else (lr, lrc) in
        newlines ← shr MAX_BASE newlines newline_ix; newlines ← shr MAX_BASE newlines 1;
        chars ← shr MAX_BASE chars newline_ix; chars ← shr MAX_BASE chars 1;
        longest_row_loop fuel chars newlines (total + 1) (S r) lr lrc
  end.
Definition chunk_longest_row (self : ChunkSlice) : option (nat * (nat * N)) :=
  longest_row_loop (S MAX_BASE) (chars self) (newlines self) 0 0 0 0.

Definition text_summary (self : ChunkSlice) : option TextSummary :=
  '(total, (lr, lrc)) ← chunk_longest_row self;
  l ← chunk_lines self;
  Some (mkSummary (chunk_len self) total (len_utf16 self) l (N.of_nat (chunk_first_line_chars self))
    (N.of_nat (chunk_last_line_chars self)) (N.of_nat (chunk_last_line_len_utf16 self)) (N.of_nat lr) lrc).

(** ** Offsets and points *)

Definition offset_to_point (self : ChunkSlice) (offset : nat) : option Point :=
  let mask := saturating_shl_mask (as_u32 offset) in
  let r := count_ones MAX_BASE (N.land (newlines self) mask) in
  let newline_ix := MAX_BASE - leading_zeros MAX_BASE (N.land (newlines self) mask) in
  c ← checked_sub offset newline_ix;
  Some (mkPoint (N.of_nat r) (wrap_u32 (N.of_nat c))).

(** The position of the [n]-th one of a bitmap, zero-extended to 128 bits. *)
Definition offset_range_for_row (self : ChunkSlice) (r : nat) : option (nat * nat) :=
  row_start ← (if 0 <? r then ix ← nth_set_bit (newlines self) r; Some (ix + 1) else Some 0);
  row_len ← (if row_start =? MAX_BASE then Some 0
             else rest ← shr MAX_BASE (newlines self) row_start;
                  left ← checked_sub (length (text self)) row_start;
                  Some (Nat.min (trailing_zeros MAX_BASE rest) (as_u32 left)));
  Some (row_start, row_start + row_len).

(** [debug_panic!] logs and goes on in release builds. *)
Definition point_to_offset (self : ChunkSlice) (point : Point) : option nat :=
  l ← chunk_lines self;
  if (row l <? row point)%N then Some (chunk_len self)
  else
    '(s, e) ← offset_range_for_row self (N.to_nat (row point));
    if (N.of_nat (as_u32 (e - s)) <? column point)%N then Some e else Some (s + N.to_nat (column point)).

Definition offset_to_offset_utf16 (self : ChunkSlice) (offset : nat) : nat :=
  count_ones MAX_BASE (N.land (chars_utf16 self) (saturating_shl_mask (as_u32 offset))).

Definition point_to_offset_utf16 (self : ChunkSlice) (point : Point) : option nat :=
  l ← chunk_lines self;
  if (row l <? row point)%N then Some (len_utf16 self)
  else offset_to_offset_utf16 self <$> point_to_offset self point.

Definition offset_utf16_to_offset (self : ChunkSlice) (target : nat) : option nat :=
  if target =? 0 then Some 0
  else
    i ← nth_set_bit (chars_utf16 self) target;
    let ix := i + 1 in
    if ix =? MAX_BASE then Some MAX_BASE
    else
      rest ← shr MAX_BASE (chars_utf16 self) ix;
      left ← checked_sub (length (text self)) ix;
      Some (ix + Nat.min (trailing_zeros MAX_BASE rest) left).

Definition offset_to_point_utf16 (self : ChunkSlice) (offset : nat) : option PointUtf16 :=
  let mask := saturating_shl_mask (as_u32 offset) in
  let r := count_ones MAX_BASE (N.land (newlines self) (saturating_shl_mask (as_u32 offset))) in
  let newline_ix := MAX_BASE - leading_zeros MAX_BASE (N.land (newlines self) mask) in
  c ← (if newline_ix =? MAX_BASE then Some 0
       else x ← shr MAX_BASE (N.land (chars_utf16 self) mask) newline_ix; Some (count_ones MAX_BASE x));
  Some (mkPoint (N.of_nat r) (N.of_nat c)).

Definition point_to_point_utf16 (self : ChunkSlice) (point : Point) : option PointUtf16 :=
  o ← point_to_offset self point; offset_to_point_utf16 self o.

Definition point_utf16_to_offset (self : ChunkSlice) (point : PointUtf16) (clip : bool) : option nat :=
  l ← chunk_lines self;
  if (row l <? row point)%N then Some (chunk_len self)
  else
    '(s, e) ← offset_range_for_row self (N.to_nat (row point));
    line ← slice self s e;
    if (N.of_nat (chunk_last_line_len_utf16 line) <? column point)%N then Some e
    else if (0 <? column point)%N then
      o ← offset_utf16_to_offset line (N.to_nat (column point));
      let offset := s + o in
      if is_str_boundary (text self) offset then Some offset
      else offset ← checked_sub offset 1; Some (step_back (text self) offset)
    else Some s.

Definition unclipped_point_utf16_to_point (self : ChunkSlice) (point : PointUtf16) : option Point :=
  max_point ← chunk_lines self;
  if (row max_point <? row point)%N then Some max_point
  else
    '(s, e) ← offset_range_for_row self (N.to_nat (row point));
    line ← slice self s e;
    if (column point =? 0)%N then Some (mkPoint (row point) 0)
    else if (N.of_nat (as_u32 (len_utf16 line)) <=? column point)%N then Some (mkPoint (row point) (N.of_nat (as_u32 (chunk_len line))))
    else
      o ← offset_utf16_to_offset line (N.to_nat (column point));
      Some (mkPoint (row point) (N.of_nat (as_u32 (step_back (text line) o)))).

(** [GraphemeCursor] of the [unicode-segmentation] crate decides where a
    grapheme ends: the text and an offset to whether it is a boundary. *)
Context (is_grapheme_boundary : Text → nat → bool).

Fixpoint clip_loop (fuel : nat) (line : ChunkSlice) (bias : Bias) (c : nat) : option nat :=
  match fuel with
  | O => None
  | S fuel =>
      if chunk_is_char_boundary line c && is_grapheme_boundary (text line) c then Some c
      else match bias with
           | Left => c ← checked_sub c 1; clip_loop fuel line bias c
           | Right => clip_loop fuel line bias (c + 1)
           end
  end.

Definition is_ascii (b : byte) : bool := (Byte.to_N b <? 128)%N.

Definition clip_point (self : ChunkSlice) (point : Point) (bias : Bias) : option Point :=
  max_point ← chunk_lines self;
  if (row max_point <? row point)%N then Some max_point
  else
    '(s, e) ← offset_range_for_row self (N.to_nat (row point));
    line ← slice self s e;
    if (column point =? 0)%N then Some point
    else if (N.of_nat (as_u32 (chunk_len line)) <=? column point)%N then Some (mkPoint (row point) (N.of_nat (as_u32 (chunk_len line))))
    else
      let c := N.to_nat (column point) in
      b1 ← text line !! (c - 1);
      both ← (if is_ascii b1 then b2 ← text line !! c; Some (is_ascii b2) else Some false);
      if both : bool then Some (mkPoint (row point) (column point))
      else c ← clip_loop (S (S (chunk_len line))) line bias c; Some (mkPoint (row point) (N.of_nat (as_u32 c))).

Fixpoint clip_offset_loop (fuel : nat) (t : Text) (bias : Bias) (offset : nat) : option nat :=
  match fuel with
  | O => None
  | S fuel =>
      if is_str_boundary t offset then Some offset
      else match bias with
           | Left => offset ← checked_sub offset 1; clip_offset_loop fuel t bias offset
           | Right => clip_offset_loop fuel t bias (offset + 1)
           end
  end.

Definition clip_offset_utf16 (self : ChunkSlice) (target : nat) (bias : Bias) : option nat :=
  if target =? 0 then Some 0
  else if len_utf16 self <=? target then Some (len_utf16 self)
  else
    offset ← offset_utf16_to_offset self target;
    offset ← clip_offset_loop (S (chunk_len self)) (text self) bias offset;
    Some (offset_to_offset_utf16 self offset).

Definition clip_point_utf16 (self : ChunkSlice) (point : PointUtf16) (bias : Bias) : option PointUtf16 :=
  max_point ← chunk_lines self;
  if (row max_point <? row point)%N then Some (mkPoint (row max_point) (N.of_nat (chunk_last_line_len_utf16 self)))
  else
    '(s, e) ← offset_range_for_row self (N.to_nat (row point));
    line ← slice self s e;
    c ← clip_offset_utf16 line (N.to_nat (column point)) bias;
    Some (mkPoint (row point) (N.of_nat (as_u32 c))).

(** ** Tabs *)

Record Tabs := mkTabs { t_tabs : N; t_chars : N }.
Record TabPosition := mkTab { byte_offset : nat; char_offset : nat }.
Definition chunk_tabs (self : ChunkSlice) : Tabs := mkTabs (tabs self) (chars self).

(** [Iterator::next]: the position, and the iterator it leaves. *)
Definition tabs_next (self : Tabs) : option (option (TabPosition * Tabs)) :=
  if (t_tabs self =? 0)%N then Some None
  else
    let tab_offset := trailing_zeros MAX_BASE (t_tabs self) in
    m ← shl MAX_BASE 1 tab_offset;
    let char_offset := count_ones MAX_BASE (N.land (t_chars self) (m - 1)) in
    Some (Some (mkTab tab_offset char_offset, mkTabs (N.lxor (t_tabs self) m) (t_chars self))).

Fixpoint tabs_collect (fuel : nat) (it : Tabs) : option (list TabPosition) :=
  match fuel with
  | O => None
  | S fuel => r ← tabs_next it;
      match r with
      | None => Some []
      | Some (p, it) => ps ← tabs_collect fuel it; Some (p :: ps)
      end
  end.
End chunk.
