(* ===== verification/ChunkBits.v ===== *)
(** * The bits of a text

    What the four bitmaps of a chunk mean: lists of bits computed from the
    bytes, how they split over concatenation, and that [Chunk::new] computes
    them. *)

From S2P Require Import Prelude Text Bitmap Select Utf8 Summary Chunk.

Definition chars_bits (t : Text) : list bool := is_utf8_char_boundary <$> t.
Definition newline_bits (t : Text) : list bool := is_newline <$> t.
Definition tab_bits (t : Text) : list bool := is_tab <$> t.

(** A unit of UTF-16 per boundary, and one more after the first byte of a
    four-byte character. *)
Fixpoint utf16_from (prev : bool) (t : Text) : list bool :=
  match t with [] => [] | b :: t => (is_utf8_char_boundary b || prev) :: utf16_from (wide b) t end.
Definition utf16_bits (t : Text) : list bool := utf16_from false t.

Lemma utf16_from_length p t : length (utf16_from p t) = length t.
Proof. revert p. induction t as [|b t IH]; intros p; [done|]. cbn. by rewrite IH. Qed.
Lemma utf16_bits_length t : length (utf16_bits t) = length t.
Proof. apply utf16_from_length. Qed.

Definition last_wide (p : bool) (t : Text) : bool := foldl (λ _, wide) p t.
Lemma utf16_from_app p t u : utf16_from p (t ++ u) = utf16_from p t ++ utf16_from (last_wide p t) u.
Proof. revert p. induction t as [|b t IH]; intros p; [done|]. cbn. by rewrite IH. Qed.

Lemma last_wide_app p t u : last_wide p (t ++ u) = last_wide (last_wide p t) u.
Proof. unfold last_wide. by rewrite foldl_app. Qed.

Lemma last_wide_char p c : is_char c = true → last_wide p (encode_char c) = false.
Proof.
  intros Hc. pose proof (encode_char_wide c Hc) as H. pose proof (len_utf8_bounds c).
  assert (∀ l q, l ≠ [] → last_wide q l = default false (last (wide <$> l))) as Hlast.
  { intros l. induction l as [|b l IH]; intros q Hl; [done|]. cbn [last_wide foldl fmap list_fmap]. destruct l as [|b' l]; [done|].
    change (last_wide (wide b) (b' :: l) = default false (last (wide b :: (wide <$> b' :: l)))). rewrite IH by done. done. }
  rewrite Hlast, H.
  - destruct (len_utf8 c) as [|[|n]] eqn:E; [lia| |].
    + unfold len_utf8, char_len_utf16 in *. cbn. repeat case_match; try done; repeat match goal with H : (_ <? _)%N = _ |- _ => first [apply N.ltb_lt in H|apply N.ltb_ge in H] end; lia.
    + replace (S (S n) - 1) with (n + 1) by lia. rewrite replicate_add. cbn [replicate]. by rewrite app_comm_cons, last_snoc.
  - intros E0%(f_equal length). rewrite encode_char_length in E0. cbn in E0. lia.
Qed.

Lemma last_wide_utf8 t : utf8 t → last_wide false t = false.
Proof.
  intros (cs & Hcs & ->). induction cs as [|c cs _] using rev_ind; [done|]. apply Forall_app in Hcs as [_ Hc].
  rewrite encode_app, last_wide_app. cbn. rewrite app_nil_r. apply last_wide_char. by apply Forall_inv in Hc.
Qed.

Lemma utf16_bits_app t u : utf8 t → utf16_bits (t ++ u) = utf16_bits t ++ utf16_bits u.
Proof. intros Ht. unfold utf16_bits. by rewrite utf16_from_app, last_wide_utf8. Qed.

(** ** Boundaries of valid text *)

Lemma utf8_nil : utf8 [].
Proof. exists []. by split; [constructor|]. Qed.
Lemma utf8_app t u : utf8 t → utf8 u → utf8 (t ++ u).
Proof. intros (cs & ? & ->) (ds & ? & ->). exists (cs ++ ds). rewrite encode_app. split; [by apply Forall_app|done]. Qed.

Lemma boundary_take t s e : is_char_boundary t s = true → s ≤ e → is_char_boundary (take e t) s = true.
Proof.
  intros Hs He. pose proof (boundary_le t s Hs). unfold is_char_boundary in *. destruct (Nat.eqb_spec s 0); [done|].
  destruct (decide (s = e)) as [->|].
  - rewrite lookup_take_ge, length_take by lia. apply Nat.eqb_eq. lia.
  - rewrite lookup_take_lt by lia. destruct (t !! s) eqn:E; [done|]. apply lookup_ge_None in E. rewrite length_take. apply Nat.eqb_eq. lia.
Qed.

Lemma boundary_app_r t u i : t ≠ [] → utf8 u → is_char_boundary (t ++ u) (length t + i) = is_char_boundary u i.
Proof.
  intros Ht (cs & Hcs & ->). unfold is_char_boundary. destruct (Nat.eqb_spec (length t + i) 0); [by destruct t|].
  rewrite lookup_app_r, length_app by lia. replace (length t + i - length t) with i by lia.
  destruct (Nat.eqb_spec i 0) as [->|Hi].
  - destruct cs as [|c cs]; [cbn; apply Nat.eqb_refl|]. apply Forall_cons in Hcs as [Hc _].
    pose proof (encode_char_boundary c Hc) as Hb. rewrite encode_cons. destruct (encode_char c) as [|b l]; [done|]. cbn in *.
    by injection Hb.
  - destruct (encode cs !! i); [done|]. destruct (Nat.eqb_spec i (length (encode cs))), (Nat.eqb_spec (length t + i) (length t + length (encode cs))); lia || done.
Qed.

Lemma boundary_app_l t u i : utf8 u → i ≤ length t → is_char_boundary (t ++ u) i = is_char_boundary t i.
Proof.
  intros Hu Hi. destruct (decide (i = length t)) as [->|Hne].
  - rewrite boundary_length. destruct (decide (t = [])) as [->|Ht]; [done|].
    rewrite <- (Nat.add_0_r (length t)). by rewrite boundary_app_r.
  - unfold is_char_boundary. destruct (i =? 0); [done|]. rewrite lookup_app_l by lia.
    destruct (t !! i) eqn:E; [done|]. apply lookup_ge_None in E. lia.
Qed.

Lemma boundary_in_char c u i : is_char c = true → 0 < i < len_utf8 c → is_char_boundary (encode_char c ++ u) i = false.
Proof.
  intros Hc Hi. unfold is_char_boundary. rewrite (proj2 (Nat.eqb_neq i 0)) by lia.
  rewrite lookup_app_l by (rewrite encode_char_length; lia).
  pose proof (encode_char_boundary c Hc) as Hb. assert ((is_utf8_char_boundary <$> encode_char c) !! i = Some false) as H.
  { rewrite Hb. destruct i as [|i]; [lia|]. cbn. apply lookup_replicate_2. lia. }
  rewrite list_lookup_fmap in H. destruct (encode_char c !! i); [by injection H|done].
Qed.

(** A boundary of an encoded text splits its characters. *)
Lemma boundary_split cs i : chars_ok cs → is_char_boundary (encode cs) i = true →
  ∃ cs1 cs2, cs = cs1 ++ cs2 ∧ i = length (encode cs1).
Proof.
  intros Hcs. revert i. induction Hcs as [|c cs Hc Hcs IH]; intros i Hi.
  - apply boundary_le in Hi. cbn in Hi. exists [], []. split; [done|]. cbn. lia.
  - destruct (decide (i = 0)) as [->|Hi0]; [by exists [], (c :: cs)|]. rewrite encode_cons in Hi.
    destruct (decide (i < len_utf8 c)); [by rewrite boundary_in_char in Hi by (done || lia)|].
    pose proof (len_utf8_bounds c). replace i with (length (encode_char c) + (i - len_utf8 c)) in Hi by (rewrite encode_char_length; lia).
    rewrite boundary_app_r in Hi; [|intros E0%(f_equal length); rewrite encode_char_length in E0; cbn in E0; lia|by exists cs].
    destruct (IH _ Hi) as (cs1 & cs2 & -> & Hi'). exists (c :: cs1), cs2. split; [done|].
    rewrite encode_cons, length_app, encode_char_length. lia.
Qed.

Lemma utf8_split t i : utf8 t → is_char_boundary t i = true → utf8 (take i t) ∧ utf8 (drop i t).
Proof.
  intros (cs & Hcs & ->) Hi. destruct (boundary_split cs i Hcs Hi) as (cs1 & cs2 & -> & ->). apply Forall_app in Hcs as [? ?].
  rewrite encode_app, take_app_length, drop_app_length. split; [by exists cs1|by exists cs2].
Qed.

(** Normalising the line endings of valid text gives valid text. *)
Lemma normalize_app l t : CR ∉ l → normalize (l ++ t) = l ++ normalize t.
Proof.
  induction l as [|c l IH]; intros Hn; [done|]. apply not_elem_of_cons in Hn as [Hc Hn].
  cbn [app normalize]. rewrite bool_decide_eq_false_2 by done. by rewrite IH.
Qed.

Lemma char_free a c : (a < 128)%N → is_char c = true → c ≠ a → byte_of a ∉ encode_char c.
Proof.
  intros Ha Hc Hne [i Hi]%list_elem_of_lookup. pose proof (encode_char_ascii a c Ha Hc) as H.
  apply (f_equal (lookup i)) in H. rewrite list_lookup_fmap, Hi in H. cbn [fmap option_fmap option_map] in H.
  rewrite bool_decide_eq_true_2, bool_decide_eq_false_2 in H by done. destruct i as [|i]; [done|].
  cbn in H. symmetry in H. apply lookup_replicate in H. by destruct H.
Qed.

Lemma normalize_utf8 t : utf8 t → utf8 (normalize t).
Proof.
  intros (cs & Hcs & ->). remember (length cs) as n eqn:Hn. revert cs Hcs Hn.
  induction n as [n IH] using lt_wf_ind. intros [|c cs] Hcs Hn; [apply utf8_nil|]. apply Forall_cons in Hcs as [Hc Hcs].
  cbn [length] in Hn. assert (utf8 (encode [10%N])) as Hlf by (exists [10%N]; by repeat constructor).
  destruct (decide (c = 13%N)) as [->|Hne].
  - change (encode (13%N :: cs)) with (CR :: encode cs). destruct cs as [|d cs]; [exact Hlf|].
    assert (normalize (CR :: encode (d :: cs)) = LF :: normalize (encode (if decide (d = 10%N) then cs else d :: cs))) as ->.
    { destruct (decide (d = 10%N)) as [->|Hd]; [done|]. apply Forall_cons in Hcs as [Hdc _].
      pose proof (char_free 10 d ltac:(done) Hdc Hd) as Hf. pose proof (encode_char_length d) as Hl. pose proof (len_utf8_bounds d).
      rewrite encode_cons. destruct (encode_char d) as [|b l]; [cbn in Hl; lia|]. apply not_elem_of_cons in Hf as [Hb _].
      cbn [app normalize]. by rewrite (bool_decide_eq_false_2 (b = LF)) by (intros ->; by apply Hb). }
    apply (utf8_app [LF]); [exact Hlf|]. destruct (decide _); (eapply IH; [|..|reflexivity]); cbn in *; try lia; try done.
    by apply Forall_cons in Hcs as [_ ?].
  - rewrite encode_cons, normalize_app by (by apply (char_free 13 c)). apply utf8_app.
    + exists [c]. split; [by constructor|]. unfold encode. cbn. by rewrite app_nil_r.
    + eapply IH; [|exact Hcs|reflexivity]. lia.
Qed.

(** ** [Chunk::new] *)

Lemma group_mask_ok p g : group_mask p g = of_bits (p <$> g).
Proof.
  unfold group_mask. induction g as [|b g IH] using rev_ind; [done|].
  rewrite imap_app, foldl_app, IH, fmap_app. cbn [imap foldl]. rewrite Nat.add_0_r.
  rewrite <- of_bits_app, length_fmap. do 2 f_equal. cbn. lia.
Qed.

Lemma groups_ok p n t : length t ≤ n → of_bytes (group_mask p <$> groups n t) = of_bits (p <$> t).
Proof.
  revert t. induction n as [|n IH]; intros t Hn; [destruct t; [done|cbn in Hn; lia]|]. destruct t as [|b t]; [done|].
  cbn [groups]. set (k := Nat.min (length (b :: t)) 8). cbn [fmap list_fmap of_bytes]. rewrite group_mask_ok, IH.
  2: { rewrite length_drop. unfold k. cbn [length] in *. lia. }
  transitivity (of_bits (p <$> take k (b :: t) ++ drop k (b :: t))); [|by rewrite take_drop].
  rewrite fmap_app, of_bits_cat, length_fmap, length_take. f_equal.
  destruct (decide (8 ≤ length (b :: t))) as [H8|H8].
  - assert (k = 8) as -> by (unfold k; lia). by rewrite Nat.min_l by lia.
  - assert (k = length (b :: t)) as -> by (unfold k; lia). by rewrite drop_all, !N.mul_0_r.
Qed.

(** Shifting the wide bits by one and adding the boundaries. *)
Lemma utf16_from_spec p t : p = false ∨ t ≠ [] →
  (∀ i, default false (utf16_from p t !! i) = default false (chars_bits t !! i) || default false (removelast (p :: (wide <$> t)) !! i)).
Proof.
  revert p. induction t as [|b t IH]; intros p Hp i; [destruct Hp as [->|]; [by destruct i|done]|].
  destruct i as [|i]; cbn [utf16_from chars_bits fmap list_fmap]; [done|]. change (removelast (p :: wide b :: (wide <$> t))) with (p :: removelast (wide b :: (wide <$> t))).
  cbn. destruct t as [|b' t]; [done|]. apply IH. by right.
Qed.

Lemma utf16_shift t : last_wide false t = false →
  N.lor (of_bits (false :: (wide <$> t))) (of_bits (chars_bits t)) = of_bits (utf16_bits t).
Proof.
  intros Hl. apply N.bits_inj. intros i. rewrite N.lor_spec, !testbit_of_bits_N. unfold utf16_bits. rewrite utf16_from_spec by by left.
  rewrite orb_comm. f_equal.
  destruct (exists_last (l := false :: (wide <$> t))) as (l & x & E); [done|]. rewrite E, removelast_last.
  assert (x = false) as ->.
  { assert (last (false :: (wide <$> t)) = Some x) as Hx by (rewrite E; apply last_snoc).
    destruct t as [|b t _] using rev_ind; [by injection Hx|]. rewrite last_wide_app in Hl. cbn in Hl. rewrite fmap_app in Hx.
    cbn [fmap list_fmap] in Hx. rewrite app_comm_cons, last_snoc in Hx. congruence. }
  destruct (decide (N.to_nat i < length l)); [by rewrite lookup_app_l|].
  rewrite lookup_app_r, (lookup_ge_None_2 l) by lia. by destruct (N.to_nat i - length l) as [|[|]].
Qed.

Section new.
Context (MAX_BASE : nat) (HMAX : 2 ≤ MAX_BASE).

(** A chunk's bitmaps are the bits of its text, which is valid and fits. *)
Record chunk_ok (c : Chunk) : Prop := {
  ck_len : length (text c) ≤ MAX_BASE;
  ck_utf8 : utf8 (text c);
  ck_chars : chars c = of_bits (chars_bits (text c));
  ck_utf16 : chars_utf16 c = of_bits (utf16_bits (text c));
  ck_newlines : newlines c = of_bits (newline_bits (text c));
  ck_tabs : tabs c = of_bits (tab_bits (text c));
}.

Definition chunk_of (t : Text) : Chunk :=
  mkChunk (of_bits (chars_bits t)) (of_bits (utf16_bits t)) (of_bits (newline_bits t)) (of_bits (tab_bits t)) t.

Lemma chunk_of_ok t : utf8 t → length t ≤ MAX_BASE → chunk_ok (chunk_of t).
Proof. done. Qed.
Lemma chunk_ok_of c : chunk_ok c → c = chunk_of (text c).
Proof. intros []. destruct c. cbn in *. by subst. Qed.

Lemma last_wide_bits t n : last_wide false t = false → length t ≤ n → (of_bits (false :: (wide <$> t)) < 2 ^ N.of_nat n)%N.
Proof.
  intros Hl Hn. destruct t as [|b t _] using rev_ind; [cbn; apply N.neq_0_lt_0, N.pow_nonzero; lia|].
  rewrite last_wide_app in Hl. cbn in Hl. rewrite fmap_app. cbn [fmap list_fmap]. rewrite Hl, app_comm_cons.
  change [false] with (replicate 1 false). rewrite of_bits_pad. eapply N.lt_le_trans; [apply of_bits_lt|].
  apply N.pow_le_mono_r; [lia|]. rewrite length_app in Hn. cbn in *. rewrite length_fmap. lia.
Qed.

Lemma new_of t : utf8 t → length t ≤ MAX_BASE → new MAX_BASE t = Some (chunk_of t).
Proof using HMAX.
  intros Ht Hlen. unfold new. rewrite (proj2 (Nat.leb_le _ _) Hlen). rewrite !groups_ok by done.
  pose proof (last_wide_utf8 t Ht) as Hl. unfold shl. rewrite (proj2 (Nat.ltb_lt 1 _)) by lia. cbn [mbind option_bind].
  assert (N.shiftl (of_bits (wide <$> t)) (N.of_nat 1) = of_bits (false :: (wide <$> t))) as ->.
  { rewrite N.shiftl_mul_pow2. cbn [of_bits N.b2n]. change (2 ^ N.of_nat 1)%N with 2%N. lia. }
  rewrite wrap_small by by apply last_wide_bits. unfold chunk_of. by rewrite <- utf16_shift.
Qed.
End new.
