(* ===== verification/History.v ===== *)
(** * Undo history ([History] of [crates/text/src/text.rs])

    Two stacks of transactions.  Stacks are lists with the top at the end, as
    the source's vectors; [None] is a failed assertion or an [unwrap] of
    [None].  The map of operations is the finite map that [TreeMap] implements
    (see TreeMap.v). *)

From S2P Require Import Prelude Clock Text.

Abbreviation TransactionId := Lamport.

(** [Transaction], [HistoryEntry]; an [Instant] is a number of nanoseconds. *)
Record Transaction := mkTransaction { id : TransactionId; edit_ids : list Lamport; t_start : Global }.
Record HistoryEntry := mkHistoryEntry {
  transaction : Transaction;
  first_edit_at : N;
  last_edit_at : N;
  suppress_grouping : bool;
}.

(** The operations the history stores: only whether one is an edit matters. *)
Inductive OperationKind := KEdit | KUndo.

Record History := mkHistory {
  base_text : Text;
  operations : gmap Lamport OperationKind;
  undo_stack : list HistoryEntry;
  redo_stack : list HistoryEntry;
  transaction_depth : nat;
  group_interval : N;
}.

#[export] Instance Transaction_eq_dec : EqDecision Transaction.
Proof. solve_decision. Defined.
#[export] Instance HistoryEntry_eq_dec : EqDecision HistoryEntry.
Proof. solve_decision. Defined.

Definition merge_in (self other : Transaction) : Transaction :=
  mkTransaction (id self) (edit_ids self ++ edit_ids other) (t_start self).

Definition transaction_id (e : HistoryEntry) : TransactionId := id (transaction e).

(** Record updates. *)
Definition with_stacks (h : History) (u r : list HistoryEntry) : History :=
  mkHistory (base_text h) (operations h) u r (transaction_depth h) (group_interval h).
Definition with_depth (h : History) (d : nat) : History :=
  mkHistory (base_text h) (operations h) (undo_stack h) (redo_stack h) d (group_interval h).
Definition with_transaction (e : HistoryEntry) (t : Transaction) : HistoryEntry :=
  mkHistoryEntry t (first_edit_at e) (last_edit_at e) (suppress_grouping e).
Definition with_last_edit_at (e : HistoryEntry) (now : N) : HistoryEntry :=
  mkHistoryEntry (transaction e) (first_edit_at e) now (suppress_grouping e).
Definition add_edits (t : Transaction) (l : list Lamport) : Transaction :=
  mkTransaction (id t) (edit_ids t ++ l) (t_start t).

(** [Vec::last_mut] and [Vec::pop] on the last element. *)
Definition update_top (f : HistoryEntry → HistoryEntry) (l : list HistoryEntry) : list HistoryEntry :=
  match last l with Some e => take (length l - 1) l ++ [f e] | None => l end.
Definition pop_top (l : list HistoryEntry) : list HistoryEntry := take (length l - 1) l.

(** ** Operations *)

(** [History::new]; 300 ms outside tests. *)
Definition new_history (base : Text) : History := mkHistory base ∅ [] [] 0 300000000%N.

Definition push (h : History) (ts : Lamport) (k : OperationKind) : History :=
  mkHistory (base_text h) (<[ts := k]> (operations h)) (undo_stack h) (redo_stack h) (transaction_depth h) (group_interval h).

Definition new_entry (t : Transaction) (now : N) : HistoryEntry := mkHistoryEntry t now now false.

Definition start_transaction (h : History) (start : Global) (now : N) (clock : Lamport)
    : option TransactionId * History * Lamport :=
  let h := with_depth h (S (transaction_depth h)) in
  if transaction_depth h =? 1 then
    let '(tid, clock) := tick clock in
    (Some tid,
     with_stacks h (undo_stack h ++ [new_entry (mkTransaction tid [] start) now]) (redo_stack h),
     clock)
  else (None, h, clock).

Definition end_transaction (h : History) (now : N) : option (option HistoryEntry * History) :=
  match transaction_depth h with
  | O => None
  | S d =>
      let h := with_depth h d in
      if d =? 0 then
        e ← last (undo_stack h);
        match edit_ids (transaction e) with
        | [] => Some (None, with_stacks h (pop_top (undo_stack h)) (redo_stack h))
        | _ =>
            let h := with_stacks h (update_top (λ e, with_last_edit_at e now) (undo_stack h)) [] in
            Some (last (undo_stack h), h)
        end
      else Some (None, h)
  end.

Definition group_trailing (h : History) (n : nat) : option (option TransactionId * History) :=
  if length (undo_stack h) <? n then None else
  let new_len := length (undo_stack h) - n in
  let entries_to_keep := take new_len (undo_stack h) in
  let entries_to_merge := drop new_len (undo_stack h) in
  let merged := concat ((λ e, edit_ids (transaction e)) <$> entries_to_merge) in
  let kept := update_top (λ last_entry,
      let last_entry := with_transaction last_entry (add_edits (transaction last_entry) merged) in
      match last entries_to_merge with
      | Some entry => with_last_edit_at last_entry (last_edit_at entry)
      | None => last_entry
      end) entries_to_keep in
  Some (transaction_id <$> last kept, with_stacks h kept (redo_stack h)).

(** The loop of [group] over the entries from the back; [Instant]
    subtraction saturates at zero. *)
Fixpoint group_count (interval : N) (entry : HistoryEntry) (rev_prev : list HistoryEntry) : nat :=
  match rev_prev with
  | prev_entry :: rest =>
      if negb (suppress_grouping prev_entry) &&
         (first_edit_at entry - last_edit_at prev_entry <? interval)%N
      then S (group_count interval prev_entry rest)
      else 0
  | [] => 0
  end.

Definition group (h : History) : option (option TransactionId * History) :=
  let count := match rev (undo_stack h) with
               | entry :: rest => group_count (group_interval h) entry rest
               | [] => 0
               end in
  group_trailing h count.

Fixpoint group_until_loop (h : History) (tid : TransactionId) (count : nat) (rev_entries : list HistoryEntry)
    : option History :=
  match rev_entries with
  | [] => Some h
  | entry :: rest =>
      if bool_decide (transaction_id entry = tid) then snd <$> group_trailing h count
      else if suppress_grouping entry then Some h
      else group_until_loop h tid (S count) rest
  end.
Definition group_until (h : History) (tid : TransactionId) : option History :=
  group_until_loop h tid 0 (rev (undo_stack h)).

Definition finalize_last_transaction (h : History) : option Transaction * History :=
  let u := update_top (λ e, mkHistoryEntry (transaction e) (first_edit_at e) (last_edit_at e) true) (undo_stack h) in
  (transaction <$> last u, with_stacks h u (redo_stack h)).

Definition assert_depth_0 (h : History) : option () := if transaction_depth h =? 0 then Some () else None.

Definition push_transaction (h : History) (t : Transaction) (now : N) : option History :=
  _ ← assert_depth_0 h;
  Some (with_stacks h (undo_stack h ++ [new_entry t now]) (redo_stack h)).

Definition push_empty_transaction (h : History) (start : Global) (now : N) (clock : Lamport)
    : option (TransactionId * History * Lamport) :=
  _ ← assert_depth_0 h;
  let '(tid, clock) := tick clock in
  Some (tid, with_stacks h (undo_stack h ++ [new_entry (mkTransaction tid [] start) now]) (redo_stack h), clock).

Definition push_undo (h : History) (op_id : Lamport) : option History :=
  match transaction_depth h with
  | O => None
  | S _ =>
      match operations h !! op_id with
      | Some KEdit =>
          _ ← last (undo_stack h);
          Some (with_stacks h
            (update_top (λ e, with_transaction e (add_edits (transaction e) [op_id])) (undo_stack h))
            (redo_stack h))
      | _ => Some h
      end
  end.

Definition pop_undo (h : History) : option (option HistoryEntry * History) :=
  _ ← assert_depth_0 h;
  match last (undo_stack h) with
  | Some entry => Some (Some entry, with_stacks h (pop_top (undo_stack h)) (redo_stack h ++ [entry]))
  | None => Some (None, h)
  end.

Definition pop_redo (h : History) : option (option HistoryEntry * History) :=
  _ ← assert_depth_0 h;
  match last (redo_stack h) with
  | Some entry => Some (Some entry, with_stacks h (undo_stack h ++ [entry]) (pop_top (redo_stack h)))
  | None => Some (None, h)
  end.

(** [rposition(|entry| entry.transaction.id == transaction_id)] *)
Definition find_entry (tid : TransactionId) (l : list HistoryEntry) : option nat :=
  rposition (λ e, bool_decide (transaction_id e = tid)) l.

Definition remove_from_undo (h : History) (tid : TransactionId) : option (option HistoryEntry * History) :=
  _ ← assert_depth_0 h;
  match find_entry tid (undo_stack h) with
  | Some ix =>
      entry ← undo_stack h !! ix;
      Some (Some entry, with_stacks h (vec_remove ix (undo_stack h)) (redo_stack h ++ [entry]))
  | None => Some (None, h)
  end.

Definition remove_from_undo_until (h : History) (tid : TransactionId) : option (list HistoryEntry * History) :=
  _ ← assert_depth_0 h;
  match find_entry tid (undo_stack h) with
  | Some ix =>
      let moved := rev (drop ix (undo_stack h)) in
      Some (moved, with_stacks h (take ix (undo_stack h)) (redo_stack h ++ moved))
  | None => Some ([], h)
  end.

Definition remove_from_redo (h : History) (tid : TransactionId) : option (list HistoryEntry * History) :=
  _ ← assert_depth_0 h;
  match find_entry tid (redo_stack h) with
  | Some ix =>
      let moved := rev (drop ix (redo_stack h)) in
      Some (moved, with_stacks h (undo_stack h ++ moved) (take ix (redo_stack h)))
  | None => Some ([], h)
  end.

Definition forget (h : History) (tid : TransactionId) : option (option Transaction * History) :=
  _ ← assert_depth_0 h;
  match find_entry tid (undo_stack h) with
  | Some ix =>
      entry ← undo_stack h !! ix;
      Some (Some (transaction entry), with_stacks h (vec_remove ix (undo_stack h)) (redo_stack h))
  | None =>
      match find_entry tid (redo_stack h) with
      | Some ix =>
          entry ← redo_stack h !! ix;
          Some (Some (transaction entry), with_stacks h (undo_stack h) (vec_remove ix (redo_stack h)))
      | None => Some (None, h)
      end
  end.

(** [transaction] (the lookup) and [transaction_mut]. *)
Definition get_transaction (h : History) (tid : TransactionId) : option Transaction :=
  match find_entry tid (undo_stack h) with
  | Some ix => transaction <$> undo_stack h !! ix
  | None => ix ← find_entry tid (redo_stack h); transaction <$> redo_stack h !! ix
  end.

Definition update_transaction (h : History) (tid : TransactionId) (f : Transaction → Transaction) : History :=
  let g e := with_transaction e (f (transaction e)) in
  match find_entry tid (undo_stack h) with
  | Some ix => with_stacks h (alter g ix (undo_stack h)) (redo_stack h)
  | None =>
      match find_entry tid (redo_stack h) with
      | Some ix => with_stacks h (undo_stack h) (alter g ix (redo_stack h))
      | None => h
      end
  end.

Definition merge_transactions (h : History) (tid destination : TransactionId) : option History :=
  '(t, h) ← forget h tid;
  Some match t with
       | Some t => update_transaction h destination (λ d, add_edits d (edit_ids t))
       | None => h
       end.

(** ** Lemmas *)

Definition ids (l : list HistoryEntry) : list TransactionId := transaction_id <$> l.
Definition edits (l : list HistoryEntry) : list Lamport := concat ((λ e, edit_ids (transaction e)) <$> l).

(** Undo entries from oldest to newest, then the undone ones, next redo first. *)
Definition timeline (h : History) : list HistoryEntry := undo_stack h ++ rev (redo_stack h).

Lemma update_top_snoc f l e : update_top f (l ++ [e]) = l ++ [f e].
Proof. unfold update_top. by rewrite last_snoc, length_app, Nat.add_sub, take_app_length. Qed.

Lemma pop_top_snoc l e : pop_top (l ++ [e]) = l.
Proof. unfold pop_top. by rewrite length_app, Nat.add_sub, take_app_length. Qed.

Lemma stack_cases (l : list HistoryEntry) : l = [] ∨ ∃ l' e, l = l' ++ [e].
Proof. destruct l as [|e l' _] using rev_ind; eauto. Qed.

Lemma ids_update_top f l : (∀ e, transaction_id (f e) = transaction_id e) → ids (update_top f l) = ids l.
Proof.
  intros Hf. destruct (stack_cases l) as [->|(l' & e & ->)]; [done|].
  rewrite update_top_snoc. unfold ids. by rewrite !fmap_app, !fmap_cons, Hf.
Qed.

Lemma update_top_nil f l : update_top f l = [] → l = [].
Proof. destruct (stack_cases l) as [->|(l' & e & ->)]; [done|]. rewrite update_top_snoc. by destruct l'. Qed.

Lemma edits_app l k : edits (l ++ k) = edits l ++ edits k.
Proof. unfold edits. by rewrite fmap_app, concat_app. Qed.

Lemma edits_snoc l e : edits (l ++ [e]) = edits l ++ edit_ids (transaction e).
Proof. rewrite edits_app. unfold edits at 2. simpl. by rewrite app_nil_r. Qed.

Lemma find_entry_lookup tid l ix :
  find_entry tid l = Some ix → ∃ e, l !! ix = Some e ∧ transaction_id e = tid.
Proof. intros [(e & He & Hp%bool_decide_eq_true) _]%rposition_Some. eauto. Qed.

(** [group_trailing] merges a non-empty suffix into the entry before it. *)
Lemma group_trailing_ok h keep e merged :
  undo_stack h = keep ++ e :: merged →
  ∃ e', group_trailing h (length merged) =
      Some (Some (transaction_id e), with_stacks h (keep ++ [e']) (redo_stack h)) ∧
    transaction_id e' = transaction_id e ∧ edit_ids (transaction e') = edits (e :: merged) ∧
    first_edit_at e' = first_edit_at e ∧ suppress_grouping e' = suppress_grouping e ∧
    last_edit_at e' = match last merged with Some m => last_edit_at m | None => last_edit_at e end.
Proof.
  intros Hu. unfold group_trailing. rewrite Hu.
  assert (length (keep ++ e :: merged) - length merged = length (keep ++ [e])) as ->.
  { rewrite !length_app. simpl. lia. }
  rewrite (proj2 (Nat.ltb_ge _ _)) by (rewrite length_app; simpl; lia).
  change (e :: merged) with ([e] ++ merged). rewrite app_assoc, take_app_length, drop_app_length.
  rewrite update_top_snoc, last_snoc. simpl. fold (edits merged).
  destruct (last merged); eexists; by split_and!.
Qed.

Lemma group_count_lt interval entry l : group_count interval entry l ≤ length l.
Proof.
  revert entry. induction l as [|p l IH]; intros entry; simpl; [done|].
  destruct (_ && _); [specialize (IH p)|]; lia.
Qed.

(** Splitting a stack before its last [n] + 1 entries. *)
Lemma stack_split (l : list HistoryEntry) n :
  n < length l → ∃ keep e merged, l = keep ++ e :: merged ∧ length merged = n.
Proof.
  intros Hn. destruct (lookup_lt_is_Some_2 l (length l - S n)) as [e He]; [lia|].
  exists (take (length l - S n) l), e, (drop (S (length l - S n)) l).
  rewrite take_drop_middle by done. split; [done|]. rewrite length_drop. lia.
Qed.

(** The chain of entries a grouping may merge: each follows its predecessor
    within the interval, and no predecessor suppresses grouping. *)
Definition groups_with (interval : N) (prev entry : HistoryEntry) : Prop :=
  suppress_grouping prev = false ∧ (first_edit_at entry - last_edit_at prev < interval)%N.

Fixpoint chained (R : HistoryEntry → HistoryEntry → Prop) (e : HistoryEntry) (l : list HistoryEntry) : Prop :=
  match l with [] => True | e' :: l => R e e' ∧ chained R e' l end.

Lemma chained_snoc R e l x y : chained R e l → last (e :: l) = Some x → R x y → chained R e (l ++ [y]).
Proof.
  revert e. induction l as [|z l IH]; intros e; simpl; [by intros _ [= ->]|].
  intros [? ?] Hl HR. split; [done|]. by apply IH.
Qed.

Lemma group_count_ok interval entry l : let n := group_count interval entry l in
  ∃ merged e keep, rev (entry :: l) = keep ++ e :: merged ∧ length merged = n ∧
    chained (groups_with interval) e merged ∧
    (∀ keep' p, keep = keep' ++ [p] → ¬ groups_with interval p e).
Proof.
  cbv zeta. revert entry. induction l as [|p l IH]; intros entry.
  { exists [], entry, []. split_and!; [done..|]. by intros [|??] ?. }
  cbn [group_count].
  change (rev (entry :: p :: l)) with (rev (p :: l) ++ [entry]).
  destruct (negb (suppress_grouping p) && (first_edit_at entry - last_edit_at p <? interval)%N) eqn:Hb.
  - apply andb_true_iff in Hb as [Hs%negb_true_iff Hlt%N.ltb_lt].
    destruct (IH p) as (merged & e & keep & Hr & Hlen & Hch & Hst).
    exists (merged ++ [entry]), e, keep. split_and!; [| |apply (chained_snoc _ e merged p)|done].
    + by rewrite Hr, <- app_assoc.
    + rewrite length_app. simpl. lia.
    + done.
    + assert (last (rev (p :: l)) = Some p) as Hlast by (simpl; apply last_snoc).
      rewrite Hr, last_app in Hlast. destruct (last (e :: merged)) eqn:E; [done|].
      by apply last_None in E.
    + by split.
  - exists [], entry, (rev (p :: l)). split_and!; [done..|].
    intros keep' q Hk [Hs Hlt]. change (rev l ++ [p] = keep' ++ [q]) in Hk.
    apply app_inj_tail in Hk as [_ <-].
    apply andb_false_iff in Hb as [Hb|Hb]; [by rewrite Hs in Hb|]. apply N.ltb_ge in Hb. lia.
Qed.

(** ** The invariant

    Transaction ids are unique and older than the clock, and an open
    transaction has an entry. *)
Record history_ok (h : History) (clock : Lamport) : Prop := {
  ok_open : transaction_depth h ≠ 0 → undo_stack h ≠ [];
  ok_unique : NoDup (ids (undo_stack h ++ redo_stack h));
  ok_older : Forall (λ t, (t ≺ clock)%ord) (ids (undo_stack h ++ redo_stack h));
}.

(** Every operation of the history as a step; [push_transaction] takes a
    transaction whose id is not in use. *)
Inductive history_step : History * Lamport → History * Lamport → Prop :=
| step_push h c ts k : history_step (h, c) (push h ts k, c)
| step_start h c start now o h' c' :
    is_u32 (value c + 1) → start_transaction h start now c = (o, h', c') → history_step (h, c) (h', c')
| step_end h c now o h' : end_transaction h now = Some (o, h') → history_step (h, c) (h', c)
| step_group h c o h' : group h = Some (o, h') → history_step (h, c) (h', c)
| step_group_until h c tid h' : group_until h tid = Some h' → history_step (h, c) (h', c)
| step_finalize h c o h' : finalize_last_transaction h = (o, h') → history_step (h, c) (h', c)
| step_push_transaction h c t now h' :
    id t ∉ ids (undo_stack h ++ redo_stack h) → (id t ≺ c)%ord →
    push_transaction h t now = Some h' → history_step (h, c) (h', c)
| step_push_empty h c start now tid h' c' :
    is_u32 (value c + 1) → push_empty_transaction h start now c = Some (tid, h', c') →
    history_step (h, c) (h', c')
| step_push_undo h c op h' : push_undo h op = Some h' → history_step (h, c) (h', c)
| step_pop_undo h c o h' : pop_undo h = Some (o, h') → history_step (h, c) (h', c)
| step_pop_redo h c o h' : pop_redo h = Some (o, h') → history_step (h, c) (h', c)
| step_remove_undo h c tid o h' : remove_from_undo h tid = Some (o, h') → history_step (h, c) (h', c)
| step_remove_undo_until h c tid o h' :
    remove_from_undo_until h tid = Some (o, h') → history_step (h, c) (h', c)
| step_remove_redo h c tid o h' : remove_from_redo h tid = Some (o, h') → history_step (h, c) (h', c)
| step_forget h c tid o h' : forget h tid = Some (o, h') → history_step (h, c) (h', c)
| step_merge h c tid d h' : merge_transactions h tid d = Some h' → history_step (h, c) (h', c).

(** What most operations do to the invariant: they keep some of the ids. *)
Lemma history_ok_sub h c h' c' :
  history_ok h c → (c ≼ c')%ord →
  (transaction_depth h' ≠ 0 → undo_stack h' ≠ []) →
  ids (undo_stack h' ++ redo_stack h') ⊆+ ids (undo_stack h ++ redo_stack h) → history_ok h' c'.
Proof.
  intros [Ho Hu Hl] Hc Hopen Hsub. split; [done| |].
  - apply submseteq_Permutation in Hsub as [k Hk]. rewrite Hk in Hu. by apply NoDup_app in Hu as [? _].
  - rewrite Forall_forall in Hl |- *. intros t Ht. eapply cmp_lt_le_trans; [apply Hl|done].
    by eapply elem_of_submseteq.
Qed.

Lemma history_ok_perm h c h' :
  history_ok h c → (transaction_depth h' ≠ 0 → undo_stack h' ≠ []) →
  ids (undo_stack h' ++ redo_stack h') ≡ₚ ids (undo_stack h ++ redo_stack h) → history_ok h' c.
Proof. intros Hok Hopen Hp. eapply history_ok_sub; [done|apply cmp_le_refl|done|]. by rewrite Hp. Qed.

(** Adding an entry with a new id. *)
Lemma history_ok_new h c h' c' e :
  history_ok h c → (c ≼ c')%ord → undo_stack h' = undo_stack h ++ [e] → redo_stack h' = redo_stack h →
  transaction_id e ∉ ids (undo_stack h ++ redo_stack h) → (transaction_id e ≺ c')%ord → history_ok h' c'.
Proof.
  intros [Ho Hu Hl] Hc Hus Hrs Hni Hlt. unfold ids in *.
  assert (transaction_id <$> undo_stack h' ++ redo_stack h' ≡ₚ
    transaction_id e :: (transaction_id <$> undo_stack h ++ redo_stack h)) as Hp.
  { rewrite Hus, Hrs, <- app_assoc. simpl. rewrite <- Permutation_middle. done. }
  split.
  - intros _ E. rewrite Hus in E. by destruct (undo_stack h).
  - unfold ids. rewrite Hp. by constructor.
  - unfold ids. rewrite Hp. constructor; [done|]. eapply Forall_impl; [exact Hl|].
    intros t Ht. by apply (cmp_lt_le_trans t c c').
Qed.

Lemma tick_older h c : history_ok h c → (tick c).1 ∉ ids (undo_stack h ++ redo_stack h).
Proof.
  intros [_ _ Hl] Hin. rewrite Forall_forall in Hl. apply Hl in Hin. simpl in Hin.
  by apply (cmp_lt_irrefl c).
Qed.

Lemma group_trailing_step h c n o h' :
  history_ok h c → n < length (undo_stack h) ∨ n = 0 → group_trailing h n = Some (o, h') → history_ok h' c.
Proof.
  intros Hok Hn Hg. destruct (decide (n < length (undo_stack h))) as [Hlt|Hge].
  - destruct (stack_split (undo_stack h) n Hlt) as (keep & e & merged & Hu & <-).
    destruct (group_trailing_ok h keep e merged Hu) as (e' & Hg' & Hid & _).
    rewrite Hg' in Hg. injection Hg as <- <-.
    eapply history_ok_sub; [done|apply cmp_le_refl|intros _ E; by destruct keep|].
    simpl. rewrite Hu. unfold ids. rewrite !fmap_app, !fmap_cons, Hid. simpl. rewrite <- !app_assoc. simpl.
    apply submseteq_app; [done|]. apply submseteq_skip. by apply submseteq_inserts_l.
  - destruct Hn as [Hn|Hn]; [done|]. subst n. unfold group_trailing in Hg.
    assert (undo_stack h = []) as Hu by (apply length_zero_iff_nil; lia).
    rewrite Hu in Hg. simpl in Hg. injection Hg as <- <-.
    eapply history_ok_perm; [done|simpl; by intros ?%(ok_open h c Hok)|]. simpl. by rewrite Hu.
Qed.

Lemma group_until_step h c tid n h' l keep :
  history_ok h c → rev (undo_stack h) = keep ++ l → length keep = n →
  group_until_loop h tid n l = Some h' → history_ok h' c.
Proof.
  intros Hok. revert n keep. induction l as [|e l IH]; intros n keep Hr Hlen Hg; cbn [group_until_loop] in Hg.
  { congruence. }
  destruct (bool_decide _).
  - destruct (group_trailing h n) as [[o h1]|] eqn:Egt; [|done]. injection Hg as <-.
    apply (group_trailing_step h c n o h1); [done| |done]. left.
    apply (f_equal length) in Hr. rewrite length_rev, length_app in Hr. simpl in Hr. lia.
  - destruct (suppress_grouping e); [congruence|].
    apply (IH (S n) (keep ++ [e])); [by rewrite <- app_assoc|rewrite length_app; simpl; lia|done].
Qed.

(** Dropping the open-transaction clause of a closed history. *)
Lemma closed h : assert_depth_0 h = Some () → transaction_depth h = 0.
Proof. unfold assert_depth_0. destruct (transaction_depth h); [done|by intros]. Qed.

Lemma ids_update_transaction h tid f :
  (∀ t, id (f t) = id t) → let h' := update_transaction h tid f in
  ids (undo_stack h' ++ redo_stack h') = ids (undo_stack h ++ redo_stack h) ∧
  transaction_depth h' = transaction_depth h ∧ (undo_stack h' = [] → undo_stack h = []).
Proof.
  intros Hf. assert (∀ ix l, ids (alter (λ e, with_transaction e (f (transaction e))) ix l) = ids l) as Ha.
  { intros ix l. unfold ids. revert ix. induction l as [|e l IH]; intros [|ix]; simpl; [done..| |].
    - unfold transaction_id. simpl. by rewrite Hf.
    - f_equal. apply IH. }
  unfold update_transaction, ids in *. simpl.
  destruct (find_entry tid (undo_stack h)) as [ix|]; [|destruct (find_entry tid (redo_stack h)) as [ix|]];
    simpl; rewrite ?fmap_app, ?Ha; split_and!; try done.
  intros E. apply (f_equal length) in E. rewrite length_alter in E. by apply length_zero_iff_nil.
Qed.

Lemma vec_remove_perm {A} ix (l : list A) x : l !! ix = Some x → x :: vec_remove ix l ≡ₚ l.
Proof.
  intros Hx. unfold vec_remove. rewrite <- (take_drop_middle l ix x Hx) at 3. by rewrite Permutation_middle.
Qed.

Lemma vec_remove_sub {A} ix (l : list A) x : l !! ix = Some x → vec_remove ix l ⊆+ l.
Proof. intros Hx. rewrite <- (vec_remove_perm ix l x Hx) at 2. by apply submseteq_cons. Qed.

Lemma ids_sub l k : l ⊆+ k → ids l ⊆+ ids k.
Proof. apply fmap_submseteq. Qed.

Lemma forget_step h c tid o h' :
  history_ok h c → forget h tid = Some (o, h') → history_ok h' c ∧ transaction_depth h' = 0.
Proof.
  intros Hok Hf. unfold forget in Hf. destruct (assert_depth_0 h) as [[]|] eqn:Hd; [|done].
  apply closed in Hd. cbn [mbind option_bind] in Hf.
  assert (∀ u r, ids (u ++ r) ⊆+ ids (undo_stack h ++ redo_stack h) →
    history_ok (with_stacks h u r) c ∧ transaction_depth (with_stacks h u r) = 0) as Hsub.
  { intros u r Hs. split; [|done]. apply (history_ok_sub h c); [done|apply cmp_le_refl|by simpl; rewrite Hd|done]. }
  destruct (find_entry tid (undo_stack h)) as [ix|]; [|destruct (find_entry tid (redo_stack h)) as [ix|]].
  - destruct (undo_stack h !! ix) as [e|] eqn:He; [|done]. simpl in Hf. injection Hf as <- <-.
    apply Hsub, ids_sub, submseteq_app; [|done]. by eapply vec_remove_sub.
  - destruct (redo_stack h !! ix) as [e|] eqn:He; [|done]. simpl in Hf. injection Hf as <- <-.
    apply Hsub, ids_sub, submseteq_app; [done|]. by eapply vec_remove_sub.
  - injection Hf as <- <-. split; [done|done].
Qed.

Lemma start_step h c start now o h' c' :
  history_ok h c → is_u32 (value c + 1) → start_transaction h start now c = (o, h', c') → history_ok h' c'.
Proof.
  intros Hok Hc E. pose proof (tick_lt c Hc) as Hlt. pose proof (cmp_lt_le _ _ Hlt) as Hle.
  unfold start_transaction in E. simpl in E. destruct (transaction_depth h) eqn:Hd; simpl in E; simplify_eq.
  - eapply (history_ok_new h c _ _ _ Hok Hle); [done|done| |done]. apply (tick_older h c Hok).
  - eapply history_ok_sub; [exact Hok|apply cmp_le_refl| |done]. simpl. intros _. apply (ok_open h c' Hok).
    by rewrite Hd.
Qed.

Lemma end_step h c now o h' : history_ok h c → end_transaction h now = Some (o, h') → history_ok h' c.
Proof.
  intros Hok E. unfold end_transaction in E. destruct (transaction_depth h) as [|d] eqn:Hd; [done|]. simpl in E.
  destruct (Nat.eqb_spec d 0) as [->|Hd0].
  - destruct (stack_cases (undo_stack h)) as [Hu|(u & e & Hu)]; rewrite Hu in E; [done|].
    rewrite last_snoc in E. cbn [mbind option_bind] in E.
    destruct (edit_ids (transaction e)) as [|i l]; simplify_eq.
    + rewrite pop_top_snoc. eapply history_ok_sub; [done|apply cmp_le_refl|done|].
      simpl. rewrite Hu, <- app_assoc. unfold ids. rewrite !fmap_app. apply submseteq_app; [done|].
      by apply submseteq_cons.
    + eapply history_ok_sub; [done|apply cmp_le_refl|done|]. simpl. rewrite update_top_snoc, app_nil_r, Hu.
      unfold ids. rewrite !fmap_app. by apply submseteq_inserts_r.
  - simplify_eq. eapply history_ok_sub; [done|apply cmp_le_refl| |done]. simpl. intros _.
    apply (ok_open h c Hok). lia.
Qed.

Lemma group_step h c o h' : history_ok h c → group h = Some (o, h') → history_ok h' c.
Proof.
  intros Hok E. unfold group in E. eapply group_trailing_step; [done| |exact E].
  destruct (stack_cases (undo_stack h)) as [->|(u & e & ->)]; [by right|]. left.
  rewrite rev_app_distr. simpl. pose proof (group_count_lt (group_interval h) e (rev u)) as Hlt.
  rewrite length_rev in Hlt. rewrite length_app. simpl. lia.
Qed.

(** Changing the top entry without its id. *)
Lemma update_top_step h c f d :
  history_ok h c → (∀ e, transaction_id (f e) = transaction_id e) →
  (d ≠ 0 → transaction_depth h ≠ 0) →
  history_ok (with_depth (with_stacks h (update_top f (undo_stack h)) (redo_stack h)) d) c.
Proof.
  intros Hok Hf Hd. eapply history_ok_perm; [done| |].
  - simpl. intros Hd0 Hu. apply update_top_nil in Hu. apply (ok_open h c Hok); auto.
  - simpl. pose proof (ids_update_top f (undo_stack h) Hf) as Hi. unfold ids in *.
    by rewrite !fmap_app, Hi.
Qed.

Lemma push_undo_step h c op h' : history_ok h c → push_undo h op = Some h' → history_ok h' c.
Proof.
  intros Hok E. unfold push_undo in E. destruct (transaction_depth h) as [|d] eqn:Hd; [done|].
  destruct (operations h !! op) as [[|]|]; [|by simplify_eq..].
  destruct (last (undo_stack h)); [|done]. simpl in E. simplify_eq.
  by apply (update_top_step h c _ (transaction_depth h)).
Qed.

(** Moving entries between the stacks of a closed history. *)
Lemma move_step h c u r :
  history_ok h c → transaction_depth h = 0 → u ++ r ≡ₚ undo_stack h ++ redo_stack h →
  history_ok (with_stacks h u r) c.
Proof.
  intros Hok Hd Hp. eapply history_ok_perm; [done|by simpl; rewrite Hd|]. simpl. unfold ids. by rewrite Hp.
Qed.

Ltac closed_op :=
  match goal with
  | E : (assert_depth_0 ?h ≫= _) = Some _ |- _ =>
      let Hd := fresh "Hd" in
      destruct (assert_depth_0 h) as [[]|] eqn:Hd; [apply closed in Hd; simpl in E|done]
  end.

Lemma pop_undo_step h c o h' : history_ok h c → pop_undo h = Some (o, h') → history_ok h' c.
Proof.
  unfold pop_undo. intros Hok E. closed_op.
  destruct (stack_cases (undo_stack h)) as [Hu|(u & e & Hu)]; rewrite Hu in E; [by simplify_eq/=|].
  rewrite last_snoc, pop_top_snoc in E. simplify_eq. apply move_step; [done..|].
  rewrite Hu, <- app_assoc. f_equiv. by rewrite Permutation_app_comm.
Qed.

Lemma pop_redo_step h c o h' : history_ok h c → pop_redo h = Some (o, h') → history_ok h' c.
Proof.
  unfold pop_redo. intros Hok E. closed_op.
  destruct (stack_cases (redo_stack h)) as [Hu|(u & e & Hu)]; rewrite Hu in E; [by simplify_eq/=|].
  rewrite last_snoc, pop_top_snoc in E. simplify_eq. apply move_step; [done..|].
  rewrite Hu, <- app_assoc. f_equiv. by rewrite Permutation_app_comm.
Qed.

Lemma remove_undo_step h c tid o h' : history_ok h c → remove_from_undo h tid = Some (o, h') → history_ok h' c.
Proof.
  unfold remove_from_undo. intros Hok E. closed_op.
  destruct (find_entry tid (undo_stack h)) as [ix|]; [|by simplify_eq].
  destruct (undo_stack h !! ix) as [e|] eqn:He; [|done]. simpl in E. simplify_eq. apply move_step; [done..|].
  rewrite <- (vec_remove_perm ix (undo_stack h) e He) at 2.
  rewrite (Permutation_app_comm (redo_stack h)). simpl. by rewrite Permutation_middle.
Qed.

(** Moving the reversed end of one stack to the other. *)
Lemma drain_perm (l r : list HistoryEntry) ix : take ix l ++ r ++ rev (drop ix l) ≡ₚ l ++ r.
Proof.
  rewrite <- (take_drop ix l) at 3. rewrite <- app_assoc. f_equiv.
  by rewrite Permutation_app_comm, <- Permutation_rev.
Qed.

Lemma remove_undo_until_step h c tid o h' :
  history_ok h c → remove_from_undo_until h tid = Some (o, h') → history_ok h' c.
Proof.
  unfold remove_from_undo_until. intros Hok E. closed_op.
  destruct (find_entry tid (undo_stack h)) as [ix|]; simplify_eq; [|done]. apply move_step; [done..|].
  apply drain_perm.
Qed.

Lemma remove_redo_step h c tid o h' : history_ok h c → remove_from_redo h tid = Some (o, h') → history_ok h' c.
Proof.
  unfold remove_from_redo. intros Hok E. closed_op.
  destruct (find_entry tid (redo_stack h)) as [ix|]; simplify_eq; [|done]. apply move_step; [done..|].
  rewrite Permutation_app_comm, (Permutation_app_comm (undo_stack h) (redo_stack h)). apply drain_perm.
Qed.

Lemma push_transaction_step h c t now h' :
  history_ok h c → id t ∉ ids (undo_stack h ++ redo_stack h) → (id t ≺ c)%ord →
  push_transaction h t now = Some h' → history_ok h' c.
Proof.
  unfold push_transaction. intros Hok Hni Hlt E. closed_op. simplify_eq.
  by eapply (history_ok_new h c _ c _ Hok (cmp_le_refl c)).
Qed.

Lemma push_empty_step h c start now tid h' c' :
  history_ok h c → is_u32 (value c + 1) → push_empty_transaction h start now c = Some (tid, h', c') →
  history_ok h' c'.
Proof.
  intros Hok Hc. pose proof (tick_lt c Hc) as Hlt. pose proof (cmp_lt_le _ _ Hlt) as Hle.
  unfold push_empty_transaction. intros E. closed_op. simplify_eq.
  eapply (history_ok_new h _ _ _ _ Hok Hle); [done|done| |done]. apply (tick_older h _ Hok).
Qed.

Lemma merge_step h c tid d h' : history_ok h c → merge_transactions h tid d = Some h' → history_ok h' c.
Proof.
  intros Hok E. unfold merge_transactions in E. destruct (forget h tid) as [[o h1]|] eqn:Hf; [|done].
  simpl in E. simplify_eq.
  destruct (forget_step h c tid o h1 Hok Hf) as [Hok1 Hd1]. destruct o as [t|]; [|done].
  destruct (ids_update_transaction h1 d (λ d, add_edits d (edit_ids t)) ltac:(done)) as (Hi & Hd & Hu).
  eapply history_ok_perm; [done|by rewrite Hd, Hd1|by rewrite Hi].
Qed.

Lemma history_step_ok s s' : history_ok s.1 s.2 → history_step s s' → history_ok s'.1 s'.2.
Proof.
  intros Hok Hs. destruct Hs; simpl in *.
  - by destruct Hok.
  - by eapply start_step.
  - by eapply end_step.
  - by eapply group_step.
  - eapply (group_until_step h c tid 0 h' (rev (undo_stack h)) []); done.
  - unfold finalize_last_transaction in *. simplify_eq. by apply (update_top_step h c _ (transaction_depth h)).
  - by eapply push_transaction_step.
  - by eapply push_empty_step.
  - by eapply push_undo_step.
  - by eapply pop_undo_step.
  - by eapply pop_redo_step.
  - by eapply remove_undo_step.
  - by eapply remove_undo_until_step.
  - by eapply remove_redo_step.
  - by eapply forget_step.
  - by eapply merge_step.
Qed.

Lemma new_history_ok b c : history_ok (new_history b) c.
Proof. split; simpl; [done|constructor|constructor]. Qed.

(** In a state with an open transaction, neither [end_transaction] nor
    [push_undo] reaches an assertion or unwraps [None]. *)
Lemma open_no_panic h c now op :
  history_ok h c → transaction_depth h ≠ 0 → is_Some (end_transaction h now) ∧ is_Some (push_undo h op).
Proof.
  intros Hok Hd. pose proof (ok_open h c Hok Hd) as Hu.
  destruct (stack_cases (undo_stack h)) as [?|(u & e & E)]; [done|].
  unfold end_transaction, push_undo. destruct (transaction_depth h) as [|d]; [done|].
  simpl. rewrite E, !last_snoc. simpl. split.
  - destruct (d =? 0); [|done]. by destruct (edit_ids (transaction e)).
  - by destruct (operations h !! op) as [[|]|].
Qed.

(** Storing operations and noting them in the open transaction, as
    [TextBuffer::edit] does for each operation it makes. *)
Definition record_op (h : History) (op : Lamport * OperationKind) : option History :=
  push_undo (push h op.1 op.2) op.1.
Fixpoint record_ops (h : History) (ops : list (Lamport * OperationKind)) : option History :=
  match ops with [] => Some h | op :: ops => h ← record_op h op; record_ops h ops end.

Definition is_edit (k : OperationKind) : bool := match k with KEdit => true | KUndo => false end.
Definition edits_of (ops : list (Lamport * OperationKind)) : list Lamport :=
  fst <$> List.filter (λ op, is_edit op.2) ops.

Lemma record_ops_ok h u e d ops :
  undo_stack h = u ++ [e] → transaction_depth h = S d →
  ∃ m, record_ops h ops = Some (mkHistory (base_text h) m
    (u ++ [with_transaction e (add_edits (transaction e) (edits_of ops))])
    (redo_stack h) (S d) (group_interval h)).
Proof.
  revert h e. induction ops as [|[ts k] ops IH]; intros h e Hu Hd.
  { exists (operations h). simpl. destruct h, e as [[]]. simpl in *. subst. unfold with_transaction, add_edits.
    simpl. by rewrite app_nil_r. }
  destruct h as [bt m0 us r d' gi]. cbn [undo_stack transaction_depth] in Hu, Hd. subst us d'.
  cbn [record_ops]. unfold record_op, push_undo.
  cbn [push operations undo_stack redo_stack transaction_depth fst snd group_interval].
  rewrite lookup_insert_eq. destruct k; cbn [mbind option_bind].
  - rewrite last_snoc, update_top_snoc. cbn [mbind option_bind].
    edestruct (IH (with_stacks (mkHistory bt (<[ts := KEdit]> m0) (u ++ [e]) r (S d) gi)
      (u ++ [with_transaction e (add_edits (transaction e) [ts])]) r)) as [m Hm]; [done..|].
    exists m. etransitivity; [exact Hm|]. do 3 f_equal.
    unfold with_transaction, add_edits, edits_of. simpl. by rewrite <- app_assoc.
  - by edestruct (IH (mkHistory bt (<[ts := KUndo]> m0) (u ++ [e]) r (S d) gi)) as [m Hm]; [done..|exists m].
Qed.

(** Splitting a stack at the entry of an id. *)
Lemma find_entry_split tid l :
  NoDup (ids l) →
  match find_entry tid l with
  | Some ix => tid ∉ ids (take ix l) ∧ ∃ e k, drop ix l = e :: k ∧ transaction_id e = tid
  | None => tid ∉ ids l
  end.
Proof.
  intros Hnd. destruct (find_entry tid l) as [ix|] eqn:E.
  - apply find_entry_lookup in E as (e & He & <-).
    pose proof (drop_S l e ix He) as Hdrop. split; [|eauto].
    rewrite <- (take_drop ix l), Hdrop in Hnd. unfold ids in *. rewrite fmap_app in Hnd.
    apply NoDup_app in Hnd as (_ & Hnd & _). intros Hin. apply (Hnd _ Hin). left.
  - unfold ids. rewrite list_elem_of_fmap. intros (e & -> & [i Hi]%list_elem_of_lookup).
    pose proof (rposition_None _ _ E i e Hi) as Hf. by apply bool_decide_eq_false in Hf.
Qed.

Lemma timeline_move (u l r : list HistoryEntry) : (u ++ rev (r ++ rev l)) = (u ++ l) ++ rev r.
Proof. by rewrite rev_app_distr, rev_involutive, app_assoc. Qed.

Lemma with_stacks_same h : with_stacks h (undo_stack h) (redo_stack h) = h.
Proof. by destruct h. Qed.

Lemma pop_undo_ok h :
  transaction_depth h = 0 →
  ∃ o h', pop_undo h = Some (o, h') ∧ timeline h' = timeline h ∧ o = last (undo_stack h) ∧
    (∀ e, o = Some e → pop_redo h' = Some (Some e, h)).
Proof.
  intros Hd. unfold pop_undo, pop_redo, assert_depth_0. rewrite Hd. simpl.
  destruct (stack_cases (undo_stack h)) as [Hu|(u & e & Hu)]; rewrite Hu; [by repeat eexists|].
  rewrite last_snoc. simpl. do 2 eexists. split_and!; [done| |done|].
  - unfold timeline. simpl. by rewrite pop_top_snoc, (timeline_move u [e]), Hu.
  - intros e' [= <-]. simpl. rewrite Hd, last_snoc, !pop_top_snoc. simpl. do 2 f_equal.
    rewrite <- Hu. by destruct h.
Qed.

Lemma pop_redo_ok h :
  transaction_depth h = 0 →
  ∃ o h', pop_redo h = Some (o, h') ∧ timeline h' = timeline h ∧ o = last (redo_stack h) ∧
    (∀ e, o = Some e → pop_undo h' = Some (Some e, h)).
Proof.
  intros Hd. unfold pop_undo, pop_redo, assert_depth_0. rewrite Hd. simpl.
  destruct (stack_cases (redo_stack h)) as [Hu|(u & e & Hu)]; rewrite Hu; [by repeat eexists|].
  rewrite last_snoc. simpl. do 2 eexists. split_and!; [done| |done|].
  - unfold timeline. simpl. rewrite pop_top_snoc, Hu, rev_app_distr. simpl. by rewrite <- app_assoc.
  - intros e' [= <-]. simpl. rewrite Hd, last_snoc, !pop_top_snoc. simpl. do 2 f_equal.
    rewrite <- Hu. by destruct h.
Qed.

Lemma remove_undo_until_ok h tid :
  transaction_depth h = 0 → NoDup (ids (undo_stack h)) →
  ∃ l h', remove_from_undo_until h tid = Some (l, h') ∧ timeline h' = timeline h ∧
    undo_stack h = undo_stack h' ++ rev l ∧ tid ∉ ids (undo_stack h') ∧
    (∀ e k, rev l = e :: k → transaction_id e = tid).
Proof.
  intros Hd Hnd. unfold remove_from_undo_until, assert_depth_0. rewrite Hd. simpl.
  pose proof (find_entry_split tid _ Hnd) as Hf. destruct (find_entry tid (undo_stack h)) as [ix|].
  - destruct Hf as (Hni & e & k & Hdrop & He). do 2 eexists. split; [done|]. unfold timeline. simpl.
    rewrite timeline_move, rev_involutive, take_drop. split_and!; [done..|].
    rewrite Hdrop. by intros ?? [= <- _].
  - do 2 eexists. split_and!; [done..|by rewrite app_nil_r|done|done].
Qed.

Lemma remove_redo_ok h tid :
  transaction_depth h = 0 → NoDup (ids (redo_stack h)) →
  ∃ l h', remove_from_redo h tid = Some (l, h') ∧ timeline h' = timeline h ∧
    redo_stack h = redo_stack h' ++ rev l ∧ tid ∉ ids (redo_stack h') ∧
    (∀ e k, rev l = e :: k → transaction_id e = tid).
Proof.
  intros Hd Hnd. unfold remove_from_redo, assert_depth_0. rewrite Hd. simpl.
  pose proof (find_entry_split tid _ Hnd) as Hf. destruct (find_entry tid (redo_stack h)) as [ix|].
  - destruct Hf as (Hni & e & k & Hdrop & He). do 2 eexists. split; [done|]. unfold timeline. simpl.
    rewrite <- app_assoc, <- rev_app_distr, rev_involutive, take_drop. split_and!; [done..|].
    rewrite Hdrop. by intros ?? [= <- _].
  - do 2 eexists. split_and!; [done..|by rewrite app_nil_r|done|done].
Qed.

(** ** Properties *)

(** whatever sequence of operations leads from a new history to a state,
    the transaction ids on the two stacks are unique and older than the
    clock, and while a transaction is open, closing it and recording an
    operation in it succeed, no assertion fails and no empty stack is
    unwrapped. *)
Theorem history_reachable b c0 h c now op :
  rtc history_step (new_history b, c0) (h, c) →
  NoDup (ids (undo_stack h ++ redo_stack h)) ∧
  Forall (λ t, (t ≺ c)%ord) (ids (undo_stack h ++ redo_stack h)) ∧
  (transaction_depth h ≠ 0 → is_Some (end_transaction h now) ∧ is_Some (push_undo h op)).
Proof.
  intros Hr. assert (history_ok h c) as Hok.
  { apply (rtc_preserves history_step (λ s, history_ok s.1 s.2) history_step_ok (new_history b, c0) (h, c));
      [done|apply new_history_ok]. }
  split_and!; [apply Hok|apply Hok|]. by apply open_no_panic with c.
Qed.

(** [group] merges the longest suffix of the undo stack in which every
    entry follows its predecessor within the grouping interval and no
    predecessor suppresses grouping: the merged entry keeps the id of the
    first, takes all edit ids in order and the time of the last, and the
    entries below are untouched. *)
Theorem group_merges_chain h :
  undo_stack h ≠ [] →
  ∃ keep e merged e',
    undo_stack h = keep ++ e :: merged ∧
    chained (groups_with (group_interval h)) e merged ∧
    (∀ keep' p, keep = keep' ++ [p] → ¬ groups_with (group_interval h) p e) ∧
    group h = Some (Some (transaction_id e), with_stacks h (keep ++ [e']) (redo_stack h)) ∧
    transaction_id e' = transaction_id e ∧ edit_ids (transaction e') = edits (e :: merged) ∧
    first_edit_at e' = first_edit_at e ∧
    last_edit_at e' = match last merged with Some m => last_edit_at m | None => last_edit_at e end.
Proof.
  intros Hu. destruct (stack_cases (undo_stack h)) as [?|(u & top & E)]; [done|].
  assert (rev (undo_stack h) = top :: rev u) as Hrev by (rewrite E, rev_app_distr; done).
  destruct (group_count_ok (group_interval h) top (rev u)) as (merged & e & keep & Hr & Hlen & Hch & Hst).
  rewrite <- Hrev, rev_involutive in Hr.
  destruct (group_trailing_ok h keep e merged Hr) as (e' & Hg & ? & ? & ? & ? & ?).
  exists keep, e, merged, e'. split_and!; try done.
  unfold group. rewrite Hrev, <- Hlen. exact Hg.
Qed.

(** undoing and redoing only move the boundary between the two stacks:
    the sequence of transactions, undone ones last, is unchanged by
    [pop_undo], [pop_redo], [remove_from_undo_until] and
    [remove_from_redo]; [pop_redo] restores exactly the history [pop_undo]
    was applied to and conversely; the removals by id move the entry of that
    id and all entries above it, newest first, and nothing when there is no
    such entry. *)
Theorem undo_redo_timeline h tid :
  transaction_depth h = 0 → NoDup (ids (undo_stack h)) → NoDup (ids (redo_stack h)) →
  (∃ o h', pop_undo h = Some (o, h') ∧ timeline h' = timeline h ∧ o = last (undo_stack h) ∧
     (∀ e, o = Some e → pop_redo h' = Some (Some e, h))) ∧
  (∃ o h', pop_redo h = Some (o, h') ∧ timeline h' = timeline h ∧ o = last (redo_stack h) ∧
     (∀ e, o = Some e → pop_undo h' = Some (Some e, h))) ∧
  (∃ l h', remove_from_undo_until h tid = Some (l, h') ∧ timeline h' = timeline h ∧
     undo_stack h = undo_stack h' ++ rev l ∧ tid ∉ ids (undo_stack h') ∧
     (∀ e k, rev l = e :: k → transaction_id e = tid)) ∧
  (∃ l h', remove_from_redo h tid = Some (l, h') ∧ timeline h' = timeline h ∧
     redo_stack h = redo_stack h' ++ rev l ∧ tid ∉ ids (redo_stack h') ∧
     (∀ e k, rev l = e :: k → transaction_id e = tid)).
Proof.
  intros Hd Hu Hr. split_and!; [by apply pop_undo_ok|by apply pop_redo_ok|by apply remove_undo_until_ok|].
  by apply remove_redo_ok.
Qed.

(** a transaction brackets the operations recorded in it: started at
    depth zero it gets a fresh id, and ending it leaves one more entry
    holding exactly the ids of the edit operations recorded, in order, and
    an empty redo stack; if no edit was recorded the entry disappears and
    the redo stack is kept. *)
Theorem transaction_bracket h start t1 t2 c ops :
  transaction_depth h = 0 →
  let '(o, h1, c') := start_transaction h start t1 c in
  o = Some c ∧ c' = (tick c).2 ∧
  ∃ h2 r h3, record_ops h1 ops = Some h2 ∧ end_transaction h2 t2 = Some (r, h3) ∧
    transaction_depth h3 = 0 ∧
    match edits_of ops with
    | [] => r = None ∧ undo_stack h3 = undo_stack h ∧ redo_stack h3 = redo_stack h
    | _ => let e := mkHistoryEntry (mkTransaction c (edits_of ops) start) t1 t2 false in
           r = Some e ∧ undo_stack h3 = undo_stack h ++ [e] ∧ redo_stack h3 = []
    end.
Proof.
  intros Hd. unfold start_transaction. rewrite Hd. simpl. split_and!; [done..|].
  edestruct (record_ops_ok (with_stacks (with_depth h 1)
    (undo_stack h ++ [new_entry (mkTransaction c [] start) t1]) (redo_stack h))) as [m Hm]; [done..|].
  setoid_rewrite Hm. clear Hm. unfold end_transaction.
  destruct (edits_of ops) as [|i l]; eexists _, _, _; (split; [reflexivity|]); simpl; rewrite last_snoc; simpl.
  - rewrite pop_top_snoc. by split_and!.
  - rewrite update_top_snoc, last_snoc. by split_and!.
Qed.


(** ** Concrete runs *)
Module HistoryExamples.

Definition g0 : Global := mkGlobal [].
Definition ts (n : N) : Lamport := mkLamport n 1.
Definition h1 : History :=
  mkHistory [] ∅
    [mkHistoryEntry (mkTransaction (ts 1) [ts 2] g0) 0 10 false;
     mkHistoryEntry (mkTransaction (ts 3) [ts 4] g0) 100 110 true;
     mkHistoryEntry (mkTransaction (ts 5) [ts 6] g0) 120 130 false;
     mkHistoryEntry (mkTransaction (ts 7) [ts 8; ts 9] g0) 140 150 false]
    [mkHistoryEntry (mkTransaction (ts 10) [ts 11] g0) 200 210 false] 0 30.

(** The last two entries group; the entry before them suppresses it. *)
Example group_run :
  (λ '(o, h), (o, ids (undo_stack h))) <$> group h1 = Some (Some (ts 5), [ts 1; ts 3; ts 5]).
Proof. vm_compute. reflexivity. Qed.

Example group_merges_chain_witness :
  ∃ keep e merged e',
    undo_stack h1 = keep ++ e :: merged ∧
    chained (groups_with (group_interval h1)) e merged ∧
    (∀ keep' p, keep = keep' ++ [p] → ¬ groups_with (group_interval h1) p e) ∧
    group h1 = Some (Some (transaction_id e), with_stacks h1 (keep ++ [e']) (redo_stack h1)) ∧
    transaction_id e' = transaction_id e ∧ edit_ids (transaction e') = edits (e :: merged) ∧
    first_edit_at e' = first_edit_at e ∧
    last_edit_at e' = match last merged with Some m => last_edit_at m | None => last_edit_at e end.
Proof. by apply (group_merges_chain h1). Defined.

(** A run: open a transaction, record an edit in it. *)
Definition h_open : History := (start_transaction (new_history []) g0 5 (ts 1)).1.2.
Definition h_edit : History := push h_open (ts 2) KEdit.

Lemma h_edit_reachable : rtc history_step (new_history [], ts 1) (h_edit, ts 2).
Proof.
  eapply rtc_l; [eapply (step_start _ _ g0 5); [by vm_compute|reflexivity]|].
  apply rtc_once, step_push.
Qed.

Example history_reachable_witness :
  NoDup (ids (undo_stack h_edit ++ redo_stack h_edit)) ∧
  Forall (λ t, (t ≺ ts 2)%ord) (ids (undo_stack h_edit ++ redo_stack h_edit)) ∧
  (transaction_depth h_edit ≠ 0 → is_Some (end_transaction h_edit 7) ∧ is_Some (push_undo h_edit (ts 2))).
Proof. apply (history_reachable [] (ts 1)). apply h_edit_reachable. Defined.

Example undo_redo_timeline_witness :
  (∃ o h', pop_undo h1 = Some (o, h') ∧ timeline h' = timeline h1 ∧ o = last (undo_stack h1) ∧
     (∀ e, o = Some e → pop_redo h' = Some (Some e, h1))) ∧
  (∃ o h', pop_redo h1 = Some (o, h') ∧ timeline h' = timeline h1 ∧ o = last (redo_stack h1) ∧
     (∀ e, o = Some e → pop_undo h' = Some (Some e, h1))) ∧
  (∃ l h', remove_from_undo_until h1 (ts 3) = Some (l, h') ∧ timeline h' = timeline h1 ∧
     undo_stack h1 = undo_stack h' ++ rev l ∧ ts 3 ∉ ids (undo_stack h') ∧
     (∀ e k, rev l = e :: k → transaction_id e = ts 3)) ∧
  (∃ l h', remove_from_redo h1 (ts 3) = Some (l, h') ∧ timeline h' = timeline h1 ∧
     redo_stack h1 = redo_stack h' ++ rev l ∧ ts 3 ∉ ids (redo_stack h') ∧
     (∀ e k, rev l = e :: k → transaction_id e = ts 3)).
Proof.
  apply (undo_redo_timeline h1 (ts 3)); [reflexivity|by apply (bool_decide_unpack _); vm_compute..].
Defined.

Example transaction_bracket_witness :
  let '(o, h1', c') := start_transaction h1 g0 300 (ts 20) in
  o = Some (ts 20) ∧ c' = (tick (ts 20)).2 ∧
  ∃ h2 r h3, record_ops h1' [(ts 21, KEdit); (ts 22, KUndo); (ts 23, KEdit)] = Some h2 ∧
    end_transaction h2 310 = Some (r, h3) ∧ transaction_depth h3 = 0 ∧
    match edits_of [(ts 21, KEdit); (ts 22, KUndo); (ts 23, KEdit)] with
    | [] => r = None ∧ undo_stack h3 = undo_stack h1 ∧ redo_stack h3 = redo_stack h1
    | _ => let e := mkHistoryEntry (mkTransaction (ts 20)
                      (edits_of [(ts 21, KEdit); (ts 22, KUndo); (ts 23, KEdit)]) g0) 300 310 false in
           r = Some e ∧ undo_stack h3 = undo_stack h1 ++ [e] ∧ redo_stack h3 = []
    end.
Proof. by apply (transaction_bracket h1 g0 300 310 (ts 20)). Defined.

(** [push_transaction] keeps the redo stack, like [push_empty_transaction]. *)
Example push_transaction_keeps_redo :
  redo_stack <$> push_transaction h1 (mkTransaction (ts 30) [] g0) 5 = Some (redo_stack h1).
Proof. vm_compute. reflexivity. Qed.

End HistoryExamples.
