(* ===== verification/HistoryEdits.v ===== *)
(** * The edits a history names

    Recording, grouping and moving transactions never makes up an edit: the
    ids in the entries of both stacks are those that were pushed. *)

From S2P Require Import Prelude Clock History.

Section edits.
Implicit Types h : History.

(** The edits of all entries that can be undone or redone. *)
Definition h_edits h : list Lamport := edits (undo_stack h ++ redo_stack h).

Definition names_only h h' (new : list Lamport) : Prop := ∀ x, x ∈ h_edits h' → x ∈ h_edits h ∨ x ∈ new.

Lemma edits_one e : edits [e] = edit_ids (transaction e).
Proof. unfold edits. simpl. apply app_nil_r. Qed.

Lemma elem_of_edits x l : x ∈ edits l ↔ ∃ e, e ∈ l ∧ x ∈ edit_ids (transaction e).
Proof.
  unfold edits. rewrite list_elem_of_In, in_concat. setoid_rewrite <- list_elem_of_In. split.
  - intros (y & (e & -> & He)%list_elem_of_fmap & Hx). by exists e.
  - intros (e & He & Hx). exists (edit_ids (transaction e)). split; [|done]. apply list_elem_of_fmap. by exists e.
Qed.

Lemma names_only_perm h h' : (undo_stack h' ++ redo_stack h') ≡ₚ (undo_stack h ++ redo_stack h) → names_only h h' [].
Proof. intros Hp x Hx. left. unfold h_edits in *. rewrite elem_of_edits in *. by setoid_rewrite <- Hp. Qed.

Lemma names_only_trans h1 h2 h3 l k : names_only h1 h2 l → names_only h2 h3 k → names_only h1 h3 (l ++ k).
Proof. intros H1 H2 x Hx. rewrite elem_of_app. destruct (H2 x Hx) as [[?|?]%H1|?]; auto. Qed.

(** Opening a transaction. *)
Lemma start_names h v now c o h' c' : start_transaction h v now c = (o, h', c') →
  names_only h h' [] ∧ transaction_depth h' = S (transaction_depth h).
Proof.
  unfold start_transaction. destruct (_ =? 1); cbn -[edits pop_top update_top]; intros [= <- <- <-]; (split; [|done]); intros x; [|by left].
  unfold h_edits. cbn -[edits pop_top update_top]. rewrite !edits_app, edits_one. cbn -[edits pop_top update_top]. rewrite !elem_of_app. pose proof (not_elem_of_nil x). tauto.
Qed.

(** Recording an edit in the open transaction. *)
Lemma push_names h t k : transaction_depth h ≠ 0 → undo_stack h ≠ [] → ∃ h', push_undo (push h t k) t = Some h' ∧
  names_only h h' [t] ∧ transaction_depth h' = transaction_depth h.
Proof.
  intros Hd Hu. unfold push_undo. cbn -[edits pop_top update_top]. destruct (transaction_depth h) as [|d] eqn:Ed; [done|].
  rewrite lookup_insert_eq. destruct k; [|eexists; split; [done|]; split; [by left|done]].
  destruct (stack_cases (undo_stack h)) as [?|(u & e & Eu)]; [done|]. rewrite Eu, last_snoc. cbn [mbind option_bind].
  eexists. split; [done|]. split; [|done]. intros x. unfold h_edits. cbn -[edits pop_top update_top]. rewrite Eu, update_top_snoc, !edits_app, !edits_one.
  cbn -[edits pop_top update_top]. rewrite !elem_of_app. tauto.
Qed.

(** Closing it. *)
Lemma end_names h now o h' : end_transaction h now = Some (o, h') →
  names_only h h' [] ∧ transaction_depth h = S (transaction_depth h').
Proof.
  unfold end_transaction. destruct (transaction_depth h) as [|d]; [done|]. destruct (d =? 0); cbn -[edits pop_top update_top].
  2:{ intros [= <- <-]. split; [by left|done]. }
  destruct (stack_cases (undo_stack h)) as [Eu|(u & e & Eu)]; rewrite Eu; [done|]. rewrite last_snoc. cbn -[edits pop_top update_top].
  destruct (edit_ids (transaction e)) as [|i l] eqn:Ei; intros [= <- <-]; (split; [|done]); intros x; unfold h_edits; cbn -[edits pop_top update_top];
    rewrite Eu, ?pop_top_snoc, ?update_top_snoc, ?app_nil_r, !edits_app, ?edits_one; cbn -[edits pop_top update_top]; rewrite ?Ei, !elem_of_app; tauto.
Qed.

(** Grouping it with the transactions before it. *)
Lemma group_names h o h' : undo_stack h ≠ [] → group h = Some (o, h') → names_only h h' [] ∧ transaction_depth h' = transaction_depth h.
Proof.
  intros Hu. destruct (stack_cases (undo_stack h)) as [?|(u & top & E)]; [done|]. unfold group.
  assert (rev (undo_stack h) = top :: rev u) as Hrev by (rewrite E, rev_app_distr; done). rewrite Hrev.
  destruct (stack_split (undo_stack h) (group_count (group_interval h) top (rev u))) as (keep & e & merged & Hs & <-).
  { pose proof (group_count_lt (group_interval h) top (rev u)) as Hlt. rewrite length_rev in Hlt. rewrite E, length_app. cbn -[edits pop_top update_top]. lia. }
  destruct (group_trailing_ok h keep e merged Hs) as (e' & -> & _ & He & _). intros [= <- <-]. split; [|done].
  intros x. unfold h_edits. cbn -[edits]. change (e :: merged) with ([e] ++ merged) in *. rewrite !edits_app, edits_one in He.
  rewrite Hs, !edits_app, !edits_one, He, !elem_of_app. tauto.
Qed.

(** Moving entries between the stacks. *)
Lemma pop_undo_names h o h' : pop_undo h = Some (o, h') →
  names_only h h' [] ∧ transaction_depth h' = 0 ∧ ∀ e, o = Some e → ∀ x, x ∈ edit_ids (transaction e) → x ∈ h_edits h'.
Proof.
  unfold pop_undo, assert_depth_0. destruct (Nat.eqb_spec (transaction_depth h) 0) as [Hd|]; [|done]. cbn [mbind option_bind].
  destruct (stack_cases (undo_stack h)) as [Eu|(u & e & Eu)]; rewrite Eu.
  - intros [= <- <-]. split_and!; [by left|done..].
  - rewrite last_snoc, pop_top_snoc. intros [= <- <-]. split_and!; [|done|].
    + apply names_only_perm. cbn -[edits pop_top update_top]. rewrite Eu, app_assoc. solve_Permutation.
    + intros e' [= <-] x Hx. unfold h_edits. cbn -[edits]. rewrite !edits_app, ?edits_one, !elem_of_app. tauto.
Qed.

Lemma pop_redo_names h o h' : pop_redo h = Some (o, h') →
  names_only h h' [] ∧ transaction_depth h' = 0 ∧ ∀ e, o = Some e → ∀ x, x ∈ edit_ids (transaction e) → x ∈ h_edits h'.
Proof.
  unfold pop_redo, assert_depth_0. destruct (Nat.eqb_spec (transaction_depth h) 0) as [Hd|]; [|done]. cbn [mbind option_bind].
  destruct (stack_cases (redo_stack h)) as [Eu|(u & e & Eu)]; rewrite Eu.
  - intros [= <- <-]. split_and!; [by left|done..].
  - rewrite last_snoc, pop_top_snoc. intros [= <- <-]. split_and!; [|done|].
    + apply names_only_perm. cbn -[edits pop_top update_top]. rewrite Eu. solve_Permutation.
    + intros e' [= <-] x Hx. unfold h_edits. cbn -[edits]. rewrite !edits_app, ?edits_one, !elem_of_app. tauto.
Qed.
End edits.
