(* ===== verification/Patch.v ===== *)
(** * Patches ([crates/text/src/patch.rs], [Edit] of [crates/text/src/text.rs])

    A patch is a sorted list of edits, each replacing a range of the old text by
    a range of the new one.  [compose] merges two patches in one pass; it is
    proved to describe the composed change, whatever texts the patches are
    about.  Subtraction is the checked one of the source's unsigned types
    ([None]: underflow), so the theorems also say that no step underflows. *)

From S2P Require Import Prelude.

(** Checked subtraction of [usize] ([T: Sub]). *)
Definition usub (a b : nat) : option nat := if b <=? a then Some (a - b) else None.

Record Range := mkRange { rstart : nat; rend : nat }.
Record Edit := mkEdit { old : Range; new : Range }.
#[export] Instance Range_eq_dec : EqDecision Range.
Proof. solve_decision. Defined.
#[export] Instance Edit_eq_dec : EqDecision Edit.
Proof. solve_decision. Defined.

Definition is_empty (e : Edit) : bool :=
  (rstart (old e) =? rend (old e)) && (rstart (new e) =? rend (new e)).
Definition old_len (e : Edit) : option nat := usub (rend (old e)) (rstart (old e)).
Definition new_len (e : Edit) : option nat := usub (rend (new e)) (rstart (new e)).

(** [Patch(Vec<Edit<T>>)] *)
Abbreviation Patch := (list Edit).

Definition empty : Patch := [].

Definition invert_edit (e : Edit) : Edit := mkEdit (new e) (old e).
Definition invert (p : Patch) : Patch := invert_edit <$> p.

Definition push_maybe_empty (p : Patch) (e : Edit) : Patch :=
  match last p with
  | Some l =>
      if rstart (old e) <=? rend (old l) then
        take (length p - 1) p ++
          [mkEdit (mkRange (rstart (old l)) (rend (old e))) (mkRange (rstart (new l)) (rend (new e)))]
      else p ++ [e]
  | None => p ++ [e]
  end.

Definition push (p : Patch) (e : Edit) : Patch :=
  if is_empty e then p else push_maybe_empty p e.

(** ** [compose]

    The loop state: the composed edits and the positions reached in the old
    and the new text; the two iterators are lists whose head is the (mutable)
    peeked edit. *)
Record ComposeState := mkState { composed : Patch; old_start : nat; new_start : nat }.

Definition advance (s : ComposeState) (catchup : nat) : ComposeState :=
  mkState (composed s) (old_start s + catchup) (new_start s + catchup).

(** [composed.push(Edit { old: old_start..old_end, new: new_start..new_end })],
    followed by [old_start = old_end; new_start = new_end]. *)
Definition push_to (s : ComposeState) (old_end new_end : nat) : ComposeState :=
  mkState (push (composed s) (mkEdit (mkRange (old_start s) old_end) (mkRange (new_start s) new_end)))
    old_end new_end.

(** "Push the old edit": the whole edit is carried over, [start] being the
    coordinate of the edit that the catch-up is computed from. *)
Definition push_edit (s : ComposeState) (catchup : nat) (e : Edit) : option ComposeState :=
  let s := advance s catchup in
  ol ← old_len e;
  nl ← new_len e;
  Some (push_to s (old_start s + ol) (new_start s + nl)).

(** The first half of the intersection case: bring both edits to the same
    start in the intermediate text. *)
Definition align (s : ComposeState) (old_edit new_edit : Edit) : option (ComposeState * Edit * Edit) :=
  if rstart (new old_edit) <? rstart (old new_edit) then
    catchup ← usub (rstart (old old_edit)) (old_start s);
    let s := advance s catchup in
    overshoot ← usub (rstart (old new_edit)) (rstart (new old_edit));
    let old_end := Nat.min (old_start s + overshoot) (rend (old old_edit)) in
    let new_end := new_start s + overshoot in
    Some (push_to s old_end new_end,
          mkEdit (mkRange old_end (rend (old old_edit)))
                 (mkRange (rstart (new old_edit) + overshoot) (rend (new old_edit))),
          new_edit)
  else
    catchup ← usub (rstart (new new_edit)) (new_start s);
    let s := advance s catchup in
    overshoot ← usub (rstart (new old_edit)) (rstart (old new_edit));
    let old_end := old_start s + overshoot in
    let new_end := Nat.min (new_start s + overshoot) (rend (new new_edit)) in
    Some (push_to s old_end new_end,
          old_edit,
          mkEdit (mkRange (rstart (old new_edit) + overshoot) (rend (old new_edit)))
                 (mkRange new_end (rend (new new_edit)))).

(** The second half: consume the edit that ends first; the other one keeps its
    rest.  The result holds the heads that remain. *)
Definition consume (s : ComposeState) (old_edit new_edit : Edit)
    : option (ComposeState * option Edit * option Edit) :=
  if rend (old new_edit) <? rend (new old_edit) then
    ool ← old_len old_edit;
    nol ← old_len new_edit;
    nnl ← new_len new_edit;
    let old_end := old_start s + Nat.min ool nol in
    let new_end := new_start s + nnl in
    Some (push_to s old_end new_end,
          Some (mkEdit (mkRange old_end (rend (old old_edit)))
                       (mkRange (rend (old new_edit)) (rend (new old_edit)))),
          None)
  else
    ool ← old_len old_edit;
    onl ← new_len old_edit;
    nnl ← new_len new_edit;
    let old_end := old_start s + ool in
    let new_end := new_start s + Nat.min onl nnl in
    Some (push_to s old_end new_end,
          None,
          Some (mkEdit (mkRange (rend (new old_edit)) (rend (old new_edit)))
                       (mkRange new_end (rend (new new_edit))))).

Definition intersect (s : ComposeState) (old_edit new_edit : Edit)
    : option (ComposeState * option Edit * option Edit) :=
  '(s, old_edit, new_edit) ← align s old_edit new_edit;
  consume s old_edit new_edit.

Definition is_none_or {A} (o : option A) (f : A → bool) : bool :=
  match o with None => true | Some x => f x end.

Definition cons_option {A} (o : option A) (l : list A) : list A :=
  match o with Some x => x :: l | None => l end.

Fixpoint compose_loop (fuel : nat) (olds news : list Edit) (s : ComposeState) : option Patch :=
  match fuel with
  | O => None
  | S fuel =>
    match olds, news with
    | oe :: olds', _ =>
      if is_none_or (head news) (λ ne, rend (new oe) <? rstart (old ne)) then
        catchup ← usub (rstart (old oe)) (old_start s);
        s ← push_edit s catchup oe;
        compose_loop fuel olds' news s
      else
        match news with
        | ne :: news' =>
          if rend (old ne) <? rstart (new oe) then
            catchup ← usub (rstart (new ne)) (new_start s);
            s ← push_edit s catchup ne;
            compose_loop fuel olds news' s
          else
            '(s, oe, ne) ← intersect s oe ne;
            compose_loop fuel (cons_option oe olds') (cons_option ne news') s
        | [] => Some (composed s)
        end
    | [], ne :: news' =>
        catchup ← usub (rstart (new ne)) (new_start s);
        s ← push_edit s catchup ne;
        compose_loop fuel [] news' s
    | [], [] => Some (composed s)
    end
  end.

(** Every iteration consumes one edit. *)
Definition compose_fuel (olds news : list Edit) : nat := S (length olds + length news).

Definition compose (self : Patch) (new_edits : list Edit) : option Patch :=
  compose_loop (compose_fuel self new_edits) self new_edits (mkState [] 0 0).

(** ** Position mapping *)

Definition probe_old (pos : nat) (e : Edit) : comparison := Nat.compare (rstart (old e)) pos.

Definition old_to_new (self : Patch) (pos : nat) : nat :=
  let at_ix (ix : nat) :=
    match self !! ix with
    | Some edit =>
        if rend (old edit) <=? pos then rend (new edit) + (pos - rend (old edit))
        else rstart (new edit)
    | None => pos
    end in
  match binary_search_by (probe_old pos) self with
  | inl ix => at_ix ix
  | inr 0 => pos
  | inr (S ix) => at_ix ix
  end.

Definition edit_for_old_position (self : Patch) (pos : nat) : Edit :=
  let here := mkEdit (mkRange pos pos) (mkRange pos pos) in
  let at_ix (ix : nat) :=
    match self !! ix with
    | Some edit =>
        if rend (old edit) <? pos then
          let translated := rend (new edit) + (pos - rend (old edit)) in
          mkEdit (mkRange pos pos) (mkRange translated translated)
        else edit
    | None => here
    end in
  match binary_search_by (probe_old pos) self with
  | inl ix => at_ix ix
  | inr 0 => here
  | inr (S ix) => at_ix ix
  end.

(** [retain_mut] with a closure that may modify the edits it keeps. *)
Definition retain_mut (f : Edit → bool * Edit) (self : Patch) : Patch :=
  omap (λ e, let '(keep, e) := f e in if keep then Some e else None) self.

(** ** What a patch means

    [describes o n p a b]: from position [o] of the old text and [n] of the new
    one, the rest [b] of the new text is the rest [a] of the old one with the
    edits of [p] applied: the text between edits is unchanged. *)

Section describes.
Context {A : Type}.
Implicit Types a b c k x y : list A.

Definition span_edit (o n lo ln : nat) : Edit := mkEdit (mkRange o (o + lo)) (mkRange n (n + ln)).

Inductive describes (o n : nat) : Patch → list A → list A → Prop :=
| describes_nil a : describes o n [] a a
| describes_cons k x y a b p :
    describes (o + length k + length x) (n + length k + length y) p a b →
    describes o n (span_edit (o + length k) (n + length k) (length x) (length y) :: p)
      (k ++ x ++ a) (k ++ y ++ b).

Lemma span_eq o oe n ne o' lo n' ln :
  o = o' → oe = o' + lo → n = n' → ne = n' + ln →
  mkEdit (mkRange o oe) (mkRange n ne) = span_edit o' n' lo ln.
Proof. by intros -> -> -> ->. Qed.

Lemma describes_cons' o n k x y a b p e a' b' :
  describes (o + length k + length x) (n + length k + length y) p a b →
  e = span_edit (o + length k) (n + length k) (length x) (length y) →
  a' = k ++ x ++ a → b' = k ++ y ++ b → describes o n (e :: p) a' b'.
Proof. intros ? -> -> ->. by constructor. Qed.

(** Edits of a describing patch, and texts that only share a prefix. *)
Lemma describes_keep o n k p a b :
  describes (o + length k) (n + length k) p a b → describes o n p (k ++ a) (k ++ b).
Proof.
  intros Hd. inversion Hd as [|k' x y a' b' p' Hd' E1 E2]; subst; [constructor|].
  eapply (describes_cons' _ _ (k ++ k') x y); rewrite ?length_app, ?Nat.add_assoc; [done..| |];
    by rewrite <- !app_assoc.
Qed.

Lemma describes_unkeep o n k p a b :
  describes o n p (k ++ a) b → (∀ e, head p = Some e → o + length k ≤ rstart (old e)) →
  ∃ b', b = k ++ b' ∧ describes (o + length k) (n + length k) p a b'.
Proof.
  intros Hd Hh. inversion Hd as [a0|k' x y a' b' p' Hd' E1 E2 E3]; subst.
  { exists a. split; [done|]. constructor. }
  specialize (Hh _ eq_refl). simpl in Hh.
  assert (∃ k2, k' = k ++ k2) as [k2 ->].
  { apply (f_equal (take (length k))) in E2. rewrite take_app_length, take_app_le in E2 by lia.
    exists (drop (length k) k'). rewrite <- E2 at 1. by rewrite take_drop. }
  rewrite <- app_assoc in E2. apply app_inv_head in E2. subst a.
  rewrite length_app, !Nat.add_assoc in Hd' |- *.
  exists (k2 ++ y ++ b'). split; [by rewrite <- app_assoc|]. by constructor.
Qed.

(** The same seen from the new text. *)
Lemma describes_invert o n p a b : describes o n p a b → describes n o (invert p) b a.
Proof.
  induction 1 as [|o n k x y a b p Hd IH]; [constructor|].
  by apply (describes_cons n o k y x).
Qed.

Lemma invert_involutive (p : Patch) : invert (invert p) = p.
Proof. unfold invert. induction p as [|[??] p IH]; [done|]. rewrite !fmap_cons, IH. done. Qed.

Lemma describes_unkeep_new o n k p a b :
  describes o n p a (k ++ b) → (∀ e, head p = Some e → n + length k ≤ rstart (new e)) →
  ∃ a', a = k ++ a' ∧ describes (o + length k) (n + length k) p a' b.
Proof.
  intros Hd%describes_invert Hh.
  destruct (describes_unkeep _ _ _ _ _ _ Hd) as (a' & -> & Hd').
  { intros e He. destruct p as [|e' p]; [done|]. simpl in He. injection He as <-. by apply Hh. }
  exists a'. split; [done|]. apply describes_invert in Hd'. by rewrite invert_involutive in Hd'.
Qed.

(** Appending a kept stretch and one edit at the end. *)
Lemma describes_snoc o n p a b k x y :
  describes o n p a b →
  describes o n (p ++ [span_edit (o + length a + length k) (n + length b + length k) (length x) (length y)])
    (a ++ k ++ x) (b ++ k ++ y).
Proof.
  induction 1 as [o n a|o n k' x' y' a b p Hd IH].
  - eapply (describes_cons' _ _ (a ++ k) x y [] []); rewrite ?length_app, ?Nat.add_assoc, ?app_nil_r;
      [constructor|done|..]; by rewrite <- app_assoc.
  - simpl. eapply describes_cons'; [|done|by rewrite <- !app_assoc..].
    rewrite !length_app, !Nat.add_assoc. exact IH.
Qed.

Lemma describes_app_r o n p a b k : describes o n p a b → describes o n p (a ++ k) (b ++ k).
Proof. induction 1; [constructor|]. rewrite <- !app_assoc. by constructor. Qed.

(** ... and conversely: the last edit of a patch. *)
Lemma describes_snoc_inv o n p e a b :
  describes o n (p ++ [e]) a b →
  ∃ a1 b1 k x y k', describes o n p a1 b1 ∧
    e = span_edit (o + length a1 + length k) (n + length b1 + length k) (length x) (length y) ∧
    a = a1 ++ k ++ x ++ k' ∧ b = b1 ++ k ++ y ++ k' ∧ (p = [] → a1 = [] ∧ b1 = []).
Proof.
  revert o n a b. induction p as [|e' p IH]; intros o n a b Hd; simpl in Hd.
  - inversion Hd as [|k x y a' b' p' Hd']; subst. inversion Hd'; subst.
    eexists [], [], k, x, y, _. simpl. rewrite !Nat.add_0_r. split_and!; try done. constructor.
  - inversion Hd as [|k x y a' b' p' Hd']; subst.
    destruct (IH _ _ _ _ Hd') as (a1 & b1 & k2 & x2 & y2 & k3 & Hd1 & -> & -> & -> & _).
    exists (k ++ x ++ a1), (k ++ y ++ b1), k2, x2, y2, k3.
    rewrite !length_app, !Nat.add_assoc, <- !app_assoc. split_and!; try done. by constructor.
Qed.

End describes.

(** ** Normal form: no empty edits, and a gap between consecutive ones (what
    [Patch::new] asserts). *)
Definition separated (e1 e2 : Edit) : bool :=
  (rend (old e1) <? rstart (old e2)) && (rend (new e1) <? rstart (new e2)).

(** [Patch::new] with its debug assertion. *)
Fixpoint all_separated (p : Patch) : bool :=
  match p with
  | e1 :: (e2 :: _) as p => separated e1 e2 && all_separated p
  | _ => true
  end.
Definition new_patch (edits : list Edit) : option Patch :=
  if all_separated edits then Some edits else None.

Definition normalized (p : Patch) : Prop :=
  all_separated p = true ∧ Forall (λ e, is_empty e = false) p.

Lemma all_separated_snoc p l e :
  all_separated (p ++ [l; e]) = all_separated (p ++ [l]) && separated l e.
Proof.
  induction p as [|e1 [|e2 p] IH]; simpl in *; [by rewrite andb_true_r|by rewrite !andb_true_r|].
  by rewrite IH, andb_assoc.
Qed.

Lemma all_separated_last p l l' :
  rstart (old l) = rstart (old l') → rstart (new l) = rstart (new l') →
  all_separated (p ++ [l]) = all_separated (p ++ [l']).
Proof.
  intros H1 H2. destruct p as [|e p _] using rev_ind; [done|].
  rewrite <- !app_assoc. simpl. rewrite !all_separated_snoc. unfold separated. by rewrite H1, H2.
Qed.

Lemma all_separated_app_r p q : all_separated (p ++ q) = true → all_separated q = true.
Proof.
  induction p as [|e p IH]; [done|]. intros H. apply IH. destruct (p ++ q) eqn:E; [done|].
  simpl in H. rewrite E in H. cbn [all_separated] in H. by apply andb_true_iff in H as [_ ?].
Qed.

Lemma span_edit_empty {A} o n (x y : list A) :
  is_empty (span_edit o n (length x) (length y)) = true ↔ x = [] ∧ y = [].
Proof.
  unfold is_empty, span_edit. simpl. rewrite andb_true_iff, !Nat.eqb_eq.
  split; [|by intros [-> ->]; simpl; lia].
  intros [??]. split; apply length_zero_iff_nil; lia.
Qed.

Lemma span_nonempty {A} o n (x y : list A) : (x ≠ [] ∨ y ≠ []) →
  is_empty (span_edit o n (length x) (length y)) = false.
Proof. intros H. apply not_true_iff_false. rewrite span_edit_empty. naive_solver. Qed.

Lemma span_edit_join o n lo ln lo' ln' :
  mkEdit (mkRange o (o + lo + lo')) (mkRange n (n + ln + ln')) = span_edit o n (lo + lo') (ln + ln').
Proof. unfold span_edit. by rewrite !Nat.add_assoc. Qed.

(** [push] at the end of a normal patch: describes the longer texts, and keeps
    the patch normal. *)
Lemma push_patch_ok {A} (p : Patch) (a b k x y : list A) :
  describes 0 0 p a b → normalized p →
  let p' := push p (span_edit (length a + length k) (length b + length k) (length x) (length y)) in
  describes 0 0 p' (a ++ k ++ x) (b ++ k ++ y) ∧ normalized p'.
Proof.
  intros Hd [Hsep Hne]. simpl. unfold push.
  destruct (is_empty _) eqn:He.
  { apply span_edit_empty in He as [-> ->]. rewrite !app_nil_r.
    split; [by apply describes_app_r|done]. }
  unfold push_maybe_empty. pose proof (describes_snoc 0 0 p a b k x y Hd) as Hsn. simpl in Hsn.
  destruct p as [|l p _] using rev_ind.
  { split; [exact Hsn|]. split; [done|]. by repeat constructor. }
  rewrite last_snoc, length_app, Nat.add_sub, take_app_length.
  apply describes_snoc_inv in Hd as (a1 & b1 & k1 & x1 & y1 & k2 & Hd & -> & -> & -> & _).
  apply Forall_app in Hne as [Hnp [Hnl _]%Forall_cons].
  cbn [span_edit old new rstart rend]. destruct (Nat.leb_spec (length (a1 ++ k1 ++ x1 ++ k2) + length k)
    (0 + length a1 + length k1 + length x1)) as [Hle|Hgt].
  - rewrite !length_app in Hle. assert (k2 = [] ∧ k = []) as [-> ->].
    { split; apply length_zero_iff_nil; lia. }
    match goal with |- describes 0 0 (p ++ [?e]) _ _ ∧ _ =>
      replace e with (span_edit (0 + length a1 + length k1) (0 + length b1 + length k1)
        (length (x1 ++ x)) (length (y1 ++ y)))
    end.
    2: { unfold span_edit. rewrite !length_app. simpl. f_equal; f_equal; lia. }
    rewrite !app_nil_r. simpl app. rewrite <- !app_assoc. split; [|split].
    + exact (describes_snoc 0 0 p a1 b1 k1 (x1 ++ x) (y1 ++ y) Hd).
    + rewrite <- Hsep. by apply all_separated_last.
    + apply Forall_app. split; [done|]. constructor; [|done]. apply span_nonempty.
      destruct x; [|left; by destruct x1]. destruct y; [|right; by destruct y1].
      by rewrite (proj2 (span_edit_empty _ _ [] [])) in He.
  - split; [exact Hsn|]. split.
    + rewrite <- app_assoc. cbn [app]. rewrite all_separated_snoc, Hsep. cbn [andb].
      unfold separated. cbn [span_edit old new rstart rend].
      rewrite !length_app in Hgt. apply andb_true_iff.
      split; apply Nat.ltb_lt; rewrite ?length_app; simpl; clear -Hgt; lia.
    + rewrite <- app_assoc. apply Forall_app. split; [done|]. by repeat constructor.
Qed.

(** ** Composition *)

Lemma usub_le a b : b ≤ a → usub a b = Some (a - b).
Proof. intros H. unfold usub. by rewrite (proj2 (Nat.leb_le _ _) H). Qed.

Lemma usub_add a b : usub (a + b) a = Some b.
Proof. rewrite usub_le by lia. f_equal. lia. Qed.

Lemma span_old_len o n lo ln : old_len (span_edit o n lo ln) = Some lo.
Proof. apply usub_add. Qed.

Lemma span_new_len o n lo ln : new_len (span_edit o n lo ln) = Some ln.
Proof. apply usub_add. Qed.

Section compose.
Context {A : Type}.
Implicit Types a b c k x y : list A.

(** The state has composed the change from [a] to [c] so far. *)
Definition good (s : ComposeState) a c : Prop :=
  describes 0 0 (composed s) a c ∧ normalized (composed s) ∧
  old_start s = length a ∧ new_start s = length c.

Lemma push_to_ok s a c k x y oe ne :
  good s a c → oe = length a + length k + length x → ne = length c + length k + length y →
  good (push_to (advance s (length k)) oe ne) (a ++ k ++ x) (c ++ k ++ y).
Proof.
  intros (Hd & Hn & Ho & Hw) -> ->. unfold good. cbn [push_to advance composed old_start new_start].
  rewrite Ho, Hw. destruct (push_patch_ok (composed s) a c k x y Hd Hn) as [Hd' Hn'].
  rewrite !length_app, !Nat.add_assoc. done.
Qed.

Lemma push_to_app s a c k oe ne :
  good s a c → oe = length a + length k → ne = length c + length k →
  good (push_to (advance s (length k)) oe ne) (a ++ k) (c ++ k).
Proof.
  intros Hg -> ->. rewrite <- (app_nil_r k) at 4 5. apply push_to_ok; simpl; [done|lia..].
Qed.

Lemma push_to_here_ok s a c x y oe ne :
  good s a c → oe = length a + length x → ne = length c + length y →
  good (push_to s oe ne) (a ++ x) (c ++ y).
Proof.
  intros Hg -> ->.
  replace s with (advance s (length (@nil A))) at 1; [|destruct s; unfold advance; simpl; f_equal; lia].
  change (a ++ x) with (a ++ [] ++ x). change (c ++ y) with (c ++ [] ++ y).
  apply push_to_ok; simpl; [done|lia..].
Qed.

Lemma push_edit_ok s a c k x y o n :
  good s a c →
  ∃ s', push_edit s (length k) (span_edit o n (length x) (length y)) = Some s' ∧
    good s' (a ++ k ++ x) (c ++ k ++ y).
Proof.
  intros Hg. unfold push_edit. rewrite span_old_len, span_new_len. cbn [mbind option_bind].
  eexists. split; [done|]. destruct Hg as (Hd & Hn & Ho & Hw).
  apply push_to_ok; [done|..]; simpl; lia.
Qed.

(** Two edits that start at the same place [m] of the intermediate text. *)
Lemma consume_ok s a c m x2 y2 xn yn olds news a2 bo bn cn :
  good s a c → y2 ++ bo = xn ++ bn →
  describes (length a + length x2) (m + length y2) olds a2 bo →
  describes (m + length xn) (length c + length yn) news bn cn →
  ∃ s' oe ne a' c' ar br cr m',
    consume s (span_edit (length a) m (length x2) (length y2))
      (span_edit m (length c) (length xn) (length yn)) = Some (s', oe, ne) ∧
    good s' a' c' ∧ a ++ x2 ++ a2 = a' ++ ar ∧ c ++ yn ++ cn = c' ++ cr ∧
    describes (length a') m' (cons_option oe olds) ar br ∧
    describes m' (length c') (cons_option ne news) br cr ∧
    length (cons_option oe olds) + length (cons_option ne news) = S (length olds + length news).
Proof.
  intros Hg Heq Ho Hn. unfold consume. rewrite !span_old_len, !span_new_len.
  cbn [mbind option_bind span_edit old new rstart rend].
  pose proof Hg as (_ & _ & Hos & Hns). rewrite Hos, Hns.
  destruct (Nat.ltb_spec (m + length xn) (m + length y2)) as [Hlt|Hge].
  - assert (∃ y3, y2 = xn ++ y3 ∧ bn = y3 ++ bo) as (y3 & -> & ->).
    { destruct (app_eq_app y2 bo xn bn Heq) as (l & [[-> ->]|[-> ->]]); [by exists l|].
      rewrite length_app in Hlt. lia. }
    set (q := Nat.min (length x2) (length xn)).
    assert (length (take q x2) = q) as Hq by (rewrite length_take; lia).
    do 3 eexists. exists (a ++ take q x2), (c ++ yn), (drop q x2 ++ a2), (y3 ++ bo), cn, (m + length xn).
    rewrite !length_app, !Hq in *. split_and!; [done| | | | | |simpl; lia].
    + apply push_to_here_ok; lia || done.
    + by rewrite <- !app_assoc, (app_assoc (take q x2)), take_drop.
    + by rewrite <- app_assoc.
    + cbn [cons_option]. eapply (describes_cons' _ _ [] (drop q x2) y3); simpl; [|..|done|done].
      * rewrite length_drop, !Nat.add_0_r.
        replace (length a + q + (length x2 - q)) with (length a + length x2) by lia.
        by rewrite Nat.add_assoc in Ho.
      * rewrite length_drop, !Nat.add_0_r. unfold span_edit. f_equal; f_equal; lia.
    + done.
  - assert (∃ x3, xn = y2 ++ x3 ∧ bo = x3 ++ bn) as (x3 & -> & ->).
    { destruct (app_eq_app y2 bo xn bn Heq) as (l & [[-> ->]|[-> ->]]); [|by exists l].
      rewrite length_app in Hge. assert (l = []) as -> by (apply length_zero_iff_nil; lia).
      exists []. by rewrite !app_nil_r. }
    set (q := Nat.min (length y2) (length yn)).
    assert (length (take q yn) = q) as Hq by (rewrite length_take; lia).
    do 3 eexists. exists (a ++ x2), (c ++ take q yn), a2, (x3 ++ bn), (drop q yn ++ cn), (m + length y2).
    rewrite !length_app, !Hq in *. split_and!; [done| | | | | |simpl; lia].
    + apply push_to_here_ok; lia || done.
    + by rewrite <- app_assoc.
    + by rewrite <- !app_assoc, (app_assoc (take q yn)), take_drop.
    + done.
    + cbn [cons_option]. eapply (describes_cons' _ _ [] x3 (drop q yn)); simpl; [|..|done|done].
      * rewrite length_drop, !Nat.add_0_r.
        replace (length c + q + (length yn - q)) with (length c + length yn) by lia.
        by rewrite Nat.add_assoc in Hn.
      * rewrite length_drop, !Nat.add_0_r. unfold span_edit. f_equal; f_equal; lia.
Qed.

(** Bringing two intersecting edits to the same start. *)
Lemma align_ok s a c m ko xo yo bo kn xn yn bn :
  good s a c → ko ++ yo ++ bo = kn ++ xn ++ bn →
  length kn ≤ length ko + length yo → length ko ≤ length kn + length xn →
  ∃ s' a' c' m' x2 y2 xn' yn',
    align s (span_edit (length a + length ko) (m + length ko) (length xo) (length yo))
      (span_edit (m + length kn) (length c + length kn) (length xn) (length yn)) =
      Some (s', span_edit (length a') m' (length x2) (length y2),
                span_edit m' (length c') (length xn') (length yn')) ∧
    good s' a' c' ∧ y2 ++ bo = xn' ++ bn ∧
    a ++ ko ++ xo = a' ++ x2 ∧ c ++ kn ++ yn = c' ++ yn' ∧
    m' + length y2 = m + length ko + length yo ∧ m' + length xn' = m + length kn + length xn.
Proof.
  intros Hg Heq H1 H2. unfold align. cbn [span_edit old new rstart rend].
  pose proof Hg as (_ & _ & Hos & Hns). rewrite Hos, Hns, !usub_add.
  destruct (Nat.ltb_spec (m + length ko) (m + length kn)) as [Hlt|Hge].
  - rewrite usub_le by lia. cbn [mbind option_bind advance old_start new_start]. rewrite Hos, Hns.
    destruct (app_eq_app ko (yo ++ bo) kn (xn ++ bn) Heq) as (y1 & [[-> Hy]|[-> Hy]]).
    { rewrite length_app in Hlt. lia. }
    assert (∃ y2, yo = y1 ++ y2 ∧ y2 ++ bo = xn ++ bn) as (y2 & -> & Hy2).
    { destruct (app_eq_app yo bo y1 (xn ++ bn) Hy) as (l & [[-> E]|[-> E]]); [by exists l|].
      rewrite !length_app in H1. assert (l = []) as -> by (apply length_zero_iff_nil; lia).
      exists []. simpl in *. by rewrite !app_nil_r. }
    rewrite !length_app in *. remember (Nat.min (length xo) (length y1)) as q eqn:Eq.
    assert (length (take q xo) = q) as Hq by (rewrite length_take; lia).
    eexists _, (a ++ ko ++ take q xo), (c ++ ko ++ y1), (m + length ko + length y1), (drop q xo), y2, xn, yn.
    rewrite !length_app, !Hq, !length_drop.
    split_and!; [apply f_equal, f_equal2; [apply f_equal2; [reflexivity|]|]; apply span_eq; lia
      |apply push_to_ok; [done|rewrite ?Hq; lia..]|done| | |lia..].
    + by rewrite <- !app_assoc, take_drop.
    + by rewrite <- !app_assoc.
  - rewrite usub_le by lia. cbn [mbind option_bind advance old_start new_start]. rewrite Hos, Hns.
    destruct (app_eq_app kn (xn ++ bn) ko (yo ++ bo) (eq_sym Heq)) as (x1 & [[-> Hx]|[-> Hx]]).
    { rewrite length_app in Hge. assert (x1 = []) as -> by (apply length_zero_iff_nil; lia).
      rewrite app_nil_r in *. simpl in Hx.
      eexists _, (a ++ ko ++ []), (c ++ ko ++ []), (m + length ko), xo, yo, xn, yn.
      rewrite Nat.sub_diag, Nat.min_l, !Nat.add_0_r by lia. rewrite !app_nil_r, !length_app.
      split_and!; [reflexivity| |done| | |lia..]; [|by rewrite <- !app_assoc..].
      apply (push_to_app s a c ko); [done|lia..]. }
    assert (∃ x2, xn = x1 ++ x2 ∧ yo ++ bo = x2 ++ bn) as (x2 & -> & Hx2).
    { destruct (app_eq_app xn bn x1 (yo ++ bo) Hx) as (l & [[-> E]|[-> E]]); [by exists l|].
      rewrite !length_app in H2. assert (l = []) as -> by (apply length_zero_iff_nil; lia).
      exists []. simpl in *. by rewrite !app_nil_r. }
    rewrite !length_app in *. remember (Nat.min (length yn) (length x1)) as q eqn:Eq.
    assert (length (take q yn) = q) as Hq by (rewrite length_take; lia).
    eexists _, (a ++ kn ++ x1), (c ++ kn ++ take q yn), (m + length kn + length x1), xo, yo, x2, (drop q yn).
    rewrite !length_app, !Hq, !length_drop.
    split_and!; [apply f_equal, f_equal2; [apply f_equal2; [reflexivity|]|]; apply span_eq; lia
      |apply push_to_ok; [done|rewrite ?Hq; lia..]|done| | |lia..].
    + by rewrite <- !app_assoc.
    + by rewrite <- !app_assoc, take_drop.
Qed.

(** The loop invariant: what is left of both patches describes what is left of
    the texts. *)
Definition pending (s : ComposeState) (olds news : list Edit) a c : Prop :=
  ∃ a1 c1 ar br cr m, good s a1 c1 ∧ a = a1 ++ ar ∧ c = c1 ++ cr ∧
    describes (length a1) m olds ar br ∧ describes m (length c1) news br cr.

(** An old edit that ends before the next new one starts. *)
Lemma old_first_ok s oe olds news a c :
  pending s (oe :: olds) news a c →
  is_none_or (head news) (λ ne, rend (new oe) <? rstart (old ne)) = true →
  ∃ n s', usub (rstart (old oe)) (old_start s) = Some n ∧ push_edit s n oe = Some s' ∧
    pending s' olds news a c.
Proof.
  intros (a1 & c1 & ar & br & cr & m & Hg & -> & -> & Ho & Hn) Hb.
  inversion Ho as [|k x y a' b' p' Ho' E1 E2]; subst.
  rewrite app_assoc in Hn. apply describes_unkeep in Hn as (c' & -> & Hn).
  2: { intros ne Hne. destruct news as [|ne' news]; [done|]. simplify_eq/=.
       apply Nat.ltb_lt in Hb. rewrite length_app. lia. }
  destruct (push_edit_ok s a1 c1 k x y (length a1 + length k) (m + length k) Hg) as (s' & Hs & Hg').
  exists (length k), s'. split_and!; [|done|].
  { destruct Hg as (_ & _ & -> & _). apply usub_add. }
  exists (a1 ++ k ++ x), (c1 ++ k ++ y), a', b', c', (m + length k + length y).
  rewrite !length_app, !Nat.add_assoc in *. split_and!; try done; by rewrite <- !app_assoc.
Qed.

(** A new edit that ends before the next old one starts. *)
Lemma new_first_ok s ne olds news a c :
  pending s olds (ne :: news) a c →
  is_none_or (head olds) (λ oe, rend (old ne) <? rstart (new oe)) = true →
  ∃ n s', usub (rstart (new ne)) (new_start s) = Some n ∧ push_edit s n ne = Some s' ∧
    pending s' olds news a c.
Proof.
  intros (a1 & c1 & ar & br & cr & m & Hg & -> & -> & Ho & Hn) Hb.
  inversion Hn as [|k x y a' b' p' Hn' E1 E2]; subst.
  rewrite app_assoc in Ho. apply describes_unkeep_new in Ho as (c' & -> & Ho).
  2: { intros oe Hoe. destruct olds as [|oe' olds]; [done|]. simplify_eq/=.
       apply Nat.ltb_lt in Hb. rewrite length_app. lia. }
  destruct (push_edit_ok s a1 c1 k x y (m + length k) (length c1 + length k) Hg) as (s' & Hs & Hg').
  exists (length k), s'. split_and!; [|done|].
  { destruct Hg as (_ & _ & _ & ->). apply usub_add. }
  exists (a1 ++ k ++ x), (c1 ++ k ++ y), c', a', b', (m + length k + length x).
  rewrite !length_app, !Nat.add_assoc in *. split_and!; try done; by rewrite <- !app_assoc.
Qed.

(** Two edits that intersect. *)
Lemma intersect_ok s oe ne olds news a c :
  pending s (oe :: olds) (ne :: news) a c →
  (rend (new oe) <? rstart (old ne)) = false → (rend (old ne) <? rstart (new oe)) = false →
  ∃ s' oe' ne', intersect s oe ne = Some (s', oe', ne') ∧
    pending s' (cons_option oe' olds) (cons_option ne' news) a c ∧
    length (cons_option oe' olds) + length (cons_option ne' news) = S (length olds + length news).
Proof.
  intros (a1 & c1 & ar & br & cr & m & Hg & -> & -> & Ho & Hn) H1%Nat.ltb_ge H2%Nat.ltb_ge.
  inversion Ho as [|ko xo yo a' bo p' Ho' E1 E2]; subst.
  inversion Hn as [|kn xn yn bn c' p' Hn' E1 E2 E3]; subst.
  cbn [span_edit old new rstart rend] in H1, H2.
  destruct (align_ok s a1 c1 m ko xo yo bo kn xn yn bn Hg (eq_sym E2) ltac:(lia) ltac:(lia)) as
    (s1 & a2 & c2 & m' & x2 & y2 & xn' & yn' & Hal & Hg1 & Heq & Ha & Hc & Hm1 & Hm2).
  unfold intersect. rewrite Hal. cbn [mbind option_bind].
  pose proof (f_equal length Ha) as Hla. pose proof (f_equal length Hc) as Hlc.
  rewrite !length_app in Hla, Hlc.
  destruct (consume_ok s1 a2 c2 m' x2 y2 xn' yn' olds news a' bo bn c' Hg1 Heq) as
    (s2 & oe & ne & a3 & c3 & ar & br & cr & m3 & -> & Hg2 & Ha3 & Hc3 & Ho3 & Hn3 & Hlen).
  { rewrite <- Hla, Hm1, Nat.add_assoc. exact Ho'. }
  { rewrite <- Hlc, Hm2, Nat.add_assoc. exact Hn'. }
  eexists s2, oe, ne. split_and!; [done| |done].
  exists a3, c3, ar, br, cr, m3. split_and!; try done.
  - rewrite <- Ha3, (app_assoc a2), <- Ha. by rewrite <- !app_assoc.
  - rewrite <- Hc3, (app_assoc c2), <- Hc. by rewrite <- !app_assoc.
Qed.

Lemma compose_loop_ok fuel olds news s a c :
  pending s olds news a c → length olds + length news < fuel →
  ∃ p, compose_loop fuel olds news s = Some p ∧ describes 0 0 p a c ∧ normalized p.
Proof.
  revert olds news s. induction fuel as [|fuel IH]; intros olds news s Hp Hf; [lia|].
  destruct olds as [|oe olds]; [destruct news as [|ne news]|]; simpl in Hf; cbn [compose_loop].
  - destruct Hp as (a1 & c1 & ar & br & cr & m & Hg & -> & -> & Ho & Hn).
    inversion Ho; subst. inversion Hn; subst. destruct Hg as (Hd & Hnorm & _).
    exists (composed s). split_and!; [done|by apply describes_app_r|done].
  - destruct (new_first_ok s ne [] news a c Hp eq_refl) as (n & s' & -> & Hs & Hp').
    cbn [mbind option_bind]. rewrite Hs. apply IH; [done|simpl; lia].
  - destruct (is_none_or (head news) _) eqn:Hb1.
    { destruct (old_first_ok s oe olds news a c Hp Hb1) as (n & s' & -> & Hs & Hp').
      cbn [mbind option_bind]. rewrite Hs. apply IH; [done|lia]. }
    destruct news as [|ne news]; [done|]. simpl in Hb1, Hf.
    destruct (rend (old ne) <? rstart (new oe)) eqn:Hb2.
    { destruct (new_first_ok s ne (oe :: olds) news a c Hp Hb2) as (n & s' & -> & Hs & Hp').
      cbn [mbind option_bind]. rewrite Hs. apply IH; [done|simpl; lia]. }
    destruct (intersect_ok s oe ne olds news a c Hp Hb1 Hb2) as (s' & oe' & ne' & -> & Hp' & Hlen).
    cbn [mbind option_bind]. apply IH; [done|lia].
Qed.

Lemma compose_ok (p q : Patch) a b c :
  describes 0 0 p a b → describes 0 0 q b c →
  ∃ r, compose p q = Some r ∧ describes 0 0 r a c ∧ normalized r.
Proof.
  intros Hp Hq. apply compose_loop_ok; [|unfold compose_fuel; lia].
  exists [], [], a, b, c, 0. split_and!; try done. split_and!; try done. constructor.
Qed.

(** C1: composing two patches is sequential application.  If [p] describes the
    change from text [a] to text [b] and [q] the one from [b] to [c], then
    [compose p q] terminates without underflow and describes the change from
    [a] to [c]; its edits are non-empty, in order and never touch. *)
Theorem compose_sequential (p q : Patch) a b c :
  describes 0 0 p a b → describes 0 0 q b c →
  ∃ r, compose p q = Some r ∧ describes 0 0 r a c ∧ new_patch r = Some r ∧
    Forall (λ e, is_empty e = false) r.
Proof.
  intros Hp Hq. destruct (compose_ok p q a b c Hp Hq) as (r & ? & ? & Hn & ?).
  exists r. unfold new_patch. by rewrite Hn.
Qed.

End compose.

(** ** Position mapping *)

Section positions.
Context {A : Type}.
Implicit Types a b k x y : list A.

Lemma describes_bounds o n p a b e :
  describes o n p a b → e ∈ p →
  o ≤ rstart (old e) ∧ rstart (old e) ≤ rend (old e) ∧ rend (old e) ≤ o + length a ∧
  n ≤ rstart (new e) ∧ rstart (new e) ≤ rend (new e) ∧ rend (new e) ≤ n + length b.
Proof.
  induction 1 as [|o n k x y a b p Hd IH]; intros He; [by apply elem_of_nil in He|].
  rewrite !length_app. apply elem_of_cons in He as [->|He]; [simpl; lia|].
  specialize (IH He). lia.
Qed.

(** The edits of a separated patch do not touch. *)
Lemma separated_all o n e p a b :
  describes o n (e :: p) a b → all_separated (e :: p) = true →
  ∀ e', e' ∈ p → rend (old e) < rstart (old e') ∧ rend (new e) < rstart (new e').
Proof.
  intros Hd Hs e' He'. destruct p as [|e2 p]; [by apply elem_of_nil in He'|].
  cbn [all_separated] in Hs. apply andb_true_iff in Hs as [Hs _]. unfold separated in Hs.
  apply andb_true_iff in Hs as [H1%Nat.ltb_lt H2%Nat.ltb_lt].
  apply elem_of_cons in He' as [->|He']; [done|].
  inversion Hd as [|k x y a' b' p' Hd']; subst. clear Hd.
  inversion Hd' as [|k2 x2 y2 a2 b2 p2 Hd2]; subst.
  pose proof (describes_bounds _ _ _ _ _ _ Hd2 He'). simpl in *. lia.
Qed.

(** Splitting a description around one edit. *)
Lemma describes_middle o n p1 e p2 a b :
  describes o n (p1 ++ e :: p2) a b →
  ∃ a1 x a2 b1 y b2, a = a1 ++ x ++ a2 ∧ b = b1 ++ y ++ b2 ∧
    e = span_edit (o + length a1) (n + length b1) (length x) (length y) ∧
    describes o n p1 a1 b1 ∧
    describes (o + length a1 + length x) (n + length b1 + length y) p2 a2 b2.
Proof.
  revert o n a b. induction p1 as [|e1 p1 IH]; intros o n a b Hd; simpl in Hd.
  - inversion Hd as [|k x y a' b' p' Hd']; subst.
    exists k, x, a', k, y, b'. split_and!; try done. constructor.
  - inversion Hd as [|k x y a' b' p' Hd']; subst.
    destruct (IH _ _ _ _ Hd') as (a1 & x1 & a2 & b1 & y1 & b2 & -> & -> & -> & H1 & H2).
    exists (k ++ x ++ a1), x1, a2, (k ++ y ++ b1), y1, b2.
    rewrite !length_app, !Nat.add_assoc in *. rewrite <- !app_assoc. split_and!; try done. by constructor.
Qed.

Lemma starts_increasing o n p a b i j (x y : Edit) :
  describes o n p a b → all_separated p = true → i < j → p !! i = Some x → p !! j = Some y →
  rstart (old x) < rstart (old y).
Proof.
  intros Hd. revert i j x y.
  induction Hd as [|o n k x y a b p Hd IH]; intros i j ex ey Hs Hij Hi Hj; [done|].
  destruct j as [|j]; [lia|]. destruct i as [|i]; simpl in Hi, Hj.
  - injection Hi as <-. apply list_elem_of_lookup_2 in Hj.
    pose proof (separated_all o n _ p _ _ (describes_cons o n k x y a b p Hd) Hs _ Hj) as [H _].
    simpl in *. lia.
  - apply (IH i j); [|lia|done..].
    destruct p; [done|]. cbn [all_separated] in Hs. by apply andb_true_iff in Hs as [_ ?].
Qed.

Lemma describes_probe_sorted o n p a b pos :
  describes o n p a b → all_separated p = true → probe_sorted (probe_old pos) p.
Proof.
  intros Hd Hs i j x y Hij Hi Hj.
  pose proof (starts_increasing o n p a b i j x y Hd Hs Hij Hi Hj) as Hlt. unfold probe_old.
  split; intros H; [apply Nat.compare_gt_iff in H; apply Nat.compare_gt_iff; lia
                   |apply Nat.compare_lt_iff in H; apply Nat.compare_lt_iff; lia].
Qed.

(** The edit the position mappings look at: the last one that starts at or
    before the position. *)
Inductive edit_before (pos : nat) (p : Patch) : option Edit → Prop :=
| before_none : (∀ e, e ∈ p → pos < rstart (old e)) → edit_before pos p None
| before_some p1 e p2 : p = p1 ++ e :: p2 → rstart (old e) ≤ pos →
    (∀ e', e' ∈ p2 → pos < rstart (old e')) → edit_before pos p (Some e).

Lemma search_edit_before o n p a b pos :
  describes o n p a b → all_separated p = true →
  edit_before pos p (match binary_search_by (probe_old pos) p with
                     | inl ix => p !! ix | inr 0 => None | inr (S ix) => p !! ix end).
Proof.
  intros Hd Hs. pose proof (describes_probe_sorted o n p a b pos Hd Hs) as Hps.
  pose proof (binary_search_by_spec (probe_old pos) p Hps) as Hb.
  assert (∀ ix e, p !! ix = Some e → rstart (old e) ≤ pos →
    (∀ j e', ix < j → p !! j = Some e' → pos < rstart (old e')) → edit_before pos p (Some e)) as Hmk.
  { intros ix e He Hle Hgt.
    apply (before_some pos p (take ix p) e (drop (S ix) p)); [by rewrite take_drop_middle|done|].
    intros e' [j Hj]%list_elem_of_lookup. rewrite lookup_drop in Hj. apply (Hgt (S ix + j)); [lia|done]. }
  destruct (binary_search_by _ p) as [ix|[|ix]].
  - destruct Hb as (e & He & Hc). rewrite He. apply Nat.compare_eq_iff in Hc.
    apply (Hmk ix e He); [lia|]. intros j e' Hj He'.
    pose proof (starts_increasing o n p a b ix j e e' Hd Hs Hj He He'). lia.
  - constructor. destruct Hb as (_ & _ & Hb). intros e [j Hj]%list_elem_of_lookup.
    apply Hb in Hj; [|lia]. by apply Nat.compare_gt_iff in Hj.
  - destruct Hb as (Hlen & Hlo & Hhi). destruct (lookup_lt_is_Some_2 p ix) as [e He]; [lia|].
    rewrite He. apply (Hmk ix e He).
    + apply (Hlo ix) in He; [|lia]. apply Nat.compare_lt_iff in He. lia.
    + intros j e' Hj He'. apply Hhi in He'; [|lia]. by apply Nat.compare_gt_iff in He'.
Qed.

Definition found_edit (pos : nat) (p : Patch) : option Edit :=
  match binary_search_by (probe_old pos) p with
  | inl ix => p !! ix | inr 0 => None | inr (S ix) => p !! ix end.

Lemma found_edit_before o n p a b pos :
  describes o n p a b → all_separated p = true → edit_before pos p (found_edit pos p).
Proof. apply search_edit_before. Qed.

Lemma old_to_new_eq p pos :
  old_to_new p pos =
    match found_edit pos p with
    | Some e => if rend (old e) <=? pos then rend (new e) + (pos - rend (old e)) else rstart (new e)
    | None => pos
    end.
Proof. unfold old_to_new, found_edit. by destruct (binary_search_by _ _) as [|[|]]. Qed.

(** Keeping [n] more characters of both texts. *)
Lemma describes_keep_take o n (k : nat) p a b :
  describes o n p a b → k ≤ length a → (∀ e, e ∈ p → o + k ≤ rstart (old e)) →
  take k a = take k b ∧ describes (o + k) (n + k) p (drop k a) (drop k b).
Proof.
  intros Hd Hk Hp. rewrite <- (take_drop k a) in Hd.
  assert (length (take k a) = k) as Hlen by (rewrite length_take; lia).
  apply describes_unkeep in Hd as (b' & -> & Hd).
  - rewrite Hlen in Hd. by rewrite take_app_length', drop_app_length'.
  - intros e He. rewrite Hlen. apply Hp. destruct p; simplify_eq/=. by left.
Qed.

(** [old_to_new] maps a position of the old text that is not strictly inside
    an edited range to the position of the new text that cuts the change in
    two: the patch splits into the edits before, which turn the old text before
    the position into the new text before its image, and the edits after. *)
Theorem old_to_new_splits (p : Patch) a b pos :
  describes 0 0 p a b → all_separated p = true → pos ≤ length a →
  (∀ e, e ∈ p → ¬ (rstart (old e) < pos < rend (old e))) →
  let pos' := old_to_new p pos in
  ∃ p1 p2, p = p1 ++ p2 ∧ pos' ≤ length b ∧
    describes 0 0 p1 (take pos a) (take pos' b) ∧
    describes pos pos' p2 (drop pos a) (drop pos' b).
Proof.
  intros Hd Hs Hpos Hin. simpl. rewrite old_to_new_eq.
  destruct (found_edit_before 0 0 p a b pos Hd Hs) as [Hgt|p1 e p2 -> Hle Hgt].
  { destruct (describes_keep_take 0 0 pos p a b Hd Hpos) as [Ht Hd'].
    { intros e He. apply Hgt in He. simpl. lia. }
    exists [], p. split_and!; [done| |rewrite Ht; constructor|done].
    apply (f_equal length) in Ht. rewrite !length_take in Ht. lia. }
  pose proof (Hin e ltac:(apply elem_of_app; right; by left)) as Hne. clear Hin.
  apply describes_middle in Hd as (a1 & x & a2 & b1 & y & b2 & -> & -> & -> & Hd1 & Hd2).
  cbn [span_edit old new rstart rend] in *. simpl in Hd2, Hle, Hne |- *.
  destruct (Nat.leb_spec (length a1 + length x) pos) as [Hge|Hlt].
  - rewrite !length_app in Hpos.
    destruct (describes_keep_take _ _ (pos - (length a1 + length x)) p2 a2 b2 Hd2) as [Ht Hd']; [lia| |].
    { intros e' He'. apply Hgt in He'. lia. }
    remember (pos - (length a1 + length x)) as k eqn:Ek.
    replace pos with (length (a1 ++ x) + k) by (rewrite length_app; lia).
    replace (length b1 + length y + k) with (length (b1 ++ y) + k) by (rewrite length_app; lia).
    rewrite !app_assoc, <- !drop_drop, !drop_app_length, !take_app_add, Ht.
    eexists (p1 ++ [_]), p2. rewrite <- app_assoc. split_and!; [done| | |].
    + apply (f_equal length) in Ht. rewrite !length_take in Ht. rewrite !length_app. lia.
    + apply describes_app_r. pose proof (describes_snoc 0 0 p1 a1 b1 [] x y Hd1) as H.
      simpl in H. by rewrite !Nat.add_0_r in H.
    + by rewrite !length_app.
  - assert (pos = length a1) as -> by lia. rewrite !take_app_length, !drop_app_length.
    eexists p1, (_ :: p2). split_and!; [done|rewrite !length_app; lia|done|].
    apply (describes_cons' _ _ [] x y a2 b2 p2); simpl; rewrite ?Nat.add_0_r; done.
Qed.

(** [edit_for_old_position] returns the edit whose old range contains the
    position (its end included); when there is none, an empty edit that maps
    the position as [old_to_new] does. *)
Theorem edit_for_old_position_touches (p : Patch) a b pos :
  describes 0 0 p a b → all_separated p = true →
  (∀ e, e ∈ p → rstart (old e) ≤ pos ≤ rend (old e) → edit_for_old_position p pos = e) ∧
  ((∀ e, e ∈ p → ¬ (rstart (old e) ≤ pos ≤ rend (old e))) →
    edit_for_old_position p pos = span_edit pos (old_to_new p pos) 0 0).
Proof.
  intros Hd Hs. rewrite old_to_new_eq.
  assert (edit_for_old_position p pos = match found_edit pos p with
    | Some e => if rend (old e) <? pos then span_edit pos (rend (new e) + (pos - rend (old e))) 0 0 else e
    | None => span_edit pos pos 0 0 end) as ->.
  { unfold edit_for_old_position, found_edit, span_edit. rewrite !Nat.add_0_r.
    destruct (binary_search_by _ _) as [ix|[|ix]]; [|done|]; destruct (p !! ix) as [e|]; rewrite ?Nat.add_0_r; done. }
  destruct (found_edit_before 0 0 p a b pos Hd Hs) as [Hgt|p1 e p2 -> Hle Hgt].
  { split; [|done]. intros e He Hin. apply Hgt in He. lia. }
  split.
  - intros e' He' [H1 H2]. apply elem_of_app in He' as [He'|He'].
    + exfalso. apply list_elem_of_split in He' as (q1 & q2 & ->). rewrite <- app_assoc in Hd, Hs.
      apply describes_middle in Hd as (a1 & x & a2 & b1 & y & b2 & -> & -> & He & Hd1 & Hd2).
      assert (describes (0 + length a1) (0 + length b1) (e' :: q2 ++ e :: p2) (x ++ a2) (y ++ b2)) as Hd'.
      { apply (describes_cons' _ _ [] x y a2 b2 (q2 ++ e :: p2)); simpl; rewrite ?Nat.add_0_r; done. }
      assert (all_separated (e' :: q2 ++ e :: p2) = true) as Hs' by by apply all_separated_app_r in Hs.
      pose proof (separated_all _ _ _ _ _ _ Hd' Hs' e) as [H _]; [apply elem_of_app; right; by left|]. lia.
    + apply elem_of_cons in He' as [->|He']; [|by apply Hgt in He'; lia].
      by rewrite (proj2 (Nat.ltb_ge _ _)) by lia.
  - intros Hno. specialize (Hno e ltac:(apply elem_of_app; right; by left)).
    rewrite (proj2 (Nat.ltb_lt _ _)), (proj2 (Nat.leb_le _ _)) by lia. done.
Qed.

End positions.

(** ** Witnesses *)

Module PatchExamples.
Definition p1 : Patch := [mkEdit (mkRange 1 2) (mkRange 1 3)].
Definition p2 : Patch := [mkEdit (mkRange 0 0) (mkRange 0 1); mkEdit (mkRange 2 4) (mkRange 3 4)].

Lemma p1_describes : describes 0 0 p1 [1; 2; 3] [1; 8; 9; 3].
Proof. apply (describes_cons 0 0 [1] [2] [8; 9] [3] [3] []). constructor. Defined.
Lemma p2_describes : describes 0 0 p2 [1; 8; 9; 3] [0; 1; 8; 7].
Proof.
  apply (describes_cons 0 0 [] [] [0] [1; 8; 9; 3] [1; 8; 7] [mkEdit (mkRange 2 4) (mkRange 3 4)]).
  apply (describes_cons 0 1 [1; 8] [9; 3] [7] [] [] []). constructor.
Defined.

Example compose_sequential_witness : ∃ r,
  compose p1 p2 = Some r ∧ describes 0 0 r [1; 2; 3] [0; 1; 8; 7] ∧ new_patch r = Some r ∧
  Forall (λ e, is_empty e = false) r.
Proof. apply (compose_sequential p1 p2 _ _ _ p1_describes p2_describes). Defined.

Example old_to_new_splits_witness : ∃ q1 q2, p1 = q1 ++ q2 ∧ old_to_new p1 2 ≤ 4 ∧
  describes 0 0 q1 (take 2 [1; 2; 3]) (take (old_to_new p1 2) [1; 8; 9; 3]) ∧
  describes 2 (old_to_new p1 2) q2 (drop 2 [1; 2; 3]) (drop (old_to_new p1 2) [1; 8; 9; 3]).
Proof.
  apply (old_to_new_splits p1 _ _ 2 p1_describes); [done|simpl; lia|].
  intros e ->%list_elem_of_singleton. simpl. lia.
Defined.

Example edit_for_old_position_touches_witness :
  (∀ e, e ∈ p1 → rstart (old e) ≤ 3 ≤ rend (old e) → edit_for_old_position p1 3 = e) ∧
  ((∀ e, e ∈ p1 → ¬ (rstart (old e) ≤ 3 ≤ rend (old e))) →
    edit_for_old_position p1 3 = span_edit 3 (old_to_new p1 3) 0 0).
Proof. apply (edit_for_old_position_touches p1 _ _ 3 p1_describes). done. Defined.
End PatchExamples.
