(* ===== verification/Subscription.v ===== *)
(** * Subscriptions to buffer edits ([crates/text/src/subscription.rs])

    A topic holds weak references to the patches of its subscribers; publishing
    composes the new edits onto each live one.  The shared patches live in an
    explicit heap. *)

From S2P Require Import Prelude Patch.

(** The patches that are still owned by a [Subscription]. *)
Abbreviation Heap := (gmap nat Patch).

(** [Topic(Mutex<Vec<Weak<..>>>)]: the locations its weak references name. *)
Abbreviation Topic := (list nat).

(** [Topic::subscribe]: a new location holding the empty patch. *)
Definition subscribe (topic : Topic) (heap : Heap) : Topic * Heap * nat :=
  let l := fresh (dom heap ∪ list_to_set topic : gset nat) in
  (topic ++ [l], <[l := empty]> heap, l).

(** [publish]: [retain] drops the references that no longer upgrade. *)
Fixpoint publish (topic : Topic) (heap : Heap) (edits : list Edit) : option (Topic * Heap) :=
  match topic with
  | [] => Some ([], heap)
  | l :: topic =>
      match heap !! l with
      | Some patch =>
          patch ← compose patch edits;
          '(topic, heap) ← publish topic (<[l := patch]> heap) edits;
          Some (l :: topic, heap)
      | None => publish topic heap edits
      end
  end.

(** [Subscription::consume]: [mem::take]. *)
Definition consume_subscription (l : nat) (heap : Heap) : option (Patch * Heap) :=
  patch ← heap !! l; Some (patch, <[l := empty]> heap).

(** ** The protocol

    A topic, its subscribers and the text they watch; [snapshots] is the text
    each subscriber last synchronised with. *)

Section protocol.
Context {A : Type}.

Record World := mkWorld {
  topic : Topic;
  heap : Heap;
  text : list A;
  snapshots : gmap nat (list A);
}.

Inductive step : World → World → Prop :=
| step_subscribe w t h l :
    subscribe (topic w) (heap w) = (t, h, l) →
    step w (mkWorld t h (text w) (<[l := text w]> (snapshots w)))
| step_publish w edits t h new_text :
    describes 0 0 edits (text w) new_text →
    publish (topic w) (heap w) edits = Some (t, h) →
    step w (mkWorld t h new_text (snapshots w))
| step_consume w l p h :
    consume_subscription l (heap w) = Some (p, h) →
    step w (mkWorld (topic w) h (text w) (<[l := text w]> (snapshots w)))
| step_drop w l : (* the [Subscription] goes out of scope *)
    step w (mkWorld (topic w) (delete l (heap w)) (text w) (snapshots w)).

Definition initial (t : list A) : World := mkWorld [] ∅ t ∅.

(** Every live patch leads from its snapshot to the current text. *)
Record consistent (w : World) : Prop := {
  topic_nodup : NoDup (topic w);
  topic_live : ∀ l, is_Some (heap w !! l) → l ∈ topic w;
  patch_tracks : ∀ l p, heap w !! l = Some p →
    ∃ s, snapshots w !! l = Some s ∧ describes 0 0 p s (text w);
}.

Lemma publish_ok (topic : Topic) (heap : Heap) edits :
  NoDup topic →
  (∀ l p, l ∈ topic → heap !! l = Some p → ∃ q, compose p edits = Some q) →
  ∃ t h, publish topic heap edits = Some (t, h) ∧
    (∀ l, l ∈ t ↔ l ∈ topic ∧ is_Some (heap !! l)) ∧ NoDup t ∧
    (∀ l, h !! l = if decide (l ∈ topic) then p ← heap !! l; compose p edits else heap !! l).
Proof.
  revert heap. induction topic as [|l topic IH]; intros heap Hnd Hc; cbn [publish].
  { exists [], heap. split_and!; [done| |constructor|].
    - intros l. by rewrite elem_of_nil; naive_solver.
    - intros l. by rewrite decide_False by apply not_elem_of_nil. }
  apply NoDup_cons in Hnd as [Hl Hnd]. destruct (heap !! l) as [p|] eqn:Hp.
  - destruct (Hc l p ltac:(by left) Hp) as [q Hq]. rewrite Hq. cbn [mbind option_bind].
    destruct (IH (<[l := q]> heap) Hnd) as (t & h & -> & Ht & Hnt & Hh).
    { intros l' p' Hl' Hp'. rewrite lookup_insert_ne in Hp' by naive_solver.
      apply (Hc l' p'); [by right|done]. }
    cbn [mbind option_bind]. exists (l :: t), h. split_and!; [done| | |].
    + intros l'. rewrite !elem_of_cons, Ht. destruct (decide (l' = l)) as [->|Hne].
      * rewrite Hp. naive_solver.
      * rewrite lookup_insert_ne by done. naive_solver.
    + constructor; [|done]. rewrite Ht. naive_solver.
    + intros l'. rewrite Hh. destruct (decide (l' = l)) as [->|Hne].
      * rewrite decide_False, decide_True by (done || by left). rewrite lookup_insert_eq, Hp. by cbn [mbind option_bind]; rewrite Hq.
      * rewrite lookup_insert_ne by done. destruct (decide (l' ∈ topic)) as [Hin|Hin].
        -- by rewrite decide_True by by right.
        -- rewrite decide_False; [done|]. by intros [?|?]%elem_of_cons.
  - destruct (IH heap Hnd) as (t & h & -> & Ht & Hnt & Hh).
    { intros l' p' Hl'. apply Hc. by right. }
    exists t, h. split_and!; [done| |done|].
    + intros l'. rewrite elem_of_cons, Ht. destruct (decide (l' = l)) as [->|Hne]; [|naive_solver].
      rewrite Hp. split; [intros [? ?]; done|intros [_ [? ?]]; done].
    + intros l'. rewrite Hh. destruct (decide (l' = l)) as [->|Hne].
      * rewrite decide_False, decide_True by (done || by left). by rewrite Hp.
      * destruct (decide (l' ∈ topic)) as [Hin|Hin].
        -- by rewrite decide_True by by right.
        -- rewrite decide_False; [done|]. by intros [?|?]%elem_of_cons.
Qed.

Lemma subscribe_consistent w t h l :
  consistent w → subscribe (topic w) (heap w) = (t, h, l) →
  consistent (mkWorld t h (text w) (<[l := text w]> (snapshots w))).
Proof.
  intros [Hnd Hlive Htr] Hs. unfold subscribe in Hs. injection Hs as <- <- Hl.
  rewrite Hl. assert (l ∉ (dom (heap w) ∪ list_to_set (topic w) : gset nat)) as Hfr.
  { rewrite <- Hl. apply is_fresh. }
  rewrite elem_of_union, elem_of_list_to_set in Hfr. split; simpl.
  - apply NoDup_app. split_and!; [done| |apply NoDup_singleton].
    intros l' Hl' ->%list_elem_of_singleton. naive_solver.
  - intros l'. rewrite elem_of_app, list_elem_of_singleton. destruct (decide (l' = l)); [by right|].
    rewrite lookup_insert_ne by done. left. by apply Hlive.
  - intros l' p. destruct (decide (l' = l)) as [->|].
    + rewrite !lookup_insert_eq. intros [= <-]. exists (text w). split; [done|constructor].
    + rewrite !lookup_insert_ne by done. apply Htr.
Qed.

Lemma publish_consistent w edits new_text :
  consistent w → describes 0 0 edits (text w) new_text →
  ∃ t h, publish (topic w) (heap w) edits = Some (t, h) ∧
    consistent (mkWorld t h new_text (snapshots w)).
Proof.
  intros [Hnd Hlive Htr] Hd.
  destruct (publish_ok (topic w) (heap w) edits Hnd) as (t & h & E & Ht & Hnt & Hh).
  { intros l p _ Hp. destruct (Htr l p Hp) as (s & _ & Hs).
    destruct (compose_ok p edits s (text w) new_text Hs Hd) as (q & ? & _). by exists q. }
  exists t, h. split; [done|]. split; simpl; [done| |].
  - intros l [q Hq]. rewrite Hh in Hq. apply Ht. destruct (decide (l ∈ topic w)) as [Hin|Hin].
    + destruct (heap w !! l); [|done]. by split.
    + exfalso. apply Hin, Hlive. by exists q.
  - intros l q Hq. rewrite Hh in Hq.
    assert (∃ p, heap w !! l = Some p ∧ compose p edits = Some q) as (p & Hp & Hc).
    { destruct (decide _) as [|Hin]; [|exfalso; apply Hin, Hlive; by exists q].
      destruct (heap w !! l) as [p|]; [|done]. by exists p. }
    destruct (Htr l p Hp) as (s & Hsn & Hs). exists s. split; [done|].
    destruct (compose_ok p edits s (text w) new_text Hs Hd) as (q' & Hc' & ? & _). congruence.
Qed.

Lemma step_consistent w w' : consistent w → step w w' → consistent w'.
Proof.
  intros Hc Hs. destruct Hs as [w t h l Hs|w edits t h new_text Hd Hp|w l p h Hs|w l].
  - by apply subscribe_consistent.
  - destruct (publish_consistent w edits new_text Hc Hd) as (t' & h' & Hp' & Hc'). congruence.
  - destruct Hc as [Hnd Hlive Htr]. unfold consume_subscription in Hs.
    destruct (heap w !! l) as [p'|] eqn:Hl; [|done]. simpl in Hs. injection Hs as <- <-.
    split; simpl; [done| |].
    + intros l'. destruct (decide (l' = l)) as [->|]; [intros _; apply Hlive; by rewrite Hl|].
      rewrite lookup_insert_ne by done. apply Hlive.
    + intros l' q. destruct (decide (l' = l)) as [->|].
      * rewrite !lookup_insert_eq. intros [= <-]. exists (text w). split; [done|constructor].
      * rewrite !lookup_insert_ne by done. apply Htr.
  - destruct Hc as [Hnd Hlive Htr]. split; simpl; [done| |].
    + intros l' [q [_ Hq]%lookup_delete_Some]. apply Hlive. by exists q.
    + intros l' q [_ Hq]%lookup_delete_Some. by apply Htr.
Qed.

(** in every state reachable by subscribing, publishing edits, consuming and
    dropping subscriptions, what a live subscription hands out on its next
    [consume] is a patch from the text it last saw to the current text, and
    publishing a patch of the current text cannot fail. *)
Theorem subscription_tracks_text t w l p edits new_text :
  rtc step (initial t) w → heap w !! l = Some p → describes 0 0 edits (text w) new_text →
  (∃ s h, snapshots w !! l = Some s ∧ consume_subscription l (heap w) = Some (p, h) ∧
     describes 0 0 p s (text w)) ∧
  is_Some (publish (topic w) (heap w) edits).
Proof.
  intros Hr Hp Hd.
  assert (consistent w) as Hc.
  { apply (rtc_preserves step consistent step_consistent _ _ Hr).
    by split; [constructor|intros ? []|]. }
  split.
  - destruct (patch_tracks w Hc l p Hp) as (s & ? & ?).
    exists s, (<[l := empty]> (heap w)). unfold consume_subscription. by rewrite Hp.
  - destruct (publish_consistent w edits new_text Hc Hd) as (? & ? & -> & _). by eexists.
Qed.

End protocol.

(** ** Witness: one subscriber, one edit. *)

Module SubscriptionExamples.
Import PatchExamples.

Definition w1 : World := mkWorld [0] {[0 := empty]} [1; 2; 3] {[0 := [1; 2; 3]]}.
Definition w2 : World := mkWorld [0] {[0 := p1]} [1; 8; 9; 3] {[0 := [1; 2; 3]]}.

Lemma w2_reachable : rtc step (initial [1; 2; 3]) w2.
Proof.
  apply (rtc_l _ _ w1).
  - by apply (step_subscribe (initial [1; 2; 3]) [0] {[0 := empty]} 0).
  - apply rtc_once. apply (step_publish w1 p1 [0] {[0 := p1]} _ p1_describes). by vm_compute.
Defined.

Example subscription_tracks_text_witness :
  (∃ s h, snapshots w2 !! 0 = Some s ∧ consume_subscription 0 (heap w2) = Some (p1, h) ∧
     describes 0 0 p1 s (text w2)) ∧
  is_Some (publish (topic w2) (heap w2) p2).
Proof. by apply (subscription_tracks_text _ w2 0 p1 p2 _ w2_reachable eq_refl p2_describes). Defined.
End SubscriptionExamples.
