(* ===== verification/Fragment.v ===== *)
(** * Fragments (data and helpers of [crates/text/src/text.rs])

    The buffer's text is a sequence of fragments, visible and deleted ones
    interleaved; their bytes live in two ropes.  The tree of fragments is its
    sequence of items, and its cursors are the list cursors that SumTree.v and
    Cursor.v prove the tree cursors to implement.  [None] is a failed
    assertion, an [unwrap] of [None] or an underflow. *)

From S2P Require Import Prelude Clock Text Patch.
From S2P Require Locator SumTree UndoMap.

Abbreviation Locator := Locator.Locator.
#[export] Existing Instance Locator.Locator_Ord.
Abbreviation Patch := (list Edit).
Abbreviation UndoTree := (SumTree.Node UndoMap.UndoMapEntry UndoMap.UndoMapKey).

Record Fragment := mkFragment {
  f_id : Locator;
  f_timestamp : Lamport;
  insertion_offset : nat;
  f_len : nat;
  visible : bool;
  deletions : list Lamport;
  max_undos : Global;
}.

Record FragmentTextSummary := mkTextSummary { ts_visible : nat; ts_deleted : nat }.

Record FragmentSummary := mkFragmentSummary {
  fs_text : FragmentTextSummary;
  max_id : Locator;
  max_version : Global;
  min_insertion_version : Global;
  max_insertion_version : Global;
}.

(** [Item for Fragment]. *)
Definition fragment_text (f : Fragment) : FragmentTextSummary :=
  if visible f then mkTextSummary (f_len f) 0 else mkTextSummary 0 (f_len f).
(** [Item::summary]; the timestamps it observes are replicas'. *)
Definition fragment_summary (f : Fragment) : FragmentSummary :=
  let max_version := foldl observe (observe new_global (f_timestamp f)) (deletions f) in
  let max_version := join max_version (max_undos f) in
  let min_insertion_version := observe new_global (f_timestamp f) in
  mkFragmentSummary (fragment_text f) (f_id f) max_version min_insertion_version min_insertion_version.

(** [Default] and [Summary for FragmentSummary]. *)
Definition zero_text : FragmentTextSummary := mkTextSummary 0 0.
Definition add_text (s t : FragmentTextSummary) : FragmentTextSummary :=
  mkTextSummary (ts_visible s + ts_visible t) (ts_deleted s + ts_deleted t).
Definition zero_summary : FragmentSummary :=
  mkFragmentSummary zero_text Locator.min new_global new_global new_global.
Definition add_summary (s t : FragmentSummary) : FragmentSummary :=
  mkFragmentSummary (add_text (fs_text s) (fs_text t)) (Locator.assign (max_id s) (max_id t))
    (join (max_version s) (max_version t)) (meet (min_insertion_version s) (min_insertion_version t))
    (join (max_insertion_version s) (max_insertion_version t)).
Definition summary_of (l : list Fragment) : FragmentSummary :=
  foldl add_summary zero_summary (fragment_summary <$> l).

(** ** Visibility *)

(** [iter().all(p)] where [p] may panic; it stops at the first [false]. *)
Fixpoint all_opt {A} (p : A → option bool) (l : list A) : option bool :=
  match l with
  | [] => Some true
  | x :: l => b ← p x; if b : bool then all_opt p l else Some false
  end.

Definition is_visible (f : Fragment) (undos : UndoTree) : option bool :=
  u ← UndoMap.is_undone undos (f_timestamp f);
  if u : bool then Some false else all_opt (UndoMap.is_undone undos) (deletions f).

Definition was_visible (f : Fragment) (version : Global) (undos : UndoTree) : option bool :=
  if observed version (f_timestamp f) then
    u ← UndoMap.was_undone undos (f_timestamp f) version;
    if u : bool then Some false else
    all_opt (λ d, if observed version d then UndoMap.was_undone undos d version else Some true)
      (deletions f)
  else Some false.

(** ** Insertion fragments and slices *)

Record InsertionFragment := mkInsertionFragment {
  if_timestamp : Lamport; split_offset : nat; fragment_id : Locator }.
Definition new_insertion (f : Fragment) : InsertionFragment :=
  mkInsertionFragment (f_timestamp f) (insertion_offset f) (f_id f).

Record InsertionSlice := mkInsertionSlice {
  slice_edit_id : Lamport; slice_insertion_id : Lamport; slice_start : nat; slice_end : nat }.
Definition from_fragment (edit_id : Lamport) (f : Fragment) : InsertionSlice :=
  mkInsertionSlice edit_id (f_timestamp f) (insertion_offset f) (as_u32 (insertion_offset f + f_len f)).

(** ** Cursors over the fragments

    A cursor holds the position reached, in the dimension it seeks by, and the
    fragments that follow. *)
Section cursor.
Context {D : Type} (dzero : D) (dadd : D → Fragment → D).

Record FragmentCursor := mkFragmentCursor { start : D; upcoming : list Fragment }.

Definition cursor (l : list Fragment) : FragmentCursor := mkFragmentCursor dzero l.
Definition item (c : FragmentCursor) : option Fragment := head (upcoming c).
Definition end_ (c : FragmentCursor) : D :=
  match upcoming c with f :: _ => dadd (start c) f | [] => start c end.
Definition next (c : FragmentCursor) : FragmentCursor :=
  match upcoming c with f :: l => mkFragmentCursor (dadd (start c) f) l | [] => c end.

(** [slice]: the fragments passed before the first whose end is not beyond
    the target. *)
Fixpoint slice_from (past : D → bool) (d : D) (l : list Fragment) : list Fragment * FragmentCursor :=
  match l with
  | [] => ([], mkFragmentCursor d [])
  | f :: l' =>
      if past (dadd d f) then let '(sk, c) := slice_from past (dadd d f) l' in (f :: sk, c)
      else ([], mkFragmentCursor d l)
  end.
Definition slice (past : D → bool) (c : FragmentCursor) : list Fragment * FragmentCursor :=
  slice_from past (start c) (upcoming c).
Definition suffix (c : FragmentCursor) : list Fragment := upcoming c.
End cursor.

(** [Dimension for FragmentTextSummary]. *)
Definition add_fragment_text (d : FragmentTextSummary) (f : Fragment) : FragmentTextSummary :=
  add_text d (fragment_text f).

(** ** Building the two ropes *)

(** [rope::Cursor]: a position in a rope; [slice] asserts that it moves
    forward and stays inside. *)
Record RopeCursor := mkRopeCursor { rope : Text; offset : nat }.
Definition rope_slice (c : RopeCursor) (end_offset : nat) : option (Text * RopeCursor) :=
  if (offset c <=? end_offset) && (end_offset <=? length (rope c)) then
    Some (take (end_offset - offset c) (drop (offset c) (rope c)), mkRopeCursor (rope c) end_offset)
  else None.
Definition rope_suffix (c : RopeCursor) : option Text := fst <$> rope_slice c (length (rope c)).

Record RopeBuilder := mkRopeBuilder {
  old_visible_cursor : RopeCursor;
  old_deleted_cursor : RopeCursor;
  new_visible : Text;
  new_deleted : Text;
}.

Definition new_builder (v d : RopeCursor) : RopeBuilder := mkRopeBuilder v d [] [].

Definition builder_push (b : RopeBuilder) (len : nat) (was_visible is_visible : bool) : option RopeBuilder :=
  '(text, b) ← (if was_visible then
                  '(text, c) ← rope_slice (old_visible_cursor b) (offset (old_visible_cursor b) + len);
                  Some (text, mkRopeBuilder c (old_deleted_cursor b) (new_visible b) (new_deleted b))
                else
                  '(text, c) ← rope_slice (old_deleted_cursor b) (offset (old_deleted_cursor b) + len);
                  Some (text, mkRopeBuilder (old_visible_cursor b) c (new_visible b) (new_deleted b)));
  Some (if is_visible
        then mkRopeBuilder (old_visible_cursor b) (old_deleted_cursor b) (new_visible b ++ text) (new_deleted b)
        else mkRopeBuilder (old_visible_cursor b) (old_deleted_cursor b) (new_visible b) (new_deleted b ++ text)).

Definition builder_append (b : RopeBuilder) (len : FragmentTextSummary) : option RopeBuilder :=
  b ← builder_push b (ts_visible len) true true; builder_push b (ts_deleted len) false false.

(** With the [debug_assert] of the source. *)
Definition push_fragment (b : RopeBuilder) (f : Fragment) (was_visible : bool) : option RopeBuilder :=
  if 0 <? f_len f then builder_push b (f_len f) was_visible (visible f) else None.

Definition push_str (b : RopeBuilder) (text : Text) : RopeBuilder :=
  mkRopeBuilder (old_visible_cursor b) (old_deleted_cursor b) (new_visible b ++ text) (new_deleted b).

Definition finish (b : RopeBuilder) : option (Text * Text) :=
  v ← rope_suffix (old_visible_cursor b);
  d ← rope_suffix (old_deleted_cursor b);
  Some (new_visible b ++ v, new_deleted b ++ d).

(** ** New fragments for an insertion

    [MAX_INSERTION_LEN] is [u32::MAX], or 16 in tests.  The loop advances at
    least one byte per round, or breaks. *)
Section insertion.
Context (MAX_INSERTION_LEN : N).

Definition target_end (len text_offset : nat) : nat :=
  N.to_nat (N.min (N.of_nat len) (N.of_nat text_offset + MAX_INSERTION_LEN)).

Definition chunk_end (text : Text) (text_offset : nat) : nat :=
  let target_end := target_end (length text) text_offset in
  if target_end =? length text then target_end else floor_char_boundary text target_end.

Record Insertion := mkInsertion {
  in_offset : nat; in_fragments : list Fragment;
  in_insertions : list InsertionFragment; in_slices : list InsertionSlice }.

Definition insertion_fragment (i : Insertion) (ts : Lamport) (next_fragment_id : Locator) (chunk_len : nat) : Fragment :=
  mkFragment (Locator.between (max_id (summary_of (in_fragments i))) next_fragment_id) ts (in_offset i)
    (as_u32 chunk_len) true [] new_global.

Fixpoint insertion_loop (fuel : nat) (new_text : Text) (ts : Lamport) (next_fragment_id : Locator)
    (text_offset : nat) (i : Insertion) : option Insertion :=
  match fuel with
  | O => None
  | S fuel =>
      if text_offset <? length new_text then
        let chunk_end := chunk_end new_text text_offset in
        if chunk_end =? text_offset then Some i else
        chunk_len ← usub chunk_end text_offset;
        let f := insertion_fragment i ts next_fragment_id chunk_len in
        insertion_loop fuel new_text ts next_fragment_id chunk_end
          (mkInsertion (as_u32 (in_offset i + as_u32 chunk_len)) (in_fragments i ++ [f])
             (in_insertions i ++ [new_insertion f]) (in_slices i ++ [from_fragment ts f]))
      else Some i
  end.

Definition push_fragments_for_insertion (new_text : Text) (ts : Lamport) (next_fragment_id : Locator)
    (i : Insertion) : option Insertion :=
  insertion_loop (S (length new_text)) new_text ts next_fragment_id 0 i.
End insertion.
