(* ===== verification/Cells.v ===== *)
(** * Cells: the buffer seen byte by byte

    The abstract state of a buffer is the sequence of all bytes ever inserted,
    each with its insertion, its offset in it, its visibility and deletions.
    Fragments are runs of cells; splitting one does not change the cells.
    Editing operations are specified on cells. *)

From S2P Require Import Prelude Clock Text Patch Fragment.
From S2P Require Locator.

Record Cell := mkCell {
  c_timestamp : Lamport;
  c_offset : nat;
  c_byte : byte;
  c_visible : bool;
  c_deletions : list Lamport;
  c_undos : Global;
}.

Definition cell_of (f : Fragment) (i : nat) (b : byte) : Cell :=
  mkCell (f_timestamp f) (insertion_offset f + i) b (visible f) (deletions f) (max_undos f).
Definition fcells (f : Fragment) (t : Text) : list Cell := imap (cell_of f) t.

(** The cells of fragments whose visible bytes start [v] and deleted ones [d]. *)
Fixpoint cells (l : list Fragment) (v d : Text) : list Cell :=
  match l with
  | [] => []
  | f :: l =>
      if visible f then fcells f (take (f_len f) v) ++ cells l (drop (f_len f) v) d
      else fcells f (take (f_len f) d) ++ cells l v (drop (f_len f) d)
  end.

Definition visible_bytes (c : list Cell) : Text := c_byte <$> List.filter c_visible c.
Definition deleted_bytes (c : list Cell) : Text := c_byte <$> List.filter (λ x, negb (c_visible x)) c.

(** ** Lengths and summaries *)
Definition vlen (l : list Fragment) : nat := list_sum ((λ f, ts_visible (fragment_text f)) <$> l).
Definition dlen (l : list Fragment) : nat := list_sum ((λ f, ts_deleted (fragment_text f)) <$> l).

#[global] Arguments vlen : simpl never.
#[global] Arguments dlen : simpl never.

Lemma vlen_app l k : vlen (l ++ k) = vlen l + vlen k.
Proof. unfold vlen. by rewrite fmap_app, list_sum_app. Qed.
Lemma dlen_app l k : dlen (l ++ k) = dlen l + dlen k.
Proof. unfold dlen. by rewrite fmap_app, list_sum_app. Qed.
Lemma vlen_cons f l : vlen (f :: l) = ts_visible (fragment_text f) + vlen l.
Proof. done. Qed.
Lemma dlen_cons f l : dlen (f :: l) = ts_deleted (fragment_text f) + dlen l.
Proof. done. Qed.

Lemma vlen_one f : vlen [f] = ts_visible (fragment_text f).
Proof. apply Nat.add_0_r. Qed.
Lemma dlen_one f : dlen [f] = ts_deleted (fragment_text f).
Proof. apply Nat.add_0_r. Qed.

Lemma vis_text f : visible f = true → fragment_text f = mkTextSummary (f_len f) 0.
Proof. unfold fragment_text. by intros ->. Qed.
Lemma hid_text f : visible f = false → fragment_text f = mkTextSummary 0 (f_len f).
Proof. unfold fragment_text. by intros ->. Qed.

Lemma summary_foldl s l :
  fs_text (foldl add_summary s (fragment_summary <$> l)) =
    mkTextSummary (ts_visible (fs_text s) + vlen l) (ts_deleted (fs_text s) + dlen l) ∧
  max_id (foldl add_summary s (fragment_summary <$> l)) = default (max_id s) (f_id <$> last l).
Proof.
  revert s. induction l as [|f l IH]; intros s.
  { simpl. unfold vlen, dlen. simpl. rewrite !Nat.add_0_r. by destruct (fs_text s). }
  rewrite fmap_cons. cbn [foldl]. destruct (IH (add_summary s (fragment_summary f))) as [-> ->]. split.
  - rewrite vlen_cons, dlen_cons. simpl. f_equal; lia.
  - simpl. rewrite Locator.assign_eq. destruct l as [|g l]; [done|].
    change (last (f :: g :: l)) with (last (g :: l)).
    destruct (last (g :: l)) eqn:E; [done|]. by apply last_None in E.
Qed.

Lemma summary_text l : fs_text (summary_of l) = mkTextSummary (vlen l) (dlen l).
Proof. apply (summary_foldl zero_summary l). Qed.

Lemma summary_max_id l : max_id (summary_of l) = default Locator.min (f_id <$> last l).
Proof. apply (summary_foldl zero_summary l). Qed.

(** ** Cells of sequences and of portions *)
Lemma fcells_length f t : length (fcells f t) = length t.
Proof. apply length_imap. Qed.

Lemma cells_app l k v d : cells (l ++ k) v d = cells l v d ++ cells k (drop (vlen l) v) (drop (dlen l) d).
Proof.
  revert v d. induction l as [|f l IH]; intros v d; [done|]. cbn [app cells].
  rewrite vlen_cons, dlen_cons. destruct (visible f) eqn:E.
  - rewrite (vis_text f E), IH, drop_drop, <- app_assoc. done.
  - rewrite (hid_text f E), IH, drop_drop, <- app_assoc. done.
Qed.

(** Bytes beyond those of the fragments do not matter. *)
Lemma cells_ext l v d v' d' :
  vlen l ≤ length v → dlen l ≤ length d → cells l (v ++ v') (d ++ d') = cells l v d.
Proof.
  revert v d. induction l as [|f l IH]; intros v d; [done|]. rewrite vlen_cons, dlen_cons. cbn [cells].
  destruct (visible f) eqn:E; [rewrite (vis_text f E)|rewrite (hid_text f E)]; simpl; intros Hv Hd.
  - rewrite take_app_le, drop_app_le by lia. f_equal. apply IH; rewrite ?length_drop; lia.
  - rewrite take_app_le, drop_app_le by lia. f_equal. apply IH; rewrite ?length_drop; lia.
Qed.

Lemma cells_length l v d : vlen l ≤ length v → dlen l ≤ length d → length (cells l v d) = vlen l + dlen l.
Proof.
  revert v d. induction l as [|f l IH]; intros v d; [done|]. rewrite vlen_cons, dlen_cons. cbn [cells].
  destruct (visible f) eqn:E; [rewrite (vis_text f E)|rewrite (hid_text f E)]; simpl; intros Hv Hd;
    rewrite length_app, fcells_length, length_take, IH by (rewrite ?length_drop; lia); lia.
Qed.

Lemma fcells_drop f a t :
  drop a (fcells f t) = imap (λ i, cell_of f (a + i)) (drop a t).
Proof.
  apply list_eq. intros i. unfold fcells. by rewrite lookup_drop, !list_lookup_imap, lookup_drop.
Qed.
Lemma fcells_take f n t : take n (fcells f t) = fcells f (take n t).
Proof.
  apply list_eq. intros i. unfold fcells. destruct (decide (i < n)).
  - by rewrite lookup_take_lt, !list_lookup_imap, lookup_take_lt.
  - rewrite lookup_take_ge by lia. by rewrite list_lookup_imap, lookup_take_ge by lia.
Qed.

Lemma fcells_portion f g a n t :
  f_timestamp g = f_timestamp f → insertion_offset g = insertion_offset f + a → visible g = visible f →
  deletions g = deletions f → max_undos g = max_undos f →
  fcells g (take n (drop a t)) = take n (drop a (fcells f t)).
Proof.
  intros Ht Ho Hv Hd Hu. rewrite fcells_drop. apply list_eq. intros i. unfold fcells.
  destruct (decide (i < n)).
  - rewrite list_lookup_imap, !lookup_take_lt, list_lookup_imap by done.
    destruct (drop a t !! i); [|done]. simpl. unfold cell_of. by rewrite Ht, Ho, Hv, Hd, Hu, Nat.add_assoc.
  - by rewrite list_lookup_imap, !lookup_take_ge by lia.
Qed.

Lemma fcells_visible f t : Forall (λ c, c_visible c = visible f) (fcells f t).
Proof.
  apply Forall_lookup. intros i c. unfold fcells. rewrite list_lookup_imap.
  destruct (t !! i); [|done]. by intros [= <-].
Qed.
Lemma fcells_bytes f t : c_byte <$> fcells f t = t.
Proof. apply list_eq. intros i. unfold fcells. rewrite list_lookup_fmap, list_lookup_imap. by destruct (t !! i). Qed.

(** ** The two texts *)
Lemma filter_all {A} (p : A → bool) l : Forall (λ x, p x = true) l → List.filter p l = l.
Proof. induction 1 as [|x l Hx _ IH]; simpl; [done|]. by rewrite Hx, IH. Qed.
Lemma filter_none {A} (p : A → bool) l : Forall (λ x, p x = false) l → List.filter p l = [].
Proof. induction 1 as [|x l Hx _ IH]; simpl; [done|]. by rewrite Hx, IH. Qed.

Lemma visible_bytes_app c k : visible_bytes (c ++ k) = visible_bytes c ++ visible_bytes k.
Proof. unfold visible_bytes. by rewrite List.filter_app, fmap_app. Qed.
Lemma deleted_bytes_app c k : deleted_bytes (c ++ k) = deleted_bytes c ++ deleted_bytes k.
Proof. unfold deleted_bytes. by rewrite List.filter_app, fmap_app. Qed.

Lemma fcells_texts f t :
  visible_bytes (fcells f t) = (if visible f then t else []) ∧
  deleted_bytes (fcells f t) = (if visible f then [] else t).
Proof.
  pose proof (fcells_visible f t) as Hf. unfold visible_bytes, deleted_bytes. destruct (visible f).
  - rewrite filter_all, filter_none, fcells_bytes; [done| |exact Hf].
    eapply Forall_impl; [exact Hf|]. by intros c ->.
  - rewrite (filter_none c_visible), filter_all, fcells_bytes; [done| |exact Hf].
    eapply Forall_impl; [exact Hf|]. by intros c ->.
Qed.

Lemma cells_texts l v d :
  vlen l ≤ length v → dlen l ≤ length d →
  visible_bytes (cells l v d) = take (vlen l) v ∧ deleted_bytes (cells l v d) = take (dlen l) d.
Proof.
  revert v d. induction l as [|f l IH]; intros v d; [done|]. rewrite vlen_cons, dlen_cons. cbn [cells].
  destruct (visible f) eqn:E; [rewrite (vis_text f E)|rewrite (hid_text f E)]; simpl; intros Hv Hd;
    match goal with |- context [fcells f ?t] => destruct (fcells_texts f t) as [Hfv Hfd] end;
    rewrite E in Hfv, Hfd; rewrite visible_bytes_app, deleted_bytes_app, Hfv, Hfd.
  - destruct (IH (drop (f_len f) v) d) as [-> ->]; [rewrite length_drop; lia|lia|].
    by rewrite take_take_drop.
  - destruct (IH v (drop (f_len f) d)) as [-> ->]; [lia|rewrite length_drop; lia|].
    by rewrite take_take_drop.
Qed.

(** ** Editing cells

    An edit keeps a stretch [k] of cells, inserts the new text as visible
    cells, and deletes the visible cells of a stretch [r]; its range in the
    full text (deleted bytes included) is where [r] lies among the old cells. *)
Definition delete_cell (ts : Lamport) (c : Cell) : Cell :=
  if c_visible c then mkCell (c_timestamp c) (c_offset c) (c_byte c) false (c_deletions c ++ [ts]) (c_undos c)
  else c.
Definition inserted_cells (ts : Lamport) (off : nat) (t : Text) : list Cell :=
  imap (λ i b, mkCell ts (off + i) b true [] new_global) t.

Record TextEdit := mkTextEdit { e_start : nat; e_end : nat; e_text : Text }.

Definition vcount (c : list Cell) : nat := length (visible_bytes c).

Inductive edited (ts : Lamport) : nat → nat → nat → list TextEdit → list (nat * nat) →
    list Cell → list Cell → Prop :=
| edited_done idx pos off c : edited ts idx pos off [] [] c c
| edited_edit idx pos off k r c c' t edits ranges :
    edited ts (idx + length k + length r) (pos + vcount k + vcount r) (off + length t) edits ranges c c' →
    edited ts idx pos off
      (mkTextEdit (pos + vcount k) (pos + vcount k + vcount r) t :: edits)
      ((idx + length k, idx + length k + length r) :: ranges)
      (k ++ r ++ c) (k ++ inserted_cells ts off t ++ (delete_cell ts <$> r) ++ c').

(** The text with the edits made, from position [pos]; [v] is the rest. *)
Fixpoint splice (pos : nat) (edits : list TextEdit) (v : Text) : Text :=
  match edits with
  | [] => v
  | e :: edits => take (e_start e - pos) v ++ e_text e ++ splice (e_end e) edits (drop (e_end e - pos) v)
  end.

Lemma deleted_invisible ts c : visible_bytes (delete_cell ts <$> c) = [].
Proof.
  unfold visible_bytes. rewrite filter_none; [done|]. apply Forall_fmap, Forall_forall. intros x _.
  unfold delete_cell. simpl. by destruct (c_visible x) eqn:E.
Qed.

Lemma inserted_fcells ts off t i : inserted_cells ts off t = fcells (mkFragment i ts off (length t) true [] new_global) t.
Proof. done. Qed.

Lemma inserted_visible ts off t : visible_bytes (inserted_cells ts off t) = t.
Proof. rewrite (inserted_fcells ts off t Locator.min). apply fcells_texts. Qed.

Lemma edited_splice ts idx pos off edits ranges c c' :
  edited ts idx pos off edits ranges c c' → visible_bytes c' = splice pos edits (visible_bytes c).
Proof.
  induction 1 as [|idx pos off k r c c' t edits ranges _ IH]; [done|].
  cbn [splice e_start e_end e_text].
  rewrite !visible_bytes_app, inserted_visible, deleted_invisible, IH. unfold vcount.
  replace (pos + length (visible_bytes k) - pos) with (length (visible_bytes k)) by lia.
  rewrite take_app_length. do 2 f_equal. simpl. f_equal.
  replace (pos + length (visible_bytes k) + length (visible_bytes r) - pos)
    with (length (visible_bytes k ++ visible_bytes r)) by (rewrite length_app; lia).
  by rewrite app_assoc, drop_app_length.
Qed.

(** Appending fragments together with their texts. *)
Lemma cells_append l k v d v' d' :
  vlen l = length v → dlen l = length d → cells (l ++ k) (v ++ v') (d ++ d') = cells l v d ++ cells k v' d'.
Proof.
  intros Hv Hd. rewrite cells_app, cells_ext by lia. by rewrite Hv, Hd, !drop_app_length.
Qed.

Lemma cells_snoc l f v d t :
  vlen l = length v → dlen l = length d → length t = f_len f →
  cells (l ++ [f]) (if visible f then v ++ t else v) (if visible f then d else d ++ t) = cells l v d ++ fcells f t.
Proof.
  intros Hv Hd Ht. destruct (visible f) eqn:E.
  - rewrite <- (app_nil_r d) at 1. rewrite cells_append by done. cbn [cells]. rewrite E.
    by rewrite firstn_all2, app_nil_r by lia.
  - rewrite <- (app_nil_r v) at 1. rewrite cells_append by done. cbn [cells]. rewrite E.
    by rewrite firstn_all2, app_nil_r by lia.
Qed.

(** A piece of a visible fragment, kept or deleted. *)
Record piece (ts : Lamport) (f g : Fragment) (a n : nat) (deleted : bool) : Prop := {
  piece_timestamp : f_timestamp g = f_timestamp f;
  piece_offset : insertion_offset g = insertion_offset f + a;
  piece_len : f_len g = n;
  piece_visible : visible g = negb deleted;
  piece_deletions : deletions g = deletions f ++ (if deleted then [ts] else []);
  piece_undos : max_undos g = max_undos f;
}.

Lemma fcells_piece ts f g a n (deleted : bool) t :
  visible f = true → piece ts f g a n deleted →
  fcells g (take n (drop a t)) =
    (if deleted then fmap (delete_cell ts) else id) (take n (drop a (fcells f t))).
Proof.
  intros Hf [Ht Ho Hl Hv Hd Hu]. destruct deleted.
  - set (g0 := mkFragment (f_id g) (f_timestamp f) (insertion_offset f + a) n true (deletions f) (max_undos f)).
    rewrite <- (fcells_portion f g0 a n t) by done. apply list_eq. intros i.
    unfold fcells. rewrite list_lookup_fmap, !list_lookup_imap. destruct (take n (drop a t) !! i); [|done].
    simpl. unfold cell_of, delete_cell. simpl. by rewrite Ht, Ho, Hv, Hd, Hu.
  - rewrite app_nil_r in Hd. by apply fcells_portion; rewrite ?Hf.
Qed.

(** Deleting does nothing to deleted cells. *)
Lemma delete_hidden ts f t : visible f = false → delete_cell ts <$> fcells f t = fcells f t.
Proof.
  intros Hf. pose proof (fcells_visible f t) as Hv. rewrite Hf in Hv.
  induction Hv as [|c l Hc _ IH]; [done|]. rewrite fmap_cons, IH. unfold delete_cell. by rewrite Hc.
Qed.

(** The cells that remain after part of the first fragment. *)
Lemma remaining_texts f l v d a :
  vlen (f :: l) = length v → dlen (f :: l) = length d → (visible f = false → a = 0) → a ≤ f_len f →
  visible_bytes (drop a (cells (f :: l) v d)) = drop a v ∧ length (drop a (cells (f :: l) v d)) = length v - a + length d.
Proof.
  intros Hv Hd Ha Hle. split; [|rewrite length_drop, cells_length by lia; rewrite Hv, Hd].
  2: { destruct (visible f) eqn:E; [|rewrite Ha by done; lia].
       rewrite vlen_cons, (vis_text f E) in Hv. simpl in Hv. lia. }
  destruct (cells_texts (f :: l) v d ltac:(lia) ltac:(lia)) as [Hb _].
  rewrite Hv, firstn_all in Hb.
  destruct (visible f) eqn:E; [|rewrite Ha by done; by rewrite !drop_0].
  rewrite vlen_cons, (vis_text f E) in Hv. simpl in Hv.
  rewrite <- Hb at 2. cbn [cells]. rewrite E.
  rewrite drop_app_le by (rewrite fcells_length, length_take; lia). rewrite !visible_bytes_app.
  pose proof (fcells_visible f (take (f_len f) v)) as Hf. rewrite E in Hf.
  assert (∀ k, Forall (λ c, c_visible c = true) k → visible_bytes k = c_byte <$> k) as Hall.
  { intros k Hk. unfold visible_bytes. by rewrite filter_all. }
  rewrite (Hall _ Hf), (Hall (drop a _)) by by apply Forall_drop.
  rewrite drop_app_le by (rewrite length_fmap, fcells_length, length_take; lia). by rewrite fmap_drop.
Qed.

Lemma vcount_app k c : vcount (k ++ c) = vcount k + vcount c.
Proof. unfold vcount. by rewrite visible_bytes_app, length_app. Qed.

(** Cells kept before the first edit. *)
Lemma edited_keep ts idx pos off k edits ranges c c' :
  edited ts (idx + length k) (pos + vcount k) off edits ranges c c' →
  edited ts idx pos off edits ranges (k ++ c) (k ++ c').
Proof.
  intros H. inversion H as [|? ? ? k0 r c0 c0' t edits0 ranges0 H']; subst; [constructor|].
  pose proof (edited_edit ts idx pos off (k ++ k0) r c0 c0' t edits0 ranges0) as He.
  rewrite vcount_app, length_app, !Nat.add_assoc, <- !app_assoc in He. exact (He H').
Qed.
