(* ===== verification/BufferInv.v ===== *)
(** * The buffer's invariant, and the helpers every operation uses

    Fragment ids increase strictly, fragments are not empty, and the two ropes
    hold exactly the bytes of the visible and of the deleted fragments. *)

From S2P Require Import Prelude Clock Text Patch Fragment Cells.
From S2P Require Locator.

(** ** The invariant *)

Definition id_lt (i j : Locator) : Prop := (i ≺ j)%ord.
Definition ids (l : list Fragment) : list Locator := f_id <$> l.

Record ids_ok (l : list Fragment) : Prop := {
  ids_sorted : StronglySorted id_lt (ids l);
  ids_proper : Forall (λ f, Locator.proper (f_id f)) l;
  ids_below : Forall (λ f, id_lt (f_id f) Locator.max) l;
}.

Definition frag_ok (f : Fragment) : Prop :=
  0 < f_len f ∧ is_u32 (N.of_nat (insertion_offset f + f_len f)).

Record buffer_ok (l : list Fragment) (v d : Text) : Prop := {
  ok_ids : ids_ok l;
  ok_frags : Forall frag_ok l;
  ok_visible : vlen l = length v;
  ok_deleted : dlen l = length d;
}.

Lemma is_u32_le m n : m ≤ n → is_u32 (N.of_nat n) → is_u32 (N.of_nat m).
Proof. unfold is_u32. lia. Qed.

Lemma id_lt_trans i j k : id_lt i j → id_lt j k → id_lt i k.
Proof. apply cmp_lt_trans. Qed.

(** The largest id of a list of fragments, and the id after it. *)
Definition top_id (l : list Fragment) : Locator := max_id (summary_of l).
Definition next_id (l : list Fragment) : Locator := match head l with Some f => f_id f | None => Locator.max end.

Lemma top_id_snoc l f : top_id (l ++ [f]) = f_id f.
Proof. unfold top_id. by rewrite summary_max_id, last_snoc. Qed.

Lemma sorted_app_inv (l k : list Locator) :
  StronglySorted id_lt (l ++ k) ↔
    StronglySorted id_lt l ∧ StronglySorted id_lt k ∧ ∀ x y, x ∈ l → y ∈ k → id_lt x y.
Proof.
  induction l as [|a l IH]; simpl.
  - split; [intros H; split_and!; [constructor|done|by intros x y ?%elem_of_nil]|naive_solver].
  - split.
    + intros [Hs Hf]%StronglySorted_inv. apply IH in Hs as (Hl & Hk & Hlk).
      rewrite Forall_forall in Hf. split_and!; [|done|].
      * constructor; [done|]. apply Forall_forall. intros y Hy. apply Hf, elem_of_app. by left.
      * intros x y [->|Hx]%elem_of_cons Hy; [|by apply Hlk]. apply Hf, elem_of_app. by right.
    + intros (Hs & Hk & Hlk). apply StronglySorted_inv in Hs as [Hl Hf]. constructor.
      * apply IH. split_and!; [done..|]. intros x y Hx. apply Hlk. by right.
      * rewrite Forall_forall in Hf |- *. intros y [Hy|Hy]%elem_of_app; [by apply Hf|].
        apply Hlk; [by left|done].
Qed.

Lemma ids_app l k : ids (l ++ k) = ids l ++ ids k.
Proof. apply fmap_app. Qed.

Lemma top_id_wf l : Forall (λ f, Locator.proper (f_id f)) l → Locator.Locator_wf (top_id l).
Proof.
  intros Hp. unfold top_id. rewrite summary_max_id. destruct (last l) as [f|] eqn:E; [|apply Locator.min_wf].
  apply Locator.proper_wf. rewrite Forall_forall in Hp. apply Hp. apply last_Some in E as [k ->].
  apply elem_of_app. right. by apply list_elem_of_singleton.
Qed.

Lemma next_id_proper l : Forall (λ f, Locator.proper (f_id f)) l → Locator.proper (next_id l).
Proof. destruct l as [|f l]; [intros _; apply Locator.max_proper|]. by intros [? _]%Forall_cons. Qed.

(** Every id of a sorted list is at most the last one. *)
Lemma top_id_max l x : StronglySorted id_lt (ids l) → x ∈ ids l → x = top_id l ∨ id_lt x (top_id l).
Proof.
  destruct l as [|f l _] using rev_ind; [by intros _ ?%elem_of_nil|].
  rewrite top_id_snoc, ids_app, sorted_app_inv. intros (_ & _ & H) [Hx|Hx]%elem_of_app.
  - right. apply H; [done|by left].
  - left. by apply list_elem_of_singleton in Hx.
Qed.

Lemma next_id_min l y : StronglySorted id_lt (ids l) → y ∈ ids l → y = next_id l ∨ id_lt (next_id l) y.
Proof.
  destruct l as [|f l]; [by intros _ ?%elem_of_nil|]. intros [_ Hf]%StronglySorted_inv [->|Hy]%elem_of_cons.
  - by left.
  - right. rewrite Forall_forall in Hf. by apply Hf.
Qed.

Lemma top_lt_next l k : ids_ok (l ++ k) → id_lt (top_id l) (next_id k).
Proof.
  intros [Hs Hp Hb]. rewrite ids_app, sorted_app_inv in Hs. destruct Hs as (_ & _ & Hlk).
  apply Forall_app in Hp as [Hpl Hpk]. apply Forall_app in Hb as [Hbl Hbk].
  unfold top_id. rewrite summary_max_id. destruct (last l) as [f|] eqn:E.
  - apply last_Some in E as [l' ->]. simpl. destruct k as [|g k]; simpl.
    + rewrite Forall_forall in Hbl. apply Hbl, elem_of_app. right. by left.
    + apply Hlk; [rewrite ids_app; apply elem_of_app; right|]; by left.
  - simpl. apply Locator.proper_min. by apply next_id_proper.
Qed.

(** Inserting a fragment whose id lies between. *)
Lemma ids_ok_insert l k f :
  ids_ok (l ++ k) → Locator.proper (f_id f) → id_lt (top_id l) (f_id f) →
  (id_lt (f_id f) (next_id k)) → ids_ok (l ++ f :: k).
Proof.
  intros Hok Hpf Htop Hnext. pose proof Hok as [Hs Hp Hb].
  rewrite ids_app, sorted_app_inv in Hs. destruct Hs as (Hl & Hk & Hlk).
  apply Forall_app in Hp as [Hpl Hpk]. apply Forall_app in Hb as [Hbl Hbk].
  assert (∀ y, y ∈ ids k → id_lt (f_id f) y) as Hfk.
  { intros y Hy. destruct (next_id_min k y Hk Hy) as [->|?]; [done|]. by eapply id_lt_trans. }
  assert (∀ x, x ∈ ids l → id_lt x (f_id f)) as Hlf.
  { intros x Hx. destruct (top_id_max l x Hl Hx) as [->|?]; [done|]. by eapply id_lt_trans. }
  split.
  - rewrite ids_app, sorted_app_inv. split_and!; [done| |].
    + constructor; [done|]. by apply Forall_forall.
    + intros x y Hx [->|Hy]%elem_of_cons; [by apply Hlf|by apply Hlk].
  - apply Forall_app. split; [done|by constructor].
  - apply Forall_app. split; [done|]. constructor; [|done].
    destruct k as [|g k]; [done|]. apply Forall_cons in Hbk as [Hg _]. simpl in Hnext.
    by eapply id_lt_trans.
Qed.

(** The id that [Locator::between] makes. *)
Lemma between_ids l k :
  ids_ok (l ++ k) → let i := Locator.between (top_id l) (next_id k) in
  Locator.proper i ∧ id_lt (top_id l) i ∧ id_lt i (next_id k).
Proof.
  intros Hok. pose proof (top_lt_next l k Hok) as Hlt. destruct Hok as [_ Hp _].
  apply Forall_app in Hp as [Hpl Hpk]. pose proof (top_id_wf l Hpl) as Hw.
  pose proof (next_id_proper k Hpk) as Hn. cbv zeta. split_and!.
  - apply Locator.between_proper; [done|by apply Locator.proper_wf].
  - apply Locator.between_gt; [done|by apply Locator.proper_wf].
  - by apply Locator.between_lt.
Qed.

Lemma ids_ok_app_r l k : ids_ok (l ++ k) → ids_ok k.
Proof.
  intros [Hs Hp Hb]. rewrite ids_app, sorted_app_inv in Hs. destruct Hs as (_ & ? & _).
  apply Forall_app in Hp as [_ ?]. apply Forall_app in Hb as [_ ?]. by split.
Qed.

(** Dropping a fragment. *)
Lemma ids_ok_drop l f k : ids_ok (l ++ f :: k) → ids_ok (l ++ k).
Proof.
  intros [Hs Hp Hb]. rewrite ids_app, sorted_app_inv in Hs. destruct Hs as (Hl & Hk & Hlk).
  apply StronglySorted_inv in Hk as [Hk _].
  apply Forall_app in Hp as [Hpl [_ Hpk]%Forall_cons]. apply Forall_app in Hb as [Hbl [_ Hbk]%Forall_cons].
  split; [|by apply Forall_app..]. rewrite ids_app, sorted_app_inv. split_and!; [done..|].
  intros x y Hx Hy. apply Hlk; [done|by right].
Qed.

Lemma ids_ok_same l l' : ids l = ids l' → ids_ok l → ids_ok l'.
Proof.
  intros E [Hs Hp Hb]. split; [by rewrite <- E|..].
  - change (Forall (λ f, Locator.proper (f_id f)) l') with (Forall (Locator.proper ∘ f_id) l').
    apply Forall_fmap. fold (ids l'). rewrite <- E. by apply Forall_fmap.
  - change (Forall (λ f, id_lt (f_id f) Locator.max) l') with (Forall ((λ i, id_lt i Locator.max) ∘ f_id) l').
    apply Forall_fmap. fold (ids l'). rewrite <- E. by apply Forall_fmap.
Qed.

(** ** The rope builder *)
Section builder.
Context (V D : Text).

Definition builder (a d : nat) (nv nd : Text) : RopeBuilder :=
  mkRopeBuilder (mkRopeCursor V a) (mkRopeCursor D d) nv nd.

Lemma rope_slice_ok (t : Text) a n :
  a + n ≤ length t → rope_slice (mkRopeCursor t a) (a + n) = Some (take n (drop a t), mkRopeCursor t (a + n)).
Proof.
  intros Hn. unfold rope_slice. simpl.
  rewrite (proj2 (Nat.leb_le a (a + n))), (proj2 (Nat.leb_le (a + n) (length t))) by lia.
  simpl. by rewrite Nat.add_comm, Nat.add_sub.
Qed.

Lemma push_visible_ok a d nv nd n b :
  a + n ≤ length V →
  builder_push (builder a d nv nd) n true b = Some (builder (a + n) d
    (if b then nv ++ take n (drop a V) else nv) (if b then nd else nd ++ take n (drop a V))).
Proof. intros H. unfold builder_push. simpl. rewrite rope_slice_ok by done. simpl. by destruct b. Qed.

Lemma push_deleted_ok a d nv nd n b :
  d + n ≤ length D →
  builder_push (builder a d nv nd) n false b = Some (builder a (d + n)
    (if b then nv ++ take n (drop d D) else nv) (if b then nd else nd ++ take n (drop d D))).
Proof. intros H. unfold builder_push. simpl. rewrite rope_slice_ok by done. simpl. by destruct b. Qed.

Lemma builder_append_ok a d nv nd v x :
  a + v ≤ length V → d + x ≤ length D →
  builder_append (builder a d nv nd) (mkTextSummary v x) =
    Some (builder (a + v) (d + x) (nv ++ take v (drop a V)) (nd ++ take x (drop d D))).
Proof.
  intros Hv Hx. unfold builder_append. simpl. rewrite push_visible_ok by done. cbn [mbind option_bind].
  by rewrite push_deleted_ok.
Qed.

Lemma finish_ok a d nv nd :
  a ≤ length V → d ≤ length D → finish (builder a d nv nd) = Some (nv ++ drop a V, nd ++ drop d D).
Proof.
  intros Hv Hd. unfold finish, rope_suffix. simpl.
  pose proof (rope_slice_ok V a (length V - a)) as Ev. pose proof (rope_slice_ok D d (length D - d)) as Ed.
  replace (a + (length V - a)) with (length V) in Ev by lia.
  replace (d + (length D - d)) with (length D) in Ed by lia.
  rewrite Ev, Ed by lia. simpl. by rewrite !firstn_all2 by (rewrite length_drop; lia).
Qed.
End builder.

(** ** Inserting text *)

(** No four bytes in a row continue a character, as in UTF-8. *)
Definition short_chars (t : Text) : Prop :=
  ∀ i, i + 4 ≤ length t → ∃ j b, i ≤ j < i + 4 ∧ t !! j = Some b ∧ is_utf8_char_boundary b = true.

Lemma step_back_ge t i j b :
  j ≤ i → t !! j = Some b → is_utf8_char_boundary b = true → j ≤ step_back t i ≤ i.
Proof.
  intros Hj Hb Hbd. induction i as [|i IH]; cbn [step_back]; [by destruct (is_char_boundary t 0); lia|].
  destruct (is_char_boundary t (S i)) eqn:E; [lia|].
  destruct (decide (j = S i)) as [->|]; [|specialize (IH ltac:(lia)); lia].
  unfold is_char_boundary in E. simpl in E. rewrite Hb in E. congruence.
Qed.

Section insertion.
Context (MAX_INSERTION_LEN : N) (Hmax : (4 ≤ MAX_INSERTION_LEN ≤ u32_max)%N).

Lemma chunk_end_ok t o :
  short_chars t → o < length t →
  let e := chunk_end MAX_INSERTION_LEN t o in
  o < e ≤ length t ∧ (N.of_nat (e - o) ≤ MAX_INSERTION_LEN)%N.
Proof.
  intros Hs Ho. cbv zeta. unfold chunk_end, target_end.
  destruct (Nat.eqb_spec (N.to_nat (N.min (N.of_nat (length t)) (N.of_nat o + MAX_INSERTION_LEN))) (length t)) as [E|E].
  { lia. }
  set (m := N.to_nat _) in *. assert (m < length t ∧ o + 4 ≤ m ∧ (N.of_nat m ≤ N.of_nat o + MAX_INSERTION_LEN)%N)
    as (Hm & Ho4 & Hmo) by lia.
  destruct (Hs (m - 3)) as (j & b & Hj & Hb & Hbd); [lia|].
  unfold floor_char_boundary. rewrite (proj2 (Nat.leb_gt _ _)) by lia.
  pose proof (step_back_ge t m j b ltac:(lia) Hb Hbd). lia.
Qed.

Lemma inserted_cells_split ts off t n :
  n ≤ length t →
  inserted_cells ts off t = inserted_cells ts off (take n t) ++ inserted_cells ts (off + n) (drop n t).
Proof.
  intros Hn. unfold inserted_cells. rewrite <- (take_drop n t) at 1. rewrite imap_app. f_equal.
  apply imap_ext. intros i b _. rewrite length_take, Nat.min_l by done. by rewrite Nat.add_assoc.
Qed.

(** The fragments appended to hold the inserted text. *)
Record inserted_fragments (ts : Lamport) (i i' : Insertion) (k : list Fragment) (t : Text)
    (fr : list Fragment) : Prop := {
  ins_fragments : in_fragments i' = in_fragments i ++ fr;
  ins_insertions : in_insertions i' = in_insertions i ++ (new_insertion <$> fr);
  ins_slices : in_slices i' = in_slices i ++ (from_fragment ts <$> fr);
  ins_offset : in_offset i' = in_offset i + length t;
  ins_ids : ids_ok (in_fragments i' ++ k);
  ins_ok : Forall frag_ok fr;
  ins_vlen : vlen fr = length t;
  ins_dlen : dlen fr = 0;
  ins_cells : cells fr t [] = inserted_cells ts (in_offset i) t;
}.

Lemma insertion_loop_ok fuel ts t o i k :
  short_chars t → o ≤ length t → length t - o < fuel → ids_ok (in_fragments i ++ k) →
  is_u32 (N.of_nat (in_offset i + (length t - o))) →
  ∃ i' fr, insertion_loop MAX_INSERTION_LEN fuel t ts (next_id k) o i = Some i' ∧
    inserted_fragments ts i i' k (drop o t) fr.
Proof.
  intros Hs. revert o i. induction fuel as [|fuel IH]; intros o i Ho Hf Hids Hoff; [lia|].
  cbn [insertion_loop]. destruct (Nat.ltb_spec o (length t)) as [Hlt|Hge].
  2: { exists i, []. split; [done|]. rewrite drop_ge by lia.
       split; rewrite ?fmap_nil, ?app_nil_r; simpl; try done. }
  destruct (chunk_end_ok t o Hs Hlt) as [He Hn]. set (e := chunk_end MAX_INSERTION_LEN t o) in *. clearbody e.
  rewrite (proj2 (Nat.eqb_neq _ _)) by lia. rewrite usub_le by lia. cbn [mbind option_bind].
  destruct (between_ids _ _ Hids) as (Hp & Hgt & Hltk).
  assert (is_u32 (N.of_nat (in_offset i + (e - o)))) as H32 by (apply (is_u32_le _ (in_offset i + (length t - o))); [lia|done]).
  assert (as_u32 (e - o) = e - o) as Hn32
    by (apply as_u32_small, (is_u32_le _ (in_offset i + (length t - o))); [lia|done]).
  unfold insertion_fragment. rewrite Hn32.
  set (f := mkFragment _ ts (in_offset i) (e - o) true [] new_global).
  assert (frag_ok f) as Hfo by (split; [simpl; lia|done]).
  rewrite (as_u32_small _ H32).
  destruct (IH e (mkInsertion (in_offset i + (e - o)) (in_fragments i ++ [f])
    (in_insertions i ++ [new_insertion f]) (in_slices i ++ [from_fragment ts f]))) as (i' & fr & Hi' & [? ? ? Ho' ? ? Hv Hd Hc]).
  { lia. } { lia. } { simpl. rewrite <- app_assoc. by apply ids_ok_insert. }
  { simpl. apply (is_u32_le _ (in_offset i + (length t - o))); [|done]. lia. }
  cbn [in_offset in_fragments in_insertions in_slices] in *.
  exists i', (f :: fr). split; [exact Hi'|]. split.
  - by rewrite <- app_assoc in *.
  - rewrite fmap_cons. by rewrite <- app_assoc in *.
  - rewrite fmap_cons. by rewrite <- app_assoc in *.
  - rewrite Ho', !length_drop. lia.
  - done.
  - by constructor.
  - rewrite vlen_cons, Hv, !length_drop. simpl. lia.
  - by rewrite dlen_cons, Hd.
  - cbn [cells]. simpl (visible f). simpl (f_len f). cbn iota. rewrite drop_drop.
    rewrite (inserted_cells_split ts (in_offset i) (drop o t) (e - o)) by (rewrite length_drop; lia).
    f_equal. rewrite drop_drop. replace (o + (e - o)) with e by lia. exact Hc.
Qed.

Lemma push_fragments_ok ts t i k :
  short_chars t → ids_ok (in_fragments i ++ k) → is_u32 (N.of_nat (in_offset i + length t)) →
  ∃ i' fr, push_fragments_for_insertion MAX_INSERTION_LEN t ts (next_id k) i = Some i' ∧
    inserted_fragments ts i i' k t fr.
Proof.
  intros Hs Hids Hoff. unfold push_fragments_for_insertion.
  destruct (insertion_loop_ok (S (length t)) ts t 0 i k) as (i' & fr & ? & ?); [done|lia|lia|done| |].
  - by rewrite Nat.sub_0_r.
  - by exists i', fr.
Qed.
End insertion.

(** ** The patch of a pass *)

(** The patch so far leads from the consumed text to the produced one. *)
Definition patch_ok (p : Patch) (consumed produced : Text) : Prop :=
  ∃ a b k, describes 0 0 p a b ∧ normalized p ∧ consumed = a ++ k ∧ produced = b ++ k.

Lemma patch_ok_keep p x y t : patch_ok p x y → patch_ok p (x ++ t) (y ++ t).
Proof.
  intros (a & b & k & ? & ? & -> & ->). exists a, b, (k ++ t). by rewrite <- !app_assoc.
Qed.

Lemma patch_ok_push p x y t u :
  patch_ok p x y →
  patch_ok (push p (mkEdit (mkRange (length x) (length x + length t)) (mkRange (length y) (length y + length u))))
    (x ++ t) (y ++ u).
Proof.
  intros (a & b & k & Hd & Hn & -> & ->). destruct (push_patch_ok p a b k t u Hd Hn) as [Hd' Hn'].
  unfold span_edit in Hd', Hn'. rewrite !length_app.
  eexists _, _, []. split_and!; [exact Hd'|exact Hn'|by rewrite app_nil_r, app_assoc..].
Qed.
