(* ===== verification/LocalEdit.v ===== *)
(** * Local edits ([Buffer::apply_local_edit] of [crates/text/src/text.rs])

    One pass over the old fragments with a cursor builds the new fragments and
    ropes, splitting the fragments the edited ranges cut.  The pieces of the
    loop body are definitions of their own, in the order of the source. *)

From S2P Require Import Prelude Clock Text Patch Fragment Cells BufferInv.
From S2P Require Locator Utf8 ChunkBits.

(** The mutable locals of the function; [new_fragments], [insertion_offset],
    [new_insertions] and [insertion_slices] are one [Insertion]. *)
Record EditState := mkEditState {
  old_fragments : FragmentCursor (D := FragmentTextSummary);
  es_new : Insertion;
  new_ropes : RopeBuilder;
  fragment_start : nat;
  edits_patch : Patch;
  edit_ranges : list (nat * nat);
}.

Definition new_fragments (s : EditState) : list Fragment := in_fragments (es_new s).
Definition old_start (s : EditState) : FragmentTextSummary := start (old_fragments s).
Definition fragment_end (s : EditState) : nat := ts_visible (end_ add_fragment_text (old_fragments s)).

(** Record updates. *)
Definition with_old (s : EditState) c : EditState :=
  mkEditState c (es_new s) (new_ropes s) (fragment_start s) (edits_patch s) (edit_ranges s).
Definition with_start (s : EditState) fs : EditState :=
  mkEditState (old_fragments s) (es_new s) (new_ropes s) fs (edits_patch s) (edit_ranges s).
Definition with_patch (s : EditState) p : EditState :=
  mkEditState (old_fragments s) (es_new s) (new_ropes s) (fragment_start s) p (edit_ranges s).
Definition with_new (s : EditState) i r : EditState :=
  mkEditState (old_fragments s) i r (fragment_start s) (edits_patch s) (edit_ranges s).
Definition with_ranges (s : EditState) l : EditState :=
  mkEditState (old_fragments s) (es_new s) (new_ropes s) (fragment_start s) (edits_patch s) l.
Definition with_id (f : Fragment) (i : Locator) : Fragment :=
  mkFragment i (f_timestamp f) (insertion_offset f) (f_len f) (visible f) (deletions f) (max_undos f).
Definition delete_fragment (f : Fragment) (ts : Lamport) : Fragment :=
  mkFragment (f_id f) (f_timestamp f) (insertion_offset f) (f_len f) false (deletions f ++ [ts]) (max_undos f).

(** The portion of the current fragment of length [len] that starts at
    [fragment_start]. *)
Definition portion (s : EditState) (f : Fragment) (len : nat) : option Fragment :=
  skipped ← usub (fragment_start s) (ts_visible (old_start s));
  Some (mkFragment (f_id f) (f_timestamp f) (as_u32 (insertion_offset f + as_u32 skipped)) (as_u32 len)
          (visible f) (deletions f) (max_undos f)).

(** [Locator::between(&new_fragments.summary().max_id, &fragment.id)] *)
Definition squeeze_id (s : EditState) (f : Fragment) : Fragment :=
  with_id f (Locator.between (max_id (summary_of (new_fragments s))) (f_id f)).

(** [new_insertions.push], [new_ropes.push_fragment], [new_fragments.push]. *)
Definition emit (s : EditState) (f : Fragment) (was_visible : bool) : option EditState :=
  r ← push_fragment (new_ropes s) f was_visible;
  let i := es_new s in
  Some (with_new s (mkInsertion (in_offset i) (in_fragments i ++ [f]) (in_insertions i ++ [new_insertion f])
                      (in_slices i)) r).

(** "If the current fragment has been partially consumed, then consume the
    rest of it and advance to the next fragment before slicing." *)
Definition consume_rest (s : EditState) : option EditState :=
  if ts_visible (old_start s) <? fragment_start s then
    s ← (if fragment_start s <? fragment_end s then
           f ← item (old_fragments s);
           suffix ← portion s f (fragment_end s - fragment_start s);
           emit s suffix (visible suffix)
         else Some s);
    Some (with_old s (next add_fragment_text (old_fragments s)))
  else Some s.

(** Reuse a slice of old fragments. *)
Definition append_slice (s : EditState) (slice : list Fragment) : option EditState :=
  r ← builder_append (new_ropes s) (fs_text (summary_of slice));
  let i := es_new s in
  Some (with_new s (mkInsertion (in_offset i) (in_fragments i ++ slice) (in_insertions i) (in_slices i)) r).

(** Seeking a [usize] with [Bias::Right]. *)
Definition past_right (target : nat) (d : FragmentTextSummary) : bool := ts_visible d <=? target.

Definition slice_to (s : EditState) (target : nat) : option EditState :=
  let '(sl, c) := slice add_fragment_text (past_right target) (old_fragments s) in
  s ← append_slice s sl;
  let s := with_old s c in
  Some (with_start s (ts_visible (old_start s))).

Definition jump (s : EditState) (range_start : nat) : option EditState :=
  if fragment_end s <? range_start then s ← consume_rest s; slice_to s range_start else Some s.

Definition preserve_prefix (s : EditState) (range_start : nat) : option EditState :=
  if fragment_start s <? range_start then
    f ← item (old_fragments s);
    prefix ← portion s f (range_start - fragment_start s);
    let prefix := squeeze_id s prefix in
    s ← emit s prefix (visible prefix);
    Some (with_start s range_start)
  else Some s.

(** ** The loop *)
Section local_edit.
Context (MAX_INSERTION_LEN : N) (timestamp : Lamport).

Definition insert_text (s : EditState) (new_text : Text) : option EditState :=
  match new_text with
  | [] => Some s
  | _ =>
      let new_start := ts_visible (fs_text (summary_of (new_fragments s))) in
      let next_fragment_id := match item (old_fragments s) with Some f => f_id f | None => Locator.max end in
      i ← push_fragments_for_insertion MAX_INSERTION_LEN new_text timestamp next_fragment_id (es_new s);
      let s := with_new s i (push_str (new_ropes s) new_text) in
      let fs := fragment_start s in
      Some (with_patch s (push (edits_patch s)
        (mkEdit (mkRange fs fs) (mkRange new_start (new_start + length new_text)))))
  end.

Definition add_slice (s : EditState) (slice : InsertionSlice) : EditState :=
  let i := es_new s in
  with_new s (mkInsertion (in_offset i) (in_fragments i) (in_insertions i) (in_slices i ++ [slice])) (new_ropes s).

(** One round of the deletion loop. *)
Definition delete_step (s : EditState) (range_end : nat) : option EditState :=
  f ← item (old_fragments s);
  let fragment_end := fragment_end s in
  let intersection_end := Nat.min range_end fragment_end in
  intersection ← (if visible f then
                    len ← usub intersection_end (fragment_start s);
                    p ← portion s f len;
                    Some (delete_fragment (squeeze_id s p) timestamp)
                  else Some f);
  s ← (if 0 <? f_len intersection then
         let s := (if visible f && negb (visible intersection) then
                     let new_start := ts_visible (fs_text (summary_of (new_fragments s))) in
                     add_slice (with_patch s (push (edits_patch s)
                         (mkEdit (mkRange (fragment_start s) intersection_end) (mkRange new_start new_start))))
                       (from_fragment timestamp intersection)
                   else s) in
         s ← emit s intersection (visible f);
         Some (with_start s intersection_end)
       else Some s);
  Some (if fragment_end <=? range_end then with_old s (next add_fragment_text (old_fragments s)) else s).

Fixpoint delete_loop (fuel : nat) (s : EditState) (range_end : nat) : option EditState :=
  if fragment_start s <? range_end then
    match fuel with
    | O => None
    | S fuel => s ← delete_step s range_end; delete_loop fuel s range_end
    end
  else Some s.

(** Each round passes a fragment or ends the loop. *)
Definition delete_range (s : EditState) (range_end : nat) : option EditState :=
  delete_loop (S (length (upcoming (old_fragments s)))) s range_end.

Definition edit_step (s : EditState) (e : TextEdit) : option EditState :=
  s ← jump s (e_start e);
  let full_range_start := e_start e + ts_deleted (old_start s) in
  s ← preserve_prefix s (e_start e);
  s ← insert_text s (e_text e);
  s ← delete_range s (e_end e);
  let full_range_end := e_end e + ts_deleted (old_start s) in
  Some (with_ranges s (edit_ranges s ++ [(full_range_start, full_range_end)])).

Fixpoint edit_steps (s : EditState) (edits : list TextEdit) : option EditState :=
  match edits with [] => Some s | e :: edits => s ← edit_step s e; edit_steps s edits end.

Definition normalize_edit (e : TextEdit) : TextEdit := mkTextEdit (e_start e) (e_end e) (normalize (e_text e)).

(** [range.to_offset(&*self)] of a [Range<usize>]: both ends are rounded down to
    character boundaries of the visible text, and to its end. *)
Definition edit_to_offset (visible_text : Text) (e : TextEdit) : TextEdit :=
  mkTextEdit (floor_char_boundary visible_text (e_start e)) (floor_char_boundary visible_text (e_end e)) (e_text e).

(** The edits the function makes: clipped ranges and normalised texts. *)
Definition clip_edits (visible_text : Text) (edits : list TextEdit) : list TextEdit :=
  normalize_edit <$> (edit_to_offset visible_text <$> edits).

(** What the function writes back to the snapshot, and the operation's ranges. *)
Record LocalEdit := mkLocalEdit {
  le_fragments : list Fragment;
  le_visible_text : Text;
  le_deleted_text : Text;
  le_insertions : list InsertionFragment;
  le_slices : list InsertionSlice;
  le_patch : Patch;
  le_ranges : list (nat * nat);
}.

Definition initial_state (fragments : list Fragment) (visible_text deleted_text : Text) : EditState :=
  mkEditState (cursor zero_text fragments) (mkInsertion 0 [] [] [])
    (new_builder (mkRopeCursor visible_text 0) (mkRopeCursor deleted_text 0)) 0 [] [].

Definition finish_edit (s : EditState) : option LocalEdit :=
  s ← consume_rest s;
  s ← append_slice s (suffix (old_fragments s));
  '(visible_text, deleted_text) ← finish (new_ropes s);
  Some (mkLocalEdit (new_fragments s) visible_text deleted_text (in_insertions (es_new s))
          (in_slices (es_new s)) (edits_patch s) (edit_ranges s)).

Definition apply_local_edit (fragments : list Fragment) (visible_text deleted_text : Text)
    (edits : list TextEdit) : option LocalEdit :=
  let edits := edit_to_offset visible_text <$> edits in
  first ← head edits;
  s ← slice_to (initial_state fragments visible_text deleted_text) (e_start first);
  s ← edit_steps s (normalize_edit <$> edits);
  finish_edit s.
End local_edit.

(** ** The state of the pass

    [V] and [D] are the old ropes.  The pass has produced the new texts [nv]
    and [nd]; [cr] are the old cells it has not consumed yet. *)
Section proofs.
Context (MAX_INSERTION_LEN : N) (Hmax : (4 ≤ MAX_INSERTION_LEN ≤ u32_max)%N) (ts : Lamport) (V D : Text).
Implicit Types (s : EditState) (nv nd : Text) (cr : list Cell).

Record rep s nv nd cr : Prop := {
  rep_ropes : new_ropes s = builder V D (fragment_start s) (ts_deleted (old_start s)) nv nd;
  rep_pos : ts_visible (old_start s) ≤ fragment_start s ≤ fragment_end s;
  rep_vlen : ts_visible (old_start s) + vlen (upcoming (old_fragments s)) = length V;
  rep_dlen : ts_deleted (old_start s) + dlen (upcoming (old_fragments s)) = length D;
  rep_nv : vlen (new_fragments s) = length nv;
  rep_nd : dlen (new_fragments s) = length nd;
  rep_ids : ids_ok (new_fragments s ++ upcoming (old_fragments s));
  rep_frags : Forall frag_ok (new_fragments s ++ upcoming (old_fragments s));
  rep_rest : cr = drop (fragment_start s - ts_visible (old_start s))
    (cells (upcoming (old_fragments s)) (drop (ts_visible (old_start s)) V) (drop (ts_deleted (old_start s)) D));
  rep_patch : patch_ok (edits_patch s) (take (fragment_start s) V) nv;
}.

Definition cells_done s nv nd : list Cell := cells (new_fragments s) nv nd.

(** A step that consumes the cells [k] and produces the cells [p]. *)
Record moves s nv nd cr s' nv' nd' cr' (k p : list Cell) : Prop := {
  moves_rep : rep s' nv' nd' cr';
  moves_consumed : cr = k ++ cr';
  moves_produced : cells_done s' nv' nd' = cells_done s nv nd ++ p;
  moves_ranges : edit_ranges s' = edit_ranges s;
}.

Lemma moves_refl s nv nd cr : rep s nv nd cr → moves s nv nd cr s nv nd cr [] [].
Proof. intros H. by split; rewrite ?app_nil_r. Qed.

Lemma moves_trans s nv nd cr s1 nv1 nd1 cr1 s2 nv2 nd2 cr2 k1 p1 k2 p2 :
  moves s nv nd cr s1 nv1 nd1 cr1 k1 p1 → moves s1 nv1 nd1 cr1 s2 nv2 nd2 cr2 k2 p2 →
  moves s nv nd cr s2 nv2 nd2 cr2 (k1 ++ k2) (p1 ++ p2).
Proof.
  intros [_ -> E1 R1] [H -> E2 R2]. split; [done|by rewrite <- app_assoc| |congruence].
  by rewrite E2, E1, <- app_assoc.
Qed.

Lemma end_cons p d f l :
  ts_visible (end_ add_fragment_text (mkFragmentCursor (mkTextSummary p d) (f :: l))) =
    p + ts_visible (fragment_text f).
Proof. done. Qed.

Lemma rep_end_le s nv nd cr : rep s nv nd cr → fragment_end s ≤ length V.
Proof.
  intros [_ Hpos Hv _ _ _ _ _ _ _]. unfold fragment_end, end_, old_start in *.
  destruct (upcoming (old_fragments s)) as [|f l]; [lia|]. rewrite vlen_cons in Hv.
  unfold add_fragment_text. simpl. lia.
Qed.

(** The rest of the text, in bytes. *)
Lemma rep_texts s nv nd cr :
  rep s nv nd cr →
  visible_bytes cr = drop (fragment_start s) V ∧
  length cr = length V - fragment_start s + (length D - ts_deleted (old_start s)).
Proof.
  intros [_ Hpos Hv Hd _ _ _ _ -> _]. destruct s as [[[p d] up] ? ? fs ? ?].
  unfold old_start, fragment_end in *. cbn [old_fragments start upcoming ts_visible ts_deleted fragment_start] in *.
  destruct up as [|f l].
  - simpl in Hpos, Hv, Hd. unfold vlen, dlen in Hv, Hd. simpl in Hv, Hd.
    rewrite drop_ge by (simpl; lia). simpl. rewrite drop_ge by lia. split; [done|]. lia.
  - rewrite end_cons in Hpos. destruct (remaining_texts f l (drop p V) (drop d D) (fs - p)) as [-> ->].
    + rewrite length_drop. lia.
    + rewrite length_drop. lia.
    + intros E. rewrite (hid_text f E) in Hpos. simpl in Hpos. lia.
    + destruct (visible f) eqn:E; [rewrite (vis_text f E) in Hpos|rewrite (hid_text f E) in Hpos]; simpl in Hpos; lia.
    + rewrite drop_drop, !length_drop. replace (p + (fs - p)) with fs by lia. split; [done|]. lia.
Qed.

(** ** Emitting a portion of the current fragment *)

Definition emitted s (f : Fragment) (r : RopeBuilder) : EditState :=
  let i := es_new s in
  with_new s (mkInsertion (in_offset i) (in_fragments i ++ [f]) (in_insertions i ++ [new_insertion f]) (in_slices i)) r.

Lemma emit_visible s g a d nv nd :
  new_ropes s = builder V D a d nv nd → 0 < f_len g → a + f_len g ≤ length V →
  vlen (new_fragments s) = length nv → dlen (new_fragments s) = length nd →
  let t := take (f_len g) (drop a V) in
  let nv' := if visible g then nv ++ t else nv in
  let nd' := if visible g then nd else nd ++ t in
  emit s g true = Some (emitted s g (builder V D (a + f_len g) d nv' nd')) ∧
  cells (new_fragments s ++ [g]) nv' nd' = cells (new_fragments s) nv nd ++ fcells g t ∧
  vlen (new_fragments s ++ [g]) = length nv' ∧ dlen (new_fragments s ++ [g]) = length nd'.
Proof.
  intros Hr Hl Ha Hv Hd. cbv zeta. unfold emit, push_fragment. rewrite Hr, (proj2 (Nat.ltb_lt _ _) Hl).
  rewrite push_visible_ok by done. split; [done|].
  assert (length (take (f_len g) (drop a V)) = f_len g) as Ht by (rewrite length_take, length_drop; lia).
  rewrite (cells_snoc (new_fragments s) g nv nd _ Hv Hd Ht). split; [done|].
  rewrite vlen_app, dlen_app, vlen_cons, dlen_cons. unfold vlen at 2, dlen at 2. simpl.
  destruct (visible g) eqn:E; [rewrite (vis_text g E)|rewrite (hid_text g E)]; simpl; rewrite ?length_app, ?Ht; lia.
Qed.

(** The part of the rest that a portion takes. *)
Lemma rest_portion p d fs f l n :
  visible f = true → p ≤ fs → fs + n ≤ p + f_len f → p + vlen (f :: l) = length V →
  let c := cells (f :: l) (drop p V) (drop d D) in
  take n (drop (fs - p) c) = take n (drop (fs - p) (fcells f (take (f_len f) (drop p V)))) ∧
  take n (drop fs V) = take n (drop (fs - p) (take (f_len f) (drop p V))).
Proof.
  intros E Hp Hn Hv. rewrite vlen_cons, (vis_text f E) in Hv. simpl in Hv. cbv zeta. split.
  - cbn [cells]. rewrite E. rewrite drop_app_le by (rewrite fcells_length, length_take, length_drop; lia).
    apply take_app_le. rewrite length_drop, fcells_length, length_take, length_drop. lia.
  - rewrite skipn_firstn_comm, drop_drop, take_take. f_equal; [lia|]. f_equal. lia.
Qed.

(** Emitting the next [n] bytes of the current fragment, kept or deleted,
    under an id that fits before it. *)
Lemma emit_piece s nv nd cr f l g n (deleted : bool) :
  rep s nv nd cr → upcoming (old_fragments s) = f :: l → visible f = true →
  0 < n → fragment_start s + n ≤ fragment_end s →
  piece ts f g (fragment_start s - ts_visible (old_start s)) n deleted →
  ∃ nv' nd',
    emit s g true = Some (emitted s g (builder V D (fragment_start s + n) (ts_deleted (old_start s)) nv' nd')) ∧
    cells (new_fragments s ++ [g]) nv' nd' =
      cells_done s nv nd ++ (if deleted then fmap (delete_cell ts) else id) (take n cr) ∧
    vlen (new_fragments s ++ [g]) = length nv' ∧ dlen (new_fragments s ++ [g]) = length nd' ∧
    frag_ok g ∧ nv' = (if deleted then nv else nv ++ take n (drop (fragment_start s) V)).
Proof.
  intros [Hr Hpos Hv Hd Hnv Hnd _ Hfr Hrest _] Hup E Hn Hle Hp. pose proof Hp as [_ Ho Hl Hvis _ _].
  destruct s as [[[p d] up] [off nf ni sl] r fs pa ra]. unfold old_start, fragment_end, new_fragments, cells_done in *.
  cbn [old_fragments start upcoming ts_visible ts_deleted fragment_start es_new new_ropes in_fragments] in *.
  subst up. rewrite end_cons, (vis_text f E) in Hle, Hpos. simpl in Hle, Hpos.
  apply Forall_app in Hfr as [_ [[Hf0 Hf32] _]%Forall_cons].
  pose proof Hv as Hv'. rewrite vlen_cons, (vis_text f E) in Hv'. simpl in Hv'.
  destruct (emit_visible (mkEditState (mkFragmentCursor (mkTextSummary p d) (f :: l)) (mkInsertion off nf ni sl) r fs pa ra)
    g fs d nv nd Hr) as (He & Hc & Hv1 & Hd1); [lia|rewrite Hl; lia|done|done|].
  rewrite Hl in He, Hc, Hv1, Hd1. destruct (rest_portion p d fs f l n E) as [Ht1 Ht2]; [lia|lia|done|].
  eexists _, _. split; [exact He|]. split; [|split; [exact Hv1|split; [exact Hd1|]]].
  - etransitivity; [exact Hc|]. f_equal. rewrite Ht2, (fcells_piece ts f g _ _ _ _ E Hp), Hrest, Ht1. done.
  - split; [|by rewrite Hvis; destruct deleted]. split; [lia|]. rewrite Ho, Hl.
    apply (is_u32_le _ (insertion_offset f + f_len f)); [lia|done].
Qed.

(** The portion computed by the code. *)
Lemma portion_ok s nv nd cr f l n :
  rep s nv nd cr → upcoming (old_fragments s) = f :: l → visible f = true →
  fragment_start s + n ≤ fragment_end s →
  let a := fragment_start s - ts_visible (old_start s) in
  ∃ g, portion s f n = Some g ∧ f_id g = f_id f ∧ piece ts f g a n false.
Proof.
  intros [_ Hpos _ _ _ _ _ Hfr _ _] Hup E Hle. cbv zeta.
  rewrite Hup in Hfr. apply Forall_app in Hfr as [_ [[Hf0 Hf32] _]%Forall_cons].
  unfold fragment_end, end_, old_start in *. rewrite Hup in Hpos, Hle. unfold add_fragment_text in Hpos, Hle.
  rewrite (vis_text f E) in Hpos, Hle. simpl in Hpos, Hle.
  unfold portion, old_start. rewrite usub_le by lia. cbn [mbind option_bind].
  eexists. split; [done|]. split; [done|]. split; simpl; try done.
  - rewrite (as_u32_small (_ - _)) by (apply (is_u32_le _ (insertion_offset f + f_len f)); [lia|done]).
    apply as_u32_small, (is_u32_le _ (insertion_offset f + f_len f)); [lia|done].
  - apply as_u32_small, (is_u32_le _ (insertion_offset f + f_len f)); [lia|done].
  - by rewrite app_nil_r.
Qed.

Lemma take_grow {A} (l : list A) a n : a + n ≤ length l → take (a + n) l = take a l ++ take n (drop a l).
Proof. intros _. by rewrite take_take_drop. Qed.

Lemma preserve_prefix_ok s nv nd cr rs :
  rep s nv nd cr → fragment_start s ≤ rs ≤ fragment_end s →
  ∃ s' nv' nd' cr' k, preserve_prefix s rs = Some s' ∧ moves s nv nd cr s' nv' nd' cr' k k ∧
    fragment_start s' = rs ∧ old_fragments s' = old_fragments s ∧ in_offset (es_new s') = in_offset (es_new s).
Proof.
  intros Hrep Hrs. unfold preserve_prefix. destruct (Nat.ltb_spec (fragment_start s) rs) as [Hlt|Hge].
  2: { exists s, nv, nd, cr, []. split_and!; try done; [by apply moves_refl|lia]. }
  destruct (upcoming (old_fragments s)) as [|f l] eqn:Hup.
  { pose proof (rep_pos s nv nd cr Hrep) as Hpos. unfold fragment_end, end_, old_start in *. rewrite Hup in *. lia. }
  assert (visible f = true) as E.
  { destruct (visible f) eqn:E; [done|]. pose proof (rep_pos s nv nd cr Hrep) as Hpos.
    unfold fragment_end, end_, old_start in *. rewrite Hup in *. unfold add_fragment_text in *.
    rewrite (hid_text f E) in *. simpl in *. lia. }
  unfold item. rewrite Hup. cbn [head mbind option_bind].
  destruct (portion_ok s nv nd cr f l (rs - fragment_start s) Hrep Hup E) as (g & -> & Hid & Hp); [lia|].
  cbn [mbind option_bind]. pose proof (rep_ids s nv nd cr Hrep) as Hids.
  destruct (between_ids _ _ Hids) as (Hip & Hgt & Hltk).
  assert (piece ts f (squeeze_id s g) (fragment_start s - ts_visible (old_start s)) (rs - fragment_start s) false) as Hp'
    by (destruct Hp; by split).
  destruct (emit_piece s nv nd cr f l (squeeze_id s g) (rs - fragment_start s) false Hrep Hup E)
    as (nv' & nd' & He & Hc & Hv1 & Hd1 & Hok & Hnv'); [lia|lia|done|].
  change (visible (squeeze_id s g)) with (visible g). rewrite (piece_visible _ _ _ _ _ _ Hp). cbn [negb].
  rewrite He. cbn [mbind option_bind]. pose proof Hrep as [Hr Hpos Hv Hd _ _ _ Hfr Hrest Hpatch].
  exists (with_start (emitted s (squeeze_id s g) (builder V D (fragment_start s + (rs - fragment_start s)) (ts_deleted (old_start s)) nv' nd')) rs),
    nv', nd', (drop (rs - fragment_start s) cr), (take (rs - fragment_start s) cr).
  split; [done|]. split; [|done]. split; [|by rewrite take_drop|exact Hc|done].
  replace (fragment_start s + (rs - fragment_start s)) with rs by lia.
  split; try done.
  - change (ts_visible (old_start s) ≤ rs ≤ fragment_end s). lia.
  - change (ids_ok ((new_fragments s ++ [squeeze_id s g]) ++ upcoming (old_fragments s))).
    rewrite <- app_assoc. apply ids_ok_insert; [done|simpl; rewrite ?Hid..].
    + rewrite Hup in Hip. exact Hip.
    + rewrite Hup in Hgt. exact Hgt.
    + rewrite Hup in Hltk |- *. exact Hltk.
  - change (Forall frag_ok ((new_fragments s ++ [squeeze_id s g]) ++ upcoming (old_fragments s))).
    rewrite <- app_assoc. apply Forall_app. apply Forall_app in Hfr as [? ?]. split; [done|by constructor].
  - rewrite Hrest, drop_drop. unfold old_start. simpl. f_equal. unfold old_start in Hpos. lia.
  - cbn. rewrite Hnv'. replace rs with (fragment_start s + (rs - fragment_start s)) at 1 by lia.
    rewrite <- take_take_drop. by apply patch_ok_keep.
Qed.

(** Passing the current fragment once all its cells are consumed. *)
Lemma rest_next p d f l :
  visible f = true → p + vlen (f :: l) = length V →
  drop (f_len f) (cells (f :: l) (drop p V) (drop d D)) = cells l (drop (p + f_len f) V) (drop d D).
Proof.
  intros E Hv. rewrite vlen_cons, (vis_text f E) in Hv. simpl in Hv. cbn [cells]. rewrite E, drop_drop.
  rewrite drop_app_length' by (rewrite fcells_length, length_take, length_drop; lia). done.
Qed.

(** Moving on from a visible fragment that is consumed to its end. *)
Lemma rep_next s nv nd cr f l :
  upcoming (old_fragments s) = f :: l → visible f = true → fragment_start s = fragment_end s →
  new_ropes s = builder V D (fragment_start s) (ts_deleted (old_start s)) nv nd →
  ts_visible (old_start s) + vlen (f :: l) = length V → ts_deleted (old_start s) + dlen (f :: l) = length D →
  vlen (new_fragments s) = length nv → dlen (new_fragments s) = length nd →
  ids_ok (new_fragments s ++ l) → Forall frag_ok (new_fragments s ++ l) →
  cr = drop (f_len f) (cells (f :: l) (drop (ts_visible (old_start s)) V) (drop (ts_deleted (old_start s)) D)) →
  patch_ok (edits_patch s) (take (fragment_start s) V) nv →
  rep (with_old s (next add_fragment_text (old_fragments s))) nv nd cr ∧
  ts_visible (old_start (with_old s (next add_fragment_text (old_fragments s)))) = fragment_end s.
Proof.
  destruct s as [[[p d] up] [off nf ni sl] r fs pa ra]. unfold old_start, fragment_end, new_fragments.
  cbn [old_fragments start upcoming ts_visible ts_deleted fragment_start es_new new_ropes in_fragments edits_patch].
  intros -> E Hfs -> Hv Hd Hnv Hnd Hids Hfr -> Hpatch.
  rewrite end_cons, (vis_text f E) in Hfs. simpl in Hfs.
  rewrite (rest_next p d f l E Hv). rewrite vlen_cons, dlen_cons, (vis_text f E) in *. simpl in Hv, Hd.
  unfold next. cbn [old_fragments upcoming start]. unfold add_fragment_text. rewrite (vis_text f E).
  unfold add_text. simpl. rewrite (vis_text f E). simpl. rewrite Nat.add_0_r. split; [|done].
  split; cbn; try done.
  - unfold old_start. simpl. rewrite Hfs. split; [lia|]. unfold fragment_end, end_. simpl.
    destruct l; unfold add_fragment_text; simpl; lia.
  - lia.
  - rewrite Hfs. unfold old_start. simpl. by rewrite Nat.sub_diag, drop_0.
Qed.

Lemma current_visible s nv nd cr n :
  rep s nv nd cr → fragment_start s < fragment_end s ∨ ts_visible (old_start s) < fragment_start s →
  n ≤ fragment_end s - fragment_start s →
  ∃ f l, upcoming (old_fragments s) = f :: l ∧ visible f = true ∧
    fragment_end s = ts_visible (old_start s) + f_len f.
Proof.
  intros [_ Hpos _ _ _ _ _ _ _ _] Hor Hn. unfold fragment_end, end_, old_start in *.
  destruct (upcoming (old_fragments s)) as [|f l]; [lia|]. exists f, l. unfold add_fragment_text in *.
  destruct (visible f) eqn:E; [rewrite (vis_text f E) in *|rewrite (hid_text f E) in *]; simpl in *; [done|lia].
Qed.

Lemma with_start_same s : with_start s (fragment_start s) = s.
Proof. by destruct s. Qed.

Lemma consume_rest_ok s nv nd cr :
  rep s nv nd cr →
  ∃ s' nv' nd' cr' k, consume_rest s = Some s' ∧
    moves s nv nd cr (with_start s' (ts_visible (old_start s'))) nv' nd' cr' k k ∧
    ts_visible (old_start s') ≤ fragment_end s ∧ in_offset (es_new s') = in_offset (es_new s).
Proof.
  intros Hrep. pose proof Hrep as [Hr Hpos Hv Hd Hnv Hnd Hids Hfr Hrest Hpatch]. unfold consume_rest.
  destruct (Nat.ltb_spec (ts_visible (old_start s)) (fragment_start s)) as [Hlt|Hge].
  2: { exists s, nv, nd, cr, []. replace (ts_visible (old_start s)) with (fragment_start s) by lia.
       rewrite with_start_same. split_and!; [done|by apply moves_refl|lia|done]. }
  destruct (current_visible s nv nd cr 0 Hrep) as (f & l & Hup & E & Hend); [lia..|].
  destruct (Nat.ltb_spec (fragment_start s) (fragment_end s)) as [Hlt2|Hge2].
  - unfold item. rewrite Hup. cbn [head mbind option_bind]. set (n := fragment_end s - fragment_start s).
    destruct (portion_ok s nv nd cr f l n Hrep Hup E) as (g & -> & Hid & Hp); [lia|].
    cbn [mbind option_bind].
    destruct (emit_piece s nv nd cr f l g n false Hrep Hup E) as (nv' & nd' & He & Hc & Hv1 & Hd1 & Hok & Hnv');
      [lia|lia|done|].
    rewrite (piece_visible _ _ _ _ _ _ Hp). cbn [negb]. rewrite He. cbn [mbind option_bind].
    replace (fragment_start s + n) with (fragment_end s) by lia.
    set (s1 := with_start (emitted s g (builder V D (fragment_end s) (ts_deleted (old_start s)) nv' nd')) (fragment_end s)).
    destruct (rep_next s1 nv' nd' (drop n cr) f l) as [Hrep' Hst]; try done.
    + by rewrite <- Hup.
    + by rewrite <- Hup.
    + change (ids_ok ((new_fragments s ++ [g]) ++ l)). rewrite <- app_assoc.
      apply (ids_ok_same (new_fragments s ++ f :: l)); [|by rewrite <- Hup].
      rewrite !ids_app. cbn. by rewrite Hid.
    + change (Forall frag_ok ((new_fragments s ++ [g]) ++ l)). rewrite <- app_assoc. rewrite Hup in Hfr.
      apply Forall_app in Hfr as [? [_ ?]%Forall_cons]. apply Forall_app. by split; [|constructor].
    + rewrite Hrest, drop_drop, Hup. change (old_start s1) with (old_start s). f_equal. lia.
    + change (patch_ok (edits_patch s) (take (fragment_end s) V) nv'). rewrite Hnv'.
      replace (fragment_end s) with (fragment_start s + n) by lia. rewrite <- take_take_drop.
      by apply patch_ok_keep.
    + eexists _, nv', nd', (drop n cr), (take n cr). split; [done|]. split; [|split; [|done]].
      * split; [|by rewrite take_drop|exact Hc|done]. cbn in Hst |- *.
        match type of Hst with ?a = _ => change (ts_visible (old_start _)) with a end. rewrite Hst. exact Hrep'.
      * apply Nat.eq_le_incl. exact Hst.
  - cbn [mbind option_bind].
    destruct (rep_next s nv nd cr f l) as [Hrep' Hst]; try done.
    + lia.
    + by rewrite <- Hup.
    + by rewrite <- Hup.
    + apply (ids_ok_drop _ f). by rewrite <- Hup.
    + rewrite Hup in Hfr. apply Forall_app in Hfr as [? [_ ?]%Forall_cons]. by apply Forall_app.
    + rewrite Hrest, Hup. f_equal. lia.
    + eexists _, nv, nd, cr, []. split; [done|]. split; [|split; [|done]].
      * rewrite Hst. replace (fragment_end s) with (fragment_start s) by lia.
        change (fragment_start s) with (fragment_start (with_old s (next add_fragment_text (old_fragments s)))).
        rewrite with_start_same. by split; rewrite ?app_nil_r.
      * by rewrite Hst.
Qed.

Lemma slice_from_ok target p d l :
  p ≤ target →
  let '(sk, c) := slice_from add_fragment_text (past_right target) (mkTextSummary p d) l in
  l = sk ++ upcoming c ∧ start c = mkTextSummary (p + vlen sk) (d + dlen sk) ∧ p + vlen sk ≤ target ∧
  (upcoming c ≠ [] → target < ts_visible (end_ add_fragment_text c)).
Proof.
  revert p d. induction l as [|f l IH]; intros p d Hp; cbn [slice_from].
  { unfold vlen, dlen. simpl. by rewrite !Nat.add_0_r. }
  unfold past_right at 1, add_fragment_text at 1. cbn [add_text ts_visible].
  destruct (Nat.leb_spec (p + ts_visible (fragment_text f)) target) as [Hle|Hgt].
  - specialize (IH (p + ts_visible (fragment_text f)) (d + ts_deleted (fragment_text f)) Hle).
    unfold add_fragment_text at 2, add_text. cbn [ts_visible ts_deleted].
    destruct (slice_from _ _ _ l) as [sk c]. destruct IH as (-> & -> & Ht & He).
    rewrite vlen_cons, dlen_cons, !Nat.add_assoc. by split_and!.
  - unfold vlen, dlen. cbn. rewrite !Nat.add_0_r. by split_and!.
Qed.

Lemma slice_to_ok s nv nd cr target :
  let s0 := with_start s (ts_visible (old_start s)) in
  rep s0 nv nd cr → ts_visible (old_start s) ≤ target ≤ length V →
  ∃ s' nv' nd' cr' k, slice_to s target = Some s' ∧ moves s0 nv nd cr s' nv' nd' cr' k k ∧
    fragment_start s' ≤ target ≤ fragment_end s' ∧ in_offset (es_new s') = in_offset (es_new s).
Proof.
  cbv zeta. intros [Hr Hpos Hv Hd Hnv Hnd Hids Hfr Hrest Hpatch] Ht.
  destruct s as [[[p d] up] [off nf ni sl] r fs pa ra].
  unfold old_start, fragment_end, new_fragments, with_start in *.
  cbn [old_fragments start upcoming ts_visible ts_deleted fragment_start es_new new_ropes in_fragments edits_patch
       in_offset] in *.
  rewrite Nat.sub_diag, drop_0 in Hrest.
  unfold slice_to, slice. cbn [old_fragments start upcoming].
  pose proof (slice_from_ok target p d up ltac:(lia)) as Hsl.
  destruct (slice_from _ _ _ up) as [sk c]. destruct Hsl as (-> & Hst & Hle & He).
  rewrite vlen_app in Hv. rewrite dlen_app in Hd.
  unfold append_slice. cbn [new_ropes es_new]. rewrite summary_text, Hr, builder_append_ok by lia.
  cbn [mbind option_bind]. do 5 eexists. split; [done|]. split; [split|split; [|done]].
  - split; unfold with_old, with_start, with_new, old_start, fragment_end, new_fragments;
      cbn [old_fragments es_new in_fragments new_ropes fragment_start edits_patch];
      rewrite ?Hst; cbn [ts_visible ts_deleted].
    + done.
    + split; [done|]. unfold end_. rewrite Hst. destruct (upcoming c) as [|f l]; [done|].
      unfold add_fragment_text. simpl. lia.
    + lia.
    + lia.
    + rewrite vlen_app, length_app, length_take, length_drop. lia.
    + rewrite dlen_app, length_app, length_take, length_drop. lia.
    + by rewrite <- app_assoc.
    + by rewrite <- app_assoc.
    + by rewrite Nat.sub_diag, drop_0.
    + rewrite <- take_take_drop. by apply patch_ok_keep.
  - rewrite Hrest, cells_app, !drop_drop. reflexivity.
  - unfold cells_done, with_old, with_start, with_new, new_fragments. cbn [es_new in_fragments].
    rewrite cells_append by done. f_equal.
    rewrite <- (take_drop (vlen sk) (drop p V)) at 2. rewrite <- (take_drop (dlen sk) (drop d D)) at 2.
    rewrite cells_ext; [done|rewrite length_take, length_drop; lia..].
  - done.
  - unfold with_old, with_start, with_new, old_start, fragment_end. cbn [old_fragments fragment_start].
    rewrite Hst. cbn [ts_visible]. split; [lia|]. destruct (upcoming c) as [|f l] eqn:Ec.
    + unfold end_. rewrite Ec, Hst. simpl. unfold vlen in Hv at 2. simpl in Hv. lia.
    + specialize (He ltac:(done)). lia.
Qed.

Lemma jump_ok s nv nd cr rs :
  rep s nv nd cr → fragment_start s ≤ rs ≤ length V →
  ∃ s' nv' nd' cr' k, jump s rs = Some s' ∧ moves s nv nd cr s' nv' nd' cr' k k ∧
    fragment_start s' ≤ rs ≤ fragment_end s' ∧ in_offset (es_new s') = in_offset (es_new s).
Proof.
  intros Hrep Hrs. unfold jump. destruct (Nat.ltb_spec (fragment_end s) rs) as [Hlt|Hge].
  2: { exists s, nv, nd, cr, []. split_and!; try done; [by apply moves_refl|lia]. }
  destruct (consume_rest_ok s nv nd cr Hrep) as (s1 & nv1 & nd1 & cr1 & k1 & -> & Hm1 & Hle & Ho1).
  cbn [mbind option_bind].
  destruct (slice_to_ok s1 nv1 nd1 cr1 rs (moves_rep _ _ _ _ _ _ _ _ _ _ Hm1)) as (s2 & nv2 & nd2 & cr2 & k2 & -> & Hm2 & Hp2 & Ho2);
    [lia|].
  exists s2, nv2, nd2, cr2, (k1 ++ k2). split_and!; [done|by eapply moves_trans|lia..|congruence].
Qed.

(** ** Inserting and deleting *)

Lemma insert_text_ok s nv nd cr t :
  rep s nv nd cr → short_chars t → is_u32 (N.of_nat (in_offset (es_new s) + length t)) →
  ∃ s' nv' nd', insert_text MAX_INSERTION_LEN ts s t = Some s' ∧
    moves s nv nd cr s' nv' nd' cr [] (inserted_cells ts (in_offset (es_new s)) t) ∧
    fragment_start s' = fragment_start s ∧ old_fragments s' = old_fragments s ∧
    in_offset (es_new s') = in_offset (es_new s) + length t.
Proof.
  intros Hrep Hs H32. pose proof Hrep as [Hr Hpos Hv Hd Hnv Hnd Hids Hfr Hrest Hpatch].
  unfold insert_text. destruct t as [|b t0] eqn:Et; rewrite <- ?Et in *.
  { exists s, nv, nd. subst t. split_and!; [done|by apply moves_refl|done|done|simpl; lia]. }
  destruct (push_fragments_ok MAX_INSERTION_LEN Hmax ts t (es_new s) (upcoming (old_fragments s)) Hs Hids H32)
    as (i' & fr & Hp & [Hf _ _ Hoff Hids' Hok Hvl Hdl Hc]).
  change (match item (old_fragments s) with Some f => f_id f | None => Locator.max end)
    with (next_id (upcoming (old_fragments s))).
  rewrite Hp. cbn [mbind option_bind]. rewrite summary_text. cbn [ts_visible].
  eexists _, (nv ++ t), nd. split; [done|]. split; [|by rewrite <- Hoff].
  split; [|done| |done].
  - split; cbn; try done.
    + by rewrite Hr.
    + change (vlen (in_fragments i') = length (nv ++ t)). rewrite Hf, vlen_app, length_app, Hvl.
      by change (in_fragments (es_new s)) with (new_fragments s); rewrite Hnv.
    + change (dlen (in_fragments i') = length nd). rewrite Hf, dlen_app, Hdl, Nat.add_0_r. done.
    + change (Forall frag_ok (in_fragments i' ++ upcoming (old_fragments s))). rewrite Hf, <- app_assoc.
      apply Forall_app in Hfr as [? ?]. by rewrite !Forall_app.
    + pose proof (patch_ok_push _ _ _ [] t Hpatch) as Hpush. rewrite app_nil_r in Hpush.
      assert (fragment_start s ≤ length V) as HfsV.
      { pose proof (rep_end_le s nv nd cr Hrep). lia. }
      rewrite length_take, Nat.min_l, Nat.add_0_r, <- Hnv in Hpush by done. exact Hpush.
  - unfold cells_done, new_fragments. simpl. rewrite Hf.
    rewrite <- (app_nil_r nd) at 1. rewrite cells_append by done. by rewrite Hc.
Qed.

Lemma emit_record s p x g b :
  emit (add_slice (with_patch s p) x) g b = (λ s', add_slice (with_patch s' p) x) <$> emit s g b.
Proof. unfold emit. simpl. by destruct (push_fragment (new_ropes s) g b). Qed.

(** A deleted fragment is passed whole. *)
Lemma delete_step_hidden s nv nd cr f l re :
  rep s nv nd cr → upcoming (old_fragments s) = f :: l → visible f = false → fragment_start s < re →
  ∃ s' nv' nd' cr' k, delete_step ts s re = Some s' ∧ moves s nv nd cr s' nv' nd' cr' k (delete_cell ts <$> k) ∧
    fragment_start s' = fragment_start s ∧ upcoming (old_fragments s') = l ∧
    in_offset (es_new s') = in_offset (es_new s).
Proof.
  intros [Hr Hpos Hv Hd Hnv Hnd Hids Hfr Hrest Hpatch] Hup E Hre.
  destruct s as [[[p d] up] [off nf ni sl] r fs pa ra].
  unfold old_start, fragment_end, new_fragments, delete_step, item, fragment_end in *.
  cbn [old_fragments start upcoming ts_visible ts_deleted fragment_start es_new new_ropes in_fragments edits_patch
       in_offset] in *.
  subst up. rewrite end_cons, (hid_text f E) in *. cbn [head mbind option_bind ts_visible] in *.
  rewrite Nat.add_0_r in *. assert (fs = p) as -> by lia.
  pose proof Hfr as Hfr'. apply Forall_app in Hfr' as [Hfn [[Hf0 Hf32] Hfl]%Forall_cons].
  rewrite E. cbn [mbind option_bind andb]. rewrite (proj2 (Nat.ltb_lt _ _) Hf0), Nat.min_r by lia.
  pose proof Hv as Hv'. pose proof Hd as Hd'. rewrite vlen_cons, (hid_text f E) in Hv'.
  rewrite dlen_cons, (hid_text f E) in Hd'. simpl in Hv', Hd'.
  unfold emit, push_fragment. cbn [new_ropes]. rewrite Hr, (proj2 (Nat.ltb_lt _ _) Hf0).
  rewrite push_deleted_ok, E by lia. cbn [mbind option_bind]. rewrite (proj2 (Nat.leb_le _ _)) by lia.
  set (t := take (f_len f) (drop d D)).
  assert (length t = f_len f) as Ht by (unfold t; rewrite length_take, length_drop; lia).
  eexists _, nv, (nd ++ t), (cells l (drop p V) (drop (d + f_len f) D)), (fcells f t).
  split; [done|]. split; [|done]. rewrite delete_hidden by done. split.
  - assert (add_fragment_text (mkTextSummary p d) f = mkTextSummary p (d + f_len f)) as Hadd.
    { unfold add_fragment_text, add_text. rewrite (hid_text f E). simpl. by rewrite Nat.add_0_r. }
    split; unfold old_start, fragment_end, new_fragments, with_old, with_start, with_new, next;
      cbn [old_fragments upcoming start es_new in_fragments new_ropes fragment_start edits_patch];
      rewrite ?Hadd; cbn [ts_visible ts_deleted]; try done.
    + split; [done|]. unfold end_. destruct l; simpl; lia.
    + lia.
    + rewrite vlen_app, vlen_cons, (hid_text f E). unfold vlen at 2. simpl. lia.
    + rewrite dlen_app, dlen_cons, (hid_text f E), length_app. unfold dlen at 2. simpl. lia.
    + by rewrite <- app_assoc.
    + by rewrite <- app_assoc.
    + by rewrite Nat.sub_diag, drop_0.
  - rewrite Hrest, Nat.sub_diag, drop_0. cbn [cells]. by rewrite E, drop_drop.
  - unfold cells_done. simpl. pose proof (cells_snoc nf f nv nd t Hnv Hnd Ht) as Hc. by rewrite E in Hc.
  - done.
Qed.

(** The state after deleting [n] > 0 bytes of the current fragment. *)
Lemma delete_piece s nv nd cr f l g n :
  rep s nv nd cr → upcoming (old_fragments s) = f :: l → visible f = true →
  0 < n → fragment_start s + n ≤ fragment_end s →
  f_id g = f_id f → piece ts f g (fragment_start s - ts_visible (old_start s)) n false →
  let i := delete_fragment (squeeze_id s g) ts in
  let new_start := ts_visible (fs_text (summary_of (new_fragments s))) in
  let pa := push (edits_patch s) (mkEdit (mkRange (fragment_start s) (fragment_start s + n)) (mkRange new_start new_start)) in
  ∃ s' nv' nd', emit (add_slice (with_patch s pa) (from_fragment ts i)) i true = Some s' ∧
    old_fragments s' = old_fragments s ∧ in_offset (es_new s') = in_offset (es_new s) ∧
    moves s nv nd cr (with_start s' (fragment_start s + n)) nv' nd' (drop n cr) (take n cr) (delete_cell ts <$> take n cr).
Proof.
  intros Hrep Hup E Hn Hle Hid Hp. cbv zeta. pose proof (rep_ids s nv nd cr Hrep) as Hids.
  destruct (between_ids _ _ Hids) as (Hip & Hgt & Hltk).
  assert (piece ts f (delete_fragment (squeeze_id s g) ts) (fragment_start s - ts_visible (old_start s)) n true) as Hp'.
  { destruct Hp as [? ? ? ? Hdel ?]. split; try done. simpl. rewrite Hdel. by rewrite app_nil_r. }
  destruct (emit_piece s nv nd cr f l _ n true Hrep Hup E Hn Hle Hp') as (nv' & nd' & He & Hc & Hv1 & Hd1 & Hok & ->).
  rewrite emit_record, He. cbn [fmap option_fmap option_map]. eexists _, nv, nd'. split; [done|]. do 2 (split; [done|]).
  set (i := delete_fragment (squeeze_id s g) ts) in *. pose proof (rep_end_le s nv nd cr Hrep) as HendV.
  destruct Hrep as [Hr Hpos Hv Hd Hnv _ _ Hfr Hrest Hpatch].
  split; [|by rewrite take_drop|exact Hc|done]. split; try done.
  - change (ts_visible (old_start s) ≤ fragment_start s + n ≤ fragment_end s). lia.
  - change (ids_ok ((new_fragments s ++ [i]) ++ upcoming (old_fragments s))).
    rewrite <- app_assoc. rewrite Hup in *. apply ids_ok_insert; [done|simpl; rewrite ?Hid; done..].
  - change (Forall frag_ok ((new_fragments s ++ [i]) ++ upcoming (old_fragments s))).
    rewrite <- app_assoc. apply Forall_app in Hfr as [? ?]. apply Forall_app. split; [done|by constructor].
  - rewrite Hrest, drop_drop. unfold old_start. simpl. f_equal. unfold old_start in Hpos. lia.
  - pose proof (patch_ok_push _ _ _ (take n (drop (fragment_start s) V)) [] Hpatch) as Hpush.
    rewrite take_take_drop, app_nil_r, !length_take, length_drop, !Nat.min_l, Nat.add_0_r, <- Hnv in Hpush by lia.
    cbn. rewrite summary_text. exact Hpush.
Qed.

(** Moving on when the state is already well formed. *)
Lemma rep_next_at_end s nv nd cr f l :
  rep s nv nd cr → upcoming (old_fragments s) = f :: l → visible f = true → fragment_start s = fragment_end s →
  rep (with_old s (next add_fragment_text (old_fragments s))) nv nd cr ∧
  upcoming (next add_fragment_text (old_fragments s)) = l.
Proof.
  intros Hrep Hup E Hfs. destruct (current_visible s nv nd cr 0 Hrep) as (f' & l' & Hup' & _ & Hend); [|lia|].
  { right. unfold fragment_end, end_, old_start in *. rewrite Hup in *. pose proof (rep_frags s nv nd cr Hrep) as Hfr.
    rewrite Hup in Hfr. apply Forall_app in Hfr as [_ [[? _] _]%Forall_cons].
    unfold add_fragment_text in Hfs. rewrite (vis_text f E) in Hfs. simpl in Hfs. lia. }
  rewrite Hup in Hup'. injection Hup' as <- <-.
  destruct Hrep as [Hr Hpos Hv Hd Hnv Hnd Hids Hfr Hrest Hpatch]. rewrite Hup in *. split.
  - apply (rep_next s nv nd cr f l); try done.
    + by apply (ids_ok_drop _ f).
    + apply Forall_app in Hfr as [? [_ ?]%Forall_cons]. by apply Forall_app.
    + rewrite Hrest. f_equal. lia.
  - unfold next. by rewrite Hup.
Qed.

Lemma moves_next s nv nd cr s' nv' nd' cr' k p f l :
  moves s nv nd cr s' nv' nd' cr' k p → upcoming (old_fragments s') = f :: l → visible f = true →
  fragment_start s' = fragment_end s' →
  moves s nv nd cr (with_old s' (next add_fragment_text (old_fragments s'))) nv' nd' cr' k p.
Proof.
  intros [Hrep ? ? ?] Hup E Hfs. destruct (rep_next_at_end s' nv' nd' cr' f l Hrep Hup E Hfs). by split.
Qed.

Lemma delete_step_visible s nv nd cr f l re :
  rep s nv nd cr → upcoming (old_fragments s) = f :: l → visible f = true → fragment_start s < re →
  ∃ s' nv' nd' cr' k, delete_step ts s re = Some s' ∧ moves s nv nd cr s' nv' nd' cr' k (delete_cell ts <$> k) ∧
    fragment_start s' ≤ re ∧ (fragment_start s' = re ∨ upcoming (old_fragments s') = l) ∧
    in_offset (es_new s') = in_offset (es_new s).
Proof.
  intros Hrep Hup E Hre. pose proof (rep_pos s nv nd cr Hrep) as Hpos.
  unfold delete_step, item. rewrite Hup. cbn [head mbind option_bind]. rewrite E.
  set (n := Nat.min re (fragment_end s) - fragment_start s).
  rewrite usub_le by lia. fold n. cbn [mbind option_bind].
  destruct (portion_ok s nv nd cr f l n Hrep Hup E) as (g & -> & Hid & Hp); [lia|]. cbn [mbind option_bind].
  replace (f_len (delete_fragment (squeeze_id s g) ts)) with n by (symmetry; apply Hp).
  change (true && negb (visible (delete_fragment (squeeze_id s g) ts))) with true. cbn iota zeta.
  destruct (Nat.ltb_spec 0 n) as [Hn|Hn].
  - destruct (delete_piece s nv nd cr f l g n Hrep Hup E Hn ltac:(lia) Hid Hp) as (s1 & nv' & nd' & He & Ho & Hoff & Hm).
    replace (Nat.min re (fragment_end s)) with (fragment_start s + n) by lia. rewrite He. cbn [mbind option_bind].
    eexists _, nv', nd', (drop n cr), (take n cr). split; [done|].
    assert (fragment_end (with_start s1 (fragment_start s + n)) = fragment_end s) as Hend.
    { unfold fragment_end. simpl. by rewrite Ho. }
    destruct (Nat.leb_spec (fragment_end s) re).
    + split; [|split; [simpl; lia|split; [|done]]].
      * apply (moves_next _ _ _ _ _ _ _ _ _ _ f l Hm); [simpl; by rewrite Ho|done|]. rewrite Hend. simpl. lia.
      * right. simpl. rewrite Ho. unfold next. by rewrite Hup.
    + split; [exact Hm|]. simpl. split_and!; [lia|left; lia|done].
  - cbn [mbind option_bind]. rewrite (proj2 (Nat.leb_le _ _)) by lia.
    eexists _, nv, nd, cr, []. split; [done|]. split; [|split; [simpl; lia|split; [|done]]].
    + apply (moves_next _ _ _ _ _ _ _ _ _ _ f l (moves_refl s nv nd cr Hrep)); [done..|lia].
    + right. simpl. unfold next. by rewrite Hup.
Qed.

Lemma delete_step_ok s nv nd cr re :
  rep s nv nd cr → fragment_start s < re ≤ length V →
  ∃ s' nv' nd' cr' k, delete_step ts s re = Some s' ∧ moves s nv nd cr s' nv' nd' cr' k (delete_cell ts <$> k) ∧
    fragment_start s' ≤ re ∧
    (fragment_start s' = re ∨ length (upcoming (old_fragments s')) < length (upcoming (old_fragments s))) ∧
    in_offset (es_new s') = in_offset (es_new s).
Proof.
  intros Hrep Hre. destruct (upcoming (old_fragments s)) as [|f l] eqn:Hup.
  { destruct Hrep as [_ Hpos Hv _ _ _ _ _ _ _]. unfold fragment_end, end_, old_start in *. rewrite Hup in *.
    unfold vlen in Hv. simpl in Hv. lia. }
  destruct (visible f) eqn:E.
  - destruct (delete_step_visible s nv nd cr f l re Hrep Hup E ltac:(lia))
      as (s' & nv' & nd' & cr' & k & ? & ? & ? & Hor & ?).
    exists s', nv', nd', cr', k. split_and!; try done. destruct Hor as [?| ->]; [by left|right; simpl; lia].
  - destruct (delete_step_hidden s nv nd cr f l re Hrep Hup E ltac:(lia))
      as (s' & nv' & nd' & cr' & k & ? & ? & Hfs & Hl & ?).
    exists s', nv', nd', cr', k. split_and!; try done; [lia|]. right. rewrite Hl. simpl. lia.
Qed.

Lemma delete_loop_ok fuel s nv nd cr re :
  rep s nv nd cr → fragment_start s ≤ re ≤ length V → length (upcoming (old_fragments s)) < fuel →
  ∃ s' nv' nd' cr' k, delete_loop ts fuel s re = Some s' ∧
    moves s nv nd cr s' nv' nd' cr' k (delete_cell ts <$> k) ∧
    fragment_start s' = re ∧ in_offset (es_new s') = in_offset (es_new s).
Proof.
  revert s nv nd cr. induction fuel as [|fuel IH]; intros s nv nd cr Hrep Hre Hf; [lia|].
  cbn [delete_loop]. destruct (Nat.ltb_spec (fragment_start s) re) as [Hlt|Hge].
  2: { exists s, nv, nd, cr, []. split_and!; [done|by apply moves_refl|lia|done]. }
  destruct (delete_step_ok s nv nd cr re Hrep ltac:(lia)) as (s1 & nv1 & nd1 & cr1 & k1 & -> & Hm1 & Hfs & Hor & Ho1).
  cbn [mbind option_bind]. destruct Hor as [Hdone|Hlen].
  - exists s1, nv1, nd1, cr1, k1. split_and!; try done.
    destruct fuel; cbn [delete_loop]; by rewrite (proj2 (Nat.ltb_ge _ _)) by lia.
  - destruct (IH s1 nv1 nd1 cr1 (moves_rep _ _ _ _ _ _ _ _ _ _ Hm1)) as (s2 & nv2 & nd2 & cr2 & k2 & -> & Hm2 & ? & ?); [lia..|].
    exists s2, nv2, nd2, cr2, (k1 ++ k2). split_and!; try done; [|congruence].
    rewrite fmap_app. by eapply moves_trans.
Qed.

(** ** One edit, all edits *)

(** The position in the full text, deleted bytes included. *)
Definition full_position s : nat := fragment_start s + ts_deleted (old_start s).

Lemma moves_positions s nv nd cr s' nv' nd' cr' k p :
  rep s nv nd cr → moves s nv nd cr s' nv' nd' cr' k p →
  fragment_start s' = fragment_start s + vcount k ∧ full_position s' = full_position s + length k.
Proof.
  intros Hrep [Hrep' -> _ _]. destruct (rep_texts s nv nd (k ++ cr') Hrep) as [Hb Hl].
  destruct (rep_texts s' nv' nd' cr' Hrep') as [Hb' Hl'].
  pose proof (rep_end_le _ _ _ _ Hrep). pose proof (rep_end_le _ _ _ _ Hrep').
  pose proof (rep_pos _ _ _ _ Hrep). pose proof (rep_pos _ _ _ _ Hrep').
  pose proof (rep_dlen _ _ _ _ Hrep). pose proof (rep_dlen _ _ _ _ Hrep').
  rewrite visible_bytes_app, Hb' in Hb. apply (f_equal length) in Hb. rewrite length_app, !length_drop in Hb.
  rewrite length_app in Hl. unfold vcount, full_position. lia.
Qed.

Record edit_valid (off pos : nat) (e : TextEdit) : Prop := {
  valid_range : pos ≤ e_start e ≤ e_end e;
  valid_end : e_end e ≤ length V;
  valid_text : short_chars (e_text e);
  valid_offset : is_u32 (N.of_nat (off + length (e_text e)));
}.

Lemma local_step_ok s nv nd cr e :
  rep s nv nd cr → edit_valid (in_offset (es_new s)) (fragment_start s) e →
  ∃ s' nv' nd' cr' k r, edit_step MAX_INSERTION_LEN ts s e = Some s' ∧ rep s' nv' nd' cr' ∧ cr = k ++ r ++ cr' ∧
    cells_done s' nv' nd' =
      cells_done s nv nd ++ k ++ inserted_cells ts (in_offset (es_new s)) (e_text e) ++ (delete_cell ts <$> r) ∧
    e = mkTextEdit (fragment_start s + vcount k) (fragment_start s + vcount k + vcount r) (e_text e) ∧
    edit_ranges s' =
      edit_ranges s ++ [(full_position s + length k, full_position s + length k + length r)] ∧
    fragment_start s' = e_end e ∧ full_position s' = full_position s + length k + length r ∧
    in_offset (es_new s') = in_offset (es_new s) + length (e_text e).
Proof.
  intros Hrep [Hr He Ht H32]. unfold edit_step.
  destruct (jump_ok s nv nd cr (e_start e) Hrep ltac:(lia)) as (s1 & nv1 & nd1 & cr1 & k1 & -> & Hm1 & Hp1 & Ho1).
  cbn [mbind option_bind].
  destruct (preserve_prefix_ok s1 nv1 nd1 cr1 (e_start e) (moves_rep _ _ _ _ _ _ _ _ _ _ Hm1) Hp1)
    as (s2 & nv2 & nd2 & cr2 & k2 & -> & Hm2 & Hfs2 & Hold2 & Ho2). cbn [mbind option_bind].
  pose proof (moves_rep _ _ _ _ _ _ _ _ _ _ Hm2) as Hrep2.
  destruct (insert_text_ok s2 nv2 nd2 cr2 (e_text e) Hrep2 Ht) as (s3 & nv3 & nd3 & -> & Hm3 & Hfs3 & Hold3 & Ho3);
    [by rewrite Ho2, Ho1|]. cbn [mbind option_bind].
  destruct (delete_loop_ok (S (length (upcoming (old_fragments s3)))) s3 nv3 nd3 cr2 (e_end e))
    as (s4 & nv4 & nd4 & cr4 & r & Hd & Hm4 & Hfs4 & Ho4); [apply Hm3|lia|lia|].
  unfold delete_range. rewrite Hd. cbn [mbind option_bind].
  pose proof (moves_trans _ _ _ _ _ _ _ _ _ _ _ _ _ _ _ _ Hm1 Hm2) as Hm12.
  destruct (moves_positions _ _ _ _ _ _ _ _ _ _ Hrep Hm12) as [Hv12 Hf12].
  pose proof (moves_trans _ _ _ _ _ _ _ _ _ _ _ _ _ _ _ _ Hm3 Hm4) as Hm34. rewrite app_nil_l in Hm34.
  destruct (moves_positions _ _ _ _ _ _ _ _ _ _ Hrep2 Hm34) as [Hv34 Hf34].
  pose proof (moves_trans _ _ _ _ _ _ _ _ _ _ _ _ _ _ _ _ Hm12 Hm34) as [Hrep4 Hcr Hc Hra].
  eexists _, nv4, nd4, cr4, (k1 ++ k2), r. split; [done|]. split; [by destruct Hrep4; split|].
  split; [by rewrite app_assoc|]. split.
  { rewrite Ho2, Ho1 in Hc. rewrite <- app_assoc in Hc |- *. exact Hc. }
  split; [destruct e; simpl in *; f_equal; lia|].
  split; [|split; [done|split; [|simpl; lia]]].
  - simpl. rewrite Hra. do 3 f_equal.
    + rewrite <- Hf12. unfold full_position, old_start. rewrite Hold2. lia.
    + change (e_end e + ts_deleted (old_start s4) = full_position s + length (k1 ++ k2) + length r).
      rewrite <- Hf12, <- Hf34. unfold full_position. lia.
  - change (full_position s4 = full_position s + length (k1 ++ k2) + length r). lia.
Qed.

(** Edits are in order, do not overlap and stay inside the text. *)
Fixpoint edits_valid (off pos : nat) (edits : list TextEdit) : Prop :=
  match edits with
  | [] => True
  | e :: edits => edit_valid off pos e ∧ edits_valid (off + length (e_text e)) (e_end e) edits
  end.

Lemma local_steps_ok s nv nd cr edits :
  rep s nv nd cr → edits_valid (in_offset (es_new s)) (fragment_start s) edits →
  ∃ s' nv' nd' cr' p ranges, edit_steps MAX_INSERTION_LEN ts s edits = Some s' ∧ rep s' nv' nd' cr' ∧
    cells_done s' nv' nd' = cells_done s nv nd ++ p ∧ edit_ranges s' = edit_ranges s ++ ranges ∧
    edited ts (full_position s) (fragment_start s) (in_offset (es_new s)) edits ranges cr (p ++ cr').
Proof.
  revert s nv nd cr. induction edits as [|e edits IH]; intros s nv nd cr Hrep Hval.
  { exists s, nv, nd, cr, [], []. rewrite !app_nil_r. split_and!; try done. constructor. }
  destruct Hval as [He Hval]. cbn [edit_steps].
  destruct (local_step_ok s nv nd cr e Hrep He)
    as (s1 & nv1 & nd1 & cr1 & k & r & -> & Hrep1 & -> & Hc1 & Hee & Hra1 & Hfs1 & Hfp1 & Ho1).
  cbn [mbind option_bind]. rewrite <- Ho1, <- Hfs1 in Hval.
  destruct (IH s1 nv1 nd1 cr1 Hrep1 Hval) as (s2 & nv2 & nd2 & cr2 & p & ranges & -> & Hrep2 & Hc2 & Hra2 & Hed).
  eexists s2, nv2, nd2, cr2, _, _. split; [done|]. split; [done|]. split; [|split].
  - rewrite Hc2, Hc1, <- app_assoc. reflexivity.
  - rewrite Hra2, Hra1, <- app_assoc. reflexivity.
  - rewrite <- !app_assoc. cbn [app]. rewrite Hee. constructor.
    rewrite Hfp1, Hfs1, Ho1 in Hed. rewrite Hee in Hed at 1. exact Hed.
Qed.

Lemma finish_edit_ok s nv nd cr :
  rep s nv nd cr →
  ∃ r, finish_edit s = Some r ∧
    buffer_ok (le_fragments r) (le_visible_text r) (le_deleted_text r) ∧
    cells (le_fragments r) (le_visible_text r) (le_deleted_text r) = cells_done s nv nd ++ cr ∧
    describes 0 0 (le_patch r) V (le_visible_text r) ∧ normalized (le_patch r) ∧
    le_ranges r = edit_ranges s.
Proof.
  intros Hrep. unfold finish_edit.
  destruct (consume_rest_ok s nv nd cr Hrep) as (s1 & nv1 & nd1 & cr1 & k & -> & [Hrep1 -> Hc Hra] & _ & _).
  cbn [mbind option_bind]. destruct Hrep1 as [Hr _ Hv Hd Hnv Hnd Hids Hfr Hrest Hpatch].
  destruct s1 as [[[p d] up] [off nf ni sl] r fs pa ra].
  unfold old_start, new_fragments, with_start in *.
  cbn [old_fragments start upcoming ts_visible ts_deleted fragment_start es_new new_ropes in_fragments edits_patch
       edit_ranges] in *.
  rewrite Nat.sub_diag, drop_0 in Hrest.
  unfold append_slice, suffix. cbn [old_fragments upcoming new_ropes es_new].
  rewrite summary_text, Hr, builder_append_ok by lia. cbn [mbind option_bind].
  simpl new_ropes. rewrite finish_ok by lia. cbn [mbind option_bind].
  rewrite !(drop_ge _ (_ + _)), !app_nil_r by lia. eexists. split; [done|].
  cbn [le_fragments le_visible_text le_deleted_text le_patch le_ranges]. simpl (new_fragments _).
  rewrite !(firstn_all2 (drop _ _)) by (rewrite length_drop; lia).
  split; [split|split; [|split; [|split]]].
  - exact Hids.
  - exact Hfr.
  - unfold new_fragments. simpl. rewrite vlen_app, length_app, length_drop. lia.
  - unfold new_fragments. simpl. rewrite dlen_app, length_app, length_drop. lia.
  - unfold new_fragments. simpl. rewrite cells_append by done. rewrite <- Hrest. rewrite app_assoc. f_equal. exact Hc.
  - simpl. destruct Hpatch as (a & b & k' & Hdesc & _ & Hcons & ->).
    rewrite <- (take_drop p V) at 1. rewrite Hcons, <- !app_assoc. by apply describes_app_r.
  - simpl. by destruct Hpatch as (a & b & k' & _ & ? & _).
  - exact Hra.
Qed.

(** The state before the first edit. *)
Lemma initial_rep fragments :
  buffer_ok fragments V D →
  rep (with_start (initial_state fragments V D) 0) [] [] (cells fragments V D).
Proof.
  intros [Hids Hfr Hv Hd]. split; try done.
  - unfold old_start, fragment_end, end_. simpl. destruct fragments; simpl; lia.
  - exists [], [], []. split_and!; [constructor|done..].
Qed.
Lemma local_edit_ok fragments edits :
  buffer_ok fragments V D → edits ≠ [] → edits_valid 0 0 (clip_edits V edits) →
  ∃ r, apply_local_edit MAX_INSERTION_LEN ts fragments V D edits = Some r ∧
    describes 0 0 (le_patch r) V (le_visible_text r) ∧ normalized (le_patch r) ∧
    buffer_ok (le_fragments r) (le_visible_text r) (le_deleted_text r) ∧
    edited ts 0 0 0 (clip_edits V edits) (le_ranges r)
      (cells fragments V D) (cells (le_fragments r) (le_visible_text r) (le_deleted_text r)).
Proof.
  intros Hok Hne Hval. unfold apply_local_edit, clip_edits in *. destruct edits as [|e0 edits]; [done|].
  change (edit_to_offset V <$> e0 :: edits) with (edit_to_offset V e0 :: (edit_to_offset V <$> edits)) in *.
  generalize dependent (edit_to_offset V <$> edits). generalize (edit_to_offset V e0). clear e0 edits Hne. intros e edits Hval. cbv zeta.
  cbn [head mbind option_bind]. pose proof Hval as [[Hr He _ _] _]. cbn in Hr, He.
  destruct (slice_to_ok (initial_state fragments V D) [] [] _ (e_start e) (initial_rep _ Hok))
    as (s1 & nv1 & nd1 & cr1 & k1 & -> & Hm1 & Hp1 & Ho1); [simpl; lia|].
  cbn [mbind option_bind].
  destruct (moves_positions _ _ _ _ _ _ _ _ _ _ (initial_rep _ Hok) Hm1) as [Hfs1 Hfp1].
  destruct Hm1 as [Hrep1 Hcr1 Hc1 Hra1]. change (cells_done s1 nv1 nd1 = k1) in Hc1.
  change (edit_ranges s1 = []) in Hra1.
  destruct (local_steps_ok s1 nv1 nd1 cr1 (normalize_edit <$> e :: edits) Hrep1)
    as (s2 & nv2 & nd2 & cr2 & p & ranges & -> & Hrep2 & Hc2 & Hra2 & Hed).
  { rewrite Ho1. destruct Hval as [[_ ? ? ?] ?]. split; [|done]. split; try done. cbn. lia. }
  cbn [mbind option_bind]. destruct (finish_edit_ok s2 nv2 nd2 cr2 Hrep2) as (r & -> & Hbok & Hcells & Hd & Hn & Hra).
  exists r. split_and!; try done.
  rewrite Hcells, Hc2, Hc1, Hcr1, Hra, Hra2, Hra1, <- !app_assoc. cbn [app].
  apply edited_keep. rewrite Hfs1, Hfp1, Ho1 in Hed. exact Hed.
Qed.

End proofs.

(** ** Properties *)

(** The edits are in order, do not overlap, and their texts are not too long;
    their ranges may end beyond the text or inside a character. *)
Fixpoint edits_in_order (off pos : nat) (edits : list TextEdit) : Prop :=
  match edits with
  | [] => True
  | e :: edits =>
      (pos ≤ e_start e ≤ e_end e ∧ short_chars (e_text e) ∧ is_u32 (N.of_nat (off + length (e_text e)))) ∧
      edits_in_order (off + length (e_text e)) (e_end e) edits
  end.
Definition edits_ordered (edits : list TextEdit) : Prop := edits_in_order 0 0 (normalize_edit <$> edits).
Definition on_boundaries (V : Text) (e : TextEdit) : Prop :=
  is_char_boundary V (e_start e) = true ∧ is_char_boundary V (e_end e) = true.

Lemma length_clip V edits : length (clip_edits V edits) = length edits.
Proof. unfold clip_edits. by rewrite !length_fmap. Qed.

(** Clipping keeps the order and leaves ranges on boundaries alone. *)
Lemma clip_valid_from V off pos edits : edits_in_order off pos (normalize_edit <$> edits) →
  edits_valid V off (floor_char_boundary V pos) (clip_edits V edits).
Proof.
  revert off pos. induction edits as [|e edits IH]; intros off pos; [done|]. intros [([H1 H2] & H3 & H4) H]. split; [|by apply IH].
  cbn in *. split; cbn; [by split; apply floor_mono|apply floor_le|done..].
Qed.

Lemma clip_valid V edits : edits_ordered edits → edits_valid V 0 0 (clip_edits V edits).
Proof.
  intros H%(clip_valid_from V). assert (floor_char_boundary V 0 = 0) as E by by apply boundary_floor. by rewrite E in H.
Qed.

Lemma clip_exact V edits : Forall (on_boundaries V) edits → clip_edits V edits = normalize_edit <$> edits.
Proof.
  induction 1 as [|e edits [H1 H2] _ IH]; [done|]. unfold clip_edits in *. rewrite !fmap_cons, IH. f_equal.
  unfold normalize_edit, edit_to_offset. cbn. by rewrite !boundary_floor.
Qed.

Lemma clip_boundaries V edits : Forall (on_boundaries V) (clip_edits V edits).
Proof.
  apply Forall_fmap, Forall_fmap, Forall_true. intros e. split; apply floor_boundary.
Qed.

(** Replacing ranges on boundaries of valid text by valid texts gives valid text. *)
Lemma splice_utf8 V off pos edits : edits_valid V off pos edits → Forall (on_boundaries V) edits →
  Forall (λ e, Utf8.utf8 (e_text e)) edits → Utf8.utf8 V → is_char_boundary V pos = true →
  Utf8.utf8 (splice pos edits (drop pos V)).
Proof.
  intros Hval Hb Ht HV. revert off pos Hval. induction edits as [|e edits IH]; intros off pos Hval Hp; cbn [splice].
  - by apply ChunkBits.utf8_split.
  - apply Forall_cons in Hb as [[Hs He] Hb], Ht as [Ht1 Ht]. destruct Hval as [[[H1 H2] H3 _ _] Hval].
    rewrite drop_drop. replace (pos + (e_end e - pos)) with (e_end e) by lia.
    apply ChunkBits.utf8_app; [|apply ChunkBits.utf8_app; [done|by eapply IH]].
    rewrite firstn_skipn_comm. replace (pos + (e_start e - pos)) with (e_start e) by lia.
    apply ChunkBits.utf8_split; [by apply ChunkBits.utf8_split|by apply ChunkBits.boundary_take].
Qed.

(** C10: a local edit of a well-formed buffer succeeds (no assertion, unwrap or
    subtraction fails) for any non-empty list of edits in order with at most
    [u32::MAX] bytes of new text.  The ends of their ranges are first rounded down to character boundaries of the visible text, which
    changes nothing for ranges on boundaries; the new visible text is the old
    one with these ranges replaced, and valid UTF-8 again; the
    published patch is in normal form and leads from the old text to the new
    one, the buffer stays well formed, and the cells change only as specified:
    new cells are inserted before those of the replaced range, the visible
    cells of the range are deleted, and the ranges of the operation are their
    positions among all old cells. *)
Theorem local_edit_refines max ts fragments V D edits :
  (4 ≤ max ≤ u32_max)%N → buffer_ok fragments V D → edits ≠ [] → edits_ordered edits →
  ∃ r, apply_local_edit max ts fragments V D edits = Some r ∧
    le_visible_text r = splice 0 (clip_edits V edits) V ∧
    (Forall (on_boundaries V) edits → clip_edits V edits = normalize_edit <$> edits) ∧
    (Utf8.utf8 V → Forall (λ e, Utf8.utf8 (e_text e)) edits → Utf8.utf8 (le_visible_text r)) ∧
    describes 0 0 (le_patch r) V (le_visible_text r) ∧ normalized (le_patch r) ∧
    buffer_ok (le_fragments r) (le_visible_text r) (le_deleted_text r) ∧
    edited ts 0 0 0 (clip_edits V edits) (le_ranges r)
      (cells fragments V D) (cells (le_fragments r) (le_visible_text r) (le_deleted_text r)).
Proof.
  intros Hmax Hok Hne Hord. pose proof (clip_valid V edits Hord) as Hval.
  destruct (local_edit_ok max Hmax ts V D fragments edits Hok Hne Hval) as (r & Hr & Hd & Hn & Hbok & Hedit).
  assert (le_visible_text r = splice 0 (clip_edits V edits) V) as Hs.
  { pose proof (edited_splice _ _ _ _ _ _ _ _ Hedit) as Hs. destruct Hok as [_ _ Hv Hdl]. destruct Hbok as [_ _ Hv' Hd'].
    destruct (cells_texts fragments V D) as [Hb _]; [lia..|].
    destruct (cells_texts (le_fragments r) (le_visible_text r) (le_deleted_text r)) as [Hb' _]; [lia..|].
    rewrite Hb, Hb', Hv, Hv', !firstn_all in Hs. exact Hs. }
  exists r. split_and!; try done; [apply clip_exact|]. intros HV Ht. rewrite Hs.
  apply (splice_utf8 V 0 0); try done; [apply clip_boundaries|].
  apply Forall_fmap, Forall_fmap. eapply Forall_impl; [exact Ht|]. intros e. apply ChunkBits.normalize_utf8.
Qed.

(** ** A concrete edit *)
Module LocalEditExamples.

Definition id_ (d : Z) : Locator := Locator.mkLocator [d].
Definition ins (v : N) : Lamport := mkLamport v 1.

(** "hello" of one insertion, its "l" deleted, and the deleted "XY" of another. *)
Definition fragments : list Fragment :=
  [mkFragment (id_ 5) (ins 1) 0 2 true [] new_global;
   mkFragment (id_ 7) (ins 1) 2 1 false [ins 3] new_global;
   mkFragment (id_ 8) (ins 1) 3 2 true [] new_global;
   mkFragment (id_ 9) (ins 2) 0 2 false [ins 3] new_global].
Definition v_text : Text := [x68; x65; x6c; x6f].
Definition d_text : Text := [x6c; x58; x59].

Lemma fragments_ok : buffer_ok fragments v_text d_text.
Proof.
  split; [split| |done|done].
  - repeat constructor.
  - repeat constructor; by apply (bool_decide_unpack _) || (eexists; split; [reflexivity|done]).
  - repeat constructor.
  - repeat constructor; simpl; done || lia.
Defined.

Definition edits : list TextEdit :=
  [mkTextEdit 0 0 [x41; CR; LF]; mkTextEdit 1 3 [x42]; mkTextEdit 4 4 [x43]].

Lemma short_small t : length t < 4 → short_chars t.
Proof. intros H i Hi. lia. Defined.

(** Three edits, one of them across the deleted "l". *)
Example edit_run :
  (λ r, (le_visible_text r, le_deleted_text r, le_ranges r)) <$> apply_local_edit 16 (ins 5) fragments v_text d_text edits =
    Some ([x41; LF; x68; x42; x6f; x43], [x65; x6c; x6c; x58; x59], [(0, 0); (1, 4); (5, 5)]).
Proof. vm_compute. reflexivity. Qed.

(** A range that starts inside a character and ends beyond the text. *)
Example clipped_run :
  le_visible_text <$> apply_local_edit 16 (ins 5) [mkFragment (id_ 5) (ins 1) 0 3 true [] new_global] [x61; xc3; xa9] []
    [mkTextEdit 2 9 [x58]] = Some [x61; x58].
Proof. vm_compute. reflexivity. Qed.

Example local_edit_refines_witness :
  ∃ r, apply_local_edit 16 (ins 5) fragments v_text d_text edits = Some r ∧
    le_visible_text r = splice 0 (clip_edits v_text edits) v_text ∧
    (Forall (on_boundaries v_text) edits → clip_edits v_text edits = normalize_edit <$> edits) ∧
    (Utf8.utf8 v_text → Forall (λ e, Utf8.utf8 (e_text e)) edits → Utf8.utf8 (le_visible_text r)) ∧
    describes 0 0 (le_patch r) v_text (le_visible_text r) ∧ normalized (le_patch r) ∧
    buffer_ok (le_fragments r) (le_visible_text r) (le_deleted_text r) ∧
    edited (ins 5) 0 0 0 (clip_edits v_text edits) (le_ranges r)
      (cells fragments v_text d_text) (cells (le_fragments r) (le_visible_text r) (le_deleted_text r)).
Proof.
  apply (local_edit_refines 16 (ins 5) fragments v_text d_text edits); [done|apply fragments_ok|done|].
  repeat split; simpl; try lia; try done; by apply short_small; simpl; lia.
Defined.

End LocalEditExamples.
