(* ===== verification/Undo.v ===== *)
(** * Undoing and redoing ([Buffer::apply_undo] of [crates/text/src/text.rs])

    An undo operation raises the undo counts of some edits.  The fragments
    those edits inserted or deleted are found through two indices, and their
    visibility is recomputed in one pass that also builds the patch. *)

From S2P Require Import Prelude Clock Text SumTree Cursor Search KeyedTree UndoMap Patch Fragment Cells BufferInv.
From S2P Require Locator TreeMap.

(** ** The two indices *)

(** [Ord for InsertionSlice]. *)
#[export] Instance InsertionSlice_Ord : Ord InsertionSlice.
Proof.
  refine (inj_Ord (λ s, (slice_edit_id s, (slice_insertion_id s, (slice_start s, slice_end s)))) _).
  by intros [????] [????] [= -> -> -> ->].
Defined.

(** [TreeSet<InsertionSlice>]. *)
Abbreviation SliceSet := (Node (TreeMap.MapEntry InsertionSlice ()) (option InsertionSlice)).

Record InsertionFragmentKey := mkInsertionKey { k_timestamp : Lamport; k_split_offset : nat }.
#[export] Instance InsertionFragmentKey_Ord : Ord InsertionFragmentKey.
Proof. refine (inj_Ord (λ k, (k_timestamp k, k_split_offset k)) _). by intros [??] [??] [= -> ->]. Defined.

Definition zero_insertion_key : InsertionFragmentKey := mkInsertionKey LAMPORT_MIN 0.
#[export, refine] Instance InsertionFragmentKey_Summary : Summary InsertionFragmentKey :=
  {| zero := zero_insertion_key; add := λ _ k, k |}.
Proof. all: done. Defined.
#[export] Instance InsertionFragment_Item : Item InsertionFragment InsertionFragmentKey :=
  {| summary := λ f, mkInsertionKey (if_timestamp f) (split_offset f) |}.
#[export, refine] Instance InsertionFragmentKey_Dimension : Dimension InsertionFragmentKey InsertionFragmentKey :=
  {| dzero := zero_insertion_key; dadd := λ _ k, k |}.
Proof. all: done. Defined.
#[export, refine] Instance InsertionFragment_KeyedItem : KeyedItem InsertionFragment InsertionFragmentKey :=
  {| key := λ f, mkInsertionKey (if_timestamp f) (split_offset f) |}.
Proof. done. Defined.

Abbreviation InsertionTree := (Node InsertionFragment InsertionFragmentKey).
Abbreviation InsertionCursor := (@Cursor InsertionFragmentKey InsertionFragment InsertionFragmentKey).

(** ** [fragment_ids_for_edits] *)

(** The slices of one edit: [iter_from(..).take_while(..)]. *)
Definition slices_of_edit (slices : SliceSet) (edit_id : Lamport) : option (list InsertionSlice) :=
  l ← TreeMap.iter_from slices (mkInsertionSlice edit_id LAMPORT_MIN 0 0);
  let fix take_while (l : list InsertionSlice) :=
    match l with
    | s :: l => if decide (slice_edit_id s = edit_id) then s :: take_while l else []
    | [] => []
    end in
  Some (take_while l.*1).

Fixpoint slices_of_edits (slices : SliceSet) (edit_ids : list Lamport) : option (list InsertionSlice) :=
  match edit_ids with
  | [] => Some []
  | e :: edit_ids => l ← slices_of_edit slices e; k ← slices_of_edits slices edit_ids; Some (l ++ k)
  end.

(** [sort_unstable_by_key]: by insertion, start, and longest first. *)
Definition slice_le (s t : InsertionSlice) : Prop :=
  ((slice_insertion_id s, (slice_start s, slice_end t)) ≼ (slice_insertion_id t, (slice_start t, slice_end s)))%ord.
#[export] Instance slice_le_dec : RelDecision slice_le.
Proof. unfold slice_le. intros ??. apply _. Defined.

(** The [while] loop over the insertion fragments of one slice. *)
Fixpoint collect_ids (fuel : nat) (s : InsertionSlice) (c : InsertionCursor) (ids : list Locator)
    : option (InsertionCursor * list Locator) :=
  match fuel with
  | O => None
  | S fuel =>
      it ← cursor_item c;
      match it with
      | Some i =>
          if bool_decide (if_timestamp i ≠ slice_insertion_id s) || (slice_end s <=? split_offset i) then Some (c, ids)
          else c' ← Cursor.next c; collect_ids fuel s c' (ids ++ [fragment_id i])
      | None => Some (c, ids)
      end
  end.

Fixpoint ids_of_slices (insertion_count : nat) (slices : list InsertionSlice) (c : InsertionCursor) (ids : list Locator)
    : option (list Locator) :=
  match slices with
  | [] => Some ids
  | s :: slices =>
      let insertion_id := slice_insertion_id s in
      c ← (if bool_decide (insertion_id ≠ k_timestamp (Cursor.start c)) || (k_split_offset (Cursor.start c) <? slice_start s)
           then fst <$> seek_forward (cmp (mkInsertionKey insertion_id (slice_start s))) Left c
           else Some c);
      '(c, ids) ← collect_ids (S insertion_count) s c ids;
      ids_of_slices insertion_count slices c ids
  end.

Definition fragment_ids_for_edits (slices : SliceSet) (insertions : InsertionTree) (edit_ids : list Lamport)
    : option (list Locator) :=
  slices ← slices_of_edits slices edit_ids;
  ids ← ids_of_slices (length (items insertions)) (merge_sort slice_le slices) (cursor_new insertions) [];
  Some (merge_sort (λ i j : Locator, i ≼ j)%ord ids).

(** ** [apply_undo] *)

(** [Dimensions<Option<&Locator>, usize>]. *)
Abbreviation IdPosition := (option Locator * nat)%type.
Definition add_id_position (d : IdPosition) (f : Fragment) : IdPosition :=
  (Some (f_id f), d.2 + ts_visible (fragment_text f)).
(** Seeking [Some(id)] with [Bias::Left]. *)
Definition past_id (i : Locator) (d : IdPosition) : bool :=
  match d.1 with Some j => ltb j i | None => true end.

Record UndoState := mkUndoState {
  u_old : FragmentCursor (D := IdPosition);
  u_new : list Fragment;
  u_ropes : RopeBuilder;
  u_patch : Patch;
}.

Section apply_undo.
Context (undo_map : UndoTree) (undo_timestamp : Lamport).

(** The fragment with its visibility recomputed. *)
Definition refresh (f : Fragment) : option Fragment :=
  v ← is_visible f undo_map;
  Some (mkFragment (f_id f) (f_timestamp f) (insertion_offset f) (f_len f) v (deletions f)
          (observe (max_undos f) undo_timestamp)).

Definition undo_slice (s : UndoState) (sl : list Fragment) (c : FragmentCursor) : option UndoState :=
  r ← builder_append (u_ropes s) (fs_text (summary_of sl));
  Some (mkUndoState c (u_new s ++ sl) r (u_patch s)).

Definition undo_edit (old_start new_start len : nat) (was_visible is_visible : bool) : option Edit :=
  if was_visible && negb is_visible then
    Some (mkEdit (mkRange old_start (old_start + len)) (mkRange new_start new_start))
  else if negb was_visible && is_visible then
    Some (mkEdit (mkRange old_start old_start) (mkRange new_start (new_start + len)))
  else None.

Definition undo_fragment (s : UndoState) (f : Fragment) : option UndoState :=
  f' ← refresh f;
  let old_start := (start (u_old s)).2 in
  let new_start := ts_visible (fs_text (summary_of (u_new s))) in
  let p := match undo_edit old_start new_start (f_len f') (visible f) (visible f') with
           | Some e => push (u_patch s) e
           | None => u_patch s
           end in
  r ← push_fragment (u_ropes s) f' (visible f);
  Some (mkUndoState (next add_id_position (u_old s)) (u_new s ++ [f']) r p).

Definition undo_step (s : UndoState) (i : Locator) : option UndoState :=
  let '(sl, c) := slice add_id_position (past_id i) (u_old s) in
  s ← undo_slice s sl c;
  match item (u_old s) with Some f => undo_fragment s f | None => Some s end.

Fixpoint undo_steps (s : UndoState) (ids : list Locator) : option UndoState :=
  match ids with [] => Some s | i :: ids => s ← undo_step s i; undo_steps s ids end.

Record UndoResult := mkUndoResult {
  ur_fragments : list Fragment;
  ur_visible_text : Text;
  ur_deleted_text : Text;
  ur_patch : Patch;
}.

(** [apply_undo] after the undo map is updated and the ids are found. *)
Definition undo_fragments (fragments : list Fragment) (visible_text deleted_text : Text) (ids : list Locator)
    : option UndoResult :=
  let s := mkUndoState (cursor (None, 0) fragments) []
             (new_builder (mkRopeCursor visible_text 0) (mkRopeCursor deleted_text 0)) [] in
  s ← undo_steps s ids;
  let sl := suffix (u_old s) in
  s ← undo_slice s sl (u_old s);
  '(visible_text, deleted_text) ← finish (u_ropes s);
  Some (mkUndoResult (u_new s) visible_text deleted_text (u_patch s)).
End apply_undo.

Definition apply_undo (TREE_BASE : nat) (fragments : list Fragment) (visible_text deleted_text : Text)
    (undo_map : UndoTree) (slices : SliceSet) (insertions : InsertionTree) (undo : UndoMap.UndoOperation)
    : option (UndoTree * UndoResult) :=
  undo_map ← UndoMap.insert_undo TREE_BASE undo_map undo;
  ids ← fragment_ids_for_edits slices insertions (map_to_list (UndoMap.counts undo)).*1;
  r ← undo_fragments undo_map (UndoMap.timestamp undo) fragments visible_text deleted_text ids;
  Some (undo_map, r).

(** ** The pass over the fragments *)

Definition same_byte (c c' : Cell) : Prop :=
  c_timestamp c = c_timestamp c' ∧ c_offset c = c_offset c' ∧ c_byte c = c_byte c' ∧ c_deletions c = c_deletions c'.

Section pass.
Context (m : UndoTree) (ts : Lamport) (all_ids : list Locator) (V D : Text).

(** What may happen to a fragment, and what must happen to those listed. *)
Definition updated (f f' : Fragment) : Prop :=
  refresh m ts f = Some f' ∨ (f' = f ∧ f_id f ∉ all_ids).

Record urep (s : UndoState) (l : list Fragment) (nv nd : Text) : Prop := {
  u_start : (start (u_old s)).2 = vlen l;
  u_cursor : u_ropes s = builder V D (vlen l) (dlen l) nv nd;
  u_vlen : vlen l + vlen (upcoming (u_old s)) = length V;
  u_dlen : dlen l + dlen (upcoming (u_old s)) = length D;
  u_nv : vlen (u_new s) = length nv;
  u_nd : dlen (u_new s) = length nd;
  u_updated : Forall2 updated l (u_new s);
  u_cells : Forall2 same_byte (cells l V D) (cells (u_new s) nv nd);
  u_patch_ok : patch_ok (u_patch s) (take (vlen l) V) nv;
}.

Lemma same_bytes_refl l : Forall2 same_byte l l.
Proof. induction l; constructor; done. Qed.

(** The old cells of a longer prefix. *)
Lemma cells_prefix l k :
  vlen (l ++ k) ≤ length V → dlen (l ++ k) ≤ length D →
  cells (l ++ k) V D =
    cells l V D ++ cells k (take (vlen k) (drop (vlen l) V)) (take (dlen k) (drop (dlen l) D)).
Proof.
  rewrite vlen_app, dlen_app. intros Hv Hd. rewrite cells_app. f_equal.
  rewrite <- (take_drop (vlen k) (drop (vlen l) V)) at 1. rewrite <- (take_drop (dlen k) (drop (dlen l) D)) at 1.
  apply cells_ext; rewrite length_take, length_drop; lia.
Qed.

Lemma undo_slice_ok s l nv nd sl c :
  urep s l nv nd → upcoming (u_old s) = sl ++ upcoming c → (start c).2 = vlen l + vlen sl →
  Forall (λ f, f_id f ∉ all_ids) sl →
  ∃ s' nv' nd', undo_slice s sl c = Some s' ∧ urep s' (l ++ sl) nv' nd' ∧ u_old s' = c ∧
    u_new s' = u_new s ++ sl.
Proof.
  intros [Hst Hr Hv Hd Hnv Hnd Hup Hc Hp] E Hstc Hids. rewrite E, vlen_app in Hv. rewrite E, dlen_app in Hd.
  unfold undo_slice. rewrite summary_text, Hr, builder_append_ok by lia. cbn [mbind option_bind].
  do 3 eexists. split; [done|]. split; [|done].
  split; cbn [u_old u_new u_ropes u_patch].
  - by rewrite vlen_app.
  - by rewrite vlen_app, dlen_app.
  - rewrite vlen_app. lia.
  - rewrite dlen_app. lia.
  - rewrite vlen_app, length_app, length_take, length_drop. lia.
  - rewrite dlen_app, length_app, length_take, length_drop. lia.
  - apply Forall2_app; [done|]. clear -Hids. induction Hids as [|f sl Hf _ IH]; constructor; [by right|done].
  - rewrite cells_prefix by (rewrite ?vlen_app, ?dlen_app; lia). rewrite cells_append by done.
    apply Forall2_app; [done|apply same_bytes_refl].
  - rewrite vlen_app, <- take_take_drop. by apply patch_ok_keep.
Qed.

Lemma fcells_refresh f f' t : refresh m ts f = Some f' → Forall2 same_byte (fcells f t) (fcells f' t).
Proof.
  unfold refresh. destruct (is_visible f m) as [v|]; [|done]. intros [= <-].
  apply Forall2_same_length_lookup_2; [by rewrite !fcells_length|]. intros i x y.
  unfold fcells. rewrite !list_lookup_imap. destruct (t !! i); [|done]. intros [= <-] [= <-]. done.
Qed.

(** The texts before and after one fragment changes its visibility. *)
Lemma undo_patch_ok p x y t (w v : bool) :
  patch_ok p x y →
  patch_ok (match undo_edit (length x) (length y) (length t) w v with Some e => push p e | None => p end)
    (x ++ if w then t else []) (y ++ if v then t else []).
Proof.
  intros Hp. unfold undo_edit. destruct w, v; cbn [andb negb].
  - by apply patch_ok_keep.
  - pose proof (patch_ok_push p x y t [] Hp) as H. by rewrite Nat.add_0_r in H.
  - pose proof (patch_ok_push p x y [] t Hp) as H. by rewrite Nat.add_0_r in H.
  - by rewrite !app_nil_r.
Qed.

Lemma undo_fragment_ok s l nv nd f k :
  urep s l nv nd → upcoming (u_old s) = f :: k → 0 < f_len f → is_Some (is_visible f m) →
  ∃ s' nv' nd', undo_fragment m ts s f = Some s' ∧ urep s' (l ++ [f]) nv' nd' ∧ upcoming (u_old s') = k.
Proof.
  intros [Hst Hr Hv Hd Hnv Hnd Hup Hc Hp] E Hlen [v Hvis].
  unfold undo_fragment. destruct (refresh m ts f) as [f'|] eqn:Href; [|unfold refresh in Href; by rewrite Hvis in Href].
  cbn [mbind option_bind]. pose proof (fcells_refresh f f') as Hsame.
  assert (f_len f' = f_len f ∧ visible f' = v) as [Hlen' Hv'].
  { unfold refresh in Href. rewrite Hvis in Href. by injection Href as <-. }
  rewrite E, vlen_cons in Hv. rewrite E, dlen_cons in Hd. unfold push_fragment.
  rewrite Hlen', (proj2 (Nat.ltb_lt _ _) Hlen), Hr, Hst, summary_text, Hnv. cbn [ts_visible].
  set (t := if visible f then take (f_len f) (drop (vlen l) V) else take (f_len f) (drop (dlen l) D)).
  assert (length t = f_len f ∧
    builder_push (builder V D (vlen l) (dlen l) nv nd) (f_len f) (visible f) (visible f') =
      Some (builder V D (vlen (l ++ [f])) (dlen (l ++ [f])) (if visible f' then nv ++ t else nv)
              (if visible f' then nd else nd ++ t)) ∧
    take (vlen (l ++ [f])) V = take (vlen l) V ++ (if visible f then t else []) ∧
    cells (l ++ [f]) V D = cells l V D ++ fcells f t ∧ vlen (l ++ [f]) ≤ length V) as (Ht & -> & HV & Hcells & HlV).
  { unfold t. rewrite vlen_app, dlen_app, vlen_one, dlen_one, cells_app. cbn [cells].
    destruct (visible f) eqn:Ev; [rewrite (vis_text f Ev) in *|rewrite (hid_text f Ev) in *];
      cbn [ts_visible ts_deleted] in *; rewrite ?Nat.add_0_r, ?length_take, ?length_drop, ?app_nil_r.
    - split; [lia|]. rewrite push_visible_ok by lia. rewrite take_take_drop. split_and!; done || lia.
    - split; [lia|]. rewrite push_deleted_ok by lia. split_and!; done || lia. }
  cbn [mbind option_bind]. eexists _, (if visible f' then nv ++ t else nv), (if visible f' then nd else nd ++ t).
  split; [done|]. split; [|by unfold next; rewrite E].
  assert (length t = f_len f') as Ht' by congruence.
  split; cbn [u_old u_new u_ropes u_patch].
  - unfold next. rewrite E. simpl. by rewrite Hst, vlen_app, vlen_one.
  - done.
  - rewrite vlen_app, vlen_one. unfold next. rewrite E. simpl. lia.
  - rewrite dlen_app, dlen_one. unfold next. rewrite E. simpl. lia.
  - rewrite vlen_app, vlen_one. destruct (visible f') eqn:Ev;
      [rewrite (vis_text f' Ev)|rewrite (hid_text f' Ev)]; simpl; rewrite ?length_app; lia.
  - rewrite dlen_app, dlen_one. destruct (visible f') eqn:Ev;
      [rewrite (vis_text f' Ev)|rewrite (hid_text f' Ev)]; simpl; rewrite ?length_app; lia.
  - apply Forall2_app; [done|]. constructor; [by left|constructor].
  - rewrite Hcells, (cells_snoc (u_new s) f' nv nd t Hnv Hnd Ht'). apply Forall2_app; [done|]. by apply Hsame.
  - pose proof (undo_patch_ok _ _ _ t (visible f) (visible f') Hp) as Hp'.
    rewrite length_take, Nat.min_l, Ht, <- HV in Hp' by lia. by destruct (visible f'); rewrite ?app_nil_r in Hp'.
Qed.

Lemma slice_id_ok i o p l :
  let '(sk, c) := slice_from add_id_position (past_id i) (o, p) l in
  l = sk ++ upcoming c ∧ (start c).2 = p + vlen sk ∧ Forall (λ f, id_lt (f_id f) i) sk ∧
  (∀ f, item c = Some f → ¬ id_lt (f_id f) i).
Proof.
  revert o p. induction l as [|f l IH]; intros o p; cbn [slice_from].
  { unfold vlen. simpl. rewrite Nat.add_0_r. split_and!; [done|done|constructor|done]. }
  unfold add_id_position at 1, past_id at 1. cbn [fst].
  destruct (ltb (f_id f) i) eqn:Hb.
  - apply ltb_lt in Hb. unfold add_id_position at 2. cbn [snd].
    specialize (IH (Some (f_id f)) (p + ts_visible (fragment_text f))).
    destruct (slice_from _ _ _ l) as [sk c]. destruct IH as (-> & Hst & Hf & Hi).
    split_and!; [done|by rewrite Hst, vlen_cons, Nat.add_assoc|by constructor|done].
  - unfold vlen. simpl. rewrite Nat.add_0_r. split_and!; [done|done|constructor|].
    intros g [= <-] Hlt. apply ltb_lt in Hlt. congruence.
Qed.

Definition id_le (i j : Locator) : Prop := (i ≼ j)%ord.

(** One id: everything before it is kept, the fragment found is refreshed. *)
Lemma undo_step_ok s l nv nd i :
  urep s l nv nd → StronglySorted id_lt (ids (upcoming (u_old s))) →
  (∀ f, f ∈ upcoming (u_old s) → id_lt (f_id f) i → f_id f ∉ all_ids) →
  Forall (λ f, 0 < f_len f ∧ is_Some (is_visible f m)) (upcoming (u_old s)) →
  ∃ s' nv' nd' x, undo_step m ts s i = Some s' ∧ urep s' (l ++ x) nv' nd' ∧
    upcoming (u_old s) = x ++ upcoming (u_old s') ∧
    (∀ f, f ∈ upcoming (u_old s') → id_lt i (f_id f)).
Proof.
  intros Hrep Hsort Hbefore Hok. unfold undo_step, slice. destruct (u_old s) as [[o p] up] eqn:Eold.
  cbn [start upcoming] in *. pose proof (slice_id_ok i o p up) as Hsl.
  destruct (slice_from _ _ _ up) as [sk c]. destruct Hsl as (-> & Hst & Hlt & Hitem).
  destruct (undo_slice_ok s l nv nd sk c Hrep) as (s1 & nv1 & nd1 & -> & Hrep1 & Hold1 & _).
  { by rewrite Eold. }
  { rewrite Hst. pose proof (u_start _ _ _ _ Hrep) as Hs. rewrite Eold in Hs. cbn in Hs. by rewrite Hs. }
  { apply Forall_forall. intros f Hf. rewrite Forall_forall in Hlt. apply Hbefore; [|by apply Hlt].
    apply elem_of_app. by left. }
  cbn [mbind option_bind]. rewrite Hold1. unfold item in *. rewrite ids_app, sorted_app_inv in Hsort.
  destruct Hsort as (_ & Hs2 & _). apply Forall_app in Hok as [_ Hok].
  destruct (upcoming c) as [|f k] eqn:Ec; cbn [head] in *.
  { exists s1, nv1, nd1, sk. split_and!; [done|done|by rewrite Hold1, Ec|].
    rewrite Hold1, Ec. by intros f ?%elem_of_nil. }
  apply Forall_cons in Hok as [[Hlen Hvis] Hok]. apply StronglySorted_inv in Hs2 as [_ Hgt].
  destruct (undo_fragment_ok s1 (l ++ sk) nv1 nd1 f k Hrep1) as (s2 & nv2 & nd2 & -> & Hrep2 & Hk);
    [by rewrite Hold1|done|done|].
  exists s2, nv2, nd2, (sk ++ [f]). split_and!; [done|by rewrite app_assoc|by rewrite Hk, <- app_assoc|].
  rewrite Hk. intros g Hg. rewrite Forall_forall in Hgt.
  eapply cmp_le_lt_trans; [apply cmp_not_lt_le, (Hitem f eq_refl)|]. apply Hgt. by apply list_elem_of_fmap_2.
Qed.

Lemma undo_steps_ok idl s l nv nd :
  urep s l nv nd → StronglySorted id_le idl → StronglySorted id_lt (ids (upcoming (u_old s))) →
  (∀ f, f ∈ upcoming (u_old s) → f_id f ∈ all_ids → f_id f ∈ idl) →
  Forall (λ f, 0 < f_len f ∧ is_Some (is_visible f m)) (upcoming (u_old s)) →
  ∃ s' nv' nd' x, undo_steps m ts s idl = Some s' ∧ urep s' (l ++ x) nv' nd' ∧
    upcoming (u_old s) = x ++ upcoming (u_old s') ∧
    Forall (λ f, f_id f ∉ all_ids) (upcoming (u_old s')).
Proof.
  revert s l nv nd. induction idl as [|i idl IH]; intros s l nv nd Hrep Hids Hsort Hall Hok.
  { exists s, nv, nd, []. rewrite app_nil_r. split_and!; [done..|]. apply Forall_forall. intros f Hf Hin.
    apply (elem_of_nil (f_id f)). by apply Hall. }
  apply StronglySorted_inv in Hids as [Hids Hge]. rewrite Forall_forall in Hge. cbn [undo_steps].
  destruct (undo_step_ok s l nv nd i Hrep Hsort) as (s1 & nv1 & nd1 & l1 & -> & Hrep1 & Heq & Hgt); [|done|].
  { intros f Hf Hlt Hin. apply (cmp_lt_irrefl (f_id f)). specialize (Hall f Hf Hin).
    eapply cmp_lt_le_trans; [exact Hlt|]. apply elem_of_cons in Hall as [->|Hin2]; [apply cmp_le_refl|by apply Hge]. }
  cbn [mbind option_bind].
  rewrite Heq, ids_app, sorted_app_inv in Hsort. destruct Hsort as (_ & Hsort & _).
  rewrite Heq in Hok. apply Forall_app in Hok as [_ Hok].
  destruct (IH s1 (l ++ l1) nv1 nd1 Hrep1 Hids Hsort) as (s2 & nv2 & nd2 & x & -> & Hrep2 & Heq2 & Hnone); [|done|].
  { intros f Hf Hin. assert (f_id f ∈ i :: idl) as [E|?]%elem_of_cons; [|  |done].
    - apply Hall; [|done]. rewrite Heq. apply elem_of_app. by right.
    - exfalso. specialize (Hgt f Hf). rewrite E in Hgt. by apply (cmp_lt_irrefl i). }
  exists s2, nv2, nd2, (l1 ++ x). split_and!; [done|by rewrite app_assoc|by rewrite Heq, Heq2, <- app_assoc|done].
Qed.

Lemma undo_fragments_ok fragments :
  StronglySorted id_le all_ids → buffer_ok fragments V D →
  Forall (λ f, is_Some (is_visible f m)) fragments →
  ∃ r, undo_fragments m ts fragments V D all_ids = Some r ∧
    Forall2 updated fragments (ur_fragments r) ∧
    vlen (ur_fragments r) = length (ur_visible_text r) ∧ dlen (ur_fragments r) = length (ur_deleted_text r) ∧
    Forall2 same_byte (cells fragments V D) (cells (ur_fragments r) (ur_visible_text r) (ur_deleted_text r)) ∧
    describes 0 0 (ur_patch r) V (ur_visible_text r) ∧ normalized (ur_patch r).
Proof.
  intros Hsorted [Hids Hfr Hv Hd] Hvis. unfold undo_fragments.
  set (s0 := mkUndoState _ _ _ _).
  assert (urep s0 [] [] []) as Hrep0.
  { split; unfold s0; cbn; try done. exists [], [], []. split_and!; [constructor|split; [done|constructor]|done..]. }
  destruct (undo_steps_ok all_ids s0 [] [] [] Hrep0 Hsorted) as (s1 & nv1 & nd1 & x & -> & Hrep1 & Heq1 & Hnone).
  { apply Hids. }
  { done. }
  { unfold s0. cbn. apply Forall_and. split; [|done]. eapply Forall_impl; [exact Hfr|]. by intros ? []. }
  cbn [mbind option_bind]. cbn [app] in Hrep1. unfold suffix.
  change (fragments = x ++ upcoming (u_old s1)) in Heq1.
  assert (Forall2 same_byte (cells (x ++ upcoming (u_old s1)) V D)
    (cells (u_new s1 ++ upcoming (u_old s1)) (nv1 ++ drop (vlen x) V) (nd1 ++ drop (dlen x) D))) as Hcells.
  { rewrite cells_app, cells_append by apply Hrep1. apply Forall2_app; [apply Hrep1|apply same_bytes_refl]. }
  destruct Hrep1 as [Hst Hr Hv1 Hd1 Hnv Hnd Hup Hc Hp].
  unfold undo_slice. rewrite summary_text, Hr, builder_append_ok by lia. cbn [mbind option_bind u_ropes].
  rewrite finish_ok by lia. cbn [mbind option_bind].
  rewrite !(drop_ge _ (_ + _)), !app_nil_r by lia.
  rewrite !(firstn_all2 (drop _ _)) by (rewrite length_drop; lia).
  eexists. split; [done|]. cbn [ur_fragments ur_visible_text ur_deleted_text ur_patch u_new u_patch].
  rewrite <- Heq1 in Hcells. split_and!; [| | |exact Hcells|..].
  - rewrite Heq1. apply Forall2_app; [exact Hup|]. clear -Hnone. induction Hnone as [|f k Hf _ IH]; constructor; [by right|done].
  - rewrite vlen_app, length_app, length_drop. lia.
  - rewrite dlen_app, length_app, length_drop. lia.
  - destruct Hp as (a & b & k & Hdesc & _ & Hcons & ->).
    rewrite <- (take_drop (vlen x) V) at 1. rewrite Hcons, <- !app_assoc. by apply describes_app_r.
  - by destruct Hp as (a & b & k & _ & ? & _).
Qed.

Lemma updated_same f f' :
  updated f f' → f_id f' = f_id f ∧ insertion_offset f' = insertion_offset f ∧ f_len f' = f_len f ∧
    f_timestamp f' = f_timestamp f ∧ deletions f' = deletions f.
Proof.
  intros [H|[-> _]]; [|done]. unfold refresh in H. destruct (is_visible f m); [|done]. by injection H as <-.
Qed.

Lemma updated_ids l l' : Forall2 updated l l' → ids l = ids l'.
Proof. unfold ids. induction 1 as [|f f' l l' Hf _ IH]; [done|]. cbn. f_equal; [symmetry; apply (updated_same f f' Hf)|exact IH]. Qed.

Lemma updated_frags l l' : Forall2 updated l l' → Forall frag_ok l → Forall frag_ok l'.
Proof.
  induction 1 as [|f f' l l' Hf _ IH]; [done|]. intros [[? ?] ?]%Forall_cons. constructor; [|auto].
  destruct (updated_same f f' Hf) as (_ & Ho & Hl & _). unfold frag_ok. by rewrite Ho, Hl.
Qed.

Lemma is_visible_updated f f' : updated f f' → is_visible f' m = is_visible f m.
Proof. intros Hf. destruct (updated_same f f' Hf) as (_ & _ & _ & Ht & Hd). unfold is_visible. by rewrite Ht, Hd. Qed.

Lemma updated_visible f f' :
  updated f f' → f_id f ∈ all_ids ∨ is_visible f m = Some (visible f) → is_visible f' m = Some (visible f').
Proof.
  intros Hf Hor. rewrite (is_visible_updated f f' Hf). destruct Hf as [H|[-> Hni]]; [|naive_solver].
  unfold refresh in H. destruct (is_visible f m) as [v|]; [|done]. by injection H as <-.
Qed.
End pass.

(** ** Visibility is always defined on a well-formed undo map *)

Section defined.
Context (TREE_BASE : nat) (m : UndoTree) (Hw : walkable TREE_BASE m) (Hs : ksorted (items m)).

(** An edit is undone when its largest undo count is odd. *)
Definition odd_count (id : Lamport) : bool := N.odd (UndoMap.max_count (λ _, true) id (items m)).

Lemma is_undone_spec id : UndoMap.is_undone m id = Some (odd_count id).
Proof.
  unfold UndoMap.is_undone, UndoMap.map_undo_count.
  rewrite (UndoMap.query_ok TREE_BASE m (λ _, true) id Hw Hs). cbn [mbind option_bind]. f_equal. unfold odd_count.
  apply UndoMap.mod2_odd.
Qed.

Lemma all_opt_total {A} (p : A → option bool) (q : A → bool) l :
  (∀ x, p x = Some (q x)) → all_opt p l = Some (forallb q l).
Proof. intros Hp. induction l as [|x l IH]; [done|]. simpl. rewrite Hp. simpl. destruct (q x); [exact IH|done]. Qed.

Lemma is_visible_spec f :
  is_visible f m = Some (negb (odd_count (f_timestamp f)) && forallb odd_count (deletions f)).
Proof.
  unfold is_visible. rewrite is_undone_spec. cbn [mbind option_bind].
  destruct (odd_count (f_timestamp f)); [done|]. by apply all_opt_total, is_undone_spec.
Qed.
End defined.

(** ** Properties *)

Lemma undo_recompute_ok TREE_BASE m ts ids_ V D fragments :
  walkable TREE_BASE m → ksorted (items m) → buffer_ok fragments V D → StronglySorted id_le ids_ →
  (∀ f, f ∈ fragments → f_id f ∈ ids_ ∨ is_visible f m = Some (visible f)) →
  ∃ r, undo_fragments m ts fragments V D ids_ = Some r ∧
    buffer_ok (ur_fragments r) (ur_visible_text r) (ur_deleted_text r) ∧
    (∀ f, f ∈ ur_fragments r →
      visible f = negb (odd_count m (f_timestamp f)) && forallb (odd_count m) (deletions f)) ∧
    Forall2 same_byte (cells fragments V D) (cells (ur_fragments r) (ur_visible_text r) (ur_deleted_text r)) ∧
    describes 0 0 (ur_patch r) V (ur_visible_text r) ∧ normalized (ur_patch r) ∧
    Forall2 (λ f f', new_insertion f = new_insertion f') fragments (ur_fragments r) ∧
    Forall2 (updated m ts ids_) fragments (ur_fragments r).
Proof.
  intros Hw Hs Hok Hids Hcov.
  destruct (undo_fragments_ok m ts ids_ V D fragments Hids Hok) as (r & Hr & Hup & Hv & Hd & Hc & Hp & Hn).
  { apply Forall_forall. intros f _. rewrite (is_visible_spec TREE_BASE m Hw Hs). eauto. }
  exists r. split; [done|]. split; [|split; [|split_and!; try done]].
  - destruct Hok as [Hi Hf _ _]. split; [|by eapply updated_frags|done|done].
    eapply ids_ok_same; [|exact Hi]. by eapply updated_ids.
  - intros f' Hf'. apply (list_elem_of_lookup) in Hf' as [i Hi].
    destruct (Forall2_lookup_r _ _ _ _ _ Hup Hi) as (f & Hfi & Hff).
    pose proof (updated_visible m ts ids_ f f' Hff (Hcov f (list_elem_of_lookup_2 _ _ _ Hfi))) as Hvis.
    rewrite (is_visible_spec TREE_BASE m Hw Hs) in Hvis. congruence.
  - eapply Forall2_impl; [exact Hup|]. intros f f' [Hr'|[-> _]]; [|done]. unfold refresh in Hr'.
    destruct (is_visible f m) as [w|]; [|done]. cbn [mbind option_bind] in Hr'. by injection Hr' as <-.
Qed.

(** C12: recomputing the listed fragments after an undo: the pass succeeds; if
    every fragment whose visibility is out of date is listed, afterwards
    every fragment is visible exactly when its insertion is not undone and
    all its deletions are; no byte is lost, moved or changed (only
    visibilities differ); the buffer stays well formed; and the published
    patch leads from the old to the new visible text. *)
Theorem undo_recomputes TREE_BASE m ts ids_ V D fragments :
  walkable TREE_BASE m → ksorted (items m) → buffer_ok fragments V D → StronglySorted id_le ids_ →
  (∀ f, f ∈ fragments → f_id f ∈ ids_ ∨ is_visible f m = Some (visible f)) →
  ∃ r, undo_fragments m ts fragments V D ids_ = Some r ∧
    buffer_ok (ur_fragments r) (ur_visible_text r) (ur_deleted_text r) ∧
    (∀ f, f ∈ ur_fragments r →
      visible f = negb (odd_count m (f_timestamp f)) && forallb (odd_count m) (deletions f)) ∧
    Forall2 same_byte (cells fragments V D) (cells (ur_fragments r) (ur_visible_text r) (ur_deleted_text r)) ∧
    describes 0 0 (ur_patch r) V (ur_visible_text r) ∧ normalized (ur_patch r).
Proof.
  intros Hw Hs Hok Hids Hcov.
  destruct (undo_recompute_ok TREE_BASE m ts ids_ V D fragments Hw Hs Hok Hids Hcov) as (r & ? & ? & ? & ? & ? & ? & _).
  by exists r.
Qed.

(** ** A concrete undo *)
Module UndoExamples.

Definition id_ (d : Z) : Locator := Locator.mkLocator [d].
Definition ins (v : N) : Lamport := mkLamport v 1.

(** Insertion 1 ("ab" and, deleted by edit 3, "c") and insertion 2 ("X"); the
    undo map already records that 2 and 3 are undone. *)
Definition fragments : list Fragment :=
  [mkFragment (id_ 5) (ins 1) 0 2 true [] new_global;
   mkFragment (id_ 7) (ins 1) 2 1 false [ins 3] new_global;
   mkFragment (id_ 8) (ins 2) 0 1 true [] new_global].
Definition v_text : Text := [x61; x62; x58].
Definition d_text : Text := [x63].
Definition undo_map : UndoTree :=
  mk_leaf [mkUndoEntry (mkKey (ins 2) (ins 5)) 1; mkUndoEntry (mkKey (ins 3) (ins 5)) 1].

Lemma undo_example_ok : buffer_ok fragments v_text d_text.
Proof.
  split; [split| |done|done].
  - repeat constructor.
  - repeat constructor; by apply (bool_decide_unpack _) || (eexists; split; [reflexivity|done]).
  - repeat constructor.
  - repeat constructor; simpl; done || lia.
Defined.

Lemma undo_map_walkable : walkable 6 undo_map.
Proof.
  right. exists 0. split; [unfold STACK_CAPACITY; lia|].
  apply (wf_leaf 6 [mkUndoEntry (mkKey (ins 2) (ins 5)) 1; mkUndoEntry (mkKey (ins 3) (ins 5)) 1]);
    [done|simpl; unfold capacity; lia].
Defined.

Example undo_run :
  (λ r, (ur_visible_text r, ur_deleted_text r)) <$>
    undo_fragments undo_map (ins 5) fragments v_text d_text [id_ 7; id_ 8] = Some ([x61; x62; x63], [x58]).
Proof. vm_compute. reflexivity. Qed.

Example undo_recomputes_witness :
  ∃ r, undo_fragments undo_map (ins 5) fragments v_text d_text [id_ 7; id_ 8] = Some r ∧
    buffer_ok (ur_fragments r) (ur_visible_text r) (ur_deleted_text r) ∧
    (∀ f, f ∈ ur_fragments r →
      visible f = negb (odd_count undo_map (f_timestamp f)) && forallb (odd_count undo_map) (deletions f)) ∧
    Forall2 same_byte (cells fragments v_text d_text) (cells (ur_fragments r) (ur_visible_text r) (ur_deleted_text r)) ∧
    describes 0 0 (ur_patch r) v_text (ur_visible_text r) ∧ normalized (ur_patch r).
Proof.
  apply (undo_recomputes 6); [apply undo_map_walkable|repeat constructor|apply undo_example_ok|repeat constructor; done|].
  intros f Hf. repeat (apply elem_of_cons in Hf as [->|Hf]); [right|left|left|by apply elem_of_nil in Hf];
    [by vm_compute|by repeat constructor..].
Defined.

End UndoExamples.
