(* ===== verification/UndoIndex.v ===== *)
(** * The indices find every fragment of an edit

    [fragment_ids_for_edits] always returns, sorted, and lists the id of every
    insertion fragment that starts inside a slice of the given edits. *)

From S2P Require Import Prelude Clock Text SumTree Cursor Search KeyedTree UndoMap Patch Fragment Cells BufferInv Undo.
From S2P Require Locator TreeMap.
Local Open Scope ord_scope.

#[local] Existing Instance TreeMap.option_Ord.
#[local] Existing Instance TreeMap.MapKey_Summary.
#[local] Existing Instance TreeMap.MapEntry_Item.
#[local] Existing Instance TreeMap.MapKey_Dimension.
#[local] Existing Instance TreeMap.MapEntry_KeyedItem.

(** The lexicographic order of pairs. *)
Lemma prod_lt `{Ord A, Ord B} (x y : A) (a b : B) : (x, a) ≺ (y, b) ↔ x ≺ y ∨ x = y ∧ a ≺ b.
Proof.
  change (then_with (cmp x y) (cmp a b) = Lt ↔ cmp x y = Lt ∨ x = y ∧ cmp a b = Lt). rewrite <- (cmp_eq_iff x y).
  destruct (cmp x y); simpl; naive_solver.
Qed.
Lemma prod_le `{Ord A, Ord B} (x y : A) (a b : B) : (x, a) ≼ (y, b) ↔ x ≺ y ∨ x = y ∧ a ≼ b.
Proof.
  change (then_with (cmp x y) (cmp a b) ≠ Gt ↔ cmp x y = Lt ∨ x = y ∧ cmp a b ≠ Gt). rewrite <- (cmp_eq_iff x y).
  destruct (cmp x y); simpl; naive_solver.
Qed.
Lemma nat_le_le (a b : nat) : (a ≼ b)%ord ↔ a ≤ b.
Proof. change (Nat.compare a b ≠ Gt ↔ a ≤ b). by rewrite Nat.compare_le_iff. Qed.
Lemma nat_lt_lt (a b : nat) : (a ≺ b)%ord ↔ a < b.
Proof. change (Nat.compare a b = Lt ↔ a < b). by rewrite Nat.compare_lt_iff. Qed.

Lemma min_slice_le e s : slice_edit_id s = e → mkInsertionSlice e LAMPORT_MIN 0 0 ≼ s.
Proof.
  intros He. change ((e, (LAMPORT_MIN, (0, 0))) ≼ (slice_edit_id s, (slice_insertion_id s, (slice_start s, slice_end s)))).
  rewrite prod_le. right. split; [by symmetry|]. rewrite prod_le.
  destruct (cmp_le_lt_or_eq LAMPORT_MIN (slice_insertion_id s)) as [H _]. destruct (H (lamport_min_le _)) as [?|?]; [by left|right].
  split; [done|]. rewrite prod_le, nat_lt_lt, nat_le_le. lia.
Qed.

(** From [e] on, edits are at least [e]. *)
Lemma slice_edit_ge e s : mkInsertionSlice e LAMPORT_MIN 0 0 ≼ s → e ≼ slice_edit_id s.
Proof.
  intros H. change ((e, (LAMPORT_MIN, (0, 0))) ≼ (slice_edit_id s, (slice_insertion_id s, (slice_start s, slice_end s)))) in H.
  rewrite prod_le in H. apply cmp_le_lt_or_eq. naive_solver.
Qed.
Lemma slice_edit_mono s t : s ≺ t → slice_edit_id s ≼ slice_edit_id t.
Proof.
  intros H. change ((slice_edit_id s, (slice_insertion_id s, (slice_start s, slice_end s))) ≺
    (slice_edit_id t, (slice_insertion_id t, (slice_start t, slice_end t)))) in H.
  rewrite prod_lt in H. apply cmp_le_lt_or_eq. naive_solver.
Qed.

(** An insertion fragment that starts inside a slice. *)
Definition in_slice (s : InsertionSlice) (i : InsertionFragment) : Prop :=
  if_timestamp i = slice_insertion_id s ∧ slice_start s ≤ split_offset i < slice_end s.

(** The slices of a set. *)
Definition slices_in (t : SliceSet) : list InsertionSlice := TreeMap.entry_key <$> items t.

Section index.
Context (TREE_BASE : nat).

(** ** The slices of an edit *)

Definition slices_ok (t : SliceSet) : Prop := walkable TREE_BASE t ∧ ksorted (items t).

(** [take_while] on sorted entries from [e] on keeps those of [e]. *)
Lemma take_while_slices e s (l : list (TreeMap.MapEntry InsertionSlice ())) :
  ksorted l → (∀ x, x ∈ l → e ≼ slice_edit_id (TreeMap.entry_key x)) →
  s ∈ (fix take_while (l : list InsertionSlice) :=
       match l with
       | s :: l => if decide (slice_edit_id s = e) then s :: take_while l else []
       | [] => []
       end) (((λ x, (TreeMap.entry_key x, TreeMap.entry_value x)) <$> l).*1) ↔
    (∃ x, x ∈ l ∧ s = TreeMap.entry_key x) ∧ slice_edit_id s = e.
Proof.
  induction l as [|x l IH]; intros Hs Hge.
  { split; [by intros ?%elem_of_nil|intros [(x & Hx%elem_of_nil & _) _]; done]. }
  apply StronglySorted_inv in Hs as [Hs Hx]. rewrite !fmap_cons. cbn [fst].
  destruct (decide (slice_edit_id (TreeMap.entry_key x) = e)) as [He|He].
  - rewrite elem_of_cons, IH by (done || intros y Hy; apply Hge; by right). split.
    + intros [->|[(y & Hy & ->) Hs']]; [split; [exists x; split; [by left|done]|done]|].
      split; [exists y; split; [by right|done]|done].
    + intros [(y & [->|Hy]%elem_of_cons & ->) Hs']; [by left|right]. split; [by exists y|done].
  - split; [by intros ?%elem_of_nil|]. intros [(y & Hy & ->) Hs']. exfalso. apply He.
    apply elem_of_cons in Hy as [->|Hy]; [done|]. rewrite Forall_forall in Hx. specialize (Hx y Hy).
    assert (slice_edit_id (TreeMap.entry_key x) ≼ slice_edit_id (TreeMap.entry_key y)) as Hle by by apply slice_edit_mono.
    rewrite Hs' in Hle. apply cmp_le_antisym; [done|]. apply Hge. by left.
Qed.

Lemma slices_of_edit_ok t e :
  slices_ok t → ∃ l, slices_of_edit t e = Some l ∧ ∀ s, s ∈ l ↔ s ∈ slices_in t ∧ slice_edit_id s = e.
Proof.
  intros [Hw Hs]. unfold slices_of_edit.
  destruct (TreeMap.iter_from_ok TREE_BASE t (mkInsertionSlice e LAMPORT_MIN 0 0) Hw Hs) as (sk & r & -> & Hi & Hlt & Hge).
  cbn [mbind option_bind]. eexists. split; [done|].
  assert (∀ s, s ∈ slices_in t ↔ (∃ x, x ∈ sk ∧ s = TreeMap.entry_key x) ∨ ∃ x, x ∈ r ∧ s = TreeMap.entry_key x) as Hin.
  { intros s. unfold slices_in. rewrite Hi, fmap_app, elem_of_app, !list_elem_of_fmap. naive_solver. }
  assert (∀ x, x ∈ sk → slice_edit_id (TreeMap.entry_key x) ≠ e) as Hsk.
  { intros x Hx He. rewrite Forall_forall in Hlt. specialize (Hlt x Hx). apply min_slice_le in He.
    by apply cmp_not_lt_le in He. }
  assert (ksorted r) as Hsr by (rewrite Hi in Hs; by apply ksorted_app in Hs as (_ & ? & _)).
  intros s. rewrite Hin. clear Hin Hi Hs Hw.
  assert (∀ x, x ∈ r → e ≼ slice_edit_id (TreeMap.entry_key x)) as Hr.
  { intros x Hx. rewrite Forall_forall in Hge. by apply slice_edit_ge, Hge. }
  rewrite take_while_slices by done. naive_solver.
Qed.

Lemma slices_of_edits_ok t es :
  slices_ok t → ∃ l, slices_of_edits t es = Some l ∧ ∀ s, s ∈ l ↔ s ∈ slices_in t ∧ slice_edit_id s ∈ es.
Proof.
  intros Ht. induction es as [|e es (l & IH & Hl)]; cbn [slices_of_edits].
  { exists []. split; [done|]. intros s. split; [by intros ?%elem_of_nil|by intros [_ ?%elem_of_nil]]. }
  destruct (slices_of_edit_ok t e Ht) as (k & -> & Hk). cbn [mbind option_bind]. rewrite IH. cbn [mbind option_bind].
  eexists. split; [done|]. intros s. rewrite elem_of_app, Hk, Hl, elem_of_cons. naive_solver.
Qed.

(** ** The insertion fragments of the slices *)

Implicit Types (c : InsertionCursor) (P r taken : list InsertionFragment) (acc : list Locator).

Definition slice_key (s : InsertionSlice) : InsertionFragmentKey := mkInsertionKey (slice_insertion_id s) (slice_start s).

Lemma key_lt_iff (a b : InsertionFragmentKey) :
  a ≺ b ↔ k_timestamp a ≺ k_timestamp b ∨ k_timestamp a = k_timestamp b ∧ k_split_offset a < k_split_offset b.
Proof. rewrite <- nat_lt_lt. apply (prod_lt (k_timestamp a) (k_timestamp b) (k_split_offset a) (k_split_offset b)). Qed.
Lemma key_le_iff (a b : InsertionFragmentKey) :
  a ≼ b ↔ k_timestamp a ≺ k_timestamp b ∨ k_timestamp a = k_timestamp b ∧ k_split_offset a ≤ k_split_offset b.
Proof. rewrite <- nat_le_le. apply (prod_le (k_timestamp a) (k_timestamp b) (k_split_offset a) (k_split_offset b)). Qed.

Lemma zero_insertion_le (k : InsertionFragmentKey) : zero_insertion_key ≼ k.
Proof.
  apply key_le_iff. cbn. destruct (cmp_le_lt_or_eq LAMPORT_MIN (k_timestamp k)) as [H _].
  destruct (H (lamport_min_le _)) as [?|?]; [by left|right]. split; [done|lia].
Qed.
Lemma insertions_below (l : list InsertionFragment) : below zero_insertion_key l.
Proof. apply Forall_forall. intros x _. apply zero_insertion_le. Qed.

Lemma collect_ids_ok fuel s c d r acc :
  cursor_at TREE_BASE c d r → did_seek c = true → length r < fuel →
  ∃ c' taken r', collect_ids fuel s c acc = Some (c', acc ++ (fragment_id <$> taken)) ∧ r = taken ++ r' ∧
    cursor_at TREE_BASE c' (dpos d taken) r' ∧ did_seek c' = true ∧
    Forall (λ x, if_timestamp x = slice_insertion_id s ∧ split_offset x < slice_end s) taken ∧
    (∀ x, head r' = Some x → if_timestamp x = slice_insertion_id s → slice_end s ≤ split_offset x).
Proof.
  revert c d r acc. induction fuel as [|fuel IH]; intros c d r acc Hc Hd Hf; [lia|].
  cbn [collect_ids]. rewrite (cursor_at_item TREE_BASE c d r Hc Hd). cbn [mbind option_bind].
  destruct r as [|x r]; cbn [head].
  { exists c, [], []. rewrite app_nil_r. by split_and!. }
  destruct (bool_decide (if_timestamp x ≠ slice_insertion_id s) || (slice_end s <=? split_offset x)) eqn:E.
  - exists c, [], (x :: r). rewrite app_nil_r. split_and!; [done|done|done|done|constructor|].
    intros y [= <-] Hy. apply orb_true_iff in E as [E|E]; [by apply bool_decide_eq_true in E|by apply Nat.leb_le].
  - apply orb_false_iff in E as [E1 E2%Nat.leb_gt]. apply bool_decide_eq_false in E1. apply dec_stable in E1.
    destruct (next_ok TREE_BASE c d x r Hc Hd) as (c1 & -> & Hc1 & Hd1 & _). cbn [mbind option_bind].
    destruct (IH c1 _ r (acc ++ [fragment_id x]) Hc1 Hd1) as (c' & taken & r' & -> & -> & Hc' & Hd' & Ht & Hh); [simpl in Hf; lia|].
    exists c', (x :: taken), r'. rewrite fmap_cons, <- app_assoc. split_and!; [done|done|by rewrite dpos_cons|done|by constructor|done].
Qed.

(** The cursor between two slices: [P] is passed, and what of it is not
    collected comes before the last slice's start [cur]. *)
Record walk (L : list InsertionFragment) c P r (cur : InsertionFragmentKey) acc : Prop := {
  w_items : L = P ++ r;
  w_at : cursor_at TREE_BASE c (dpos dzero P) r;
  w_seek : P ≠ [] → did_seek c = true;
  w_timestamps : Forall (λ x, if_timestamp x ≼ k_timestamp cur) P;
  w_done : Forall (λ x, fragment_id x ∈ acc ∨ key x ≺ cur) P;
}.

Definition seek_slice (s : InsertionSlice) c : option InsertionCursor :=
  if bool_decide (slice_insertion_id s ≠ k_timestamp (Cursor.start c)) || (k_split_offset (Cursor.start c) <? slice_start s)
  then fst <$> seek_forward (cmp (mkInsertionKey (slice_insertion_id s) (slice_start s))) Left c
  else Some c.

(** Where the cursor stands. *)
Lemma walk_position L c P r cur acc : ksorted L → walk L c P r cur acc →
  (P = [] ∧ Cursor.start c = zero_insertion_key) ∨
  ∃ P' x, P = P' ++ [x] ∧ Cursor.start c = key x ∧ k_timestamp (key x) ≼ k_timestamp cur.
Proof.
  intros Hs [-> [Hp _] _ Ht _]. change (Cursor.start c) with (position c). rewrite Hp.
  apply ksorted_app in Hs as (HsP & _). destruct P as [|x P' _] using rev_ind; [by left|right].
  exists P', x. split; [done|]. split.
  - apply dpos_last; [apply insertions_below|done|by rewrite last_snoc].
  - rewrite Forall_forall in Ht. apply (Ht x). apply elem_of_app. right. by left.
Qed.

Lemma seek_slice_ok L c P r cur acc s :
  ksorted L → walk L c P r cur acc → cur ≼ slice_key s → (0 < value (slice_insertion_id s))%N →
  ∃ c1 P1 r1, seek_slice s c = Some c1 ∧ walk L c1 P1 r1 (slice_key s) acc ∧ did_seek c1 = true ∧
    Forall (λ x, slice_key s ≼ key x) r1 ∧ P `sublist_of` P1.
Proof.
  intros Hs Hw Hcur Hpos. pose proof (walk_position L c P r cur acc Hs Hw) as Hposn.
  destruct Hw as [-> Hat Hseek Ht Hdone]. unfold seek_slice. fold (slice_key s).
  assert (k_timestamp cur ≼ slice_insertion_id s) as Hcts.
  { apply key_le_iff in Hcur as [?|[-> _]]; [by apply cmp_lt_le|apply cmp_le_refl]. }
  assert (Forall (λ x, fragment_id x ∈ acc ∨ key x ≺ slice_key s) P) as Hdone'.
  { eapply Forall_impl; [exact Hdone|]. intros x [?|?]; [by left|right]. by eapply cmp_lt_le_trans. }
  assert (Forall (λ x, if_timestamp x ≼ k_timestamp (slice_key s)) P) as Ht'.
  { eapply Forall_impl; [exact Ht|]. intros x Hx. exact (cmp_le_trans _ _ _ Hx Hcts). }
  destruct (bool_decide _ || _) eqn:E.
  - assert (position c ≼ slice_key s) as Hle.
    { change (Cursor.start c) with (position c) in *. destruct Hposn as [[_ ->]|(P' & x & _ & Hx & Hxt)]; [apply zero_insertion_le|].
      rewrite Hx in E |- *. apply key_le_iff. destruct (cmp_le_lt_or_eq (k_timestamp (key x)) (slice_insertion_id s)) as [Hlt _].
      destruct (Hlt (cmp_le_trans _ _ _ Hxt Hcts)) as [?|Heq]; [by left|right]. split; [done|].
      apply orb_true_iff in E as [E%bool_decide_eq_true|E%Nat.ltb_lt]; [by destruct E|]. change (k_split_offset (slice_key s)) with (slice_start s). lia. }
    destruct Hat as [Hp Hat]. rewrite Hp in Hle. pose proof (dpos_below dzero P r (insertions_below _) Hs) as Hb.
    pose proof Hs as (_ & Hsr & _)%ksorted_app.
    pose proof (seek_forward_ok TREE_BASE c (cmp (slice_key s)) Left _ r (conj Hp Hat) (key_monotone _ r (slice_key s) Hb Hsr)) as Hsk.
    pose proof (lseek_key _ r (slice_key s) Hb Hsr) as Hk.
    pose proof (lseek_split (λ p, past (cmp (slice_key s) p) Left) (dpos dzero P) r) as Hsp.
    destruct (lseek _ _ r) as [[sk d'] r1]. destruct Hk as (-> & Hlt & Hge & _). destruct Hsp as (_ & -> & _).
    destruct Hsk as (c1 & b & -> & Hc1 & Hd1 & _); [intros Hlt'; by apply cmp_gt_lt, cmp_not_lt_le in Hlt'|].
    exists c1, (P ++ sk), r1. split_and!; [done| |done|done|by apply sublist_inserts_r]. split; [by rewrite app_assoc|by rewrite dpos_app|done| |].
    + apply Forall_app. split; [done|]. eapply Forall_impl; [exact Hlt|]. intros x Hx. apply key_lt_iff in Hx as [?|[Hx _]];
        [by apply cmp_lt_le|]. change (if_timestamp x) with (k_timestamp (key x)). rewrite Hx. apply cmp_le_refl.
    + apply Forall_app. split; [done|]. eapply Forall_impl; [exact Hlt|]. intros x Hx. by right.
  - apply orb_false_iff in E as [E1%bool_decide_eq_false E2%Nat.ltb_ge]. apply dec_stable in E1.
    destruct Hposn as [[_ Hz]|(P' & x & -> & Hx & _)]; [rewrite E1, Hz in Hpos; by vm_compute in Hpos|].
    rewrite Hx in *. exists c, (P' ++ [x]), r. split_and!; [done|by split|apply Hseek; by destruct P'| |done].
    pose proof Hs as (_ & _ & Hxy)%ksorted_app. apply Forall_forall. intros y Hy. apply cmp_lt_le.
    apply (cmp_le_lt_trans _ (key x)); [|apply Hxy; [apply elem_of_app; right; by left|done]].
    apply key_le_iff. right. exact (conj E1 E2).
Qed.

(** One slice: the fragments in it, and no others, are added. *)
Lemma slice_step_ok L c P r cur acc s fuel :
  ksorted L → walk L c P r cur acc → cur ≼ slice_key s → (0 < value (slice_insertion_id s))%N → length L < fuel →
  ∃ c1 c2 taken P2 r2, seek_slice s c = Some c1 ∧
    collect_ids fuel s c1 acc = Some (c2, acc ++ (fragment_id <$> taken)) ∧
    walk L c2 P2 r2 (slice_key s) (acc ++ (fragment_id <$> taken)) ∧
    Forall (λ x, x ∈ L ∧ in_slice s x) taken ∧
    (∀ x, x ∈ L → in_slice s x → fragment_id x ∈ acc ++ (fragment_id <$> taken)) ∧
    ∃ P1, P `sublist_of` P1 ∧ P2 = P1 ++ taken.
Proof.
  intros Hs Hw Hcur Hpos Hf. destruct (seek_slice_ok L c P r cur acc s Hs Hw Hcur Hpos) as (c1 & P1 & r1 & Hsk & Hw1 & Hd1 & Hge & Hsub).
  destruct Hw1 as [HL Hat1 _ Ht1 Hdone1].
  destruct (collect_ids_ok fuel s c1 _ r1 acc Hat1 Hd1) as (c2 & taken & r2 & Hcol & -> & Hat2 & Hd2 & Htk & Hend).
  { rewrite HL, length_app in Hf. lia. }
  apply Forall_app in Hge as [Hget Hge2]. rewrite app_assoc in HL.
  exists c1, c2, taken, (P1 ++ taken), r2. split_and!; [done|done| | | |by exists P1].
  - split; [done|by rewrite dpos_app|done| |].
    + apply Forall_app. split; [done|]. eapply Forall_impl; [exact Htk|]. intros x [Hx _].
      change (k_timestamp (slice_key s)) with (slice_insertion_id s). rewrite Hx. apply cmp_le_refl.
    + apply Forall_app. split.
      * eapply Forall_impl; [exact Hdone1|]. intros x [?|?]; [left; apply elem_of_app; by left|by right].
      * apply Forall_forall. intros x Hx. left. apply elem_of_app. right. by apply list_elem_of_fmap_2.
  - apply Forall_forall. intros x Hx. rewrite Forall_forall in Htk, Hget. destruct (Htk x Hx) as [Hxt Hxe].
    split; [rewrite HL, !elem_of_app; tauto|]. split; [done|].
    specialize (Hget x Hx). apply key_le_iff in Hget as [Hlt|[_ ?]]; [|done].
    change (slice_insertion_id s ≺ if_timestamp x) in Hlt. rewrite Hxt in Hlt. by apply cmp_lt_irrefl in Hlt.
  - intros x Hx [Hxt [Hxs Hxe]]. rewrite HL, !elem_of_app in Hx. apply elem_of_app. destruct Hx as [[Hx|Hx]|Hx].
    + rewrite Forall_forall in Hdone1. destruct (Hdone1 x Hx) as [?|Hlt]; [by left|]. exfalso.
      apply cmp_not_le_lt in Hlt. apply Hlt, key_le_iff. right. by split.
    + right. by apply list_elem_of_fmap_2.
    + exfalso. destruct r2 as [|y r2]; [by apply elem_of_nil in Hx|]. specialize (Hend y eq_refl).
      apply Forall_cons in Hge2 as [Hy _]. assert (key y ≼ key x) as Hyx.
      { apply elem_of_cons in Hx as [->|Hx]; [apply cmp_le_refl|]. rewrite HL in Hs. apply ksorted_app in Hs as (_ & Hs & _).
        apply StronglySorted_inv in Hs as [_ Hs]. rewrite Forall_forall in Hs. by apply cmp_lt_le, Hs. }
      assert (if_timestamp y = slice_insertion_id s) as Hyt.
      { apply cmp_le_antisym; [rewrite <- Hxt|]; [apply key_le_iff in Hyx|apply key_le_iff in Hy];
          apply cmp_le_lt_or_eq; naive_solver. }
      apply key_le_iff in Hyx as [Hlt|[_ Hle]].
      * change (if_timestamp y ≺ if_timestamp x) in Hlt. rewrite Hyt, Hxt in Hlt. by apply cmp_lt_irrefl in Hlt.
      * change (split_offset y ≤ split_offset x) in Hle. specialize (Hend Hyt). lia.
Qed.

Lemma ids_of_slices_ok L n ss : ∀ c P r cur acc,
  ksorted L → walk L c P r cur acc → n = length L → StronglySorted slice_le ss →
  Forall (λ s, cur ≼ slice_key s ∧ (0 < value (slice_insertion_id s))%N) ss →
  ∃ ids, ids_of_slices n ss c acc = Some ids ∧
    (∀ i, i ∈ ids ↔ i ∈ acc ∨ ∃ s x, s ∈ ss ∧ x ∈ L ∧ in_slice s x ∧ i = fragment_id x) ∧
    ((∃ T, T `sublist_of` P ∧ acc = fragment_id <$> T) → ∃ T, T `sublist_of` L ∧ ids = fragment_id <$> T).
Proof.
  induction ss as [|s ss IH]; intros c P r cur acc Hs Hw Hn Hss Hcur.
  { exists acc. split; [done|]. split; [intros i; split; [by left|]; intros [?|(s & x & Hse%elem_of_nil & _)]; done|].
    intros (T & HT & ->). exists T. split; [|done]. destruct Hw as [-> _ _ _ _]. by apply sublist_inserts_r. }
  apply StronglySorted_inv in Hss as [Hss Hle]. apply Forall_cons in Hcur as [[Hc Hpos] Hcur].
  destruct (slice_step_ok L c P r cur acc s (S n) Hs Hw Hc Hpos) as (c1 & c2 & taken & P2 & r2 & Hsk & Hcol & Hw2 & Htk & Hall & P1 & HP1 & HP2); [lia|].
  destruct (IH c2 P2 r2 (slice_key s) _ Hs Hw2 Hn Hss) as (ids & Hids & Hin & Hsubl).
  { apply Forall_forall. intros t Ht. rewrite Forall_forall in Hle, Hcur. split; [|by apply Hcur].
    specialize (Hle t Ht). apply prod_le in Hle. apply key_le_iff. destruct Hle as [?|[? Hle]]; [by left|right]. split; [done|].
    apply prod_le in Hle. rewrite nat_lt_lt in Hle. change (slice_start s ≤ slice_start t). lia. }
  exists ids. split.
  { cbn [ids_of_slices]. unfold seek_slice, slice_key in Hsk. rewrite Hsk. cbn [mbind option_bind]. by rewrite Hcol. }
  split; [|intros (T & HT & ->); apply Hsubl; exists (T ++ taken); split; [|by rewrite fmap_app];
    rewrite HP2; apply sublist_app; [by etransitivity|done]].
  intros i. rewrite Hin, elem_of_app, list_elem_of_fmap. rewrite Forall_forall in Htk. split.
  - intros [[?|(x & -> & Hx)]|(t & x & Ht & H)]; [by left| |].
    + right. destruct (Htk x Hx) as [HxL Hxs]. exists s, x. split_and!; [by left|done..].
    + right. exists t, x. split; [by right|done].
  - intros [?|(t & x & [->|Ht]%elem_of_cons & HxL & Hxs & ->)]; [by do 2 left| |].
    + left. specialize (Hall x HxL Hxs). apply elem_of_app in Hall. by rewrite list_elem_of_fmap in Hall.
    + right. by exists t, x.
Qed.

#[local] Instance slice_le_total : Total slice_le.
Proof.
  intros s t. unfold slice_le. destruct (cmp_trichotomy (slice_insertion_id s, (slice_start s, slice_end t))
    (slice_insertion_id t, (slice_start t, slice_end s))) as [?|[Heq|?]];
    [left; by apply cmp_lt_le|left; rewrite Heq; apply cmp_le_refl|right; by apply cmp_lt_le].
Qed.
Lemma slice_le_iff s t : slice_le s t ↔ slice_insertion_id s ≺ slice_insertion_id t ∨
  slice_insertion_id s = slice_insertion_id t ∧
  (slice_start s < slice_start t ∨ slice_start s = slice_start t ∧ slice_end t ≤ slice_end s).
Proof. unfold slice_le. by rewrite !prod_le, nat_lt_lt, nat_le_le. Qed.
#[local] Instance slice_le_trans : Transitive slice_le.
Proof.
  intros s t u. rewrite !slice_le_iff. intros [Hst|[Hst H1]] [Htu|[Htu H2]].
  - left. eapply cmp_lt_le_trans; [done|by apply cmp_lt_le].
  - left. by rewrite <- Htu.
  - left. by rewrite Hst.
  - right. split; [congruence|lia].
Qed.

Lemma fragment_ids_ok t insertions es :
  slices_ok t → walkable TREE_BASE insertions → ksorted (items insertions) →
  Forall (λ s, (0 < value (slice_insertion_id s))%N) (slices_in t) →
  ∃ ids, fragment_ids_for_edits t insertions es = Some ids ∧ Sorted (λ i j : Locator.Locator, i ≼ j) ids ∧
    (∀ i, i ∈ ids ↔ ∃ s x, s ∈ slices_in t ∧ slice_edit_id s ∈ es ∧ x ∈ items insertions ∧ in_slice s x ∧ i = fragment_id x) ∧
    (NoDup (fragment_id <$> items insertions) → NoDup ids).
Proof.
  intros Ht Hw Hs Hpos. destruct (slices_of_edits_ok t es Ht) as (ss & Hss & Hin).
  assert (Hmem : ∀ s, s ∈ merge_sort slice_le ss ↔ s ∈ ss) by (intros s; by rewrite merge_sort_Permutation).
  destruct (ids_of_slices_ok (items insertions) (length (items insertions)) (merge_sort slice_le ss)
    (cursor_new insertions) [] (items insertions) zero_insertion_key []) as (ids & Hids & Hmi & Hsub); [done| |done| | |].
  - split; [done|by apply cursor_new_at|done|constructor..].
  - apply StronglySorted_merge_sort; apply _.
  - apply Forall_forall. intros s Hsm. apply Hmem, Hin in Hsm as [Hsm _]. split; [apply zero_insertion_le|].
    rewrite Forall_forall in Hpos. by apply Hpos.
  - unfold fragment_ids_for_edits. rewrite Hss. cbn [mbind option_bind]. rewrite Hids. cbn [mbind option_bind].
    eexists. split; [done|]. split.
    { apply Sorted_merge_sort. intros i j. destruct (cmp_trichotomy i j) as [?|[->|?]];
        [left; by apply cmp_lt_le|left; apply cmp_le_refl|right; by apply cmp_lt_le]. }
    split.
    2: { intros Hnd. rewrite merge_sort_Permutation. destruct Hsub as (T & HT & ->); [by exists []|]. eapply sublist_NoDup; [exact Hnd|by apply fmap_sublist]. }
    intros i. rewrite merge_sort_Permutation, Hmi. split.
    + intros [?%elem_of_nil|(s & x & [Hst Hse]%Hmem%Hin & ?)]; [done|]. exists s, x. tauto.
    + intros (s & x & Hst & Hse & ?). right. exists s, x. split; [by apply Hmem, Hin|tauto].
Qed.
(** on indices in order, [fragment_ids_for_edits] never panics and lists, in
    the order of the buffer, the ids of exactly the insertion fragments that
    start inside a slice recorded for one of the edits, however the slices of
    the edits overlap. *)
Theorem fragment_ids_for_edits_exact t insertions es :
  slices_ok t → walkable TREE_BASE insertions → ksorted (items insertions) →
  Forall (λ s, (0 < value (slice_insertion_id s))%N) (slices_in t) →
  ∃ ids, fragment_ids_for_edits t insertions es = Some ids ∧ Sorted (λ i j : Locator.Locator, i ≼ j) ids ∧
    ∀ i, i ∈ ids ↔ ∃ s x, s ∈ slices_in t ∧ slice_edit_id s ∈ es ∧ x ∈ items insertions ∧ in_slice s x ∧ i = fragment_id x.
Proof.
  intros Ht Hw Hs Hpos. destruct (fragment_ids_ok t insertions es Ht Hw Hs Hpos) as (ids & H1 & H2 & H3 & _). by exists ids.
Qed.
End index.

(** ** Concrete indices *)
Module UndoIndexExamples.

Definition id_ (d : Z) : Locator.Locator := Locator.mkLocator [d].
Definition t (v : N) : Lamport := mkLamport v 1.

(** Insertion 1 is in three pieces; edit 3 deleted its bytes 2 to 6 and
    inserted, edit 4 deleted bytes 4 to 6 again. *)
Definition insertion_tree : InsertionTree :=
  mk_leaf [mkInsertionFragment (t 1) 0 (id_ 2); mkInsertionFragment (t 1) 2 (id_ 5); mkInsertionFragment (t 1) 4 (id_ 6);
           mkInsertionFragment (t 3) 0 (id_ 4)].
Definition slice_set : SliceSet :=
  mk_leaf [TreeMap.mkEntry (mkInsertionSlice (t 3) (t 1) 2 6) (); TreeMap.mkEntry (mkInsertionSlice (t 3) (t 3) 0 1) ();
           TreeMap.mkEntry (mkInsertionSlice (t 4) (t 1) 4 6) ()].

Lemma insertion_tree_walkable : walkable 6 insertion_tree.
Proof.
  right. exists 0. split; [unfold STACK_CAPACITY; lia|].
  apply (wf_leaf 6 [mkInsertionFragment (t 1) 0 (id_ 2); mkInsertionFragment (t 1) 2 (id_ 5); mkInsertionFragment (t 1) 4 (id_ 6);
           mkInsertionFragment (t 3) 0 (id_ 4)]); [done|simpl; unfold capacity; lia].
Defined.
Lemma slice_set_ok : slices_ok 6 slice_set.
Proof.
  split; [|repeat constructor].
  right. exists 0. split; [unfold STACK_CAPACITY; lia|].
  apply (wf_leaf 6 [TreeMap.mkEntry (mkInsertionSlice (t 3) (t 1) 2 6) (); TreeMap.mkEntry (mkInsertionSlice (t 3) (t 3) 0 1) ();
           TreeMap.mkEntry (mkInsertionSlice (t 4) (t 1) 4 6) ()]); [done|simpl; unfold capacity; lia].
Defined.

Example fragment_ids_run :
  fragment_ids_for_edits slice_set insertion_tree [t 3; t 4] = Some [id_ 4; id_ 5; id_ 6] ∧
  fragment_ids_for_edits slice_set insertion_tree [t 4] = Some [id_ 6].
Proof. vm_compute. done. Qed.

Example fragment_ids_for_edits_exact_witness :
  ∃ ids, fragment_ids_for_edits slice_set insertion_tree [t 3; t 4] = Some ids ∧
    Sorted (λ i j : Locator.Locator, i ≼ j) ids ∧
    ∀ i, i ∈ ids ↔ ∃ s x, s ∈ slices_in slice_set ∧ slice_edit_id s ∈ [t 3; t 4] ∧ x ∈ items insertion_tree ∧
      in_slice s x ∧ i = fragment_id x.
Proof.
  apply (fragment_ids_for_edits_exact 6); [apply slice_set_ok|apply insertion_tree_walkable|repeat constructor|repeat constructor].
Defined.
End UndoIndexExamples.
