(* ===== verification/RemoteCells.v ===== *)
(** * Remote edits on cells

    What [apply_remote_edit] should do, byte by byte: an edit finds its place
    among the cells its version has observed, passes the concurrent cells with
    larger timestamps, inserts its text there and deletes the observed cells
    of its range that its version saw as visible. *)

From S2P Require Import Prelude Clock Text Patch Fragment Cells.
From S2P Require Locator.

(** One range of the operation, in full offsets at its version, with its text. *)
Record RemoteEditOp := mkRemoteEditOp { ro_start : nat; ro_end : nat; ro_text : Text }.

Section remote.
Context (version : Global) (ts : Lamport).
(** Whether a cell was visible at the version, from its insertion and deletions. *)
Context (was : Lamport → list Lamport → bool).

Definition versioned (c : Cell) : bool := observed version (c_timestamp c).
Definition newer (c : Cell) : bool := ltb ts (c_timestamp c).
Definition vcells (l : list Cell) : nat := length (List.filter versioned l).

(** The shortest prefix with [n] versioned cells, and the rest. *)
Fixpoint vsplit (n : nat) (l : list Cell) : list Cell * list Cell :=
  match n, l with
  | O, _ => ([], l)
  | _, [] => ([], [])
  | S m, c :: l' => let '(k, r) := vsplit (if versioned c then m else n) l' in (c :: k, r)
  end.

(** The cells passed at the insertion point. *)
Fixpoint skip_newer (l : list Cell) : list Cell * list Cell :=
  match l with
  | [] => ([], [])
  | c :: l' => if newer c then let '(g, r) := skip_newer l' in (c :: g, r) else ([], l)
  end.

Definition remote_delete (c : Cell) : Cell :=
  if versioned c && was (c_timestamp c) (c_deletions c) then
    mkCell (c_timestamp c) (c_offset c) (c_byte c) false (c_deletions c ++ [ts]) (c_undos c)
  else c.

(** All edits of an operation; [pos] counts the versioned cells before [l],
    [off] the bytes inserted so far. *)
Fixpoint remote_cells (pos off : nat) (edits : list RemoteEditOp) (l : list Cell) : list Cell :=
  match edits with
  | [] => l
  | e :: edits =>
      let '(k, l) := vsplit (ro_start e - pos) l in
      let '(g, l) := skip_newer l in
      let '(r, l) := vsplit (ro_end e - ro_start e) l in
      k ++ g ++ inserted_cells ts off (ro_text e) ++ (remote_delete <$> r) ++
        remote_cells (ro_end e) (off + length (ro_text e)) edits l
  end.

(** ** Lemmas *)

Lemma vcells_app l k : vcells (l ++ k) = vcells l + vcells k.
Proof. unfold vcells. by rewrite List.filter_app, length_app. Qed.
Lemma vcells_cons c l : vcells (c :: l) = (if versioned c then 1 else 0) + vcells l.
Proof. unfold vcells. simpl. by destruct (versioned c). Qed.

Lemma vcells_nil : vcells [] = 0.
Proof. done. Qed.

Lemma vsplit_0 l : vsplit 0 l = ([], l).
Proof. by destruct l. Qed.

(** Cells that do not reach the target are passed. *)
Lemma vsplit_add n m k l :
  vcells k = n → 0 < m → vsplit (n + m) (k ++ l) = (k ++ (vsplit m l).1, (vsplit m l).2).
Proof.
  revert n. induction k as [|c k IH]; intros n <- Hm.
  { simpl. by destruct (vsplit m l). }
  rewrite vcells_cons. destruct (versioned c) eqn:Ec.
  - cbn [app Nat.add vsplit]. rewrite Ec, (IH _ eq_refl Hm). done.
  - cbn [Nat.add]. destruct (vcells k + m) as [|x] eqn:Ex; [lia|]. cbn [app vsplit]. rewrite Ec, <- Ex, (IH _ eq_refl Hm). done.
Qed.

(** A prefix of versioned cells. *)
Lemma vsplit_all n k l : length k = n → Forall (λ c, versioned c = true) k → vsplit n (k ++ l) = (k, l).
Proof.
  intros <- Hk. induction Hk as [|c k Hc _ IH]; [apply vsplit_0|]. cbn [app length vsplit]. by rewrite Hc, IH.
Qed.

Lemma vcells_all k : Forall (λ c, versioned c = true) k → vcells k = length k.
Proof. intros H. unfold vcells. by rewrite filter_all. Qed.
Lemma vcells_none k : Forall (λ c, versioned c = false) k → vcells k = 0.
Proof. intros H. unfold vcells. by rewrite filter_none. Qed.

Lemma vsplit_eq n l k r : vsplit n l = (k, r) → l = k ++ r.
Proof.
  revert n k r. induction l as [|c l IH]; intros [|n] k r; simpl; try by intros [= <- <-].
  destruct (vsplit _ l) as [k' r'] eqn:E. intros [= <- <-]. by rewrite (IH _ _ _ E).
Qed.

(** If the target is beyond, [k] is passed and what remains is split. *)
Lemma vsplit_trans n k l k' r :
  vcells k < n ∨ k = [] → vsplit (n - vcells k) l = (k', r) → vsplit n (k ++ l) = (k ++ k', r).
Proof.
  intros Hor H. destruct (decide (vcells k < n)) as [Hlt|Hge].
  - pose proof (vsplit_add (vcells k) (n - vcells k) k l eq_refl ltac:(lia)) as E.
    replace (vcells k + (n - vcells k)) with n in E by lia. by rewrite E, H.
  - destruct Hor as [?| ->]; [done|]. rewrite vcells_nil, Nat.sub_0_r in H. exact H.
Qed.

(** A stretch that a split passes: it stays below the target, or is versioned
    up to it at most. *)
Definition passes (n : nat) (k : list Cell) : Prop :=
  vcells k < n ∨ k = [] ∨ Forall (λ c, versioned c = true) k ∧ length k ≤ n.

Lemma vsplit_passes n k l :
  passes n k → vsplit n (k ++ l) = (k ++ (vsplit (n - vcells k) l).1, (vsplit (n - vcells k) l).2).
Proof.
  intros Hp. destruct (decide (vcells k < n)) as [Hlt|Hge].
  { apply vsplit_trans; [by left|apply surjective_pairing]. }
  destruct Hp as [?|[->|[Hk Hl]]]; [done|apply vsplit_trans; [by right|apply surjective_pairing]|].
  rewrite (vcells_all k Hk) in *. rewrite (vsplit_all n k l) by (done || lia).
  replace (n - length k) with 0 by lia. rewrite vsplit_0. by rewrite app_nil_r.
Qed.

Lemma skip_newer_none l : (∀ c, head l = Some c → newer c = false) → skip_newer l = ([], l).
Proof. destruct l as [|c l]; [done|]. intros H. simpl. by rewrite (H c eq_refl). Qed.

Lemma skip_newer_app g l : Forall (λ c, newer c = true) g → skip_newer (g ++ l) = (g ++ (skip_newer l).1, (skip_newer l).2).
Proof.
  induction 1 as [|c g Hc _ IH]; [apply surjective_pairing|]. simpl. rewrite Hc, IH. done.
Qed.
End remote.

(** A local edit's ranges, seen by a replica whose version covers every cell,
    mean the same change. *)
Definition to_remote (e : TextEdit) (range : nat * nat) : RemoteEditOp := mkRemoteEditOp range.1 range.2 (e_text e).

Lemma edited_remote version ts was idx pos off edits ranges c c' :
  edited ts idx pos off edits ranges c c' →
  Forall (λ x, versioned version x = true ∧ newer ts x = false ∧ was (c_timestamp x) (c_deletions x) = c_visible x) c →
  remote_cells version ts was idx off (zip_with to_remote edits ranges) c = c'.
Proof.
  induction 1 as [|idx pos off k r c c' t edits ranges _ IH]; [done|].
  intros [Hk [Hr Hc]%Forall_app]%Forall_app. cbn [zip_with remote_cells to_remote ro_start ro_end ro_text fst snd e_text].
  replace (idx + length k - idx) with (length k) by lia.
  rewrite (vsplit_all version (length k) k) by (done || by eapply Forall_impl; [exact Hk|intros ? (? & _)]).
  rewrite (skip_newer_none ts (r ++ c)).
  2: { intros x Hx. assert (x ∈ r ++ c) as Hin by (destruct (r ++ c); simplify_eq/=; left).
       apply Forall_app_2 with (l2 := c) in Hr; [|done]. rewrite Forall_forall in Hr. by apply (Hr x Hin). }
  replace (idx + length k + length r - (idx + length k)) with (length r) by lia.
  rewrite (vsplit_all version (length r) r) by (done || by eapply Forall_impl; [exact Hr|intros ? (? & _)]).
  rewrite (IH Hc). cbn [app]. do 3 f_equal. clear -Hr. induction Hr as [|x r (Hv & _ & Hw) _ IH]; [done|].
  rewrite !fmap_cons, IH. f_equal. unfold remote_delete, delete_cell. by rewrite Hv, Hw.
Qed.
