(* ===== verification/RemoteEdit.v ===== *)
(** * Remote edits ([Buffer::apply_remote_edit] of [crates/text/src/text.rs])

    The ranges of a remote operation are offsets in the full text as it was at
    the operation's version: they count the bytes, visible or deleted, of the
    insertions that version has observed.  The pass has the shape of the local
    one, with a cursor in these offsets, and skips concurrent insertions with
    larger timestamps at the insertion point. *)

From S2P Require Import Prelude Clock Text SumTree Cursor KeyedTree UndoMap Patch Fragment Cells BufferInv RemoteCells Undo.
From S2P Require Locator.

(** ** [VersionedFullOffset] *)

Inductive VersionedFullOffset := Offset (position : nat) | Invalid.

(** [None]: panic "invalid version". *)
Definition full_offset (o : VersionedFullOffset) : option nat :=
  match o with Offset position => Some position | Invalid => None end.

Definition versioned_add (version : Global) (d : VersionedFullOffset) (s : FragmentSummary) : VersionedFullOffset :=
  match d with
  | Offset offset =>
      if observed_all version (max_insertion_version s) then
        Offset (offset + (ts_visible (fs_text s) + ts_deleted (fs_text s)))
      else if observed_any version (min_insertion_version s) then Invalid
      else Offset offset
  | Invalid => Invalid
  end.

(** [SeekTarget]: the target is always an [Offset]. *)
Definition versioned_cmp (target : nat) (position : VersionedFullOffset) : comparison :=
  match position with Offset b => Nat.compare target b | Invalid => Lt end.

(** [Dimensions<VersionedFullOffset, usize>]. *)
Abbreviation RemotePosition := (VersionedFullOffset * nat)%type.
Definition add_remote (version : Global) (d : RemotePosition) (f : Fragment) : RemotePosition :=
  (versioned_add version d.1 (fragment_summary f), d.2 + ts_visible (fs_text (fragment_summary f))).

(** Seeking with [Bias::Left]. *)
Definition past_left (target : nat) (d : RemotePosition) : bool :=
  match versioned_cmp target d.1 with Gt => true | _ => false end.

(** ** The pass *)

Record RemoteState := mkRemoteState {
  r_old : FragmentCursor (D := RemotePosition);
  r_new : Insertion;
  r_ropes : RopeBuilder;
  r_start : nat;
  r_patch : Patch;
}.

Definition r_fragments (s : RemoteState) : list Fragment := in_fragments (r_new s).
Definition r_with_old (s : RemoteState) c : RemoteState := mkRemoteState c (r_new s) (r_ropes s) (r_start s) (r_patch s).
Definition r_with_start (s : RemoteState) fs : RemoteState := mkRemoteState (r_old s) (r_new s) (r_ropes s) fs (r_patch s).
Definition r_with_new (s : RemoteState) i r : RemoteState := mkRemoteState (r_old s) i r (r_start s) (r_patch s).
Definition r_with_patch (s : RemoteState) p : RemoteState := mkRemoteState (r_old s) (r_new s) (r_ropes s) (r_start s) p.

Section remote_edit.
Context (MAX_INSERTION_LEN : N) (version : Global) (undo_map : UndoTree) (timestamp : Lamport).
Implicit Types s : RemoteState.

Definition r_next s : RemoteState := r_with_old s (next (add_remote version) (r_old s)).

(** [old_fragments.start().0.full_offset()] and [end()]. *)
Definition old_full s : option nat := full_offset (start (r_old s)).1.
Definition end_full s : option nat := full_offset (end_ (add_remote version) (r_old s)).1.

(** The portion of the current fragment of length [len] from [r_start]. *)
Definition r_portion s (f : Fragment) (len : nat) : option Fragment :=
  start ← old_full s;
  skipped ← usub (r_start s) start;
  Some (mkFragment (f_id f) (f_timestamp f) (as_u32 (insertion_offset f + as_u32 skipped)) (as_u32 len)
          (visible f) (deletions f) (max_undos f)).

Definition r_squeeze_id s (f : Fragment) : Fragment :=
  mkFragment (Locator.between (max_id (summary_of (r_fragments s))) (f_id f)) (f_timestamp f) (insertion_offset f)
    (f_len f) (visible f) (deletions f) (max_undos f).

(** [new_ropes.push_fragment], [new_fragments.push], with or without an entry
    for the insertion index. *)
Definition r_push s (f : Fragment) (was_visible indexed : bool) : option RemoteState :=
  r ← push_fragment (r_ropes s) f was_visible;
  let i := r_new s in
  Some (r_with_new s (mkInsertion (in_offset i) (in_fragments i ++ [f])
    (in_insertions i ++ if indexed then [new_insertion f] else []) (in_slices i)) r).
Definition r_emit s (f : Fragment) (was_visible : bool) : option RemoteState := r_push s f was_visible true.

Definition r_append_slice s (sl : list Fragment) : option RemoteState :=
  r ← builder_append (r_ropes s) (fs_text (summary_of sl));
  let i := r_new s in
  Some (r_with_new s (mkInsertion (in_offset i) (in_fragments i ++ sl) (in_insertions i) (in_slices i)) r).

Definition r_consume_rest s : option RemoteState :=
  start ← old_full s;
  if start <? r_start s then
    fragment_end ← end_full s;
    s' ← (if r_start s <? fragment_end then
            f ← item (r_old s);
            suffix ← r_portion s f (fragment_end - r_start s);
            r_emit s suffix (visible suffix)
          else Some s);
    Some (r_next s')
  else Some s.

Definition r_slice_to s (target : nat) : option RemoteState :=
  let '(sl, c) := slice (add_remote version) (past_left target) (r_old s) in
  s ← r_append_slice s sl;
  let s := r_with_old s c in
  fs ← old_full s;
  Some (r_with_start s fs).

Definition r_jump s (range_start : nat) : option RemoteState :=
  fragment_end ← end_full s;
  if fragment_end <? range_start then s ← r_consume_rest s; r_slice_to s range_start else Some s.

(** "If we are at the end of a non-concurrent fragment, advance to the next one." *)
Definition finish_fragment s (range_start : nat) : option RemoteState :=
  fragment_end ← end_full s;
  if (fragment_end =? range_start) && (r_start s <? fragment_end) then
    f ← item (r_old s);
    fragment ← r_portion s f (fragment_end - r_start s);
    s ← r_emit s fragment (visible fragment);
    let s := r_next s in
    fs ← old_full s;
    Some (r_with_start s fs)
  else Some s.

(** "Skip over insertions that are concurrent to this edit, but have a lower
    lamport timestamp": the loop passes those with a larger one. *)
Fixpoint skip_concurrent (fuel : nat) s (range_start : nat) : option RemoteState :=
  match item (r_old s) with
  | Some f =>
      if (r_start s =? range_start) && ltb timestamp (f_timestamp f) then
        match fuel with
        | O => None
        | S fuel => s ← r_push s f (visible f) false; skip_concurrent fuel (r_next s) range_start
        end
      else Some s
  | None => Some s
  end.

Definition r_preserve_prefix s (range_start : nat) : option RemoteState :=
  if r_start s <? range_start then
    f ← item (r_old s);
    prefix ← r_portion s f (range_start - r_start s);
    s' ← r_emit s (r_squeeze_id s prefix) (visible prefix);
    Some (r_with_start s' range_start)
  else Some s.

Definition r_insert_text s (new_text : Text) : option RemoteState :=
  match new_text with
  | [] => Some s
  | _ =>
      start_full ← old_full s;
      skipped ← usub (r_start s) start_full;
      let old_start := (start (r_old s)).2 +
        (if match item (r_old s) with Some f => visible f | None => false end then skipped else 0) in
      let new_start := ts_visible (fs_text (summary_of (r_fragments s))) in
      let next_fragment_id := match item (r_old s) with Some f => f_id f | None => Locator.max end in
      i ← push_fragments_for_insertion MAX_INSERTION_LEN new_text timestamp next_fragment_id (r_new s);
      Some (r_with_patch (r_with_new s i (push_str (r_ropes s) new_text))
        (push (r_patch s) (mkEdit (mkRange old_start old_start) (mkRange new_start (new_start + length new_text)))))
  end.

Definition r_add_slice s (sl : InsertionSlice) : RemoteState :=
  let i := r_new s in
  r_with_new s (mkInsertion (in_offset i) (in_fragments i) (in_insertions i) (in_slices i ++ [sl])) (r_ropes s).

(** The part of the current fragment that meets the range, deleted if the
    operation's version saw it. *)
Definition r_intersection s (f : Fragment) (intersection_end : nat) : option (Fragment * bool) :=
  if observed version (f_timestamp f) then
    len ← usub intersection_end (r_start s);
    p ← r_portion s f len;
    let p := r_squeeze_id s p in
    was ← was_visible f version undo_map;
    Some (if was : bool then
            (mkFragment (f_id p) (f_timestamp p) (insertion_offset p) (f_len p) false
               (deletions p ++ [timestamp]) (max_undos p), true)
          else (p, false))
  else Some (f, false).

Definition r_delete_step s (range_end : nat) : option RemoteState :=
  f ← item (r_old s);
  fragment_end ← end_full s;
  let intersection_end := Nat.min range_end fragment_end in
  '(intersection, sliced) ← r_intersection s f intersection_end;
  let s := if sliced : bool then r_add_slice s (from_fragment timestamp intersection) else s in
  s ← (if 0 <? f_len intersection then
         s1 ← (if visible f && negb (visible intersection) then
                 start_full ← old_full s;
                 skipped ← usub (r_start s) start_full;
                 let old_start := (start (r_old s)).2 + skipped in
                 let new_start := ts_visible (fs_text (summary_of (r_fragments s))) in
                 Some (r_with_patch s (push (r_patch s)
                   (mkEdit (mkRange old_start (old_start + f_len intersection)) (mkRange new_start new_start))))
               else Some s);
         s2 ← r_emit s1 intersection (visible f);
         Some (r_with_start s2 intersection_end)
       else Some s);
  Some (if fragment_end <=? range_end then r_next s else s).

Fixpoint r_delete_loop (fuel : nat) s (range_end : nat) : option RemoteState :=
  if r_start s <? range_end then
    match fuel with
    | O => None
    | S fuel => s ← r_delete_step s range_end; r_delete_loop fuel s range_end
    end
  else Some s.

Definition r_edit_step s (e : RemoteEditOp) : option RemoteState :=
  s ← r_jump s (ro_start e);
  s ← finish_fragment s (ro_start e);
  s ← skip_concurrent (length (upcoming (r_old s))) s (ro_start e);
  _ ← (if r_start s <=? ro_start e then Some () else None); (* debug_assert *)
  s ← r_preserve_prefix s (ro_start e);
  s ← r_insert_text s (ro_text e);
  r_delete_loop (S (length (upcoming (r_old s)))) s (ro_end e).

Fixpoint r_edit_steps s (edits : list RemoteEditOp) : option RemoteState :=
  match edits with [] => Some s | e :: edits => s ← r_edit_step s e; r_edit_steps s edits end.

Record RemoteEdit := mkRemoteEdit {
  re_fragments : list Fragment;
  re_visible_text : Text;
  re_deleted_text : Text;
  re_insertions : list InsertionFragment;
  re_slices : list InsertionSlice;
  re_patch : Patch;
}.

Definition r_initial (fragments : list Fragment) (visible_text deleted_text : Text) : RemoteState :=
  mkRemoteState (cursor (Offset 0, 0) fragments) (mkInsertion 0 [] [] [])
    (new_builder (mkRopeCursor visible_text 0) (mkRopeCursor deleted_text 0)) 0 [].

Definition r_finish s : option RemoteEdit :=
  s ← r_consume_rest s;
  s ← r_append_slice s (suffix (r_old s));
  '(visible_text, deleted_text) ← finish (r_ropes s);
  Some (mkRemoteEdit (r_fragments s) visible_text deleted_text (in_insertions (r_new s)) (in_slices (r_new s)) (r_patch s)).

(** [edits]: the operation's ranges zipped with its texts. *)
Definition apply_remote_edit (fragments : list Fragment) (visible_text deleted_text : Text)
    (edits : list RemoteEditOp) : option RemoteEdit :=
  match edits with
  | [] => Some (mkRemoteEdit fragments visible_text deleted_text [] [] [])
  | first :: _ =>
      s ← r_slice_to (r_initial fragments visible_text deleted_text) (ro_start first);
      s ← r_edit_steps s edits;
      r_finish s
  end.
End remote_edit.
