(* ===== verification/RemoteEditOk.v ===== *)
(** * Remote edits are correct

    The pass of [RemoteEdit.v] succeeds and does to the cells what
    [RemoteCells.v] says, and its patch leads from the old to the new text. *)

From S2P Require Import Prelude Clock Text SumTree Cursor KeyedTree UndoMap Patch Fragment Cells BufferInv RemoteCells Undo RemoteEdit.
From S2P Require Locator.

(** ** Positions at the operation's version *)

Lemma zip_any_lookup {A B} (p : A → B → bool) l k :
  zip_any p l k = true → ∃ i x y, l !! i = Some x ∧ k !! i = Some y ∧ p x y = true.
Proof.
  revert k. induction l as [|x l IH]; intros [|y k]; try done. cbn [zip_any].
  intros [Hp|Hl]%orb_true_iff; [by exists 0, x, y|]. destruct (IH k Hl) as (i & x' & y' & ?). by exists (S i), x', y'.
Qed.

Lemma iter_lookup g i t : iter g !! i = Some t → value t = default 0%N (values g !! i).
Proof. unfold iter. rewrite list_lookup_imap. destruct (values g !! i); [|done]. by intros [= <-]. Qed.

Definition insertion_stamp (t : Lamport) : Prop := Lamport_wf t ∧ (0 < value t)%N.

(** The summary of one fragment holds one insertion: it is observed or not. *)
Lemma versioned_add_leaf version o f :
  Global_wf version → insertion_stamp (f_timestamp f) →
  versioned_add version (Offset o) (fragment_summary f) =
    Offset (o + if observed version (f_timestamp f) then f_len f else 0).
Proof.
  intros Hv [Ht Hpos]. set (g := observe new_global (f_timestamp f)).
  assert (∀ i, default 0%N (values g !! i) = if decide (i = N.to_nat (replica_id (f_timestamp f))) then value (f_timestamp f) else 0%N) as Hat.
  { intros i. pose proof (observe_at new_global (f_timestamp f) i) as Ho. cbn in Ho. fold g in Ho.
    rewrite Ho. destruct (decide _); [apply N.max_0_l|done]. }
  unfold versioned_add. change (max_insertion_version (fragment_summary f)) with g.
  change (min_insertion_version (fragment_summary f)) with g.
  destruct (observed version (f_timestamp f)) eqn:E.
  - rewrite (proj2 (observed_all_le version g Hv (observe_wf _ _ new_global_wf Ht))).
    + unfold fragment_summary, fragment_text. simpl. destruct (visible f); simpl; f_equal; lia.
    + intros i. change (default 0%N (values g !! i) <= default 0%N (values version !! i))%N. rewrite Hat.
      destruct (decide _) as [Hi|]; [|apply N.le_0_l]. apply N.leb_le in E. rewrite get_at in E. by rewrite Hi.
  - destruct (observed_all version g) eqn:Eall.
    { exfalso. apply (observed_all_le version g Hv (observe_wf _ _ new_global_wf Ht)) in Eall.
      specialize (Eall (N.to_nat (replica_id (f_timestamp f)))).
      change (default 0%N (values g !! N.to_nat (replica_id (f_timestamp f))) <= default 0%N (values version !! N.to_nat (replica_id (f_timestamp f))))%N in Eall. rewrite Hat, decide_True in Eall by done.
      apply N.leb_gt in E. rewrite get_at in E. exact (N.lt_irrefl _ (N.lt_le_trans _ _ _ E Eall)). }
    destruct (observed_any version g) eqn:Eany; [exfalso|by rewrite Nat.add_0_r].
    apply zip_any_lookup in Eany as (i & x & y & Hx%iter_lookup & Hy%iter_lookup & [Hp Hle]%andb_true_iff).
    rewrite Hat in Hy. case_decide as Hi; [|rewrite Hy in Hp; done]. apply N.leb_le in Hle. apply N.leb_gt in E.
    rewrite get_at, <- Hi, <- Hx in E. lia.
Qed.

(** ** The state of the pass

    [p] counts the bytes at the version before the current fragment, [v] and
    [d] the visible and deleted bytes; [r_start - p] bytes of the current
    fragment are consumed.  [cr] are the old cells not consumed yet. *)
Section proofs.
Context (MAX_INSERTION_LEN : N) (Hmax : (4 ≤ MAX_INSERTION_LEN ≤ u32_max)%N) (version : Global)
  (Hversion : Global_wf version) (undo_map : UndoTree) (ts : Lamport) (was : Lamport → list Lamport → bool).
Context (Hwas : ∀ f, observed version (f_timestamp f) = true →
  was_visible f version undo_map = Some (was (f_timestamp f) (deletions f))).
Context (V D : Text) (W : nat).
Implicit Types (s : RemoteState) (nv nd : Text) (cr k q : list Cell) (f g : Fragment) (l : list Fragment).

Local Abbreviation versioned := (versioned version).
Local Abbreviation vcells := (vcells version).
Local Abbreviation remote_delete := (remote_delete version ts was).

(** Observed insertions come before the operation. *)
Definition frag_seen f : Prop :=
  insertion_stamp (f_timestamp f) ∧ (observed version (f_timestamp f) = true → ltb ts (f_timestamp f) = false).

Definition weight f : nat := if observed version (f_timestamp f) then f_len f else 0.
Definition wlen l : nat := list_sum (weight <$> l).
Lemma wlen_cons f l : wlen (f :: l) = weight f + wlen l.
Proof. done. Qed.
Definition head_weight l : nat := match l with f :: _ => weight f | [] => 0 end.
Definition head_visible l : bool := match l with f :: _ => visible f | [] => false end.

(** The share of [a] consumed bytes in each rope. *)
Definition vpart l (a : nat) : nat := if head_visible l then a else 0.
Definition dpart l (a : nat) : nat := if head_visible l then 0 else a.

Record rrep s (p v d : nat) nv nd cr : Prop := {
  rr_start : start (r_old s) = (Offset p, v);
  rr_pos : p ≤ r_start s;
  rr_inside : r_start s = p ∨ r_start s < p + head_weight (upcoming (r_old s));
  rr_ropes : r_ropes s = builder V D (v + vpart (upcoming (r_old s)) (r_start s - p))
                           (d + dpart (upcoming (r_old s)) (r_start s - p)) nv nd;
  rr_wlen : p + wlen (upcoming (r_old s)) = W;
  rr_vlen : v + vlen (upcoming (r_old s)) = length V;
  rr_dlen : d + dlen (upcoming (r_old s)) = length D;
  rr_nv : vlen (r_fragments s) = length nv;
  rr_nd : dlen (r_fragments s) = length nd;
  rr_ids : ids_ok (r_fragments s ++ upcoming (r_old s));
  rr_frags : Forall frag_ok (r_fragments s ++ upcoming (r_old s));
  rr_seen : Forall frag_seen (upcoming (r_old s));
  rr_rest : cr = drop (r_start s - p) (cells (upcoming (r_old s)) (drop v V) (drop d D));
  rr_patch : patch_ok (r_patch s) (take (v + vpart (upcoming (r_old s)) (r_start s - p)) V) nv;
}.

Definition r_done s nv nd : list Cell := cells (r_fragments s) nv nd.

(** A step that consumes the cells [k] and produces the cells [q]. *)
Record rmoves s nv nd cr s' p' v' d' nv' nd' cr' k q : Prop := {
  rm_rep : rrep s' p' v' d' nv' nd' cr';
  rm_consumed : cr = k ++ cr';
  rm_produced : r_done s' nv' nd' = r_done s nv nd ++ q;
}.

(** Bytes and cells of the rest. *)
Lemma fcells_versioned f t : Forall (λ c, versioned c = observed version (f_timestamp f)) (fcells f t).
Proof.
  apply Forall_lookup. intros i c. unfold fcells. rewrite list_lookup_imap.
  destruct (t !! i); [|done]. by intros [= <-].
Qed.

Lemma fcells_weight f t : length t = f_len f → vcells (fcells f t) = weight f.
Proof.
  intros Ht. pose proof (fcells_versioned f t) as Hf. unfold weight. destruct (observed version (f_timestamp f)).
  - by rewrite vcells_all, fcells_length.
  - by apply vcells_none.
Qed.

Lemma vcells_cells l v d : vlen l ≤ length v → dlen l ≤ length d → vcells (cells l v d) = wlen l.
Proof.
  revert v d. induction l as [|f l IH]; intros v d; [done|]. rewrite vlen_cons, dlen_cons. cbn [cells].
  rewrite wlen_cons. destruct (visible f) eqn:E; [rewrite (vis_text f E)|rewrite (hid_text f E)]; simpl; intros Hv Hd;
    rewrite vcells_app, fcells_weight, IH; rewrite ?length_take, ?length_drop; lia.
Qed.

Lemma rr_positions s p v d nv nd cr : rrep s p v d nv nd cr → r_start s + vcells cr = W.
Proof.
  intros [_ Hpos Hin _ Hw Hv Hd _ _ _ _ _ -> _].
  destruct (upcoming (r_old s)) as [|f l] eqn:Hup.
  { simpl in Hin, Hw. unfold wlen in Hw. simpl in Hw. cbn [cells]. rewrite drop_nil. change (vcells []) with 0. lia. }
  pose proof (vcells_cells (f :: l) (drop v V) (drop d D)) as Hall. rewrite !length_drop in Hall.
  specialize (Hall ltac:(lia) ltac:(lia)).
  set (a := r_start s - p) in *. rewrite <- (take_drop a (cells _ _ _)), vcells_app in Hall.
  destruct (decide (a = 0)) as [E|Ha]; [rewrite E in *; rewrite drop_0, take_0 in *; change (vcells []) with 0 in Hall; lia|].
  assert (observed version (f_timestamp f) = true ∧ a < f_len f) as [Eo Hlt].
  { cbn [head_weight] in Hin. unfold weight in Hin. destruct (observed _ _); [split; [done|lia]|lia]. }
  rewrite vlen_cons, dlen_cons in *. enough (vcells (take a (cells (f :: l) (drop v V) (drop d D))) = a) by lia.
  cbn [cells]. destruct (visible f) eqn:E; [rewrite (vis_text f E) in *|rewrite (hid_text f E) in *]; simpl in Hv, Hd;
    (rewrite take_app_le by (rewrite fcells_length, length_take, length_drop; lia);
     rewrite vcells_all; [rewrite length_take, fcells_length, length_take, length_drop; lia|];
     apply Forall_take; rewrite <- Eo; apply fcells_versioned).
Qed.

(** ** Emitting a portion of the current fragment *)

Definition kill (c : Cell) : Cell :=
  mkCell (c_timestamp c) (c_offset c) (c_byte c) false (c_deletions c ++ [ts]) (c_undos c).
Definition killed (deleted : bool) (l : list Cell) : list Cell := if deleted then kill <$> l else l.

Record rpiece f g (a n : nat) (deleted : bool) : Prop := {
  rp_timestamp : f_timestamp g = f_timestamp f;
  rp_offset : insertion_offset g = insertion_offset f + a;
  rp_len : f_len g = n;
  rp_visible : visible g = if deleted then false else visible f;
  rp_deletions : deletions g = deletions f ++ (if deleted then [ts] else []);
  rp_undos : max_undos g = max_undos f;
}.

Lemma fcells_rpiece f g a n deleted t :
  rpiece f g a n deleted → fcells g (take n (drop a t)) = killed deleted (take n (drop a (fcells f t))).
Proof.
  intros [Ht Ho Hl Hv Hd Hu]. destruct deleted; cbn [killed] in *.
  - set (g0 := mkFragment (f_id g) (f_timestamp f) (insertion_offset f + a) n (visible f) (deletions f) (max_undos f)).
    rewrite <- (fcells_portion f g0 a n t) by done. apply list_eq. intros i.
    unfold fcells. rewrite list_lookup_fmap, !list_lookup_imap. destruct (take n (drop a t) !! i); [|done].
    simpl. unfold cell_of, kill. simpl. by rewrite Ht, Ho, Hv, Hd, Hu.
  - rewrite app_nil_r in Hd. by apply fcells_portion.
Qed.

Lemma killed_remote f t deleted :
  deleted = observed version (f_timestamp f) && was (f_timestamp f) (deletions f) →
  ∀ a n, killed deleted (take n (drop a (fcells f t))) = remote_delete <$> take n (drop a (fcells f t)).
Proof.
  intros Hdel a n. assert (Forall (λ c, c_timestamp c = f_timestamp f ∧ c_deletions c = deletions f) (take n (drop a (fcells f t)))) as Hf.
  { apply Forall_take, Forall_drop, Forall_lookup. intros i c. unfold fcells. rewrite list_lookup_imap.
    destruct (t !! i); [|done]. by intros [= <-]. }
  revert Hf. generalize (take n (drop a (fcells f t))) as x. induction 1 as [|c x [Ht Hd] _ IH].
  { unfold killed. by destruct deleted. }
  rewrite fmap_cons, <- IH. unfold RemoteCells.remote_delete, RemoteCells.versioned.
  rewrite <- Ht, <- Hd in Hdel. rewrite <- Hdel. unfold killed. by destruct deleted.
Qed.

(** The next [n] bytes of the current fragment. *)
Definition part_bytes f (v d a n : nat) : Text :=
  if visible f then take n (drop (v + a) V) else take n (drop (d + a) D).

Lemma rest_part f l v d a n :
  v + vlen (f :: l) = length V → d + dlen (f :: l) = length D → a + n ≤ f_len f →
  let t := part_bytes f v d a n in
  length t = n ∧ take n (drop a (cells (f :: l) (drop v V) (drop d D))) =
    take n (drop a (fcells f (part_bytes f v d 0 (f_len f)))) ∧ t = take n (drop a (part_bytes f v d 0 (f_len f))).
Proof.
  rewrite vlen_cons, dlen_cons. intros Hv Hd Hn. unfold part_bytes. cbn [cells]. rewrite !Nat.add_0_r.
  destruct (visible f) eqn:E; [rewrite (vis_text f E) in *|rewrite (hid_text f E) in *]; simpl in Hv, Hd.
  - split; [rewrite length_take, length_drop; lia|]. split.
    + rewrite drop_app_le by (rewrite fcells_length, length_take, length_drop; lia).
      apply take_app_le. rewrite length_drop, fcells_length, length_take, length_drop. lia.
    + rewrite skipn_firstn_comm, drop_drop, take_take. by rewrite Nat.min_l by lia.
  - split; [rewrite length_take, length_drop; lia|]. split.
    + rewrite drop_app_le by (rewrite fcells_length, length_take, length_drop; lia).
      apply take_app_le. rewrite length_drop, fcells_length, length_take, length_drop. lia.
    + rewrite skipn_firstn_comm, drop_drop, take_take. by rewrite Nat.min_l by lia.
Qed.

Definition pushed s g (idx : bool) r : RemoteState :=
  let i := r_new s in
  r_with_new s (mkInsertion (in_offset i) (in_fragments i ++ [g])
    (in_insertions i ++ if idx then [new_insertion g] else []) (in_slices i)) r.

(** What emitting [g], made of the next [n] bytes, gives. *)
Record emission s f g (v d n : nat) nv nd cr (deleted : bool) nv' nd' (a : nat) : Prop := {
  em_push : ∀ idx, r_push s g (visible f) idx =
    Some (pushed s g idx (builder V D (v + (if visible f then a + n else 0)) (d + (if visible f then 0 else a + n)) nv' nd'));
  em_cells : cells (r_fragments s ++ [g]) nv' nd' = r_done s nv nd ++ killed deleted (take n cr);
  em_nv : vlen (r_fragments s ++ [g]) = length nv';
  em_nd : dlen (r_fragments s ++ [g]) = length nd';
  em_ok : frag_ok g;
  em_new : nv' = nv ++ (if visible g then part_bytes f v d a n else []);
  em_old : take (v + (if visible f then a + n else 0)) V =
    take (v + (if visible f then a else 0)) V ++ (if visible f then part_bytes f v d a n else []);
  em_bytes : length (part_bytes f v d a n) = n;
}.

Lemma emission_ok s p v d nv nd cr f l g n deleted :
  rrep s p v d nv nd cr → upcoming (r_old s) = f :: l → 0 < n → r_start s - p + n ≤ f_len f →
  rpiece f g (r_start s - p) n deleted →
  ∃ nv' nd', emission s f g v d n nv nd cr deleted nv' nd' (r_start s - p).
Proof.
  intros [_ _ _ Hr _ Hv Hd Hnv Hnd _ Hfr _ Hrest _] Hup Hn Hle Hp. rewrite Hup in *.
  cbn [vpart dpart head_visible] in *. set (a := r_start s - p) in *.
  destruct (rest_part f l v d a n Hv Hd Hle) as (Ht & Hrest1 & Ht1). set (t := part_bytes f v d a n) in *.
  pose proof Hp as [_ Ho Hl Hvis _ _]. apply Forall_app in Hfr as [_ [[Hf0 Hf32] _]%Forall_cons].
  exists (if visible g then nv ++ t else nv), (if visible g then nd else nd ++ t).
  assert (length t = f_len g) as Ht' by congruence.
  rewrite vlen_cons, dlen_cons in *. unfold vpart, dpart in Hr. cbn [head_visible] in Hr. split.
  - intros idx. unfold r_push, push_fragment. rewrite Hr, (proj2 (Nat.ltb_lt 0 (f_len g))), Hl by lia. unfold t, part_bytes.
    destruct (visible f) eqn:E; [rewrite (vis_text f E) in *|rewrite (hid_text f E) in *]; simpl in Hv, Hd; rewrite ?Nat.add_0_r.
    + rewrite push_visible_ok by lia. by rewrite Nat.add_assoc.
    + rewrite push_deleted_ok by lia. by rewrite Nat.add_assoc.
  - rewrite (cells_snoc (r_fragments s) g nv nd t Hnv Hnd Ht'). unfold r_done. f_equal.
    rewrite Ht1, (fcells_rpiece f g a n deleted _ Hp), Hrest. by rewrite Hrest1.
  - rewrite vlen_app, vlen_one, Hnv. destruct (visible g) eqn:E; [rewrite (vis_text g E)|rewrite (hid_text g E)]; simpl; rewrite ?length_app; lia.
  - rewrite dlen_app, dlen_one, Hnd. destruct (visible g) eqn:E; [rewrite (vis_text g E)|rewrite (hid_text g E)]; simpl; rewrite ?length_app; lia.
  - split; [lia|]. rewrite Ho, Hl. apply (is_u32_le _ (insertion_offset f + f_len f)); [lia|done].
  - destruct (visible g); [done|by rewrite app_nil_r].
  - unfold t, part_bytes. destruct (visible f); [|by rewrite app_nil_r]. by rewrite take_take_drop, Nat.add_assoc.
  - done.
Qed.

(** The patch after an emission. *)
Lemma emission_kept s p v d nv nd cr f l g n deleted nv' nd' :
  rrep s p v d nv nd cr → upcoming (r_old s) = f :: l →
  emission s f g v d n nv nd cr deleted nv' nd' (r_start s - p) → visible g = visible f →
  patch_ok (r_patch s) (take (v + (if visible f then r_start s - p + n else 0)) V) nv'.
Proof.
  intros Hrep Hup He Hvis. pose proof (rr_patch _ _ _ _ _ _ _ Hrep) as Hp. rewrite Hup in Hp.
  rewrite (em_old _ _ _ _ _ _ _ _ _ _ _ _ _ He), (em_new _ _ _ _ _ _ _ _ _ _ _ _ _ He), Hvis.
  by apply patch_ok_keep.
Qed.

Lemma rr_vis_le s p v d nv nd cr f l n :
  rrep s p v d nv nd cr → upcoming (r_old s) = f :: l → visible f = true → n ≤ f_len f → v + n ≤ length V.
Proof.
  intros Hrep Hup E Hn. pose proof (rr_vlen _ _ _ _ _ _ _ Hrep) as Hv. rewrite Hup, vlen_cons, (vis_text f E) in Hv.
  simpl in Hv. lia.
Qed.

Lemma emission_removed s p v d nv nd cr f l g n deleted nv' nd' :
  rrep s p v d nv nd cr → upcoming (r_old s) = f :: l → r_start s - p + n ≤ f_len f →
  emission s f g v d n nv nd cr deleted nv' nd' (r_start s - p) → visible f = true → visible g = false →
  patch_ok (push (r_patch s) (mkEdit (mkRange (v + (r_start s - p)) (v + (r_start s - p) + n))
      (mkRange (vlen (r_fragments s)) (vlen (r_fragments s)))))
    (take (v + (r_start s - p + n)) V) nv'.
Proof.
  intros Hrep Hup Hle [_ _ _ _ _ -> Hold Ht] E Eg. pose proof (rr_patch _ _ _ _ _ _ _ Hrep) as Hp.
  rewrite Hup in Hp. unfold vpart in Hp. cbn [head_visible] in Hp. rewrite E in *. rewrite Hold, Eg.
  pose proof (patch_ok_push _ _ _ (part_bytes f v d (r_start s - p) n) [] Hp) as Hpush.
  pose proof (rr_vis_le _ _ _ _ _ _ _ f l (r_start s - p) Hrep Hup E ltac:(lia)).
  rewrite length_take, Nat.min_l, Ht, Nat.add_0_r in Hpush by lia.
  by rewrite (rr_nv _ _ _ _ _ _ _ Hrep).
Qed.

(** Advancing strictly inside an observed fragment. *)
Lemma advance_inside s s1 p v d nv nd cr f l g n deleted nv' nd' :
  rrep s p v d nv nd cr → upcoming (r_old s) = f :: l →
  emission s f g v d n nv nd cr deleted nv' nd' (r_start s - p) →
  observed version (f_timestamp f) = true → r_start s - p + n < f_len f →
  ids_ok (r_fragments s ++ g :: f :: l) →
  r_old s1 = r_old s → r_fragments s1 = r_fragments s ++ [g] →
  r_ropes s1 = builder V D (v + (if visible f then r_start s - p + n else 0)) (d + (if visible f then 0 else r_start s - p + n)) nv' nd' →
  r_start s1 = r_start s + n →
  patch_ok (r_patch s1) (take (v + (if visible f then r_start s - p + n else 0)) V) nv' →
  rmoves s nv nd cr s1 p v d nv' nd' (drop n cr) (take n cr) (killed deleted (take n cr)).
Proof.
  intros [Hst Hpos Hin Hr Hw Hv Hd Hnv Hnd Hids Hfr Hseen Hrest Hpatch] Hup [_ Hc Hnv' Hnd' Hok _ _ _] Ho Hlt Hids'
    Eold Efr Er Es Hp. rewrite Hup in *.
  split; [|by rewrite take_drop|unfold r_done; rewrite Efr; exact Hc].
  assert (r_start s + n - p = r_start s - p + n) as Ea by lia.
  split; rewrite ?Eold, ?Efr, ?Es, ?Hup, ?Ea; try done.
  - lia.
  - right. cbn [head_weight]. unfold weight. rewrite Ho. lia.
  - by rewrite <- app_assoc.
  - rewrite <- app_assoc. apply Forall_app in Hfr as [? ?]. apply Forall_app. split; [done|by constructor].
  - by rewrite Hrest, drop_drop.
Qed.

(** Passing the current fragment. *)
Lemma advance_next s s1 p v d nv nd cr f l g n deleted nv' nd' :
  rrep s p v d nv nd cr → upcoming (r_old s) = f :: l →
  emission s f g v d n nv nd cr deleted nv' nd' (r_start s - p) →
  r_start s - p + n = f_len f → ids_ok (r_fragments s ++ g :: l) →
  r_old s1 = next (add_remote version) (r_old s) → r_fragments s1 = r_fragments s ++ [g] →
  r_ropes s1 = builder V D (v + (if visible f then r_start s - p + n else 0)) (d + (if visible f then 0 else r_start s - p + n)) nv' nd' →
  r_start s1 = p + weight f →
  patch_ok (r_patch s1) (take (v + (if visible f then r_start s - p + n else 0)) V) nv' →
  rmoves s nv nd cr s1 (p + weight f) (v + ts_visible (fragment_text f)) (d + ts_deleted (fragment_text f))
    nv' nd' (drop n cr) (take n cr) (killed deleted (take n cr)).
Proof.
  intros [Hst Hpos Hin Hr Hw Hv Hd Hnv Hnd Hids Hfr Hseen Hrest Hpatch] Hup [_ Hc Hnv' Hnd' Hok _ _ _] Hn Hids'
    Eold Efr Er Es Hp. rewrite Hup in *. rewrite Hn in *.
  split; [|by rewrite take_drop|unfold r_done; rewrite Efr; exact Hc].
  assert (start (r_old s1) = (Offset (p + weight f), v + ts_visible (fragment_text f)) ∧ upcoming (r_old s1) = l) as [Est El].
  { rewrite Eold. unfold next. rewrite Hup. cbn [start upcoming]. split; [|done]. apply Forall_cons in Hseen as [[Hs _] _].
    unfold add_remote. rewrite Hst. cbn [fst snd]. by rewrite versioned_add_leaf. }
  assert ((if visible f then f_len f else 0) = ts_visible (fragment_text f) ∧
    (if visible f then 0 else f_len f) = ts_deleted (fragment_text f)) as [Ev Ed].
  { unfold fragment_text. by destruct (visible f). }
  rewrite Ev in *. rewrite Ed in *. rewrite vlen_cons, dlen_cons in *.
  split; rewrite ?El, ?Efr, ?Es, ?Est, ?Nat.sub_diag; try done.
  - by left.
  - rewrite Er. unfold vpart, dpart. destruct (head_visible l); by rewrite !Nat.add_0_r.
  - rewrite wlen_cons in Hw. lia.
  - lia.
  - lia.
  - by rewrite <- app_assoc.
  - rewrite <- app_assoc. apply Forall_app in Hfr as [? [_ ?]%Forall_cons]. apply Forall_app. split; [done|by constructor].
  - by apply Forall_cons in Hseen as [_ ?].
  - rewrite drop_0, Hrest, drop_drop, Hn. cbn [cells]. destruct (visible f) eqn:E.
    + rewrite drop_app_length' by (rewrite fcells_length, length_take, length_drop, (vis_text f E) in *; simpl in *; lia).
      rewrite (vis_text f E), drop_drop. cbn. by rewrite Nat.add_0_r.
    + rewrite drop_app_length' by (rewrite fcells_length, length_take, length_drop, (hid_text f E) in *; simpl in *; lia).
      rewrite (hid_text f E), drop_drop. cbn. by rewrite Nat.add_0_r.
  - replace (vpart l 0) with 0 by (unfold vpart; by destruct (head_visible l)). by rewrite Nat.add_0_r.
Qed.

(** ** The parts of one edit *)

Lemma old_full_ok s p v d nv nd cr : rrep s p v d nv nd cr → old_full s = Some p.
Proof. intros H. unfold old_full. by rewrite (rr_start _ _ _ _ _ _ _ H). Qed.

Lemma end_full_ok s p v d nv nd cr :
  rrep s p v d nv nd cr → end_full version s = Some (p + head_weight (upcoming (r_old s))).
Proof.
  intros H. unfold end_full, end_. pose proof (rr_seen _ _ _ _ _ _ _ H) as Hs. rewrite (rr_start _ _ _ _ _ _ _ H).
  destruct (upcoming (r_old s)) as [|f l]; [by rewrite Nat.add_0_r|]. apply Forall_cons in Hs as [[Hs _] _].
  unfold add_remote. cbn [fst]. by rewrite versioned_add_leaf.
Qed.

Lemma r_portion_ok s p v d nv nd cr f l n :
  rrep s p v d nv nd cr → upcoming (r_old s) = f :: l → r_start s - p + n ≤ f_len f →
  ∃ g, r_portion s f n = Some g ∧ f_id g = f_id f ∧ rpiece f g (r_start s - p) n false.
Proof.
  intros H Hup Hle. pose proof (rr_frags _ _ _ _ _ _ _ H) as Hfr. rewrite Hup in Hfr.
  apply Forall_app in Hfr as [_ [[Hf0 Hf32] _]%Forall_cons]. unfold r_portion. rewrite (old_full_ok _ _ _ _ _ _ _ H).
  pose proof (rr_pos _ _ _ _ _ _ _ H). cbn [mbind option_bind]. rewrite usub_le by lia. cbn [mbind option_bind].
  eexists. split; [done|]. split; [done|]. split; simpl; try done.
  - rewrite (as_u32_small (_ - _)) by (apply (is_u32_le _ (insertion_offset f + f_len f)); [lia|done]).
    apply as_u32_small, (is_u32_le _ (insertion_offset f + f_len f)); [lia|done].
  - apply as_u32_small, (is_u32_le _ (insertion_offset f + f_len f)); [lia|done].
  - by rewrite app_nil_r.
Qed.

Lemma take_versioned s p v d nv nd cr f l n :
  rrep s p v d nv nd cr → upcoming (r_old s) = f :: l → r_start s - p + n ≤ f_len f →
  length (take n cr) = n ∧ Forall (λ c, versioned c = observed version (f_timestamp f)) (take n cr) ∧
  take n cr = take n (drop (r_start s - p) (fcells f (part_bytes f v d 0 (f_len f)))).
Proof.
  intros [_ _ _ _ _ Hv Hd _ _ _ _ _ -> _] Hup Hle. rewrite Hup in *.
  destruct (rest_part f l v d (r_start s - p) n Hv Hd Hle) as (Ht & -> & E).
  split; [|split; [|done]].
  - rewrite E, length_take, length_drop in Ht. rewrite length_take, length_drop, fcells_length. lia.
  - apply Forall_take, Forall_drop, fcells_versioned.
Qed.

(** Below the end of the current fragment, it is observed. *)
Lemma inside_observed s p v d nv nd cr x :
  rrep s p v d nv nd cr → r_start s ≤ x < p + head_weight (upcoming (r_old s)) →
  ∃ f l, upcoming (r_old s) = f :: l ∧ observed version (f_timestamp f) = true ∧ weight f = f_len f.
Proof.
  intros H Hx. pose proof (rr_pos _ _ _ _ _ _ _ H). destruct (upcoming (r_old s)) as [|f l]; [simpl in Hx; lia|].
  exists f, l. cbn [head_weight] in Hx. unfold weight in *. destruct (observed version (f_timestamp f)); [done|lia].
Qed.

Lemma emit_rest_ok s p v d nv nd cr f l :
  rrep s p v d nv nd cr → upcoming (r_old s) = f :: l → r_start s < p + weight f →
  let n := p + weight f - r_start s in
  ∃ g s1 v' d' nv' nd', r_portion s f n = Some g ∧ r_emit s g (visible g) = Some s1 ∧
    old_full (r_next version s1) = Some (p + weight f) ∧ in_offset (r_new s1) = in_offset (r_new s) ∧
    rmoves s nv nd cr (r_with_start (r_next version s1) (p + weight f)) (p + weight f) v' d' nv' nd' (drop n cr) (take n cr) (take n cr).
Proof.
  intros H Hup Hlt. cbv zeta. pose proof (rr_pos _ _ _ _ _ _ _ H) as Hpos. pose proof (rr_inside _ _ _ _ _ _ _ H) as Hin.
  assert (weight f = f_len f) as Ew by (unfold weight in *; destruct (observed _ _); [done|lia]).
  rewrite Ew in *. set (n := p + f_len f - r_start s).
  destruct (r_portion_ok s p v d nv nd cr f l n H Hup ltac:(lia)) as (g & Hg & Hid & Hp).
  destruct (emission_ok s p v d nv nd cr f l g n false H Hup ltac:(lia) ltac:(lia) Hp) as (nv' & nd' & He).
  pose proof (rp_visible _ _ _ _ _ Hp) as Hvis. cbn in Hvis.
  pose proof (em_push _ _ _ _ _ _ _ _ _ _ _ _ _ He true) as Hpush.
  eexists g, _, _, _, nv', nd'. split; [done|]. split; [unfold r_emit; rewrite Hvis; exact Hpush|].
  pose proof (rr_ids _ _ _ _ _ _ _ H) as Hids. rewrite Hup in Hids.
  assert (ids_ok (r_fragments s ++ g :: l)) as Hids'.
  { apply (ids_ok_same (r_fragments s ++ f :: l)); [|done]. rewrite !ids_app. cbn. by rewrite Hid. }
  set (s1 := pushed s g true _).
  pose proof (advance_next s (r_with_start (r_next version s1) (p + f_len f)) p v d nv nd cr f l g n false nv' nd' H Hup He ltac:(lia) Hids')
    as Hadv. rewrite Ew in Hadv.
  assert (rmoves s nv nd cr (r_with_start (r_next version s1) (p + f_len f)) (p + f_len f) (v + ts_visible (fragment_text f))
    (d + ts_deleted (fragment_text f)) nv' nd' (drop n cr) (take n cr) (take n cr)) as Hm.
  { apply Hadv; try done. by apply (emission_kept s p v d nv nd cr f l g n false nv' nd'). }
  split; [|split; [done|exact Hm]].
  pose proof (old_full_ok _ _ _ _ _ _ _ (rm_rep _ _ _ _ _ _ _ _ _ _ _ _ _ Hm)) as Hf. exact Hf.
Qed.

Lemma r_with_start_same s : r_with_start s (r_start s) = s.
Proof. by destruct s. Qed.

Lemma rmoves_refl s p v d nv nd cr : rrep s p v d nv nd cr → rmoves s nv nd cr s p v d nv nd cr [] [].
Proof. intros H. by split; rewrite ?app_nil_r. Qed.

Lemma rmoves_trans s nv nd cr s1 p1 v1 d1 nv1 nd1 cr1 s2 p2 v2 d2 nv2 nd2 cr2 k1 q1 k2 q2 :
  rmoves s nv nd cr s1 p1 v1 d1 nv1 nd1 cr1 k1 q1 → rmoves s1 nv1 nd1 cr1 s2 p2 v2 d2 nv2 nd2 cr2 k2 q2 →
  rmoves s nv nd cr s2 p2 v2 d2 nv2 nd2 cr2 (k1 ++ k2) (q1 ++ q2).
Proof.
  intros [_ -> E1] [H -> E2]. split; [done|by rewrite <- app_assoc|]. by rewrite E2, E1, <- app_assoc.
Qed.

Lemma rmoves_positions s p v d nv nd cr s' p' v' d' nv' nd' cr' k q :
  rrep s p v d nv nd cr → rmoves s nv nd cr s' p' v' d' nv' nd' cr' k q → r_start s' = r_start s + vcells k.
Proof.
  intros H [H' -> _]. pose proof (rr_positions _ _ _ _ _ _ _ H) as E. pose proof (rr_positions _ _ _ _ _ _ _ H') as E'.
  rewrite vcells_app in E. lia.
Qed.

Lemma r_consume_rest_ok s p v d nv nd cr :
  rrep s p v d nv nd cr →
  ∃ s' p' v' d' nv' nd' cr' k, r_consume_rest version s = Some s' ∧
    rmoves s nv nd cr (r_with_start s' p') p' v' d' nv' nd' cr' k k ∧
    p' ≤ p + head_weight (upcoming (r_old s)) ∧ in_offset (r_new s') = in_offset (r_new s) ∧ (k ≠ [] → r_start s < p').
Proof.
  intros H. pose proof (rr_pos _ _ _ _ _ _ _ H) as Hpos. pose proof (rr_inside _ _ _ _ _ _ _ H) as Hin.
  unfold r_consume_rest. rewrite (old_full_ok _ _ _ _ _ _ _ H). cbn [mbind option_bind].
  destruct (Nat.ltb_spec p (r_start s)) as [Hlt|Hge].
  2: { exists s, p, v, d, nv, nd, cr, []. assert (r_with_start s p = s) as E.
       { replace p with (r_start s) by lia. apply r_with_start_same. }
       split_and!; [done|rewrite E; by apply rmoves_refl|lia|done|done]. }
  rewrite (end_full_ok _ _ _ _ _ _ _ H). cbn [mbind option_bind]. destruct Hin as [?|Hin]; [lia|].
  rewrite (proj2 (Nat.ltb_lt _ _) Hin).
  destruct (inside_observed s p v d nv nd cr (r_start s) H ltac:(lia)) as (f & l & Hup & Ho & Ew).
  unfold item. rewrite Hup in *. cbn [head mbind option_bind head_weight] in *.
  destruct (emit_rest_ok s p v d nv nd cr f l H Hup Hin) as (g & s1 & v' & d' & nv' & nd' & -> & Hs1 & Hf & Hoff & Hm).
  cbn [mbind option_bind]. rewrite Hs1. cbn [mbind option_bind].
  exists (r_next version s1), (p + weight f), v', d', nv', nd'. do 2 eexists. split; [done|]. split; [exact Hm|]. split_and!; [lia|done|lia].
Qed.

Lemma finish_fragment_ok s p v d nv nd cr rs :
  rrep s p v d nv nd cr → r_start s ≤ rs ≤ p + head_weight (upcoming (r_old s)) →
  ∃ s' p' v' d' nv' nd' cr' k, finish_fragment version s rs = Some s' ∧
    rmoves s nv nd cr s' p' v' d' nv' nd' cr' k k ∧ in_offset (r_new s') = in_offset (r_new s) ∧
    (r_start s' = rs ∨ k = [] ∧ rs < p' + head_weight (upcoming (r_old s'))) ∧
    Forall (λ c, versioned c = true) k.
Proof.
  intros H Hrs. unfold finish_fragment. rewrite (end_full_ok _ _ _ _ _ _ _ H). cbn [mbind option_bind].
  destruct (Nat.eqb_spec (p + head_weight (upcoming (r_old s))) rs) as [E|E]; [destruct (Nat.ltb_spec (r_start s) (p + head_weight (upcoming (r_old s)))) as [Hlt|Hge]|]; cbn [andb].
  - destruct (inside_observed s p v d nv nd cr (r_start s) H ltac:(lia)) as (f & l & Hup & Ho & Ew).
    unfold item. rewrite Hup in *. cbn [head mbind option_bind head_weight] in *.
    destruct (emit_rest_ok s p v d nv nd cr f l H Hup Hlt) as (g & s1 & v' & d' & nv' & nd' & -> & Hs1 & Hf & Hoff & Hm).
    cbn [mbind option_bind]. rewrite Hs1. cbn [mbind option_bind]. rewrite Hf. cbn [mbind option_bind].
    do 8 eexists. split; [done|]. split; [exact Hm|]. split; [done|]. split; [by left|].
    rewrite <- Ho. apply (take_versioned s p v d nv nd cr f l _ H Hup).
    pose proof (rr_pos _ _ _ _ _ _ _ H). lia.
  - exists s, p, v, d, nv, nd, cr, []. split_and!; [done|by apply rmoves_refl|done|left; lia|constructor].
  - exists s, p, v, d, nv, nd, cr, []. split_and!; [done|by apply rmoves_refl|done|right; split; [done|lia]|constructor].
Qed.

Lemma r_slice_from_ok target p v l :
  Forall frag_seen l →
  let '(sk, c) := slice_from (add_remote version) (past_left target) (Offset p, v) l in
  l = sk ++ upcoming c ∧ start c = (Offset (p + wlen sk), v + vlen sk) ∧ (sk = [] ∨ p + wlen sk < target) ∧
  (upcoming c = [] ∨ target ≤ p + wlen sk + head_weight (upcoming c)).
Proof.
  intros Hs. revert p v. induction Hs as [|f l [Hf _] _ IH]; intros p v; cbn [slice_from].
  { cbn. rewrite !Nat.add_0_r. split_and!; [done|done|by left|by left]. }
  assert (add_remote version (Offset p, v) f = (Offset (p + weight f), v + ts_visible (fragment_text f))) as ->.
  { unfold add_remote. cbn [fst snd]. by rewrite versioned_add_leaf. }
  unfold past_left at 1. cbn [fst versioned_cmp]. destruct (Nat.compare_spec target (p + weight f)) as [E|E|E].
  1,2: cbn; rewrite !Nat.add_0_r; split_and!; [done|done|by left|right; lia].
  specialize (IH (p + weight f) (v + ts_visible (fragment_text f))).
  destruct (slice_from _ _ _ l) as [sk c]. destruct IH as (-> & -> & Hsk & Hc).
  rewrite wlen_cons, vlen_cons, !Nat.add_assoc. split_and!; [done|done| |].
  - right. destruct Hsk as [->|?]; [|lia]. unfold wlen. simpl. lia.
  - destruct Hc as [?|?]; [by left|by right].
Qed.

Lemma r_slice_to_ok s p v d nv nd cr target :
  let s0 := r_with_start s p in
  rrep s0 p v d nv nd cr → p ≤ target ≤ W →
  ∃ s' p' v' d' nv' nd' cr' k, r_slice_to version s target = Some s' ∧ rmoves s0 nv nd cr s' p' v' d' nv' nd' cr' k k ∧
    r_start s' ≤ target ≤ p' + head_weight (upcoming (r_old s')) ∧ (k = [] ∨ r_start s' < target) ∧
    in_offset (r_new s') = in_offset (r_new s).
Proof.
  cbv zeta. intros [Hst Hpos _ Hr Hw Hv Hd Hnv Hnd Hids Hfr Hseen Hrest Hpatch] Ht.
  destruct s as [[st up] [off nf ni sl] r fs pa]. unfold r_fragments, r_with_start in *.
  cbn [r_old r_new r_ropes r_start r_patch start upcoming in_fragments in_offset] in *.
  assert (∀ l, vpart l (p - p) = 0 ∧ dpart l (p - p) = 0) as Hz
    by (intros l; rewrite Nat.sub_diag; unfold vpart, dpart; by destruct (head_visible l)).
  destruct (Hz up) as [Ev Ed]. rewrite Ev, Ed, !Nat.add_0_r in *. rewrite Nat.sub_diag, drop_0 in Hrest. subst st.
  unfold r_slice_to, slice. cbn [r_old start upcoming]. pose proof (r_slice_from_ok target p v up Hseen) as Hsl.
  destruct (slice_from _ _ _ up) as [sk c]. destruct Hsl as (-> & Hst & Hsk & Hc). clear Ev Ed.
  assert (wlen (sk ++ upcoming c) = wlen sk + wlen (upcoming c)) as Ewl by (unfold wlen; by rewrite fmap_app, list_sum_app).
  rewrite Ewl in Hw. rewrite vlen_app in Hv. rewrite dlen_app in Hd.
  unfold r_append_slice. cbn [r_ropes r_new]. rewrite summary_text, Hr, builder_append_ok by lia.
  cbn [mbind option_bind]. match goal with |- context [old_full ?x] => change (old_full x) with (full_offset (start c).1) end.
  rewrite Hst. cbn [fst full_offset mbind option_bind].
  do 8 eexists. split; [done|]. split; [split; [split|..]|]; unfold r_with_start, r_with_old, r_with_new, r_fragments, r_done;
    cbn [r_old r_new r_ropes r_start r_patch in_fragments in_offset].
  - exact Hst.
  - done.
  - by left.
  - destruct (Hz (upcoming c)) as [E1 E2]. rewrite Nat.sub_diag in *. rewrite E1, E2, !Nat.add_0_r. done.
  - lia.
  - lia.
  - lia.
  - rewrite vlen_app, length_app, length_take, length_drop. unfold r_fragments in Hnv. simpl in Hnv. lia.
  - rewrite dlen_app, length_app, length_take, length_drop. unfold r_fragments in Hnd. simpl in Hnd. lia.
  - by rewrite <- app_assoc.
  - by rewrite <- app_assoc.
  - by apply Forall_app in Hseen as [_ ?].
  - by rewrite Nat.sub_diag, drop_0.
  - destruct (Hz (upcoming c)) as [E1 E2]. rewrite Nat.sub_diag in *. rewrite E1, Nat.add_0_r, <- take_take_drop. by apply patch_ok_keep.
  - rewrite Hrest, cells_app, !drop_drop. reflexivity.
  - unfold r_fragments in *. cbn [r_new in_fragments] in *. rewrite cells_append by done. f_equal.
    rewrite <- (take_drop (vlen sk) (drop v V)) at 2. rewrite <- (take_drop (dlen sk) (drop d D)) at 2.
    rewrite cells_ext; [done|rewrite length_take, length_drop; lia..].
  - split; [|split; [|done]].
    + split; [destruct Hsk as [->|?]; [unfold wlen; simpl; lia|lia]|]. destruct Hc as [E|?]; [|lia].
      rewrite E in *. unfold wlen in Hw at 2. cbn in Hw |- *. lia.
    + destruct Hsk as [->|?]; [by left|by right].
Qed.

Lemma r_jump_ok s p v d nv nd cr rs :
  rrep s p v d nv nd cr → r_start s ≤ rs ≤ W →
  ∃ s' p' v' d' nv' nd' cr' k, r_jump version s rs = Some s' ∧ rmoves s nv nd cr s' p' v' d' nv' nd' cr' k k ∧
    r_start s' ≤ rs ≤ p' + head_weight (upcoming (r_old s')) ∧ (k = [] ∨ r_start s' < rs) ∧
    in_offset (r_new s') = in_offset (r_new s).
Proof.
  intros H Hrs. unfold r_jump. rewrite (end_full_ok _ _ _ _ _ _ _ H). cbn [mbind option_bind].
  destruct (Nat.ltb_spec (p + head_weight (upcoming (r_old s))) rs) as [Hlt|Hge].
  2: { exists s, p, v, d, nv, nd, cr, []. split_and!; [done|by apply rmoves_refl|lia|done|by left|done]. }
  destruct (r_consume_rest_ok s p v d nv nd cr H) as (s1 & p1 & v1 & d1 & nv1 & nd1 & cr1 & k1 & -> & Hm1 & Hle & Ho1 & Hk1).
  cbn [mbind option_bind].
  destruct (r_slice_to_ok s1 p1 v1 d1 nv1 nd1 cr1 rs (rm_rep _ _ _ _ _ _ _ _ _ _ _ _ _ Hm1))
    as (s2 & p2 & v2 & d2 & nv2 & nd2 & cr2 & k2 & -> & Hm2 & Hp2 & Hk2 & Ho2); [lia|].
  exists s2, p2, v2, d2, nv2, nd2, cr2, (k1 ++ k2). split; [done|]. split; [by eapply rmoves_trans|].
  split; [done|]. split; [|congruence]. destruct Hk2 as [->|?]; [|by right]. rewrite app_nil_r.
  destruct k1 as [|c k1]; [by left|right]. pose proof (rmoves_positions _ _ _ _ _ _ _ _ _ _ _ _ _ _ _ _ (rm_rep _ _ _ _ _ _ _ _ _ _ _ _ _ Hm1) Hm2) as E.
  cbn in E. lia.
Qed.

(** The next cell belongs to the current fragment. *)
Lemma head_cell s p v d nv nd cr f l c :
  rrep s p v d nv nd cr → upcoming (r_old s) = f :: l → head cr = Some c → c_timestamp c = f_timestamp f.
Proof.
  intros H Hup Hc. pose proof (rr_frags _ _ _ _ _ _ _ H) as Hfr. rewrite Hup in Hfr.
  apply Forall_app in Hfr as [_ [[Hf0 Hf32] _]%Forall_cons]. pose proof (rr_inside _ _ _ _ _ _ _ H) as Hin.
  rewrite Hup in Hin. cbn [head_weight] in Hin. unfold weight in Hin.
  destruct (take_versioned s p v d nv nd cr f l 1 H Hup) as (_ & _ & E); [destruct (observed _ _); lia|].
  destruct cr as [|c' cr]; [done|]. injection Hc as <-. cbn [take] in E. rewrite take_0 in E.
  destruct (drop _ (fcells f _)) as [|c'' x] eqn:Ed; [done|]. injection E as E1. subst c''.
  apply (f_equal (λ x : list Cell, x !! 0)) in Ed. rewrite lookup_drop in Ed. unfold fcells in Ed.
  rewrite list_lookup_imap in Ed. destruct (_ !! _) in Ed; [|done]. by injection Ed as <-.
Qed.

Lemma rest_nil s p v d nv nd cr : rrep s p v d nv nd cr → upcoming (r_old s) = [] → cr = [].
Proof. intros H Hup. rewrite (rr_rest _ _ _ _ _ _ _ H), Hup. cbn [cells]. apply drop_nil. Qed.

(** Below the end of an observed fragment, there is nothing to skip. *)
Lemma not_newer_inside s p v d nv nd cr c :
  rrep s p v d nv nd cr → r_start s < p + head_weight (upcoming (r_old s)) → head cr = Some c → newer ts c = false.
Proof.
  intros H Hlt Hc. destruct (inside_observed s p v d nv nd cr (r_start s) H ltac:(lia)) as (f & l & Hup & Ho & _).
  unfold newer. rewrite (head_cell s p v d nv nd cr f l c H Hup Hc). pose proof (rr_seen _ _ _ _ _ _ _ H) as Hs.
  rewrite Hup in Hs. apply Forall_cons in Hs as [[_ Hs] _]. by apply Hs.
Qed.

Lemma skip_fragment s p v d nv nd cr f l :
  rrep s p v d nv nd cr → upcoming (r_old s) = f :: l → ltb ts (f_timestamp f) = true →
  ∃ s1 v' d' nv' nd', r_push s f (visible f) false = Some s1 ∧ in_offset (r_new s1) = in_offset (r_new s) ∧
    rmoves s nv nd cr (r_next version s1) p v' d' nv' nd' (drop (f_len f) cr) (take (f_len f) cr) (take (f_len f) cr) ∧
    r_start (r_next version s1) = r_start s ∧ upcoming (r_old (r_next version s1)) = l ∧
    Forall (λ c, newer ts c = true) (take (f_len f) cr).
Proof.
  intros H Hup Hn. pose proof (rr_seen _ _ _ _ _ _ _ H) as Hs. rewrite Hup in Hs. apply Forall_cons in Hs as [[_ Hs] _].
  assert (observed version (f_timestamp f) = false) as Ho by (destruct (observed _ _); [by rewrite Hs in Hn|done]).
  assert (weight f = 0) as Ew by (unfold weight; by rewrite Ho).
  pose proof (rr_inside _ _ _ _ _ _ _ H) as Hin. rewrite Hup in Hin. cbn [head_weight] in Hin. rewrite Ew in Hin.
  pose proof (rr_pos _ _ _ _ _ _ _ H) as Hpos. assert (r_start s = p) as Ep by lia.
  pose proof (rr_frags _ _ _ _ _ _ _ H) as Hfr. rewrite Hup in Hfr. apply Forall_app in Hfr as [_ [[Hf0 _] _]%Forall_cons].
  assert (rpiece f f (r_start s - p) (f_len f) false) as Hp by (rewrite Ep, Nat.sub_diag; by split; rewrite ?app_nil_r).
  destruct (emission_ok s p v d nv nd cr f l f (f_len f) false H Hup Hf0 ltac:(lia) Hp) as (nv' & nd' & He).
  pose proof (rr_ids _ _ _ _ _ _ _ H) as Hids. rewrite Hup in Hids.
  pose proof (em_push _ _ _ _ _ _ _ _ _ _ _ _ _ He false) as Hpush.
  pose proof (emission_kept s p v d nv nd cr f l f (f_len f) false nv' nd' H Hup He eq_refl) as Hpa.
  set (s1 := pushed s f false _) in Hpush.
  exists s1, (v + ts_visible (fragment_text f)), (d + ts_deleted (fragment_text f)), nv', nd'.
  split; [exact Hpush|]. split; [done|]. split; [|split; [done|split]].
  - pose proof (advance_next s (r_next version s1) p v d nv nd cr f l f (f_len f) false nv' nd' H Hup He) as Hadv.
    rewrite Ew, Nat.add_0_r in Hadv. apply Hadv; try done. lia.
  - cbn. unfold next. by rewrite Hup.
  - destruct (take_versioned s p v d nv nd cr f l (f_len f) H Hup) as (_ & _ & ->); [lia|].
    apply Forall_take, Forall_drop, Forall_lookup. intros i c. unfold fcells. rewrite list_lookup_imap.
    destruct (_ !! i); [|done]. by intros [= <-].
Qed.

Lemma skip_concurrent_ok fuel s p v d nv nd cr rs :
  rrep s p v d nv nd cr → r_start s = rs → length (upcoming (r_old s)) ≤ fuel →
  ∃ s' v' d' nv' nd' cr' k, skip_concurrent version ts fuel s rs = Some s' ∧
    rmoves s nv nd cr s' p v' d' nv' nd' cr' k k ∧ r_start s' = rs ∧ in_offset (r_new s') = in_offset (r_new s) ∧
    Forall (λ c, newer ts c = true) k ∧ (∀ c, head cr' = Some c → newer ts c = false).
Proof.
  revert s v d nv nd cr. induction fuel as [|fuel IH]; intros s v d nv nd cr H Hs Hf.
  - destruct (upcoming (r_old s)) as [|f l] eqn:Hup; [|simpl in Hf; lia].
    exists s, v, d, nv, nd, cr, []. cbn. unfold item. rewrite Hup. cbn [head].
    split_and!; [done|by apply rmoves_refl|done|done|constructor|]. by rewrite (rest_nil _ _ _ _ _ _ _ H Hup).
  - cbn [skip_concurrent]. unfold item. destruct (upcoming (r_old s)) as [|f l] eqn:Hup; cbn [head].
    { exists s, v, d, nv, nd, cr, []. split_and!; [done|by apply rmoves_refl|done|done|constructor|].
      by rewrite (rest_nil _ _ _ _ _ _ _ H Hup). }
    rewrite (proj2 (Nat.eqb_eq _ _) Hs). cbn [andb]. destruct (ltb ts (f_timestamp f)) eqn:En.
    + destruct (skip_fragment s p v d nv nd cr f l H Hup En) as (s1 & v1 & d1 & nv1 & nd1 & -> & Ho1 & Hm1 & Hs1 & Hu1 & Hn1).
      cbn [mbind option_bind].
      destruct (IH (r_next version s1) v1 d1 nv1 nd1 _ (rm_rep _ _ _ _ _ _ _ _ _ _ _ _ _ Hm1))
        as (s2 & v2 & d2 & nv2 & nd2 & cr2 & k2 & -> & Hm2 & Hs2 & Ho2 & Hn2 & Hh2); [congruence|rewrite Hu1; simpl in Hf; lia|].
      exists s2, v2, d2, nv2, nd2, cr2, (take (f_len f) cr ++ k2).
      split_and!; [done|by eapply rmoves_trans|done|by rewrite Ho2|by apply Forall_app|done].
    + exists s, v, d, nv, nd, cr, []. split_and!; [done|by apply rmoves_refl|done|done|constructor|].
      intros c Hc. unfold newer. by rewrite (head_cell s p v d nv nd cr f l c H Hup Hc).
Qed.

Lemma skip_concurrent_past fuel s rs : r_start s ≠ rs → skip_concurrent version ts fuel s rs = Some s.
Proof. intros Hs. destruct fuel; cbn; rewrite (proj2 (Nat.eqb_neq _ _) Hs); by destruct (item (r_old s)). Qed.

Lemma r_squeeze_ok s p v d nv nd cr f l g :
  rrep s p v d nv nd cr → upcoming (r_old s) = f :: l → f_id g = f_id f →
  ids_ok (r_fragments s ++ r_squeeze_id s g :: f :: l).
Proof.
  intros H Hup Hid. pose proof (rr_ids _ _ _ _ _ _ _ H) as Hids. rewrite Hup in Hids.
  destruct (between_ids _ _ Hids) as (Hip & Hgt & Hltk). cbn [next_id head] in Hip, Hgt, Hltk.
  apply ids_ok_insert; [done|simpl; rewrite Hid; done..].
Qed.

Lemma r_preserve_prefix_ok s p v d nv nd cr rs :
  rrep s p v d nv nd cr → r_start s ≤ rs → r_start s = rs ∨ rs < p + head_weight (upcoming (r_old s)) →
  ∃ s' nv' nd' cr' k, r_preserve_prefix s rs = Some s' ∧ rmoves s nv nd cr s' p v d nv' nd' cr' k k ∧
    r_start s' = rs ∧ in_offset (r_new s') = in_offset (r_new s) ∧ Forall (λ c, versioned c = true) k ∧
    (r_start s = rs → k = []) ∧ r_old s' = r_old s.
Proof.
  intros H Hle Hor. unfold r_preserve_prefix. destruct (Nat.ltb_spec (r_start s) rs) as [Hlt|Hge].
  2: { exists s, nv, nd, cr, []. split_and!; [done|by apply rmoves_refl|lia|done|constructor|done|done]. }
  destruct (inside_observed s p v d nv nd cr rs H ltac:(lia)) as (f & l & Hup & Ho & Ew).
  pose proof (rr_pos _ _ _ _ _ _ _ H) as Hpos.
  unfold item. rewrite Hup in *. cbn [head head_weight mbind option_bind] in *. set (n := rs - r_start s).
  destruct (r_portion_ok s p v d nv nd cr f l n H Hup ltac:(lia)) as (g & -> & Hid & Hp). cbn [mbind option_bind].
  assert (rpiece f (r_squeeze_id s g) (r_start s - p) n false) as Hp' by (destruct Hp; by split).
  destruct (emission_ok s p v d nv nd cr f l (r_squeeze_id s g) n false H Hup ltac:(lia) ltac:(lia) Hp') as (nv' & nd' & He).
  pose proof (rp_visible _ _ _ _ _ Hp) as Hvis. cbn in Hvis. rewrite Hvis.
  unfold r_emit. rewrite (em_push _ _ _ _ _ _ _ _ _ _ _ _ _ He true). cbn [mbind option_bind].
  do 5 eexists. split; [done|]. split.
  { eapply (advance_inside s _ p v d nv nd cr f l (r_squeeze_id s g) n false nv' nd' H Hup He Ho); try done.
    - lia.
    - by eapply r_squeeze_ok.
    - cbn. lia.
    - by eapply (emission_kept s p v d nv nd cr f l). }
  split; [done|]. split; [done|]. split; [|split; [lia|done]].
  rewrite <- Ho. apply (take_versioned s p v d nv nd cr f l n H Hup). lia.
Qed.

Lemma r_insert_text_ok s p v d nv nd cr t :
  rrep s p v d nv nd cr → short_chars t → is_u32 (N.of_nat (in_offset (r_new s) + length t)) →
  ∃ s' nv' nd', r_insert_text MAX_INSERTION_LEN ts s t = Some s' ∧
    rmoves s nv nd cr s' p v d nv' nd' cr [] (inserted_cells ts (in_offset (r_new s)) t) ∧
    r_start s' = r_start s ∧ r_old s' = r_old s ∧ in_offset (r_new s') = in_offset (r_new s) + length t.
Proof.
  intros H Hs H32. unfold r_insert_text. destruct t as [|b t0] eqn:Et; rewrite <- ?Et in *.
  { exists s, nv, nd. subst t. split_and!; [done|by apply rmoves_refl|done|done|simpl; lia]. }
  rewrite (old_full_ok _ _ _ _ _ _ _ H). cbn [mbind option_bind]. pose proof H as [Hst Hpos Hin Hr Hw Hv Hd Hnv Hnd Hids Hfr Hseen Hrest Hpatch].
  rewrite usub_le by lia. cbn [mbind option_bind].
  destruct (push_fragments_ok MAX_INSERTION_LEN Hmax ts t (r_new s) (upcoming (r_old s)) Hs Hids H32)
    as (i' & fr & Hp & [Hf _ _ Hoff Hids' Hok Hvl Hdl Hc]).
  change (match item (r_old s) with Some f => f_id f | None => Locator.max end)
    with (next_id (upcoming (r_old s))).
  rewrite Hp. cbn [mbind option_bind]. rewrite summary_text. cbn [ts_visible].
  eexists _, (nv ++ t), nd. split; [done|]. split; [|by rewrite <- Hoff]. split; [|done|].
  - split; cbn; try done.
    + by rewrite Hr.
    + change (vlen (in_fragments i') = length (nv ++ t)). rewrite Hf, vlen_app, length_app, Hvl.
      by change (in_fragments (r_new s)) with (r_fragments s); rewrite Hnv.
    + change (dlen (in_fragments i') = length nd). rewrite Hf, dlen_app, Hdl, Nat.add_0_r. done.
    + change (Forall frag_ok (in_fragments i' ++ upcoming (r_old s))). rewrite Hf, <- app_assoc.
      apply Forall_app in Hfr as [? ?]. by rewrite !Forall_app.
    + pose proof (patch_ok_push _ _ _ [] t Hpatch) as Hpush. rewrite app_nil_r, Hst in *. cbn [snd] in *.
      assert (v + vpart (upcoming (r_old s)) (r_start s - p) ≤ length V) as HvV.
      { unfold vpart, head_visible. destruct (upcoming (r_old s)) as [|f l] eqn:Hup; [lia|].
        destruct (visible f) eqn:E; [|lia]. apply (rr_vis_le s p v d nv nd cr f l _ H Hup E).
        cbn [head_weight] in Hin. unfold weight in Hin. destruct (observed _ _); lia. }
      rewrite length_take, Nat.min_l, Nat.add_0_r, <- Hnv in Hpush by done.
      unfold vpart, head_visible, item in *. destruct (upcoming (r_old s)) as [|f l]; exact Hpush.
  - unfold r_done, r_fragments. simpl. rewrite Hf.
    rewrite <- (app_nil_r nd) at 1. rewrite cells_append by done. by rewrite Hc.
Qed.

(** ** The deletion loop *)

Lemma r_push_slice s x g b i : r_push (r_add_slice s x) g b i = (λ s', r_add_slice s' x) <$> r_push s g b i.
Proof. unfold r_push. simpl. by destruct (push_fragment (r_ropes s) g b). Qed.
Lemma r_push_patch s pa g b i : r_push (r_with_patch s pa) g b i = (λ s', r_with_patch s' pa) <$> r_push s g b i.
Proof. unfold r_push. simpl. by destruct (push_fragment (r_ropes s) g b). Qed.

(** After the emission of [n] bytes, up to the end of the fragment or not. *)
Lemma delete_finish s s' p v d nv nd cr f l g n deleted nv' nd' re :
  rrep s p v d nv nd cr → upcoming (r_old s) = f :: l →
  emission s f g v d n nv nd cr deleted nv' nd' (r_start s - p) →
  observed version (f_timestamp f) = true → r_start s < re →
  r_start s + n = Nat.min re (p + f_len f) → ids_ok (r_fragments s ++ g :: f :: l) →
  r_old s' = r_old s → r_fragments s' = r_fragments s ++ [g] →
  r_ropes s' = builder V D (v + (if visible f then r_start s - p + n else 0)) (d + (if visible f then 0 else r_start s - p + n)) nv' nd' →
  patch_ok (r_patch s') (take (v + (if visible f then r_start s - p + n else 0)) V) nv' →
  let s1 := r_with_start s' (Nat.min re (p + f_len f)) in
  let s2 := if p + f_len f <=? re then r_next version s1 else s1 in
  ∃ p' v' d', rmoves s nv nd cr s2 p' v' d' nv' nd' (drop n cr) (take n cr) (killed deleted (take n cr)) ∧
    (p + f_len f ≤ re → upcoming (r_old s2) = l).
Proof.
  intros H Hup He Ho Hre Hn Hids Eold Efr Er Hp. cbv zeta. pose proof (rr_pos _ _ _ _ _ _ _ H) as Hpos.
  destruct (Nat.leb_spec (p + f_len f) re) as [Hle|Hgt].
  - assert (weight f = f_len f) as Ew by (unfold weight; by rewrite Ho).
    do 3 eexists. split; [eapply (advance_next s _ p v d nv nd cr f l g n deleted nv' nd' H Hup He)|].
    + lia.
    + pose proof (ids_ok_drop (r_fragments s ++ [g]) f l) as Hdrop. rewrite <- !app_assoc in Hdrop. by apply Hdrop.
    + cbn. by rewrite Eold.
    + done.
    + done.
    + rewrite Ew. cbn. lia.
    + done.
    + intros _. cbn. unfold next. by rewrite Eold, Hup.
  - do 3 eexists. split; [eapply (advance_inside s _ p v d nv nd cr f l g n deleted nv' nd' H Hup He); try done|lia].
    lia.
Qed.

(** The patch entry and the emission of one round. *)
Definition delete_emit s f g (ie : nat) : option RemoteState :=
  s1 ← (if visible f && negb (visible g) then
          start_full ← old_full s;
          skipped ← usub (r_start s) start_full;
          let old_start := (start (r_old s)).2 + skipped in
          let new_start := ts_visible (fs_text (summary_of (r_fragments s))) in
          Some (r_with_patch s (push (r_patch s)
            (mkEdit (mkRange old_start (old_start + f_len g)) (mkRange new_start new_start))))
        else Some s);
  s2 ← r_emit s1 g (visible f);
  Some (r_with_start s2 ie).

Lemma delete_emit_ok s p v d nv nd cr f l g n (deleted sliced : bool) nv' nd' x ie :
  rrep s p v d nv nd cr → upcoming (r_old s) = f :: l → r_start s - p + n ≤ f_len f →
  rpiece f g (r_start s - p) n deleted →
  emission s f g v d n nv nd cr deleted nv' nd' (r_start s - p) →
  ∃ s', delete_emit (if sliced then r_add_slice s x else s) f g ie = Some (r_with_start s' ie) ∧
    r_old s' = r_old s ∧ r_fragments s' = r_fragments s ++ [g] ∧
    r_ropes s' = builder V D (v + (if visible f then r_start s - p + n else 0)) (d + (if visible f then 0 else r_start s - p + n)) nv' nd' ∧
    patch_ok (r_patch s') (take (v + (if visible f then r_start s - p + n else 0)) V) nv' ∧
    in_offset (r_new s') = in_offset (r_new s).
Proof.
  intros H Hup Hle Hp He. pose proof (em_push _ _ _ _ _ _ _ _ _ _ _ _ _ He true) as Hpush.
  pose proof (rp_visible _ _ _ _ _ Hp) as Hvis. pose proof (rp_len _ _ _ _ _ Hp) as Hl.
  unfold delete_emit. set (s0 := if sliced then _ else _).
  assert (old_full s0 = Some p ∧ r_start s0 = r_start s ∧ (start (r_old s0)).2 = v ∧ r_fragments s0 = r_fragments s ∧ r_patch s0 = r_patch s)
    as (E1 & E2 & E3 & E4 & E5).
  { pose proof (old_full_ok _ _ _ _ _ _ _ H). pose proof (f_equal snd (rr_start _ _ _ _ _ _ _ H)) as E.
    unfold s0. by destruct sliced. }
  destruct (visible f && negb (visible g)) eqn:Ev.
  - apply andb_true_iff in Ev as [Evf Evg%negb_true_iff]. pose proof (rr_pos _ _ _ _ _ _ _ H).
    rewrite E1, E2. cbn [mbind option_bind]. rewrite usub_le by lia. cbn [mbind option_bind].
    rewrite E3, E4, E5, summary_text, Hl. cbn [ts_visible].
    pose proof (emission_removed s p v d nv nd cr f l g n deleted nv' nd' H Hup Hle He Evf Evg) as Hpa.
    unfold r_emit, s0. rewrite r_push_patch. destruct sliced; rewrite ?r_push_slice, Hpush; cbn [fmap option_fmap option_map mbind option_bind].
    + eexists. split; [done|]. rewrite Evf in *. by split_and!.
    + eexists. split; [done|]. rewrite Evf in *. by split_and!.
  - assert (visible g = visible f) as Eg by (rewrite Hvis in *; by destruct deleted, (visible f)).
    pose proof (emission_kept s p v d nv nd cr f l g n deleted nv' nd' H Hup He Eg) as Hpa. cbn [mbind option_bind].
    unfold r_emit, s0. destruct sliced; rewrite ?r_push_slice, Hpush; cbn [fmap option_fmap option_map mbind option_bind].
    + eexists. split; [done|]. by split_and!.
    + eexists. split; [done|]. by split_and!.
Qed.

Lemma r_delete_observed s p v d nv nd cr f l re :
  rrep s p v d nv nd cr → upcoming (r_old s) = f :: l → observed version (f_timestamp f) = true → r_start s < re →
  let n := Nat.min re (p + f_len f) - r_start s in
  ∃ s' p' v' d' nv' nd', r_delete_step version undo_map ts s re = Some s' ∧
    rmoves s nv nd cr s' p' v' d' nv' nd' (drop n cr) (take n cr) (remote_delete <$> take n cr) ∧
    r_start s' = Nat.min re (p + f_len f) ∧ (p + f_len f ≤ re → upcoming (r_old s') = l) ∧
    in_offset (r_new s') = in_offset (r_new s) ∧ length (take n cr) = n ∧ Forall (λ c, versioned c = true) (take n cr).
Proof.
  intros H Hup Ho Hre. cbv zeta. pose proof (rr_pos _ _ _ _ _ _ _ H) as Hpos. pose proof (rr_inside _ _ _ _ _ _ _ H) as Hin.
  pose proof (rr_frags _ _ _ _ _ _ _ H) as Hfr. rewrite Hup in Hfr, Hin. apply Forall_app in Hfr as [_ [[Hf0 _] _]%Forall_cons].
  assert (weight f = f_len f) as Ew by (unfold weight; by rewrite Ho). cbn [head_weight] in Hin. rewrite Ew in Hin.
  set (n := Nat.min re (p + f_len f) - r_start s). set (deleted := was (f_timestamp f) (deletions f)).
  destruct (r_portion_ok s p v d nv nd cr f l n H Hup ltac:(lia)) as (g & Hg & Hid & Hp).
  unfold r_delete_step, item. rewrite Hup. cbn [head mbind option_bind].
  rewrite (end_full_ok _ _ _ _ _ _ _ H), Hup. cbn [head_weight mbind option_bind]. rewrite Ew.
  unfold r_intersection. rewrite Ho, usub_le by lia. fold n. cbn [mbind option_bind]. rewrite Hg. cbn [mbind option_bind].
  rewrite (Hwas f Ho). cbn [mbind option_bind]. fold deleted.
  destruct (take_versioned s p v d nv nd cr f l n H Hup ltac:(lia)) as (Hlen & Hver & Hcells). rewrite Ho in Hver.
  assert (killed deleted (take n cr) = remote_delete <$> take n cr) as Hkill.
  { rewrite Hcells. apply killed_remote. by rewrite Ho. }
  rewrite <- Hkill. pose proof (r_squeeze_ok s p v d nv nd cr f l g H Hup Hid) as Hids.
  set (g1 := r_squeeze_id s g) in *.
  set (g2 := if deleted then mkFragment (f_id g1) (f_timestamp g1) (insertion_offset g1) (f_len g1) false (deletions g1 ++ [ts]) (max_undos g1) else g1).
  assert (rpiece f g2 (r_start s - p) n deleted) as Hp2.
  { destruct Hp as [? ? ? ? Hdel ?]. rewrite app_nil_r in Hdel. unfold g2. destruct deleted; split; simpl; try done.
    - by rewrite Hdel.
    - by rewrite app_nil_r. }
  assert (ids_ok (r_fragments s ++ g2 :: f :: l)) as Hids2.
  { eapply ids_ok_same; [|exact Hids]. rewrite !ids_app. unfold g2. by destruct deleted. }
  destruct (emission_ok s p v d nv nd cr f l g2 n deleted H Hup ltac:(lia) ltac:(lia) Hp2) as (nv' & nd' & He).
  pose proof (rp_len _ _ _ _ _ Hp2) as Hl2. cbv zeta.
  match goal with |- context [if deleted then (?a, true) else (?b, false)] =>
    replace (if deleted then (a, true) else (b, false)) with (g2, deleted) by (unfold g2; by destruct deleted) end.
  clearbody g2.
  cbn iota zeta beta. cbn [mbind option_bind]. rewrite Hl2, (proj2 (Nat.ltb_lt 0 n)) by lia.
  destruct (delete_emit_ok s p v d nv nd cr f l g2 n deleted deleted nv' nd' (from_fragment ts g2) (Nat.min re (p + f_len f)) H Hup ltac:(lia) Hp2 He)
    as (s' & Hs' & Eo & Ef & Er & Epa & Eoff).
  unfold delete_emit in Hs'. rewrite Hl2 in Hs'.
  destruct (delete_finish s s' p v d nv nd cr f l g2 n deleted nv' nd' re H Hup He Ho Hre ltac:(lia) Hids2 Eo Ef Er Epa)
    as (p' & v' & d' & Hm & Hl').
  exists (if p + f_len f <=? re then r_next version (r_with_start s' (Nat.min re (p + f_len f)))
          else r_with_start s' (Nat.min re (p + f_len f))), p', v', d', nv', nd'.
  split; [|split; [exact Hm|split; [by destruct (_ <=? _)|split; [exact Hl'|split; [by destruct (_ <=? _)|done]]]]].
  exact (f_equal (λ o, o ≫= λ s0, Some (if p + f_len f <=? re then r_next version s0 else s0)) Hs').
Qed.

Lemma r_delete_concurrent s p v d nv nd cr f l re :
  rrep s p v d nv nd cr → upcoming (r_old s) = f :: l → observed version (f_timestamp f) = false → r_start s < re →
  ∃ s' v' d' nv' nd', r_delete_step version undo_map ts s re = Some s' ∧
    rmoves s nv nd cr s' p v' d' nv' nd' (drop (f_len f) cr) (take (f_len f) cr) (remote_delete <$> take (f_len f) cr) ∧
    r_start s' = r_start s ∧ upcoming (r_old s') = l ∧ in_offset (r_new s') = in_offset (r_new s) ∧
    vcells (take (f_len f) cr) = 0.
Proof.
  intros H Hup Ho Hre. pose proof (rr_pos _ _ _ _ _ _ _ H) as Hpos. pose proof (rr_inside _ _ _ _ _ _ _ H) as Hin.
  pose proof (rr_frags _ _ _ _ _ _ _ H) as Hfr. rewrite Hup in Hfr, Hin. apply Forall_app in Hfr as [_ [[Hf0 _] _]%Forall_cons].
  assert (weight f = 0) as Ew by (unfold weight; by rewrite Ho). cbn [head_weight] in Hin. rewrite Ew in Hin.
  assert (r_start s = p) as Ep by lia.
  assert (rpiece f f (r_start s - p) (f_len f) false) as Hp by (rewrite Ep, Nat.sub_diag; by split; rewrite ?app_nil_r).
  destruct (emission_ok s p v d nv nd cr f l f (f_len f) false H Hup Hf0 ltac:(lia) Hp) as (nv' & nd' & He).
  destruct (delete_emit_ok s p v d nv nd cr f l f (f_len f) false false nv' nd' (from_fragment ts f) (Nat.min re p) H Hup ltac:(lia) Hp He)
    as (s' & Hs' & Eo & Ef & Er & Epa & Eoff).
  unfold r_delete_step, item. rewrite Hup. cbn [head mbind option_bind].
  rewrite (end_full_ok _ _ _ _ _ _ _ H), Hup. cbn [head_weight mbind option_bind]. rewrite Ew, Nat.add_0_r.
  unfold r_intersection. rewrite Ho. cbn [mbind option_bind]. cbn iota zeta. rewrite (proj2 (Nat.ltb_lt 0 (f_len f))) by lia.
  rewrite (proj2 (Nat.leb_le p re)) by lia.
  destruct (take_versioned s p v d nv nd cr f l (f_len f) H Hup ltac:(lia)) as (Hlen & Hver & Hcells). rewrite Ho in Hver.
  assert (killed false (take (f_len f) cr) = remote_delete <$> take (f_len f) cr) as Hkill.
  { rewrite Hcells. apply killed_remote. by rewrite Ho. }
  rewrite <- Hkill. pose proof (rr_ids _ _ _ _ _ _ _ H) as Hids. rewrite Hup in Hids.
  pose proof (advance_next s (r_next version (r_with_start s' (Nat.min re p))) p v d nv nd cr f l f (f_len f) false nv' nd' H Hup He) as Hadv.
  rewrite Ew, Nat.add_0_r in Hadv.
  exists (r_next version (r_with_start s' (Nat.min re p))), (v + ts_visible (fragment_text f)), (d + ts_deleted (fragment_text f)), nv', nd'.
  split; [exact (f_equal (λ o, o ≫= λ s0, Some (r_next version s0)) Hs')|].
  split; [|split; [cbn; lia|split; [cbn; unfold next; by rewrite Eo, Hup|split; [done|by apply vcells_none]]]].
  apply Hadv; try done; [lia|cbn; by rewrite Eo|cbn; lia].
Qed.

Lemma r_delete_loop_ok fuel s p v d nv nd cr re :
  rrep s p v d nv nd cr → r_start s ≤ re ≤ W → length (upcoming (r_old s)) < fuel →
  ∃ s' p' v' d' nv' nd' cr' k, r_delete_loop version undo_map ts fuel s re = Some s' ∧
    rmoves s nv nd cr s' p' v' d' nv' nd' cr' k (remote_delete <$> k) ∧
    r_start s' = re ∧ in_offset (r_new s') = in_offset (r_new s) ∧
    vsplit version (re - r_start s) (k ++ cr') = (k, cr').
Proof.
  revert s p v d nv nd cr. induction fuel as [|fuel IH]; intros s p v d nv nd cr H Hre Hf; [lia|].
  cbn [r_delete_loop]. destruct (Nat.ltb_spec (r_start s) re) as [Hlt|Hge].
  2: { exists s, p, v, d, nv, nd, cr, []. replace (re - r_start s) with 0 by lia.
       split_and!; [done|by apply rmoves_refl|lia|done|apply vsplit_0]. }
  destruct (upcoming (r_old s)) as [|f l] eqn:Hup.
  { pose proof (rr_wlen _ _ _ _ _ _ _ H) as Hw. pose proof (rr_pos _ _ _ _ _ _ _ H). rewrite Hup in Hw. unfold wlen in Hw. simpl in Hw. lia. }
  assert (∃ s1 p1 v1 d1 nv1 nd1 cr1 k1, r_delete_step version undo_map ts s re = Some s1 ∧
    rmoves s nv nd cr s1 p1 v1 d1 nv1 nd1 cr1 k1 (remote_delete <$> k1) ∧ r_start s1 ≤ re ∧
    (r_start s1 = re ∨ upcoming (r_old s1) = l) ∧ in_offset (r_new s1) = in_offset (r_new s) ∧
    passes version (re - r_start s) k1) as (s1 & p1 & v1 & d1 & nv1 & nd1 & cr1 & k1 & -> & Hm1 & Hle1 & Hor & Ho1 & Hpass).
  { destruct (observed version (f_timestamp f)) eqn:Eo.
    - destruct (r_delete_observed s p v d nv nd cr f l re H Hup Eo Hlt) as (s1 & p1 & v1 & d1 & nv1 & nd1 & E & Hm & Hs & Hl & Ho & Hlen & Hver).
      do 8 eexists. split; [exact E|]. split; [exact Hm|]. split; [lia|]. split; [|split; [done|]].
      + destruct (Nat.le_gt_cases (p + f_len f) re); [right; by apply Hl|left; lia].
      + right. right. split; [done|]. lia.
    - destruct (r_delete_concurrent s p v d nv nd cr f l re H Hup Eo Hlt) as (s1 & v1 & d1 & nv1 & nd1 & E & Hm & Hs & Hl & Ho & Hver).
      do 8 eexists. split; [exact E|]. split; [exact Hm|]. split; [lia|]. split; [by right|]. split; [done|]. left. lia. }
  cbn [mbind option_bind]. pose proof (rmoves_positions _ _ _ _ _ _ _ _ _ _ _ _ _ _ _ _ H Hm1) as Hpos.
  destruct Hor as [Hdone|Hl].
  - exists s1, p1, v1, d1, nv1, nd1, cr1, k1. split; [destruct fuel; cbn [r_delete_loop]; by rewrite (proj2 (Nat.ltb_ge _ _)) by lia|].
    split_and!; try done. rewrite (vsplit_passes version _ _ _ Hpass).
    replace (re - r_start s - vcells k1) with 0 by lia. rewrite vsplit_0. by rewrite app_nil_r.
  - destruct (IH s1 p1 v1 d1 nv1 nd1 cr1 (rm_rep _ _ _ _ _ _ _ _ _ _ _ _ _ Hm1)) as (s2 & p2 & v2 & d2 & nv2 & nd2 & cr2 & k2 & -> & Hm2 & ? & ? & Hsp);
      [lia|rewrite Hl; simpl in Hf; lia|].
    exists s2, p2, v2, d2, nv2, nd2, cr2, (k1 ++ k2). rewrite fmap_app. split_and!; [done|by eapply rmoves_trans|done|congruence|].
    rewrite <- app_assoc, (vsplit_passes version _ _ _ Hpass). replace (re - r_start s - vcells k1) with (re - r_start s1) by lia.
    by rewrite Hsp.
Qed.

(** ** One edit, all edits *)

(** The code before the insertion finds the edit's place. *)
Definition r_place s (rs : nat) : option RemoteState :=
  s ← r_jump version s rs;
  s ← finish_fragment version s rs;
  s ← skip_concurrent version ts (length (upcoming (r_old s))) s rs;
  _ ← (if r_start s <=? rs then Some () else None);
  r_preserve_prefix s rs.

Lemma r_place_ok s p v d nv nd cr rs :
  rrep s p v d nv nd cr → r_start s ≤ rs ≤ W →
  ∃ s' p' v' d' nv' nd' cr' k (g : list Cell), r_place s rs = Some s' ∧
    rmoves s nv nd cr s' p' v' d' nv' nd' cr' (k ++ g) (k ++ g) ∧ r_start s' = rs ∧
    in_offset (r_new s') = in_offset (r_new s) ∧
    vsplit version (rs - r_start s) cr = (k, g ++ cr') ∧ skip_newer ts (g ++ cr') = (g, cr').
Proof.
  intros H Hrs. unfold r_place.
  destruct (r_jump_ok s p v d nv nd cr rs H Hrs) as (s1 & p1 & v1 & d1 & nv1 & nd1 & cr1 & k1 & -> & Hm1 & Hle1 & Hk1 & Ho1).
  cbn [mbind option_bind]. pose proof (rm_rep _ _ _ _ _ _ _ _ _ _ _ _ _ Hm1) as H1.
  pose proof (rmoves_positions _ _ _ _ _ _ _ _ _ _ _ _ _ _ _ _ H Hm1) as Hpos1.
  assert (passes version (rs - r_start s) k1) as Hpass1 by (destruct Hk1 as [?|?]; [right; by left|left; lia]).
  destruct (finish_fragment_ok s1 p1 v1 d1 nv1 nd1 cr1 rs H1 Hle1) as (s2 & p2 & v2 & d2 & nv2 & nd2 & cr2 & k2 & -> & Hm2 & Ho2 & Hor & Hv2).
  cbn [mbind option_bind]. pose proof (rm_rep _ _ _ _ _ _ _ _ _ _ _ _ _ Hm2) as H2.
  pose proof (rmoves_positions _ _ _ _ _ _ _ _ _ _ _ _ _ _ _ _ H1 Hm2) as Hpos2. rewrite (vcells_all version k2 Hv2) in Hpos2.
  pose proof (rmoves_trans _ _ _ _ _ _ _ _ _ _ _ _ _ _ _ _ _ _ _ _ _ _ Hm1 Hm2) as Hm12.
  destruct (decide (r_start s2 = rs)) as [Hs2|Hs2].
  - destruct (skip_concurrent_ok (length (upcoming (r_old s2))) s2 p2 v2 d2 nv2 nd2 cr2 rs H2 Hs2 ltac:(lia))
      as (s3 & v3 & d3 & nv3 & nd3 & cr3 & g & -> & Hm3 & Hs3 & Ho3 & Hg & Hhead). cbn [mbind option_bind].
    rewrite (proj2 (Nat.leb_le _ _)) by lia. cbn [mbind option_bind].
    destruct (r_preserve_prefix_ok s3 p2 v3 d3 nv3 nd3 cr3 rs (rm_rep _ _ _ _ _ _ _ _ _ _ _ _ _ Hm3) ltac:(lia) ltac:(lia))
      as (s4 & nv4 & nd4 & cr4 & k4 & -> & Hm4 & Hs4 & Ho4 & _ & Hk4 & _). rewrite (Hk4 Hs3) in *.
    exists s4, p2, v3, d3, nv4, nd4, cr4, (k1 ++ k2), g. split; [done|].
    pose proof (rmoves_trans _ _ _ _ _ _ _ _ _ _ _ _ _ _ _ _ _ _ _ _ _ _ Hm3 Hm4) as Hm34. rewrite app_nil_r in Hm34.
    split; [by eapply rmoves_trans|]. split; [done|]. split; [congruence|].
    destruct Hm4 as [_ -> _], Hm3 as [_ -> _], Hm2 as [_ -> _], Hm1 as [_ -> _]. cbn [app] in *. split.
    + rewrite (vsplit_passes version _ _ _ Hpass1), (vsplit_passes version _ k2) by (right; right; split; [done|lia]).
      rewrite (vcells_all version k2 Hv2). replace (rs - r_start s - vcells k1 - length k2) with 0 by lia.
      by rewrite vsplit_0, app_nil_r.
    + rewrite skip_newer_app by done. rewrite (skip_newer_none ts cr4 Hhead). by rewrite app_nil_r.
  - destruct Hor as [?|[-> Hin]]; [done|]. rewrite skip_concurrent_past by done. cbn [mbind option_bind].
    rewrite (proj2 (Nat.leb_le _ _)) by (cbn in Hpos2; lia). cbn [mbind option_bind].
    destruct (r_preserve_prefix_ok s2 p2 v2 d2 nv2 nd2 cr2 rs H2) as (s4 & nv4 & nd4 & cr4 & k4 & -> & Hm4 & Hs4 & Ho4 & Hv4 & _ & Hold4);
      [cbn in Hpos2; lia|by right|].
    pose proof (rmoves_positions _ _ _ _ _ _ _ _ _ _ _ _ _ _ _ _ H2 Hm4) as Hpos4. rewrite (vcells_all version k4 Hv4) in Hpos4.
    exists s4, p2, v2, d2, nv4, nd4, cr4, (k1 ++ k4), []. rewrite !app_nil_r in *. split; [done|].
    split; [by eapply rmoves_trans|]. split; [done|]. split; [congruence|].
    assert (∀ c, head cr4 = Some c → newer ts c = false) as Hhead.
    { intros c. apply (not_newer_inside s4 p2 v2 d2 nv4 nd4 cr4 c (rm_rep _ _ _ _ _ _ _ _ _ _ _ _ _ Hm4)). by rewrite Hold4, Hs4. }
    destruct Hm4 as [_ -> _], Hm2 as [_ -> _], Hm1 as [_ -> _]. cbn [app length] in *. split; [|by apply skip_newer_none].
    rewrite (vsplit_passes version _ _ _ Hpass1), (vsplit_passes version _ k4) by (right; right; split; [done|lia]).
    rewrite (vcells_all version k4 Hv4). replace (rs - r_start s - vcells k1 - length k4) with 0 by lia.
    by rewrite vsplit_0, app_nil_r.
Qed.

Record redit_valid (off pos : nat) (e : RemoteEditOp) : Prop := {
  rvalid_range : pos ≤ ro_start e ≤ ro_end e;
  rvalid_end : ro_end e ≤ W;
  rvalid_text : short_chars (ro_text e);
  rvalid_offset : is_u32 (N.of_nat (off + length (ro_text e)));
}.

(** Edits are in order, do not overlap and stay inside the text of the version. *)
Fixpoint redits_valid (off pos : nat) (edits : list RemoteEditOp) : Prop :=
  match edits with
  | [] => True
  | e :: edits => redit_valid off pos e ∧ redits_valid (off + length (ro_text e)) (ro_end e) edits
  end.

Lemma r_edit_step_ok s p v d nv nd cr e :
  rrep s p v d nv nd cr → redit_valid (in_offset (r_new s)) (r_start s) e →
  ∃ s' p' v' d' nv' nd' cr' q, r_edit_step MAX_INSERTION_LEN version undo_map ts s e = Some s' ∧ rrep s' p' v' d' nv' nd' cr' ∧
    r_done s' nv' nd' = r_done s nv nd ++ q ∧ r_start s' = ro_end e ∧
    in_offset (r_new s') = in_offset (r_new s) + length (ro_text e) ∧
    ∀ edits, remote_cells version ts was (r_start s) (in_offset (r_new s)) (e :: edits) cr =
      q ++ remote_cells version ts was (ro_end e) (in_offset (r_new s')) edits cr'.
Proof.
  intros H [Hr He Ht H32].
  destruct (r_place_ok s p v d nv nd cr (ro_start e) H ltac:(lia))
    as (s1 & p1 & v1 & d1 & nv1 & nd1 & cr1 & k & g & Hplace & Hm1 & Hs1 & Ho1 & Hsplit & Hskip).
  destruct (r_insert_text_ok s1 p1 v1 d1 nv1 nd1 cr1 (ro_text e) (rm_rep _ _ _ _ _ _ _ _ _ _ _ _ _ Hm1) Ht)
    as (s2 & nv2 & nd2 & Hins & Hm2 & Hs2 & Hold2 & Ho2); [by rewrite Ho1|].
  destruct (r_delete_loop_ok (S (length (upcoming (r_old s2)))) s2 p1 v1 d1 nv2 nd2 cr1 (ro_end e) (rm_rep _ _ _ _ _ _ _ _ _ _ _ _ _ Hm2))
    as (s3 & p3 & v3 & d3 & nv3 & nd3 & cr3 & r & Hdel & Hm3 & Hs3 & Ho3 & Hsplit3); [lia|lia|].
  exists s3, p3, v3, d3, nv3, nd3, cr3, ((k ++ g) ++ inserted_cells ts (in_offset (r_new s)) (ro_text e) ++ (remote_delete <$> r)).
  split; [|split; [apply Hm3|split; [|split; [done|split; [congruence|]]]]].
  - unfold r_edit_step. unfold r_place in Hplace.
    destruct (r_jump _ _ _) as [sa|]; [|done]. cbn [mbind option_bind] in *.
    destruct (finish_fragment _ _ _) as [sb|]; [|done]. cbn [mbind option_bind] in *.
    destruct (skip_concurrent _ _ _ _ _) as [sc|]; [|done]. cbn [mbind option_bind] in *.
    destruct (r_start sc <=? ro_start e); [|done]. cbn [mbind option_bind] in *. rewrite Hplace. cbn [mbind option_bind].
    rewrite Hins. cbn [mbind option_bind]. exact Hdel.
  - rewrite (rm_produced _ _ _ _ _ _ _ _ _ _ _ _ _ Hm3), (rm_produced _ _ _ _ _ _ _ _ _ _ _ _ _ Hm2),
      (rm_produced _ _ _ _ _ _ _ _ _ _ _ _ _ Hm1), Ho1. by rewrite <- !app_assoc.
  - intros edits. cbn [remote_cells]. rewrite Hsplit, Hskip.
    rewrite Hs2, Hs1 in Hsplit3. rewrite (rm_consumed _ _ _ _ _ _ _ _ _ _ _ _ _ Hm3), Hsplit3.
    rewrite Ho3, Ho2, Ho1, <- !app_assoc. done.
Qed.

Lemma r_edit_steps_ok edits s p v d nv nd cr :
  rrep s p v d nv nd cr → redits_valid (in_offset (r_new s)) (r_start s) edits →
  ∃ s' p' v' d' nv' nd' cr', r_edit_steps MAX_INSERTION_LEN version undo_map ts s edits = Some s' ∧ rrep s' p' v' d' nv' nd' cr' ∧
    r_done s' nv' nd' ++ cr' = r_done s nv nd ++ remote_cells version ts was (r_start s) (in_offset (r_new s)) edits cr.
Proof.
  revert s p v d nv nd cr. induction edits as [|e edits IH]; intros s p v d nv nd cr H Hval.
  { by exists s, p, v, d, nv, nd, cr. }
  destruct Hval as [He Hval]. cbn [r_edit_steps].
  destruct (r_edit_step_ok s p v d nv nd cr e H He) as (s1 & p1 & v1 & d1 & nv1 & nd1 & cr1 & q & -> & H1 & Hd1 & Hs1 & Ho1 & Hq).
  cbn [mbind option_bind]. rewrite <- Ho1, <- Hs1 in Hval.
  destruct (IH s1 p1 v1 d1 nv1 nd1 cr1 H1 Hval) as (s2 & p2 & v2 & d2 & nv2 & nd2 & cr2 & -> & H2 & Hd2).
  exists s2, p2, v2, d2, nv2, nd2, cr2. split_and!; [done..|]. rewrite Hd2, Hd1, Hq, Hs1. by rewrite <- app_assoc.
Qed.

Lemma remote_cells_keep pos off e edits k (l : list Cell) :
  passes version (ro_start e - pos) k → k = [] ∨ pos + vcells k ≤ ro_start e →
  remote_cells version ts was pos off (e :: edits) (k ++ l) =
    k ++ remote_cells version ts was (pos + vcells k) off (e :: edits) l.
Proof.
  intros Hp Hle. cbn [remote_cells]. rewrite (vsplit_passes version _ _ _ Hp), Nat.sub_add_distr.
  destruct (vsplit version (ro_start e - pos - vcells k) l) as [k1 l1]. cbn [fst snd].
  destruct (skip_newer ts l1) as [g0 l2]. destruct (vsplit version _ l2) as [r l3]. by rewrite <- !app_assoc.
Qed.

Lemma r_finish_ok s p v d nv nd cr :
  rrep s p v d nv nd cr →
  ∃ r, r_finish version s = Some r ∧
    buffer_ok (re_fragments r) (re_visible_text r) (re_deleted_text r) ∧
    cells (re_fragments r) (re_visible_text r) (re_deleted_text r) = r_done s nv nd ++ cr ∧
    describes 0 0 (re_patch r) V (re_visible_text r) ∧ normalized (re_patch r).
Proof.
  intros H. unfold r_finish.
  destruct (r_consume_rest_ok s p v d nv nd cr H) as (s1 & p1 & v1 & d1 & nv1 & nd1 & cr1 & k & -> & [H1 -> Hc] & _ & _).
  cbn [mbind option_bind]. destruct H1 as [_ _ _ Hr _ Hv Hd Hnv Hnd Hids Hfr _ Hrest Hpatch].
  destruct s1 as [[st up] [off nf ni sl] r fs pa]. unfold r_fragments, r_with_start, r_done in *.
  cbn [r_old r_new r_ropes r_start r_patch start upcoming in_fragments in_offset] in *.
  rewrite Nat.sub_diag, drop_0 in *.
  assert (vpart up 0 = 0 ∧ dpart up 0 = 0) as [Ev Ed] by (unfold vpart, dpart; by destruct (head_visible up)).
  rewrite Ev, Ed, !Nat.add_0_r in *.
  unfold r_append_slice, suffix. cbn [r_old upcoming r_ropes r_new].
  rewrite summary_text, Hr, builder_append_ok by lia. cbn [mbind option_bind].
  simpl r_ropes. rewrite finish_ok by lia. cbn [mbind option_bind].
  rewrite !(drop_ge _ (_ + _)), !app_nil_r by lia. eexists. split; [done|].
  cbn [re_fragments re_visible_text re_deleted_text re_patch]. unfold r_fragments. simpl (in_fragments _).
  rewrite !(firstn_all2 (drop _ _)) by (rewrite length_drop; lia).
  split; [split|split; [|split]].
  - exact Hids.
  - exact Hfr.
  - rewrite vlen_app, length_app, length_drop. lia.
  - rewrite dlen_app, length_app, length_drop. lia.
  - rewrite cells_append by done. rewrite <- Hrest, app_assoc. f_equal. exact Hc.
  - simpl. destruct Hpatch as (a & b & k' & Hdesc & _ & Hcons & ->).
    rewrite <- (take_drop v1 V) at 1. rewrite Hcons, <- !app_assoc. by apply describes_app_r.
  - simpl. by destruct Hpatch as (a & b & k' & _ & ? & _).
Qed.

Lemma r_initial_rep fragments :
  buffer_ok fragments V D → Forall frag_seen fragments → wlen fragments = W →
  rrep (r_with_start (r_initial fragments V D) 0) 0 0 0 [] [] (cells fragments V D).
Proof.
  intros [Hids Hfr Hv Hd] Hseen Hw.
  assert (vpart fragments 0 = 0 ∧ dpart fragments 0 = 0) as [Ev Ed] by (unfold vpart, dpart; by destruct (head_visible fragments)).
  split; try done; cbn; rewrite ?Ev, ?Ed; try done; [by left|].
  exists [], [], []. split_and!; [constructor|split; [done|constructor]|done..].
Qed.

Lemma remote_edit_ok fragments edits :
  buffer_ok fragments V D → Forall frag_seen fragments → wlen fragments = W → redits_valid 0 0 edits →
  ∃ r, apply_remote_edit MAX_INSERTION_LEN version undo_map ts fragments V D edits = Some r ∧
    buffer_ok (re_fragments r) (re_visible_text r) (re_deleted_text r) ∧
    cells (re_fragments r) (re_visible_text r) (re_deleted_text r) =
      remote_cells version ts was 0 0 edits (cells fragments V D) ∧
    describes 0 0 (re_patch r) V (re_visible_text r) ∧ normalized (re_patch r).
Proof.
  intros Hok Hseen HW Hval. unfold apply_remote_edit. destruct edits as [|e edits].
  { eexists. split; [done|]. split; [done|]. split; [done|]. cbn. split; [|by split; [|constructor]].
    rewrite <- (app_nil_l V). apply (describes_app_r 0 0 [] [] []). constructor. }
  pose proof Hval as [[Hr He _ _] _].
  destruct (r_slice_to_ok (r_initial fragments V D) 0 0 0 [] [] _ (ro_start e) (r_initial_rep fragments Hok Hseen HW) ltac:(lia))
    as (s1 & p1 & v1 & d1 & nv1 & nd1 & cr1 & k1 & -> & Hm1 & Hle1 & Hk1 & Ho1). cbn [mbind option_bind].
  pose proof (rmoves_positions _ _ _ _ _ _ _ _ _ _ _ _ _ _ _ _ (r_initial_rep fragments Hok Hseen HW) Hm1) as Hpos.
  destruct Hm1 as [H1 Hcr1 Hc1]. change (r_done s1 nv1 nd1 = k1) in Hc1. cbn in Hpos, Ho1.
  destruct (r_edit_steps_ok (e :: edits) s1 p1 v1 d1 nv1 nd1 cr1 H1) as (s2 & p2 & v2 & d2 & nv2 & nd2 & cr2 & -> & H2 & Hd2).
  { rewrite Ho1. destruct Hval as [[_ ? ? ?] ?]. split; [|done]. split; try done. lia. }
  cbn [mbind option_bind]. destruct (r_finish_ok s2 p2 v2 d2 nv2 nd2 cr2 H2) as (r & -> & Hbok & Hcells & Hd & Hn).
  exists r. split; [done|]. split; [done|]. split; [|done]. rewrite Hcells, Hd2, Hc1, Hcr1, Ho1, Hpos.
  symmetry. apply (remote_cells_keep 0 0 e edits k1 cr1).
  - destruct Hk1 as [?|?]; [right; by left|left; lia].
  - destruct Hk1 as [?|?]; [by left|right; lia].
Qed.
End proofs.

(** ** Visibility at the version *)

Section was.
Context (TREE_BASE : nat) (m : UndoTree) (version : Global).

(** An edit was undone when its largest undo count among the observed undo
    operations is odd. *)
Definition odd_count_at (id : Lamport) : bool :=
  N.odd (UndoMap.max_count (λ e, observed version (UndoMap.undo_id (UndoMap.entry_key e))) id (items m)).

Definition was_at (t : Lamport) (deletions : list Lamport) : bool :=
  negb (odd_count_at t) && forallb (λ d, negb (observed version d) || odd_count_at d) deletions.

Lemma was_visible_spec f :
  walkable TREE_BASE m → ksorted (items m) → observed version (f_timestamp f) = true →
  was_visible f version m = Some (was_at (f_timestamp f) (deletions f)).
Proof.
  intros Hw Hs Ho.
  assert (∀ id, UndoMap.was_undone m id version = Some (odd_count_at id)) as Hun.
  { intros id. unfold UndoMap.was_undone. rewrite (UndoMap.query_ok TREE_BASE m _ id Hw Hs). cbn [mbind option_bind].
    by rewrite UndoMap.mod2_odd. }
  unfold was_visible, was_at. rewrite Ho, Hun. cbn [mbind option_bind]. destruct (odd_count_at (f_timestamp f)); [done|].
  apply all_opt_total. intros d. by destruct (observed version d).
Qed.

(** Deletions the version has not observed do not matter. *)
Lemma was_at_concurrent t dels d : observed version d = false → was_at t (dels ++ [d]) = was_at t dels.
Proof. intros Hd. unfold was_at. rewrite forallb_app. simpl. by rewrite Hd, !andb_true_r. Qed.
End was.

(** ** Property *)

(** C4: applying a remote edit whose ranges are in order and inside the text
    of its version succeeds on a well-formed buffer (no assertion, unwrap or
    subtraction fails): the cells change as the specification by versions
    says (place by observed cells, skip the concurrent insertions with larger
    timestamps, delete the observed cells that were visible), the buffer
    stays well formed, and the published patch is in normal form and leads
    from the old to the new visible text. *)
Theorem remote_edit_refines TREE_BASE max version m ts fragments V D edits :
  (4 ≤ max ≤ u32_max)%N → Global_wf version → walkable TREE_BASE m → ksorted (items m) →
  buffer_ok fragments V D → Forall (frag_seen version ts) fragments →
  redits_valid (wlen version fragments) 0 0 edits →
  ∃ r, apply_remote_edit max version m ts fragments V D edits = Some r ∧
    buffer_ok (re_fragments r) (re_visible_text r) (re_deleted_text r) ∧
    cells (re_fragments r) (re_visible_text r) (re_deleted_text r) =
      remote_cells version ts (was_at m version) 0 0 edits (cells fragments V D) ∧
    describes 0 0 (re_patch r) V (re_visible_text r) ∧ normalized (re_patch r).
Proof.
  intros Hmax Hv Hw Hs Hok Hseen Hval.
  apply (remote_edit_ok max Hmax version Hv m ts (was_at m version)
    (λ f Ho, was_visible_spec TREE_BASE m version f Hw Hs Ho) V D (wlen version fragments)); done.
Qed.

(** ** A concrete remote edit *)
Module RemoteExamples.

Definition id_ (d : Z) : Locator := Locator.mkLocator [d].
Definition ins (r v : N) : Lamport := mkLamport v r.

(** "abcd" of replica 1, with "X" (version 5) and, deleted, "Y" (version 2)
    of replica 2 inserted concurrently after "b". *)
Definition fragments : list Fragment :=
  [mkFragment (id_ 5) (ins 1 1) 0 2 true [] new_global;
   mkFragment (id_ 6) (ins 2 5) 0 1 true [] new_global;
   mkFragment (id_ 7) (ins 2 2) 0 1 false [ins 2 6] new_global;
   mkFragment (id_ 8) (ins 1 1) 2 2 true [] new_global].
Definition v_text : Text := [x61; x62; x58; x63; x64].
Definition d_text : Text := [x59].
Definition version : Global := mkGlobal [0; 3]%N.
Definition undo_map : UndoTree := mk_leaf [].

(** At version 3 of replica 1: insert "1" after "b", and replace "d". *)
Definition edits : list RemoteEditOp := [mkRemoteEditOp 2 2 [x31]; mkRemoteEditOp 3 4 [x32]].

Lemma remote_example_ok : buffer_ok fragments v_text d_text.
Proof.
  split; [split| |done|done].
  - repeat constructor.
  - repeat constructor; by apply (bool_decide_unpack _) || (eexists; split; [reflexivity|done]).
  - repeat constructor.
  - repeat constructor; simpl; done || lia.
Defined.

Lemma empty_walkable : walkable 6 undo_map.
Proof. by left. Defined.

Example remote_run :
  (λ r, (re_visible_text r, re_deleted_text r)) <$>
    apply_remote_edit 16 version undo_map (ins 1 4) fragments v_text d_text edits =
    Some ([x61; x62; x58; x31; x63; x32], [x59; x64]).
Proof. vm_compute. reflexivity. Qed.

Lemma short_text t : length t < 4 → short_chars t.
Proof. intros H i Hi. lia. Defined.

Lemma remote_example_seen : Forall (frag_seen version (ins 1 4)) fragments.
Proof.
  repeat constructor; done.
Defined.

Example remote_edit_refines_witness :
  ∃ r, apply_remote_edit 16 version undo_map (ins 1 4) fragments v_text d_text edits = Some r ∧
    buffer_ok (re_fragments r) (re_visible_text r) (re_deleted_text r) ∧
    cells (re_fragments r) (re_visible_text r) (re_deleted_text r) =
      remote_cells version (ins 1 4) (was_at undo_map version) 0 0 edits (cells fragments v_text d_text) ∧
    describes 0 0 (re_patch r) v_text (re_visible_text r) ∧ normalized (re_patch r).
Proof.
  apply (remote_edit_refines 6); [done| |apply empty_walkable|constructor|apply remote_example_ok|apply remote_example_seen|].
  - split; [|done]. repeat constructor; done.
  - change (wlen version fragments) with 4.
    repeat split; simpl; try lia; try done; by apply short_text; simpl; lia.
Defined.
End RemoteExamples.
