(* ===== verification/Tracking.v ===== *)
(** * What the passes report to the indices

    A pass over the fragments also lists insertion fragments and slices for
    the two indices.  Each fragment of the result is an old one or is listed;
    each fragment the operation inserted or deleted has its slice; and nothing
    is listed that is not in the result. *)

From S2P Require Import Prelude Clock Text SumTree Patch Fragment Cells BufferInv LocalEdit Undo RemoteCells RemoteEdit RemoteEditOk.
From S2P Require Locator.

Lemma usub_some a b c : usub a b = Some c → b ≤ a ∧ c = a - b.
Proof. unfold usub. destruct (Nat.leb_spec b a); [by intros [= <-]|done]. Qed.

(** Inserted or deleted by the operation. *)
Definition marked (ts : Lamport) (f : Fragment) : Prop := f_timestamp f = ts ∨ ts ∈ deletions f.

(** A part of a fragment. *)
Definition part_of (f g : Fragment) : Prop :=
  f_timestamp g = f_timestamp f ∧ insertion_offset f ≤ insertion_offset g ∧ insertion_offset g + f_len g ≤ insertion_offset f + f_len f.
Definition known (ts : Lamport) (old : list Fragment) (g : Fragment) : Prop := f_timestamp g = ts ∨ ∃ f, f ∈ old ∧ part_of f g.

Lemma part_of_refl f : part_of f f.
Proof. split_and!; [done|lia..]. Qed.
Lemma old_known ts old f : f ∈ old → known ts old f.
Proof. intros Hf. right. exists f. split; [done|apply part_of_refl]. Qed.

(** [old]: the fragments before the pass. *)
Record tracked (ts : Lamport) (old : list Fragment) (i : Insertion) : Prop := {
  t_indexed f : f ∈ in_fragments i → f ∈ old ∨ new_insertion f ∈ in_insertions i;
  t_insertions : in_insertions i `sublist_of` (new_insertion <$> in_fragments i);
  t_slices : in_slices i `sublist_of` (from_fragment ts <$> in_fragments i);
  t_marked f : f ∈ in_fragments i → marked ts f → from_fragment ts f ∈ in_slices i;
  t_known f : f ∈ in_fragments i → known ts old f;
}.

Section tracking.
Context (ts : Lamport) (old : list Fragment) (Hold : Forall (λ f, ¬ marked ts f) old) (Hlen : Forall frag_ok old).
Implicit Types (i : Insertion) (f : Fragment).

Local Abbreviation tracked := (tracked ts old).

Lemma tracked_start : tracked (mkInsertion 0 [] [] []).
Proof. split; [by intros f ?%elem_of_nil|done|done|by intros f ?%elem_of_nil|by intros f ?%elem_of_nil]. Qed.

(** Appending fragments with what is listed for them. *)
Lemma tracked_app i fr ins sl off :
  tracked i → (∀ f, f ∈ fr → f ∈ old ∨ new_insertion f ∈ ins) → ins `sublist_of` (new_insertion <$> fr) →
  sl `sublist_of` (from_fragment ts <$> fr) → (∀ f, f ∈ fr → marked ts f → from_fragment ts f ∈ sl) → (∀ f, f ∈ fr → known ts old f) →
  tracked (mkInsertion off (in_fragments i ++ fr) (in_insertions i ++ ins) (in_slices i ++ sl)).
Proof.
  intros [H1 H2 H3 H4 H5] F1 F2 F3 F4 F5. split; cbn [in_fragments in_insertions in_slices].
  - intros f [Hf|Hf]%elem_of_app; [destruct (H1 f Hf)|destruct (F1 f Hf)]; rewrite ?elem_of_app; tauto.
  - rewrite fmap_app. by apply sublist_app.
  - rewrite fmap_app. by apply sublist_app.
  - intros f [Hf|Hf]%elem_of_app Hm; rewrite elem_of_app; auto.
  - intros f [Hf|Hf]%elem_of_app; auto.
Qed.

Lemma unmarked_same f g : f ∈ old → f_timestamp g = f_timestamp f → deletions g = deletions f → ¬ marked ts g.
Proof. intros Hf Ht Hd. rewrite Forall_forall in Hold. unfold marked. rewrite Ht, Hd. by apply Hold. Qed.

(** A kept portion, listed. *)
Lemma tracked_kept i f off : tracked i → ¬ marked ts f → known ts old f →
  tracked (mkInsertion off (in_fragments i ++ [f]) (in_insertions i ++ [new_insertion f]) (in_slices i)).
Proof.
  intros H Hf Hk. rewrite <- (app_nil_r (in_slices i)). apply tracked_app; [done|..].
  - intros g ->%list_elem_of_singleton. right. by left.
  - done.
  - apply sublist_nil_l.
  - by intros g ->%list_elem_of_singleton.
  - by intros g ->%list_elem_of_singleton.
Qed.

(** A deleted portion, with its slice. *)
Lemma tracked_removed i f off : tracked i → known ts old f →
  tracked (mkInsertion off (in_fragments i ++ [f]) (in_insertions i ++ [new_insertion f]) (in_slices i ++ [from_fragment ts f])).
Proof.
  intros H Hk. apply tracked_app; [done|..].
  - intros g ->%list_elem_of_singleton. right. by left.
  - done.
  - done.
  - intros g ->%list_elem_of_singleton _. by left.
  - by intros g ->%list_elem_of_singleton.
Qed.

(** Old fragments, not listed. *)
Lemma tracked_slice i fr off : tracked i → fr ⊆ old →
  tracked (mkInsertion off (in_fragments i ++ fr) (in_insertions i) (in_slices i)).
Proof.
  intros H Hfr. rewrite <- (app_nil_r (in_slices i)), <- (app_nil_r (in_insertions i)).
  apply tracked_app; [done|..]; try apply sublist_nil_l.
  - intros f Hf. left. by apply Hfr.
  - intros f Hf Hm. exfalso. rewrite Forall_forall in Hold. by apply (Hold f (Hfr f Hf)).
  - intros f Hf. by apply old_known, Hfr.
Qed.

(** A part at a distance, as the passes compute it. *)
Lemma part_in_range f (i n : nat) b l m id :
  is_u32 (N.of_nat (insertion_offset f + f_len f)) → i + n ≤ f_len f →
  part_of f (mkFragment id (f_timestamp f) (as_u32 (insertion_offset f + as_u32 i)) (as_u32 n) b l m).
Proof.
  intros H32 Hn. assert (∀ k, k ≤ insertion_offset f + f_len f → as_u32 k = k) as Hu.
  { intros k Hk. by apply as_u32_small, (is_u32_le _ _ Hk). }
  unfold part_of. cbn. rewrite !(Hu _) by (rewrite ?(Hu i) by lia; lia). split; [done|]. lia.
Qed.

(** Inserted text. *)
Lemma tracked_loop max fuel t next_id o i i' :
  insertion_loop max fuel t ts next_id o i = Some i' → tracked i → tracked i'.
Proof.
  revert o i. induction fuel as [|fuel IH]; intros o i; cbn [insertion_loop]; [done|].
  destruct (o <? length t); [|by intros [= <-]]. destruct (chunk_end max t o =? o); [by intros [= <-]|].
  destruct (usub _ o) as [n|]; [|done]. cbn [mbind option_bind]. intros E H. apply (IH _ _ E), tracked_removed; [done|]. by left.
Qed.

(** ** The local pass *)

Definition ltracked (s : EditState) : Prop := tracked (es_new s) ∧ upcoming (old_fragments s) ⊆ old.

Lemma emit_tracked s s' f w : emit s f w = Some s' → ltracked s → ¬ marked ts f → known ts old f → ltracked s'.
Proof.
  unfold emit. destruct (push_fragment _ f w) as [r|]; [|done]. cbn [mbind option_bind]. intros [= <-] [Ht Hu] Hf Hk.
  split; [|done]. by apply tracked_kept.
Qed.

Lemma portion_unmarked s f n g : upcoming (old_fragments s) ⊆ old → item (old_fragments s) = Some f → portion s f n = Some g →
  ¬ marked ts g ∧ deletions g = deletions f.
Proof.
  intros Hu Hf. unfold portion. destruct (usub _ _); [|done]. cbn [mbind option_bind]. intros [= <-]. split; [|done].
  apply (unmarked_same f); [|done..]. apply Hu. unfold item in Hf. destruct (upcoming _); simplify_eq/=. by left.
Qed.

Lemma portion_known s f n g : upcoming (old_fragments s) ⊆ old → item (old_fragments s) = Some f → portion s f n = Some g →
  fragment_start s + n ≤ fragment_end s → known ts old g.
Proof.
  intros Hu Hf. unfold portion, fragment_end, end_, old_start. unfold item in Hf.
  destruct (upcoming (old_fragments s)) as [|f' l]; simplify_eq/=. assert (f ∈ old) as Hin by (apply Hu; left).
  rewrite Forall_forall in Hlen. destruct (Hlen f Hin) as [H0 H32]. unfold usub.
  destruct (Nat.leb_spec (ts_visible (start (old_fragments s))) (fragment_start s)) as [Hle|]; [|done].
  cbn [mbind option_bind]. intros [= <-] He. right. exists f. split; [done|].
  assert (ts_visible (fragment_text f) ≤ f_len f) by (unfold fragment_text; destruct (visible f); simpl; lia).
  apply part_in_range; [done|lia].
Qed.

Lemma next_subset {D} add (c : @FragmentCursor D) : upcoming c ⊆ old → upcoming (next add c) ⊆ old.
Proof. unfold next. destruct c as [d [|f l]]; simpl; [done|]. intros H g Hg. apply H. by right. Qed.

Lemma slice_from_split {D} add past (d : D) l :
  let '(sk, c) := slice_from add past d l in l = sk ++ upcoming c.
Proof.
  revert d. induction l as [|f l IH]; intros d; [done|]. cbn [slice_from]. destruct (past _); [|done].
  specialize (IH (add d f)). destruct (slice_from _ _ _ l) as [sk c]. simpl. by f_equal.
Qed.

Lemma consume_rest_tracked s s' : consume_rest s = Some s' → ltracked s → ltracked s'.
Proof.
  unfold consume_rest. destruct (_ <? fragment_start s); [|by intros [= <-]]. intros E [Ht Hu].
  destruct (Nat.ltb_spec (fragment_start s) (fragment_end s)) as [Hlt|]; cbn [mbind option_bind] in E.
  - destruct (item _) as [f|] eqn:Ef; [|done]. cbn [mbind option_bind] in E.
    destruct (portion s f _) as [g|] eqn:Eg; [|done]. cbn [mbind option_bind] in E.
    destruct (emit s g _) as [s1|] eqn:E1; [|done]. cbn [mbind option_bind] in E. injection E as <-.
    destruct (portion_unmarked _ _ _ _ Hu Ef Eg) as [Hg _].
    destruct (emit_tracked _ _ _ _ E1 (conj Ht Hu) Hg) as [Ht1 Hu1]; [|split; [done|by apply next_subset]].
    apply (portion_known _ _ _ _ Hu Ef Eg). lia.
  - injection E as <-. split; [done|]. by apply next_subset.
Qed.

Lemma append_slice_tracked s s' sl : append_slice s sl = Some s' → ltracked s → sl ⊆ old → ltracked s'.
Proof.
  unfold append_slice. destruct (builder_append _ _); [|done]. cbn [mbind option_bind]. intros [= <-] [Ht Hu] Hs.
  split; [|done]. by apply tracked_slice.
Qed.

Lemma slice_to_tracked s s' target : slice_to s target = Some s' → ltracked s → ltracked s'.
Proof.
  unfold slice_to, slice. pose proof (slice_from_split add_fragment_text (past_right target) (start (old_fragments s)) (upcoming (old_fragments s))) as Hsp.
  destruct (slice_from _ _ _ _) as [sl c]. intros E [Ht Hu]. rewrite Hsp in Hu.
  destruct (append_slice s sl) as [s1|] eqn:E1; [|done]. cbn [mbind option_bind] in E. injection E as <-.
  destruct (append_slice_tracked _ _ _ E1) as [Ht1 _]; [|by intros f Hf; apply Hu, elem_of_app; left|].
  - split; [done|]. by rewrite Hsp.
  - split; [done|]. intros f Hf. apply Hu, elem_of_app. by right.
Qed.

Lemma jump_tracked s s' rs : jump s rs = Some s' → ltracked s → ltracked s'.
Proof.
  unfold jump. destruct (_ <? rs); [|by intros [= <-]]. destruct (consume_rest s) as [s1|] eqn:E1; [|done].
  cbn [mbind option_bind]. intros E H. by apply (slice_to_tracked _ _ _ E), (consume_rest_tracked _ _ E1).
Qed.

(** After a jump the current fragment reaches the target. *)
Definition reaches s rs : Prop := item (old_fragments s) = None ∨ rs ≤ fragment_end s.

Lemma slice_from_reaches target d l :
  let '(_, c) := slice_from add_fragment_text (past_right target) d l in upcoming c = [] ∨ target ≤ ts_visible (end_ add_fragment_text c).
Proof.
  revert d. induction l as [|f l IH]; intros d; cbn [slice_from]; [by left|].
  destruct (past_right target (add_fragment_text d f)) eqn:E.
  - specialize (IH (add_fragment_text d f)). by destruct (slice_from _ _ _ l).
  - right. apply Nat.leb_gt in E. unfold end_. cbn [upcoming start]. lia.
Qed.

Lemma jump_reaches s s' rs : jump s rs = Some s' → reaches s' rs.
Proof.
  unfold jump. destruct (Nat.ltb_spec (fragment_end s) rs) as [Hlt|Hge]; [|intros [= <-]; by right].
  destruct (consume_rest s) as [s1|]; [|done]. cbn [mbind option_bind]. unfold slice_to, slice.
  pose proof (slice_from_reaches rs (start (old_fragments s1)) (upcoming (old_fragments s1))) as Hr.
  destruct (slice_from _ _ _ _) as [sl c]. unfold append_slice. destruct (builder_append _ _); [|done]. cbn [mbind option_bind].
  intros [= <-]. unfold reaches, item, fragment_end. cbn. destruct Hr as [->|?]; [by left|by right].
Qed.

Lemma preserve_prefix_tracked s s' rs : reaches s rs → preserve_prefix s rs = Some s' → ltracked s → ltracked s'.
Proof.
  intros Hr. unfold preserve_prefix. destruct (Nat.ltb_spec (fragment_start s) rs) as [Hlt|]; [|by intros [= <-]]. intros E [Ht Hu].
  destruct (item _) as [f|] eqn:Ef; [|done]. cbn [mbind option_bind] in E.
  destruct (portion s f _) as [g|] eqn:Eg; [|done]. cbn [mbind option_bind] in E.
  destruct (emit s _ _) as [s1|] eqn:E1; [|done]. cbn [mbind option_bind] in E. injection E as <-.
  destruct (portion_unmarked _ _ _ _ Hu Ef Eg) as [Hg _]. apply (emit_tracked _ _ _ _ E1 (conj Ht Hu) Hg).
  apply (portion_known s f _ g Hu Ef Eg). destruct Hr; [congruence|lia].
Qed.

Lemma insert_text_tracked max s s' t : insert_text max ts s t = Some s' → ltracked s → ltracked s'.
Proof.
  unfold insert_text, push_fragments_for_insertion. destruct t as [|b t]; [by intros [= <-]|]. intros E [Ht Hu].
  destruct (insertion_loop _ _ _ _ _ _ _) as [i|] eqn:Ei; [|done]. cbn [mbind option_bind] in E. injection E as <-.
  split; [|done]. by apply (tracked_loop _ _ _ _ _ _ _ Ei).
Qed.

(** A slice is listed with the portion it is about. *)
Lemma emit_sliced_tracked s s' f w pa : emit (add_slice (with_patch s pa) (from_fragment ts f)) f w = Some s' → ltracked s → known ts old f → ltracked s'.
Proof.
  rewrite emit_record. unfold emit. destruct (push_fragment _ f w) as [r|]; [|done]. cbn [mbind option_bind]. intros [= <-] [Ht Hu] Hk.
  split; [exact (tracked_removed (es_new s) f (in_offset (es_new s)) Ht Hk)|done].
Qed.

Lemma delete_step_tracked s s' re : delete_step ts s re = Some s' → ltracked s → ltracked s'.
Proof.
  unfold delete_step. intros E [Ht Hu]. destruct (item _) as [f|] eqn:Ef; [|done]. cbn [mbind option_bind] in E.
  assert (f ∈ old) as Hf by (apply Hu; unfold item in Ef; destruct (upcoming _); simplify_eq/=; by left).
  assert (∀ s1, ltracked s1 → ltracked (if fragment_end s <=? re then with_old s1 (next add_fragment_text (old_fragments s1)) else s1)) as Hnext.
  { intros s1 [Ht1 Hu1]. destruct (_ <=? re); [|done]. split; [done|]. by apply next_subset. }
  destruct (visible f) eqn:Ev; cbn [mbind option_bind andb] in E.
  - destruct (usub _ _) as [len|] eqn:Elen; [|done]. cbn [mbind option_bind] in E.
    destruct (portion s f len) as [g|] eqn:Eg; [|done]. cbn [mbind option_bind] in E.
    assert (known ts old g) as Hk.
    { apply (portion_known _ _ _ _ Hu Ef Eg). apply usub_some in Elen. lia. }
    change (visible (delete_fragment (squeeze_id s g) ts)) with false in E. cbn [negb] in E.
    destruct (0 <? _); cbn [mbind option_bind] in E; [|injection E as <-; by apply Hnext].
    destruct (emit _ _ _) as [s1|] eqn:E1; [|done]. cbn [mbind option_bind] in E. injection E as <-.
    destruct (emit_sliced_tracked _ _ _ _ _ E1 (conj Ht Hu)) as [? ?]; [exact Hk|]. by apply (Hnext (with_start s1 _)).
  - destruct (0 <? _); cbn [mbind option_bind] in E; [|injection E as <-; by apply Hnext].
    destruct (emit _ _ _) as [s1|] eqn:E1; [|done]. cbn [mbind option_bind] in E. injection E as <-.
    destruct (emit_tracked _ _ _ _ E1 (conj Ht Hu)); [by apply (unmarked_same f)|by apply old_known|]. by apply (Hnext (with_start s1 _)).
Qed.

Lemma delete_loop_tracked fuel s s' re : delete_loop ts fuel s re = Some s' → ltracked s → ltracked s'.
Proof.
  revert s. induction fuel as [|fuel IH]; intros s; cbn [delete_loop]; destruct (_ <? re); [done|by intros [= <-]| |by intros [= <-]].
  destruct (delete_step ts s re) as [s1|] eqn:E1; [|done]. cbn [mbind option_bind]. intros E H.
  apply (IH _ E). by apply (delete_step_tracked _ _ _ E1).
Qed.

Lemma edit_steps_tracked max edits s s' : edit_steps max ts s edits = Some s' → ltracked s → ltracked s'.
Proof.
  revert s. induction edits as [|e edits IH]; intros s; cbn [edit_steps]; [by intros [= <-]|].
  destruct (edit_step max ts s e) as [s5|] eqn:E5; [|done]. cbn [mbind option_bind]. intros E H. apply (IH _ E).
  unfold edit_step, delete_range in E5.
  destruct (jump s _) as [s1|] eqn:E1; [|done]. cbn [mbind option_bind] in E5.
  destruct (preserve_prefix s1 _) as [s2|] eqn:E2; [|done]. cbn [mbind option_bind] in E5.
  destruct (insert_text max ts s2 _) as [s3|] eqn:E3; [|done]. cbn [mbind option_bind] in E5.
  destruct (delete_loop ts _ s3 _) as [s4|] eqn:E4; [|done]. cbn [mbind option_bind] in E5. injection E5 as <-.
  by apply (delete_loop_tracked _ _ _ _ E4), (insert_text_tracked _ _ _ _ E3), (preserve_prefix_tracked _ _ _ (jump_reaches _ _ _ E1) E2), (jump_tracked _ _ _ E1).
Qed.

Lemma finish_edit_tracked s r : finish_edit s = Some r → ltracked s →
  tracked (mkInsertion 0 (le_fragments r) (le_insertions r) (le_slices r)).
Proof.
  unfold finish_edit. destruct (consume_rest s) as [s1|] eqn:E1; [|done]. cbn [mbind option_bind].
  destruct (append_slice s1 _) as [s2|] eqn:E2; [|done]. cbn [mbind option_bind].
  destruct (finish _) as [[v d]|]; [|done]. cbn [mbind option_bind]. intros [= <-] H.
  apply (consume_rest_tracked _ _ E1) in H as [Ht Hu].
  destruct (append_slice_tracked _ _ _ E2 (conj Ht Hu) Hu) as [[? ? ? ?] _]. by split.
Qed.

Lemma local_edit_tracked max V D edits r :
  apply_local_edit max ts old V D edits = Some r →
  tracked (mkInsertion 0 (le_fragments r) (le_insertions r) (le_slices r)).
Proof.
  unfold apply_local_edit. cbv zeta. destruct (head _) as [e|]; [|done]. cbn [mbind option_bind].
  destruct (slice_to _ _) as [s1|] eqn:E1; [|done]. cbn [mbind option_bind].
  destruct (edit_steps max ts s1 _) as [s2|] eqn:E2; [|done]. cbn [mbind option_bind]. intros E.
  apply (finish_edit_tracked _ _ E), (edit_steps_tracked _ _ _ _ E2), (slice_to_tracked _ _ _ E1).
  split; [apply tracked_start|done].
Qed.

(** ** The remote pass *)

Definition rtracked (s : RemoteState) : Prop := tracked (r_new s) ∧ upcoming (r_old s) ⊆ old.

Lemma r_emit_tracked s s' f w : r_emit s f w = Some s' → rtracked s → ¬ marked ts f → known ts old f → rtracked s'.
Proof.
  unfold r_emit, r_push. destruct (push_fragment _ f w) as [r|]; [|done]. cbn [mbind option_bind]. intros [= <-] [Ht Hu] Hf Hk.
  split; [|done]. by apply tracked_kept.
Qed.

Section version.
Context (version : Global).

Lemma r_portion_unmarked s f n g : upcoming (r_old s) ⊆ old → item (r_old s) = Some f → r_portion s f n = Some g → ¬ marked ts g.
Proof.
  intros Hu Hf. unfold r_portion. destruct (old_full s); [|done]. cbn [mbind option_bind].
  destruct (usub _ _); [|done]. cbn [mbind option_bind]. intros [= <-].
  apply (unmarked_same f); [|done..]. apply Hu. unfold item in Hf. destruct (upcoming _); simplify_eq/=. by left.
Qed.

Lemma r_portion_known s f n g e : upcoming (r_old s) ⊆ old → item (r_old s) = Some f → r_portion s f n = Some g →
  end_full version s = Some e → r_start s + n ≤ e → known ts old g.
Proof.
  intros Hu Hf. unfold r_portion, end_full, old_full, end_. unfold item in Hf.
  destruct (upcoming (r_old s)) as [|f' l]; simplify_eq/=. assert (f ∈ old) as Hin by (apply Hu; left).
  rewrite Forall_forall in Hlen. destruct (Hlen f Hin) as [H0 H32].
  destruct (start (r_old s)) as [[o|] v]; [|done]. cbn [full_offset fst mbind option_bind].
  destruct (usub (r_start s) o) as [k|] eqn:Ek; [|done]. apply usub_some in Ek as [Hle ->].
  cbn [mbind option_bind]. intros [= <-] He Hn. right. exists f. split; [done|].
  assert (e ≤ o + f_len f) as He'.
  { unfold versioned_add in He. cbn in He. assert (ts_visible (fragment_text f) + ts_deleted (fragment_text f) = f_len f) as Hl
      by (unfold fragment_text; destruct (visible f); simpl; lia).
    repeat case_match; cbn in *; simplify_eq; lia. }
  apply part_in_range; [done|lia].
Qed.

Lemma r_next_tracked s : rtracked s → rtracked (r_next version s).
Proof. intros [Ht Hu]. split; [done|]. by apply next_subset. Qed.

Lemma r_consume_rest_tracked s s' : r_consume_rest version s = Some s' → rtracked s → rtracked s'.
Proof.
  unfold r_consume_rest. intros E [Ht Hu]. destruct (old_full s) as [st|]; [|done]. cbn [mbind option_bind] in E.
  destruct (st <? r_start s); [|by injection E as <-].
  destruct (end_full version s) as [fe|] eqn:Efe; [|done]. cbn [mbind option_bind] in E.
  destruct (Nat.ltb_spec (r_start s) fe); cbn [mbind option_bind] in E; [|injection E as <-; by apply r_next_tracked].
  destruct (item _) as [f|] eqn:Ef; [|done]. cbn [mbind option_bind] in E.
  destruct (r_portion s f _) as [g|] eqn:Eg; [|done]. cbn [mbind option_bind] in E.
  destruct (r_emit s g _) as [s1|] eqn:E1; [|done]. cbn [mbind option_bind] in E. injection E as <-.
  apply r_next_tracked, (r_emit_tracked _ _ _ _ E1); [done|by eapply r_portion_unmarked|].
  apply (r_portion_known s f _ g fe Hu Ef Eg Efe). lia.
Qed.

Lemma r_append_slice_tracked s s' sl : r_append_slice s sl = Some s' → rtracked s → sl ⊆ old → rtracked s'.
Proof.
  unfold r_append_slice. destruct (builder_append _ _); [|done]. cbn [mbind option_bind]. intros [= <-] [Ht Hu] Hs.
  split; [|done]. by apply tracked_slice.
Qed.

Lemma r_slice_to_tracked s s' target : r_slice_to version s target = Some s' → rtracked s → rtracked s'.
Proof.
  unfold r_slice_to, slice. pose proof (slice_from_split (add_remote version) (past_left target) (start (r_old s)) (upcoming (r_old s))) as Hsp.
  destruct (slice_from _ _ _ _) as [sl c]. intros E [Ht Hu]. rewrite Hsp in Hu.
  destruct (r_append_slice s sl) as [s1|] eqn:E1; [|done]. cbn [mbind option_bind] in E.
  destruct (old_full _); [|done]. cbn [mbind option_bind] in E. injection E as <-.
  destruct (r_append_slice_tracked _ _ _ E1) as [Ht1 _]; [|by intros f Hf; apply Hu, elem_of_app; left|].
  - split; [done|]. by rewrite Hsp.
  - split; [done|]. intros f Hf. apply Hu, elem_of_app. by right.
Qed.

Lemma r_jump_tracked s s' rs : r_jump version s rs = Some s' → rtracked s → rtracked s'.
Proof.
  unfold r_jump. destruct (end_full version s); [|done]. cbn [mbind option_bind]. destruct (_ <? rs); [|by intros [= <-]].
  destruct (r_consume_rest version s) as [s1|] eqn:E1; [|done].
  cbn [mbind option_bind]. intros E H. by apply (r_slice_to_tracked _ _ _ E), (r_consume_rest_tracked _ _ E1).
Qed.

Lemma finish_fragment_tracked s s' rs : finish_fragment version s rs = Some s' → rtracked s → rtracked s'.
Proof.
  unfold finish_fragment. intros E [Ht Hu]. destruct (end_full version s) as [fe|] eqn:Efe; [|done]. cbn [mbind option_bind] in E.
  destruct (_ && _) eqn:Ec; [|by injection E as <-]. apply andb_true_iff in Ec as [_ Hlt%Nat.ltb_lt]. destruct (item _) as [f|] eqn:Ef; [|done]. cbn [mbind option_bind] in E.
  destruct (r_portion s f _) as [g|] eqn:Eg; [|done]. cbn [mbind option_bind] in E.
  destruct (r_emit s g _) as [s1|] eqn:E1; [|done]. cbn [mbind option_bind] in E.
  destruct (old_full _); [|done]. cbn [mbind option_bind] in E. injection E as <-.
  destruct (r_emit_tracked _ _ _ _ E1 (conj Ht Hu)) as [Ht1 Hu1];
    [by eapply r_portion_unmarked|apply (r_portion_known s f _ g fe Hu Ef Eg Efe); lia|].
  destruct (r_next_tracked s1 (conj Ht1 Hu1)). by split.
Qed.

Lemma skip_concurrent_tracked fuel s s' rs : skip_concurrent version ts fuel s rs = Some s' → rtracked s → rtracked s'.
Proof.
  revert s. induction fuel as [|fuel IH]; intros s; cbn [skip_concurrent]; destruct (item _) as [f|] eqn:Ef;
    try (by intros [= <-]); destruct (_ && _); try done; try (by intros [= <-]).
  unfold r_push at 1. destruct (push_fragment _ _ _) as [r|]; [|done]. cbn [mbind option_bind]. intros E [Ht Hu].
  apply (IH _ E), r_next_tracked. split; [|done]. rewrite app_nil_r. apply tracked_slice; [done|].
  intros g ->%list_elem_of_singleton. apply Hu. unfold item in Ef. destruct (upcoming _); simplify_eq/=. by left.
Qed.

(** When the prefix is taken the current fragment reaches the target. *)
Definition r_reaches s rs : Prop := rs ≤ r_start s ∨ item (r_old s) = None ∨ ∃ e, end_full version s = Some e ∧ rs ≤ e.

Lemma r_slice_from_reaches target d l :
  let '(_, c) := slice_from (add_remote version) (past_left target) d l in
  upcoming c = [] ∨ full_offset (end_ (add_remote version) c).1 = None ∨ ∃ e, full_offset (end_ (add_remote version) c).1 = Some e ∧ target ≤ e.
Proof.
  revert d. induction l as [|f l IH]; intros d; cbn [slice_from]; [by left|].
  destruct (past_left target (add_remote version d f)) eqn:E.
  - specialize (IH (add_remote version d f)). by destruct (slice_from _ _ _ l).
  - right. unfold end_. cbn [upcoming start]. unfold past_left, versioned_cmp in E. destruct (add_remote version d f).1 as [e|]; [|by left].
    right. exists e. split; [done|]. destruct (Nat.compare_spec target e); [lia..|done].
Qed.

Lemma r_jump_reaches s s' rs : r_jump version s rs = Some s' → end_full version s' = None ∨ r_reaches s' rs.
Proof.
  unfold r_jump. destruct (end_full version s) as [fe|] eqn:Efe; [|done]. cbn [mbind option_bind].
  destruct (Nat.ltb_spec fe rs) as [Hlt|Hge]; [|intros [= <-]; right; right; right; by exists fe].
  destruct (r_consume_rest version s) as [s1|]; [|done]. cbn [mbind option_bind]. unfold r_slice_to, slice.
  pose proof (r_slice_from_reaches rs (start (r_old s1)) (upcoming (r_old s1))) as Hr.
  destruct (slice_from _ _ _ _) as [sl c]. unfold r_append_slice. destruct (builder_append _ _); [|done]. cbn [mbind option_bind].
  destruct (old_full _) as [o|]; [|done]. cbn [mbind option_bind]. intros [= <-]. unfold r_reaches, item, end_full. cbn.
  destruct Hr as [->|[?|?]]; [right; right; by left|by left|right; right; by right].
Qed.

Lemma finish_fragment_reaches s s' rs : finish_fragment version s rs = Some s' → (end_full version s = None ∨ r_reaches s rs) → r_reaches s' rs.
Proof.
  unfold finish_fragment. destruct (end_full version s) as [fe|] eqn:Efe; [|done]. cbn [mbind option_bind].
  destruct (_ && _) eqn:Ec; [|by intros [= <-] [?|?]]. apply andb_true_iff in Ec as [->%Nat.eqb_eq _].
  destruct (item _) as [f|] eqn:Ef; [|done]. cbn [mbind option_bind].
  destruct (r_portion s f _) as [g|]; [|done]. cbn [mbind option_bind]. unfold r_emit, r_push.
  destruct (push_fragment _ _ _); [|done]. cbn [mbind option_bind]. unfold old_full, r_next. cbn. unfold end_full, end_, item, next in *.
  destruct (upcoming (r_old s)) as [|f' l]; [done|]. cbn [start] in *. rewrite Efe. cbn [mbind option_bind].
  intros [= <-] _. left. done.
Qed.

Lemma skip_concurrent_reaches fuel s s' rs : skip_concurrent version ts fuel s rs = Some s' → r_reaches s rs → r_reaches s' rs.
Proof.
  revert s. induction fuel as [|fuel IH]; intros s; cbn [skip_concurrent]; destruct (item _) as [f|] eqn:Ef;
    try (by intros [= <-]); destruct (_ && _) eqn:Ec; try done; try (by intros [= <-]).
  apply andb_true_iff in Ec as [<-%Nat.eqb_eq _]. unfold r_push at 1. destruct (push_fragment _ _ _) as [r|]; [|done].
  cbn [mbind option_bind]. intros E _. apply (IH _ E). by left.
Qed.

Lemma r_preserve_prefix_tracked s s' rs : r_reaches s rs → r_preserve_prefix s rs = Some s' → rtracked s → rtracked s'.
Proof.
  intros Hr. unfold r_preserve_prefix. destruct (Nat.ltb_spec (r_start s) rs) as [Hlt|]; [|by intros [= <-]]. intros E [Ht Hu].
  destruct (item _) as [f|] eqn:Ef; [|done]. cbn [mbind option_bind] in E.
  destruct (r_portion s f _) as [g|] eqn:Eg; [|done]. cbn [mbind option_bind] in E.
  destruct (r_emit s _ _) as [s1|] eqn:E1; [|done]. cbn [mbind option_bind] in E. injection E as <-.
  pose proof (r_portion_unmarked _ _ _ _ Hu Ef Eg) as Hg. apply (r_emit_tracked _ _ _ _ E1 (conj Ht Hu) Hg).
  destruct Hr as [?|[?|(e & Ee & ?)]]; [lia|congruence|]. apply (r_portion_known s f _ g e Hu Ef Eg Ee). lia.
Qed.

Lemma r_place_tracked s s' rs : r_place version ts s rs = Some s' → rtracked s → rtracked s'.
Proof.
  unfold r_place. destruct (r_jump version s rs) as [s1|] eqn:E1; [|done]. cbn [mbind option_bind].
  destruct (finish_fragment version s1 rs) as [s2|] eqn:E2; [|done]. cbn [mbind option_bind].
  destruct (skip_concurrent version ts _ s2 rs) as [s3|] eqn:E3; [|done]. cbn [mbind option_bind].
  destruct (_ <=? rs); [|done]. cbn [mbind option_bind]. intros E H.
  assert (r_reaches s3 rs) as Hr.
  { by apply (skip_concurrent_reaches _ _ _ _ E3), (finish_fragment_reaches _ _ _ E2), (r_jump_reaches _ _ _ E1). }
  by apply (r_preserve_prefix_tracked _ _ _ Hr E), (skip_concurrent_tracked _ _ _ _ E3), (finish_fragment_tracked _ _ _ E2), (r_jump_tracked _ _ _ E1).
Qed.

Lemma r_insert_text_tracked max s s' t : r_insert_text max ts s t = Some s' → rtracked s → rtracked s'.
Proof.
  unfold r_insert_text, push_fragments_for_insertion. destruct t as [|b t]; [by intros [= <-]|]. intros E [Ht Hu].
  destruct (old_full s); [|done]. cbn [mbind option_bind] in E. destruct (usub _ _); [|done]. cbn [mbind option_bind] in E.
  destruct (insertion_loop _ _ _ _ _ _ _) as [i|] eqn:Ei; [|done]. cbn [mbind option_bind] in E. injection E as <-.
  split; [|done]. by apply (tracked_loop _ _ _ _ _ _ _ Ei).
Qed.

Lemma r_emit_sliced_tracked s s' f w : r_emit (r_add_slice s (from_fragment ts f)) f w = Some s' → rtracked s → known ts old f → rtracked s'.
Proof.
  unfold r_emit, r_push. destruct (push_fragment _ f w) as [r|]; [|done]. cbn [mbind option_bind]. intros [= <-] [Ht Hu] Hk.
  split; [exact (tracked_removed (r_new s) f (in_offset (r_new s)) Ht Hk)|done].
Qed.
End version.

Section remote.
Context (max : N) (Hmax : (4 ≤ max ≤ u32_max)%N) (version : Global) (Hversion : Global_wf version) (undo_map : UndoTree).
Context (was : Lamport → list Lamport → bool) (Hwas : ∀ f, observed version (f_timestamp f) = true →
  was_visible f version undo_map = Some (was (f_timestamp f) (deletions f))).
Context (V D : Text) (W : nat).

(** The states of a pass that does not fail. *)
Definition on_track (s : RemoteState) : Prop := ∃ p v d nv nd cr, rrep version ts V D W s p v d nv nd cr.

Lemma r_delete_step_ok s re : on_track s → r_start s < re → upcoming (r_old s) ≠ [] →
  ∃ s', r_delete_step version undo_map ts s re = Some s' ∧ on_track s'.
Proof.
  intros (p & v & d & nv & nd & cr & H) Hre Hne. destruct (upcoming (r_old s)) as [|f l] eqn:Hup; [done|].
  destruct (observed version (f_timestamp f)) eqn:Eo.
  - destruct (r_delete_observed max Hmax version Hversion undo_map ts was Hwas V D W s p v d nv nd cr f l re H Hup Eo Hre)
      as (s1 & p1 & v1 & d1 & nv1 & nd1 & E & Hm & _). exists s1. split; [done|]. do 6 eexists. apply Hm.
  - destruct (r_delete_concurrent max Hmax version Hversion undo_map ts was V D W s p v d nv nd cr f l re H Hup Eo Hre)
      as (s1 & v1 & d1 & nv1 & nd1 & E & Hm & _). exists s1. split; [done|]. do 6 eexists. apply Hm.
Qed.

(** The part a deletion takes is not empty. *)
Lemma intersection_not_empty s f l re p v d nv nd cr :
  rrep version ts V D W s p v d nv nd cr → upcoming (r_old s) = f :: l → observed version (f_timestamp f) = true → r_start s < re →
  0 < as_u32 (Nat.min re (p + f_len f) - r_start s).
Proof.
  intros H Hup Ho Hre. pose proof (rr_inside _ _ _ _ _ _ _ _ _ _ _ _ H) as Hin. pose proof (rr_frags _ _ _ _ _ _ _ _ _ _ _ _ H) as Hf.
  pose proof (rr_pos _ _ _ _ _ _ _ _ _ _ _ _ H) as Hp.
  rewrite Hup in *. apply Forall_app in Hf as [_ [[Hl H32] _]%Forall_cons]. unfold head_weight, weight in Hin. rewrite Ho in Hin.
  rewrite as_u32_small; [lia|]. apply (is_u32_le _ (insertion_offset f + f_len f)); [lia|done].
Qed.

Lemma r_delete_step_tracked s s' re : on_track s → r_start s < re →
  r_delete_step version undo_map ts s re = Some s' → rtracked s → rtracked s'.
Proof.
  intros (p & v & d & nv & nd & cr & H) Hre E [Ht Hu]. unfold r_delete_step in E.
  destruct (item (r_old s)) as [f|] eqn:Ef; [|done]. cbn [mbind option_bind] in E.
  assert (∃ l, upcoming (r_old s) = f :: l) as [l Hup] by (unfold item in Ef; destruct (upcoming _); simplify_eq/=; eauto).
  assert (f ∈ old) as Hf by (apply Hu; rewrite Hup; left).
  pose proof (end_full_ok version Hversion ts V D W s p v d nv nd cr H) as Efe. rewrite Hup in Efe. cbn [head_weight] in Efe.
  rewrite Efe in E. cbn [mbind option_bind] in E.
  assert (∀ s1, rtracked s1 → rtracked (if p + weight version f <=? re then r_next version s1 else s1)) as Hnext.
  { intros s1 H1. destruct (_ <=? re); [by apply r_next_tracked|done]. }
  unfold r_intersection in E. destruct (observed version (f_timestamp f)) eqn:Eo.
  - destruct (usub _ _) as [len|] eqn:Elen; [|done]. cbn [mbind option_bind] in E.
    destruct (r_portion s f len) as [g|] eqn:Eg; [|done]. cbn [mbind option_bind] in E. rewrite (Hwas f Eo) in E.
    assert (known ts old g) as Hk by (apply usub_some in Elen; apply (r_portion_known version s f len g _ Hu Ef Eg Efe); lia).
    cbn [mbind option_bind] in E.
    assert (f_len g = as_u32 len) as Hglen.
    { unfold r_portion in Eg. destruct (old_full s); [|done]. cbn [mbind option_bind] in Eg. destruct (usub (r_start s) _); [|done].
      cbn [mbind option_bind] in Eg. by injection Eg as <-. }
    assert (0 < as_u32 len) as Hpos.
    { pose proof (intersection_not_empty s f l re p v d nv nd cr H Hup Eo Hre) as Hn. unfold weight in Elen. rewrite Eo in Elen.
      unfold usub in Elen. destruct (r_start s <=? _); [by injection Elen as <-|done]. }
    destruct (was _ _); cbn [mbind option_bind f_len r_squeeze_id visible] in E; rewrite Hglen, (proj2 (Nat.ltb_lt _ _) Hpos) in E.
    + set (i := mkFragment _ _ _ _ false _ _) in E. destruct (if _ && _ then _ else _) as [s1|] eqn:Es1; [|done].
      assert (∃ pa, s1 = r_with_patch (r_add_slice s (from_fragment ts i)) pa) as [pa ->].
      { destruct (_ && _) in Es1; [|injection Es1 as <-; by exists (r_patch s)].
        destruct (old_full _) as [st|]; [|done]. cbn [mbind option_bind] in Es1. destruct (usub _ st); [|done].
        cbn [mbind option_bind] in Es1. injection Es1 as <-. by eexists. }
      cbn [mbind option_bind] in E. unfold r_emit in E. rewrite r_push_patch, r_push_slice in E.
      fold (r_emit s i (visible f)) in E. destruct (r_emit s i (visible f)) as [s2|] eqn:E2; [|done].
      cbn [fmap option_fmap option_map mbind option_bind] in E. injection E as <-. apply Hnext.
      unfold r_emit, r_push in E2. destruct (push_fragment _ _ _); [|done]. cbn [mbind option_bind] in E2. injection E2 as <-.
      assert (known ts old i) as Hki by (unfold i; rewrite <- Hglen; exact Hk).
      split; [exact (tracked_removed (r_new s) i (in_offset (r_new s)) Ht Hki)|done].
    + cbn [r_squeeze_id visible] in E. assert (visible f && negb (visible g) = false) as Ev.
      { unfold r_portion in Eg. destruct (old_full s); [|done]. cbn [mbind option_bind] in Eg. destruct (usub (r_start s) _); [|done].
        cbn [mbind option_bind] in Eg. injection Eg as <-. simpl. by destruct (visible f). }
      rewrite Ev in E. cbn [mbind option_bind] in E. destruct (r_emit s _ _) as [s2|] eqn:E2; [|done].
      cbn [mbind option_bind] in E. injection E as <-. apply Hnext.
      pose proof (r_portion_unmarked s f len g Hu Ef Eg) as Hg. destruct (r_emit_tracked s s2 _ _ E2 (conj Ht Hu) Hg); [exact Hk|]. by split.
  - cbn [mbind option_bind] in E. assert (visible f && negb (visible f) = false) as Ev by by destruct (visible f).
    rewrite Ev in E. destruct (0 <? f_len f); cbn [mbind option_bind] in E; [|injection E as <-; by apply Hnext].
    destruct (r_emit s _ _) as [s2|] eqn:E2; [|done]. cbn [mbind option_bind] in E. injection E as <-. apply Hnext.
    destruct (r_emit_tracked s s2 _ _ E2 (conj Ht Hu)); [by apply (unmarked_same f)|by apply old_known|by split].
Qed.

Lemma r_delete_loop_tracked fuel s s' re : on_track s → re ≤ W →
  r_delete_loop version undo_map ts fuel s re = Some s' → rtracked s → rtracked s'.
Proof.
  intros Hg Hre. revert s Hg. induction fuel as [|fuel IH]; intros s Hg; cbn [r_delete_loop];
    destruct (Nat.ltb_spec (r_start s) re) as [Hlt|Hge]; [done|by intros [= <-]| |by intros [= <-]].
  assert (upcoming (r_old s) ≠ []) as Hne.
  { destruct Hg as (p & v & d & nv & nd & cr & H). intros Hup. pose proof (rr_wlen _ _ _ _ _ _ _ _ _ _ _ _ H) as Hw.
    pose proof (rr_pos _ _ _ _ _ _ _ _ _ _ _ _ H). rewrite Hup in Hw. unfold wlen in Hw. simpl in Hw. lia. }
  destruct (r_delete_step_ok s re Hg Hlt Hne) as (s1 & E1 & Hg1). rewrite E1. cbn [mbind option_bind]. intros E H.
  apply (IH _ Hg1 E). by apply (r_delete_step_tracked _ _ _ Hg Hlt E1).
Qed.

Lemma r_edit_steps_tracked edits s s' : on_track s → redits_valid W (in_offset (r_new s)) (r_start s) edits →
  r_edit_steps max version undo_map ts s edits = Some s' → rtracked s → rtracked s'.
Proof.
  revert s. induction edits as [|e edits IH]; intros s Hg Hval; cbn [r_edit_steps]; [by intros [= <-]|].
  destruct Hg as (p & v & d & nv & nd & cr & H). destruct Hval as [He Hval]. pose proof He as [Hr HeW Ht H32].
  destruct (r_edit_step_ok max Hmax version Hversion undo_map ts was Hwas V D W s p v d nv nd cr e H He)
    as (s4 & p4 & v4 & d4 & nv4 & nd4 & cr4 & q & E & H4 & _ & Hs4 & Ho4 & _).
  rewrite E. cbn [mbind option_bind]. intros Es Htr. rewrite <- Ho4, <- Hs4 in Hval.
  apply (IH s4 ltac:(by do 6 eexists) Hval Es). clear IH Hval Es.
  destruct (r_place_ok max Hmax version Hversion ts V D W s p v d nv nd cr (ro_start e) H ltac:(lia))
    as (s1 & p1 & v1 & d1 & nv1 & nd1 & cr1 & k & g & Hplace & Hm1 & Hs1 & Ho1 & _).
  destruct (r_insert_text_ok max Hmax version ts V D W s1 p1 v1 d1 nv1 nd1 cr1 (ro_text e) (rm_rep _ _ _ _ _ _ _ _ _ _ _ _ _ _ _ _ _ _ Hm1) Ht)
    as (s2 & nv2 & nd2 & Hins & Hm2 & _); [by rewrite Ho1|].
  assert (r_edit_step max version undo_map ts s e = r_delete_loop version undo_map ts (S (length (upcoming (r_old s2)))) s2 (ro_end e)) as Estep.
  { unfold r_edit_step. pose proof Hplace as Hp. unfold r_place in Hp.
    destruct (r_jump _ _ _) as [sa|]; [|done]. cbn [mbind option_bind] in *.
    destruct (finish_fragment _ _ _) as [sb|]; [|done]. cbn [mbind option_bind] in *.
    destruct (skip_concurrent _ _ _ _ _) as [sc|]; [|done]. cbn [mbind option_bind] in *.
    destruct (r_start sc <=? ro_start e); [|done]. cbn [mbind option_bind] in *. rewrite Hp. cbn [mbind option_bind].
    by rewrite Hins. }
  rewrite Estep in E. apply (r_delete_loop_tracked _ _ _ _ ltac:(do 6 eexists; exact (rm_rep _ _ _ _ _ _ _ _ _ _ _ _ _ _ _ _ _ _ Hm2)) HeW E).
  by apply (r_insert_text_tracked _ _ _ _ Hins), (r_place_tracked version _ _ _ Hplace).
Qed.

Lemma r_finish_tracked s r : r_finish version s = Some r → rtracked s →
  tracked (mkInsertion 0 (re_fragments r) (re_insertions r) (re_slices r)).
Proof.
  unfold r_finish. destruct (r_consume_rest version s) as [s1|] eqn:E1; [|done]. cbn [mbind option_bind].
  destruct (r_append_slice s1 _) as [s2|] eqn:E2; [|done]. cbn [mbind option_bind].
  destruct (finish _) as [[v d]|]; [|done]. cbn [mbind option_bind]. intros [= <-] H.
  apply (r_consume_rest_tracked version _ _ E1) in H as [Ht Hu].
  destruct (r_append_slice_tracked _ _ _ E2 (conj Ht Hu) Hu) as [[? ? ? ?] _]. by split.
Qed.

Lemma remote_edit_tracked edits r :
  buffer_ok old V D → Forall (frag_seen version ts) old → wlen version old = W → redits_valid W 0 0 edits → edits ≠ [] →
  apply_remote_edit max version undo_map ts old V D edits = Some r →
  tracked (mkInsertion 0 (re_fragments r) (re_insertions r) (re_slices r)).
Proof.
  intros Hok Hseen HW Hval Hne. unfold apply_remote_edit. destruct edits as [|e edits]; [done|]. pose proof Hval as [[Hr He _ _] _].
  destruct (r_slice_to_ok max Hmax version Hversion ts V D W (r_initial old V D) 0 0 0 [] [] _ (ro_start e)
    (r_initial_rep version ts V D W old Hok Hseen HW) ltac:(lia))
    as (s1 & p1 & v1 & d1 & nv1 & nd1 & cr1 & k1 & E1 & Hm1 & Hle1 & Hk1 & Ho1). rewrite E1. cbn [mbind option_bind].
  destruct (r_edit_steps _ _ _ _ s1 _) as [s2|] eqn:E2; [|done]. cbn [mbind option_bind]. intros E.
  apply (r_finish_tracked _ _ E), (r_edit_steps_tracked (e :: edits) s1); [do 6 eexists; apply Hm1| |done|].
  - cbn in Ho1. rewrite Ho1. destruct Hval as [[_ ? ? ?] ?]. split; [|done]. split; try done. lia.
  - apply (r_slice_to_tracked version _ _ _ E1). split; [apply tracked_start|done].
Qed.
End remote.
End tracking.
