(* ===== verification/Converge.v ===== *)
(** * Replicas agree

    A remote replica that applies a local edit's operation gets the same text;
    two replicas that apply the same two concurrent operations in different
    orders get the same text. *)

From S2P Require Import Prelude Clock Text SumTree Cursor KeyedTree UndoMap Patch Fragment Cells BufferInv RemoteCells LocalEdit Undo RemoteEdit RemoteEditOk.
From S2P Require Locator.

(** ** Fragments and cells *)

Lemma cells_forall (P : Cell → Prop) l v d : Forall (λ f, ∀ i b, P (cell_of f i b)) l → Forall P (cells l v d).
Proof.
  intros Hl. revert v d. induction Hl as [|f l Hf _ IH]; intros v d; [constructor|]. cbn [cells].
  assert (∀ t, Forall P (fcells f t)) as Hfc.
  { intros t. apply Forall_lookup. intros i c. unfold fcells. rewrite list_lookup_imap.
    destruct (t !! i); [|done]. intros [= <-]. apply Hf. }
  by destruct (visible f); apply Forall_app.
Qed.

(** Every fragment of a well-formed buffer has a cell. *)
Lemma fragment_cell l v d f :
  buffer_ok l v d → f ∈ l → ∃ i b, cell_of f i b ∈ cells l v d.
Proof.
  intros [_ Hfr Hv Hd] Hf. apply list_elem_of_split in Hf as (l1 & l2 & ->).
  apply Forall_app in Hfr as [_ [[Hlen _] _]%Forall_cons].
  rewrite vlen_app, vlen_cons in Hv. rewrite dlen_app, dlen_cons in Hd. rewrite cells_app. cbn [cells].
  assert (∀ t k : Text, 0 < length (take (f_len f) t) → ∃ i b, cell_of f i b ∈ fcells f (take (f_len f) t)) as Hc.
  { intros t _ Ht. destruct (take (f_len f) t) as [|b t']; [simpl in Ht; lia|]. exists 0, b. by left. }
  destruct (visible f) eqn:E; [rewrite (vis_text f E) in *|rewrite (hid_text f E) in *]; simpl in Hv, Hd.
  - destruct (Hc (drop (vlen l1) v) []) as (i & b & H); [rewrite length_take, length_drop; lia|].
    exists i, b. apply elem_of_app. right. apply elem_of_app. by left.
  - destruct (Hc (drop (dlen l1) d) []) as (i & b & H); [rewrite length_take, length_drop; lia|].
    exists i, b. apply elem_of_app. right. apply elem_of_app. by left.
Qed.

(** The texts of a well-formed buffer are those of its cells. *)
Lemma buffer_texts l v d : buffer_ok l v d → visible_bytes (cells l v d) = v ∧ deleted_bytes (cells l v d) = d.
Proof.
  intros [_ _ Hv Hd]. destruct (cells_texts l v d) as [-> ->]; [lia..|]. by rewrite Hv, Hd, !firstn_all.
Qed.

(** ** Replay *)

Lemma edited_ranges ts idx pos off edits ranges c c' W V :
  edited ts idx pos off edits ranges c c' → idx + length c ≤ W → edits_valid V off pos edits →
  redits_valid W off idx (zip_with to_remote edits ranges).
Proof.
  induction 1 as [|idx pos off k r c c' t edits ranges _ IH]; [done|].
  rewrite !length_app. intros HW [[_ _ Ht Ho] Hval]. cbn [zip_with redits_valid to_remote ro_start ro_end ro_text fst snd e_text] in *.
  split; [split; simpl; try done; lia|]. apply IH; [lia|exact Hval].
Qed.

(** Every insertion was seen, and what the replica shows is what the version showed. *)
Definition in_sync (version : Global) (m : UndoTree) (ts : Lamport) (f : Fragment) : Prop :=
  insertion_stamp (f_timestamp f) ∧ observed version (f_timestamp f) = true ∧ ltb ts (f_timestamp f) = false ∧
  was_at m version (f_timestamp f) (deletions f) = visible f.

(** Clipping does not change the texts. *)
Lemma clip_remote V edits ranges : zip_with to_remote (clip_edits V edits) ranges = zip_with to_remote (normalize_edit <$> edits) ranges.
Proof.
  revert ranges. induction edits as [|e edits IH]; intros [|r ranges]; try done. unfold clip_edits in *. cbn [fmap list_fmap zip_with].
  by rewrite IH.
Qed.

(** C11: a replica that holds the same cells, all observed by the operation's
    version and as visible as that version saw them, and applies the
    operation of a local edit, ends with the same cells and so the same
    visible and deleted texts as the replica that made the edit, however its
    text is split into fragments. *)
Theorem remote_replays_local TREE_BASE max version m ts fragments V D edits fragments2 V2 D2 :
  (4 ≤ max ≤ u32_max)%N → Global_wf version → walkable TREE_BASE m → ksorted (items m) →
  buffer_ok fragments V D → buffer_ok fragments2 V2 D2 → cells fragments2 V2 D2 = cells fragments V D →
  Forall (in_sync version m ts) fragments2 → edits ≠ [] → edits_ordered edits →
  ∃ r r2, apply_local_edit max ts fragments V D edits = Some r ∧
    apply_remote_edit max version m ts fragments2 V2 D2 (zip_with to_remote (normalize_edit <$> edits) (le_ranges r)) = Some r2 ∧
    cells (re_fragments r2) (re_visible_text r2) (re_deleted_text r2) =
      cells (le_fragments r) (le_visible_text r) (le_deleted_text r) ∧
    re_visible_text r2 = le_visible_text r ∧ re_deleted_text r2 = le_deleted_text r.
Proof.
  intros Hmax Hv Hw Hs Hok Hok2 Hcells Hsync Hne Hord. pose proof (clip_valid V edits Hord) as Hval.
  destruct (local_edit_ok max Hmax ts V D fragments edits Hok Hne Hval) as (r & Hr & _ & _ & Hbok & Hed).
  assert (Forall (λ x, RemoteCells.versioned version x = true ∧ newer ts x = false ∧ was_at m version (c_timestamp x) (c_deletions x) = c_visible x)
    (cells fragments V D)) as Hc.
  { rewrite <- Hcells. apply cells_forall. eapply Forall_impl; [exact Hsync|]. by intros f (_ & ? & ? & ?). }
  assert (wlen version fragments2 = length (cells fragments V D)) as Hlen.
  { destruct Hok2 as [_ _ Hv2 Hd2]. rewrite <- (vcells_cells max Hmax version fragments2 V2 D2) by lia. rewrite Hcells.
    apply vcells_all. eapply Forall_impl; [exact Hc|]. by intros x (? & _). }
  destruct (remote_edit_ok max Hmax version Hv m ts (was_at m version)
    (λ f Ho, was_visible_spec TREE_BASE m version f Hw Hs Ho) V2 D2 (wlen version fragments2) fragments2
    (zip_with to_remote (clip_edits V edits) (le_ranges r))) as (r2 & Hr2 & Hbok2 & Hcells2 & _); [done| |done| |].
  { eapply Forall_impl; [exact Hsync|]. intros f (? & ? & ? & _). by split. }
  { rewrite Hlen. by apply (edited_ranges ts 0 0 0 _ _ _ _ _ V Hed). }
  rewrite Hcells, (edited_remote version ts _ 0 0 0 _ _ _ _ Hed Hc) in Hcells2.
  rewrite clip_remote in Hr2. exists r, r2. split; [done|]. split; [done|]. split; [done|].
  destruct (buffer_texts _ _ _ Hbok) as [E1 E2]. destruct (buffer_texts _ _ _ Hbok2) as [E3 E4].
  rewrite Hcells2 in E3, E4. split; congruence.
Qed.

(** ** The specification by splitting *)

Lemma skip_newer_eq ts l g r : skip_newer ts l = (g, r) → l = g ++ r.
Proof.
  revert g r. induction l as [|c l IH]; intros g r; simpl; [by intros [= <- <-]|].
  destruct (newer ts c); [|by intros [= <- <-]]. destruct (skip_newer ts l) as [g' r'].
  intros [= <- <-]. cbn. by rewrite (IH g' r' eq_refl).
Qed.

Lemma skip_newer_all ts l g r : skip_newer ts l = (g, r) → Forall (λ c, newer ts c = true) g.
Proof.
  revert g r. induction l as [|c l IH]; intros g r; simpl; [by intros [= <- <-]|].
  destruct (newer ts c) eqn:E; [|by intros [= <- <-]]. destruct (skip_newer ts l) as [g' r'].
  intros [= <- <-]. constructor; [done|]. by eapply IH.
Qed.

Lemma vsplit_count version n l : n ≤ vcells version l → vcells version (vsplit version n l).1 = n.
Proof.
  revert n. induction l as [|c l IH]; intros [|n] Hn; try done; [unfold vcells in Hn; cbn in Hn; lia|].
  rewrite vcells_cons in Hn. cbn [vsplit].
  destruct (RemoteCells.versioned version c) eqn:E.
  - specialize (IH n ltac:(lia)). destruct (vsplit version n l). cbn [fst] in *. rewrite vcells_cons, E. lia.
  - specialize (IH (S n) ltac:(lia)). destruct (vsplit version (S n) l). cbn [fst] in *. rewrite vcells_cons, E. lia.
Qed.

(** ** One pass over the cells

    An operation is one pass over the cells: [i] counts the cells its version
    has observed, and [pend] is the text that waits for its place among the
    cells inserted concurrently at [i]; larger timestamps come first. *)

(** What the edits insert after [i] observed cells. *)
Fixpoint texts_at (ts : Lamport) (i off : nat) (edits : list RemoteEditOp) : list Cell :=
  match edits with
  | [] => []
  | e :: edits =>
      (if ro_start e =? i then inserted_cells ts off (ro_text e) else []) ++ texts_at ts i (off + length (ro_text e)) edits
  end.
Definition deleted_at (i : nat) (edits : list RemoteEditOp) : bool :=
  existsb (λ e, (ro_start e <=? i) && (i <? ro_end e)) edits.

Section sweep.
Context (version : Global) (ts : Lamport) (was : Lamport → list Lamport → bool).
Local Abbreviation versioned := (RemoteCells.versioned version).
Local Abbreviation remote_delete := (remote_delete version ts was).

Fixpoint sweep (off : nat) (edits : list RemoteEditOp) (i : nat) (pend l : list Cell) : list Cell :=
  match l with
  | [] => pend
  | c :: l =>
      if newer ts c then c :: sweep off edits i pend l
      else if versioned c then
        pend ++ (if deleted_at i edits then remote_delete c else c) :: sweep off edits (S i) (texts_at ts (S i) off edits) l
      else pend ++ c :: sweep off edits i [] l
  end.

(** A cell that does not let the text pass. *)
Definition settled (l : list Cell) : Prop := ∀ c, head l = Some c → newer ts c = false.
(** The operation's version has observed no larger timestamp. *)
Definition seen_older (c : Cell) : Prop := versioned c = true → newer ts c = false.

Lemma sweep_pend off edits i pend l : settled l → sweep off edits i pend l = pend ++ sweep off edits i [] l.
Proof.
  intros Hl. destruct l as [|c l]; cbn [sweep]; [by rewrite app_nil_r|]. rewrite (Hl c eq_refl). by destruct (versioned c).
Qed.

Lemma sweep_skip off edits i pend l :
  sweep off edits i pend l = (skip_newer ts l).1 ++ sweep off edits i pend (skip_newer ts l).2 ∧ settled (skip_newer ts l).2.
Proof.
  induction l as [|c l [IH Hs]]; cbn [skip_newer]; [done|]. destruct (newer ts c) eqn:E.
  - cbn [sweep]. rewrite E, IH. by destruct (skip_newer ts l).
  - cbn [fst snd app]. split; [done|]. by intros x [= <-].
Qed.

(** Newer cells the operation has not observed are passed. *)
Lemma sweep_app_newer off edits i pend g l : Forall (λ c, newer ts c = true) g →
  sweep off edits i pend (g ++ l) = g ++ sweep off edits i pend l.
Proof. induction 1 as [|c g Hc _ IH]; [done|]. cbn [app sweep]. by rewrite Hc, IH. Qed.

(** Older cells it has not observed are passed after the waiting text. *)
Lemma sweep_app_older off edits i pend g l : g ≠ [] → Forall (λ c, versioned c = false ∧ newer ts c = false) g →
  sweep off edits i pend (g ++ l) = pend ++ g ++ sweep off edits i [] l.
Proof.
  intros Hne Hg. revert pend Hne. induction Hg as [|c g [Hv Hc] _ IH]; intros pend Hne; [done|]. cbn [app sweep]. rewrite Hc, Hv.
  destruct g as [|c' g]; [done|]. by rewrite IH.
Qed.

Lemma texts_before i off pos W edits : redits_valid W off pos edits → i < pos → texts_at ts i off edits = [].
Proof.
  revert off pos. induction edits as [|e edits IH]; intros off pos Hval Hi; [done|]. destruct Hval as [[Hr _ _ _] Hval].
  cbn [texts_at]. rewrite (proj2 (Nat.eqb_neq _ _)) by lia. cbn [app]. apply (IH _ (ro_end e) Hval). lia.
Qed.
Lemma deleted_before i off pos W edits : redits_valid W off pos edits → i < pos → deleted_at i edits = false.
Proof.
  revert off pos. induction edits as [|e edits IH]; intros off pos Hval Hi; [done|]. destruct Hval as [[Hr _ _ _] Hval].
  unfold deleted_at. cbn [existsb]. rewrite (proj2 (Nat.leb_gt _ _)) by lia. cbn [andb orb]. apply (IH _ (ro_end e) Hval). lia.
Qed.

(** Once past its start, an edit no longer inserts. *)
Lemma texts_past i off e edits : ro_start e < i → texts_at ts i off (e :: edits) = texts_at ts i (off + length (ro_text e)) edits.
Proof. intros Hi. cbn [texts_at]. by rewrite (proj2 (Nat.eqb_neq _ _)) by lia. Qed.

(** Past its end, it does nothing. *)
Lemma sweep_past off e edits i pend l : ro_start e ≤ i → ro_end e ≤ i →
  sweep off (e :: edits) i pend l = sweep (off + length (ro_text e)) edits i pend l.
Proof.
  revert i pend. induction l as [|c l IH]; intros i pend Hs He; [done|]. cbn [sweep].
  rewrite texts_past, !IH by lia. unfold deleted_at. cbn [existsb]. by rewrite (proj2 (Nat.ltb_ge i (ro_end e))), andb_false_r by lia.
Qed.

Lemma versioned_settled c : seen_older c → newer ts c = true → versioned c = false.
Proof. intros H Hn. destruct (versioned c) eqn:E; [|done]. by rewrite (H E) in Hn. Qed.

(** The cells before an edit's start are kept. *)
Lemma sweep_approach off e edits W n i l :
  redits_valid W off i (e :: edits) → i + n = ro_start e → n ≤ vcells version l → Forall seen_older l →
  sweep off (e :: edits) i (texts_at ts i off (e :: edits)) l =
    (vsplit version n l).1 ++ sweep off (e :: edits) (i + n) (texts_at ts (i + n) off (e :: edits)) (vsplit version n l).2.
Proof.
  revert n i. induction l as [|c l IH]; intros n i Hval Hn Hle Hl.
  { unfold vcells in Hle. cbn in Hle. assert (n = 0) as -> by lia. rewrite vsplit_0, Nat.add_0_r. done. }
  destruct n as [|n]; [by rewrite vsplit_0, Nat.add_0_r|]. apply Forall_cons in Hl as [Hc Hl]. rewrite vcells_cons in Hle.
  assert (∀ pos, pos ≤ ro_start e → redits_valid W off pos (e :: edits)) as Hfrom.
  { intros pos Hpos. destruct Hval as [[? ? ? ?] ?]. split; [|done]. split; try done. lia. }
  rewrite (texts_before i off (ro_start e) W) by (apply Hfrom || lia; lia). cbn [sweep vsplit app].
  destruct (versioned c) eqn:Ev.
  - rewrite (Hc Ev), (deleted_before i off (ro_start e) W) by (apply Hfrom || lia; lia).
    rewrite (IH n (S i)) by (apply Hfrom || done || lia; lia). replace (S i + n) with (i + S n) by lia. by destruct (vsplit version n l).
  - pose proof (IH (S n) i Hval Hn ltac:(cbn in Hle; lia) Hl) as E.
    rewrite (texts_before i off (ro_start e) W) in E by (apply Hfrom || lia; lia). rewrite E.
    destruct (newer ts c), (vsplit version (S n) l); done.
Qed.

(** The rest of an edit's range: its observed cells are deleted. *)
Lemma sweep_delete off e edits W n i l :
  redits_valid W (off + length (ro_text e)) (ro_end e) edits → ro_start e ≤ i → i + n = ro_end e → n ≤ vcells version l →
  Forall seen_older l →
  sweep off (e :: edits) i (texts_at ts i (off + length (ro_text e)) edits) l =
    (remote_delete <$> (vsplit version n l).1) ++
    sweep (off + length (ro_text e)) edits (ro_end e) (texts_at ts (ro_end e) (off + length (ro_text e)) edits) (vsplit version n l).2.
Proof.
  intros Hval. revert n i. induction l as [|c l IH]; intros n i Hs Hn Hle Hl.
  { unfold vcells in Hle. cbn in Hle. assert (n = 0) as -> by lia. rewrite vsplit_0. cbn. by replace (ro_end e) with i by lia. }
  destruct n as [|n]. { rewrite vsplit_0. cbn [fst snd fmap list_fmap app]. rewrite sweep_past by lia. by replace (ro_end e) with i by lia. }
  apply Forall_cons in Hl as [Hc Hl]. rewrite vcells_cons in Hle.
  rewrite (texts_before i _ (ro_end e) W) by (done || lia). cbn [sweep vsplit app]. destruct (versioned c) eqn:Ev.
  - rewrite (Hc Ev), texts_past by lia. unfold deleted_at at 1. cbn [existsb].
    rewrite (proj2 (Nat.leb_le _ _)), (proj2 (Nat.ltb_lt _ _)) by lia. cbn [andb orb].
    rewrite (IH n (S i)) by (done || lia). by destruct (vsplit version n l).
  - pose proof (IH (S n) i Hs Hn ltac:(cbn in Hle; lia) Hl) as E. rewrite (texts_before i _ (ro_end e) W) in E by (done || lia). rewrite E.
    assert (remote_delete c = c) as Hd by (unfold RemoteCells.remote_delete; by rewrite Ev).
    destruct (newer ts c), (vsplit version (S n) l); cbn [fst snd fmap list_fmap app]; by rewrite Hd.
Qed.

(** The specification by splitting is this pass. *)
Lemma remote_cells_sweep W off pos edits l :
  redits_valid W off pos edits → pos + vcells version l = W → Forall seen_older l →
  remote_cells version ts was pos off edits l = sweep off edits pos (texts_at ts pos off edits) l.
Proof.
  revert off pos l. induction edits as [|e edits IH]; intros off pos l Hval HW Hl.
  { cbn [remote_cells texts_at]. clear HW Hval. revert pos. induction Hl as [|c l Hc _ IH]; intros pos; [done|]. cbn [sweep app deleted_at existsb texts_at].
    rewrite <- !IH. by destruct (newer ts c), (versioned c). }
  pose proof Hval as [[Hr He _ _] Hval']. cbn [remote_cells].
  rewrite (sweep_approach off e edits W (ro_start e - pos) pos l Hval) by (done || lia).
  destruct (vsplit version (ro_start e - pos) l) as [k l1] eqn:E1. cbn [fst snd]. replace (pos + (ro_start e - pos)) with (ro_start e) by lia.
  pose proof (vsplit_eq _ _ _ _ _ E1) as ->. apply Forall_app in Hl as [_ Hl1].
  pose proof (vsplit_count version (ro_start e - pos) (k ++ l1) ltac:(lia)) as Hk. rewrite E1 in Hk. cbn [fst] in Hk. rewrite vcells_app in HW.
  destruct (sweep_skip off (e :: edits) (ro_start e) (texts_at ts (ro_start e) off (e :: edits)) l1) as [-> Hset].
  destruct (skip_newer ts l1) as [g l2] eqn:E2. cbn [fst snd] in *. pose proof (skip_newer_eq _ _ _ _ E2) as ->. apply Forall_app in Hl1 as [Hg Hl2].
  rewrite vcells_app, (vcells_none version g) in HW.
  2:{ pose proof (skip_newer_all _ _ _ _ E2) as Hn. rewrite Forall_forall in *. intros c Hc. apply versioned_settled; [by apply Hg|by apply Hn]. }
  rewrite sweep_pend by done. cbn [texts_at]. rewrite Nat.eqb_refl, <- !app_assoc.
  rewrite <- sweep_pend by done. rewrite (sweep_delete off e edits W (ro_end e - ro_start e)) by (done || lia).
  pose proof (vsplit_count version (ro_end e - ro_start e) l2 ltac:(lia)) as Hr2.
  destruct (vsplit version (ro_end e - ro_start e) l2) as [r l3] eqn:E3. cbn [fst snd] in *.
  pose proof (vsplit_eq _ _ _ _ _ E3) as ->. apply Forall_app in Hl2 as [_ Hl3]. rewrite vcells_app in HW.
  do 4 f_equal. apply IH; [done| |done]. lia.
Qed.
End sweep.

(** ** Two concurrent operations *)

(** Equal but for the order of the deletions. *)
Record same_cell (c c' : Cell) : Prop := {
  sc_timestamp : c_timestamp c = c_timestamp c';
  sc_offset : c_offset c = c_offset c';
  sc_byte : c_byte c = c_byte c';
  sc_visible : c_visible c = c_visible c';
  sc_deletions : c_deletions c ≡ₚ c_deletions c';
  sc_undos : c_undos c = c_undos c';
}.

Lemma same_cell_refl c : same_cell c c.
Proof. by split. Qed.

Lemma same_cells_texts l k :
  Forall2 same_cell l k → visible_bytes l = visible_bytes k ∧ deleted_bytes l = deleted_bytes k.
Proof.
  unfold visible_bytes, deleted_bytes. induction 1 as [|c c' l k [_ _ Hb Hv _ _] _ [IH1 IH2]]; [done|].
  cbn [List.filter]. rewrite Hv. destruct (c_visible c'); cbn [negb]; rewrite ?fmap_cons, ?Hb, ?IH1, ?IH2; done.
Qed.

Lemma texts_at_timestamp ts i off edits : Forall (λ c, c_timestamp c = ts) (texts_at ts i off edits).
Proof.
  revert off. induction edits as [|e edits IH]; intros off; [constructor|]. cbn [texts_at]. apply Forall_app. split; [|apply IH].
  destruct (_ =? i); [|constructor]. apply Forall_lookup. intros j c. unfold inserted_cells. rewrite list_lookup_imap.
  destruct (ro_text e !! j); [|done]. by intros [= <-].
Qed.

Lemma same_cell_sym c c' : same_cell c c' → same_cell c' c.
Proof. by intros [? ? ? ? ? ?]. Qed.

Lemma same_cells_refl g : Forall2 same_cell g g.
Proof. induction g; constructor; done || apply same_cell_refl. Qed.

Lemma remote_delete_timestamp version ts was c : c_timestamp (remote_delete version ts was c) = c_timestamp c.
Proof. unfold remote_delete. by destruct (_ && _). Qed.

Section commute.
Context (version1 version2 : Global) (ts1 ts2 : Lamport) (was1 was2 : Lamport → list Lamport → bool).
Context (H12 : observed version1 ts2 = false) (H21 : observed version2 ts1 = false).
Context (Hwas1 : ∀ t dels, was1 t (dels ++ [ts2]) = was1 t dels) (Hwas2 : ∀ t dels, was2 t (dels ++ [ts1]) = was2 t dels).

Local Abbreviation delete1 := (remote_delete version1 ts1 was1).
Local Abbreviation delete2 := (remote_delete version2 ts2 was2).
Local Abbreviation sweep1 := (sweep version1 ts1 was1).
Local Abbreviation sweep2 := (sweep version2 ts2 was2).

Lemma deletes_commute c : same_cell (delete2 (delete1 c)) (delete1 (delete2 c)).
Proof.
  unfold remote_delete, RemoteCells.versioned.
  destruct (observed version1 (c_timestamp c) && was1 (c_timestamp c) (c_deletions c)) eqn:E1;
    destruct (observed version2 (c_timestamp c) && was2 (c_timestamp c) (c_deletions c)) eqn:E2;
    cbn [c_timestamp c_deletions]; rewrite ?Hwas1, ?Hwas2, ?E1, ?E2; split; cbn; try done.
  rewrite <- !app_assoc. f_equiv. apply (Permutation_app_comm [ts1] [ts2]).
Qed.

(** What an operation does to one cell; where it stands does not change. *)
Lemma sweep_cell version ts was off edits i pend c l : newer ts c = false →
  ∃ (b : bool) i' pend', (∀ c', c_timestamp c' = c_timestamp c → ∀ pend l,
    sweep version ts was off edits i pend (c' :: l) =
      pend ++ (if b then remote_delete version ts was c' else c') :: sweep version ts was off edits i' pend' l) ∧
    sweep version ts was off edits i pend (c :: l) = pend ++ (if b then remote_delete version ts was c else c) :: sweep version ts was off edits i' pend' l ∧
    (pend' = [] ∨ pend' = texts_at ts i' off edits).
Proof.
  intros Hn. set (v := RemoteCells.versioned version c).
  exists (v && deleted_at i edits), (if v then S i else i), (if v then texts_at ts (S i) off edits else []).
  assert (∀ c', c_timestamp c' = c_timestamp c → newer ts c' = false ∧ RemoteCells.versioned version c' = v) as Hc.
  { intros c' E. unfold v, newer, RemoteCells.versioned in *. by rewrite E. }
  split; [|split; [|destruct v; [by right|by left]]].
  - intros c' E p k. cbn [sweep]. destruct (Hc c' E) as [-> ->]. by destruct v.
  - cbn [sweep]. rewrite Hn. fold v. by destruct v.
Qed.

(** The texts that wait. *)
Definition waits (ts : Lamport) (l : list Cell) : Prop := Forall (λ c, c_timestamp c = ts) l.

(** The operation with the smaller timestamp comes to stand behind the other. *)
Lemma sweeps_commute edits1 edits2 i j p q l :
  ltb ts1 ts2 = true → waits ts1 p → waits ts2 q →
  Forall2 same_cell (sweep1 0 edits1 i p (sweep2 0 edits2 j q l)) (sweep2 0 edits2 j q (sweep1 0 edits1 i p l)).
Proof.
  intros Hlt. assert (∀ q, waits ts2 q → Forall (λ c, newer ts1 c = true) q) as Hq.
  { intros q' Hq. eapply Forall_impl; [exact Hq|]. intros c Hc. unfold newer. cbn in Hc. by rewrite Hc. }
  assert (ltb ts2 ts1 = false) as Hgt.
  { destruct (ltb ts2 ts1) eqn:E; [|done]. apply ltb_lt in E, Hlt. exfalso. apply (cmp_lt_irrefl ts1). by eapply cmp_lt_trans. }
  assert (∀ p, waits ts1 p → Forall (λ c, RemoteCells.versioned version2 c = false ∧ newer ts2 c = false) p) as Hp.
  { intros p' Hp. eapply Forall_impl; [exact Hp|]. intros c Hc. unfold newer, RemoteCells.versioned. cbn in Hc. by rewrite Hc. }
  assert (∀ p q j l, waits ts1 p → settled ts2 l → sweep2 0 edits2 j q (p ++ l) = q ++ p ++ sweep2 0 edits2 j [] l) as Hpass.
  { intros p' q' j' l' Hp' Hl. destruct (decide (p' = [])) as [->|Hne]; [by apply sweep_pend|]. apply sweep_app_older; [done|by apply Hp]. }
  revert i j p q. induction l as [|c l IH]; intros i j p q Hwp Hwq.
  { cbn [sweep]. rewrite <- (app_nil_r q) at 1. rewrite sweep_app_newer by (by apply Hq). cbn [sweep].
    rewrite <- (app_nil_r p) at 2. rewrite Hpass by done. cbn [sweep]. rewrite app_nil_r. apply same_cells_refl. }
  destruct (newer ts2 c) eqn:E2.
  { assert (newer ts1 c = true) as E1 by (apply ltb_lt; apply ltb_lt in E2, Hlt; by eapply cmp_lt_trans).
    cbn [sweep]. rewrite E1, E2. cbn [sweep]. rewrite E1, E2. constructor; [apply same_cell_refl|by apply IH]. }
  destruct (sweep_cell version2 ts2 was2 0 edits2 j q c l E2) as (b2 & j' & q' & Hstep2 & -> & Hq').
  assert (waits ts2 q') as Hwq' by (destruct Hq' as [->| ->]; [constructor|apply texts_at_timestamp]).
  rewrite sweep_app_newer by (by apply Hq).
  assert (∀ b : bool, c_timestamp (if b then delete2 c else c) = c_timestamp c) as Ht2 by (intros []; [apply remote_delete_timestamp|done]).
  destruct (newer ts1 c) eqn:E1.
  - cbn [sweep]. rewrite E1. assert (newer ts1 (if b2 then delete2 c else c) = true) as -> by (unfold newer in *; by rewrite Ht2).
    rewrite Hstep2 by done. apply Forall2_app; [apply same_cells_refl|]. constructor; [apply same_cell_refl|by apply IH].
  - destruct (sweep_cell version1 ts1 was1 0 edits1 i p c l E1) as (b1 & i' & p' & Hstep1 & -> & Hp').
    assert (waits ts1 p') as Hwp' by (destruct Hp' as [->| ->]; [constructor|apply texts_at_timestamp]).
    assert (∀ b : bool, c_timestamp (if b then delete1 c else c) = c_timestamp c) as Ht1 by (intros []; [apply remote_delete_timestamp|done]).
    rewrite Hstep1 by apply Ht2. rewrite Hpass; [|done|intros x [= <-]; unfold newer in *; by rewrite Ht1].
    rewrite Hstep2 by apply Ht1. cbn [app]. do 2 (apply Forall2_app; [apply same_cells_refl|]). constructor; [|by apply IH].
    destruct b1, b2; try apply same_cell_refl. apply same_cell_sym, deletes_commute.
Qed.
End commute.

(** Both orders, on cells. *)
Lemma remote_cells_converge version1 version2 ts1 ts2 was1 was2 l edits1 edits2 :
  ts1 ≠ ts2 → observed version1 ts2 = false → observed version2 ts1 = false →
  (∀ t dels, was1 t (dels ++ [ts2]) = was1 t dels) → (∀ t dels, was2 t (dels ++ [ts1]) = was2 t dels) →
  Forall2 same_cell
    (sweep version2 ts2 was2 0 edits2 0 (texts_at ts2 0 0 edits2) (sweep version1 ts1 was1 0 edits1 0 (texts_at ts1 0 0 edits1) l))
    (sweep version1 ts1 was1 0 edits1 0 (texts_at ts1 0 0 edits1) (sweep version2 ts2 was2 0 edits2 0 (texts_at ts2 0 0 edits2) l)).
Proof.
  intros Hne H12 H21 Hw1 Hw2. destruct (ltb ts1 ts2) eqn:E1.
  - eapply Forall2_flip, Forall2_impl; [|apply same_cell_sym].
    apply (sweeps_commute version1 version2 ts1 ts2); done || apply texts_at_timestamp.
  - destruct (ltb ts2 ts1) eqn:E2; [|exfalso; apply ltb_false in E1, E2; by apply Hne, cmp_le_antisym].
    apply (sweeps_commute version2 version1 ts2 ts1); done || apply texts_at_timestamp.
Qed.

(** ** The buffers *)

(** Any additive measure that inserted cells do not change. *)
Lemma remote_cells_count version ts was (p : Lamport → bool) pos off edits l :
  p ts = false →
  length (List.filter (λ c, p (c_timestamp c)) (remote_cells version ts was pos off edits l)) =
    length (List.filter (λ c, p (c_timestamp c)) l).
Proof.
  intros Hp. revert pos off l. induction edits as [|e edits IH]; intros pos off l; [done|]. cbn [remote_cells].
  destruct (vsplit version _ l) as [k l1] eqn:E1. destruct (skip_newer ts l1) as [g l2] eqn:E2.
  destruct (vsplit version _ l2) as [r l3] eqn:E3.
  rewrite (vsplit_eq _ _ _ _ _ E1), (skip_newer_eq _ _ _ _ E2), (vsplit_eq _ _ _ _ _ E3).
  rewrite !List.filter_app, !length_app, IH.
  assert (List.filter (λ c, p (c_timestamp c)) (inserted_cells ts off (ro_text e)) = []) as ->.
  { apply filter_none, Forall_lookup. intros i c. unfold inserted_cells. rewrite list_lookup_imap.
    destruct (ro_text e !! i); [|done]. by intros [= <-]. }
  cbn [length Nat.add]. do 3 f_equal. clear. induction r as [|c r IH]; [done|]. rewrite fmap_cons. cbn [List.filter].
  rewrite remote_delete_timestamp. destruct (p (c_timestamp c)); cbn [length]; by rewrite IH.
Qed.

(** A condition on timestamps that holds of the operation's. *)
Lemma remote_cells_timestamps version ts was (p : Lamport → bool) pos off edits l :
  p ts = true → Forall (λ c, p (c_timestamp c) = true) l →
  Forall (λ c, p (c_timestamp c) = true) (remote_cells version ts was pos off edits l).
Proof.
  intros Hp Hl. pose proof (remote_cells_count version ts was (λ t, negb (p t)) pos off edits l ltac:(cbn; by rewrite Hp)) as Hc.
  rewrite (filter_none _ l) in Hc by (eapply Forall_impl; [exact Hl|]; by intros c ->).
  apply length_zero_iff_nil in Hc. apply Forall_forall. intros c Hin. destruct (p (c_timestamp c)) eqn:E; [done|exfalso].
  assert (In c (List.filter (λ c, negb (p (c_timestamp c))) (remote_cells version ts was pos off edits l))) as H.
  { apply filter_In. split; [by apply list_elem_of_In|by rewrite E]. }
  by rewrite Hc in H.
Qed.

(** An operation's version has observed only insertions with smaller
    timestamps; other fragments may be there or not. *)
Record causal_fragment (version1 version2 : Global) (ts1 ts2 : Lamport) (f : Fragment) : Prop := {
  cf_stamp : insertion_stamp (f_timestamp f);
  cf_older1 : observed version1 (f_timestamp f) = true → ltb ts1 (f_timestamp f) = false;
  cf_older2 : observed version2 (f_timestamp f) = true → ltb ts2 (f_timestamp f) = false;
}.

(** An operation the other side does not know. *)
Record foreign (version : Global) (ts : Lamport) : Prop := {
  fo_stamp : insertion_stamp ts;
  fo_unobserved : observed version ts = false;
}.

(** What [remote_edit_refines] gives, as one pass. *)
Definition passed (version : Global) (m : UndoTree) (ts : Lamport) (edits : list RemoteEditOp) : list Cell → list Cell :=
  sweep version ts (was_at m version) 0 edits 0 (texts_at ts 0 0 edits).

Section second.
Context (TREE_BASE : nat) (max : N) (Hmax : (4 ≤ max ≤ u32_max)%N) (m : UndoTree) (Hw : walkable TREE_BASE m) (Hs : ksorted (items m)).

Lemma edit_passes version ts fragments V D edits :
  Global_wf version → buffer_ok fragments V D → Forall (frag_seen version ts) fragments →
  redits_valid (wlen version fragments) 0 0 edits →
  ∃ r, apply_remote_edit max version m ts fragments V D edits = Some r ∧
    buffer_ok (re_fragments r) (re_visible_text r) (re_deleted_text r) ∧
    cells (re_fragments r) (re_visible_text r) (re_deleted_text r) =
      remote_cells version ts (was_at m version) 0 0 edits (cells fragments V D) ∧
    cells (re_fragments r) (re_visible_text r) (re_deleted_text r) = passed version m ts edits (cells fragments V D).
Proof.
  intros Hv Hok Hseen Hval.
  destruct (remote_edit_ok max Hmax version Hv m ts (was_at m version)
    (λ f Ho, was_visible_spec TREE_BASE m version f Hw Hs Ho) V D (wlen version fragments) fragments edits Hok) as (r & Hr & Hokr & Hc & _); [done..|].
  exists r. split; [done|]. split; [done|]. split; [done|]. rewrite Hc. destruct Hok as [_ _ Hfv Hfd].
  apply (remote_cells_sweep _ _ _ (wlen version fragments)); [done|apply (vcells_cells max Hmax); lia|].
  apply cells_forall. eapply Forall_impl; [exact Hseen|]. intros f [_ H] i b. exact H.
Qed.

(** One operation, and the other after it. *)
Lemma two_edits_ok version1 version2 ts1 ts2 fragments V D edits1 edits2 :
  Global_wf version1 → Global_wf version2 → buffer_ok fragments V D → foreign version2 ts1 →
  Forall (causal_fragment version1 version2 ts1 ts2) fragments →
  redits_valid (wlen version1 fragments) 0 0 edits1 → redits_valid (wlen version2 fragments) 0 0 edits2 →
  ∃ r1 r12, apply_remote_edit max version1 m ts1 fragments V D edits1 = Some r1 ∧
    apply_remote_edit max version2 m ts2 (re_fragments r1) (re_visible_text r1) (re_deleted_text r1) edits2 = Some r12 ∧
    buffer_ok (re_fragments r12) (re_visible_text r12) (re_deleted_text r12) ∧
    cells (re_fragments r12) (re_visible_text r12) (re_deleted_text r12) =
      passed version2 m ts2 edits2 (passed version1 m ts1 edits1 (cells fragments V D)).
Proof.
  intros Hv1 Hv2 Hok [Hst1 Hf1] Hsh Hval1 Hval2.
  destruct (edit_passes version1 ts1 fragments V D edits1 Hv1 Hok) as (r1 & Hr1 & Hok1 & Hc1 & Hp1); [|done|].
  { eapply Forall_impl; [exact Hsh|]. intros f [? ? ?]. by split. }
  assert (wlen version2 (re_fragments r1) = wlen version2 fragments) as Hw2.
  { destruct Hok1 as [_ _ Hrv Hrd], Hok as [_ _ Hfv Hfd].
    rewrite <- (vcells_cells max Hmax version2 (re_fragments r1) (re_visible_text r1) (re_deleted_text r1)) by lia.
    rewrite <- (vcells_cells max Hmax version2 fragments V D) by lia. rewrite Hc1.
    by apply (remote_cells_count version1 ts1 _ (observed version2)). }
  destruct (edit_passes version2 ts2 (re_fragments r1) (re_visible_text r1) (re_deleted_text r1) edits2 Hv2 Hok1) as (r12 & Hr12 & Hok12 & _ & Hp12);
    [|by rewrite Hw2|by exists r1, r12; rewrite <- Hp1].
  apply Forall_forall. intros f Hf. destruct (fragment_cell _ _ _ f Hok1 Hf) as (i & b & Hcell). rewrite Hc1 in Hcell.
  set (p := λ t, bool_decide (insertion_stamp t) && (negb (observed version2 t) || negb (ltb ts2 t))).
  assert (Forall (λ c, p (c_timestamp c) = true) (cells fragments V D)) as Hbase.
  { apply cells_forall. eapply Forall_impl; [exact Hsh|]. intros f' [Hst _ Hold] ? ?. unfold p. cbn.
    rewrite (bool_decide_eq_true_2 _ Hst). destruct (observed version2 (f_timestamp f')); [|done]. by rewrite Hold. }
  pose proof (remote_cells_timestamps version1 ts1 (was_at m version1) p 0 0 edits1 _
    ltac:(unfold p; rewrite Hf1, (bool_decide_eq_true_2 _ Hst1); done) Hbase) as Hp.
  rewrite Forall_forall in Hp. specialize (Hp _ Hcell). unfold p in Hp. cbn in Hp.
  apply andb_true_iff in Hp as [Hst%bool_decide_eq_true Hor]. split; [done|]. intros Ho. rewrite Ho in Hor. by apply negb_true_iff.
Qed.
End second.

(** C2: any two concurrent operations (each made without the other, and after
    what its version has observed) converge on any well-formed buffer, whatever
    other insertions, seen by one, both or none of their authors, it holds:
    whichever is applied first, both applications succeed and the buffers end
    with the same cells (up to the order in which deletions are recorded) and
    so with the same visible and deleted texts. *)
Theorem concurrent_edits_converge TREE_BASE max m version1 version2 ts1 ts2 fragments V D edits1 edits2 :
  (4 ≤ max ≤ u32_max)%N → walkable TREE_BASE m → ksorted (items m) → Global_wf version1 → Global_wf version2 →
  buffer_ok fragments V D → foreign version2 ts1 → foreign version1 ts2 → ts1 ≠ ts2 →
  Forall (causal_fragment version1 version2 ts1 ts2) fragments →
  redits_valid (wlen version1 fragments) 0 0 edits1 → redits_valid (wlen version2 fragments) 0 0 edits2 →
  ∃ r1 r12 r2 r21,
    apply_remote_edit max version1 m ts1 fragments V D edits1 = Some r1 ∧
    apply_remote_edit max version2 m ts2 (re_fragments r1) (re_visible_text r1) (re_deleted_text r1) edits2 = Some r12 ∧
    apply_remote_edit max version2 m ts2 fragments V D edits2 = Some r2 ∧
    apply_remote_edit max version1 m ts1 (re_fragments r2) (re_visible_text r2) (re_deleted_text r2) edits1 = Some r21 ∧
    Forall2 same_cell (cells (re_fragments r12) (re_visible_text r12) (re_deleted_text r12))
      (cells (re_fragments r21) (re_visible_text r21) (re_deleted_text r21)) ∧
    re_visible_text r12 = re_visible_text r21 ∧ re_deleted_text r12 = re_deleted_text r21.
Proof.
  intros Hmax Hw Hs Hv1 Hv2 Hok Hfo1 Hfo2 Hne Hsh Hval1 Hval2.
  destruct (two_edits_ok TREE_BASE max Hmax m Hw Hs version1 version2 ts1 ts2 fragments V D edits1 edits2 Hv1 Hv2 Hok Hfo1 Hsh Hval1 Hval2)
    as (r1 & r12 & H1 & H12 & Hok12 & Hc12).
  destruct (two_edits_ok TREE_BASE max Hmax m Hw Hs version2 version1 ts2 ts1 fragments V D edits2 edits1 Hv2 Hv1 Hok Hfo2)
    as (r2 & r21 & H2 & H21 & Hok21 & Hc21); [|done..|].
  { eapply Forall_impl; [exact Hsh|]. intros f [? ? ?]. by split. }
  assert (Forall2 same_cell (cells (re_fragments r12) (re_visible_text r12) (re_deleted_text r12))
      (cells (re_fragments r21) (re_visible_text r21) (re_deleted_text r21))) as Hsame.
  { rewrite Hc12, Hc21. destruct Hfo1, Hfo2. apply remote_cells_converge; try done; intros t dels; by apply was_at_concurrent. }
  exists r1, r12, r2, r21. do 5 (split; [done|]). destruct (same_cells_texts _ _ Hsame) as [Et Ed].
  destruct (buffer_texts _ _ _ Hok12) as [E1 E2]. destruct (buffer_texts _ _ _ Hok21) as [E3 E4]. split; congruence.
Qed.

(** ** Concrete replicas *)
Module ConvergeExamples.
Import RemoteExamples.

(** The replica of [LocalEditExamples], with "he" in two fragments. *)
Definition fragments2 : list Fragment :=
  [mkFragment (id_ 4) (ins 1 1) 0 1 true [] new_global;
   mkFragment (id_ 5) (ins 1 1) 1 1 true [] new_global;
   mkFragment (id_ 7) (ins 1 1) 2 1 false [ins 1 3] new_global;
   mkFragment (id_ 8) (ins 1 1) 3 2 true [] new_global;
   mkFragment (id_ 9) (ins 1 2) 0 2 false [ins 1 3] new_global].
Definition version2 : Global := mkGlobal [0; 4]%N.

Lemma fragments2_ok : buffer_ok fragments2 LocalEditExamples.v_text LocalEditExamples.d_text.
Proof.
  split; [split| |done|done].
  - repeat constructor.
  - repeat constructor; by apply (bool_decide_unpack _) || (eexists; split; [reflexivity|done]).
  - repeat constructor.
  - repeat constructor; simpl; done || lia.
Defined.

Example remote_replays_local_witness :
  ∃ r r2, apply_local_edit 16 (ins 1 5) LocalEditExamples.fragments LocalEditExamples.v_text LocalEditExamples.d_text
      LocalEditExamples.edits = Some r ∧
    apply_remote_edit 16 version2 undo_map (ins 1 5) fragments2 LocalEditExamples.v_text LocalEditExamples.d_text
      (zip_with to_remote (normalize_edit <$> LocalEditExamples.edits) (le_ranges r)) = Some r2 ∧
    cells (re_fragments r2) (re_visible_text r2) (re_deleted_text r2) =
      cells (le_fragments r) (le_visible_text r) (le_deleted_text r) ∧
    re_visible_text r2 = le_visible_text r ∧ re_deleted_text r2 = le_deleted_text r.
Proof.
  apply (remote_replays_local 6); [done|split; [|done]; repeat constructor; done|apply empty_walkable|constructor|
    apply LocalEditExamples.fragments_ok|apply fragments2_ok|reflexivity| |done|].
  - repeat constructor; done.
  - repeat split; simpl; try lia; try done; by apply short_text; simpl; lia.
Defined.

(** "abc" of one insertion with a "Z" of replica 3 after the "a".  Replica 1,
    which has not seen the "Z", inserts "X" after the "a" and deletes "c";
    replica 2, which has, inserts "Y" there and deletes "Zbc". *)
Definition base : list Fragment :=
  [mkFragment (id_ 5) (ins 0 1) 0 1 true [] new_global; mkFragment (id_ 6) (ins 3 7) 0 1 true [] new_global;
   mkFragment (id_ 7) (ins 0 1) 1 2 true [] new_global].
Definition base_text : Text := [x61; x5a; x62; x63].
Definition edits1 : list RemoteEditOp := [mkRemoteEditOp 1 1 [x58]; mkRemoteEditOp 2 3 []].
Definition edits2 : list RemoteEditOp := [mkRemoteEditOp 1 4 [x59]].
Definition seen1 : Global := mkGlobal [1]%N.
Definition seen2 : Global := mkGlobal [1; 0; 0; 7]%N.

Lemma base_ok : buffer_ok base base_text [].
Proof.
  split; [split| |done|done].
  - repeat constructor.
  - repeat constructor; by apply (bool_decide_unpack _) || (eexists; split; [reflexivity|done]).
  - repeat constructor.
  - repeat constructor; simpl; done || lia.
Defined.

Example converge_run :
  (λ r, (re_visible_text r, re_deleted_text r)) <$>
    (r ← apply_remote_edit 16 seen1 undo_map (ins 1 2) base base_text [] edits1;
     apply_remote_edit 16 seen2 undo_map (ins 2 9) (re_fragments r) (re_visible_text r) (re_deleted_text r) edits2) =
  Some ([x61; x59; x58], [x5a; x62; x63]).
Proof. vm_compute. reflexivity. Qed.

Example concurrent_edits_converge_witness :
  ∃ r1 r12 r2 r21,
    apply_remote_edit 16 seen1 undo_map (ins 1 2) base base_text [] edits1 = Some r1 ∧
    apply_remote_edit 16 seen2 undo_map (ins 2 9) (re_fragments r1) (re_visible_text r1) (re_deleted_text r1) edits2 = Some r12 ∧
    apply_remote_edit 16 seen2 undo_map (ins 2 9) base base_text [] edits2 = Some r2 ∧
    apply_remote_edit 16 seen1 undo_map (ins 1 2) (re_fragments r2) (re_visible_text r2) (re_deleted_text r2) edits1 = Some r21 ∧
    Forall2 same_cell (cells (re_fragments r12) (re_visible_text r12) (re_deleted_text r12))
      (cells (re_fragments r21) (re_visible_text r21) (re_deleted_text r21)) ∧
    re_visible_text r12 = re_visible_text r21 ∧ re_deleted_text r12 = re_deleted_text r21.
Proof.
  apply (concurrent_edits_converge 6); [done|apply empty_walkable|constructor|split; [|done]; repeat constructor; done..|
    apply base_ok|by repeat constructor|by repeat constructor|done| | |].
  - repeat constructor; done.
  - change (wlen seen1 base) with 3. repeat split; simpl; try lia; try done; by apply short_text; simpl; lia.
  - change (wlen seen2 base) with 4. repeat split; simpl; try lia; try done; by apply short_text; simpl; lia.
Defined.
End ConvergeExamples.
