(* ===== verification/Waiters.v ===== *)
(** * Futures that wait for edits and versions (the last part of [Buffer])

    [wait_for_edits] and [wait_for_version] leave the senders of one-shot
    channels in the buffer; [apply_op] sends on them when what they wait for
    arrives and [give_up_waiting] drops them.  The channels are a library's: what
    the buffer does with a sender is recorded in the order it happens, and what
    the receiver then sees is a parameter with its documented behaviour. *)

From S2P Require Import Prelude Clock.

(** What happened to a sender. *)
Inductive SenderEvent := Sent | Dropped.

(** [oneshot::Receiver::recv]: still waiting, the value, or [None] for a sender
    dropped without sending. *)
Inductive Received := NotYet | Value | Closed.

Class Oneshot := {
  recv : list SenderEvent → Received;
  recv_waiting : recv [] = NotYet;
  recv_value l : recv (Sent :: l) = Value;
  recv_closed l : recv (Dropped :: l) = Closed;
}.

(** The senders the buffer keeps, and what happened to each channel's. *)
Record Waiters := mkWaiters {
  edit_id_resolvers : gmap Lamport (list nat);
  wait_for_version_txs : list (Global * nat);
  channels : gmap nat (list SenderEvent);
}.
Definition no_waiters : Waiters := mkWaiters ∅ [] ∅.

(** [evs] happen to the senders of the channels [l]. *)
Definition happen (evs : list SenderEvent) (l : list nat) (cs : gmap nat (list SenderEvent)) : gmap nat (list SenderEvent) :=
  map_imap (λ c log, Some (if decide (c ∈ l) then log ++ evs else log)) cs.

(** A sender that is sent on leaves the buffer, and is dropped. *)
Definition resolve_edit (w : Waiters) (edit_id : Lamport) : Waiters :=
  mkWaiters (delete edit_id (edit_id_resolvers w)) (wait_for_version_txs w)
    (happen [Sent; Dropped] (default [] (edit_id_resolvers w !! edit_id)) (channels w)).

(** [wait_for_version_txs.retain_mut(..)] *)
Definition resolve_versions (w : Waiters) (v : Global) : Waiters :=
  let resolved := List.filter (λ t, observed_all v t.1) (wait_for_version_txs w) in
  mkWaiters (edit_id_resolvers w) (List.filter (λ t, negb (observed_all v t.1)) (wait_for_version_txs w))
    (happen [Sent; Dropped] resolved.*2 (channels w)).

Definition give_up_waiting (w : Waiters) : Waiters :=
  mkWaiters ∅ [] (happen [Dropped] (concat (map_to_list (edit_id_resolvers w)).*2 ++ (wait_for_version_txs w).*2) (channels w)).

Definition new_channel (w : Waiters) : nat := fresh (dom (channels w) : gset nat).

(** The receivers the returned future awaits, in order. *)
Fixpoint wait_for_edits (v : Global) (w : Waiters) (edit_ids : list Lamport) : list nat * Waiters :=
  match edit_ids with
  | [] => ([], w)
  | e :: edit_ids =>
      if observed v e then wait_for_edits v w edit_ids
      else
        let c := new_channel w in
        let w := mkWaiters (<[e := default [] (edit_id_resolvers w !! e) ++ [c]]> (edit_id_resolvers w))
                   (wait_for_version_txs w) (<[c := []]> (channels w)) in
        let '(futures, w) := wait_for_edits v w edit_ids in (c :: futures, w)
  end.

Definition wait_for_version (v : Global) (w : Waiters) (target : Global) : list nat * Waiters :=
  if observed_all v target then ([], w)
  else
    let c := new_channel w in
    ([c], mkWaiters (edit_id_resolvers w) (wait_for_version_txs w ++ [(target, c)]) (<[c := []]> (channels w))).

(** Polling the future: it awaits its receivers one after the other. *)
Inductive Poll := Pending | Done | GaveUp.
Fixpoint poll `{Oneshot} (w : Waiters) (futures : list nat) : Poll :=
  match futures with
  | [] => Done
  | c :: futures =>
      match recv (default [] (channels w !! c)) with
      | NotYet => Pending
      | Value => poll w futures
      | Closed => GaveUp
      end
  end.

(** ** What happens to the waiters *)

(** The calls that touch the version or the senders; an edit or undo that is
    already observed only resolves versions, and local operations only observe
    their own timestamp. *)
Inductive WaitEvent :=
  | WaitEdits (edit_ids : list Lamport)
  | WaitVersion (target : Global)
  | ApplyEdit (edit_id : Lamport)
  | ApplyUndo (undo_id : Lamport)
  | LocalOperation (timestamp : Lamport)
  | GiveUp.

Definition wait_version (v : Global) (ev : WaitEvent) : Global :=
  match ev with
  | ApplyEdit t | ApplyUndo t => if observed v t then v else observe v t
  | LocalOperation t => observe v t
  | WaitEdits _ | WaitVersion _ | GiveUp => v
  end.

Definition wait_step (s : Global * Waiters) (ev : WaitEvent) : Global * Waiters :=
  let '(v, w) := s in
  let v' := wait_version v ev in
  (v', match ev with
       | WaitEdits l => (wait_for_edits v w l).2
       | WaitVersion t => (wait_for_version v w t).2
       | ApplyEdit e => resolve_versions (if observed v e then w else resolve_edit w e) v'
       | ApplyUndo _ => resolve_versions w v'
       | LocalOperation _ => w
       | GiveUp => give_up_waiting w
       end).
Definition wait_run (s : Global * Waiters) (evs : list WaitEvent) : Global * Waiters := foldl wait_step s evs.

(** ** Who waits for what *)

Inductive WaitKey := ForEdit (edit_id : Lamport) | ForVersion (target : Global).

Definition held (w : Waiters) (k : WaitKey) (c : nat) : Prop :=
  match k with
  | ForEdit e => ∃ l, edit_id_resolvers w !! e = Some l ∧ c ∈ l
  | ForVersion t => (t, c) ∈ wait_for_version_txs w
  end.

(** Every sender kept is unused, and kept once. *)
Record waiting_ok (w : Waiters) : Prop := {
  held_open k c : held w k c → channels w !! c = Some [];
  held_once k k' c : held w k c → held w k' c → k = k';
}.

Lemma lookup_happen evs l cs c :
  happen evs l cs !! c = (λ log, if decide (c ∈ l) then log ++ evs else log) <$> cs !! c.
Proof. unfold happen. rewrite map_lookup_imap. by destruct (cs !! c). Qed.

Lemma no_waiters_ok : waiting_ok no_waiters.
Proof.
  assert (∀ k c, ¬ held no_waiters k c) as H; [|split; intros; exfalso; by eapply H].
  intros [e|t] c; simpl; [intros (l & Hl & _); by rewrite lookup_empty in Hl|by intros ?%elem_of_nil].
Qed.

(** The senders whose key satisfies [P] are removed after [evs]. *)
Record settles (w : Waiters) (P : WaitKey → Prop) (evs : list SenderEvent) (w' : Waiters) : Prop := {
  settles_held k c : held w' k c ↔ held w k c ∧ ¬ P k;
  settles_out k c : held w k c → P k → channels w' !! c = (.++ evs) <$> channels w !! c;
  settles_same c : (∀ k, held w k c → ¬ P k) → channels w' !! c = channels w !! c;
}.

(** A sender is added for the new channel [c]. *)
Record registers (w : Waiters) (k : WaitKey) (c : nat) (w' : Waiters) : Prop := {
  registers_fresh : channels w !! c = None;
  registers_held k' c' : held w' k' c' ↔ held w k' c' ∨ k' = k ∧ c' = c;
  registers_channels : channels w' = <[c := []]> (channels w);
}.

(** [happen] on exactly the settled channels. *)
Lemma happen_settles w w' P evs l :
  (∀ c, c ∈ l ↔ ∃ k, held w k c ∧ P k) → (∀ k c, held w' k c ↔ held w k c ∧ ¬ P k) →
  channels w' = happen evs l (channels w) → settles w P evs w'.
Proof.
  intros Hl Hh Hc. split; [done| |]; intros *; rewrite Hc, lookup_happen.
  - intros Hk HP. destruct (channels w !! c); simpl; [|done]. by rewrite decide_True by (apply Hl; eauto).
  - intros HP. destruct (channels w !! c); simpl; [|done]. rewrite decide_False; [done|].
    intros (k & Hk & HPk)%Hl. by eapply HP.
Qed.

Lemma resolve_edit_settles w e : settles w (.= ForEdit e) [Sent; Dropped] (resolve_edit w e).
Proof.
  eapply happen_settles; [| |done].
  - intros c. split.
    + intros Hc. exists (ForEdit e). split; [|done]. destruct (edit_id_resolvers w !! e) as [l|] eqn:El;
        [by exists l|by apply elem_of_nil in Hc].
    + intros (k & Hk & ->). destruct Hk as (l & Hl & Hc). by rewrite Hl.
  - intros [e'|t] c; [|simpl; split; [by split|by intros [? _]]]. simpl. destruct (decide (e' = e)) as [->|Hne].
    + rewrite lookup_delete_eq. split; [by intros (l & ? & _)|by intros [_ []]].
    + rewrite lookup_delete_ne by done. split; [intros ?; split; [done|congruence]|by intros [? _]].
Qed.

Definition seen_by (v : Global) (k : WaitKey) : Prop :=
  match k with ForEdit _ => False | ForVersion t => observed_all v t = true end.

Lemma resolve_versions_settles w v : settles w (seen_by v) [Sent; Dropped] (resolve_versions w v).
Proof.
  eapply happen_settles; [| |done].
  - intros c. rewrite list_elem_of_fmap. split.
    + intros ([t c'] & -> & Ht). apply list_elem_of_In, filter_In in Ht as [Ht%list_elem_of_In Hv]. by exists (ForVersion t).
    + intros ([e|t] & Hk & HP); [done|]. exists (t, c). split; [done|]. apply list_elem_of_In, filter_In. by split; [apply list_elem_of_In|].
  - intros [e|t] c; simpl; [split; [intros ?; split; [done|by intros []]|by intros [? _]]|].
    rewrite list_elem_of_In, filter_In, <- list_elem_of_In, negb_true_iff, not_true_iff_false. done.
Qed.

Lemma give_up_settles w : settles w (λ _, True) [Dropped] (give_up_waiting w).
Proof.
  eapply happen_settles; [| |done].
  - intros c. rewrite elem_of_app, list_elem_of_In, in_concat. split.
    + intros [(l & Hl & Hc)|Hc].
      * apply list_elem_of_In, list_elem_of_fmap in Hl as ([e l'] & -> & Hl%elem_of_map_to_list).
        exists (ForEdit e). split; [exists l'; split; [done|by apply list_elem_of_In]|done].
      * apply list_elem_of_fmap in Hc as ([t c'] & -> & Ht). by exists (ForVersion t).
    + intros ([e|t] & Hk & _).
      * left. destruct Hk as (l & Hl & Hc). exists l. split; [|by apply list_elem_of_In].
        apply list_elem_of_In, list_elem_of_fmap. exists (e, l). split; [done|by apply elem_of_map_to_list].
      * right. apply list_elem_of_fmap. by exists (t, c).
  - intros k c. split; [|by intros [_ []]]. destruct k as [e|t]; simpl;
      [intros (l & Hl & _); by rewrite lookup_empty in Hl|by intros ?%elem_of_nil].
Qed.

(** ** The steps *)

Lemma settles_ok w P evs w' : waiting_ok w → settles w P evs w' → waiting_ok w'.
Proof.
  intros [Ho H1] [Hh Hs Hk]. split.
  - intros k c [Hw HP]%Hh. rewrite Hk; [by eapply Ho|]. intros k' Hw'. by rewrite (H1 k' k c Hw' Hw).
  - intros k k' c [? _]%Hh [? _]%Hh. by eapply H1.
Qed.
Lemma registers_ok w k c w' : waiting_ok w → registers w k c w' → waiting_ok w'.
Proof.
  intros [Ho H1] [Hf Hh Hc].
  assert (∀ k', ¬ held w k' c) as Hn by (intros k' Hw; apply Ho in Hw; congruence). split.
  - intros k' c' [Hw|[-> ->]]%Hh; rewrite Hc; [|apply lookup_insert_eq].
    rewrite lookup_insert_ne by (intros ->; by eapply Hn). by eapply Ho.
  - intros k1 k2 c' [Hw|[-> ->]]%Hh [Hw'|[-> He]]%Hh; subst; [by eapply H1|by eapply Hn in Hw|by eapply Hn in Hw'|done].
Qed.

Lemma new_channel_fresh w : channels w !! new_channel w = None.
Proof. apply (not_elem_of_dom (D := gset nat)). unfold new_channel. apply is_fresh. Qed.

Definition wait_edit (w : Waiters) (e : Lamport) : Waiters :=
  mkWaiters (<[e := default [] (edit_id_resolvers w !! e) ++ [new_channel w]]> (edit_id_resolvers w))
    (wait_for_version_txs w) (<[new_channel w := []]> (channels w)).

Lemma wait_edit_registers w e : registers w (ForEdit e) (new_channel w) (wait_edit w e).
Proof.
  split; [apply new_channel_fresh| |done]. intros [e'|t] c; simpl; [|naive_solver].
  destruct (decide (e' = e)) as [->|Hne].
  - rewrite lookup_insert_eq. split.
    + intros (l & [= <-] & [Hc|Hc%list_elem_of_singleton]%elem_of_app); [left|by right].
      destruct (edit_id_resolvers w !! e) as [l|]; [by exists l|by apply elem_of_nil in Hc].
    + intros H. eexists. split; [done|]. apply elem_of_app. destruct H as [(l & -> & Hc)|[_ ->]]; [by left|right; by left].
  - rewrite lookup_insert_ne by done. naive_solver.
Qed.

(** The channels [cs] are registered for the edits of [es]. *)
Inductive waits : Waiters → list Lamport → list nat → Waiters → Prop :=
  | waits_nil w : waits w [] [] w
  | waits_cons w e es c cs w1 w2 : registers w (ForEdit e) c w1 → waits w1 es cs w2 → waits w (e :: es) (c :: cs) w2.

Definition unobserved (v : Global) (es : list Lamport) : list Lamport := List.filter (λ e, negb (observed v e)) es.

Lemma wait_for_edits_waits v w es :
  let '(cs, w') := wait_for_edits v w es in waits w (unobserved v es) cs w'.
Proof.
  revert w. induction es as [|e es IH]; intros w; simpl; [constructor|].
  destruct (observed v e); simpl; [apply IH|]. fold (wait_edit w e).
  specialize (IH (wait_edit w e)). destruct (wait_for_edits v (wait_edit w e) es) as [cs w']. econstructor; [|done].
  apply wait_edit_registers.
Qed.

Lemma wait_for_version_registers v w t : observed_all v t = false →
  ∃ w', wait_for_version v w t = ([new_channel w], w') ∧ registers w (ForVersion t) (new_channel w) w'.
Proof.
  intros E. unfold wait_for_version. rewrite E. eexists. split; [done|].
  split; [apply new_channel_fresh| |done]. intros [e|t'] c; simpl; [naive_solver|].
  rewrite elem_of_app, list_elem_of_singleton. naive_solver.
Qed.

(** Registering changes nothing for the channels there are. *)
Lemma registers_keeps w k c w' c' : registers w k c w' → is_Some (channels w !! c') →
  channels w' !! c' = channels w !! c' ∧ ∀ k', held w' k' c' ↔ held w k' c'.
Proof.
  intros [Hf Hh Hc] [log Hl]. assert (c ≠ c') by congruence. split; [by rewrite Hc, lookup_insert_ne|].
  intros k'. rewrite Hh. naive_solver.
Qed.
Lemma waits_keeps w es cs w' c' : waits w es cs w' → is_Some (channels w !! c') →
  channels w' !! c' = channels w !! c' ∧ ∀ k', held w' k' c' ↔ held w k' c'.
Proof.
  induction 1 as [|w e es c cs w1 w2 Hr _ IH]; [done|]. intros Hs.
  destruct (registers_keeps _ _ _ _ _ Hr Hs) as [Hc Hh]. rewrite <- Hc in Hs. destruct (IH Hs) as [Hc' Hh'].
  split; [congruence|]. intros k'. by rewrite Hh', Hh.
Qed.
Lemma waits_ok w es cs w' : waits w es cs w' → waiting_ok w → waiting_ok w'.
Proof. induction 1; [done|]. intros. apply IHwaits. by eapply registers_ok. Qed.
Lemma waits_held w es cs w' : waits w es cs w' → waiting_ok w →
  Forall2 (λ e c, held w' (ForEdit e) c) es cs.
Proof.
  induction 1 as [|w e es c cs w1 w2 Hr Hw IH]; intros Hok; constructor; [|by apply IH; eapply registers_ok].
  pose proof (registers_ok _ _ _ _ Hok Hr) as Hok1.
  assert (held w1 (ForEdit e) c) as Hh by (apply (registers_held _ _ _ _ Hr); by right).
  apply (waits_keeps _ _ _ _ _ Hw); [|done]. eexists. by eapply held_open.
Qed.

(** ** What a channel sees *)

Definition resolves (v : Global) (ev : WaitEvent) (k : WaitKey) : bool :=
  match ev, k with
  | ApplyEdit e, ForEdit e' => negb (observed v e) && bool_decide (e' = e)
  | (ApplyEdit _ | ApplyUndo _), ForVersion t => observed_all (wait_version v ev) t
  | _, _ => false
  end.

Fixpoint settled (v : Global) (k : WaitKey) (evs : list WaitEvent) : option bool :=
  match evs with
  | [] => None
  | GiveUp :: _ => Some false
  | ev :: evs => if resolves v ev k then Some true else settled (wait_version v ev) k evs
  end.

Definition log_of (o : option bool) : list SenderEvent :=
  match o with None => [] | Some true => [Sent; Dropped] | Some false => [Dropped] end.

(** What becomes of a channel: still held, or gone with its last events. *)
Definition at_fate (w : Waiters) (k : WaitKey) (c : nat) (o : option bool) : Prop :=
  match o with None => held w k c | Some _ => channels w !! c = Some (log_of o) ∧ ∀ k', ¬ held w k' c end.

Lemma settles_fate w P evs w' k c : waiting_ok w → settles w P evs w' → held w k c →
  (P k → channels w' !! c = Some evs ∧ ∀ k', ¬ held w' k' c) ∧ (¬ P k → held w' k c).
Proof.
  intros Hok [Hh Hs _] Hc. split; intros HP; [|by apply Hh].
  rewrite (Hs k c Hc HP), (held_open _ Hok k c Hc). split; [done|].
  intros k' [Hk' HP']%Hh. by rewrite (held_once _ Hok k' k c Hk' Hc) in HP'.
Qed.
Lemma settles_gone w P evs w' c : settles w P evs w' → (∀ k, ¬ held w k c) →
  channels w' !! c = channels w !! c ∧ ∀ k, ¬ held w' k c.
Proof. intros [Hh _ Hs] Hn. split; [apply Hs; intros k Hk; by apply Hn in Hk|by intros k [Hk _]%Hh; apply Hn in Hk]. Qed.

(** What a step does to the channels there are. *)
Record step_spec (v : Global) (ev : WaitEvent) (w w' : Waiters) : Prop := {
  step_ok : waiting_ok w';
  step_held k c : held w k c → at_fate w' k c (settled v k [ev]);
  step_gone c : is_Some (channels w !! c) → (∀ k, ¬ held w k c) →
    channels w' !! c = channels w !! c ∧ ∀ k, ¬ held w' k c;
}.

Lemma keeps_spec v ev w w' : (∀ k, settled v k [ev] = None) → waiting_ok w → waiting_ok w' →
  (∀ c, is_Some (channels w !! c) → channels w' !! c = channels w !! c ∧ ∀ k, held w' k c ↔ held w k c) →
  step_spec v ev w w'.
Proof.
  intros Hs Hok Hok' Hk. split; [done| |].
  - intros k c Hc. rewrite Hs. simpl. apply Hk; [|done]. eexists. by eapply held_open.
  - intros c Hc Hn. destruct (Hk c Hc) as [-> Hh]. split; [done|]. intros k. rewrite Hh. apply Hn.
Qed.

Lemma settles_spec v ev w P evs w' :
  (∀ k, (P k ∧ ∃ b, settled v k [ev] = Some b ∧ evs = log_of (Some b)) ∨ (¬ P k ∧ settled v k [ev] = None)) →
  waiting_ok w → settles w P evs w' → step_spec v ev w w'.
Proof.
  intros Hs Hok Hse. split; [by eapply settles_ok| |intros c _; by eapply settles_gone].
  intros k c Hc. destruct (settles_fate w P evs w' k c Hok Hse Hc) as [H1 H2].
  destruct (Hs k) as [[HP (b & -> & ->)]|[HP ->]]; [by apply H1|by apply H2].
Qed.

(** Two removals in a row. *)
Lemma settles_trans w P Q evs w1 w2 : (∀ k, Decision (P k)) → waiting_ok w → settles w P evs w1 → settles w1 Q evs w2 →
  settles w (λ k, P k ∨ Q k) evs w2.
Proof.
  intros Hdec Hok H1 H2. pose proof (settles_ok _ _ _ _ Hok H1) as Hok1. split.
  - intros k c. rewrite (settles_held _ _ _ _ H2), (settles_held _ _ _ _ H1). tauto.
  - intros k c Hc HPQ. rewrite (held_open _ Hok k c Hc). destruct (settles_fate _ _ _ _ k c Hok H1 Hc) as [HP HnP].
    destruct (decide (P k)) as [HPk|HPk].
    + destruct (HP HPk) as [Hl Hn]. by rewrite (proj1 (settles_gone _ _ _ _ c H2 Hn)).
    + destruct HPQ as [?|HQ]; [done|]. by apply (settles_fate _ _ _ _ k c Hok1 H2 (HnP HPk)).
  - intros c Hc. rewrite (settles_same _ _ _ _ H2), (settles_same _ _ _ _ H1); [done| |].
    + intros k Hk HP. by eapply Hc; [|left].
    + intros k [Hk _]%(settles_held _ _ _ _ H1) HQ. by eapply Hc; [|right].
Qed.

Lemma wait_step_spec v w ev : waiting_ok w → let '(v', w') := wait_step (v, w) ev in v' = wait_version v ev ∧ step_spec v ev w w'.
Proof.
  intros Hok. split; [done|]. destruct ev as [es|t|e|u|t|].
  - pose proof (wait_for_edits_waits v w es) as Hw. cbn. destruct (wait_for_edits v w es) as [cs w']. cbn.
    apply keeps_spec; [by intros []|done|by eapply waits_ok|]. intros c. by apply (waits_keeps _ _ _ _ _ Hw).
  - cbn. destruct (observed_all v t) eqn:E.
    { unfold wait_for_version. rewrite E. apply keeps_spec; [by intros []|done..]. }
    destruct (wait_for_version_registers v w t E) as (w' & -> & Hr).
    apply keeps_spec; [by intros []|done|by eapply registers_ok|]. intros c. by apply (registers_keeps _ _ _ _ _ Hr).
  - cbn. destruct (observed v e) eqn:E.
    + eapply settles_spec; [|done|apply resolve_versions_settles]. intros [e'|t]; cbn; rewrite E; cbn; [right; by split; [intros []|]|].
      destruct (observed_all v t); [left; by eauto|right; by split].
    + eapply settles_spec; [|done|eapply settles_trans; [|done|apply resolve_edit_settles|apply resolve_versions_settles]].
      * intros [e'|t]; cbn; rewrite E; cbn.
        -- case_bool_decide as He; [left; subst; by eauto|right; split; [|done]]. intros [[= ->]|[]]. done.
        -- destruct (observed_all _ t); [left; split; [by right|by eauto]|right; split; [by intros [?|?]|done]].
      * intros [e'|t]; [destruct (decide (e' = e)) as [->|]; [by left|right; by intros [= ->]]|by right].
  - cbn. eapply settles_spec; [|done|apply resolve_versions_settles].
    intros [e'|t]; cbn; [right; by split; [intros []|]|]. destruct (observed_all _ t); [left; by eauto|right; by split].
  - cbn. apply keeps_spec; [by intros []|done..].
  - cbn. eapply settles_spec; [|done|apply give_up_settles]. intros k. left. by eauto.
Qed.

(** One step more. *)
Lemma settled_cons v k ev evs : settled v k (ev :: evs) =
  match settled v k [ev] with Some b => Some b | None => settled (wait_version v ev) k evs end.
Proof. by destruct ev, k; cbn; try done; match goal with |- context [if ?b then _ else _] => destruct b end. Qed.

Lemma wait_run_spec evs : ∀ v w, waiting_ok w →
  let '(v', w') := wait_run (v, w) evs in
  v' = foldl wait_version v evs ∧ waiting_ok w' ∧ (∀ k c, held w k c → at_fate w' k c (settled v k evs)) ∧
  ∀ c, is_Some (channels w !! c) → (∀ k, ¬ held w k c) → channels w' !! c = channels w !! c ∧ ∀ k, ¬ held w' k c.
Proof.
  induction evs as [|ev evs IH]; intros v w Hok; [done|]. unfold wait_run. cbn [foldl]. fold (wait_run (wait_step (v, w) ev) evs).
  pose proof (wait_step_spec v w ev Hok) as Hstep. destruct (wait_step (v, w) ev) as [v1 w1]. destruct Hstep as [-> [Hok1 Hh Hg]].
  specialize (IH (wait_version v ev) w1 Hok1). destruct (wait_run _ evs) as [v2 w2]. destruct IH as (-> & Hok2 & Hh2 & Hg2).
  split_and!; [done|done| |].
  - intros k c Hc. specialize (Hh k c Hc). rewrite settled_cons. destruct (settled v k [ev]) as [b|]; [|by apply Hh2].
    destruct Hh as [Hl Hn]. unfold at_fate. rewrite <- Hl. apply Hg2; [by eexists|done].
  - intros c Hc Hn. destruct (Hg c Hc Hn) as [Hl Hn1]. destruct (Hg2 c) as [Hl2 Hn2]; [by rewrite Hl|done|].
    split; [congruence|done].
Qed.

(** Every reachable state keeps its senders in order. *)
Lemma reachable_ok v evs : waiting_ok (wait_run (v, no_waiters) evs).2.
Proof.
  pose proof (wait_run_spec evs v no_waiters no_waiters_ok) as H. destruct (wait_run _ evs) as [v' w']. apply H.
Qed.

(** ** The outcome of a future *)

(** After some of the events [evs], and before any [give_up_waiting], the edit is applied. *)
Definition edit_applied (v : Global) (e : Lamport) (evs : list WaitEvent) : Prop :=
  ∃ l1 l2, evs = l1 ++ ApplyEdit e :: l2 ∧ GiveUp ∉ l1 ∧ observed (foldl wait_version v l1) e = false.

Definition applies (ev : WaitEvent) : Prop := match ev with ApplyEdit _ | ApplyUndo _ => True | _ => False end.
(** ... an operation is applied that leaves the buffer at the target version or past it. *)
Definition version_reached (v : Global) (t : Global) (evs : list WaitEvent) : Prop :=
  ∃ l1 ev l2, evs = l1 ++ ev :: l2 ∧ GiveUp ∉ l1 ∧ applies ev ∧
    observed_all (foldl wait_version v (l1 ++ [ev])) t = true.

Definition reached (v : Global) (k : WaitKey) (evs : list WaitEvent) : Prop :=
  match k with ForEdit e => edit_applied v e evs | ForVersion t => version_reached v t evs end.

Lemma reached_cons v k ev evs : ev ≠ GiveUp →
  reached v k (ev :: evs) ↔ resolves v ev k = true ∨ reached (wait_version v ev) k evs.
Proof.
  intros Hne. destruct k as [e|t]; simpl; split.
  - intros (l1 & l2 & H & Hg & Ho). destruct l1 as [|x l1]; simplify_eq/=; [left; by rewrite Ho, bool_decide_eq_true_2|right].
    exists l1, l2. split_and!; [done| |done]. intros ?. apply Hg. by right.
  - intros [H|(l1 & l2 & -> & Hg & Ho)].
    + destruct ev as [| |e'| | |]; try done. apply andb_true_iff in H as [H1%negb_true_iff ->%bool_decide_eq_true].
      exists [], evs. split_and!; [done|apply not_elem_of_nil|done].
    + exists (ev :: l1), l2. split_and!; [done| |done]. intros [?|?]%elem_of_cons; by subst.
  - intros (l1 & x & l2 & H & Hg & Ha & Ho). destruct l1 as [|y l1]; simplify_eq/=; [left; by destruct x|right].
    exists l1, x, l2. split_and!; [done| |done|done]. intros ?. apply Hg. by right.
  - intros [H|(l1 & x & l2 & -> & Hg & Ha & Ho)].
    + exists [], ev, evs. split_and!; [done|apply not_elem_of_nil|by destruct ev|by destruct ev].
    + exists (ev :: l1), x, l2. split_and!; [done| |done|done]. intros [?|?]%elem_of_cons; by subst.
Qed.

Lemma settled_reached v k evs :
  (settled v k evs = Some true ↔ reached v k evs) ∧ (GiveUp ∈ evs ↔ settled v k evs = Some false ∨ settled v k evs = Some true ∧ GiveUp ∈ evs).
Proof.
  revert v. induction evs as [|ev evs IH]; intros v.
  { split; [split; [done|]|split; [by intros ?%elem_of_nil|by intros [?|[_ ?]]]].
    destruct k; [intros (l1 & l2 & H & _)|intros (l1 & x & l2 & H & _)]; by destruct l1. }
  assert (ev = GiveUp ∨ ev ≠ GiveUp) as [->|Hne] by (destruct ev; (by left) || by right).
  { split; [split; [done|]|split; [by left|intros _; by left]].
    destruct k; simpl; [intros (l1 & l2 & H & Hg & _)|intros (l1 & x & l2 & H & Hg & Ha & _)];
      destruct l1; simplify_eq/=; done || by exfalso; apply Hg; left. }
  rewrite reached_cons by done. specialize (IH (wait_version v ev)) as [IH1 IH2].
  assert (settled v k (ev :: evs) = if resolves v ev k then Some true else settled (wait_version v ev) k evs) as ->
    by by destruct ev.
  rewrite elem_of_cons. destruct (resolves v ev k); naive_solver.
Qed.

Fixpoint awaits (os : list (option bool)) : Poll :=
  match os with
  | [] => Done
  | None :: _ => Pending
  | Some true :: os => awaits os
  | Some false :: _ => GaveUp
  end.

Lemma awaits_outcome v ks evs : let p := awaits ((λ k, settled v k evs) <$> ks) in
  (p = Done ↔ Forall (λ k, reached v k evs) ks) ∧ (p ≠ Done → (p = GaveUp ↔ GiveUp ∈ evs)).
Proof.
  induction ks as [|k ks [IH1 IH2]]; simpl; [split; [split; [constructor|done]|done]|].
  destruct (settled_reached v k evs) as [H1 H2]. rewrite Forall_cons. destruct (settled v k evs) as [[|]|]; naive_solver.
Qed.

Section outcome.
Context `{Oneshot}.

Lemma poll_awaits w os cs : Forall2 (λ o c, channels w !! c = Some (log_of o)) os cs → poll w cs = awaits os.
Proof.
  induction 1 as [|o c os cs Hc _ IH]; [done|]. simpl. rewrite Hc.
  destruct o as [[|]|]; simpl; [by rewrite recv_value|by rewrite recv_closed|by rewrite recv_waiting].
Qed.

Lemma run_outcome v w ks futures evs :
  waiting_ok w → Forall2 (held w) ks futures →
  let p := poll (wait_run (v, w) evs).2 futures in
  (p = Done ↔ Forall (λ k, reached v k evs) ks) ∧ (p ≠ Done → (p = GaveUp ↔ GiveUp ∈ evs)).
Proof.
  intros Hok Hk. pose proof (wait_run_spec evs v w Hok) as Hrun. destruct (wait_run (v, w) evs) as [v' w'].
  destruct Hrun as (_ & Hok' & Hh & _). cbn [snd]. rewrite (poll_awaits w' ((λ k, settled v k evs) <$> ks)); [apply awaits_outcome|].
  apply Forall2_fmap_l. eapply Forall2_impl; [exact Hk|]. intros k c Hc. specialize (Hh k c Hc).
  unfold compose. destruct (settled v k evs); [apply Hh|]. by eapply held_open.
Qed.

(** C39: what a future of [wait_for_edits] resolves to.  Whatever happened
    before and whatever happens afterwards, it is done exactly when each of its
    edits had been observed or has been applied before any [give_up_waiting];
    otherwise it fails with an error once the buffer gave up waiting, and keeps
    waiting until then. *)
Theorem wait_for_edits_outcome v0 before edit_ids after :
  let '(v, w) := wait_run (v0, no_waiters) before in
  let '(futures, w') := wait_for_edits v w edit_ids in
  let p := poll (wait_run (v, w') after).2 futures in
  (p = Done ↔ Forall (λ e, observed v e = true ∨ edit_applied v e after) edit_ids) ∧
  (p ≠ Done → (p = GaveUp ↔ GiveUp ∈ after)).
Proof.
  pose proof (reachable_ok v0 before) as Hok. destruct (wait_run (v0, no_waiters) before) as [v w]. cbn [snd] in Hok.
  pose proof (wait_for_edits_waits v w edit_ids) as Hw. destruct (wait_for_edits v w edit_ids) as [futures w'].
  destruct (run_outcome v w' (ForEdit <$> unobserved v edit_ids) futures after) as [H1 H2];
    [by eapply waits_ok|by apply Forall2_fmap_l; eapply waits_held|].
  split; [|done]. rewrite H1, Forall_fmap, !Forall_forall. unfold compose, unobserved. cbn [reached].
  setoid_rewrite list_elem_of_In. setoid_rewrite filter_In. setoid_rewrite negb_true_iff. setoid_rewrite <- list_elem_of_In.
  split; intros Hall e He; [|destruct He as [He Ho]; destruct (Hall e He); [congruence|done]].
  destruct (observed v e) eqn:E; [by left|right]. by apply Hall.
Qed.

(** what a future of [wait_for_version] resolves to: done exactly when the
    version had been observed, or a remote operation applied before any
    [give_up_waiting] leaves the buffer at a version that includes it. *)
Theorem wait_for_version_outcome v0 before target after :
  let '(v, w) := wait_run (v0, no_waiters) before in
  let '(futures, w') := wait_for_version v w target in
  let p := poll (wait_run (v, w') after).2 futures in
  (p = Done ↔ observed_all v target = true ∨ version_reached v target after) ∧
  (p ≠ Done → (p = GaveUp ↔ GiveUp ∈ after)).
Proof.
  pose proof (reachable_ok v0 before) as Hok. destruct (wait_run (v0, no_waiters) before) as [v w]. cbn [snd] in Hok.
  destruct (observed_all v target) eqn:E.
  { unfold wait_for_version. rewrite E. cbn. split; [split; [by left|done]|done]. }
  destruct (wait_for_version_registers v w target E) as (w' & -> & Hr).
  destruct (run_outcome v w' [ForVersion target] [new_channel w] after) as [H1 H2];
    [by eapply registers_ok|constructor; [apply (registers_held _ _ _ _ Hr); by right|constructor]|].
  split; [|done]. rewrite H1, Forall_singleton. cbn [reached]. naive_solver.
Qed.
End outcome.

(** ** A concrete run *)
Module WaitersExamples.

#[local] Instance channel : Oneshot.
Proof.
  refine {| recv := λ l, match l with [] => NotYet | Sent :: _ => Value | Dropped :: _ => Closed end |}; done.
Defined.

Definition e1 : Lamport := mkLamport 1 2.
Definition e2 : Lamport := mkLamport 2 2.
Definition seen2 : Global := observe new_global e2.

(** One future waits for two edits, one for a version; the first edit arrives,
    then the buffer gives up. *)
Example wait_run_values :
  let '(futures, w) := wait_for_edits new_global no_waiters [e1; e2] in
  let '(futures', w) := wait_for_version new_global w seen2 in
  let '(_, w1) := wait_run (new_global, w) [ApplyEdit e1] in
  let '(_, w2) := wait_run (new_global, w) [ApplyEdit e1; ApplyEdit e2] in
  let '(_, w3) := wait_run (new_global, w) [ApplyEdit e1; GiveUp; ApplyEdit e2] in
  (poll w1 futures, poll w2 futures, poll w3 futures, poll w1 futures', poll w2 futures') =
  (Pending, Done, GaveUp, Pending, Done).
Proof. vm_compute. reflexivity. Qed.

Example wait_for_edits_outcome_witness :
  let '(v, w) := wait_run (new_global, no_waiters) [WaitVersion seen2] in
  let '(futures, w') := wait_for_edits v w [e1; e2] in
  let p := poll (wait_run (v, w') [ApplyEdit e1; GiveUp]).2 futures in
  (p = Done ↔ Forall (λ e, observed v e = true ∨ edit_applied v e [ApplyEdit e1; GiveUp]) [e1; e2]) ∧
  (p ≠ Done → (p = GaveUp ↔ GiveUp ∈ [ApplyEdit e1; GiveUp])).
Proof. exact (wait_for_edits_outcome new_global [WaitVersion seen2] [e1; e2] [ApplyEdit e1; GiveUp]). Defined.

Example wait_for_version_outcome_witness :
  let '(v, w) := wait_run (new_global, no_waiters) [WaitEdits [e1]] in
  let '(futures, w') := wait_for_version v w seen2 in
  let p := poll (wait_run (v, w') [ApplyEdit e2]).2 futures in
  (p = Done ↔ observed_all v seen2 = true ∨ version_reached v seen2 [ApplyEdit e2]) ∧
  (p ≠ Done → (p = GaveUp ↔ GiveUp ∈ [ApplyEdit e2])).
Proof. exact (wait_for_version_outcome new_global [WaitEdits [e1]] seen2 [ApplyEdit e2]). Defined.
End WaitersExamples.
