(* ===== verification/Buffer.v ===== *)
(** * The buffer ([Buffer] of [crates/text/src/text.rs])

    The replicated state: the snapshot, the undo history, the operations that
    wait for others, the clock, the subscriptions and the futures that wait
    for edits.  The operations of the other files are put together here. *)

From S2P Require Import Prelude Clock Text SumTree Cursor KeyedTree UndoMap OperationQueue Subscription Patch Fragment Cells RemoteCells LocalEdit Undo RemoteEdit Waiters.
From S2P Require Locator TreeMap History.

#[local] Existing Instance TreeMap.MapKey_Summary.

(** ** Operations *)

Record EditOperation := mkEditOperation {
  eo_timestamp : Lamport;
  eo_version : Global;
  eo_ranges : list (nat * nat);
  eo_new_text : list Text;
}.

Inductive Operation := OpEdit (edit : EditOperation) | OpUndo (undo : UndoOperation).

Definition op_timestamp (op : Operation) : Lamport :=
  match op with OpEdit e => eo_timestamp e | OpUndo u => UndoMap.timestamp u end.
Definition op_replica_id (op : Operation) : ReplicaId := replica_id (op_timestamp op).
(** The version [can_apply_op] looks at. *)
Definition op_version (op : Operation) : Global :=
  match op with OpEdit e => eo_version e | OpUndo u => UndoMap.op_version u end.
Definition op_kind (op : Operation) : History.OperationKind :=
  match op with OpEdit _ => History.KEdit | OpUndo _ => History.KUndo end.

#[export] Instance Operation_Operation : OperationQueue.Operation Operation := {| lamport_timestamp := op_timestamp |}.
Abbreviation DeferredQueue := (Node Operation OperationSummary).

(** ** The state *)

Record BufferSnapshot := mkSnapshot {
  fragments : list Fragment;
  visible_text : Text;
  deleted_text : Text;
  insertions : InsertionTree;
  insertion_slices : SliceSet;
  undo_map : UndoTree;
  version : Global;
  sn_replica_id : ReplicaId;
  line_ending : LineEnding;
}.

Record Buffer := mkBuffer {
  snapshot : BufferSnapshot;
  history : History.History;
  deferred_ops : DeferredQueue;
  deferred_replicas : gset ReplicaId;
  lamport_clock : Lamport;
  topic : Topic;
  heap : Heap;
  waiters : Waiters;
}.

(** Record updates. *)
Definition with_snapshot b s := mkBuffer s (history b) (deferred_ops b) (deferred_replicas b) (lamport_clock b) (topic b) (heap b) (waiters b).
Definition with_history b h := mkBuffer (snapshot b) h (deferred_ops b) (deferred_replicas b) (lamport_clock b) (topic b) (heap b) (waiters b).
Definition with_deferred b q r := mkBuffer (snapshot b) (history b) q r (lamport_clock b) (topic b) (heap b) (waiters b).
Definition with_clock b c := mkBuffer (snapshot b) (history b) (deferred_ops b) (deferred_replicas b) c (topic b) (heap b) (waiters b).
Definition with_subscriptions b t h := mkBuffer (snapshot b) (history b) (deferred_ops b) (deferred_replicas b) (lamport_clock b) t h (waiters b).
Definition with_waiters b w := mkBuffer (snapshot b) (history b) (deferred_ops b) (deferred_replicas b) (lamport_clock b) (topic b) (heap b) w.

Definition with_version s v := mkSnapshot (fragments s) (visible_text s) (deleted_text s) (insertions s) (insertion_slices s) (undo_map s) v (sn_replica_id s) (line_ending s).
Definition with_undo_map s m := mkSnapshot (fragments s) (visible_text s) (deleted_text s) (insertions s) (insertion_slices s) m (version s) (sn_replica_id s) (line_ending s).
Definition with_texts s f v d := mkSnapshot f v d (insertions s) (insertion_slices s) (undo_map s) (version s) (sn_replica_id s) (line_ending s).
Definition with_indices s i k := mkSnapshot (fragments s) (visible_text s) (deleted_text s) i k (undo_map s) (version s) (sn_replica_id s) (line_ending s).

Definition buffer_version (b : Buffer) : Global := version (snapshot b).
Definition with_observed (b : Buffer) (t : Lamport) : Buffer :=
  with_snapshot b (with_version (snapshot b) (observe (buffer_version b) t)).
(** [self.snapshot.version.observe(t)], which asserts that [t] is a replica's.
    The passes over the fragments observe the same timestamps in summaries, so
    that this assertion stands for theirs as well. *)
Definition observe_version (b : Buffer) (t : Lamport) : option Buffer :=
  v ← try_observe (buffer_version b) t; Some (with_snapshot b (with_version (snapshot b) v)).

Definition set_line_ending (b : Buffer) (l : LineEnding) : Buffer :=
  let s := snapshot b in
  with_snapshot b (mkSnapshot (fragments s) (visible_text s) (deleted_text s) (insertions s) (insertion_slices s) (undo_map s) (version s) (sn_replica_id s) l).

(** [TREE_BASE] is 6, or 2 in tests; [MAX_INSERTION_LEN] is [u32::MAX], or 16. *)
Section buffer.
Context (TREE_BASE : nat) (MAX_INSERTION_LEN : N).
Implicit Types b : Buffer.

(** ** Creation *)

Record BaseState := mkBaseState {
  base_fragments : list Fragment; base_insertions : InsertionTree; base_offset : nat; prev_locator : Locator }.

(** The chunks of the base text; the loop makes progress as long as a
    character fits in a chunk. *)
Fixpoint base_loop (fuel : nat) (text : Text) (ts : Lamport) (text_offset : nat) (s : BaseState) : option BaseState :=
  if text_offset <? length text then
    match fuel with
    | O => None
    | S fuel =>
        let chunk_end := chunk_end MAX_INSERTION_LEN text text_offset in
        chunk_len ← usub chunk_end text_offset;
        let fragment_id := Locator.between (prev_locator s) Locator.max in
        let f := mkFragment fragment_id ts (base_offset s) (as_u32 chunk_len) true [] new_global in
        t ← SumTree.push TREE_BASE (base_insertions s) (new_insertion f);
        base_loop fuel text ts chunk_end
          (mkBaseState (base_fragments s ++ [f]) t (as_u32 (base_offset s + as_u32 chunk_len)) fragment_id)
    end
  else Some s.

Definition new_normalized (replica : ReplicaId) (l : LineEnding) (normalized : Text) : option Buffer :=
  let clock := new_lamport replica in
  let insertion_timestamp := new_lamport LOCAL in
  '(s, clock, version) ←
    match normalized with
    | [] => Some (mkBaseState [] SumTree.new 0 Locator.min, clock, new_global)
    | _ =>
        s ← base_loop (length normalized) normalized insertion_timestamp 0 (mkBaseState [] SumTree.new 0 Locator.min);
        v ← try_observe new_global insertion_timestamp;
        Some (s, lamport_observe clock insertion_timestamp, v)
    end;
  Some (mkBuffer
    (mkSnapshot (base_fragments s) normalized [] (base_insertions s) SumTree.new SumTree.new version replica l)
    (History.new_history normalized) SumTree.new ∅ clock [] ∅ no_waiters).

(** [Buffer::new] *)
Definition new_buffer (replica : ReplicaId) (base_text : Text) : option Buffer :=
  new_normalized replica (detect base_text) (normalize base_text).

(** [branch]: the same snapshot, nothing else. *)
Definition branch b : Buffer :=
  mkBuffer (snapshot b) (History.new_history (History.base_text (history b))) SumTree.new ∅ (new_lamport LOCAL_BRANCH) [] ∅
    no_waiters.

(** ** Writing back a pass over the fragments *)

(** [insertions.edit(..)] and [insertion_slices.extend(..)]. *)
Definition update_indices (s : BufferSnapshot) (new_insertions : list InsertionFragment) (slices : list InsertionSlice)
    : option BufferSnapshot :=
  '(_, i) ← KeyedTree.edit TREE_BASE (insertions s) (Insert <$> new_insertions);
  k ← TreeMap.map_extend TREE_BASE (insertion_slices s) ((λ x, (x, ())) <$> slices);
  Some (with_indices s i k).

Definition publish_mut b (p : Patch) : option Buffer :=
  '(t, h) ← publish (topic b) (heap b) p; Some (with_subscriptions b t h).

Definition local_edit b (edits : list TextEdit) (timestamp : Lamport) : option (EditOperation * Buffer) :=
  let s := snapshot b in
  r ← apply_local_edit MAX_INSERTION_LEN timestamp (fragments s) (visible_text s) (deleted_text s) edits;
  let op := mkEditOperation timestamp (version s) (le_ranges r) (normalize <$> (e_text <$> edits)) in
  s ← update_indices (with_texts s (le_fragments r) (le_visible_text r) (le_deleted_text r)) (le_insertions r) (le_slices r);
  b ← publish_mut (with_snapshot b s) (le_patch r);
  Some (op, b).

Definition remote_ops (ranges : list (nat * nat)) (new_text : list Text) : list RemoteEditOp :=
  zip_with (λ range text, mkRemoteEditOp range.1 range.2 text) ranges new_text.

Definition remote_edit b (op : EditOperation) : option Buffer :=
  match eo_ranges op with
  | [] => Some b
  | _ =>
      let s := snapshot b in
      r ← apply_remote_edit MAX_INSERTION_LEN (eo_version op) (undo_map s) (eo_timestamp op)
            (fragments s) (visible_text s) (deleted_text s) (remote_ops (eo_ranges op) (eo_new_text op));
      s ← update_indices (with_texts s (re_fragments r) (re_visible_text r) (re_deleted_text r)) (re_insertions r) (re_slices r);
      publish_mut (with_snapshot b s) (re_patch r)
  end.

Definition buffer_undo b (undo : UndoOperation) : option Buffer :=
  let s := snapshot b in
  '(m, r) ← apply_undo TREE_BASE (fragments s) (visible_text s) (deleted_text s) (undo_map s) (insertion_slices s)
              (insertions s) undo;
  publish_mut (with_snapshot b (with_undo_map (with_texts s (ur_fragments r) (ur_visible_text r) (ur_deleted_text r)) m))
    (ur_patch r).

(** ** Applying operations *)

Definition apply_op b (op : Operation) : option Buffer :=
  b ← match op with
      | OpEdit edit =>
          if negb (observed (buffer_version b) (eo_timestamp edit)) then
            b ← remote_edit b edit;
            b ← observe_version b (eo_timestamp edit);
            let b := with_clock b (lamport_observe (lamport_clock b) (eo_timestamp edit)) in
            Some (with_waiters b (resolve_edit (waiters b) (eo_timestamp edit)))
          else Some b
      | OpUndo undo =>
          if negb (observed (buffer_version b) (UndoMap.timestamp undo)) then
            b ← buffer_undo b undo;
            b ← observe_version b (UndoMap.timestamp undo);
            Some (with_clock b (lamport_observe (lamport_clock b) (UndoMap.timestamp undo)))
          else Some b
      end;
  Some (with_waiters b (resolve_versions (waiters b) (buffer_version b))).

Definition can_apply_op b (op : Operation) : bool :=
  if decide (op_replica_id op ∈ deferred_replicas b) then false
  else observed_all (buffer_version b) (op_version op).

Definition defer_replica b (op : Operation) : Buffer :=
  with_deferred b (deferred_ops b) ({[op_replica_id op]} ∪ deferred_replicas b).

(** Both loops: apply what can be applied, collect the rest. *)
Fixpoint apply_or_defer b (ops deferred : list Operation) : option (Buffer * list Operation) :=
  match ops with
  | [] => Some (b, deferred)
  | op :: ops =>
      if can_apply_op b op then b ← apply_op b op; apply_or_defer b ops deferred
      else apply_or_defer (defer_replica b op) ops (deferred ++ [op])
  end.

Definition insert_deferred b (ops : list Operation) : option Buffer :=
  q ← insert_ops TREE_BASE (deferred_ops b) ops; Some (with_deferred b q (deferred_replicas b)).

Definition flush_deferred_ops b : option Buffer :=
  let b := with_deferred b (deferred_ops b) ∅ in
  let '(drained, q) := drain (deferred_ops b) in
  '(b, deferred) ← apply_or_defer (with_deferred b q (deferred_replicas b)) (iter_ops drained) [];
  insert_deferred b deferred.

(** The first loop of [apply_ops] also records every operation. *)
Fixpoint receive_ops b (ops deferred : list Operation) : option (Buffer * list Operation) :=
  match ops with
  | [] => Some (b, deferred)
  | op :: ops =>
      let b := with_history b (History.push (history b) (op_timestamp op) (op_kind op)) in
      if can_apply_op b op then b ← apply_op b op; receive_ops b ops deferred
      else receive_ops (defer_replica b op) ops (deferred ++ [op])
  end.

Definition apply_ops b (ops : list Operation) : option Buffer :=
  '(b, deferred) ← receive_ops b ops [];
  b ← insert_deferred b deferred;
  flush_deferred_ops b.

Definition has_deferred_ops b : bool := negb (queue_is_empty (deferred_ops b)).

(** ** Editing, undo and redo *)

Definition start_transaction_at b (now : N) : option History.TransactionId * Buffer :=
  let '(tid, h, c) := History.start_transaction (history b) (buffer_version b) now (lamport_clock b) in
  (tid, with_clock (with_history b h) c).

Definition end_transaction_at b (now : N) : option (option (History.TransactionId * Global) * Buffer) :=
  '(entry, h) ← History.end_transaction (history b) now;
  match entry with
  | Some e =>
      '(tid, h) ← History.group h;
      tid ← tid;
      Some (Some (tid, History.t_start (History.transaction e)), with_history b h)
  | None => Some (None, with_history b h)
  end.

(** [edit]; the two times are those of the two [Instant::now()]. *)
Definition edit b (edits : list TextEdit) (now1 now2 : N) : option (Operation * Buffer) :=
  let '(_, b) := start_transaction_at b now1 in
  let '(timestamp, c) := tick (lamport_clock b) in
  '(op, b) ← local_edit (with_clock b c) edits timestamp;
  let operation := OpEdit op in
  let h := History.push (history b) (op_timestamp operation) (op_kind operation) in
  h ← History.push_undo h (op_timestamp operation);
  b ← observe_version (with_history b h) (op_timestamp operation);
  '(_, b) ← end_transaction_at b now2;
  Some (operation, b).

Definition undo_operations b (counts : gmap Lamport N) : option (Operation * Buffer) :=
  let '(timestamp, c) := tick (lamport_clock b) in
  let v := buffer_version b in
  b ← observe_version (with_clock b c) timestamp;
  let undo := mkUndoOperation timestamp v counts in
  b ← buffer_undo b undo;
  Some (OpUndo undo, b).

(** [self.undo_map.undo_count(edit_id).saturating_add(1)] *)
Fixpoint undo_counts (m : UndoTree) (edit_ids : list Lamport) (counts : gmap Lamport N) : option (gmap Lamport N) :=
  match edit_ids with
  | [] => Some counts
  | e :: edit_ids =>
      n ← UndoMap.map_undo_count m e;
      undo_counts m edit_ids (<[e := N.min (n + 1) u32_max]> counts)
  end.

Definition undo_or_redo b (t : History.Transaction) : option (Operation * Buffer) :=
  counts ← undo_counts (undo_map (snapshot b)) (History.edit_ids t) ∅;
  '(op, b) ← undo_operations b counts;
  Some (op, with_history b (History.push (history b) (op_timestamp op) (op_kind op))).

Definition undo b : option (option (History.TransactionId * Operation) * Buffer) :=
  '(entry, h) ← History.pop_undo (history b);
  let b := with_history b h in
  match entry with
  | Some e =>
      '(op, b) ← undo_or_redo b (History.transaction e);
      Some (Some (History.transaction_id e, op), b)
  | None => Some (None, b)
  end.

Definition redo b : option (option (History.TransactionId * Operation) * Buffer) :=
  '(entry, h) ← History.pop_redo (history b);
  let b := with_history b h in
  match entry with
  | Some e =>
      '(op, b) ← undo_or_redo b (History.transaction e);
      Some (Some (History.transaction_id e, op), b)
  | None => Some (None, b)
  end.

Definition undo_transaction b (tid : History.TransactionId) : option (option Operation * Buffer) :=
  '(entry, h) ← History.remove_from_undo (history b) tid;
  let b := with_history b h in
  match entry with
  | Some e => '(op, b) ← undo_or_redo b (History.transaction e); Some (Some op, b)
  | None => Some (None, b)
  end.

Fixpoint undo_or_redo_all b (ts : list History.Transaction) : option (list Operation * Buffer) :=
  match ts with
  | [] => Some ([], b)
  | t :: ts => '(op, b) ← undo_or_redo b t; '(ops, b) ← undo_or_redo_all b ts; Some (op :: ops, b)
  end.

Definition undo_to_transaction b (tid : History.TransactionId) : option (list Operation * Buffer) :=
  '(l, h) ← History.remove_from_undo_until (history b) tid;
  undo_or_redo_all (with_history b h) (History.transaction <$> l).

Definition redo_to_transaction b (tid : History.TransactionId) : option (list Operation * Buffer) :=
  '(l, h) ← History.remove_from_redo (history b) tid;
  undo_or_redo_all (with_history b h) (History.transaction <$> l).
End buffer.
