(* ===== verification/BufferState.v ===== *)
(** * The state of a buffer

    What holds of every snapshot, and that edits keep it: the bytes are known
    by their insertion and offset, every insertion and deletion is observed,
    visibility follows the undo map, and the two indices find every byte of
    every edit. *)

From S2P Require Import Prelude Clock Text SumTree Cursor KeyedTree UndoMap Patch Fragment Cells BufferInv LocalEdit Undo UndoIndex RemoteCells RemoteEdit RemoteEditOk Tracking Converge Buffer.
From S2P Require Locator TreeMap.

#[local] Existing Instance TreeMap.option_Ord.
#[local] Existing Instance TreeMap.MapKey_Summary.
#[local] Existing Instance TreeMap.MapEntry_Item.
#[local] Existing Instance TreeMap.MapKey_Dimension.
#[local] Existing Instance TreeMap.MapEntry_KeyedItem.

(** ** The keys of the cells *)

Definition ckey (c : Cell) : Lamport * nat := (c_timestamp c, c_offset c).

(** How many bytes an operation inserts. *)
Definition inserted_len (edits : list RemoteEditOp) : nat := list_sum ((λ e, length (ro_text e)) <$> edits).

(** Two bytes of one insertion. *)
Definition in_order (k k' : Lamport * nat) : Prop := k.1 = k'.1 → k.2 < k'.2.

Section remote_cells.
Context (version : Global) (ts : Lamport) (was : Lamport → list Lamport → bool).

Lemma remote_cells_Forall (P Q : Cell → Prop) pos off edits l :
  Forall P l → (∀ c, P c → Q c) → (∀ c, P c → Q (remote_delete version ts was c)) →
  (∀ o b, Q (mkCell ts o b true [] new_global)) → Forall Q (remote_cells version ts was pos off edits l).
Proof.
  intros Hl HPQ Hdel Hins. revert pos off l Hl. induction edits as [|e edits IH]; intros pos off l Hl; cbn [remote_cells].
  { by eapply Forall_impl. }
  destruct (vsplit version _ l) as [k l1] eqn:E1. destruct (skip_newer ts l1) as [g l2] eqn:E2.
  destruct (vsplit version _ l2) as [r l3] eqn:E3.
  rewrite (vsplit_eq _ _ _ _ _ E1), (skip_newer_eq _ _ _ _ E2), (vsplit_eq _ _ _ _ _ E3), !Forall_app in Hl.
  destruct Hl as (Hk & Hg & Hr & Hl). rewrite !Forall_app. split_and!; [by eapply Forall_impl..| | |by apply IH].
  - apply Forall_lookup. intros i c. unfold inserted_cells. rewrite list_lookup_imap.
    destruct (ro_text e !! i); [|done]. intros [= <-]. apply Hins.
  - apply Forall_fmap. by eapply Forall_impl.
Qed.

Lemma remote_delete_key c : ckey (remote_delete version ts was c) = ckey c.
Proof. unfold remote_delete. by destruct (_ && _). Qed.

Lemma inserted_keys off t : ckey <$> inserted_cells ts off t = (λ i, (ts, i)) <$> seq off (length t).
Proof.
  apply list_eq. intros i. unfold inserted_cells. rewrite !list_lookup_fmap, list_lookup_imap.
  destruct (t !! i) as [b|] eqn:E.
  - rewrite lookup_seq_lt by (by eapply lookup_lt_Some). done.
  - rewrite lookup_seq_ge by (by apply lookup_ge_None). done.
Qed.

Lemma remote_cells_keys pos off edits l :
  ckey <$> remote_cells version ts was pos off edits l ≡ₚ
    (ckey <$> l) ++ ((λ i, (ts, i)) <$> seq off (inserted_len edits)).
Proof.
  revert pos off l. induction edits as [|e edits IH]; intros pos off l; cbn [remote_cells].
  { unfold inserted_len. simpl. by rewrite app_nil_r. }
  destruct (vsplit version _ l) as [k l1] eqn:E1. destruct (skip_newer ts l1) as [g l2] eqn:E2.
  destruct (vsplit version _ l2) as [r l3] eqn:E3.
  rewrite (vsplit_eq _ _ _ _ _ E1), (skip_newer_eq _ _ _ _ E2), (vsplit_eq _ _ _ _ _ E3).
  change (inserted_len (e :: edits)) with (length (ro_text e) + inserted_len edits).
  rewrite !fmap_app, IH, seq_app, fmap_app, inserted_keys, <- list_fmap_compose.
  rewrite (list_fmap_ext (ckey ∘ remote_delete version ts was) ckey r) by (intros; apply remote_delete_key).
  rewrite <- !app_assoc. do 2 f_equiv. rewrite !(app_assoc (ckey <$> r)). apply Permutation_app_swap_app.
Qed.

Lemma remote_cells_nodup pos off edits l :
  NoDup (ckey <$> l) → Forall (λ c, c_timestamp c ≠ ts) l → NoDup (ckey <$> remote_cells version ts was pos off edits l).
Proof.
  intros Hl Hts. rewrite remote_cells_keys. apply NoDup_app. split_and!; [done| |].
  - intros k (c & -> & Hc)%list_elem_of_fmap (i & Hi & _)%list_elem_of_fmap. rewrite Forall_forall in Hts.
    apply (Hts c Hc). by injection Hi.
  - apply NoDup_fmap_2; [by intros ?? [=]|apply NoDup_seq].
Qed.

(** New keys between old ones. *)
Lemma weave_order (a b c rest : list (Lamport * nat)) off n :
  StronglySorted in_order (a ++ b ++ c) → (∀ x, x ∈ a ++ b ++ c → x.1 ≠ ts) → StronglySorted in_order rest →
  (∀ x, x ∈ rest → x ∈ c ∨ x.1 = ts ∧ off + n ≤ x.2) →
  StronglySorted in_order (a ++ ((λ i, (ts, i)) <$> seq off n) ++ b ++ rest).
Proof.
  clear version was.
  rewrite !(StronglySorted_app in_order). intros (Hab & Ha & Hbc & Hb & Hc) Hne Hr Hin.
  assert (∀ x, x ∈ (λ i, (ts, i)) <$> seq off n → x.1 = ts ∧ x.2 < off + n) as Hs.
  { intros x (i & -> & Hi%elem_of_seq)%list_elem_of_fmap. cbn. split; [done|lia]. }
  split_and!; [|done| | |..|done|done].
  - intros x y Hx [Hy|[Hy|Hy]%elem_of_app]%elem_of_app; [intros Heq; exfalso; apply (Hne x); [set_solver|]; apply Hs in Hy as [<- _]; done|..].
    + apply Hab; set_solver.
    + apply Hin in Hy as [Hy|[Hy _]]; [apply Hab; set_solver|]. intros Heq. exfalso. apply (Hne x); [set_solver|congruence].
  - intros x y Hx [Hy|Hy]%elem_of_app; apply Hs in Hx as [Hx Hlt].
    + intros Heq. exfalso. apply (Hne y); [set_solver|congruence].
    + apply Hin in Hy as [Hy|[Hy Hle]]; intros Heq; [|lia]. exfalso. apply (Hne y); [set_solver|congruence].
  - clear. revert off. induction n as [|n IH]; intros off; [constructor|]. cbn [seq]. rewrite fmap_cons. constructor; [apply IH|].
    apply Forall_fmap, Forall_forall. intros i Hi%elem_of_seq _. cbn. lia.
  - intros x y Hx Hy. apply Hin in Hy as [Hy|[Hy _]]; [by apply Hbc|]. intros Heq. exfalso. apply (Hne x); [set_solver|congruence].
Qed.

(** The bytes of an insertion stay in order. *)
Lemma remote_cells_order pos off edits l :
  StronglySorted in_order (ckey <$> l) → Forall (λ c, c_timestamp c ≠ ts) l → StronglySorted in_order (ckey <$> remote_cells version ts was pos off edits l).
Proof.
  revert pos off l. induction edits as [|e edits IH]; intros pos off l; cbn [remote_cells]; [done|].
  destruct (vsplit version _ l) as [k l1] eqn:E1. destruct (skip_newer ts l1) as [g l2] eqn:E2.
  destruct (vsplit version _ l2) as [r l3] eqn:E3.
  rewrite (vsplit_eq _ _ _ _ _ E1), (skip_newer_eq _ _ _ _ E2), (vsplit_eq _ _ _ _ _ E3), !(app_assoc k g). intros Hl Hts.
  rewrite !fmap_app, inserted_keys, <- list_fmap_compose.
  rewrite (list_fmap_ext (ckey ∘ remote_delete version ts was) ckey r) by (intros; apply remote_delete_key).
  rewrite (fmap_app _ (k ++ g)), (fmap_app _ r) in Hl. rewrite <- (fmap_app _ k g).
  assert (Forall (λ c, c_timestamp c ≠ ts) l3) as H3 by (rewrite !Forall_app in Hts; tauto).
  apply (weave_order _ _ (ckey <$> l3)); [done| | |].
  - rewrite <- !fmap_app. intros x (c & -> & Hc)%list_elem_of_fmap. rewrite Forall_forall in Hts. by apply Hts.
  - apply IH; [|done]. rewrite !(StronglySorted_app in_order) in Hl. tauto.
  - intros x. rewrite remote_cells_keys, elem_of_app. intros [?|(i & -> & Hi%elem_of_seq)%list_elem_of_fmap]; [by left|right].
    cbn. split; [done|lia].
Qed.
End remote_cells.

(** ** Cells and fragments *)

(** Every cell belongs to a fragment. *)
Lemma cell_fragment l v d c : c ∈ cells l v d → ∃ f i b, f ∈ l ∧ c = cell_of f i b ∧ i < f_len f.
Proof.
  assert (∀ f t, c ∈ fcells f (take (f_len f) t) → ∃ i b, c = cell_of f i b ∧ i < f_len f) as Hc.
  { intros f t Hc. apply list_elem_of_lookup in Hc as [i Hi]. unfold fcells in Hi. rewrite list_lookup_imap in Hi.
    destruct (take (f_len f) t !! i) as [b|] eqn:E; [|done]. injection Hi as <-. exists i, b. split; [done|].
    apply lookup_lt_Some in E. rewrite length_take in E. lia. }
  revert v d. induction l as [|f l IH]; intros v d; cbn [cells]; [by intros ?%elem_of_nil|].
  destruct (visible f); intros [Hin|Hin]%elem_of_app.
  1, 3: destruct (Hc f _ Hin) as (i & b & ? & ?); exists f, i, b; (split_and!; [by left|done..]).
  all: destruct (IH _ _ Hin) as (g & i & b & ? & ? & ?); exists g, i, b; (split_and!; [by right|done..]).
Qed.

(** The first cell of a fragment. *)
Lemma first_cell l v d f : buffer_ok l v d → f ∈ l → ∃ b, cell_of f 0 b ∈ cells l v d.
Proof.
  intros [_ Hfr Hv Hd] Hf. apply list_elem_of_split in Hf as (l1 & l2 & ->).
  apply Forall_app in Hfr as [_ [[Hlen _] _]%Forall_cons].
  rewrite vlen_app, vlen_cons in Hv. rewrite dlen_app, dlen_cons in Hd. rewrite cells_app. cbn [cells].
  assert (∀ t : Text, 0 < length (take (f_len f) t) → ∃ b, cell_of f 0 b ∈ fcells f (take (f_len f) t)) as Hc.
  { intros t Ht. destruct (take (f_len f) t) as [|b t']; [simpl in Ht; lia|]. exists b. by left. }
  destruct (visible f) eqn:E; [rewrite (vis_text f E) in *|rewrite (hid_text f E) in *]; simpl in Hv, Hd.
  - destruct (Hc (drop (vlen l1) v)) as (b & H); [rewrite length_take, length_drop; lia|].
    exists b. apply elem_of_app. right. apply elem_of_app. by left.
  - destruct (Hc (drop (dlen l1) d)) as (b & H); [rewrite length_take, length_drop; lia|].
    exists b. apply elem_of_app. right. apply elem_of_app. by left.
Qed.

(** Different fragments have different keys. *)
Definition fkey (f : Fragment) : Lamport * nat := (f_timestamp f, insertion_offset f).

Lemma fcells_sublist f t : 0 < f_len f → f_len f ≤ length t → [fkey f] `sublist_of` (ckey <$> fcells f (take (f_len f) t)).
Proof.
  intros H0 Hl. destruct t as [|b t]; [simpl in Hl; lia|]. destruct (f_len f) as [|m]; [lia|]. cbn [take]. unfold fcells.
  cbn [imap]. rewrite fmap_cons. unfold ckey at 1, cell_of at 1. cbn. rewrite Nat.add_0_r. apply sublist_skip, sublist_nil_l.
Qed.

Lemma fragment_keys l v d : buffer_ok l v d → (fkey <$> l) `sublist_of` (ckey <$> cells l v d).
Proof.
  intros [_ Hfr Hv Hd]. assert (vlen l ≤ length v ∧ dlen l ≤ length d) as [Hv' Hd'] by lia. clear Hv Hd.
  revert v d Hv' Hd'. induction Hfr as [|f l [Hf _] _ IH]; intros v d Hv Hd; [done|].
  rewrite vlen_cons in Hv. rewrite dlen_cons in Hd. cbn [cells]. rewrite fmap_cons. change (fkey f :: (fkey <$> l)) with ([fkey f] ++ (fkey <$> l)).
  destruct (visible f) eqn:E; [rewrite (vis_text f E) in *|rewrite (hid_text f E) in *]; simpl in Hv, Hd; rewrite fmap_app;
    (apply sublist_app; [apply fcells_sublist; [done|lia]|apply IH; rewrite ?length_drop; lia]).
Qed.

(** The keys of all bytes, fragment by fragment. *)
Definition fkeys (f : Fragment) : list (Lamport * nat) := (λ i, (f_timestamp f, insertion_offset f + i)) <$> seq 0 (f_len f).

Lemma fcells_keys f t : length t = f_len f → ckey <$> fcells f t = fkeys f.
Proof.
  intros Hl. apply list_eq. intros i. unfold fcells, fkeys. rewrite !list_lookup_fmap, list_lookup_imap, <- Hl.
  destruct (t !! i) as [b|] eqn:E.
  - rewrite lookup_seq_lt by (by eapply lookup_lt_Some). done.
  - rewrite lookup_seq_ge by (by apply lookup_ge_None). done.
Qed.

Lemma cells_keys l v d : buffer_ok l v d → ckey <$> cells l v d = concat (fkeys <$> l).
Proof.
  intros [_ _ Hv Hd]. assert (vlen l ≤ length v ∧ dlen l ≤ length d) as [Hv' Hd'] by lia. clear Hv Hd.
  revert v d Hv' Hd'. induction l as [|f l IH]; intros v d Hv Hd; [done|].
  rewrite vlen_cons in Hv. rewrite dlen_cons in Hd. cbn [cells]. rewrite fmap_cons. cbn [concat].
  destruct (visible f) eqn:E; [rewrite (vis_text f E) in *|rewrite (hid_text f E) in *]; simpl in Hv, Hd; rewrite fmap_app;
    (rewrite fcells_keys by (rewrite length_take; lia); f_equal; apply IH; rewrite ?length_drop; lia).
Qed.

Lemma fkeys_elem f k : k ∈ fkeys f ↔ k.1 = f_timestamp f ∧ insertion_offset f ≤ k.2 < insertion_offset f + f_len f.
Proof.
  unfold fkeys. rewrite list_elem_of_fmap. destruct k as [t o]. cbn. split.
  - intros (i & [= -> ->] & Hi%elem_of_seq). split; [done|lia].
  - intros [-> Ho]. exists (o - insertion_offset f). split; [f_equal; lia|]. apply elem_of_seq. lia.
Qed.

Lemma all_keys_elem (l : list Fragment) k : k ∈ concat (fkeys <$> l) ↔ ∃ f, f ∈ l ∧ k ∈ fkeys f.
Proof.
  induction l as [|h l IH]; [split; [by intros ?%elem_of_nil|by intros (? & ?%elem_of_nil & _)]|].
  rewrite fmap_cons. cbn [concat]. rewrite elem_of_app, IH. split.
  - intros [?|(f & ? & ?)]; [exists h; split; [by left|done]|exists f; split; [by right|done]].
  - intros (f & [->|?]%elem_of_cons & ?); [by left|right; by exists f].
Qed.

(** A byte is in one fragment only. *)
Lemma same_fragment (l : list Fragment) f g k : NoDup (concat (fkeys <$> l)) → f ∈ l → g ∈ l → k ∈ fkeys f → k ∈ fkeys g → f = g.
Proof.
  induction l as [|h l IH]; [by intros _ ?%elem_of_nil|]. rewrite fmap_cons. cbn [concat]. intros (_ & Hd & Hnd)%NoDup_app.
  assert (∀ x, x ∈ l → k ∈ fkeys x → k ∈ concat (fkeys <$> l)) as Hc.
  { intros x Hx Hk. apply all_keys_elem. by exists x. }
  intros [->|Hf]%elem_of_cons [->|Hg]%elem_of_cons Hkf Hkg; [done|..|by apply IH]; exfalso; eapply Hd; eauto.
Qed.

(** ** The invariant *)

Definition scells (s : BufferSnapshot) : list Cell := cells (fragments s) (visible_text s) (deleted_text s).

(** Visible: the insertion is not undone, and every deletion is. *)
Definition shown (m : UndoTree) (c : Cell) : bool :=
  negb (odd_count m (c_timestamp c)) && forallb (odd_count m) (c_deletions c).

(** The edit inserted or deleted the byte. *)
Definition concerns (e : Lamport) (c : Cell) : Prop := e = c_timestamp c ∨ e ∈ c_deletions c.
(** The slice is one of the edit and covers the byte. *)
Definition covers (sl : InsertionSlice) (e : Lamport) (c : Cell) : Prop :=
  slice_edit_id sl = e ∧ slice_insertion_id sl = c_timestamp c ∧ slice_start sl ≤ c_offset c < slice_end sl.

(** Every undo operation recorded for an edit of the byte is known to its
    fragment: what [max_version] promises. *)
Definition recorded (m : UndoTree) (c : Cell) : Prop :=
  ∀ x, x ∈ items m → concerns (UndoMap.edit_id (UndoMap.entry_key x)) c → observed (c_undos c) (UndoMap.undo_id (UndoMap.entry_key x)) = true.

(** [base]: the timestamp of the base text, which has no slices. *)
Record cell_ok (base : option Lamport) (v : Global) (m : UndoTree) (slices : list InsertionSlice) (c : Cell) : Prop := {
  co_stamp : insertion_stamp (c_timestamp c);
  co_observed : observed v (c_timestamp c) = true;
  co_deletions : Forall (λ d, observed v d = true) (c_deletions c);
  co_visible : c_visible c = shown m c;
  co_slices e : concerns e c → Some e ≠ base → ∃ sl, sl ∈ slices ∧ covers sl e c;
}.

Record state_ok (TREE_BASE : nat) (base : option Lamport) (s : BufferSnapshot) : Prop := {
  so_buffer : buffer_ok (fragments s) (visible_text s) (deleted_text s);
  so_keys : NoDup (ckey <$> scells s);
  so_order : StronglySorted in_order (ckey <$> scells s);
  so_complete k j : k ∈ ckey <$> scells s → j ≤ k.2 → (k.1, j) ∈ ckey <$> scells s;
  so_cells : Forall (cell_ok base (version s) (undo_map s) (slices_in (insertion_slices s))) (scells s);
  so_version : Global_wf (version s);
  so_undo_tree : wf_tree TREE_BASE (undo_map s) ∧ ksorted (items (undo_map s));
  so_undone x : x ∈ items (undo_map s) → observed (version s) (UndoMap.edit_id (UndoMap.entry_key x)) = true ∧
    observed (version s) (UndoMap.undo_id (UndoMap.entry_key x)) = true;
  so_insertions : wf_tree TREE_BASE (insertions s) ∧ ksorted (items (insertions s));
  so_indexed f : f ∈ fragments s → new_insertion f ∈ items (insertions s);
  so_exact x : x ∈ items (insertions s) → ∃ f, f ∈ fragments s ∧ x = new_insertion f;
  so_slices : wf_tree TREE_BASE (insertion_slices s) ∧ ksorted (items (insertion_slices s));
  so_positive : Forall (λ sl, (0 < value (slice_insertion_id sl))%N) (slices_in (insertion_slices s));
  so_recorded : Forall (recorded (undo_map s)) (scells s);
}.

(** The trees are low enough for a cursor's stack. *)
Definition shallow (TREE_BASE : nat) (s : BufferSnapshot) : Prop :=
  walkable TREE_BASE (insertions s) ∧ walkable TREE_BASE (insertion_slices s) ∧ walkable TREE_BASE (undo_map s).

(** ** Observing *)

Lemma observe_observed v t : (0 < value t)%N → observed (observe v t) t = true.
Proof. intros H. unfold observed. apply N.leb_le. rewrite get_at, observe_at. case_decide; [lia|done]. Qed.
Lemma observe_mono v t u : observed v u = true → observed (observe v t) u = true.
Proof. unfold observed. rewrite !N.leb_le, !get_at, observe_at. case_decide; lia. Qed.

(** ** Updating the indices *)

#[local] Instance InsertionSlice_eq_dec : EqDecision InsertionSlice.
Proof. solve_decision. Defined.

Section indices.
Context (TREE_BASE : nat) (HB : 1 ≤ TREE_BASE).

Lemma insert_slices_ok (t : SliceSet) sls :
  walkable TREE_BASE t → ksorted (items t) → NoDup sls →
  ∃ u, TreeMap.map_extend TREE_BASE t ((λ x, (x, ())) <$> sls) = Some u ∧ wf_tree TREE_BASE u ∧ ksorted (items u) ∧
    ∀ sl, sl ∈ slices_in u ↔ sl ∈ sls ∨ sl ∈ slices_in t.
Proof.
  intros Hw Hs Hnd. unfold TreeMap.map_extend. rewrite <- list_fmap_compose.
  set (xs := (λ x, TreeMap.mkEntry x ()) <$> sls).
  assert (NoDup (key <$> xs)) as Hnd'.
  { unfold xs. rewrite <- list_fmap_compose. apply NoDup_fmap_2; [by intros ?? [=]|done]. }
  destruct (insert_all_ok TREE_BASE t xs HB (TreeMap.keyed_ordered TREE_BASE t Hw Hs) Hnd') as (rm & u & E & Hu & Hsu & Hi).
  { apply Forall_forall. intros [k []] _. apply TreeMap.none_le. }
  assert (((λ e : InsertionSlice * (), Insert (TreeMap.mkEntry e.1 e.2)) ∘ (λ x, (x, ()))) <$> sls = Insert <$> xs) as ->
    by (unfold xs; by rewrite <- list_fmap_compose).
  rewrite E. cbn [mbind option_bind]. exists u. split_and!; [done..|].
  intros sl. unfold slices_in. rewrite !list_elem_of_fmap. split.
  - intros ([k []] & -> & [Hx|[Hx _]]%Hi); [left|right; by eexists].
    apply list_elem_of_fmap in Hx as (x & [= ->] & Hx). done.
  - intros Hor. exists (TreeMap.mkEntry sl ()). split; [done|]. apply Hi.
    destruct (decide (sl ∈ sls)) as [Hin|Hnin]; [left; apply list_elem_of_fmap; by exists sl|].
    right. destruct Hor as [?|([k []] & -> & Hx)]; [done|]. split; [done|].
    intros y (x & -> & Hx')%list_elem_of_fmap [= ->]. done.
Qed.

Record updated_indices (s s' : BufferSnapshot) (ins : list InsertionFragment) (sls : list InsertionSlice) : Prop := {
  ui_same : s' = with_indices s (insertions s') (insertion_slices s');
  ui_insertions : wf_tree TREE_BASE (insertions s') ∧ ksorted (items (insertions s'));
  ui_slices : wf_tree TREE_BASE (insertion_slices s') ∧ ksorted (items (insertion_slices s'));
  ui_insertion_items x : x ∈ items (insertions s') ↔ x ∈ ins ∨ (x ∈ items (insertions s) ∧ ∀ y, y ∈ ins → key y ≠ key x);
  ui_slice_items sl : sl ∈ slices_in (insertion_slices s') ↔ sl ∈ sls ∨ sl ∈ slices_in (insertion_slices s);
}.

Lemma update_indices_ok s ins sls :
  walkable TREE_BASE (insertions s) → ksorted (items (insertions s)) →
  walkable TREE_BASE (insertion_slices s) → ksorted (items (insertion_slices s)) →
  NoDup (key <$> ins) → NoDup sls →
  ∃ s', update_indices TREE_BASE s ins sls = Some s' ∧ updated_indices s s' ins sls.
Proof.
  intros Hwi Hsi Hws Hss Hni Hns. unfold update_indices.
  assert (keyed TREE_BASE (insertions s)) as Hk by (split_and!; [done|done|apply insertions_below]).
  destruct (insert_all_ok TREE_BASE (insertions s) ins HB Hk Hni) as (rm & i & -> & Hi & Hsi' & Hii).
  { apply Forall_forall. intros x _. apply zero_insertion_le. }
  cbn [mbind option_bind].
  destruct (insert_slices_ok (insertion_slices s) sls Hws Hss Hns) as (k & -> & Hk' & Hsk & Hki). cbn [mbind option_bind].
  eexists. split; [done|]. by split.
Qed.
End indices.

Lemma fmap_sublist {A B} (g : A → B) l k : l `sublist_of` k → (g <$> l) `sublist_of` (g <$> k).
Proof. induction 1; rewrite ?fmap_cons; by constructor. Qed.

(** What a pass lists has different keys. *)
Lemma tracked_nodup ts old fr ins sls off :
  NoDup (fkey <$> fr) → tracked ts old (mkInsertion off fr ins sls) → NoDup (key <$> ins) ∧ NoDup sls.
Proof.
  intros Hnd [_ Hi Hs _]. cbn [in_fragments in_insertions in_slices] in *. split.
  - eapply sublist_NoDup; [|apply fmap_sublist, Hi]. rewrite <- list_fmap_compose.
    apply (NoDup_fmap_1 (λ k : InsertionFragmentKey, (k_timestamp k, k_split_offset k))). by rewrite <- list_fmap_compose.
  - eapply sublist_NoDup; [|exact Hs].
    apply (NoDup_fmap_1 (λ s : InsertionSlice, (slice_insertion_id s, slice_start s))). by rewrite <- list_fmap_compose.
Qed.

(** The fragments of the result are in the insertion index. *)
Lemma tracked_indexed ts old fr ins sls off (l l' : list InsertionFragment) f :
  NoDup (fkey <$> fr) → tracked ts old (mkInsertion off fr ins sls) →
  (∀ f, f ∈ old → new_insertion f ∈ l) → (∀ x, x ∈ l' ↔ x ∈ ins ∨ (x ∈ l ∧ ∀ y, y ∈ ins → key y ≠ key x)) →
  f ∈ fr → new_insertion f ∈ l'.
Proof.
  intros Hnd Ht Hl Hl' Hf. apply Hl'. destruct (tracked_nodup _ _ _ _ _ _ Hnd Ht) as [Hni _]. destruct Ht as [Hix Hi _ _].
  cbn [in_fragments in_insertions in_slices] in *. destruct (Hix f Hf) as [Ho|?]; [|by left].
  assert (Decision (fkey f ∈ ((λ x : InsertionFragment, (if_timestamp x, split_offset x)) <$> ins))) as [Hin|Hnin] by apply _.
  - left. apply list_elem_of_fmap in Hin as (x & Hx & Hin). assert (x ∈ new_insertion <$> fr) as Hxf by by eapply elem_of_sublist.
    apply list_elem_of_fmap in Hxf as (g & -> & Hg). assert (g = f) as ->; [|done].
    apply list_elem_of_lookup in Hg as [i Hgi], Hf as [j Hfj].
    assert (i = j) as <-; [|congruence]. eapply (NoDup_lookup (fkey <$> fr)); [done| |]; rewrite list_lookup_fmap.
    + by rewrite Hgi.
    + rewrite Hfj. simpl. by rewrite Hx.
  - right. split; [by apply Hl|]. intros y Hy Hky. apply Hnin, list_elem_of_fmap. exists y. split; [|done].
    by injection Hky as -> ->.
Qed.

(** And nothing else is: a part of an old fragment that holds its first byte
    starts where it starts, so the entry of a split fragment is replaced. *)
Lemma tracked_exact ts (old fr : list Fragment) ins sls off f :
  Forall (λ f, ¬ marked ts f) old → Forall frag_ok old → NoDup (concat (fkeys <$> old)) →
  concat (fkeys <$> old) ⊆ concat (fkeys <$> fr) →
  tracked ts old (mkInsertion off fr ins sls) → f ∈ old → (∀ y, y ∈ ins → key y ≠ key (new_insertion f)) → f ∈ fr.
Proof.
  intros Hold Hlen Hnd Hsub [Hix _ _ _ Hkn] Hf Hkey. cbn [in_fragments in_insertions in_slices] in *.
  rewrite Forall_forall in Hold, Hlen. destruct (Hlen f Hf) as [H0 _].
  assert (fkey f ∈ fkeys f) as Hfk by (apply fkeys_elem; cbn; split; [done|lia]).
  assert (fkey f ∈ concat (fkeys <$> fr)) as Hin.
  { apply Hsub, all_keys_elem. by exists f. }
  apply all_keys_elem in Hin as (g & Hg & Hk).
  destruct (Hix g Hg) as [Ho|Hi]; [by rewrite (same_fragment old f g (fkey f))|]. exfalso.
  apply fkeys_elem in Hk as [Ht Hk]. cbn in Ht, Hk. destruct (Hkn g Hg) as [Hts|(f' & Hf' & Htf & Hlo & Hhi)].
  { apply (Hold f Hf). left. congruence. }
  assert (f' = f) as ->.
  { apply (same_fragment old f' f (fkey f)); [done..| |done]. apply fkeys_elem. cbn. split; [congruence|lia]. }
  apply (Hkey (new_insertion g) Hi). cbn. f_equal; [done|lia].
Qed.

(** ** An edit keeps the invariant *)

Section edit.
Context (TREE_BASE : nat) (HB : 1 ≤ TREE_BASE) (base : option Lamport) (s : BufferSnapshot) (ts : Lamport).
Context (Hs : state_ok TREE_BASE base s) (Hw : shallow TREE_BASE s).
Context (Hts : insertion_stamp ts) (Hnew : observed (version s) ts = false).

Local Abbreviation cell_ok' := (cell_ok base (version s) (undo_map s) (slices_in (insertion_slices s))).

(** Nothing knows the operation yet. *)
Lemma not_undone : odd_count (undo_map s) ts = false.
Proof.
  unfold odd_count. assert (UndoMap.max_count (λ _, true) ts (items (undo_map s)) = 0%N) as ->; [|done].
  apply N.le_0_r, UndoMap.max_count_le. intros e He Hid _. apply (so_undone _ _ _ Hs) in He as [He _]. congruence.
Qed.

Lemma old_cells c : c ∈ scells s → cell_ok' c.
Proof. pose proof (so_cells _ _ _ Hs) as H. rewrite Forall_forall in H. apply H. Qed.

Lemma old_timestamps : Forall (λ c, c_timestamp c ≠ ts) (scells s).
Proof. apply Forall_forall. intros c Hc Heq. pose proof (co_observed _ _ _ _ _ (old_cells c Hc)). congruence. Qed.

Lemma old_unmarked : Forall (λ f, ¬ marked ts f) (fragments s).
Proof.
  apply Forall_forall. intros f Hf Hm. destruct (first_cell _ _ _ f (so_buffer _ _ _ Hs) Hf) as [b Hc].
  pose proof (old_cells _ Hc) as [_ Ho Hd _ _]. cbn in Ho, Hd. rewrite Forall_forall in Hd.
  destruct Hm as [Heq|Hin]; [congruence|]. specialize (Hd ts Hin). congruence.
Qed.

(** The bytes the operation touches, with what their slices were. *)
Definition kept_ok (c : Cell) : Prop :=
  insertion_stamp (c_timestamp c) ∧ observed (observe (version s) ts) (c_timestamp c) = true ∧
  Forall (λ d, observed (observe (version s) ts) d = true) (c_deletions c) ∧ c_visible c = shown (undo_map s) c ∧
  ∀ e, e ≠ ts → concerns e c → Some e ≠ base → ∃ sl, sl ∈ slices_in (insertion_slices s) ∧ covers sl e c.

Lemma kept_cells opv was pos off edits : Forall kept_ok (remote_cells opv ts was pos off edits (scells s)).
Proof.
  pose proof not_undone as Hodd. apply (remote_cells_Forall opv ts was cell_ok').
  - apply Hs.
  - intros c [H1 H2 H3 H4 H5]. refine (conj H1 (conj (observe_mono _ _ _ H2) (conj _ (conj H4 _)))).
    + eapply Forall_impl; [exact H3|]. intros d. apply observe_mono.
    + intros e _. apply H5.
  - intros c [H1 H2 H3 H4 H5]. unfold remote_delete.
    assert (Forall (λ d, observed (observe (version s) ts) d = true) (c_deletions c)) as H3'.
    { eapply Forall_impl; [exact H3|]. intros d. apply observe_mono. }
    destruct (_ && _); [|refine (conj H1 (conj (observe_mono _ _ _ H2) (conj H3' (conj H4 _)))); intros e _; apply H5].
    refine (conj H1 (conj (observe_mono _ _ _ H2) (conj _ (conj _ _)))); cbn.
    + apply Forall_app. split; [done|]. constructor; [|done]. by apply observe_observed, Hts.
    + unfold shown. cbn. rewrite forallb_app. cbn. by rewrite Hodd, !andb_false_r.
    + intros e Hne Hc Hb. destruct (H5 e) as (sl & ? & ? & ? & ?); [|done|by exists sl].
      destruct Hc as [?|[?|Heq%list_elem_of_singleton]%elem_of_app]; [by left|by right|done].
  - intros o b. refine (conj Hts (conj (observe_observed _ _ (proj2 Hts)) (conj (Forall_nil_2 _) (conj _ _)))); cbn.
    { unfold shown. cbn. by rewrite Hodd. }
    intros e Hne [?|?%elem_of_nil]; done.
Qed.

(** No undo operation is recorded for the operation's bytes and deletions. *)
Lemma kept_recorded opv was pos off edits : Forall (recorded (undo_map s)) (remote_cells opv ts was pos off edits (scells s)).
Proof.
  assert (∀ x, x ∈ items (undo_map s) → UndoMap.edit_id (UndoMap.entry_key x) ≠ ts) as Hno.
  { intros x Hx Heq. apply (so_undone _ _ _ Hs) in Hx as [Hx _]. congruence. }
  apply (remote_cells_Forall opv ts was (recorded (undo_map s))); [apply Hs|done|..].
  - intros c Hc x Hx Hcon. unfold remote_delete in *. destruct (_ && _); [|by apply Hc]. cbn. apply Hc; [done|].
    destruct Hcon as [?|[?|Heq%list_elem_of_singleton]%elem_of_app]; [by left|by right|by destruct (Hno x Hx)].
  - intros o b x Hx [Heq|Hin%elem_of_nil]; [by destruct (Hno x Hx)|done].
Qed.

(** The slices of the operation itself. *)
Lemma own_slices fr V' D' ins sls c :
  buffer_ok fr V' D' → tracked ts (fragments s) (mkInsertion 0 fr ins sls) → c ∈ cells fr V' D' → concerns ts c →
  ∃ sl, sl ∈ sls ∧ covers sl ts c.
Proof.
  intros Hok [_ _ _ Hm] Hc Hcon. destruct (cell_fragment _ _ _ _ Hc) as (f & i & b & Hf & -> & Hi).
  pose proof (ok_frags _ _ _ Hok) as Hfr. rewrite Forall_forall in Hfr. destruct (Hfr f Hf) as [_ H32].
  exists (from_fragment ts f). split.
  - apply (Hm f Hf). destruct Hcon as [?|?]; [by left|by right].
  - unfold covers, from_fragment. cbn. rewrite (as_u32_small _ H32). split_and!; [done|done|lia|lia].
Qed.

Lemma edit_state_ok opv was pos edits fr V' D' ins sls :
  buffer_ok fr V' D' → cells fr V' D' = remote_cells opv ts was pos 0 edits (scells s) →
  tracked ts (fragments s) (mkInsertion 0 fr ins sls) →
  ∃ s', update_indices TREE_BASE (with_texts s fr V' D') ins sls = Some s' ∧
    updated_indices TREE_BASE (with_texts s fr V' D') s' ins sls ∧
    state_ok TREE_BASE base (with_version s' (observe (version s) ts)).
Proof.
  intros Hok Hcells Ht. destruct Hw as (Hwi & Hws & Hwu).
  assert (NoDup (ckey <$> cells fr V' D')) as Hnd by (rewrite Hcells; apply remote_cells_nodup; [apply Hs|apply old_timestamps]).
  assert (NoDup (fkey <$> fr)) as Hndf by (eapply sublist_NoDup; [exact Hnd|by apply fragment_keys]).
  destruct (tracked_nodup _ _ _ _ _ _ Hndf Ht) as [Hni Hns].
  destruct (update_indices_ok TREE_BASE HB (with_texts s fr V' D') ins sls Hwi (proj2 (so_insertions _ _ _ Hs)) Hws
    (proj2 (so_slices _ _ _ Hs)) Hni Hns) as (s' & E & Hu). exists s'. split; [done|]. split; [done|].
  destruct Hu as [-> Hi Hsl Hii Hsi]. cbn in *.
  split; cbn; try done.
  - unfold scells. cbn. rewrite Hcells. apply remote_cells_order; [apply Hs|apply old_timestamps].
  - unfold scells. cbn. rewrite Hcells. intros k j. rewrite remote_cells_keys, !elem_of_app.
    intros [Hk|(i & -> & Hio%elem_of_seq)%list_elem_of_fmap] Hj; [left; by apply (so_complete _ _ _ Hs k)|right].
    apply list_elem_of_fmap. exists j. split; [done|]. cbn in Hj. apply elem_of_seq. lia.
  - apply Forall_forall. intros c Hc. pose proof (kept_cells opv was pos 0 edits) as Hk. unfold scells in Hc. cbn in Hc.
    rewrite Hcells in Hc. rewrite Forall_forall in Hk. destruct (Hk c Hc) as (H1 & H2 & H3 & H4 & H5). split; [done..|].
    intros e Hcon Hb. destruct (decide (e = ts)) as [->|Hne].
    + rewrite <- Hcells in Hc. destruct (own_slices _ _ _ _ _ c Hok Ht Hc Hcon) as (sl & ? & ?).
      exists sl. split; [apply Hsi; by left|done].
    + destruct (H5 e Hne Hcon Hb) as (sl & ? & ?). exists sl. split; [apply Hsi; by right|done].
  - apply observe_wf; [apply Hs|apply Hts].
  - apply Hs.
  - intros x Hx. destruct (so_undone _ _ _ Hs x Hx). split; by apply observe_mono.
  - intros f Hf. by apply (tracked_indexed ts (fragments s) fr ins sls 0 (items (insertions s)) _ f Hndf Ht (so_indexed _ _ _ Hs) Hii).
  - intros x [Hx|[Hx Hkx]]%Hii.
    + pose proof (t_insertions _ _ _ Ht) as Hsub. cbn in Hsub. assert (x ∈ new_insertion <$> fr) as Hxf by by eapply elem_of_sublist.
      apply list_elem_of_fmap in Hxf as (f & -> & Hf). by exists f.
    + destruct (so_exact _ _ _ Hs x Hx) as (f & Hf & ->). exists f. split; [|done].
      pose proof (cells_keys _ _ _ (so_buffer _ _ _ Hs)) as Hck. fold (scells s) in Hck.
      apply (tracked_exact ts (fragments s) fr ins sls 0 f old_unmarked (ok_frags _ _ _ (so_buffer _ _ _ Hs)));
        [rewrite <- Hck; apply Hs| |done..].
      rewrite <- Hck, <- (cells_keys _ _ _ Hok), Hcells, remote_cells_keys. intros k Hk. apply elem_of_app. by left.
  - apply Forall_forall. intros sl [Hsl'|Hsl']%Hsi; [|pose proof (so_positive _ _ _ Hs) as Hp; rewrite Forall_forall in Hp; by apply Hp].
    destruct Ht as [_ _ Hss _]. cbn in Hss. assert (sl ∈ from_fragment ts <$> fr) as Hin by by eapply elem_of_sublist.
    apply list_elem_of_fmap in Hin as (f & -> & Hf). cbn. destruct (first_cell _ _ _ f Hok Hf) as [b Hc]. rewrite Hcells in Hc.
    pose proof (kept_cells opv was pos 0 edits) as Hk. rewrite Forall_forall in Hk. destruct (Hk _ Hc) as ([_ Hv] & _). exact Hv.
  - unfold scells. cbn. rewrite Hcells. apply kept_recorded.
Qed.
End edit.

(** ** An undo keeps the invariant *)

Section undo.
Context (TREE_BASE : nat) (HB : 1 ≤ TREE_BASE) (base : option Lamport) (s : BufferSnapshot) (u : UndoOperation).
Context (Hs : state_ok TREE_BASE base s) (Hw : shallow TREE_BASE s).
Let ts : Lamport := UndoMap.timestamp u.
Context (Hts : insertion_stamp ts).
Context (Hcounts : ∀ e, is_Some (counts u !! e) → observed (version s) e = true ∧ Some e ≠ base).

(** Edits the operation does not name keep their count. *)
Lemma odd_count_same m' e : insert_undo TREE_BASE (undo_map s) u = Some m' → counts u !! e = None →
  odd_count m' e = odd_count (undo_map s) e.
Proof.
  intros E He. destruct (insert_undo_ok TREE_BASE (undo_map s) u HB (proj2 (proj2 Hw)) (proj2 (so_undo_tree _ _ _ Hs)))
    as (m1 & E1 & _ & _ & Hin). simplify_eq. unfold odd_count. f_equal. apply N.le_antisymm; apply max_count_le.
  - intros x [[_ Hc]|[Hx _]]%Hin Hid _; [congruence|]. by apply (proj1 (max_count_le (λ _, true) e (items (undo_map s)) _) (N.le_refl _)).
  - intros x Hx Hid _. apply (proj1 (max_count_le (λ _, true) e (items m') _) (N.le_refl _)); [|done|done]. apply Hin. right.
    split; [done|]. intros [_ [c Hc]]. congruence.
Qed.

(** The fragments of the edits the operation names are found. *)
Lemma undo_finds_named (ids : list Locator.Locator) f :
  (∀ i, i ∈ ids ↔ ∃ sl x, sl ∈ slices_in (insertion_slices s) ∧ slice_edit_id sl ∈ (map_to_list (counts u)).*1 ∧
     x ∈ items (insertions s) ∧ in_slice sl x ∧ i = fragment_id x) →
  f ∈ fragments s → Exists (λ e, is_Some (counts u !! e)) (f_timestamp f :: deletions f) → f_id f ∈ ids.
Proof.
  intros Hids Hf (e & Hin & He)%Exists_exists. destruct (first_cell _ _ _ f (so_buffer _ _ _ Hs) Hf) as [b Hc].
  pose proof (so_cells _ _ _ Hs) as Hok. rewrite Forall_forall in Hok. destruct (Hok _ Hc) as [_ _ _ _ Hsl].
  destruct (Hsl e) as (sl & Hslin & Hcov); [by apply elem_of_cons in Hin|by apply Hcounts|].
  destruct Hcov as (He' & Hid & Hoff). cbn in Hid, Hoff. apply Hids. exists sl, (new_insertion f). split; [done|]. split.
  { rewrite He', list_elem_of_fmap. destruct He as [c He]. exists (e, c). split; [done|by apply elem_of_map_to_list]. }
  split; [by apply (so_indexed _ _ _ Hs)|]. split; [split; [done|cbn; lia]|done].
Qed.

(** The others keep their visibility. *)
Lemma undo_finds m' (ids : list Locator.Locator) f :
  insert_undo TREE_BASE (undo_map s) u = Some m' → walkable TREE_BASE m' → ksorted (items m') →
  (∀ i, i ∈ ids ↔ ∃ sl x, sl ∈ slices_in (insertion_slices s) ∧ slice_edit_id sl ∈ (map_to_list (counts u)).*1 ∧
     x ∈ items (insertions s) ∧ in_slice sl x ∧ i = fragment_id x) →
  f ∈ fragments s → f_id f ∈ ids ∨ is_visible f m' = Some (visible f).
Proof.
  intros E Hwm Hsm Hids Hf. destruct (first_cell _ _ _ f (so_buffer _ _ _ Hs) Hf) as [b Hc].
  pose proof (so_cells _ _ _ Hs) as Hok. rewrite Forall_forall in Hok. destruct (Hok _ Hc) as [_ _ _ Hvis _].
  destruct (decide (Exists (λ e, is_Some (counts u !! e)) (f_timestamp f :: deletions f))) as [Hex|Hno].
  - left. by apply undo_finds_named.
  - right. rewrite (is_visible_spec TREE_BASE m' Hwm Hsm f). f_equal. cbn in Hvis. rewrite Hvis. unfold shown. cbn.
    assert (∀ e, e ∈ f_timestamp f :: deletions f → odd_count m' e = odd_count (undo_map s) e) as Hsame.
    { intros e He. apply odd_count_same; [done|]. apply eq_None_not_Some. intros Hsome. apply Hno, Exists_exists. by exists e. }
    f_equal; [f_equal; apply Hsame; by left|]. assert (∀ e, e ∈ deletions f → odd_count m' e = odd_count (undo_map s) e) as Hd
      by (intros e He; apply Hsame; by right).
    clear -Hd. induction (deletions f) as [|d l IH]; [done|]. cbn. rewrite Hd by by left. f_equal. apply IH.
    intros e He. apply Hd. by right.
Qed.

(** What an undo leaves: the same bytes, shown by the new counts. *)
Record undone (s' : BufferSnapshot) (m' : UndoTree) (p : Patch) : Prop := {
  un_state : state_ok TREE_BASE base s';
  un_bytes : Forall2 same_byte (scells s) (scells s');
  un_shown : Forall (λ c, c_visible c = shown m' c) (scells s');
  un_patch : describes 0 0 p (visible_text s) (visible_text s') ∧ normalized p;
}.

Lemma same_byte_key c c' : same_byte c c' → ckey c = ckey c'.
Proof. unfold same_byte, ckey. intros (-> & -> & _). done. Qed.

(** A fragment after the undo knows what was recorded before and the undo. *)
Lemma updated_recorded m' ids f f' i b :
  insert_undo TREE_BASE (undo_map s) u = Some m' →
  (∀ i, i ∈ ids ↔ ∃ sl x, sl ∈ slices_in (insertion_slices s) ∧ slice_edit_id sl ∈ (map_to_list (counts u)).*1 ∧
     x ∈ items (insertions s) ∧ in_slice sl x ∧ i = fragment_id x) →
  f ∈ fragments s → updated m' ts ids f f' → recorded m' (cell_of f' i b).
Proof.
  intros E Hids Hf Hup x Hx Hcon. destruct (updated_same m' ts ids f f' Hup) as (_ & _ & _ & Ht & Hd).
  assert (concerns (UndoMap.edit_id (UndoMap.entry_key x)) (cell_of f 0 b)) as Hcf by (unfold concerns in *; cbn in *; by rewrite <- Ht, <- Hd).
  destruct (insert_undo_ok TREE_BASE (undo_map s) u HB (proj2 (proj2 Hw)) (proj2 (so_undo_tree _ _ _ Hs))) as (m1 & E1 & _ & _ & Hin).
  simplify_eq. apply Hin in Hx as [[Hid Hc]|[Hx _]].
  - destruct Hup as [Hr|[-> Hni]].
    + unfold refresh in Hr. destruct (is_visible f m') as [v|]; [|done]. injection Hr as <-. cbn. rewrite Hid. by apply observe_observed, Hts.
    + exfalso. apply Hni. apply (undo_finds_named ids f Hids Hf), Exists_exists. exists (UndoMap.edit_id (UndoMap.entry_key x)). split; [|by eexists].
      destruct Hcf as [->|?]; [by left|by right].
  - destruct (first_cell _ _ _ f (so_buffer _ _ _ Hs) Hf) as [b' Hc']. pose proof (so_recorded _ _ _ Hs) as Hrec. rewrite Forall_forall in Hrec.
    specialize (Hrec _ Hc' x Hx Hcf). cbn in Hrec |- *.
    destruct Hup as [Hr|[-> _]]; [|done]. unfold refresh in Hr. destruct (is_visible f m'); [|done]. injection Hr as <-. cbn. by apply observe_mono.
Qed.

Lemma undo_state_ok :
  (∀ m', insert_undo TREE_BASE (undo_map s) u = Some m' → walkable TREE_BASE m') →
  ∃ m' r, apply_undo TREE_BASE (fragments s) (visible_text s) (deleted_text s) (undo_map s) (insertion_slices s) (insertions s) u = Some (m', r) ∧
    insert_undo TREE_BASE (undo_map s) u = Some m' ∧
    undone (with_version (with_undo_map (with_texts s (ur_fragments r) (ur_visible_text r) (ur_deleted_text r)) m') (observe (version s) ts))
      m' (ur_patch r).
Proof.
  intros Hwm. destruct Hw as (Hwi & Hws & Hwu).
  destruct (insert_undo_ok TREE_BASE (undo_map s) u HB Hwu (proj2 (so_undo_tree _ _ _ Hs))) as (m' & E & Hm' & Hsm' & Hin).
  specialize (Hwm m' E). unfold apply_undo. rewrite E. cbn [mbind option_bind].
  destruct (fragment_ids_ok TREE_BASE (insertion_slices s) (insertions s) (map_to_list (counts u)).*1
    (conj Hws (proj2 (so_slices _ _ _ Hs))) Hwi (proj2 (so_insertions _ _ _ Hs)) (so_positive _ _ _ Hs)) as (ids & -> & Hsort & Hids & _).
  cbn [mbind option_bind].
  assert (StronglySorted id_le ids) as Hss by (apply Sorted_StronglySorted; [intros i j k; apply cmp_le_trans|done]).
  destruct (undo_recompute_ok TREE_BASE m' (UndoMap.timestamp u) ids (visible_text s) (deleted_text s) (fragments s) Hwm Hsm' (so_buffer _ _ _ Hs) Hss)
    as (r & -> & Hok & Hvis & Hsame & Hp & Hn & Hins & Hup).
  { intros f Hf. by apply (undo_finds m'). }
  cbn [mbind option_bind]. exists m', r. split; [done|]. split; [done|].
  assert (Forall (λ c, c_visible c = shown m' c) (cells (ur_fragments r) (ur_visible_text r) (ur_deleted_text r))) as Hshown.
  { apply cells_forall, Forall_forall. intros f Hf i b. cbn. by apply Hvis. }
  assert (ckey <$> scells s = ckey <$> cells (ur_fragments r) (ur_visible_text r) (ur_deleted_text r)) as Heq.
  { apply list_eq_Forall2, Forall2_fmap. eapply Forall2_impl; [exact Hsame|]. apply same_byte_key. }
  split; [|exact Hsame|exact Hshown|done]. split; cbn; try done; try apply Hs.
  - unfold scells. cbn. rewrite <- Heq. apply Hs.
  - unfold scells. cbn. rewrite <- Heq. apply Hs.
  - unfold scells. cbn. rewrite <- Heq. apply Hs.
  - unfold scells. cbn. apply Forall_forall. intros c' Hc'. rewrite Forall_forall in Hshown. specialize (Hshown c' Hc').
    apply list_elem_of_lookup in Hc' as [i Hi]. destruct (Forall2_lookup_r _ _ _ _ _ Hsame Hi) as (c & Hc & Hcc).
    pose proof (so_cells _ _ _ Hs) as Hok'. rewrite Forall_forall in Hok'. destruct (Hok' c (list_elem_of_lookup_2 _ _ _ Hc)) as [H1 H2 H3 _ H5].
    destruct Hcc as (Et & Eo & _ & Ed). split; rewrite <- ?Et, <- ?Ed; [done|by apply observe_mono| |done|].
    + eapply Forall_impl; [exact H3|]. intros d. apply observe_mono.
    + intros e Hcon. unfold concerns, covers in *. rewrite <- Et, <- ?Ed, <- Eo in *. by apply H5.
  - apply observe_wf; [apply Hs|apply Hts].
  - intros x [[Hid Hc]|[Hx _]]%Hin.
    + split; [|rewrite Hid; by apply observe_observed, Hts]. apply observe_mono, (Hcounts (UndoMap.edit_id (UndoMap.entry_key x))). by eexists.
    + destruct (so_undone _ _ _ Hs x Hx). split; by apply observe_mono.
  - intros f' Hf'. apply list_elem_of_lookup in Hf' as [i Hi]. destruct (Forall2_lookup_r _ _ _ _ _ Hins Hi) as (f & Hf & Hff).
    rewrite <- Hff. by apply (so_indexed _ _ _ Hs), list_elem_of_lookup_2 with i.
  - intros x Hx. destruct (so_exact _ _ _ Hs x Hx) as (f & Hf & ->). apply list_elem_of_lookup in Hf as [i Hi].
    destruct (Forall2_lookup_l _ _ _ _ _ Hins Hi) as (f' & Hf' & Hff). exists f'. split; [by apply list_elem_of_lookup_2 with i|done].
  - unfold scells. cbn. apply cells_forall, Forall_forall. intros f' Hf' i b. apply list_elem_of_lookup in Hf' as [n Hf'].
    destruct (Forall2_lookup_r _ _ _ _ _ Hup Hf') as (f & Hf & Hff). apply list_elem_of_lookup_2 in Hf. by eapply updated_recorded.
Qed.
End undo.
