(* ===== verification/BufferOk.v ===== *)
(** * Operations on a whole buffer

    Applying a remote operation whose dependencies have arrived never fails
    and keeps the invariant of the buffer, including its subscriptions. *)

From S2P Require Import Prelude Clock Text SumTree Cursor KeyedTree UndoMap OperationQueue Subscription Patch Fragment Cells BufferInv LocalEdit Undo UndoIndex RemoteCells RemoteEdit RemoteEditOk Tracking Converge Waiters Buffer BufferState.
From S2P Require Locator TreeMap History HistoryEdits.

#[local] Existing Instance TreeMap.option_Ord.
#[local] Existing Instance TreeMap.MapKey_Summary.
#[local] Existing Instance TreeMap.MapEntry_Item.
#[local] Existing Instance TreeMap.MapKey_Dimension.
#[local] Existing Instance TreeMap.MapEntry_KeyedItem.

Record buffer_inv (TREE_BASE : nat) (base : option Lamport) (b : Buffer) : Prop := {
  bi_state : state_ok TREE_BASE base (snapshot b);
  bi_subscribers : ∃ sn, consistent (mkWorld (topic b) (heap b) (visible_text (snapshot b)) sn);
}.

(** An operation that can be applied to a snapshot: its version is complete
    and its ranges are inside the text of that version. *)
Record edit_valid_at (s : BufferSnapshot) (e : EditOperation) : Prop := {
  ev_stamp : insertion_stamp (eo_timestamp e);
  ev_version : Global_wf (eo_version e);
  ev_later : Forall (λ v, v < value (eo_timestamp e))%N (values (eo_version e));
  ev_lengths : length (eo_ranges e) = length (eo_new_text e);
  ev_ranges : redits_valid (wlen (eo_version e) (fragments s)) 0 0 (remote_ops (eo_ranges e) (eo_new_text e));
}.
Record undo_valid_at (base : option Lamport) (s : BufferSnapshot) (u : UndoOperation) : Prop := {
  uv_stamp : insertion_stamp (UndoMap.timestamp u);
  uv_counts e : is_Some (counts u !! e) → observed (version s) e = true ∧ Some e ≠ base;
}.

(** Only the named parts of the buffer change. *)
Record only_text (b b' : Buffer) : Prop := {
  ot_history : history b' = history b;
  ot_deferred : deferred_ops b' = deferred_ops b;
  ot_replicas : deferred_replicas b' = deferred_replicas b;
  ot_clock : lamport_clock b' = lamport_clock b;
  ot_waiters : waiters b' = waiters b;
  ot_version : buffer_version b' = buffer_version b;
  ot_replica : sn_replica_id (snapshot b') = sn_replica_id (snapshot b) ∧ line_ending (snapshot b') = line_ending (snapshot b);
}.

Section buffer_ok.
Context (TREE_BASE : nat) (HB : 1 ≤ TREE_BASE) (max : N) (Hmax : (4 ≤ max ≤ u32_max)%N) (base : option Lamport).
Implicit Types b : Buffer.

Local Abbreviation state_ok := (state_ok TREE_BASE base).
Local Abbreviation buffer_inv := (buffer_inv TREE_BASE base).

Lemma state_ok_observe s t : insertion_stamp t → state_ok s → state_ok (with_version s (observe (version s) t)).
Proof.
  intros Ht [H1 H2 H2o H2c H3 H4 H5 H6 H7 H8 H9 H10 H11 H12]. split; cbn; try done.
  - eapply Forall_impl; [exact H3|]. intros c [C1 C2 C3 C4 C5]. split; [done|by apply observe_mono| |done|done].
    eapply Forall_impl; [exact C3|]. intros d. apply observe_mono.
  - apply observe_wf; [done|apply Ht].
  - intros x Hx. destruct (H6 x Hx). split; by apply observe_mono.
Qed.

(** Publishing a patch of the text never fails. *)
Lemma publish_mut_ok b s p :
  (∃ sn, consistent (mkWorld (topic b) (heap b) (visible_text (snapshot b)) sn)) →
  describes 0 0 p (visible_text (snapshot b)) (visible_text s) →
  ∃ b', publish_mut (with_snapshot b s) p = Some b' ∧ snapshot b' = s ∧
    (∃ sn, consistent (mkWorld (topic b') (heap b') (visible_text (snapshot b')) sn)) ∧
    history b' = history b ∧ deferred_ops b' = deferred_ops b ∧ deferred_replicas b' = deferred_replicas b ∧
    lamport_clock b' = lamport_clock b ∧ waiters b' = waiters b.
Proof.
  intros [sn Hc] Hd. destruct (publish_consistent _ p _ Hc Hd) as (t & h & E & Hc'). unfold publish_mut. cbn in *.
  rewrite E. cbn [mbind option_bind]. eexists. split; [done|]. split; [done|]. split; [by exists sn|done].
Qed.

(** What the versions of operations observe comes before them. *)
Lemma later_than v t u : Forall (λ x, x < value t)%N (values v) → (0 < value u)%N → observed v u = true → ltb t u = false.
Proof.
  intros Hv Hu Ho. unfold observed in Ho. apply N.leb_le in Ho. rewrite get_at in Ho.
  assert (value u < value t)%N as Hlt.
  { destruct (_ !! _) as [x|] eqn:E in Ho; [|cbn in Ho; lia]. cbn in Ho.
    rewrite Forall_lookup in Hv. specialize (Hv _ _ E). cbn in Hv. lia. }
  apply ltb_false. change ((value u, replica_id u) ≼ (value t, replica_id t))%ord. apply prod_le. left.
  apply N.compare_lt_iff. exact Hlt.
Qed.

Lemma edit_seen s e : state_ok s → edit_valid_at s e → Forall (frag_seen (eo_version e) (eo_timestamp e)) (fragments s).
Proof.
  intros Hs He. apply Forall_forall. intros f Hf. destruct (first_cell _ _ _ f (so_buffer _ _ _ Hs) Hf) as [b Hc].
  pose proof (so_cells _ _ _ Hs) as Hok. rewrite Forall_forall in Hok. destruct (Hok _ Hc) as [H1 _ _ _ _]. cbn in H1.
  split; [done|]. intros Ho. apply (later_than (eo_version e)); [apply He|apply H1|done].
Qed.

(** ** A remote edit *)

Lemma remote_edit_buffer b e :
  buffer_inv b → shallow TREE_BASE (snapshot b) → edit_valid_at (snapshot b) e →
  observed (buffer_version b) (eo_timestamp e) = false →
  ∃ b', remote_edit TREE_BASE max b e = Some b' ∧ only_text b b' ∧
    state_ok (with_version (snapshot b') (observe (buffer_version b) (eo_timestamp e))) ∧
    (∃ sn, consistent (mkWorld (topic b') (heap b') (visible_text (snapshot b')) sn)) ∧
    undo_map (snapshot b') = undo_map (snapshot b) ∧
    scells (snapshot b') = remote_cells (eo_version e) (eo_timestamp e) (was_at (undo_map (snapshot b)) (eo_version e)) 0 0
      (remote_ops (eo_ranges e) (eo_new_text e)) (scells (snapshot b)).
Proof.
  intros [Hs Hsub] Hw He Hnew. set (s := snapshot b) in *. set (ts := eo_timestamp e) in *.
  pose proof He as [Hst Hv _ Hlen Hval]. unfold remote_edit. destruct (eo_ranges e) as [|rg rgs] eqn:Er.
  { exists b. split; [done|]. split; [by split|]. split; [by apply state_ok_observe|]. by split_and!. }
  destruct (eo_new_text e) as [|tx txs] eqn:Et; [done|].
  set (edits := remote_ops (rg :: rgs) (tx :: txs)) in *.
  pose proof Hw as (_ & _ & Hwu). pose proof (proj2 (so_undo_tree _ _ _ Hs)) as Hsu.
  set (was := was_at (undo_map s) (eo_version e)).
  assert (∀ f, observed (eo_version e) (f_timestamp f) = true →
    was_visible f (eo_version e) (undo_map s) = Some (was (f_timestamp f) (deletions f))) as Hwas
    by (intros f Hf; by apply (was_visible_spec TREE_BASE)).
  destruct (remote_edit_ok max Hmax (eo_version e) Hv (undo_map s) ts was Hwas (visible_text s) (deleted_text s)
    (wlen (eo_version e) (fragments s)) (fragments s) edits (so_buffer _ _ _ Hs) (edit_seen s e Hs He) eq_refl Hval)
    as (r & Hr & Hok & Hcells & Hd & _).
  pose proof (remote_edit_tracked ts (fragments s) (old_unmarked TREE_BASE base s ts Hs Hnew) (ok_frags _ _ _ (so_buffer _ _ _ Hs)) max Hmax (eo_version e) Hv (undo_map s) was Hwas
    (visible_text s) (deleted_text s) (wlen (eo_version e) (fragments s)) edits r (so_buffer _ _ _ Hs) (edit_seen s e Hs He) eq_refl Hval
    ltac:(done) Hr) as Ht.
  destruct (edit_state_ok TREE_BASE HB base s ts Hs Hw Hst Hnew (eo_version e) was 0 edits _ _ _ _ _ Hok Hcells Ht)
    as (s' & Hup & Hui & Hs'). fold s ts edits. rewrite Hr. cbn [mbind option_bind]. rewrite Hup. cbn [mbind option_bind].
  destruct Hui as [Heq _ _ _ _].
  destruct (publish_mut_ok b s' (re_patch r) Hsub) as (b' & -> & <- & Hsub' & ? & ? & ? & ? & ?); [by rewrite Heq|].
  exists b'. split; [done|]. split; [split; try done; unfold buffer_version; by rewrite Heq|]. split; [done|]. split; [done|].
  split; [by rewrite Heq|]. unfold scells at 1. rewrite Heq. cbn. exact Hcells.
Qed.

(** ** A remote undo *)

Lemma buffer_undo_ok b u :
  buffer_inv b → shallow TREE_BASE (snapshot b) → undo_valid_at base (snapshot b) u →
  (∀ m', insert_undo TREE_BASE (undo_map (snapshot b)) u = Some m' → walkable TREE_BASE m') →
  ∃ b' m', buffer_undo TREE_BASE b u = Some b' ∧ only_text b b' ∧
    state_ok (with_version (snapshot b') (observe (buffer_version b) (UndoMap.timestamp u))) ∧
    (∃ sn, consistent (mkWorld (topic b') (heap b') (visible_text (snapshot b')) sn)) ∧
    insert_undo TREE_BASE (undo_map (snapshot b)) u = Some m' ∧ undo_map (snapshot b') = m' ∧
    Forall2 same_byte (scells (snapshot b)) (scells (snapshot b')) ∧
    Forall (λ c, c_visible c = shown m' c) (scells (snapshot b')).
Proof.
  intros [Hs Hsub] Hw [Hst Hc] Hwm.
  destruct (undo_state_ok TREE_BASE HB base (snapshot b) u Hs Hw Hst Hc Hwm) as (m' & r & Ha & Hm' & [Hs' Hb Hsh Hp]).
  unfold buffer_undo. rewrite Ha. cbn [mbind option_bind].
  set (s' := with_undo_map _ _) in *. destruct (publish_mut_ok b s' (ur_patch r) Hsub) as (b' & -> & Heq & Hsub' & ? & ? & ? & ? & ?); [apply Hp|].
  exists b', m'. split; [done|]. split; [by split; unfold buffer_version; rewrite ?Heq|]. rewrite Heq in *. by do 5 (split; [done|]).
Qed.

(** ** Applying an operation *)

Definition op_valid_at (s : BufferSnapshot) (op : Operation) : Prop :=
  match op with OpEdit e => edit_valid_at s e | OpUndo u => undo_valid_at base s u end.
(** An undo does not make the undo map too high. *)
Definition room_for b (op : Operation) : Prop :=
  match op with
  | OpEdit _ => True
  | OpUndo u => ∀ m', insert_undo TREE_BASE (undo_map (snapshot b)) u = Some m' → walkable TREE_BASE m'
  end.

(** The bytes after the operation. *)
Definition op_cells (s s' : BufferSnapshot) (op : Operation) : Prop :=
  match op with
  | OpEdit e =>
      undo_map s' = undo_map s ∧
      scells s' = remote_cells (eo_version e) (eo_timestamp e) (was_at (undo_map s) (eo_version e)) 0 0
        (remote_ops (eo_ranges e) (eo_new_text e)) (scells s)
  | OpUndo u =>
      insert_undo TREE_BASE (undo_map s) u = Some (undo_map s') ∧ Forall2 same_byte (scells s) (scells s') ∧
      Forall (λ c, c_visible c = shown (undo_map s') c) (scells s')
  end.

Definition wait_event (op : Operation) : WaitEvent :=
  match op with OpEdit e => ApplyEdit (eo_timestamp e) | OpUndo u => ApplyUndo (UndoMap.timestamp u) end.

Record op_applied b b' (op : Operation) : Prop := {
  oa_inv : buffer_inv b';
  oa_version : buffer_version b' = observe (buffer_version b) (op_timestamp op);
  oa_cells : op_cells (snapshot b) (snapshot b') op;
  oa_waiters : (buffer_version b', waiters b') = wait_step (buffer_version b, waiters b) (wait_event op);
  oa_clock : lamport_clock b' = lamport_observe (lamport_clock b) (op_timestamp op);
  oa_queue : history b' = history b ∧ deferred_ops b' = deferred_ops b ∧ deferred_replicas b' = deferred_replicas b;
}.

Lemma observe_version_ok b t : Lamport_wf t → observe_version b t = Some (with_observed b t).
Proof. intros H. unfold observe_version. by rewrite try_observe_ok. Qed.

Lemma op_stamp b op : op_valid_at (snapshot b) op → Lamport_wf (op_timestamp op).
Proof. destruct op; intros H; apply H. Qed.

Lemma apply_op_ok b op :
  buffer_inv b → shallow TREE_BASE (snapshot b) → op_valid_at (snapshot b) op → room_for b op →
  observed (buffer_version b) (op_timestamp op) = false →
  ∃ b', apply_op TREE_BASE max b op = Some b' ∧ op_applied b b' op.
Proof.
  intros Hb Hw Hval Hroom Hnew. unfold apply_op. pose proof (op_stamp b op Hval) as Hst. destruct op as [e|u]; cbn in Hval, Hnew, Hst |- *; rewrite Hnew; cbn [negb].
  - destruct (remote_edit_buffer b e Hb Hw Hval Hnew) as (b1 & -> & [H1 H2 H3 H4 H5 H6 H7] & Hs & Hsub & Hm & Hc).
    cbn [mbind option_bind]. rewrite observe_version_ok by done. cbn [mbind option_bind]. eexists. split; [done|]. split; cbn; unfold buffer_version in *; cbn; rewrite ?H6; try done.
    + split; [|done]. change (state_ok (with_version (snapshot b1) (observe (version (snapshot b1)) (eo_timestamp e)))). by rewrite H6.
    + by rewrite H5, Hnew.
    + by rewrite H4.
  - destruct (buffer_undo_ok b u Hb Hw Hval Hroom) as (b1 & m' & -> & [H1 H2 H3 H4 H5 H6 H7] & Hs & Hsub & Hm & <- & Hc & Hv).
    cbn [mbind option_bind]. rewrite observe_version_ok by done. cbn [mbind option_bind]. eexists. split; [done|]. split; cbn; unfold buffer_version in *; cbn; rewrite ?H6; try done.
    + split; [|done]. change (state_ok (with_version (snapshot b1) (observe (version (snapshot b1)) (UndoMap.timestamp u)))). by rewrite H6.
    + by rewrite H5, Hnew.
    + by rewrite H4.
Qed.

(** Applying an operation twice is applying it once. *)
Lemma apply_op_again b op :
  observed (buffer_version b) (op_timestamp op) = true →
  apply_op TREE_BASE max b op = Some (with_waiters b (resolve_versions (waiters b) (buffer_version b))).
Proof. intros Ho. unfold apply_op. by destruct op; cbn in Ho |- *; rewrite Ho. Qed.

(** ** A local edit *)

Lemma to_remote_ops edits ranges :
  zip_with to_remote (normalize_edit <$> edits) ranges = remote_ops ranges (normalize <$> (e_text <$> edits)).
Proof.
  revert ranges. induction edits as [|e edits IH]; intros [|rg ranges]; try done. unfold remote_ops in *.
  rewrite !fmap_cons. cbn [zip_with]. rewrite IH. done.
Qed.

(** The version of the buffer knows all undo operations. *)
Lemma was_now s c : state_ok s → c ∈ scells s →
  was_at (undo_map s) (version s) (c_timestamp c) (c_deletions c) = c_visible c.
Proof.
  intros Hs Hc. pose proof (so_cells _ _ _ Hs) as Hok. rewrite Forall_forall in Hok. destruct (Hok c Hc) as [_ _ Hd -> _].
  assert (∀ id, odd_count_at (undo_map s) (version s) id = odd_count (undo_map s) id) as Hodd.
  { intros id. unfold odd_count_at, odd_count. f_equal. apply N.le_antisymm; apply max_count_le; intros x Hx Hid _;
      eapply (proj1 (max_count_le _ id (items (undo_map s)) _) (N.le_refl _)); try done. by apply (so_undone _ _ _ Hs). }
  unfold was_at, shown. rewrite Hodd. f_equal. induction Hd as [|d l Ho _ IH]; [done|]. cbn. by rewrite Ho, Hodd, IH.
Qed.

Lemma not_observed_ahead v t : Forall (λ x, x < value t)%N (values v) → (0 < value t)%N → observed v t = false.
Proof.
  intros Hlt Hp. apply not_true_iff_false. intros E. unfold observed in E. apply N.leb_le in E. rewrite get_at in E.
  destruct (_ !! _) as [x|] eqn:Ex in E; cbn in E; [|lia]. rewrite Forall_lookup in Hlt. specialize (Hlt _ _ Ex). cbn in Hlt. lia.
Qed.

(** The version before a local operation covers all bytes. *)
Lemma local_cells s ts : state_ok s → Forall (λ v, v < value ts)%N (values (version s)) →
  Forall (λ x, RemoteCells.versioned (version s) x = true ∧ newer ts x = false ∧
    was_at (undo_map s) (version s) (c_timestamp x) (c_deletions x) = c_visible x) (scells s).
Proof.
  intros Hs Hlt. apply Forall_forall. intros c Hc. pose proof (so_cells _ _ _ Hs) as Hok. rewrite Forall_forall in Hok.
  destruct (Hok c Hc) as [H1 H2 _ _ _]. split; [exact H2|]. split; [|by apply was_now].
  apply (later_than (version s)); [done|apply H1|done].
Qed.

Lemma edited_lengths t idx pos off edits ranges c c' : edited t idx pos off edits ranges c c' → length ranges = length edits.
Proof. induction 1; simpl; congruence. Qed.

Lemma local_edit_buffer b edits ts :
  buffer_inv b → shallow TREE_BASE (snapshot b) → insertion_stamp ts →
  Forall (λ v, v < value ts)%N (values (buffer_version b)) →
  edits ≠ [] → edits_ordered edits →
  ∃ e b', local_edit TREE_BASE max b edits ts = Some (e, b') ∧ only_text b b' ∧
    state_ok (with_version (snapshot b') (observe (buffer_version b) ts)) ∧
    (∃ sn, consistent (mkWorld (topic b') (heap b') (visible_text (snapshot b')) sn)) ∧
    undo_map (snapshot b') = undo_map (snapshot b) ∧
    visible_text (snapshot b') = splice 0 (clip_edits (visible_text (snapshot b)) edits) (visible_text (snapshot b)) ∧
    eo_timestamp e = ts ∧ eo_version e = buffer_version b ∧ edit_valid_at (snapshot b) e ∧
    scells (snapshot b') = remote_cells (eo_version e) ts (was_at (undo_map (snapshot b)) (eo_version e)) 0 0
      (remote_ops (eo_ranges e) (eo_new_text e)) (scells (snapshot b)).
Proof.
  intros [Hs Hsub] Hw Hst Hlt Hne Hord. set (s := snapshot b) in *. change (buffer_version b) with (version s) in *.
  pose proof (clip_valid (visible_text s) edits Hord) as Hval.
  destruct (local_edit_ok max Hmax ts (visible_text s) (deleted_text s) (fragments s) edits (so_buffer _ _ _ Hs) Hne Hval)
    as (r & Hr & Hd & _ & Hok & Hed).
  pose proof (not_observed_ahead (version s) ts Hlt (proj2 Hst)) as Hnew.
  pose proof (local_cells s ts Hs Hlt) as Hc. pose proof (edited_remote (version s) ts (was_at (undo_map s) (version s)) 0 0 0 _ _ _ _ Hed Hc) as Hcells.
  pose proof (local_edit_tracked ts (fragments s) (old_unmarked TREE_BASE base s ts Hs Hnew) (ok_frags _ _ _ (so_buffer _ _ _ Hs)) max _ _ _ _ Hr) as Ht.
  destruct (edit_state_ok TREE_BASE HB base s ts Hs Hw Hst Hnew (version s) _ 0 _ _ _ _ _ _ Hok (eq_sym Hcells) Ht) as (s' & Hup & [Heq _ _ _ _] & Hs').
  unfold local_edit. fold s. rewrite Hr. cbn [mbind option_bind]. rewrite Hup. cbn [mbind option_bind].
  destruct (publish_mut_ok b s' (le_patch r) Hsub) as (b' & -> & Heq' & Hsub' & ? & ? & ? & ? & ?); [by rewrite Heq|].
  cbn [mbind option_bind]. eexists _, b'. split; [done|]. cbn [eo_timestamp eo_version eo_ranges eo_new_text].
  split; [split; try done; unfold buffer_version; by rewrite Heq', Heq|]. split; [by rewrite Heq'|]. split; [done|].
  split; [by rewrite Heq', Heq|]. split; [|split; [done|split; [done|split]]].
  - rewrite Heq', Heq. cbn. pose proof (edited_splice _ _ _ _ _ _ _ _ Hed) as Hspl.
    destruct (buffer_texts _ _ _ Hok) as [E1 _], (buffer_texts _ _ _ (so_buffer _ _ _ Hs)) as [E2 _]. congruence.
  - split; cbn; [done|apply Hs|done| |].
    + rewrite !length_fmap. by rewrite (edited_lengths _ _ _ _ _ _ _ _ Hed), length_clip.
    + rewrite <- to_remote_ops, <- (clip_remote (visible_text s)). apply (edited_ranges ts 0 0 0 _ _ _ _ _ (visible_text s) Hed); [|done].
      destruct (so_buffer _ _ _ Hs) as [_ _ Hv Hd']. rewrite <- (vcells_cells max Hmax (version s) (fragments s) (visible_text s) (deleted_text s)) by lia.
      rewrite vcells_all; [done|]. eapply Forall_impl; [exact Hc|]. by intros x (? & _).
  - rewrite Heq', Heq, <- to_remote_ops, <- (clip_remote (visible_text s)). symmetry. exact Hcells.
Qed.

(** ** [edit] *)

(** The clock is ahead of all that was observed. *)
Definition clock_ahead b : Prop :=
  is_u16 (replica_id (lamport_clock b)) ∧ (0 < value (lamport_clock b))%N ∧
  Forall (λ v, v < value (lamport_clock b))%N (values (buffer_version b)).

(** The clock can stamp an operation: it is [n] ticks from its end, and the
    replica's id is not the reserved one, which [observe] refuses. *)
Definition can_stamp b (n : N) : Prop := is_u32 (value (lamport_clock b) + n) ∧ is_replica (replica_id (lamport_clock b)).

Lemma group_some h : History.undo_stack h ≠ [] → ∃ tid h', History.group h = Some (Some tid, h').
Proof.
  intros Hu. destruct (History.stack_cases (History.undo_stack h)) as [?|(u & top & E)]; [done|].
  assert (rev (History.undo_stack h) = top :: rev u) as Hrev by (rewrite E, rev_app_distr; done).
  destruct (History.group_count_ok (History.group_interval h) top (rev u)) as (merged & e & keep & Hr & Hlen & _).
  rewrite <- Hrev, rev_involutive in Hr. destruct (History.group_trailing_ok h keep e merged Hr) as (e' & Hg & _).
  eexists _, _. unfold History.group. rewrite Hrev, <- Hlen. exact Hg.
Qed.

Lemma end_transaction_ok b now c :
  History.history_ok (history b) c → History.transaction_depth (history b) ≠ 0 →
  ∃ o h, end_transaction_at b now = Some (o, with_history b h) ∧ History.history_ok h c ∧
    HistoryEdits.names_only (history b) h [] ∧ History.transaction_depth (history b) = S (History.transaction_depth h).
Proof.
  intros Hok Hd. destruct (History.open_no_panic (history b) c now (lamport_clock b) Hok Hd) as [[[o h] E] _].
  unfold end_transaction_at. rewrite E. cbn [mbind option_bind]. pose proof (History.end_step _ _ _ _ _ Hok E) as Hok'.
  destruct (HistoryEdits.end_names _ _ _ _ E) as [Hn Hd']. destruct o as [e|]; [|by exists None, h].
  assert (History.undo_stack h ≠ []) as Hne.
  { unfold History.end_transaction in E. destruct (History.transaction_depth (history b)) as [|d]; [done|].
    destruct (d =? 0); [|done]. destruct (History.stack_cases (History.undo_stack (history b))) as [Hu|(u & e' & Hu)]; cbn in E; rewrite Hu in E; [done|].
    rewrite last_snoc in E. cbn in E. destruct (History.edit_ids _); [done|]. injection E as Hl <-. intros Hnil. cbn in Hnil.
    rewrite History.update_top_snoc in Hnil. by destruct u. }
  destruct (group_some h Hne) as (tid & h' & Hg). rewrite Hg. cbn [mbind option_bind]. eexists _, h'. split; [done|].
  destruct (HistoryEdits.group_names _ _ _ Hne Hg) as [Hn' Hd'']. split; [by eapply History.group_step|]. rewrite Hd'', Hd'. split; [|done].
  exact (HistoryEdits.names_only_trans _ _ _ [] [] Hn Hn').
Qed.

Lemma start_transaction_ok b now :
  History.history_ok (history b) (lamport_clock b) → is_u32 (value (lamport_clock b) + 1) →
  let '(o, b') := start_transaction_at b now in
  ∃ h c, b' = with_clock (with_history b h) c ∧ History.history_ok h c ∧ History.transaction_depth h ≠ 0 ∧
    (value (lamport_clock b) ≤ value c ≤ value (lamport_clock b) + 1)%N ∧ replica_id c = replica_id (lamport_clock b) ∧
    HistoryEdits.names_only (history b) h [] ∧ History.transaction_depth h = S (History.transaction_depth (history b)).
Proof.
  intros Hok H32. unfold start_transaction_at.
  destruct (History.start_transaction (history b) (buffer_version b) now (lamport_clock b)) as [[o h] c] eqn:E.
  exists h, c. split; [done|]. split; [by eapply History.start_step|]. destruct (HistoryEdits.start_names _ _ _ _ _ _ _ E) as [Hn Hd].
  unfold History.start_transaction in E. destruct (History.transaction_depth _ =? 1) eqn:Ed; cbn in E; injection E as <- <- <-; cbn.
  - rewrite wrap_u32_small by done. split; [done|]. split; [lia|done].
  - split; [done|]. split; [lia|done].
Qed.

Lemma observe_below v t n : Forall (λ x, x < n)%N (values v) → (value t < n)%N → Forall (λ x, x < n)%N (values (observe v t)).
Proof.
  intros Hv Ht. apply Forall_lookup. intros i x Hx. pose proof (observe_at v t i) as Ho. rewrite Hx in Ho. cbn in Ho. subst x.
  assert (default 0 (values v !! i) < n)%N.
  { destruct (values v !! i) as [x|] eqn:E; cbn; [by rewrite Forall_lookup in Hv; apply (Hv i x)|lia]. }
  case_decide; lia.
Qed.

(** Recording the operation in the open transaction. *)
Lemma push_undo_ok h c t k :
  History.history_ok h c → History.transaction_depth h ≠ 0 →
  ∃ h', History.push_undo (History.push h t k) t = Some h' ∧ History.history_ok h' c ∧
    HistoryEdits.names_only h h' [t] ∧ History.transaction_depth h' = History.transaction_depth h.
Proof.
  intros Hok Hd. destruct (HistoryEdits.push_names h t k Hd) as (h' & E & Hn & Hd'); [by apply Hok|].
  exists h'. split; [done|]. split; [|done]. eapply History.push_undo_step; [|exact E]. destruct Hok; by split.
Qed.

(** What [edit] leaves. *)
Record edited_buffer b b' (e : EditOperation) (edits : list TextEdit) : Prop := {
  eb_inv : buffer_inv b';
  eb_clock : clock_ahead b';
  eb_history : History.history_ok (history b') (lamport_clock b') ∧ HistoryEdits.names_only (history b) (history b') [eo_timestamp e] ∧
    History.transaction_depth (history b') = History.transaction_depth (history b);
  eb_text : visible_text (snapshot b') = splice 0 (clip_edits (visible_text (snapshot b)) edits) (visible_text (snapshot b));
  eb_version : eo_version e = buffer_version b ∧ buffer_version b' = observe (buffer_version b) (eo_timestamp e);
  eb_new : observed (buffer_version b) (eo_timestamp e) = false ∧ replica_id (eo_timestamp e) = replica_id (lamport_clock b);
  eb_valid : edit_valid_at (snapshot b) e;
  eb_cells : op_cells (snapshot b) (snapshot b') (OpEdit e);
}.

Lemma edit_buffer b edits now1 now2 :
  buffer_inv b → shallow TREE_BASE (snapshot b) → clock_ahead b → History.history_ok (history b) (lamport_clock b) →
  can_stamp b 2 → edits ≠ [] →
  edits_ordered edits →
  ∃ e b', edit TREE_BASE max b edits now1 now2 = Some (OpEdit e, b') ∧ edited_buffer b b' e edits.
Proof.
  intros Hb Hw (Hr16 & Hpos & Hlt) Hh [H32 Hrep] Hne Hval.
  pose proof (start_transaction_ok b now1 Hh ltac:(unfold is_u32 in *; lia)) as Hstart. unfold edit.
  destruct (start_transaction_at b now1) as [o b0]. destruct Hstart as (h & c & -> & Hh0 & Hd0 & Hc & Hrc & Hn0 & Hdep0).
  cbn [tick lamport_clock with_clock]. set (c' := mkLamport _ _).
  assert (value c' = value c + 1)%N as Hc' by (unfold c'; cbn; apply wrap_u32_small; unfold is_u32 in *; lia).
  assert (insertion_stamp c) as Hst by (split; [split; [unfold is_u32 in *; lia|by rewrite Hrc]|lia]).
  assert (Forall (λ v, v < value c)%N (values (buffer_version b))) as Hltc by (eapply Forall_impl; [exact Hlt|]; simpl; lia).
  destruct (local_edit_buffer (with_clock (with_clock (with_history b h) c) c') edits c) as
    (e & b1 & -> & [H1 _ _ H4 _ H6 _] & Hs & Hsub & Hm & Htext & Ht & Hv & Hev & Hcells); try done; [by destruct Hb|].
  cbn [mbind option_bind]. cbn [op_timestamp op_kind]. rewrite H1. cbn [history with_clock with_history] in *.
  destruct (push_undo_ok h c (eo_timestamp e) History.KEdit Hh0 Hd0) as (h' & -> & Hh' & Hn1 & Hdep1). cbn [mbind option_bind].
  rewrite observe_version_ok by (by rewrite Ht; apply Hst). cbn [mbind option_bind]. set (b2 := with_observed (with_history b1 h') (eo_timestamp e)).
  destruct (end_transaction_ok b2 now2 c Hh') as (r & h2 & -> & Hh2 & Hn2 & Hdep2); [cbn; by rewrite Hdep1|]. cbn [mbind option_bind].
  exists e, (with_history b2 h2). split; [done|].
  assert (buffer_version b1 = buffer_version b) as H6' by exact H6.
  assert (lamport_clock b1 = c') as H4' by exact H4.
  split.
  - split; [|exact Hsub]. change (state_ok (with_version (snapshot b1) (observe (buffer_version b1) (eo_timestamp e)))).
    rewrite H6', Ht. exact Hs.
  - unfold clock_ahead. change (lamport_clock (with_history b2 h2)) with (lamport_clock b1).
    change (buffer_version (with_history b2 h2)) with (observe (buffer_version b1) (eo_timestamp e)).
    rewrite H4', H6', Ht. split; [change (is_u16 (replica_id c)); by rewrite Hrc|]. split; [lia|]. apply observe_below; [|lia].
    eapply Forall_impl; [exact Hltc|]. intros x Hx. cbn beta in Hx |- *. lia.
  - cbn [history with_history b2 with_observed with_snapshot] in *. split; [|split; [|congruence]].
    2:{ exact (HistoryEdits.names_only_trans _ _ _ [_] [] (HistoryEdits.names_only_trans _ _ _ [] [_] Hn0 Hn1) Hn2). }
    change (History.history_ok h2 (lamport_clock b1)). rewrite H4'.
    eapply History.history_ok_sub; [exact Hh2| |apply Hh2|done]. apply cmp_lt_le, tick_lt. unfold is_u32 in *. lia.
  - exact Htext.
  - split; [exact Hv|]. change (buffer_version (with_history b2 h2)) with (observe (buffer_version b1) (eo_timestamp e)). by rewrite H6'.
  - rewrite Ht. split; [|done]. apply (not_observed_ahead _ _ Hltc), Hst.
  - exact Hev.
  - split; [exact Hm|]. rewrite Ht. exact Hcells.
Qed.

(** ** Undo and redo *)

Lemma observe_idem v t : Global_wf v → Lamport_wf t → observe (observe v t) t = observe v t.
Proof.
  intros Hv Ht. apply Global_ext; [by repeat apply observe_wf..|]. intros i. rewrite !observe_at. case_decide; lia.
Qed.

Lemma undo_counts_ok m es acc : walkable TREE_BASE m → ksorted (items m) →
  ∃ cs, undo_counts m es acc = Some cs ∧ ∀ e, cs !! e =
    if decide (e ∈ es) then Some (N.min (UndoMap.max_count (λ _, true) e (items m) + 1) u32_max) else acc !! e.
Proof.
  intros Hw Hs. revert acc. induction es as [|e es IH]; intros acc; cbn [undo_counts].
  { exists acc. split; [done|]. intros e. by rewrite decide_False by apply not_elem_of_nil. }
  unfold UndoMap.map_undo_count. rewrite (UndoMap.query_ok TREE_BASE m _ e Hw Hs). cbn [mbind option_bind].
  edestruct IH as (cs & -> & Hcs). exists cs. split; [done|]. intros e'. rewrite Hcs.
  destruct (decide (e' ∈ es)) as [Hin|Hnin]; [by rewrite decide_True by by right|].
  destruct (decide (e' = e)) as [->|Hne]; [rewrite decide_True by (by left); by rewrite lookup_insert_eq|].
  rewrite decide_False, lookup_insert_ne; [done|done|]. by intros [?|?]%elem_of_cons.
Qed.

(** The largest count after an undo operation that is not in the map yet. *)
Lemma max_count_undo m u m' e n :
  walkable TREE_BASE m → ksorted (items m) → insert_undo TREE_BASE m u = Some m' →
  (∀ x, x ∈ items m → UndoMap.undo_id (UndoMap.entry_key x) ≠ UndoMap.timestamp u) →
  UndoMap.max_count (λ _, true) e (items m) = n →
  UndoMap.max_count (λ _, true) e (items m') = N.max n (default 0%N (counts u !! e)).
Proof.
  intros Hw Hs E Hfr Hn. destruct (insert_undo_ok TREE_BASE m u HB Hw Hs) as (m1 & E1 & _ & _ & Hin). simplify_eq.
  pose proof (proj1 (max_count_le (λ _, true) e (items m) _) (N.le_refl _)) as Hle.
  pose proof (proj1 (max_count_le (λ _, true) e (items m') _) (N.le_refl _)) as Hle'.
  apply N.le_antisymm; [apply max_count_le|apply N.max_lub; [apply max_count_le|]].
  - intros x [[_ Hc]|[Hx _]]%Hin Hid Hv; [rewrite <- Hid, Hc; cbn; lia|]. specialize (Hle x Hx Hid Hv). lia.
  - intros x Hx Hid Hv. apply Hle'; [|done|done]. apply Hin. right. split; [done|]. intros [Ht _]. by apply (Hfr x).
  - destruct (counts u !! e) as [c|] eqn:Ec; cbn; [|lia].
    apply (Hle' (UndoMap.mkUndoEntry (UndoMap.mkKey e (UndoMap.timestamp u)) c)); [|done|done]. apply Hin. by left.
Qed.

(** What [undo_or_redo] leaves. *)
Record toggled b b' (u : UndoOperation) (t : History.Transaction) : Prop := {
  tg_inv : buffer_inv b';
  tg_clock : clock_ahead b';
  tg_timestamp : UndoMap.timestamp u = lamport_clock b ∧ lamport_clock b' = (tick (lamport_clock b)).2;
  tg_version : UndoMap.op_version u = buffer_version b ∧ buffer_version b' = observe (buffer_version b) (UndoMap.timestamp u);
  tg_cells : op_cells (snapshot b) (snapshot b') (OpUndo u);
  tg_counts e : counts u !! e = if decide (e ∈ History.edit_ids t)
    then Some (N.min (UndoMap.max_count (λ _, true) e (items (undo_map (snapshot b))) + 1) u32_max) else None;
  tg_history : history b' = History.push (history b) (UndoMap.timestamp u) History.KUndo;
}.

Lemma undo_or_redo_ok b (t : History.Transaction) :
  buffer_inv b → shallow TREE_BASE (snapshot b) → clock_ahead b → can_stamp b 1 →
  (∀ e, e ∈ History.edit_ids t → observed (buffer_version b) e = true ∧ Some e ≠ base) →
  (∀ cs m', undo_counts (undo_map (snapshot b)) (History.edit_ids t) ∅ = Some cs →
     insert_undo TREE_BASE (undo_map (snapshot b)) (mkUndoOperation (lamport_clock b) (buffer_version b) cs) = Some m' → walkable TREE_BASE m') →
  ∃ u b', undo_or_redo TREE_BASE b t = Some (OpUndo u, b') ∧ toggled b b' u t.
Proof.
  intros [Hs Hsub] Hw (Hr16 & Hpos & Hlt) [H32 Hrep] Hids Hroom. unfold undo_or_redo.
  destruct (undo_counts_ok (undo_map (snapshot b)) (History.edit_ids t) ∅ (proj2 (proj2 Hw)) (proj2 (so_undo_tree _ _ _ Hs))) as (cs & Ecs & Hcs).
  rewrite Ecs. cbn [mbind option_bind]. unfold undo_operations. cbn [tick]. set (ts := lamport_clock b). set (c' := mkLamport _ _).
  assert (insertion_stamp ts) as Hst by (split; [split; [unfold is_u32, ts in *; lia|done]|done]).
  rewrite observe_version_ok by apply Hst. cbn [mbind option_bind].
  set (b1 := with_observed (with_clock b c') ts). set (u := mkUndoOperation ts (buffer_version b) cs).
  assert (buffer_version b1 = observe (buffer_version b) ts) as Hv1 by done.
  assert (buffer_inv b1) as Hb1 by (split; [by apply state_ok_observe|done]).
  assert (undo_valid_at base (snapshot b1) u) as Huv.
  { split; [done|]. intros e [n He]. change (cs !! e = Some n) in He. rewrite Hcs in He. destruct (decide _) as [Hin|]; [|done].
    destruct (Hids e Hin). split; [|done]. by apply observe_mono. }
  destruct (buffer_undo_ok b1 u Hb1 Hw Huv) as (b2 & m' & -> & [H1 _ _ H4 _ H6 _] & Hs2 & Hsub2 & Hm & Hm2 & Hc & Hv).
  { intros m' E. by apply (Hroom cs). }
  cbn [mbind option_bind]. exists u. eexists. split; [done|].
  change (UndoMap.timestamp u) with ts in Hs2.
  assert (observe (buffer_version b1) ts = observe (buffer_version b) ts) as Hv2 by exact (observe_idem (buffer_version b) ts (so_version _ _ _ Hs) (proj1 Hst)).
  rewrite Hv2 in Hs2.
  assert (value c' = value ts + 1)%N as Hc' by (unfold c'; cbn; by apply wrap_u32_small).
  split; cbn [snapshot with_history].
  - split; [|exact Hsub2]. cbn [snapshot with_history]. rewrite <- Hv1, <- H6 in Hs2. unfold buffer_version in Hs2. by destruct (snapshot b2).
  - set (b' := with_history b2 _). assert (lamport_clock b' = c') as Hc2 by exact H4.
    assert (buffer_version b' = observe (buffer_version b) ts) as Hv3 by exact H6.
    unfold clock_ahead. rewrite Hc2, Hv3, Hc'. split; [done|]. split; [lia|]. apply observe_below; [|lia].
    eapply Forall_impl; [exact Hlt|]. intros x Hx. cbn beta in *. unfold ts in *. lia.
  - split; [done|]. exact H4.
  - split; [done|]. exact H6.
  - split; [by rewrite Hm2|]. split; [done|]. by rewrite Hm2.
  - intros e. change (counts u) with cs. rewrite Hcs. by rewrite lookup_empty.
  - by rewrite H1.
Qed.

(** ** A new buffer *)

Lemma insertion_loop_S n text ts next_id o i : insertion_loop max (S n) text ts next_id o i =
  if o <? length text then
    if chunk_end max text o =? o then Some i else
    n' ← usub (chunk_end max text o) o;
    let f := insertion_fragment i ts next_id n' in
    insertion_loop max n text ts next_id (chunk_end max text o)
      (mkInsertion (as_u32 (in_offset i + as_u32 n')) (in_fragments i ++ [f])
         (in_insertions i ++ [new_insertion f]) (in_slices i ++ [from_fragment ts f]))
  else Some i.
Proof. done. Qed.

(** The base text is cut as an insertion is. *)
Lemma base_loop_ok fuel text ts o s i i' :
  short_chars text → o ≤ length text → length text - o ≤ fuel → is_u32 (N.of_nat (in_offset i + (length text - o))) →
  insertion_loop max (S fuel) text ts Locator.max o i = Some i' →
  base_fragments s = in_fragments i → base_offset s = in_offset i → prev_locator s = max_id (summary_of (in_fragments i)) →
  wf_tree TREE_BASE (base_insertions s) → items (base_insertions s) = in_insertions i → ksorted (in_insertions i) →
  Forall (λ x, if_timestamp x = ts ∧ split_offset x < in_offset i) (in_insertions i) →
  ∃ s', base_loop TREE_BASE max fuel text ts o s = Some s' ∧ base_fragments s' = in_fragments i' ∧
    wf_tree TREE_BASE (base_insertions s') ∧ items (base_insertions s') = in_insertions i' ∧ ksorted (in_insertions i').
Proof.
  intros Hsc. revert o s i. induction fuel as [|fuel IH]; intros o s i Ho Hf H32 Hins Hfr Hoff Hprev Hwf Hit Hso Hall;
    cbn [base_loop]; rewrite insertion_loop_S in Hins; destruct (Nat.ltb_spec o (length text)) as [Hlt|Hge];
    [lia|injection Hins as <-; by exists s| |injection Hins as <-; by exists s].
  destruct (chunk_end_ok max Hmax text o Hsc Hlt) as [He Hn]. set (e := chunk_end max text o) in *. clearbody e.
  rewrite (proj2 (Nat.eqb_neq e o)) in Hins by lia. rewrite usub_le in Hins by lia. cbn [mbind option_bind] in Hins. cbv zeta in Hins. rewrite usub_le by lia. cbn [mbind option_bind].
  rewrite Hprev, Hoff. fold (insertion_fragment i ts Locator.max (e - o)). set (f := insertion_fragment i ts Locator.max (e - o)) in *.
  destruct (push_ok TREE_BASE (base_insertions s) (new_insertion f) HB Hwf) as (t & -> & Ht & Hti). cbn [mbind option_bind].
  assert (is_u32 (N.of_nat (in_offset i + (e - o)))) as H32' by (apply (is_u32_le _ (in_offset i + (length text - o))); [lia|done]).
  assert (as_u32 (e - o) = e - o) as Hn32 by (apply as_u32_small, (is_u32_le _ (in_offset i + (length text - o))); [lia|done]).
  rewrite Hn32, (as_u32_small _ H32') in *.
  eapply (IH e _ _ ltac:(lia) ltac:(lia)); [|exact Hins|..]; cbn -[summary_of]; try done.
  - apply (is_u32_le _ (in_offset i + (length text - o))); [lia|done].
  - by rewrite Hfr.
  - by rewrite (summary_max_id (_ ++ _)), last_snoc.
  - by rewrite Hti, Hit.
  - apply ksorted_app. split; [done|]. split; [repeat constructor|]. intros x y Hx ->%list_elem_of_singleton.
    rewrite Forall_forall in Hall. destruct (Hall x Hx) as [Hxt Hxo]. apply key_lt_iff. right. by split.
  - apply Forall_app. split; [|constructor; [cbn; split; [done|lia]|constructor]].
    eapply Forall_impl; [exact Hall|]. intros x [? ?]. split; [done|lia].
Qed.

(** The empty and the filled buffer. *)
Record fresh_buffer (replica : ReplicaId) (l : LineEnding) (text : Text) b : Prop := {
  fb_state : state_ok (snapshot b);
  fb_subscribers : consistent (mkWorld (topic b) (heap b) (visible_text (snapshot b)) (∅ : gmap nat Text));
  fb_clock : clock_ahead b ∧ replica_id (lamport_clock b) = replica;
  fb_history : history b = History.new_history text;
  fb_base e : base = Some e → observed (buffer_version b) e = true;
  fb_text : visible_text (snapshot b) = text ∧ line_ending (snapshot b) = l;
  fb_idle : deferred_ops b = SumTree.new ∧ deferred_replicas b = ∅ ∧ waiters b = no_waiters;
}.
End buffer_ok.

Section new.
Context (TREE_BASE : nat) (HB : 1 ≤ TREE_BASE) (max : N) (Hmax : (4 ≤ max ≤ u32_max)%N).

Definition base_of (text : Text) : option Lamport := match text with [] => None | _ => Some (new_lamport LOCAL) end.

Lemma base_stamp : insertion_stamp (new_lamport LOCAL).
Proof. by split; [apply (bool_decide_unpack _)|]. Qed.

Lemma base_state_ok text s l replica :
  text ≠ [] → short_chars text → is_u32 (N.of_nat (length text)) →
  base_loop TREE_BASE max (length text) text (new_lamport LOCAL) 0 (mkBaseState [] SumTree.new 0 Locator.min) = Some s →
  state_ok TREE_BASE (base_of text)
    (mkSnapshot (base_fragments s) text [] (base_insertions s) SumTree.new SumTree.new
       (observe new_global (new_lamport LOCAL)) replica l).
Proof.
  intros Hne Hsc H32 E. set (ts := new_lamport LOCAL) in *.
  assert (ids_ok []) as Hids by (split; cbn; constructor).
  destruct (push_fragments_ok max Hmax ts text (mkInsertion 0 [] [] []) [] Hsc Hids H32) as (i' & fr & Hp & Hi).
  destruct (base_loop_ok TREE_BASE HB max Hmax (length text) text ts 0 (mkBaseState [] SumTree.new 0 Locator.min) (mkInsertion 0 [] [] []) i')
    as (s' & E' & Hfr & Hwf & Hit & Hso); try done; [lia..|by rewrite Nat.sub_0_r|by left|constructor|].
  assert (s' = s) as -> by congruence. clear E'.
  destruct Hi as [If Ii _ _ Iids Iok Iv Id Ic]. cbn in If, Ii, Iids. rewrite app_nil_r in Iids.
  rewrite If in Iids.
  assert (cells (base_fragments s) text [] = inserted_cells ts 0 text) as Hcells by by rewrite Hfr, If.
  split; unfold scells; cbn -[observe]; try (split; [by left|constructor]); try done.
  - rewrite Hfr, If. by split.
  - rewrite Hcells, inserted_keys. apply NoDup_fmap_2; [by intros ?? [=]|apply NoDup_seq].
  - rewrite Hcells, inserted_keys. pose proof (weave_order ts [] [] [] [] 0 (length text)) as Hw. rewrite !app_nil_r in Hw.
    apply Hw; [constructor|by intros ? ?%elem_of_nil|constructor|by intros ? ?%elem_of_nil].
  - rewrite Hcells, inserted_keys. intros k j (i & -> & Hi%elem_of_seq)%list_elem_of_fmap Hj. cbn in Hj.
    apply list_elem_of_fmap. exists j. split; [done|]. apply elem_of_seq. lia.
  - rewrite Hcells. apply Forall_lookup. intros j c. unfold inserted_cells. rewrite list_lookup_imap.
    destruct (text !! j) as [b|]; [|done]. intros [= <-]. split; cbn; [apply base_stamp|done|constructor|done|].
    intros e [->|?%elem_of_nil] Hb; [|done]. by destruct text.
  - apply (bool_decide_unpack _). by vm_compute.
  - by intros x ?%elem_of_nil.
  - rewrite Hit. by split.
  - rewrite Hit, Ii, Hfr, If. intros f Hf. by apply list_elem_of_fmap_2.
  - rewrite Hit, Ii, Hfr, If. intros x (f & -> & Hf)%list_elem_of_fmap. by exists f.
  - apply Forall_forall. by intros c _ x ?%elem_of_nil.
Qed.

Lemma empty_state_ok l replica :
  state_ok TREE_BASE None (mkSnapshot [] [] [] SumTree.new SumTree.new SumTree.new new_global replica l).
Proof.
  split; unfold scells; cbn; try (split; [by left|constructor]); try done; try (by intros ? ?%elem_of_nil); try (by constructor).
  - split; try done. split; cbn; constructor.
  - by intros k j ?%elem_of_nil.
Qed.

Lemma new_normalized_ok replica l text :
  is_u16 replica → short_chars text → is_u32 (N.of_nat (length text)) →
  ∃ b, new_normalized TREE_BASE max replica l text = Some b ∧ fresh_buffer TREE_BASE (base_of text) replica l text b.
Proof.
  intros Hr Hsc H32. unfold new_normalized. destruct text as [|c t]; [|cbn iota; remember (c :: t) as text eqn:Et].
  - cbn [mbind option_bind]. eexists. split; [done|]. split; cbn; try done.
    + apply empty_state_ok.
    + by split; [constructor|intros ? []|].
  - assert (∃ s, base_loop TREE_BASE max (length text) text (new_lamport LOCAL) 0 (mkBaseState [] SumTree.new 0 Locator.min) = Some s) as [s E].
    { assert (ids_ok []) as Hids by (split; cbn; constructor).
      destruct (push_fragments_ok max Hmax (new_lamport LOCAL) text (mkInsertion 0 [] [] []) [] Hsc Hids H32) as (i' & fr & Hp & _).
      destruct (base_loop_ok TREE_BASE HB max Hmax (length text) text (new_lamport LOCAL) 0 (mkBaseState [] SumTree.new 0 Locator.min) (mkInsertion 0 [] [] []) i')
        as (s & E & _); try done; [lia..|by rewrite Nat.sub_0_r|by left|constructor|by exists s]. }
    rewrite E. cbn [mbind option_bind]. rewrite try_observe_ok by apply base_stamp. cbn [mbind option_bind]. eexists. split; [done|]. split; cbn -[observe base_of]; try done.
    + apply base_state_ok; [by rewrite Et|done..].
    + by split; [constructor|intros ? []|].
    + split; [|done]. split; [exact Hr|]. split; [reflexivity|]. eapply observe_below; first [exact HB|exact Hmax|constructor|done].
    + subst text. intros e [= <-]. apply observe_observed. by vm_compute.
Qed.
End new.
