(* ===== verification/Replica.v ===== *)
(** * A replica

    What the operations of [Buffer] guarantee together: a new buffer is well
    formed, editing and applying remote operations never fail and keep it
    well formed, and undoing an edit and redoing it restore the texts. *)

From S2P Require Import Prelude Clock Text SumTree Cursor KeyedTree UndoMap OperationQueue Subscription Patch Fragment Cells BufferInv LocalEdit Undo UndoIndex RemoteCells RemoteEdit RemoteEditOk Tracking Converge Waiters Buffer BufferState BufferOk.
From S2P Require Locator TreeMap History HistoryEdits.

#[local] Existing Instance TreeMap.option_Ord.
#[local] Existing Instance TreeMap.MapKey_Summary.
#[local] Existing Instance TreeMap.MapEntry_Item.
#[local] Existing Instance TreeMap.MapKey_Dimension.
#[local] Existing Instance TreeMap.MapEntry_KeyedItem.

(** ** Bytes that count as visible *)

Definition bytes_by (P : Cell → bool) (l : list Cell) : Text := c_byte <$> List.filter P l.

Lemma bytes_by_cons P c l : bytes_by P (c :: l) = (if P c then [c_byte c] else []) ++ bytes_by P l.
Proof. unfold bytes_by. cbn [List.filter]. by destruct (P c). Qed.

Lemma bytes_by_app P l k : bytes_by P (l ++ k) = bytes_by P l ++ bytes_by P k.
Proof. unfold bytes_by. by rewrite List.filter_app, fmap_app. Qed.

Lemma bytes_by_ext P Q l : Forall (λ c, P c = Q c) l → bytes_by P l = bytes_by Q l.
Proof. induction 1 as [|c l Hc _ IH]; [done|]. by rewrite !bytes_by_cons, Hc, IH. Qed.

Lemma shown_same m c c' : same_byte c c' → shown m c = shown m c'.
Proof. unfold shown. by intros (-> & _ & _ & ->). Qed.

Lemma bytes_by_same m l l' : Forall2 same_byte l l' → bytes_by (shown m) l = bytes_by (shown m) l'.
Proof.
  induction 1 as [|c c' l l' Hc _ IH]; [done|]. rewrite !bytes_by_cons, (shown_same m c c' Hc), IH.
  by destruct Hc as (_ & _ & -> & _).
Qed.

Lemma state_text TREE_BASE base s : state_ok TREE_BASE base s → visible_text s = bytes_by (shown (undo_map s)) (scells s).
Proof.
  intros Hs. destruct (buffer_texts _ _ _ (so_buffer _ _ _ Hs)) as [<- _]. apply bytes_by_ext.
  eapply Forall_impl; [apply (so_cells _ _ _ Hs)|]. by intros c [].
Qed.

Lemma odd_count_ext m m' c : (∀ e, odd_count m e = odd_count m' e) → shown m c = shown m' c.
Proof.
  intros H. unfold shown. rewrite H. f_equal. induction (c_deletions c) as [|d l IH]; [done|]. cbn. by rewrite H, IH.
Qed.

(** The bytes of an edit that is undone. *)
Lemma undone_cells opv ts was (P Q : Cell → bool) pos off edits l :
  (∀ o b, P (mkCell ts o b true [] new_global) = false) →
  Forall (λ c, P c = Q c ∧ P (remote_delete opv ts was c) = Q c) l →
  bytes_by P (remote_cells opv ts was pos off edits l) = bytes_by Q l.
Proof.
  intros Hins. revert pos off l. induction edits as [|e edits IH]; intros pos off l Hl; cbn [remote_cells].
  { apply bytes_by_ext. eapply Forall_impl; [exact Hl|]. by intros c []. }
  destruct (vsplit opv _ l) as [k l1] eqn:E1. destruct (skip_newer ts l1) as [g l2] eqn:E2.
  destruct (vsplit opv _ l2) as [r l3] eqn:E3. pose proof Hl as Hl'.
  rewrite (vsplit_eq _ _ _ _ _ E1), (skip_newer_eq _ _ _ _ E2), (vsplit_eq _ _ _ _ _ E3), !Forall_app in Hl.
  destruct Hl as (Hk & Hg & Hr & Hl3). rewrite (vsplit_eq _ _ _ _ _ E1), (skip_newer_eq _ _ _ _ E2), (vsplit_eq _ _ _ _ _ E3), !bytes_by_app, IH by done.
  assert (∀ l, Forall (λ c, P c = Q c ∧ P (remote_delete opv ts was c) = Q c) l → bytes_by P l = bytes_by Q l) as Hsame.
  { intros l' Hf. apply bytes_by_ext. eapply Forall_impl; [exact Hf|]. by intros c []. }
  rewrite (Hsame k Hk), (Hsame g Hg). do 2 f_equal.
  assert (bytes_by P (inserted_cells ts off (ro_text e)) = []) as ->.
  { unfold bytes_by. replace (List.filter P _) with (@nil Cell); [done|]. symmetry. clear -Hins.
    unfold inserted_cells. generalize (ro_text e). intros t. revert off. induction t as [|b t IH]; intros off; [done|].
    cbn. rewrite Hins. rewrite <- (IH (S off)). f_equal. apply imap_ext. intros i x _. cbn. f_equal. lia. }
  cbn [app]. f_equal. clear -Hr. induction Hr as [|c r [_ Hc] _ IH]; [done|].
  rewrite fmap_cons, !bytes_by_cons, Hc, IH. f_equal. unfold remote_delete. by destruct (_ && _).
Qed.

Section replica.
Context (TREE_BASE : nat) (HB : 1 ≤ TREE_BASE) (max : N) (Hmax : (4 ≤ max ≤ u32_max)%N) (base : option Lamport).
Implicit Types b : Buffer.

Local Abbreviation count m e := (UndoMap.max_count (λ _, true) e (items m)).

(** The counts after [undo_or_redo]. *)
Lemma toggled_count b b' u t e :
  buffer_inv TREE_BASE base b → shallow TREE_BASE (snapshot b) → clock_ahead b → toggled TREE_BASE base b b' u t →
  count (undo_map (snapshot b')) e =
    if decide (e ∈ History.edit_ids t) then N.max (count (undo_map (snapshot b)) e) (N.min (count (undo_map (snapshot b)) e + 1) u32_max)
    else count (undo_map (snapshot b)) e.
Proof.
  intros [Hs _] (_ & _ & Hw) (_ & Hpos & Hlt) [_ _ [Hts _] _ (Hm & _ & _) Hc _].
  rewrite (max_count_undo TREE_BASE HB max Hmax _ u _ e (count (undo_map (snapshot b)) e) Hw (proj2 (so_undo_tree _ _ _ Hs)) Hm); [| |done].
  - rewrite Hc. case_decide; [done|]. cbn. lia.
  - intros x Hx Heq. destruct (so_undone _ _ _ Hs x Hx) as [_ Ho]. rewrite Heq, Hts in Ho.
    rewrite (not_observed_ahead TREE_BASE HB max Hmax (version (snapshot b)) _ Hlt Hpos) in Ho. done.
Qed.

Lemma toggled_text b b' u t :
  toggled TREE_BASE base b b' u t → visible_text (snapshot b') = bytes_by (shown (undo_map (snapshot b'))) (scells (snapshot b)).
Proof. intros [[Hs _] _ _ _ (_ & Hc & _) _ _]. rewrite (state_text _ _ _ Hs). symmetry. by apply bytes_by_same. Qed.

(** Doing it twice gives the text back. *)
Lemma toggled_twice b b1 b1' b2 u1 u2 t :
  buffer_inv TREE_BASE base b → shallow TREE_BASE (snapshot b) → clock_ahead b →
  buffer_inv TREE_BASE base b1' → shallow TREE_BASE (snapshot b1') → clock_ahead b1' → snapshot b1' = snapshot b1 →
  toggled TREE_BASE base b b1 u1 t → toggled TREE_BASE base b1' b2 u2 t →
  (∀ e, e ∈ History.edit_ids t → (count (undo_map (snapshot b)) e + 2 ≤ u32_max)%N) →
  visible_text (snapshot b2) = visible_text (snapshot b).
Proof.
  intros Hb Hw Hc Hb1 Hw1 Hc1 Heq Ht1 Ht2 Hn. pose proof Ht1 as [_ _ _ _ (_ & Hsame & _) _ _].
  rewrite (toggled_text _ _ _ _ Ht2), Heq, (state_text _ _ _ (bi_state _ _ _ Hb)).
  rewrite <- (bytes_by_same _ _ _ Hsame). apply bytes_by_ext, Forall_forall. intros c _. apply odd_count_ext. intros e.
  pose proof (toggled_count b b1 u1 t e Hb Hw Hc Ht1) as E1. pose proof (toggled_count b1' b2 u2 t e Hb1 Hw1 Hc1 Ht2) as E2. rewrite Heq in E2.
  case_decide as Hin.
  - specialize (Hn e Hin). rewrite N.min_l, N.max_r in E1 by lia. rewrite E1, N.min_l, N.max_r in E2 by lia.
    unfold odd_count. rewrite E2. replace (_ + 1 + 1)%N with (N.succ (N.succ (count (undo_map (snapshot b)) e))) by lia.
    by rewrite N.odd_succ_succ.
  - unfold odd_count. by rewrite E2, E1.
Qed.

(** Undoing an edit gives the text before it. *)
Lemma undo_edit_text b b1 b1' b2 e edits u t :
  buffer_inv TREE_BASE base b → edited_buffer TREE_BASE base b b1 e edits →
  buffer_inv TREE_BASE base b1' → shallow TREE_BASE (snapshot b1') → clock_ahead b1' → snapshot b1' = snapshot b1 →
  toggled TREE_BASE base b1' b2 u t → History.edit_ids t = [eo_timestamp e] →
  (∀ x, x ∈ History.edit_ids t → count (undo_map (snapshot b1')) x = 0%N) ∧
  visible_text (snapshot b2) = visible_text (snapshot b).
Proof.
  intros [Hs _] [_ _ _ _ _ [Hnew _] Hval [Hm Hcells]] Hb1 Hw1 Hc1 Heq Ht Hid. rewrite <- Heq in Hm, Hcells. set (ts := eo_timestamp e) in *.
  assert (count (undo_map (snapshot b)) ts = 0%N) as H0.
  { apply N.le_0_r, max_count_le. intros x Hx Hx' _. apply (so_undone _ _ _ Hs) in Hx as [Hx _]. rewrite Hx' in Hx. unfold buffer_version in Hnew. congruence. }
  split; [intros x; rewrite Hid, Hm; by intros ->%list_elem_of_singleton|].
  assert (∀ x, odd_count (undo_map (snapshot b2)) x = if decide (x = ts) then true else odd_count (undo_map (snapshot b)) x) as Hodd.
  { intros x. unfold odd_count. rewrite (toggled_count b1' b2 u t x Hb1 Hw1 Hc1 Ht), Hid, Hm.
    destruct (decide (x ∈ [ts])) as [->%list_elem_of_singleton|Hne]; [by rewrite decide_True, H0|].
    rewrite decide_False; [done|]. intros ->. by apply Hne, list_elem_of_singleton. }
  rewrite (toggled_text _ _ _ _ Ht), Hcells, (state_text _ _ _ Hs). apply undone_cells.
  { intros o x. unfold shown. cbn. by rewrite Hodd, decide_True. }
  apply Forall_forall. intros c Hc. pose proof (so_cells _ _ _ Hs) as Hok. rewrite Forall_forall in Hok.
  destruct (Hok c Hc) as [_ H1 H2 _ _]. unfold buffer_version in Hnew.
  assert (shown (undo_map (snapshot b2)) c = shown (undo_map (snapshot b)) c) as Hsame.
  { unfold shown. rewrite Hodd, decide_False by congruence. f_equal. induction H2 as [|d l Hd _ IH]; [done|].
    cbn. rewrite Hodd, decide_False by congruence. by rewrite IH. }
  split; [done|]. unfold remote_delete. destruct (_ && _); [|done]. unfold shown in *. cbn.
  rewrite forallb_app. cbn. rewrite (Hodd ts), decide_True by done. by rewrite !andb_true_r.
Qed.
End replica.

(** ** Heights

    A cursor's stack holds sixteen entries; no tree of a buffer may be as high. *)

Section low.
Context {T Sm : Type} `{Summary Sm} `{!SumTree.Item T Sm}.
Implicit Types t : Node T Sm.

Definition low t : bool := node_height t <? STACK_CAPACITY.

Lemma low_walkable TREE_BASE t : wf_tree TREE_BASE t → low t = true → walkable TREE_BASE t.
Proof.
  intros [->|[h Hh]] Hl; [by left|]. right. exists h. split; [|done].
  apply Nat.ltb_lt in Hl. by rewrite (wf_height _ _ _ Hh) in Hl.
Qed.
End low.

Definition heights_ok (s : BufferSnapshot) : bool := low (insertions s) && low (insertion_slices s) && low (undo_map s).

Lemma heights_shallow TREE_BASE base s : state_ok TREE_BASE base s → heights_ok s = true → shallow TREE_BASE s.
Proof.
  intros Hs [[Hi Hk]%andb_true_iff Hu]%andb_true_iff.
  split; [|split]; (apply low_walkable; [apply Hs|done]).
Qed.

(** The undo map after a remote undo, and after undoing or redoing [t]. *)
Definition op_room (TREE_BASE : nat) b (op : Operation) : bool :=
  match op with
  | OpEdit _ => true
  | OpUndo u => match insert_undo TREE_BASE (undo_map (snapshot b)) u with Some m' => low m' | None => true end
  end.
Definition toggle_room (TREE_BASE : nat) b (t : History.Transaction) : bool :=
  match undo_counts (undo_map (snapshot b)) (History.edit_ids t) ∅ with
  | Some cs =>
      match insert_undo TREE_BASE (undo_map (snapshot b)) (mkUndoOperation (lamport_clock b) (buffer_version b) cs) with
      | Some m' => low m'
      | None => true
      end
  | None => true
  end.

(** ** The invariant of a replica *)

Record replica_ok (TREE_BASE : nat) (base : option Lamport) (b : Buffer) : Prop := {
  ro_inv : buffer_inv TREE_BASE base b;
  ro_clock : clock_ahead b;
  ro_history : History.history_ok (history b) (lamport_clock b);
  ro_seen e : e ∈ HistoryEdits.h_edits (history b) → observed (buffer_version b) e = true ∧ Some e ≠ base;
  ro_base e : base = Some e → observed (buffer_version b) e = true;
}.

(** When the operations may be called. *)
Record edit_guard b (edits : list TextEdit) : Prop := {
  eg_heights : heights_ok (snapshot b) = true;
  eg_clock : can_stamp b 2;
  eg_edits : edits ≠ [] ∧ edits_ordered edits;
}.
Record apply_guard (TREE_BASE : nat) (base : option Lamport) b (op : Operation) : Prop := {
  ag_heights : heights_ok (snapshot b) = true ∧ op_room TREE_BASE b op = true;
  ag_clock : is_u32 (value (lamport_clock b) + 1) ∧ is_u32 (value (op_timestamp op) + 1);
  ag_valid : op_valid_at base (snapshot b) op;
}.
Record toggle_guard (TREE_BASE : nat) b (stack : list History.HistoryEntry) : Prop := {
  tg_heights : heights_ok (snapshot b) = true;
  tg_bound : can_stamp b 1;
  tg_closed : History.transaction_depth (history b) = 0;
  tg_room e : last stack = Some e → toggle_room TREE_BASE b (History.transaction e) = true;
}.

(** The last thing [apply_op] does is to resolve the waiters. *)
Lemma resolve_versions_idem w v : resolve_versions (resolve_versions w v) v = resolve_versions w v.
Proof.
  unfold resolve_versions. cbn. assert (∀ l : list (Global * nat), List.filter (λ t, observed_all v t.1) (List.filter (λ t, negb (observed_all v t.1)) l) = [] ∧
    List.filter (λ t, negb (observed_all v t.1)) (List.filter (λ t, negb (observed_all v t.1)) l) = List.filter (λ t, negb (observed_all v t.1)) l) as Hf.
  { induction l as [|x l [IH1 IH2]]; [done|]. cbn. destruct (observed_all v x.1) eqn:E; cbn; [done|]. rewrite E. cbn. by rewrite IH1, IH2. }
  destruct (Hf (wait_for_version_txs w)) as [-> ->]. f_equal. apply map_eq. intros c. unfold happen at 1.
  rewrite map_lookup_imap. destruct (happen _ _ _ !! c); [|done]. cbn. by rewrite decide_False by apply not_elem_of_nil.
Qed.

Lemma apply_op_resolved TREE_BASE max b op b' : apply_op TREE_BASE max b op = Some b' →
  resolve_versions (waiters b') (buffer_version b') = waiters b'.
Proof.
  unfold apply_op. intros (b1 & _ & [= <-])%bind_Some. apply resolve_versions_idem.
Qed.

Lemma with_waiters_same b : with_waiters b (waiters b) = b.
Proof. by destruct b. Qed.

Section replica_ok.
Context (TREE_BASE : nat) (HB : 1 ≤ TREE_BASE) (max : N) (Hmax : (4 ≤ max ≤ u32_max)%N) (base : option Lamport).
Implicit Types b : Buffer.

Local Abbreviation replica_ok := (replica_ok TREE_BASE base).

Lemma edit_keeps b edits now1 now2 :
  replica_ok b → edit_guard b edits →
  ∃ e b', edit TREE_BASE max b edits now1 now2 = Some (OpEdit e, b') ∧ replica_ok b' ∧ edited_buffer TREE_BASE base b b' e edits.
Proof.
  intros [Hi Hc Hh Hseen Hbase] [Hw H32 [Hne Hval]]. pose proof (heights_shallow _ _ _ (bi_state _ _ _ Hi) Hw) as Hsh.
  destruct (edit_buffer TREE_BASE HB max Hmax base b edits now1 now2 Hi Hsh Hc Hh H32 Hne Hval) as (e & b' & E & He).
  exists e, b'. split; [done|]. split; [|done]. destruct He as [Hi' Hc' (Hh' & Hn & _) _ [_ Hv] [Hnew _] Hev _].
  split; [done..| |].
  - intros x Hx. rewrite Hv. destruct (Hn x Hx) as [Hx'| ->%list_elem_of_singleton].
    + destruct (Hseen x Hx'). split; [by apply observe_mono|done].
    + split; [apply observe_observed, Hev|]. intros <-. specialize (Hbase _ eq_refl). congruence.
  - intros x Hx. rewrite Hv. by apply observe_mono, Hbase.
Qed.

Lemma waiters_ok b w : replica_ok b → replica_ok (with_waiters b w).
Proof. intros [[??] ????]. by split; [split|..]. Qed.

(** An operation that is new. *)
Lemma apply_new_keeps b op :
  replica_ok b → apply_guard TREE_BASE base b op → observed (buffer_version b) (op_timestamp op) = false →
  ∃ b', apply_op TREE_BASE max b op = Some b' ∧ replica_ok b' ∧ op_applied TREE_BASE base b b' op.
Proof.
  intros [Hi Hc Hh Hseen Hbase] [[Hw Hroom] [H32 H32'] Hval] Ho. pose proof (heights_shallow _ _ _ (bi_state _ _ _ Hi) Hw) as Hsh.
  assert (room_for TREE_BASE b op) as Hr.
  { destruct op as [e|u]; [done|]. intros m' E. cbn in Hroom. rewrite E in Hroom. apply low_walkable; [|done].
    destruct (insert_undo_ok TREE_BASE (undo_map (snapshot b)) u HB (proj2 (proj2 Hsh)) (proj2 (so_undo_tree _ _ _ (bi_state _ _ _ Hi))))
      as (m1 & E1 & ? & _). congruence. }
  destruct (apply_op_ok TREE_BASE HB max Hmax base b op Hi Hsh Hval Hr Ho) as (b' & -> & Hoa).
  exists b'. split; [done|]. split; [|done]. destruct Hoa as [Hi' Hv _ _ Hcl (Hhi & _ & _)].
  set (t := op_timestamp op) in *. destruct Hc as (Hr16 & Hpos & Hlt).
  assert (value (lamport_clock b') = N.max (value (lamport_clock b)) (value t) + 1)%N as Hcv.
  { rewrite Hcl. cbn. apply wrap_u32_small. unfold is_u32 in *. lia. }
  split; [done|..].
  - unfold clock_ahead. rewrite Hv, Hcv, Hcl. split; [done|]. split; [lia|]. apply (observe_below TREE_BASE HB max Hmax); [|lia].
    eapply Forall_impl; [exact Hlt|]. intros x Hx. cbn beta in *. lia.
  - rewrite Hhi. eapply History.history_ok_sub; [exact Hh| |apply Hh|done].
    rewrite Hcl. apply cmp_lt_le, lamport_observe_lt. unfold is_u32 in *. lia.
  - intros x Hx. rewrite Hhi in Hx. destruct (Hseen x Hx). rewrite Hv. split; [by apply observe_mono|done].
  - intros x Hx. rewrite Hv. by apply observe_mono, Hbase.
Qed.

Lemma apply_keeps b op :
  replica_ok b → apply_guard TREE_BASE base b op → ∃ b', apply_op TREE_BASE max b op = Some b' ∧ replica_ok b' ∧
    observed (buffer_version b') (op_timestamp op) = true ∧ history b' = history b.
Proof.
  intros Hok Hg. destruct (observed (buffer_version b) (op_timestamp op)) eqn:Ho.
  - rewrite (apply_op_again TREE_BASE max b op Ho). eexists. split; [done|]. split; [by apply waiters_ok|done].
  - destruct (apply_new_keeps b op Hok Hg Ho) as (b' & E & Hok' & [_ Hv _ _ _ (Hh & _ & _)]).
    exists b'. split; [done|]. split; [done|]. rewrite Hv. split; [|done].
    apply observe_observed. destruct Hg as [_ _ Hval]. by destruct op; apply Hval.
Qed.

Lemma toggle_keeps b t :
  replica_ok b → heights_ok (snapshot b) = true → can_stamp b 1 → toggle_room TREE_BASE b t = true →
  (∀ e, e ∈ History.edit_ids t → e ∈ HistoryEdits.h_edits (history b)) →
  ∃ u b', undo_or_redo TREE_BASE b t = Some (OpUndo u, b') ∧ replica_ok b' ∧ toggled TREE_BASE base b b' u t.
Proof.
  intros [Hi Hc Hh Hseen Hbase] Hw H32 Hroom Hids. pose proof (heights_shallow _ _ _ (bi_state _ _ _ Hi) Hw) as Hsh.
  destruct (undo_or_redo_ok TREE_BASE HB max Hmax base b t Hi Hsh Hc H32) as (u & b' & E & Ht).
  { intros e He. by apply Hseen, Hids. }
  { intros cs m' Ecs E. unfold toggle_room in Hroom. rewrite Ecs, E in Hroom. apply low_walkable; [|done].
    destruct (insert_undo_ok TREE_BASE (undo_map (snapshot b)) (mkUndoOperation (lamport_clock b) (buffer_version b) cs) HB
      (proj2 (proj2 Hsh)) (proj2 (so_undo_tree _ _ _ (bi_state _ _ _ Hi)))) as (m1 & E1 & ? & _). congruence. }
  exists u, b'. split; [done|]. split; [|done]. destruct Ht as [Hi' Hc' [Hts Hcl] [_ Hv] _ _ Hhi].
  split; [done..| | |].
  - rewrite Hhi, Hcl. eapply History.history_ok_sub; [exact Hh| |apply Hh|done]. by apply cmp_lt_le, tick_lt, H32.
  - intros x Hx. rewrite Hhi in Hx. destruct (Hseen x Hx). rewrite Hv. split; [by apply observe_mono|done].
  - intros x Hx. rewrite Hv. by apply observe_mono, Hbase.
Qed.

(** Taking an entry from the history changes nothing else. *)
Lemma popped_ok b h : replica_ok b → History.history_ok h (lamport_clock b) → HistoryEdits.names_only (history b) h [] →
  replica_ok (with_history b h).
Proof.
  intros [[Hs Hsub] Hc Hh Hseen Hbase] Hh' Hn. split; [by split|done|done| |done].
  intros e He. apply Hseen. by destruct (Hn e He) as [?|?%elem_of_nil].
Qed.

(** What [undo] and [redo] do with the entry they take. *)
Lemma entry_keeps b o h :
  replica_ok b → heights_ok (snapshot b) = true → can_stamp b 1 →
  History.history_ok h (lamport_clock b) → HistoryEdits.names_only (history b) h [] →
  (∀ e, o = Some e → toggle_room TREE_BASE b (History.transaction e) = true) →
  (∀ e, o = Some e → ∀ x, x ∈ History.edit_ids (History.transaction e) → x ∈ HistoryEdits.h_edits h) →
  ∃ r b', match o with
      | Some e => '(op, b) ← undo_or_redo TREE_BASE (with_history b h) (History.transaction e); Some (Some (History.transaction_id e, op), b)
      | None => Some (None, with_history b h)
      end = Some (r, b') ∧ replica_ok b'.
Proof.
  intros Hok Hw H32 Hh Hn Hroom He. pose proof (popped_ok b h Hok Hh Hn) as Hok'. destruct o as [e|]; [|by eexists _, _].
  destruct (toggle_keeps (with_history b h) (History.transaction e) Hok' Hw H32 (Hroom e eq_refl) (He e eq_refl)) as (u & b' & -> & Hb & _).
  cbn [mbind option_bind]. by eexists _, _.
Qed.

Lemma undo_keeps b : replica_ok b → toggle_guard TREE_BASE b (History.undo_stack (history b)) →
  ∃ r b', undo TREE_BASE b = Some (r, b') ∧ replica_ok b'.
Proof.
  intros Hok [Hw H32 Hd Hroom]. unfold undo.
  assert (∃ h, History.pop_undo (history b) = Some (last (History.undo_stack (history b)), h)) as (h & E).
  { unfold History.pop_undo, History.assert_depth_0. rewrite Hd. cbn. destruct (last _); eauto. }
  rewrite E. cbn [mbind option_bind]. destruct (HistoryEdits.pop_undo_names _ _ _ E) as (Hn & _ & He).
  apply entry_keeps; try done. by eapply History.pop_undo_step; [apply Hok|].
Qed.

Lemma redo_keeps b : replica_ok b → toggle_guard TREE_BASE b (History.redo_stack (history b)) →
  ∃ r b', redo TREE_BASE b = Some (r, b') ∧ replica_ok b'.
Proof.
  intros Hok [Hw H32 Hd Hroom]. unfold redo.
  assert (∃ h, History.pop_redo (history b) = Some (last (History.redo_stack (history b)), h)) as (h & E).
  { unfold History.pop_redo, History.assert_depth_0. rewrite Hd. cbn. destruct (last _); eauto. }
  rewrite E. cbn [mbind option_bind]. destruct (HistoryEdits.pop_redo_names _ _ _ E) as (Hn & _ & He).
  apply entry_keeps; try done. by eapply History.pop_redo_step; [apply Hok|].
Qed.
End replica_ok.

(** ** Reachable states *)

Inductive replica_step (TREE_BASE : nat) (max : N) (base : option Lamport) : Buffer → Buffer → Prop :=
| step_edit b edits now1 now2 op b' : edit_guard b edits →
    edit TREE_BASE max b edits now1 now2 = Some (op, b') → replica_step TREE_BASE max base b b'
| step_apply b op b' : apply_guard TREE_BASE base b op →
    apply_op TREE_BASE max b op = Some b' → replica_step TREE_BASE max base b b'
| step_undo b r b' : toggle_guard TREE_BASE b (History.undo_stack (history b)) →
    undo TREE_BASE b = Some (r, b') → replica_step TREE_BASE max base b b'
| step_redo b r b' : toggle_guard TREE_BASE b (History.redo_stack (history b)) →
    redo TREE_BASE b = Some (r, b') → replica_step TREE_BASE max base b b'.

Section reachable.
Context (TREE_BASE : nat) (HB : 1 ≤ TREE_BASE) (max : N) (Hmax : (4 ≤ max ≤ u32_max)%N).

Lemma fresh_ok replica l text b : fresh_buffer TREE_BASE (base_of text) replica l text b → replica_ok TREE_BASE (base_of text) b.
Proof.
  intros [Hs Hsub [Hc _] Hh Hb [Ht _] _]. split; [split; [done|]|done|..|done].
  - by exists ∅.
  - rewrite Hh. apply History.new_history_ok.
  - rewrite Hh. by intros e ?%elem_of_nil.
Qed.

Lemma step_keeps base b b' : replica_step TREE_BASE max base b b' → replica_ok TREE_BASE base b → replica_ok TREE_BASE base b'.
Proof.
  intros [b1 edits now1 now2 op b2 Hg E|b1 op b2 Hg E|b1 r b2 Hg E|b1 r b2 Hg E] Hok.
  - destruct (edit_keeps TREE_BASE HB max Hmax base b1 edits now1 now2 Hok Hg) as (e & b3 & E' & Hb & _). congruence.
  - destruct (apply_keeps TREE_BASE HB max Hmax base b1 op Hok Hg) as (b3 & E' & Hb & _). congruence.
  - destruct (undo_keeps TREE_BASE HB max Hmax base b1 Hok Hg) as (r' & b3 & E' & Hb). congruence.
  - destruct (redo_keeps TREE_BASE HB max Hmax base b1 Hok Hg) as (r' & b3 & E' & Hb). congruence.
Qed.

Lemma replica_reachable replica base_text b0 b :
  is_u16 replica → short_chars (normalize base_text) → is_u32 (N.of_nat (length (normalize base_text))) →
  new_buffer TREE_BASE max replica base_text = Some b0 →
  rtc (replica_step TREE_BASE max (base_of (normalize base_text))) b0 b → replica_ok TREE_BASE (base_of (normalize base_text)) b.
Proof.
  intros Hr Hsc H32 E Hrtc. unfold new_buffer in E.
  destruct (new_normalized_ok TREE_BASE HB max Hmax replica (detect base_text) _ Hr Hsc H32) as (b1 & E' & Hf).
  assert (b1 = b0) as -> by congruence. apply fresh_ok in Hf. clear E E'.
  induction Hrtc as [b0|b0 b1 b Hstep _ IH]; [done|]. by eapply IH, step_keeps.
Qed.

(** What undoing and redoing an entry do. *)
Definition toggled_entry base b b' (entry : History.HistoryEntry) : Prop :=
  ∃ h u, replica_ok TREE_BASE base (with_history b h) ∧ toggled TREE_BASE base (with_history b h) b' u (History.transaction entry).

Lemma undo_entry base b stack entry :
  replica_ok TREE_BASE base b → toggle_guard TREE_BASE b (History.undo_stack (history b)) → History.undo_stack (history b) = stack ++ [entry] →
  ∃ op b', undo TREE_BASE b = Some (Some (History.transaction_id entry, op), b') ∧ replica_ok TREE_BASE base b' ∧
    History.redo_stack (history b') = History.redo_stack (history b) ++ [entry] ∧ toggled_entry base b b' entry.
Proof.
  intros Hok [Hw H32 Hd Hroom] Hu. set (h := History.with_stacks (history b) stack (History.redo_stack (history b) ++ [entry])).
  assert (History.pop_undo (history b) = Some (Some entry, h)) as E.
  { unfold History.pop_undo, History.assert_depth_0. rewrite Hd, Hu, last_snoc, History.pop_top_snoc. done. }
  destruct (HistoryEdits.pop_undo_names _ _ _ E) as (Hn & _ & Hids).
  pose proof (popped_ok TREE_BASE base b h Hok (History.pop_undo_step _ _ _ _ (ro_history _ _ _ Hok) E) Hn) as Hok1.
  rewrite Hu, last_snoc in Hroom.
  destruct (toggle_keeps TREE_BASE HB max Hmax base (with_history b h) (History.transaction entry) Hok1 Hw H32 (Hroom entry eq_refl) (Hids entry eq_refl))
    as (u & b' & E' & Hok' & Ht). exists (OpUndo u), b'. unfold undo. rewrite E. cbn [mbind option_bind]. rewrite E'.
  split; [done|]. split; [done|]. split; [|by exists h, u]. by rewrite (tg_history _ _ _ _ _ _ Ht).
Qed.

Lemma redo_entry base b stack entry :
  replica_ok TREE_BASE base b → toggle_guard TREE_BASE b (History.redo_stack (history b)) → History.redo_stack (history b) = stack ++ [entry] →
  ∃ op b', redo TREE_BASE b = Some (Some (History.transaction_id entry, op), b') ∧ replica_ok TREE_BASE base b' ∧ toggled_entry base b b' entry.
Proof.
  intros Hok [Hw H32 Hd Hroom] Hu. set (h := History.with_stacks (history b) (History.undo_stack (history b) ++ [entry]) stack).
  assert (History.pop_redo (history b) = Some (Some entry, h)) as E.
  { unfold History.pop_redo, History.assert_depth_0. rewrite Hd, Hu, last_snoc, History.pop_top_snoc. done. }
  destruct (HistoryEdits.pop_redo_names _ _ _ E) as (Hn & _ & Hids).
  pose proof (popped_ok TREE_BASE base b h Hok (History.pop_redo_step _ _ _ _ (ro_history _ _ _ Hok) E) Hn) as Hok1.
  rewrite Hu, last_snoc in Hroom.
  destruct (toggle_keeps TREE_BASE HB max Hmax base (with_history b h) (History.transaction entry) Hok1 Hw H32 (Hroom entry eq_refl) (Hids entry eq_refl))
    as (u & b' & E' & Hok' & Ht). exists (OpUndo u), b'. unfold redo. rewrite E. cbn [mbind option_bind]. rewrite E'.
  split; [done|]. split; [done|]. by exists h, u.
Qed.
End reachable.

(** ** The theorems *)

(** C9: A new buffer is returned for every base text that has at most
    [u32::MAX] bytes after its line endings are normalised; it shows that text,
    is well formed, and has nothing deferred. *)
Theorem new_buffer_ok TREE_BASE max replica base_text :
  1 ≤ TREE_BASE → (4 ≤ max ≤ u32_max)%N → is_u16 replica → short_chars (normalize base_text) →
  is_u32 (N.of_nat (length (normalize base_text))) →
  ∃ b, new_buffer TREE_BASE max replica base_text = Some b ∧ replica_ok TREE_BASE (base_of (normalize base_text)) b ∧
    visible_text (snapshot b) = normalize base_text ∧ CR ∉ visible_text (snapshot b) ∧ line_ending (snapshot b) = detect base_text ∧
    has_deferred_ops b = false.
Proof.
  intros HB Hmax Hr Hsc H32.
  destruct (new_normalized_ok TREE_BASE HB max Hmax replica (detect base_text) _ Hr Hsc H32) as (b & E & Hf).
  exists b. split; [done|]. split; [by eapply fresh_ok|]. destruct Hf as [_ _ _ _ _ [Ht Hl] [Hd _]].
  rewrite Ht. split; [done|]. split; [apply normalize_cr_free|]. split; [done|].
  unfold has_deferred_ops. by rewrite Hd.
Qed.


(** [edit] replaces the ranges of the visible text by the normalised new
    texts, keeps the invariant, and returns an operation that is new, is valid
    for its version and that any replica can replay. *)
Theorem edit_splices TREE_BASE max base b edits now1 now2 :
  1 ≤ TREE_BASE → (4 ≤ max ≤ u32_max)%N → replica_ok TREE_BASE base b → edit_guard b edits →
  ∃ e b', edit TREE_BASE max b edits now1 now2 = Some (OpEdit e, b') ∧ replica_ok TREE_BASE base b' ∧
    visible_text (snapshot b') = splice 0 (clip_edits (visible_text (snapshot b)) edits) (visible_text (snapshot b)) ∧
    eo_version e = buffer_version b ∧ observed (buffer_version b) (eo_timestamp e) = false ∧
    edit_valid_at (snapshot b) e ∧ buffer_version b' = observe (buffer_version b) (eo_timestamp e).
Proof.
  intros HB Hmax Hok Hg. destruct (edit_keeps TREE_BASE HB max Hmax base b edits now1 now2 Hok Hg) as (e & b' & E & Hok' & He).
  exists e, b'. destruct He as [_ _ _ Ht [Hv Hv'] [Hn _] Hev _]. done.
Qed.

(** C7: Applying a remote operation keeps the invariant, observes the
    operation, leaves the history of transactions alone, and applying it a
    second time changes nothing at all. *)
Theorem apply_op_idempotent TREE_BASE max base b op :
  1 ≤ TREE_BASE → (4 ≤ max ≤ u32_max)%N → replica_ok TREE_BASE base b → apply_guard TREE_BASE base b op →
  ∃ b', apply_op TREE_BASE max b op = Some b' ∧ replica_ok TREE_BASE base b' ∧
    observed (buffer_version b') (op_timestamp op) = true ∧ history b' = history b ∧ apply_op TREE_BASE max b' op = Some b'.
Proof.
  intros HB Hmax Hok Hg. destruct (apply_keeps TREE_BASE HB max Hmax base b op Hok Hg) as (b' & E & Hok' & Ho & Hh).
  exists b'. split; [done|]. split; [done|]. split; [done|]. split; [done|].
  rewrite (apply_op_again TREE_BASE max b' op Ho). by rewrite (apply_op_resolved TREE_BASE max b op b' E), with_waiters_same.
Qed.

(** C6: Undoing a transaction that consists of one edit gives back the text
    from before the edit, and redoing it the text after the edit. *)
Theorem edit_undo_redo TREE_BASE max base b edits now1 now2 op b1 stack entry :
  1 ≤ TREE_BASE → (4 ≤ max ≤ u32_max)%N → replica_ok TREE_BASE base b → edit_guard b edits →
  edit TREE_BASE max b edits now1 now2 = Some (op, b1) →
  History.undo_stack (history b1) = stack ++ [entry] → History.edit_ids (History.transaction entry) = [op_timestamp op] →
  toggle_guard TREE_BASE b1 (History.undo_stack (history b1)) →
  ∃ op2 b2, undo TREE_BASE b1 = Some (Some (History.transaction_id entry, op2), b2) ∧
    visible_text (snapshot b2) = visible_text (snapshot b) ∧
    (toggle_guard TREE_BASE b2 (History.redo_stack (history b2)) →
     ∃ op3 b3, redo TREE_BASE b2 = Some (Some (History.transaction_id entry, op3), b3) ∧
       visible_text (snapshot b3) = visible_text (snapshot b1)).
Proof.
  intros HB Hmax Hok Hg E Hu Hid Hg1.
  destruct (edit_keeps TREE_BASE HB max Hmax base b edits now1 now2 Hok Hg) as (e & b1' & E' & Hok1 & He). simplify_eq.
  destruct (undo_entry TREE_BASE HB max Hmax base b1 stack entry Hok1 Hg1 Hu) as (op2 & b2 & E2 & Hok2 & Hr2 & h1 & u2 & Hk1 & Ht2).
  pose proof Hk1 as [Hi1 Hc1 _ _ _].
  pose proof (heights_shallow _ _ (snapshot (with_history b1 h1)) (bi_state _ _ _ Hi1) (tg_heights _ _ _ Hg1)) as Hw1.
  destruct (undo_edit_text TREE_BASE HB max Hmax base b b1 (with_history b1 h1) b2 e edits u2 (History.transaction entry)
    (ro_inv _ _ _ Hok) He Hi1 Hw1 Hc1 eq_refl Ht2 Hid) as [H0 Htext].
  exists op2, b2. split; [done|]. split; [done|]. intros Hg2.
  destruct (redo_entry TREE_BASE HB max Hmax base b2 _ entry Hok2 Hg2 Hr2) as (op3 & b3 & E3 & _ & h2 & u3 & Hk2 & Ht3).
  pose proof Hk2 as [Hi2 Hc2 _ _ _].
  pose proof (heights_shallow _ _ (snapshot (with_history b2 h2)) (bi_state _ _ _ Hi2) (tg_heights _ _ _ Hg2)) as Hw2.
  exists op3, b3. split; [done|].
  apply (toggled_twice TREE_BASE HB max Hmax base (with_history b1 h1) b2 (with_history b2 h2) b3 u2 u3 (History.transaction entry)
    Hi1 Hw1 Hc1 Hi2 Hw2 Hc2 eq_refl Ht2 Ht3). intros x Hx. rewrite (H0 x Hx). unfold u32_max. lia.
Qed.

(** ** Examples *)

Module ReplicaExamples.
Import Byte.

(** "a\r\nb" at replica 1; inserting "X" before the "b" and deleting it. *)
Definition text : Text := [x61; CR; LF; x62].
Definition nothing : Buffer :=
  mkBuffer (mkSnapshot [] [] [] SumTree.new SumTree.new SumTree.new new_global 0%N Unix)
    (History.new_history []) SumTree.new ∅ (new_lamport 0) [] ∅ no_waiters.
Definition b0 : Buffer := default nothing (new_buffer 6 16 1 text).
Definition edits : list TextEdit := [mkTextEdit 2 2 [x58]; mkTextEdit 2 3 []].
Definition op1_b1 : Operation * Buffer := default (OpUndo (mkUndoOperation (new_lamport 0) new_global ∅), nothing) (edit 6 16 b0 edits 0 0).
Definition op1 : Operation := op1_b1.1.
Definition b1 : Buffer := op1_b1.2.
Definition b2 : Buffer := default nothing (snd <$> undo 6 b1).
Definition b3 : Buffer := default nothing (snd <$> redo 6 b2).
(** The same file at replica 2. *)
Definition c0 : Buffer := default nothing (new_buffer 6 16 2 text).

Example texts : visible_text ∘ snapshot <$> [b0; b1; b2; b3] = [[x61; LF; x62]; [x61; LF; x58]; [x61; LF; x62]; [x61; LF; x58]].
Proof. vm_compute. reflexivity. Qed.

Example remote_text : (visible_text ∘ snapshot <$> apply_op 6 16 c0 op1) = Some [x61; LF; x58].
Proof. vm_compute. reflexivity. Qed.

Lemma u32_le n : (n <=? u32_max)%N = true → is_u32 n.
Proof. apply N.leb_le. Defined.

Lemma can_stamp_true b n :
  (value (lamport_clock b) + n <=? u32_max)%N && (replica_id (lamport_clock b) <? u16_max)%N = true → can_stamp b n.
Proof. intros [H1 H2]%andb_true_iff. split; [by apply N.leb_le|by apply N.ltb_lt]. Defined.

Lemma toggle_guard_true TREE_BASE b stack :
  heights_ok (snapshot b) && ((value (lamport_clock b) + 1 <=? u32_max)%N && (replica_id (lamport_clock b) <? u16_max)%N) && (History.transaction_depth (history b) =? 0) &&
    match last stack with Some e => toggle_room TREE_BASE b (History.transaction e) | None => true end = true →
  toggle_guard TREE_BASE b stack.
Proof.
  intros [[[H1 H2]%andb_true_iff H3]%andb_true_iff H4]%andb_true_iff.
  split; [done|by apply can_stamp_true|by apply Nat.eqb_eq|]. intros e He. by rewrite He in H4.
Defined.

Lemma small_max : (4 ≤ 16 ≤ u32_max)%N.
Proof. split; by apply N.leb_le. Defined.

Lemma text_short : short_chars (normalize text).
Proof. apply LocalEditExamples.short_small. apply Nat.ltb_lt. reflexivity. Defined.

Lemma b0_new : new_buffer 6 16 1 text = Some b0.
Proof. vm_compute. reflexivity. Defined.

Lemma b0_ok : replica_ok 6 (base_of (normalize text)) b0.
Proof.
  apply (replica_reachable 6 ltac:(lia) 16 small_max 1 text b0 b0); [by apply N.leb_le|apply text_short|by apply u32_le|apply b0_new|apply rtc_refl].
Defined.

Lemma b0_guard : edit_guard b0 edits.
Proof.
  split; [reflexivity|by apply can_stamp_true|]. split; [done|].
  repeat split; simpl; try lia; try done; by apply LocalEditExamples.short_small; simpl; lia.
Defined.

Lemma b1_edit : edit 6 16 b0 edits 0 0 = Some (op1, b1).
Proof. vm_compute. reflexivity. Defined.

Lemma b1_guard : toggle_guard 6 b1 (History.undo_stack (history b1)).
Proof. apply toggle_guard_true. vm_compute. reflexivity. Defined.

Lemma b2_undo : ∃ r, undo 6 b1 = Some (r, b2).
Proof. eexists. vm_compute. reflexivity. Defined.

Lemma b2_guard : toggle_guard 6 b2 (History.redo_stack (history b2)).
Proof. apply toggle_guard_true. vm_compute. reflexivity. Defined.

Example new_buffer_ok_witness :
  ∃ b, new_buffer 6 16 1 text = Some b ∧ replica_ok 6 (base_of (normalize text)) b ∧
    visible_text (snapshot b) = normalize text ∧ CR ∉ visible_text (snapshot b) ∧ line_ending (snapshot b) = detect text ∧
    has_deferred_ops b = false.
Proof. apply new_buffer_ok; [lia|apply small_max|by apply N.leb_le|apply text_short|by apply u32_le]. Defined.

Example edit_splices_witness :
  ∃ e b', edit 6 16 b0 edits 0 0 = Some (OpEdit e, b') ∧ replica_ok 6 (base_of (normalize text)) b' ∧
    visible_text (snapshot b') = splice 0 (clip_edits (visible_text (snapshot b0)) edits) (visible_text (snapshot b0)) ∧
    eo_version e = buffer_version b0 ∧ observed (buffer_version b0) (eo_timestamp e) = false ∧
    edit_valid_at (snapshot b0) e ∧ buffer_version b' = observe (buffer_version b0) (eo_timestamp e).
Proof. apply edit_splices; [lia|apply small_max|apply b0_ok|apply b0_guard]. Defined.

Example edit_undo_redo_witness :
  ∃ op2 b2', undo 6 b1 = Some (Some (mkLamport 2 1, op2), b2') ∧
    visible_text (snapshot b2') = visible_text (snapshot b0) ∧
    (toggle_guard 6 b2' (History.redo_stack (history b2')) →
     ∃ op3 b3, redo 6 b2' = Some (Some (mkLamport 2 1, op3), b3) ∧
       visible_text (snapshot b3) = visible_text (snapshot b1)).
Proof.
  apply (edit_undo_redo 6 16 (base_of (normalize text)) b0 edits 0 0 op1 b1 []
    (default (History.mkHistoryEntry (History.mkTransaction (mkLamport 0 0) [] new_global) 0 0 false) (head (History.undo_stack (history b1)))));
    [lia|apply small_max|apply b0_ok|apply b0_guard|apply b1_edit|vm_compute; reflexivity..|apply b1_guard].
Defined.

Lemma b2_reachable : rtc (replica_step 6 16 (base_of (normalize text))) b0 b2.
Proof.
  eapply rtc_l; [eapply step_edit; [apply b0_guard|apply b1_edit]|]. destruct b2_undo as [r E].
  apply rtc_once. eapply step_undo; [apply b1_guard|exact E].
Defined.


Lemma c0_ok : replica_ok 6 (base_of (normalize text)) c0.
Proof.
  apply (replica_reachable 6 ltac:(lia) 16 small_max 2 text c0 c0); [by apply N.leb_le|apply text_short|by apply u32_le|vm_compute; reflexivity|apply rtc_refl].
Defined.

Definition e1 : EditOperation := mkEditOperation (mkLamport 3 1) (mkGlobal [1]%N) [(2, 2); (2, 3)] [[x58]; []].

Lemma c0_guard : apply_guard 6 (base_of (normalize text)) c0 (OpEdit e1).
Proof.
  split; [by split; vm_compute|split; apply u32_le; by vm_compute|]. split.
  - split; [split; [by apply N.leb_le|by apply N.ltb_lt]|by apply N.ltb_lt].
  - split; [repeat constructor; by apply N.leb_le|done].
  - repeat constructor.
  - done.
  - assert (wlen (eo_version e1) (fragments (snapshot c0)) = 3) as -> by (vm_compute; reflexivity).
    repeat split; simpl; try lia; try done; by apply LocalEditExamples.short_small; simpl; lia.
Defined.

Example apply_op_idempotent_witness :
  ∃ b', apply_op 6 16 c0 (OpEdit e1) = Some b' ∧ replica_ok 6 (base_of (normalize text)) b' ∧
    observed (buffer_version b') (mkLamport 3 1) = true ∧ history b' = history c0 ∧ apply_op 6 16 b' (OpEdit e1) = Some b'.
Proof. apply (apply_op_idempotent 6 16 _ c0 (OpEdit e1)); [lia|apply small_max|apply c0_ok|apply c0_guard]. Defined.

Example op1_is_e1 : op1 = OpEdit e1.
Proof. vm_compute. reflexivity. Qed.
End ReplicaExamples.
