(* ===== verification/Delivery.v ===== *)
(** * Causal delivery

    Operations may arrive in any order, in any batches and more than once.
    [apply_ops] applies an operation as soon as all operations its author knew
    have been applied, and keeps the others in the queue. *)

From S2P Require Import Prelude Clock Text SumTree Cursor KeyedTree UndoMap OperationQueue Fragment Cells BufferInv LocalEdit Undo UndoIndex RemoteCells RemoteEdit RemoteEditOk Converge Waiters Buffer BufferState BufferOk Replica.
From S2P Require Locator TreeMap History HistoryEdits.

#[local] Existing Instance TreeMap.MapKey_Summary.

(** ** The operations of a session *)

Definition op_len (op : Operation) : nat :=
  match op with OpEdit e => inserted_len (remote_ops (eo_ranges e) (eo_new_text e)) | OpUndo _ => 0 end.

(** The bytes the operations of [l] that [v] observes insert. *)
Definition len_of (v : Global) (l : list Operation) : nat :=
  list_sum ((λ op, if observed v (op_timestamp op) then op_len op else 0) <$> l).

(** The length of the text of version [v], deleted bytes included, when [U]
    are all operations and [b0] is the buffer they started from. *)
Definition version_len (b0 : Buffer) (U : list Operation) (v : Global) : nat :=
  vcells v (scells (snapshot b0)) + len_of v U.

(** What its author knew of an operation: it is valid for its version. *)
Definition sent_valid (base : option Lamport) (b0 : Buffer) (U : list Operation) (op : Operation) : Prop :=
  match op with
  | OpEdit e => length (eo_ranges e) = length (eo_new_text e) ∧
      redits_valid (version_len b0 U (eo_version e)) 0 0 (remote_ops (eo_ranges e) (eo_new_text e))
  | OpUndo u => ∀ e, is_Some (counts u !! e) → observed (UndoMap.op_version u) e = true ∧ Some e ≠ base
  end.

(** All operations of a session that starts from copies of [b0]: each knows the
    earlier ones of its replica, and what it observes was there at first or is
    covered by an operation it observes. *)
Record session (base : option Lamport) (b0 : Buffer) (U : list Operation) : Prop := {
  u_nodup : NoDup (op_timestamp <$> U);
  u_new op : op ∈ U → observed (buffer_version b0) (op_timestamp op) = false;
  u_stamp op : op ∈ U → insertion_stamp (op_timestamp op) ∧ is_u32 (value (op_timestamp op) + 1);
  u_version op : op ∈ U → Global_wf (op_version op) ∧ Forall (λ v, v < value (op_timestamp op))%N (values (op_version op));
  u_own a b : a ∈ U → b ∈ U → op_replica_id a = op_replica_id b → (value (op_timestamp a) < value (op_timestamp b))%N →
    observed (op_version b) (op_timestamp a) = true;
  u_known op t : op ∈ U → observed (op_version op) t = true → observed (buffer_version b0) t = true ∨
    ∃ d, d ∈ U ∧ op_replica_id d = replica_id t ∧ (value t ≤ value (op_timestamp d))%N ∧ observed (op_version op) (op_timestamp d) = true;
  u_valid op : op ∈ U → sent_valid base b0 U op;
}.

(** ** The operations applied so far *)

Definition depends (op d : Operation) : Prop := observed (op_version op) (op_timestamp d) = true.
#[export] Instance depends_dec op d : Decision (depends op d).
Proof. unfold depends. apply _. Defined.

Record applied (TREE_BASE : nat) (base : option Lamport) (b0 : Buffer) (U : list Operation) (b : Buffer) (A : list Operation) : Prop := {
  ap_ok : replica_ok TREE_BASE base b;
  ap_nodup : NoDup A;
  ap_session op : op ∈ A → op ∈ U;
  ap_version t : observed (buffer_version b) t = true ↔ observed (buffer_version b0) t = true ∨
    ∃ d, d ∈ A ∧ op_replica_id d = replica_id t ∧ (value t ≤ value (op_timestamp d))%N;
  ap_closed op d : op ∈ A → d ∈ U → depends op d → d ∈ A;
  ap_len v : vcells v (scells (snapshot b)) = vcells v (scells (snapshot b0)) + len_of v A;
}.

Lemma len_of_snoc v l op : len_of v (l ++ [op]) = len_of v l + (if observed v (op_timestamp op) then op_len op else 0).
Proof. unfold len_of. rewrite fmap_app, list_sum_app. simpl. lia. Qed.

Lemma len_of_perm v l k : l ≡ₚ k → len_of v l = len_of v k.
Proof.
  intros H. unfold len_of. induction H as [|x l k _ IH|x y l|l k m _ IH1 _ IH2]; [done| | |]; rewrite ?fmap_cons; simpl; lia.
Qed.

(** What [v] observes of two lists that agree on it. *)
Lemma len_of_same v l k : NoDup l → NoDup k → (∀ op, observed v (op_timestamp op) = true → op ∈ l ↔ op ∈ k) → len_of v l = len_of v k.
Proof.
  intros Hl Hk H. assert (∀ l, len_of v l = len_of v (List.filter (λ op, observed v (op_timestamp op)) l)) as Hf.
  { clear. intros l. unfold len_of. induction l as [|x l IH]; [done|]. cbn [List.filter].
    destruct (observed v (op_timestamp x)) eqn:E; rewrite !fmap_cons; simpl; rewrite E, IH; done. }
  rewrite (Hf l), (Hf k). apply len_of_perm, NoDup_Permutation.
  - by apply NoDup_ListNoDup, List.NoDup_filter, NoDup_ListNoDup.
  - by apply NoDup_ListNoDup, List.NoDup_filter, NoDup_ListNoDup.
  - intros op. rewrite !list_elem_of_In, !filter_In, <- !list_elem_of_In. naive_solver.
Qed.

(** ** The length of a version's text *)

Lemma list_sum_perm l k : l ≡ₚ k → list_sum l = list_sum k.
Proof. induction 1; simpl in *; lia. Qed.

Lemma vcells_keys v l : vcells v l = list_sum ((λ k, if observed v k.1 then 1 else 0) <$> (ckey <$> l)).
Proof.
  induction l as [|c l IH]; [done|]. rewrite vcells_cons, IH, !fmap_cons. simpl. unfold RemoteCells.versioned.
  by destruct (observed v (c_timestamp c)).
Qed.

Lemma seq_keys_len v ts o n :
  list_sum ((λ k : Lamport * nat, if observed v k.1 then 1 else 0) <$> ((λ i, (ts, i)) <$> seq o n)) = if observed v ts then n else 0.
Proof.
  revert o. induction n as [|n IH]; intros o; cbn; [by destruct (observed v ts)|]. rewrite IH. by destruct (observed v ts).
Qed.

(** An operation adds what it inserts, for the versions that observe it. *)
Lemma op_cells_len TREE_BASE v s s' op : op_cells TREE_BASE s s' op →
  vcells v (scells s') = vcells v (scells s) + (if observed v (op_timestamp op) then op_len op else 0).
Proof.
  intros Hc. rewrite !vcells_keys. destruct op as [e|u]; cbn in Hc |- *.
  - destruct Hc as [_ ->]. rewrite (list_sum_perm _ ((λ k : Lamport * nat, if observed v k.1 then 1 else 0) <$>
      ((ckey <$> scells s) ++ ((λ i, (eo_timestamp e, i)) <$> seq 0 (inserted_len (remote_ops (eo_ranges e) (eo_new_text e))))))).
    2:{ apply fmap_Permutation, remote_cells_keys. }
    rewrite fmap_app, list_sum_app. f_equal. apply seq_keys_len.
  - destruct Hc as (_ & Hsame & _). replace (if observed v _ then 0 else 0) with 0 by by destruct (observed _ _).
    rewrite Nat.add_0_r. do 2 f_equal. symmetry.
    apply list_eq_Forall2, Forall2_fmap. eapply Forall2_impl; [exact Hsame|]. apply same_byte_key.
Qed.

(** ** Applying one operation *)

(** The heights and the clock allow the operation. *)
Definition op_low (TREE_BASE : nat) b (op : Operation) : bool :=
  heights_ok (snapshot b) && op_room TREE_BASE b op && (value (lamport_clock b) + 1 <=? u32_max)%N.

(** The same along [apply_ops]. *)
Fixpoint receive_low (TREE_BASE : nat) (max : N) b (ops : list Operation) : bool :=
  match ops with
  | [] => true
  | op :: ops =>
      let b := with_history b (History.push (history b) (op_timestamp op) (op_kind op)) in
      if can_apply_op b op then
        op_low TREE_BASE b op && match apply_op TREE_BASE max b op with Some b => receive_low TREE_BASE max b ops | None => true end
      else receive_low TREE_BASE max (defer_replica b op) ops
  end.
Fixpoint flush_low (TREE_BASE : nat) (max : N) b (ops : list Operation) : bool :=
  match ops with
  | [] => true
  | op :: ops =>
      if can_apply_op b op then
        op_low TREE_BASE b op && match apply_op TREE_BASE max b op with Some b => flush_low TREE_BASE max b ops | None => true end
      else flush_low TREE_BASE max (defer_replica b op) ops
  end.
Definition batch_low (TREE_BASE : nat) (max : N) b (ops : list Operation) : bool :=
  low (deferred_ops b) && receive_low TREE_BASE max b ops &&
  match receive_ops TREE_BASE max b ops [] with
  | Some (b, deferred) =>
      match insert_deferred TREE_BASE b deferred with
      | Some b => flush_low TREE_BASE max (with_deferred b SumTree.new ∅) (iter_ops (deferred_ops b))
      | None => true
      end
  | None => true
  end.

(** Each operation of [ops] was applied or is in [d]. *)
Record sorted_out (A A' d ops : list Operation) : Prop := {
  out_keep x : x ∈ A → x ∈ A';
  out_applied x : x ∈ A' → x ∈ A ∨ x ∈ ops;
  out_deferred x : x ∈ d → x ∈ ops;
  out_all x : x ∈ ops → x ∈ A' ∨ x ∈ d;
}.

Lemma sorted_out_nil A : sorted_out A A [] [].
Proof. split; auto. Qed.

Lemma sorted_out_apply A A1 A' d op ops : (∀ x, x ∈ A1 ↔ x ∈ A ∨ x = op) → sorted_out A1 A' d ops → sorted_out A A' d (op :: ops).
Proof.
  intros H1 [Hk Ha Hd Hall]. split; intros x; rewrite ?elem_of_cons.
  - intros ?. apply Hk, H1. by left.
  - intros [[?| ->]%H1|?]%Ha; auto.
  - intros ?%Hd. by right.
  - intros [->|?]; [left; apply Hk, H1; by right|by apply Hall].
Qed.

Lemma sorted_out_defer A A' d op ops : sorted_out A A' d ops → sorted_out A A' (op :: d) (op :: ops).
Proof.
  intros [Hk Ha Hd Hall]. split; intros x; rewrite ?elem_of_cons.
  - apply Hk.
  - intros [?|?]%Ha; auto.
  - intros [->|?%Hd]; auto.
  - intros [->|[?|?]%Hall]; auto.
Qed.

(** ** What should have been applied *)

(** Received, and so is everything it depends on. *)
Inductive deliverable (U R : list Operation) (op : Operation) : Prop :=
| deliver : op ∈ R → (∀ d, d ∈ U → depends op d → deliverable U R d) → deliverable U R op.

(** Several calls of [apply_ops]. *)
Fixpoint receive_batches (TREE_BASE : nat) (max : N) b (batches : list (list Operation)) : option Buffer :=
  match batches with
  | [] => Some b
  | ops :: batches => b ← apply_ops TREE_BASE max b ops; receive_batches TREE_BASE max b batches
  end.
Fixpoint batches_low (TREE_BASE : nat) (max : N) b (batches : list (list Operation)) : bool :=
  match batches with
  | [] => true
  | ops :: batches =>
      batch_low TREE_BASE max b ops &&
      match apply_ops TREE_BASE max b ops with Some b => batches_low TREE_BASE max b batches | None => true end
  end.

Section delivery.
Context (TREE_BASE : nat) (HB : 1 ≤ TREE_BASE) (max : N) (Hmax : (4 ≤ max ≤ u32_max)%N).
Context (base : option Lamport) (b0 : Buffer) (U : list Operation) (HU : session base b0 U).

Local Abbreviation applied := (applied TREE_BASE base b0 U).

Lemma session_inj a b : a ∈ U → b ∈ U → op_timestamp a = op_timestamp b → a = b.
Proof.
  intros Ha Hb Heq. apply list_elem_of_lookup in Ha as [i Hi], Hb as [j Hj].
  assert (i = j) as ->; [|congruence]. eapply (NoDup_lookup (op_timestamp <$> U)); [apply HU|..]; rewrite list_lookup_fmap.
  - by rewrite Hi.
  - rewrite Hj. simpl. by rewrite Heq.
Qed.

(** An operation is applied when its timestamp is observed. *)
Lemma applied_seen b A op : applied b A → op ∈ U → op ∈ A ↔ observed (buffer_version b) (op_timestamp op) = true.
Proof.
  intros HA Hop. split.
  - intros Hin. apply (ap_version _ _ _ _ _ _ HA). right. exists op. split; [done|]. split; [done|lia].
  - intros [Ho|(d & Hd & Hr & Hle)]%(ap_version _ _ _ _ _ _ HA); [rewrite (u_new _ _ _ HU op Hop) in Ho; done|].
    pose proof (ap_session _ _ _ _ _ _ HA d Hd) as HdU.
    destruct (decide (value (op_timestamp op) = value (op_timestamp d))) as [Heq|Hne].
    + assert (op = d) as ->; [|done]. apply session_inj; [done..|]. unfold op_replica_id in Hr.
      destruct (op_timestamp op), (op_timestamp d). cbn in *. congruence.
    + apply (ap_closed _ _ _ _ _ _ HA d op Hd Hop). unfold depends. apply (u_own _ _ _ HU op d); [done..|lia].
Qed.

(** It can be applied when all it depends on is applied. *)
Lemma ready_deps b A op : applied b A → op ∈ U → observed_all (buffer_version b) (op_version op) = true →
  ∀ d, d ∈ U → depends op d → d ∈ A.
Proof.
  intros HA Hop Hall d Hd Hdep. apply (applied_seen b A d HA Hd).
  apply observed_all_le in Hall; [|apply (so_version _ _ _ (bi_state _ _ _ (ro_inv _ _ _ (ap_ok _ _ _ _ _ _ HA))))|by apply (u_version _ _ _ HU)].
  unfold depends, observed in *. rewrite N.leb_le, get_at in *. specialize (Hall (N.to_nat (replica_id (op_timestamp d)))). lia.
Qed.

Lemma deps_ready b A op : applied b A → op ∈ U → (∀ d, d ∈ U → depends op d → d ∈ A) →
  observed_all (buffer_version b) (op_version op) = true.
Proof.
  intros HA Hop Hdeps.
  apply observed_all_le; [apply (so_version _ _ _ (bi_state _ _ _ (ro_inv _ _ _ (ap_ok _ _ _ _ _ _ HA))))|by apply (u_version _ _ _ HU)|].
  intros i. set (t := mkLamport (default 0%N (values (op_version op) !! i)) (N.of_nat i)).
  assert (observed (op_version op) t = true) as Ht.
  { unfold observed. apply N.leb_le. rewrite get_at. cbn. rewrite Nat2N.id. lia. }
  assert (observed (buffer_version b) t = true) as Hb.
  { apply (ap_version _ _ _ _ _ _ HA). destruct (u_known _ _ _ HU op t Hop Ht) as [?|(d & Hd & Hr & Hle & Ho)]; [by left|right].
    exists d. split; [by apply Hdeps|done]. }
  unfold observed in Hb. rewrite N.leb_le, get_at in Hb. cbn in Hb. by rewrite Nat2N.id in Hb.
Qed.

(** Otherwise something it depends on is missing. *)
Lemma not_ready b A op : applied b A → op ∈ U → observed_all (buffer_version b) (op_version op) = false →
  ∃ d, d ∈ U ∧ depends op d ∧ d ∉ A.
Proof.
  intros HA Hop Hall.
  destruct (decide (Forall (λ d, depends op d → observed (buffer_version b) (op_timestamp d) = true) U)) as [Hf|Hn].
  - rewrite (deps_ready b A op HA Hop) in Hall; [done|]. intros d Hd Hdep. rewrite Forall_forall in Hf.
    apply (applied_seen b A d HA Hd). by apply Hf.
  - apply not_Forall_Exists in Hn; [|apply _]. apply Exists_exists in Hn as (d & Hd & Hnot). exists d. split; [done|].
    destruct (decide (depends op d)) as [Hdep|?]; [|by exfalso; apply Hnot]. split; [done|]. intros HdA. apply Hnot. intros _.
    by apply (applied_seen b A d HA Hd).
Qed.

Lemma session_valid b A op : applied b A → op ∈ U → observed_all (buffer_version b) (op_version op) = true →
  op_valid_at base (snapshot b) op.
Proof.
  intros HA Hop Hall. pose proof (u_valid _ _ _ HU op Hop) as Hval. destruct (u_stamp _ _ _ HU op Hop) as [Hst _].
  destruct (u_version _ _ _ HU op Hop) as [Hwf Hlt]. pose proof (ready_deps b A op HA Hop Hall) as Hdeps.
  pose proof (bi_state _ _ _ (ro_inv _ _ _ (ap_ok _ _ _ _ _ _ HA))) as Hs. destruct op as [e|u]; cbn in *.
  - destruct Hval as [Hlen Hval]. split; [done..|].
    destruct (so_buffer _ _ _ Hs) as [_ _ Hv Hd].
    rewrite <- (vcells_cells max Hmax (eo_version e) (fragments (snapshot b)) (visible_text (snapshot b)) (deleted_text (snapshot b))) by lia.
    change (cells _ _ _) with (scells (snapshot b)). rewrite (ap_len _ _ _ _ _ _ HA).
    rewrite (len_of_same (eo_version e) A U); [done|by apply (ap_nodup _ _ _ _ _ _ HA)| |].
    + apply (NoDup_fmap_1 op_timestamp), HU.
    + intros d Ho. split; [apply (ap_session _ _ _ _ _ _ HA)|]. intros Hd'. by apply Hdeps.
  - split; [done|]. intros e He. destruct (Hval e He) as [Ho Hb]. split; [|done].
    apply observed_all_le in Hall; [|apply Hs|done]. unfold observed in *. rewrite N.leb_le, get_at in *.
    specialize (Hall (N.to_nat (replica_id e))). unfold buffer_version in Hall. lia.
Qed.

Lemma observe_iff v t x : observed (observe v t) x = true ↔
  observed v x = true ∨ replica_id t = replica_id x ∧ (value x ≤ value t)%N.
Proof.
  unfold observed. rewrite !N.leb_le, !get_at, observe_at. case_decide as Hi.
  - split; [|intros [?|[_ ?]]; lia]. intros H. destruct (decide (value x ≤ value t)%N); [right; split; [lia|done]|left; lia].
  - split; [by left|]. intros [?|[Heq _]]; [done|]. by rewrite Heq in Hi.
Qed.

Lemma apply_ready b A op : applied b A → op ∈ U → op ∉ A → observed_all (buffer_version b) (op_version op) = true →
  op_low TREE_BASE b op = true →
  ∃ b', apply_op TREE_BASE max b op = Some b' ∧ applied b' (A ++ [op]) ∧ deferred_ops b' = deferred_ops b ∧ deferred_replicas b' = deferred_replicas b.
Proof.
  intros HA Hop HnA Hall [[Hw Hr]%andb_true_iff H32%N.leb_le]%andb_true_iff. pose proof (session_valid b A op HA Hop Hall) as Hval.
  assert (observed (buffer_version b) (op_timestamp op) = false) as Hnew.
  { apply not_true_iff_false. intros Ho. by apply HnA, (applied_seen b A op HA Hop). }
  destruct (apply_new_keeps TREE_BASE HB max Hmax base b op (ap_ok _ _ _ _ _ _ HA)) as (b' & E & Hok & [_ Hv Hc _ _ (_ & Hd & Hdr)]); [|done|].
  { split; [done| |done]. split; [done|]. apply (u_stamp _ _ _ HU op Hop). }
  exists b'. split; [done|]. split; [|done]. pose proof HA as [_ Hnd Hses Hver Hcl Hlen]. split.
  - done.
  - apply NoDup_app. split; [done|]. split; [|apply NoDup_singleton]. by intros x Hx ->%list_elem_of_singleton.
  - intros x [?| ->%list_elem_of_singleton]%elem_of_app; [by apply Hses|done].
  - intros t. rewrite Hv, observe_iff, Hver. setoid_rewrite elem_of_app. setoid_rewrite list_elem_of_singleton. split.
    + intros [[?|(d & ? & ? & ?)]|[? ?]]; [by left|right; exists d; auto|right; exists op; auto].
    + intros [?|(d & [?| ->] & ? & ?)]; [by left; left|left; right; by exists d|by right].
  - intros x d [Hx| ->%list_elem_of_singleton]%elem_of_app Hd' Hdep; apply elem_of_app; left; [by eapply Hcl|].
    by apply (ready_deps b A op HA Hop Hall).
  - intros v. rewrite (op_cells_len _ _ _ _ _ Hc), Hlen, len_of_snoc. lia.
Qed.

(** An operation that arrives again changes nothing. *)
Lemma apply_applied b A op : applied b A → op ∈ A →
  ∃ b', apply_op TREE_BASE max b op = Some b' ∧ applied b' A ∧ deferred_ops b' = deferred_ops b ∧ deferred_replicas b' = deferred_replicas b.
Proof.
  intros HA Hop. pose proof HA as [Hok Hnd Hses Hver Hcl Hlen].
  rewrite (apply_op_again TREE_BASE max b op); [|by apply (applied_seen b A op HA (Hses op Hop))].
  eexists. split; [done|]. split; [|done]. split; try done. by apply waiters_ok.
Qed.

(** ** The two loops *)

Lemma applied_deferred b A q r : applied b A → applied (with_deferred b q r) A.
Proof. intros [[[??] ????] ? Hses Hver Hcl Hlen]. by split; [split; [split|..]|..]. Qed.

Lemma applied_push b A t k : applied b A → applied (with_history b (History.push (history b) t k)) A.
Proof. intros [[[??] ? [] ??] ? Hses Hver Hcl Hlen]. by split; [split; [split| |split|..]|..]. Qed.

(** Applying what can be applied. *)
Lemma step_applied b A op : applied b A → op ∈ U → can_apply_op b op = true → op_low TREE_BASE b op = true →
  ∃ b' A', apply_op TREE_BASE max b op = Some b' ∧ applied b' A' ∧ (∀ x, x ∈ A' ↔ x ∈ A ∨ x = op) ∧
    deferred_ops b' = deferred_ops b ∧ deferred_replicas b' = deferred_replicas b.
Proof.
  intros HA Hop Hcan Hlow. unfold can_apply_op in Hcan. destruct (decide _) in Hcan; [done|].
  destruct (observed (buffer_version b) (op_timestamp op)) eqn:Ho.
  - apply (applied_seen b A op HA Hop) in Ho. destruct (apply_applied b A op HA Ho) as (b' & E & HA' & H).
    exists b', A. split; [done|]. split; [done|]. split; [|done]. intros x. split; [by left|by intros [?| ->]].
  - assert (op ∉ A) as HnA by (intros H; apply (applied_seen b A op HA Hop) in H; congruence).
    destruct (apply_ready b A op HA Hop HnA Hcan Hlow) as (b' & E & HA' & H). exists b', (A ++ [op]).
    split; [done|]. split; [done|]. split; [|done]. intros x. by rewrite elem_of_app, list_elem_of_singleton.
Qed.

Lemma receive_applied ops b A deferred : applied b A → (∀ x, x ∈ ops → x ∈ U) → receive_low TREE_BASE max b ops = true →
  ∃ b' A' d, receive_ops TREE_BASE max b ops deferred = Some (b', deferred ++ d) ∧ applied b' A' ∧ deferred_ops b' = deferred_ops b ∧
    sorted_out A A' d ops.
Proof.
  revert b A deferred. induction ops as [|op ops IH]; intros b A deferred HA Hops Hlow; cbn [receive_ops receive_low] in *.
  { exists b, A, []. rewrite app_nil_r. split_and!; auto. apply sorted_out_nil. }
  pose proof (applied_push b A (op_timestamp op) (op_kind op) HA) as HA1. set (b1 := with_history b _) in *.
  destruct (can_apply_op b1 op) eqn:Hcan.
  - apply andb_true_iff in Hlow as [Hl Hlow].
    destruct (step_applied b1 A op HA1 (Hops op ltac:(by left)) Hcan Hl) as (b2 & A2 & E & HA2 & Hx & Hd & _).
    rewrite E in *. cbn [mbind option_bind].
    destruct (IH b2 A2 deferred HA2) as (b' & A' & d & -> & HA' & Hd' & Hout); [intros x ?; apply Hops; by right|done|].
    exists b', A', d. split; [done|]. split; [done|]. split; [by rewrite Hd', Hd|]. by apply (sorted_out_apply A A2).
  - destruct (IH (defer_replica b1 op) A (deferred ++ [op])) as (b' & A' & d & -> & HA' & Hd' & Hout);
      [by apply applied_deferred|intros x ?; apply Hops; by right|done|].
    exists b', A', (op :: d). rewrite <- app_assoc. split; [done|]. split; [done|]. split; [done|]. by apply sorted_out_defer.
Qed.

(** Something the operation depends on is not applied. *)
Definition lacks (op : Operation) (A : list Operation) : Prop := ∃ d, d ∈ U ∧ depends op d ∧ d ∉ A.

Lemma depends_before op d : op ∈ U → depends op d → (value (op_timestamp d) < value (op_timestamp op))%N.
Proof.
  intros Hop Hdep. destruct (u_version _ _ _ HU op Hop) as [_ Hlt]. destruct (u_stamp _ _ _ HU op Hop) as [[_ Hp] _].
  unfold depends, observed in Hdep. apply N.leb_le in Hdep. rewrite get_at in Hdep.
  destruct (values (op_version op) !! _) as [v|] eqn:E; cbn in Hdep; [|lia].
  rewrite Forall_forall in Hlt. specialize (Hlt v (list_elem_of_lookup_2 _ _ _ E)). lia.
Qed.

Lemma lacks_not_applied b A op : applied b A → lacks op A → op ∉ A.
Proof. intros HA (d & Hd & Hdep & Hn) Hop. by apply Hn, (ap_closed _ _ _ _ _ _ HA op d). Qed.

Lemma before_value (x y : Operation) : (op_timestamp x ≺ op_timestamp y)%ord →
  (value (op_timestamp x) ≤ value (op_timestamp y))%N ∧
  (op_replica_id x = op_replica_id y → value (op_timestamp x) < value (op_timestamp y))%N.
Proof.
  unfold op_replica_id. destruct (op_timestamp x) as [v r], (op_timestamp y) as [w s]. intros H.
  change ((v, r) ≺ (w, s))%ord in H. apply prod_lt in H as [H|[-> H]]; cbn.
  - apply (proj1 (N.compare_lt_iff _ _)) in H. split; [lia|intros _; lia].
  - split; [lia|]. intros ->. by apply cmp_lt_irrefl in H.
Qed.

(** An operation that is deferred in timestamp order lacks something. *)
Lemma deferred_lacks b A op (deferred : list Operation) : applied b A → op ∈ U → can_apply_op b op = false →
  (∀ x, x ∈ deferred → x ∈ U ∧ lacks x A ∧ (op_timestamp x ≺ op_timestamp op)%ord) →
  (∀ r, r ∈ deferred_replicas b → ∃ x, x ∈ deferred ∧ op_replica_id x = r) → lacks op A.
Proof.
  intros HA Hop Hcan Hdef Hdr. unfold can_apply_op in Hcan. destruct (decide _) as [Hin|_] in Hcan.
  - destruct (Hdr _ Hin) as (x & Hx & Hr). destruct (Hdef x Hx) as (HxU & Hl & Hlt). exists x. split; [done|].
    split; [|by apply (lacks_not_applied b)]. unfold depends. apply (u_own _ _ _ HU x op); [done..|]. by apply before_value.
  - by apply (not_ready b).
Qed.

(** What one lacks is not applied by what comes later. *)
Lemma lacks_later (A A' : list Operation) x op : x ∈ U → lacks x A → (op_timestamp x ≺ op_timestamp op)%ord → (∀ y, y ∈ A' ↔ y ∈ A ∨ y = op) → lacks x A'.
Proof.
  intros Hx (d & Hd & Hdep & Hn) Hlt HA'. exists d. split; [done|]. split; [done|]. rewrite HA'. intros [?| ->]; [done|].
  pose proof (depends_before x op Hx Hdep). apply before_value in Hlt as [? _]. lia.
Qed.

Lemma flush_applied (l : list Operation) b A (deferred : list Operation) : applied b A → (∀ x, x ∈ l → x ∈ U) → flush_low TREE_BASE max b l = true →
  StronglySorted (λ x y, (op_timestamp x ≺ op_timestamp y)%ord) l →
  (∀ x, x ∈ deferred → x ∈ U ∧ lacks x A ∧ ∀ y, y ∈ l → (op_timestamp x ≺ op_timestamp y)%ord) →
  (∀ r, r ∈ deferred_replicas b → ∃ x, x ∈ deferred ∧ op_replica_id x = r) →
  ∃ b' A' d, apply_or_defer TREE_BASE max b l deferred = Some (b', deferred ++ d) ∧ applied b' A' ∧ deferred_ops b' = deferred_ops b ∧
    sorted_out A A' d l ∧
    ∀ x, x ∈ deferred ++ d → lacks x A'.
Proof.
  intros HA Hl Hlow Hs. revert b A deferred HA Hlow. induction Hs as [|op l Hs IH Hop]; intros b A deferred HA Hlow Hdef Hdr; cbn [apply_or_defer flush_low] in *.
  { exists b, A, []. rewrite app_nil_r. split_and!; auto; [apply sorted_out_nil|]. intros x Hx. by apply Hdef. }
  pose proof (Hl op ltac:(by left)) as HopU. rewrite Forall_forall in Hop.
  destruct (can_apply_op b op) eqn:Hcan.
  - apply andb_true_iff in Hlow as [Hol Hlow].
    destruct (step_applied b A op HA HopU Hcan Hol) as (b2 & A2 & E & HA2 & Hx & Hd & Hr). rewrite E in *. cbn [mbind option_bind].
    destruct (IH ltac:(intros x ?; apply Hl; by right) b2 A2 deferred HA2 Hlow) as (b' & A' & d & -> & HA' & Hd' & Hout & H5).
    + intros x Hxd. destruct (Hdef x Hxd) as (HxU & Hlk & Hlt). split; [done|]. split; [|intros y ?; apply Hlt; by right].
      apply (lacks_later A A2 x op); [done|done|apply Hlt; by left|done].
    + by rewrite Hr.
    + exists b', A', d. split; [done|]. split; [done|]. split; [by rewrite Hd'|]. split; [by apply (sorted_out_apply A A2)|done].
  - assert (lacks op A) as Hlk.
    { apply (deferred_lacks b A op deferred); [done..| |done]. intros x Hxd. destruct (Hdef x Hxd) as (? & ? & Hlt).
      split; [done|]. split; [done|]. apply Hlt. by left. }
    destruct (IH ltac:(intros x ?; apply Hl; by right) (defer_replica b op) A (deferred ++ [op])) as
      (b' & A' & d & -> & HA' & Hd' & Hout & H5); [by apply applied_deferred|done| | |].
    + intros x [Hxd| ->%list_elem_of_singleton]%elem_of_app; [|done]. destruct (Hdef x Hxd) as (? & ? & Hlt).
      split; [done|]. split; [done|]. intros y ?. apply Hlt. by right.
    + intros r. unfold defer_replica. cbn. rewrite elem_of_union, elem_of_singleton. setoid_rewrite elem_of_app. setoid_rewrite list_elem_of_singleton.
      intros [->|Hr]; [exists op; auto|]. destruct (Hdr r Hr) as (x & ? & ?). exists x. auto.
    + exists b', A', (op :: d). rewrite <- app_assoc in *. split; [done|]. split; [done|]. split; [done|]. split; [by apply sorted_out_defer|done].
Qed.

(** ** A batch *)

(** What was received is applied, or waits in the queue for something. *)
Record pending b (A R : list Operation) : Prop := {
  pd_applied : applied b A;
  pd_received x : x ∈ R ↔ x ∈ A ∨ x ∈ iter_ops (deferred_ops b);
  pd_tree : wf_tree TREE_BASE (deferred_ops b);
  pd_sorted : ksorted (HK:=OperationItem_KeyedItem) (items (deferred_ops b));
  pd_lacks x : x ∈ iter_ops (deferred_ops b) → x ∈ U ∧ lacks x A;
}.

Lemma insert_deferred_ok b d : low (deferred_ops b) = true → wf_tree TREE_BASE (deferred_ops b) →
  ksorted (HK:=OperationItem_KeyedItem) (items (deferred_ops b)) → (∀ x, x ∈ d → x ∈ U) → (∀ x, x ∈ items (deferred_ops b) → x ∈ U) →
  ∃ q, insert_deferred TREE_BASE b d = Some (with_deferred b q (deferred_replicas b)) ∧ wf_tree TREE_BASE q ∧
    ksorted (HK:=OperationItem_KeyedItem) (items q) ∧ ∀ x, x ∈ iter_ops q ↔ x ∈ d ∨ x ∈ iter_ops (deferred_ops b).
Proof.
  intros Hl Hw Hs Hd Hq. destruct (queue_insert_ok TREE_BASE (deferred_ops b) d HB (low_walkable TREE_BASE _ Hw Hl) Hs) as (q & E & Hwq & Hsq & Hin & _).
  { intros x y Hx Hy. apply session_inj; by apply Hd. }
  exists q. unfold insert_deferred. rewrite E. split; [done|]. split; [done|]. split; [done|]. unfold iter_ops. intros x. rewrite Hin.
  split; [tauto|]. intros [?|Hx]; [by left|]. destruct (decide (Exists (λ op, op_timestamp op = op_timestamp x) d)) as [He|Hn].
  - left. apply Exists_exists in He as (op & Hop & Heq). assert (x = op) as ->; [|done]. apply session_inj; [by apply Hq|by apply Hd|done].
  - right. split; [done|]. intros op Hop Heq. apply Hn, Exists_exists. by exists op.
Qed.

Lemma batch_ok b A R ops : pending b A R → (∀ x, x ∈ ops → x ∈ U) → batch_low TREE_BASE max b ops = true →
  ∃ b' A', apply_ops TREE_BASE max b ops = Some b' ∧ pending b' A' (R ++ ops).
Proof.
  intros [HA HR Hw Hs Hlk] Hops [[Hl Hrl]%andb_true_iff Hfl]%andb_true_iff. unfold apply_ops.
  destruct (receive_applied ops b A [] HA Hops Hrl) as (b1 & A1 & d1 & E1 & HA1 & Hq1 & [H1 H2 H3 H4]). rewrite E1 in *. cbn [mbind option_bind app] in *.
  destruct (insert_deferred_ok b1 d1) as (q & Eq & Hwq & Hsq & Hinq); [by rewrite Hq1..|intros x ?; by apply Hops, H3|rewrite Hq1; intros x ?; by apply Hlk|].
  rewrite Eq in *. cbn [mbind option_bind] in *. unfold flush_deferred_ops, drain. cbn [deferred_ops with_deferred deferred_replicas].
  change (with_deferred (with_deferred (with_deferred b1 q (deferred_replicas b1)) q ∅) SumTree.new ∅) with (with_deferred b1 SumTree.new ∅).
  change (with_deferred (with_deferred b1 q _) SumTree.new ∅) with (with_deferred b1 SumTree.new ∅) in Hfl. cbn [deferred_ops with_deferred] in Hfl.
  assert (∀ x, x ∈ iter_ops q → x ∈ U) as HqU.
  { intros x [?|?]%Hinq; [by apply Hops, H3|]. rewrite Hq1 in *. by apply Hlk. }
  destruct (flush_applied (iter_ops q) (with_deferred b1 SumTree.new ∅) A1 []) as (b2 & A2 & d2 & E2 & HA2 & Hq2 & [H5 H6 H7 H8] & H9);
    [by apply applied_deferred|done|done|exact Hsq|by intros x ?%elem_of_nil|by intros r ?%elem_of_empty|].
  rewrite E2. cbn [mbind option_bind app] in *. cbn in Hq2.
  destruct (insert_deferred_ok b2 d2) as (q2 & Eq2 & Hwq2 & Hsq2 & Hinq2);
    [by rewrite Hq2|rewrite Hq2; by left|rewrite Hq2; constructor|intros x ?; by apply HqU, H7|rewrite Hq2; by intros x ?%elem_of_nil|].
  rewrite Eq2. rewrite Hq2 in Hinq2. exists (with_deferred b2 q2 (deferred_replicas b2)), A2. split; [done|].
  assert (∀ x, x ∈ iter_ops q2 ↔ x ∈ d2) as Hq2d. { intros x. rewrite Hinq2. split; [|auto]. by intros [?|?%elem_of_nil]. }
  split; cbn [deferred_ops with_deferred]; [by apply applied_deferred| |done|done|].
  - intros x. rewrite elem_of_app, Hq2d, HR, <- Hq1.
    assert (x ∈ iter_ops q → (x ∈ A ∨ x ∈ iter_ops (deferred_ops b1)) ∨ x ∈ ops) as Hback.
    { intros [?%H3|?]%Hinq; auto. }
    split.
    + intros [[?%H1%H5|?]|[?%H5|?]%H4]; [by left|apply H8, Hinq; by right|by left|apply H8, Hinq; by left].
    + intros [[[?|?]%H2|?]%H6|?%H7]; auto.
  - intros x Hx%Hq2d. split; [by apply HqU, H7|by apply H9].
Qed.

Lemma pending_start : replica_ok TREE_BASE base b0 → deferred_ops b0 = SumTree.new → pending b0 [] [].
Proof.
  intros Hok Hq. split; rewrite ?Hq; [|intros x; change (x ∈ [] ↔ x ∈ [] ∨ x ∈ ([] : list Operation)); tauto|by left|constructor|by intros x ?%elem_of_nil].
  split; [done|constructor|by intros ? ?%elem_of_nil| |by intros ?? ?%elem_of_nil|].
  - intros t. split; [by left|]. by intros [?|(d & ?%elem_of_nil & _)].
  - intros v. unfold len_of. cbn. lia.
Qed.

Lemma batches_ok batches b A R : pending b A R → (∀ ops x, ops ∈ batches → x ∈ ops → x ∈ U) →
  batches_low TREE_BASE max b batches = true →
  ∃ b' A', receive_batches TREE_BASE max b batches = Some b' ∧ pending b' A' (R ++ concat batches).
Proof.
  revert b A R. induction batches as [|ops batches IH]; intros b A R Hp Hops Hlow; cbn [receive_batches batches_low concat] in *.
  { exists b, A. by rewrite app_nil_r. }
  apply andb_true_iff in Hlow as [Hl Hlow].
  destruct (batch_ok b A R ops Hp) as (b1 & A1 & E & Hp1); [intros x; apply Hops; by left|done|].
  rewrite E in *. cbn [mbind option_bind]. rewrite app_assoc. apply (IH b1 A1); [done|intros l x ?; apply Hops; by right|done].
Qed.

(** The applied operations are those that should be. *)
Lemma applied_deliverable b A R op : pending b A R → op ∈ U → op ∈ A ↔ deliverable U R op.
Proof.
  intros [HA HR _ _ Hlk] Hop. split.
  - remember (value (op_timestamp op)) as n eqn:Hn. revert op Hop Hn. induction (N.lt_wf_0 n) as [n _ IH]. intros op Hop -> Hin.
    constructor; [apply HR; by left|]. intros d Hd Hdep. eapply IH; [by apply depends_before|done..|].
    by apply (ap_closed _ _ _ _ _ _ HA op d).
  - intros Hd. revert Hop. induction Hd as [op Hr _ IH]. intros Hop. apply HR in Hr as [?|Hq]; [done|].
    destruct (Hlk op Hq) as (_ & d & Hd & Hdep & Hn). exfalso. by apply Hn, IH.
Qed.
End delivery.

(** ** The theorems *)

(** C3: However the operations of a session arrive - in any order, in any
    batches, some more than once, some not at all - [apply_ops] never fails,
    the buffer has applied exactly the operations that were received together
    with everything they depend on, and exactly the other received ones wait in
    its queue. *)
Theorem causal_delivery TREE_BASE max base b0 U batches :
  1 ≤ TREE_BASE → (4 ≤ max ≤ u32_max)%N → replica_ok TREE_BASE base b0 → deferred_ops b0 = SumTree.new → session base b0 U →
  (∀ ops x, ops ∈ batches → x ∈ ops → x ∈ U) → batches_low TREE_BASE max b0 batches = true →
  ∃ b, receive_batches TREE_BASE max b0 batches = Some b ∧ replica_ok TREE_BASE base b ∧
    (∀ op, op ∈ U → observed (buffer_version b) (op_timestamp op) = true ↔ deliverable U (concat batches) op) ∧
    (∀ op, op ∈ iter_ops (deferred_ops b) ↔ op ∈ concat batches ∧ ¬ deliverable U (concat batches) op).
Proof.
  intros HB Hmax Hok Hq HU Hops Hlow.
  destruct (batches_ok TREE_BASE HB max Hmax base b0 U HU batches b0 [] [] (pending_start TREE_BASE HB max Hmax base b0 U Hok Hq) Hops Hlow)
    as (b & A & E & Hp). cbn [app] in Hp.
  exists b. split; [done|]. pose proof Hp as [HA HR _ _ Hlk]. split; [apply HA|].
  pose proof (applied_deliverable TREE_BASE HB max Hmax base b0 U HU b A (concat batches)) as Hdel.
  split.
  - intros op Hop. rewrite <- (applied_seen TREE_BASE HB max Hmax base b0 U HU b A op HA Hop). by apply Hdel.
  - intros op. split.
    + intros Hin. destruct (Hlk op Hin) as [Hop Hl]. split; [apply HR; by right|]. rewrite <- (Hdel op Hp Hop).
      by apply (lacks_not_applied TREE_BASE base b0 U b A).
    + intros [[?|?]%HR Hn]; [|done]. exfalso. apply Hn. apply (Hdel op Hp); [by apply (ap_session _ _ _ _ _ _ HA)|done].
Qed.

(** ** Examples *)

Module DeliveryExamples.
Import Byte ReplicaExamples.

(** Replica 1 edits and undoes its edit, replica 3 edits concurrently; replica 2
    receives the undo and the third replica's edit first. *)
Definition op2 : Operation :=
  match undo 6 b1 with Some (Some (_, op), _) => op | _ => op1 end.
Definition op3 : Operation :=
  default op1 (fst <$> (b ← new_buffer 6 16 3 text; edit 6 16 b [mkTextEdit 1 2 [x59]] 0 0)).
Definition U : list Operation := [op1; op2; op3].
Definition batches : list (list Operation) := [[op2; op3]; [op1; op3]].

(** Every entry of a version was there at first, or is an operation. *)
Definition known_check (v0 : Global) (U : list Operation) : bool :=
  forallb (λ op, forallb (λ i, let v := default 0%N (values (op_version op) !! i) in
    (v <=? default 0%N (values v0 !! i))%N ||
    existsb (λ d, (value (op_timestamp d) =? v)%N && (replica_id (op_timestamp d) =? N.of_nat i)%N) U)
    (seq 0 (length (values (op_version op))))) U.

Lemma known_check_ok b0 U : known_check (buffer_version b0) U = true →
  ∀ op t, op ∈ U → observed (op_version op) t = true → observed (buffer_version b0) t = true ∨
    ∃ d, d ∈ U ∧ op_replica_id d = replica_id t ∧ (value t ≤ value (op_timestamp d))%N ∧ observed (op_version op) (op_timestamp d) = true.
Proof.
  intros Hc op t Hop Ho. unfold known_check in Hc. rewrite forallb_forall in Hc. specialize (Hc op (proj1 (list_elem_of_In _ _) Hop)).
  rewrite forallb_forall in Hc. unfold observed in Ho. apply N.leb_le in Ho. rewrite get_at in Ho.
  destruct (values (op_version op) !! N.to_nat (replica_id t)) as [v|] eqn:E; cbn in Ho; [|left; unfold observed; apply N.leb_le; lia].
  specialize (Hc (N.to_nat (replica_id t))). rewrite E in Hc. cbn in Hc.
  destruct (proj1 (orb_true_iff _ _) (Hc ltac:(apply in_seq; apply lookup_lt_Some in E; lia))) as [Hle%N.leb_le|Hex].
  - left. unfold observed. apply N.leb_le. rewrite get_at. lia.
  - right. apply existsb_exists in Hex as (d & Hd & [Hv%N.eqb_eq Hr%N.eqb_eq]%andb_true_iff). rewrite N2Nat.id in Hr.
    exists d. split; [by apply list_elem_of_In|]. split; [done|]. split; [lia|]. unfold observed. apply N.leb_le. rewrite get_at, Hr, E. cbn. lia.
Defined.

Example delivered_text :
  (λ b, (visible_text (snapshot b), length (iter_ops (deferred_ops b)))) <$> receive_batches 6 16 c0 [[op2; op3]] = Some ([x61; x59; x62], 1) ∧
  (λ b, (visible_text (snapshot b), length (iter_ops (deferred_ops b)))) <$> receive_batches 6 16 c0 batches = Some ([x61; x59; x62], 0).
Proof. split; vm_compute; reflexivity. Qed.

Definition undo1 : UndoOperation := mkUndoOperation (mkLamport 4 1) (mkGlobal [1; 3]%N) {[mkLamport 3 1 := 1%N]}.
Definition edit3 : EditOperation := mkEditOperation (mkLamport 3 3) (mkGlobal [1]%N) [(1, 2)] [[x59]].

Lemma U_eq : U = [OpEdit e1; OpUndo undo1; OpEdit edit3].
Proof. vm_compute. reflexivity. Defined.

Lemma in_three (P : Operation → Prop) : P (OpEdit e1) → P (OpUndo undo1) → P (OpEdit edit3) → ∀ op, op ∈ U → P op.
Proof. rewrite U_eq. intros H1 H2 H3 op [->|[->|[->|?%elem_of_nil]%elem_of_cons]%elem_of_cons]%elem_of_cons; done. Defined.

Lemma U_session : session (base_of (normalize text)) c0 U.
Proof.
  assert (∀ v, vcells v (scells (snapshot c0)) = if observed v (mkLamport 1 0) then 3 else 0) as Hv0.
  { intros v. assert (scells (snapshot c0) = [mkCell (mkLamport 1 0) 0 x61 true [] new_global; mkCell (mkLamport 1 0) 1 LF true [] new_global;
      mkCell (mkLamport 1 0) 2 x62 true [] new_global]) as -> by (vm_compute; reflexivity).
    unfold vcells. cbn [List.filter]. unfold RemoteCells.versioned. cbn [c_timestamp]. by destruct (observed v _). }
  split.
  - rewrite U_eq. apply (bool_decide_unpack _). by vm_compute.
  - apply in_three; by vm_compute.
  - apply in_three; (split; [split; [split; [by apply N.leb_le|by apply N.ltb_lt]|by apply N.ltb_lt]|by apply N.leb_le]).
  - apply in_three; (split; [split; [repeat constructor; by apply N.leb_le|done]|repeat constructor]).
  - set (own := λ a b, op_replica_id a = op_replica_id b → (value (op_timestamp a) < value (op_timestamp b))%N →
      observed (op_version b) (op_timestamp a) = true). intros a b Ha Hb. change (own a b).
    apply (in_three (λ a, ∀ b, b ∈ U → own a b)); try done; apply (in_three _); unfold own; cbn; try done; lia.
  - apply known_check_ok. by vm_compute.
  - apply in_three; cbn [sent_valid eo_ranges eo_new_text length].
    + split; [done|]. unfold version_len, len_of. rewrite Hv0, U_eq. change (eo_version e1) with (mkGlobal [1]%N). cbn.
      repeat split; simpl; try lia; try done; by apply LocalEditExamples.short_small; simpl; lia.
    + intros e [c Hc]. unfold undo1 in Hc. cbn in Hc. apply lookup_singleton_Some in Hc as [<- _]. split; [by vm_compute|done].
    + split; [done|]. unfold version_len, len_of. rewrite Hv0, U_eq. change (eo_version edit3) with (mkGlobal [1]%N). cbn.
      repeat split; simpl; try lia; try done; by apply LocalEditExamples.short_small; simpl; lia.
Defined.

Example causal_delivery_witness :
  ∃ b, receive_batches 6 16 c0 batches = Some b ∧ replica_ok 6 (base_of (normalize text)) b ∧
    (∀ op, op ∈ U → observed (buffer_version b) (op_timestamp op) = true ↔ deliverable U (concat batches) op) ∧
    (∀ op, op ∈ iter_ops (deferred_ops b) ↔ op ∈ concat batches ∧ ¬ deliverable U (concat batches) op).
Proof.
  apply (causal_delivery 6 16 (base_of (normalize text)) c0 U batches);
    [lia|apply small_max|apply c0_ok|vm_compute; reflexivity|apply U_session| |vm_compute; reflexivity].
  intros ops x [->|[->|?%elem_of_nil]%elem_of_cons]%elem_of_cons; [|..]; intros Hx; try done;
    apply elem_of_cons in Hx as [->|Hx%list_elem_of_singleton]; try subst x; unfold U; set_solver.
Defined.
End DeliveryExamples.
