(* ===== verification/ChunkOk.v ===== *)
(** * Chunk operations keep and read the bitmaps

    Appending, prepending, splitting and slicing keep a chunk's bitmaps the
    bits of its text; the queries on the bitmaps are the obvious functions of
    the text. *)

From S2P Require Import Prelude Text Bitmap Select Utf8 Summary Chunk ChunkBits.

(** ** Bits of parts of a text *)

Lemma chars_bits_length t : length (chars_bits t) = length t.
Proof. apply length_fmap. Qed.
Lemma newline_bits_length t : length (newline_bits t) = length t.
Proof. apply length_fmap. Qed.
Lemma tab_bits_length t : length (tab_bits t) = length t.
Proof. apply length_fmap. Qed.

Lemma utf16_from_take p t o : utf16_from p (take o t) = take o (utf16_from p t).
Proof. revert p o. induction t as [|b t IH]; intros p [|o]; [done..|]. cbn. by rewrite IH. Qed.
Lemma utf16_bits_take t o : utf16_bits (take o t) = take o (utf16_bits t).
Proof. apply utf16_from_take. Qed.
Lemma utf16_bits_drop t o : utf8 t → is_char_boundary t o = true → utf16_bits (drop o t) = drop o (utf16_bits t).
Proof.
  intros Ht Ho. rewrite <- (take_drop o t) at 2. rewrite utf16_bits_app by by apply utf8_split.
  pose proof (boundary_le t o Ho). rewrite drop_app_length'; [done|]. rewrite utf16_bits_length, length_take. lia.
Qed.
Lemma chars_bits_take t o : chars_bits (take o t) = take o (chars_bits t).
Proof. apply fmap_take. Qed.
Lemma chars_bits_drop t o : chars_bits (drop o t) = drop o (chars_bits t).
Proof. apply fmap_drop. Qed.
Lemma newline_bits_take t o : newline_bits (take o t) = take o (newline_bits t).
Proof. apply fmap_take. Qed.
Lemma newline_bits_drop t o : newline_bits (drop o t) = drop o (newline_bits t).
Proof. apply fmap_drop. Qed.
Lemma tab_bits_take t o : tab_bits (take o t) = take o (tab_bits t).
Proof. apply fmap_take. Qed.
Lemma tab_bits_drop t o : tab_bits (drop o t) = drop o (tab_bits t).
Proof. apply fmap_drop. Qed.

Create HintDb bits.
#[export] Hint Rewrite chars_bits_length newline_bits_length tab_bits_length utf16_bits_length @length_take @length_drop : bits.
#[export] Hint Rewrite <- chars_bits_take newline_bits_take tab_bits_take utf16_bits_take chars_bits_drop newline_bits_drop
  tab_bits_drop : bits.

Section chunk_ops.
Context (MAX_BASE : nat) (HMAX : 2 ≤ MAX_BASE ≤ 128).

Lemma small_u32 o : o ≤ MAX_BASE → as_u32 o = o.
Proof using HMAX. intros Ho. apply as_u32_small. unfold is_u32, u32_max. lia. Qed.

Lemma shl_bits l k : length l + length k ≤ MAX_BASE → k ≠ [] →
  ∃ x, shl MAX_BASE (of_bits k) (length l) = Some x ∧ N.lor (of_bits l) x = of_bits (l ++ k).
Proof.
  intros Hl Hk. pose proof (shl_app MAX_BASE l k Hl Hk) as H. destruct (shl _ _ _) as [x|]; [|done].
  exists x. split; [done|]. by injection H.
Qed.

Lemma append_of t u : utf8 t → utf8 u → length t + length u ≤ MAX_BASE →
  append MAX_BASE (chunk_of t) (chunk_of u) = Some (chunk_of (t ++ u)).
Proof.
  intros Ht Hu Hl. unfold append. cbn [text chunk_of chars chars_utf16 newlines tabs].
  case_bool_decide as Hnil; [by rewrite Hnil, app_nil_r|].
  assert (∀ f : Text → list bool, (∀ t, length (f t) = length t) → f (t ++ u) = f t ++ f u →
    ∃ x, shl MAX_BASE (of_bits (f u)) (length t) = Some x ∧ N.lor (of_bits (f t)) x = of_bits (f (t ++ u))) as Hf.
  { intros f Hlen Happ. rewrite Happ, <- (Hlen t). apply shl_bits; [by rewrite !Hlen|].
    intros E%(f_equal length). rewrite Hlen in E. by destruct u. }
  destruct (Hf chars_bits chars_bits_length) as (c & -> & Hc); [apply fmap_app|].
  destruct (Hf utf16_bits utf16_bits_length) as (w & -> & Hw); [by apply utf16_bits_app|].
  destruct (Hf newline_bits newline_bits_length) as (n & -> & Hn); [apply fmap_app|].
  destruct (Hf tab_bits tab_bits_length) as (b & -> & Hb); [apply fmap_app|].
  cbn [mbind option_bind]. rewrite (proj2 (Nat.leb_le _ _) Hl). unfold chunk_of. by rewrite Hc, Hw, Hn, Hb.
Qed.

Lemma prepend_of t u : utf8 t → utf8 u → length t + length u ≤ MAX_BASE →
  prepend MAX_BASE (chunk_of t) (chunk_of u) = Some (chunk_of (u ++ t)).
Proof using HMAX.
  intros Ht Hu Hl. unfold prepend. cbn [text chunk_of chars chars_utf16 newlines tabs].
  case_bool_decide as Hnil; [by rewrite Hnil|]. case_bool_decide as Hnil'.
  { rewrite Hnil', app_nil_r. apply new_of; [lia|done|]. lia. }
  assert (∀ f : Text → list bool, (∀ t, length (f t) = length t) → f (u ++ t) = f u ++ f t →
    ∃ x, shl MAX_BASE (of_bits (f t)) (length u) = Some x ∧ N.lor (of_bits (f u)) x = of_bits (f (u ++ t))) as Hf.
  { intros f Hlen Happ. rewrite Happ, <- (Hlen u). apply shl_bits; [rewrite !Hlen; lia|].
    intros E%(f_equal length). rewrite Hlen in E. by destruct t. }
  destruct (Hf chars_bits chars_bits_length) as (c & -> & Hc); [apply fmap_app|].
  destruct (Hf utf16_bits utf16_bits_length) as (w & -> & Hw); [by apply utf16_bits_app|].
  destruct (Hf newline_bits newline_bits_length) as (n & -> & Hn); [apply fmap_app|].
  destruct (Hf tab_bits tab_bits_length) as (b & -> & Hb); [apply fmap_app|].
  cbn [mbind option_bind]. rewrite (proj2 (Nat.leb_le _ _)) by lia. unfold chunk_of. by rewrite Hc, Hw, Hn, Hb.
Qed.

Lemma push_str_of t u : utf8 t → utf8 u → length t + length u ≤ MAX_BASE → push_str MAX_BASE (chunk_of t) u = Some (chunk_of (t ++ u)).
Proof using HMAX. intros Ht Hu Hl. unfold push_str. rewrite new_of by (done || lia). by apply append_of. Qed.
Lemma prepend_str_of t u : utf8 t → utf8 u → length t + length u ≤ MAX_BASE → prepend_str MAX_BASE (chunk_of t) u = Some (chunk_of (u ++ t)).
Proof using HMAX. intros Ht Hu Hl. unfold prepend_str. rewrite new_of by (done || lia). by apply prepend_of. Qed.

(** ** Boundaries *)

Lemma land_bit_zero l o : length l ≤ MAX_BASE → (N.land (unbounded_shl MAX_BASE 1 o) (of_bits l) =? 0)%N = negb (default false (l !! o)).
Proof.
  intros Hl. unfold unbounded_shl. destruct (Nat.ltb_spec o MAX_BASE).
  - rewrite N.shiftl_1_l, wrap_small by (apply N.pow_lt_mono_r; lia). rewrite <- testbit_of_bits.
    destruct (N.testbit (of_bits l) (N.of_nat o)) eqn:E; cbn [negb].
    + apply N.eqb_neq. intros H0. apply (f_equal (λ x, N.testbit x (N.of_nat o))) in H0.
      rewrite N.land_spec, N.pow2_bits_true, N.bits_0, E in H0. done.
    + apply N.eqb_eq, N.bits_inj_0. intros i. rewrite N.land_spec, N.pow2_bits_eqb. destruct (N.eqb_spec (N.of_nat o) i) as [<-|]; done.
  - rewrite lookup_ge_None_2 by lia. done.
Qed.

Lemma chunk_boundary_of t o : utf8 t → length t ≤ MAX_BASE → o ≤ MAX_BASE →
  chunk_is_char_boundary MAX_BASE (chunk_of t) o = is_char_boundary t o.
Proof using HMAX.
  intros Ht Hl Ho. unfold chunk_is_char_boundary. cbn [text chars chunk_of]. rewrite small_u32 by done.
  rewrite land_bit_zero by by rewrite chars_bits_length. rewrite negb_involutive.
  unfold chars_bits, is_char_boundary. rewrite list_lookup_fmap. destruct (Nat.eqb_spec o 0) as [->|Ho0].
  - destruct t as [|b t]; [done|]. destruct Ht as ([|c cs] & Hcs & E); [done|]. apply Forall_cons in Hcs as [Hc _].
    pose proof (encode_char_boundary c Hc) as Hb. rewrite encode_cons in E. destruct (encode_char c); [done|].
    injection E as -> _. injection Hb as Hb _. cbn. by rewrite Hb.
  - destruct (t !! o) as [b|] eqn:E; cbn; [|done]. apply lookup_lt_Some in E. rewrite (proj2 (Nat.eqb_neq o _)) by lia. apply orb_false_r.
Qed.

(** ** Parts of a chunk *)

Lemma mask_of l e : length l ≤ MAX_BASE → N.land (of_bits l) (saturating_shl_mask MAX_BASE e) = of_bits (take e l).
Proof. apply mask_take. Qed.

Lemma shr_of l n : n < MAX_BASE → shr MAX_BASE (of_bits l) n = Some (of_bits (drop n l)).
Proof. intros Hn. unfold shr. by rewrite (proj2 (Nat.ltb_lt _ _) Hn), of_bits_drop. Qed.

Lemma shl_one n : n < MAX_BASE → ∃ m, shl MAX_BASE 1 n = Some m ∧ (m - 1)%N = N.ones (N.of_nat n).
Proof.
  intros Hn. unfold shl. rewrite (proj2 (Nat.ltb_lt _ _) Hn). eexists. split; [done|].
  rewrite N.shiftl_1_l, wrap_small by (apply N.pow_lt_mono_r; lia). by rewrite N.ones_equiv, N.sub_1_r.
Qed.

Lemma chunk_of_take t e : chunk_of (take e t) =
  mkChunk (of_bits (take e (chars_bits t))) (of_bits (take e (utf16_bits t))) (of_bits (take e (newline_bits t))) (of_bits (take e (tab_bits t))) (take e t).
Proof. unfold chunk_of. by rewrite chars_bits_take, utf16_bits_take, newline_bits_take, tab_bits_take. Qed.
Lemma chunk_of_drop t s : utf8 t → is_char_boundary t s = true → chunk_of (drop s t) =
  mkChunk (of_bits (drop s (chars_bits t))) (of_bits (drop s (utf16_bits t))) (of_bits (drop s (newline_bits t))) (of_bits (drop s (tab_bits t))) (drop s t).
Proof. intros Ht Hs. unfold chunk_of. by rewrite chars_bits_drop, utf16_bits_drop, newline_bits_drop, tab_bits_drop. Qed.

Lemma split_at_of t mid : utf8 t → length t ≤ MAX_BASE → is_char_boundary t mid = true →
  split_at MAX_BASE (chunk_of t) mid = Some (chunk_of (take mid t), chunk_of (drop mid t)).
Proof.
  intros Ht Hl Hmid. pose proof (boundary_le t mid Hmid) as Hle. unfold split_at. destruct (Nat.eqb_spec mid MAX_BASE) as [->|Hne].
  - rewrite take_ge, drop_ge by lia. done.
  - destruct (shl_one mid) as (m & -> & Hm); [lia|]. cbn [mbind option_bind text chars chars_utf16 newlines tabs chunk_of].
    unfold str_split_at, is_str_boundary. rewrite Hmid. cbn [mbind option_bind]. rewrite !shr_of by lia. cbn [mbind option_bind].
    rewrite Hm, !of_bits_take, chunk_of_take, chunk_of_drop by done. done.
Qed.

Lemma slice_of t s e : utf8 t → length t ≤ MAX_BASE → is_char_boundary t s = true → is_char_boundary t e = true → s ≤ e →
  slice MAX_BASE (chunk_of t) s e = Some (chunk_of (drop s (take e t))).
Proof using HMAX.
  intros Ht Hl Hs He Hse. pose proof (boundary_le t e He) as Hle. unfold slice. destruct (Nat.eqb_spec s MAX_BASE) as [->|Hne].
  - rewrite drop_ge by (rewrite length_take; lia). done.
  - rewrite !chunk_boundary_of, Hs, He by (done || lia). cbn [text chars chars_utf16 newlines tabs chunk_of].
    rewrite small_u32, !mask_of, !shr_of by (autorewrite with bits; lia). cbn [mbind option_bind].
    unfold str_slice, is_str_boundary. rewrite Hs, He, (proj2 (Nat.leb_le _ _) Hse). cbn [andb mbind option_bind].
    destruct (utf8_split t e Ht He) as [Hte _].
    pose proof (boundary_take t s e Hs Hse) as Hs'.
    rewrite chunk_of_drop by done. rewrite chars_bits_take, utf16_bits_take, newline_bits_take, tab_bits_take.
    do 2 f_equal. rewrite skipn_firstn_comm. done.
Qed.
End chunk_ops.
