(* ===== verification/ChunkPoints.v ===== *)
(** * Offsets and points of a chunk

    The bit-level conversions between byte offsets, UTF-16 offsets, rows and
    columns are the ones counted from the text before the offset. *)

From S2P Require Import Prelude Text Bitmap Select Utf8 Summary Chunk ChunkBits ChunkOk.

(** ** Reference functions on texts *)

Definition utf16_len (t : Text) : nat := count_true (utf16_bits t).
Definition line_count (t : Text) : nat := count_true (newline_bits t).
(** How many bytes follow the last newline. *)
Definition tail_len (t : Text) : nat := lead (rev (newline_bits t)).
Definition tail_units (t : Text) : nat := count_true (drop (length t - tail_len t) (utf16_bits t)).

(** The point after a text, and the same in UTF-16 units. *)
Definition point_of (t : Text) : Point := mkPoint (N.of_nat (line_count t)) (N.of_nat (tail_len t)).
Definition point16_of (t : Text) : PointUtf16 := mkPoint (N.of_nat (line_count t)) (N.of_nat (tail_units t)).

(** [s] and [e] are where row [r] starts and ends. *)
Record row_range (t : Text) (r s e : nat) : Prop := {
  rr_le : s ≤ e ≤ length t;
  rr_start : point_of (take s t) = mkPoint (N.of_nat r) 0;
  rr_no_newline : Forall (λ b, b ≠ LF) (drop s (take e t));
  rr_end : e = length t ∨ t !! e = Some LF;
}.

Lemma tail_len_le t : tail_len t ≤ length t.
Proof. unfold tail_len. rewrite <- (newline_bits_length t), <- length_rev. apply lead_le. Qed.

Lemma newline_bit_true t i : newline_bits t !! i = Some true → t !! i = Some LF.
Proof.
  unfold newline_bits. rewrite list_lookup_fmap. destruct (t !! i) as [b|]; [|done]. cbn. intros [= H]. f_equal.
  by apply bool_decide_eq_true in H.
Qed.

(** ** Lists of bits *)

Lemma Forall_false_count l : Forall (λ b, b = false) l ↔ count_true l = 0.
Proof.
  split; [induction 1 as [|b l -> _ IH]; [done|]; by rewrite count_true_cons, IH|].
  induction l as [|b l IH]; [constructor|]. rewrite count_true_cons. destruct b; cbn; [lia|]. constructor; [done|]. by apply IH.
Qed.

Lemma lead_take l : Forall (λ b, b = false) (take (lead l) l).
Proof. induction l as [|[] l IH]; cbn; constructor; done. Qed.
Lemma lead_stop l : lead l = length l ∨ l !! lead l = Some true.
Proof. induction l as [|[] l IH]; cbn; [by left|by right|]. destruct IH as [->|H]; [by left|by right]. Qed.
Lemma lead_false l k : Forall (λ b, b = false) l → lead (l ++ k) = length l + lead k.
Proof. intros H. by rewrite lead_app, bool_decide_eq_true_2. Qed.

(** Position after the [n]-th one. *)
Definition after_nth (l : list bool) (n : nat) : nat := if n =? 0 then 0 else S (nth_true l n).

Lemma after_nth_le l n : n ≤ count_true l → after_nth l n ≤ length l.
Proof. intros Hn. unfold after_nth. destruct (Nat.eqb_spec n 0); [lia|]. apply nth_true_lt. lia. Qed.
Lemma after_nth_count l n : n ≤ count_true l → count_true (take (after_nth l n) l) = n.
Proof.
  intros Hn. unfold after_nth. destruct (Nat.eqb_spec n 0) as [->|]; [done|]. destruct (nth_true_spec l n) as [Ht Hc]; [lia|].
  rewrite (take_S_r _ _ _ Ht), count_true_app, Hc. unfold count_true. cbn. lia.
Qed.
Lemma after_nth_last l n : 1 ≤ n ≤ count_true l → lead (rev (take (after_nth l n) l)) = 0.
Proof.
  intros Hn. unfold after_nth. rewrite (proj2 (Nat.eqb_neq n 0)) by lia. destruct (nth_true_spec l n Hn) as [Ht _].
  by rewrite (take_S_r _ _ _ Ht), rev_app_distr.
Qed.

(** The end of the zeros after the [n]-th one. *)
Definition run_end (l : list bool) (n : nat) : nat := after_nth l n + lead (drop (after_nth l n) l).

Lemma run_end_le l n : n ≤ count_true l → after_nth l n ≤ run_end l n ≤ length l.
Proof.
  intros Hn. pose proof (after_nth_le l n Hn). pose proof (lead_le (drop (after_nth l n) l)) as Hl. rewrite length_drop in Hl.
  unfold run_end. lia.
Qed.
Lemma run_end_zeros l n : n ≤ count_true l → Forall (λ b, b = false) (drop (after_nth l n) (take (run_end l n) l)).
Proof.
  intros Hn. unfold run_end. rewrite skipn_firstn_comm.
  replace (after_nth l n + lead (drop (after_nth l n) l) - after_nth l n) with (lead (drop (after_nth l n) l)) by lia. apply lead_take.
Qed.
Lemma run_end_count l n : n ≤ count_true l → count_true (take (run_end l n) l) = n.
Proof.
  intros Hn. pose proof (run_end_le l n Hn). rewrite <- (take_drop (after_nth l n) (take (run_end l n) l)), count_true_app.
  rewrite take_take, Nat.min_l by lia. rewrite after_nth_count by done.
  rewrite (proj1 (Forall_false_count _)); [lia|]. by apply run_end_zeros.
Qed.
Lemma run_end_stop l n : n ≤ count_true l → run_end l n = length l ∨ l !! run_end l n = Some true.
Proof.
  intros Hn. pose proof (after_nth_le l n Hn). destruct (lead_stop (drop (after_nth l n) l)) as [H'|H'].
  - left. unfold run_end. rewrite H', length_drop. lia.
  - right. by rewrite lookup_drop in H'.
Qed.

(** Only one place has [n] ones before it and a one after it. *)
Lemma run_end_unique l n o : count_true (take o l) = n → o ≤ length l → o = length l ∨ l !! o = Some true → run_end l n = o.
Proof.
  intros Hc Ho Hstop. assert (n ≤ count_true l) as Hn by (rewrite <- (take_drop o l), count_true_app; lia).
  assert (∀ a b, a < b ≤ length l → l !! a = Some true → count_true (take a l) < count_true (take b l)) as Hmono.
  { intros a b Hab Ha. rewrite <- (take_drop (S a) (take b l)), count_true_app, take_take, Nat.min_l by lia.
    rewrite (take_S_r _ _ _ Ha), count_true_app. change (count_true [true]) with 1. lia. }
  pose proof (run_end_le l n Hn) as [_ Hle]. destruct (lt_eq_lt_dec (run_end l n) o) as [[Hlt|]|Hlt]; [exfalso|done|exfalso].
  - destruct (run_end_stop l n Hn) as [|Hs]; [lia|]. pose proof (Hmono (run_end l n) o ltac:(lia) Hs). rewrite run_end_count in *; lia.
  - destruct Hstop as [|Hs]; [lia|]. pose proof (Hmono o (run_end l n) ltac:(lia) Hs). rewrite run_end_count in *; lia.
Qed.

Lemma run_end_max l n o : count_true (take o l) = n → o ≤ length l → o ≤ run_end l n.
Proof.
  intros Hc Ho. destruct (decide (o ≤ run_end l n)); [done|exfalso].
  assert (n ≤ count_true l) as Hn by (rewrite <- (take_drop o l), count_true_app; lia).
  destruct (run_end_stop l n Hn) as [|Hs]; [lia|]. pose proof (run_end_count l n Hn) as Hr.
  rewrite <- (take_drop (S (run_end l n)) (take o l)), count_true_app, take_take, Nat.min_l in Hc by lia.
  rewrite (take_S_r _ _ _ Hs), count_true_app in Hc. change (count_true [true]) with 1 in Hc. lia.
Qed.

Lemma after_nth_self l : after_nth l (count_true l) = length l - lead (rev l).
Proof.
  induction l as [|b l IH] using rev_ind; [done|]. rewrite count_true_app, rev_app_distr, length_app. cbn [rev app length].
  destruct b; cbn [lead].
  - change (count_true [true]) with 1. unfold after_nth. rewrite (proj2 (Nat.eqb_neq _ 0)) by lia.
    rewrite nth_true_app, (proj2 (Nat.leb_gt _ _)) by lia. replace (count_true l + 1 - count_true l) with 1 by lia. cbn. lia.
  - change (count_true [false]) with 0. rewrite Nat.add_0_r. pose proof (lead_le (rev l)) as Hle. rewrite length_rev in Hle.
    unfold after_nth in *. destruct (Nat.eqb_spec (count_true l) 0); [lia|].
    rewrite nth_true_app, (proj2 (Nat.leb_le _ _)) by lia. lia.
Qed.

Lemma after_nth_prefix l o : o ≤ length l → after_nth l (count_true (take o l)) = o - lead (rev (take o l)).
Proof.
  intros Ho. pose proof (after_nth_self (take o l)) as H. rewrite length_take, Nat.min_l in H by done. rewrite <- H.
  unfold after_nth. destruct (Nat.eqb_spec (count_true (take o l)) 0); [done|]. f_equal.
  rewrite <- (take_drop o l) at 1. by rewrite nth_true_app, (proj2 (Nat.leb_le _ _)) by lia.
Qed.

Lemma rev_zeros l : Forall (λ b, b = false) l → lead (rev l) = length l.
Proof. intros H. rewrite lead_all, length_rev; [done|]. by apply Forall_rev. Qed.

(** Going on from the [n]-th one by zeros only. *)
Lemma after_nth_zeros l n c : n ≤ count_true l → after_nth l n + c ≤ run_end l n →
  count_true (take (after_nth l n + c) l) = n ∧ lead (rev (take (after_nth l n + c) l)) = if n =? 0 then after_nth l n + c else c.
Proof.
  intros Hn Hc. pose proof (run_end_le l n Hn) as Hle. set (s := after_nth l n) in *.
  assert (Forall (λ b, b = false) (drop s (take (s + c) l))) as Hz.
  { pose proof (run_end_zeros l n Hn) as Hz. fold s in Hz.
    apply Forall_lookup. intros i b Hi. rewrite Forall_lookup in Hz. apply (Hz i). rewrite lookup_drop in *.
    apply lookup_take_Some in Hi as [Hi ?]. by rewrite lookup_take_lt by lia. }
  assert (take (s + c) l = take s l ++ drop s (take (s + c) l)) as E.
  { rewrite <- (take_drop s (take (s + c) l)) at 1. by rewrite take_take, Nat.min_l by lia. }
  assert (length (drop s (take (s + c) l)) = c) as Hlen by (rewrite length_drop, length_take; lia).
  rewrite E, count_true_app, rev_app_distr, lead_app, (proj1 (Forall_false_count (drop _ _)) Hz), length_rev, Hlen.
  rewrite bool_decide_eq_true_2 by by apply Forall_rev. split; [unfold s; rewrite after_nth_count; lia|].
  destruct (Nat.eqb_spec n 0) as [->|]; [change s with 0; rewrite take_0; cbn [rev lead Nat.eqb]; lia|]. unfold s. rewrite after_nth_last by lia. lia.
Qed.

(** ** Rows and points *)

Lemma row_range_of t r : r ≤ line_count t → row_range t r (after_nth (newline_bits t) r) (run_end (newline_bits t) r).
Proof.
  intros Hr. set (l := newline_bits t). assert (length l = length t) as Hlen by apply newline_bits_length.
  pose proof (run_end_le l r Hr) as Hle. rewrite Hlen in Hle. constructor; [done| | |].
  - unfold point_of, line_count, tail_len. rewrite newline_bits_take. fold l. rewrite after_nth_count by done. f_equal.
    destruct (decide (r = 0)) as [->|]; [done|]. rewrite after_nth_last by (unfold line_count in Hr; fold l in Hr; lia). done.
  - pose proof (run_end_zeros l r Hr) as Hz. unfold l in Hz. rewrite <- newline_bits_take, <- newline_bits_drop in Hz.
    apply Forall_fmap in Hz. eapply Forall_impl; [exact Hz|]. intros b Hb. unfold compose in Hb. by apply bool_decide_eq_false in Hb.
  - rewrite <- Hlen. destruct (run_end_stop l r Hr) as [|Hs]; [by left|right]. by apply newline_bit_true.
Qed.

Lemma row_offset t r c : r ≤ line_count t → after_nth (newline_bits t) r + c ≤ run_end (newline_bits t) r →
  point_of (take (after_nth (newline_bits t) r + c) t) = mkPoint (N.of_nat r) (N.of_nat c).
Proof.
  intros Hr Hc. destruct (after_nth_zeros _ r c Hr Hc) as [H1 H2]. unfold point_of, line_count, tail_len. rewrite newline_bits_take, H1, H2.
  destruct (Nat.eqb_spec r 0) as [->|]; done.
Qed.

Lemma point_offset_prefix t o : o ≤ length t →
  line_count (take o t) ≤ line_count t ∧
  after_nth (newline_bits t) (line_count (take o t)) + tail_len (take o t) = o ∧
  o ≤ run_end (newline_bits t) (line_count (take o t)).
Proof.
  intros Ho. unfold line_count, tail_len. rewrite newline_bits_take. set (l := newline_bits t).
  assert (length l = length t) as Hlen by apply newline_bits_length.
  split; [rewrite <- (take_drop o l) at 2; rewrite count_true_app; lia|]. split; [|apply run_end_max; [done|lia]].
  rewrite after_nth_prefix by lia. pose proof (lead_le (rev (take o l))) as Hle. rewrite length_rev, length_take in Hle. lia.
Qed.

Section queries.
Context (MAX_BASE : nat) (HMAX : 2 ≤ MAX_BASE ≤ 128).
Implicit Types t : Text.

Lemma u32_id o : o ≤ MAX_BASE → as_u32 o = o.
Proof using HMAX. by apply small_u32. Qed.

Lemma leading_zeros_bits l : length l ≤ MAX_BASE → leading_zeros MAX_BASE (of_bits l) = MAX_BASE - length l + lead (rev l).
Proof. apply leading_zeros_of. Qed.

Lemma chunk_lines_of t : length t ≤ MAX_BASE → chunk_lines MAX_BASE (chunk_of t) = Some (point_of t).
Proof.
  intros Hl. unfold chunk_lines, checked_sub. cbn [chunk_of newlines text]. rewrite (proj2 (Nat.leb_le _ _) Hl). cbn [mbind option_bind].
  rewrite leading_zeros_bits, count_ones_of, newline_bits_length by by rewrite newline_bits_length.
  rewrite (proj2 (Nat.leb_le _ _)) by lia. cbn [mbind option_bind]. unfold point_of, line_count, tail_len. do 3 f_equal. lia.
Qed.

(** [MAX_BASE - leading_zeros] of the newlines before an offset: where the last line starts. *)
Lemma newline_ix_of t o : length t ≤ MAX_BASE → o ≤ length t →
  MAX_BASE - leading_zeros MAX_BASE (N.land (of_bits (newline_bits t)) (saturating_shl_mask MAX_BASE (as_u32 o))) = o - tail_len (take o t).
Proof.
  intros Hl Ho. rewrite u32_id, mask_of, leading_zeros_bits by (autorewrite with bits; lia).
  rewrite <- newline_bits_take. autorewrite with bits. unfold tail_len.
  pose proof (tail_len_le (take o t)) as Ht. unfold tail_len in Ht. rewrite length_take in Ht. lia.
Qed.

Lemma offset_to_point_of t o : length t ≤ MAX_BASE → o ≤ length t → offset_to_point MAX_BASE (chunk_of t) o = Some (point_of (take o t)).
Proof.
  intros Hl Ho. unfold offset_to_point, checked_sub. cbn [chunk_of newlines]. rewrite newline_ix_of by done.
  pose proof (tail_len_le (take o t)) as Ht. rewrite length_take in Ht.
  rewrite (proj2 (Nat.leb_le _ _)) by lia. cbn [mbind option_bind].
  rewrite u32_id, mask_of, count_ones_of by (autorewrite with bits; lia). rewrite <- newline_bits_take.
  rewrite wrap_u32_small by (unfold is_u32, u32_max; lia). unfold point_of, line_count. do 3 f_equal. lia.
Qed.

Lemma offset_to_offset_utf16_of t o : length t ≤ MAX_BASE → o ≤ length t → offset_to_offset_utf16 MAX_BASE (chunk_of t) o = utf16_len (take o t).
Proof.
  intros Hl Ho. unfold offset_to_offset_utf16. cbn [chunk_of chars_utf16].
  rewrite u32_id, mask_of, count_ones_of by (autorewrite with bits; lia). by rewrite <- utf16_bits_take.
Qed.

Lemma len_utf16_of t : length t ≤ MAX_BASE → len_utf16 MAX_BASE (chunk_of t) = utf16_len t.
Proof. intros Hl. unfold len_utf16. cbn [chunk_of chars_utf16]. by rewrite count_ones_of by by rewrite utf16_bits_length. Qed.

Lemma offset_to_point_utf16_of t o : length t ≤ MAX_BASE → o ≤ length t →
  offset_to_point_utf16 MAX_BASE (chunk_of t) o = Some (point16_of (take o t)).
Proof.
  intros Hl Ho. unfold offset_to_point_utf16. cbn [chunk_of newlines chars_utf16]. rewrite newline_ix_of by done.
  rewrite !u32_id, !mask_of, count_ones_of by (autorewrite with bits; lia). rewrite <- newline_bits_take, <- utf16_bits_take.
  pose proof (tail_len_le (take o t)) as Ht. rewrite length_take in Ht.
  unfold point16_of, tail_units, line_count. rewrite length_take, Nat.min_l by done.
  destruct (Nat.eqb_spec (o - tail_len (take o t)) MAX_BASE) as [E|E]; cbn [mbind option_bind].
  - rewrite drop_ge by (autorewrite with bits; lia). done.
  - rewrite shr_of by lia. cbn [mbind option_bind]. rewrite count_ones_of by (rewrite length_drop; autorewrite with bits; lia). done.
Qed.

(** *** Rows *)

Lemma nth_set_bit_bits l n : length l ≤ MAX_BASE → 1 ≤ n ≤ count_true l → nth_set_bit (of_bits l) n = Some (nth_true l n).
Proof using HMAX.
  intros Hl Hn. rewrite <- (of_bits_pad l (128 - length l)). rewrite nth_set_bit_of.
  - by rewrite nth_true_app, (proj2 (Nat.leb_le _ _)) by lia.
  - rewrite length_app, length_replicate. lia.
  - rewrite count_true_app. lia.
Qed.

(** The zeros after a position, at most to the end of the text. *)
Lemma zeros_after l s : length l ≤ MAX_BASE → s ≤ length l →
  Nat.min (trailing_zeros MAX_BASE (of_bits (drop s l))) (length l - s) = lead (drop s l).
Proof.
  intros Hl Hs. rewrite trailing_zeros_of by (rewrite length_drop; lia). pose proof (lead_le (drop s l)) as Hle. rewrite length_drop in Hle.
  case_bool_decide as Hz; [|lia]. rewrite lead_all, length_drop by done. lia.
Qed.

Lemma offset_range_for_row_of t r : length t ≤ MAX_BASE → r ≤ line_count t →
  offset_range_for_row MAX_BASE (chunk_of t) r = Some (after_nth (newline_bits t) r, run_end (newline_bits t) r).
Proof using HMAX.
  intros Hl Hr. set (l := newline_bits t). assert (length l = length t) as Hlen by apply newline_bits_length.
  assert ((if 0 <? r then ix ← nth_set_bit (of_bits l) r; Some (ix + 1) else Some 0) = Some (after_nth l r)) as Hstart.
  { unfold after_nth. destruct (Nat.eqb_spec r 0) as [->|]; [done|]. rewrite (proj2 (Nat.ltb_lt 0 r)) by lia.
    rewrite nth_set_bit_bits by (unfold line_count in Hr; fold l in Hr; lia). cbn. f_equal. lia. }
  unfold offset_range_for_row. cbn [chunk_of newlines text]. fold l. rewrite Hstart. cbn [mbind option_bind].
  pose proof (after_nth_le l r Hr) as Hle. unfold run_end. destruct (Nat.eqb_spec (after_nth l r) MAX_BASE) as [E|E]; cbn [mbind option_bind].
  - rewrite drop_ge by lia. done.
  - rewrite shr_of by lia. unfold checked_sub. rewrite (proj2 (Nat.leb_le _ _)) by lia. cbn [mbind option_bind].
    rewrite u32_id, <- Hlen, zeros_after by lia. done.
Qed.

(** *** Points to offsets *)

(** A point of the text is where the text before some offset ends. *)
Lemma point_to_offset_of t r c : length t ≤ MAX_BASE → r ≤ line_count t →
  after_nth (newline_bits t) r + c ≤ run_end (newline_bits t) r →
  point_to_offset MAX_BASE (chunk_of t) (mkPoint (N.of_nat r) (N.of_nat c)) = Some (after_nth (newline_bits t) r + c).
Proof using HMAX.
  intros Hl Hr Hc. pose proof (run_end_le _ r Hr) as Hle. rewrite newline_bits_length in Hle.
  unfold point_to_offset. rewrite chunk_lines_of by done. cbn [mbind option_bind row column].
  unfold point_of. cbn [row]. rewrite (proj2 (N.ltb_ge _ _)) by lia. rewrite !Nat2N.id, offset_range_for_row_of by done.
  cbn [mbind option_bind]. by rewrite u32_id, (proj2 (N.ltb_ge _ _)) by lia.
Qed.

Lemma point_to_offset_prefix t o : length t ≤ MAX_BASE → o ≤ length t →
  point_to_offset MAX_BASE (chunk_of t) (point_of (take o t)) = Some o.
Proof using HMAX.
  intros Hl Ho. destruct (point_offset_prefix t o Ho) as (Hr & Ho' & Hre). unfold point_of at 1.
  rewrite point_to_offset_of by (done || lia). by rewrite Ho'.
Qed.

(** Points past the text or past the end of their row are clipped to it. *)
Lemma point_to_offset_clip t p : length t ≤ MAX_BASE →
  ∃ o, point_to_offset MAX_BASE (chunk_of t) p = Some o ∧ o ≤ length t ∧
    if (N.of_nat (line_count t) <? row p)%N then o = length t
    else row (point_of (take o t)) = row p ∧ column (point_of (take o t)) = N.min (column p)
      (N.of_nat (run_end (newline_bits t) (N.to_nat (row p)) - after_nth (newline_bits t) (N.to_nat (row p)))).
Proof using HMAX.
  intros Hl. unfold point_to_offset. rewrite chunk_lines_of by done. cbn [mbind option_bind]. unfold point_of at 1. cbn [row].
  destruct (N.ltb_spec (N.of_nat (line_count t)) (row p)); [by eexists|].
  assert (N.to_nat (row p) ≤ line_count t) as Hr by lia. pose proof (run_end_le _ _ Hr) as Hle. rewrite newline_bits_length in Hle.
  rewrite offset_range_for_row_of by done. cbn [mbind option_bind]. rewrite u32_id by lia.
  destruct (N.ltb_spec (N.of_nat (run_end (newline_bits t) (N.to_nat (row p)) - after_nth (newline_bits t) (N.to_nat (row p)))) (column p)).
  - eexists. split; [done|]. split; [lia|].
    pose proof (row_offset t (N.to_nat (row p)) (run_end (newline_bits t) (N.to_nat (row p)) - after_nth (newline_bits t) (N.to_nat (row p))) Hr ltac:(lia)) as Hp.
    replace (after_nth _ _ + (_ - _)) with (run_end (newline_bits t) (N.to_nat (row p))) in Hp by lia. rewrite Hp. cbn [row column]. lia.
  - eexists. split; [done|]. split; [lia|]. rewrite row_offset by lia. cbn [row column]. lia.
Qed.

(** *** UTF-16 offsets *)

Lemma offset_utf16_to_offset_of t n : utf8 t → length t ≤ MAX_BASE → n ≤ utf16_len t →
  offset_utf16_to_offset MAX_BASE (chunk_of t) n = Some (run_end (utf16_bits t) n).
Proof using HMAX.
  intros Ht Hl Hn. set (l := utf16_bits t). assert (length l = length t) as Hlen by apply utf16_bits_length.
  unfold offset_utf16_to_offset. cbn [chunk_of chars_utf16 text]. fold l. destruct (Nat.eqb_spec n 0) as [->|Hn0].
  - f_equal. symmetry. apply run_end_unique; [done|lia|]. destruct t as [|b t]; [by left|right].
    destruct Ht as ([|c cs] & Hcs & E); [done|]. apply Forall_cons in Hcs as [Hc _]. pose proof (encode_char_boundary c Hc) as Hb.
    rewrite encode_cons in E. destruct (encode_char c); [done|]. injection E as -> _. injection Hb as Hb _. unfold l. cbn. by rewrite Hb.
  - rewrite nth_set_bit_bits by (unfold utf16_len in Hn; fold l in Hn; lia). cbn [mbind option_bind].
    assert (nth_true l n + 1 = after_nth l n) as -> by (unfold after_nth; rewrite (proj2 (Nat.eqb_neq n 0)) by done; lia).
    pose proof (after_nth_le l n Hn) as Hle. unfold run_end. destruct (Nat.eqb_spec (after_nth l n) MAX_BASE) as [E|E].
    + rewrite drop_ge by lia. cbn. f_equal. lia.
    + rewrite shr_of by lia. unfold checked_sub. rewrite (proj2 (Nat.leb_le _ _)) by lia. cbn [mbind option_bind].
      by rewrite <- Hlen, zeros_after by lia.
Qed.
End queries.
