(* ===== verification/ChunkClip.v ===== *)
(** * UTF-16 offsets and clipping in a chunk

    A UTF-16 offset may fall between the two units of a wide character; the
    conversions send it to a character boundary on the side they are asked for. *)

From S2P Require Import Prelude Text Bitmap Select Utf8 Summary Chunk ChunkBits ChunkOk ChunkPoints.

(** ** UTF-16 lengths *)

Lemma utf16_len_app t u : utf8 t → utf16_len (t ++ u) = utf16_len t + utf16_len u.
Proof. intros Ht. unfold utf16_len. by rewrite utf16_bits_app, count_true_app. Qed.

(** The units of one character. *)
Definition char_units (c : Char) : list bool :=
  if char_len_utf16 c =? 2 then [true; true; false; false] else true :: replicate (len_utf8 c - 1) false.

Lemma utf16_from_zip p t : utf16_from p t = zip_with orb (chars_bits t) (p :: (wide <$> t)).
Proof. revert p. induction t as [|b t IH]; intros p; [done|]. cbn. by rewrite IH. Qed.

Lemma wide_len c : char_len_utf16 c = 2 → len_utf8 c = 4.
Proof.
  unfold char_len_utf16, len_utf8. destruct (N.ltb_spec c 0x10000); [done|]. intros _. ncompare. done.
Qed.

Lemma utf16_bits_char c : is_char c = true → utf16_bits (encode_char c) = char_units c.
Proof.
  intros Hc. unfold utf16_bits, chars_bits, char_units. rewrite utf16_from_zip. unfold chars_bits.
  rewrite encode_char_boundary, encode_char_wide by done. destruct (Nat.eqb_spec (char_len_utf16 c) 2) as [E|E].
  - by rewrite wide_len.
  - cbn [zip_with orb]. f_equal. change (false :: replicate (len_utf8 c - 1) false) with (replicate (S (len_utf8 c - 1)) false).
    rewrite zip_with_replicate_r by (rewrite length_replicate; lia). by rewrite fmap_replicate.
Qed.

Lemma count_replicate_false n : count_true (replicate n false) = 0.
Proof. by induction n. Qed.

Lemma utf16_len_char c : is_char c = true → utf16_len (encode_char c) = char_len_utf16 c.
Proof.
  intros Hc. unfold utf16_len. rewrite utf16_bits_char by done. unfold char_units. destruct (Nat.eqb_spec (char_len_utf16 c) 2) as [E|E]; [by rewrite E|].
  rewrite count_true_cons, count_replicate_false. destruct (char_sizes c). unfold char_len_utf16 in *. by destruct (c <? 0x10000)%N.
Qed.

Lemma encode_char_utf8 c : is_char c = true → utf8 (encode_char c).
Proof. intros Hc. exists [c]. split; [by constructor|]. cbn. by rewrite app_nil_r. Qed.
Lemma encode_utf8 cs : chars_ok cs → utf8 (encode cs).
Proof. intros Hcs. by exists cs. Qed.

Lemma utf16_len_encode cs : chars_ok cs → utf16_len (encode cs) = sum_list (char_len_utf16 <$> cs).
Proof.
  induction 1 as [|c cs Hc Hcs IH]; [done|]. rewrite encode_cons, utf16_len_app, utf16_len_char, IH by (done || by apply encode_char_utf8). done.
Qed.

Lemma utf16_len_bound t : utf16_len t ≤ length t.
Proof. unfold utf16_len. rewrite <- utf16_bits_length. apply count_true_le. Qed.
Lemma utf16_len_pos u : utf8 u → u ≠ [] → 0 < utf16_len u.
Proof.
  intros (cs & Hcs & ->) Hu. destruct cs as [|c cs]; [done|]. apply Forall_cons in Hcs as [Hc Hcs].
  rewrite encode_cons, utf16_len_app, utf16_len_char by (done || by apply encode_char_utf8). destruct (char_sizes c). lia.
Qed.

(** ** Where a UTF-16 offset falls *)

Lemma boundary_of_split cs1 cs2 : chars_ok (cs1 ++ cs2) → is_char_boundary (encode (cs1 ++ cs2)) (length (encode cs1)) = true.
Proof.
  intros [H1 H2]%Forall_app. rewrite encode_app. destruct (encode cs1) as [|b l] eqn:E; [done|]. rewrite <- E.
  rewrite <- (Nat.add_0_r (length (encode cs1))), boundary_app_r; [done|by rewrite E|by apply encode_utf8].
Qed.

Lemma boundary_bit t o : utf8 t → is_char_boundary t o = true → o = length t ∨ utf16_bits t !! o = Some true.
Proof.
  intros (cs & Hcs & ->) Ho. destruct (boundary_split cs o Hcs Ho) as (cs1 & cs2 & -> & ->). apply Forall_app in Hcs as [H1 H2].
  rewrite encode_app, utf16_bits_app by by apply encode_utf8. destruct cs2 as [|c cs2]; [left; by rewrite app_nil_r|right].
  rewrite lookup_app_r by by rewrite utf16_bits_length. rewrite utf16_bits_length, Nat.sub_diag.
  apply Forall_cons in H2 as [Hc H2]. rewrite encode_cons, utf16_bits_app, utf16_bits_char by (done || by apply encode_char_utf8).
  unfold char_units. by destruct (_ =? 2).
Qed.

(** From the UTF-16 length before a boundary, the conversion finds the boundary. *)
Lemma run_end_boundary t o : utf8 t → is_char_boundary t o = true → run_end (utf16_bits t) (utf16_len (take o t)) = o.
Proof.
  intros Ht Ho. pose proof (boundary_le t o Ho). apply run_end_unique.
  - unfold utf16_len. by rewrite utf16_bits_take.
  - by rewrite utf16_bits_length.
  - rewrite utf16_bits_length. by apply boundary_bit.
Qed.

(** A UTF-16 offset is at a character, or between the units of a wide one. *)
Inductive falls (cs : list Char) (n : nat) : Prop :=
  | falls_at cs1 cs2 : cs = cs1 ++ cs2 → n = utf16_len (encode cs1) → falls cs n
  | falls_inside cs1 c cs2 : cs = cs1 ++ c :: cs2 → char_len_utf16 c = 2 → n = S (utf16_len (encode cs1)) → falls cs n.

Lemma falls_total cs n : chars_ok cs → n ≤ utf16_len (encode cs) → falls cs n.
Proof.
  intros Hcs. induction Hcs as [|c cs Hc Hcs IH] in n |- *; intros Hn.
  - apply (falls_at _ _ [] []); [done|]. cbn in *. lia.
  - rewrite encode_cons, utf16_len_app, utf16_len_char in Hn by (done || by apply encode_char_utf8).
    destruct (decide (n = 0)) as [->|Hn0]; [by apply (falls_at _ _ [] (c :: cs))|].
    destruct (decide (n < char_len_utf16 c)).
    { destruct (char_sizes c). assert (char_len_utf16 c = 2) by (unfold char_len_utf16 in *; destruct (c <? 0x10000)%N; lia).
      apply (falls_inside _ _ [] c cs); [done..|]. change (utf16_len (encode [])) with 0. lia. }
    destruct (IH (n - char_len_utf16 c)) as [cs1 cs2 -> E|cs1 d cs2 -> Hd E]; [lia| |].
    + apply (falls_at _ _ (c :: cs1) cs2); [done|]. rewrite encode_cons, utf16_len_app, utf16_len_char by (done || by apply encode_char_utf8). lia.
    + apply (falls_inside _ _ (c :: cs1) d cs2); [done..|]. rewrite encode_cons, utf16_len_app, utf16_len_char by (done || by apply encode_char_utf8). lia.
Qed.

Lemma take_encode cs1 cs2 : take (length (encode cs1)) (encode (cs1 ++ cs2)) = encode cs1.
Proof. by rewrite encode_app, take_app_length. Qed.

Section inside.
Context (cs1 cs2 : list Char) (c : Char) (Hcs : chars_ok (cs1 ++ c :: cs2)) (Hc : char_len_utf16 c = 2).
Abbreviation t := (encode (cs1 ++ c :: cs2)).
Abbreviation o := (length (encode cs1)).

Lemma inside_ok : utf8 (encode cs1) ∧ is_char c = true ∧ length (encode_char c) = 4 ∧ t = encode cs1 ++ encode_char c ++ encode cs2.
Proof using All.
  apply Forall_app in Hcs as [H1 H2]. apply Forall_cons in H2 as [H2 H3]. rewrite encode_char_length, wide_len, encode_app, encode_cons by done.
  split_and!; [by apply encode_utf8|done..].
Qed.

Lemma inside_bits : utf16_bits t = utf16_bits (encode cs1) ++ [true; true; false; false] ++ utf16_bits (encode cs2).
Proof using All.
  destruct inside_ok as (H1 & H2 & _ & ->). rewrite !utf16_bits_app, utf16_bits_char by (done || by apply encode_char_utf8).
  unfold char_units. by rewrite Hc.
Qed.

Lemma inside_run_end : run_end (utf16_bits t) (S (utf16_len (encode cs1))) = S o.
Proof using All.
  rewrite inside_bits. apply run_end_unique.
  - rewrite take_app_ge by (rewrite utf16_bits_length; lia). rewrite count_true_app, utf16_bits_length.
    replace (S o - o) with 1 by lia. cbn [app take]. change (count_true [true]) with 1. unfold utf16_len. lia.
  - rewrite length_app, utf16_bits_length. cbn. lia.
  - right. rewrite lookup_app_r, utf16_bits_length by (rewrite utf16_bits_length; lia). by replace (S o - o) with 1 by lia.
Qed.

Lemma inside_boundary i : 0 < i < 4 → is_char_boundary t (o + i) = false.
Proof using All.
  intros Hi. destruct inside_ok as (H1 & H2 & H4 & ->). destruct (encode cs1) as [|b l] eqn:E.
  - cbn [app length plus]. apply boundary_in_char; [done|]. rewrite wide_len by done. lia.
  - rewrite <- E. apply Forall_app in Hcs as [_ H3]. apply Forall_cons in H3 as [_ H3].
    rewrite boundary_app_r; [|by rewrite E|by apply utf8_app; [apply encode_char_utf8|apply encode_utf8]].
    apply boundary_in_char; [done|]. rewrite wide_len by done. lia.
Qed.

Lemma inside_start : is_char_boundary t o = true.
Proof using All. by apply boundary_of_split. Qed.
Lemma inside_end : is_char_boundary t (o + 4) = true ∧ utf16_len (take (o + 4) t) = S (S (utf16_len (encode cs1))).
Proof using All.
  destruct inside_ok as (H1 & H2 & H4 & _).
  assert (o + 4 = length (encode (cs1 ++ [c]))) as E by (rewrite encode_snoc_length, wide_len by done; done).
  assert (cs1 ++ c :: cs2 = (cs1 ++ [c]) ++ cs2) as Ecs by by rewrite <- app_assoc. rewrite E, Ecs. split.
  - apply boundary_of_split. by rewrite <- Ecs.
  - rewrite take_encode, encode_app. cbn. rewrite app_nil_r, utf16_len_app, utf16_len_char, Hc by done. lia.
Qed.
End inside.

(** UTF-16 offsets at character boundaries. *)
Definition unit_boundary (t : Text) (m : nat) : Prop := ∃ o, is_char_boundary t o = true ∧ utf16_len (take o t) = m.

Lemma inside_not_unit cs1 c cs2 : chars_ok (cs1 ++ c :: cs2) → char_len_utf16 c = 2 →
  ¬ unit_boundary (encode (cs1 ++ c :: cs2)) (S (utf16_len (encode cs1))).
Proof.
  intros Hcs Hc (o & Ho & Hu). pose proof (run_end_boundary _ o (encode_utf8 _ Hcs) Ho) as Hr. rewrite Hu, inside_run_end in Hr by done.
  subst o. pose proof (inside_boundary cs1 cs2 c Hcs Hc 1 ltac:(lia)) as Hb. rewrite Nat.add_1_r in Hb. congruence.
Qed.

Lemma utf16_len_le t o : utf16_len (take o t) ≤ utf16_len t.
Proof.
  assert (utf16_len t = count_true (take o (utf16_bits t)) + count_true (drop o (utf16_bits t))) as -> by by rewrite <- count_true_app, take_drop.
  unfold utf16_len. rewrite utf16_bits_take. lia.
Qed.

Section clip.
Context (MAX_BASE : nat) (HMAX : 2 ≤ MAX_BASE ≤ 128).

Lemma offset_utf16_to_offset_at t o : utf8 t → length t ≤ MAX_BASE → is_char_boundary t o = true →
  offset_utf16_to_offset MAX_BASE (chunk_of t) (utf16_len (take o t)) = Some o.
Proof using HMAX.
  intros Ht Hl Ho. rewrite offset_utf16_to_offset_of, run_end_boundary; try done. apply utf16_len_le.
Qed.

Lemma clip_offset_loop_at fuel t bias o : is_char_boundary t o = true → clip_offset_loop (S fuel) t bias o = Some o.
Proof. intros Ho. cbn. unfold is_str_boundary. by rewrite Ho. Qed.

(** [clip_offset_utf16] is the greatest boundary at or before the target, or
    the least one at or after it. *)
Definition clipped16 (t : Text) (n : nat) (bias : Bias) (m : nat) : Prop :=
  unit_boundary t m ∧
  match bias with
  | Cursor.Left => m ≤ n ∧ ∀ m', unit_boundary t m' → m' ≤ n → m' ≤ m
  | Cursor.Right => (n ≤ m ∨ m = utf16_len t) ∧ ∀ m', unit_boundary t m' → n ≤ m' → m ≤ m'
  end.

Lemma clip_offset_utf16_of t n bias : utf8 t → length t ≤ MAX_BASE →
  ∃ m, clip_offset_utf16 MAX_BASE (chunk_of t) n bias = Some m ∧ clipped16 t n bias m.
Proof using HMAX.
  intros Ht Hl. assert (unit_boundary t 0) as H0 by by exists 0.
  assert (unit_boundary t (utf16_len t)) as Hend.
  { exists (length t). split; [apply boundary_length|by rewrite take_ge]. }
  assert (∀ m', unit_boundary t m' → m' ≤ utf16_len t) as Hle by (intros m' (o & _ & <-); apply utf16_len_le).
  unfold clip_offset_utf16. destruct (Nat.eqb_spec n 0) as [->|Hn0].
  { exists 0. split; [done|]. split; [done|]. destruct bias; split; try lia; intros; lia. }
  rewrite len_utf16_of by done. destruct (Nat.leb_spec (utf16_len t) n) as [Hn|Hn].
  { eexists. split; [done|]. split; [done|]. destruct bias; split; try lia; intros m' Hm' ?; specialize (Hle m' Hm'); lia. }
  rewrite offset_utf16_to_offset_of by (done || lia). cbn [mbind option_bind].
  destruct Ht as (cs & Hcs & ->). pose proof (encode_utf8 cs Hcs) as Ht. cbn [text chunk_of]. unfold chunk_len. cbn [text chunk_of].
  destruct (falls_total cs n Hcs) as [cs1 cs2 -> ->|cs1 c cs2 -> Hc ->]; [lia| |].
  - pose proof (boundary_of_split cs1 cs2 Hcs) as Hb. pose proof (run_end_boundary _ _ Ht Hb) as Hr. rewrite take_encode in Hr.
    rewrite Hr, clip_offset_loop_at by done. cbn [mbind option_bind]. pose proof (boundary_le _ _ Hb).
    rewrite offset_to_offset_utf16_of, take_encode by done. eexists. split; [done|].
    split; [by exists (length (encode cs1)); rewrite take_encode|]. destruct bias; split; try lia; intros; lia.
  - rewrite inside_run_end by done. set (t := encode (cs1 ++ c :: cs2)) in *. set (o := length (encode cs1)).
    pose proof (inside_not_unit cs1 c cs2 Hcs Hc) as Hnot. fold t in Hnot.
    assert (∀ i, 0 < i < 4 → is_char_boundary t (o + i) = false) as Hin by (intros i Hi; by apply inside_boundary).
    pose proof (inside_start cs1 cs2 c Hcs Hc) as Hs. destruct (inside_end cs1 cs2 c Hcs Hc) as [He He']. fold t o in Hs, He, He'.
    pose proof (boundary_le _ _ He) as Hle4. pose proof (Hin 1 ltac:(lia)) as H1. pose proof (Hin 2 ltac:(lia)) as H2. pose proof (Hin 3 ltac:(lia)) as H3.
    destruct (length t) as [|[|[|k]]] eqn:Hk; [lia..|]. rewrite Nat.add_1_r in H1.
    assert (take o t = encode cs1) as Htk by apply take_encode.
    destruct bias; cbn [clip_offset_loop]; unfold is_str_boundary, checked_sub; rewrite H1; cbn [mbind option_bind Nat.leb].
    + replace (S o - 1) with o by lia. rewrite Hs. cbn [mbind option_bind]. rewrite offset_to_offset_utf16_of, Htk by lia.
      eexists. split; [done|]. split; [exists o; by rewrite Htk|]. split; [lia|]. intros m' Hm' ?.
      destruct (decide (m' = S (utf16_len (encode cs1)))) as [->|]; [done|lia].
    + replace (S o + 1) with (o + 2) by lia. rewrite H2. replace (o + 2 + 1) with (o + 3) by lia. rewrite H3.
      replace (o + 3 + 1) with (o + 4) by lia. rewrite He. cbn [mbind option_bind].
      rewrite offset_to_offset_utf16_of, He' by lia. eexists. split; [done|]. split; [by exists (o + 4)|]. split; [lia|].
      intros m' Hm' ?. destruct (decide (m' = S (utf16_len (encode cs1)))) as [->|]; [done|lia].
Qed.
End clip.
