(* ===== verification/ChunkSummary.v ===== *)
(** * Rows, UTF-16 points and the summary of a chunk

    Rows start and end at character boundaries; UTF-16 points convert back and
    forth; and [text_summary] computes from the bitmaps what
    [TextSummary::from] computes from the characters. *)

From S2P Require Import Prelude Text Bitmap Select Utf8 Summary Chunk ChunkBits ChunkOk ChunkPoints ChunkClip.

(** ** Rows of a text *)

Lemma lf_boundary t i : utf8 t → t !! i = Some LF → is_char_boundary t i = true ∧ is_char_boundary t (S i) = true.
Proof.
  intros Ht Hi. assert (is_char_boundary t i = true) as Hb by (unfold is_char_boundary; rewrite Hi; by destruct (i =? 0)).
  split; [done|]. destruct Ht as (cs & Hcs & ->). destruct (boundary_split cs i Hcs Hb) as (cs1 & cs2 & -> & ->).
  rewrite encode_app, lookup_app_r, Nat.sub_diag in Hi by done. destruct cs2 as [|c cs2]; [done|]. pose proof Hcs as [_ H2]%Forall_app.
  apply Forall_cons in H2 as [Hc H2]. rewrite encode_cons in Hi. pose proof (encode_char_ascii 10 c ltac:(done) Hc) as Ha.
  assert (c = 10%N) as ->.
  { destruct (encode_char c) as [|b l] eqn:E; [by apply (f_equal length) in E; rewrite encode_char_length in E; pose proof (len_utf8_bounds c); cbn in E; lia|].
    injection Hi as ->. cbn [fmap list_fmap] in Ha. injection Ha as Ha _.
    assert (bool_decide (c = 10%N) = true) as Hd by (rewrite <- Ha; reflexivity). by apply bool_decide_eq_true in Hd. }
  assert (S (length (encode cs1)) = length (encode (cs1 ++ [10%N]))) as -> by (rewrite encode_snoc_length; cbn; lia).
  assert (cs1 ++ 10%N :: cs2 = (cs1 ++ [10%N]) ++ cs2) as E by by rewrite <- app_assoc. rewrite E in *. by apply boundary_of_split.
Qed.

Section rows.
Context (t : Text) (Ht : utf8 t) (r : nat) (Hr : r ≤ line_count t).
Abbreviation s := (after_nth (newline_bits t) r).
Abbreviation e := (run_end (newline_bits t) r).
Abbreviation line := (drop s (take e t)).

Lemma row_start_boundary : is_char_boundary t s = true.
Proof using All.
  unfold after_nth. destruct (Nat.eqb_spec r 0); [done|]. destruct (nth_true_spec (newline_bits t) r) as [Hn _]; [unfold line_count in Hr; lia|].
  apply lf_boundary; [done|]. by apply newline_bit_true.
Qed.

Lemma row_end_boundary : is_char_boundary t e = true.
Proof using All.
  destruct (run_end_stop (newline_bits t) r Hr) as [->|H]; [rewrite newline_bits_length; apply boundary_length|].
  apply lf_boundary; [done|]. by apply newline_bit_true.
Qed.

Lemma row_bounds : s ≤ e ≤ length t.
Proof using All. rewrite <- newline_bits_length. by apply run_end_le. Qed.

Lemma row_boundary_in o : s ≤ o ≤ e → is_char_boundary t o = is_char_boundary line (o - s).
Proof using All.
  intros Ho. pose proof row_bounds as Hb. pose proof row_start_boundary as Hs. pose proof row_end_boundary as He. unfold is_char_boundary.
  destruct (Nat.eqb_spec (o - s) 0) as [E|E].
  - assert (o = s) as -> by lia. unfold is_char_boundary in Hs. by destruct (s =? 0).
  - rewrite (proj2 (Nat.eqb_neq o 0)) by lia. rewrite lookup_drop, length_drop, length_take. replace (s + (o - s)) with o by lia.
    destruct (decide (o = e)) as [->|].
    + rewrite lookup_take_ge by lia. unfold is_char_boundary in He. destruct (e =? 0) eqn:E0; [apply Nat.eqb_eq in E0; lia|].
      rewrite (proj2 (Nat.eqb_eq (e - s) _)) by lia. done.
    + rewrite lookup_take_lt by lia. destruct (t !! o) eqn:El; [done|]. apply lookup_ge_None in El. lia.
Qed.

Lemma line_utf8 : utf8 line.
Proof using All.
  pose proof row_bounds. apply utf8_split; [by apply utf8_split, row_end_boundary|].
  apply boundary_take; [apply row_start_boundary|lia].
Qed.

Lemma line_flat : newline_bits line = replicate (e - s) false.
Proof using All.
  pose proof row_bounds. pose proof (run_end_zeros (newline_bits t) r Hr) as Hz. rewrite <- newline_bits_take, <- newline_bits_drop in Hz.
  replace (e - s) with (length (newline_bits line)) by (autorewrite with bits; lia). generalize dependent (newline_bits line). intros l Hz.
  induction Hz as [|b l -> _ IH]; [done|]. cbn. by rewrite <- IH.
Qed.

Lemma line_tail : tail_len line = length line.
Proof using All.
  pose proof row_bounds. unfold tail_len. rewrite line_flat, rev_zeros by by apply Forall_replicate. rewrite length_replicate. autorewrite with bits. lia.
Qed.

(** The UTF-16 column of an offset of the row. *)
Lemma row_point16 o : s ≤ o ≤ e → point16_of (take o t) = mkPoint (N.of_nat r) (N.of_nat (utf16_len (take (o - s) line))).
Proof using All.
  intros Ho. pose proof row_bounds. unfold point16_of.
  pose proof (row_offset t r (o - s) Hr ltac:(lia)) as Hp. replace (s + (o - s)) with o in Hp by lia. unfold point_of in Hp.
  injection Hp as -> Ht'. f_equal. apply Nat2N.inj in Ht'. unfold tail_units. rewrite Ht', length_take, Nat.min_l by lia. f_equal.
  replace (o - (o - s)) with s by lia. unfold utf16_len. f_equal.
  assert (take (o - s) line = take (o - s) (drop s t)) as ->.
  { rewrite skipn_firstn_comm, take_take. f_equal. lia. }
  rewrite !utf16_bits_take, utf16_bits_drop by (done || apply row_start_boundary). by rewrite skipn_firstn_comm.
Qed.

Lemma row_slice MAX_BASE : 2 ≤ MAX_BASE ≤ 128 → length t ≤ MAX_BASE → slice MAX_BASE (chunk_of t) s e = Some (chunk_of line).
Proof using All.
  intros HMAX Hl. apply slice_of; [done..|apply row_start_boundary|apply row_end_boundary|]. pose proof row_bounds. lia.
Qed.
End rows.

(** ** The first and the last line *)

Section masks.
Context (MAX_BASE : nat).

Lemma shr_mask_bit z i : z ≤ MAX_BASE →
  N.testbit (saturating_shr_mask MAX_BASE z) (N.of_nat i) = (MAX_BASE - z <=? i) && (i <? MAX_BASE).
Proof.
  intros Hz. unfold saturating_shr_mask, bit_not, unbounded_shr, bits_max. rewrite N.lxor_spec.
  assert (∀ k, N.testbit (N.ones (N.of_nat k)) (N.of_nat i) = (i <? k)) as Hones.
  { intros k. destruct (Nat.ltb_spec i k); [apply N.ones_spec_low; lia|apply N.ones_spec_high; lia]. }
  rewrite Hones. destruct (Nat.ltb_spec z MAX_BASE).
  - rewrite N.shiftr_spec by lia. replace (N.of_nat i + N.of_nat z)%N with (N.of_nat (i + z)) by lia.
    destruct (Nat.ltb_spec (i + z) MAX_BASE).
    + rewrite N.ones_spec_low by lia. destruct (Nat.leb_spec (MAX_BASE - z) i), (Nat.ltb_spec i MAX_BASE); lia || done.
    + rewrite N.ones_spec_high by lia. destruct (Nat.leb_spec (MAX_BASE - z) i), (Nat.ltb_spec i MAX_BASE); lia || done.
  - rewrite N.bits_0. destruct (Nat.leb_spec (MAX_BASE - z) i), (Nat.ltb_spec i MAX_BASE); lia || done.
Qed.

(** Masking the low bits off leaves what a [drop] leaves. *)
Lemma count_high l z : length l ≤ MAX_BASE → z ≤ MAX_BASE →
  count_ones MAX_BASE (N.land (of_bits l) (saturating_shr_mask MAX_BASE z)) = count_true (drop (MAX_BASE - z) l).
Proof.
  intros Hl Hz. set (k := Nat.min (MAX_BASE - z) (length l)).
  assert (N.land (of_bits l) (saturating_shr_mask MAX_BASE z) = of_bits (replicate k false ++ drop (MAX_BASE - z) l)) as ->.
  { apply N.bits_inj. intros i. rewrite <- (N2Nat.id i), N.land_spec, shr_mask_bit, !testbit_of_bits by done. set (j := N.to_nat i).
    destruct (Nat.leb_spec (MAX_BASE - z) j), (Nat.ltb_spec j MAX_BASE); cbn [andb]; rewrite ?andb_true_r, ?andb_false_r.
    - destruct (decide (k ≤ j)); [|lia]. rewrite lookup_app_r, length_replicate, lookup_drop by (rewrite length_replicate; lia).
      destruct (decide (j < length l)); [do 2 f_equal; lia|]. rewrite !lookup_ge_None_2 by lia. done.
    - rewrite lookup_ge_None_2; [done|]. rewrite length_app, length_replicate, length_drop. lia.
    - destruct (decide (j < k)); [rewrite lookup_app_l, lookup_replicate_2 by (rewrite ?length_replicate; lia); done|].
      rewrite lookup_ge_None_2; [done|]. rewrite length_app, length_replicate, length_drop. lia.
    - rewrite lookup_ge_None_2; [done|]. rewrite length_app, length_replicate, length_drop. lia. }
  rewrite count_ones_of by (rewrite length_app, length_replicate, length_drop; lia). rewrite count_true_app, count_replicate_false. done.
Qed.

Lemma last_line_mask l t : length l = length t → length t ≤ MAX_BASE →
  count_ones MAX_BASE (N.land (of_bits l) (saturating_shr_mask MAX_BASE (leading_zeros MAX_BASE (of_bits (newline_bits t))))) =
    count_true (drop (length t - tail_len t) l).
Proof.
  intros Hlen Hl. rewrite leading_zeros_of by by rewrite newline_bits_length. rewrite newline_bits_length. fold (tail_len t).
  pose proof (tail_len_le t). rewrite count_high by lia. do 2 f_equal. lia.
Qed.

Lemma last_line_len_utf16_of t : length t ≤ MAX_BASE → chunk_last_line_len_utf16 MAX_BASE (chunk_of t) = tail_units t.
Proof. intros Hl. unfold chunk_last_line_len_utf16. cbn [chunk_of chars_utf16 newlines]. apply last_line_mask; [apply utf16_bits_length|done]. Qed.
Lemma last_line_chars_of t : length t ≤ MAX_BASE →
  chunk_last_line_chars MAX_BASE (chunk_of t) = count_true (drop (length t - tail_len t) (chars_bits t)).
Proof. intros Hl. unfold chunk_last_line_chars. cbn [chunk_of chars newlines]. apply last_line_mask; [apply chars_bits_length|done]. Qed.

Lemma first_line_chars_of t : length t ≤ MAX_BASE →
  chunk_first_line_chars MAX_BASE (chunk_of t) = count_true (take (lead (newline_bits t)) (chars_bits t)).
Proof.
  intros Hl. unfold chunk_first_line_chars. cbn [chunk_of chars newlines]. rewrite mask_of by by rewrite chars_bits_length.
  rewrite count_ones_of by (rewrite length_take, chars_bits_length; lia). rewrite trailing_zeros_of by by rewrite newline_bits_length.
  case_bool_decide as Hz; [|done]. rewrite lead_all by done. rewrite !take_ge by (autorewrite with bits; lia). done.
Qed.

(** ** UTF-16 points *)

(** An offset of the row from a UTF-16 column of it. *)
Lemma column16_split line n : utf8 line → n ≤ utf16_len line →
  let o := run_end (utf16_bits line) n in
  (is_char_boundary line o = true ∧ utf16_len (take o line) = n) ∨
  (1 ≤ o ∧ is_char_boundary line o = false ∧ is_char_boundary line (o - 1) = true ∧ S (utf16_len (take (o - 1) line)) = n).
Proof.
  intros (cs & Hcs & ->) Hn. destruct (falls_total cs n Hcs Hn) as [cs1 cs2 -> ->|cs1 c cs2 -> Hc ->]; cbn zeta.
  - left. pose proof (boundary_of_split cs1 cs2 Hcs) as Hb. pose proof (run_end_boundary _ _ (encode_utf8 _ Hcs) Hb) as Hr.
    rewrite take_encode in Hr. by rewrite Hr, take_encode.
  - right. rewrite inside_run_end by done. pose proof (inside_boundary cs1 cs2 c Hcs Hc 1 ltac:(lia)) as Hb. rewrite Nat.add_1_r in Hb.
    replace (S (length (encode cs1)) - 1) with (length (encode cs1)) by lia. rewrite Hb, take_encode. split_and!; [lia|done| |done].
    by apply inside_start with (c := c).
Qed.

Lemma step_back_at x i : is_char_boundary x i = true → step_back x i = i.
Proof. intros H. destruct i; cbn [step_back]; by rewrite H. Qed.

Section points.
Context (HMAX : 2 ≤ MAX_BASE ≤ 128) (t : Text) (Ht : utf8 t) (Hl : length t ≤ MAX_BASE).

(** [point_utf16_to_offset] gives the last boundary of the row at or before the column. *)
Lemma point_utf16_to_offset_of r c clip : r ≤ line_count t →
  ∃ o, point_utf16_to_offset MAX_BASE (chunk_of t) (mkPoint (N.of_nat r) (N.of_nat c)) clip = Some o ∧
    is_char_boundary t o = true ∧ after_nth (newline_bits t) r ≤ o ≤ run_end (newline_bits t) r ∧
    ∃ c', point16_of (take o t) = mkPoint (N.of_nat r) (N.of_nat c') ∧ c' ≤ c ∧
      (c ≤ S c' ∨ o = run_end (newline_bits t) r) ∧ (∀ o', after_nth (newline_bits t) r ≤ o' ≤ run_end (newline_bits t) r →
         is_char_boundary t o' = true → point16_of (take o' t) = mkPoint (N.of_nat r) (N.of_nat c) → o = o').
Proof using All.
  intros Hr. pose proof (row_bounds t Ht r Hr) as Hb. pose proof (row_point16 t Ht r Hr) as Hp16.
  pose proof (row_boundary_in t Ht r Hr) as Hbin. pose proof (line_utf8 t Ht r Hr) as Hlu. pose proof (line_tail t Ht r Hr) as Htail.
  pose proof (row_slice t Ht r Hr MAX_BASE HMAX Hl) as Hslice.
  set (s := after_nth (newline_bits t) r) in *. set (e := run_end (newline_bits t) r) in *. set (line := drop s (take e t)) in *.
  assert (length line = e - s) as Hlen by (unfold line; autorewrite with bits; lia).
  assert (tail_units line = utf16_len line) as Hunits by (unfold tail_units; by rewrite Htail, Nat.sub_diag).
  assert (∀ o', s ≤ o' ≤ e → is_char_boundary t o' = true → point16_of (take o' t) = mkPoint (N.of_nat r) (N.of_nat c) →
    c ≤ utf16_len line ∧ is_char_boundary line (o' - s) = true ∧ run_end (utf16_bits line) c = o' - s) as Huniq.
  { intros o' Ho' Hb' Hp'. rewrite Hp16 in Hp' by done. injection Hp' as Hc%Nat2N.inj. rewrite Hbin in Hb' by done. rewrite <- Hc.
    split_and!; [apply utf16_len_le|done|by apply run_end_boundary]. }
  unfold point_utf16_to_offset. rewrite chunk_lines_of by done. cbn [mbind option_bind row column]. unfold point_of. cbn [row].
  rewrite (proj2 (N.ltb_ge _ _)) by lia. rewrite !Nat2N.id, offset_range_for_row_of by done. cbn [mbind option_bind]. fold s e.
  rewrite Hslice. cbn [mbind option_bind]. rewrite last_line_len_utf16_of, Hunits by lia.
  destruct (N.ltb_spec (N.of_nat (utf16_len line)) (N.of_nat c)) as [Hc|Hc].
  - exists e. split; [done|]. split; [rewrite Hbin by lia; rewrite <- Hlen; apply boundary_length|]. split; [lia|].
    exists (utf16_len line). rewrite Hp16, take_ge by lia. split_and!; [done|lia|by right|].
    intros o' Ho' Hb' Hp'. destruct (Huniq o' Ho' Hb' Hp'); lia.
  - assert ((if (0 <? N.of_nat c)%N then o ← offset_utf16_to_offset MAX_BASE (chunk_of line) c;
        (if is_str_boundary (text (chunk_of t)) (s + o) then Some (s + o)
         else offset ← checked_sub (s + o) 1; Some (step_back (text (chunk_of t)) offset)) else Some s) =
      (let o := run_end (utf16_bits line) c in if is_char_boundary t (s + o) then Some (s + o) else Some (step_back t (s + o - 1)))) as ->.
    { assert (run_end (utf16_bits line) 0 = 0) as H0 by (apply (run_end_boundary line 0); done).
      destruct (N.ltb_spec 0 (N.of_nat c)) as [H0c|H0c].
      - rewrite offset_utf16_to_offset_of by (done || lia). cbn [mbind option_bind text chunk_of]. unfold is_str_boundary, checked_sub.
        destruct (is_char_boundary t (s + run_end (utf16_bits line) c)) eqn:Eb; [done|]. rewrite (proj2 (Nat.leb_le _ _)); [done|].
        destruct (s + _) eqn:E0; [done|lia].
      - assert (c = 0) as -> by lia. cbn zeta. rewrite H0, Nat.add_0_r. unfold s. by rewrite row_start_boundary. }
    destruct (column16_split line c Hlu ltac:(lia)) as [[Ho Hu]|(Ho1 & Hob & Ho & Hu)]; cbn zeta in *;
      set (o := run_end (utf16_bits line) c) in *; pose proof (boundary_le _ _ Ho) as Hole.
    + rewrite (Hbin (s + o)) by lia. replace (s + o - s) with o by lia. rewrite Ho. exists (s + o). split; [done|].
      rewrite (Hbin (s + o)) by lia. replace (s + o - s) with o by lia. split_and!; [done|lia..|]. exists c. rewrite Hp16 by lia.
      replace (s + o - s) with o by lia. rewrite Hu. split_and!; [done|lia|left; lia|].
      intros o' Ho' Hb' Hp'. destruct (Huniq o' Ho' Hb' Hp') as (_ & _ & E). lia.
    + pose proof (run_end_le (utf16_bits line) c ltac:(unfold utf16_len in Hc; lia)) as Hoe. rewrite utf16_bits_length in Hoe. fold o in Hoe.
      rewrite (Hbin (s + o)) by lia. replace (s + o - s) with o by lia. rewrite Hob. assert (is_char_boundary t (s + o - 1) = true) as Hb1.
      { rewrite Hbin by lia. by replace (s + o - 1 - s) with (o - 1) by lia. }
      rewrite step_back_at by done. exists (s + o - 1). split; [done|]. split_and!; [done|lia..|]. exists (c - 1). rewrite Hp16 by lia.
      replace (s + o - 1 - s) with (o - 1) by lia. split_and!; [f_equal; lia|lia|left; lia|].
      intros o' Ho' Hb' Hp'. destruct (Huniq o' Ho' Hb' Hp') as (_ & Hb2 & E). fold o in E. rewrite <- E in Hb2. congruence.
Qed.

(** On the UTF-16 point before a boundary it gives the boundary back. *)
Lemma point_utf16_to_offset_at o clip : is_char_boundary t o = true →
  point_utf16_to_offset MAX_BASE (chunk_of t) (point16_of (take o t)) clip = Some o.
Proof using All.
  intros Ho. pose proof (boundary_le t o Ho) as Hle. destruct (point_offset_prefix t o Hle) as (Hr & Ho' & Hre).
  unfold point16_of at 1. destruct (point_utf16_to_offset_of (line_count (take o t)) (tail_units (take o t)) clip Hr) as (o1 & -> & _ & _ & c' & _ & _ & _ & Hu).
  f_equal. apply Hu; [lia|done|done].
Qed.

Lemma unclipped_point_utf16_to_point_at o : is_char_boundary t o = true →
  unclipped_point_utf16_to_point MAX_BASE (chunk_of t) (point16_of (take o t)) = Some (point_of (take o t)).
Proof using All.
  intros Ho. pose proof (boundary_le t o Ho) as Hle. destruct (point_offset_prefix t o Hle) as (Hr & Ho' & Hre).
  set (r := line_count (take o t)) in *. pose proof (row_bounds t Ht r Hr) as Hb. pose proof (row_point16 t Ht r Hr) as Hp16.
  pose proof (row_boundary_in t Ht r Hr) as Hbin. pose proof (line_utf8 t Ht r Hr) as Hlu.
  pose proof (row_slice t Ht r Hr MAX_BASE HMAX Hl) as Hslice. pose proof (row_offset t r) as Hro.
  set (s := after_nth (newline_bits t) r) in *. set (e := run_end (newline_bits t) r) in *. set (line := drop s (take e t)) in *.
  assert (length line = e - s) as Hlen by (unfold line; autorewrite with bits; lia).
  assert (s ≤ o ≤ e) as Hso by lia. rewrite Hp16 by done. assert (point_of (take o t) = mkPoint (N.of_nat r) (N.of_nat (o - s))) as ->.
  { replace o with (s + (o - s)) at 1 by lia. apply Hro; [done|lia]. }
  assert (is_char_boundary line (o - s) = true) as Hbo by by rewrite <- Hbin.
  pose proof (run_end_boundary line (o - s) Hlu Hbo) as Hrun.
  unfold unclipped_point_utf16_to_point. rewrite chunk_lines_of by done. cbn [mbind option_bind row column]. unfold point_of. cbn [row].
  rewrite (proj2 (N.ltb_ge _ _)) by lia. rewrite !Nat2N.id, offset_range_for_row_of by done. cbn [mbind option_bind]. fold s e.
  rewrite Hslice. cbn [mbind option_bind]. rewrite len_utf16_of by lia. rewrite !(small_u32 MAX_BASE) by (unfold chunk_len; cbn [text chunk_of]; pose proof (utf16_len_bound line); lia).
  unfold chunk_len. cbn [text chunk_of].
  destruct (N.eqb_spec (N.of_nat (utf16_len (take (o - s) line))) 0) as [E|E].
  - do 2 f_equal. assert (utf16_len (take (o - s) line) = 0) as E0 by lia.
    destruct (decide (o - s = 0)); [lia|]. destruct (utf8_split line (o - s) Hlu Hbo) as [H1 _].
    pose proof (utf16_len_pos _ H1) as Hpos. rewrite E0 in Hpos. assert (take (o - s) line ≠ []) as Hn; [|specialize (Hpos Hn); lia].
    intros En%(f_equal length). rewrite length_take in En. cbn in En. lia.
  - destruct (N.leb_spec (N.of_nat (utf16_len line)) (N.of_nat (utf16_len (take (o - s) line)))) as [Hall|Hpart].
    + do 3 f_equal. pose proof (utf16_len_le line (o - s)). assert (utf16_len (take (o - s) line) = utf16_len line) as Eu by lia.
      rewrite Eu in Hrun. rewrite <- Hrun. rewrite <- (run_end_boundary line (length line) Hlu (boundary_length line)). by rewrite take_ge.
    + rewrite offset_utf16_to_offset_of, Hrun by (done || lia || apply utf16_len_le). cbn [mbind option_bind].
      rewrite step_back_at by done. rewrite (small_u32 MAX_BASE) by lia. done.
Qed.
End points.
End masks.
