(* ===== verification/ChunkLongest.v ===== *)
(** * [text_summary] of a chunk is the summary of its text

    Each field [text_summary] reads off the bitmaps is the one the loop of
    [TextSummary::from] counts character by character. *)

From S2P Require Import Prelude Text Bitmap Select Utf8 Summary Chunk ChunkBits ChunkOk ChunkPoints ChunkClip ChunkSummary.

(** ** Bits of one more character *)

Lemma newline_bits_char c : is_char c = true → newline_bits (encode_char c) = bool_decide (c = char_newline) :: replicate (len_utf8 c - 1) false.
Proof. intros Hc. apply (encode_char_ascii 10); done. Qed.

Lemma encode_snoc cs c : encode (cs ++ [c]) = encode cs ++ encode_char c.
Proof. rewrite encode_app. cbn. by rewrite app_nil_r. Qed.

Lemma chars_bits_count cs : chars_ok cs → count_true (chars_bits (encode cs)) = length cs.
Proof.
  induction 1 as [|c cs Hc _ IH]; [done|]. rewrite encode_cons. unfold chars_bits in *. rewrite fmap_app, count_true_app, IH.
  rewrite encode_char_boundary, count_true_cons, count_replicate_false by done. done.
Qed.

Lemma newline_char_bits c : is_char c = true → c ≠ char_newline → newline_bits (encode_char c) = replicate (len_utf8 c) false.
Proof.
  intros Hc Hn. rewrite newline_bits_char, bool_decide_eq_false_2 by done. pose proof (len_utf8_bounds c).
  replace (len_utf8 c) with (S (len_utf8 c - 1)) at 2 by lia. done.
Qed.

Lemma flat_bits cs : chars_ok cs → Forall (λ c, c ≠ char_newline) cs → Forall (λ b, b = false) (newline_bits (encode cs)).
Proof.
  induction 1 as [|c cs Hc _ IH]; intros Hf; [constructor|]. apply Forall_cons in Hf as [Hn Hf]. rewrite encode_cons. unfold newline_bits in *.
  rewrite fmap_app. apply Forall_app. split; [|by apply IH]. fold (newline_bits (encode_char c)). rewrite newline_char_bits by done.
  by apply Forall_replicate.
Qed.

Section snoc.
Context (cs : list Char) (c : Char) (Hcs : chars_ok cs) (Hc : is_char c = true).
Abbreviation t := (encode cs).
Abbreviation t' := (encode (cs ++ [c])).

Lemma newline_bits_snoc : newline_bits t' = newline_bits t ++ newline_bits (encode_char c).
Proof using. rewrite encode_snoc. apply fmap_app. Qed.
Lemma chars_bits_snoc : chars_bits t' = chars_bits t ++ chars_bits (encode_char c).
Proof using. rewrite encode_snoc. apply fmap_app. Qed.
Lemma utf16_bits_snoc : utf16_bits t' = utf16_bits t ++ utf16_bits (encode_char c).
Proof using Hcs. rewrite encode_snoc. apply utf16_bits_app. by apply encode_utf8. Qed.

Lemma snoc_newline : c = char_newline →
  line_count t' = S (line_count t) ∧ tail_len t' = 0 ∧ length t' = S (length t).
Proof using Hc.
  intros Hn. assert (newline_bits (encode_char c) = [true]) as E by (rewrite Hn; reflexivity).
  unfold line_count, tail_len. rewrite newline_bits_snoc, E, count_true_app, rev_app_distr, encode_snoc_length.
  change (count_true [true]) with 1. rewrite Hn. cbn. lia.
Qed.
Lemma snoc_flat : c ≠ char_newline →
  line_count t' = line_count t ∧ tail_len t' = tail_len t + len_utf8 c ∧ length t' = length t + len_utf8 c.
Proof using Hc.
  intros Hn. unfold line_count, tail_len. rewrite newline_bits_snoc, newline_char_bits, count_true_app, rev_app_distr, encode_snoc_length by done.
  rewrite count_replicate_false, rev_replicate, lead_false, length_replicate by by apply Forall_replicate. lia.
Qed.

(** Units of the last line, for bits that grow with the characters. *)
Lemma drop_snoc (l k : list bool) : length l = length t → c ≠ char_newline →
  count_true (drop (length t' - tail_len t') (l ++ k)) = count_true (drop (length t - tail_len t) l) + count_true k.
Proof using Hc.
  intros Hl Hn. destruct (snoc_flat Hn) as (_ & -> & ->). pose proof (tail_len_le t).
  rewrite drop_app_le, count_true_app by lia. do 3 f_equal. lia.
Qed.

Lemma chars_bits_char : count_true (chars_bits (encode_char c)) = 1.
Proof using Hc. unfold chars_bits. by rewrite encode_char_boundary, count_true_cons, count_replicate_false. Qed.
End snoc.

Definition first_count (t : Text) : nat := count_true (take (lead (newline_bits t)) (chars_bits t)).
Definition last_count (t : Text) : nat := count_true (drop (length t - tail_len t) (chars_bits t)).

Lemma lead_count l k : lead (l ++ k) = if count_true l =? 0 then length l + lead k else lead l.
Proof.
  rewrite lead_app. destruct (Nat.eqb_spec (count_true l) 0) as [E|E]; [by rewrite bool_decide_eq_true_2 by by apply Forall_false_count|].
  rewrite bool_decide_eq_false_2; [done|]. by intros ?%Forall_false_count.
Qed.

(** One line: the first line is the last. *)
Lemma single_line t : line_count t = 0 → first_count t = last_count t.
Proof.
  intros H. apply Forall_false_count in H. unfold first_count, last_count, tail_len. rewrite lead_all, rev_zeros, newline_bits_length by done.
  rewrite take_ge, Nat.sub_diag by (autorewrite with bits; lia). done.
Qed.

Lemma first_count_snoc cs c : chars_ok cs → is_char c = true →
  first_count (encode (cs ++ [c])) = if line_count (encode cs) =? 0 then if decide (c = char_newline) then first_count (encode cs)
    else S (first_count (encode cs)) else first_count (encode cs).
Proof.
  intros Hcs Hc. unfold first_count. rewrite newline_bits_snoc, chars_bits_snoc, lead_count. fold (line_count (encode cs)).
  pose proof (lead_le (newline_bits (encode cs))) as Hle. rewrite newline_bits_length in Hle.
  destruct (Nat.eqb_spec (line_count (encode cs)) 0) as [E|E].
  - pose proof (proj2 (Forall_false_count _) E) as Hz. rewrite (lead_all _ Hz), newline_bits_length. case_decide as Hn.
    + rewrite newline_bits_char, Hn by done. cbn [lead bool_decide]. rewrite bool_decide_eq_true_2 by done. cbn [lead].
      rewrite take_app_le by (autorewrite with bits; lia). f_equal. f_equal. lia.
    + rewrite newline_char_bits, lead_replicate, !take_ge by (rewrite ?length_app; autorewrite with bits; rewrite ?encode_char_length; done || lia).
      rewrite count_true_app, chars_bits_char by done. lia.
  - rewrite take_app_le by (autorewrite with bits; lia). done.
Qed.

(** ** The fields counted by the loop *)

Record fields (cs : list Char) : Prop := {
  fd_chars : s_chars (run cs) = length cs;
  fd_utf16 : s_len_utf16 (run cs) = utf16_len (encode cs);
  fd_lines : s_lines (run cs) = point_of (encode cs);
  fd_first : first_line_chars (run cs) = N.of_nat (first_count (encode cs));
  fd_last : last_line_chars (run cs) = N.of_nat (last_count (encode cs));
  fd_last16 : last_line_len_utf16 (run cs) = N.of_nat (tail_units (encode cs));
}.

Lemma run_snoc cs c : run (cs ++ [c]) = from_char (run cs) c.
Proof. unfold run. by rewrite foldl_app. Qed.

(** [from_char] on a newline and on another character. *)
Lemma from_newline n s : bounded n s → is_u32 (n + 1) →
  from_char s char_newline = mkSummary (s_len s) (S (s_chars s)) (s_len_utf16 s + 1) (mkPoint (row (s_lines s) + 1) 0) (first_line_chars s) 0 0
    (longest_row s) (longest_row_chars s).
Proof.
  intros [] Hn. destruct s as [l ch u [r k] f la l16 lr lrc]. unfold from_char, point_add, is_u32 in *. cbn in *.
  rewrite wrap_u32_small by (unfold is_u32; lia). destruct (N.ltb_spec lrc 0); [lia|]. destruct (N.eqb_spec (r + 1) 0); [lia|done].
Qed.

Lemma from_other n s c : bounded n s → is_u32 (n + N.of_nat (len_utf8 c)) → c ≠ char_newline →
  from_char s c = mkSummary (s_len s) (S (s_chars s)) (s_len_utf16 s + char_len_utf16 c)
    (mkPoint (row (s_lines s)) (column (s_lines s) + N.of_nat (len_utf8 c)))
    (if (row (s_lines s) =? 0)%N then last_line_chars s + 1 else first_line_chars s) (last_line_chars s + 1)
    (last_line_len_utf16 s + N.of_nat (char_len_utf16 c))
    (if (longest_row_chars s <? last_line_chars s + 1)%N then row (s_lines s) else longest_row s)
    (if (longest_row_chars s <? last_line_chars s + 1)%N then last_line_chars s + 1 else longest_row_chars s).
Proof.
  intros [] Hn Hc. destruct (char_sizes c). destruct s as [l ch u [r k] f la l16 lr lrc]. unfold from_char, is_u32 in *. cbn in *.
  rewrite (proj2 (N.eqb_neq _ _) Hc). cbn. unwrap. by destruct (lrc <? la + 1)%N.
Qed.

Lemma fields_ok cs : chars_ok cs → fits cs → fields cs.
Proof.
  induction cs as [|c cs IH] using rev_ind; intros Hcs Hf; [by constructor|]. pose proof Hf as [Hf' _]%fits_app.
  apply Forall_app in Hcs as [Hcs Hc]. apply Forall_inv in Hc. destruct (IH Hcs Hf') as [E1 E2 E3 E4 E5 E6].
  destruct (run_ok cs Hf') as [Hb _]. unfold fits in Hf. rewrite encode_snoc_length, Nat2N.inj_add in Hf. destruct (char_sizes c).
  assert (utf16_len (encode (cs ++ [c])) = utf16_len (encode cs) + char_len_utf16 c) as Hu.
  { rewrite encode_snoc, utf16_len_app, utf16_len_char; [done|done|by apply encode_utf8]. }
  destruct (decide (c = char_newline)) as [Hn|Hn].
  - destruct (snoc_newline cs c Hc Hn) as (L1 & L2 & L3). pose proof (first_count_snoc cs c Hcs Hc) as Hfc.
    assert (run (cs ++ [c]) = mkSummary (s_len (run cs)) (S (s_chars (run cs))) (s_len_utf16 (run cs) + 1)
      (mkPoint (row (s_lines (run cs)) + 1) 0) (first_line_chars (run cs)) 0 0 (longest_row (run cs)) (longest_row_chars (run cs))) as Hr.
    { rewrite run_snoc, Hn. eapply from_newline; [done|]. unfold is_u32 in *. lia. }
    constructor; rewrite Hr; cbn [s_chars s_len_utf16 s_lines first_line_chars last_line_chars last_line_len_utf16].
    + rewrite E1, length_app. cbn. lia.
    + by rewrite E2, Hu, Hn.
    + rewrite E3. unfold point_of. cbn [row]. rewrite L1, L2. f_equal. lia.
    + rewrite E4, Hfc. rewrite decide_True by done. by destruct (_ =? 0).
    + unfold last_count. rewrite drop_ge; [done|]. rewrite L2. autorewrite with bits. lia.
    + unfold tail_units. rewrite drop_ge; [done|]. rewrite L2. autorewrite with bits. lia.
  - destruct (snoc_flat cs c Hc Hn) as (L1 & L2 & L3). pose proof (first_count_snoc cs c Hcs Hc) as Hfc.
    pose proof (from_other _ (run cs) c Hb Hf Hn) as Hr. rewrite <- run_snoc in Hr.
    constructor; rewrite Hr; cbn [s_chars s_len_utf16 s_lines first_line_chars last_line_chars last_line_len_utf16].
    + rewrite E1, length_app. cbn. lia.
    + by rewrite E2, Hu.
    + rewrite E3. unfold point_of. cbn [row column]. rewrite L1, L2. f_equal. lia.
    + rewrite E3, E4, E5, Hfc, decide_False by done. unfold point_of. cbn [row].
      destruct (Nat.eqb_spec (line_count (encode cs)) 0) as [Hz|Hz]; destruct (N.eqb_spec (N.of_nat (line_count (encode cs))) 0); try lia.
      rewrite <- single_line by done. lia.
    + rewrite E5. unfold last_count. rewrite chars_bits_snoc, drop_snoc, chars_bits_char by (done || apply chars_bits_length). lia.
    + rewrite E6. unfold tail_units. rewrite utf16_bits_snoc, drop_snoc by (done || apply utf16_bits_length).
      fold (utf16_len (encode_char c)). rewrite utf16_len_char by done. lia.
Qed.

(** ** The longest row *)

(** A line without newlines after the start of a row. *)
Lemma run_flat cs line : chars_ok (cs ++ line) → fits (cs ++ line) → Forall (λ c, c ≠ char_newline) line →
  last_line_chars (run cs) = 0%N →
  let n := N.of_nat (length line) in let s := run cs in let s' := run (cs ++ line) in
  row (s_lines s') = row (s_lines s) ∧ last_line_chars s' = n ∧
  longest_row s' = (if (longest_row_chars s <? n)%N then row (s_lines s) else longest_row s) ∧
  longest_row_chars s' = (if (longest_row_chars s <? n)%N then n else longest_row_chars s).
Proof.
  intros Hcs Hf Hl H0. induction line as [|c line IH] using rev_ind.
  - cbn zeta. rewrite app_nil_r. change (N.of_nat (length [])) with 0%N. destruct (N.ltb_spec (longest_row_chars (run cs)) 0); [lia|done].
  - rewrite app_assoc in *. pose proof Hf as [Hf' _]%fits_app. apply Forall_app in Hcs as [Hcs Hc]. apply Forall_inv in Hc.
    apply Forall_app in Hl as [Hl Hn]. apply Forall_inv in Hn. specialize (IH Hcs Hf' Hl). cbn zeta in *. destruct IH as (I1 & I2 & I3 & I4).
    destruct (run_ok _ Hf') as [Hb _]. unfold fits in Hf. rewrite encode_snoc_length, Nat2N.inj_add in Hf.
    rewrite run_snoc, (from_other _ _ c Hb Hf Hn). cbn [s_lines row last_line_chars longest_row longest_row_chars].
    rewrite I1, I2, I3, I4, length_app. cbn [length]. replace (N.of_nat (length line + 1)) with (N.of_nat (length line) + 1)%N by lia.
    destruct (N.ltb_spec (longest_row_chars (run cs)) (N.of_nat (length line))), (N.ltb_spec (longest_row_chars (run cs)) (N.of_nat (length line) + 1)); try lia;
      split_and!; try done.
    all: destruct (N.ltb_spec (N.of_nat (length line)) (N.of_nat (length line) + 1)); try lia; done.
Qed.

Lemma split_line (cs : list Char) : Forall (λ c, c ≠ char_newline) cs ∨
  ∃ line cs', cs = line ++ char_newline :: cs' ∧ Forall (λ c, c ≠ char_newline) line.
Proof.
  induction cs as [|c cs IH]; [by left|]. destruct (decide (c = char_newline)) as [->|Hc]; [right; by exists [], cs|].
  destruct IH as [Hf|(line & cs' & -> & Hf)]; [left; by constructor|right]. exists (c :: line), cs'. split; [done|by constructor].
Qed.

(** The part of a line's bits, and what is after its newline. *)
Lemma line_bits line cs : chars_ok (line ++ char_newline :: cs) → Forall (λ c, c ≠ char_newline) line →
  let t := encode (line ++ char_newline :: cs) in let ix := length (encode line) in
  lead (newline_bits t) = ix ∧ newline_bits t ≠ [] ∧ ¬ Forall (λ b, b = false) (newline_bits t) ∧ S ix ≤ length t ∧
  count_true (take ix (chars_bits t)) = length line ∧
  drop (S ix) (chars_bits t) = chars_bits (encode cs) ∧ drop (S ix) (newline_bits t) = newline_bits (encode cs) ∧
  line_count t = S (line_count (encode cs)).
Proof.
  intros Hcs Hf. pose proof Hcs as [Hl Hn]%Forall_app. pose proof (flat_bits line Hl Hf) as Hz. cbn zeta.
  rewrite encode_app, encode_cons. change (encode_char char_newline) with [LF].
  assert (newline_bits (encode line ++ [LF] ++ encode cs) = newline_bits (encode line) ++ true :: newline_bits (encode cs)) as En.
  { unfold newline_bits. by rewrite !fmap_app. }
  assert (chars_bits (encode line ++ [LF] ++ encode cs) = chars_bits (encode line) ++ true :: chars_bits (encode cs)) as Ec.
  { unfold chars_bits. by rewrite !fmap_app. }
  unfold line_count. rewrite En, Ec. split_and!.
  - rewrite lead_false, newline_bits_length by done. cbn. lia.
  - intros E%(f_equal length). rewrite length_app in E. cbn in E. lia.
  - rewrite Forall_app. by intros [_ [? _]%Forall_cons].
  - rewrite !length_app. cbn. lia.
  - rewrite take_app_le, take_ge by (autorewrite with bits; lia). by apply chars_bits_count.
  - rewrite drop_app_ge by (autorewrite with bits; lia). rewrite chars_bits_length. by replace (S _ - _) with 1 by lia.
  - rewrite drop_app_ge by (autorewrite with bits; lia). rewrite newline_bits_length. by replace (S _ - _) with 1 by lia.
  - rewrite count_true_app, count_true_cons, (proj1 (Forall_false_count _) Hz). done.
Qed.

Section loop.
Context (MAX_BASE : nat) (HMAX : 2 ≤ MAX_BASE ≤ 128).

Definition short (cs : list Char) : Prop := length (encode cs) ≤ MAX_BASE.
Lemma short_fits cs : short cs → fits cs.
Proof using HMAX. unfold short, fits, is_u32, u32_max. lia. Qed.
Lemma short_app cs ds : short (cs ++ ds) → short cs ∧ short ds.
Proof using HMAX. unfold short. rewrite encode_app, length_app. lia. Qed.

Lemma mod256 n : n ≤ MAX_BASE → (N.of_nat n mod 256 = N.of_nat n)%N.
Proof using HMAX. intros Hn. apply N.mod_small. lia. Qed.

Lemma longest_loop_of fuel cs1 cs2 : chars_ok (cs1 ++ cs2) → short (cs1 ++ cs2) → last_line_chars (run cs1) = 0%N →
  line_count (encode cs2) < fuel →
  longest_row_loop MAX_BASE fuel (of_bits (chars_bits (encode cs2))) (of_bits (newline_bits (encode cs2))) (s_chars (run cs1))
      (N.to_nat (row (s_lines (run cs1)))) (N.to_nat (longest_row (run cs1))) (longest_row_chars (run cs1)) =
    Some (s_chars (run (cs1 ++ cs2)), (N.to_nat (longest_row (run (cs1 ++ cs2))), longest_row_chars (run (cs1 ++ cs2)))).
Proof using HMAX.
  revert cs1 cs2. induction fuel as [|fuel IH]; intros cs1 cs2 Hcs Hs H0 Hfuel; [lia|].
  pose proof (short_fits _ Hs) as Hfit. destruct (short_app _ _ Hs) as [Hs1 Hs2]. pose proof Hcs as [Hc1 Hc2]%Forall_app.
  cbn [longest_row_loop]. destruct (split_line cs2) as [Hf|(line & cs' & -> & Hf)].
  - rewrite (proj2 (of_bits_nil_iff _) (flat_bits cs2 Hc2 Hf)). cbn [N.eqb].
    rewrite count_ones_of by (rewrite chars_bits_length; done). rewrite chars_bits_count by done.
    assert (length cs2 ≤ MAX_BASE) as Hlen.
    { rewrite <- (chars_bits_count cs2), count_true_le, chars_bits_length by done. done. }
    rewrite mod256 by done. destruct (run_flat cs1 cs2 Hcs Hfit Hf H0) as (_ & _ & -> & ->).
    rewrite (fd_chars _ (fields_ok _ Hc1 (short_fits _ Hs1))), (fd_chars _ (fields_ok _ Hcs Hfit)), length_app, Nat2N.id.
    by destruct (_ <? _)%N.
  - destruct (line_bits line cs' Hc2 Hf) as (Hlead & Hne & Hnz & Hix & Hcnt & Hdc & Hdn & Hcount). cbn zeta in *.
    set (t := encode (line ++ char_newline :: cs')) in *. set (ix := length (encode line)) in *.
    assert (length t ≤ MAX_BASE) as Ht by done.
    destruct (N.eqb_spec (of_bits (newline_bits t)) 0) as [E|_]; [by apply of_bits_nil_iff in E|].
    rewrite trailing_zeros_of, bool_decide_eq_false_2, Hlead by (rewrite ?newline_bits_length; done).
    destruct (shl_one MAX_BASE HMAX ix) as (m & -> & Hm); [lia|]. cbn [mbind option_bind]. rewrite Hm, of_bits_take.
    rewrite count_ones_of, Hcnt by (rewrite length_take, chars_bits_length; lia).
    rewrite !shr_of by lia. cbn [mbind option_bind]. rewrite !shr_of by lia. cbn [mbind option_bind].
    rewrite !drop_drop, Nat.add_1_r, Hdc, Hdn.
    assert (cs1 ++ line ++ char_newline :: cs' = ((cs1 ++ line) ++ [char_newline]) ++ cs') as E by by rewrite <- !app_assoc.
    rewrite E in Hs, Hcs, Hfit |- *. destruct (short_app _ _ Hs) as [Hs3 _]. destruct (short_app _ _ Hs3) as [Hs4 _].
    pose proof Hcs as [Hc3 _]%Forall_app. pose proof Hc3 as [Hc4 _]%Forall_app.
    destruct (run_flat cs1 line Hc4 (short_fits _ Hs4) Hf H0) as (R1 & R2 & R3 & R4).
    destruct (run_ok _ (short_fits _ Hs4)) as [Hb _].
    assert (run ((cs1 ++ line) ++ [char_newline]) = from_char (run (cs1 ++ line)) char_newline) as Hr by apply run_snoc.
    erewrite from_newline in Hr; [|done|].
    2: { unfold short in Hs3. rewrite encode_snoc_length in Hs3. change (len_utf8 char_newline) with 1 in Hs3. unfold is_u32, u32_max. lia. }
    specialize (IH _ cs' Hcs Hs). rewrite Hr in IH. cbn [last_line_chars s_chars s_lines row longest_row longest_row_chars] in IH.
    rewrite R1, R3, R4 in IH. rewrite (fd_chars _ (fields_ok _ Hc4 (short_fits _ Hs4))), length_app in IH.
    rewrite (fd_chars _ (fields_ok _ Hc1 (short_fits _ Hs1))). rewrite mod256, Nat2N.id.
    2: { rewrite <- Hcnt, count_true_le, length_take, chars_bits_length. lia. }
    replace (length cs1 + length line + 1) with (S (length cs1 + length line)) by lia.
    replace (N.to_nat (row (s_lines (run cs1)) + 1)) with (S (N.to_nat (row (s_lines (run cs1))))) in IH by lia.
    destruct (longest_row_chars (run cs1) <? N.of_nat (length line))%N; apply IH; (done || lia).
Qed.

(** The summary read off the bitmaps is the summary of the text. *)
Lemma text_summary_of t : utf8 t → length t ≤ MAX_BASE → text_summary MAX_BASE (chunk_of t) = Some (from_str t).
Proof using HMAX.
  intros (cs & Hcs & ->) Hl. pose proof (short_fits cs Hl) as Hf. destruct (fields_ok cs Hcs Hf) as [E1 E2 E3 E4 E5 E6].
  unfold text_summary, chunk_longest_row. cbn [chunk_of chars newlines].
  pose proof (longest_loop_of (S MAX_BASE) [] cs Hcs Hl eq_refl) as Hloop. cbn [app] in Hloop.
  change (s_chars (run [])) with 0 in Hloop. change (N.to_nat (row (s_lines (run [])))) with 0 in Hloop.
  change (N.to_nat (longest_row (run []))) with 0 in Hloop. change (longest_row_chars (run [])) with 0%N in Hloop.
  rewrite Hloop.
  2: { unfold line_count. pose proof (count_true_le (newline_bits (encode cs))). rewrite newline_bits_length in *. lia. }
  cbn [mbind option_bind]. rewrite chunk_lines_of by done. cbn [mbind option_bind].
  rewrite len_utf16_of, first_line_chars_of, last_line_chars_of, last_line_len_utf16_of by done.
  rewrite from_str_encode by done. unfold set_len, chunk_len. cbn [text chunk_of].
  rewrite E2, E3, E4, E5, E6, N2Nat.id. done.
Qed.
End loop.
