(* ===== verification/Rope.v ===== *)
(** * Ropes ([crates/rope/src/rope.rs])

    A rope is a tree of chunks; the tree is its sequence of chunks with their
    summaries (the leaves' two arrays), and seeking in it is the scan that
    Search.v and Cursor.v prove the tree walk to be. *)

From S2P Require Import Prelude Text Bitmap Select Utf8 Summary Chunk.
From S2P Require Cursor.

Section rope.
(** [chunk::MAX_BASE] and [NUM_CHUNKS]: 128 and 4, or 16 and 16 in tests. *)
Context (MAX_BASE NUM_CHUNKS : nat).
Definition MIN_BASE : nat := MAX_BASE / 2.

Abbreviation ChunkEntry := (Chunk * TextSummary)%type.
Abbreviation Rope := (list ChunkEntry).

(** ** Dimensions *)

(** [sum_tree::Dimension] of a chunk's summary. *)
Record Dim (D : Type) := mkDim { dim_zero : D; dim_add : D → TextSummary → D }.
Arguments mkDim {D}. Arguments dim_zero {D}. Arguments dim_add {D}.

Definition usize_dim : Dim nat := mkDim 0 (λ d s, d + s_len s).
Definition offset_utf16_dim : Dim nat := mkDim 0 (λ d s, d + s_len_utf16 s).
Definition point_dim : Dim Point := mkDim point_zero (λ d s, point_add d (s_lines s)).
Definition point_utf16_dim : Dim PointUtf16 := mkDim point_zero (λ d s, point_add d (lines_utf16 s)).
Definition summary_dim : Dim TextSummary := mkDim summary_default add_assign.
(** [Dimensions(K, V)]; seeking compares the first component. *)
Definition dimensions {K V} (k : Dim K) (v : Dim V) : Dim (K * V) :=
  mkDim (dim_zero k, dim_zero v) (λ d s, (dim_add k d.1 s, dim_add v d.2 s)).

(** ** Summaries and searching *)

Definition rope_summary (r : Rope) : TextSummary := foldl add_assign summary_default (snd <$> r).
Definition extent {D} (d : Dim D) (r : Rope) : D := dim_add d (dim_zero d) (rope_summary r).
Definition rope_len (r : Rope) : nat := extent usize_dim r.
Definition rope_is_empty (r : Rope) : bool := rope_len r =? 0.
Definition max_point (r : Rope) : Point := extent point_dim r.
Definition max_point_utf16 (r : Rope) : PointUtf16 := extent point_utf16_dim r.

Fixpoint find_item {D} (d : Dim D) (target : D → comparison) (bias : Bias) (pos : D) (r : Rope) : D * option Chunk :=
  match r with
  | [] => (pos, None)
  | (c, s) :: r =>
      let e := dim_add d pos s in
      if Cursor.past (target e) bias then find_item d target bias e r else (pos, Some c)
  end.
Definition find {D} (d : Dim D) (target : D → comparison) (bias : Bias) (r : Rope) : D * option Chunk :=
  let tree_end := extent d r in
  if Cursor.past (target tree_end) bias then (tree_end, None) else find_item d target bias (dim_zero d) r.

(** ** Adding text *)

(** [Item::summary] when an item is stored. *)
Definition entry (c : Chunk) : option ChunkEntry := s ← text_summary MAX_BASE c; Some (c, s).
Definition entries (cs : list Chunk) : option Rope := mapM entry cs.

(** [SumTree::update_last] and [update_first] on the sequence, with the value
    the closure leaves in what it captured. *)
Definition update_last {B} (f : Chunk → option (Chunk * B)) (b : B) (r : Rope) : option (Rope * B) :=
  match last r with
  | None => Some (r, b)
  | Some (c, _) => '(c, b) ← f c; x ← entry c; Some (take (length r - 1) r ++ [x], b)
  end.
Definition update_first (f : Chunk → option Chunk) (r : Rope) : option Rope :=
  match r with
  | [] => Some []
  | (c, _) :: r => c ← f c; x ← entry c; Some (x :: r)
  end.

(** Where [push] and [push_chunk] split what the last chunk takes. *)
Definition split_ix (last_len len : nat) (boundary : nat → bool) (fuel : nat) : option nat :=
  if last_len + len <=? MAX_BASE then Some len
  else
    (fix go fuel i := match fuel with O => None | S fuel => if boundary i then Some i else go fuel (S i) end)
      fuel (Nat.min (MIN_BASE - last_len) len).

(** The loop that cuts a text into chunks. *)
Fixpoint back_to_boundary (t : Text) (i : nat) : option nat :=
  if is_str_boundary t i then Some i else match i with O => None | S i => back_to_boundary t i end.
Fixpoint cut_loop (fuel : nat) (t : Text) : option (list Text) :=
  match t with
  | [] => Some []
  | _ => match fuel with
         | O => None
         | S fuel =>
             i ← back_to_boundary t (Nat.min MAX_BASE (length t));
             '(chunk, remainder) ← str_split_at t i;
             rest ← cut_loop fuel remainder; Some (chunk :: rest)
         end
  end.

Definition push_large (r : Rope) (t : Text) : option Rope :=
  ts ← cut_loop (length t) t;
  cs ← mapM (new MAX_BASE) ts; es ← entries cs; Some (r ++ es).

Definition push (r : Rope) (t : Text) : option Rope :=
  '(r, t) ← update_last (λ last_chunk,
      ix ← split_ix (length (text last_chunk)) (length t) (is_str_boundary t) (S (length t));
      '(suffix, remainder) ← str_split_at t ix;
      c ← push_str MAX_BASE last_chunk suffix; Some (c, remainder)) t r;
  if bool_decide (t = []) then Some r
  else if NUM_CHUNKS * MAX_BASE - NUM_CHUNKS * 4 <? length t then push_large r t
  else
    ts ← cut_loop (length t) t;
    if length ts <=? NUM_CHUNKS then cs ← mapM (new MAX_BASE) ts; es ← entries cs; Some (r ++ es) else None.

Definition push_chunk (r : Rope) (chunk : Chunk) : option Rope :=
  '(r, chunk) ← update_last (λ last_chunk,
      ix ← split_ix (length (text last_chunk)) (chunk_len chunk) (chunk_is_char_boundary MAX_BASE chunk) (S (chunk_len chunk));
      '(suffix, remainder) ← split_at MAX_BASE chunk ix;
      c ← append MAX_BASE last_chunk suffix; Some (c, remainder)) chunk r;
  if bool_decide (text chunk = []) then Some r else x ← entry chunk; Some (r ++ [x]).

(** [Rope::append]. *)
Definition rope_append (r other : Rope) : option Rope :=
  match other with
  | (chunk, _) :: suffix =>
      if match last r with Some (c, _) => length (text c) <? MIN_BASE | None => false end || (length (text chunk) <? MIN_BASE)
      then r ← push_chunk r chunk; Some (r ++ suffix)
      else Some (r ++ other)
  | [] => Some r
  end.

Definition rope_from (t : Text) : option Rope := push [] t.

Definition push_front (r : Rope) (t : Text) : option Rope :=
  if bool_decide (t = []) then Some r
  else if rope_is_empty r then push r t
  else if match r with (c, _) :: _ => length (text c) + length t <=? MAX_BASE | [] => false end
  then update_first (λ c, prepend_str MAX_BASE c t) r
  else r' ← rope_from t; rope_append r' r.

(** ** Cursors *)

Record RopeCursor := mkRopeCursor {
  rc_rope : Rope;
  (** the tree cursor: what it passed, its start, what is left *)
  rc_start : nat;
  rc_rest : Rope;
  rc_offset : nat;
}.

(** Moving the tree cursor: the entries it passes, its new start, and the rest. *)
Fixpoint seek_entries {D} (d : Dim D) (target : D → comparison) (bias : Bias) (pos : D) (r : Rope) : Rope * D * Rope :=
  match r with
  | [] => ([], pos, [])
  | (c, s) :: r' =>
      let e := dim_add d pos s in
      if Cursor.past (target e) bias then let '(sk, p, rest) := seek_entries d target bias e r' in ((c, s) :: sk, p, rest)
      else ([], pos, r)
  end.

Definition cursor_at (r : Rope) (offset : nat) : RopeCursor :=
  let '(_, start, rest) := seek_entries usize_dim (λ d, Nat.compare offset d) Cursor.Right 0 r in mkRopeCursor r start rest offset.

Definition cursor_end (c : RopeCursor) : nat :=
  match rc_rest c with (_, s) :: _ => rc_start c + s_len s | [] => rc_start c end.

Definition cursor_guard (c : RopeCursor) (end_offset : nat) : bool := (rc_offset c <=? end_offset) && (end_offset <=? rope_len (rc_rope c)).

Definition seek_forward (c : RopeCursor) (end_offset : nat) : option RopeCursor :=
  if cursor_guard c end_offset then
    let '(_, start, rest) := seek_entries usize_dim (λ d, Nat.compare end_offset d) Cursor.Right (rc_start c) (rc_rest c) in
    Some (mkRopeCursor (rc_rope c) start rest end_offset)
  else None.

Definition cursor_slice (c : RopeCursor) (end_offset : nat) : option (Rope * RopeCursor) :=
  if cursor_guard c end_offset then
    out ← match rc_rest c with
          | (start_chunk, _) :: _ =>
              start_ix ← checked_sub (rc_offset c) (rc_start c);
              end_ix ← checked_sub (Nat.min end_offset (cursor_end c)) (rc_start c);
              sl ← slice MAX_BASE start_chunk start_ix end_ix;
              push_chunk [] sl
          | [] => Some []
          end;
    if cursor_end c <? end_offset then
      let start := cursor_end c in
      let '(sk, start, rest) := seek_entries usize_dim (λ d, Nat.compare end_offset d) Cursor.Right start (tail (rc_rest c)) in
      out ← rope_append out sk;
      out ← match rest with
            | (end_chunk, _) :: _ =>
                end_ix ← checked_sub end_offset start;
                sl ← slice MAX_BASE end_chunk 0 end_ix;
                push_chunk out sl
            | [] => Some out
            end;
      Some (out, mkRopeCursor (rc_rope c) start rest end_offset)
    else Some (out, mkRopeCursor (rc_rope c) (rc_start c) (rc_rest c) end_offset)
  else None.

Definition cursor_suffix (c : RopeCursor) : option Rope := fst <$> cursor_slice c (rope_len (rc_rope c)).

Definition rope_replace (r : Rope) (s e : nat) (t : Text) : option Rope :=
  let c := cursor_at r 0 in
  '(front, c) ← cursor_slice c s;
  new_rope ← rope_append [] front;
  c ← seek_forward c e;
  new_rope ← push new_rope t;
  back ← cursor_suffix c;
  rope_append new_rope back.

Definition rope_slice (r : Rope) (s e : nat) : option Rope :=
  c ← seek_forward (cursor_at r 0) s;
  fst <$> cursor_slice c e.

(** ** Conversions *)

Definition usize_cmp (o : nat) {V} (d : nat * V) : comparison := Nat.compare o d.1.
Definition points_cmp (p : Point) {V} (d : Point * V) : comparison := point_cmp p d.1.

Definition rope_is_char_boundary (r : Rope) (offset : nat) : option bool :=
  match r with
  | [] => Some (offset =? 0)
  | _ =>
      let '(start, item) := find usize_dim (λ d, Nat.compare offset d) Cursor.Left r in
      match item with
      | Some chunk => o ← checked_sub offset start; Some (chunk_is_char_boundary MAX_BASE chunk o)
      | None => Some false
      end
  end.

Definition rope_floor_char_boundary (r : Rope) (index : nat) : option nat :=
  if rope_len r <=? index then Some (rope_len r)
  else
    let '(start, item) := find usize_dim (λ d, Nat.compare index d) Cursor.Left r in
    o ← checked_sub index start;
    Some (match item with Some chunk => start + floor_char_boundary (text chunk) o | None => rope_len r end).
Definition rope_ceil_char_boundary (r : Rope) (index : nat) : option nat :=
  if rope_len r <? index then Some (rope_len r)
  else
    let '(start, item) := find usize_dim (λ d, Nat.compare index d) Cursor.Left r in
    o ← checked_sub index start;
    Some (match item with Some chunk => start + ceil_char_boundary (text chunk) o | None => rope_len r end).
Definition clip_offset (r : Rope) (offset : nat) (bias : Bias) : option nat :=
  match bias with Cursor.Left => rope_floor_char_boundary r offset | Cursor.Right => rope_ceil_char_boundary r offset end.

Definition rope_offset_to_offset_utf16 (r : Rope) (offset : nat) : option nat :=
  if s_len (rope_summary r) <=? offset then Some (s_len_utf16 (rope_summary r))
  else
    let '(start, item) := find (dimensions usize_dim offset_utf16_dim) (usize_cmp offset) Cursor.Left r in
    overshoot ← checked_sub offset start.1;
    Some (start.2 + match item with Some chunk => offset_to_offset_utf16 MAX_BASE chunk overshoot | None => 0 end).

Definition rope_offset_utf16_to_offset (r : Rope) (offset : nat) : option nat :=
  if s_len_utf16 (rope_summary r) <=? offset then Some (s_len (rope_summary r))
  else
    let '(start, item) := find (dimensions offset_utf16_dim usize_dim) (usize_cmp offset) Cursor.Left r in
    overshoot ← checked_sub offset start.1;
    o ← match item with Some chunk => offset_utf16_to_offset MAX_BASE chunk overshoot | None => Some 0 end;
    Some (start.2 + o).

Definition rope_offset_to_point (r : Rope) (offset : nat) : option Point :=
  if s_len (rope_summary r) <=? offset then Some (s_lines (rope_summary r))
  else
    let '(start, item) := find (dimensions usize_dim point_dim) (usize_cmp offset) Cursor.Left r in
    overshoot ← checked_sub offset start.1;
    p ← match item with Some chunk => offset_to_point MAX_BASE chunk overshoot | None => Some point_zero end;
    Some (point_add start.2 p).

Definition rope_offset_to_point_utf16 (r : Rope) (offset : nat) : option PointUtf16 :=
  if s_len (rope_summary r) <=? offset then Some (lines_utf16 (rope_summary r))
  else
    let '(start, item) := find (dimensions usize_dim point_utf16_dim) (usize_cmp offset) Cursor.Left r in
    overshoot ← checked_sub offset start.1;
    p ← match item with Some chunk => offset_to_point_utf16 MAX_BASE chunk overshoot | None => Some point_zero end;
    Some (point_add start.2 p).

Definition rope_point_to_point_utf16 (r : Rope) (point : Point) : option PointUtf16 :=
  if point_leb (s_lines (rope_summary r)) point then Some (lines_utf16 (rope_summary r))
  else
    let '(start, item) := find (dimensions point_dim point_utf16_dim) (points_cmp point) Cursor.Left r in
    let overshoot := point_sub point start.1 in
    p ← match item with Some chunk => point_to_point_utf16 MAX_BASE chunk overshoot | None => Some point_zero end;
    Some (point_add start.2 p).

Definition rope_point_utf16_to_point (r : Rope) (point : PointUtf16) : option Point :=
  if point_leb (lines_utf16 (rope_summary r)) point then Some (s_lines (rope_summary r))
  else
    let '(_, start, rest) := seek_entries (dimensions point_utf16_dim point_dim) (points_cmp point) Cursor.Left (point_zero, point_zero) r in
    let overshoot := point_sub point start.1 in
    p ← match rest with
        | (chunk, _) :: _ => o ← point_utf16_to_offset MAX_BASE chunk overshoot false; offset_to_point MAX_BASE chunk o
        | [] => Some point_zero
        end;
    Some (point_add start.2 p).

Definition rope_point_to_offset (r : Rope) (point : Point) : option nat :=
  if point_leb (s_lines (rope_summary r)) point then Some (s_len (rope_summary r))
  else
    let '(start, item) := find (dimensions point_dim usize_dim) (points_cmp point) Cursor.Left r in
    let overshoot := point_sub point start.1 in
    o ← match item with Some chunk => point_to_offset MAX_BASE chunk overshoot | None => Some 0 end;
    Some (start.2 + o).

Definition rope_point_to_offset_utf16 (r : Rope) (point : Point) : option nat :=
  if point_leb (s_lines (rope_summary r)) point then Some (s_len_utf16 (rope_summary r))
  else
    let '(_, start, rest) := seek_entries (dimensions point_dim offset_utf16_dim) (points_cmp point) Cursor.Left (point_zero, 0) r in
    let overshoot := point_sub point start.1 in
    o ← match rest with (chunk, _) :: _ => point_to_offset_utf16 MAX_BASE chunk overshoot | [] => Some 0 end;
    Some (start.2 + o).

Definition point_utf16_to_offset_impl (r : Rope) (point : PointUtf16) (clip : bool) : option nat :=
  if point_leb (lines_utf16 (rope_summary r)) point then Some (s_len (rope_summary r))
  else
    let '(start, item) := find (dimensions point_utf16_dim usize_dim) (points_cmp point) Cursor.Left r in
    let overshoot := point_sub point start.1 in
    o ← match item with Some chunk => point_utf16_to_offset MAX_BASE chunk overshoot clip | None => Some 0 end;
    Some (start.2 + o).

Definition point_utf16_to_offset_utf16_impl (r : Rope) (point : PointUtf16) (clip : bool) : option nat :=
  if point_leb (lines_utf16 (rope_summary r)) point then Some (s_len_utf16 (rope_summary r))
  else
    let '(_, start, rest) := seek_entries (dimensions point_utf16_dim offset_utf16_dim) (points_cmp point) Cursor.Left (point_zero, 0) r in
    let overshoot := point_sub point start.1 in
    o ← match rest with
        | (chunk, _) :: _ => o ← point_utf16_to_offset MAX_BASE chunk overshoot clip; Some (offset_to_offset_utf16 MAX_BASE chunk o)
        | [] => Some 0
        end;
    Some (start.2 + o).

Definition rope_unclipped_point_utf16_to_point (r : Rope) (point : PointUtf16) : option Point :=
  if point_leb (lines_utf16 (rope_summary r)) point then Some (s_lines (rope_summary r))
  else
    let '(start, item) := find (dimensions point_utf16_dim point_dim) (points_cmp point) Cursor.Left r in
    let overshoot := point_sub point start.1 in
    p ← match item with Some chunk => unclipped_point_utf16_to_point MAX_BASE chunk overshoot | None => Some point_zero end;
    Some (point_add start.2 p).

(** ** Clipping *)

Definition rope_clip_offset_utf16 (r : Rope) (offset : nat) (bias : Bias) : option nat :=
  let '(start, item) := find offset_utf16_dim (λ d, Nat.compare offset d) Cursor.Right r in
  match item with
  | Some chunk => overshoot ← checked_sub offset start; o ← clip_offset_utf16 MAX_BASE chunk overshoot bias; Some (start + o)
  | None => Some (s_len_utf16 (rope_summary r))
  end.

Definition rope_clip_point (is_grapheme_boundary : Text → nat → bool) (r : Rope) (point : Point) (bias : Bias) : option Point :=
  let '(start, item) := find point_dim (point_cmp point) Cursor.Right r in
  match item with
  | Some chunk => p ← clip_point MAX_BASE is_grapheme_boundary chunk (point_sub point start) bias; Some (point_add start p)
  | None => Some (s_lines (rope_summary r))
  end.

Definition rope_clip_point_utf16 (r : Rope) (point : PointUtf16) (bias : Bias) : option PointUtf16 :=
  let '(start, item) := find point_utf16_dim (point_cmp point) Cursor.Right r in
  match item with
  | Some chunk => p ← clip_point_utf16 MAX_BASE chunk (point_sub point start) bias; Some (point_add start p)
  | None => Some (lines_utf16 (rope_summary r))
  end.

Definition line_len (is_grapheme_boundary : Text → nat → bool) (r : Rope) (row : N) : option N :=
  column <$> rope_clip_point is_grapheme_boundary r (mkPoint row u32_max) Cursor.Left.

Definition slice_rows (r : Rope) (s e : N) : option Rope :=
  s ← rope_point_to_offset r (mkPoint s 0); e ← rope_point_to_offset r (mkPoint e 0); rope_slice r s e.
End rope.
#[global] Arguments mkDim {D}.
#[global] Arguments dim_zero {D}.
#[global] Arguments dim_add {D}.
