(* ===== verification/RopeOk.v ===== *)
(** * Building ropes

    Every operation that adds text keeps the rope's chunks well formed: their
    bitmaps and summaries are those of their texts, no chunk is empty or
    overfull, and none but the last is underfull. *)

From S2P Require Import Prelude Text Bitmap Select Utf8 Summary Chunk ChunkBits ChunkOk ChunkPoints ChunkClip ChunkSummary ChunkLongest Rope.

(** ** Boundaries come every four bytes *)

Lemma next_boundary t i : utf8 t → i ≤ length t →
  ∃ j, i ≤ j ≤ i + 3 ∧ is_char_boundary t j = true ∧ ∀ k, i ≤ k < j → is_char_boundary t k = false.
Proof.
  intros (cs & Hcs & ->). revert i. induction Hcs as [|c cs Hc Hcs IH]; intros i Hi; [exists 0; cbn in Hi; split_and!; [lia..|done|lia]|].
  pose proof (encode_char_length c) as Hl. pose proof (len_utf8_bounds c) as Hb. rewrite encode_cons in *. rewrite length_app, Hl in Hi.
  assert (encode_char c ≠ []) as Hne by (intros E; rewrite E in Hl; cbn in Hl; lia).
  destruct (decide (i = 0)) as [->|Hi0]; [exists 0; split_and!; [lia..|done|lia]|].
  destruct (decide (i < len_utf8 c)) as [Hlt|Hge].
  - exists (len_utf8 c). split; [lia|]. split.
    + rewrite <- Hl, <- (Nat.add_0_r (length _)). by rewrite boundary_app_r by (done || by apply encode_utf8).
    + intros k Hk. apply boundary_in_char; [done|lia].
  - destruct (IH (i - len_utf8 c)) as (j & Hj & Hbj & Hmin); [lia|]. exists (len_utf8 c + j). split; [lia|].
    assert (∀ k, is_char_boundary (encode_char c ++ encode cs) (len_utf8 c + k) = is_char_boundary (encode cs) k) as Hsh.
    { intros k. rewrite <- Hl. apply boundary_app_r; [done|by apply encode_utf8]. }
    rewrite Hsh. split; [done|]. intros k Hk. replace k with (len_utf8 c + (k - len_utf8 c)) by lia. rewrite Hsh. apply Hmin. lia.
Qed.

Lemma back_at t i : is_char_boundary t i = true → back_to_boundary t i = Some i.
Proof. intros H. destruct i; cbn [back_to_boundary]; unfold is_str_boundary; by rewrite H. Qed.

Lemma prev_boundary t i : utf8 t → i ≤ length t → ∃ j, j ≤ i ≤ j + 3 ∧ back_to_boundary t i = Some j ∧ is_char_boundary t j = true.
Proof.
  intros Ht Hi.
  assert (∀ n i, i ≤ n → ∃ j, j ≤ i ∧ back_to_boundary t i = Some j ∧ is_char_boundary t j = true ∧ ∀ k, j < k ≤ i → is_char_boundary t k = false) as H.
  { clear i Hi. induction n as [|n IH]; intros i Hi.
    - assert (i = 0) as -> by lia. exists 0. split_and!; [done..|lia].
    - destruct (is_char_boundary t i) eqn:E.
      + exists i. split_and!; [done|by apply back_at|done|lia].
      + destruct i as [|i]; [done|]. destruct (IH i) as (j & Hj & Hbj & Hb & Hk); [lia|]. exists j. cbn [back_to_boundary].
        unfold is_str_boundary at 1. rewrite E. split_and!; [lia|done|done|]. intros k Hk'. destruct (decide (k = S i)) as [->|]; [done|]. apply Hk. lia. }
  destruct (H i i ltac:(lia)) as (j & Hj & Hb & Hbj & Hk). exists j. split_and!; [done| |done|done].
  destruct (decide (i ≤ j + 3)); [done|exfalso]. destruct (next_boundary t (S j)) as (m & Hm & Hbm & _); [done|lia|].
  rewrite Hk in Hbm by lia. done.
Qed.

Section rope_ops.
Context (MAX_BASE : nat) (HMAX : 8 ≤ MAX_BASE ≤ 128).
Abbreviation MIN_BASE := (MIN_BASE MAX_BASE).

Lemma max2 : 2 ≤ MAX_BASE ≤ 128.
Proof using HMAX. lia. Qed.
Lemma min_base : MIN_BASE * 2 ≤ MAX_BASE ∧ MIN_BASE + 4 ≤ MAX_BASE.
Proof using HMAX. unfold Rope.MIN_BASE. pose proof (Nat.div_mod_eq MAX_BASE 2). pose proof (Nat.mod_upper_bound MAX_BASE 2). lia. Qed.

(** A chunk's text, and the rope with given chunk texts. *)
Definition text_ok (t : Text) : Prop := utf8 t ∧ t ≠ [] ∧ length t ≤ MAX_BASE.
Definition entry_of (t : Text) : Chunk * TextSummary := (chunk_of t, from_str t).
Definition rope_of (ts : list Text) : list (Chunk * TextSummary) := entry_of <$> ts.

(** No chunk but the last is underfull. *)
Definition full (t : Text) : Prop := MIN_BASE ≤ length t + 3.
Definition balanced (ts : list Text) : Prop := Forall full (removelast ts).

Record rope_texts (r : list (Chunk * TextSummary)) (ts : list Text) : Prop := {
  rt_rope : r = rope_of ts;
  rt_texts : Forall text_ok ts;
  rt_balanced : balanced ts;
}.

Lemma balanced_snoc ts t : balanced (ts ++ [t]) ↔ Forall full ts.
Proof using. unfold balanced. by rewrite removelast_last. Qed.
Lemma balanced_app ts us : us ≠ [] → balanced (ts ++ us) ↔ Forall full ts ∧ balanced us.
Proof using. intros Hu. unfold balanced. rewrite removelast_app by done. apply Forall_app. Qed.
Lemma full_balanced ts : Forall full ts → balanced ts.
Proof using.
  intros H. destruct ts as [|t ts _] using rev_ind; [constructor|]. apply balanced_snoc. by apply Forall_app in H as [? _].
Qed.
Lemma balanced_tail t ts : balanced (t :: ts) → balanced ts ∧ (ts ≠ [] → full t).
Proof using.
  destruct ts as [|u ts]; intros H; [split; [constructor|done]|]. change (t :: u :: ts) with ([t] ++ (u :: ts)) in H.
  apply balanced_app in H as [H1 H2]; [|done]. split; [done|]. intros _. by apply Forall_inv in H1.
Qed.

Lemma entry_ok t : text_ok t → entry MAX_BASE (chunk_of t) = Some (entry_of t).
Proof using HMAX. intros (Ht & _ & Hl). unfold entry. by rewrite (text_summary_of _ max2). Qed.

Lemma rope_of_app ts us : rope_of (ts ++ us) = rope_of ts ++ rope_of us.
Proof using. apply fmap_app. Qed.

(** ** Cutting a text into chunks *)

Lemma cut_loop_ok fuel t : utf8 t → length t ≤ fuel → ∃ us, cut_loop MAX_BASE fuel t = Some us ∧ concat us = t ∧ Forall text_ok us ∧
  Forall (λ u, MAX_BASE ≤ length u + 3) (removelast us).
Proof using HMAX.
  revert t. induction fuel as [|fuel IH]; intros t Ht Hf.
  - destruct t; [|cbn in Hf; lia]. exists []. done.
  - destruct t as [|b t']; [by exists []|]. set (t := b :: t') in *. assert (length t ≠ 0) as Hne by done.
    destruct (prev_boundary t (Nat.min MAX_BASE (length t)) Ht) as (i & Hi & Hback & Hb); [lia|].
    assert (length t ≤ MAX_BASE → i = length t) as Hall.
    { intros Hl. rewrite Nat.min_r, back_at in Hback by (done || apply boundary_length). by injection Hback. }
    assert (1 ≤ i) as Hi1 by lia.
    destruct (utf8_split t i Ht Hb) as [Ht1 Ht2]. pose proof (boundary_le t i Hb) as Hle.
    destruct (IH (drop i t) Ht2) as (us & Hus & Hcat & Hok & Hbal); [rewrite length_drop; lia|].
    exists (take i t :: us). cbn [cut_loop]. fold t. rewrite Hback. cbn [mbind option_bind]. unfold str_split_at, is_str_boundary. rewrite Hb. cbn [mbind option_bind].
    rewrite Hus. cbn [mbind option_bind concat]. rewrite Hcat, take_drop. split_and!; [done|done| |].
    + constructor; [|done]. split; [done|]. split; [|rewrite length_take; lia]. intros E%(f_equal length). rewrite length_take in E. cbn in E. lia.
    + destruct us as [|u us]; [constructor|]. change (removelast (take i t :: u :: us)) with (take i t :: removelast (u :: us)).
      constructor; [|done]. rewrite length_take. assert (drop i t ≠ []) as Hd.
      { intros E. rewrite E in Hcat. apply Forall_inv in Hok as (_ & Hu & _). by destruct u. }
      assert (i ≠ length t) by (intros ->; by rewrite drop_all in Hd).
      lia.
Qed.

(** ** Topping up the last chunk *)

Lemma split_ix_ok last_len u boundary : utf8 u → last_len ≤ MAX_BASE →
  (∀ i, i ≤ length u → boundary i = is_char_boundary u i) →
  ∃ i, split_ix MAX_BASE last_len (length u) boundary (S (length u)) = Some i ∧ is_char_boundary u i = true ∧ last_len + i ≤ MAX_BASE ∧
    (last_len + length u ≤ MAX_BASE ∧ i = length u ∨ MAX_BASE < last_len + length u ∧ MIN_BASE ≤ last_len + i ∧ (last_len < MIN_BASE ∧ last_len + i ≤ MIN_BASE + 3 ∨ i = 0)).
Proof using HMAX.
  intros Hu Hl Hbd. destruct min_base as [Hm1 Hm2]. unfold split_ix. destruct (Nat.leb_spec (last_len + length u) MAX_BASE) as [Hfit|Hbig].
  { exists (length u). split_and!; [done|apply boundary_length|done|by left]. }
  remember (Nat.min (MIN_BASE - last_len) (length u)) as i0 eqn:Hi0. destruct (next_boundary u i0 Hu) as (j & Hj & Hb & Hmin); [lia|].
  pose proof (boundary_le u j Hb) as Hju.
  assert (∀ fuel i, i0 ≤ i ≤ j → j - i < fuel →
    (fix go fuel i := match fuel with O => None | S fuel => if boundary i then Some i else go fuel (S i) end) fuel i = Some j) as Hgo.
  { induction fuel as [|fuel IH]; intros i Hi Hf; [lia|]. rewrite Hbd by lia. destruct (decide (i = j)) as [->|]; [by rewrite Hb|].
    rewrite Hmin by lia. apply IH; lia. }
  exists j. rewrite (Hgo (S (length u)) i0) by lia. assert (MIN_BASE ≤ last_len → j = 0) as Hz.
  { intros Hle. destruct (decide (j = 0)); [done|]. assert (i0 = 0) by lia. assert (is_char_boundary u 0 = false) by (apply Hmin; lia). done. }
  split_and!; [done|done|lia|]. right. split_and!; lia.
Qed.

Lemma last_rope_of ts t : last (rope_of (ts ++ [t])) = Some (entry_of t).
Proof using. rewrite rope_of_app. apply (last_snoc (entry_of t) (rope_of ts)). Qed.
Lemma init_rope_of ts t : take (length (rope_of (ts ++ [t])) - 1) (rope_of (ts ++ [t])) = rope_of ts.
Proof using.
  rewrite rope_of_app, length_app. change (length (rope_of [t])) with 1. by rewrite Nat.add_sub, take_app_length.
Qed.

Lemma snoc_nil {A} (l : list A) x : l ++ [x] ≠ [].
Proof using. by destruct l. Qed.

(** [update_last] with a closure that moves a prefix of [u] to the last chunk. *)
Lemma rope_update_last_ok {B} (f : Chunk → option (Chunk * B)) (mk : Text → B) ts t u i :
  Forall text_ok (ts ++ [t]) → utf8 u → is_char_boundary u i = true → length t + i ≤ MAX_BASE →
  f (chunk_of t) = Some (chunk_of (t ++ take i u), mk (drop i u)) →
  update_last MAX_BASE f (mk u) (rope_of (ts ++ [t])) = Some (rope_of (ts ++ [t ++ take i u]), mk (drop i u)) ∧
  text_ok (t ++ take i u).
Proof using HMAX.
  intros Hts Hu Hb Hl Hf. apply Forall_app in Hts as [_ Ht]. apply Forall_inv in Ht as (Ht & Hne & Hlen).
  pose proof (boundary_le u i Hb) as Hle. destruct (utf8_split u i Hu Hb) as [Hu1 Hu2].
  assert (text_ok (t ++ take i u)) as Hok.
  { split; [by apply utf8_app|]. split; [by destruct t|]. rewrite length_app, length_take. lia. }
  split; [|done]. unfold update_last. rewrite last_rope_of. cbn [entry_of]. rewrite Hf. cbn [mbind option_bind].
  rewrite entry_ok by done. cbn [mbind option_bind]. by rewrite init_rope_of, rope_of_app.
Qed.

(** The last chunk topped up, and what is left over. *)
Definition topped (ts : list Text) (u : Text) (ts' : list Text) (rest : Text) : Prop :=
  concat ts' ++ rest = concat ts ++ u ∧ Forall text_ok ts' ∧ utf8 rest ∧ balanced ts' ∧ (rest ≠ [] → Forall full ts').

Lemma topped_snoc ts t u i : Forall text_ok (ts ++ [t]) → balanced (ts ++ [t]) → utf8 u → is_char_boundary u i = true →
  text_ok (t ++ take i u) → (i = length u ∨ MIN_BASE ≤ length t + i) → topped (ts ++ [t]) u (ts ++ [t ++ take i u]) (drop i u).
Proof using HMAX.
  intros Hts Hbal Hu Hb Hok Hi. apply balanced_snoc in Hbal. apply Forall_app in Hts as [Hts _]. pose proof (boundary_le u i Hb) as Hle.
  split_and!.
  - rewrite !concat_app. cbn. rewrite !app_nil_r, <- !app_assoc, take_drop. done.
  - apply Forall_app. split; [done|by constructor].
  - by apply utf8_split.
  - by apply balanced_snoc.
  - intros Hd. apply Forall_app. split; [done|]. constructor; [|constructor]. unfold full. rewrite length_app, length_take.
    destruct Hi as [->|]; [by rewrite drop_all in Hd|lia].
Qed.

(** ** [push] *)

Lemma entries_new us : Forall text_ok us → (cs ← mapM (new MAX_BASE) us; entries MAX_BASE cs) = Some (rope_of us).
Proof using HMAX.
  intros Hok. assert (mapM (new MAX_BASE) us = Some (chunk_of <$> us)) as ->.
  { apply mapM_Some_2. apply Forall2_fmap_r, Forall_Forall2_diag. eapply Forall_impl; [exact Hok|]. intros t (Ht & _ & Hl). apply new_of; [lia|done|done]. }
  cbn [mbind option_bind]. unfold entries. apply mapM_Some_2. unfold rope_of. apply Forall2_fmap_l, Forall2_fmap_r, Forall_Forall2_diag.
  eapply Forall_impl; [exact Hok|]. intros t Ht. by apply entry_ok.
Qed.

(** The chunks cut from a text have at least [MAX_BASE - 3] bytes but the last. *)
Lemma cut_length us n : Forall (λ u, MAX_BASE ≤ length u + 3) (removelast us) → Forall text_ok us → us ≠ [] →
  length (concat us) ≤ n * MAX_BASE - n * 4 → length us ≤ n.
Proof using HMAX.
  intros Hf Hok Hne Hn. destruct us as [|u us _] using rev_ind; [done|]. rewrite removelast_last in Hf.
  apply Forall_app in Hok as [_ Hu]. apply Forall_inv in Hu as (_ & Hu & _). rewrite concat_app, length_app in Hn. cbn in Hn. rewrite app_nil_r in Hn.
  assert (length us * (MAX_BASE - 3) ≤ length (concat us)) as Hc.
  { clear Hn Hne. induction Hf as [|v us Hv _ IH]; [done|]. cbn [length concat]. rewrite length_app, Nat.mul_succ_l. lia. }
  assert (length u ≠ 0) by by destruct u. rewrite length_app. cbn. nia.
Qed.

Lemma cut_full us : Forall (λ u, MAX_BASE ≤ length u + 3) (removelast us) → balanced us.
Proof using HMAX. intros H. eapply Forall_impl; [exact H|]. cbn beta. intros u Hu. unfold full. destruct min_base. lia. Qed.

Lemma rope_texts_app ts us : Forall text_ok (ts ++ us) → (us ≠ [] → Forall full ts) → balanced us → balanced ts →
  rope_texts (rope_of (ts ++ us)) (ts ++ us).
Proof using.
  intros Hok Hf Hus Hts. constructor; [done|done|]. destruct us as [|u us]; [by rewrite app_nil_r|]. apply balanced_app; [done|]. split; [by apply Hf|done].
Qed.

Lemma rope_push_ok NUM_CHUNKS r ts u : rope_texts r ts → utf8 u →
  ∃ r' ts', push MAX_BASE NUM_CHUNKS r u = Some r' ∧ rope_texts r' ts' ∧ concat ts' = concat ts ++ u.
Proof using HMAX.
  intros [-> Hts Hbal] Hu.
  assert (∃ ts1 rest, update_last MAX_BASE (λ last_chunk,
      ix ← split_ix MAX_BASE (length (text last_chunk)) (length u) (is_str_boundary u) (S (length u));
      '(suffix, remainder) ← str_split_at u ix;
      c ← push_str MAX_BASE last_chunk suffix; Some (c, remainder)) u (rope_of ts) = Some (rope_of ts1, rest) ∧ topped ts u ts1 rest) as (ts1 & rest & Hup & Htop).
  { destruct ts as [|t ts _] using rev_ind; [exists [], u; by split_and!|].
    pose proof Hts as [_ Ht]%Forall_app. apply Forall_inv in Ht as (Ht & Hne & Hlen).
    destruct (split_ix_ok (length t) u (is_str_boundary u) Hu Hlen) as (i & Hix & Hb & Hl & Hcase); [done|].
    destruct (utf8_split u i Hu Hb) as [Hu1 Hu2]. pose proof (boundary_le u i Hb) as Hle.
    edestruct (rope_update_last_ok (λ last_chunk, ix ← split_ix MAX_BASE (length (text last_chunk)) (length u) (is_str_boundary u) (S (length u));
      '(suffix, remainder) ← str_split_at u ix; c ← push_str MAX_BASE last_chunk suffix; Some (c, remainder)) id ts t u i) as [Heq Hok]; [done..| |].
    { cbn [text chunk_of]. rewrite Hix. cbn [mbind option_bind]. unfold str_split_at, is_str_boundary. rewrite Hb. cbn [mbind option_bind].
      rewrite push_str_of by (done || (rewrite length_take; lia) || apply max2). done. }
    exists (ts ++ [t ++ take i u]), (drop i u). split; [exact Heq|]. apply topped_snoc; [done..|]. destruct Hcase as [[_ ->]|(_ & ? & _)]; [by left|by right]. }
  unfold push. rewrite Hup. cbn [mbind option_bind]. destruct Htop as (Hcat & Hok1 & Hrest & Hbal1 & Hfull).
  case_bool_decide as Hnil; [subst rest; exists (rope_of ts1), ts1; rewrite app_nil_r in Hcat; by split_and!|].
  destruct (cut_loop_ok (length rest) rest Hrest) as (us & Hus & Hcatu & Hoku & Hbalu); [done|].
  assert (us ≠ []) as Hune by (intros ->; by cbn in Hcatu).
  pose proof (entries_new us Hoku) as Hent. exists (rope_of (ts1 ++ us)), (ts1 ++ us).
  assert (rope_texts (rope_of (ts1 ++ us)) (ts1 ++ us)) as Hrt.
  { apply rope_texts_app; [by apply Forall_app|intros _; by apply Hfull|by apply cut_full|done]. }
  assert (concat (ts1 ++ us) = concat ts ++ u) as Hcc by (by rewrite concat_app, Hcatu).
  destruct (Nat.ltb_spec (NUM_CHUNKS * MAX_BASE - NUM_CHUNKS * 4) (length rest)) as [Hbig|Hsmall].
  - unfold push_large. rewrite Hus. cbn [mbind option_bind]. destruct (mapM (new MAX_BASE) us) as [cs|]; [|done]. cbn [mbind option_bind] in *.
    rewrite Hent. cbn [mbind option_bind]. rewrite <- rope_of_app. by split_and!.
  - rewrite Hus. cbn [mbind option_bind]. rewrite (proj2 (Nat.leb_le _ _)) by (apply cut_length; [done..|by rewrite Hcatu]).
    destruct (mapM (new MAX_BASE) us) as [cs|]; [|done]. cbn [mbind option_bind] in *. rewrite Hent. cbn [mbind option_bind]. rewrite <- rope_of_app. by split_and!.
Qed.

(** ** [push_chunk] and [append] *)

Lemma push_chunk_top ts u : Forall text_ok ts → balanced ts → utf8 u → length u ≤ MAX_BASE →
  ∃ ts1 rest, push_chunk MAX_BASE (rope_of ts) (chunk_of u) =
      Some (rope_of (ts1 ++ if bool_decide (rest = []) then [] else [rest])) ∧ topped ts u ts1 rest ∧ length rest ≤ MAX_BASE ∧
    (full u → u ≠ [] → Forall full (ts1 ++ if bool_decide (rest = []) then [] else [rest])).
Proof using HMAX.
  intros Hts Hbal Hu Hlu.
  assert (∃ ts1 rest, update_last MAX_BASE (λ last_chunk,
      ix ← split_ix MAX_BASE (length (text last_chunk)) (chunk_len (chunk_of u)) (chunk_is_char_boundary MAX_BASE (chunk_of u)) (S (chunk_len (chunk_of u)));
      '(suffix, remainder) ← split_at MAX_BASE (chunk_of u) ix;
      c ← append MAX_BASE last_chunk suffix; Some (c, remainder)) (chunk_of u) (rope_of ts) = Some (rope_of ts1, chunk_of rest) ∧
      topped ts u ts1 rest ∧ length rest ≤ MAX_BASE ∧ (full u → u ≠ [] → Forall full (ts1 ++ if bool_decide (rest = []) then [] else [rest])))
    as (ts1 & rest & Hup & Htop & Hlr & Hfull).
  { destruct ts as [|t ts _] using rev_ind.
    { exists [], u. split_and!; [done|by split_and!|done|]. intros Hf Hne. rewrite bool_decide_eq_false_2 by done. by constructor. }
    pose proof Hts as [_ Ht]%Forall_app. apply Forall_inv in Ht as (Ht & Hne & Hlen).
    destruct (split_ix_ok (length t) u (chunk_is_char_boundary MAX_BASE (chunk_of u)) Hu Hlen) as (i & Hix & Hb & Hl & Hcase).
    { intros i Hi. apply chunk_boundary_of; [apply max2|done|done|lia]. }
    destruct (utf8_split u i Hu Hb) as [Hu1 Hu2]. pose proof (boundary_le u i Hb) as Hle.
    edestruct (rope_update_last_ok (λ last_chunk, ix ← split_ix MAX_BASE (length (text last_chunk)) (chunk_len (chunk_of u)) (chunk_is_char_boundary MAX_BASE (chunk_of u)) (S (chunk_len (chunk_of u)));
      '(suffix, remainder) ← split_at MAX_BASE (chunk_of u) ix; c ← append MAX_BASE last_chunk suffix; Some (c, remainder)) chunk_of ts t u i) as [Heq Hok]; [done..| |].
    { unfold chunk_len. cbn [text chunk_of]. rewrite Hix. cbn [mbind option_bind]. rewrite split_at_of by (done || apply max2). cbn [mbind option_bind].
      rewrite append_of by (done || (rewrite length_take; lia)). done. }
    assert (topped (ts ++ [t]) u (ts ++ [t ++ take i u]) (drop i u)) as Htop.
    { apply topped_snoc; [done..|]. destruct Hcase as [[_ ->]|(_ & ? & _)]; [by left|by right]. }
    exists (ts ++ [t ++ take i u]), (drop i u). split_and!; [exact Heq|done|rewrite length_drop; lia|].
    intros Hfu Hune. apply balanced_snoc in Hbal. destruct min_base as [Hm1 Hm2]. unfold full in Hfu.
    destruct Hcase as [[Hfit ->]|(Hbig & Hmin & Hsmall)].
    - rewrite drop_all, bool_decide_eq_true_2, app_nil_r, take_ge by done. apply Forall_app. split; [done|]. constructor; [|constructor].
      unfold full. rewrite length_app. lia.
    - destruct Htop as (_ & _ & _ & _ & Hft). case_bool_decide as Hd.
      + exfalso. apply (f_equal length) in Hd. rewrite length_drop in Hd. cbn in Hd. lia.
      + apply Forall_app. split; [by apply Hft|]. constructor; [|constructor]. unfold full. rewrite length_drop. lia. }
  exists ts1, rest. split; [|done]. unfold push_chunk. rewrite Hup. cbn [mbind option_bind text chunk_of].
  case_bool_decide as Hnil; [by rewrite app_nil_r|]. destruct Htop as (_ & _ & Hur & _). rewrite entry_ok by done. cbn [mbind option_bind].
  by rewrite rope_of_app.
Qed.

Lemma topped_texts ts u ts1 rest : topped ts u ts1 rest → length rest ≤ MAX_BASE →
  let ts' := ts1 ++ if bool_decide (rest = []) then [] else [rest] in rope_texts (rope_of ts') ts' ∧ concat ts' = concat ts ++ u.
Proof using.
  intros (Hcat & Hok & Hur & Hbal & Hfull) Hl. cbn zeta. case_bool_decide as Hnil.
  - subst rest. rewrite !app_nil_r in *. done.
  - split; [|rewrite concat_app; cbn; by rewrite app_nil_r]. apply rope_texts_app; [|by intros _; apply Hfull|constructor|done].
    apply Forall_app. split; [done|]. by constructor.
Qed.

Lemma push_chunk_ok r ts u : rope_texts r ts → utf8 u → length u ≤ MAX_BASE →
  ∃ r' ts', push_chunk MAX_BASE r (chunk_of u) = Some r' ∧ rope_texts r' ts' ∧ concat ts' = concat ts ++ u.
Proof using HMAX.
  intros [-> Hts Hbal] Hu Hl. destruct (push_chunk_top ts u Hts Hbal Hu Hl) as (ts1 & rest & Heq & Htop & Hlr & _).
  destruct (topped_texts _ _ _ _ Htop Hlr) as [Hrt Hcat]. eexists _, _. split; [exact Heq|]. done.
Qed.

Lemma rope_append_ok r ts r' us : rope_texts r ts → rope_texts r' us →
  ∃ r'' ts', rope_append MAX_BASE r r' = Some r'' ∧ rope_texts r'' ts' ∧ concat ts' = concat ts ++ concat us.
Proof using HMAX.
  intros [-> Hts Hbal] [-> Hus Hbalu]. destruct us as [|u us]; [exists (rope_of ts), ts; cbn; by rewrite app_nil_r|].
  pose proof Hus as [Hu Hus']%Forall_cons. destruct (balanced_tail u us Hbalu) as [Hbal' Hfu]. pose proof Hu as (Hu8 & Hune & Hul).
  unfold rope_append. cbn [rope_of fmap list_fmap entry_of text chunk_of].
  match goal with |- context [if ?b then _ else Some _] => destruct b eqn:Hcond end.
  - destruct (push_chunk_top ts u Hts Hbal Hu8 Hul) as (ts1 & rest & Heq & Htop & Hlr & Hall). fold (rope_of ts).
    rewrite Heq. cbn [mbind option_bind]. destruct (topped_texts _ _ _ _ Htop Hlr) as [[_ Hok' Hbal1] Hcat].
    set (ts' := ts1 ++ _) in *. exists (rope_of (ts' ++ us)), (ts' ++ us). rewrite rope_of_app. split; [done|]. split.
    + rewrite <- rope_of_app. apply rope_texts_app; [by apply Forall_app|intros Hne; apply Hall; [by apply Hfu|done]|done|done].
    + rewrite concat_app, Hcat. cbn [concat]. by rewrite app_assoc.
  - exists (rope_of (ts ++ u :: us)), (ts ++ u :: us). rewrite rope_of_app. split; [done|]. split; [|by rewrite concat_app].
    rewrite <- rope_of_app. apply rope_texts_app; [by apply Forall_app| |done|done]. intros _.
    destruct ts as [|t ts _] using rev_ind; [constructor|]. change (entry_of <$> ts ++ [t]) with (rope_of (ts ++ [t])) in Hcond.
    rewrite last_rope_of in Hcond. cbn [entry_of text chunk_of] in Hcond. apply orb_false_iff in Hcond as [Hc _]. apply Nat.ltb_ge in Hc.
    apply balanced_snoc in Hbal. apply Forall_app. split; [done|]. constructor; [unfold full; lia|constructor].
Qed.

(** ** Lengths and summaries *)

Lemma text_utf8 ts : Forall text_ok ts → utf8 (concat ts).
Proof using. induction 1 as [|t ts (Ht & _ & _) _ IH]; [apply utf8_nil|]. cbn. by apply utf8_app. Qed.

Definition fits32 (t : Text) : Prop := is_u32 (N.of_nat (length t)).
End rope_ops.
