(* ===== verification/RopeSeek.v ===== *)
(** * Seeking in ropes

    A rope's dimensions measure the text before a position; seeking a measure
    of the text before an offset finds the chunk that holds the offset. *)

From S2P Require Import Prelude Text Bitmap Select Utf8 Summary Chunk ChunkBits ChunkOk ChunkPoints ChunkClip ChunkSummary ChunkLongest Rope RopeOk.

(** ** Points of a concatenation *)

Definition fits32 (t : Text) : Prop := is_u32 (N.of_nat (length t)).

Lemma fits32_app t u : fits32 (t ++ u) → fits32 t ∧ fits32 u.
Proof. unfold fits32, is_u32. rewrite length_app. lia. Qed.
Lemma fits32_take t o : fits32 t → fits32 (take o t).
Proof. intros H. rewrite <- (take_drop o t) in H. by apply fits32_app in H as [? _]. Qed.

Lemma newline_bits_app t u : newline_bits (t ++ u) = newline_bits t ++ newline_bits u.
Proof. apply fmap_app. Qed.
Lemma line_count_app t u : line_count (t ++ u) = line_count t + line_count u.
Proof. unfold line_count. by rewrite newline_bits_app, count_true_app. Qed.
Lemma line_count_le t : line_count t ≤ length t.
Proof. unfold line_count. rewrite <- newline_bits_length. apply count_true_le. Qed.
Lemma tail_units_le t : tail_units t ≤ length t.
Proof. unfold tail_units. rewrite count_true_le, length_drop, utf16_bits_length. lia. Qed.

Lemma tail_len_app t u : tail_len (t ++ u) = if line_count u =? 0 then tail_len t + length u else tail_len u.
Proof.
  unfold tail_len, line_count. rewrite newline_bits_app, rev_app_distr, lead_count, count_true_rev, length_rev, newline_bits_length.
  destruct (_ =? 0); [lia|done].
Qed.

Lemma tail_len_flat u : line_count u = 0 → tail_len u = length u.
Proof. intros H. pose proof (tail_len_app [] u) as E. rewrite H in E. done. Qed.

Lemma tail_units_app t u : utf8 t → tail_units (t ++ u) = if line_count u =? 0 then tail_units t + utf16_len u else tail_units u.
Proof.
  intros Ht. unfold tail_units. rewrite tail_len_app, utf16_bits_app, length_app by done. pose proof (tail_len_le t). pose proof (tail_len_le u).
  destruct (Nat.eqb_spec (line_count u) 0).
  - rewrite drop_app_le by (rewrite utf16_bits_length; lia). rewrite count_true_app. do 3 f_equal. lia.
  - rewrite drop_app_ge by (rewrite utf16_bits_length; lia). do 2 f_equal. rewrite utf16_bits_length. lia.
Qed.

Lemma point_of_app t u : fits32 (t ++ u) → point_add (point_of t) (point_of u) = point_of (t ++ u).
Proof.
  unfold fits32, is_u32. rewrite length_app. intros Hf. unfold point_add, point_of. cbn [row column]. rewrite line_count_app, tail_len_app.
  pose proof (line_count_le t). pose proof (line_count_le u). pose proof (tail_len_le t). pose proof (tail_len_le u).
  destruct (N.eqb_spec (N.of_nat (line_count u)) 0), (Nat.eqb_spec (line_count u) 0); try lia; rewrite wrap_u32_small by (unfold is_u32; lia).
  - rewrite (tail_len_flat u) by done. f_equal; lia.
  - f_equal. lia.
Qed.

Lemma point16_of_app t u : utf8 t → fits32 (t ++ u) → point_add (point16_of t) (point16_of u) = point16_of (t ++ u).
Proof.
  unfold fits32, is_u32. rewrite length_app. intros Ht Hf. unfold point_add, point16_of. cbn [row column]. rewrite line_count_app, tail_units_app by done.
  pose proof (line_count_le t). pose proof (line_count_le u). pose proof (tail_units_le t). pose proof (tail_units_le u).
  destruct (N.eqb_spec (N.of_nat (line_count u)) 0), (Nat.eqb_spec (line_count u) 0); try lia; rewrite wrap_u32_small by (unfold is_u32; lia).
  - assert (tail_units u = utf16_len u) as ->; [|f_equal; lia]. unfold tail_units. by rewrite tail_len_flat, Nat.sub_diag.
  - f_equal. lia.
Qed.

Lemma sub_u32_ok a b : (b ≤ a)%N → is_u32 a → sub_u32 a b = (a - b)%N.
Proof.
  unfold sub_u32, is_u32, u32_max, wrap_u32. intros Hb Ha. replace (a + 2 ^ 32 - b)%N with (a - b + 1 * 2 ^ 32)%N by lia.
  rewrite N.Div0.mod_add. apply N.mod_small. lia.
Qed.

(** Subtracting the point before gives the point within. *)
Lemma point_sub_add p q : point_ok (mkPoint (row p + row q) (column p + column q)) → point_sub (point_add p q) p = q.
Proof.
  intros [Hr Hc]. unfold is_u32 in *. destruct p as [r1 c1], q as [r2 c2]. cbn [row column] in *. unfold point_add, point_sub. cbn [row column].
  destruct (N.eqb_spec r2 0) as [->|Hr2]; cbn [row column].
  - rewrite N.eqb_refl, wrap_u32_small, sub_u32_ok by (unfold is_u32; lia). f_equal. lia.
  - rewrite wrap_u32_small by (unfold is_u32; lia). rewrite (proj2 (N.eqb_neq _ _)), sub_u32_ok by (unfold is_u32; lia). f_equal. lia.
Qed.

Lemma point_of_ok t : fits32 t → point_ok (point_of t).
Proof.
  unfold fits32, is_u32. intros H. pose proof (line_count_le t). pose proof (tail_len_le t). split; unfold is_u32, point_of; cbn; lia.
Qed.
Lemma point16_of_ok t : fits32 t → point_ok (point16_of t).
Proof.
  unfold fits32, is_u32. intros H. pose proof (line_count_le t). pose proof (tail_units_le t). split; unfold is_u32, point16_of; cbn; lia.
Qed.

Lemma point_of_sub t u : fits32 (t ++ u) → point_sub (point_of (t ++ u)) (point_of t) = point_of u.
Proof.
  intros Hf. rewrite <- point_of_app by done. apply point_sub_add. unfold fits32, is_u32 in Hf. rewrite length_app in Hf.
  pose proof (line_count_le t). pose proof (line_count_le u). pose proof (tail_len_le t). pose proof (tail_len_le u).
  split; unfold is_u32, point_of; cbn; lia.
Qed.
Lemma point16_of_sub t u : utf8 t → fits32 (t ++ u) → point_sub (point16_of (t ++ u)) (point16_of t) = point16_of u.
Proof.
  intros Ht Hf. rewrite <- point16_of_app by done. apply point_sub_add. unfold fits32, is_u32 in Hf. rewrite length_app in Hf.
  pose proof (line_count_le t). pose proof (line_count_le u). pose proof (tail_units_le t). pose proof (tail_units_le u).
  split; unfold is_u32, point16_of; cbn; lia.
Qed.

(** ** Points are ordered as the offsets *)

Lemma compare_grow p q : point_ok p → point_ok q → (row p < row q ∨ row p = row q ∧ column p < column q)%N → point_cmp p q = Lt.
Proof.
  intros Hp Hq H. rewrite point_cmp_lex by done. destruct H as [H|[-> H]].
  - by rewrite (proj2 (N.compare_lt_iff _ _) H).
  - rewrite N.compare_refl. cbn. by apply N.compare_lt_iff.
Qed.

Lemma point_cmp_refl p : point_cmp p p = Eq.
Proof. apply N.compare_refl. Qed.
Lemma point_cmp_antisym p q : point_cmp q p = CompOpp (point_cmp p q).
Proof. apply N.compare_antisym. Qed.

Lemma point_of_grow t u : fits32 (t ++ u) → u ≠ [] → point_cmp (point_of t) (point_of (t ++ u)) = Lt.
Proof.
  intros Hf Hu. apply compare_grow; [apply point_of_ok; by apply fits32_app in Hf as [? _]|by apply point_of_ok|].
  unfold point_of. cbn [row column]. rewrite line_count_app, tail_len_app. assert (length u ≠ 0) by by destruct u.
  destruct (Nat.eqb_spec (line_count u) 0); lia.
Qed.

Lemma point16_of_grow t u : utf8 t → utf8 u → fits32 (t ++ u) → u ≠ [] → point_cmp (point16_of t) (point16_of (t ++ u)) = Lt.
Proof.
  intros Ht Hu8 Hf Hu. apply compare_grow; [apply point16_of_ok; by apply fits32_app in Hf as [? _]|by apply point16_of_ok|].
  unfold point16_of. cbn [row column]. rewrite line_count_app, tail_units_app by done. pose proof (utf16_len_pos u Hu8 Hu).
  destruct (Nat.eqb_spec (line_count u) 0); lia.
Qed.

Lemma split_two (t : Text) a b : a ≤ b → take b t = take a t ++ take (b - a) (drop a t).
Proof. intros Hab. rewrite <- (take_drop a (take b t)) at 1. rewrite take_take, Nat.min_l by done. by rewrite skipn_firstn_comm. Qed.

Lemma compare_mono (f : nat → Point) n : (∀ a b, a < b ≤ n → point_cmp (f a) (f b) = Lt) →
  ∀ a b, a ≤ n → b ≤ n → point_cmp (f a) (f b) = Nat.compare a b.
Proof.
  intros Hf a b Ha Hb. destruct (Nat.compare_spec a b) as [->|Hlt|Hgt]; [apply point_cmp_refl|by apply Hf|].
  rewrite point_cmp_antisym, Hf by lia. done.
Qed.

(** The point before an offset decides like the offset. *)
Lemma point_of_compare t a b : fits32 t → a ≤ length t → b ≤ length t →
  point_cmp (point_of (take a t)) (point_of (take b t)) = Nat.compare a b.
Proof.
  intros Hf. apply (compare_mono (λ o, point_of (take o t)) (length t)). clear a b. intros a b Hab. rewrite (split_two t a b) by lia.
  apply point_of_grow; [rewrite <- split_two by lia; by apply fits32_take|].
  intros E%(f_equal length). rewrite length_take, length_drop in E. cbn in E. lia.
Qed.

Lemma boundary_parts t a b : utf8 t → is_char_boundary t a = true → is_char_boundary t b = true → a ≤ b →
  utf8 (take a t) ∧ utf8 (take (b - a) (drop a t)).
Proof.
  intros Ht Ha Hb Hab. split; [by apply utf8_split|]. rewrite <- skipn_firstn_comm. apply utf8_split; [by apply utf8_split|by apply boundary_take].
Qed.

Lemma part_nonempty (t : Text) a b : a < b ≤ length t → take (b - a) (drop a t) ≠ [].
Proof. intros Hab E%(f_equal length). rewrite length_take, length_drop in E. cbn in E. lia. Qed.

(** UTF-16 lengths and points of boundaries decide like the offsets. *)
Lemma utf16_len_compare t a b : utf8 t → is_char_boundary t a = true → is_char_boundary t b = true →
  Nat.compare (utf16_len (take a t)) (utf16_len (take b t)) = Nat.compare a b.
Proof.
  intros Ht.
  assert (∀ a b, is_char_boundary t a = true → is_char_boundary t b = true → a < b → utf16_len (take a t) < utf16_len (take b t)) as Hm.
  { intros x y Hx Hy Hxy. pose proof (boundary_le t y Hy). destruct (boundary_parts t x y Ht Hx Hy) as [H1 H2]; [lia|].
    rewrite (split_two t x y), utf16_len_app by (done || lia). pose proof (utf16_len_pos _ H2 (part_nonempty t x y ltac:(lia))). lia. }
  intros Ha Hb. destruct (Nat.compare_spec a b) as [->|H|H]; [apply Nat.compare_refl|apply Nat.compare_lt_iff|apply Nat.compare_gt_iff]; by apply Hm.
Qed.

Lemma point16_of_compare t a b : utf8 t → fits32 t → is_char_boundary t a = true → is_char_boundary t b = true →
  point_cmp (point16_of (take a t)) (point16_of (take b t)) = Nat.compare a b.
Proof.
  intros Ht Hf.
  assert (∀ a b, is_char_boundary t a = true → is_char_boundary t b = true → a < b → point_cmp (point16_of (take a t)) (point16_of (take b t)) = Lt) as Hm.
  { intros x y Hx Hy Hxy. pose proof (boundary_le t y Hy). destruct (boundary_parts t x y Ht Hx Hy) as [H1 H2]; [lia|].
    rewrite (split_two t x y) by lia. apply point16_of_grow; [done|done| |apply part_nonempty; lia].
    rewrite <- split_two by lia. by apply fits32_take. }
  intros Ha Hb. destruct (Nat.compare_spec a b) as [->|H|H]; [apply point_cmp_refl|by apply Hm|].
  by rewrite point_cmp_antisym, Hm.
Qed.

(** ** The measure of the text before a position *)

Record measures {D} (d : Dim D) (f : Text → D) : Prop := {
  ms_zero : dim_zero d = f [];
  ms_add : ∀ t u, utf8 t → utf8 u → fits32 (t ++ u) → dim_add d (f t) (from_str u) = f (t ++ u);
}.
Lemma from_str_fields t : utf8 t → fits32 t →
  s_len (from_str t) = length t ∧ s_len_utf16 (from_str t) = utf16_len t ∧ s_lines (from_str t) = point_of t ∧
  lines_utf16 (from_str t) = point16_of t.
Proof.
  intros (cs & Hcs & ->) Hf. destruct (fields_ok cs Hcs Hf) as [E1 E2 E3 E4 E5 E6]. rewrite from_str_encode by done.
  unfold lines_utf16, set_len. cbn. by rewrite E2, E3, E6.
Qed.

Lemma usize_measures : measures usize_dim length.
Proof.
  constructor; [done|]. intros t u Ht Hu Hf. apply fits32_app in Hf as [_ Hf]. destruct (from_str_fields u Hu Hf) as (E & _).
  cbn [dim_add usize_dim]. by rewrite E, length_app.
Qed.
Lemma utf16_measures : measures offset_utf16_dim utf16_len.
Proof.
  constructor; [done|]. intros t u Ht Hu Hf. pose proof Hf as [_ Hu']%fits32_app. destruct (from_str_fields u Hu Hu') as (_ & E & _).
  cbn [dim_add offset_utf16_dim]. by rewrite E, utf16_len_app.
Qed.
Lemma point_measures : measures point_dim point_of.
Proof.
  constructor; [done|]. intros t u Ht Hu Hf. pose proof Hf as [_ Hu']%fits32_app. destruct (from_str_fields u Hu Hu') as (_ & _ & E & _).
  cbn [dim_add point_dim]. rewrite E. by apply point_of_app.
Qed.
Lemma point16_measures : measures point_utf16_dim point16_of.
Proof.
  constructor; [done|]. intros t u Ht Hu Hf. pose proof Hf as [_ Hu']%fits32_app. destruct (from_str_fields u Hu Hu') as (_ & _ & _ & E).
  cbn [dim_add point_utf16_dim]. rewrite E. by apply point16_of_app.
Qed.
Lemma summary_measures : measures summary_dim from_str.
Proof. constructor; [done|]. intros t u Ht Hu Hf. cbn. symmetry. by apply from_str_app. Qed.
Lemma dimensions_measures {K V} (dk : Dim K) (dv : Dim V) fk fv : measures dk fk → measures dv fv →
  measures (dimensions dk dv) (λ t, (fk t, fv t)).
Proof.
  intros [Z1 A1] [Z2 A2]. constructor; cbn; [by rewrite Z1, Z2|]. intros t u Ht Hu Hf. by rewrite A1, A2.
Qed.

Section seek.
Context (MAX_BASE : nat).

Lemma fold_measures {D} (d : Dim D) f ts pre : measures d f → Forall (text_ok MAX_BASE) ts → utf8 pre → fits32 (pre ++ concat ts) →
  foldl (dim_add d) (f pre) (snd <$> rope_of ts) = f (pre ++ concat ts).
Proof.
  intros [_ Ha] Hok. revert pre. induction Hok as [|t ts (Ht & _ & _) Hok IH]; intros pre Hp Hf; [by rewrite app_nil_r|].
  cbn [concat] in Hf. rewrite app_assoc in Hf. cbn [rope_of fmap list_fmap foldl entry_of snd]. pose proof Hf as [Hf' _]%fits32_app. rewrite Ha by done.
  fold (rope_of ts). change (list_fmap _ _ snd (rope_of ts)) with (snd <$> rope_of ts). rewrite IH by (done || by apply utf8_app). cbn [concat]. by rewrite app_assoc.
Qed.

Lemma rope_summary_of ts : Forall (text_ok MAX_BASE) ts → fits32 (concat ts) → rope_summary (rope_of ts) = from_str (concat ts).
Proof.
  intros Hok Hf. exact (fold_measures summary_dim from_str ts [] summary_measures Hok utf8_nil Hf).
Qed.

Lemma extent_of {D} (d : Dim D) f ts : measures d f → Forall (text_ok MAX_BASE) ts → fits32 (concat ts) → extent d (rope_of ts) = f (concat ts).
Proof.
  intros [Hz Ha] Hok Hf. unfold extent. rewrite rope_summary_of, Hz by done. apply (Ha []); [apply utf8_nil|by eapply text_utf8|done].
Qed.

(** The scan, on the texts. *)
Fixpoint scan (beyond : Text → bool) (pre : Text) (ts : list Text) : list Text * list Text :=
  match ts with
  | [] => ([], [])
  | t :: ts' => if beyond (pre ++ t) then let '(a, b) := scan beyond (pre ++ t) ts' in (t :: a, b) else ([], ts)
  end.

Lemma seek_entries_ok {D} (d : Dim D) f target bias pre ts : measures d f → Forall (text_ok MAX_BASE) ts → utf8 pre → fits32 (pre ++ concat ts) →
  let '(a, b) := scan (λ x, Cursor.past (target (f x)) bias) pre ts in
  seek_entries d target bias (f pre) (rope_of ts) = (rope_of a, f (pre ++ concat a), rope_of b).
Proof.
  intros [Hz Ha] Hok. revert pre. induction Hok as [|t ts (Ht & _ & _) Hok IH]; intros pre Hp Hf; [cbn; by rewrite app_nil_r|].
  cbn [concat] in Hf. rewrite app_assoc in Hf. cbn [scan rope_of fmap list_fmap entry_of seek_entries]. pose proof Hf as [Hf' _]%fits32_app. rewrite Ha by done.
  destruct (Cursor.past _ _); [|cbn; by rewrite app_nil_r]. specialize (IH (pre ++ t) ltac:(by apply utf8_app) Hf).
  destruct (scan _ (pre ++ t) ts) as [a b]. unfold rope_of in IH |- *. rewrite IH. cbn. by rewrite app_assoc.
Qed.

Lemma find_item_seek {D} (d : Dim D) target bias pos r :
  find_item d target bias pos r = let '(_, p, rest) := seek_entries d target bias pos r in (p, fst <$> head rest).
Proof.
  revert pos. induction r as [|[c s] r IH]; intros pos; [done|]. cbn [find_item seek_entries]. destruct (Cursor.past _ _); [|done].
  rewrite IH. by destruct (seek_entries d target bias _ r) as [[? ?] ?].
Qed.

Lemma scan_ext p q pre ts : (∀ a b, ts = a ++ b → a ≠ [] → p (pre ++ concat a) = q (pre ++ concat a)) → scan p pre ts = scan q pre ts.
Proof.
  revert pre. induction ts as [|t ts IH]; intros pre H; [done|]. cbn [scan]. pose proof (H [t] ts eq_refl) as H1. cbn in H1. rewrite app_nil_r in H1.
  rewrite H1 by done. rewrite (IH (pre ++ t)); [done|]. intros a b -> Ha. rewrite <- app_assoc. by apply (H (t :: a) b).
Qed.

(** Where an offset's scan stops. *)
Lemma scan_offset_left o pre ts : length pre ≤ o ≤ length (pre ++ concat ts) → ts ≠ [] →
  ∃ a t b, ts = a ++ t :: b ∧ scan (λ x, Cursor.past (Nat.compare o (length x)) Cursor.Left) pre ts = (a, t :: b) ∧
    length (pre ++ concat a) ≤ o ≤ length (pre ++ concat a) + length t ∧ (a = [] ∨ length (pre ++ concat a) < o).
Proof.
  revert pre. induction ts as [|t ts IH]; intros pre Ho Hne; [done|]. cbn [scan concat] in *. rewrite app_assoc in Ho.
  destruct (Nat.compare_spec o (length (pre ++ t))) as [E|Hlt|Hgt]; cbn [Cursor.past].
  - exists [], t, ts. cbn. rewrite app_nil_r, length_app in *. split_and!; [done..|lia|lia|by left].
  - exists [], t, ts. cbn. rewrite app_nil_r, length_app in *. split_and!; [done..|lia|lia|by left].
  - assert (ts ≠ []) as Hts by (intros ->; cbn in Ho; rewrite app_nil_r in Ho; lia).
    destruct (IH (pre ++ t) ltac:(lia) Hts) as (a & u & b & -> & Hs & Hb & Ha). exists (t :: a), u, b. cbn [concat].
    rewrite Hs, app_assoc. split_and!; [done..|lia|lia|right]. destruct Ha as [->|]; [cbn; rewrite app_nil_r; lia|lia].
Qed.

Lemma scan_offset_right o pre ts : length pre ≤ o < length (pre ++ concat ts) →
  ∃ a t b, ts = a ++ t :: b ∧ scan (λ x, Cursor.past (Nat.compare o (length x)) Cursor.Right) pre ts = (a, t :: b) ∧
    length (pre ++ concat a) ≤ o < length (pre ++ concat a) + length t.
Proof.
  revert pre. induction ts as [|t ts IH]; intros pre Ho; [cbn in Ho; rewrite app_nil_r in Ho; lia|]. cbn [scan concat] in *. rewrite app_assoc in Ho.
  destruct (Nat.compare_spec o (length (pre ++ t))) as [E|Hlt|Hgt]; cbn [Cursor.past].
  2: { exists [], t, ts. cbn. rewrite app_nil_r, length_app in *. split_and!; [done..|lia|lia]. }
  all: destruct (IH (pre ++ t) ltac:(lia)) as (a & u & b & -> & Hs & Hb); exists (t :: a), u, b; cbn [concat];
    rewrite Hs, app_assoc; split_and!; [done..|lia|lia].
Qed.

Lemma scan_offset_end o pre ts : length (pre ++ concat ts) ≤ o → scan (λ x, Cursor.past (Nat.compare o (length x)) Cursor.Right) pre ts = (ts, []).
Proof.
  revert pre. induction ts as [|t ts IH]; intros pre Ho; [done|]. cbn [scan concat] in *. rewrite app_assoc in Ho.
  destruct (Nat.compare_spec o (length (pre ++ t))) as [E|Hlt|Hgt]; cbn [Cursor.past]; [|rewrite length_app in Ho; lia|]; by rewrite IH.
Qed.
End seek.
