(* ===== verification/RopeConv.v ===== *)
(** * Conversions between a rope's coordinates

    On a rope of well-formed chunks every conversion between byte offsets,
    UTF-16 offsets, points and UTF-16 points is the one of the whole text. *)

From S2P Require Import Prelude Text Bitmap Select Utf8 Summary Chunk ChunkBits ChunkOk ChunkPoints ChunkClip ChunkSummary ChunkLongest Rope RopeOk RopeSeek.

Section conv.
Context (MAX_BASE : nat) (HMAX : 8 ≤ MAX_BASE ≤ 128).
Context (ts : list Text) (Hok : Forall (text_ok MAX_BASE) ts) (Hfits : fits32 (concat ts)).
Abbreviation whole := (concat ts).
Abbreviation rope := (rope_of ts).

(** An offset lies in the chunk [t] after the chunks [a]. *)
Record located (o : nat) (a : list Text) (t : Text) : Prop := {
  loc_split : ∃ b, ts = a ++ t :: b;
  loc_range : length (concat a) ≤ o ≤ length (concat a) + length t;
}.

Lemma located_chunk o a t : located o a t → utf8 (concat a) ∧ utf8 t ∧ t ≠ [] ∧ length t ≤ MAX_BASE.
Proof using All.
  intros [[b E] _]. rewrite E in Hok. apply Forall_app in Hok as [Ha Htb]. apply Forall_cons in Htb as [(Ht & Hne & Hl) _].
  split_and!; [by eapply text_utf8|done..].
Qed.

Lemma located_take o a t : located o a t → take o whole = concat a ++ take (o - length (concat a)) t.
Proof using All.
  intros [[b ->] Hr]. rewrite concat_app. cbn [concat]. rewrite take_app_ge by apply Hr. f_equal. rewrite take_app_le; [done|]. lia.
Qed.

Lemma located_boundary o a t : located o a t → is_char_boundary t (o - length (concat a)) = is_char_boundary whole o.
Proof using All.
  intros Hloc. destruct (located_chunk o a t Hloc) as (Ha & Ht & Hne & _). destruct Hloc as [[b E] Hr].
  assert (utf8 (t ++ concat b) ∧ utf8 (concat b)) as [Htb Hb].
  { rewrite E in Hok. apply Forall_app in Hok as [_ H]. apply Forall_cons in H as [_ H].
    pose proof (text_utf8 MAX_BASE b H). split; [by apply utf8_app|done]. }
  transitivity (is_char_boundary (t ++ concat b) (o - length (concat a))).
  - symmetry. apply boundary_app_l; [done|lia].
  - rewrite E, concat_app. cbn [concat]. destruct (decide (concat a = [])) as [E0|Hane]; [by rewrite E0, Nat.sub_0_r|].
    rewrite <- (boundary_app_r (concat a) (t ++ concat b)) by done. f_equal. lia.
Qed.

Lemma whole_utf8 : utf8 whole.
Proof using All. by eapply text_utf8. Qed.

Lemma prefix_take a b : ts = a ++ b → concat a = take (length (concat a)) whole.
Proof using All. intros ->. by rewrite concat_app, take_app_length. Qed.
Lemma prefix_le a b : ts = a ++ b → length (concat a) ≤ length whole.
Proof using All. intros ->. rewrite concat_app, length_app. apply Nat.le_add_r. Qed.
Lemma prefix_boundary a b : ts = a ++ b → is_char_boundary whole (length (concat a)) = true.
Proof using All.
  intros E. assert (utf8 (concat b)) as Hb by (rewrite E in Hok; apply Forall_app in Hok as [_ H]; by eapply text_utf8).
  rewrite E, concat_app. destruct (decide (concat a = [])) as [->|Hne]; [done|].
  rewrite <- (Nat.add_0_r (length _)). by rewrite boundary_app_r.
Qed.

(** A target that decides at chunk ends like the offset [o]. *)
Definition decides {D} (f : Text → D) (target : D → comparison) (o : nat) : Prop :=
  ∀ a b, ts = a ++ b → a ≠ [] → target (f (concat a)) = Nat.compare o (length (concat a)).

Lemma seek_left {D} (d : Dim D) f target o : measures d f → decides f target o → o ≤ length whole → ts ≠ [] →
  ∃ a t b, located o a t ∧ seek_entries d target Cursor.Left (f []) rope = (rope_of a, f (concat a), rope_of (t :: b)) ∧ (a = [] ∨ length (concat a) < o).
Proof using All.
  intros Hm Hd Ho Hne. destruct (scan_offset_left o [] ts) as (a & t & b & E & Hs & Hr & Ha); [cbn; lia|done|].
  pose proof (seek_entries_ok MAX_BASE d f target Cursor.Left [] ts Hm Hok utf8_nil Hfits) as Hseek.
  rewrite (scan_ext _ (λ x, Cursor.past (Nat.compare o (length x)) Cursor.Left)) in Hseek.
  2: { intros a' b' E' Ha'. cbn [app]. by rewrite (Hd a' b' E' Ha'). }
  rewrite Hs in Hseek. exists a, t, b. split; [split; [by exists b|exact Hr]|]. by split.
Qed.

Lemma find_left_le {D} (d : Dim D) f target o : measures d f → decides f target o → o ≤ length whole → ts ≠ [] →
  ∃ a t, located o a t ∧ find d target Cursor.Left rope = (f (concat a), Some (chunk_of t)) ∧ (a = [] ∨ length (concat a) < o).
Proof using All.
  intros Hm Hd Ho Hne.
  destruct (seek_left d f target o Hm Hd Ho Hne) as (a & t & b & Hloc & Hseek & Ha). exists a, t. split; [done|]. split; [|done].
  unfold find. rewrite (extent_of MAX_BASE d f) by done. rewrite (Hd ts []) by (rewrite ?app_nil_r; done).
  assert (Cursor.past (Nat.compare o (length whole)) Cursor.Left = false) as -> by (destruct (Nat.compare_spec o (length whole)); lia || done).
  rewrite find_item_seek, (ms_zero _ _ Hm), Hseek. done.
Qed.

Lemma rope_ne o : o < length whole → ts ≠ [].
Proof using All. intros Ho E. rewrite E in Ho. cbn in Ho. lia. Qed.

Lemma find_left {D} (d : Dim D) f target o : measures d f → decides f target o → o < length whole →
  ∃ a t, located o a t ∧ find d target Cursor.Left rope = (f (concat a), Some (chunk_of t)) ∧ (a = [] ∨ length (concat a) < o).
Proof using All. intros Hm Hd Ho. apply find_left_le; [done..|lia|by eapply rope_ne]. Qed.

Lemma find_right {D} (d : Dim D) f target o : measures d f → decides f target o → o < length whole →
  ∃ a t, located o a t ∧ find d target Cursor.Right rope = (f (concat a), Some (chunk_of t)) ∧ o < length (concat a) + length t.
Proof using All.
  intros Hm Hd Ho. assert (ts ≠ []) as Hne by (intros E; rewrite E in Ho; cbn in Ho; lia).
  destruct (scan_offset_right o [] ts) as (a & t & b & E & Hs & Hr); [cbn; lia|].
  pose proof (seek_entries_ok MAX_BASE d f target Cursor.Right [] ts Hm Hok utf8_nil Hfits) as Hseek.
  rewrite (scan_ext _ (λ x, Cursor.past (Nat.compare o (length x)) Cursor.Right)) in Hseek.
  2: { intros a' b' E' Ha'. cbn [app]. by rewrite (Hd a' b' E' Ha'). }
  rewrite Hs in Hseek. cbn [app] in *. exists a, t. split; [split; [by exists b|lia]|]. split; [|lia].
  unfold find. rewrite (extent_of MAX_BASE d f) by done. rewrite (Hd ts []) by (rewrite ?app_nil_r; done).
  rewrite (proj2 (Nat.compare_lt_iff _ _)) by lia. cbn [Cursor.past]. rewrite find_item_seek, (ms_zero _ _ Hm), Hseek. done.
Qed.

(** *** What decides like an offset *)

Lemma offset_decides {V} (fv : Text → V) o : decides (λ t, (length t, fv t)) (usize_cmp o) o.
Proof using All. done. Qed.
Lemma usize_decides o : decides length (λ d, Nat.compare o d) o.
Proof using All. done. Qed.
Lemma point_decides o : o ≤ length whole → decides point_of (point_cmp (point_of (take o whole))) o.
Proof using All.
  intros Ho a b E _. pose proof (prefix_le a b E) as Hle. rewrite (prefix_take a b E) at 1. by apply point_of_compare.
Qed.
Lemma point16_decides o : is_char_boundary whole o = true → decides point16_of (point_cmp (point16_of (take o whole))) o.
Proof using All.
  intros Ho a b E _. rewrite (prefix_take a b E) at 1. apply point16_of_compare; [apply whole_utf8|done|done|by eapply prefix_boundary].
Qed.
Lemma utf16_decides o : is_char_boundary whole o = true → decides utf16_len (λ d, Nat.compare (utf16_len (take o whole)) d) o.
Proof using All.
  intros Ho a b E _. rewrite (prefix_take a b E) at 1. apply utf16_len_compare; [apply whole_utf8|done|by eapply prefix_boundary].
Qed.

Lemma summary_fields : s_len (rope_summary rope) = length whole ∧ s_len_utf16 (rope_summary rope) = utf16_len whole ∧
  s_lines (rope_summary rope) = point_of whole ∧ lines_utf16 (rope_summary rope) = point16_of whole.
Proof using All. rewrite (rope_summary_of MAX_BASE) by done. by apply from_str_fields; [apply whole_utf8|]. Qed.

(** ** From offsets *)

Lemma conv_max : 2 ≤ MAX_BASE ≤ 128.
Proof using All. lia. Qed.

Lemma checked_sub_ok x y : y ≤ x → checked_sub x y = Some (x - y).
Proof using All. intros H. unfold checked_sub. by rewrite (proj2 (Nat.leb_le _ _) H). Qed.

Lemma located_len o a t : located o a t → o - length (concat a) ≤ length t.
Proof using All. intros [_ H]. lia. Qed.

Lemma located_fits o a t : located o a t → fits32 (concat a ++ take (o - length (concat a)) t).
Proof using All. intros H. rewrite <- located_take by done. by apply fits32_take. Qed.

Lemma offset_to_offset_utf16_ok o : rope_offset_to_offset_utf16 MAX_BASE rope o = Some (utf16_len (take o whole)).
Proof using All.
  unfold rope_offset_to_offset_utf16. destruct summary_fields as (-> & -> & _ & _). destruct (Nat.leb_spec (length whole) o); [by rewrite take_ge|].
  destruct (find_left _ _ (usize_cmp o) o (dimensions_measures _ _ _ _ usize_measures utf16_measures)) as (a & t & Hloc & -> & _); [done|done|].
  destruct (located_chunk _ _ _ Hloc) as (Ha & Ht & _ & Hl). cbn [fst snd]. rewrite checked_sub_ok by apply Hloc. cbn [mbind option_bind].
  rewrite offset_to_offset_utf16_of by (apply conv_max || done || by apply located_len).
  by rewrite (located_take _ _ _ Hloc), utf16_len_app.
Qed.

Lemma offset_to_point_ok o : rope_offset_to_point MAX_BASE rope o = Some (point_of (take o whole)).
Proof using All.
  unfold rope_offset_to_point. destruct summary_fields as (-> & _ & -> & _). destruct (Nat.leb_spec (length whole) o); [by rewrite take_ge|].
  destruct (find_left _ _ (usize_cmp o) o (dimensions_measures _ _ _ _ usize_measures point_measures)) as (a & t & Hloc & -> & _); [done|done|].
  destruct (located_chunk _ _ _ Hloc) as (Ha & Ht & _ & Hl). cbn [fst snd]. rewrite checked_sub_ok by apply Hloc. cbn [mbind option_bind].
  rewrite offset_to_point_of by (apply conv_max || done || by apply located_len). cbn [mbind option_bind].
  rewrite point_of_app by by apply located_fits. by rewrite (located_take _ _ _ Hloc).
Qed.

Lemma offset_to_point_utf16_ok o : rope_offset_to_point_utf16 MAX_BASE rope o = Some (point16_of (take o whole)).
Proof using All.
  unfold rope_offset_to_point_utf16. destruct summary_fields as (-> & _ & _ & ->). destruct (Nat.leb_spec (length whole) o); [by rewrite take_ge|].
  destruct (find_left _ _ (usize_cmp o) o (dimensions_measures _ _ _ _ usize_measures point16_measures)) as (a & t & Hloc & -> & _); [done|done|].
  destruct (located_chunk _ _ _ Hloc) as (Ha & Ht & _ & Hl). cbn [fst snd]. rewrite checked_sub_ok by apply Hloc. cbn [mbind option_bind].
  rewrite offset_to_point_utf16_of by (apply conv_max || done || by apply located_len). cbn [mbind option_bind].
  rewrite point16_of_app by (done || by apply located_fits). by rewrite (located_take _ _ _ Hloc).
Qed.

(** ** From points *)

Lemma lines_guard o : o ≤ length whole → point_leb (point_of whole) (point_of (take o whole)) = (length whole <=? o).
Proof using All.
  intros Ho. unfold point_leb. rewrite <- (take_ge whole (length whole)) at 1 by done. rewrite point_of_compare by done.
  destruct (Nat.compare_spec (length whole) o), (Nat.leb_spec (length whole) o); lia || done.
Qed.
Lemma lines16_guard o : is_char_boundary whole o = true → point_leb (point16_of whole) (point16_of (take o whole)) = (length whole <=? o).
Proof using All.
  intros Ho. unfold point_leb. rewrite <- (take_ge whole (length whole)) at 1 by done.
  rewrite point16_of_compare by (done || apply boundary_length || apply whole_utf8).
  destruct (Nat.compare_spec (length whole) o), (Nat.leb_spec (length whole) o); lia || done.
Qed.

Lemma located_point o a t : located o a t → point_sub (point_of (take o whole)) (point_of (concat a)) = point_of (take (o - length (concat a)) t).
Proof using All. intros Hloc. rewrite (located_take _ _ _ Hloc). apply point_of_sub. by apply located_fits. Qed.
Lemma located_point16 o a t : located o a t → point_sub (point16_of (take o whole)) (point16_of (concat a)) = point16_of (take (o - length (concat a)) t).
Proof using All.
  intros Hloc. rewrite (located_take _ _ _ Hloc). apply point16_of_sub; [by apply (located_chunk o a t Hloc)|by apply located_fits].
Qed.

Lemma points_decides {V} (fv : Text → V) o : o ≤ length whole → decides (λ t, (point_of t, fv t)) (points_cmp (point_of (take o whole))) o.
Proof using All. intros Ho. exact (point_decides o Ho). Qed.
Lemma points16_decides {V} (fv : Text → V) o : is_char_boundary whole o = true →
  decides (λ t, (point16_of t, fv t)) (points_cmp (point16_of (take o whole))) o.
Proof using All. intros Ho. exact (point16_decides o Ho). Qed.

Lemma point_to_offset_ok o : o ≤ length whole → rope_point_to_offset MAX_BASE rope (point_of (take o whole)) = Some o.
Proof using All.
  intros Ho. unfold rope_point_to_offset. destruct summary_fields as (-> & _ & -> & _). rewrite lines_guard by done.
  destruct (Nat.leb_spec (length whole) o); [f_equal; lia|].
  destruct (find_left _ _ _ o (dimensions_measures _ _ _ _ point_measures usize_measures) (points_decides length o Ho)) as (a & t & Hloc & -> & _); [done|].
  destruct (located_chunk _ _ _ Hloc) as (Ha & Ht & _ & Hl). cbn [fst snd]. rewrite (located_point _ _ _ Hloc).
  rewrite point_to_offset_prefix by (apply conv_max || done || by apply located_len). cbn [mbind option_bind]. f_equal. destruct Hloc. lia.
Qed.

Lemma point_to_offset_utf16_prefix t o : length t ≤ MAX_BASE → o ≤ length t → point_to_offset_utf16 MAX_BASE (chunk_of t) (point_of (take o t)) = Some (utf16_len (take o t)).
Proof using All.
  intros Hl Ho. unfold point_to_offset_utf16. rewrite chunk_lines_of by (apply conv_max || done). cbn [mbind option_bind].
  rewrite point_to_offset_prefix by (apply conv_max || done). unfold point_of. cbn [row]. destruct (point_offset_prefix t o Ho) as (Hr & _).
  rewrite (proj2 (N.ltb_ge _ _)) by lia. cbn. by rewrite offset_to_offset_utf16_of by (apply conv_max || done).
Qed.

Lemma point_to_offset_utf16_ok o : o ≤ length whole → rope_point_to_offset_utf16 MAX_BASE rope (point_of (take o whole)) = Some (utf16_len (take o whole)).
Proof using All.
  intros Ho. unfold rope_point_to_offset_utf16. destruct summary_fields as (_ & -> & -> & _). rewrite lines_guard by done.
  destruct (Nat.leb_spec (length whole) o); [by rewrite take_ge|].
  destruct (seek_left _ _ _ o (dimensions_measures _ _ _ _ point_measures utf16_measures) (points_decides utf16_len o Ho)) as (a & t & b & Hloc & Hs & _); [done|by eapply rope_ne|].
  change (point_of [], utf16_len []) with (point_zero, 0) in Hs. rewrite Hs.
  destruct (located_chunk _ _ _ Hloc) as (Ha & Ht & _ & Hl). cbn [fst snd rope_of fmap list_fmap entry_of]. rewrite (located_point _ _ _ Hloc).
  rewrite point_to_offset_utf16_prefix by (done || by apply located_len). cbn [mbind option_bind]. by rewrite (located_take _ _ _ Hloc), utf16_len_app.
Qed.

Lemma point_to_point_utf16_ok o : o ≤ length whole → rope_point_to_point_utf16 MAX_BASE rope (point_of (take o whole)) = Some (point16_of (take o whole)).
Proof using All.
  intros Ho. unfold rope_point_to_point_utf16. destruct summary_fields as (_ & _ & -> & ->). rewrite lines_guard by done.
  destruct (Nat.leb_spec (length whole) o); [by rewrite take_ge|].
  destruct (find_left _ _ _ o (dimensions_measures _ _ _ _ point_measures point16_measures) (points_decides point16_of o Ho)) as (a & t & Hloc & -> & _); [done|].
  destruct (located_chunk _ _ _ Hloc) as (Ha & Ht & _ & Hl). cbn [fst snd]. rewrite (located_point _ _ _ Hloc).
  unfold point_to_point_utf16. rewrite point_to_offset_prefix by (apply conv_max || done || by apply located_len). cbn [mbind option_bind].
  rewrite offset_to_point_utf16_of by (apply conv_max || done || by apply located_len). cbn [mbind option_bind].
  rewrite point16_of_app by (done || by apply located_fits). by rewrite (located_take _ _ _ Hloc).
Qed.

(** ** From UTF-16 offsets and points, at character boundaries *)

Lemma utf16s_decides {V} (fv : Text → V) o : is_char_boundary whole o = true →
  decides (λ t, (utf16_len t, fv t)) (usize_cmp (utf16_len (take o whole))) o.
Proof using All. intros Ho. exact (utf16_decides o Ho). Qed.

Lemma utf16_guard o : is_char_boundary whole o = true → (utf16_len whole <=? utf16_len (take o whole)) = (length whole <=? o).
Proof using All.
  intros Ho. pose proof (utf16_len_compare whole (length whole) o whole_utf8 (boundary_length whole) Ho) as Hc. rewrite take_ge in Hc by done.
  destruct (Nat.compare_spec (utf16_len whole) (utf16_len (take o whole))), (Nat.compare_spec (length whole) o), (Nat.leb_spec (utf16_len whole) (utf16_len (take o whole))),
    (Nat.leb_spec (length whole) o); done || lia.
Qed.

Lemma offset_utf16_to_offset_ok o : is_char_boundary whole o = true → rope_offset_utf16_to_offset MAX_BASE rope (utf16_len (take o whole)) = Some o.
Proof using All.
  intros Ho. pose proof (boundary_le _ _ Ho). unfold rope_offset_utf16_to_offset. destruct summary_fields as (-> & -> & _ & _). rewrite utf16_guard by done.
  destruct (Nat.leb_spec (length whole) o); [f_equal; lia|].
  destruct (find_left _ _ _ o (dimensions_measures _ _ _ _ utf16_measures usize_measures) (utf16s_decides length o Ho)) as (a & t & Hloc & -> & _); [done|].
  destruct (located_chunk _ _ _ Hloc) as (Ha & Ht & _ & Hl). cbn [fst snd]. rewrite (located_take _ _ _ Hloc), utf16_len_app by done.
  rewrite checked_sub_ok by lia. cbn [mbind option_bind].
  replace (utf16_len (concat a) + utf16_len (take (o - length (concat a)) t) - utf16_len (concat a)) with (utf16_len (take (o - length (concat a)) t)) by lia.
  rewrite offset_utf16_to_offset_at by (apply conv_max || done || by rewrite (located_boundary _ _ _ Hloc)).
  cbn [mbind option_bind]. f_equal. destruct Hloc. lia.
Qed.

Lemma point_utf16_to_offset_ok o clip : is_char_boundary whole o = true → point_utf16_to_offset_impl MAX_BASE rope (point16_of (take o whole)) clip = Some o.
Proof using All.
  intros Ho. pose proof (boundary_le _ _ Ho). unfold point_utf16_to_offset_impl. destruct summary_fields as (-> & _ & _ & ->). rewrite lines16_guard by done.
  destruct (Nat.leb_spec (length whole) o); [f_equal; lia|].
  destruct (find_left _ _ _ o (dimensions_measures _ _ _ _ point16_measures usize_measures) (points16_decides length o Ho)) as (a & t & Hloc & -> & _); [done|].
  destruct (located_chunk _ _ _ Hloc) as (Ha & Ht & _ & Hl). cbn [fst snd]. rewrite (located_point16 _ _ _ Hloc).
  rewrite point_utf16_to_offset_at by (apply conv_max || done || by rewrite (located_boundary _ _ _ Hloc)). cbn [mbind option_bind]. f_equal. destruct Hloc. lia.
Qed.

Lemma point_utf16_to_offset_utf16_ok o clip : is_char_boundary whole o = true →
  point_utf16_to_offset_utf16_impl MAX_BASE rope (point16_of (take o whole)) clip = Some (utf16_len (take o whole)).
Proof using All.
  intros Ho. pose proof (boundary_le _ _ Ho). unfold point_utf16_to_offset_utf16_impl. destruct summary_fields as (_ & -> & _ & ->). rewrite lines16_guard by done.
  destruct (Nat.leb_spec (length whole) o); [by rewrite take_ge|].
  destruct (seek_left _ _ _ o (dimensions_measures _ _ _ _ point16_measures utf16_measures) (points16_decides utf16_len o Ho)) as (a & t & b & Hloc & Hs & _); [done|by eapply rope_ne|].
  change (point16_of [], utf16_len []) with (point_zero, 0) in Hs. rewrite Hs.
  destruct (located_chunk _ _ _ Hloc) as (Ha & Ht & _ & Hl). cbn [fst snd rope_of fmap list_fmap entry_of]. rewrite (located_point16 _ _ _ Hloc).
  rewrite point_utf16_to_offset_at by (apply conv_max || done || by rewrite (located_boundary _ _ _ Hloc)). cbn [mbind option_bind].
  rewrite offset_to_offset_utf16_of by (apply conv_max || done || by apply located_len). by rewrite (located_take _ _ _ Hloc), utf16_len_app.
Qed.

Lemma point_utf16_to_point_ok o : is_char_boundary whole o = true → rope_point_utf16_to_point MAX_BASE rope (point16_of (take o whole)) = Some (point_of (take o whole)).
Proof using All.
  intros Ho. pose proof (boundary_le _ _ Ho). unfold rope_point_utf16_to_point. destruct summary_fields as (_ & _ & -> & ->). rewrite lines16_guard by done.
  destruct (Nat.leb_spec (length whole) o); [by rewrite take_ge|].
  destruct (seek_left _ _ _ o (dimensions_measures _ _ _ _ point16_measures point_measures) (points16_decides point_of o Ho)) as (a & t & b & Hloc & Hs & _); [done|by eapply rope_ne|].
  change (point16_of [], point_of []) with (point_zero, point_zero) in Hs. rewrite Hs.
  destruct (located_chunk _ _ _ Hloc) as (Ha & Ht & _ & Hl). cbn [fst snd rope_of fmap list_fmap entry_of]. rewrite (located_point16 _ _ _ Hloc).
  rewrite point_utf16_to_offset_at by (apply conv_max || done || by rewrite (located_boundary _ _ _ Hloc)). cbn [mbind option_bind].
  rewrite offset_to_point_of by (apply conv_max || done || by apply located_len). cbn [mbind option_bind].
  rewrite point_of_app by by apply located_fits. by rewrite (located_take _ _ _ Hloc).
Qed.

Lemma unclipped_point_utf16_to_point_ok o : is_char_boundary whole o = true →
  rope_unclipped_point_utf16_to_point MAX_BASE rope (point16_of (take o whole)) = Some (point_of (take o whole)).
Proof using All.
  intros Ho. pose proof (boundary_le _ _ Ho). unfold rope_unclipped_point_utf16_to_point. destruct summary_fields as (_ & _ & -> & ->). rewrite lines16_guard by done.
  destruct (Nat.leb_spec (length whole) o); [by rewrite take_ge|].
  destruct (find_left _ _ _ o (dimensions_measures _ _ _ _ point16_measures point_measures) (points16_decides point_of o Ho)) as (a & t & Hloc & -> & _); [done|].
  destruct (located_chunk _ _ _ Hloc) as (Ha & Ht & _ & Hl). cbn [fst snd]. rewrite (located_point16 _ _ _ Hloc).
  rewrite unclipped_point_utf16_to_point_at by (apply conv_max || done || by rewrite (located_boundary _ _ _ Hloc)). cbn [mbind option_bind].
  rewrite point_of_app by by apply located_fits. by rewrite (located_take _ _ _ Hloc).
Qed.

(** ** Boundaries *)

Lemma whole_nil : ts = [] → whole = [].
Proof using All. by intros ->. Qed.

Lemma is_char_boundary_ok o : is_u32 (N.of_nat o) → rope_is_char_boundary MAX_BASE rope o = Some (is_char_boundary whole o).
Proof using All.
  intros H32. unfold rope_is_char_boundary. destruct (decide (ts = [])) as [->|Hne]; [by destruct o|].
  assert (∀ (A : Type) (x y : A), match rope with [] => x | _ => y end = y) as Hm by (intros A x y; by destruct ts). rewrite Hm.
  destruct (decide (o ≤ length whole)) as [Ho|Ho].
  - destruct (find_left_le _ _ (λ d, Nat.compare o d) o usize_measures) as (a & t & Hloc & -> & _); [done..|].
    destruct (located_chunk _ _ _ Hloc) as (Ha & Ht & _ & Hl). rewrite checked_sub_ok by apply Hloc. cbn [mbind option_bind]. f_equal.
    rewrite chunk_boundary_of; [by apply located_boundary|apply conv_max|done|done|]. pose proof (located_len _ _ _ Hloc). lia.
  - unfold find. rewrite (extent_of MAX_BASE usize_dim length) by (done || apply usize_measures). rewrite (proj2 (Nat.compare_gt_iff _ _)) by lia. cbn.
    f_equal. symmetry. destruct (is_char_boundary whole o) eqn:E; [|done]. apply boundary_le in E. lia.
Qed.

Lemma step_back_located o a t : located o a t → step_back whole o = length (concat a) + step_back t (o - length (concat a)).
Proof using All.
  intros Hloc. remember (o - length (concat a)) as k eqn:Hk. revert o Hloc Hk. induction k as [|k IH]; intros o Hloc Hk.
  - pose proof (located_boundary _ _ _ Hloc) as Hb. rewrite <- Hk in Hb. rewrite step_back_at by (rewrite <- Hb; done). destruct Hloc. cbn. lia.
  - pose proof (located_boundary _ _ _ Hloc) as Hb. rewrite <- Hk in Hb. destruct o as [|o]; [lia|]. cbn [step_back]. rewrite <- Hb.
    destruct (is_char_boundary t (S k)); [destruct Hloc; lia|]. apply IH; [|lia]. destruct Hloc. split; [done|lia].
Qed.

Lemma rope_len_of : rope_len rope = length whole.
Proof using All. apply (extent_of MAX_BASE usize_dim length); [apply usize_measures|done|done]. Qed.

Lemma floor_char_boundary_ok o : rope_floor_char_boundary rope o = Some (floor_char_boundary whole o).
Proof using All.
  unfold rope_floor_char_boundary, floor_char_boundary at 2. rewrite rope_len_of. destruct (Nat.leb_spec (length whole) o) as [|Ho]; [done|].
  destruct (find_left _ _ (λ d, Nat.compare o d) o usize_measures) as (a & t & Hloc & -> & _); [done..|].
  rewrite checked_sub_ok by apply Hloc. cbn [mbind option_bind text chunk_of]. f_equal. rewrite (step_back_located _ _ _ Hloc). f_equal.
  unfold floor_char_boundary. destruct (Nat.leb_spec (length t) (o - length (concat a))); [|done].
  pose proof (located_len _ _ _ Hloc). assert (o - length (concat a) = length t) as -> by lia. rewrite step_back_at by apply boundary_length. done.
Qed.
End conv.
