(* ===== verification/RopeClip.v ===== *)
(** * Clipping in ropes

    An offset inside a character is moved to the boundary before or after it,
    in bytes and in UTF-16 units, over the chunks as over the whole text. *)

From S2P Require Import Prelude Text Bitmap Select Utf8 Summary Chunk ChunkBits ChunkOk ChunkPoints ChunkClip ChunkSummary ChunkLongest Rope RopeOk RopeSeek RopeConv.

(** ** The next boundary *)

Record next_bound (t : Text) (i j : nat) : Prop := {
  nb_le : i ≤ j ≤ length t;
  nb_bound : is_char_boundary t j = true;
  nb_least : ∀ k, i ≤ k < j → is_char_boundary t k = false;
}.

Lemma next_bound_unique t i j k : next_bound t i j → next_bound t i k → j = k.
Proof.
  intros [H1 H2 H3] [K1 K2 K3]. destruct (lt_eq_lt_dec j k) as [[H|]|H]; [|done|].
  - rewrite K3 in H2 by lia. done.
  - rewrite H3 in K2 by lia. done.
Qed.

Lemma step_forward_ok fuel t i j : next_bound t i j → j - i < fuel → step_forward fuel t i = Some j.
Proof.
  intros [Hle Hb Hl]. revert i Hle Hl. induction fuel as [|fuel IH]; intros i Hle Hl Hf; [lia|]. cbn [step_forward]. unfold is_str_boundary.
  destruct (decide (i = j)) as [->|]; [by rewrite Hb|]. rewrite Hl by lia. apply IH; [lia| |lia]. intros k Hk. apply Hl. lia.
Qed.

Lemma ceil_next t i : utf8 t → i ≤ length t → next_bound t i (ceil_char_boundary t i).
Proof.
  intros Ht Hi. unfold ceil_char_boundary. destruct (Nat.leb_spec (length t) i).
  - constructor; [lia|apply boundary_length|lia].
  - destruct (next_boundary t i Ht Hi) as (j & Hj & Hb & Hl). pose proof (boundary_le t j Hb).
    assert (next_bound t i j) as Hn by (constructor; [lia|done|done]). rewrite (step_forward_ok _ _ _ _ Hn) by lia. done.
Qed.

(** A UTF-16 offset, possibly inside a character, compares with a boundary
    like the byte offset it converts to. *)
Lemma unit_compare t n e : utf8 t → n ≤ utf16_len t → is_char_boundary t e = true →
  Nat.compare n (utf16_len (take e t)) = Nat.compare (run_end (utf16_bits t) n) e.
Proof.
  intros (cs & Hcs & ->) Hn He. pose proof (encode_utf8 cs Hcs) as Ht. destruct (falls_total cs n Hcs Hn) as [cs1 cs2 -> ->|cs1 c cs2 -> Hc ->].
  - pose proof (boundary_of_split cs1 cs2 Hcs) as Hb. pose proof (run_end_boundary _ _ Ht Hb) as Hr. rewrite take_encode in Hr.
    rewrite Hr, <- (take_encode cs1 cs2) at 1. by apply utf16_len_compare.
  - rewrite inside_run_end by done. set (t := encode (cs1 ++ c :: cs2)) in *. set (o := length (encode cs1)).
    pose proof (inside_start cs1 cs2 c Hcs Hc) as Hs. destruct (inside_end cs1 cs2 c Hcs Hc) as [He4 Hu4]. fold t o in Hs, He4, Hu4.
    pose proof (utf16_len_compare t o e Ht Hs He) as C1. pose proof (utf16_len_compare t (o + 4) e Ht He4 He) as C2.
    rewrite Hu4 in C2. assert (utf16_len (take o t) = utf16_len (encode cs1)) as Eo by (by unfold t, o; rewrite take_encode). rewrite Eo in C1.
    assert (∀ i, 0 < i < 4 → e ≠ o + i) as Hne.
    { intros i Hi ->. pose proof (inside_boundary cs1 cs2 c Hcs Hc i Hi) as Hf. fold t o in Hf. congruence. }
    pose proof (Hne 1 ltac:(lia)). pose proof (Hne 2 ltac:(lia)). pose proof (Hne 3 ltac:(lia)).
    destruct (Nat.compare_spec (utf16_len (encode cs1)) (utf16_len (take e t))), (Nat.compare_spec o e); try done;
      destruct (Nat.compare_spec (S (S (utf16_len (encode cs1)))) (utf16_len (take e t))), (Nat.compare_spec (o + 4) e); try done;
      destruct (Nat.compare_spec (S (utf16_len (encode cs1))) (utf16_len (take e t))), (Nat.compare_spec (S o) e); done || lia.
Qed.
Section clip.
Context (MAX_BASE : nat) (HMAX : 8 ≤ MAX_BASE ≤ 128).
Context (ts : list Text) (Hok : Forall (text_ok MAX_BASE) ts) (Hfits : fits32 (concat ts)).
Abbreviation whole := (concat ts).
Abbreviation rope := (rope_of ts).
Abbreviation located := (located ts).
Implicit Types (a : list Text) (t : Text).

Lemma whole_ok : utf8 whole.
Proof using All. by eapply text_utf8. Qed.

Lemma chunk_of_located o a t : located o a t → utf8 (concat a) ∧ utf8 t ∧ t ≠ [] ∧ length t ≤ MAX_BASE.
Proof using All. apply (located_chunk MAX_BASE HMAX ts Hok Hfits). Qed.
Lemma boundary_of_located o a t : located o a t → is_char_boundary t (o - length (concat a)) = is_char_boundary whole o.
Proof using All. apply (located_boundary MAX_BASE HMAX ts Hok Hfits). Qed.
Lemma take_of_located o a t : located o a t → take o whole = concat a ++ take (o - length (concat a)) t.
Proof using All. apply (located_take MAX_BASE HMAX ts Hok Hfits). Qed.
Lemma located_whole o a t : located o a t → length (concat a) + length t ≤ length whole.
Proof using All. intros [[b ->] _]. rewrite concat_app, length_app. cbn. rewrite length_app. lia. Qed.

(** The other offsets of the same chunk. *)
Lemma located_shift o o' a t : located o a t → length (concat a) ≤ o' ≤ length (concat a) + length t → located o' a t.
Proof using All. intros [H _] H'. by constructor. Qed.

Lemma next_bound_located o a t : located o a t → next_bound whole o (length (concat a) + ceil_char_boundary t (o - length (concat a))).
Proof using All.
  intros Hloc. destruct (chunk_of_located _ _ _ Hloc) as (Ha & Ht & _ & Hl). pose proof (located_whole _ _ _ Hloc) as Hw. destruct (loc_range _ _ _ _ Hloc) as [R1 R2].
  destruct (ceil_next t (o - length (concat a)) Ht) as [H1 H2 H3]; [lia|]. set (j := ceil_char_boundary t (o - length (concat a))) in *.
  constructor; [lia| |].
  - rewrite <- (boundary_of_located _ a t); [by rewrite Nat.add_comm, Nat.add_sub|apply (located_shift o); [done|lia]].
  - intros k Hk. rewrite <- (boundary_of_located k a t); [apply H3; lia|apply (located_shift o); [done|lia]].
Qed.

Lemma ceil_char_boundary_ok o : o ≤ length whole → rope_ceil_char_boundary rope o = Some (ceil_char_boundary whole o).
Proof using All.
  intros Ho. unfold rope_ceil_char_boundary. rewrite (rope_len_of MAX_BASE HMAX ts Hok Hfits), (proj2 (Nat.ltb_ge _ _)) by done.
  destruct (decide (ts = [])) as [E|Hne].
  - assert (o = 0) as -> by (rewrite E in Ho; cbn in Ho; lia). rewrite E. done.
  - destruct (find_left_le MAX_BASE HMAX ts Hok Hfits _ _ (λ d, Nat.compare o d) o usize_measures) as (a & t & Hloc & -> & _); [done..|].
    rewrite (checked_sub_ok MAX_BASE HMAX ts Hok Hfits) by apply Hloc. cbn [mbind option_bind text chunk_of]. f_equal.
    eapply next_bound_unique; [by apply next_bound_located|]. apply ceil_next; [apply whole_ok|done].
Qed.

(** ** UTF-16 offsets *)


Lemma unit_decides n : n ≤ utf16_len whole → decides ts utf16_len (λ d, Nat.compare n d) (run_end (utf16_bits whole) n).
Proof using All.
  intros Hn a b E _. rewrite (prefix_take MAX_BASE HMAX ts Hok Hfits a b E) at 1. apply unit_compare; [apply whole_ok|done|].
  by apply (prefix_boundary MAX_BASE HMAX ts Hok Hfits a b).
Qed.

(** UTF-16 boundaries of the whole text, around one chunk. *)
Lemma unit_boundary_located a t b m : ts = a ++ t :: b → unit_boundary whole m →
  m ≤ utf16_len (concat a) ∨ (∃ m', m = utf16_len (concat a) + m' ∧ unit_boundary t m') ∨ utf16_len (concat a) + utf16_len t ≤ m.
Proof using All.
  intros E (o & Ho & <-). set (A := length (concat a)).
  assert (located A a t) as Hl0 by (split; [by exists b|unfold A; lia]).
  destruct (chunk_of_located _ _ _ Hl0) as (Ha & Ht & _ & _). pose proof (located_whole _ _ _ Hl0) as Hw. fold A in Hw.
  assert (∀ x y, x ≤ y → utf16_len (take x whole) ≤ utf16_len (take y whole)) as Hmono.
  { intros x y Hxy. assert (take x whole = take x (take y whole)) as -> by (rewrite take_take; f_equal; lia). apply utf16_len_le. }
  assert (take A whole = concat a) as EA.
  { rewrite (take_of_located _ _ _ Hl0). fold A. by rewrite Nat.sub_diag, take_0, app_nil_r. }
  destruct (decide (o ≤ A)); [left; rewrite <- EA; by apply Hmono|right].
  assert (located (A + length t) a t) as Hl1 by (apply (located_shift A); [done|unfold A; lia]).
  destruct (decide (o ≤ A + length t)); [left|right].
  - assert (located o a t) as Hl by (apply (located_shift A); [done|unfold A in *; lia]).
    exists (utf16_len (take (o - A) t)). rewrite (take_of_located _ _ _ Hl), utf16_len_app by done. split; [done|].
    exists (o - A). split; [unfold A; by rewrite (boundary_of_located _ _ _ Hl)|done].
  - rewrite <- utf16_len_app by done. assert (concat a ++ t = take (A + length t) whole) as ->.
    { rewrite (take_of_located _ _ _ Hl1). fold A. rewrite take_ge by lia. done. }
    apply Hmono. lia.
Qed.

Lemma clip_offset_utf16_ok n bias : ∃ m, rope_clip_offset_utf16 MAX_BASE rope n bias = Some m ∧ clipped16 whole n bias m.
Proof using All.
  unfold rope_clip_offset_utf16. destruct (summary_fields MAX_BASE HMAX ts Hok Hfits) as (_ & Esum & _ & _).
  assert (unit_boundary whole (utf16_len whole)) as Hend by (exists (length whole); split; [apply boundary_length|by rewrite take_ge]).
  assert (∀ m', unit_boundary whole m' → m' ≤ utf16_len whole) as Hle by (intros m' (o & _ & <-); apply utf16_len_le).
  destruct (decide (utf16_len whole ≤ n)) as [Hn|Hn].
  { unfold find. rewrite (extent_of MAX_BASE offset_utf16_dim utf16_len) by (done || apply utf16_measures).
    assert (Cursor.past (Nat.compare n (utf16_len whole)) Cursor.Right = true) as -> by (destruct (Nat.compare_spec n (utf16_len whole)); lia || done).
    rewrite Esum. eexists. split; [done|]. split; [done|]. destruct bias; split; try lia; intros m' Hm' ?; specialize (Hle m' Hm'); lia. }
  set (o := run_end (utf16_bits whole) n). pose proof (unit_decides n ltac:(lia)) as Hd. fold o in Hd.
  assert (∀ e, is_char_boundary whole e = true → Nat.compare n (utf16_len (take e whole)) = Nat.compare o e) as Hcmp.
  { intros e He. apply unit_compare; [apply whole_ok|lia|done]. }
  assert (o < length whole) as Ho.
  { apply Nat.compare_lt_iff. rewrite <- Hcmp by apply boundary_length. rewrite take_ge by done. apply Nat.compare_lt_iff. lia. }
  destruct (find_right MAX_BASE HMAX ts Hok Hfits _ _ _ o utf16_measures Hd Ho) as (a & t & Hloc & -> & Hot).
  destruct (chunk_of_located _ _ _ Hloc) as (Ha & Ht & _ & Hl). destruct Hloc as [[b E] [Hr1 Hr2]].
  pose proof (prefix_boundary MAX_BASE HMAX ts Hok Hfits a (t :: b) E) as Hba. pose proof (Hcmp _ Hba) as Ca.
  rewrite <- (prefix_take MAX_BASE HMAX ts Hok Hfits a (t :: b) E) in Ca.
  assert (ts = (a ++ [t]) ++ b) as E' by by rewrite <- app_assoc. pose proof (prefix_boundary MAX_BASE HMAX ts Hok Hfits _ _ E') as Hbt.
  pose proof (Hcmp _ Hbt) as Ct. rewrite <- (prefix_take MAX_BASE HMAX ts Hok Hfits _ _ E') in Ct.
  rewrite concat_app, length_app in Ct. cbn [concat] in Ct. rewrite app_nil_r, utf16_len_app in Ct by done.
  assert (utf16_len (concat a) ≤ n) as Hua.
  { destruct (Nat.compare_spec n (utf16_len (concat a))), (Nat.compare_spec o (length (concat a))); try done; lia. }
  assert (n < utf16_len (concat a) + utf16_len t) as Hut.
  { destruct (Nat.compare_spec n (utf16_len (concat a) + utf16_len t)), (Nat.compare_spec o (length (concat a) + length t)); try done; lia. }
  rewrite (checked_sub_ok MAX_BASE HMAX ts Hok Hfits) by done. cbn [mbind option_bind].
  destruct (clip_offset_utf16_of MAX_BASE (RopeOk.max2 MAX_BASE HMAX) t (n - utf16_len (concat a)) bias Ht Hl) as (m & -> & Hm & Hopt).
  cbn [mbind option_bind]. eexists. split; [done|]. split.
  - destruct Hm as (o' & Ho' & <-). pose proof (boundary_le _ _ Ho').
    assert (located (length (concat a) + o') a t) as Hloc' by (split; [by exists b|lia]). exists (length (concat a) + o').
    rewrite (take_of_located _ _ _ Hloc'), utf16_len_app, <- (boundary_of_located _ _ _ Hloc') by done.
    replace (length (concat a) + o' - length (concat a)) with o' by lia. done.
  - assert (unit_boundary t 0 ∧ unit_boundary t (utf16_len t)) as [Hz Ht'].
    { split; [by exists 0|]. exists (length t). split; [apply boundary_length|by rewrite take_ge]. }
    destruct bias; destruct Hopt as [Hopt1 Hopt2]; (split; [lia|]); intros m' Hm' Hnm;
      destruct (unit_boundary_located a t b m' E Hm') as [?|[(m'' & -> & Hm'')|?]]; try lia.
    + specialize (Hopt2 m'' Hm''). lia.
    + specialize (Hopt2 0 Hz). lia.
    + specialize (Hopt2 m'' Hm''). lia.
    + specialize (Hopt2 _ Ht'). lia.
Qed.
End clip.
