(* ===== verification/RopeSlice.v ===== *)
(** * Slicing and splicing ropes

    A rope cursor at a character boundary cuts a rope like its text is cut,
    and the parts it is cut into are well-formed ropes. *)

From S2P Require Import Prelude Text Bitmap Select Utf8 Summary Chunk ChunkBits ChunkOk ChunkPoints ChunkClip ChunkSummary ChunkLongest Rope RopeOk RopeSeek RopeConv.

(** ** Parts of a balanced rope *)

Lemma balanced_part MAX_BASE a b c : balanced MAX_BASE (a ++ b ++ c) → balanced MAX_BASE b.
Proof.
  intros H. destruct (decide (b = [])) as [->|Hb]; [constructor|]. destruct (decide (c = [])) as [->|Hc].
  - rewrite app_nil_r in H. by apply balanced_app in H as [_ H].
  - rewrite app_assoc in H. apply balanced_app in H as [H _]; [|done]. apply full_balanced. by apply Forall_app in H as [_ H].
Qed.

Lemma part_texts MAX_BASE a b c : Forall (text_ok MAX_BASE) (a ++ b ++ c) → balanced MAX_BASE (a ++ b ++ c) → rope_texts MAX_BASE (rope_of b) b.
Proof.
  intros Hok Hb. constructor; [done| |by eapply balanced_part]. apply Forall_app in Hok as [_ Hok]. by apply Forall_app in Hok as [Hok _].
Qed.

Lemma empty_texts MAX_BASE : rope_texts MAX_BASE [] [].
Proof. constructor; [done|constructor|constructor]. Qed.

Lemma utf8_part t s e : utf8 t → is_char_boundary t s = true → is_char_boundary t e = true → s ≤ e → utf8 (drop s (take e t)).
Proof.
  intros Ht Hs He Hse. destruct (utf8_split t e Ht He) as [Ht1 Ht2]. apply utf8_split; [done|]. pose proof (boundary_le _ _ He).
  rewrite <- (take_drop e t), boundary_app_l in Hs by (done || rewrite length_take; lia). done.
Qed.

(** ** [push_front] *)

Section front.
Context (MAX_BASE : nat) (HMAX : 8 ≤ MAX_BASE ≤ 128) (NUM_CHUNKS : nat).

Lemma push_front_ok r ts u : rope_texts MAX_BASE r ts → fits32 (concat ts) → utf8 u →
  ∃ r' ts', push_front MAX_BASE NUM_CHUNKS r u = Some r' ∧ rope_texts MAX_BASE r' ts' ∧ concat ts' = u ++ concat ts.
Proof using HMAX.
  intros Hrt Hfits Hu. unfold push_front. case_bool_decide as Hnil; [subst u; by exists r, ts|]. pose proof Hrt as [-> Hok Hbal].
  unfold rope_is_empty, rope_len. rewrite (extent_of MAX_BASE usize_dim length) by (done || apply usize_measures).
  destruct ts as [|t ts].
  { destruct (rope_push_ok MAX_BASE HMAX NUM_CHUNKS _ _ u Hrt Hu) as (r' & ts' & E & Hr & Hc). exists r', ts'. split; [exact E|]. split; [done|].
    by rewrite Hc, app_nil_r. }
  pose proof Hok as [Ht Hok']%Forall_cons. pose proof Ht as (Ht8 & Htn & Htl).
  assert ((length (concat (t :: ts)) =? 0) = false) as ->.
  { apply Nat.eqb_neq. cbn [concat]. rewrite length_app. intros E. apply Htn, length_zero_iff_nil. lia. }
  cbn [rope_of fmap list_fmap entry_of text chunk_of]. destruct (Nat.leb_spec (length t + length u) MAX_BASE) as [Hl|Hl].
  - unfold update_first. cbn [entry_of]. rewrite prepend_str_of by (done || lia). cbn [mbind option_bind].
    assert (text_ok MAX_BASE (u ++ t)) as Hut by (split; [by apply utf8_app|split; [by destruct u|rewrite length_app; lia]]).
    rewrite entry_ok by done. cbn [mbind option_bind]. exists (rope_of ((u ++ t) :: ts)), ((u ++ t) :: ts).
    split; [done|]. split; [|cbn [concat]; by rewrite app_assoc]. constructor; [done|by constructor|].
    unfold balanced in *. destruct ts as [|t' ts]; [constructor|]. cbn [removelast] in Hbal |- *. apply Forall_cons in Hbal as [Hf Hbal].
    constructor; [|done]. unfold full in *. rewrite length_app. lia.
  - destruct (rope_push_ok MAX_BASE HMAX NUM_CHUNKS _ _ u (empty_texts MAX_BASE) Hu) as (r' & us & E & Hr & Hc). unfold rope_from. rewrite E. cbn [mbind option_bind].
    destruct (rope_append_ok MAX_BASE HMAX _ _ _ _ Hr Hrt) as (r'' & ts' & E' & Hr' & Hc'). exists r'', ts'. split; [exact E'|]. split; [done|].
    by rewrite Hc', Hc.
Qed.
End front.

Section slice.
Context (MAX_BASE : nat) (HMAX : 8 ≤ MAX_BASE ≤ 128).
Context (ts : list Text) (Hok : Forall (text_ok MAX_BASE) ts) (Hbal : balanced MAX_BASE ts) (Hfits : fits32 (concat ts)).
Abbreviation whole := (concat ts).

(** ** Where a cursor is *)

(** The cursor passed the chunks [a], has the chunks [b] left, and is at the
    offset [o] of the text. *)
Record cursor_ok (c : RopeCursor) (a b : list Text) (o : nat) : Prop := {
  co_rope : rc_rope c = rope_of ts;
  co_split : ts = a ++ b;
  co_start : rc_start c = length (concat a);
  co_rest : rc_rest c = rope_of b;
  co_offset : rc_offset c = o;
  co_boundary : is_char_boundary whole o = true;
  co_range : length (concat a) ≤ o ≤ match b with t :: _ => length (concat a) + length t | [] => length (concat a) end;
}.

Lemma seek_on a b o : ts = a ++ b → length (concat a) ≤ o ≤ length whole →
  ∃ b1 b2, b = b1 ++ b2 ∧
    seek_entries usize_dim (λ d, Nat.compare o d) Cursor.Right (length (concat a)) (rope_of b) = (rope_of b1, length (concat (a ++ b1)), rope_of b2) ∧
    length (concat (a ++ b1)) ≤ o ≤ match b2 with t :: _ => length (concat (a ++ b1)) + length t | [] => length (concat (a ++ b1)) end.
Proof using All.
  intros E Ho. rewrite E in Hok. pose proof Hok as [Ha Hb]%Forall_app. rewrite E, concat_app in Hfits, Ho.
  pose proof (seek_entries_ok MAX_BASE usize_dim length (λ d, Nat.compare o d) Cursor.Right (concat a) b usize_measures Hb (text_utf8 _ _ Ha) Hfits) as Hs.
  destruct (decide (o < length (concat a ++ concat b))) as [Hlt|Hge].
  - destruct (scan_offset_right o (concat a) b) as (b1 & t & b2 & -> & Hscan & Hr); [lia|]. rewrite Hscan in Hs.
    exists b1, (t :: b2). rewrite concat_app. split; [done|]. split; [exact Hs|lia].
  - rewrite scan_offset_end in Hs by lia. exists b, []. rewrite app_nil_r, concat_app. split; [done|]. split; [exact Hs|lia].
Qed.

Lemma cursor_at_ok o : is_char_boundary whole o = true → ∃ a b, cursor_ok (cursor_at (rope_of ts) o) a b o.
Proof using All.
  intros Ho. destruct (seek_on [] ts o eq_refl) as (a & b & E & Hs & Hr); [cbn; split; [lia|by apply boundary_le]|].
  unfold cursor_at. cbn [concat length app] in Hs. rewrite Hs. by exists a, b.
Qed.

Lemma guard_ok c a b o e : cursor_ok c a b o → o ≤ e → e ≤ length whole → cursor_guard c e = true.
Proof using All.
  intros Hc Hoe He. unfold cursor_guard. rewrite (co_rope _ _ _ _ Hc), (co_offset _ _ _ _ Hc). unfold rope_len.
  rewrite (extent_of MAX_BASE usize_dim length) by (done || apply usize_measures). apply andb_true_intro. split; by apply Nat.leb_le.
Qed.

Lemma rope_seek_forward_ok c a b o e : cursor_ok c a b o → o ≤ e → is_char_boundary whole e = true →
  ∃ c' a' b', seek_forward c e = Some c' ∧ cursor_ok c' a' b' e.
Proof using All.
  intros Hc Hoe He. unfold seek_forward. rewrite (guard_ok _ _ _ _ _ Hc Hoe (boundary_le _ _ He)). pose proof Hc as [? Hsp Hst Hre ? ? Hra].
  rewrite Hst, Hre. destruct (seek_on a b e Hsp) as (b1 & b2 & -> & Hs & Hr); [split; [lia|by apply boundary_le]|]. rewrite Hs.
  eexists _, (a ++ b1), b2. split; [done|]. split; cbn; try done. by rewrite <- app_assoc.
Qed.

(** A boundary of the text inside one chunk is one of that chunk. *)
Lemma inner_boundary a t b o : ts = a ++ t :: b → length (concat a) ≤ o ≤ length (concat a) + length t →
  is_char_boundary whole o = true → is_char_boundary t (o - length (concat a)) = true.
Proof using All.
  intros E Hr Ho. assert (located ts o a t) as Hloc by (split; [by exists b|done]).
  by rewrite (located_boundary MAX_BASE HMAX ts Hok Hfits o a t Hloc).
Qed.

Lemma texts_parts a t b : ts = a ++ t :: b → utf8 t ∧ length t ≤ MAX_BASE ∧ whole = concat a ++ t ++ concat b.
Proof using All. intros E. rewrite E in Hok |- *. apply Forall_app in Hok as [_ (Ht & _)%Forall_cons]. split; [apply Ht|]. split; [apply Ht|]. by rewrite concat_app. Qed.

(** ** Slices *)

(** The part of the cursor's first chunk a slice takes. *)
Lemma first_part c a t b o e : cursor_ok c a (t :: b) o → o ≤ e → is_char_boundary whole e = true →
  ∃ r us, (sl ← slice MAX_BASE (chunk_of t) (o - length (concat a)) (Nat.min e (length (concat a) + length t) - length (concat a)); push_chunk MAX_BASE [] sl) = Some r ∧
    rope_texts MAX_BASE r us ∧ concat us = drop o (take (Nat.min e (length (concat a) + length t)) whole).
Proof using All.
  intros [? Hsp ? ? ? Ho Hr] Hoe He. destruct (texts_parts _ _ _ Hsp) as (Ht & Hl & Hw).
  set (A := length (concat a)) in *. remember (Nat.min e (A + length t)) as m eqn:Em.
  assert (is_char_boundary whole m = true) as Hm.
  { destruct (Nat.min_spec e (A + length t)) as [[_ E]|[_ E]]; rewrite E in Em; subst m; [done|].
    assert (located ts (A + length t) a t) as Hloc by (split; [by exists b|unfold A; lia]).
    rewrite <- (located_boundary MAX_BASE HMAX ts Hok Hfits _ _ _ Hloc). fold A. rewrite Nat.add_comm, Nat.add_sub. apply boundary_length. }
  rewrite slice_of by (done || (apply (inner_boundary a t b); [done|fold A; lia|done]) || lia). cbn [mbind option_bind].
  destruct (push_chunk_ok MAX_BASE HMAX [] [] (drop (o - A) (take (m - A) t))) as (r & us & E & Hrt & Hc); [apply empty_texts| | |].
  - apply utf8_part; [done|apply (inner_boundary a t b); (done || (fold A; lia))..|lia].
  - rewrite length_drop, length_take. lia.
  - exists r, us. split; [exact E|]. split; [done|]. rewrite Hc. cbn [app concat]. rewrite Hw.
    rewrite take_app_ge by (fold A; lia). rewrite drop_app_ge by (fold A; lia). fold A. f_equal. rewrite take_app_le by lia. done.
Qed.

Lemma cursor_end_ok c a b o : cursor_ok c a b o → cursor_end c = match b with t :: _ => length (concat a) + length t | [] => length (concat a) end.
Proof using All.
  intros [? Hsp Hst Hre ? ? ?]. unfold cursor_end. rewrite Hre, Hst. by destruct b.
Qed.

(** The rest of a slice, after the first chunk: whole chunks and part of one. *)
Lemma later_part out us a t b e : rope_texts MAX_BASE out us → ts = a ++ t :: b → length (concat a) + length t < e →
  is_char_boundary whole e = true → ∃ sk start rest r us' a' b',
    seek_entries usize_dim (λ d, Nat.compare e d) Cursor.Right (length (concat a) + length t) (rope_of b) = (sk, start, rest) ∧
    (out ← rope_append MAX_BASE out sk;
     match rest with
     | (end_chunk, _) :: _ => end_ix ← checked_sub e start; sl ← slice MAX_BASE end_chunk 0 end_ix; push_chunk MAX_BASE out sl
     | [] => Some out
     end) = Some r ∧
    rope_texts MAX_BASE r us' ∧ concat us' = concat us ++ drop (length (concat a) + length t) (take e whole) ∧
    cursor_ok (mkRopeCursor (rope_of ts) start rest e) a' b' e.
Proof using All.
  intros Hrt E He Hb. assert (ts = (a ++ [t]) ++ b) as E' by by rewrite <- app_assoc.
  assert (length (concat (a ++ [t])) = length (concat a) + length t) as El by (rewrite concat_app, length_app; cbn; by rewrite app_nil_r).
  destruct (seek_on (a ++ [t]) b e E') as (b1 & b2 & -> & Hs & Hr); [rewrite El; split; [lia|by apply boundary_le]|]. rewrite El in Hs.
  exists (rope_of b1), (length (concat ((a ++ [t]) ++ b1))), (rope_of b2).
  assert (rope_texts MAX_BASE (rope_of b1) b1) as Hrt1 by (rewrite E' in Hok, Hbal; by eapply part_texts).
  destruct (rope_append_ok MAX_BASE HMAX _ _ _ _ Hrt Hrt1) as (out1 & us1 & Eout & Hrt' & Hc). rewrite Eout. cbn [mbind option_bind].
  rewrite app_assoc in E'. set (pre := (a ++ [t]) ++ b1) in *.
  assert (drop (length (concat a) + length t) (take (length (concat pre)) whole) = concat b1) as Eb1.
  { rewrite E', concat_app, take_app_length. unfold pre. rewrite concat_app, <- El. by rewrite drop_app_length. }
  destruct b2 as [|t2 b2].
  - exists out1, us1, pre, []. assert (e = length (concat pre)) as -> by lia. split_and!; [done..| |].
    + by rewrite Hc, Eb1.
    + by split.
  - cbn [rope_of fmap list_fmap entry_of]. unfold checked_sub. rewrite (proj2 (Nat.leb_le _ _)) by lia. cbn [mbind option_bind].
    destruct (texts_parts _ _ _ E') as (Ht2 & Hl2 & Hw2). pose proof (inner_boundary pre t2 b2 e E' Hr Hb) as Hb2.
    rewrite slice_of by (done || lia). cbn [mbind option_bind]. rewrite drop_0.
    destruct (push_chunk_ok MAX_BASE HMAX out1 us1 (take (e - length (concat pre)) t2)) as (r & us' & Er & Hrt2 & Hc2);
      [done|by apply utf8_split|rewrite length_take; lia|]. exists r, us', pre, (t2 :: b2). split_and!; [done|exact Er|done| |by split].
    rewrite Hc2, Hc, <- app_assoc. f_equal. rewrite <- Eb1 at 1. rewrite Hw2, take_app_length. rewrite (take_app_ge (concat pre)) by lia.
    assert (length (concat a) + length t ≤ length (concat pre)) as Hle by (unfold pre; rewrite concat_app, length_app; lia).
    rewrite drop_app_le by done. by rewrite take_app_le by lia.
Qed.
Lemma rope_cursor_slice_ok c a b o e : cursor_ok c a b o → o ≤ e → is_char_boundary whole e = true →
  ∃ r us c' a' b', cursor_slice MAX_BASE c e = Some (r, c') ∧ rope_texts MAX_BASE r us ∧ concat us = drop o (take e whole) ∧ cursor_ok c' a' b' e.
Proof using All.
  intros Hc Hoe He. pose proof (boundary_le _ _ He) as Hle. unfold cursor_slice. rewrite (guard_ok _ _ _ _ _ Hc Hoe Hle), (cursor_end_ok _ _ _ _ Hc).
  pose proof Hc as [Hro Hsp Hst Hre Hof Ho Hr]. rewrite Hre, Hst, Hof, Hro. destruct b as [|t b].
  - rewrite app_nil_r in Hsp. subst a. assert (o = e) as <- by lia. cbn [rope_of fmap list_fmap mbind option_bind].
    rewrite (proj2 (Nat.ltb_ge _ _)) by lia. eexists [], [], _, ts, []. split; [done|]. split; [apply empty_texts|].
    split; [rewrite drop_ge; [done|rewrite length_take; lia]|]. split; cbn; [done|by rewrite app_nil_r|done..].
  - destruct (first_part _ _ _ _ _ e Hc Hoe He) as (r & us & Er & Hrt & Hcu). cbn [rope_of fmap list_fmap entry_of].
    rewrite !(checked_sub_ok MAX_BASE HMAX ts Hok Hfits) by lia. cbn [mbind option_bind] in Er |- *. rewrite Er. cbn [mbind option_bind].
    destruct (Nat.ltb_spec (length (concat a) + length t) e) as [Hlt|Hge].
    + destruct (later_part r us a t b e Hrt Hsp Hlt He) as (sk & start & rest & r2 & us2 & a' & b' & Hs & Er2 & Hrt2 & Hcu2 & Hc2).
      cbn [tail]. fold (rope_of b). rewrite Hs. cbn [mbind option_bind] in Er2 |- *.
      destruct (rope_append MAX_BASE r sk) as [r1|]; [|done]. cbn [mbind option_bind] in Er2 |- *. rewrite Er2. cbn [mbind option_bind].
      eexists r2, us2, _, a', b'. split; [done|]. split; [done|]. split; [|done]. rewrite Hcu2, Hcu, Nat.min_r by lia.
      rewrite <- (take_drop (length (concat a) + length t) (take e whole)) at 2. rewrite drop_app_le; [f_equal; rewrite take_take; f_equal; f_equal; lia|].
      rewrite !length_take. lia.
    + eexists r, us, _, a, (t :: b). split; [done|]. split; [done|]. rewrite Nat.min_l in Hcu by lia. split; [done|].
      split; cbn; try done. lia.
Qed.

Lemma rope_cursor_suffix_ok c a b o : cursor_ok c a b o → ∃ r us, cursor_suffix MAX_BASE c = Some r ∧ rope_texts MAX_BASE r us ∧ concat us = drop o whole.
Proof using All.
  intros Hc. unfold cursor_suffix, rope_len. rewrite (co_rope _ _ _ _ Hc), (extent_of MAX_BASE usize_dim length) by (done || apply usize_measures).
  destruct (rope_cursor_slice_ok _ _ _ _ (length whole) Hc (boundary_le _ _ (co_boundary _ _ _ _ Hc)) (boundary_length _)) as (r & us & c' & _ & _ & -> & Hrt & Hcu & _).
  exists r, us. split; [done|]. split; [done|]. by rewrite Hcu, take_ge.
Qed.

(** ** [Rope::slice] and [Rope::replace] *)

Lemma slice_ok s e : s ≤ e → is_char_boundary whole s = true → is_char_boundary whole e = true →
  ∃ r us, rope_slice MAX_BASE (rope_of ts) s e = Some r ∧ rope_texts MAX_BASE r us ∧ concat us = drop s (take e whole).
Proof using All.
  intros Hse Hs He. unfold rope_slice. destruct (cursor_at_ok 0 eq_refl) as (a & b & Hc).
  destruct (rope_seek_forward_ok _ _ _ _ s Hc ltac:(lia) Hs) as (c' & a' & b' & -> & Hc'). cbn [mbind option_bind].
  destruct (rope_cursor_slice_ok _ _ _ _ e Hc' Hse He) as (r & us & c'' & _ & _ & -> & Hrt & Hcu & _). by exists r, us.
Qed.

Lemma replace_ok NUM_CHUNKS s e u : s ≤ e → is_char_boundary whole s = true → is_char_boundary whole e = true → utf8 u →
  ∃ r us, rope_replace MAX_BASE NUM_CHUNKS (rope_of ts) s e u = Some r ∧ rope_texts MAX_BASE r us ∧ concat us = take s whole ++ u ++ drop e whole.
Proof using All.
  intros Hse Hs He Hu. unfold rope_replace. destruct (cursor_at_ok 0 eq_refl) as (a & b & Hc). cbv zeta.
  destruct (rope_cursor_slice_ok _ _ _ _ s Hc ltac:(lia) Hs) as (front & us & c' & a' & b' & -> & Hrt & Hcu & Hc'). cbn [mbind option_bind].
  destruct (rope_append_ok MAX_BASE HMAX [] [] front us (empty_texts MAX_BASE) Hrt) as (r1 & us1 & -> & Hrt1 & Hcu1). cbn [mbind option_bind].
  destruct (rope_seek_forward_ok _ _ _ _ e Hc' Hse He) as (c'' & a'' & b'' & -> & Hc''). cbn [mbind option_bind].
  destruct (rope_push_ok MAX_BASE HMAX NUM_CHUNKS r1 us1 u Hrt1 Hu) as (r2 & us2 & -> & Hrt2 & Hcu2). cbn [mbind option_bind].
  destruct (rope_cursor_suffix_ok _ _ _ _ Hc'') as (back & us3 & -> & Hrt3 & Hcu3). cbn [mbind option_bind].
  destruct (rope_append_ok MAX_BASE HMAX _ _ _ _ Hrt2 Hrt3) as (r & us4 & -> & Hrt4 & Hcu4). exists r, us4. split; [done|]. split; [done|].
  rewrite Hcu4, Hcu2, Hcu1, Hcu, Hcu3, drop_0. cbn [concat app]. by rewrite <- app_assoc.
Qed.
End slice.
