(* ===== verification/RopeProps.v ===== *)
(** * What the rope crate promises

    A chunk's bitmaps are those of its text; a rope built by any sequence of
    operations holds the text those operations describe; and its conversions
    and clips are the ones of that text. *)

From S2P Require Import Prelude Text Bitmap Select Utf8 Summary Chunk ChunkBits ChunkOk ChunkPoints ChunkClip ChunkSummary ChunkLongest Rope RopeOk RopeSeek RopeConv RopeClip RopeSlice.

(** ** Ropes reached by operations *)

Section built.
Context (MAX_BASE NUM_CHUNKS : nat).

(** The ropes the operations reach, with the texts the operations describe. *)
Inductive built : list (Chunk * TextSummary) → Text → Prop :=
  | built_new : built [] []
  | built_from u r : utf8 u → fits32 u → rope_from MAX_BASE NUM_CHUNKS u = Some r → built r u
  | built_push r t u r' : built r t → utf8 u → fits32 (t ++ u) → push MAX_BASE NUM_CHUNKS r u = Some r' → built r' (t ++ u)
  | built_push_front r t u r' : built r t → utf8 u → fits32 (u ++ t) → push_front MAX_BASE NUM_CHUNKS r u = Some r' → built r' (u ++ t)
  | built_append r t o u r' : built r t → built o u → fits32 (t ++ u) → rope_append MAX_BASE r o = Some r' → built r' (t ++ u)
  | built_slice r t s e r' : built r t → s ≤ e → is_char_boundary t s = true → is_char_boundary t e = true →
      rope_slice MAX_BASE r s e = Some r' → built r' (drop s (take e t))
  | built_replace r t s e u r' : built r t → s ≤ e → is_char_boundary t s = true → is_char_boundary t e = true → utf8 u →
      fits32 (take s t ++ u ++ drop e t) → rope_replace MAX_BASE NUM_CHUNKS r s e u = Some r' → built r' (take s t ++ u ++ drop e t).

Record represents (r : list (Chunk * TextSummary)) (t : Text) : Prop := {
  rp_chunks : ∃ ts, rope_texts MAX_BASE r ts ∧ t = concat ts;
  rp_fits : fits32 t;
}.
End built.

Lemma fits32_part t s e : fits32 t → fits32 (drop s (take e t)).
Proof. unfold fits32, is_u32. rewrite length_drop, length_take. lia. Qed.

Section built_ok.
Context (MAX_BASE : nat) (HMAX : 8 ≤ MAX_BASE ≤ 128) (NUM_CHUNKS : nat).

(** An operation that is known to succeed on ropes of a text represents its text. *)
Lemma represents_of (f : option (list (Chunk * TextSummary))) r' t :
  (∃ r us, f = Some r ∧ rope_texts MAX_BASE r us ∧ concat us = t) → f = Some r' → fits32 t → represents MAX_BASE r' t.
Proof using. intros (r & us & -> & Hrt & <-) [= ->] Hf. split; [by exists us|done]. Qed.

Lemma built_represents r t : built MAX_BASE NUM_CHUNKS r t → represents MAX_BASE r t.
Proof using HMAX.
  induction 1 as [|u r Hu Hf E|r t u r' _ [(ts & Hrt & ->) _] Hu Hf E|r t u r' _ [(ts & Hrt & ->) Ht] Hu Hf E
    |r t o u r' _ [(ts & Hrt & ->) Ht] _ [(us & Hru & ->) Hu] Hf E|r t s e r' _ [(ts & Hrt & ->) Ht] Hse Hs He E|r t s e u r' _ [(ts & Hrt & ->) Ht] Hse Hs He Hu Hf E].
  - split; [by exists []; split; [apply empty_texts|]|done].
  - eapply represents_of; [|exact E|done]. apply (rope_push_ok MAX_BASE HMAX NUM_CHUNKS [] []); [apply empty_texts|done].
  - eapply represents_of; [|exact E|done]. by apply rope_push_ok.
  - eapply represents_of; [|exact E|done]. by apply push_front_ok.
  - eapply represents_of; [|exact E|done]. by apply rope_append_ok.
  - destruct Hrt as [-> Hok Hbal]. eapply represents_of; [|exact E|by apply fits32_part]. by apply slice_ok.
  - destruct Hrt as [-> Hok Hbal]. eapply represents_of; [|exact E|done]. by apply replace_ok.
Qed.

(** C25: Every rope that [new], [from], [push], [push_front], [append],
    [slice] and [replace] build from UTF-8 texts of less than 4 GB, cut at
    character boundaries, holds exactly the text those operations describe:
    its chunks are well formed, none but the last is underfull (what
    [check_invariants] asserts), and its summary is that of its text. *)
Theorem rope_refines_text r t : built MAX_BASE NUM_CHUNKS r t →
  ∃ ts, rope_texts MAX_BASE r ts ∧ concat ts = t ∧ rope_summary r = from_str t ∧ rope_len r = length t.
Proof using HMAX.
  intros H. destruct (built_represents r t H) as [(ts & Hrt & ->) Hf]. exists ts. split; [done|]. split; [done|]. destruct Hrt as [-> Hok Hbal].
  split; [by rewrite (rope_summary_of MAX_BASE)|]. unfold rope_len. by rewrite (extent_of MAX_BASE usize_dim length) by (done || apply usize_measures).
Qed.

(** C32: No operation on a rope panics: on every rope built from texts,
    pushing text at either end, appending another such rope, slicing and
    replacing between character boundaries all return a rope. *)
Theorem rope_never_panics r t : built MAX_BASE NUM_CHUNKS r t →
  (∀ u, utf8 u → is_Some (push MAX_BASE NUM_CHUNKS r u) ∧ is_Some (push_front MAX_BASE NUM_CHUNKS r u)) ∧
  (∀ o u, built MAX_BASE NUM_CHUNKS o u → is_Some (rope_append MAX_BASE r o)) ∧
  (∀ s e, s ≤ e → is_char_boundary t s = true → is_char_boundary t e = true →
    is_Some (rope_slice MAX_BASE r s e) ∧ ∀ u, utf8 u → is_Some (rope_replace MAX_BASE NUM_CHUNKS r s e u)).
Proof using HMAX.
  intros H. destruct (built_represents r t H) as [(ts & Hrt & ->) Hf]. split; [|split].
  - intros u Hu. split.
    + destruct (rope_push_ok MAX_BASE HMAX NUM_CHUNKS r ts u Hrt Hu) as (r' & _ & E & _). by exists r'.
    + destruct (push_front_ok MAX_BASE HMAX NUM_CHUNKS r ts u Hrt Hf Hu) as (r' & _ & E & _). by exists r'.
  - intros o u Ho. destruct (built_represents o u Ho) as [(us & Hru & ->) _].
    destruct (rope_append_ok MAX_BASE HMAX r ts o us Hrt Hru) as (r' & _ & E & _). by exists r'.
  - intros s e Hse Hs He. destruct Hrt as [-> Hok Hbal]. split.
    + destruct (slice_ok MAX_BASE HMAX ts Hok Hbal Hf s e Hse Hs He) as (r' & _ & E & _). by exists r'.
    + intros u Hu. destruct (replace_ok MAX_BASE HMAX ts Hok Hbal Hf NUM_CHUNKS s e u Hse Hs He Hu) as (r' & _ & E & _). by exists r'.
Qed.
End built_ok.

(** ** Coordinates *)

Section coordinates.
Context (MAX_BASE : nat) (HMAX : 8 ≤ MAX_BASE ≤ 128) (NUM_CHUNKS : nat).

(** Converting a byte offset, even one inside a character or past the
    end, measures the text before it: its UTF-16 units, its newlines and the
    bytes (or UTF-16 units) after the last of them. *)
Theorem rope_offsets_measure r t o : built MAX_BASE NUM_CHUNKS r t →
  rope_offset_to_offset_utf16 MAX_BASE r o = Some (utf16_len (take o t)) ∧
  rope_offset_to_point MAX_BASE r o = Some (point_of (take o t)) ∧
  rope_offset_to_point_utf16 MAX_BASE r o = Some (point16_of (take o t)).
Proof using HMAX.
  intros H. destruct (built_represents MAX_BASE HMAX NUM_CHUNKS r t H) as [(ts & [-> Hok _] & ->) Hf].
  split; [by apply offset_to_offset_utf16_ok|]. split; [by apply offset_to_point_ok|by apply offset_to_point_utf16_ok].
Qed.

(** The four coordinates of a place in a text. *)
Record place := mkPlace { pl_offset : nat; pl_utf16 : nat; pl_point : Point; pl_point16 : PointUtf16 }.
Definition place_at (t : Text) (o : nat) : place := mkPlace o (utf16_len (take o t)) (point_of (take o t)) (point16_of (take o t)).

(** C26: At every character boundary the four coordinates (offset, UTF-16
    offset, point, UTF-16 point) convert into one another: each conversion of
    the rope takes one coordinate of the place to the other. *)
Theorem rope_coordinates_agree r t o : built MAX_BASE NUM_CHUNKS r t → is_char_boundary t o = true →
  let p := place_at t o in
  rope_offset_to_offset_utf16 MAX_BASE r (pl_offset p) = Some (pl_utf16 p) ∧
  rope_offset_utf16_to_offset MAX_BASE r (pl_utf16 p) = Some (pl_offset p) ∧
  rope_offset_to_point MAX_BASE r (pl_offset p) = Some (pl_point p) ∧
  rope_point_to_offset MAX_BASE r (pl_point p) = Some (pl_offset p) ∧
  rope_offset_to_point_utf16 MAX_BASE r (pl_offset p) = Some (pl_point16 p) ∧
  (∀ clip, point_utf16_to_offset_impl MAX_BASE r (pl_point16 p) clip = Some (pl_offset p)) ∧
  (∀ clip, point_utf16_to_offset_utf16_impl MAX_BASE r (pl_point16 p) clip = Some (pl_utf16 p)) ∧
  rope_point_to_offset_utf16 MAX_BASE r (pl_point p) = Some (pl_utf16 p) ∧
  rope_point_to_point_utf16 MAX_BASE r (pl_point p) = Some (pl_point16 p) ∧
  rope_point_utf16_to_point MAX_BASE r (pl_point16 p) = Some (pl_point p) ∧
  rope_unclipped_point_utf16_to_point MAX_BASE r (pl_point16 p) = Some (pl_point p).
Proof using HMAX.
  intros H Ho. destruct (built_represents MAX_BASE HMAX NUM_CHUNKS r t H) as [(ts & [-> Hok _] & ->) Hf]. pose proof (boundary_le _ _ Ho).
  cbn [place_at pl_offset pl_utf16 pl_point pl_point16]. split_and!.
  - by apply offset_to_offset_utf16_ok.
  - by apply offset_utf16_to_offset_ok.
  - by apply offset_to_point_ok.
  - by apply point_to_offset_ok.
  - by apply offset_to_point_utf16_ok.
  - intros clip. by apply point_utf16_to_offset_ok.
  - intros clip. by apply point_utf16_to_offset_utf16_ok.
  - by apply point_to_offset_utf16_ok.
  - by apply point_to_point_utf16_ok.
  - by apply point_utf16_to_point_ok.
  - by apply unclipped_point_utf16_to_point_ok.
Qed.
End coordinates.

(** ** Clipping *)

(** [m] is the boundary nearest [o] on the side of the bias; past the end it
    is the end. *)
Definition clipped (t : Text) (o : nat) (bias : Bias) (m : nat) : Prop :=
  is_char_boundary t m = true ∧
  match bias with
  | Cursor.Left => m ≤ o ∧ ∀ k, is_char_boundary t k = true → k ≤ o → k ≤ m
  | Cursor.Right => (o ≤ m ∨ m = length t) ∧ ∀ k, is_char_boundary t k = true → o ≤ k → m ≤ k
  end.

Lemma step_back_clipped t o : clipped t o Cursor.Left (step_back t o).
Proof.
  induction o as [|o (Hb & Hle & Hmax)]; cbn [step_back].
  - split; [done|]. split; [done|]. intros k _ Hk. by apply Nat.le_0_r in Hk as ->.
  - destruct (is_char_boundary t (S o)) eqn:E; [done|]. split; [done|]. split; [by constructor|].
    intros k Hk Hko. apply Hmax; [done|]. apply Nat.le_succ_r in Hko as [? | ->]; [done|]. congruence.
Qed.

Lemma floor_clipped t o : clipped t o Cursor.Left (floor_char_boundary t o).
Proof.
  unfold floor_char_boundary. destruct (Nat.leb_spec (length t) o); [|apply step_back_clipped].
  split; [apply boundary_length|]. split; [done|]. intros k Hk _. by apply boundary_le.
Qed.

Lemma ceil_clipped t o : utf8 t → o ≤ length t → clipped t o Cursor.Right (ceil_char_boundary t o).
Proof.
  intros Ht Ho. destruct (ceil_next t o Ht Ho) as [[Hle Hl] Hb Hmin]. split; [done|]. split; [by left|].
  intros k Hk Hok. destruct (decide (ceil_char_boundary t o ≤ k)); [done|]. rewrite Hmin in Hk by lia. done.
Qed.

Section clipping.
Context (MAX_BASE : nat) (HMAX : 8 ≤ MAX_BASE ≤ 128) (NUM_CHUNKS : nat).

(** [clip_offset] and [clip_offset_utf16] move any offset, also one past
    the end, to the nearest character boundary of the text on the side of the
    bias: the last one not after it, or the first one not before it. *)
Theorem rope_clips_to_boundaries r t o bias : built MAX_BASE NUM_CHUNKS r t →
  (∃ m, clip_offset r o bias = Some m ∧ clipped t o bias m) ∧
  (∃ m, rope_clip_offset_utf16 MAX_BASE r o bias = Some m ∧ clipped16 t o bias m).
Proof using HMAX.
  intros H. destruct (built_represents MAX_BASE HMAX NUM_CHUNKS r t H) as [(ts & [-> Hok _] & ->) Hf]. pose proof (text_utf8 MAX_BASE ts Hok) as Hu.
  split; [|by apply clip_offset_utf16_ok]. destruct bias; cbn [clip_offset].
  - rewrite (floor_char_boundary_ok MAX_BASE HMAX ts Hok Hf). eexists. split; [done|apply floor_clipped].
  - destruct (decide (o ≤ length (concat ts))) as [Ho|Ho].
    + rewrite (ceil_char_boundary_ok MAX_BASE HMAX ts Hok Hf) by done. eexists. split; [done|by apply ceil_clipped].
    + unfold rope_ceil_char_boundary. rewrite (rope_len_of MAX_BASE HMAX ts Hok Hf), (proj2 (Nat.ltb_lt _ _)) by lia. eexists. split; [done|].
      split; [apply boundary_length|]. split; [by right|]. intros k Hk Hok'. apply boundary_le in Hk. lia.
Qed.
End clipping.

(** ** Chunks and summaries *)

Section chunks.
Context (MAX_BASE : nat) (HMAX : 8 ≤ MAX_BASE ≤ 128).

(** The bitmaps of a chunk stay those of its text: building, appending,
    prepending, splitting and slicing chunks (at character boundaries, within
    the capacity) neither panics nor overflows, and gives the chunk of the
    text the operation describes. *)
Theorem chunk_operations_ok c d : chunk_ok MAX_BASE c → chunk_ok MAX_BASE d →
  (length (text c) + length (text d) ≤ MAX_BASE →
    (∃ x, append MAX_BASE c d = Some x ∧ chunk_ok MAX_BASE x ∧ text x = text c ++ text d) ∧
    (∃ x, prepend MAX_BASE c d = Some x ∧ chunk_ok MAX_BASE x ∧ text x = text d ++ text c)) ∧
  (∀ m, is_char_boundary (text c) m = true → ∃ x y, split_at MAX_BASE c m = Some (x, y) ∧
    chunk_ok MAX_BASE x ∧ chunk_ok MAX_BASE y ∧ text x = take m (text c) ∧ text y = drop m (text c)) ∧
  (∀ s e, is_char_boundary (text c) s = true → is_char_boundary (text c) e = true → s ≤ e →
    ∃ x, slice MAX_BASE c s e = Some x ∧ chunk_ok MAX_BASE x ∧ text x = drop s (take e (text c))) ∧
  (∀ t, utf8 t → length t ≤ MAX_BASE → ∃ x, new MAX_BASE t = Some x ∧ chunk_ok MAX_BASE x ∧ text x = t).
Proof using HMAX.
  intros Hc Hd. pose proof Hc as [Hcl Hcu _ _ _ _]. pose proof Hd as [_ Hdu _ _ _ _].
  rewrite (chunk_ok_of _ c Hc), (chunk_ok_of _ d Hd). cbn [text chunk_of]. split; [|split; [|split]].
  - intros Hl. split; (eexists; split; [first [apply append_of | apply prepend_of]; done || lia|]; split; [|done]; apply chunk_of_ok; [by apply utf8_app|rewrite length_app; lia]).
  - intros m Hm. destruct (utf8_split _ m Hcu Hm). eexists _, _. split; [apply split_at_of; done || lia|].
    split; [apply chunk_of_ok; [done|rewrite length_take; lia]|]. split; [apply chunk_of_ok; [done|rewrite length_drop; lia]|done].
  - intros s e Hs He Hse. eexists. split; [apply slice_of; done || lia|]. split; [|done]. apply chunk_of_ok; [by apply utf8_part|]. rewrite length_drop, length_take. lia.
  - intros t Ht Hl. eexists. split; [apply new_of; done || lia|]. split; [by apply chunk_of_ok|done].
Qed.

(** C31: [text_summary], which counts bits of the bitmaps, gives every field
    the scan over the characters of [TextSummary::from] gives: lengths,
    characters, UTF-16 units, lines, first and last line, longest row. *)
Theorem chunk_summary_counts c : chunk_ok MAX_BASE c → text_summary MAX_BASE c = Some (from_str (text c)).
Proof using HMAX.
  intros Hc. pose proof Hc as [Hcl Hcu _ _ _ _]. rewrite (chunk_ok_of _ c Hc). cbn [text chunk_of]. apply text_summary_of; [lia|done|done].
Qed.
End chunks.

(** Text summaries compose: the summary of two texts in sequence is the
    sum of their summaries, and the empty summary is neutral, so the
    summaries kept in the rope's tree are those of the texts below. *)
Theorem text_summaries_compose t u : utf8 t → utf8 u → fits32 (t ++ u) →
  from_str (t ++ u) = add_assign (from_str t) (from_str u) ∧ add_assign summary_default (from_str u) = from_str u ∧
  add_assign (from_str t) summary_default = from_str t.
Proof.
  intros Ht Hu Hf. split; [by apply from_str_app|]. change summary_default with (from_str []). pose proof Hf as [Hft Hfu]%fits32_app.
  split; rewrite <- from_str_app; rewrite ?app_nil_r; done || apply utf8_nil.
Qed.

(** [add_newline] does not add a newline: it adds the UTF-16 units before it
    once more, and does not count the character. *)
Lemma add_newline_miscounts s :
  s_len_utf16 (add_newline s) = s_len_utf16 (add_assign s newline_summary) + s_len_utf16 s ∧
  s_chars (add_assign s newline_summary) = s_chars (add_newline s) + 1.
Proof. unfold add_newline, add_assign, newline_summary. repeat case_match; simplify_eq; cbn; lia. Qed.

(** ** Concrete ropes *)

Module RopeExamples.
(** "a\nü𝄞 " followed by eleven letters and a newline: two chunks of 16 bytes. *)
Definition chars_ex : list Char := [97; 10; 252; 119070; 32; 98; 99; 100; 101; 102; 103; 104; 105; 106; 107; 108; 10; 109]%N.
Definition text_ex : Text := encode chars_ex.
Definition rope_ex : list (Chunk * TextSummary) := default [] (rope_from 16 16 text_ex).
End RopeExamples.

Lemma text_ex_utf8 : utf8 RopeExamples.text_ex.
Proof. exists RopeExamples.chars_ex. split; [repeat constructor|reflexivity]. Qed.

Lemma fits32_short t : (N.of_nat (length t) <=? u32_max)%N = true → fits32 t.
Proof. intros H. by apply N.leb_le. Qed.

Module RopeReached.
(** The example with its first line doubled, sliced at both ends. *)
Definition edited : Text := take 2 RopeExamples.text_ex ++ RopeExamples.text_ex ++ drop 8 RopeExamples.text_ex.
Definition rope_edited : list (Chunk * TextSummary) := default [] (rope_replace 16 16 RopeExamples.rope_ex 2 8 RopeExamples.text_ex).
End RopeReached.

Lemma rope_ex_built : built 16 16 RopeExamples.rope_ex RopeExamples.text_ex.
Proof. apply built_from; [apply text_ex_utf8|by apply fits32_short|vm_compute; reflexivity]. Qed.

Lemma rope_edited_built : built 16 16 RopeReached.rope_edited RopeReached.edited.
Proof.
  eapply built_replace; [apply rope_ex_built|lia|reflexivity|reflexivity|apply text_ex_utf8|by apply fits32_short|].
  vm_compute. reflexivity.
Qed.

Lemma max16 : 8 ≤ 16 ≤ 128.
Proof. lia. Qed.

Lemma rope_refines_text_witness :
  length RopeReached.rope_edited = 3 ∧
  ∃ ts, rope_texts 16 RopeReached.rope_edited ts ∧ concat ts = RopeReached.edited ∧
    rope_summary RopeReached.rope_edited = from_str RopeReached.edited ∧ rope_len RopeReached.rope_edited = length RopeReached.edited.
Proof. split; [reflexivity|]. apply (rope_refines_text 16 max16 16 _ _ rope_edited_built). Defined.

Lemma rope_never_panics_witness :
  is_Some (rope_slice 16 RopeReached.rope_edited 4 20) ∧ is_Some (push_front 16 16 RopeReached.rope_edited RopeExamples.text_ex) ∧
  is_Some (rope_append 16 RopeReached.rope_edited RopeExamples.rope_ex).
Proof.
  destruct (rope_never_panics 16 max16 16 _ _ rope_edited_built) as (Hp & Ha & Hs).
  split; [|split; [apply Hp, text_ex_utf8|apply (Ha _ RopeExamples.text_ex rope_ex_built)]]. refine (proj1 (Hs 4 20 _ _ _)); [lia|reflexivity..].
Defined.

Lemma rope_offsets_measure_witness :
  rope_offset_to_offset_utf16 16 RopeExamples.rope_ex 6 = Some 5 ∧
  rope_offset_to_point 16 RopeExamples.rope_ex 20 = Some (mkPoint 1 18) ∧
  rope_offset_to_point_utf16 16 RopeExamples.rope_ex 20 = Some (mkPoint 1 15).
Proof.
  destruct (rope_offsets_measure 16 max16 16 _ _ 6 rope_ex_built) as (-> & _ & _).
  destruct (rope_offsets_measure 16 max16 16 _ _ 20 rope_ex_built) as (_ & -> & ->). vm_compute. split_and!; reflexivity.
Defined.

Lemma rope_coordinates_agree_witness :
  rope_point_utf16_to_point 16 RopeExamples.rope_ex (mkPoint 1 15) = Some (mkPoint 1 18) ∧
  rope_offset_utf16_to_offset 16 RopeExamples.rope_ex 17 = Some 20.
Proof.
  destruct (rope_coordinates_agree 16 max16 16 _ _ 20 rope_ex_built eq_refl) as (_ & H & _ & _ & _ & _ & _ & _ & _ & H' & _). split; [exact H'|exact H].
Defined.

Lemma rope_clips_to_boundaries_witness :
  (∃ m, clip_offset RopeExamples.rope_ex 6 Cursor.Right = Some m ∧ clipped RopeExamples.text_ex 6 Cursor.Right m) ∧
  (∃ m, rope_clip_offset_utf16 16 RopeExamples.rope_ex 6 Cursor.Right = Some m ∧ clipped16 RopeExamples.text_ex 6 Cursor.Right m).
Proof. apply (rope_clips_to_boundaries 16 max16 16 _ _ 6 Cursor.Right rope_ex_built). Defined.

Lemma chunk_operations_ok_witness :
  ∃ x, slice 32 (chunk_of RopeExamples.text_ex) 2 9 = Some x ∧ chunk_ok 32 x ∧ text x = drop 2 (take 9 (text (chunk_of RopeExamples.text_ex))).
Proof.
  assert (chunk_ok 32 (chunk_of RopeExamples.text_ex)) as Hc by (apply chunk_of_ok; [apply text_ex_utf8|vm_compute; lia]).
  destruct (chunk_operations_ok 32 ltac:(lia) _ _ Hc Hc) as (_ & _ & H & _). apply H; [reflexivity|reflexivity|lia].
Defined.

Lemma chunk_summary_counts_witness :
  text_summary 32 (chunk_of RopeExamples.text_ex) = Some (mkSummary 22 18 19 (mkPoint 2 1) 1 1 1 1 14).
Proof.
  etransitivity; [apply (chunk_summary_counts 32 ltac:(lia)); apply chunk_of_ok; [apply text_ex_utf8|vm_compute; lia]|]. vm_compute. reflexivity.
Defined.

Lemma text_summaries_compose_witness :
  from_str (RopeExamples.text_ex ++ RopeExamples.text_ex) = add_assign (from_str RopeExamples.text_ex) (from_str RopeExamples.text_ex).
Proof. refine (proj1 (text_summaries_compose RopeExamples.text_ex RopeExamples.text_ex text_ex_utf8 text_ex_utf8 _)). by apply fits32_short. Defined.
