(* ===== verification/Float.v ===== *)
(** * Double-precision numbers

    [f64] as the specification floats of the Standard Library (53-bit
    significands, exponents up to 1024), with the operations of Rust's [f64]
    and of [ordered_float::OrderedFloat] the source uses. *)

From Stdlib Require Import SpecFloat.
From S2P Require Import Prelude.

Abbreviation f64 := spec_float.
Definition f64_prec : Z := 53.
Definition f64_emax : Z := 1024.

Definition f64_add : f64 → f64 → f64 := SFadd f64_prec f64_emax.
Definition f64_mul : f64 → f64 → f64 := SFmul f64_prec f64_emax.
Definition f64_div : f64 → f64 → f64 := SFdiv f64_prec f64_emax.
Definition neg_infinity : f64 := S754_infinity true.
Definition f64_zero : f64 := S754_zero false.

(** [z as f64], rounded to nearest even. *)
Definition f64_of_Z (z : Z) : f64 := binary_normalize f64_prec f64_emax z 0 false.
(** A decimal literal [n / d]. *)
Definition f64_of_ratio (n d : Z) : f64 := f64_div (f64_of_Z n) (f64_of_Z d).

(** [f64::max]: a NaN loses. *)
Definition f64_max (x y : f64) : f64 :=
  match SFcompare x y with
  | Some Lt => y
  | Some _ => x
  | None => match x with S754_nan => y | _ => x end
  end.

(** [x > y], false on a NaN. *)
Definition f64_gtb (x y : f64) : bool := match SFcompare x y with Some Gt => true | _ => false end.

(** [OrderedFloat]: NaN is greatest and equal to itself. *)
Definition ordered_cmp (x y : f64) : comparison :=
  match SFcompare x y with
  | Some c => c
  | None =>
      match x, y with
      | S754_nan, S754_nan => Eq
      | S754_nan, _ => Gt
      | _, _ => Lt
      end
  end.

(** [f64::powi], by repeated squaring (the library leaves the rounding of
    the products open; no theorem depends on it). *)
Fixpoint powi_loop (fuel : nat) (a r : f64) (b : N) : f64 :=
  match fuel with
  | O => r
  | S fuel =>
      let r := if N.odd b then f64_mul r a else r in
      let b := (b / 2)%N in
      if (b =? 0)%N then r else powi_loop fuel (f64_mul a a) r b
  end.
Definition powi (a : f64) (n : Z) : f64 :=
  let r := powi_loop 32 a (f64_of_Z 1) (Z.abs_N n) in
  if (n <? 0)%Z then f64_div (f64_of_Z 1) r else r.

Example f64_examples : f64_add (f64_of_Z (-20)) (f64_of_ratio 9 5) = S754_finite true 5122844576133939 (-48) ∧
  f64_gtb (powi (f64_of_ratio 9 5) 4) (f64_of_Z 10) = true ∧ f64_max S754_nan neg_infinity = neg_infinity.
Proof. vm_compute. done. Qed.
