(* ===== verification/StreamingDiff.v ===== *)
(** * Streaming character diffs ([crates/streaming_diff/src/streaming_diff.rs])

    [StreamingDiff] is fed the new text piece by piece and returns, after each
    piece, the character operations that turn the next part of the old text
    into it.  The scores are kept in a matrix of doubles of which only the
    columns of the current piece are stored. *)

From Stdlib Require Import SpecFloat.
From S2P Require Import Prelude Text Bitmap Utf8 Chunk ChunkBits Float.

(** ** Matrices *)

Record Matrix := mkMatrix { cells : list f64; rows : nat; cols : nat }.

Definition matrix_new : Matrix := mkMatrix [] 0 0.
(** [Vec::resize]. *)
Definition vec_resize {A} (l : list A) (n : nat) (x : A) : list A := take n l ++ replicate (n - length l) x.
Definition matrix_resize (m : Matrix) (r c : nat) : Matrix := mkMatrix (vec_resize (cells m) (r * c) f64_zero) r c.

(** The [n] cells from [i] on, and the cells with those overwritten. *)
Definition get_range {A} (l : list A) (i n : nat) : option (list A) := if i + n <=? length l then Some (take n (drop i l)) else None.
Definition set_range {A} (l : list A) (i : nat) (k : list A) : list A := take i l ++ k ++ drop (i + length k) l.

Definition swap_columns (m : Matrix) (col1 col2 : nat) : option Matrix :=
  if col1 =? col2 then Some m
  else if cols m <=? col1 then None
  else if cols m <=? col2 then None
  else
    a ← get_range (cells m) (col1 * rows m) (rows m);
    b ← get_range (cells m) (col2 * rows m) (rows m);
    Some (mkMatrix (set_range (set_range (cells m) (col1 * rows m) b) (col2 * rows m) a) (rows m) (cols m)).

Definition matrix_get (m : Matrix) (row col : nat) : option f64 :=
  if rows m <=? row then None else if cols m <=? col then None else cells m !! (col * rows m + row).
Definition matrix_set (m : Matrix) (row col : nat) (value : f64) : option Matrix :=
  if rows m <=? row then None
  else if cols m <=? col then None
  else if col * rows m + row <? length (cells m) then Some (mkMatrix (<[col * rows m + row := value]> (cells m)) (rows m) (cols m)) else None.

(** ** Operations *)

Inductive CharOperation := Insert (text : Text) | Delete (bytes : nat) | Keep (bytes : nat).

Record StreamingDiff := mkStreamingDiff {
  old : list Char;
  new_text : list Char;
  scores : Matrix;
  old_text_ix : nat;
  new_text_ix : nat;
  equal_runs : gmap (nat * nat) N;
}.

Definition INSERTION_SCORE : f64 := f64_of_Z (-1).
Definition DELETION_SCORE : f64 := f64_of_Z (-20).
Definition EQUALITY_BASE : f64 := f64_of_ratio 9 5.
Definition MAX_EQUALITY_EXPONENT : Z := 16.

(** A [for] loop whose body may panic. *)
Fixpoint for_each {S A} (f : S → A → option S) (s : S) (l : list A) : option S :=
  match l with [] => Some s | x :: l => s ← f s x; for_each f s l end.

(** [a..=b]. *)
Definition range_incl (a b : nat) : list nat := seq a (S b - a).

Definition new (text : Text) : option StreamingDiff :=
  let old := decode text in
  scores ← for_each (λ m i, matrix_set m i 0 (f64_mul (f64_of_Z (Z.of_nat i)) DELETION_SCORE))
    (matrix_resize matrix_new (length old + 1) 1) (range_incl 0 (length old));
  Some (mkStreamingDiff old [] scores 0 0 ∅).

(** [equal_run as i32]. *)
Definition as_i32 (n : N) : Z := if (n <? 2 ^ 31)%N then Z.of_N n else (Z.of_N n - 2 ^ 32)%Z.

(** The score of one cell. *)
Definition score_cell (old new_text : list Char) (new_ix j : nat) (s : Matrix * gmap (nat * nat) N) (i : nat) : option (Matrix * gmap (nat * nat) N) :=
  let '(m, runs) := s in
  let relative_j := j - new_ix in
  above ← matrix_get m i (relative_j - 1);
  let insertion_score := f64_add above INSERTION_SCORE in
  left ← matrix_get m (i - 1) relative_j;
  let deletion_score := f64_add left DELETION_SCORE in
  o ← old !! (i - 1);
  n ← new_text !! (j - 1);
  '(equality_score, runs) ←
    (if (o =? n)%N then
       let equal_run := wrap_u32 (default 0%N (runs !! (i - 1, j - 1)) + 1) in
       let exponent := Z.min (Z.quot (as_i32 equal_run) 4) MAX_EQUALITY_EXPONENT in
       diagonal ← matrix_get m (i - 1) (relative_j - 1);
       Some (f64_add diagonal (powi EQUALITY_BASE exponent), <[(i, j) := equal_run]> runs)
     else Some (neg_infinity, runs));
  m ← matrix_set m i relative_j (f64_max (f64_max insertion_score deletion_score) equality_score);
  Some (m, runs).

Definition score_column (old new_text : list Char) (new_ix : nat) (s : Matrix * gmap (nat * nat) N) (j : nat) : option (Matrix * gmap (nat * nat) N) :=
  m ← matrix_set s.1 0 (j - new_ix) (f64_mul (f64_of_Z (Z.of_nat j)) INSERTION_SCORE);
  for_each (score_cell old new_text new_ix j) (m, s.2) (range_incl 1 (length old)).

(** ** Backtracking *)

(** [Option<OrderedFloat>]: [None] is least. *)
Definition key_cmp (x y : option f64) : comparison :=
  match x, y with
  | None, None => Eq
  | None, Some _ => Lt
  | Some _, None => Gt
  | Some x, Some y => ordered_cmp x y
  end.
(** [max_by_key]: of several greatest the last. *)
Fixpoint max_from {A} (best : A * option f64) (l : list (A * option f64)) : A :=
  match l with
  | [] => best.1
  | x :: l => max_from (match key_cmp best.2 x.2 with Gt => best | _ => x end) l
  end.
Definition max_by_key {A} (l : list (A * option f64)) : option A :=
  match l with [] => None | x :: l => Some (max_from x l) end.

Definition with_key (d : StreamingDiff) (cell : option (nat * nat)) : option (option (nat * nat) * option f64) :=
  match cell with
  | None => Some (None, None)
  | Some (i, j) => s ← matrix_get (scores d) i (j - new_text_ix d); Some (Some (i, j), Some s)
  end.

(** The cell before [(i, j)] on the best path. *)
Definition previous (d : StreamingDiff) (i j : nat) : option (nat * nat) :=
  let insertion_score := if new_text_ix d <? j then Some (i, j - 1) else None in
  let deletion_score := if old_text_ix d <? i then Some (i - 1, j) else None in
  equality_score ←
    (if (old_text_ix d <? i) && (new_text_ix d <? j) then
       o ← old d !! (i - 1); n ← new_text d !! (j - 1); Some (if (o =? n)%N then Some (i - 1, j - 1) else None)
     else Some None);
  keyed ← mapM (with_key d) [insertion_score; deletion_score; equality_score];
  cell ← max_by_key keyed; cell.

Definition push_delete (hunks : list CharOperation) (n : nat) : list CharOperation :=
  match last hunks with Some (Delete len) => removelast hunks ++ [Delete (len + n)] | _ => hunks ++ [Delete n] end.
Definition push_keep (hunks : list CharOperation) (n : nat) : list CharOperation :=
  match last hunks with Some (Keep len) => removelast hunks ++ [Keep (len + n)] | _ => hunks ++ [Keep n] end.
Definition flush_insert (d : StreamingDiff) (pending_insert : option (nat * nat)) (hunks : list CharOperation) : list CharOperation :=
  match pending_insert with
  | Some (s, e) => hunks ++ [Insert (encode (take (e - s) (drop s (new_text d))))]
  | None => hunks
  end.

Fixpoint backtrack_loop (fuel : nat) (d : StreamingDiff) (i j : nat) (pending_insert : option (nat * nat)) (hunks : list CharOperation)
  : option (list CharOperation) :=
  if (i =? old_text_ix d) && (j =? new_text_ix d) then Some (rev (flush_insert d pending_insert hunks))
  else match fuel with
  | O => None
  | S fuel =>
      '(prev_i, prev_j) ← previous d i j;
      if (prev_i =? i) && (prev_j =? j - 1) then
        backtrack_loop fuel d prev_i prev_j (Some (prev_j, match pending_insert with Some (_, e) => e | None => j end)) hunks
      else
        let hunks := flush_insert d pending_insert hunks in
        c ← old d !! (i - 1);
        let hunks := if (prev_i =? i - 1) && (prev_j =? j) then push_delete hunks (len_utf8 c) else push_keep hunks (len_utf8 c) in
        backtrack_loop fuel d prev_i prev_j None hunks
  end.
Definition backtrack (d : StreamingDiff) (old_ix new_ix : nat) : option (list CharOperation) :=
  backtrack_loop ((old_ix - old_text_ix d) + (new_ix - new_text_ix d)) d old_ix new_ix None [].

(** ** Pushing text *)

(** The first of the best-scoring rows of the last column. *)
Definition best_row (d : StreamingDiff) (next_new_ix : nat) : option (f64 * nat) :=
  for_each (λ b i, score ← matrix_get (scores d) i (next_new_ix - new_text_ix d);
      Some (if f64_gtb score b.1 then (score, i) else b))
    (neg_infinity, old_text_ix d) (range_incl (old_text_ix d) (length (old d))).

Definition push_new (d : StreamingDiff) (text : Text) : option (list CharOperation * StreamingDiff) :=
  let new_text := new_text d ++ decode text in
  last_column ← checked_sub (cols (scores d)) 1;
  m ← swap_columns (scores d) 0 last_column;
  let m := matrix_resize m (length (old d) + 1) (length new_text - new_text_ix d + 1) in
  let runs := filter (λ r, r.1.2 = new_text_ix d) (equal_runs d) in
  '(m, runs) ← for_each (score_column (old d) new_text (new_text_ix d)) (m, runs) (range_incl (new_text_ix d + 1) (length new_text));
  let d := mkStreamingDiff (old d) new_text m (old_text_ix d) (new_text_ix d) runs in
  '(_, next_old_ix) ← best_row d (length new_text);
  hunks ← backtrack d next_old_ix (length new_text);
  Some (hunks, mkStreamingDiff (old d) new_text m next_old_ix (length new_text) runs).

Definition finish (d : StreamingDiff) : option (list CharOperation) := backtrack d (length (old d)) (length (new_text d)).

(** A whole diff: every piece pushed, then finished. *)
Fixpoint push_all (d : StreamingDiff) (pieces : list Text) : option (list CharOperation * StreamingDiff) :=
  match pieces with
  | [] => Some ([], d)
  | p :: pieces => '(ops, d) ← push_new d p; '(rest, d) ← push_all d pieces; Some (ops ++ rest, d)
  end.
Definition diff (old_text : Text) (pieces : list Text) : option (list CharOperation) :=
  d ← new old_text; '(ops, d) ← push_all d pieces; rest ← finish d; Some (ops ++ rest).

(** What the operations do to the old text: the text they write and what they
    leave unread. *)
Fixpoint apply_ops (ops : list CharOperation) (t : Text) : option (Text * Text) :=
  match ops with
  | [] => Some ([], t)
  | Insert u :: ops => '(w, r) ← apply_ops ops t; Some (u ++ w, r)
  | Delete n :: ops => if n <=? length t then apply_ops ops (drop n t) else None
  | Keep n :: ops => if n <=? length t then '(w, r) ← apply_ops ops (drop n t); Some (take n t ++ w, r) else None
  end.

Module StreamingDiffExamples.
Definition text_of (cs : list N) : Text := encode cs.
Definition before : Text := text_of [97; 98; 99; 10; 100; 233; 102]%N.
Definition pieces : list Text := [text_of [97; 98]; text_of [120; 10; 100]; text_of [233; 103; 10]]%N.
End StreamingDiffExamples.
