(* ===== verification/StreamingDiffOk.v ===== *)
(** * Streaming diffs are diffs

    However the new text is cut into pieces, and whatever the scores, the
    operations [StreamingDiff] returns turn the old text into the new one. *)

From Stdlib Require Import SpecFloat.
From S2P Require Import Prelude Text Bitmap Utf8 Chunk ChunkBits Float StreamingDiff.

Implicit Types (m : Matrix) (d : StreamingDiff) (ops : list CharOperation).

(** ** Matrices of a shape *)

Record shape (m : Matrix) (r c : nat) : Prop := {
  sh_rows : rows m = r;
  sh_cols : cols m = c;
  sh_cells : length (cells m) = r * c;
}.

Lemma cell_lt r c i j : i < r → j < c → j * r + i < r * c.
Proof. intros. assert (S j * r ≤ c * r) by (apply Nat.mul_le_mono_r; lia). lia. Qed.

Lemma matrix_get_ok m r c i j : shape m r c → i < r → j < c → is_Some (matrix_get m i j).
Proof.
  intros [<- <- Hl] Hi Hj. unfold matrix_get. rewrite !(proj2 (Nat.leb_gt _ _)) by done. apply lookup_lt_is_Some. rewrite Hl. by apply cell_lt.
Qed.

Lemma matrix_set_ok m r c i j x : shape m r c → i < r → j < c → ∃ m', matrix_set m i j x = Some m' ∧ shape m' r c.
Proof.
  intros [<- <- Hl] Hi Hj. unfold matrix_set. rewrite !(proj2 (Nat.leb_gt _ _)) by done.
  rewrite (proj2 (Nat.ltb_lt _ _)) by (rewrite Hl; by apply cell_lt). eexists. split; [done|]. split; cbn; [done..|]. by rewrite length_insert.
Qed.

Lemma vec_resize_length {A} (l : list A) n x : length (vec_resize l n x) = n.
Proof. unfold vec_resize. rewrite length_app, length_take, length_replicate. lia. Qed.
Lemma resize_shape m r c : shape (matrix_resize m r c) r c.
Proof. split; [done..|]. cbn. apply vec_resize_length. Qed.

Lemma get_range_ok {A} (l : list A) i n : i + n ≤ length l → ∃ k, get_range l i n = Some k ∧ length k = n.
Proof.
  intros H. unfold get_range. rewrite (proj2 (Nat.leb_le _ _)) by done. eexists. split; [done|]. rewrite length_take, length_drop. lia.
Qed.
Lemma set_range_length {A} (l : list A) i k : i + length k ≤ length l → length (set_range l i k) = length l.
Proof. intros H. unfold set_range. rewrite !length_app, length_take, length_drop. lia. Qed.

Lemma swap_columns_ok m r c j : shape m r c → j < c → ∃ m', swap_columns m 0 j = Some m' ∧ shape m' r c.
Proof.
  intros Hs Hj. unfold swap_columns. destruct (0 =? j); [by exists m|]. destruct Hs as [<- <- Hl]. rewrite !(proj2 (Nat.leb_gt _ _)) by lia.
  assert (∀ k, k < cols m → k * rows m + rows m ≤ length (cells m)) as Hin.
  { intros k Hk. rewrite Hl. assert (S k * rows m ≤ cols m * rows m) by (apply Nat.mul_le_mono_r; lia). lia. }
  destruct (get_range_ok (cells m) (0 * rows m) (rows m)) as (a & -> & Ha); [apply Hin; lia|].
  destruct (get_range_ok (cells m) (j * rows m) (rows m)) as (b & -> & Hb); [by apply Hin|].
  cbn [mbind option_bind]. eexists. split; [done|]. split; cbn [rows cols cells]; [done..|].
  rewrite !set_range_length; [done|rewrite Hb; apply Hin; lia|]. rewrite set_range_length by (rewrite Hb; apply Hin; lia). rewrite Ha. by apply Hin.
Qed.

(** ** Loops *)

Lemma for_each_inv {S A} (P : S → Prop) (f : S → A → option S) l s :
  (∀ s x, P s → x ∈ l → ∃ s', f s x = Some s' ∧ P s') → P s → ∃ s', for_each f s l = Some s' ∧ P s'.
Proof.
  revert s. induction l as [|x l IH]; intros s Hf Hs; [by exists s|]. cbn [for_each].
  destruct (Hf s x Hs) as (s' & -> & Hs'); [apply list_elem_of_here|]. cbn [mbind option_bind].
  apply IH; [|done]. intros s0 y Hs0 Hy. apply Hf; [done|]. by apply list_elem_of_further.
Qed.

Lemma elem_of_range a b x : x ∈ range_incl a b → a ≤ x ≤ b.
Proof. unfold range_incl. intros H%elem_of_seq. lia. Qed.

(** ** Scoring stays within the matrix *)

Lemma score_cell_ok olds news new_ix j c m runs i : shape m (length olds + 1) c → new_ix < j ≤ length news → j - new_ix < c → 1 ≤ i ≤ length olds →
  ∃ s, score_cell olds news new_ix j (m, runs) i = Some s ∧ shape s.1 (length olds + 1) c.
Proof.
  intros Hs Hj Hc Hi. unfold score_cell.
  destruct (matrix_get_ok m _ c i (j - new_ix - 1) Hs) as [above ->]; [lia..|]. destruct (matrix_get_ok m _ c (i - 1) (j - new_ix) Hs) as [left ->]; [lia..|].
  destruct (lookup_lt_is_Some_2 olds (i - 1)) as [o ->]; [lia|]. destruct (lookup_lt_is_Some_2 news (j - 1)) as [n ->]; [lia|]. cbn [mbind option_bind].
  destruct (matrix_get_ok m _ c (i - 1) (j - new_ix - 1) Hs) as [diag ->]; [lia..|]. cbn [mbind option_bind].
  assert (∀ x, ∃ m', matrix_set m i (j - new_ix) x = Some m' ∧ shape m' (length olds + 1) c) as Hset by (intros x; apply matrix_set_ok; [done|lia..]).
  destruct (o =? n)%N; cbn [mbind option_bind];
    (match goal with |- context [matrix_set m i _ ?x] => destruct (Hset x) as (m' & -> & Hs') end; cbn [mbind option_bind]; by eexists).
Qed.

Lemma score_columns_ok olds news new_ix m runs : new_ix ≤ length news → shape m (length olds + 1) (length news - new_ix + 1) →
  ∃ s, for_each (score_column olds news new_ix) (m, runs) (range_incl (new_ix + 1) (length news)) = Some s ∧
    shape s.1 (length olds + 1) (length news - new_ix + 1).
Proof.
  intros Hn Hs. apply (for_each_inv (λ s, shape s.1 (length olds + 1) (length news - new_ix + 1))); [|done].
  intros [m' runs'] j Hm' Hj%elem_of_range. unfold score_column. cbn [fst snd] in *.
  destruct (matrix_set_ok m' _ _ 0 (j - new_ix) (f64_mul (f64_of_Z (Z.of_nat j)) INSERTION_SCORE) Hm') as (m1 & -> & Hm1); [lia..|]. cbn [mbind option_bind].
  apply (for_each_inv (λ s, shape s.1 (length olds + 1) (length news - new_ix + 1))); [|done].
  intros [m2 runs2] i Hm2 Hi%elem_of_range. cbn [fst] in Hm2. apply score_cell_ok; [done|lia..].
Qed.

(** ** What operations do *)

(** The operations read the encoding of [a] and write the encoding of [b]. *)
Definition turns (ops : list CharOperation) (a b : list Char) : Prop := ∀ rest, apply_ops ops (encode a ++ rest) = Some (encode b, rest).

Lemma turns_nil : turns [] [] [].
Proof. intros rest. done. Qed.

Lemma apply_ops_app o1 o2 t w r : apply_ops o1 t = Some (w, r) → apply_ops (o1 ++ o2) t = '(w', r') ← apply_ops o2 r; Some (w ++ w', r').
Proof.
  revert t w r. induction o1 as [|[u|n|n] o1 IH]; intros t w r; cbn [apply_ops app].
  - intros [= <- <-]. by destruct (apply_ops o2 t) as [[? ?]|].
  - destruct (apply_ops o1 t) as [[w1 r1]|] eqn:E; [|done]. cbn [mbind option_bind]. intros [= <- <-]. rewrite (IH _ _ _ E).
    destruct (apply_ops o2 r1) as [[? ?]|]; [|done]. cbn. by rewrite app_assoc.
  - destruct (n <=? length t); [|done]. apply IH.
  - destruct (n <=? length t); [|done]. destruct (apply_ops o1 (drop n t)) as [[w1 r1]|] eqn:E; [|done]. cbn [mbind option_bind].
    intros [= <- <-]. rewrite (IH _ _ _ E). destruct (apply_ops o2 r1) as [[? ?]|]; [|done]. cbn. by rewrite app_assoc.
Qed.

Lemma turns_app o1 o2 a1 a2 b1 b2 : turns o1 a1 b1 → turns o2 a2 b2 → turns (o1 ++ o2) (a1 ++ a2) (b1 ++ b2).
Proof.
  intros H1 H2 rest. rewrite !encode_app, <- app_assoc. rewrite (apply_ops_app _ _ _ _ _ (H1 _)), H2. done.
Qed.

Lemma turns_insert ops a b c : turns ops a b → turns (Insert (encode c) :: ops) a (c ++ b).
Proof. intros H rest. cbn [apply_ops]. rewrite H. cbn [mbind option_bind]. by rewrite encode_app. Qed.

(** A character more for the first deletion or the first keep. *)
Lemma turns_delete len ops a b c : turns (Delete len :: ops) a b → turns (Delete (len + len_utf8 c) :: ops) (c :: a) b.
Proof.
  intros H rest. specialize (H rest). cbn [apply_ops] in *. rewrite encode_cons, <- app_assoc. pose proof (encode_char_length c) as Hl.
  rewrite length_app, Hl. destruct (Nat.leb_spec len (length (encode a ++ rest))); [|done]. rewrite (proj2 (Nat.leb_le _ _)) by lia.
  rewrite Nat.add_comm, <- drop_drop, <- Hl, drop_app_length. done.
Qed.
Lemma turns_keep len ops a b c : turns (Keep len :: ops) a b → turns (Keep (len + len_utf8 c) :: ops) (c :: a) (c :: b).
Proof.
  intros H rest. specialize (H rest). cbn [apply_ops] in *. rewrite !encode_cons, <- app_assoc. pose proof (encode_char_length c) as Hl.
  rewrite length_app, Hl. destruct (Nat.leb_spec len (length (encode a ++ rest))) as [Hle|]; [|done]. rewrite (proj2 (Nat.leb_le _ _)) by lia.
  rewrite Nat.add_comm, <- drop_drop, <- Hl, drop_app_length. destruct (apply_ops ops (drop len (encode a ++ rest))) as [[w r]|]; [|done].
  cbn [mbind option_bind] in *. injection H as <- <-. f_equal. f_equal. rewrite take_app_add', app_assoc by done. done.
Qed.
Lemma turns_one_delete ops a b c : turns ops a b → turns (Delete (len_utf8 c) :: ops) (c :: a) b.
Proof.
  intros H. change (len_utf8 c) with (0 + len_utf8 c). apply turns_delete. intros rest. cbn [apply_ops Nat.leb]. rewrite drop_0. apply H.
Qed.
Lemma turns_one_keep ops a b c : turns ops a b → turns (Keep (len_utf8 c) :: ops) (c :: a) (c :: b).
Proof.
  intros H. change (len_utf8 c) with (0 + len_utf8 c). apply turns_keep. intros rest. cbn [apply_ops Nat.leb]. rewrite drop_0, H. done.
Qed.

Lemma push_delete_turns hunks a b c : turns (rev hunks) a b → turns (rev (push_delete hunks (len_utf8 c))) (c :: a) b.
Proof.
  intros H. unfold push_delete. destruct hunks as [|x hunks _] using rev_ind; [by apply turns_one_delete|].
  rewrite last_snoc, removelast_last. rewrite rev_app_distr in H. cbn [rev app] in H.
  destruct x as [u|n|n]; rewrite !rev_app_distr; cbn [rev app]; [|by apply turns_delete|]; by apply turns_one_delete.
Qed.
Lemma push_keep_turns hunks a b c : turns (rev hunks) a b → turns (rev (push_keep hunks (len_utf8 c))) (c :: a) (c :: b).
Proof.
  intros H. unfold push_keep. destruct hunks as [|x hunks _] using rev_ind; [by apply turns_one_keep|].
  rewrite last_snoc, removelast_last. rewrite rev_app_distr in H. cbn [rev app] in H.
  destruct x as [u|n|n]; rewrite !rev_app_distr; cbn [rev app]; [| |by apply turns_keep]; by apply turns_one_keep.
Qed.

(** ** Backtracking *)

(** The part of a list from [s] to [e]. *)
Definition part {A} (l : list A) (s e : nat) : list A := take (e - s) (drop s l).

Lemma part_nil {A} (l : list A) s : part l s s = [].
Proof. unfold part. by rewrite Nat.sub_diag. Qed.
Lemma part_app {A} (l : list A) a b c : a ≤ b ≤ c → part l a c = part l a b ++ part l b c.
Proof.
  intros H. unfold part. replace (c - a) with ((b - a) + (c - b)) by lia. rewrite <- take_take_drop, drop_drop. do 3 f_equal. lia.
Qed.
Lemma part_cons {A} (l : list A) i e c : l !! (i - 1) = Some c → 1 ≤ i ≤ e → part l (i - 1) e = c :: part l i e.
Proof.
  intros Hc Hi. rewrite (part_app l (i - 1) i e) by lia. change (c :: part l i e) with ([c] ++ part l i e). f_equal.
  unfold part. replace (i - (i - 1)) with 1 by lia. by rewrite (drop_S_lookup _ _ _ Hc).
Qed.

(** The matrix has the columns that backtracking looks at. *)
Record wide (d : StreamingDiff) : Prop := {
  wd_shape : ∃ c, shape (scores d) (length (old d) + 1) c ∧ length (new_text d) - new_text_ix d < c;
  wd_old : old_text_ix d ≤ length (old d);
  wd_new : new_text_ix d ≤ length (new_text d);
}.

Lemma max_from_some {A} best (l : list (A * option f64)) : (∃ y, y ∈ best :: l ∧ is_Some y.2) →
  ∃ x, max_from best l = x.1 ∧ x ∈ best :: l ∧ is_Some x.2.
Proof.
  revert best. induction l as [|x l IH]; intros best (y & Hy & Hs); cbn [max_from].
  - apply list_elem_of_singleton in Hy as ->. exists best. split; [done|]. split; [apply list_elem_of_here|done].
  - edestruct (IH (match key_cmp best.2 x.2 with Gt => best | _ => x end)) as (z & Hz & Hin & Hsz).
    + apply elem_of_cons in Hy as [->|Hy]; [|apply elem_of_cons in Hy as [->|Hy]].
      * eexists. split; [apply list_elem_of_here|]. destruct Hs as [k Hk]. rewrite Hk. destruct (key_cmp (Some k) x.2) eqn:E; [| |by rewrite Hk].
        all: destruct (x.2); done.
      * eexists. split; [apply list_elem_of_here|]. destruct Hs as [k Hk]. rewrite Hk. destruct (best.2) eqn:Eb; cbn [key_cmp]; [|by rewrite Hk].
        destruct (ordered_cmp _ _); by rewrite ?Hk, ?Eb.
      * exists y. split; [by apply list_elem_of_further|done].
    + exists z. split; [done|]. split; [|done]. apply elem_of_cons in Hin as [->|Hin]; [|by do 2 apply list_elem_of_further].
      destruct (key_cmp _ _); [apply list_elem_of_further, list_elem_of_here..|apply list_elem_of_here].
Qed.

(** The steps a path may take. *)
Inductive step (d : StreamingDiff) (i j : nat) : nat * nat → Prop :=
  | step_insert : new_text_ix d < j → step d i j (i, j - 1)
  | step_delete : old_text_ix d < i → step d i j (i - 1, j)
  | step_keep c : old_text_ix d < i → new_text_ix d < j → old d !! (i - 1) = Some c → new_text d !! (j - 1) = Some c → step d i j (i - 1, j - 1).

Lemma with_key_ok d cell i j : wide d → i ≤ length (old d) → j ≤ length (new_text d) → (∀ p, cell = Some p → p.1 ≤ i ∧ p.2 ≤ j) →
  ∃ k, with_key d cell = Some (cell, k) ∧ (is_Some k ↔ is_Some cell).
Proof.
  intros [(c & Hs & Hc) _ _] Hi Hj Hp. destruct cell as [[a b]|]; [|by exists None]. destruct (Hp _ eq_refl) as [Ha Hb]. cbn in Ha, Hb.
  destruct (matrix_get_ok (scores d) _ c a (b - new_text_ix d) Hs) as [x Hx]; [lia..|]. exists (Some x). cbn [with_key]. rewrite Hx. split; [done|]. split; by eexists.
Qed.

Lemma previous_ok d i j : wide d → old_text_ix d ≤ i ≤ length (old d) → new_text_ix d ≤ j ≤ length (new_text d) →
  old_text_ix d < i ∨ new_text_ix d < j → ∃ p, previous d i j = Some p ∧ step d i j p.
Proof.
  intros Hw Hi Hj Hne. unfold previous.
  assert (∃ eq, (if (old_text_ix d <? i) && (new_text_ix d <? j)
      then o ← old d !! (i - 1); n ← new_text d !! (j - 1); Some (if (o =? n)%N then Some (i - 1, j - 1) else None)
      else Some None) = Some eq ∧ ∀ p, eq = Some p → step d i j p ∧ p.1 ≤ i ∧ p.2 ≤ j) as (eq & -> & Heq).
  { destruct (Nat.ltb_spec (old_text_ix d) i) as [H1|]; [|by exists None]. destruct (Nat.ltb_spec (new_text_ix d) j) as [H2|]; [|by exists None]. cbn [andb].
    destruct (lookup_lt_is_Some_2 (old d) (i - 1)) as [o Ho]; [lia|]. destruct (lookup_lt_is_Some_2 (new_text d) (j - 1)) as [n Hn]; [lia|].
    rewrite Ho, Hn. cbn [mbind option_bind]. destruct (N.eqb_spec o n) as [->|]; [|by exists None]. eexists. split; [done|]. intros p [= <-].
    split; [by econstructor|]. cbn. lia. }
  cbn [mbind option_bind].
  set (ins := if new_text_ix d <? j then Some (i, j - 1) else None). set (del := if old_text_ix d <? i then Some (i - 1, j) else None).
  assert (∀ p, ins = Some p → step d i j p ∧ p.1 ≤ i ∧ p.2 ≤ j) as Hins.
  { unfold ins. intros p. destruct (Nat.ltb_spec (new_text_ix d) j); [|done]. intros [= <-]. split; [by constructor|cbn; lia]. }
  assert (∀ p, del = Some p → step d i j p ∧ p.1 ≤ i ∧ p.2 ≤ j) as Hdel.
  { unfold del. intros p. destruct (Nat.ltb_spec (old_text_ix d) i); [|done]. intros [= <-]. split; [by constructor|cbn; lia]. }
  destruct (with_key_ok d ins i j) as (k1 & E1 & K1); [done|lia|lia|by intros p Hp; apply Hins|].
  destruct (with_key_ok d del i j) as (k2 & E2 & K2); [done|lia|lia|by intros p Hp; apply Hdel|].
  destruct (with_key_ok d eq i j) as (k3 & E3 & K3); [done|lia|lia|by intros p Hp; apply Heq|].
  cbn [mapM]. rewrite E1, E2, E3. cbn [mbind option_bind mret option_ret max_by_key].
  destruct (max_from_some (ins, k1) [(del, k2); (eq, k3)]) as (x & -> & Hx & Hsx).
  { destruct Hne as [Hlt|Hlt].
    - exists (del, k2). split; [by do 2 constructor|]. apply K2. unfold del. rewrite (proj2 (Nat.ltb_lt _ _)) by done. done.
    - exists (ins, k1). split; [constructor|]. apply K1. unfold ins. rewrite (proj2 (Nat.ltb_lt _ _)) by done. done. }
  rewrite !elem_of_cons, elem_of_nil in Hx. destruct Hx as [->|[->|[->|[]]]]; cbn [fst snd mbind option_bind] in *.
  - apply K1 in Hsx as [p Hp]. exists p. split; [done|by apply Hins].
  - apply K2 in Hsx as [p Hp]. exists p. split; [done|by apply Hdel].
  - apply K3 in Hsx as [p Hp]. exists p. split; [done|by apply Heq].
Qed.

(** What backtracking has collected at [(i, j)] on its way from [(I, J)]: the
    hunks, with the pending insertion up to [e]. *)
Record tracked (d : StreamingDiff) (I J i j : nat) (pending : option (nat * nat)) (hunks : list CharOperation) : Prop := {
  tr_old : old_text_ix d ≤ i ≤ I;
  tr_new : new_text_ix d ≤ j ≤ J;
  tr_pending : ∀ s e, pending = Some (s, e) → s = j ∧ j ≤ e ≤ J;
  tr_turns : turns (rev hunks) (part (old d) i I) (part (new_text d) (match pending with Some (_, e) => e | None => j end) J);
}.

Lemma flush_turns d I J i j pending hunks : tracked d I J i j pending hunks →
  turns (rev (flush_insert d pending hunks)) (part (old d) i I) (part (new_text d) j J).
Proof.
  intros [Hi Hj Hp Ht]. unfold flush_insert. destruct pending as [[s e]|]; [|done]. destruct (Hp s e eq_refl) as [-> He].
  rewrite rev_app_distr. cbn [rev app]. rewrite (part_app (new_text d) j e J) by lia. by apply turns_insert.
Qed.

(** One step keeps the invariant, through the hunks the loop pushes. *)
Lemma tracked_insert d I J i j pending hunks : tracked d I J i j pending hunks → new_text_ix d < j →
  tracked d I J i (j - 1) (Some (j - 1, match pending with Some (_, e) => e | None => j end)) hunks.
Proof.
  intros [Hi Hj Hp Ht] Hlt. split; [done|lia| |done]. intros s e [= <- <-]. split; [done|].
  destruct pending as [[s' e']|]; [destruct (Hp _ _ eq_refl); lia|lia].
Qed.
Lemma tracked_delete d I J i j pending hunks c : tracked d I J i j pending hunks → old_text_ix d < i → old d !! (i - 1) = Some c →
  tracked d I J (i - 1) j None (push_delete (flush_insert d pending hunks) (len_utf8 c)).
Proof.
  intros Htr Hlt Hc. pose proof (flush_turns _ _ _ _ _ _ _ Htr) as Hf. destruct Htr as [Hi Hj _ _].
  split; [lia|done|done|]. rewrite (part_cons _ _ _ _ Hc) by lia. by apply push_delete_turns.
Qed.
Lemma tracked_keep d I J i j pending hunks c : tracked d I J i j pending hunks → old_text_ix d < i → new_text_ix d < j →
  old d !! (i - 1) = Some c → new_text d !! (j - 1) = Some c →
  tracked d I J (i - 1) (j - 1) None (push_keep (flush_insert d pending hunks) (len_utf8 c)).
Proof.
  intros Htr Hlt Hlt' Hc Hc'. pose proof (flush_turns _ _ _ _ _ _ _ Htr) as Hf. destruct Htr as [Hi Hj _ _].
  split; [lia|lia|done|]. rewrite (part_cons _ _ _ _ Hc), (part_cons _ _ _ _ Hc') by lia. by apply push_keep_turns.
Qed.

Lemma backtrack_loop_ok fuel d I J i j pending hunks : wide d → I ≤ length (old d) → J ≤ length (new_text d) → tracked d I J i j pending hunks →
  (i - old_text_ix d) + (j - new_text_ix d) ≤ fuel →
  ∃ ops, backtrack_loop fuel d i j pending hunks = Some ops ∧ turns ops (part (old d) (old_text_ix d) I) (part (new_text d) (new_text_ix d) J).
Proof.
  intros Hw HI HJ. revert i j pending hunks. induction fuel as [|fuel IH]; intros i j pending hunks Htr Hf;
    pose proof (tr_old _ _ _ _ _ _ _ Htr); pose proof (tr_new _ _ _ _ _ _ _ Htr); cbn [backtrack_loop];
    destruct (Nat.eqb_spec i (old_text_ix d)) as [->|Hi]; destruct (Nat.eqb_spec j (new_text_ix d)) as [->|Hj]; cbn [andb]; try lia.
  1, 2: eexists; split; [done|by apply flush_turns].
  all: match goal with Hw : wide ?d |- context [previous ?d ?a ?b] => destruct (previous_ok d a b Hw) as (p & -> & Hp); [lia..|] end.
  all: cbn [mbind option_bind]; destruct Hp as [Hlt|Hlt|c Hlt Hlt' Hc Hc'].
  all: repeat first [rewrite Nat.eqb_refl | rewrite (proj2 (Nat.eqb_neq _ _)) by lia]; cbn [andb].
  all: try lia.
  all: try (apply IH; [by apply tracked_insert|lia]).
  all: match goal with
    | Hc : old ?d !! _ = Some _ |- _ => rewrite Hc; cbn [mbind option_bind]; apply IH; [by apply tracked_keep|lia]
    | |- context [old ?d !! ?k] => destruct (lookup_lt_is_Some_2 (old d) k) as [c Hc]; [lia|]; rewrite Hc; cbn [mbind option_bind];
        apply IH; [by apply tracked_delete|lia]
    end.
Qed.

Lemma backtrack_ok d I J : wide d → old_text_ix d ≤ I ≤ length (old d) → new_text_ix d ≤ J ≤ length (new_text d) →
  ∃ ops, backtrack d I J = Some ops ∧ turns ops (part (old d) (old_text_ix d) I) (part (new_text d) (new_text_ix d) J).
Proof.
  intros Hw HI HJ. apply backtrack_loop_ok; [done|lia|lia| |done]. split; [lia|lia|done|]. rewrite !part_nil. apply turns_nil.
Qed.

(** ** Pushing and finishing *)

(** Between pushes everything pushed has been turned into operations. *)
Record ready (d : StreamingDiff) : Prop := {
  rd_wide : wide d;
  rd_new : new_text_ix d = length (new_text d);
}.

Lemma new_ok t : ∃ d, new t = Some d ∧ ready d ∧ old d = decode t ∧ new_text d = [] ∧ old_text_ix d = 0.
Proof.
  unfold new. destruct (for_each_inv (λ m, shape m (length (decode t) + 1) 1)
    (λ m i, matrix_set m i 0 (f64_mul (f64_of_Z (Z.of_nat i)) DELETION_SCORE)) (range_incl 0 (length (decode t)))
    (matrix_resize matrix_new (length (decode t) + 1) 1)) as (m & -> & Hm); [|apply resize_shape|].
  - intros m i Hm Hi%elem_of_range. apply matrix_set_ok; [done|lia|lia].
  - cbn [mbind option_bind]. eexists. split; [done|]. split; [|done]. split; [|done]. split; cbn; [|lia|done]. exists 1. split; [done|lia].
Qed.

Lemma best_row_ok d j c : shape (scores d) (length (old d) + 1) c → j - new_text_ix d < c → old_text_ix d ≤ length (old d) →
  ∃ b, best_row d j = Some b ∧ old_text_ix d ≤ b.2 ≤ length (old d).
Proof.
  intros Hs Hj Ho. unfold best_row. apply (for_each_inv (λ b, old_text_ix d ≤ b.2 ≤ length (old d))); [|done].
  intros b i Hb Hi%elem_of_range. destruct (matrix_get_ok (scores d) _ c i (j - new_text_ix d) Hs) as [x ->]; [lia..|]. cbn [mbind option_bind].
  eexists. split; [done|]. by destruct (f64_gtb _ _).
Qed.

Lemma push_new_ok d t : ready d → ∃ ops d', push_new d t = Some (ops, d') ∧ ready d' ∧ old d' = old d ∧ new_text d' = new_text d ++ decode t ∧
  old_text_ix d ≤ old_text_ix d' ∧ turns ops (part (old d) (old_text_ix d) (old_text_ix d')) (decode t).
Proof.
  intros [[(c & Hs & Hc) Ho Hn] Heq]. unfold push_new. set (new' := new_text d ++ decode t). assert (length new' = length (new_text d) + length (decode t)) as Hl by apply length_app.
  unfold checked_sub. rewrite (sh_cols _ _ _ Hs), (proj2 (Nat.leb_le _ _)) by lia. cbn [mbind option_bind].
  destruct (swap_columns_ok _ _ _ (c - 1) Hs) as (m1 & -> & _); [lia|]. cbn [mbind option_bind].
  destruct (score_columns_ok (old d) new' (new_text_ix d) (matrix_resize m1 (length (old d) + 1) (length new' - new_text_ix d + 1))
    (filter (λ r, r.1.2 = new_text_ix d) (equal_runs d))) as ([m runs] & -> & Hm); [lia|apply resize_shape|].
  cbn [mbind option_bind fst] in *. set (d1 := mkStreamingDiff (old d) new' m (old_text_ix d) (new_text_ix d) runs).
  destruct (best_row_ok d1 (length new') _ Hm) as ([sc ix] & -> & Hix); [cbn; lia|done|]. cbn [mbind option_bind snd] in *.
  assert (wide d1) as Hw by (split; cbn; [by eexists; split; [exact Hm|lia]|done|lia]).
  destruct (backtrack_ok d1 ix (length new') Hw) as (ops & -> & Ht); [done|cbn; lia|]. cbn [mbind option_bind].
  eexists _, _. split; [done|]. cbn. split_and!; [|done|done|apply Hix|].
  - split; [|done]. split; cbn; [|apply Hix|done]. eexists. split; [exact Hm|lia].
  - cbn in Ht. unfold part at 2 in Ht. rewrite Heq in Ht. unfold new' in Ht at 2. rewrite drop_app_length, take_ge in Ht by lia. exact Ht.
Qed.

Lemma push_all_ok d ts : ready d → ∃ ops d', push_all d ts = Some (ops, d') ∧ ready d' ∧ old d' = old d ∧ old_text_ix d ≤ old_text_ix d' ∧
  turns ops (part (old d) (old_text_ix d) (old_text_ix d')) (concat (decode <$> ts)).
Proof.
  revert d. induction ts as [|t ts IH]; intros d Hd; cbn [push_all].
  - eexists _, _. split; [done|]. split_and!; [done..|]. rewrite part_nil. apply turns_nil.
  - destruct (push_new_ok d t Hd) as (o1 & d1 & -> & Hd1 & E1 & _ & Hix1 & Ht1). cbn [mbind option_bind].
    destruct (IH d1 Hd1) as (o2 & d2 & -> & Hd2 & E2 & Hix2 & Ht2). cbn [mbind option_bind]. eexists _, _. split; [done|].
    split_and!; [done|by rewrite E2|lia|]. rewrite (part_app (old d) _ (old_text_ix d1)) by lia. rewrite E1 in Ht2. cbn. by apply turns_app.
Qed.

(** C8: However the new text is cut into pieces, [push_new] on each piece and
    [finish] never panic, and their operations, applied in order to the old
    text, read all of it and write exactly the new text. *)
Theorem streaming_diff_correct old_text pieces : utf8 old_text → Forall utf8 pieces →
  ∃ ops, diff old_text pieces = Some ops ∧ apply_ops ops old_text = Some (concat pieces, []).
Proof.
  intros (cs & Hcs & ->) Hp. unfold diff. destruct (new_ok (encode cs)) as (d & -> & Hd & Eo & En & Eix). cbn [mbind option_bind].
  destruct (push_all_ok d pieces Hd) as (o1 & d1 & -> & [Hw1 Hn1] & E1 & Hix & Ht1). cbn [mbind option_bind].
  destruct (backtrack_ok d1 (length (old d1)) (length (new_text d1)) Hw1) as (o2 & E2 & Ht2); [destruct Hw1; lia..|].
  unfold finish. rewrite E2. cbn [mbind option_bind]. eexists. split; [done|].
  rewrite Hn1, part_nil, E1 in Ht2. pose proof (turns_app _ _ _ _ _ _ Ht1 Ht2 []) as H.
  rewrite <- part_app, Eix, Eo, decode_encode in H by (done || destruct Hw1; rewrite ?E1 in *; lia).
  unfold part in H. rewrite drop_0, take_ge, !app_nil_r in H by lia. rewrite H. f_equal. f_equal.
  clear - Hp. induction Hp as [|t ts (ds & Hds & ->) _ IH]; [done|]. cbn [fmap list_fmap concat]. by rewrite encode_app, decode_encode, IH.
Qed.

Lemma streaming_diff_correct_witness :
  ∃ ops, diff StreamingDiffExamples.before StreamingDiffExamples.pieces = Some ops ∧
    apply_ops ops StreamingDiffExamples.before = Some (concat StreamingDiffExamples.pieces, []) .
Proof.
  apply streaming_diff_correct; unfold StreamingDiffExamples.pieces, StreamingDiffExamples.before, StreamingDiffExamples.text_of.
  - eexists. split; [|reflexivity]. repeat constructor.
  - repeat constructor; eexists; (split; [|reflexivity]); repeat constructor.
Defined.
