(* ===== verification/RopeChunks.v ===== *)
(** * Iterating over ropes ([Chunks] of [crates/rope/src/rope.rs])

    The iterators walk the chunks of a range in either direction with a tree
    cursor, which is here the place it has reached in the sequence of chunks.
    A rope compared with a string, and the prefix and suffix tests, are loops
    over these iterators. *)

From S2P Require Import Prelude Text Bitmap Select Utf8 Summary Chunk Rope.

Section chunks.
Context (MAX_BASE : nat).
Abbreviation Rope := (list (Chunk * TextSummary)).
Implicit Types (r : list (Chunk * TextSummary)).

(** ** The tree cursor *)

(** Before the first chunk (after stepping back from it), at a chunk or past
    the last one, or made to seek forward from before the first chunk, which
    leaves it at the end without a position. *)
Inductive TreeCursor :=
  | BeforeFirst (all : Rope)
  | AtChunk (passed rest : Rope)
  | Astray (all : Rope).

Definition entries_len r : nat := foldl (λ n e, n + s_len e.2) 0 r.
Definition tc_all (c : TreeCursor) : Rope := match c with BeforeFirst l | Astray l => l | AtChunk a b => a ++ b end.
Definition tc_item (c : TreeCursor) : option Chunk := match c with AtChunk _ ((k, _) :: _) => Some k | _ => None end.
Definition tc_start (c : TreeCursor) : nat := match c with AtChunk a _ => entries_len a | _ => 0 end.
Definition tc_end (c : TreeCursor) : nat := match c with AtChunk a (e :: _) => entries_len a + s_len e.2 | _ => tc_start c end.

Definition tc_next (c : TreeCursor) : TreeCursor :=
  match c with
  | BeforeFirst l => AtChunk [] l
  | AtChunk a (e :: b) => AtChunk (a ++ [e]) b
  | _ => c
  end.
Definition tc_prev (c : TreeCursor) : TreeCursor :=
  match c with
  | BeforeFirst _ => c
  | AtChunk a b =>
      match last a with
      | Some e => AtChunk (removelast a) (e :: b)
      | None => match b with [] => c | _ => BeforeFirst b end
      end
  | Astray l => match last l with Some e => AtChunk (removelast l) [e] | None => c end
  end.

Definition seek_from (passed rest : Rope) (offset : nat) (bias : Bias) : TreeCursor :=
  let '(sk, _, rest) := seek_entries usize_dim (λ d, Nat.compare offset d) bias (entries_len passed) rest in AtChunk (passed ++ sk) rest.
Definition tc_seek (c : TreeCursor) (offset : nat) (bias : Bias) : TreeCursor := seek_from [] (tc_all c) offset bias.
(** [assert!] that the target is not behind. *)
Definition tc_seek_forward (c : TreeCursor) (offset : nat) (bias : Bias) : option TreeCursor :=
  if offset <? tc_start c then None
  else Some (match c with AtChunk a b => seek_from a b offset bias | BeforeFirst l | Astray l => Astray l end).

(** ** Chunks *)

Record Chunks := mkChunks {
  ck_cursor : TreeCursor;
  ck_range : nat * nat;
  ck_offset : nat;
  ck_reversed : bool;
}.

Definition chunks_new (r : Rope) (s e : nat) (reversed : bool) : option Chunks :=
  let '(offset, cursor) :=
    if reversed then (e, seek_from [] r e Cursor.Left) else (s, seek_from [] r s Cursor.Right) in
  chunk_offset ← checked_sub offset (tc_start cursor);
  if match tc_item cursor with Some chunk => chunk_is_char_boundary MAX_BASE chunk chunk_offset | None => true end
  then Some (mkChunks cursor (s, e) offset reversed) else None.

Definition offset_is_valid (c : Chunks) : bool :=
  if ck_reversed c then negb ((ck_offset c <=? (ck_range c).1) || ((ck_range c).2 <? ck_offset c))
  else negb ((ck_offset c <? (ck_range c).1) || ((ck_range c).2 <=? ck_offset c)).

(** The part of the current chunk that is left; the outer option is the panic. *)
Definition slice_range (c : Chunks) : option (nat * nat) :=
  let chunk_start := tc_start (ck_cursor c) in
  if ck_reversed c then
    e ← checked_sub (ck_offset c) chunk_start; Some (Nat.max chunk_start (ck_range c).1 - chunk_start, e)
  else
    s ← checked_sub (ck_offset c) chunk_start; e ← checked_sub (Nat.min (tc_end (ck_cursor c)) (ck_range c).2) chunk_start; Some (s, e).
Definition peek (c : Chunks) : option (option Text) :=
  if offset_is_valid c then
    match tc_item (ck_cursor c) with
    | None => Some None
    | Some chunk => '(s, e) ← slice_range c; t ← str_slice (text chunk) s e; Some (Some t)
    end
  else Some None.

Record ChunkBitmaps := mkBitmaps { cb_text : Text; cb_chars : N; cb_tabs : N; cb_newlines : N }.
Definition peek_with_bitmaps (c : Chunks) : option (option ChunkBitmaps) :=
  if offset_is_valid c then
    match tc_item (ck_cursor c) with
    | None => Some None
    | Some chunk =>
        '(s, e) ← slice_range c; t ← str_slice (text chunk) s e;
        b ← shr MAX_BASE (tabs chunk) s; k ← shr MAX_BASE (chars chunk) s; n ← shr MAX_BASE (newlines chunk) s;
        Some (Some (mkBitmaps t k b n))
    end
  else Some None.

Definition advance (c : Chunks) (len : nat) : option Chunks :=
  if ck_reversed c then
    o ← checked_sub (ck_offset c) len;
    Some (mkChunks (if o <=? tc_start (ck_cursor c) then tc_prev (ck_cursor c) else ck_cursor c) (ck_range c) o true)
  else
    let o := ck_offset c + len in
    Some (mkChunks (if tc_end (ck_cursor c) <=? o then tc_next (ck_cursor c) else ck_cursor c) (ck_range c) o false).
Definition chunks_next (c : Chunks) : option (option Text * Chunks) :=
  p ← peek c;
  match p with
  | None => Some (None, c)
  | Some chunk => c ← advance c (length chunk); Some (Some chunk, c)
  end.
Definition bitmaps_next (c : Chunks) : option (option ChunkBitmaps * Chunks) :=
  p ← peek_with_bitmaps c;
  match p with
  | None => Some (None, c)
  | Some b => c ← advance c (length (cb_text b)); Some (Some b, c)
  end.

(** A [for] loop over the chunks, with a body that may stop. *)
Fixpoint for_chunks {S R} (fuel : nat) (f : S → Text → S + R) (s : S) (c : Chunks) : option (S + R) :=
  match fuel with
  | O => None
  | S fuel =>
      '(t, c) ← chunks_next c;
      match t with
      | None => Some (inl s)
      | Some t => match f s t with inl s => for_chunks fuel f s c | inr x => Some (inr x) end
      end
  end.
Definition chunks_fuel (c : Chunks) : nat := S (length (tc_all (ck_cursor c))).
Definition collect_chunks (c : Chunks) : option (list Text) :=
  x ← for_chunks (R := Empty_set) (chunks_fuel c) (λ acc t, inl (acc ++ [t])) [] c;
  match x with inl l => Some l | inr _ => None end.

Definition chunks_in_range (r : Rope) (s e : nat) : option Chunks := chunks_new r s e false.
Definition reversed_chunks_in_range (r : Rope) (s e : nat) : option Chunks := chunks_new r s e true.

(** ** Moving chunks iterators *)

Definition chunks_seek (c : Chunks) (offset : nat) : option Chunks :=
  if (ck_range c).2 <? (ck_range c).1 then None
  else
    let offset := Nat.min (Nat.max offset (ck_range c).1) (ck_range c).2 in
    let cur := ck_cursor c in
    cur ← (if ck_reversed c then
             if tc_end cur <? offset then tc_seek_forward cur offset Cursor.Left
             else if offset <=? tc_start cur then Some (tc_seek cur offset Cursor.Left) else Some cur
           else
             if tc_end cur <=? offset then tc_seek_forward cur offset Cursor.Right
             else if offset <? tc_start cur then Some (tc_seek cur offset Cursor.Right) else Some cur);
    Some (mkChunks cur (ck_range c) offset (ck_reversed c)).
Definition set_range (c : Chunks) (s e : nat) : option Chunks := chunks_seek (mkChunks (ck_cursor c) (s, e) (ck_offset c) (ck_reversed c)) s.

(** ** Comparing with strings *)

Definition str_starts_with (t p : Text) : bool := bool_decide (take (length p) t = p).
Definition str_ends_with (t p : Text) : bool := (length p <=? length t) && bool_decide (drop (length t - length p) t = p).

Definition starts_with_step (remaining chunk : Text) : Text + bool :=
  match str_slice chunk 0 (Nat.min (length remaining) (length chunk)) with
  | None => inr false
  | Some chunk =>
      if str_starts_with remaining chunk then
        let remaining := drop (length chunk) remaining in
        if bool_decide (remaining = []) then inr true else inl remaining
      else inr false
  end.
Definition starts_with (r : Rope) (pattern : Text) : option bool :=
  if rope_len r <? length pattern then Some false
  else
    c ← chunks_in_range r 0 (rope_len r);
    x ← for_chunks (chunks_fuel c) starts_with_step pattern c;
    Some (match x with inr b => b | inl remaining => bool_decide (remaining = []) end).

Definition ends_with_step (remaining chunk : Text) : Text + bool :=
  match str_slice chunk (length chunk - Nat.min (length remaining) (length chunk)) (length chunk) with
  | None => inr false
  | Some chunk =>
      if str_ends_with remaining chunk then
        let remaining := take (length remaining - length chunk) remaining in
        if bool_decide (remaining = []) then inr true else inl remaining
      else inr false
  end.
Definition ends_with (r : Rope) (pattern : Text) : option bool :=
  if rope_len r <? length pattern then Some false
  else
    c ← reversed_chunks_in_range r 0 (rope_len r);
    x ← for_chunks (chunks_fuel c) ends_with_step pattern c;
    Some (match x with inr b => b | inl remaining => bool_decide (remaining = []) end).

(** [None] is the panic of slicing [other] inside a character. *)
Definition equals_step_reversed (other : Text) (offset : nat) (chunk : Text) : nat + option bool :=
  match str_slice other 0 offset with
  | None => inr None
  | Some prefix => if str_ends_with prefix chunk then inl (offset - length chunk) else inr (Some false)
  end.
Definition equals_step (other : Text) (offset : nat) (chunk : Text) : nat + option bool :=
  if length other <=? offset then inr (Some false)
  else match str_slice other offset (length other) with
       | None => inr None
       | Some suffix => if str_starts_with suffix chunk then inl (offset + length chunk) else inr (Some false)
       end.
Definition equals_str (c : Chunks) (other : Text) : option bool :=
  if ck_reversed c then
    x ← for_chunks (chunks_fuel c) (equals_step_reversed other) (length other) c;
    match x with inr b => b | inl offset => Some (offset =? 0) end
  else
    x ← for_chunks (chunks_fuel c) (equals_step other) 0 c;
    match x with inr b => b | inl offset => Some (offset =? length other) end.

(** ** Summaries of ranges *)

(** [trait TextDimension]: a dimension that is also computed from a chunk. *)
Record TextDim (D : Type) := mkTextDim {
  td_dim : Dim D;
  td_from_chunk : Chunk → option D;
  td_add : D → D → D;
}.
#[global] Arguments mkTextDim {D}.
#[global] Arguments td_dim {D}.
#[global] Arguments td_from_chunk {D}.
#[global] Arguments td_add {D}.
Definition usize_text_dim : TextDim nat := mkTextDim usize_dim (λ c, Some (chunk_len c)) Nat.add.
Definition utf16_text_dim : TextDim nat := mkTextDim offset_utf16_dim (λ c, Some (len_utf16 MAX_BASE c)) Nat.add.
Definition point_text_dim : TextDim Point := mkTextDim point_dim (chunk_lines MAX_BASE) point_add.
Definition point_utf16_text_dim : TextDim PointUtf16 :=
  mkTextDim point_utf16_dim
    (λ c, l ← chunk_lines MAX_BASE c; Some (mkPoint (row l) (N.of_nat (chunk_last_line_len_utf16 MAX_BASE c)))) point_add.
Definition summary_text_dim : TextDim TextSummary := mkTextDim summary_dim (text_summary MAX_BASE) add_assign.

(** [Cursor::summary]. *)
Definition rope_cursor_summary {D} (td : TextDim D) (c : RopeCursor) (end_offset : nat) : option (D * RopeCursor) :=
  if cursor_guard c end_offset then
    summary ← match rc_rest c with
              | (start_chunk, _) :: _ =>
                  start_ix ← checked_sub (rc_offset c) (rc_start c);
                  end_ix ← checked_sub (Nat.min end_offset (cursor_end c)) (rc_start c);
                  sl ← slice MAX_BASE start_chunk start_ix end_ix;
                  s ← td_from_chunk td sl; Some (td_add td (dim_zero (td_dim td)) s)
              | [] => Some (dim_zero (td_dim td))
              end;
    if cursor_end c <? end_offset then
      let start := cursor_end c in
      let '(sk, start, rest) := seek_entries usize_dim (λ d, Nat.compare end_offset d) Cursor.Right start (tail (rc_rest c)) in
      let summary := td_add td summary (foldl (dim_add (td_dim td)) (dim_zero (td_dim td)) (snd <$> sk)) in
      summary ← match rest with
                | (end_chunk, _) :: _ =>
                    end_ix ← checked_sub end_offset start;
                    sl ← slice MAX_BASE end_chunk 0 end_ix;
                    s ← td_from_chunk td sl; Some (td_add td summary s)
                | [] => Some summary
                end;
      Some (summary, mkRopeCursor (rc_rope c) start rest end_offset)
    else Some (summary, mkRopeCursor (rc_rope c) (rc_start c) (rc_rest c) end_offset)
  else None.
End chunks.
