(* ===== verification/RopeIter.v ===== *)
(** * What the rope iterators visit

    Iterating over the chunks of a range visits the text of the range, in
    order or from its end, so comparing a rope with a string and testing a
    prefix or suffix decide what they say of its text. *)

From S2P Require Import Prelude Text Bitmap Select Utf8 Summary Chunk ChunkBits ChunkOk ChunkPoints ChunkClip ChunkSummary ChunkLongest Rope RopeOk RopeSeek RopeConv RopeClip RopeSlice RopeChunks.

(** A loop with early exit over a list. *)
Fixpoint stop_fold {S R A} (f : S → A → S + R) (s : S) (l : list A) : S + R :=
  match l with
  | [] => inl s
  | x :: l => match f s x with inl s => stop_fold f s l | inr r => inr r end
  end.

Lemma stop_fold_collect (l acc : list Text) : stop_fold (R := Empty_set) (λ acc t, inl (acc ++ [t])) acc l = inl (acc ++ l).
Proof. revert acc. induction l as [|t l IH]; intros acc; cbn [stop_fold]; [by rewrite app_nil_r|]. by rewrite IH, <- app_assoc. Qed.

Lemma entries_len_app a b : entries_len (a ++ b) = entries_len a + entries_len b.
Proof.
  unfold entries_len. rewrite foldl_app. generalize (foldl (λ n e, n + s_len e.2) 0 a). induction b as [|e b IH] using rev_ind; intros n; [cbn; lia|].
  rewrite !foldl_app. cbn [foldl]. rewrite IH. lia.
Qed.
Lemma entries_len_of ts : entries_len (rope_of ts) = length (concat ts).
Proof.
  induction ts as [|t ts IH] using rev_ind; [done|]. rewrite rope_of_app, entries_len_app, IH, concat_app, length_app. cbn. by rewrite app_nil_r.
Qed.

Lemma str_slice_ok t s e : is_char_boundary t s = true → is_char_boundary t e = true → s ≤ e → str_slice t s e = Some (drop s (take e t)).
Proof.
  intros Hs He Hse. unfold str_slice, is_str_boundary. rewrite Hs, He, (proj2 (Nat.leb_le _ _)) by done. cbn [andb].
  by rewrite skipn_firstn_comm.
Qed.

Lemma take_cut (t : Text) o m e : o ≤ m ≤ e → drop o (take e t) = drop o (take m t) ++ drop m (take e t).
Proof.
  intros H. rewrite !skipn_firstn_comm. replace (e - o) with ((m - o) + (e - m)) by lia. rewrite <- take_take_drop, drop_drop.
  do 3 f_equal. lia.
Qed.

Section iter.
Context (MAX_BASE : nat) (HMAX : 8 ≤ MAX_BASE ≤ 128).
Context (ts : list Text) (Hok : Forall (text_ok MAX_BASE) ts) (Hbal : balanced MAX_BASE ts) (Hfits : fits32 (concat ts)).
Abbreviation whole := (concat ts).

Lemma nonempty_chunk a t b : ts = a ++ t :: b → length t ≠ 0.
Proof using Hok.
  intros E. rewrite E in Hok. apply Forall_app in Hok as [_ (Ht & _)%Forall_cons]. destruct Ht as (_ & Hne & _). by destruct t.
Qed.

(** The part of the text from [s] to [e] inside one chunk. *)
Lemma chunk_part a t b s e : ts = a ++ t :: b → length (concat a) ≤ s → s ≤ e → e ≤ length (concat a) + length t →
  is_char_boundary whole s = true → is_char_boundary whole e = true →
  str_slice t (s - length (concat a)) (e - length (concat a)) = Some (drop s (take e whole)) ∧ utf8 (drop s (take e whole)).
Proof using All.
  intros E Hs Hse He Hbs Hbe. destruct (texts_parts MAX_BASE HMAX ts Hok Hbal Hfits a t b E) as (Ht & Hl & Hw).
  pose proof (inner_boundary MAX_BASE HMAX ts Hok Hbal Hfits a t b s E) as His. pose proof (inner_boundary MAX_BASE HMAX ts Hok Hbal Hfits a t b e E) as Hie.
  rewrite str_slice_ok by (lia || (apply His; [lia|done]) || (apply Hie; [lia|done])). split.
  - f_equal. rewrite Hw, (take_app_ge (concat a)) by lia. rewrite drop_app_ge by lia. f_equal. by rewrite take_app_le by lia.
  - apply utf8_part; [by eapply text_utf8|done..].
Qed.

(** ** Forwards *)

Record forward (c : Chunks) (a b : list Text) (o e : nat) : Prop := {
  fw_cursor : ck_cursor c = AtChunk (rope_of a) (rope_of b);
  fw_split : ts = a ++ b;
  fw_range : (ck_range c).1 ≤ o ∧ (ck_range c).2 = e;
  fw_offset : ck_offset c = o;
  fw_dir : ck_reversed c = false;
  fw_bounds : is_char_boundary whole o = true ∧ is_char_boundary whole e = true;
  fw_place : length (concat a) ≤ o ∧ match b with t :: _ => o < length (concat a) + length t | [] => True end;
}.

Lemma forward_done c a b o e : forward c a b o e → e ≤ o → chunks_next c = Some (None, c).
Proof using.
  intros [_ _ [Hs He] Ho Hd _ _] Hle. unfold chunks_next, peek, offset_is_valid. rewrite Hd, Ho, He, (proj2 (Nat.leb_le e o)), orb_true_r by done. done.
Qed.

Lemma forward_next c a b o e : forward c a b o e → o < e →
  ∃ t b' c' a' b'', b = t :: b' ∧ chunks_next c = Some (Some (drop o (take (Nat.min e (length (concat a) + length t)) whole)), c') ∧
    forward c' a' b'' (Nat.min e (length (concat a) + length t)) e ∧
    utf8 (drop o (take (Nat.min e (length (concat a) + length t)) whole)) ∧ (e ≤ length (concat a) + length t ∨ length b'' < length b).
Proof using All.
  intros [Hc Hsp [Hs He] Ho Hd [Hbo Hbe] [Hp1 Hp2]] Hlt. pose proof (boundary_le _ _ Hbe) as Hle.
  destruct b as [|t b']; [rewrite app_nil_r in Hsp; subst a; lia|]. exists t, b'. set (A := length (concat a)) in *.
  remember (Nat.min e (A + length t)) as m eqn:Em.
  assert (is_char_boundary whole m = true) as Hbm.
  { destruct (Nat.min_spec e (A + length t)) as [[_ E]|[_ E]]; rewrite E in Em; subst m; [done|].
    assert (ts = (a ++ [t]) ++ b') as E' by by rewrite <- app_assoc. pose proof (prefix_boundary MAX_BASE HMAX ts Hok Hfits _ _ E') as Hb.
    rewrite concat_app, length_app in Hb. cbn in Hb. by rewrite app_nil_r in Hb. }
  destruct (chunk_part a t b' o m Hsp) as [Hsl Hu]; [done|lia|lia|done|done|]. fold A in Hsl.
  assert (tc_start (ck_cursor c) = A) as Est by (rewrite Hc; apply entries_len_of).
  assert (tc_end (ck_cursor c) = A + length t) as Een by (rewrite Hc; cbn; by rewrite entries_len_of).
  unfold chunks_next, peek, offset_is_valid, slice_range. rewrite Hd, Ho, He, Est, Een.
  rewrite (proj2 (Nat.ltb_ge o _)), (proj2 (Nat.leb_gt e o)) by done. cbn [orb negb]. rewrite Hc. cbn [tc_item rope_of fmap list_fmap entry_of].
  rewrite !(checked_sub_ok MAX_BASE HMAX ts Hok Hfits) by lia. cbn [mbind option_bind text chunk_of].
  replace (Nat.min (A + length t) e) with m by lia. rewrite Hsl. cbn [mbind option_bind]. unfold advance. rewrite Hd. cbn [mbind option_bind].
  assert (length (drop o (take m whole)) = m - o) as -> by (rewrite length_drop, length_take; pose proof (boundary_le _ _ Hbm); lia).
  rewrite Ho, Een. replace (o + (m - o)) with m by lia. destruct (Nat.leb_spec (A + length t) m) as [Hge|Hlt'].
  - exists (mkChunks (AtChunk (rope_of (a ++ [t])) (rope_of b')) (ck_range c) m false), (a ++ [t]), b'. split; [done|].
    split; [rewrite Hc; cbn [tc_next rope_of fmap list_fmap]; by rewrite (rope_of_app a [t])|]. split; [|split; [done|right; cbn; lia]].
    split; cbn; try done; [by rewrite <- app_assoc|lia|]. rewrite concat_app, length_app. cbn. rewrite app_nil_r. fold A. split; [lia|].
    destruct b' as [|t' b'']; [done|]. pose proof (nonempty_chunk (a ++ [t]) t' b'' ltac:(by rewrite <- app_assoc)). lia.
  - exists (mkChunks (ck_cursor c) (ck_range c) m false), a, (t :: b'). split; [done|]. split; [done|]. split; [|split; [done|left; lia]].
    split; cbn; try done; [lia|]. fold A. lia.
Qed.

(** The pieces a loop over the chunks sees. *)
Definition pieces_ok (l : list Text) : Prop := Forall (λ t, utf8 t ∧ t ≠ []) l.

Lemma forward_run n c a b o e : length b ≤ n → forward c a b o e → ∃ l, pieces_ok l ∧ concat l = drop o (take e whole) ∧
  ∀ B R (f : B → Text → B + R) s fuel, length b < fuel → for_chunks fuel f s c = Some (stop_fold f s l).
Proof using All.
  revert c a b o. induction n as [|n IH]; intros c a b o Hn Hf.
  all: destruct (decide (e ≤ o)) as [Hle|Hlt]; [exists []; split; [constructor|]; split; [symmetry; apply drop_ge; rewrite length_take; lia|];
    intros B R f s [|fuel] Hfuel; [lia|]; cbn [for_chunks]; by rewrite (forward_done _ _ _ _ _ Hf) by done|].
  all: destruct (forward_next c a b o e Hf ltac:(lia)) as (t & b' & c' & a' & b'' & -> & Hnext & Hf' & Hu & Hcase). all: cbn in Hn.
  - lia.
  - set (m := Nat.min e (length (concat a) + length t)) in *. destruct Hf as [_ Hsp _ _ _ [_ Hbe] [Hp1 Hp2]]. pose proof (boundary_le _ _ Hbe) as Hel.
    assert (drop o (take m whole) ≠ []) as Hne.
    { intros E%(f_equal length). rewrite length_drop, length_take in E. cbn in E. unfold m in E. lia. }
    destruct (decide (e ≤ m)) as [Hem|Hem].
    + assert (m = e) as Em by (unfold m; lia). exists [drop o (take m whole)]. split; [by repeat constructor|]. split; [cbn; by rewrite app_nil_r, Em|].
      intros B R f s [|[|fuel]] Hfuel; cbn in Hfuel; [lia|lia|]. cbn [for_chunks stop_fold]. rewrite Hnext. cbn [mbind option_bind].
      destruct (f s _); [|done]. rewrite Em in Hf'. by rewrite (forward_done _ _ _ _ _ Hf').
    + destruct Hcase as [Hcase|Hcase]; [unfold m in Hem; lia|].
      destruct (IH c' a' b'' m) as (l & Hl & Hcat & Hrun); [cbn in Hcase; lia|done|]. exists (drop o (take m whole) :: l). split; [by constructor|].
      split; [cbn; rewrite Hcat; symmetry; apply take_cut; unfold m; lia|].
      intros B R f s [|fuel] Hfuel; cbn in Hfuel; [lia|]. cbn [for_chunks stop_fold]. rewrite Hnext. cbn [mbind option_bind].
      destruct (f s _); [|done]. apply Hrun. cbn in Hcase. lia.
Qed.

Lemma seek_strict o : o ≤ length whole → ∃ a b, ts = a ++ b ∧ seek_from [] (rope_of ts) o Cursor.Right = AtChunk (rope_of a) (rope_of b) ∧
  length (concat a) ≤ o ∧ match b with t :: _ => o < length (concat a) + length t | [] => True end.
Proof using All.
  intros Ho. pose proof (seek_entries_ok MAX_BASE usize_dim length (λ d, Nat.compare o d) Cursor.Right [] ts usize_measures Hok utf8_nil Hfits) as Hs.
  unfold seek_from. change (entries_len []) with (length ([] : Text)). destruct (decide (o < length whole)) as [Hlt|Hge].
  - destruct (scan_offset_right o [] ts) as (a & t & b & E & Hscan & Hr); [cbn; lia|]. cbn beta in Hs. rewrite Hscan in Hs. exists a, (t :: b). rewrite Hs.
    split; [exact E|]. split; [done|]. cbn in Hr. lia.
  - cbn beta in Hs. rewrite scan_offset_end in Hs by (cbn; lia). exists ts, []. rewrite Hs, app_nil_r. split; [done|]. split; [done|]. split; [cbn in *; lia|done].
Qed.

Lemma forward_new s e : s ≤ e → is_char_boundary whole s = true → is_char_boundary whole e = true →
  ∃ c a b, chunks_new MAX_BASE (rope_of ts) s e false = Some c ∧ forward c a b s e.
Proof using All.
  intros Hse Hs He. pose proof (boundary_le _ _ Hs) as Hsl. destruct (seek_strict s Hsl) as (a & b & E & Hseek & Hr).
  unfold chunks_new. rewrite Hseek. cbn [tc_start]. rewrite entries_len_of, (checked_sub_ok MAX_BASE HMAX ts Hok Hfits) by apply Hr. cbn [mbind option_bind].
  assert (match tc_item (AtChunk (rope_of a) (rope_of b)) with
    | Some chunk => chunk_is_char_boundary MAX_BASE chunk (s - length (concat a)) | None => true end = true) as ->.
  { destruct b as [|t b]; [done|]. cbn [tc_item rope_of fmap list_fmap entry_of]. destruct (texts_parts MAX_BASE HMAX ts Hok Hbal Hfits a t b E) as (Ht & Hl & _).
    rewrite chunk_boundary_of by (done || lia). apply (inner_boundary MAX_BASE HMAX ts Hok Hbal Hfits a t b); [done|lia|done]. }
  eexists _, a, b. split; [done|]. by split.
Qed.

Lemma chunks_fuel_forward c a b o e : forward c a b o e → length b < chunks_fuel c.
Proof using.
  intros [Hc _ _ _ _ _ _]. unfold chunks_fuel. rewrite Hc. cbn. rewrite length_app. unfold rope_of. rewrite !length_fmap. apply Nat.lt_succ_r, Nat.le_add_l.
Qed.

(** A loop over the chunks of a range is a loop over pieces of its text. *)
Lemma chunks_forward s e : s ≤ e → is_char_boundary whole s = true → is_char_boundary whole e = true →
  ∃ c l, chunks_in_range MAX_BASE (rope_of ts) s e = Some c ∧ pieces_ok l ∧ concat l = drop s (take e whole) ∧ ck_reversed c = false ∧
    ∀ B R (f : B → Text → B + R) x, for_chunks (chunks_fuel c) f x c = Some (stop_fold f x l).
Proof using All.
  intros Hse Hs He. destruct (forward_new s e Hse Hs He) as (c & a & b & Hc & Hf). destruct (forward_run (length b) c a b s e) as (l & Hl & Hcat & Hrun); [done..|].
  exists c, l. split; [done|]. split_and!; [done|done|apply Hf|]. intros B R f x. apply Hrun. by eapply chunks_fuel_forward.
Qed.

(** ** Backwards *)

(** Iterating from [o] down to [s]; once [o] is reached nothing else counts. *)
Record backward (c : Chunks) (a b : list Text) (s o : nat) : Prop := {
  bw_range : (ck_range c).1 = s ∧ o ≤ (ck_range c).2;
  bw_offset : ck_offset c = o;
  bw_dir : ck_reversed c = true;
  bw_bounds : is_char_boundary whole s = true ∧ is_char_boundary whole o = true;
  bw_cursor : s < o → ck_cursor c = AtChunk (rope_of a) (rope_of b) ∧ ts = a ++ b ∧ length (concat a) < o ∧
    match b with t :: _ => o ≤ length (concat a) + length t | [] => False end;
}.

Lemma backward_done c a b s o : backward c a b s o → o ≤ s → chunks_next c = Some (None, c).
Proof using.
  intros [[Hs He] Ho Hd _ _] Hle. unfold chunks_next, peek, offset_is_valid. by rewrite Hd, Ho, Hs, (proj2 (Nat.leb_le o s)).
Qed.

Lemma prefix_bound a b : ts = a ++ b → is_char_boundary whole (length (concat a)) = true.
Proof using All. apply (prefix_boundary MAX_BASE HMAX ts Hok Hfits). Qed.

Lemma backward_next c a b s o : backward c a b s o → s < o → let m := Nat.max (length (concat a)) s in
  ∃ c' a' b', chunks_next c = Some (Some (drop m (take o whole)), c') ∧ backward c' a' b' s m ∧ m < o ∧ utf8 (drop m (take o whole)) ∧
    (m ≤ s ∨ length a' < length a).
Proof using All.
  intros [[Hs He] Ho Hd [Hbs Hbo] Hcur] Hlt m. destruct (Hcur Hlt) as (Hc & Hsp & Hao & Hb). destruct b as [|t b]; [done|]. set (A := length (concat a)) in *.
  assert (is_char_boundary whole m = true) as Hbm.
  { unfold m. destruct (Nat.max_spec A s) as [[_ ->]|[_ ->]]; [done|]. by apply (prefix_bound a (t :: b)). }
  assert (m < o) as Hmo by (unfold m; lia).
  destruct (chunk_part a t b m o Hsp) as [Hsl Hu]; [fold A; lia|lia|fold A; lia|done|done|]. fold A in Hsl.
  assert (tc_start (ck_cursor c) = A) as Est by (rewrite Hc; apply entries_len_of).
  unfold chunks_next, peek, offset_is_valid, slice_range. rewrite Hd, Ho, Hs, Est.
  rewrite (proj2 (Nat.leb_gt o s)), (proj2 (Nat.ltb_ge _ o)) by done. cbn [orb negb]. rewrite Hc. cbn [tc_item rope_of fmap list_fmap entry_of].
  rewrite (checked_sub_ok MAX_BASE HMAX ts Hok Hfits) by lia. cbn [mbind option_bind text chunk_of]. fold m.
  rewrite Hsl. cbn [mbind option_bind]. unfold advance. rewrite Hd, Ho, Est.
  assert (length (drop m (take o whole)) = o - m) as -> by (rewrite length_drop, length_take; pose proof (boundary_le _ _ Hbo); lia).
  rewrite (checked_sub_ok MAX_BASE HMAX ts Hok Hfits) by lia. cbn [mbind option_bind]. replace (o - (o - m)) with m by lia.
  destruct (Nat.leb_spec m A) as [HmA|HmA].
  - assert (m = A) as Em by (unfold m in *; lia). clearbody m. subst m. rewrite Hc. destruct a as [|u a _] using rev_ind.
    + eexists _, [], []. split; [done|]. split; [|split; [done|split; [done|left; cbn in *; lia]]]. split; cbn; try done; [lia|]. intros; cbn in *; lia.
    + cbn [tc_prev]. rewrite last_rope_of. eexists _, a, (u :: t :: b). split; [done|].
      split; [|split; [done|split; [done|right; rewrite length_app; cbn; lia]]].
      rewrite <- app_assoc in Hsp. pose proof (nonempty_chunk a u (t :: b) Hsp) as Hu0.
      assert (A = length (concat a) + length u) as EA by (unfold A; rewrite concat_app, length_app; cbn; by rewrite app_nil_r).
      split; cbn; try done; [lia|]. intros _. split; [|split; [done|lia]].
      rewrite rope_of_app. f_equal. apply removelast_last.
  - exists (mkChunks (AtChunk (rope_of a) (rope_of (t :: b))) (ck_range c) m true), a, (t :: b). rewrite Hc. split; [done|].
    assert (m = s) as Em by (unfold m in *; lia).
    split; [|split; [done|split; [done|left; lia]]]. split; cbn; try done; [lia|]. intros; lia.
Qed.

Lemma backward_run n c a b s o : length a ≤ n → backward c a b s o → s ≤ o → ∃ l, pieces_ok l ∧ concat (rev l) = drop s (take o whole) ∧
  ∀ B R (f : B → Text → B + R) x fuel, 0 < fuel → (s < o → S (length a) < fuel) → for_chunks fuel f x c = Some (stop_fold f x l).
Proof using All.
  revert c a b o. induction n as [|n IH]; intros c a b o Hn Hf Hso.
  all: destruct (decide (o ≤ s)) as [Hle|Hlt]; [exists []; split; [constructor|]; split; [symmetry; apply drop_ge; rewrite length_take; lia|];
    intros B R f x [|fuel] Hf0 Hfuel; [lia|]; cbn [for_chunks]; by rewrite (backward_done _ _ _ _ _ Hf) by done|].
  all: destruct (backward_next c a b s o Hf ltac:(lia)) as (c' & a' & b' & Hnext & Hf' & Hmo & Hu & Hcase).
  all: set (m := Nat.max (length (concat a)) s) in *.
  all: assert (drop m (take o whole) ≠ []) as Hne by (intros E%(f_equal length); rewrite length_drop, length_take in E;
    destruct (bw_bounds _ _ _ _ _ Hf) as [_ Hbo]; pose proof (boundary_le _ _ Hbo); cbn in E; lia).
  all: destruct (decide (m ≤ s)) as [Hms|Hms];
    [assert (m = s) as Em by (unfold m in *; lia); exists [drop m (take o whole)]; split; [by repeat constructor|]; split; [cbn; by rewrite app_nil_r, Em|];
     intros B R f x [|[|fuel]] Hf0 Hfuel; [lia|lia|]; cbn [for_chunks stop_fold]; rewrite Hnext; cbn [mbind option_bind];
     destruct (f x _); [|done]; by rewrite (backward_done _ _ _ _ _ Hf')|].
  all: destruct Hcase as [Hcase|Hcase]; [lia|].
  - lia.
  - destruct (IH c' a' b' m) as (l & Hl & Hcat & Hrun); [lia|done|lia|]. exists (drop m (take o whole) :: l). split; [by constructor|].
    split; [cbn; rewrite concat_app, Hcat; cbn; rewrite app_nil_r; symmetry; apply take_cut; unfold m; lia|].
    intros B R f x [|fuel] Hf0 Hfuel; [lia|]. cbn [for_chunks stop_fold]. rewrite Hnext. cbn [mbind option_bind].
    destruct (f x _); [|done]. apply Hrun; lia.
Qed.

Lemma seek_strict_left o : o ≤ length whole → ts ≠ [] → ∃ a t b, ts = a ++ t :: b ∧
  seek_from [] (rope_of ts) o Cursor.Left = AtChunk (rope_of a) (rope_of (t :: b)) ∧
  length (concat a) ≤ o ≤ length (concat a) + length t ∧ (a = [] ∨ length (concat a) < o).
Proof using All.
  intros Ho Hne. pose proof (seek_entries_ok MAX_BASE usize_dim length (λ d, Nat.compare o d) Cursor.Left [] ts usize_measures Hok utf8_nil Hfits) as Hs.
  unfold seek_from. change (entries_len []) with (length ([] : Text)). cbn beta in Hs.
  destruct (scan_offset_left o [] ts) as (a & t & b & E & Hscan & Hr & Ha); [cbn; lia|done|]. rewrite Hscan in Hs. rewrite Hs. by exists a, t, b.
Qed.

Lemma backward_new s e : s ≤ e → is_char_boundary whole s = true → is_char_boundary whole e = true →
  ∃ c a b, chunks_new MAX_BASE (rope_of ts) s e true = Some c ∧ backward c a b s e ∧ (s < e → S (length a) < chunks_fuel c).
Proof using All.
  intros Hse Hs He. pose proof (boundary_le _ _ He) as Hel. unfold chunks_new. destruct (decide (ts = [])) as [E|Hne].
  { assert (e = 0 ∧ s = 0) as [-> ->] by (rewrite E in Hel; cbn in Hel; lia). rewrite E. eexists _, [], []. split; [done|]. split; [|lia].
    split; cbn; try done. intros; lia. }
  destruct (seek_strict_left e Hel Hne) as (a & t & b & E & -> & Hr & Ha). cbn [tc_start tc_item].
  rewrite entries_len_of, (checked_sub_ok MAX_BASE HMAX ts Hok Hfits) by apply Hr. cbn [mbind option_bind rope_of fmap list_fmap entry_of].
  destruct (texts_parts MAX_BASE HMAX ts Hok Hbal Hfits a t b E) as (Ht & Hl & _).
  rewrite chunk_boundary_of by (done || lia).
  rewrite (inner_boundary MAX_BASE HMAX ts Hok Hbal Hfits a t b) by (done || lia). eexists _, a, (t :: b). split; [done|].
  split; [|unfold chunks_fuel; cbn; rewrite length_app; unfold rope_of; cbn; rewrite length_fmap; lia].
  split; cbn; try done. intros Hlt. split; [done|]. split; [done|]. destruct Ha as [->|]; cbn in *; lia.
Qed.

(** A loop over the chunks of a range in reverse is a loop over pieces of its
    text from its end. *)
Lemma chunks_backward s e : s ≤ e → is_char_boundary whole s = true → is_char_boundary whole e = true →
  ∃ c l, reversed_chunks_in_range MAX_BASE (rope_of ts) s e = Some c ∧ pieces_ok l ∧ concat (rev l) = drop s (take e whole) ∧ ck_reversed c = true ∧
    ∀ B R (f : B → Text → B + R) x, for_chunks (chunks_fuel c) f x c = Some (stop_fold f x l).
Proof using All.
  intros Hse Hs He. destruct (backward_new s e Hse Hs He) as (c & a & b & Hc & Hf & Hfuel).
  destruct (backward_run (length a) c a b s e) as (l & Hl & Hcat & Hrun); [done..|].
  exists c, l. split; [done|]. split_and!; [done|done|apply Hf|]. intros B R f x. apply Hrun; [unfold chunks_fuel; lia|done].
Qed.
End iter.

(** ** Comparing with strings *)

Lemma utf8_rest p x : utf8 p → utf8 (p ++ x) → utf8 x.
Proof.
  intros (ds & Hds & ->) (cs & Hcs & E). pose proof (f_equal decode E) as Ed. rewrite decode_encode_app, decode_encode in Ed by done.
  exists (decode x). subst cs. apply Forall_app in Hcs as [_ Hx]. split; [done|]. rewrite encode_app in E. by apply app_inv_head in E.
Qed.
Lemma utf8_front p x : utf8 x → utf8 (p ++ x) → utf8 p.
Proof.
  intros Hx Hpx. pose proof (boundary_app_l p x (length p) Hx (le_n _)) as Hb. rewrite boundary_length in Hb.
  destruct (utf8_split _ _ Hpx Hb) as [H _]. by rewrite take_app_length in H.
Qed.
Lemma front_boundary p x : utf8 p → utf8 (p ++ x) → is_char_boundary (p ++ x) (length p) = true.
Proof. intros Hp Hpx. rewrite boundary_app_l by (lia || by apply (utf8_rest p)). apply boundary_length. Qed.

Definition decided {A} (left : A → bool) (x : A + bool) : bool := match x with inr b => b | inl s => left s end.

(** Comparing the first piece with the start of a pattern. *)
Lemma prefix_piece (t k p : Text) : take (length p) (t ++ k) = p ↔
  take (Nat.min (length p) (length t)) p = take (Nat.min (length p) (length t)) t ∧ take (length p - length t) k = drop (length t) p.
Proof.
  rewrite take_app. assert (take (length p) t = take (Nat.min (length p) (length t)) t) as ->.
  { destruct (Nat.le_ge_cases (length p) (length t)); [f_equal; lia|]. rewrite !take_ge by lia. done. }
  rewrite <- (take_drop (Nat.min (length p) (length t)) p) at 3. split.
  - intros [H1 H2]%app_inj_1; [|rewrite !length_take; lia]. split; [done|]. rewrite H2.
    destruct (Nat.le_ge_cases (length p) (length t)); [rewrite !drop_ge by lia; done|f_equal; lia].
  - intros [-> ->]. f_equal. destruct (Nat.le_ge_cases (length p) (length t)); [rewrite !drop_ge by lia; done|f_equal; lia].
Qed.

Lemma starts_with_pieces l p : pieces_ok l → utf8 p → length p ≤ length (concat l) →
  decided (λ r, bool_decide (r = [])) (stop_fold starts_with_step p l) = bool_decide (take (length p) (concat l) = p).
Proof.
  intros Hl. revert p. induction Hl as [|t l [Ht Hne] Hl IH]; intros p Hp Hle.
  { destruct p; [done|cbn in Hle; lia]. }
  cbn [stop_fold concat]. remember (Nat.min (length p) (length t)) as k eqn:Ek. unfold starts_with_step at 1. rewrite <- Ek.
  destruct (is_char_boundary t k) eqn:Hb.
  - rewrite str_slice_ok by (done || lia). rewrite drop_0. unfold str_starts_with. rewrite !length_take.
    replace (Nat.min k (length t)) with k by lia. symmetry. rewrite (bool_decide_ext _ _ (prefix_piece t (concat l) p)), <- Ek. symmetry.
    case_bool_decide as Hpre; [|by rewrite bool_decide_eq_false_2 by (intros [? _]; done)].
    destruct (Nat.le_ge_cases (length p) (length t)).
    + rewrite (drop_ge p) by lia. rewrite bool_decide_eq_true_2 by done. cbn [decided]. symmetry. apply bool_decide_eq_true_2. split; [done|].
      replace (length p - length t) with 0 by lia. by rewrite drop_ge.
    + assert (k = length t) as -> by lia. rewrite (take_ge t) in Hpre by done.
      assert (p = t ++ drop (length t) p) as Ep by (rewrite <- Hpre at 1; by rewrite take_drop).
      assert (utf8 (drop (length t) p)) as Hd by (apply (utf8_rest t); [done|by rewrite <- Ep]).
      case_bool_decide as Hnil.
      * cbn [decided]. symmetry. apply bool_decide_eq_true_2. rewrite Hnil, (take_ge t) by done. split; [done|].
        assert (length p - length t = 0) as -> by (apply (f_equal length) in Hnil; rewrite length_drop in Hnil; cbn in Hnil; lia). done.
      * rewrite IH; [|done|rewrite length_drop; cbn [concat] in Hle; rewrite length_app in Hle; lia]. rewrite length_drop.
        apply bool_decide_ext. rewrite (take_ge t) by done. tauto.
  - assert (str_slice t 0 k = None) as -> by (unfold str_slice, is_str_boundary; by rewrite Hb, andb_false_r). cbn [decided]. symmetry.
    apply bool_decide_eq_false_2. rewrite prefix_piece, <- Ek. intros [Hpre _].
    assert (k ≠ length t) by (intros ->; by rewrite boundary_length in Hb). assert (k = length p) as Ekp by lia. rewrite Ekp, firstn_all in Hpre.
    assert (t = p ++ drop (length p) t) as Et by (rewrite Hpre at 1; by rewrite take_drop).
    rewrite Ekp, Et, front_boundary in Hb; [done|done|by rewrite <- Et].
Qed.

(** The same from the end: comparing the first piece of a reversed walk with
    the end of a pattern. *)
Lemma suffix_piece (t k p : Text) : length p ≤ length k + length t → let n := Nat.min (length p) (length t) in
  drop (length (k ++ t) - length p) (k ++ t) = p ↔
  drop (length p - n) p = drop (length t - n) t ∧ drop (length k - (length p - n)) k = take (length p - n) p.
Proof.
  intros Hl n. rewrite length_app. assert (drop (length k + length t - length p) (k ++ t) = drop (length k - (length p - n)) k ++ drop (length t - n) t) as ->.
  { rewrite drop_app. unfold n. destruct (Nat.le_ge_cases (length p) (length t)).
    - rewrite !Nat.min_l by done. rewrite !(drop_ge k) by lia. f_equal. f_equal. lia.
    - rewrite !Nat.min_r by done. f_equal; f_equal; lia. }
  split.
  - intros H. assert (drop (length k - (length p - n)) k ++ drop (length t - n) t = take (length p - n) p ++ drop (length p - n) p) as H' by (by rewrite take_drop).
    apply app_inj_2 in H' as [H1 H2]; [done|]. rewrite !length_drop. unfold n. lia.
  - intros [H1 H2]. by rewrite <- H1, H2, take_drop.
Qed.

Lemma ends_with_pieces l p : pieces_ok l → utf8 p → length p ≤ length (concat (rev l)) →
  decided (λ r, bool_decide (r = [])) (stop_fold ends_with_step p l) =
    bool_decide (drop (length (concat (rev l)) - length p) (concat (rev l)) = p).
Proof.
  intros Hl. revert p. induction Hl as [|t l [Ht Hne] Hl IH]; intros p Hp Hle.
  { destruct p; [done|cbn in Hle; lia]. }
  cbn [stop_fold rev] in *. rewrite concat_app in *. cbn [concat] in *. rewrite app_nil_r in *. rewrite length_app in Hle.
  set (k := concat (rev l)) in *. remember (Nat.min (length p) (length t)) as n eqn:En. unfold ends_with_step at 1. rewrite <- En.
  pose proof (suffix_piece t k p Hle) as Hsuf. cbn zeta in Hsuf. rewrite <- En in Hsuf.
  destruct (is_char_boundary t (length t - n)) eqn:Hb.
  - rewrite str_slice_ok by (done || lia || apply boundary_length). rewrite (take_ge t) by done. unfold str_ends_with. rewrite !length_drop.
    replace (length t - (length t - n)) with n by lia. rewrite (proj2 (Nat.leb_le n (length p))) by lia. cbn [andb].
    rewrite (bool_decide_ext _ _ Hsuf).
    case_bool_decide as Hpre; [|by rewrite bool_decide_eq_false_2 by (intros [? _]; done)].
    assert (p = take (length p - n) p ++ drop (length t - n) t) as Ep by (rewrite <- Hpre; by rewrite take_drop).
    assert (utf8 (drop (length t - n) t)) as Hd by (by apply utf8_split).
    assert (utf8 (take (length p - n) p)) as Hf by (apply (utf8_front _ (drop (length t - n) t)); [done|by rewrite <- Ep]).
    case_bool_decide as Hnil.
    + cbn [decided]. symmetry. apply bool_decide_eq_true_2. split; [done|]. rewrite Hnil. apply (f_equal length) in Hnil. rewrite length_take in Hnil. cbn in Hnil.
      apply drop_ge. lia.
    + assert (n = length t) as E.
      { destruct (decide (n = length t)); [done|]. assert (n = length p) by lia. replace (length p - n) with 0 in Hnil by lia. done. }
      rewrite IH; [|done|rewrite length_take; lia]. rewrite length_take. replace (Nat.min (length p - n) (length p)) with (length p - n) by lia.
      apply bool_decide_ext. tauto.
  - assert (str_slice t (length t - n) (length t) = None) as -> by (unfold str_slice, is_str_boundary; by rewrite Hb, andb_false_r). cbn [decided]. symmetry.
    apply bool_decide_eq_false_2. rewrite Hsuf. intros [Hpre _].
    assert (n ≠ length t) by (intros ->; by rewrite Nat.sub_diag in Hb). assert (n = length p) as Enp by lia. rewrite Enp, Nat.sub_diag, drop_0 in Hpre.
    assert (t = take (length t - n) t ++ p) as Et by (rewrite Hpre, Enp; by rewrite take_drop).
    assert (utf8 (take (length t - n) t)) as Hf by (apply (utf8_front _ p); [done|by rewrite <- Et]).
    assert (is_char_boundary (take (length t - n) t ++ p) (length (take (length t - n) t)) = true) as Hb'.
    { apply front_boundary; [done|by rewrite <- Et]. }
    rewrite <- Et, length_take, Nat.min_l in Hb' by lia. congruence.
Qed.

(** ** Comparing for equality *)

Definition equal_result (finish : nat → bool) (x : nat + option bool) : option bool := match x with inr b => b | inl o => Some (finish o) end.

Lemma equals_pieces n l u v : pieces_ok l → utf8 u → utf8 (u ++ v) → n = length (u ++ v) →
  equal_result (λ o, o =? n) (stop_fold (equals_step (u ++ v)) (length u) l) = Some (bool_decide (concat l = v)).
Proof.
  intros Hl. revert u v. induction Hl as [|t l [Ht Hne] Hl IH]; intros u v Hu Huv Hn; cbn [stop_fold concat].
  - cbn [equal_result]. f_equal. rewrite Hn, length_app. destruct v; [by rewrite Nat.add_0_r, Nat.eqb_refl|]. rewrite bool_decide_eq_false_2 by done.
    apply Nat.eqb_neq. cbn. lia.
  - unfold equals_step at 1. rewrite length_app. destruct (Nat.leb_spec (length u + length v) (length u)) as [Hle|Hlt].
    + assert (v = []) as -> by (apply length_zero_iff_nil; lia). cbn [equal_result]. rewrite bool_decide_eq_false_2; [done|]. by destruct t.
    + rewrite str_slice_ok by (lia || (by apply front_boundary) || (rewrite <- length_app; apply boundary_length)).
      rewrite take_ge, drop_app_length by (rewrite length_app; lia). unfold str_starts_with.
      case_bool_decide as Hpre.
      * assert (v = t ++ drop (length t) v) as Ev by (rewrite <- Hpre at 1; by rewrite take_drop). set (w := drop (length t) v) in *. clearbody w. subst v.
        rewrite app_assoc in Huv, Hn |- *. rewrite <- length_app, IH by (done || by apply utf8_app). f_equal. apply bool_decide_ext.
        split; [by intros ->|by intros ?%app_inv_head].
      * cbn [equal_result]. rewrite bool_decide_eq_false_2; [done|]. intros <-. by rewrite take_app_length in Hpre.
Qed.

Lemma equals_pieces_reversed l u v : pieces_ok l → utf8 u → utf8 v →
  equal_result (λ o, o =? 0) (stop_fold (equals_step_reversed (u ++ v)) (length u) l) = Some (bool_decide (concat (rev l) = u)).
Proof.
  intros Hl. revert u v. induction Hl as [|t l [Ht Hne] Hl IH]; intros u v Hu Hv; cbn [stop_fold rev].
  - cbn [equal_result]. f_equal. by destruct u.
  - unfold equals_step_reversed at 1. assert (utf8 (u ++ v)) as Huv by by apply utf8_app.
    rewrite str_slice_ok by (done || lia || by apply front_boundary). rewrite drop_0, take_app_length. unfold str_ends_with.
    rewrite concat_app. cbn [concat]. rewrite app_nil_r. destruct (Nat.leb_spec (length t) (length u)) as [Hle|Hlt]; cbn [andb].
    + case_bool_decide as Hpre.
      * assert (u = take (length u - length t) u ++ t) as Eu by (rewrite <- (take_drop (length u - length t) u) at 1; by rewrite Hpre).
        set (w := take (length u - length t) u) in *. clearbody w. subst u. assert (utf8 w) as Hw by by apply (utf8_front w t).
        rewrite <- app_assoc, length_app, Nat.add_sub, IH by (done || by apply utf8_app). f_equal. apply bool_decide_ext.
        split; [by intros ->|by intros ?%app_inv_tail].
      * cbn [equal_result]. rewrite bool_decide_eq_false_2; [done|]. intros <-. rewrite length_app, Nat.add_sub, drop_app_length in Hpre. done.
    + cbn [equal_result]. rewrite bool_decide_eq_false_2; [done|]. intros <-. rewrite length_app in Hlt. lia.
Qed.
