(* ===== verification/RopeRanges.v ===== *)
(** * Summaries of ranges, and what the rope iterators promise *)

From S2P Require Import Prelude Text Bitmap Select Utf8 Summary Chunk ChunkBits ChunkOk ChunkPoints ChunkClip ChunkSummary ChunkLongest Rope RopeOk RopeSeek RopeConv RopeClip RopeSlice RopeChunks RopeIter RopeProps.

(** ** Text dimensions *)

(** A text dimension computes [f] of a text from summaries and from chunks. *)
Record text_measures (MAX_BASE : nat) {D} (td : TextDim D) (f : Text → D) : Prop := {
  tm_dim : measures (td_dim td) f;
  tm_chunk : ∀ t, utf8 t → length t ≤ MAX_BASE → td_from_chunk td (chunk_of t) = Some (f t);
  tm_add : ∀ t u, utf8 t → utf8 u → fits32 (t ++ u) → td_add td (f t) (f u) = f (t ++ u);
}.

Section dims.
Context (MAX_BASE : nat) (HMAX : 8 ≤ MAX_BASE ≤ 128).

Lemma usize_text_measures : text_measures MAX_BASE usize_text_dim length.
Proof using. split; [apply usize_measures|done|]. intros t u _ _ _. symmetry. apply length_app. Qed.
Lemma utf16_text_measures : text_measures MAX_BASE (utf16_text_dim MAX_BASE) utf16_len.
Proof using HMAX.
  split; [apply utf16_measures| |]; [|intros t u Ht _ _; symmetry; by apply utf16_len_app].
  intros t _ Hl. cbn. by rewrite len_utf16_of by (done || lia).
Qed.
Lemma point_text_measures : text_measures MAX_BASE (point_text_dim MAX_BASE) point_of.
Proof using HMAX.
  split; [apply point_measures| |]; [|intros t u _ _ Hf; by apply point_of_app]. intros t _ Hl. apply chunk_lines_of; [lia|done].
Qed.
Lemma point16_text_measures : text_measures MAX_BASE (point_utf16_text_dim MAX_BASE) point16_of.
Proof using HMAX.
  split; [apply point16_measures| |]; [|intros t u Ht _ Hf; by apply point16_of_app]. intros t _ Hl.
  cbn. rewrite chunk_lines_of by (done || lia). cbn [mbind option_bind]. by rewrite last_line_len_utf16_of by (done || lia).
Qed.
Lemma summary_text_measures : text_measures MAX_BASE (summary_text_dim MAX_BASE) from_str.
Proof using HMAX.
  split; [apply summary_measures| |]; [|intros t u Ht Hu Hf; symmetry; by apply from_str_app]. intros t Ht Hl. apply text_summary_of; [lia|done|done].
Qed.
End dims.

(** ** Cursor summaries *)

Section range.
Context (MAX_BASE : nat) (HMAX : 8 ≤ MAX_BASE ≤ 128).
Context (ts : list Text) (Hok : Forall (text_ok MAX_BASE) ts) (Hbal : balanced MAX_BASE ts) (Hfits : fits32 (concat ts)).
Context {D} (td : TextDim D) (f : Text → D) (Htd : text_measures MAX_BASE td f).
Abbreviation whole := (concat ts).

(** The part of a text inside a chunk: sliced, and measured. *)
Lemma chunk_measure a t b s e : ts = a ++ t :: b → length (concat a) ≤ s → s ≤ e → e ≤ length (concat a) + length t →
  is_char_boundary whole s = true → is_char_boundary whole e = true →
  (sl ← slice MAX_BASE (chunk_of t) (s - length (concat a)) (e - length (concat a)); td_from_chunk td sl) = Some (f (drop s (take e whole))) ∧
  utf8 (drop s (take e whole)).
Proof using All.
  intros E Hs Hse He Hbs Hbe. destruct (texts_parts MAX_BASE HMAX ts Hok Hbal Hfits a t b E) as (Ht & Hl & Hw).
  pose proof (inner_boundary MAX_BASE HMAX ts Hok Hbal Hfits a t b s E) as His. pose proof (inner_boundary MAX_BASE HMAX ts Hok Hbal Hfits a t b e E) as Hie.
  destruct (chunk_part MAX_BASE HMAX ts Hok Hbal Hfits a t b s e E) as [Hsl Hu]; [done..|]. split; [|done].
  rewrite slice_of by (done || lia || (apply His; [lia|done]) || (apply Hie; [lia|done])). cbn [mbind option_bind].
  rewrite str_slice_ok in Hsl by (lia || (apply His; [lia|done]) || (apply Hie; [lia|done])). injection Hsl as ->.
  apply (tm_chunk _ _ _ Htd); [done|]. rewrite length_drop, length_take. lia.
Qed.

Lemma fits_part s e : fits32 (drop s (take e whole)).
Proof using Hfits. by apply fits32_part. Qed.

Lemma add_parts s m e : s ≤ m ≤ e → is_char_boundary whole s = true → is_char_boundary whole m = true → is_char_boundary whole e = true →
  td_add td (f (drop s (take m whole))) (f (drop m (take e whole))) = f (drop s (take e whole)).
Proof using All.
  intros H Hs Hm He. rewrite (take_cut whole s m e) by done. pose proof (text_utf8 MAX_BASE ts Hok) as Hu. apply (tm_add _ _ _ Htd).
  - apply utf8_part; [done..|lia].
  - apply utf8_part; [done..|lia].
  - rewrite <- take_cut by done. apply fits_part.
Qed.

Lemma add_zero u : utf8 u → fits32 u → td_add td (dim_zero (td_dim td)) (f u) = f u.
Proof using Htd. intros Hu Hf. rewrite (ms_zero _ _ (tm_dim _ _ _ Htd)). by rewrite (tm_add _ _ _ Htd [] u utf8_nil Hu Hf). Qed.

(** The summaries of whole chunks in a row. *)
Lemma sum_chunks a b1 b2 : ts = a ++ b1 ++ b2 → foldl (dim_add (td_dim td)) (dim_zero (td_dim td)) (snd <$> rope_of b1) =
  f (drop (length (concat a)) (take (length (concat (a ++ b1))) whole)).
Proof using All.
  intros E. rewrite E in Hok, Hfits. apply Forall_app in Hok as [_ Hb]. apply Forall_app in Hb as [Hb1 _].
  rewrite (ms_zero _ _ (tm_dim _ _ _ Htd)).
  rewrite (fold_measures MAX_BASE _ f b1 [] (tm_dim _ _ _ Htd) Hb1 utf8_nil).
  - cbn [app]. rewrite E, app_assoc, !concat_app, take_app_length, drop_app_length. done.
  - cbn [app]. rewrite concat_app in Hfits. apply fits32_app in Hfits as [_ H]. rewrite concat_app in H. by apply fits32_app in H as [H _].
Qed.

Lemma cursor_summary_ok c a b o e : cursor_ok ts c a b o → o ≤ e → is_char_boundary whole e = true →
  ∃ c', rope_cursor_summary MAX_BASE td c e = Some (f (drop o (take e whole)), c') ∧ rc_offset c' = e.
Proof using All.
  intros Hc Hoe He. pose proof (boundary_le _ _ He) as Hle. unfold rope_cursor_summary.
  rewrite (guard_ok MAX_BASE HMAX ts Hok Hbal Hfits _ _ _ _ _ Hc Hoe Hle), (cursor_end_ok MAX_BASE HMAX ts Hok Hbal Hfits _ _ _ _ Hc).
  pose proof Hc as [Hro Hsp Hst Hre Hof Ho Hr]. rewrite Hre, Hst, Hof, Hro. destruct b as [|t b].
  { rewrite app_nil_r in Hsp. subst a. assert (o = e) as <- by lia. cbn [rope_of fmap list_fmap mbind option_bind].
    rewrite (proj2 (Nat.ltb_ge _ _)) by lia. eexists. rewrite drop_ge by (rewrite length_take; lia). by rewrite (ms_zero _ _ (tm_dim _ _ _ Htd)). }
  set (A := length (concat a)) in *. remember (Nat.min e (A + length t)) as m eqn:Em.
  assert (ts = (a ++ [t]) ++ b) as E' by by rewrite <- app_assoc.
  assert (length (concat (a ++ [t])) = A + length t) as El by (rewrite concat_app, length_app; cbn; by rewrite app_nil_r).
  assert (is_char_boundary whole (A + length t) = true) as Hend by (rewrite <- El; by apply (prefix_boundary MAX_BASE HMAX ts Hok Hfits _ b)).
  assert (is_char_boundary whole m = true) as Hm by (destruct (Nat.min_spec e (A + length t)) as [[_ E]|[_ E]]; rewrite E in Em; by subst m).
  destruct (chunk_measure a t b o m Hsp) as [Hms Hu]; [fold A; lia|lia|fold A; lia|done|done|]. fold A in Hms.
  cbn [rope_of fmap list_fmap entry_of]. rewrite !(checked_sub_ok MAX_BASE HMAX ts Hok Hfits) by lia. cbn [mbind option_bind] in Hms |- *.
  destruct (slice MAX_BASE (chunk_of t) (o - A) (m - A)) as [sl|]; [|done]. cbn [mbind option_bind] in Hms |- *. rewrite Hms. cbn [mbind option_bind].
  rewrite (add_zero _ Hu (fits_part o m)). destruct (Nat.ltb_spec (A + length t) e) as [Hlt|Hge].
  2: { eexists. split; [by replace m with e by lia|done]. }
  destruct (seek_on MAX_BASE HMAX ts Hok Hbal Hfits (a ++ [t]) b e E') as (b1 & b2 & -> & Hs & Hr2); [rewrite El; lia|]. rewrite El in Hs.
  cbn [tail]. change (entry_of <$> b1 ++ b2) with (rope_of (b1 ++ b2)). rewrite Hs. assert (m = A + length t) as -> by lia.
  change (list_fmap _ _ snd (rope_of b1)) with (snd <$> rope_of b1).
  rewrite (sum_chunks (a ++ [t]) b1 b2 E'), El. rewrite app_assoc in E'. set (pre := (a ++ [t]) ++ b1) in *.
  assert (is_char_boundary whole (length (concat pre)) = true) as Hpre by by apply (prefix_boundary MAX_BASE HMAX ts Hok Hfits _ b2).
  assert (A + length t ≤ length (concat pre)) as Hlp by (unfold pre; rewrite concat_app, length_app; lia).
  rewrite add_parts by (done || lia). destruct b2 as [|t2 b2].
  - cbn [mbind option_bind rope_of fmap list_fmap]. assert (length (concat pre) = e) as Epre by lia. rewrite Epre. eexists. by split.
  - cbn [rope_of fmap list_fmap entry_of]. rewrite (checked_sub_ok MAX_BASE HMAX ts Hok Hfits) by lia. cbn [mbind option_bind].
    destruct (chunk_measure pre t2 b2 (length (concat pre)) e E') as [Hms2 _]; [lia|lia|lia|done|done|]. rewrite Nat.sub_diag in Hms2.
    destruct (slice MAX_BASE (chunk_of t2) 0 (e - length (concat pre))) as [sl2|]; [|done]. cbn [mbind option_bind] in Hms2 |- *. rewrite Hms2. cbn [mbind option_bind].
    eexists. split; [by rewrite add_parts by (done || lia)|done].
Qed.
End range.

(** ** Claims *)

Section claims.
Context (MAX_BASE : nat) (HMAX : 8 ≤ MAX_BASE ≤ 128) (NUM_CHUNKS : nat).

Lemma collect_pieces c l : (∀ B R (f : B → Text → B + R) x, for_chunks (chunks_fuel c) f x c = Some (stop_fold f x l)) → collect_chunks c = Some l.
Proof using. intros H. unfold collect_chunks. rewrite H, stop_fold_collect. done. Qed.

(** C27: Between two character boundaries [chunks_in_range] visits exactly the
    text of the range, in non-empty pieces that are themselves UTF-8, and
    [reversed_chunks_in_range] visits it from the end; neither panics. *)
Theorem chunks_visit_range r t s e : built MAX_BASE NUM_CHUNKS r t → s ≤ e → is_char_boundary t s = true → is_char_boundary t e = true →
  (∃ c l, chunks_in_range MAX_BASE r s e = Some c ∧ collect_chunks c = Some l ∧ pieces_ok l ∧ concat l = drop s (take e t)) ∧
  (∃ c l, reversed_chunks_in_range MAX_BASE r s e = Some c ∧ collect_chunks c = Some l ∧ pieces_ok l ∧ concat (rev l) = drop s (take e t)).
Proof using HMAX.
  intros H Hse Hs He. destruct (built_represents MAX_BASE HMAX NUM_CHUNKS r t H) as [(ts & [-> Hok Hbal] & ->) Hf]. split.
  - destruct (chunks_forward MAX_BASE HMAX ts Hok Hbal Hf s e Hse Hs He) as (c & l & Hc & Hl & Hcat & _ & Hrun). exists c, l.
    split_and!; [done|by apply collect_pieces|done|done].
  - destruct (chunks_backward MAX_BASE HMAX ts Hok Hbal Hf s e Hse Hs He) as (c & l & Hc & Hl & Hcat & _ & Hrun). exists c, l.
    split_and!; [done|by apply collect_pieces|done|done].
Qed.

(** C30: [starts_with], [ends_with] and [equals_str], which compare chunk by
    chunk, decide whether a string is a prefix of, a suffix of, or equal to
    the text of the rope (for [equals_str]: of the range, in either direction),
    and never slice inside a character. *)
Theorem rope_compares_like_text r t p : built MAX_BASE NUM_CHUNKS r t → utf8 p →
  starts_with MAX_BASE r p = Some (bool_decide (take (length p) t = p)) ∧
  ends_with MAX_BASE r p = Some ((length p <=? length t) && bool_decide (drop (length t - length p) t = p)) ∧
  (∀ s e, s ≤ e → is_char_boundary t s = true → is_char_boundary t e = true →
    (c ← chunks_in_range MAX_BASE r s e; equals_str c p) = Some (bool_decide (drop s (take e t) = p)) ∧
    (c ← reversed_chunks_in_range MAX_BASE r s e; equals_str c p) = Some (bool_decide (drop s (take e t) = p))).
Proof using HMAX.
  intros H Hp. destruct (built_represents MAX_BASE HMAX NUM_CHUNKS r t H) as [(ts & [-> Hok Hbal] & ->) Hf].
  assert (rope_len (rope_of ts) = length (concat ts)) as Hlen by apply (rope_len_of MAX_BASE HMAX ts Hok Hf).
  assert (is_char_boundary (concat ts) (length (concat ts)) = true) as Hend by apply boundary_length. split; [|split].
  - unfold starts_with. rewrite Hlen. destruct (Nat.ltb_spec (length (concat ts)) (length p)) as [Hlt|Hle].
    { f_equal. symmetry. apply bool_decide_eq_false_2. intros E%(f_equal length). rewrite length_take in E. lia. }
    destruct (chunks_forward MAX_BASE HMAX ts Hok Hbal Hf 0 (length (concat ts))) as (c & l & -> & Hl & Hcat & _ & Hrun); [lia|done|done|].
    cbn [mbind option_bind]. rewrite Hrun. cbn [mbind option_bind]. rewrite drop_0, take_ge in Hcat by done. rewrite <- Hcat in Hle |- *.
    f_equal. rewrite <- starts_with_pieces by done. done.
  - unfold ends_with. rewrite Hlen. destruct (Nat.ltb_spec (length (concat ts)) (length p)) as [Hlt|Hle]; [by rewrite (proj2 (Nat.leb_gt _ _))|].
    rewrite (proj2 (Nat.leb_le _ _)) by done. cbn [andb].
    destruct (chunks_backward MAX_BASE HMAX ts Hok Hbal Hf 0 (length (concat ts))) as (c & l & -> & Hl & Hcat & _ & Hrun); [lia|done|done|].
    cbn [mbind option_bind]. rewrite Hrun. cbn [mbind option_bind]. rewrite drop_0, take_ge in Hcat by done. rewrite <- Hcat in Hle |- *.
    f_equal. rewrite <- ends_with_pieces by done. done.
  - intros s e Hse Hs He. split.
    + destruct (chunks_forward MAX_BASE HMAX ts Hok Hbal Hf s e Hse Hs He) as (c & l & -> & Hl & Hcat & Hdir & Hrun).
      cbn [mbind option_bind]. unfold equals_str. rewrite Hdir, Hrun, <- Hcat. cbn [mbind option_bind].
      exact (equals_pieces (length p) l [] p Hl utf8_nil Hp eq_refl).
    + destruct (chunks_backward MAX_BASE HMAX ts Hok Hbal Hf s e Hse Hs He) as (c & l & -> & Hl & Hcat & Hdir & Hrun).
      cbn [mbind option_bind]. unfold equals_str. rewrite Hdir, Hrun, <- Hcat. cbn [mbind option_bind].
      pose proof (equals_pieces_reversed l p [] Hl Hp utf8_nil) as Heq. by rewrite app_nil_r in Heq.
Qed.

(** [Cursor::summary] measures exactly the text between the cursor and
    the target in every text dimension (bytes, UTF-16 units, points, UTF-16
    points, whole summaries), from the chunk it starts in, the summaries of
    the tree and the chunk it ends in. *)
Theorem rope_summary_of_range r t s e : built MAX_BASE NUM_CHUNKS r t → s ≤ e → is_char_boundary t s = true → is_char_boundary t e = true →
  let c := cursor_at r s in let part := drop s (take e t) in
  (fst <$> rope_cursor_summary MAX_BASE usize_text_dim c e) = Some (length part) ∧
  (fst <$> rope_cursor_summary MAX_BASE (utf16_text_dim MAX_BASE) c e) = Some (utf16_len part) ∧
  (fst <$> rope_cursor_summary MAX_BASE (point_text_dim MAX_BASE) c e) = Some (point_of part) ∧
  (fst <$> rope_cursor_summary MAX_BASE (point_utf16_text_dim MAX_BASE) c e) = Some (point16_of part) ∧
  (fst <$> rope_cursor_summary MAX_BASE (summary_text_dim MAX_BASE) c e) = Some (from_str part).
Proof using HMAX.
  intros H Hse Hs He c part. destruct (built_represents MAX_BASE HMAX NUM_CHUNKS r t H) as [(ts & [-> Hok Hbal] & ->) Hf].
  destruct (cursor_at_ok MAX_BASE HMAX ts Hok Hbal Hf s Hs) as (a & b & Hc). fold c in Hc.
  assert (∀ D (td : TextDim D) f, text_measures MAX_BASE td f → (fst <$> rope_cursor_summary MAX_BASE td c e) = Some (f part)) as Hall.
  { intros D td f Htd. destruct (cursor_summary_ok MAX_BASE HMAX ts Hok Hbal Hf td f Htd c a b s e Hc Hse He) as (c' & -> & _). done. }
  split_and!; apply Hall; [apply usize_text_measures|by apply utf16_text_measures|by apply point_text_measures|by apply point16_text_measures|by apply summary_text_measures].
Qed.
End claims.

(** ** Concrete ranges *)

Lemma chunks_visit_range_witness :
  ∃ c l, reversed_chunks_in_range 16 RopeExamples.rope_ex 4 20 = Some c ∧ collect_chunks c = Some l ∧ pieces_ok l ∧
    concat (rev l) = drop 4 (take 20 RopeExamples.text_ex).
Proof. refine (proj2 (chunks_visit_range 16 max16 16 _ _ 4 20 rope_ex_built _ _ _)); [lia|reflexivity|reflexivity]. Defined.

Lemma rope_compares_like_text_witness :
  starts_with 16 RopeExamples.rope_ex (take 18 RopeExamples.text_ex) = Some true ∧
  ends_with 16 RopeExamples.rope_ex (take 4 RopeExamples.text_ex) = Some false.
Proof.
  assert (utf8 (take 18 RopeExamples.text_ex) ∧ utf8 (take 4 RopeExamples.text_ex)) as [H1 H2].
  { split; (apply utf8_split; [apply text_ex_utf8|reflexivity]). }
  destruct (rope_compares_like_text 16 max16 16 _ _ _ rope_ex_built H1) as (-> & _ & _).
  destruct (rope_compares_like_text 16 max16 16 _ _ _ rope_ex_built H2) as (_ & -> & _). split; vm_compute; reflexivity.
Defined.

Lemma rope_summary_of_range_witness :
  (fst <$> rope_cursor_summary 16 (point_text_dim 16) (cursor_at RopeExamples.rope_ex 4) 22) = Some (mkPoint 1 1).
Proof.
  destruct (rope_summary_of_range 16 max16 16 _ _ 4 22 rope_ex_built ltac:(lia) eq_refl eq_refl) as (_ & _ & H & _). rewrite H. vm_compute. reflexivity.
Defined.
