(* ===== verification/Measures.v ===== *)
(** * Text dimensions as measures

    Buffers count text in [usize] bytes, [OffsetUtf16], [Point] and
    [PointUtf16], and in pairs of them ([Dimensions]).  A measure gives the
    position after any bytes, adds positions as the code does and compares
    them; on UTF-8 text it is what the rope computes from its summaries and
    chunks ([TextDimension] of [crates/rope/src/rope.rs]). *)

From S2P Require Import Prelude Text Bitmap Select Utf8 Summary Chunk ChunkBits ChunkOk ChunkPoints ChunkClip ChunkSummary ChunkLongest Rope RopeOk RopeSeek RopeChunks.
From S2P Require RopeRanges.

(** ** Definitions *)

(** What the source asks of a [TextDimension] that is ordered. *)
Record TextMeasure (D : Type) := mkTextMeasure {
  tm_zero : D;
  tm_add : D → D → D;
  tm_lt : D → D → bool;
  tm_of : Text → D;
}.
#[global] Arguments mkTextMeasure {D}.
#[global] Arguments tm_zero {D}.
#[global] Arguments tm_add {D}.
#[global] Arguments tm_lt {D}.
#[global] Arguments tm_of {D}.

(** UTF-16 units, counted byte by byte: every character has a unit at its
    first byte, and one more if that byte starts four. *)
Definition units (t : Text) : nat := count_true (chars_bits t) + count_true (wide <$> t).
(** The bytes after the last newline. *)
Definition last_line (t : Text) : Text := drop (length t - tail_len t) t.
Definition point16 (t : Text) : PointUtf16 := mkPoint (N.of_nat (line_count t)) (N.of_nat (units (last_line t))).

Definition usize_measure : TextMeasure nat := mkTextMeasure 0 Nat.add Nat.ltb length.
Definition offset_utf16_measure : TextMeasure nat := mkTextMeasure 0 Nat.add Nat.ltb units.
Definition point_measure : TextMeasure Point := mkTextMeasure point_zero point_add point_ltb point_of.
Definition point_utf16_measure : TextMeasure PointUtf16 := mkTextMeasure point_zero point_add point_ltb point16.
(** [Dimensions<D1, D2>], ordered by the first and then by the second. *)
Definition dimensions_measure {D E} (m1 : TextMeasure D) (m2 : TextMeasure E) : TextMeasure (D * E) :=
  mkTextMeasure (tm_zero m1, tm_zero m2) (λ a b, (tm_add m1 a.1 b.1, tm_add m2 a.2 b.2))
    (λ a b, tm_lt m1 a.1 b.1 || negb (tm_lt m1 b.1 a.1) && tm_lt m2 a.2 b.2) (λ t, (tm_of m1 t, tm_of m2 t)).

(** ** The laws *)

(** A dimension counts texts that [fits] its integers exactly: the measure of a
    text is the sum of those of its parts, and is larger than that of a prefix
    unless the rest measures nothing. *)
Class MeasureOk {D} (td : TextMeasure D) (fits : Text → Prop) : Prop := {
  measure_fits t u : fits (t ++ u) → fits t;
  measure_nil : tm_of td [] = tm_zero td;
  measure_app t u : fits (t ++ u) → tm_of td (t ++ u) = tm_add td (tm_of td t) (tm_of td u);
  measure_lt t u : fits (t ++ u) → tm_lt td (tm_of td t) (tm_of td (t ++ u)) = false ↔ tm_of td u = tm_zero td;
}.

Lemma units_app t u : units (t ++ u) = units t + units u.
Proof. unfold units, chars_bits. rewrite !fmap_app, !count_true_app. lia. Qed.

#[export] Instance usize_measure_ok : MeasureOk usize_measure (λ _, True).
Proof.
  split; [done|done|intros; apply length_app|]. intros t u _. cbn -[Nat.ltb]. rewrite length_app, Nat.ltb_ge. lia.
Qed.
#[export] Instance offset_utf16_measure_ok : MeasureOk offset_utf16_measure (λ _, True).
Proof.
  split; [done|done|intros; apply units_app|]. intros t u _. cbn [tm_lt tm_of tm_zero offset_utf16_measure]. rewrite units_app, Nat.ltb_ge. lia.
Qed.

(** Points: a sum of points that does not wrap is larger unless nothing is added. *)
Lemma point_add_lt p q : point_ok (mkPoint (row p + row q) (column p + column q)) → point_ltb p (point_add p q) = false ↔ q = point_zero.
Proof.
  intros [Hr Hc]. destruct p as [r1 c1], q as [r2 c2]. unfold is_u32 in *. cbn [row column] in *. unfold point_ltb, point_add. cbn [row column].
  destruct (N.eqb_spec r2 0) as [->|Hr2]; rewrite wrap_u32_small by (unfold is_u32; lia);
    rewrite point_cmp_lex by (split; unfold is_u32; cbn; lia); cbn [row column].
  - rewrite N.compare_refl. cbn [then_with]. destruct (N.compare_spec c1 (c1 + c2)) as [H|H|H]; [|..|lia].
    + assert (c2 = 0%N) as -> by lia. by split.
    + split; [done|]. intros E. injection E as ->. lia.
  - rewrite (proj2 (N.compare_lt_iff r1 _)) by lia. cbn. split; [done|]. intros E. by injection E as ->.
Qed.

#[export] Instance point_measure_ok : MeasureOk point_measure fits32.
Proof.
  split; [by intros t u [? _]%fits32_app|done|intros t u Hf; symmetry; by apply point_of_app|].
  intros t u Hf. cbn [tm_lt tm_of tm_zero point_measure]. rewrite <- point_of_app by done. apply point_add_lt.
  unfold fits32, is_u32 in Hf. rewrite length_app in Hf. pose proof (line_count_le t). pose proof (line_count_le u).
  pose proof (tail_len_le t). pose proof (tail_len_le u). split; unfold is_u32, point_of; cbn; lia.
Qed.

(** Rows and columns in UTF-16 units are [u32]. *)
Definition fits16 (t : Text) : Prop := fits32 t ∧ is_u32 (N.of_nat (units t)).

Lemma last_line_app t u : last_line (t ++ u) = if line_count u =? 0 then last_line t ++ u else last_line u.
Proof.
  unfold last_line. rewrite tail_len_app, length_app. pose proof (tail_len_le t). pose proof (tail_len_le u). destruct (Nat.eqb_spec (line_count u) 0).
  - rewrite drop_app_le by lia. do 2 f_equal. lia.
  - rewrite drop_app_ge by lia. f_equal. lia.
Qed.
Lemma units_last_line t : units (last_line t) ≤ units t.
Proof. rewrite <- (take_drop (length t - tail_len t) t) at 2. rewrite units_app. unfold last_line. lia. Qed.

Lemma last_line_flat t : line_count t = 0 → last_line t = t.
Proof. intros H. unfold last_line. by rewrite tail_len_flat, Nat.sub_diag by done. Qed.

Lemma point16_app t u : fits16 (t ++ u) → point16 (t ++ u) = point_add (point16 t) (point16 u).
Proof.
  unfold fits16, fits32, is_u32. rewrite length_app, units_app. intros [Hf Hu]. unfold point_add, point16. cbn [row column]. rewrite line_count_app, last_line_app.
  pose proof (line_count_le t). pose proof (line_count_le u). pose proof (units_last_line t). pose proof (units_last_line u).
  destruct (N.eqb_spec (N.of_nat (line_count u)) 0), (Nat.eqb_spec (line_count u) 0); try lia; rewrite wrap_u32_small by (unfold is_u32; lia).
  - rewrite units_app, (last_line_flat u) by done. f_equal; lia.
  - f_equal. lia.
Qed.

#[export] Instance point_utf16_measure_ok : MeasureOk point_utf16_measure fits16.
Proof.
  split; [|done|by apply point16_app|].
  - intros t u [Hf Hu]. split; [by apply fits32_app in Hf as [? _]|]. rewrite units_app in Hu. unfold is_u32 in *. lia.
  - intros t u Hf. cbn [tm_lt tm_of tm_zero point_utf16_measure]. rewrite point16_app by done. apply point_add_lt.
    destruct Hf as [Hf Hu]. unfold fits32, is_u32 in Hf, Hu. rewrite length_app in Hf. rewrite units_app in Hu.
    pose proof (line_count_le t). pose proof (line_count_le u). pose proof (units_last_line t). pose proof (units_last_line u).
    split; unfold is_u32, point16; cbn; lia.
Qed.

Section dimensions.
Context {D E : Type} (m1 : TextMeasure D) (m2 : TextMeasure E) (fits1 fits2 : Text → Prop) `{!MeasureOk m1 fits1, !MeasureOk m2 fits2}.

(** A measure is not less than itself. *)
Lemma measure_irrefl t : fits1 t → tm_lt m1 (tm_of m1 t) (tm_of m1 t) = false.
Proof using MeasureOk0.
  intros Hf. rewrite <- (app_nil_r t) at 2. apply measure_lt; [by rewrite app_nil_r|apply measure_nil].
Qed.

(** What measures nothing changes nothing. *)
Lemma measure_still t u : fits1 (t ++ u) → tm_of m1 u = tm_zero m1 → tm_of m1 (t ++ u) = tm_of m1 t.
Proof using MeasureOk0.
  intros Hf Hu. rewrite measure_app, Hu, <- (measure_nil (td := m1)), <- measure_app by (done || (rewrite app_nil_r; by eapply measure_fits)).
  by rewrite app_nil_r.
Qed.

#[export] Instance dimensions_measure_ok : MeasureOk (dimensions_measure m1 m2) (λ t, fits1 t ∧ fits2 t).
Proof.
  split.
  - intros t u [H1 H2]. split; [by apply measure_fits in H1|by apply measure_fits in H2].
  - cbn. by rewrite !measure_nil.
  - intros t u [H1 H2]. cbn. by rewrite !measure_app.
  - intros t u [H1 H2]. cbn [tm_lt tm_of tm_zero dimensions_measure fst snd]. rewrite orb_false_iff.
    destruct (tm_lt m1 (tm_of m1 t) (tm_of m1 (t ++ u))) eqn:E1.
    + split; [by intros [??]|]. intros [= E' _]. apply (measure_lt (td := m1) t u) in E'; [|done]. congruence.
    + apply (measure_lt (td := m1) t u) in E1; [|done]. rewrite measure_still, measure_irrefl by (done || by eapply (measure_fits (td := m1))).
      cbn [negb andb]. rewrite (measure_lt (td := m2) t u) by done. rewrite E1. split; [by intros [_ ->]|by intros [= ->]].
Qed.
End dimensions.

(** ** What the rope computes *)

(** On UTF-8 text the measure is the one the rope's dimension [td] adds up from
    the summaries and the bitmaps of its chunks. *)
Record computed_by (MAX_BASE : nat) {D} (td : TextDim D) (m : TextMeasure D) : Prop := {
  cp_text : ∃ f, RopeRanges.text_measures MAX_BASE td f ∧ ∀ t, utf8 t → tm_of m t = f t;
  cp_zero : dim_zero (td_dim td) = tm_zero m;
  cp_add : td_add td = tm_add m;
}.

Lemma units_char c : is_char c = true → units (encode_char c) = char_len_utf16 c.
Proof.
  intros Hc. unfold units, chars_bits. rewrite encode_char_boundary, encode_char_wide, !count_true_cons, !count_true_replicate by done.
  unfold char_len_utf16. by destruct (c <? 0x10000)%N.
Qed.

Lemma units_utf8 t : utf8 t → units t = utf16_len t.
Proof.
  intros (cs & Hcs & ->). rewrite utf16_len_encode by done. induction Hcs as [|c cs Hc _ IH]; [done|].
  rewrite encode_cons, units_app, units_char, IH by done. done.
Qed.

Lemma last_line_utf8 t : utf8 t → units (last_line t) = tail_units t.
Proof.
  intros (cs & Hcs & ->). induction cs as [|c cs IH] using rev_ind; [done|].
  apply Forall_app in Hcs as [Hcs [Hc _]%Forall_cons]. rewrite encode_app.
  assert (encode [c] = encode_char c) as -> by (unfold encode; cbn; apply app_nil_r).
  rewrite last_line_app, tail_units_app by by exists cs. destruct (Nat.eqb_spec (line_count (encode_char c)) 0) as [E|E].
  - rewrite units_app, IH, units_utf8 by (done || by apply encode_char_utf8). done.
  - destruct (decide (c = char_newline)) as [->|Hne]; [done|]. exfalso. apply E. unfold line_count.
    by rewrite newline_char_bits, count_true_replicate by done.
Qed.

Lemma point16_utf8 t : utf8 t → point16 t = point16_of t.
Proof. intros Ht. unfold point16, point16_of. by rewrite last_line_utf8. Qed.

Lemma fits16_utf8 t : utf8 t → fits32 t → fits16 t.
Proof.
  intros Ht Hf. split; [done|]. rewrite units_utf8 by done. pose proof (utf16_len_bound t). unfold fits32, is_u32 in *. lia.
Qed.

Lemma measures_computed MAX_BASE : 8 ≤ MAX_BASE ≤ 128 →
  computed_by MAX_BASE usize_text_dim usize_measure ∧ computed_by MAX_BASE (utf16_text_dim MAX_BASE) offset_utf16_measure ∧
  computed_by MAX_BASE (point_text_dim MAX_BASE) point_measure ∧ computed_by MAX_BASE (point_utf16_text_dim MAX_BASE) point_utf16_measure.
Proof.
  intros HM. split_and!; (split; [|done..]).
  - exists length. split; [by apply RopeRanges.usize_text_measures|done].
  - exists utf16_len. split; [by apply RopeRanges.utf16_text_measures|apply units_utf8].
  - exists point_of. split; [by apply RopeRanges.point_text_measures|done].
  - exists point16_of. split; [by apply RopeRanges.point16_text_measures|apply point16_utf8].
Qed.
