(* ===== verification/LineDiff.v ===== *)
(** * Line diffs ([LineDiff] of [crates/streaming_diff/src/streaming_diff.rs])

    [LineDiff] is fed character operations as they are produced and collects
    which rows of the old text are deleted and which rows of the new text are
    inserted; [line_operations] reads the operations on lines off the two sets. *)

From S2P Require Import Prelude Text Bitmap Utf8 Summary Chunk Rope RopeSeek RopeChunks Float StreamingDiff.

Inductive LineOperation := InsertLines (lines : N) | DeleteLines (lines : N) | KeepLines (lines : N).

Record LineDiff := mkLineDiff {
  inserted_newline_at_end : bool;
  old_end : Point;
  new_end : Point;
  deleted_rows : gset N;
  inserted_rows : gset N;
  buffered_insert : Text;
  buffered_delete : nat;
}.
Definition line_diff_default : LineDiff := mkLineDiff false point_zero point_zero ∅ ∅ [] 0.

(** [BTreeSet::extend] with [a..b] and [a..=b]. *)
Definition rows_list (a n : N) : list N := (λ i, (a + N.of_nat i)%N) <$> seq 0 (N.to_nat n).
Definition rows_between (a b : N) : gset N := list_to_set (rows_list a (b - a)).
Definition rows_through (a b : N) : gset N := rows_between a (b + 1).

Section line_diff.
Context (MAX_BASE : nat) (is_grapheme_boundary : Text → nat → bool).
Implicit Types (old_text : list (Chunk * TextSummary)) (d : LineDiff).

(** The flag and the two sets a flush leaves. *)
Definition flushed (b : bool) (deleted inserted : gset N) : bool * gset N * gset N := (b, deleted, inserted).
Definition is_line_start (p : Point) : bool := (column p =? 0)%N.
Definition is_line_end (p : Point) old_text : option bool := l ← line_len MAX_BASE is_grapheme_boundary old_text (row p); Some (l =? column p)%N.

Definition ends_with_newline (t : Text) : bool := match last t with Some b => is_newline b | None => false end.
Definition starts_with_newline (t : Text) : bool := match t with b :: _ => is_newline b | [] => false end.

Definition flush_insert d old_text : option LineDiff :=
  if bool_decide (buffered_insert d = []) then Some d
  else
    let new_start := new_end d in
    let lines := s_lines (from_str (buffered_insert d)) in
    let new_end := point_add (new_end d) lines in
    line_end ← (if is_line_start (old_end d) then Some false else is_line_end (old_end d) old_text);
    let '(at_end, deleted, inserted) :=
      if is_line_start (old_end d) then
        if (column new_end =? 0)%N then flushed (inserted_newline_at_end d) (deleted_rows d) (inserted_rows d ∪ rows_between (row new_start) (row new_end))
        else flushed (inserted_newline_at_end d) (deleted_rows d ∪ {[row (old_end d)]}) (inserted_rows d ∪ rows_through (row new_start) (row new_end))
      else if (line_end : bool) then
        if starts_with_newline (buffered_insert d) then flushed true (deleted_rows d) (inserted_rows d ∪ rows_through (row new_start + 1) (row new_end))
        else
          flushed (inserted_newline_at_end d)
           (if inserted_newline_at_end d then deleted_rows d else deleted_rows d ∪ {[row (old_end d)]})
           (inserted_rows d ∪ rows_through (row new_start) (row new_end))
      else flushed (inserted_newline_at_end d) (deleted_rows d ∪ {[row (old_end d)]}) (inserted_rows d ∪ rows_through (row new_start) (row new_end)) in
    Some (mkLineDiff at_end (old_end d) new_end deleted inserted [] (buffered_delete d)).

Definition flush_delete d old_text : option LineDiff :=
  if buffered_delete d =? 0 then Some d
  else
    let old_start := old_end d in
    o ← rope_point_to_offset MAX_BASE old_text (old_end d);
    old_end ← rope_offset_to_point MAX_BASE old_text (o + buffered_delete d);
    start_at_end ← is_line_end old_start old_text;
    end_at_end ← (if (start_at_end : bool) then is_line_end old_end old_text else Some false);
    let '(_, deleted, inserted) :=
      if start_at_end && end_at_end then flushed false (deleted_rows d ∪ rows_through (row old_start + 1) (row old_end)) (inserted_rows d)
      else if is_line_start old_start && (is_line_start old_end && point_ltb old_end (max_point old_text)) && (column (new_end d) =? 0)%N
      then flushed false (deleted_rows d ∪ rows_between (row old_start) (row old_end)) (inserted_rows d)
      else flushed false (deleted_rows d ∪ rows_through (row old_start) (row old_end)) (inserted_rows d ∪ {[row (new_end d)]}) in
    Some (mkLineDiff false old_end (new_end d) deleted inserted (buffered_insert d) 0).

Definition keep (bytes : nat) d old_text : option LineDiff :=
  if bytes =? 0 then Some d
  else
    o ← rope_point_to_offset MAX_BASE old_text (old_end d);
    p ← rope_offset_to_point MAX_BASE old_text (o + bytes);
    let lines := point_sub p (old_end d) in
    Some (mkLineDiff false (point_add (old_end d) lines) (point_add (new_end d) lines) (deleted_rows d) (inserted_rows d)
      (buffered_insert d) (buffered_delete d)).

(** The characters the two walks have in common, as bytes. *)
Fixpoint common_len (new_chars old_chars : list Char) : nat :=
  match new_chars, old_chars with
  | n :: ns, o :: os => if (n =? o)%N then len_utf8 n + common_len ns os else 0
  | _, _ => 0
  end.
Definition trim_buffered_end d old_text : option (nat * LineDiff) :=
  old_start_offset ← rope_point_to_offset MAX_BASE old_text (old_end d);
  let old_end_offset := old_start_offset + buffered_delete d in
  c ← chunks_in_range MAX_BASE old_text old_start_offset old_end_offset;
  chunks ← collect_chunks c;
  let new_chars := rev (decode (buffered_insert d)) in
  let old_chars := concat ((λ chunk, rev (decode chunk)) <$> chunks) in
  let common_suffix_len := common_len new_chars old_chars in
  del ← checked_sub (buffered_delete d) common_suffix_len;
  len ← checked_sub (length (buffered_insert d)) common_suffix_len;
  Some (common_suffix_len, mkLineDiff (inserted_newline_at_end d) (old_end d) (new_end d) (deleted_rows d) (inserted_rows d)
    (take len (buffered_insert d)) del).

Definition buffer_insert d (t : Text) : LineDiff :=
  mkLineDiff (inserted_newline_at_end d) (old_end d) (new_end d) (deleted_rows d) (inserted_rows d) (buffered_insert d ++ t) (buffered_delete d).
Definition buffer_delete d (n : nat) : LineDiff :=
  mkLineDiff (inserted_newline_at_end d) (old_end d) (new_end d) (deleted_rows d) (inserted_rows d) (buffered_insert d) (buffered_delete d + n).

Definition push_char_operation d (operation : CharOperation) old_text : option LineDiff :=
  match operation with
  | Insert t =>
      d ← flush_delete d old_text;
      if is_line_start (old_end d) then
        match rposition is_newline t with
        | Some newline_ix =>
            d ← flush_insert (buffer_insert d (take (newline_ix + 1) t)) old_text;
            Some (buffer_insert d (drop (newline_ix + 1) t))
        | None => Some (buffer_insert d t)
        end
      else
        let d := buffer_insert d t in
        if ends_with_newline t then Some d else flush_insert d old_text
  | Delete bytes =>
      '(common_suffix_len, d) ← trim_buffered_end (buffer_delete d bytes) old_text;
      d ← flush_insert d old_text;
      flush ← (if 0 <? common_suffix_len then Some true else e ← is_line_end (old_end d) old_text; Some (negb e));
      if (flush : bool) then d ← flush_delete d old_text; keep common_suffix_len d old_text else Some d
  | Keep bytes =>
      d ← flush_delete d old_text;
      d ← flush_insert d old_text;
      keep bytes d old_text
  end.
Definition push_char_operations d (operations : list CharOperation) old_text : option LineDiff :=
  for_each (λ d op, push_char_operation d op old_text) d operations.

Definition finish_lines d old_text : option LineDiff :=
  d ← flush_insert d old_text;
  d ← flush_delete d old_text;
  let old_start := old_end d in
  let old_end := max_point old_text in
  Some (mkLineDiff (inserted_newline_at_end d) old_end (point_add (new_end d) (point_sub old_end old_start)) (deleted_rows d) (inserted_rows d)
    (buffered_insert d) (buffered_delete d)).

(** ** Reading off the operations *)

Definition push_line_delete (ops : list LineOperation) : list LineOperation :=
  match last ops with Some (DeleteLines n) => removelast ops ++ [DeleteLines (n + 1)] | _ => ops ++ [DeleteLines 1] end.
Definition push_line_insert (ops : list LineOperation) : list LineOperation :=
  match last ops with Some (InsertLines n) => removelast ops ++ [InsertLines (n + 1)] | _ => ops ++ [InsertLines 1] end.

Fixpoint line_operations_loop (fuel : nat) d (deleted inserted : list N) (old_row new_row : N) (ops : list LineOperation) : option (N * list LineOperation) :=
  match deleted, inserted with
  | [], [] => Some (old_row, ops)
  | _, _ =>
      match fuel with
      | O => None
      | S fuel =>
          if bool_decide (head deleted = Some old_row) then
            line_operations_loop fuel d (tail deleted) inserted (old_row + 1) new_row (push_line_delete ops)
          else if bool_decide (head inserted = Some new_row) then
            line_operations_loop fuel d deleted (tail inserted) old_row (new_row + 1) (push_line_insert ops)
          else
            let lines_to_next_deletion := sub_u32 (default (row (new_end d) + 1)%N (head inserted)) new_row in
            let lines_to_next_insertion := sub_u32 (default (row (old_end d) + 1)%N (head deleted)) old_row in
            let kept_lines := N.max 1 (N.min lines_to_next_insertion lines_to_next_deletion) in
            line_operations_loop fuel d deleted inserted (old_row + kept_lines) (new_row + kept_lines) (ops ++ [KeepLines kept_lines])
      end
  end.
Definition sorted_rows (s : gset N) : list N := merge_sort N.le (elements s).
Definition line_operations (fuel : nat) d : option (list LineOperation) :=
  '(old_row, ops) ← line_operations_loop fuel d (sorted_rows (deleted_rows d)) (sorted_rows (inserted_rows d)) 0 0 [];
  let rows := (row (old_end d) + 1)%N in
  Some (if (old_row <? rows)%N then ops ++ [KeepLines (rows - old_row)] else ops).

Definition line_diff (fuel : nat) old_text (ops : list CharOperation) : option (list LineOperation) :=
  d ← push_char_operations line_diff_default ops old_text; d ← finish_lines d old_text; line_operations fuel d.
End line_diff.

(** How many rows of the old text the operations read, and how many of the new
    text they write. *)
Definition rows_read (ops : list LineOperation) : N := foldr (λ o n, match o with InsertLines _ => n | DeleteLines k | KeepLines k => k + n end)%N 0%N ops.
Definition rows_written (ops : list LineOperation) : N := foldr (λ o n, match o with DeleteLines _ => n | InsertLines k | KeepLines k => k + n end)%N 0%N ops.

(** Which rows they delete and insert, when they start at the given row. *)
Fixpoint ops_deleted (ops : list LineOperation) (r : N) : list N :=
  match ops with
  | [] => []
  | InsertLines _ :: ops => ops_deleted ops r
  | KeepLines k :: ops => ops_deleted ops (r + k)
  | DeleteLines k :: ops => rows_list r k ++ ops_deleted ops (r + k)
  end.
Fixpoint ops_inserted (ops : list LineOperation) (r : N) : list N :=
  match ops with
  | [] => []
  | DeleteLines _ :: ops => ops_inserted ops r
  | KeepLines k :: ops => ops_inserted ops (r + k)
  | InsertLines k :: ops => rows_list r k ++ ops_inserted ops (r + k)
  end.

Module LineDiffExamples.
(** 127 times [a], then [b], a newline and [tail]: two chunks of 128 bytes. *)
Definition old_text : Text := encode (replicate 127 97 ++ [98; 10; 116; 97; 105; 108])%N.
Definition old_rope : list (Chunk * TextSummary) := default [] (rope_from 128 4 old_text).
(** The first line and its newline are replaced by [Zb]. *)
Definition operations : list CharOperation := [Insert (encode [90; 98]%N); Delete 129; Keep 4].
End LineDiffExamples.

(** ** Reading the operations off the rows *)

Lemma rows_list_snoc r n : rows_list r (n + 1) = rows_list r n ++ [(r + n)%N].
Proof.
  unfold rows_list. rewrite N2Nat.inj_add, Nat.add_1_r, seq_S, fmap_app. simpl. by rewrite N2Nat.id.
Qed.

Lemma rows_read_app a b : rows_read (a ++ b) = (rows_read a + rows_read b)%N.
Proof. induction a as [|[] a IH]; simpl; lia. Qed.
Lemma rows_written_app a b : rows_written (a ++ b) = (rows_written a + rows_written b)%N.
Proof. induction a as [|[] a IH]; simpl; lia. Qed.
Lemma ops_deleted_app a b r : ops_deleted (a ++ b) r = ops_deleted a r ++ ops_deleted b (r + rows_read a).
Proof.
  revert r. induction a as [|[n|n|n] a IH]; intros r; simpl; [by rewrite N.add_0_r|..]; rewrite IH, ?N.add_assoc; [done|apply app_assoc|done].
Qed.
Lemma ops_inserted_app a b r : ops_inserted (a ++ b) r = ops_inserted a r ++ ops_inserted b (r + rows_written a).
Proof.
  revert r. induction a as [|[n|n|n] a IH]; intros r; simpl; [by rewrite N.add_0_r|..]; rewrite IH, ?N.add_assoc; [apply app_assoc|done|done].
Qed.

(** What operations amount to. *)
Definition ops_effect (ops : list LineOperation) (deleted inserted : list N) (old_row new_row : N) : Prop :=
  ops_deleted ops 0 = deleted ∧ ops_inserted ops 0 = inserted ∧ rows_read ops = old_row ∧ rows_written ops = new_row.

Lemma ops_effect_snoc ops dl il o n op : ops_effect ops dl il o n →
  ops_effect (ops ++ [op]) (dl ++ ops_deleted [op] o) (il ++ ops_inserted [op] n) (o + rows_read [op]) (n + rows_written [op]).
Proof.
  intros (<- & <- & <- & <-). unfold ops_effect. by rewrite ops_deleted_app, ops_inserted_app, rows_read_app, rows_written_app, !N.add_0_l.
Qed.
Lemma push_line_delete_effect ops dl il o n : ops_effect ops dl il o n → ops_effect (push_line_delete ops) (dl ++ [o]) il (o + 1) n.
Proof.
  intros H. unfold push_line_delete. pose proof (ops_effect_snoc _ _ _ _ _ (DeleteLines 1) H) as H1.
  simpl in H1. rewrite !N.add_0_r, !app_nil_r in H1.
  destruct ops as [|x l _] using rev_ind; [exact H1|]. rewrite last_snoc. destruct x as [k|k|k]; try exact H1. rewrite removelast_last.
  destruct H as (<- & <- & <- & <-). unfold ops_effect. rewrite !ops_deleted_app, !ops_inserted_app, !rows_read_app, !rows_written_app. simpl.
  rewrite rows_list_snoc, !app_nil_r, <-(app_assoc _ _ [_]). repeat split; [|lia..]. do 3 f_equal. lia.
Qed.
Lemma push_line_insert_effect ops dl il o n : ops_effect ops dl il o n → ops_effect (push_line_insert ops) dl (il ++ [n]) o (n + 1).
Proof.
  intros H. unfold push_line_insert. pose proof (ops_effect_snoc _ _ _ _ _ (InsertLines 1) H) as H1.
  simpl in H1. rewrite !N.add_0_r, !app_nil_r in H1.
  destruct ops as [|x l _] using rev_ind; [exact H1|]. rewrite last_snoc. destruct x as [k|k|k]; try exact H1. rewrite removelast_last.
  destruct H as (<- & <- & <- & <-). unfold ops_effect. rewrite !ops_deleted_app, !ops_inserted_app, !rows_read_app, !rows_written_app. simpl.
  rewrite rows_list_snoc, !app_nil_r, <-(app_assoc _ _ [_]). repeat split; [|lia..]. do 3 f_equal. lia.
Qed.

(** Rows in order, from [lo] and below [hi]. *)
Definition rows_within (lo hi : N) (l : list N) : Prop := StronglySorted N.lt l ∧ ∀ x, x ∈ l → (lo ≤ x < hi)%N.

Lemma rows_within_cons lo hi x l : rows_within lo hi (x :: l) → (lo ≤ x < hi)%N ∧ rows_within (x + 1) hi l.
Proof.
  intros [Hs Hin]. apply StronglySorted_inv in Hs as [Hs Hx]. rewrite Forall_forall in Hx. split; [apply Hin; left|].
  split; [done|]. intros y Hy. pose proof (Hx y Hy). pose proof (Hin y ltac:(by right)). lia.
Qed.
Lemma rows_within_head lo lo' hi l : rows_within lo hi l → (∀ x, head l = Some x → (lo' ≤ x)%N) → rows_within lo' hi l.
Proof.
  intros [Hs Hin] Hh. split; [done|]. intros y Hy. split; [|by apply Hin]. destruct l as [|x l]; [by apply elem_of_nil in Hy|].
  specialize (Hh x eq_refl). apply StronglySorted_inv in Hs as [_ Hx]. rewrite Forall_forall in Hx.
  apply elem_of_cons in Hy as [->|Hy]; [done|]. specialize (Hx y Hy). lia.
Qed.
Lemma rows_within_length lo hi l : rows_within lo hi l → (lo ≤ hi)%N → (N.of_nat (length l) ≤ hi - lo)%N.
Proof.
  revert lo. induction l as [|x l IH]; intros lo H Hle; simpl; [lia|]. apply rows_within_cons in H as [? H].
  specialize (IH (x + 1)%N H). lia.
Qed.

Section reading.
Context (d : LineDiff) (Hold : (row (old_end d) + 1 < 2 ^ 32)%N) (Hnew : (row (new_end d) + 1 < 2 ^ 32)%N).
Abbreviation R := (row (old_end d) + 1)%N.
Abbreviation M := (row (new_end d) + 1)%N.

(** The rows still to be read, with as many kept on the one side as on the other. *)
Record pending (deleted inserted : list N) (old_row new_row : N) : Prop := {
  pd_old : (old_row ≤ R)%N;
  pd_new : (new_row ≤ M)%N;
  pd_deleted : rows_within old_row R deleted;
  pd_inserted : rows_within new_row M inserted;
  pd_kept : (R - old_row + N.of_nat (length inserted) = M - new_row + N.of_nat (length deleted))%N;
}.

Lemma pending_kept deleted inserted o n : pending deleted inserted o n → (deleted ≠ [] ∨ inserted ≠ []) →
  head deleted ≠ Some o → head inserted ≠ Some n →
  let k := N.max 1 (N.min (sub_u32 (default R (head deleted)) o) (sub_u32 (default M (head inserted)) n)) in
  (0 < k)%N ∧ (o + k ≤ R)%N ∧ (n + k ≤ M)%N ∧ pending deleted inserted (o + k) (n + k).
Proof using All.
  intros [Ho Hn Hd Hi Hk] Hne Hho Hhn.
  assert (HD : (o < default R (head deleted) ≤ R)%N).
  { destruct deleted as [|x l]; simpl.
    - destruct Hne as [?|Hne]; [done|]. destruct inserted as [|y l']; [done|]. apply rows_within_cons in Hi as [Hy Hi].
      pose proof (rows_within_length _ _ _ Hi). assert (y ≠ n) by (intros ->; done). simpl in Hk. lia.
    - apply rows_within_cons in Hd as [? _]. assert (x ≠ o) by (intros ->; done). lia. }
  assert (HI : (n < default M (head inserted) ≤ M)%N).
  { destruct inserted as [|x l]; simpl.
    - destruct Hne as [Hne|?]; [|done]. destruct deleted as [|y l']; [done|]. apply rows_within_cons in Hd as [Hy Hd].
      pose proof (rows_within_length _ _ _ Hd). assert (y ≠ o) by (intros ->; done). simpl in Hk. lia.
    - apply rows_within_cons in Hi as [? _]. assert (x ≠ n) by (intros ->; done). lia. }
  intros k. unfold k. rewrite !sub_u32_ok by (unfold is_u32, u32_max; lia). clear k.
  set (k := N.max 1 _). assert (Hk0 : (0 < k ∧ o + k ≤ default R (head deleted) ∧ n + k ≤ default M (head inserted))%N) by lia.
  split_and!; try lia. split; try lia.
  - eapply rows_within_head; [exact Hd|]. intros x Hx. rewrite Hx in Hk0. simpl in Hk0. lia.
  - eapply rows_within_head; [exact Hi|]. intros x Hx. rewrite Hx in Hk0. simpl in Hk0. lia.
Qed.

Lemma line_operations_loop_effect fuel deleted inserted o n ops dl il :
  pending deleted inserted o n → ops_effect ops dl il o n → (R - o + (M - n) < N.of_nat fuel)%N →
  ∃ o' n' ops', line_operations_loop fuel d deleted inserted o n ops = Some (o', ops') ∧
    ops_effect ops' (dl ++ deleted) (il ++ inserted) o' n' ∧ (R - o' = M - n' ∧ o' ≤ R ∧ n' ≤ M)%N.
Proof using All.
  revert deleted inserted o n ops dl il. induction fuel as [|fuel IH]; intros deleted inserted o n ops dl il HP He Hf; [lia|].
  destruct (decide (deleted = [] ∧ inserted = [])) as [[-> ->]|Hne].
  { exists o, n, ops. rewrite !app_nil_r. split; [done|]. split; [done|]. destruct HP as [? ? _ _ Hk]. simpl in Hk. lia. }
  assert (E : line_operations_loop (S fuel) d deleted inserted o n ops =
    if bool_decide (head deleted = Some o) then line_operations_loop fuel d (tail deleted) inserted (o + 1) n (push_line_delete ops)
    else if bool_decide (head inserted = Some n) then line_operations_loop fuel d deleted (tail inserted) o (n + 1) (push_line_insert ops)
    else let k := N.max 1 (N.min (sub_u32 (default R (head deleted)) o) (sub_u32 (default M (head inserted)) n)) in
      line_operations_loop fuel d deleted inserted (o + k) (n + k) (ops ++ [KeepLines k])).
  { destruct deleted, inserted; try done. naive_solver. }
  rewrite E. clear E. case_bool_decide as Hd; [|case_bool_decide as Hi].
  - destruct deleted as [|x l]; [done|]. simplify_eq/=. destruct HP as [Ho Hn Hd Hi Hk]. apply rows_within_cons in Hd as [? Hd].
    destruct (IH l inserted (o + 1)%N n (push_line_delete ops) (dl ++ [o]) il) as (o' & n' & ops' & -> & He' & ?);
      [split; try done; try lia; simpl in Hk; lia|by apply push_line_delete_effect|lia|].
    exists o', n', ops'. rewrite <-app_assoc in He'. done.
  - destruct inserted as [|x l]; [done|]. simplify_eq/=. destruct HP as [Ho Hn Hd' Hi Hk]. apply rows_within_cons in Hi as [? Hi].
    destruct (IH deleted l o (n + 1)%N (push_line_insert ops) dl (il ++ [n])) as (o' & n' & ops' & -> & He' & ?);
      [split; try done; try lia; simpl in Hk; lia|by apply push_line_insert_effect|lia|].
    exists o', n', ops'. rewrite <-app_assoc in He'. done.
  - destruct (pending_kept _ _ _ _ HP) as (Hk0 & Hk1 & Hk2 & HP'); [destruct deleted; [right; intros ->; by apply Hne|by left]|done|done|].
    cbv zeta. apply IH; [done| |lia].
    pose proof (ops_effect_snoc _ _ _ _ _ (KeepLines (N.max 1 (N.min (sub_u32 (default R (head deleted)) o) (sub_u32 (default M (head inserted)) n)))) He) as H1.
    simpl in H1. by rewrite !N.add_0_r, !app_nil_r in H1.
Qed.
End reading.

Lemma sorted_rows_within (s : gset N) hi : (∀ x, x ∈ s → (x < hi)%N) → rows_within 0 hi (sorted_rows s).
Proof.
  intros Hs. assert (Hp : sorted_rows s ≡ₚ elements s) by apply merge_sort_Permutation. split.
  - assert (HS : StronglySorted N.le (sorted_rows s)) by (apply StronglySorted_merge_sort; apply _).
    assert (HN : NoDup (sorted_rows s)) by (rewrite Hp; apply NoDup_elements). clear Hp.
    induction (sorted_rows s) as [|x l IH]; [constructor|]. apply StronglySorted_inv in HS as [HS Hx]. apply NoDup_cons in HN as [Hni HN].
    constructor; [by apply IH|]. rewrite Forall_forall in *. intros y Hy. specialize (Hx y Hy).
    assert (x ≠ y) by (intros ->; done). lia.
  - intros x Hx. rewrite Hp, elem_of_elements in Hx. split; [lia|by apply Hs].
Qed.

(** C34: reading the operations off the rows.  When the rows that are kept are
    as many in the old text as in the new one, [line_operations] ends, and its
    operations delete exactly the deleted rows, insert exactly the inserted
    rows, read every row of the old text and write every row of the new one. *)
Theorem line_operations_exact (d : LineDiff) fuel :
  (row (old_end d) + 1 < 2 ^ 32)%N → (row (new_end d) + 1 < 2 ^ 32)%N →
  (∀ r, r ∈ deleted_rows d → (r ≤ row (old_end d))%N) → (∀ r, r ∈ inserted_rows d → (r ≤ row (new_end d))%N) →
  (row (old_end d) + N.of_nat (size (inserted_rows d)) = row (new_end d) + N.of_nat (size (deleted_rows d)))%N →
  (row (old_end d) + row (new_end d) + 2 < N.of_nat fuel)%N →
  ∃ ops, line_operations fuel d = Some ops ∧
    ops_deleted ops 0 = sorted_rows (deleted_rows d) ∧ ops_inserted ops 0 = sorted_rows (inserted_rows d) ∧
    rows_read ops = (row (old_end d) + 1)%N ∧ rows_written ops = (row (new_end d) + 1)%N.
Proof.
  intros Hold Hnew Hd Hi Hk Hf.
  assert (Hlen : ∀ s : gset N, length (sorted_rows s) = size s) by (intros s; unfold sorted_rows; by rewrite merge_sort_Permutation).
  destruct (line_operations_loop_effect d Hold Hnew fuel (sorted_rows (deleted_rows d)) (sorted_rows (inserted_rows d)) 0 0 [] [] [])
    as (o & n & ops & E & (H1 & H2 & H3 & H4) & HR & Ho & Hn); [split; try lia|done|lia|].
  - apply sorted_rows_within. intros x Hx. specialize (Hd x Hx). lia.
  - apply sorted_rows_within. intros x Hx. specialize (Hi x Hx). lia.
  - rewrite !Hlen. lia.
  - unfold line_operations. rewrite E. cbn [mbind option_bind]. case_match eqn:Ho'.
    + eexists. split; [done|]. rewrite ops_deleted_app, ops_inserted_app, rows_read_app, rows_written_app. simpl. rewrite !app_nil_r.
      apply N.ltb_lt in Ho'. repeat split; try done; lia.
    + exists ops. apply N.ltb_ge in Ho'. repeat split; try done; lia.
Qed.

Lemma line_operations_exact_witness : ∃ ops,
  line_operations 20 (mkLineDiff false (mkPoint 5 0) (mkPoint 4 0) {[1; 2; 4]}%N {[1; 3]}%N [] 0) = Some ops ∧
  ops_deleted ops 0 = [1; 2; 4]%N ∧ ops_inserted ops 0 = [1; 3]%N ∧ rows_read ops = 6%N ∧ rows_written ops = 5%N.
Proof.
  refine (line_operations_exact (mkLineDiff false (mkPoint 5 0) (mkPoint 4 0) {[1; 2; 4]}%N {[1; 3]}%N [] 0) 20 _ _ _ _ _ _);
    [done|done|simpl; set_solver by lia|simpl; set_solver by lia|done|simpl; lia].
Defined.

(** [trim_buffered_end] walks the chunks of the deleted text forwards and each
    of them backwards, so a deletion over two chunks is compared with the end
    of the first: the rows it leaves do not satisfy the count above, and the
    operations keep a row the new text does not have. *)
Example line_diff_miscounts_rows :
  line_diff 128 (λ _ _, true) 100 LineDiffExamples.old_rope LineDiffExamples.operations = Some [DeleteLines 1; InsertLines 1; KeepLines 1] ∧
  apply_ops LineDiffExamples.operations LineDiffExamples.old_text = Some (encode [90; 98; 116; 97; 105; 108]%N, []).
Proof. split; vm_compute; reflexivity. Qed.
