(* ===== verification/Anchor.v ===== *)
(** * Anchors ([crates/text/src/anchor.rs] and the anchor functions of
    [BufferSnapshot] in [crates/text/src/text.rs])

    An anchor names a byte of an insertion and a side of it.  It is made from
    an offset of the visible text, resolved to an offset of any later one, and
    compared with other anchors through the insertion index and the ids of
    fragments. *)

From S2P Require Import Prelude Clock Text SumTree Cursor Search KeyedTree UndoMap Patch Fragment Cells Undo Chunk Buffer.
From S2P Require Locator.

Record Anchor := mkAnchor {
  a_timestamp : Lamport;
  a_offset : N;
  a_bias : Bias;
  a_buffer_id : N;
}.
#[export] Instance Bias_eq_dec : EqDecision Bias.
Proof. solve_decision. Defined.
#[export] Instance Anchor_eq_dec : EqDecision Anchor.
Proof. solve_decision. Defined.

(** [Bias] is [Left], then [Right]. *)
Definition bias_cmp (a b : Bias) : comparison :=
  match a, b with Left, Right => Lt | Right, Left => Gt | _, _ => Eq end.
Definition then_cmp (a b : comparison) : comparison := match a with Eq => b | _ => a end.

Definition min_for_buffer (buffer_id : N) : Anchor := mkAnchor LAMPORT_MIN 0 Left buffer_id.
Definition max_for_buffer (buffer_id : N) : Anchor := mkAnchor LAMPORT_MAX u32_max Right buffer_id.
Definition min_max_range_for_buffer (buffer_id : N) : Anchor * Anchor := (min_for_buffer buffer_id, max_for_buffer buffer_id).
Definition is_min (a : Anchor) : bool := bool_decide (a_timestamp a = LAMPORT_MIN ∧ a_offset a = 0%N ∧ a_bias a = Left).
Definition is_max (a : Anchor) : bool := bool_decide (a_timestamp a = LAMPORT_MAX ∧ a_offset a = u32_max ∧ a_bias a = Right).

(** [to_le_bytes] of a number of [n] bytes. *)
Fixpoint to_le_bytes (n : nat) (x : N) : list N := match n with O => [] | S n => (x mod 256)%N :: to_le_bytes n (x / 256) end.
Definition opaque_id (a : Anchor) : list N :=
  to_le_bytes 8 (a_buffer_id a) ++ to_le_bytes 4 (a_offset a) ++ to_le_bytes 4 (value (a_timestamp a)) ++
  to_le_bytes 2 (replica_id (a_timestamp a)) ++ [match a_bias a with Left => 0%N | Right => 1%N end; 0%N].

(** [debug]: [cfg!(debug_assertions)]; [remote_id]: the snapshot's buffer id. *)
Section snapshot.
Context (debug : bool) (remote_id : N).
Implicit Types (s : BufferSnapshot) (a b : Anchor).

(** [find] over the fragments. *)
Definition find_fragment {D} (add : D → Fragment → D) (past : D → bool) (d : D) (l : list Fragment) : D * option Fragment :=
  let '(_, c) := slice_from add past d l in (start c, item c).
Definition add_len (d : nat) (f : Fragment) : nat := d + ts_visible (fragment_text f).
Definition past_offset (offset : nat) (bias : Bias) (d : nat) : bool :=
  match bias with Left => d <? offset | Right => d <=? offset end.
Definition find_id s (i : Locator) : IdPosition * option Fragment := find_fragment add_id_position (past_id i) (None, 0) (fragments s).

(** ** From offsets to anchors *)

(** The outer option is the panic of a debug build. *)
Definition anchor_at_offset s (offset : nat) (bias : Bias) : option Anchor :=
  let len := length (visible_text s) in
  if bool_decide (bias = Left) && (offset =? 0) then Some (min_for_buffer remote_id)
  else if bool_decide (bias = Right) && ((negb debug && (len <=? offset)) || (offset =? len)) then Some (max_for_buffer remote_id)
  else
    offset ← (if is_char_boundary (visible_text s) offset then Some offset
              else if debug then None
              else Some (match bias with Left => floor_char_boundary (visible_text s) offset | Right => ceil_char_boundary (visible_text s) offset end));
    match find_fragment add_len (past_offset offset bias) 0 (fragments s) with
    | (_, None) => if debug then None else Some (max_for_buffer remote_id)
    | (start, Some f) =>
        overshoot ← usub offset start;
        Some (mkAnchor (f_timestamp f) (wrap_u32 (N.of_nat (insertion_offset f) + wrap_u32 (N.of_nat overshoot))) bias remote_id)
    end.

(** ** From anchors to offsets *)

Definition try_find_fragment s a : option (option InsertionFragment) :=
  let anchor_key := mkInsertionKey (a_timestamp a) (N.to_nat (a_offset a)) in
  '(_, _, r) ← find_with_prev (cmp anchor_key) (a_bias a) (insertions s);
  match r with
  | Some (prev, insertion) =>
      match cmp (key insertion) anchor_key with
      | Gt => Some prev
      | Eq => Some (if bool_decide (a_bias a = Left) && (0 <? a_offset a)%N then prev else Some insertion)
      | Lt => Some (Some insertion)
      end
  | None => Some (last_item (insertions s))
  end.

Definition offset_for_anchor s a : option nat :=
  if is_min a then Some 0
  else if is_max a then Some (length (visible_text s))
  else if debug && negb ((a_buffer_id a =? remote_id)%N && observed (version s) (a_timestamp a)) then None
  else
    item ← try_find_fragment s a;
    insertion ← item;
    if bool_decide (if_timestamp insertion = a_timestamp a) then
      let '(start, item) := find_id s (fragment_id insertion) in
      fragment ← item;
      if visible fragment then
        inside ← usub (N.to_nat (a_offset a)) (split_offset insertion); Some (start.2 + inside)
      else Some start.2
    else None.

Definition try_fragment_id_for_anchor s a : option (option Locator) :=
  if is_min a then Some (Some Locator.min)
  else if is_max a then Some (Some Locator.max)
  else
    item ← try_find_fragment s a;
    Some (match item with
          | Some insertion => if negb debug || bool_decide (if_timestamp insertion = a_timestamp a) then Some (fragment_id insertion) else None
          | None => None
          end).
Definition fragment_id_for_anchor s a : option Locator := i ← try_fragment_id_for_anchor s a; i.

Definition can_resolve s a : bool := is_min a || is_max a || ((remote_id =? a_buffer_id a)%N && observed (version s) (a_timestamp a)).

Definition is_valid s a : option bool :=
  if is_min a || is_max a then Some true
  else if negb (a_buffer_id a =? remote_id)%N then Some false
  else
    i ← try_fragment_id_for_anchor s a;
    Some (match i with
          | None => false
          | Some i => match (find_id s i).2 with Some f => visible f | None => false end
          end).

(** ** Comparing *)

Definition anchor_cmp s a b : option comparison :=
  fragment_id_comparison ←
    (if bool_decide (a_timestamp a = a_timestamp b) then Some Eq
     else i ← fragment_id_for_anchor s a; j ← fragment_id_for_anchor s b; Some (cmp i j));
  Some (then_cmp (then_cmp fragment_id_comparison (N.compare (a_offset a) (a_offset b))) (bias_cmp (a_bias a) (a_bias b))).
Definition anchor_min s a b : option Anchor := c ← anchor_cmp s a b; Some (match c with Gt => b | _ => a end).
Definition anchor_max s a b : option Anchor := c ← anchor_cmp s a b; Some (match c with Lt => b | _ => a end).

(** ** Anchors at positions *)

(** [ToOffset] for offsets and for anchors, whose summary is that of a range. *)
Definition usize_to_offset s (offset : nat) : nat := floor_char_boundary (visible_text s) offset.
Definition anchor_to_offset s a : option nat := o ← offset_for_anchor s a; Some (usize_to_offset s o).

Definition anchor_at s (position : nat) (bias : Bias) : option Anchor := anchor_at_offset s (usize_to_offset s position) bias.
Definition anchor_before s (position : nat) : option Anchor := anchor_at s position Left.
Definition anchor_after s (position : nat) : option Anchor := anchor_at s position Right.
Definition anchor_range_inside s (r : nat * nat) : option (Anchor * Anchor) :=
  a ← anchor_after s r.1; b ← anchor_before s r.2; Some (a, b).
Definition anchor_range_outside s (r : nat * nat) : option (Anchor * Anchor) :=
  a ← anchor_before s r.1; b ← anchor_after s r.2; Some (a, b).

Definition bias_left s a : option Anchor :=
  match a_bias a with Left => Some a | Right => o ← anchor_to_offset s a; anchor_at_offset s o Left end.
Definition bias_right s a : option Anchor :=
  match a_bias a with Left => o ← anchor_to_offset s a; anchor_at_offset s o Right | Right => Some a end.
Definition anchor_bias s a (bias : Bias) : option Anchor := match bias with Left => bias_left s a | Right => bias_right s a end.

(** ** Ranges of anchors ([AnchorRangeExt]) *)

Implicit Types r : Anchor * Anchor.

Definition range_cmp s r (other : Anchor * Anchor) : option comparison :=
  c ← anchor_cmp s r.1 other.1;
  match c with Eq => anchor_cmp s other.2 r.2 | _ => Some c end.
Definition range_overlaps s r (other : Anchor * Anchor) : option bool :=
  c ← anchor_cmp s r.1 other.2;
  match c with Lt => d ← anchor_cmp s other.1 r.2; Some (match d with Lt => true | _ => false end) | _ => Some false end.
Definition contains_anchor s r (other : Anchor) : option bool :=
  c ← anchor_cmp s r.1 other;
  match c with Gt => Some false | _ => d ← anchor_cmp s r.2 other; Some (match d with Lt => false | _ => true end) end.
End snapshot.
