(* ===== verification/AnchorOk.v ===== *)
(** * Anchors resolve to the bytes they name

    The insertion index holds exactly the fragments of the snapshot, so the
    search in it finds the fragment that holds an anchor's byte; the fragment's
    id finds its place in the text. *)

From S2P Require Import Prelude Clock Text SumTree Cursor Search KeyedTree UndoMap Patch Fragment Cells BufferInv Undo UndoIndex RemoteCells RemoteEdit RemoteEditOk Tracking Converge Chunk Buffer BufferState Anchor.
From S2P Require Locator.
Local Open Scope ord_scope.

(** ** Searching the index *)

Section index.
Implicit Types (k : InsertionFragmentKey) (l : list InsertionFragment).

Definition passed k (bias : Bias) (x : InsertionFragment) : bool := past (cmp k (key x)) bias.

Lemma passed_mono k bias x y : key x ≺ key y → passed k bias y = true → passed k bias x = true.
Proof.
  unfold passed. intros Hxy Hy. assert (key y ≼ k) as Hle.
  { rewrite <- cmp_not_lt_le. intros E. by rewrite E in Hy. }
  assert (cmp k (key x) = Gt) as ->; [|done]. apply cmp_gt_lt. by eapply cmp_lt_le_trans.
Qed.

Lemma seek_index k bias d l : ksorted l →
  let '(sk, _, r) := lseek (λ p, past (cmp k p) bias) d l in
  l = sk ++ r ∧ Forall (λ x, passed k bias x = true) sk ∧ Forall (λ x, passed k bias x = false) r.
Proof.
  revert d. induction l as [|x l IH]; intros d Hs; cbn [lseek]; [by split_and!; constructor|].
  pose proof Hs as Hs'. apply StronglySorted_inv in Hs' as [Hsl Hx]. change (dadd d (summary x)) with (key x).
  change (past (cmp k (key x)) bias) with (passed k bias x). destruct (passed k bias x) eqn:Hp.
  - specialize (IH (key x) Hsl). destruct (lseek _ _ l) as [[sk d'] r]. destruct IH as (-> & ? & ?).
    split_and!; [done|by constructor|done].
  - split_and!; [done|constructor|]. constructor; [done|]. rewrite Forall_forall in Hx |- *. intros y Hy.
    destruct (passed k bias y) eqn:Hpy; [|done]. by rewrite (passed_mono k bias x y (Hx y Hy) Hpy) in Hp.
Qed.

Lemma dpos_insertions d l x : dpos d (l ++ [x]) = key x.
Proof. by rewrite dpos_app. Qed.

Lemma index_monotone k bias d l : ksorted l → monotone (λ p, past (cmp k p) bias) d l.
Proof.
  intros Hs l1 l2 l3 -> Hne. destruct l1 as [|x l1 _] using rev_ind; [done|]. destruct l2 as [|y l2 _] using rev_ind; [by rewrite app_nil_r|].
  assert (key x ≺ key y) as Hxy.
  { apply ksorted_app in Hs as (_ & _ & Hxy). apply Hxy; rewrite !elem_of_app; [right; by left|left; right; by left]. }
  rewrite app_assoc, !dpos_insertions. by apply (passed_mono k bias x y).
Qed.

(** The last fragment the search passes. *)
Lemma last_passed k bias d l x : ksorted l → x ∈ l → passed k bias x = true → (∀ y, y ∈ l → key x ≺ key y → passed k bias y = false) →
  let '(sk, _, r) := lseek (λ p, past (cmp k p) bias) d l in
  last sk = Some x ∧ l = sk ++ r ∧ Forall (λ x, passed k bias x = false) r.
Proof.
  intros Hs Hx Hp Hafter. pose proof (seek_index k bias d l Hs) as Hk. destruct (lseek _ _ l) as [[sk d'] r].
  destruct Hk as (-> & Hsk & Hr). split; [|done]. rewrite Forall_forall in Hsk, Hr.
  apply elem_of_app in Hx as [Hx|Hx]; [|apply Hr in Hx; congruence].
  destruct sk as [|z sk _] using rev_ind; [by apply elem_of_nil in Hx|]. rewrite last_snoc. f_equal.
  apply elem_of_app in Hx as [Hx|Hx%list_elem_of_singleton]; [|done]. exfalso.
  apply ksorted_app in Hs as (Hs & _). apply ksorted_app in Hs as (_ & _ & Hxz).
  assert (key x ≺ key z) as Hlt by (apply Hxz; [done|by left]).
  pose proof (Hsk z ltac:(set_solver)) as Hz. rewrite (Hafter z) in Hz; set_solver.
Qed.
End index.

(** Keys of one insertion. *)
Lemma same_key_lt a b : k_timestamp a = k_timestamp b → a ≺ b → k_split_offset a < k_split_offset b.
Proof. rewrite key_lt_iff. intros E [H|[_ H]]; [|done]. rewrite E in H. by apply cmp_lt_irrefl in H. Qed.
Lemma same_key_le a b : k_timestamp a = k_timestamp b → a ≼ b → k_split_offset a ≤ k_split_offset b.
Proof. rewrite key_le_iff. intros E [H|[_ H]]; [|done]. rewrite E in H. by apply cmp_lt_irrefl in H. Qed.

(** [o] is on the side [bias] of a byte of the fragment, or at the very start
    of its insertion. *)
Definition touches (f : Fragment) (o : nat) (bias : Bias) : Prop :=
  match bias with
  | Right => insertion_offset f ≤ o < insertion_offset f + f_len f
  | Left => insertion_offset f < o ≤ insertion_offset f + f_len f ∨ o = 0 ∧ insertion_offset f = 0
  end.

Section resolve.
Context (TREE_BASE : nat) (base : option Lamport) (s : BufferSnapshot) (Hs : state_ok TREE_BASE base s).

Lemma fragments_keys : NoDup (concat (fkeys <$> fragments s)).
Proof. rewrite <- (cells_keys _ _ _ (so_buffer _ _ _ Hs)). apply Hs. Qed.

Lemma fragment_ok f : f ∈ fragments s → frag_ok f.
Proof. pose proof (ok_frags _ _ _ (so_buffer _ _ _ Hs)) as H. rewrite Forall_forall in H. apply H. Qed.

(** A later entry of the insertion starts after the fragment. *)
Lemma later_entry f y : f ∈ fragments s → y ∈ items (insertions s) → key (new_insertion f) ≺ key y → if_timestamp y = f_timestamp f →
  insertion_offset f + f_len f ≤ split_offset y.
Proof.
  intros Hf Hy Hlt Ht. destruct (so_exact _ _ _ Hs y Hy) as (g & Hg & ->). cbn in Ht |- *.
  destruct (Nat.le_gt_cases (insertion_offset f + f_len f) (insertion_offset g)) as [?|Hgt]; [done|]. exfalso.
  destruct (fragment_ok g Hg) as [Hlen _].
  apply same_key_lt in Hlt; [|done]. cbn in Hlt.
  assert (f = g) as ->; [|lia]. apply (same_fragment (fragments s) f g (fkey g) fragments_keys Hf Hg); apply fkeys_elem; cbn; (split; [done|lia]).
Qed.

Lemma passed_entry ts o bias x : passed (mkInsertionKey ts o) bias x = true ↔
  match bias with Left => key x ≺ mkInsertionKey ts o | Right => key x ≼ mkInsertionKey ts o end.
Proof.
  unfold passed. destruct bias; [rewrite <- cmp_gt_lt|rewrite <- cmp_not_lt_le]; destruct (cmp _ (key x)); done.
Qed.

Lemma touched_passed f o : f ∈ fragments s → ∀ bias, touches f o bias → (bias = Left → o ≠ 0) →
  passed (mkInsertionKey (f_timestamp f) o) bias (new_insertion f) = true ∧
  ∀ y, y ∈ items (insertions s) → key (new_insertion f) ≺ key y → passed (mkInsertionKey (f_timestamp f) o) bias y = false.
Proof.
  intros Hf bias Ht H0. split.
  - apply passed_entry. destruct bias; [apply key_lt_iff|apply key_le_iff]; cbn; right; (split; [done|]).
    + specialize (H0 eq_refl). destruct Ht as [?|[? _]]; [lia|done].
    + destruct Ht; lia.
  - intros y Hy Hlt. destruct (passed _ _ y) eqn:Hp; [|done]. exfalso. apply passed_entry in Hp.
    assert (key y ≼ mkInsertionKey (f_timestamp f) o) as Hle by (destruct bias; [by apply cmp_lt_le|done]).
    assert (if_timestamp y = f_timestamp f) as Heq.
    { apply key_lt_iff in Hlt as [Hlt|[? _]]; [|done]. apply key_le_iff in Hle as [Hle|[? _]]; [|done].
      exfalso. apply (cmp_lt_asym _ _ Hlt Hle). }
    pose proof (later_entry f y Hf Hy Hlt Heq) as Hlater. apply fragment_ok in Hf as [Hlen _].
    destruct bias; [apply same_key_lt in Hp|apply same_key_le in Hp]; try done; cbn in Hp, Ht; lia.
Qed.

Lemma find_touched f a : f ∈ fragments s → a_timestamp a = f_timestamp f → touches f (N.to_nat (a_offset a)) (a_bias a) →
  try_find_fragment s a = Some (Some (new_insertion f)).
Proof.
  intros Hf Hts Ht. unfold try_find_fragment. rewrite Hts. set (o := N.to_nat (a_offset a)) in *. set (k := mkInsertionKey (f_timestamp f) o).
  destruct (so_insertions _ _ _ Hs) as [Hwf Hsort]. pose proof (so_indexed _ _ _ Hs f Hf) as Hin.
  pose proof (find_refines_scan TREE_BASE (insertions s) (cmp k) (a_bias a) Hwf (index_monotone k _ _ _ Hsort)) as Hfind.
  destruct (decide (a_bias a = Left ∧ o = 0)) as [[Hb H0]|Hnz].
  - assert (insertion_offset f = 0) as Hio by (rewrite Hb, H0 in Ht; destruct Ht as [?|[_ ?]]; lia).
    assert (key (new_insertion f) = k) as Hkey by (unfold k; rewrite H0; cbn; by rewrite Hio).
    assert (a_offset a = 0%N) as Ha0 by (unfold o in H0; lia).
    pose proof (seek_index k (a_bias a) dzero _ Hsort) as Hk. destruct (lseek _ _ _) as [[sk d] r].
    destruct Hk as (Hi & Hsk & Hr). destruct Hfind as [_ ->]. rewrite Hb in *. cbn [mbind option_bind].
    assert (∃ r', r = new_insertion f :: r') as [r' ->].
    { rewrite Hi in Hin, Hsort. rewrite Forall_forall in Hsk, Hr. apply elem_of_app in Hin as [Hx|Hx].
      - apply Hsk, passed_entry in Hx. rewrite Hkey in Hx. by apply cmp_lt_irrefl in Hx.
      - destruct r as [|z r']; [by apply elem_of_nil in Hx|]. apply elem_of_cons in Hx as [->|Hx]; [by exists r'|]. exfalso.
        apply ksorted_app in Hsort as (_ & Hsort & _). apply StronglySorted_inv in Hsort as [_ Hz]. rewrite Forall_forall in Hz.
        specialize (Hz _ Hx). unfold key_lt in Hz. rewrite Hkey in Hz. assert (passed k Left z = true) as Hpz by by apply passed_entry.
        rewrite (Hr z) in Hpz; [done|by left]. }
    cbn [mbind option_bind]. rewrite Hkey, cmp_refl, Ha0. done.
  - destruct (touched_passed f o Hf (a_bias a) Ht) as [Hp Hafter]; [intros Hb H0; by apply Hnz|].
    pose proof (last_passed k (a_bias a) dzero _ _ Hsort Hin Hp Hafter) as Hl. destruct (lseek _ _ _) as [[sk d] r].
    destruct Hl as (Hlast & Hi & Hr). destruct Hfind as [_ ->]. destruct r as [|z r]; cbn [mbind option_bind].
    + rewrite (last_item_ok TREE_BASE _ Hwf), Hi, app_nil_r, Hlast. done.
    + apply Forall_cons in Hr as [Hz _]. unfold passed in Hz. rewrite Hlast. rewrite (cmp_antisym (key z) k) in Hz.
      destruct (cmp (key z) k); [|destruct (a_bias a); done|done]. destruct (a_bias a); [|done].
      rewrite (proj2 (N.ltb_lt _ _)) by (assert (o ≠ 0) by (intros ?; by apply Hnz); lia). done.
Qed.

(** ** Finding the fragment in the text *)

Lemma find_id_ok l1 f l2 : fragments s = l1 ++ f :: l2 → ∃ d, find_id s (f_id f) = (d, Some f) ∧ d.2 = vlen l1.
Proof.
  intros Hl. unfold find_id, find_fragment. rewrite Hl.
  pose proof (slice_id_ok (f_id f) None 0 (l1 ++ f :: l2)) as Hsl. destruct (slice_from _ _ _ _) as [sk c].
  destruct Hsl as (Heq & Hst & Hlt & Hitem). pose proof (ids_sorted _ (ok_ids _ _ _ (so_buffer _ _ _ Hs))) as Hsort. rewrite Hl in Hsort.
  unfold ids in Hsort. rewrite fmap_app, fmap_cons in Hsort. apply sorted_app_inv in Hsort as (_ & _ & Hbefore).
  assert (sk = l1 ∧ upcoming c = f :: l2) as [-> Hup].
  { apply app_eq_inv in Heq as [(k & -> & Hk)|(k & -> & Hk)]; destruct k as [|g k]; simpl in Hk; rewrite ?app_nil_r; [done| |done|]; exfalso.
    - rewrite Forall_forall in Hlt. apply (Hitem g); [unfold item; by rewrite Hk|]. apply Hbefore; [|by left].
      apply list_elem_of_fmap_2, elem_of_app. right. by left.
    - injection Hk as <- _. rewrite Forall_forall in Hlt. apply (cmp_lt_irrefl (f_id f)), (Hlt f), elem_of_app. right. by left. }
  eexists. split; [|exact Hst]. unfold item. by rewrite Hup.
Qed.
End resolve.

(** Where a byte is: its fragment, and the visible bytes before it. *)
Lemma visible_fcells f t : length (visible_bytes (fcells f t)) = if visible f then length t else 0.
Proof. rewrite (proj1 (fcells_texts f t)). by destruct (visible f). Qed.

Lemma cell_position l v d k1 c k2 : vlen l ≤ length v → dlen l ≤ length d → cells l v d = k1 ++ c :: k2 →
  ∃ l1 f l2 i b, l = l1 ++ f :: l2 ∧ i < f_len f ∧ c = cell_of f i b ∧
    length (visible_bytes k1) = vlen l1 + (if visible f then i else 0).
Proof.
  revert v d k1. induction l as [|f l IH]; intros v d k1 Hv Hd; cbn [cells]; [by destruct k1|].
  rewrite vlen_cons in Hv. rewrite dlen_cons in Hd.
  assert (∀ v' d' t, length t = f_len f → vlen l ≤ length v' → dlen l ≤ length d' → fcells f t ++ cells l v' d' = k1 ++ c :: k2 →
    ∃ l1 f0 l2 i b, f :: l = l1 ++ f0 :: l2 ∧ i < f_len f0 ∧ c = cell_of f0 i b ∧ length (visible_bytes k1) = vlen l1 + (if visible f0 then i else 0)) as H.
  { intros v' d' t Ht Hv' Hd' Heq. destruct (Nat.lt_ge_cases (length k1) (length t)) as [Hlt|Hge].
    - exists [], f, l, (length k1). pose proof (f_equal (λ m, m !! length k1) Heq) as Hc. cbn in Hc.
      rewrite lookup_app_l in Hc by (by rewrite fcells_length). rewrite list_lookup_middle in Hc by done.
      unfold fcells in Hc. rewrite list_lookup_imap in Hc. destruct (t !! length k1) as [b|]; [|done]. injection Hc as Hc.
      exists b. split_and!; [done|lia|by rewrite Hc|]. assert (k1 = fcells f (take (length k1) t)) as ->.
      { rewrite <- fcells_take. apply (f_equal (take (length k1))) in Heq. rewrite take_app_length, take_app_le in Heq by (rewrite fcells_length; lia). done. }
      rewrite visible_fcells, fcells_length. done.
    - assert (∃ k1', k1 = fcells f t ++ k1') as [k1' ->].
      { exists (drop (length t) k1). apply (f_equal (take (length t))) in Heq.
        rewrite take_app_length' in Heq by (by rewrite fcells_length). rewrite take_app_le in Heq by done. by rewrite Heq, take_drop. }
      rewrite <- app_assoc in Heq. apply app_inv_head in Heq.
      destruct (IH v' d' k1' Hv' Hd' Heq) as (l1 & f0 & l2 & i & b & -> & Hi & -> & Hlen).
      exists (f :: l1), f0, l2, i, b. split_and!; [done..|]. rewrite visible_bytes_app, length_app, visible_fcells, Hlen, vlen_cons.
      destruct (visible f) eqn:E; [rewrite (vis_text f E)|rewrite (hid_text f E)]; simpl; lia. }
  destruct (visible f) eqn:E; [rewrite (vis_text f E) in *|rewrite (hid_text f E) in *]; simpl in Hv, Hd;
    apply H; rewrite ?length_take, ?length_drop; lia.
Qed.

(** ** Resolving *)

(** The anchor on one side of a byte. *)
Definition anchor_of (remote_id : N) (c : Cell) (bias : Bias) : Anchor :=
  mkAnchor (c_timestamp c) (N.of_nat (c_offset c) + match bias with Left => 1 | Right => 0 end) bias remote_id.

Section offsets.
Context (TREE_BASE : nat) (base : option Lamport) (s : BufferSnapshot) (Hs : state_ok TREE_BASE base s).
Context (debug : bool) (rid : N).

(** An anchor that touches a fragment. *)
Lemma offset_touched l1 f l2 a : fragments s = l1 ++ f :: l2 → a_timestamp a = f_timestamp f → a_buffer_id a = rid →
  touches f (N.to_nat (a_offset a)) (a_bias a) → is_min a = false → is_max a = false →
  offset_for_anchor debug rid s a = Some (vlen l1 + if visible f then N.to_nat (a_offset a) - insertion_offset f else 0).
Proof.
  intros Hl Hts Hrid Ht Hmin Hmax. assert (f ∈ fragments s) as Hf by (rewrite Hl; apply elem_of_app; right; by left).
  unfold offset_for_anchor. rewrite Hmin, Hmax, Hrid, N.eqb_refl.
  destruct (first_cell _ _ _ f (so_buffer _ _ _ Hs) Hf) as [b Hc].
  pose proof (so_cells _ _ _ Hs) as Hok. rewrite Forall_forall in Hok. pose proof (co_observed _ _ _ _ _ (Hok _ Hc)) as Ho. cbn in Ho.
  rewrite Hts, Ho, andb_false_r. rewrite (find_touched TREE_BASE base s Hs f a Hf Hts Ht). cbn [mbind option_bind new_insertion if_timestamp fragment_id split_offset].
  rewrite bool_decide_true by done. destruct (find_id_ok TREE_BASE base s Hs l1 f l2 Hl) as (d & -> & Hd). cbn [mbind option_bind].
  rewrite Hd. destruct (visible f); [|by rewrite Nat.add_0_r].
  rewrite usub_le; [done|]. destruct (a_bias a); cbn in Ht; lia.
Qed.

(** The visible text up to an anchor beside the byte after [k]. *)
Definition side (bias : Bias) (k : list Cell) (c : Cell) : list Cell := match bias with Left => k ++ [c] | Right => k end.

Lemma anchor_of_proper c bias : c ∈ scells s → is_min (anchor_of rid c bias) = false ∧ is_max (anchor_of rid c bias) = false.
Proof.
  intros Hc. pose proof (so_cells _ _ _ Hs) as Hok. rewrite Forall_forall in Hok. pose proof (co_stamp _ _ _ _ _ (Hok _ Hc)) as [_ Hpos].
  split; apply bool_decide_eq_false; intros (Ht & Ho & Hb); cbn in Ht, Ho, Hb; [by rewrite Ht in Hpos|]. subst bias.
  destruct (cell_fragment _ _ _ _ Hc) as (f & i & b & Hf & -> & Hi). apply (fragment_ok _ _ _ Hs) in Hf as [_ H32].
  unfold is_u32 in H32. cbn in Ho. lia.
Qed.

Lemma resolve_cell k c r bias : scells s = k ++ c :: r →
  offset_for_anchor debug rid s (anchor_of rid c bias) = Some (length (visible_bytes (side bias k c))).
Proof.
  intros Heq. destruct (anchor_of_proper c bias) as [Hmin Hmax]; [rewrite Heq; apply elem_of_app; right; by left|].
  destruct (so_buffer _ _ _ Hs) as [_ _ Hv Hd].
  destruct (cell_position _ _ _ k c r (Nat.eq_le_incl _ _ Hv) (Nat.eq_le_incl _ _ Hd) Heq) as (l1 & f & l2 & i & b & Hl & Hi & -> & Hlen).
  rewrite (offset_touched l1 f l2 _ Hl); [|done|done| |done|done].
  - f_equal. destruct bias; cbn [side anchor_of a_offset cell_of c_offset]; rewrite ?visible_bytes_app, ?length_app, Hlen.
    + unfold visible_bytes at 1. cbn. destruct (visible f); cbn; lia.
    + destruct (visible f); lia.
  - destruct bias; cbn; lia.
Qed.

(** ** Making anchors *)

Lemma find_offset_ok l o bias d :
  let '(st, it) := find_fragment add_len (past_offset o bias) d l in
  match it with
  | Some f => ∃ l1 l2, l = l1 ++ f :: l2 ∧ st = d + vlen l1 ∧ past_offset o bias (st + ts_visible (fragment_text f)) = false ∧
      (l1 ≠ [] → past_offset o bias st = true)
  | None => l = [] ∨ past_offset o bias (d + vlen l) = true
  end.
Proof.
  unfold find_fragment. revert d. induction l as [|f l IH]; intros d; cbn [slice_from]; [by left|].
  destruct (past_offset o bias (add_len d f)) eqn:Hp.
  - specialize (IH (add_len d f)). destruct (slice_from _ _ _ l) as [sk c]. unfold add_len in *. destruct (item c) as [g|].
    + destruct IH as (l1 & l2 & -> & -> & ? & Hne). exists (f :: l1), l2. rewrite vlen_cons. split_and!; [done|lia|done|]. intros _.
      destruct l1; [|by apply Hne]. unfold vlen. simpl. by rewrite Nat.add_0_r.
    + right. rewrite vlen_cons, Nat.add_assoc. destruct IH as [->|?]; [|done]. unfold vlen. simpl. by rewrite Nat.add_0_r.
  - cbn [item head upcoming start]. exists [], l. unfold vlen at 1. simpl. by rewrite Nat.add_0_r.
Qed.

(** The first fragment starts its insertion. *)
Lemma first_fragment f l : fragments s = f :: l → insertion_offset f = 0.
Proof.
  intros Hl. destruct (insertion_offset f) as [|m] eqn:Hio; [done|]. exfalso.
  pose proof (cells_keys _ _ _ (so_buffer _ _ _ Hs)) as Hk. fold (scells s) in Hk. rewrite Hl, fmap_cons in Hk. cbn [concat] in Hk.
  assert (frag_ok f) as [Hlen _] by (apply (fragment_ok _ _ _ Hs); rewrite Hl; by left).
  unfold fkeys in Hk at 1. destruct (f_len f) as [|n]; [lia|]. cbn [seq] in Hk. rewrite fmap_cons, Nat.add_0_r, Hio in Hk.
  assert ((f_timestamp f, m) ∈ ckey <$> scells s) as Hin.
  { apply (so_complete _ _ _ Hs (f_timestamp f, S m)); [rewrite Hk; by left|cbn; lia]. }
  pose proof (so_order _ _ _ Hs) as Hord. rewrite Hk in Hord, Hin. apply StronglySorted_inv in Hord as [_ Hord].
  rewrite Forall_forall in Hord. apply elem_of_cons in Hin as [[= Hc]|Hin]; [lia|].
  specialize (Hord _ Hin eq_refl). cbn in Hord. lia.
Qed.

(** The fragment an offset falls into. *)
Lemma offset_fragment o bias st it : o ≤ length (visible_text s) → (bias = Right → o < length (visible_text s)) → fragments s ≠ [] →
  find_fragment add_len (past_offset o bias) 0 (fragments s) = (st, it) →
  ∃ f l1 l2, it = Some f ∧ fragments s = l1 ++ f :: l2 ∧ st = vlen l1 ∧ st ≤ o ∧ touches f (insertion_offset f + (o - st)) bias ∧
    is_u32 (N.of_nat (insertion_offset f + (o - st))) ∧ (visible f = true ∨ o = st) ∧
    (bias = Left ∧ o = 0 ∨ visible f = true ∧ ∃ i, i < f_len f ∧ o = st + i + match bias with Left => 1 | Right => 0 end).
Proof.
  intros Ho Hlt Hne E. pose proof (find_offset_ok (fragments s) o bias 0) as H. rewrite E in H.
  destruct (so_buffer _ _ _ Hs) as [_ Hfr Hv _].
  destruct it as [f|]; [|destruct H as [?|H]; [done|]; unfold past_offset in H; rewrite Hv in H; destruct bias;
    [apply Nat.ltb_lt in H; lia|apply Nat.leb_le in H; specialize (Hlt eq_refl); lia]].
  destruct H as (l1 & l2 & Hl & -> & Hend & Hst). exists f, l1, l2. rewrite Hl in Hfr. apply Forall_app in Hfr as [_ [[Hlen H32] _]%Forall_cons].
  cbn [Nat.add] in *. assert (ts_visible (fragment_text f) = if visible f then f_len f else 0) as Hvis by (unfold fragment_text; by destruct (visible f)).
  rewrite Hvis in Hend. split; [done|]. split; [done|]. split; [done|]. unfold past_offset in *. destruct bias; cbn [touches].
  - apply Nat.ltb_ge in Hend. destruct l1 as [|g l1].
    + change (vlen []) with 0 in *. pose proof (first_fragment f l2 Hl) as Hio. rewrite Hio in *.
      destruct (visible f); (split_and!; [lia|lia|eapply is_u32_le, H32; lia| |]).
      * by left.
      * destruct o as [|o]; [by left|right; split; [done|]; exists o; lia].
      * right. lia.
      * left. split; [done|lia].
    + specialize (Hst ltac:(done)). apply Nat.ltb_lt in Hst. destruct (visible f); [|lia].
      split_and!; [lia|lia|eapply is_u32_le, H32; lia|by left|]. right. split; [done|]. exists (o - vlen (g :: l1) - 1). lia.
  - apply Nat.leb_gt in Hend. assert (vlen l1 ≤ o) as Hle.
    { destruct l1 as [|g l1]; [unfold vlen; simpl; lia|]. specialize (Hst ltac:(done)). by apply Nat.leb_le in Hst. }
    destruct (visible f); [|lia]. split_and!; [lia|lia|lia|eapply is_u32_le, H32; lia|by left|].
    right. split; [done|]. exists (o - vlen l1). lia.
Qed.

(** The byte an anchor is beside. *)
Definition beside (a : Anchor) (o : nat) (bias : Bias) : Prop :=
  ∃ k c r, scells s = k ++ c :: r ∧ c_visible c = true ∧ a = anchor_of rid c bias ∧ length (visible_bytes (side bias k c)) = o.

Definition make_anchor (o : nat) (bias : Bias) : option Anchor :=
  match find_fragment add_len (past_offset o bias) 0 (fragments s) with
  | (_, None) => if debug then None else Some (max_for_buffer rid)
  | (start, Some f) =>
      overshoot ← usub o start;
      Some (mkAnchor (f_timestamp f) (wrap_u32 (N.of_nat (insertion_offset f) + wrap_u32 (N.of_nat overshoot))) bias rid)
  end.

Lemma make_anchor_ok o bias : o ≤ length (visible_text s) → (bias = Right → o < length (visible_text s)) → fragments s ≠ [] →
  ∃ a, make_anchor o bias = Some a ∧ offset_for_anchor debug rid s a = Some o ∧ can_resolve rid s a = true ∧
    (bias = Left ∧ o = 0 ∨ beside a o bias ∧ is_valid debug rid s a = Some true).
Proof.
  intros Ho Hlt Hne. unfold make_anchor. destruct (find_fragment _ _ _ _) as [st it] eqn:E.
  destruct (offset_fragment o bias st it Ho Hlt Hne E) as (f & l1 & l2 & -> & Hl & -> & Hle & Ht & H32 & Hvis & Hcell).
  rewrite usub_le by done. cbn [mbind option_bind]. set (j := o - vlen l1) in *.
  assert (wrap_u32 (N.of_nat (insertion_offset f) + wrap_u32 (N.of_nat j)) = N.of_nat (insertion_offset f + j)) as ->.
  { rewrite Nat2N.inj_add. rewrite (wrap_u32_small (N.of_nat j)) by (eapply is_u32_le, H32; lia). apply wrap_u32_small. by rewrite <- Nat2N.inj_add. }
  assert (f ∈ fragments s) as Hf by (rewrite Hl; apply elem_of_app; right; by left).
  destruct (first_cell _ _ _ f (so_buffer _ _ _ Hs) Hf) as [b0 Hc0].
  pose proof (so_cells _ _ _ Hs) as Hok. rewrite Forall_forall in Hok. pose proof (co_stamp _ _ _ _ _ (Hok _ Hc0)) as [_ Hpos].
  pose proof (co_observed _ _ _ _ _ (Hok _ Hc0)) as Hobs. cbn in Hpos, Hobs. destruct (fragment_ok _ _ _ Hs f Hf) as [_ Hf32]. unfold is_u32 in Hf32.
  eexists. split; [done|]. set (a := mkAnchor _ _ _ _).
  assert (is_min a = false) as Hmin by (apply bool_decide_eq_false; intros (Heq & _); cbn in Heq; by rewrite Heq in Hpos).
  assert (is_max a = false) as Hmax.
  { apply bool_decide_eq_false. intros (_ & Heq & Hb). cbn in Heq, Hb. subst bias. cbn in Ht. lia. }
  assert (offset_for_anchor debug rid s a = Some o) as Hoff.
  { rewrite (offset_touched l1 f l2 a Hl); [|done|done|by cbn; rewrite Nat2N.id|done|done]. f_equal. cbn. rewrite Nat2N.id.
    destruct Hvis as [->|Hvis]; [lia|]. destruct (visible f); lia. }
  split; [exact Hoff|]. split; [unfold can_resolve; cbn; by rewrite N.eqb_refl, Hobs, !orb_true_r|].
  destruct Hcell as [?|(Hv & i & Hi & Hoi)]; [by left|right]. split.
  - assert ((f_timestamp f, insertion_offset f + i) ∈ ckey <$> scells s) as (c & Hc & (k & r & Hsplit)%list_elem_of_split)%list_elem_of_fmap.
    { unfold scells. rewrite (cells_keys _ _ _ (so_buffer _ _ _ Hs)). apply all_keys_elem. exists f. split; [done|].
      apply fkeys_elem. cbn. split; [done|lia]. }
    injection Hc as Hct Hco. assert (a = anchor_of rid c bias) as Ha.
    { unfold a, anchor_of. rewrite <- Hct, <- Hco. f_equal. destruct bias; lia. }
    exists k, c, r. split; [done|]. pose proof (resolve_cell k c r bias Hsplit) as Hr. rewrite <- Ha, Hoff in Hr. injection Hr as Hr.
    split; [|by split]. destruct (so_buffer _ _ _ Hs) as [_ _ Hvl Hdl].
    destruct (cell_position _ _ _ k c r (Nat.eq_le_incl _ _ Hvl) (Nat.eq_le_incl _ _ Hdl) Hsplit) as (m1 & g & m2 & i' & b' & Hl' & Hi' & -> & _).
    assert (g = f) as ->; [|exact Hv]. cbn in Hct, Hco.
    apply (same_fragment (fragments s) g f (f_timestamp f, insertion_offset f + i) (fragments_keys _ _ _ Hs)); [|done|..];
      [rewrite Hl'; apply elem_of_app; right; by left|apply fkeys_elem; cbn; split; [done|lia]..].
  - unfold is_valid, try_fragment_id_for_anchor. rewrite Hmin, Hmax. cbn [orb negb a_buffer_id a]. rewrite N.eqb_refl. cbn [negb].
    rewrite (find_touched TREE_BASE base s Hs f a Hf); [|done|by cbn; rewrite Nat2N.id]. cbn [mbind option_bind if_timestamp new_insertion fragment_id].
    rewrite bool_decide_true, orb_true_r by done. destruct (find_id_ok TREE_BASE base s Hs l1 f l2 Hl) as (d & -> & _). cbn. by rewrite Hv.
Qed.
End offsets.

(** ** Order *)

Lemma sorted_lookup {A} (R : A → A → Prop) l i j x y : StronglySorted R l → l !! i = Some x → l !! j = Some y → i < j → R x y.
Proof.
  intros Hs. revert i j. induction Hs as [|z l _ IH Hz]; intros i j Hx Hy Hij; [done|]. destruct j as [|j]; [lia|].
  destruct i as [|i]; cbn in Hx, Hy; [|by apply (IH i j); [..|lia]]. injection Hx as ->. rewrite Forall_lookup in Hz. by apply (Hz j).
Qed.

(** The fragment of the [n]-th byte. *)
Definition flen (l : list Fragment) : nat := list_sum (f_len <$> l).

Lemma flen_app l k : flen (l ++ k) = flen l + flen k.
Proof. unfold flen. by rewrite fmap_app, list_sum_app. Qed.

Lemma key_fragment (l : list Fragment) n k : concat (fkeys <$> l) !! n = Some k →
  ∃ l1 f l2 i, l = l1 ++ f :: l2 ∧ i < f_len f ∧ k = (f_timestamp f, insertion_offset f + i) ∧ n = flen l1 + i.
Proof.
  revert n. induction l as [|f l IH]; intros n; [done|]. rewrite fmap_cons. cbn [concat].
  assert (length (fkeys f) = f_len f) as Hlen by (unfold fkeys; by rewrite length_fmap, length_seq).
  destruct (Nat.lt_ge_cases n (f_len f)) as [Hlt|Hge].
  - rewrite lookup_app_l by (by rewrite Hlen). unfold fkeys. rewrite list_lookup_fmap, lookup_seq_lt by done. intros [= <-].
    exists [], f, l, n. split_and!; done.
  - rewrite lookup_app_r by (by rewrite Hlen). rewrite Hlen. intros (l1 & g & l2 & i & -> & Hi & -> & Hn)%IH.
    exists (f :: l1), g, l2, i. split_and!; [done..|]. change (flen (f :: l1)) with (f_len f + flen l1). lia.
Qed.

Section order.
Context (TREE_BASE : nat) (base : option Lamport) (s : BufferSnapshot) (Hs : state_ok TREE_BASE base s).
Context (debug : bool) (rid : N).

Lemma anchor_fragment i c bias : scells s !! i = Some c → ∃ l1 f l2 j, fragments s = l1 ++ f :: l2 ∧ j < f_len f ∧ i = flen l1 + j ∧
  f_timestamp f = c_timestamp c ∧ fragment_id_for_anchor debug s (anchor_of rid c bias) = Some (f_id f).
Proof.
  intros Hc. pose proof (cells_keys _ _ _ (so_buffer _ _ _ Hs)) as Hk. fold (scells s) in Hk.
  destruct (key_fragment (fragments s) i (ckey c)) as (l1 & f & l2 & j & Hl & Hj & Hck & ->).
  { rewrite <- Hk, list_lookup_fmap, Hc. done. }
  injection Hck as Hct Hco. exists l1, f, l2, j. split_and!; [done..|].
  destruct (anchor_of_proper TREE_BASE base s Hs rid c bias) as [Hmin Hmax]; [by apply list_elem_of_lookup_2 with (flen l1 + j)|].
  unfold fragment_id_for_anchor, try_fragment_id_for_anchor. rewrite Hmin, Hmax.
  rewrite (find_touched TREE_BASE base s Hs f); [|rewrite Hl; apply elem_of_app; right; by left|done|destruct bias; cbn; lia].
  cbn [mbind option_bind new_insertion if_timestamp fragment_id]. rewrite bool_decide_true by done. by rewrite orb_true_r.
Qed.

(** The place of an anchor among the bytes and the gaps between them. *)
Definition rank (i : nat) (bias : Bias) : nat := 2 * i + match bias with Left => 1 | Right => 0 end.

Lemma ids_in_order i j c d beta gamma : scells s !! i = Some c → scells s !! j = Some d → i < j → c_timestamp c ≠ c_timestamp d →
  ∃ x y, fragment_id_for_anchor debug s (anchor_of rid c beta) = Some x ∧ fragment_id_for_anchor debug s (anchor_of rid d gamma) = Some y ∧ x ≺ y.
Proof.
  intros Hc Hd Hij Hne. destruct (anchor_fragment i c beta Hc) as (l1 & f & l2 & a & Hl & Ha & -> & Hft & ->).
  destruct (anchor_fragment j d gamma Hd) as (m1 & g & m2 & b & Hm & Hb & -> & Hgt & ->). exists (f_id f), (f_id g). split; [done|]. split; [done|].
  assert (∃ x, m1 = l1 ++ f :: x) as [x ->].
  { rewrite Hl in Hm. apply app_eq_inv in Hm as [(k & -> & Hk)|(k & -> & Hk)]; destruct k as [|h k]; injection Hk as Hfg Hk.
    - congruence.
    - subst h. rewrite flen_app in Hij. change (flen (g :: k)) with (f_len g + flen k) in Hij. lia.
    - congruence.
    - subst h. by exists k. }
  pose proof (ids_sorted _ (ok_ids _ _ _ (so_buffer _ _ _ Hs))) as Hsort. rewrite Hm in Hsort. unfold ids in Hsort.
  rewrite fmap_app in Hsort. apply sorted_app_inv in Hsort as (_ & _ & H). apply H; [|by left].
  apply list_elem_of_fmap_2, elem_of_app. right. by left.
Qed.

Lemma cmp_by_ids a b x y : a_timestamp a ≠ a_timestamp b → fragment_id_for_anchor debug s a = Some x → fragment_id_for_anchor debug s b = Some y →
  x ≺ y → anchor_cmp debug s a b = Some Lt ∧ anchor_cmp debug s b a = Some Gt.
Proof.
  intros Hne Hx Hy Hlt. unfold anchor_cmp. rewrite !bool_decide_false by congruence. rewrite Hx, Hy. cbn [mbind option_bind].
  by rewrite (proj2 (cmp_gt_lt y x) Hlt), Hlt.
Qed.

Lemma before_cmp i j c d beta gamma : scells s !! i = Some c → scells s !! j = Some d → i < j →
  anchor_cmp debug s (anchor_of rid c beta) (anchor_of rid d gamma) = Some Lt ∧
  anchor_cmp debug s (anchor_of rid d gamma) (anchor_of rid c beta) = Some Gt.
Proof.
  intros Hc Hd Hij. destruct (decide (c_timestamp c = c_timestamp d)) as [Ht|Ht].
  - unfold anchor_cmp. cbn [anchor_of a_timestamp a_offset a_bias]. rewrite !bool_decide_true by done. cbn [mbind option_bind then_cmp].
    assert (c_offset c < c_offset d) as Hlt.
    { apply (sorted_lookup in_order (ckey <$> scells s) i j (ckey c) (ckey d)); [apply Hs|by rewrite list_lookup_fmap, ?Hc, ?Hd..|done|done]. }
    set (x := (N.of_nat (c_offset c) + _)%N). set (y := (N.of_nat (c_offset d) + _)%N).
    assert ((x < y)%N ∨ x = y ∧ beta = Left ∧ gamma = Right) as Hxy.
    { unfold x, y. destruct beta, gamma; [left; lia| |left; lia..].
      destruct (decide (S (c_offset c) = c_offset d)); [right; split_and!; [lia|done..]|left; lia]. }
    destruct Hxy as [Hxy|(Hxy & -> & ->)].
    + rewrite (proj2 (N.compare_lt_iff x y) Hxy), (proj2 (N.compare_gt_iff y x) Hxy). done.
    + rewrite Hxy, N.compare_refl. done.
  - destruct (ids_in_order i j c d beta gamma Hc Hd Hij Ht) as (x & y & Hx & Hy & Hlt).
    by apply (cmp_by_ids _ _ x y).
Qed.

Lemma cmp_rank i j c d beta gamma : scells s !! i = Some c → scells s !! j = Some d →
  anchor_cmp debug s (anchor_of rid c beta) (anchor_of rid d gamma) = Some (Nat.compare (rank i beta) (rank j gamma)).
Proof.
  intros Hc Hd. destruct (Nat.lt_trichotomy i j) as [Hlt|[<-|Hlt]].
  - rewrite (proj1 (before_cmp i j c d beta gamma Hc Hd Hlt)). f_equal. symmetry. apply Nat.compare_lt_iff. unfold rank. destruct beta, gamma; lia.
  - assert (d = c) as -> by congruence. unfold anchor_cmp. rewrite bool_decide_true by done. cbn [mbind option_bind]. f_equal.
    unfold rank, anchor_of. cbn [a_offset a_bias then_cmp]. destruct beta, gamma; rewrite ?N.compare_refl, ?Nat.compare_refl; try done.
    + rewrite (proj2 (N.compare_gt_iff _ _)) by lia. symmetry. apply Nat.compare_gt_iff. lia.
    + rewrite (proj2 (N.compare_lt_iff _ _)) by lia. symmetry. apply Nat.compare_lt_iff. lia.
  - rewrite (proj2 (before_cmp j i d c gamma beta Hd Hc Hlt)). f_equal. symmetry. apply Nat.compare_gt_iff. unfold rank. destruct beta, gamma; lia.
Qed.
End order.
