(* ===== verification/AnchorProps.v ===== *)
(** * Anchors over time

    Editing, applying remote operations, undoing and redoing never lose a byte
    or change the order of bytes, so an anchor keeps its byte and two anchors
    keep their order. *)

From S2P Require Import Prelude Clock Text SumTree Cursor Search KeyedTree UndoMap Patch Fragment Cells BufferInv LocalEdit Undo UndoIndex RemoteCells RemoteEdit RemoteEditOk Tracking Converge Chunk ChunkBits Buffer BufferState BufferOk Replica Anchor AnchorOk.
From S2P Require Locator TreeMap History.
Local Open Scope ord_scope.

(** ** Bytes are never lost *)

Definition cid (c : Cell) : (Lamport * nat) * byte := (ckey c, c_byte c).

Lemma remote_cells_bytes_kept version ts was pos off edits l : (cid <$> l) `sublist_of` (cid <$> remote_cells version ts was pos off edits l).
Proof.
  revert pos off l. induction edits as [|e edits IH]; intros pos off l; cbn [remote_cells]; [done|].
  destruct (vsplit version _ l) as [k l1] eqn:E1. destruct (skip_newer ts l1) as [g l2] eqn:E2.
  destruct (vsplit version _ l2) as [r l3] eqn:E3.
  rewrite (vsplit_eq _ _ _ _ _ E1), (skip_newer_eq _ _ _ _ E2), (vsplit_eq _ _ _ _ _ E3), !fmap_app, <- list_fmap_compose.
  rewrite (list_fmap_ext (cid ∘ remote_delete version ts was) cid r) by (intros; cbn; unfold cid, remote_delete; by destruct (_ && _)).
  do 2 (apply sublist_app; [done|]). apply sublist_inserts_l, sublist_app; [done|]. apply IH.
Qed.

Lemma same_bytes_ids l k : Forall2 same_byte l k → cid <$> l = cid <$> k.
Proof. intros H. apply list_eq_Forall2, Forall2_fmap. eapply Forall2_impl; [exact H|]. unfold same_byte, cid, ckey. intros x y (-> & -> & -> & _). done. Qed.

Lemma op_keeps_bytes TREE_BASE s s' op : op_cells TREE_BASE s s' op → (cid <$> scells s) `sublist_of` (cid <$> scells s').
Proof. destruct op as [e|u]; cbn; [intros [_ ->]; apply remote_cells_bytes_kept|intros (_ & H & _); by rewrite (same_bytes_ids _ _ H)]. Qed.

Section steps.
Context (TREE_BASE : nat) (HB : 1 ≤ TREE_BASE) (max : N) (Hmax : (4 ≤ max ≤ u32_max)%N) (base : option Lamport).

Local Abbreviation kept b b' := ((cid <$> scells (snapshot b)) `sublist_of` (cid <$> scells (snapshot b'))).

Lemma toggled_keeps b b' entry : toggled_entry TREE_BASE base b b' entry → kept b b'.
Proof. intros (h & u & _ & Ht). exact (op_keeps_bytes TREE_BASE _ _ _ (tg_cells _ _ _ _ _ _ Ht)). Qed.

Lemma step_keeps_bytes b b' : replica_step TREE_BASE max base b b' → replica_ok TREE_BASE base b → kept b b'.
Proof.
  intros [b1 edits now1 now2 op b2 Hg E|b1 op b2 Hg E|b1 r b2 Hg E|b1 r b2 Hg E] Hok.
  - destruct (edit_keeps TREE_BASE HB max Hmax base b1 edits now1 now2 Hok Hg) as (e & b3 & E' & _ & He). simplify_eq.
    exact (op_keeps_bytes TREE_BASE _ _ _ (eb_cells _ _ _ _ _ _ He)).
  - destruct (observed (buffer_version b1) (op_timestamp op)) eqn:Ho.
    + rewrite (apply_op_again TREE_BASE max b1 op Ho) in E. by injection E as <-.
    + destruct (apply_new_keeps TREE_BASE HB max Hmax base b1 op Hok Hg Ho) as (b3 & E' & _ & Hoa). simplify_eq.
      exact (op_keeps_bytes TREE_BASE _ _ _ (oa_cells _ _ _ _ _ Hoa)).
  - destruct (History.stack_cases (History.undo_stack (history b1))) as [Hu|(u & top & Hu)].
    + unfold undo, History.pop_undo, History.assert_depth_0 in E. rewrite (tg_closed _ _ _ Hg), Hu in E. cbn in E. by injection E as <- <-.
    + destruct (undo_entry TREE_BASE HB max Hmax base b1 u top Hok Hg Hu) as (op & b3 & E' & _ & _ & Ht). simplify_eq. by eapply toggled_keeps.
  - destruct (History.stack_cases (History.redo_stack (history b1))) as [Hu|(u & top & Hu)].
    + unfold redo, History.pop_redo, History.assert_depth_0 in E. rewrite (tg_closed _ _ _ Hg), Hu in E. cbn in E. by injection E as <- <-.
    + destruct (redo_entry TREE_BASE HB max Hmax base b1 u top Hok Hg Hu) as (op & b3 & E' & _ & Ht). simplify_eq. by eapply toggled_keeps.
Qed.

Lemma steps_keep_bytes b b' : rtc (replica_step TREE_BASE max base) b b' → replica_ok TREE_BASE base b → replica_ok TREE_BASE base b' ∧ kept b b'.
Proof.
  induction 1 as [b|b b1 b' Hstep _ IH]; intros Hok; [done|].
  destruct (IH (step_keeps TREE_BASE HB max Hmax base b b1 Hstep Hok)) as [Hok' Hk]. split; [done|].
  etransitivity; [by apply step_keeps_bytes|done].
Qed.
End steps.

(** The same two bytes, in the same order. *)
Lemma sublist_lookup {A} (l k : list A) i j x y : l `sublist_of` k → l !! i = Some x → l !! j = Some y →
  ∃ i' j', k !! i' = Some x ∧ k !! j' = Some y ∧ Nat.compare i' j' = Nat.compare i j.
Proof.
  intros H. revert i j. induction H as [|z l k H IH|z l k H IH]; intros i j Hi Hj; [done| |].
  - destruct i as [|i], j as [|j]; cbn in Hi, Hj.
    + exists 0, 0. by split_and!.
    + assert (y ∈ k) as [j' Hj']%list_elem_of_lookup by (eapply elem_of_sublist; [|exact H]; by apply list_elem_of_lookup_2 with j).
      exists 0, (S j'). by split_and!.
    + assert (x ∈ k) as [i' Hi']%list_elem_of_lookup by (eapply elem_of_sublist; [|exact H]; by apply list_elem_of_lookup_2 with i).
      exists (S i'), 0. by split_and!.
    + destruct (IH i j Hi Hj) as (i' & j' & ? & ? & ?). by exists (S i'), (S j').
  - destruct (IH i j Hi Hj) as (i' & j' & ? & ? & ?). by exists (S i'), (S j').
Qed.

Lemma step_forward_boundary fuel t i j : step_forward fuel t i = Some j → is_char_boundary t j = true.
Proof.
  revert i. induction fuel as [|fuel IH]; intros i; cbn [step_forward]; [done|].
  destruct (is_str_boundary t i) eqn:E; [by intros [= <-]|apply IH].
Qed.
Lemma ceil_le t i : ceil_char_boundary t i ≤ length t.
Proof.
  unfold ceil_char_boundary. destruct (length t <=? i); [done|]. destruct (step_forward _ t i) eqn:E; [|done].
  cbn. by eapply boundary_le, step_forward_boundary.
Qed.

(** An anchor that was made at [o]: at the start, at the end or beside a byte. *)
Definition made (s : BufferSnapshot) (rid : N) (a : Anchor) (o : nat) (bias : Bias) : Prop :=
  (a = min_for_buffer rid ∧ o = 0 ∧ bias = Left) ∨ (a = max_for_buffer rid ∧ o = length (visible_text s) ∧ bias = Right) ∨ beside s rid a o bias.

Section making.
Context (TREE_BASE : nat) (base : option Lamport) (s : BufferSnapshot) (Hs : state_ok TREE_BASE base s) (debug : bool) (rid : N).

Lemma no_fragments : fragments s = [] → visible_text s = [].
Proof. intros Hf. destruct (so_buffer _ _ _ Hs) as [_ _ Hv _]. rewrite Hf in Hv. by destruct (visible_text s). Qed.

Lemma min_resolves : offset_for_anchor debug rid s (min_for_buffer rid) = Some 0 ∧ can_resolve rid s (min_for_buffer rid) = true ∧ is_valid debug rid s (min_for_buffer rid) = Some true.
Proof. done. Qed.
Lemma max_resolves : offset_for_anchor debug rid s (max_for_buffer rid) = Some (length (visible_text s)) ∧ can_resolve rid s (max_for_buffer rid) = true ∧
  is_valid debug rid s (max_for_buffer rid) = Some true.
Proof. done. Qed.

(** Making an anchor at a place inside the text. *)
Lemma make_somewhere o bias : o ≤ length (visible_text s) → (bias = Right → o < length (visible_text s)) → debug = false ∨ fragments s ≠ [] →
  ∃ a, make_anchor s debug rid o bias = Some a ∧ offset_for_anchor debug rid s a = Some o.
Proof.
  intros Ho Hr Hne. destruct (fragments s) as [|f l] eqn:Hf.
  - destruct Hne as [Hd|?]; [|done]. unfold make_anchor. rewrite Hf, Hd. cbn. eexists. split; [done|]. rewrite <- Hd.
    rewrite (no_fragments Hf) in *. cbn in Ho, Hr. destruct bias; [|specialize (Hr eq_refl); lia]. rewrite (proj1 max_resolves).
    rewrite (no_fragments Hf). f_equal. cbn. lia.
  - destruct (make_anchor_ok TREE_BASE base s Hs debug rid o bias Ho Hr) as (a & E & Hoff & _); [by rewrite Hf|]. by exists a.
Qed.

(** At a boundary an anchor is [make_anchor]'s, or the least or the greatest. *)
Lemma anchor_at_boundary n bias : is_char_boundary (visible_text s) n = true →
  anchor_at_offset debug rid s n bias =
    if bool_decide (bias = Left) && (n =? 0) then Some (min_for_buffer rid)
    else if bool_decide (bias = Right) && (n =? length (visible_text s)) then Some (max_for_buffer rid)
    else make_anchor s debug rid n bias.
Proof.
  intros Hb. pose proof (boundary_le _ _ Hb) as Hle. unfold anchor_at_offset. rewrite Hb.
  assert ((negb debug && (length (visible_text s) <=? n)) || (n =? length (visible_text s)) = (n =? length (visible_text s))) as ->; [|done].
  destruct (Nat.eqb_spec n (length (visible_text s))); [by rewrite orb_true_r|]. rewrite (proj2 (Nat.leb_gt _ _)) by lia. by rewrite andb_false_r.
Qed.

Lemma boundary_roundtrip n bias : is_char_boundary (visible_text s) n = true →
  ∃ a, anchor_at_offset debug rid s n bias = Some a ∧ offset_for_anchor debug rid s a = Some n ∧ can_resolve rid s a = true ∧
    is_valid debug rid s a = Some true ∧
    made s rid a n bias.
Proof.
  intros Hb. pose proof (boundary_le _ _ Hb) as Hle. rewrite (anchor_at_boundary n bias Hb).
  destruct (bool_decide (bias = Left) && (n =? 0)) eqn:E1.
  { apply andb_true_iff in E1 as [->%bool_decide_eq_true ->%Nat.eqb_eq]. exists (min_for_buffer rid). destruct min_resolves as (? & ? & ?).
    split_and!; [done..|by left]. }
  destruct (bool_decide (bias = Right) && (n =? _)) eqn:E2.
  { apply andb_true_iff in E2 as [->%bool_decide_eq_true ->%Nat.eqb_eq]. exists (max_for_buffer rid). destruct max_resolves as (? & ? & ?).
    split_and!; [done..|by right; left]. }
  assert (match bias with Left => 0 < n | Right => n < length (visible_text s) end) as Hin.
  { destruct bias; [rewrite bool_decide_true in E1 by done; apply Nat.eqb_neq in E1|rewrite bool_decide_true in E2 by done; apply Nat.eqb_neq in E2]; lia. }
  destruct (make_anchor_ok TREE_BASE base s Hs debug rid n bias Hle) as (a & E & Hoff & Hcan & Hor); [by intros ->|..].
  { intros Hf. pose proof (no_fragments Hf) as Hv. rewrite Hv in *. destruct bias; cbn in *; lia. }
  exists a. destruct Hor as [[-> ->]|[? ?]]; [lia|]. split_and!; [done..|by right; right].
Qed.

Definition clipped_offset (n : nat) (bias : Bias) : nat :=
  match bias with Left => floor_char_boundary (visible_text s) n | Right => ceil_char_boundary (visible_text s) n end.

(** A release build clips. *)
Lemma release_clips n bias : debug = false →
  ∃ a, anchor_at_offset debug rid s n bias = Some a ∧ offset_for_anchor debug rid s a = Some (clipped_offset n bias).
Proof.
  intros Hd. destruct (is_char_boundary (visible_text s) n) eqn:Hb.
  { destruct (boundary_roundtrip n bias Hb) as (a & E & Hoff & _). exists a. split; [done|]. rewrite Hoff. f_equal. unfold clipped_offset.
    destruct bias; [by rewrite boundary_floor|]. unfold ceil_char_boundary. destruct (Nat.leb_spec (length (visible_text s)) n) as [Hle|Hlt].
    - pose proof (boundary_le _ _ Hb). lia.
    - cbn [step_forward]. unfold is_str_boundary. by rewrite Hb. }
  unfold anchor_at_offset. rewrite Hb. assert (n ≠ 0) as Hn by (intros ->; done).
  rewrite (proj2 (Nat.eqb_neq n 0) Hn), andb_false_r.
  destruct (decide (bias = Right ∧ length (visible_text s) ≤ clipped_offset n Right)) as [[-> Hge]|Hin].
  - assert (clipped_offset n Right = length (visible_text s)) as Hc by (pose proof (ceil_le (visible_text s) n); unfold clipped_offset in *; lia).
    rewrite Hc. exists (max_for_buffer rid). split; [|apply max_resolves]. cbn. rewrite Hd. cbn [negb andb]. case_match; [done|].
    change (ceil_char_boundary (visible_text s) n) with (clipped_offset n Right). rewrite Hc.
    pose proof (find_offset_ok (fragments s) (length (visible_text s)) Right 0) as Hf. cbn [mbind option_bind].
    destruct (find_fragment _ _ _ _) as [st [f|]]; [|done]. exfalso. destruct Hf as (l1 & l2 & Hl & -> & Hp & _).
    destruct (so_buffer _ _ _ Hs) as [_ _ Hv _]. rewrite Hl, vlen_app, vlen_cons in Hv. apply Nat.leb_gt in Hp. lia.
  - rewrite Hd. cbn [negb andb]. assert (bool_decide (bias = Right) && ((length (visible_text s) <=? n) || (n =? length (visible_text s))) = false) as ->.
    { destruct bias; [done|]. cbn. assert (n < length (visible_text s)) as Hlt.
      { destruct (Nat.lt_ge_cases n (length (visible_text s))) as [?|Hge]; [done|]. exfalso. apply Hin. split; [done|]. unfold clipped_offset, ceil_char_boundary.
        by rewrite (proj2 (Nat.leb_le _ _) Hge). }
      rewrite (proj2 (Nat.leb_gt _ _) Hlt). apply Nat.eqb_neq. lia. }
    enough (∃ a, make_anchor s debug rid (clipped_offset n bias) bias = Some a ∧ offset_for_anchor debug rid s a = Some (clipped_offset n bias)) as H
      by (unfold make_anchor, clipped_offset in H; rewrite Hd in H; exact H).
    apply (make_somewhere (clipped_offset n bias) bias); [|intros ->; destruct (Nat.lt_ge_cases (clipped_offset n Right) (length (visible_text s))); [done|exfalso; by apply Hin]|by left].
    destruct bias; [apply floor_le|apply ceil_le].
Qed.
End making.

(** ** Order *)

(** Positions, as places of bytes and as offsets. *)
Definition place_cmp (n m : nat) (beta gamma : Bias) : comparison := then_cmp (Nat.compare n m) (bias_cmp beta gamma).

Lemma rank_compare i j beta gamma i' j' : Nat.compare i' j' = Nat.compare i j →
  Nat.compare (rank i' beta) (rank j' gamma) = Nat.compare (rank i beta) (rank j gamma).
Proof.
  unfold rank. destruct (Nat.compare_spec i j), (Nat.compare_spec i' j'); try done; intros _; destruct beta, gamma;
    repeat match goal with |- context [Nat.compare ?x ?y] => destruct (Nat.compare_spec x y) end; try done; lia.
Qed.

Lemma rank_place u v beta gamma :
  Nat.compare (rank u beta) (rank v gamma) =
    place_cmp (u + match beta with Left => 1 | Right => 0 end) (v + match gamma with Left => 1 | Right => 0 end) beta gamma.
Proof.
  unfold place_cmp, rank. destruct beta, gamma; cbn [bias_cmp];
    repeat match goal with |- context [Nat.compare ?x ?y] => destruct (Nat.compare_spec x y) end; cbn; try done; lia.
Qed.

Lemma visible_place k c r k' c' r' : k ++ c :: r = k' ++ c' :: r' → c_visible c = true → c_visible c' = true →
  Nat.compare (length k) (length k') = Nat.compare (length (visible_bytes k)) (length (visible_bytes k')).
Proof.
  assert (∀ k c r k' c' r', k ++ c :: r = k' ++ c' :: r' → c_visible c = true → length k < length k' →
    length (visible_bytes k) < length (visible_bytes k')) as H.
  { clear. intros k c r k' c' r' E Hc Hlt. apply app_eq_inv in E as [(x & -> & E)|(x & -> & E)]; [rewrite length_app in Hlt; lia|].
    destruct x as [|z x]; [rewrite length_app in Hlt; cbn in Hlt; lia|]. injection E as <- _.
    rewrite visible_bytes_app, length_app. unfold visible_bytes at 3. cbn. rewrite Hc. cbn. lia. }
  intros E Hc Hc'. destruct (Nat.compare_spec (length k) (length k')) as [He|Hlt|Hgt].
  - symmetry. apply Nat.compare_eq_iff. by apply app_inj_1 in E as [-> _].
  - symmetry. apply Nat.compare_lt_iff. by eapply H.
  - symmetry. apply Nat.compare_gt_iff. by eapply (H k' c' r' k c r).
Qed.

Lemma visible_side bias k c : c_visible c = true →
  length (visible_bytes (side bias k c)) = length (visible_bytes k) + match bias with Left => 1 | Right => 0 end.
Proof.
  intros Hc. destruct bias; cbn [side]; [|lia]. rewrite visible_bytes_app, length_app. unfold visible_bytes at 2. cbn. by rewrite Hc.
Qed.

Section order.
Context (TREE_BASE : nat) (base : option Lamport) (s : BufferSnapshot) (Hs : state_ok TREE_BASE base s) (debug : bool) (rid : N).

Lemma inside_ids i c beta : scells s !! i = Some c →
  ∃ x, fragment_id_for_anchor debug s (anchor_of rid c beta) = Some x ∧ Locator.min ≺ x ∧ x ≺ Locator.max.
Proof.
  intros Hc. destruct (anchor_fragment TREE_BASE base s Hs debug rid i c beta Hc) as (l1 & f & l2 & j & Hl & _ & _ & _ & ->).
  exists (f_id f). destruct (ok_ids _ _ _ (so_buffer _ _ _ Hs)) as [_ Hp Hb]. rewrite Forall_forall in Hp, Hb.
  assert (f ∈ fragments s) as Hf by (rewrite Hl; apply elem_of_app; right; by left).
  split_and!; [done|by apply Locator.proper_min, Hp|by apply Hb].
Qed.

Lemma min_before i c beta : scells s !! i = Some c →
  anchor_cmp debug s (min_for_buffer rid) (anchor_of rid c beta) = Some Lt ∧ anchor_cmp debug s (anchor_of rid c beta) (min_for_buffer rid) = Some Gt.
Proof.
  intros Hc. destruct (inside_ids i c beta Hc) as (x & Hx & Hlt & _). pose proof (so_cells _ _ _ Hs) as Hok. rewrite Forall_forall in Hok.
  pose proof (co_stamp _ _ _ _ _ (Hok c (list_elem_of_lookup_2 _ _ _ Hc))) as [_ Hpos].
  apply (cmp_by_ids s debug _ _ Locator.min x); [|done..]. intros E. cbn in E. by rewrite <- E in Hpos.
Qed.

Lemma max_after i c beta : scells s !! i = Some c →
  anchor_cmp debug s (anchor_of rid c beta) (max_for_buffer rid) = Some Lt ∧ anchor_cmp debug s (max_for_buffer rid) (anchor_of rid c beta) = Some Gt.
Proof.
  intros Hc. destruct (inside_ids i c beta Hc) as (x & Hx & _ & Hlt).
  pose proof (list_elem_of_lookup_2 _ _ _ Hc) as Hin.
  destruct (decide (c_timestamp c = LAMPORT_MAX)) as [Ht|Ht].
  - unfold anchor_cmp. cbn [a_timestamp max_for_buffer anchor_of]. rewrite !bool_decide_true by done. cbn [mbind option_bind then_cmp a_offset a_bias].
    destruct (cell_fragment _ _ _ _ Hin) as (f & i' & b & Hf & -> & Hi). apply (fragment_ok _ _ _ Hs) in Hf as [_ H32]. unfold is_u32 in H32.
    cbn in Ht. cbn [max_for_buffer anchor_of cell_of c_offset a_offset a_bias]. set (o := (N.of_nat (insertion_offset f + i') + _)%N) in *.
    assert ((o < u32_max)%N ∨ o = u32_max ∧ beta = Left) as [Ho|[-> ->]]; [|rewrite (proj2 (N.compare_lt_iff o u32_max) Ho), (proj2 (N.compare_gt_iff u32_max o) Ho); done|rewrite N.compare_refl; done].
    destruct beta; [unfold o; destruct (decide (N.of_nat (insertion_offset f + i') + 1 = u32_max)%N); [right; done|left; lia]|].
    left. unfold o. lia.
  - by apply (cmp_by_ids s debug _ _ x Locator.max).
Qed.
End order.

Section later.
Context (TREE_BASE : nat) (base : option Lamport) (s s' : BufferSnapshot).
Context (Hs : state_ok TREE_BASE base s) (Hs' : state_ok TREE_BASE base s') (debug : bool) (rid : N).
Context (Hkeep : (cid <$> scells s) `sublist_of` (cid <$> scells s')).

Lemma kept_places i j c d : scells s !! i = Some c → scells s !! j = Some d →
  ∃ i' j' c' d', scells s' !! i' = Some c' ∧ scells s' !! j' = Some d' ∧ cid c' = cid c ∧ cid d' = cid d ∧ Nat.compare i' j' = Nat.compare i j.
Proof.
  intros Hc Hd. destruct (sublist_lookup _ _ i j (cid c) (cid d) Hkeep) as (i' & j' & Hc' & Hd' & Hcmp); [by rewrite list_lookup_fmap, ?Hc, ?Hd..|].
  rewrite list_lookup_fmap in Hc', Hd'. apply fmap_Some in Hc' as (c' & Hc' & Ec), Hd' as (d' & Hd' & Ed). by exists i', j', c', d'.
Qed.

Lemma same_anchor c c' bias : cid c' = cid c → anchor_of rid c' bias = anchor_of rid c bias.
Proof. unfold cid, ckey, anchor_of. by intros [= -> -> _]. Qed.

Lemma made_index a o bias : made s rid a o bias → a = min_for_buffer rid ∧ o = 0 ∧ bias = Left ∨ a = max_for_buffer rid ∧ o = length (visible_text s) ∧ bias = Right ∨
  match bias with Left => 0 < o | Right => o < length (visible_text s) end ∧ o ≤ length (visible_text s) ∧ beside s rid a o bias.
Proof.
  intros [?|[?|H]]; [by left|right; by left|right; right]. pose proof H as (k & c & r & Hk & Hv & _ & Ho).
  rewrite (visible_side _ _ _ Hv) in Ho. destruct (buffer_texts _ _ _ (so_buffer _ _ _ Hs)) as [<- _]. fold (scells s). rewrite Hk, visible_bytes_app, length_app.
  change (visible_bytes (c :: r)) with (visible_bytes ([c] ++ r)). rewrite visible_bytes_app, length_app. unfold visible_bytes at 2 5. cbn. rewrite Hv. cbn.
  destruct bias; split_and!; try done; lia.
Qed.

Lemma beside_compares a b n m beta gamma : beside s rid a n beta → beside s rid b m gamma → anchor_cmp debug s' a b = Some (place_cmp n m beta gamma).
Proof.
  intros (k & c & r & Hk & Hv & -> & Hn) (k' & d & r' & Hk' & Hv' & -> & Hm). rewrite (visible_side _ _ _ Hv) in Hn. rewrite (visible_side _ _ _ Hv') in Hm.
  assert (scells s !! length k = Some c) as Hc by (by rewrite Hk, list_lookup_middle).
  assert (scells s !! length k' = Some d) as Hd by (by rewrite Hk', list_lookup_middle).
  destruct (kept_places _ _ c d Hc Hd) as (i & j & c' & d' & Hi & Hj & Ec & Ed & Hcmp).
  rewrite <- (same_anchor c c' beta Ec), <- (same_anchor d d' gamma Ed), (cmp_rank TREE_BASE base s' Hs' debug rid i j c' d' beta gamma Hi Hj).
  subst n m. f_equal. rewrite <- rank_place. apply rank_compare. rewrite Hcmp. eapply visible_place; [by rewrite <- Hk, <- Hk'|done|done].
Qed.

Lemma beside_index a o bias : beside s rid a o bias → ∃ i c, scells s' !! i = Some c ∧ a = anchor_of rid c bias.
Proof.
  intros (k & c & r & Hk & _ & -> & _). assert (scells s !! length k = Some c) as Hc by (by rewrite Hk, list_lookup_middle).
  destruct (kept_places _ _ c c Hc Hc) as (i & _ & c' & _ & Hi & _ & Ec & _). exists i, c'. by rewrite (same_anchor c c').
Qed.

Lemma place_lt n m beta gamma : n < m ∨ n = m ∧ beta = Left ∧ gamma = Right → place_cmp n m beta gamma = Lt ∧ place_cmp m n gamma beta = Gt.
Proof.
  unfold place_cmp. intros [Hlt|(-> & -> & ->)]; [|by rewrite Nat.compare_refl].
  by rewrite (proj2 (Nat.compare_lt_iff n m) Hlt), (proj2 (Nat.compare_gt_iff m n) Hlt).
Qed.
Lemma place_eq n bias : place_cmp n n bias bias = Eq.
Proof. unfold place_cmp. rewrite Nat.compare_refl. by destruct bias. Qed.

(** Anchors that were made once compare for ever as they were made. *)
Lemma made_cmp a b n m beta gamma : made s rid a n beta → made s rid b m gamma → anchor_cmp debug s' a b = Some (place_cmp n m beta gamma).
Proof.
  intros Ha%made_index Hb%made_index. set (len := length (visible_text s)) in *.
  assert (∀ c o bias, match bias with Left => 0 < o | Right => o < len end → o ≤ len → beside s rid c o bias →
    (anchor_cmp debug s' (min_for_buffer rid) c = Some Lt ∧ anchor_cmp debug s' c (min_for_buffer rid) = Some Gt) ∧
    (anchor_cmp debug s' c (max_for_buffer rid) = Some Lt ∧ anchor_cmp debug s' (max_for_buffer rid) c = Some Gt) ∧
    (0 < o ∨ 0 = o ∧ Left = Left ∧ bias = Right) ∧ (o < len ∨ o = len ∧ bias = Left ∧ Right = Right)) as Hin.
  { intros c o bias Ho Hle (i & d & Hi & ->)%beside_index. split; [by apply (min_before TREE_BASE base s' Hs' debug rid i)|].
    split; [by apply (max_after TREE_BASE base s' Hs' debug rid i)|]. destruct bias; split.
    - by left.
    - destruct (decide (o = len)); [right; done|left; lia].
    - destruct o; [right; done|left; lia].
    - by left. }
  destruct Ha as [(-> & -> & ->)|[(-> & -> & ->)|(Hn & Hn' & Ha)]], Hb as [(-> & -> & ->)|[(-> & -> & ->)|(Hm & Hm' & Hb)]].
  - done.
  - rewrite (proj1 (place_lt 0 len Left Right ltac:(destruct len; [by right|left; lia]))). done.
  - destruct (Hin b m gamma Hm Hm' Hb) as ([-> _] & _ & H & _). by rewrite (proj1 (place_lt _ _ _ _ H)).
  - rewrite (proj2 (place_lt 0 len Left Right ltac:(destruct len; [by right|left; lia]))). done.
  - by rewrite place_eq.
  - destruct (Hin b m gamma Hm Hm' Hb) as (_ & [_ ->] & _ & H). by rewrite (proj2 (place_lt _ _ _ _ H)).
  - destruct (Hin a n beta Hn Hn' Ha) as ([_ ->] & _ & H & _). by rewrite (proj2 (place_lt _ _ _ _ H)).
  - destruct (Hin a n beta Hn Hn' Ha) as (_ & [-> _] & _ & H). by rewrite (proj1 (place_lt _ _ _ _ H)).
  - by apply beside_compares.
Qed.
End later.

(** ** Properties *)

(** C21: An anchor made in a buffer at a character boundary resolves there to
    the offset it was made at, can be resolved and is valid; turned to either
    side it still resolves to that offset.  Any position, also past the end or
    inside a character, can be anchored: it becomes the boundary at or before
    it.  In a release build [anchor_at_offset] clips such an offset to the side
    of its bias; a debug build panics at it. *)
Theorem anchor_roundtrip TREE_BASE base b debug rid n bias :
  replica_ok TREE_BASE base b →
  let s := snapshot b in
  (is_char_boundary (visible_text s) n = true →
   ∃ a, anchor_at_offset debug rid s n bias = Some a ∧ offset_for_anchor debug rid s a = Some n ∧
     can_resolve rid s a = true ∧ is_valid debug rid s a = Some true ∧
     ∀ side, ∃ a', anchor_bias debug rid s a side = Some a' ∧ offset_for_anchor debug rid s a' = Some n) ∧
  (∃ a, anchor_at debug rid s n bias = Some a ∧ anchor_to_offset debug rid s a = Some (floor_char_boundary (visible_text s) n)) ∧
  (is_char_boundary (visible_text s) n = false →
   if debug then anchor_at_offset debug rid s n bias = None
   else ∃ a, anchor_at_offset debug rid s n bias = Some a ∧ offset_for_anchor debug rid s a = Some (clipped_offset s n bias)).
Proof.
  intros Hok s. pose proof (bi_state _ _ _ (ro_inv _ _ _ Hok)) as Hs. fold s in Hs. split; [|split].
  - intros Hb. destruct (boundary_roundtrip TREE_BASE base s Hs debug rid n bias Hb) as (a & E & Hoff & Hcan & Hval & _).
    exists a. split_and!; try done. intros turn. unfold anchor_bias, bias_left, bias_right, anchor_to_offset, usize_to_offset.
    rewrite Hoff. cbn [mbind option_bind]. rewrite (boundary_floor _ _ Hb).
    destruct (boundary_roundtrip TREE_BASE base s Hs debug rid n turn Hb) as (a' & E' & Hoff' & _).
    destruct turn, (a_bias a); by eexists.
  - destruct (boundary_roundtrip TREE_BASE base s Hs debug rid _ bias (floor_boundary (visible_text s) n)) as (a & E & Hoff & _).
    exists a. split; [exact E|]. unfold anchor_to_offset, usize_to_offset. rewrite Hoff. cbn [mbind option_bind]. by rewrite boundary_floor by apply floor_boundary.
  - intros Hb. destruct debug eqn:Hd; [|by apply (release_clips TREE_BASE base s Hs false rid n bias)].
    unfold anchor_at_offset. rewrite Hb. destruct (Nat.eqb_spec n 0) as [->|_]; [done|]. rewrite andb_false_r. cbn [negb andb orb].
    destruct (Nat.eqb_spec n (length (visible_text s))) as [->|_]; [by rewrite boundary_length in Hb|]. by rewrite andb_false_r.
Qed.

(** C18: An anchor stays with its byte through every sequence of local edits,
    remote operations, undos and redos: it was made beside a visible byte, and
    in any later state it resolves to the offset just after that byte (bias
    left) or just before it (bias right), whatever was inserted, deleted or
    restored around it; when the byte is visible it is the one at that place of
    the text. *)
Theorem anchors_follow_text TREE_BASE max base b b' debug rid n bias :
  1 ≤ TREE_BASE → (4 ≤ max ≤ u32_max)%N → replica_ok TREE_BASE base b → rtc (replica_step TREE_BASE max base) b b' →
  is_char_boundary (visible_text (snapshot b)) n = true →
  match bias with Left => 0 < n | Right => n < length (visible_text (snapshot b)) end →
  ∃ a k c r k' c' r',
    anchor_at_offset debug rid (snapshot b) n bias = Some a ∧
    scells (snapshot b) = k ++ c :: r ∧ c_visible c = true ∧ length (visible_bytes (side bias k c)) = n ∧
    scells (snapshot b') = k' ++ c' :: r' ∧ ckey c' = ckey c ∧ c_byte c' = c_byte c ∧
    offset_for_anchor debug rid (snapshot b') a = Some (length (visible_bytes (side bias k' c'))) ∧
    (c_visible c' = true → visible_text (snapshot b') !! length (visible_bytes k') = Some (c_byte c)).
Proof.
  intros HB Hmax Hok Hsteps Hb Hn. destruct (steps_keep_bytes TREE_BASE HB max Hmax base b b' Hsteps Hok) as [Hok' Hkeep].
  pose proof (bi_state _ _ _ (ro_inv _ _ _ Hok)) as Hs. pose proof (bi_state _ _ _ (ro_inv _ _ _ Hok')) as Hs'.
  destruct (boundary_roundtrip TREE_BASE base _ Hs debug rid n bias Hb) as (a & E & _ & _ & _ & Hmade). exists a.
  destruct Hmade as [(_ & -> & ->)|[(_ & -> & ->)|(k & c & r & Hk & Hv & -> & Ho)]]; [lia|lia|].
  assert (scells (snapshot b) !! length k = Some c) as Hc by (by rewrite Hk, list_lookup_middle).
  destruct (kept_places (snapshot b) (snapshot b') Hkeep _ _ c c Hc Hc) as (i & _ & c' & _ & Hi & _ & Ec & _).
  destruct (list_elem_of_split_length _ _ _ Hi) as (k' & r' & Hk' & _).
  exists k, c, r, k', c', r'. injection Ec as Ec Ebyte. split_and!; try done; [by unfold ckey; congruence| |].
  - rewrite <- (same_anchor rid c c' bias); [by apply (resolve_cell TREE_BASE base (snapshot b') Hs' debug rid k' c' r')|unfold cid, ckey; congruence].
  - intros Hv'. destruct (buffer_texts _ _ _ (so_buffer _ _ _ Hs')) as [<- _]. fold (scells (snapshot b')). rewrite Hk', visible_bytes_app.
    change (visible_bytes (c' :: r')) with (visible_bytes ([c'] ++ r')). rewrite visible_bytes_app. unfold visible_bytes at 3. cbn. rewrite Hv'. cbn.
    rewrite list_lookup_middle by done. congruence.
Qed.

(** C19: Anchors keep their order: two anchors made at character boundaries of
    a buffer compare as their offsets, and at the same offset left before
    right, and they compare so in every later state, although edits may have
    split, deleted or moved apart everything around them. *)
Theorem anchors_keep_order TREE_BASE max base b b' debug rid n m beta gamma :
  1 ≤ TREE_BASE → (4 ≤ max ≤ u32_max)%N → replica_ok TREE_BASE base b → rtc (replica_step TREE_BASE max base) b b' →
  is_char_boundary (visible_text (snapshot b)) n = true → is_char_boundary (visible_text (snapshot b)) m = true →
  ∃ x y, anchor_at_offset debug rid (snapshot b) n beta = Some x ∧ anchor_at_offset debug rid (snapshot b) m gamma = Some y ∧
    anchor_cmp debug (snapshot b') x y = Some (then_cmp (Nat.compare n m) (bias_cmp beta gamma)).
Proof.
  intros HB Hmax Hok Hsteps Hn Hm. destruct (steps_keep_bytes TREE_BASE HB max Hmax base b b' Hsteps Hok) as [Hok' Hkeep].
  pose proof (bi_state _ _ _ (ro_inv _ _ _ Hok)) as Hs. pose proof (bi_state _ _ _ (ro_inv _ _ _ Hok')) as Hs'.
  destruct (boundary_roundtrip TREE_BASE base _ Hs debug rid n beta Hn) as (x & Ex & _ & _ & _ & Hx).
  destruct (boundary_roundtrip TREE_BASE base _ Hs debug rid m gamma Hm) as (y & Ey & _ & _ & _ & Hy).
  exists x, y. split; [done|]. split; [done|]. by apply (made_cmp TREE_BASE base (snapshot b) (snapshot b') Hs Hs' debug rid Hkeep).
Qed.

Module AnchorExamples.
Import ReplicaExamples.

Example anchors_b0 : anchor_at_offset true 0 (snapshot b0) 2 <$> [Left; Right] = Some <$> [mkAnchor (mkLamport 1 0) 2 Left 0; mkAnchor (mkLamport 1 0) 2 Right 0].
Proof. vm_compute. reflexivity. Qed.

(** "a\nX": the "b" was deleted and an "X" inserted before it. *)
Example resolved_b1 : offset_for_anchor true 0 (snapshot b1) <$> [mkAnchor (mkLamport 1 0) 2 Left 0; mkAnchor (mkLamport 1 0) 2 Right 0] = [Some 2; Some 3].
Proof. vm_compute. reflexivity. Qed.

Example anchor_roundtrip_witness :
  ∃ a, anchor_at_offset false 0 (snapshot b0) 2 Left = Some a ∧ offset_for_anchor false 0 (snapshot b0) a = Some 2 ∧
    can_resolve 0 (snapshot b0) a = true ∧ is_valid false 0 (snapshot b0) a = Some true ∧
    ∀ side, ∃ a', anchor_bias false 0 (snapshot b0) a side = Some a' ∧ offset_for_anchor false 0 (snapshot b0) a' = Some 2.
Proof.
  refine (proj1 (anchor_roundtrip 6 (base_of (normalize text)) b0 false 0 2 Left _) _); [apply b0_ok|vm_compute; reflexivity].
Defined.

Example anchors_follow_text_witness :
  ∃ a k c r k' c' r',
    anchor_at_offset true 0 (snapshot b0) 2 Right = Some a ∧
    scells (snapshot b0) = k ++ c :: r ∧ c_visible c = true ∧ length (visible_bytes (side Right k c)) = 2 ∧
    scells (snapshot b2) = k' ++ c' :: r' ∧ ckey c' = ckey c ∧ c_byte c' = c_byte c ∧
    offset_for_anchor true 0 (snapshot b2) a = Some (length (visible_bytes (side Right k' c'))) ∧
    (c_visible c' = true → visible_text (snapshot b2) !! length (visible_bytes k') = Some (c_byte c)).
Proof.
  apply (anchors_follow_text 6 16 (base_of (normalize text)) b0 b2 true 0 2 Right);
    [lia|apply small_max|apply b0_ok|apply b2_reachable|vm_compute; reflexivity|apply Nat.ltb_lt; vm_compute; reflexivity].
Defined.

Example anchors_keep_order_witness :
  ∃ x y, anchor_at_offset true 0 (snapshot b0) 2 Left = Some x ∧ anchor_at_offset true 0 (snapshot b0) 2 Right = Some y ∧
    anchor_cmp true (snapshot b2) x y = Some (then_cmp (Nat.compare 2 2) (bias_cmp Left Right)).
Proof.
  apply (anchors_keep_order 6 16 (base_of (normalize text)) b0 b2 true 0 2 2 Left Right);
    [lia|apply small_max|apply b0_ok|apply b2_reachable|vm_compute; reflexivity..].
Defined.
End AnchorExamples.
