(* ===== verification/Versions.v ===== *)
(** * Past versions ([BufferSnapshot::rope_for_version], [edits_since] and
    their relatives in [crates/text/src/text.rs])

    The text of a version the buffer has passed, and the edits that lead from
    it to the present text, are read off the fragments that may have changed
    since.  [None] is a failed assertion, an underflow or an [unwrap] of
    [None]. *)

From S2P Require Import Prelude Clock Text SumTree Cursor Search KeyedTree UndoMap Patch Fragment Cells Undo Chunk Buffer Anchor Measures.
From S2P Require Locator.
#[local] Existing Instance Locator.Locator_eq_dec.

(** ** Cursors *)

(** [rope::Cursor::seek_forward] and [summary]. *)
Definition rope_seek_forward (c : RopeCursor) (end_offset : nat) : option RopeCursor := snd <$> rope_slice c end_offset.

(** [summary] in a text dimension. *)
Definition rope_summary {D} (td : TextMeasure D) (c : RopeCursor) (end_offset : nat) : option (D * RopeCursor) :=
  '(t, c) ← rope_slice c end_offset; Some (tm_of td t, c).

(** [FilterCursor]: it stops at the fragments that pass the filter. *)
Section filter.
Context (keep : Fragment → bool).
Fixpoint search_fragments (d : FragmentTextSummary) (l : list Fragment) : FragmentCursor :=
  match l with
  | [] => mkFragmentCursor d []
  | f :: l' => if keep f then mkFragmentCursor d l else search_fragments (add_fragment_text d f) l'
  end.
(** [filter], then the first [next]. *)
Definition filter_cursor (l : list Fragment) : FragmentCursor := search_fragments zero_text l.
Definition filter_next (c : FragmentCursor) : FragmentCursor :=
  match upcoming c with f :: l => search_fragments (add_fragment_text (start c) f) l | [] => c end.
End filter.
Abbreviation TextCursor := (FragmentCursor (D := FragmentTextSummary)).

(** The filter of all these functions. *)
Definition may_differ (version : Global) (f : Fragment) : bool := negb (observed_all version (max_version (fragment_summary f))).

(** ** [rope_for_version] *)

Record VersionState := mkVersionState { vs_cursor : TextCursor; vs_visible : RopeCursor; vs_deleted : RopeCursor; vs_rope : Text }.

Definition version_catch_up (st : VersionState) : option VersionState :=
  if offset (vs_visible st) <? ts_visible (start (vs_cursor st)) then
    '(text, c) ← rope_slice (vs_visible st) (ts_visible (start (vs_cursor st)));
    Some (mkVersionState (vs_cursor st) c (vs_deleted st) (vs_rope st ++ text))
  else Some st.

Definition version_fragment (version : Global) (undos : UndoTree) (f : Fragment) (st : VersionState) : option VersionState :=
  let c := vs_cursor st in
  was_visible ← was_visible f version undos;
  if was_visible : bool then
    if visible f then
      '(text, v) ← rope_slice (vs_visible st) (ts_visible (end_ add_fragment_text c));
      Some (mkVersionState c v (vs_deleted st) (vs_rope st ++ text))
    else
      d ← rope_seek_forward (vs_deleted st) (ts_deleted (start c));
      '(text, d) ← rope_slice d (ts_deleted (end_ add_fragment_text c));
      Some (mkVersionState c (vs_visible st) d (vs_rope st ++ text))
  else if visible f then
    v ← rope_seek_forward (vs_visible st) (ts_visible (end_ add_fragment_text c));
    Some (mkVersionState c v (vs_deleted st) (vs_rope st))
  else Some st.

Fixpoint version_loop (fuel : nat) (version : Global) (undos : UndoTree) (st : VersionState) : option VersionState :=
  match fuel with
  | O => None
  | S fuel =>
      match item (vs_cursor st) with
      | None => Some st
      | Some f =>
          st ← version_catch_up st;
          st ← version_fragment version undos f st;
          version_loop fuel version undos
            (mkVersionState (filter_next (may_differ version) (vs_cursor st)) (vs_visible st) (vs_deleted st) (vs_rope st))
      end
  end.

(** The cursor passes one fragment per round. *)
Definition rope_for_version (s : BufferSnapshot) (version : Global) : option Text :=
  let st := mkVersionState (filter_cursor (may_differ version) (fragments s)) (mkRopeCursor (visible_text s) 0) (mkRopeCursor (deleted_text s) 0) [] in
  st ← version_loop (S (length (fragments s))) version (undo_map s) st;
  st ← version_catch_up st;
  Some (vs_rope st).

(** ** [has_edits_since] *)

Fixpoint has_edits_loop (fuel : nat) (since : Global) (undos : UndoTree) (c : TextCursor) : option bool :=
  match fuel with
  | O => None
  | S fuel =>
      match item c with
      | None => Some false
      | Some f =>
          was_visible ← was_visible f since undos;
          if negb (Bool.eqb was_visible (visible f)) then Some true else has_edits_loop fuel since undos (filter_next (may_differ since) c)
      end
  end.
Definition has_edits_since (s : BufferSnapshot) (since : Global) : option bool :=
  if bool_decide (since = version s) then Some false
  else has_edits_loop (S (length (fragments s))) since (undo_map s) (filter_cursor (may_differ since) (fragments s)).

Fixpoint has_edits_in_range_loop (fuel : nat) (since : Global) (undos : UndoTree) (start_id end_id : Locator) (c : TextCursor) : option bool :=
  match fuel with
  | O => None
  | S fuel =>
      match item c with
      | None => Some false
      | Some f =>
          if ltb end_id (f_id f) then Some false
          else
            differs ← (if ltb start_id (f_id f) then w ← was_visible f since undos; Some (negb (Bool.eqb w (visible f))) else Some false);
            if differs : bool then Some true
            else has_edits_in_range_loop fuel since undos start_id end_id (filter_next (may_differ since) c)
      end
  end.
Definition has_edits_since_in_range (debug : bool) (s : BufferSnapshot) (since : Global) (range : Anchor * Anchor) : option bool :=
  if bool_decide (since = version s) then Some false
  else
    start_id ← fragment_id_for_anchor debug s range.1;
    end_id ← fragment_id_for_anchor debug s range.2;
    has_edits_in_range_loop (S (length (fragments s))) since (undo_map s) start_id end_id (filter_cursor (may_differ since) (fragments s)).

(** ** The [Edits] iterator *)

Record EditOf (D : Type) := mkEditOf { e_old : D * D; e_new : D * D }.
#[global] Arguments mkEditOf {D}.
#[global] Arguments e_old {D}.
#[global] Arguments e_new {D}.

(** [u32] subtraction, which panics below zero. *)
Definition sub_offsets (a : N) (b : nat) : option N := if (N.of_nat b <=? a)%N then Some (a - N.of_nat b)%N else None.

Section edits.
Context {D : Type} (td : TextMeasure D) (undos : UndoTree) (since : Global) (buffer_id : N).
Context (range_start range_end : Locator * N).

(** The fields of [Edits] that change. *)
Record EditsState := mkEditsState {
  ed_visible : RopeCursor;
  ed_deleted : RopeCursor;
  ed_cursor : TextCursor;
  ed_old_end : D;
  ed_new_end : D;
}.
Definition Pending : Type := option (EditOf D * (Anchor * Anchor)).

Definition edits_catch_up (it : EditsState) : option EditsState :=
  if offset (ed_visible it) <? ts_visible (start (ed_cursor it)) then
    '(summary, c) ← rope_summary td (ed_visible it) (ts_visible (start (ed_cursor it)));
    Some (mkEditsState c (ed_deleted it) (ed_cursor it) (tm_add td (ed_old_end it) summary) (tm_add td (ed_new_end it) summary))
  else Some it.

(** The end of the fragment, or of the range if it ends inside. *)
Definition clip_end (f : Fragment) (fragment_start fragment_end : nat) : option nat :=
  if bool_decide (f_id f = range_end.1) then
    inside ← sub_offsets range_end.2 (insertion_offset f); Some (N.to_nat (N.min (N.of_nat fragment_end) (N.of_nat fragment_start + inside)))
  else Some fragment_end.

Definition start_anchor (f : Fragment) : Anchor := mkAnchor (f_timestamp f) (N.of_nat (insertion_offset f)) Right buffer_id.
Definition end_anchor (f : Fragment) : Anchor := mkAnchor (f_timestamp f) (wrap_u32 (N.of_nat (insertion_offset f + f_len f))) Left buffer_id.

Definition edits_fragment (f : Fragment) (it : EditsState) (pending_edit : Pending) : option (Pending * EditsState) :=
  let c := ed_cursor it in
  was_visible ← was_visible f since undos;
  if negb was_visible && visible f then
    visible_end ← clip_end f (ts_visible (start c)) (ts_visible (end_ add_fragment_text c));
    '(summary, v) ← rope_summary td (ed_visible it) visible_end;
    let new_end := tm_add td (ed_new_end it) summary in
    let pending_edit := match pending_edit with
                        | Some (e, r) => (mkEditOf (e_old e) ((e_new e).1, new_end), (r.1, end_anchor f))
                        | None => (mkEditOf (ed_old_end it, ed_old_end it) (ed_new_end it, new_end), (start_anchor f, end_anchor f))
                        end in
    Some (Some pending_edit, mkEditsState v (ed_deleted it) c (ed_old_end it) new_end)
  else if was_visible && negb (visible f) then
    deleted_end ← clip_end f (ts_deleted (start c)) (ts_deleted (end_ add_fragment_text c));
    d ← (if offset (ed_deleted it) <? ts_deleted (start c) then rope_seek_forward (ed_deleted it) (ts_deleted (start c)) else Some (ed_deleted it));
    '(summary, d) ← rope_summary td d deleted_end;
    let old_end := tm_add td (ed_old_end it) summary in
    let pending_edit := match pending_edit with
                        | Some (e, r) => (mkEditOf ((e_old e).1, old_end) (e_new e), (r.1, end_anchor f))
                        | None => (mkEditOf (ed_old_end it, old_end) (ed_new_end it, ed_new_end it), (start_anchor f, end_anchor f))
                        end in
    Some (Some pending_edit, mkEditsState (ed_visible it) d c old_end (ed_new_end it))
  else Some (pending_edit, it).

Definition edits_advance (it : EditsState) : EditsState :=
  mkEditsState (ed_visible it) (ed_deleted it) (filter_next (may_differ since) (ed_cursor it)) (ed_old_end it) (ed_new_end it).

(** [Iterator::next]: the edit, which ends where an unchanged text follows. *)
Fixpoint edits_next (fuel : nat) (it : EditsState) (pending_edit : Pending) : option (Pending * EditsState) :=
  match fuel with
  | O => None
  | S fuel =>
      match item (ed_cursor it) with
      | None => Some (pending_edit, it)
      | Some f =>
          if ltb (f_id f) range_start.1 then edits_next fuel (edits_advance it) pending_edit
          else if ltb range_end.1 (f_id f) then Some (pending_edit, it)
          else
            it ← edits_catch_up it;
            if match pending_edit with Some (e, _) => tm_lt td (e_new e).2 (ed_new_end it) | None => false end
            then Some (pending_edit, it)
            else
              '(pending_edit, it) ← edits_fragment f it pending_edit;
              edits_next fuel (edits_advance it) pending_edit
      end
  end.

(** The edits the iterator yields. *)
Fixpoint edits_all (fuel : nat) (it : EditsState) : option (list (EditOf D * (Anchor * Anchor))) :=
  match fuel with
  | O => None
  | S fuel =>
      '(e, it) ← edits_next (S (length (upcoming (ed_cursor it)))) it None;
      match e with Some e => l ← edits_all fuel it; Some (e :: l) | None => Some [] end
  end.
End edits.
#[global] Arguments EditsState : clear implicits.
#[global] Arguments mkEditsState {D}.
#[global] Arguments ed_visible {D}.
#[global] Arguments ed_deleted {D}.
#[global] Arguments ed_cursor {D}.
#[global] Arguments ed_old_end {D}.
#[global] Arguments ed_new_end {D}.

Section edits_since.
Context {D : Type} (td : TextMeasure D) (debug : bool) (remote_id : N).
Implicit Types (s : BufferSnapshot) (since : Global).

(** [Dimensions<Option<&Locator>, FragmentTextSummary>]. *)
Definition add_id_text (d : option Locator * FragmentTextSummary) (f : Fragment) : option Locator * FragmentTextSummary :=
  (Some (f_id f), add_fragment_text d.2 f).
Definition past_id_text (i : Locator) (d : option Locator * FragmentTextSummary) : bool :=
  match d.1 with Some j => ltb j i | None => true end.

(** Where the rope cursors start. *)
Definition range_starts s (start_fragment_id : Locator) (start_offset : N) : option (nat * nat) :=
  let '(start, item) := find_fragment add_id_text (past_id_text start_fragment_id) (None, zero_text) (fragments s) in
  let visible_start := ts_visible start.2 in
  let deleted_start := ts_deleted start.2 in
  match item with
  | Some fragment =>
      overshoot ← sub_offsets start_offset (insertion_offset fragment);
      let overshoot := N.to_nat overshoot in
      Some (if visible fragment then (visible_start + overshoot, deleted_start) else (visible_start, deleted_start + overshoot))
  | None => Some (visible_start, deleted_start)
  end.

(** [rope::Rope::cursor], which also accepts an offset past the end. *)
Definition anchored_edits_since_in_range s since (range : Anchor * Anchor) : option (list (EditOf D * (Anchor * Anchor))) :=
  if bool_decide (since = version s) then Some []
  else
    let cursor := filter_cursor (may_differ since) (fragments s) in
    start_fragment_id ← fragment_id_for_anchor debug s range.1;
    '(visible_start, deleted_start) ← range_starts s start_fragment_id (a_offset range.1);
    end_fragment_id ← fragment_id_for_anchor debug s range.2;
    edits_all td (undo_map s) since remote_id (start_fragment_id, a_offset range.1) (end_fragment_id, a_offset range.2)
      (S (length (fragments s)))
      (mkEditsState (mkRopeCursor (visible_text s) visible_start) (mkRopeCursor (deleted_text s) deleted_start) cursor (tm_zero td) (tm_zero td)).
Definition edits_since_in_range s since (range : Anchor * Anchor) : option (list (EditOf D)) :=
  l ← anchored_edits_since_in_range s since range; Some (l.*1).
Definition anchored_edits_since s since : option (list (EditOf D * (Anchor * Anchor))) :=
  anchored_edits_since_in_range s since (min_max_range_for_buffer remote_id).
Definition edits_since s since : option (list (EditOf D)) :=
  edits_since_in_range s since (min_max_range_for_buffer remote_id).
End edits_since.

(** ** [offsets_to_version] *)

(** The offset moves back over one edit: done, or past the edit. *)
Fixpoint offset_to_version (last_old_end last_new_end new_offset : nat) (edits : list (EditOf nat)) : nat * (nat * nat * list (EditOf nat)) :=
  match edits with
  | [] => (last_old_end + (new_offset - last_new_end), (last_old_end, last_new_end, []))
  | edit :: edits' =>
      if new_offset <? (e_new edit).1 then (last_old_end + (new_offset - last_new_end), (last_old_end, last_new_end, edits))
      else if (e_new edit).2 <=? new_offset then offset_to_version (e_old edit).2 (e_new edit).2 new_offset edits'
      else (Nat.min ((e_old edit).1 + (new_offset - (e_new edit).1)) (e_old edit).2, (last_old_end, last_new_end, edits))
  end.
Fixpoint offsets_loop (last_old_end last_new_end : nat) (edits : list (EditOf nat)) (offsets : list nat) : list nat :=
  match offsets with
  | [] => []
  | o :: offsets =>
      let '(r, (lo, ln, edits)) := offset_to_version last_old_end last_new_end o edits in
      r :: offsets_loop lo ln edits offsets
  end.
Definition offsets_to_version (debug : bool) (remote_id : N) (s : BufferSnapshot) (offsets : list nat) (version : Global) : option (list nat) :=
  edits ← edits_since usize_measure debug remote_id s version; Some (offsets_loop 0 0 edits offsets).
Definition range_to_version (debug : bool) (remote_id : N) (s : BufferSnapshot) (range : nat * nat) (version : Global) : option (nat * nat) :=
  offsets ← offsets_to_version debug remote_id s [range.1; range.2] version;
  match offsets with [a; b] => Some (a, b) | _ => None end.
