(* ===== verification/VersionsOk.v ===== *)
(** * Past texts and edits since a version are exact

    The fragments a version need not look at look the same now, because every
    undo that touched them is recorded in them; the others are compared.  No
    operation changes what an earlier version saw. *)

From S2P Require Import Prelude Clock Text SumTree Cursor Search KeyedTree UndoMap Patch Fragment Cells BufferInv LocalEdit Undo UndoIndex RemoteCells RemoteEdit RemoteEditOk Tracking Converge Chunk Buffer BufferState BufferOk Replica Anchor AnchorOk AnchorProps Measures Versions.
From S2P Require Locator TreeMap History.
Local Open Scope ord_scope.

(** ** What a version sees *)

Definition seen_at (m : UndoTree) (v : Global) (c : Cell) : bool :=
  observed v (c_timestamp c) && was_at m v (c_timestamp c) (c_deletions c).
Definition fragment_seen (m : UndoTree) (v : Global) (f : Fragment) : bool := observed v (f_timestamp f) && was_at m v (f_timestamp f) (deletions f).

(** The text at version [v]. *)
Definition past_text (s : BufferSnapshot) (v : Global) : Text := bytes_by (seen_at (undo_map s) v) (scells s).

Lemma was_visible_seen TREE_BASE m v f : walkable TREE_BASE m → ksorted (items m) → was_visible f v m = Some (fragment_seen m v f).
Proof.
  intros Hw Hs. unfold fragment_seen. destruct (observed v (f_timestamp f)) eqn:Ho.
  - by rewrite (was_visible_spec TREE_BASE m v f Hw Hs Ho).
  - unfold was_visible. by rewrite Ho.
Qed.

(** ** Version vectors *)

Lemma observed_all_iff g h : observed_all g h = true ↔ length (values h) ≤ length (values g) ∧ ∀ t, observed h t = true → observed g t = true.
Proof.
  unfold observed_all. destruct (Nat.ltb_spec (length (values g)) (length (values h))) as [|Hle]; [split; [done|lia]|].
  rewrite (iter_zip_all (λ x y, y <=? x)%N), zip_all_spec. split.
  - intros Hall. split; [done|]. intros t. unfold observed. rewrite !N.leb_le, !get_at.
    destruct (values h !! _) as [y|] eqn:Ey; cbn; [|lia]. pose proof (lookup_lt_Some _ _ _ Ey).
    destruct (lookup_lt_is_Some_2 (values g) (N.to_nat (replica_id t)) ltac:(lia)) as [x Hx]. rewrite Hx. cbn.
    specialize (Hall _ _ _ Hx Ey). apply N.leb_le in Hall. lia.
  - intros [_ Hall] i x y Hx Hy. specialize (Hall (mkLamport y (N.of_nat i))). unfold observed in Hall. rewrite !N.leb_le, !get_at in Hall.
    cbn in Hall. rewrite Nat2N.id, Hx, Hy in Hall. apply N.leb_le, Hall. cbn. lia.
Qed.
Lemma observed_all_mono g h t : observed_all g h = true → observed h t = true → observed g t = true.
Proof. intros [_ H]%observed_all_iff. apply H. Qed.
Lemma observed_join_l g h t : observed g t = true → observed (join g h) t = true.
Proof. unfold observed. rewrite !N.leb_le, !get_at, join_at. lia. Qed.
Lemma observed_join_r g h t : observed h t = true → observed (join g h) t = true.
Proof. unfold observed. rewrite !N.leb_le, !get_at, join_at. lia. Qed.
Lemma foldl_observe_mono l g t : observed g t = true → observed (foldl observe g l) t = true.
Proof. revert g. induction l as [|u l IH]; intros g H; [done|]. cbn [foldl]. by apply IH, observe_mono. Qed.
Lemma foldl_observed l g t : t ∈ l → (0 < value t)%N → observed (foldl observe g l) t = true.
Proof.
  revert g. induction l as [|u l IH]; intros g; [by intros ?%elem_of_nil|]. intros [->|Hin]%elem_of_cons H; cbn [foldl].
  - by apply foldl_observe_mono, observe_observed.
  - by apply IH.
Qed.

(** [max_version] covers the fragment's insertion, deletions and undos. *)
Lemma max_version_covers v f t : observed_all v (max_version (fragment_summary f)) = true →
  ((t = f_timestamp f ∨ t ∈ deletions f) ∧ (0 < value t)%N ∨ observed (max_undos f) t = true) → observed v t = true.
Proof.
  intros Hall Ht. apply (observed_all_mono _ _ t Hall). cbn -[join observe]. destruct Ht as [[[->|Hin] Hp]|Hu].
  - by apply observed_join_l, foldl_observe_mono, observe_observed.
  - by apply observed_join_l, foldl_observed.
  - by apply observed_join_r.
Qed.

(** ** Fragments that cannot differ *)

Section quiet.
Context (TREE_BASE : nat) (base : option Lamport) (s : BufferSnapshot) (Hs : state_ok TREE_BASE base s) (v : Global).

Lemma observed_zero t : value t = 0%N → observed v t = true.
Proof. unfold observed. rewrite N.leb_le. lia. Qed.

(** A quiet fragment is seen exactly when it is visible. *)
Lemma quiet_fragment f : f ∈ fragments s → may_differ v f = false → fragment_seen (undo_map s) v f = visible f.
Proof.
  intros Hf Hq. unfold may_differ in Hq. apply negb_false_iff in Hq.
  destruct (first_cell _ _ _ f (so_buffer _ _ _ Hs) Hf) as [b Hc].
  pose proof (so_cells _ _ _ Hs) as Hok. rewrite Forall_forall in Hok. destruct (Hok _ Hc) as [_ _ _ Hvis _]. cbn in Hvis.
  pose proof (so_recorded _ _ _ Hs) as Hrec. rewrite Forall_forall in Hrec. specialize (Hrec _ Hc).
  assert (∀ t, t = f_timestamp f ∨ t ∈ deletions f → observed v t = true) as Hobs.
  { intros t Ht. destruct (decide (value t = 0%N)); [by apply observed_zero|]. apply (max_version_covers v f t Hq). left. split; [done|lia]. }
  assert (∀ t, t = f_timestamp f ∨ t ∈ deletions f → odd_count_at (undo_map s) v t = odd_count (undo_map s) t) as Hodd.
  { intros t Ht. unfold odd_count_at, odd_count. f_equal. apply N.le_antisymm; apply max_count_le; intros x Hx Hid _;
      eapply (proj1 (max_count_le _ t (items (undo_map s)) _) (N.le_refl _)); try done.
    apply (max_version_covers v f _ Hq). right. apply (Hrec x Hx). rewrite Hid. exact Ht. }
  rewrite Hvis. unfold fragment_seen, was_at, shown. cbn. rewrite Hobs by by left. rewrite Hodd by by left. cbn [andb]. f_equal.
  assert (∀ d, d ∈ deletions f → negb (observed v d) || odd_count_at (undo_map s) v d = odd_count (undo_map s) d) as Hd.
  { intros d Hd. rewrite Hobs, Hodd by by right. done. }
  clear -Hd. induction (deletions f) as [|d l IH]; [done|]. cbn. rewrite Hd by by left. f_equal. apply IH. intros e He. apply Hd. by right.
Qed.

End quiet.

(** The filter on the summary of a subtree passes when it does on a fragment of
    it, so filtering nodes of the tree is filtering its fragments. *)
Lemma observed_all_join v g h : observed_all v (join g h) = true → observed_all v g = true ∧ observed_all v h = true.
Proof.
  rewrite !observed_all_iff, join_length. intros [Hl H].
  split; (split; [lia|]); intros t Ht; apply H; [by apply observed_join_l|by apply observed_join_r].
Qed.
Lemma filter_subtree v l g f : f ∈ l → may_differ v f = true → negb (observed_all v (max_version (foldl add_summary g (fragment_summary <$> l)))) = true.
Proof.
  unfold may_differ. rewrite !negb_true_iff, <- !not_true_iff_false. intros Hf Hd Hall. apply Hd. clear Hd.
  assert (∀ l g, observed_all v (max_version (foldl add_summary g (fragment_summary <$> l))) = true → observed_all v (max_version g) = true) as Hg.
  { clear. induction l as [|k l IH]; intros g H; [done|]. by apply IH, observed_all_join in H as [? _]. }
  revert g Hall. induction l as [|h l IH]; [by apply elem_of_nil in Hf|]. intros g Hall. rewrite fmap_cons in Hall. cbn [foldl] in Hall.
  apply elem_of_cons in Hf as [->|Hf]; [|by apply (IH Hf _ Hall)]. by apply Hg, observed_all_join in Hall as [_ ?].
Qed.

(** ** The filter cursor *)

Section walk.
Context (TREE_BASE : nat) (base : option Lamport) (s : BufferSnapshot) (Hs : state_ok TREE_BASE base s) (v : Global).
Context (Hw : walkable TREE_BASE (undo_map s)).
Local Abbreviation V := (visible_text s).
Local Abbreviation D := (deleted_text s).
Local Abbreviation seen := (fragment_seen (undo_map s) v).

Definition quiet (k : list Fragment) : Prop := Forall (λ f, seen f = visible f) k.

(** The cursor has passed [p]. *)
Definition passed_to (p r : list Fragment) (c : TextCursor) : Prop :=
  fragments s = p ++ r ∧ c = mkFragmentCursor (mkTextSummary (vlen p) (dlen p)) r.

Lemma search_fragments_ok keep d l : ∃ k r, l = k ++ r ∧ Forall (λ f, keep f = false) k ∧
  search_fragments keep d l = mkFragmentCursor (mkTextSummary (ts_visible d + vlen k) (ts_deleted d + dlen k)) r.
Proof.
  revert d. induction l as [|f l IH]; intros d; cbn [search_fragments].
  { exists [], []. unfold vlen, dlen. cbn. rewrite !Nat.add_0_r. by destruct d. }
  destruct (keep f) eqn:Hk.
  - exists [], (f :: l). unfold vlen, dlen. cbn. rewrite !Nat.add_0_r. by destruct d.
  - destruct (IH (add_fragment_text d f)) as (k & r & -> & Hf & ->). exists (f :: k), r. split; [done|]. split; [by constructor|].
    rewrite vlen_cons, dlen_cons. cbn. by rewrite !Nat.add_assoc.
Qed.

Lemma searched_ok p l : fragments s = p ++ l →
  ∃ k r, l = k ++ r ∧ quiet k ∧ passed_to (p ++ k) r (search_fragments (may_differ v) (mkTextSummary (vlen p) (dlen p)) l).
Proof.
  intros Hl. destruct (search_fragments_ok (may_differ v) (mkTextSummary (vlen p) (dlen p)) l) as (k & r & -> & Hk & ->).
  exists k, r. split; [done|]. split.
  - rewrite Forall_forall in Hk. apply Forall_forall. intros f Hf. apply (quiet_fragment TREE_BASE base s Hs v); [|by apply Hk].
    rewrite Hl, !elem_of_app. right. by left.
  - split; [by rewrite Hl, app_assoc|]. by rewrite vlen_app, dlen_app.
Qed.

Lemma filter_cursor_ok : ∃ k r, quiet k ∧ passed_to k r (filter_cursor (may_differ v) (fragments s)).
Proof. destruct (searched_ok [] (fragments s) eq_refl) as (k & r & _ & ? & ?). by exists k, r. Qed.

Lemma filter_next_ok p f r c : passed_to p (f :: r) c →
  ∃ k r', r = k ++ r' ∧ quiet k ∧ passed_to ((p ++ [f]) ++ k) r' (filter_next (may_differ v) c).
Proof.
  intros [Hl ->]. destruct (searched_ok (p ++ [f]) r) as (k & r' & -> & Hk & Hp); [by rewrite Hl, <- app_assoc|].
  exists k, r'. split; [done|]. split; [done|]. unfold filter_next. cbn [upcoming start].
  rewrite vlen_app, dlen_app, vlen_one, dlen_one in Hp. exact Hp.
Qed.

Lemma passed_lengths p r : fragments s = p ++ r → vlen p + vlen r = length V ∧ dlen p + dlen r = length D.
Proof. intros Hl. destruct (so_buffer _ _ _ Hs) as [_ _ Hv Hd]. by rewrite <- Hv, <- Hd, Hl, vlen_app, dlen_app. Qed.

(** ** The text of a prefix *)

Definition past_prefix (p : list Fragment) : Text := bytes_by (seen_at (undo_map s) v) (cells p V D).

Lemma past_prefix_all : past_prefix (fragments s) = past_text s v.
Proof. done. Qed.

Lemma quiet_bytes k x y : quiet k → vlen k ≤ length x → dlen k ≤ length y → bytes_by (seen_at (undo_map s) v) (cells k x y) = take (vlen k) x.
Proof.
  intros Hk Hx Hy. rewrite <- (proj1 (cells_texts k x y Hx Hy)). apply bytes_by_ext, cells_forall.
  eapply Forall_impl; [exact Hk|]. intros f Hf i b. exact Hf.
Qed.

Lemma past_prefix_quiet p k r : fragments s = p ++ k ++ r → quiet k → past_prefix (p ++ k) = past_prefix p ++ take (vlen k) (drop (vlen p) V).
Proof.
  intros Hl Hk. destruct (passed_lengths p (k ++ r) Hl) as [Hv Hd]. rewrite vlen_app in Hv. rewrite dlen_app in Hd.
  unfold past_prefix. rewrite cells_app, bytes_by_app. f_equal. apply quiet_bytes; [done|rewrite length_drop; lia..].
Qed.

(** The bytes of the fragment after the prefix [p]. *)
Definition fragment_bytes (p : list Fragment) (f : Fragment) : Text := if visible f then take (f_len f) (drop (vlen p) V) else take (f_len f) (drop (dlen p) D).

Lemma past_prefix_snoc p f : past_prefix (p ++ [f]) = past_prefix p ++ if seen f then fragment_bytes p f else [].
Proof.
  unfold past_prefix. rewrite cells_app, bytes_by_app. f_equal. cbn [cells]. unfold fragment_bytes.
  assert (∀ t, bytes_by (seen_at (undo_map s) v) (fcells f t) = if seen f then t else []) as H.
  { intros t. unfold bytes_by. assert (Forall (λ c, seen_at (undo_map s) v c = seen f) (fcells f t)) as Hc.
    { apply Forall_lookup. intros i c. unfold fcells. rewrite list_lookup_imap. destruct (t !! i); [|done]. by intros [= <-]. }
    destruct (seen f); [rewrite filter_all by done; apply fcells_bytes|by rewrite filter_none]. }
  destruct (visible f); rewrite app_nil_r; apply H.
Qed.

Lemma fragment_length p f r : fragments s = p ++ f :: r → length (fragment_bytes p f) = f_len f ∧
  (if visible f then vlen p + f_len f ≤ length V else dlen p + f_len f ≤ length D).
Proof.
  intros Hl. destruct (passed_lengths p (f :: r) Hl) as [Hv Hd]. rewrite vlen_cons in Hv. rewrite dlen_cons in Hd. unfold fragment_bytes.
  destruct (visible f) eqn:E; [rewrite (vis_text f E) in Hv|rewrite (hid_text f E) in Hd]; cbn in Hv, Hd; rewrite length_take, length_drop; lia.
Qed.

Lemma cursor_end p f r c : passed_to p (f :: r) c → end_ add_fragment_text c = mkTextSummary (vlen (p ++ [f])) (dlen (p ++ [f])).
Proof. intros [_ ->]. by rewrite vlen_app, dlen_app, vlen_one, dlen_one. Qed.

Lemma end_lengths p f : vlen (p ++ [f]) = vlen p + (if visible f then f_len f else 0) ∧ dlen (p ++ [f]) = dlen p + (if visible f then 0 else f_len f).
Proof. rewrite vlen_app, dlen_app, vlen_one, dlen_one. unfold fragment_text. by destruct (visible f). Qed.

(** ** [rope_for_version] *)

Lemma rope_slice_to t a e : a ≤ e ≤ length t → rope_slice (mkRopeCursor t a) e = Some (take (e - a) (drop a t), mkRopeCursor t e).
Proof. intros H. replace e with (a + (e - a)) at 1 2 by lia. rewrite rope_slice_ok by lia. by replace (a + (e - a)) with e by lia. Qed.

(** The text up to [q] is built; nothing differs between [q] and the cursor. *)
Record version_at (st : VersionState) (q k r : list Fragment) : Prop := {
  va_cursor : passed_to (q ++ k) r (vs_cursor st);
  va_quiet : quiet k;
  va_visible : vs_visible st = mkRopeCursor V (vlen q);
  va_deleted : ∃ n, vs_deleted st = mkRopeCursor D n ∧ n ≤ dlen q;
  va_rope : vs_rope st = past_prefix q;
}.

Lemma version_catch_up_ok st q k r : version_at st q k r → ∃ st', version_catch_up st = Some st' ∧ version_at st' (q ++ k) [] r.
Proof.
  intros [[Hl Hc] Hq Hv (n & Hd & Hn) Hr]. rewrite <- app_assoc in Hl. destruct (passed_lengths q (k ++ r) Hl) as [HV _]. rewrite vlen_app in HV.
  assert (n ≤ dlen (q ++ k)) as Hn' by (rewrite dlen_app; lia).
  unfold version_catch_up. rewrite Hv, Hc. cbn [offset start ts_visible]. rewrite vlen_app. destruct (Nat.ltb_spec (vlen q) (vlen q + vlen k)) as [Hlt|Hge].
  - rewrite rope_slice_ok by lia. cbn [mbind option_bind]. eexists. split; [done|].
    split; cbn; [|by apply Forall_nil_2|by rewrite vlen_app|by exists n|by rewrite Hr, (past_prefix_quiet q k r Hl Hq)].
    rewrite app_nil_r. split; [by rewrite <- app_assoc|by rewrite vlen_app].
  - exists st. split; [done|]. assert (vlen k = 0) as Hk by lia. split.
    + rewrite app_nil_r. split; [by rewrite <- app_assoc|done].
    + by apply Forall_nil_2.
    + by rewrite Hv, vlen_app, Hk, Nat.add_0_r.
    + by exists n.
    + by rewrite Hr, (past_prefix_quiet q k r Hl Hq), Hk, app_nil_r.
Qed.

Lemma version_fragment_ok st p f r : version_at st p [] (f :: r) →
  ∃ st', version_fragment v (undo_map s) f st = Some st' ∧ vs_cursor st' = vs_cursor st ∧
    vs_visible st' = mkRopeCursor V (vlen (p ++ [f])) ∧ (∃ n, vs_deleted st' = mkRopeCursor D n ∧ n ≤ dlen (p ++ [f])) ∧
    vs_rope st' = past_prefix (p ++ [f]).
Proof.
  intros [Hc _ Hv (n & Hd & Hn) Hr]. rewrite app_nil_r in Hc. pose proof Hc as [Hl Hcur]. destruct (fragment_length p f r Hl) as [_ Hlen].
  pose proof (end_lengths p f) as [Hve Hde]. pose proof (past_prefix_snoc p f) as Hsnoc. unfold fragment_bytes in Hsnoc.
  unfold version_fragment. rewrite (was_visible_seen TREE_BASE _ v f Hw (proj2 (so_undo_tree _ _ _ Hs))). cbn [mbind option_bind].
  rewrite (cursor_end p f r _ Hc), Hcur, Hv, Hd. cbn [start ts_visible ts_deleted]. rewrite Hve, Hde.
  destruct (seen f), (visible f); rewrite ?Nat.add_0_r.
  - rewrite rope_slice_ok by lia. eexists. split; [done|]. split_and!; [done..| |by rewrite Hsnoc, <- Hr]. exists n. split; [done|lia].
  - unfold rope_seek_forward. rewrite rope_slice_to by lia. cbn [fmap option_fmap option_map snd mbind option_bind]. rewrite rope_slice_ok by lia. eexists. split; [done|]. split_and!; [done..| |by rewrite Hsnoc, <- Hr].
    exists (dlen p + f_len f). split; [done|lia].
  - unfold rope_seek_forward. rewrite rope_slice_ok by lia. eexists. split; [done|]. split_and!; [done..| |by rewrite Hsnoc, app_nil_r].
    exists n. split; [done|lia].
  - eexists. split; [done|]. split_and!; [done..| |by rewrite Hsnoc, app_nil_r]. exists n. split; [done|lia].
Qed.

Lemma version_loop_ok fuel st q k r : version_at st q k r → length r < fuel →
  ∃ st' q' k', version_loop fuel v (undo_map s) st = Some st' ∧ version_at st' q' k' [] ∧ q' ++ k' = fragments s.
Proof.
  revert st q k r. induction fuel as [|fuel IH]; intros st q k r Hst Hf; [lia|]. cbn [version_loop].
  pose proof (va_cursor _ _ _ _ Hst) as [Hl Hc]. rewrite Hc. unfold item at 1. cbn [upcoming]. destruct r as [|f r]; cbn [head].
  { exists st, q, k. split; [done|]. split; [done|]. by rewrite app_nil_r in Hl. }
  destruct (version_catch_up_ok _ _ _ _ Hst) as (st1 & -> & Hst1). cbn [mbind option_bind].
  destruct (version_fragment_ok _ _ _ _ Hst1) as (st2 & -> & Hc2 & Hv2 & Hd2 & Hr2). cbn [mbind option_bind].
  pose proof (va_cursor _ _ _ _ Hst1) as Hcur. rewrite app_nil_r, <- Hc2 in Hcur.
  destruct (filter_next_ok _ _ _ _ Hcur) as (k' & r' & -> & Hq & Hp). apply (IH _ ((q ++ k) ++ [f]) k' r').
  - by split; cbn.
  - rewrite length_cons, length_app in Hf. lia.
Qed.

Lemma rope_for_version_ok : rope_for_version s v = Some (past_text s v).
Proof.
  unfold rope_for_version. destruct filter_cursor_ok as (k & r & Hk & Hp).
  destruct (version_loop_ok (S (length (fragments s))) (mkVersionState (filter_cursor (may_differ v) (fragments s)) (mkRopeCursor V 0) (mkRopeCursor D 0) [])
    [] k r) as (st & q & k' & -> & Hst & Hall).
  - split; cbn; try done. by exists 0.
  - pose proof (proj1 Hp) as ->. rewrite length_app. lia.
  - cbn [mbind option_bind]. destruct (version_catch_up_ok _ _ _ _ Hst) as (st' & -> & Hst'). cbn [mbind option_bind]. f_equal.
    rewrite (va_rope _ _ _ _ Hst'), Hall. apply past_prefix_all.
Qed.

(** ** [has_edits_since] *)

Definition differs (f : Fragment) : bool := negb (Bool.eqb (seen f) (visible f)).

Lemma quiet_differs k : quiet k → existsb differs k = false.
Proof. induction 1 as [|f k Hf _ IH]; [done|]. cbn. unfold differs at 1. by rewrite Hf, eqb_reflx, IH. Qed.

Lemma has_edits_loop_ok fuel p r c : passed_to p r c → length r < fuel → has_edits_loop fuel v (undo_map s) c = Some (existsb differs r).
Proof.
  revert p r c. induction fuel as [|fuel IH]; intros p r c Hp Hf; [lia|]. cbn [has_edits_loop].
  pose proof Hp as [_ ->]. unfold item at 1. cbn [upcoming]. destruct r as [|f r]; cbn [head]; [done|].
  rewrite (was_visible_seen TREE_BASE _ v f Hw (proj2 (so_undo_tree _ _ _ Hs))). cbn [mbind option_bind existsb]. fold (differs f).
  destruct (differs f); [done|]. destruct (filter_next_ok _ _ _ _ Hp) as (k & r' & -> & Hk & Hp'). rewrite existsb_app, (quiet_differs k Hk).
  apply (IH _ _ _ Hp'). rewrite length_cons, length_app in Hf. lia.
Qed.

Lemma has_edits_ok : has_edits_loop (S (length (fragments s))) v (undo_map s) (filter_cursor (may_differ v) (fragments s)) = Some (existsb differs (fragments s)).
Proof.
  destruct filter_cursor_ok as (k & r & Hk & Hp). rewrite (has_edits_loop_ok _ _ _ _ Hp); pose proof (proj1 Hp) as Hl; rewrite Hl at 1.
  - f_equal. by rewrite existsb_app, (quiet_differs k Hk).
  - rewrite length_app. lia.
Qed.
End walk.

(** ** The [Edits] iterator *)

Local Abbreviation new := Patch.new.

(** An edit between offsets, in the dimension. *)
Definition place {D} (td : TextMeasure D) (x y : Text) (e : Edit) : EditOf D :=
  mkEditOf (tm_of td (take (rstart (old e)) x), tm_of td (take (rend (old e)) x)) (tm_of td (take (rstart (new e)) y), tm_of td (take (rend (new e)) y)).

Lemma place_app {D} (td : TextMeasure D) x y x' y' e : rstart (old e) ≤ length x → rend (old e) ≤ length x → rstart (new e) ≤ length y → rend (new e) ≤ length y →
  place td (x ++ x') (y ++ y') e = place td x y e.
Proof. intros ????. unfold place. by rewrite !take_app_le. Qed.

Definition ends_before (p : Patch) (x y : Text) : Prop := ∀ e, last p = Some e → rend (old e) < length x ∧ rend (new e) < length y.

(** [p] has been yielded, [pending] not yet. *)
Record patch_at {D} (td : TextMeasure D) (p : Patch) (pending : option (EditOf D * (Anchor * Anchor))) (x y : Text) : Prop := {
  pa_patch : match pending with
             | None => describes 0 0 p x y ∧ normalized p ∧ ends_before p x y
             | Some (e, _) => ∃ en, describes 0 0 (p ++ [en]) x y ∧ normalized (p ++ [en]) ∧ e = place td x y en ∧
                 rstart (old en) ≤ rend (old en) ≤ length x ∧ rstart (new en) ≤ rend (new en) ≤ length y ∧
                 length x + rend (new en) = length y + rend (old en)
             end;
}.

Lemma patch_at_keep {D} (td : TextMeasure D) p pending x y t : patch_at td p pending x y → patch_at td p pending (x ++ t) (y ++ t).
Proof.
  intros [H]. split. destruct pending as [[e r]|].
  - destruct H as (en & Hd & Hn & -> & Ho & Hy & Heq). exists en. split; [by apply describes_app_r|]. split; [done|].
    rewrite place_app, !length_app by lia. split_and!; try done; lia.
  - destruct H as (Hd & Hn & He). split; [by apply describes_app_r|]. split; [done|]. intros e E. apply He in E. rewrite !length_app. lia.
Qed.

(** The last edit may take in the unchanged text after it. *)
Lemma describes_extend p en (x y : Text) : describes 0 0 (p ++ [en]) x y → normalized (p ++ [en]) →
  let en' := mkEdit (mkRange (rstart (old en)) (length x)) (mkRange (rstart (new en)) (length y)) in
  describes 0 0 (p ++ [en']) x y ∧ normalized (p ++ [en']) ∧
  ∃ t, x = take (rend (old en)) x ++ t ∧ y = take (rend (new en)) y ++ t.
Proof.
  intros Hd [Hs He]. destruct (describes_snoc_inv _ _ _ _ _ _ Hd) as (a & b & k & u & w & t & Hd1 & -> & -> & -> & _).
  cbn [span_edit old new rstart rend Nat.add] in *. rewrite !length_app. split; [|split].
  - pose proof (describes_snoc 0 0 p a b k (u ++ t) (w ++ t) Hd1) as H. cbn [Nat.add] in H. unfold span_edit in H.
    rewrite !length_app in H. by rewrite !Nat.add_assoc in *.
  - split; [by rewrite <- Hs; apply all_separated_last|]. apply Forall_app in He as [He [Hu _]%Forall_cons]. apply Forall_app. split; [done|].
    constructor; [|done]. unfold is_empty in *. cbn [span_edit old new rstart rend] in *. apply andb_false_iff in Hu. apply andb_false_iff.
    rewrite !Nat.eqb_neq in *. lia.
  - exists t. assert (∀ a k u : Text, a ++ k ++ u ++ t = take (length a + length k + length u) (a ++ k ++ u ++ t) ++ t) as H; [|by split].
    intros. rewrite !app_assoc. rewrite take_app_length'; [done|]. rewrite !length_app. lia.
Qed.

(** If the text after the pending edit measures nothing, the edit may be taken
    to end where the texts do. *)
Lemma pending_end {D} (td : TextMeasure D) fits `{!MeasureOk td fits} p e r x y :
  fits x → fits y → patch_at td p (Some (e, r)) x y → tm_lt td (e_new e).2 (tm_of td y) = false →
  ∃ en, e = place td x y en ∧ describes 0 0 (p ++ [en]) x y ∧ normalized (p ++ [en]) ∧ rstart (old en) ≤ length x ∧ rend (old en) = length x ∧
    rstart (new en) ≤ length y ∧ rend (new en) = length y.
Proof.
  intros Hfx Hfy [(en & Hd & Hn & -> & [Hos Ho] & [Hns Hy] & Heq)] Hlt. cbn in Hlt.
  destruct (describes_extend p en x y Hd Hn) as (Hd' & Hn' & t & Hx & Hyt). eexists. split; [|split; [exact Hd'|split; [exact Hn'|cbn; lia]]].
  rewrite Hyt in Hlt at 2. apply (measure_lt (td := td)) in Hlt; [|by rewrite <- Hyt].
  pose proof (measure_still td fits _ t ltac:(by rewrite <- Hx) Hlt) as Ex. pose proof (measure_still td fits _ t ltac:(by rewrite <- Hyt) Hlt) as Ey.
  rewrite <- Hx in Ex. rewrite <- Hyt in Ey. unfold place. cbn. by rewrite !firstn_all, Ex, Ey.
Qed.

(** The fragment's edit, as the iterator makes or extends it. *)
Lemma patch_at_change {D} (td : TextMeasure D) fits `{!MeasureOk td fits} p pending x y t u anchors e_anchor :
  fits x → fits y → patch_at td p pending x y → t ≠ [] ∨ u ≠ [] → match pending with Some (e, _) => tm_lt td (e_new e).2 (tm_of td y) = false | None => True end →
  patch_at td p (Some (match pending with
    | Some (e, r) => (mkEditOf ((e_old e).1, tm_of td (x ++ t)) ((e_new e).1, tm_of td (y ++ u)), (r.1, e_anchor))
    | None => (mkEditOf (tm_of td x, tm_of td (x ++ t)) (tm_of td y, tm_of td (y ++ u)), anchors)
    end)) (x ++ t) (y ++ u).
Proof.
  intros Hfx Hfy H Hne Hlt. split. set (step := span_edit (length x + 0) (length y + 0) (length t) (length u)).
  assert (is_empty step = false) as He by by apply span_nonempty.
  destruct pending as [[e r]|].
  - destruct (pending_end td fits p e r x y Hfx Hfy H Hlt) as (en & -> & Hd & Hn & Hos & Ho & Hns & Hend).
    destruct (push_patch_ok (p ++ [en]) x y [] t u Hd Hn) as [Hd' Hn']. change (span_edit _ _ _ _) with step in Hd', Hn'. unfold push in Hd', Hn'. rewrite He in Hd', Hn'.
    unfold push_maybe_empty in Hd', Hn'. rewrite last_snoc in Hd', Hn'. cbn [step span_edit old new rstart rend] in Hd', Hn'.
    rewrite (proj2 (Nat.leb_le _ _)) in Hd', Hn' by lia. rewrite length_app, Nat.add_sub, take_app_length in Hd', Hn'. cbn [app] in Hd'.
    eexists. split; [exact Hd'|]. split; [exact Hn'|]. cbn. rewrite !Nat.add_0_r, !length_app. split; [|lia].
    unfold place. cbn. rewrite (take_app_le x), (take_app_le y) by lia. by rewrite (firstn_all2 (x ++ t)), (firstn_all2 (y ++ u)) by (rewrite length_app; lia).
  - destruct H as [(Hd & Hn & Hbefore)]. destruct (push_patch_ok p x y [] t u Hd Hn) as [Hd' Hn']. change (span_edit _ _ _ _) with step in Hd', Hn'. unfold push in Hd', Hn'.
    rewrite He in Hd', Hn'. assert (push_maybe_empty p step = p ++ [step]) as Hp.
    { unfold push_maybe_empty. destruct (last p) as [l|] eqn:El; [|done]. destruct (Hbefore l El). cbn [step span_edit old rstart].
      by rewrite (proj2 (Nat.leb_gt _ _)) by lia. }
    rewrite Hp in Hd', Hn'. cbn [app] in Hd'. exists step. split; [exact Hd'|]. split; [exact Hn'|]. cbn. rewrite !Nat.add_0_r, !length_app. split; [|lia].
    unfold place. cbn. rewrite !Nat.add_0_r, !take_app_length. by rewrite (firstn_all2 (x ++ t)), (firstn_all2 (y ++ u)) by (rewrite length_app; lia).
Qed.

Definition ready {D} (td : TextMeasure D) (pending : Pending) (y : Text) : Prop :=
  match pending with Some (e, _) => tm_lt td (e_new e).2 (tm_of td y) = false | None => True end.

Lemma patch_at_insert {D} (td : TextMeasure D) fits `{!MeasureOk td fits} p pending x y u anchors e_anchor : fits x → fits y → patch_at td p pending x y → u ≠ [] → ready td pending y →
  patch_at td p (Some (match pending with
    | Some (e, r) => (mkEditOf (e_old e) ((e_new e).1, tm_of td (y ++ u)), (r.1, e_anchor))
    | None => (mkEditOf (tm_of td x, tm_of td x) (tm_of td y, tm_of td (y ++ u)), anchors)
    end)) x (y ++ u).
Proof.
  intros Hfx Hfy H Hne Hlt. pose proof (patch_at_change td fits p pending x y [] u anchors e_anchor Hfx Hfy H (or_intror Hne) Hlt) as Hc. rewrite app_nil_r in Hc.
  destruct pending as [[e r]|]; [|exact Hc]. destruct (pending_end td fits p e r x y Hfx Hfy H Hlt) as (en & -> & _ & _ & _ & Ho & _). cbn in Hc |- *.
  by rewrite Ho, firstn_all.
Qed.
Lemma patch_at_delete {D} (td : TextMeasure D) fits `{!MeasureOk td fits} p pending x y t anchors e_anchor : fits x → fits y → patch_at td p pending x y → t ≠ [] → ready td pending y →
  patch_at td p (Some (match pending with
    | Some (e, r) => (mkEditOf ((e_old e).1, tm_of td (x ++ t)) (e_new e), (r.1, e_anchor))
    | None => (mkEditOf (tm_of td x, tm_of td (x ++ t)) (tm_of td y, tm_of td y), anchors)
    end)) (x ++ t) y.
Proof.
  intros Hfx Hfy H Hne Hlt. pose proof (patch_at_change td fits p pending x y t [] anchors e_anchor Hfx Hfy H (or_introl Hne) Hlt) as Hc. rewrite app_nil_r in Hc.
  destruct pending as [[e r]|]; [|exact Hc]. destruct (pending_end td fits p e r x y Hfx Hfy H Hlt) as (en & -> & _ & _ & _ & _ & _ & Hy). cbn in Hc |- *.
  by rewrite Hy, firstn_all.
Qed.

(** The pending edit is yielded when text follows that did not change. *)
Lemma patch_at_yield {D} (td : TextMeasure D) fits `{!MeasureOk td fits} p e r x y : fits y → patch_at td p (Some (e, r)) x y → tm_lt td (e_new e).2 (tm_of td y) = true →
  ∃ en, (∀ x' y', e = place td (x ++ x') (y ++ y') en) ∧ patch_at td (p ++ [en]) None x y.
Proof.
  intros Hfy [(en & Hd & Hn & -> & [Hos Ho] & [Hns Hy] & Heq)] Hlt. exists en. split.
  { intros x' y'. symmetry. apply place_app; lia. }
  cbn in Hlt. assert (rend (new en) < length y) as Hend.
  { destruct (Nat.lt_ge_cases (rend (new en)) (length y)) as [?|Hge]; [done|]. rewrite firstn_all2 in Hlt by lia.
    by rewrite (measure_irrefl td fits) in Hlt. }
  split. split; [done|]. split; [done|]. intros l. rewrite last_snoc. intros [= <-]. lia.
Qed.

Section edits_since.
Context (TREE_BASE : nat) (base : option Lamport) (s : BufferSnapshot) (Hs : state_ok TREE_BASE base s) (v : Global).
Context (Hw : walkable TREE_BASE (undo_map s)) {D : Type} (td : TextMeasure D) (fits : Text → Prop) `{!MeasureOk td fits} (buffer_id : N).
Context (HfX : fits (past_text s v)) (HfV : fits (visible_text s)).
Local Abbreviation V := (visible_text s).
Local Abbreviation DT := (deleted_text s).
Local Abbreviation old_prefix q := (past_prefix s v q).
Local Abbreviation new_prefix q := (take (vlen q) V).
Local Abbreviation seen := (fragment_seen (undo_map s) v).
Local Abbreviation quiet := (quiet s v).
Local Abbreviation passed_to := (passed_to s).

(** The iterator has dealt with [q] and yielded [p]. *)
Record edits_rep (it : EditsState D) (q : list Fragment) (p : Patch) (pending : Pending) : Prop := {
  er_visible : ed_visible it = mkRopeCursor V (vlen q);
  er_deleted : ∃ n, ed_deleted it = mkRopeCursor DT n ∧ n ≤ dlen q;
  er_old_end : ed_old_end it = tm_of td (old_prefix q);
  er_new_end : ed_new_end it = tm_of td (new_prefix q);
  er_patch : patch_at td p pending (old_prefix q) (new_prefix q);
}.

Lemma prefixes q r : fragments s = q ++ r → (∃ x, past_text s v = old_prefix q ++ x) ∧ ∃ y, V = new_prefix q ++ y.
Proof.
  intros Hl. split; [|exists (drop (vlen q) V); by rewrite take_drop].
  unfold past_text, scells. rewrite Hl, cells_app, bytes_by_app. by eexists.
Qed.

Lemma fits_prefixes q r : fragments s = q ++ r → fits (old_prefix q) ∧ fits (new_prefix q).
Proof using HfX HfV MeasureOk0.
  intros Hl. destruct (prefixes q r Hl) as [[x Hx] [y Hy]]. split; eapply (measure_fits (td := td)); [by rewrite <- Hx|by rewrite <- Hy].
Qed.

Lemma new_prefix_app q k : new_prefix (q ++ k) = new_prefix q ++ take (vlen k) (drop (vlen q) V).
Proof. by rewrite vlen_app, take_take_drop. Qed.

Lemma edits_catch_up_ok it q k r p pending : passed_to (q ++ k) r (ed_cursor it) → quiet k → edits_rep it q p pending →
  ∃ it', edits_catch_up td it = Some it' ∧ ed_cursor it' = ed_cursor it ∧ edits_rep it' (q ++ k) p pending.
Proof.
  intros [Hl Hc] Hq [Hv (n & Hd & Hn) Ho Hne Hp]. rewrite <- app_assoc in Hl. destruct (passed_lengths TREE_BASE base s Hs q (k ++ r) Hl) as [HV _].
  rewrite vlen_app in HV. pose proof (past_prefix_quiet TREE_BASE base s Hs v q k r Hl Hq) as Hold. pose proof (new_prefix_app q k) as Hnew.
  destruct (fits_prefixes (q ++ k) r ltac:(by rewrite <- app_assoc)) as [Hfo Hfn].
  unfold edits_catch_up. rewrite Hv, Hc. cbn [offset start ts_visible].
  assert (∃ n, ed_deleted it = mkRopeCursor DT n ∧ n ≤ dlen (q ++ k)) as Hdel by (exists n; rewrite dlen_app; split; [done|lia]).
  assert (patch_at td p pending (old_prefix (q ++ k)) (new_prefix (q ++ k))) as Hpatch by (rewrite Hold, Hnew; by apply patch_at_keep).
  destruct (Nat.ltb_spec (vlen q) (vlen (q ++ k))) as [Hlt|Hge].
  - unfold rope_summary. rewrite vlen_app, rope_slice_ok by lia. cbn [mbind option_bind]. eexists. split; [done|]. split; [done|].
    split; cbn; [by rewrite vlen_app|done|by rewrite Ho, Hold, measure_app by by rewrite <- Hold|by rewrite Hne, Hnew, measure_app by by rewrite <- Hnew|done].
  - exists it. split; [done|]. split; [done|]. assert (vlen k = 0) as Hk by (rewrite vlen_app in Hge; lia). rewrite Hk, app_nil_r in Hold, Hnew.
    split; [by rewrite vlen_app, Hk, Nat.add_0_r|done|by rewrite Hold|by rewrite Hnew|done].
Qed.

(** A fragment that changed moves on to the next prefix; one that did not waits to be caught up. *)
Lemma edits_fragment_ok it q f r p pending range_end : passed_to q (f :: r) (ed_cursor it) → edits_rep it q p pending → f_id f ≠ range_end.1 → frag_ok f →
  ready td pending (new_prefix q) →
  ∃ pending' it' q' k', edits_fragment td (undo_map s) v buffer_id range_end f it pending = Some (pending', it') ∧ ed_cursor it' = ed_cursor it ∧
    q' ++ k' = q ++ [f] ∧ quiet k' ∧ edits_rep it' q' p pending' ∧ (pending' = None ↔ pending = None ∧ differs s v f = false).
Proof.
  intros Hcur Hrep Hend [Hlen _] Hlt. pose proof Hcur as [Hl Hc]. pose proof Hrep as [Hv (n & Hd & Hn) Ho Hne Hp].
  destruct (fragment_length TREE_BASE base s Hs q f r Hl) as [Hfl Hroom]. pose proof (end_lengths q f) as [Hve Hde].
  pose proof (past_prefix_snoc s v q f) as Hold. pose proof (new_prefix_app q [f]) as Hnew. rewrite vlen_one in Hnew.
  destruct (fits_prefixes q (f :: r) Hl) as [Hfo Hfn]. destruct (fits_prefixes (q ++ [f]) r ltac:(by rewrite <- app_assoc)) as [Hfo' Hfn'].
  unfold edits_fragment. rewrite (was_visible_seen TREE_BASE _ v f Hw (proj2 (so_undo_tree _ _ _ Hs))). cbn [mbind option_bind].
  rewrite (cursor_end s q f r _ Hcur), Hc. cbn [start ts_visible ts_deleted]. unfold clip_end. rewrite bool_decide_false by done.
  unfold fragment_text, fragment_bytes in *.
  destruct (seen f) eqn:Hsf, (visible f) eqn:Hvf; cbn [negb andb mbind option_bind ts_visible] in *.
  1, 4: exists pending, it, q, [f]; split_and!; try done; [apply Forall_singleton; by rewrite Hsf, Hvf|unfold differs; rewrite Hsf, Hvf; by split; [|intros []]].
  - assert (take (f_len f) (drop (dlen q) DT) ≠ []) as Hne' by (intros E; rewrite E in Hfl; cbn in Hfl; lia).
    assert (∃ d, (if n <? dlen q then rope_seek_forward (mkRopeCursor DT n) (dlen q) else Some (mkRopeCursor DT n)) = Some d ∧ d = mkRopeCursor DT (dlen q)) as (d & Ed & ->).
    { unfold rope_seek_forward. destruct (Nat.ltb_spec n (dlen q)); [rewrite rope_slice_to by lia; by eexists|]. assert (n = dlen q) as -> by lia. by eexists. }
    rewrite Hd. cbn [offset]. rewrite Ed. cbn [mbind option_bind]. unfold rope_summary. rewrite Hde, rope_slice_ok by lia. cbn [mbind option_bind].
    eexists _, _, (q ++ [f]), []. split; [done|]. split; [done|]. split; [by rewrite app_nil_r|]. split; [by apply Forall_nil_2|]. split; [|split; [done|intros [_ E]; by unfold differs in E; rewrite Hsf, Hvf in E]].
    rewrite app_nil_r in Hnew.
    split; cbn; [by rewrite Hve, Nat.add_0_r|exists (dlen q + f_len f); split; [done|lia]|by rewrite Ho, Hold, measure_app by by rewrite <- Hold|by rewrite Hne, Hnew|].
    rewrite Hold, Hnew, Ho, Hne, <- measure_app by by rewrite <- Hold. by apply (patch_at_delete td fits).
  - assert (take (f_len f) (drop (vlen q) V) ≠ []) as Hne' by (intros E; rewrite E in Hfl; cbn in Hfl; lia).
    unfold rope_summary. rewrite Hv, Hve, rope_slice_ok by lia. cbn [mbind option_bind].
    eexists _, _, (q ++ [f]), []. split; [done|]. split; [done|]. split; [by rewrite app_nil_r|]. split; [by apply Forall_nil_2|]. split; [|split; [done|intros [_ E]; by unfold differs in E; rewrite Hsf, Hvf in E]].
    rewrite app_nil_r in Hold.
    split; cbn; [by rewrite Hve|exists n; split; [done|lia]|by rewrite Ho, Hold|by rewrite Hne, Hnew, measure_app by by rewrite <- Hnew|].
    rewrite Hold, Hnew, Ho, Hne, <- measure_app by by rewrite <- Hnew. by apply (patch_at_insert td fits).
Qed.

(** ** The whole range *)

Local Abbreviation next := (edits_next td (undo_map s) v buffer_id (Locator.min, 0%N) (Locator.max, u32_max)).
Local Abbreviation X := (past_text s v).

Lemma fragment_inside f : f ∈ fragments s → ltb (f_id f) Locator.min = false ∧ ltb Locator.max (f_id f) = false ∧ f_id f ≠ Locator.max ∧ frag_ok f.
Proof.
  intros Hf. destruct (so_buffer _ _ _ Hs) as [[_ Hp Hb] Hfr _ _]. rewrite Forall_forall in Hp, Hb, Hfr. specialize (Hp f Hf). specialize (Hb f Hf).
  apply Locator.proper_min in Hp. split_and!; [|  |intros E; rewrite E in Hb; by apply cmp_lt_irrefl in Hb|by apply Hfr].
  - apply ltb_false. by apply cmp_lt_le.
  - apply ltb_false. by apply cmp_lt_le.
Qed.

(** The iterator after an item. *)
Inductive yielded (p : Patch) (fresh : bool) (n : nat) (pending' : Pending) (it' : EditsState D) : Prop :=
| yield_none : pending' = None → describes 0 0 p X V → normalized p → yielded p fresh n pending' it'
| yield_last e r en : pending' = Some (e, r) → e = place td X V en → describes 0 0 (p ++ [en]) X V → normalized (p ++ [en]) →
    item (ed_cursor it') = None → (fresh = true → 0 < n) → yielded p fresh n pending' it'
| yield_more e r en q' k' r' : pending' = Some (e, r) → e = place td X V en → passed_to (q' ++ k') r' (ed_cursor it') → quiet k' →
    edits_rep it' q' (p ++ [en]) None → length r' ≤ n → (fresh = true → length r' < n) → yielded p fresh n pending' it'.

Lemma edits_finish it q k p pending : passed_to (q ++ k) [] (ed_cursor it) → quiet k → edits_rep it q p pending →
  yielded p (bool_decide (pending = None)) 0 pending it.
Proof.
  intros Hcur Hq Hrep. destruct (edits_catch_up_ok it q k [] p pending Hcur Hq Hrep) as (it' & _ & _ & [_ _ _ _ Hp]).
  pose proof Hcur as [Hl Hc]. rewrite app_nil_r in Hl. rewrite <- Hl in Hp. rewrite past_prefix_all in Hp.
  rewrite (ok_visible _ _ _ (so_buffer _ _ _ Hs)), firstn_all in Hp.
  destruct pending as [[e r]|]; destruct Hp as [Hp].
  - destruct Hp as (en & Hd & Hn & He & _). apply (yield_last _ _ _ _ _ e r en); try done. by rewrite Hc.
  - destruct Hp as (Hd & Hn & _). by apply yield_none.
Qed.

Lemma edits_next_ok fuel it q k r p pending : passed_to (q ++ k) r (ed_cursor it) → quiet k → edits_rep it q p pending → length r < fuel →
  ∃ pending' it', next fuel it pending = Some (pending', it') ∧ yielded p (bool_decide (pending = None)) (length r) pending' it' ∧
    (pending' = None ↔ pending = None ∧ existsb (differs s v) r = false).
Proof.
  revert it q k r pending. induction fuel as [|fuel IH]; intros it q k r pending Hcur Hq Hrep Hf; [lia|]. cbn [edits_next].
  pose proof Hcur as [Hl Hc]. rewrite Hc. unfold item at 1. cbn [upcoming]. destruct r as [|f r]; cbn [head].
  { eexists _, _. split; [done|]. split; [by apply (edits_finish it q k)|]. by split; [|intros []]. }
  cbn [fst]. destruct (fragment_inside f) as (-> & -> & Hne & Hfok); [rewrite Hl; apply elem_of_app; right; by left|].
  destruct (edits_catch_up_ok it q k _ p pending Hcur Hq Hrep) as (it1 & -> & Hc1 & Hrep1). cbn [mbind option_bind].
  rewrite (er_new_end _ _ _ _ Hrep1). destruct (match pending with Some (e, _) => _ | None => false end) eqn:Hy.
  - destruct pending as [[e a]|]; [|done]. destruct (patch_at_yield td fits p e a _ _ (proj2 (fits_prefixes _ _ Hl)) (er_patch _ _ _ _ Hrep1) Hy) as (en & Hplace & Hp1).
    eexists _, _. split; [done|]. split; [|by split; [|intros []]]. destruct (prefixes _ _ Hl) as [[x Hx] [y Hyy]].
    apply (yield_more _ _ _ _ _ e a en (q ++ k) [] (f :: r)); try done; [rewrite Hx, Hyy; apply Hplace|by rewrite app_nil_r, Hc1|by apply Forall_nil_2|].
    destruct Hrep1 as [H1 H2 H3 H4 _]. by split.
  - rewrite <- Hc1 in Hcur.
    destruct (edits_fragment_ok it1 (q ++ k) f r p pending (Locator.max, u32_max) Hcur Hrep1 Hne Hfok) as (pending2 & it2 & q2 & k2 & -> & Hc2 & Hqk & Hq2 & Hrep2 & Hpend).
    { by destruct pending as [[e a]|]. }
    cbn [mbind option_bind]. rewrite <- Hc2 in Hcur. destruct (filter_next_ok TREE_BASE base s Hs v _ _ _ _ Hcur) as (k3 & r3 & -> & Hq3 & Hp3).
    rewrite length_cons, length_app in Hf.
    destruct (IH (edits_advance v it2) q2 (k2 ++ k3) r3 pending2) as (pending' & it' & -> & Hyield & Hiff); [by rewrite app_assoc, Hqk|by apply Forall_app| |lia|].
    { destruct Hrep2 as [H1 H2 H3 H4 H5]. by split. }
    exists pending', it'. split; [done|]. split; [|cbn [existsb]; rewrite Hiff, Hpend, existsb_app, (quiet_differs s v k3 Hq3), orb_false_iff; cbn [orb]; tauto].
    rewrite length_cons, length_app. destruct Hyield as [? ? ?|e a en ? ? ? ? ? Hpos|e a en q' k' r' ? ? ? ? ? Hle Hpos].
    + by apply yield_none.
    + apply (yield_last _ _ _ _ _ e a en); try done. lia.
    + apply (yield_more _ _ _ _ _ e a en q' k' r'); try done; lia.
Qed.

Lemma edits_all_ok fuel it q k r p : passed_to (q ++ k) r (ed_cursor it) → quiet k → edits_rep it q p None → length r < fuel →
  ∃ l p', edits_all td (undo_map s) v buffer_id (Locator.min, 0%N) (Locator.max, u32_max) fuel it = Some l ∧ l.*1 = place td X V <$> p' ∧
    describes 0 0 (p ++ p') X V ∧ normalized (p ++ p') ∧ (p' = [] ↔ existsb (differs s v) r = false).
Proof.
  revert it q k r p. induction fuel as [|fuel IH]; intros it q k r p Hcur Hq Hrep Hf; [lia|]. cbn [edits_all].
  destruct (edits_next_ok (S (length (upcoming (ed_cursor it)))) it q k r p None Hcur Hq Hrep) as (pending' & it' & -> & Hy & Hiff).
  { rewrite (proj2 Hcur). cbn. lia. }
  cbn [mbind option_bind]. rewrite bool_decide_true in Hy by done. destruct Hy as [-> ? ?|e a en -> ? ? ? Hnone Hpos|e a en q' k' r' -> ? ? ? ? Hle Hpos].
  - exists [], []. rewrite app_nil_r. split_and!; try done. by destruct Hiff as [[]].
  - specialize (Hpos eq_refl). destruct fuel as [|fuel]; [lia|]. cbn [edits_all edits_next]. rewrite Hnone. cbn [mbind option_bind].
    exists [(e, a)], [en]. split_and!; [done|cbn; by f_equal|done|done|]. split; [done|]. intros E. by destruct Hiff as [_ Hiff]; specialize (Hiff (conj eq_refl E)).
  - specialize (Hpos eq_refl). destruct (IH it' q' k' r' (p ++ [en])) as (l & p' & -> & Hl & Hd & Hn & _); [done..|lia|]. cbn [mbind option_bind].
    exists ((e, a) :: l), (en :: p'). rewrite <- app_assoc in Hd, Hn. split_and!; [done| |done|done|].
    + rewrite !fmap_cons, Hl. by f_equal.
    + split; [done|]. intros E. by destruct Hiff as [_ Hiff]; specialize (Hiff (conj eq_refl E)).
Qed.
End edits_since.
