(* ===== verification/VersionsProps.v ===== *)
(** * Past versions stay as they were

    No later operation changes what a version sees; hence the text of a past
    version can be rebuilt, and the edits since lead from it to the present
    text. *)

From S2P Require Import Prelude Clock Text SumTree Cursor Search KeyedTree UndoMap Patch Fragment Cells BufferInv LocalEdit Undo UndoIndex RemoteCells RemoteEdit RemoteEditOk Tracking Converge Chunk Buffer BufferState BufferOk Replica Anchor AnchorOk AnchorProps Measures Versions VersionsOk.
From S2P Require Summary Locator TreeMap History.
Local Open Scope ord_scope.

(** ** One operation *)

Section op.
Context (TREE_BASE : nat) (HB : 1 ≤ TREE_BASE) (base : option Lamport) (s s' : BufferSnapshot) (v : Global).
Context (Hs : state_ok TREE_BASE base s) (Hw : walkable TREE_BASE (undo_map s)).

Lemma edit_past opv ts was pos edits : observed v ts = false → undo_map s' = undo_map s →
  scells s' = remote_cells opv ts was pos 0 edits (scells s) → past_text s' v = past_text s v.
Proof.
  intros Hts Hm Hc. unfold past_text. rewrite Hm, Hc. apply undone_cells.
  - intros o b. unfold seen_at. cbn. by rewrite Hts.
  - apply Forall_forall. intros c _. split; [done|]. unfold remote_delete. destruct (_ && _); [|done].
    unfold seen_at. cbn. by rewrite was_at_concurrent.
Qed.

Lemma undo_past u : observed v (UndoMap.timestamp u) = false → observed (version s) (UndoMap.timestamp u) = false →
  insert_undo TREE_BASE (undo_map s) u = Some (undo_map s') → Forall2 same_byte (scells s) (scells s') → past_text s' v = past_text s v.
Proof.
  intros Hts Hnew E Hc. assert (∀ id, odd_count_at (undo_map s') v id = odd_count_at (undo_map s) v id) as Hodd.
  { intros id. destruct (insert_undo_raises TREE_BASE (undo_map s) u (observed v) id HB Hw (proj2 (so_undo_tree _ _ _ Hs))) as (m & E' & _ & _ & Hmax).
    { intros x Hx Heq. apply (so_undone _ _ _ Hs) in Hx as [_ Hx]. congruence. }
    simplify_eq. unfold odd_count_at. rewrite Hmax, Hts. by rewrite N.max_0_l. }
  unfold past_text. assert (∀ c c', same_byte c c' → seen_at (undo_map s') v c' = seen_at (undo_map s) v c) as Hseen.
  { intros c c' (Et & _ & _ & Ed). unfold seen_at, was_at. rewrite <- Et, <- Ed, Hodd.
    assert (∀ l, forallb (λ d, negb (observed v d) || odd_count_at (undo_map s') v d) l = forallb (λ d, negb (observed v d) || odd_count_at (undo_map s) v d) l) as ->; [|done].
    induction l as [|d l IH]; [done|]. cbn. by rewrite Hodd, IH. }
  clear -Hc Hseen. induction Hc as [|c c' l l' Hcc _ IH]; [done|]. rewrite !bytes_by_cons, IH, (Hseen c c' Hcc). by destruct Hcc as (_ & _ & -> & _).
Qed.

Lemma op_past op : observed v (op_timestamp op) = false → observed (version s) (op_timestamp op) = false → op_cells TREE_BASE s s' op → past_text s' v = past_text s v.
Proof.
  destruct op as [e|u]; cbn; intros Hts Hnew.
  - intros [Hm Hc]. by eapply edit_past.
  - intros (E & Hc & _). by eapply undo_past.
Qed.
End op.

(** ** Many operations *)

Section steps.
Context (TREE_BASE : nat) (HB : 1 ≤ TREE_BASE) (max : N) (Hmax : (4 ≤ max ≤ u32_max)%N) (base : option Lamport).

(** The version is no later than the buffer's. *)
Definition passed_by (v : Global) (b : Buffer) : Prop := ∀ t, observed v t = true → observed (buffer_version b) t = true.

Lemma passed_unobserved v b t : passed_by v b → observed (buffer_version b) t = false → observed v t = false.
Proof. intros H Ht. apply not_true_iff_false. intros E. apply H in E. congruence. Qed.

Lemma toggled_past v b b' entry : toggled_entry TREE_BASE base b b' entry → heights_ok (snapshot b) = true → passed_by v b →
  past_text (snapshot b') v = past_text (snapshot b) v ∧ passed_by v b'.
Proof.
  intros (h & u & Hok & [_ _ [Hts _] [_ Hv] Hc _ _]) Hh Hp. pose proof (bi_state _ _ _ (ro_inv _ _ _ Hok)) as Hs.
  destruct (ro_clock _ _ _ Hok) as (_ & Hpos & Hlt). assert (observed (buffer_version b) (UndoMap.timestamp u) = false) as Hnew.
  { rewrite Hts. by apply (not_observed_ahead TREE_BASE HB max Hmax). }
  split; [|intros t Ht; rewrite Hv; apply observe_mono; by apply Hp].
  apply (op_past TREE_BASE HB base (snapshot (with_history b h)) _ v Hs (proj2 (proj2 (heights_shallow _ _ _ Hs Hh))) (OpUndo u)); [by eapply passed_unobserved|done|done].
Qed.

Lemma step_past v b b' : replica_step TREE_BASE max base b b' → replica_ok TREE_BASE base b → passed_by v b →
  past_text (snapshot b') v = past_text (snapshot b) v ∧ passed_by v b'.
Proof.
  intros [b1 edits now1 now2 op b2 Hg E|b1 op b2 Hg E|b1 r b2 Hg E|b1 r b2 Hg E] Hok Hp; pose proof (bi_state _ _ _ (ro_inv _ _ _ Hok)) as Hs.
  - destruct (edit_keeps TREE_BASE HB max Hmax base b1 edits now1 now2 Hok Hg) as (e & b3 & E' & _ & He). simplify_eq.
    destruct He as [_ _ _ _ [_ Hv] [Hnew _] _ Hc]. split; [|intros t Ht; rewrite Hv; apply observe_mono; by apply Hp].
    apply (op_past TREE_BASE HB base _ _ v Hs (proj2 (proj2 (heights_shallow _ _ _ Hs (eg_heights _ _ Hg)))) (OpEdit e)); [by eapply passed_unobserved|done|done].
  - destruct (observed (buffer_version b1) (op_timestamp op)) eqn:Ho.
    + rewrite (apply_op_again TREE_BASE max b1 op Ho) in E. by injection E as <-.
    + destruct (apply_new_keeps TREE_BASE HB max Hmax base b1 op Hok Hg Ho) as (b3 & E' & _ & Hoa). simplify_eq.
      destruct Hoa as [_ Hv Hc _ _ _]. split; [|intros t Ht; rewrite Hv; apply observe_mono; by apply Hp].
      apply (op_past TREE_BASE HB base _ _ v Hs (proj2 (proj2 (heights_shallow _ _ _ Hs (proj1 (ag_heights _ _ _ _ Hg))))) op); [by eapply passed_unobserved|done|done].
  - destruct (History.stack_cases (History.undo_stack (history b1))) as [Hu|(u & top & Hu)].
    + unfold undo, History.pop_undo, History.assert_depth_0 in E. rewrite (tg_closed _ _ _ Hg), Hu in E. cbn in E. by injection E as <- <-.
    + destruct (undo_entry TREE_BASE HB max Hmax base b1 u top Hok Hg Hu) as (op & b3 & E' & _ & _ & Ht). simplify_eq. by eapply toggled_past, Hp; [|apply Hg].
  - destruct (History.stack_cases (History.redo_stack (history b1))) as [Hu|(u & top & Hu)].
    + unfold redo, History.pop_redo, History.assert_depth_0 in E. rewrite (tg_closed _ _ _ Hg), Hu in E. cbn in E. by injection E as <- <-.
    + destruct (redo_entry TREE_BASE HB max Hmax base b1 u top Hok Hg Hu) as (op & b3 & E' & _ & Ht). simplify_eq. by eapply toggled_past, Hp; [|apply Hg].
Qed.

Lemma present_text s : state_ok TREE_BASE base s → past_text s (version s) = visible_text s.
Proof.
  intros Hs. destruct (buffer_texts _ _ _ (so_buffer _ _ _ Hs)) as [<- _]. unfold past_text. apply bytes_by_ext, Forall_forall. intros c Hc.
  pose proof (so_cells _ _ _ Hs) as Hok. rewrite Forall_forall in Hok. unfold seen_at. rewrite (co_observed _ _ _ _ _ (Hok c Hc)). cbn [andb].
  by eapply was_now.
Qed.

Lemma steps_past b b' : rtc (replica_step TREE_BASE max base) b b' → replica_ok TREE_BASE base b →
  replica_ok TREE_BASE base b' ∧ past_text (snapshot b') (buffer_version b) = visible_text (snapshot b).
Proof.
  intros Hsteps Hok. rewrite <- (present_text _ (bi_state _ _ _ (ro_inv _ _ _ Hok))). change (version (snapshot b)) with (buffer_version b).
  assert (passed_by (buffer_version b) b) as Hp by by intros t. revert Hok Hp. generalize (buffer_version b). intros v.
  induction Hsteps as [b|b b1 b' Hstep _ IH]; intros Hok Hp; [by split|].
  destruct (step_past v b b1 Hstep Hok Hp) as [Heq Hp1].
  destruct (IH (step_keeps TREE_BASE HB max Hmax base b b1 Hstep Hok) Hp1) as [Hok' Heq']. split; [done|congruence].
Qed.
End steps.

(** ** Edits since, at one state *)

Section since.
Context (TREE_BASE : nat) (base : option Lamport) (s : BufferSnapshot) (Hs : state_ok TREE_BASE base s) (v : Global).
Context (Hw : walkable TREE_BASE (undo_map s)) {D : Type} (td : TextMeasure D) (fits : Text → Prop) `{!MeasureOk td fits} (debug : bool) (remote_id : N).
Context (HfX : fits (past_text s v)) (HfV : fits (visible_text s)).

Lemma range_starts_min : range_starts s Locator.min 0%N = Some (0, 0).
Proof.
  unfold range_starts, find_fragment. destruct (fragments s) as [|f l] eqn:Hf; [done|]. cbn [slice_from].
  unfold past_id_text at 1. cbn [add_id_text fst].
  rewrite (proj1 (fragment_inside TREE_BASE base s Hs f ltac:(rewrite Hf; by left))). cbn [item head upcoming start snd].
  rewrite (first_fragment TREE_BASE base s Hs f l Hf). by destruct (visible f).
Qed.

Definition has_some {A} (l : list A) : bool := match l with [] => false | _ => true end.

Lemma edits_since_ok : v ≠ version s → ∃ p, describes 0 0 p (past_text s v) (visible_text s) ∧ normalized p ∧
  edits_since td debug remote_id s v = Some (place td (past_text s v) (visible_text s) <$> p) ∧ has_edits_since s v = Some (has_some p).
Proof.
  intros Hne. unfold edits_since, edits_since_in_range, anchored_edits_since_in_range, has_edits_since. rewrite !bool_decide_false by done.
  unfold min_max_range_for_buffer. cbn [fst snd a_offset min_for_buffer max_for_buffer].
  change (fragment_id_for_anchor debug s (min_for_buffer remote_id)) with (Some Locator.min).
  change (fragment_id_for_anchor debug s (max_for_buffer remote_id)) with (Some Locator.max). cbn [mbind option_bind]. rewrite range_starts_min. cbn [mbind option_bind].
  destruct (filter_cursor_ok TREE_BASE base s Hs v) as (k & r & Hk & Hp).
  destruct (edits_all_ok TREE_BASE base s Hs v Hw td fits remote_id HfX HfV (S (length (fragments s)))
    (mkEditsState (mkRopeCursor (visible_text s) 0) (mkRopeCursor (deleted_text s) 0) (filter_cursor (may_differ v) (fragments s)) (tm_zero td) (tm_zero td))
    [] k r []) as (l & p & -> & Hl & Hd & Hn & Hiff).
  - done.
  - done.
  - split; cbn; [done|by exists 0|symmetry; apply (measure_nil (td := td))..|]. split. split; [constructor|]. split; [by split|done].
  - pose proof (proj1 Hp) as Hf. rewrite Hf, length_app. lia.
  - exists p. split; [done|]. split; [done|]. cbn [mbind option_bind]. split; [by rewrite Hl|].
    rewrite (has_edits_ok TREE_BASE base s Hs v Hw). f_equal. pose proof (proj1 Hp) as Hf. rewrite Hf, existsb_app, (quiet_differs s v k Hk). cbn [orb].
    destruct p; [by apply Hiff|]. cbn. apply not_false_iff_true. intros E. by apply Hiff in E.
Qed.
End since.

(** ** Offsets *)

Definition to_usize (e : Edit) : EditOf nat := mkEditOf (rstart (old e), rend (old e)) (rstart (Patch.new e), rend (Patch.new e)).

Definition outside (n : nat) (e : Edit) : Prop := n < rstart (Patch.new e) ∨ rend (Patch.new e) ≤ n.

(** Offset [n] of the text after [p] corresponds to [m] of the text before:
    outside of the edits the same byte follows, inside of one it stays inside. *)
Record moved (p : Patch) (lo ln : nat) (a b : Text) (n m : nat) : Prop := {
  mv_same : Forall (outside n) p → b !! (n - ln) = a !! (m - lo);
  mv_inside e : e ∈ p → rstart (Patch.new e) ≤ n < rend (Patch.new e) → rstart (old e) ≤ m ≤ rend (old e);
  mv_low : lo ≤ m;
}.

Lemma edits_inside o n p (a b : Text) : describes o n p a b →
  Forall (λ e, o ≤ rstart (old e) ≤ rend (old e) ∧ rend (old e) ≤ o + length a ∧ n ≤ rstart (Patch.new e) ≤ rend (Patch.new e) ∧ rend (Patch.new e) ≤ n + length b) p.
Proof.
  induction 1 as [|o n k x y a b p _ IH]; [constructor|]. constructor.
  - cbn. rewrite !length_app. lia.
  - eapply Forall_impl; [exact IH|]. intros e He. rewrite !length_app. cbn beta in He. lia.
Qed.

Lemma place_usize p (X Y : Text) : describes 0 0 p X Y → place usize_measure X Y <$> p = to_usize <$> p.
Proof.
  intros H%edits_inside. apply list_fmap_ext. intros i e He. rewrite Forall_lookup in H. specialize (H i e He). cbn beta in H.
  unfold place, to_usize. cbn. by rewrite !firstn_length_le by lia.
Qed.

Lemma offset_back_ok p lo ln (a b : Text) n : describes lo ln p a b → ln ≤ n →
  let '(m, (lo', ln', edits)) := offset_to_version lo ln n (to_usize <$> p) in
  moved p lo ln a b n m ∧ ∃ p1 p' a1 b1 a' b', p = p1 ++ p' ∧ edits = to_usize <$> p' ∧ Forall (λ e, rend (Patch.new e) ≤ n) p1 ∧
    a = a1 ++ a' ∧ b = b1 ++ b' ∧ lo' = lo + length a1 ∧ ln' = ln + length b1 ∧ ln' ≤ n ∧ describes lo' ln' p' a' b'.
Proof.
  induction 1 as [lo ln a|lo ln k x y a b p Hd IH]; intros Hle.
  { cbn. split; [|exists [], [], [], [], a, a; split_and!; try done; [lia..|constructor]].
    split; [intros _; f_equal; lia|by intros e ?%elem_of_nil|lia]. }
  rewrite fmap_cons. cbn [offset_to_version to_usize span_edit old Patch.new rstart rend e_old e_new fst snd].
  pose proof (edits_inside _ _ _ _ _ Hd) as Hb. rewrite Forall_forall in Hb.
  assert (∃ p1 p' a1 b1 a' b', span_edit (lo + length k) (ln + length k) (length x) (length y) :: p = p1 ++ p' ∧
    to_usize (span_edit (lo + length k) (ln + length k) (length x) (length y)) :: (to_usize <$> p) = to_usize <$> p' ∧ Forall (λ e, rend (Patch.new e) ≤ n) p1 ∧
    k ++ x ++ a = a1 ++ a' ∧ k ++ y ++ b = b1 ++ b' ∧ lo = lo + length a1 ∧ ln = ln + length b1 ∧ ln ≤ n ∧ describes lo ln p' a' b') as Hstay.
  { eexists [], _, [], [], _, _. split_and!; try done; [lia..|]. by constructor. }
  destruct (Nat.ltb_spec n (ln + length k)) as [Hlt|Hge]; [|destruct (Nat.leb_spec (ln + length k + length y) n) as [Hpast|Hin]].
  - split; [|exact Hstay]. split; [|intros e [->|He]%elem_of_cons; cbn; [lia|intros Hi; specialize (Hb e He); cbn beta in Hb; lia]|lia].
    intros _. rewrite !lookup_app_l by lia. f_equal. lia.
  - specialize (IH Hpast). destruct (offset_to_version _ _ _ _) as [m [[lo' ln'] edits]].
    destruct IH as ([Hm Hi Hlo] & p1 & p' & a1 & b1 & a' & b' & -> & -> & Hp1 & -> & -> & -> & -> & Hn & Hd').
    split; [split|].
    + intros [_ Ho]%Forall_cons. specialize (Hm Ho). rewrite !(lookup_app_r k), (lookup_app_r x), (lookup_app_r y) by lia.
      replace (n - ln - length k - length y) with (n - (ln + length k + length y)) by lia. replace (m - lo - length k - length x) with (m - (lo + length k + length x)) by lia. done.
    + intros e [->|He]%elem_of_cons; [cbn; lia|by apply Hi].
    + lia.
    + exists (span_edit (lo + length k) (ln + length k) (length x) (length y) :: p1), p', (k ++ x ++ a1), (k ++ y ++ b1), a', b'. rewrite !length_app.
      rewrite !Nat.add_assoc, <- !app_assoc. split_and!; try done. constructor; [cbn; lia|done].
  - split; [|exact Hstay]. split; [|intros e [->|He]%elem_of_cons; cbn; [lia|intros Hi; specialize (Hb e He); cbn beta in Hb; lia]|lia].
    intros [[Ho|Ho] _]%Forall_cons; cbn in Ho; lia.
Qed.

Lemma moved_later p1 p' lo ln (a1 b1 a' b' : Text) n m : Forall (λ e, rend (Patch.new e) ≤ n) p1 → ln + length b1 ≤ n →
  moved p' (lo + length a1) (ln + length b1) a' b' n m → moved (p1 ++ p') lo ln (a1 ++ a') (b1 ++ b') n m.
Proof.
  intros Hp1 Hn [Hm Hi Hlo]. split; [|intros e [He|He]%elem_of_app; [|by apply Hi]|lia].
  - intros [_ Ho]%Forall_app. specialize (Hm Ho). rewrite !lookup_app_r by lia. by replace (n - ln - length b1) with (n - (ln + length b1)) by lia;
      replace (m - lo - length a1) with (m - (lo + length a1)) by lia.
  - rewrite Forall_forall in Hp1. specialize (Hp1 e He). cbn beta in Hp1. lia.
Qed.

Lemma offsets_loop_ok p lo ln (a b : Text) offsets : describes lo ln p a b → Sorted le offsets → Forall (λ n, ln ≤ n) offsets →
  Forall2 (moved p lo ln a b) offsets (offsets_loop lo ln (to_usize <$> p) offsets).
Proof.
  revert p lo ln a b. induction offsets as [|n offsets IH]; intros p lo ln a b Hd Hs Hge; cbn [offsets_loop]; [constructor|].
  apply Forall_cons in Hge as [Hn _]. apply Sorted_StronglySorted in Hs; [|intros x y z; apply Nat.le_trans]. apply StronglySorted_inv in Hs as [Hs Hle].
  pose proof (offset_back_ok p lo ln a b n Hd Hn) as H. destruct (offset_to_version _ _ _ _) as [m [[lo' ln'] edits]].
  destruct H as (Hm & p1 & p' & a1 & b1 & a' & b' & -> & -> & Hp1 & -> & -> & -> & -> & Hn' & Hd'). constructor; [done|].
  specialize (IH p' _ _ a' b' Hd' (StronglySorted_Sorted Hs)).
  assert (Forall (λ k, ln + length b1 ≤ k) offsets) as Hge by (eapply Forall_impl; [exact Hle|]; cbn; lia). specialize (IH Hge).
  rewrite Forall_forall in Hle. apply Forall2_same_length_lookup. split; [by eapply Forall2_length|]. intros i k m' Hk Hm'.
  rewrite Forall2_lookup in IH. specialize (IH i). rewrite Hk, Hm' in IH. inversion IH as [? ? Hmv|]; subst.
  apply list_elem_of_lookup_2 in Hk. apply Hle in Hk. apply moved_later; [|lia|done]. eapply Forall_impl; [exact Hp1|]. cbn. lia.
Qed.

(** ** Properties *)

(** C15: A buffer can rebuild every text it has shown: after any sequence of
    local edits, remote operations, undos and redos, [rope_for_version] at the
    version the buffer had is the text it had. *)
Theorem rope_for_version_recovers TREE_BASE max base b b' :
  1 ≤ TREE_BASE → (4 ≤ max ≤ u32_max)%N → replica_ok TREE_BASE base b → rtc (replica_step TREE_BASE max base) b b' → heights_ok (snapshot b') = true →
  rope_for_version (snapshot b') (buffer_version b) = Some (visible_text (snapshot b)).
Proof.
  intros HB Hmax Hok Hsteps Hh. destruct (steps_past TREE_BASE HB max Hmax base b b' Hsteps Hok) as [Hok' <-].
  pose proof (bi_state _ _ _ (ro_inv _ _ _ Hok')) as Hs. apply (rope_for_version_ok TREE_BASE base _ Hs). by apply (heights_shallow _ _ _ Hs).
Qed.

(** C14: The edits since an earlier version are exact: in bytes, UTF-16 units,
    points and pairs of these ([MeasureOk]; rows and columns of texts below
    4 GB), [edits_since] yields without panicking the positions of a patch
    without empty or touching edits that turns the text the buffer had at that
    version into its present text, and [has_edits_since] says whether there are
    any. *)
Theorem edits_since_exact TREE_BASE max base b b' {D} (td : TextMeasure D) (fits : Text → Prop) debug remote_id :
  1 ≤ TREE_BASE → (4 ≤ max ≤ u32_max)%N → replica_ok TREE_BASE base b → rtc (replica_step TREE_BASE max base) b b' → heights_ok (snapshot b') = true →
  MeasureOk td fits → fits (visible_text (snapshot b)) → fits (visible_text (snapshot b')) →
  ∃ p, describes 0 0 p (visible_text (snapshot b)) (visible_text (snapshot b')) ∧ normalized p ∧
    edits_since td debug remote_id (snapshot b') (buffer_version b) =
      Some (place td (visible_text (snapshot b)) (visible_text (snapshot b')) <$> p) ∧
    has_edits_since (snapshot b') (buffer_version b) = Some (has_some p).
Proof.
  intros HB Hmax Hok Hsteps Hh Htd Hf Hf'. destruct (steps_past TREE_BASE HB max Hmax base b b' Hsteps Hok) as [Hok' Hpast]. rewrite <- Hpast in Hf |- *.
  pose proof (bi_state _ _ _ (ro_inv _ _ _ Hok')) as Hs. pose proof (proj2 (proj2 (heights_shallow _ _ _ Hs Hh))) as Hw.
  destruct (decide (buffer_version b = version (snapshot b'))) as [->|Hne].
  - rewrite (present_text TREE_BASE base _ Hs). exists []. split; [constructor|]. split; [by split|].
    unfold edits_since, edits_since_in_range, anchored_edits_since_in_range, has_edits_since. by rewrite !bool_decide_true.
  - by apply (edits_since_ok TREE_BASE base _ Hs _ Hw td fits).
Qed.

(** C16: Offsets are carried back to an earlier version: ascending offsets of
    the present text become, through the same edits, offsets of the text the
    buffer had; outside of the edits the same byte follows the offset in both
    texts, and an offset inside an inserted stretch stays inside what it
    replaced. *)
Theorem offsets_to_version_maps TREE_BASE max base b b' debug remote_id offsets :
  1 ≤ TREE_BASE → (4 ≤ max ≤ u32_max)%N → replica_ok TREE_BASE base b → rtc (replica_step TREE_BASE max base) b b' → heights_ok (snapshot b') = true → Sorted le offsets →
  ∃ p r, describes 0 0 p (visible_text (snapshot b)) (visible_text (snapshot b')) ∧ normalized p ∧
    edits_since usize_measure debug remote_id (snapshot b') (buffer_version b) = Some (to_usize <$> p) ∧
    offsets_to_version debug remote_id (snapshot b') offsets (buffer_version b) = Some r ∧
    Forall2 (moved p 0 0 (visible_text (snapshot b)) (visible_text (snapshot b'))) offsets r.
Proof.
  intros HB Hmax Hok Hsteps Hh Hsort. destruct (steps_past TREE_BASE HB max Hmax base b b' Hsteps Hok) as [Hok' <-].
  pose proof (bi_state _ _ _ (ro_inv _ _ _ Hok')) as Hs. pose proof (proj2 (proj2 (heights_shallow _ _ _ Hs Hh))) as Hw. set (v := buffer_version b).
  assert (∃ p, describes 0 0 p (past_text (snapshot b') v) (visible_text (snapshot b')) ∧ normalized p ∧
    edits_since usize_measure debug remote_id (snapshot b') v = Some (to_usize <$> p)) as (p & Hd & Hn & E).
  { destruct (decide (v = version (snapshot b'))) as [->|Hne].
    - rewrite (present_text TREE_BASE base _ Hs). exists []. split; [constructor|]. split; [by split|].
      unfold edits_since, edits_since_in_range, anchored_edits_since_in_range. by rewrite bool_decide_true.
    - destruct (edits_since_ok TREE_BASE base _ Hs _ Hw usize_measure (λ _, True) debug remote_id I I Hne) as (p & Hd & Hn & E & _).
      exists p. split; [done|]. split; [done|]. by rewrite <- (place_usize p _ _ Hd). }
  exists p. unfold offsets_to_version. rewrite E. cbn [mbind option_bind]. eexists. do 4 (split; [done|]).
  apply offsets_loop_ok; [done|done|]. apply Forall_forall. lia.
Qed.

Module VersionsExamples.
Import ReplicaExamples Byte.

(** Since the base text, an "X" was inserted before the "b" and the "b" deleted. *)
Example edits_b1 : edits_since usize_measure true 0 (snapshot b1) (buffer_version b0) = Some [mkEditOf (2, 3) (2, 3)] ∧
  rope_for_version (snapshot b1) (buffer_version b0) = Some [x61; LF; x62] ∧ edits_since usize_measure true 0 (snapshot b2) (buffer_version b0) = Some [].
Proof. vm_compute. done. Qed.

Example rope_for_version_recovers_witness : rope_for_version (snapshot b2) (buffer_version b0) = Some (visible_text (snapshot b0)).
Proof.
  apply (rope_for_version_recovers 6 16 (base_of (normalize text)) b0 b2); [lia|apply small_max|apply b0_ok|apply b2_reachable|vm_compute; reflexivity].
Defined.

(** The same edit in points. *)
Example edits_b1_points : edits_since point_measure true 0 (snapshot b1) (buffer_version b0) = Some [mkEditOf (Summary.mkPoint 1 0, Summary.mkPoint 1 1) (Summary.mkPoint 1 0, Summary.mkPoint 1 1)].
Proof. vm_compute. done. Qed.

Lemma texts_fit : fits16 (visible_text (snapshot b0)) ∧ fits16 (visible_text (snapshot b1)) ∧ fits16 (visible_text (snapshot b2)).
Proof. repeat split; apply N.leb_le; vm_compute; reflexivity. Defined.

(** In the dimension of the language server's edits. *)
Example edits_since_exact_witness :
  ∃ p, describes 0 0 p (visible_text (snapshot b0)) (visible_text (snapshot b2)) ∧ normalized p ∧
    edits_since (dimensions_measure point_utf16_measure usize_measure) true 0 (snapshot b2) (buffer_version b0) =
      Some (place (dimensions_measure point_utf16_measure usize_measure) (visible_text (snapshot b0)) (visible_text (snapshot b2)) <$> p) ∧
    has_edits_since (snapshot b2) (buffer_version b0) = Some (has_some p).
Proof.
  apply (edits_since_exact 6 16 (base_of (normalize text)) b0 b2 (dimensions_measure point_utf16_measure usize_measure) (λ t, fits16 t ∧ True) true 0);
    [lia|apply small_max|apply b0_ok|apply b2_reachable|vm_compute; reflexivity|apply (dimensions_measure_ok _ _ fits16 (λ _, True))|split; [apply texts_fit|done]..].
Defined.

Example offsets_to_version_maps_witness :
  ∃ p r, describes 0 0 p (visible_text (snapshot b0)) (visible_text (snapshot b2)) ∧ normalized p ∧
    edits_since usize_measure true 0 (snapshot b2) (buffer_version b0) = Some (to_usize <$> p) ∧
    offsets_to_version true 0 (snapshot b2) [1; 2] (buffer_version b0) = Some r ∧
    Forall2 (moved p 0 0 (visible_text (snapshot b0)) (visible_text (snapshot b2))) [1; 2] r.
Proof.
  apply (offsets_to_version_maps 6 16 (base_of (normalize text)) b0 b2 true 0 [1; 2]);
    [lia|apply small_max|apply b0_ok|apply b2_reachable|vm_compute; reflexivity|repeat constructor].
Defined.
End VersionsExamples.
