(* ===== verification/Selection.v ===== *)
(** * Selections ([crates/text/src/selection.rs])

    A selection runs from its tail, where it was begun, to its head, where it
    is extended; [start] and [end] are the two in order. *)

From S2P Require Import Prelude Clock Text Float SumTree Cursor UndoMap Patch Fragment Buffer Anchor Measures Versions.
Local Open Scope ord_scope.

Abbreviation f32 := f64.
Inductive SelectionGoal :=
| GoalNone
| HorizontalPosition (x : f64)
| HorizontalRange (start end_ : f64)
| WrappedHorizontalPosition (row : N) (x : f32).

Record Selection (T : Type) := mkSelection { sel_id : nat; sel_start : T; sel_end : T; reversed : bool; goal : SelectionGoal }.
#[global] Arguments mkSelection {T}.
#[global] Arguments sel_id {T}.
#[global] Arguments sel_start {T}.
#[global] Arguments sel_end {T}.
#[global] Arguments reversed {T}.
#[global] Arguments goal {T}.

Section plain.
Context {T : Type}.
Implicit Types (s : Selection T) (p : T).

Definition sel_head s : T := if reversed s then sel_start s else sel_end s.
Definition sel_tail s : T := if reversed s then sel_end s else sel_start s.
Definition sel_map {S} (f : T → S) s : Selection S := mkSelection (sel_id s) (f (sel_start s)) (f (sel_end s)) (reversed s) (goal s).
Definition collapse_to s p (new_goal : SelectionGoal) : Selection T := mkSelection (sel_id s) p p false new_goal.
Definition swap_head_tail s : Selection T :=
  if reversed s then mkSelection (sel_id s) (sel_start s) (sel_end s) false (goal s)
  else mkSelection (sel_id s) (sel_end s) (sel_start s) (reversed s) (goal s).
Definition sel_range s : T * T := (sel_start s, sel_end s).
End plain.

Section ordered.
Context `{Ord T}.
Implicit Types (s : Selection T) (head tail : T).

Definition sel_is_empty s : bool := match cmp (sel_start s) (sel_end s) with Eq => true | _ => false end.

Definition set_head s head (new_goal : SelectionGoal) : Selection T :=
  let s :=
    match cmp head (sel_tail s) with
    | Lt =>
        let s := if negb (reversed s) then mkSelection (sel_id s) (sel_start s) (sel_start s) true (goal s) else s in
        mkSelection (sel_id s) head (sel_end s) (reversed s) (goal s)
    | _ =>
        let s := if reversed s then mkSelection (sel_id s) (sel_end s) (sel_end s) false (goal s) else s in
        mkSelection (sel_id s) (sel_start s) head (reversed s) (goal s)
    end in
  mkSelection (sel_id s) (sel_start s) (sel_end s) (reversed s) new_goal.

Definition set_tail s tail (new_goal : SelectionGoal) : Selection T :=
  let s :=
    match cmp tail (sel_head s) with
    | Gt =>
        let s := if negb (reversed s) then mkSelection (sel_id s) (sel_end s) (sel_end s) true (goal s) else s in
        mkSelection (sel_id s) (sel_start s) tail (reversed s) (goal s)
    | _ =>
        let s := if reversed s then mkSelection (sel_id s) (sel_start s) (sel_start s) false (goal s) else s in
        mkSelection (sel_id s) tail (sel_end s) (reversed s) (goal s)
    end in
  mkSelection (sel_id s) (sel_start s) (sel_end s) (reversed s) new_goal.

Definition set_head_tail s head tail (new_goal : SelectionGoal) : Selection T :=
  if ltb head tail then mkSelection (sel_id s) head tail true new_goal else mkSelection (sel_id s) tail head false new_goal.

Definition sel_equals s (r : T * T) : bool :=
  match cmp (sel_start s) r.1, cmp (sel_end s) r.2 with Eq, Eq => true | _, _ => false end.
End ordered.

(** [Selection<usize>::len] and [resolve]. *)
Definition sel_len (s : Selection nat) : option nat := usub (sel_end s) (sel_start s).
Definition summary_for_anchor {D} (td : TextMeasure D) (debug : bool) (remote_id : N) (s : BufferSnapshot) (a : Anchor) : option D :=
  o ← offset_for_anchor debug remote_id s a; Some (tm_of td (take (usize_to_offset s o) (visible_text s))).
Definition resolve {D} (td : TextMeasure D) (debug : bool) (remote_id : N) (s : BufferSnapshot) (sel : Selection Anchor) : option (Selection D) :=
  start ← summary_for_anchor td debug remote_id s (sel_start sel);
  end_ ← summary_for_anchor td debug remote_id s (sel_end sel);
  Some (mkSelection (sel_id sel) start end_ (reversed sel) (goal sel)).

(** ** Properties *)

Section ends.
Context `{HO : Ord T}.
Implicit Types (s : Selection T) (head tail : T).

(** What every selection should satisfy: it starts before it ends. *)
Definition ordered s : Prop := sel_start s ≼ sel_end s.

(** Where the ends are. *)
Definition spans s head tail (g : SelectionGoal) : Prop := ordered s ∧ sel_head s = head ∧ sel_tail s = tail ∧ goal s = g.

Lemma not_lt_le x y : cmp x y = Eq ∨ cmp x y = Gt → y ≼ x.
Proof. intros H. apply cmp_not_lt_le. by destruct H as [-> | ->]. Qed.

Lemma set_head_ok s head g : spans (set_head s head g) head (sel_tail s) g.
Proof.
  unfold spans, ordered, set_head. destruct (cmp head (sel_tail s)) eqn:E, s as [i a b [|] g0]; cbn in *;
    (split; [|done]); solve [apply not_lt_le; auto|by apply cmp_lt_le].
Qed.
Lemma set_tail_ok s tail g : spans (set_tail s tail g) (sel_head s) tail g.
Proof.
  unfold spans, ordered, set_tail. destruct (cmp tail (sel_head s)) eqn:E, s as [i a b [|] g0]; cbn in *;
    (split; [|done]); solve [by rewrite E|by apply cmp_gt_lt in E; apply cmp_lt_le].
Qed.

(** Moving an end of a selection puts that end where it is asked, leaves the
    other where it was, sets the goal and keeps the selection ordered, whatever
    side the end moves to; setting both ends or collapsing does so too.
    [swap_head_tail] exchanges the ends, but a selection that was not reversed
    stays so and gets its start after its end. *)
Theorem selection_ends s head tail g : ordered s →
  spans (set_head s head g) head (sel_tail s) g ∧
  spans (set_tail s tail g) (sel_head s) tail g ∧
  spans (set_head_tail s head tail g) head tail g ∧
  spans (collapse_to s head g) head head g ∧
  (sel_head (swap_head_tail s) = sel_tail s ∧ sel_tail (swap_head_tail s) = sel_head s ∧
   (ordered (swap_head_tail s) ↔ reversed s = true ∨ sel_start s = sel_end s)).
Proof.
  intros Ho. split; [apply set_head_ok|]. split; [apply set_tail_ok|]. split; [|split; [|split; [|split]]].
  - unfold spans, ordered, set_head_tail. destruct (ltb head tail) eqn:E; cbn; (split; [|done]).
    + apply ltb_lt in E. by apply cmp_lt_le.
    + by apply ltb_false in E.
  - unfold spans, ordered. cbn. split; [apply cmp_le_refl|done].
  - by destruct s as [i a b [|] g0].
  - by destruct s as [i a b [|] g0].
  - unfold ordered in *. destruct s as [i a b [|] g0]; cbn in *; [by split; [left|]|]. split.
    + intros H. right. by apply cmp_le_antisym.
    + intros [?| ->]; [done|apply cmp_le_refl].
Qed.
End ends.

(** A selection of "ab" in offsets, extended to the left of its tail. *)
Definition forward : Selection nat := mkSelection 0 1 3 false GoalNone.
Definition backward : Selection nat := set_head forward 0 GoalNone.

Example extend_left : backward = mkSelection 0 0 1 true GoalNone ∧ swap_head_tail forward = mkSelection 0 3 1 false GoalNone.
Proof. done. Qed.

Example selection_ends_witness :
  spans (set_head forward 0 GoalNone) 0 (sel_tail forward) GoalNone ∧
  spans (set_tail forward 2 GoalNone) (sel_head forward) 2 GoalNone ∧
  spans (set_head_tail forward 0 2 GoalNone) 0 2 GoalNone ∧
  spans (collapse_to forward 0 GoalNone) 0 0 GoalNone ∧
  (sel_head (swap_head_tail forward) = sel_tail forward ∧ sel_tail (swap_head_tail forward) = sel_head forward ∧
   (ordered (swap_head_tail forward) ↔ reversed forward = true ∨ sel_start forward = sel_end forward)).
Proof.
  assert (ordered forward) as H by done.
  exact (selection_ends forward 0 2 GoalNone H).
Defined.
