(* ===== verification/CursorBack.v ===== *)
(** * Moving a cursor backward ([crates/sum_tree/src/cursor.rs])

    [Cursor::search_backward] and [prev], the neighbours of the current item,
    and what a cursor is under any mix of moves: a place in the sequence of
    items.  A cursor that has left the sequence at its front is a place of its
    own, from which seeking forward finds nothing. *)

From S2P Require Import Prelude SumTree Cursor Search.

Section back.
Context `{HS : Summary Sm} `{HI : Item T Sm} `{HD : !Dimension D Sm}.
Context (TREE_BASE : nat).
Implicit Types t u : Node T Sm.
Abbreviation StackEntry := (@StackEntry Sm T D).
Abbreviation Cursor := (@Cursor Sm T D).

(** ** [search_backward] and [prev] *)

Definition parent_position (rest : list StackEntry) : D :=
  match rest with e :: _ => entry_position e | [] => dzero end.

Fixpoint search_backward_loop (fuel : nat) (filter_node : Sm → bool) (descending : bool)
    (pos : D) (st : list StackEntry) : option (D * list StackEntry) :=
  match fuel with
  | O => None
  | S fuel =>
    match st with
    | [] => Some (pos, [])
    | mkEntry t index _ :: rest =>
      let pos := parent_position rest in
      if negb descending && (index =? 0) then search_backward_loop fuel filter_node false pos rest
      else
        let index := if descending then index else index - 1 in
        let pos := foldl dadd pos (take index (node_child_summaries t)) in
        s ← node_child_summaries t !! index;
        let descending := filter_node s in
        let st := mkEntry t index pos :: rest in
        match t with
        | Internal _ _ _ child_trees =>
            if descending then
              child ← child_trees !! index;
              match length (node_child_summaries child) with
              | O => None
              | S last => st ← stack_push (mkEntry child last dzero) st; search_backward_loop fuel filter_node true pos st
              end
            else search_backward_loop fuel filter_node false pos st
        | Leaf _ _ _ => if descending then Some (pos, st) else search_backward_loop fuel filter_node false pos st
        end
    end
  end.

(** Each iteration steps over a child or an item, or leaves a node. *)
Fixpoint node_weight t : nat :=
  match t with Leaf _ xs _ => S (length xs) | Internal _ _ _ ts => S (sum_list (map (λ u, S (node_weight u)) ts)) end.
Definition backward_fuel (st : list StackEntry) : nat := S (sum_list (map (λ e, node_weight (entry_tree e)) st)).

Definition search_backward (filter_node : Sm → bool) (c : Cursor) : option Cursor :=
  let at_end := negb (did_seek c) || at_end c in
  '(st, pos, at_end) ←
    (if at_end then
       let at_end := is_empty (tree c) in
       if at_end then Some (stack c, dzero, at_end)
       else st ← stack_push (mkEntry (tree c) (length (node_child_summaries (tree c))) (dadd dzero (node_summary (tree c)))) (stack c); Some (st, dzero, at_end)
     else Some (stack c, position c, false));
  '(pos, st) ← search_backward_loop (backward_fuel st) filter_node false pos st;
  Some (mkCursor (tree c) st pos true at_end).
Definition prev (c : Cursor) : option Cursor := search_backward (λ _, true) c.

(** ** The neighbours of the current item *)

Fixpoint next_leaf (st : list StackEntry) : option (option (Node T Sm)) :=
  match st with
  | [] => Some None
  | mkEntry (Internal _ _ _ child_trees) index _ :: st =>
      if index <? length child_trees - 1 then
        child ← child_trees !! S index; l ← leftmost_leaf (S (node_height child)) child; Some (Some l)
      else next_leaf st
  | mkEntry (Leaf _ _ _) _ _ :: _ => None
  end.
Fixpoint prev_leaf (st : list StackEntry) : option (option (Node T Sm)) :=
  match st with
  | [] => Some None
  | mkEntry (Internal _ _ _ child_trees) index _ :: st =>
      if negb (index =? 0) then
        child ← child_trees !! (index - 1); l ← rightmost_leaf (S (node_height child)) child; Some (Some l)
      else prev_leaf st
  | mkEntry (Leaf _ _ _) _ _ :: _ => None
  end.

Definition next_item (c : Cursor) : option (option T) :=
  if did_seek c then
    match stack c with
    | mkEntry (Leaf _ xs _) index _ :: rest =>
        if index =? length xs - 1 then
          l ← next_leaf rest;
          match l with
          | Some l => xs ← node_items l; x ← head xs; Some (Some x)
          | None => Some None
          end
        else x ← xs !! S index; Some (Some x)
    | mkEntry (Internal _ _ _ _) _ _ :: _ => None
    | [] => if at_end c then Some None else Some (first_item (tree c))
    end
  else None.
Definition prev_item (c : Cursor) : option (option T) :=
  if did_seek c then
    match stack c with
    | mkEntry (Leaf _ xs _) index _ :: rest =>
        if index =? 0 then
          l ← prev_leaf rest;
          match l with
          | Some l => xs ← node_items l; x ← last xs; Some (Some x)
          | None => Some None
          end
        else x ← xs !! (index - 1); Some (Some x)
    | mkEntry (Internal _ _ _ _) _ _ :: _ => None
    | [] => if at_end c then Some (last_item (tree c)) else Some None
    end
  else None.
(** ** Paths

    [path root k t st pre]: [st] are the entries above the subtree [t] of
    height [k], and [pre] the items of the tree before [t]; the positions kept
    in the entries are those of their children. *)

Definition items_before (i : nat) t : list T :=
  match t with Leaf _ xs _ => take i xs | Internal _ _ _ ts => content (take i ts) end.

Inductive path (root : Node T Sm) : nat → Node T Sm → list StackEntry → list T → Prop :=
| path_root k : wf TREE_BASE k root → path root k root [] []
| path_child k ts i u st pre :
    path root (S k) (mk_internal (S k) ts) st pre → ts !! i = Some u →
    path root k u (mkEntry (mk_internal (S k) ts) i (dpos dzero (pre ++ content (take i ts))) :: st)
      (pre ++ content (take i ts)).

Lemma path_wf root k t st pre : path root k t st pre → wf TREE_BASE k t.
Proof.
  induction 1 as [|k ts i u st pre _ IH Hi]; [done|]. inversion IH as [|? ? _ _ Hall]; subst.
  by apply (Forall_lookup_1 _ _ _ _ Hall Hi).
Qed.

Lemma path_parent root k t st pre : path root k t st pre → parent_position st = dpos dzero pre.
Proof. by destruct 1. Qed.

Lemma path_height root k t st pre n : path root k t st pre → wf TREE_BASE n root → k + length st = n.
Proof.
  intros Hp Hn. induction Hp as [k Hk|k ts i u st pre Hp IH Hi]; cbn [length].
  - apply wf_height in Hk, Hn. lia.
  - lia.
Qed.

Lemma content_at (ts : list (Node T Sm)) i u : ts !! i = Some u → content (take (S i) ts) = content (take i ts) ++ items u.
Proof. intros Hi. by rewrite (take_S_r ts i u Hi), content_app, content_singleton. Qed.

Lemma path_items root k t st pre : path root k t st pre → ∃ rest, items root = pre ++ items t ++ rest.
Proof.
  induction 1 as [k Hk|k ts i u st pre Hp [rest IH] Hi]; [exists []; by rewrite app_nil_r|].
  exists (content (drop (S i) ts) ++ rest). rewrite IH. change (items (mk_internal (S k) ts)) with (content ts).
  rewrite <- (take_drop i ts) at 1. rewrite (drop_S_lookup ts i u Hi), content_app, content_cons, <- !app_assoc. done.
Qed.

Lemma path_up n root k t st pre : path root k t st pre → wf TREE_BASE n root →
  ∃ rest, up_ok TREE_BASE n k st rest ∧ items root = pre ++ items t ++ rest.
Proof.
  intros Hp Hn. induction Hp as [k Hk|k ts i u st pre Hp [rest [Hup IH]] Hi].
  - exists []. assert (k = n) as -> by (apply wf_height in Hk, Hn; lia). rewrite app_nil_r. split; [constructor|done].
  - exists (content (drop (S i) ts) ++ rest). split.
    + pose proof (path_wf _ _ _ _ _ Hp) as Hw. inversion Hw; subst. constructor; [by eapply lookup_lt_Some|done..].
    + rewrite IH. change (items (mk_internal (S k) ts)) with (content ts).
      rewrite <- (take_drop i ts) at 1. rewrite (drop_S_lookup ts i u Hi), content_app, content_cons, <- !app_assoc. done.
Qed.

(** A cursor that stands at an item of the tree, or at its end. *)
Definition seated (root : Node T Sm) (st : list StackEntry) (pre : list T) : Prop :=
  match st with
  | [] => pre = items root
  | mkEntry t i _ :: ups => ∃ xs p, t = mk_leaf xs ∧ i < length xs ∧ path root 0 t ups p ∧ pre = p ++ take i xs
  end.

Lemma seated_seeked n root st pre : seated root st pre → wf TREE_BASE n root →
  ∃ l, seeked TREE_BASE n st l ∧ items root = pre ++ l.
Proof.
  intros Hs Hn. destruct st as [|[t i q] ups]; [exists []; subst; by rewrite app_nil_r|].
  destruct Hs as (xs & p & -> & Hi & Hp & ->). destruct (path_up n _ _ _ _ _ Hp Hn) as (rest & Hup & Hi').
  exists (drop i xs ++ rest). split.
  - exists xs, rest. split_and!; try done. pose proof (path_wf _ _ _ _ _ Hp) as Hw. by inversion Hw.
  - rewrite Hi'. cbn [items mk_leaf]. by rewrite <- app_assoc, (app_assoc (take i xs)), take_drop.
Qed.

Lemma node_summaries k t : wf TREE_BASE k t →
  node_child_summaries t = match t with Leaf _ xs _ => summary <$> xs | Internal _ _ _ ts => node_summary <$> ts end.
Proof. by destruct 1. Qed.

Lemma dpos_children k d ts : Forall (wf TREE_BASE k) ts → foldl dadd d (node_summary <$> ts) = dpos d (content ts).
Proof.
  intros Hall. revert d. induction Hall as [|t ts Ht Hall IH]; intros d; [done|].
  cbn [fmap list_fmap foldl]. rewrite content_cons, dpos_app, <- IH. f_equal. rewrite (wf_summary TREE_BASE k t Ht).
  by apply dpos_sum, (wf_items_nonempty TREE_BASE k).
Qed.

(** The position of a child is that of its node and the summaries before it. *)
Lemma measured k t d i : wf TREE_BASE k t → foldl dadd d (take i (node_child_summaries t)) = dpos d (items_before i t).
Proof.
  intros Ht. destruct Ht as [xs|k ts _ _ Hall]; cbn [node_child_summaries mk_leaf mk_internal items_before].
  - by rewrite <- fmap_take.
  - rewrite <- fmap_take. apply (dpos_children k). by apply Forall_take.
Qed.

(** ** Searching backward *)

(** The list-level search: cut before the last accepted item. *)
Fixpoint last_accepted (filter_node : Sm → bool) (l : list T) : option (list T * list T) :=
  match l with
  | [] => None
  | x :: l => match last_accepted filter_node l with
              | Some (a, b) => Some (x :: a, b)
              | None => if filter_node (summary x) then Some ([], x :: l) else None
              end
  end.

Section filter.
Context (filter_node : Sm → bool) (Hf : filter_sound filter_node).
Abbreviation rejected := (λ x : T, filter_node (summary x) = false).

Lemma last_accepted_spec l : match last_accepted filter_node l with
  | Some (a, b) => l = a ++ b ∧ ∃ x k, b = x :: k ∧ filter_node (summary x) = true ∧ Forall rejected k
  | None => Forall rejected l
  end.
Proof using.
  induction l as [|x l IH]; [by constructor|]. cbn [last_accepted]. destruct (last_accepted filter_node l) as [[a b]|].
  - destruct IH as [-> IH]. done.
  - destruct (filter_node (summary x)) eqn:Hx; [|by constructor]. split; [done|]. by exists x, l.
Qed.
Lemma last_accepted_rejected l k : Forall rejected k →
  last_accepted filter_node (l ++ k) = '(a, b) ← last_accepted filter_node l; Some (a, b ++ k).
Proof using.
  intros Hk. induction l as [|x l IH].
  - induction Hk as [|x k Hx Hk IHk]; [done|]. cbn in *. by rewrite IHk, Hx.
  - cbn [app last_accepted]. rewrite IH. destruct (last_accepted filter_node l) as [[a b]|]; [done|]. cbn. by destruct (filter_node _).
Qed.
Lemma last_accepted_snoc l x : filter_node (summary x) = true → last_accepted filter_node (l ++ [x]) = Some (l, [x]).
Proof using. intros Hx. induction l as [|y l IH]; cbn; [by rewrite Hx|by rewrite IH]. Qed.

(** The place the loop searches from: before it are the items [pre]. *)
Definition before_place (root : Node T Sm) (descending : bool) (st : list StackEntry) (pre : list T) : Prop :=
  match st with
  | [] => pre = []
  | mkEntry t i _ :: ups => ∃ k p, path root k t ups p ∧ pre = p ++ items_before (if descending then S i else i) t ∧
      (if descending then i < length (node_child_summaries t) else i ≤ length (node_child_summaries t))
  end.

Definition steps (i : nat) t : nat :=
  match t with Leaf _ _ _ => i | Internal _ _ _ ts => sum_list (map (λ u, S (node_weight u)) (take i ts)) end.
Fixpoint cost (descending : bool) (st : list StackEntry) : nat :=
  match st with
  | [] => 0
  | mkEntry t i _ :: ups => S (steps (if descending then S i else i) t) + cost false ups
  end.

Lemma steps_S k t i : wf TREE_BASE k t → i < length (node_child_summaries t) →
  steps (S i) t = S (match t with Leaf _ _ _ => 0 | Internal _ _ _ ts => match ts !! i with Some u => node_weight u | None => 0 end end) + steps i t.
Proof using.
  intros Ht Hi. rewrite (node_summaries k t Ht) in Hi. destruct Ht as [xs|k ts _ _ Hall]; cbn [steps mk_leaf mk_internal] in *; [lia|].
  rewrite length_fmap in Hi. destruct (lookup_lt_is_Some_2 ts i Hi) as [u Hu]. rewrite Hu, (take_S_r ts i u Hu), map_app, sum_list_with_app. cbn. lia.
Qed.
Lemma steps_all k t : wf TREE_BASE k t → S (steps (length (node_child_summaries t)) t) = node_weight t.
Proof using.
  intros Ht. rewrite (node_summaries k t Ht). destruct Ht as [xs|k ts]; cbn [steps mk_leaf mk_internal node_weight]; rewrite length_fmap; [done|].
  by rewrite firstn_all.
Qed.
Lemma children_nonempty k t : wf TREE_BASE k t → ∃ n, length (node_child_summaries t) = S n.
Proof using. intros Ht. rewrite (node_summaries k t Ht). destruct Ht as [xs Hne|k ts Hne]; cbn [mk_leaf mk_internal]; rewrite length_fmap; [destruct xs|destruct ts]; by eauto. Qed.
Lemma items_before_all k t : wf TREE_BASE k t → items_before (length (node_child_summaries t)) t = items t.
Proof using. intros Ht. rewrite (node_summaries k t Ht). destruct Ht; cbn [items_before items mk_leaf mk_internal]; rewrite length_fmap, firstn_all; done. Qed.

(** The last child before index [S i], and what it holds. *)
Lemma child_at k t i : wf TREE_BASE k t → i < length (node_child_summaries t) →
  (∃ xs x, t = mk_leaf xs ∧ k = 0 ∧ xs !! i = Some x ∧ node_child_summaries t !! i = Some (summary x) ∧ items_before (S i) t = items_before i t ++ [x]) ∨
  (∃ k' ts u, t = mk_internal k ts ∧ k = S k' ∧ ts !! i = Some u ∧ wf TREE_BASE k' u ∧ node_child_summaries t !! i = Some (sum (summary <$> items u)) ∧
     items_before (S i) t = items_before i t ++ items u).
Proof using.
  intros Ht Hi. rewrite (node_summaries k t Ht) in Hi |- *. destruct Ht as [xs|k ts Hne Hlen Hall]; cbn [mk_leaf mk_internal items_before] in *; rewrite length_fmap in Hi.
  - left. destruct (lookup_lt_is_Some_2 xs i Hi) as [x Hx]. exists xs, x. split_and!; try done; [by rewrite list_lookup_fmap, Hx|by rewrite (take_S_r xs i x Hx)].
  - right. destruct (lookup_lt_is_Some_2 ts i Hi) as [u Hu]. exists k, ts, u. assert (wf TREE_BASE k u) as Hw by by apply (Forall_lookup_1 _ _ _ _ Hall Hu).
    split_and!; try done; [by rewrite list_lookup_fmap, Hu, <- (wf_summary TREE_BASE k u Hw)|by apply content_at].
Qed.

Definition backward_result (root : Node T Sm) (r : option (D * list StackEntry)) (pre : list T) : Prop :=
  match last_accepted filter_node pre with
  | Some (a, b) => ∃ st, r = Some (dpos dzero a, st) ∧ st ≠ [] ∧ seated root st a
  | None => r = Some (dzero, [])
  end.

Lemma backward_result_reject root r pre k : Forall rejected k → backward_result root r pre → backward_result root r (pre ++ k).
Proof using. intros Hk H. unfold backward_result in *. rewrite last_accepted_rejected by done. by destruct (last_accepted filter_node pre) as [[a b]|]. Qed.
(** One iteration, after the index has been chosen. *)
Lemma backward_loop_ok n root fuel : wf TREE_BASE n root → n < STACK_CAPACITY → ∀ descending st pos pre,
  before_place root descending st pre → (st = [] → pos = dzero) → cost descending st < fuel →
  backward_result root (search_backward_loop fuel filter_node descending pos st) pre.
Proof using Hf.
  intros Hn Hcap. induction fuel as [|fuel IH]; intros descending st pos pre Hp Hpos Hc; [lia|].
  destruct st as [|[t i q] ups]; [cbn in Hp; subst pre; unfold backward_result; cbn; by rewrite Hpos|].
  destruct Hp as (k & p & Hp & -> & Hi). pose proof (path_wf _ _ _ _ _ Hp) as Hw. cbn [search_backward_loop cost] in *.
  rewrite (path_parent _ _ _ _ _ Hp). destruct (negb descending && (i =? 0)) eqn:Hpop.
  - apply andb_true_iff in Hpop as [Hd Hi0]. destruct descending; [done|]. apply Nat.eqb_eq in Hi0 as ->.
    assert (items_before 0 t = []) as -> by (by destruct t). rewrite app_nil_r. apply IH; [|by destruct Hp|lia].
    destruct Hp as [k Hk|k ts i u st pre Hp Hu]; [done|]. exists (S k), pre. split; [done|]. split; [done|].
    cbn. rewrite length_fmap. apply Nat.lt_le_incl. by eapply lookup_lt_Some.
  - set (j := if descending then i else i - 1).
    assert (j < length (node_child_summaries t) ∧ (if descending then S i else i) = S j) as [Hj Ej].
    { unfold j. destruct descending; [done|]. cbn in Hpop. apply Nat.eqb_neq in Hpop. lia. }
    rewrite Ej in Hc |- *. clear Ej Hi Hpop. rewrite (measured k t _ _ Hw), <- dpos_app. rewrite (steps_S k t j Hw Hj) in Hc.
    destruct (child_at k t j Hw Hj) as [(xs & x & -> & -> & Hx & Hs & Hb)|(k' & ts & u & -> & -> & Hu & Hwu & Hs & Hb)].
    all: rewrite Hs, Hb; cbn [mbind option_bind]; rewrite app_assoc; clear Hs Hb.
    + cbn [mk_leaf]. destruct (filter_node (summary x)) eqn:Hfx.
      * unfold backward_result. rewrite last_accepted_snoc by done. eexists. split; [reflexivity|]. split; [done|].
        exists xs, p. split_and!; [done|by eapply lookup_lt_Some|done|done].
      * apply backward_result_reject; [by repeat constructor|]. apply IH; [|done|cbn [cost] in *; lia].
        exists 0, p. split; [done|]. split; [done|]. lia.
    + cbn [mk_internal] in Hc |- *. rewrite Hu in Hc. destruct (filter_node (sum (summary <$> items u))) eqn:Hfx.
      * rewrite Hu. cbn [mbind option_bind]. destruct (children_nonempty k' u Hwu) as [last El]. rewrite El.
        assert (path root k' u (mkEntry (mk_internal (S k') ts) j (dpos dzero (p ++ content (take j ts))) :: ups) (p ++ content (take j ts))) as Hp' by by constructor.
        pose proof (path_height _ _ _ _ _ _ Hp' Hn) as Hh.
        unfold stack_push. rewrite (proj2 (Nat.ltb_lt _ _)) by (cbn [length] in *; lia). cbn [mbind option_bind].
        apply IH; [|done|].
        -- exists k', (p ++ content (take j ts)). split; [done|]. rewrite El. split; [|lia]. by rewrite <- El, (items_before_all k' u Hwu).
        -- cbn [cost] in *. pose proof (steps_all k' u Hwu) as Hall. rewrite El in Hall. change (Internal _ _ _ _) with (mk_internal (S k') ts). lia.
      * apply backward_result_reject; [apply Hf; [by eapply wf_items_nonempty|done]|]. apply IH; [|done|].
        -- exists (S k'), p. split; [done|]. split; [done|]. lia.
        -- cbn [cost] in *. change (Internal _ _ _ _) with (mk_internal (S k') ts). lia.
Qed.

Lemma cost_le_fuel root k t i q ups pre : path root k t ups pre → i ≤ length (node_child_summaries t) →
  cost false (mkEntry t i q :: ups) < backward_fuel (mkEntry t i q :: ups).
Proof using.
  assert (∀ k t i, wf TREE_BASE k t → i ≤ length (node_child_summaries t) → S (steps i t) ≤ node_weight t) as Hle.
  { clear. intros k t i Ht Hi. rewrite <- (steps_all k t Ht). apply le_n_S. rewrite (node_summaries k t Ht) in Hi |- *.
    destruct Ht as [xs|k ts]; cbn [steps mk_leaf mk_internal] in *; rewrite length_fmap in *; [done|]. rewrite firstn_all.
    rewrite <- (take_drop i ts) at 2. rewrite map_app, sum_list_with_app. lia. }
  intros Hp Hi. unfold backward_fuel. cbn [cost map sum_list_with entry_tree]. apply Nat.lt_succ_r. apply Nat.add_le_mono; [apply (Hle k); [by eapply path_wf|done]|].
  clear Hi. induction Hp as [|k ts j u st pre Hp IH Hj]; [done|]. cbn [cost map sum_list_with entry_tree].
  apply Nat.add_le_mono; [|done]. apply (Hle (S k)); [by eapply path_wf|]. cbn. rewrite length_fmap. apply Nat.lt_le_incl. by eapply lookup_lt_Some.
Qed.
End filter.

(** ** Positions under the forward moves

    [spot root st pos o]: [pos] is the position of the [o]-th child (or item)
    of the node on top of the stack. *)

Definition spot (root : Node T Sm) (st : list StackEntry) (pos : D) (o : nat) : Prop :=
  match st with
  | [] => True
  | mkEntry t _ _ :: ups => ∃ k pre, path root k t ups pre ∧ o ≤ length (node_child_summaries t) ∧ pos = dpos dzero (pre ++ items_before o t)
  end.

(** The index at which a loop goes on, by whether the child was finished. *)
Definition resume_index (finished : bool) (st : list StackEntry) : nat :=
  match st with [] => 0 | e :: _ => if finished then S (entry_index e) else entry_index e end.

(** Leaving a node passes it in its parent. *)
Lemma spot_leave root k t ups pre pos : path root k t ups pre → pos = dpos dzero (pre ++ items t) → spot root ups pos (resume_index true ups).
Proof.
  intros Hp ->. destruct Hp as [|k ts i u st pre Hp Hu]; [done|]. exists (S k), pre. cbn [resume_index entry_index]. split; [done|]. split.
  - cbn. rewrite length_fmap. by eapply lookup_lt_Some.
  - cbn [items_before mk_internal]. by rewrite (content_at ts i u Hu), app_assoc.
Qed.

(** Passing some more children. *)
Lemma spot_forward k t o m pos pre : wf TREE_BASE k t → pos = dpos dzero (pre ++ items_before o t) →
  foldl dadd pos (take m (drop o (node_child_summaries t))) = dpos dzero (pre ++ items_before (o + m) t).
Proof.
  intros Ht ->. rewrite dpos_app, <- (measured k t _ o Ht), <- foldl_app, take_take_drop, (measured k t) by done. by rewrite <- dpos_app.
Qed.

Lemma scan_children_position {A} (agg : SeekAggregate (T:=T) (Sm:=Sm) A) target bias a pos i (ts : list (Node T Sm)) ss a' pos' i' child : length ts = length ss →
  scan_children agg target bias a pos i (zip ts ss) = Some (a', pos', i', child) →
  ∃ m, m ≤ length ts ∧ i' = i + m ∧ pos' = foldl dadd pos (take m ss) ∧ child = ts !! m.
Proof.
  revert a pos i ss. induction ts as [|t ts IH]; intros a pos i [|s ss] Hl H; try done.
  { injection H as <- <- <- <-. exists 0. split_and!; [done|lia|done|done]. }
  cbn in H. destruct (past (target (dadd pos s)) bias).
  - destruct (push_tree _ agg a t s) as [a1|]; [|done]. cbn in H. apply IH in H as (m & Hm & -> & -> & ->); [|by injection Hl].
    exists (S m). cbn. split_and!; [lia|lia|done|done].
  - injection H as <- <- <- <-. exists 0. split_and!; [cbn; lia|lia|done|done].
Qed.
Lemma scan_items_position {A} (agg : SeekAggregate (T:=T) (Sm:=Sm) A) target bias a pos i (xs : list T) ss a' pos' i' found : length xs = length ss →
  scan_items agg target bias a pos i (zip xs ss) = Some (a', pos', i', found) →
  ∃ m, m ≤ length xs ∧ i' = i + m ∧ pos' = foldl dadd pos (take m ss) ∧ (found = false → m = length xs).
Proof.
  revert a pos i ss. induction xs as [|t ts IH]; intros a pos i [|s ss] Hl H; try done.
  { injection H as <- <- <- <-. exists 0. split_and!; [done|lia|done|done]. }
  cbn in H. destruct (past (target (dadd pos s)) bias).
  - destruct (push_item _ agg a t s) as [a1|]; [|done]. cbn in H. apply IH in H as (m & Hm & -> & -> & Hf); [|by injection Hl].
    exists (S m). cbn. split_and!; [lia|lia|done|]. intros E. by rewrite Hf.
  - injection H as <- <- <- <-. exists 0. split_and!; [cbn; lia|lia|done|done].
Qed.

(** What the loops are called with. *)
Definition seek_ready (ascending : bool) (st : list StackEntry) (pos : D) : Prop :=
  match st with [] => True | e :: _ => is_leaf (entry_tree e) = true ∧ ascending = false ∨ is_leaf (entry_tree e) = false ∧ (ascending = true ∨ entry_position e = pos) end.

Lemma ready_leave root k t ups pre pos : path root k t ups pre → seek_ready true ups pos.
Proof. destruct 1; cbn; [done|]. right. auto. Qed.

Lemma seek_loop_spot {A} (agg : SeekAggregate (T:=T) (Sm:=Sm) A) target bias root fuel a pos asc st a' pos' st' :
  spot root st pos (resume_index asc st) → seek_ready asc st pos →
  seek_loop agg target bias fuel a pos asc st = Some (a', pos', st') → spot root st' pos' (resume_index false st').
Proof.
  revert a pos asc st. induction fuel as [|fuel IH]; intros a pos asc st Hs Hr H; [done|].
  destruct st as [|[t i q] ups]; [by injection H as <- <- <-|]. destruct Hs as (k & pre & Hp & Ho & Hpos). cbn [resume_index entry_index] in Ho, Hpos.
  pose proof (path_wf _ _ _ _ _ Hp) as Hw. pose proof (spot_forward k t) as Hfwd.
  destruct t as [h s ss ts|s xs ss]; cbn [seek_loop node_child_summaries items_before seek_ready is_leaf entry_tree entry_position] in *.
  - destruct Hr as [[? ?]|[_ Hr]]; [done|]. inversion Hw as [|h' ts' Hne Hlen Hall]; subst.
    set (o := if asc then S i else i) in *. set (q' := if asc then dpos dzero (pre ++ content (take o ts)) else q).
    assert ((if asc then (S i, dpos dzero (pre ++ content (take o ts))) else (i, q)) = (o, q')) as E by by destruct asc.
    rewrite E in H. clear E.
    assert (q' = dpos dzero (pre ++ content (take o ts))) as -> by (unfold q'; destruct asc; [done|]; by destruct Hr).
    destruct (length ts <? o); [done|]. destruct (scan_children _ _ _ _ _ _ _) as [[[[a1 p1] i1] child]|] eqn:Hscan; [|done].
    apply scan_children_position in Hscan as (m & Hm & -> & -> & ->); [|by rewrite !length_drop, length_fmap]. cbn [mbind option_bind] in H.
    rewrite (Hfwd o m _ pre Hw eq_refl) in H. rewrite lookup_drop in H. rewrite length_drop in Hm.
    replace (if o + m =? o then _ else _) with (dpos dzero (pre ++ content (take (o + m) ts))) in H.
    2: { destruct (Nat.eqb_spec (o + m) o) as [E|]; [|done]. by rewrite E. }
    destruct (ts !! (o + m)) as [u|] eqn:Hu.
    + destruct (stack_push _ _) as [st1|] eqn:Epush; [|done]. unfold stack_push in Epush. destruct (_ <? _); [|done]. injection Epush as <-.
      eapply IH, H; [|cbn; by destruct (is_leaf u); [left|right; auto]].
      exists h', (pre ++ content (take (o + m) ts)). cbn [resume_index entry_index]. split; [by constructor|]. split; [lia|].
      replace (items_before 0 u) with (@nil T) by by destruct u. by rewrite app_nil_r.
    + eapply IH, H; [|by eapply ready_leave]. eapply spot_leave; [done|]. apply lookup_ge_None in Hu. rewrite (take_ge ts) by done. done.
  - destruct Hr as [[_ ->]|[? _]]; [|done]. inversion Hw; subst. destruct (length xs <? i); [done|].
    destruct (scan_items _ _ _ _ _ _ _) as [[[[a1 p1] i1] found]|] eqn:Hscan; [|done].
    apply scan_items_position in Hscan as (m & Hm & -> & -> & Hfound); [|by rewrite !length_drop, length_fmap]. cbn [mbind option_bind] in H.
    rewrite (Hfwd i m _ pre Hw eq_refl) in H. rewrite length_drop in Hm. rewrite length_fmap in Ho.
    destruct (end_leaf _ agg a1); [|done]. cbn [mbind option_bind] in H. destruct found.
    + injection H as <- <- <-. exists 0, pre. split; [done|]. cbn. rewrite length_fmap. split; [lia|done].
    + eapply IH, H; [|by eapply ready_leave]. eapply spot_leave; [done|]. rewrite length_drop in Hfound. rewrite (take_ge xs) by (rewrite Hfound by done; lia). done.
Qed.

Lemma skip_children_position filter_node i pos q ss i' pos' q' :
  skip_children filter_node i pos q ss = (i', pos', q') →
  ∃ m, m ≤ length ss ∧ i' = i + m ∧ pos' = foldl dadd pos (take m ss) ∧ q' = foldl dadd q (take m ss).
Proof.
  revert i pos q. induction ss as [|s ss IH]; intros i pos q H.
  { injection H as <- <- <-. exists 0. split_and!; [done|lia|done|done]. }
  cbn in H. destruct (filter_node s); [injection H as <- <- <-; exists 0; split_and!; [cbn; lia|lia|done|done]|].
  apply IH in H as (m & Hm & -> & -> & ->). exists (S m). cbn. split_and!; [lia|lia|done|done].
Qed.

Definition forward_index (descend : bool) (st : list StackEntry) : nat :=
  match st with [] => 0 | e :: _ => if descend || is_leaf (entry_tree e) then entry_index e else S (entry_index e) end.
Definition forward_ready (descend : bool) (st : list StackEntry) (pos : D) : Prop :=
  match st with [] => True | e :: _ => descend = false ∨ entry_position e = pos end.

Lemma forward_index_leave root k t ups pre : path root k t ups pre → forward_index false ups = resume_index true ups.
Proof. by destruct 1. Qed.

Lemma search_forward_spot root fuel filter_node pos descend st pos' st' :
  spot root st pos (forward_index descend st) → forward_ready descend st pos →
  search_forward_loop fuel filter_node descend pos st = Some (pos', st') → spot root st' pos' (resume_index false st').
Proof.
  revert pos descend st. induction fuel as [|fuel IH]; intros pos descend st Hs Hr H; [done|].
  destruct st as [|[t i q] ups]; [by injection H as <- <-|]. destruct Hs as (k & pre & Hp & Ho & Hpos).
  pose proof (path_wf _ _ _ _ _ Hp) as Hw. pose proof (spot_forward k t) as Hfwd.
  assert (∀ p, p = dpos dzero (pre ++ items t) → spot root ups p (forward_index false ups)) as Hleave.
  { intros p E. rewrite (forward_index_leave _ _ _ _ _ Hp). by eapply spot_leave. }
  destruct t as [h s ss ts|s xs ss]; cbn [search_forward_loop node_child_summaries items_before forward_index forward_ready is_leaf entry_tree entry_index entry_position orb] in *.
  - inversion Hw as [|h' ts' Hne Hlen Hall]; subst. rewrite orb_false_r in *. set (o := if descend then i else S i) in *.
    assert ((if descend then (i, q) else (S i, dpos dzero (pre ++ content (take o ts)))) = (o, dpos dzero (pre ++ content (take o ts)))) as E.
    { destruct descend; [|done]. by destruct Hr as [?| ->]. }
    rewrite E in H. clear E. destruct (skip_children _ _ _ _ _) as [[i1 p1] q1] eqn:Hskip.
    apply skip_children_position in Hskip as (m & Hm & -> & -> & ->). rewrite (Hfwd o m _ pre Hw eq_refl) in H. rewrite length_drop, length_fmap in Hm.
    rewrite length_fmap in Ho. destruct (ts !! (o + m)) as [u|] eqn:Hu.
    + destruct (stack_push _ _) as [st1|] eqn:Epush; [|done]. unfold stack_push in Epush. destruct (_ <? _); [|done]. injection Epush as <-.
      eapply IH, H; [|by right].
      exists h', (pre ++ content (take (o + m) ts)). cbn. split; [by constructor|]. split; [lia|].
      replace (items_before 0 u) with (@nil T) by by destruct u. by rewrite app_nil_r.
    + eapply IH, H; [|by destruct ups; [|left]]. apply Hleave. apply lookup_ge_None in Hu. rewrite (take_ge ts) by done. done.
  - inversion Hw; subst. rewrite orb_true_r, length_fmap in *.
    destruct (if descend then Some (i, dpos dzero (pre ++ take i xs), q) else _) as [[[i0 p0] q0]|] eqn:Estart; [|done].
    assert (p0 = dpos dzero (pre ++ items_before i0 (mk_leaf xs)) ∧ i0 ≤ length xs) as [-> Hi0].
    { destruct descend; [injection Estart as <- <- <-; done|]. rewrite list_lookup_fmap in Estart.
      destruct (xs !! i) as [x|] eqn:Hx; [|done]. injection Estart as <- <- <-. cbn [items_before mk_leaf]. rewrite (take_S_r xs i x Hx), app_assoc, (dpos_app _ _ [x]).
      split; [done|]. by eapply lookup_lt_Some. }
    cbn [mbind option_bind] in H. destruct (skip_children _ _ _ _ _) as [[i1 p1] q1] eqn:Hskip.
    apply skip_children_position in Hskip as (m & Hm & -> & -> & ->). cbn [items_before mk_leaf] in H. rewrite (Hfwd i0 m _ pre Hw eq_refl) in H. rewrite length_drop, length_fmap in Hm.
    destruct (Nat.ltb_spec (i0 + m) (length xs)).
    + injection H as <- <-. exists 0, pre. split; [done|]. cbn. rewrite length_fmap. split; [lia|done].
    + eapply IH, H; [|by destruct ups; [|left]]. apply Hleave. cbn [items_before mk_leaf]. rewrite (take_ge xs) by done. done.
Qed.

End back.
