(* ===== verification/CursorMoves.v ===== *)
(** * Cursors as places in a sequence ([crates/sum_tree/src/cursor.rs])

    Under any mix of seeks, forward and backward searches a cursor over a tree
    is a place in the sequence of its items, which the moves change as they
    read. *)

From S2P Require Import Prelude SumTree Cursor Search CursorBack.

Section moves.
Context `{HS : Summary Sm} `{HI : Item T Sm} `{HD : !Dimension D Sm}.
Context (TREE_BASE : nat).
Implicit Types t u : Node T Sm.
Abbreviation Cursor := (@Cursor Sm T D).
Abbreviation StackEntry := (@StackEntry Sm T D).

(** ** Places

    A cursor not yet moved, before the first item (after moving back from it),
    between the items before and ahead, or made to seek forward from before
    the first item, which loses it. *)
Inductive Place := Fresh | Front | Standing (before ahead : list T) | Lost.

Definition place_position (pl : Place) : D := match pl with Standing before _ => dpos dzero before | _ => dzero end.
(** The outer option is the panic of [assert_did_seek]. *)
Definition place_item (pl : Place) : option (option T) :=
  match pl with Fresh => None | Standing _ ahead => Some (head ahead) | Front | Lost => Some None end.
Definition place_next_item (l : list T) (pl : Place) : option (option T) :=
  match pl with Fresh => None | Standing _ ahead => Some (head (tail ahead)) | Front => Some (head l) | Lost => Some None end.
Definition place_prev_item (l : list T) (pl : Place) : option (option T) :=
  match pl with Fresh => None | Standing before _ => Some (last before) | Front => Some None | Lost => Some (last l) end.

Inductive Move :=
| MReset
| MSeek (target : D → comparison) (bias : Bias)
| MSeekForward (target : D → comparison) (bias : Bias)
| MSearchForward (filter_node : Sm → bool)
| MSearchBackward (filter_node : Sm → bool).

Definition cursor_move (m : Move) (c : Cursor) : option Cursor :=
  match m with
  | MReset => Some (Cursor.reset c)
  | MSeek target bias => '(c, _) ← seek target bias c; Some c
  | MSeekForward target bias => '(c, _) ← seek_forward target bias c; Some c
  | MSearchForward f => search_forward f c
  | MSearchBackward f => search_backward f c
  end.

Definition stand (passed : list T) (r : list T * D * list T) : Place := Standing (passed ++ r.1.1) r.2.
Definition step_back (f : Sm → bool) (before ahead : list T) : Place :=
  match last_accepted f before with
  | Some (a, b) => Standing a (b ++ ahead)
  | None => match before ++ ahead with [] => Standing [] [] | _ => Front end
  end.
Definition place_seek (target : D → comparison) (bias : Bias) (before ahead : list T) : option Place :=
  let d := dpos dzero before in
  match target d with
  | Lt => None
  | _ => Some (stand before (lseek (λ p, past (target p) bias) d ahead))
  end.
Definition place_move (l : list T) (m : Move) (pl : Place) : option Place :=
  match m with
  | MReset => Some Fresh
  | MSeek target bias => place_seek target bias [] l
  | MSeekForward target bias =>
      match pl with
      | Fresh => place_seek target bias [] l
      | Standing before ahead => place_seek target bias before ahead
      | Front | Lost => match target dzero with Lt => None | _ => Some Lost end
      end
  | MSearchForward f =>
      Some match pl with
      | Fresh | Front => stand [] (lskip f dzero l)
      | Standing before (x :: ahead) => stand (before ++ [x]) (lskip f (dpos dzero (before ++ [x])) ahead)
      | Standing _ [] | Lost => pl
      end
  | MSearchBackward f =>
      Some match pl with
      | Fresh | Lost => step_back f l []
      | Standing before ahead => step_back f before ahead
      | Front => Front
      end
  end.

(** Targets compare monotonically along the sequence, and filters that reject
    a subtree reject its items. *)
Definition move_ok (l : list T) (m : Move) : Prop :=
  match m with
  | MReset => True
  | MSeek target bias | MSeekForward target bias => monotone (λ p, past (target p) bias) dzero l
  | MSearchForward f | MSearchBackward f => filter_sound f
  end.

(** ** What a cursor at a place is *)

Definition rests (t : Node T Sm) (c : Cursor) (pl : Place) : Prop :=
  match pl with
  | Fresh => c = cursor_new t
  | Front => c = mkCursor t [] dzero true false ∧ items t ≠ []
  | Standing before ahead =>
      tree c = t ∧ did_seek c = true ∧ items t = before ++ ahead ∧ cursor_at TREE_BASE c (dpos dzero before) ahead ∧ seated TREE_BASE t (stack c) before
  | Lost => c = mkCursor t [] dzero true true
  end.

Lemma up_ok_unique n k st rest rest' : up_ok (D:=D) TREE_BASE n k st rest → up_ok TREE_BASE n k st rest' → rest = rest'.
Proof.
  intros H. revert rest'. induction H as [|k ts i q st rest Hi Hne Hlen Hall Hup IH]; intros rest' H'; inversion H'; subst; [done|].
  f_equal. by apply IH.
Qed.

(** Landing after a move: the stack stands where the position says. *)
Lemma land t c d before ahead : walkable TREE_BASE t → tree c = t → did_seek c = true → items t = before ++ ahead → d = dpos dzero before →
  cursor_at TREE_BASE c d ahead → (t ≠ new → spot TREE_BASE t (stack c) (position c) (resume_index false (stack c))) →
  rests t c (Standing before ahead).
Proof.
  intros Hw Ht Hd Hi -> Hc Hsp. split_and!; [done..|]. destruct Hc as [Hpos [(? & _)|(_ & _ & n & Hn & Hs)]]; [congruence|].
  destruct (stack c) as [|[u i q] ups]; cbn [seated seeked] in *; [subst ahead; by rewrite app_nil_r in Hi|].
  destruct Hs as (xs & rest & -> & Hlt & Hlen & Hup & ->).
  destruct Hw as [->|(n' & Hn' & Hw)]; [apply (f_equal length) in Hi; rewrite !length_app, length_drop in Hi; cbn in Hi; lia|].
  assert (t ≠ new) as Hne by (intros ->; by apply wf_items_nonempty in Hw).
  destruct (Hsp Hne) as (k & pre & Hp & _ & _). pose proof (path_wf _ _ _ _ _ _ Hp) as Hk. inversion Hk as [ys Hys1 Hys2|]; subst.
  exists xs, pre. split_and!; [done|done|done|]. destruct (path_up _ _ _ _ _ _ _ Hp Hw) as (rest' & Hup' & Hi').
  assert (rest' = rest) as ->.
  { eapply up_ok_unique; [done|]. pose proof (path_height _ _ _ _ _ _ _ Hp Hw). apply up_ok_length in Hup as Hl. by replace n' with n by lia. }
  rewrite Hi' in Hi. cbn [items mk_leaf] in Hi. rewrite <- (take_drop i xs) in Hi at 1. rewrite <- app_assoc, app_assoc in Hi. by apply app_inv_tail in Hi.
Qed.

Lemma rests_tree t c pl : rests t c pl → tree c = t.
Proof. destruct pl; cbn; [by intros ->|by intros [-> _]|by intros [? _]|by intros ->]. Qed.

Lemma rests_at t c before ahead : rests t c (Standing before ahead) → cursor_at TREE_BASE c (dpos dzero before) ahead.
Proof. by intros (_ & _ & _ & ? & _). Qed.

(** A standing cursor as the loops take it up. *)
Lemma seated_spot t c before ahead : rests t c (Standing before ahead) →
  spot TREE_BASE t (stack c) (position c) (resume_index false (stack c)) ∧ seek_ready false (stack c) (position c) ∧
  forward_index false (stack c) = resume_index false (stack c).
Proof.
  intros (_ & _ & _ & [-> _] & Hs). destruct (stack c) as [|[u i q] ups]; [done|]. destruct Hs as (xs & p & -> & Hi & Hp & ->).
  split; [|split; [by left|done]]. exists 0, p. split; [done|]. cbn. rewrite length_fmap. split; [lia|done].
Qed.

(** ** Seeking *)

Lemma root_spot t : t ≠ new → walkable TREE_BASE t → spot TREE_BASE t [mkEntry t 0 dzero] (dzero : D) 0.
Proof.
  intros Hne [->|(n & Hn & Hw)]; [done|]. exists n, []. split; [by constructor|]. split; [lia|]. by destruct t.
Qed.

Lemma seek_forward_loop (c : Cursor) target bias c' b : seek_forward target bias c = Some (c', b) → ∃ st a,
  (if did_seek c then Some (stack c) else stack_push (mkEntry (tree c) 0 dzero) (stack c)) = Some st ∧
  seek_loop no_aggregate target bias seek_fuel () (position c) false st = Some (a, position c', stack c').
Proof.
  unfold seek_forward, seek_internal. generalize seek_fuel. intros fuel H.
  destruct (target (position c)); [|done|]; destruct (if did_seek c then _ else _) as [st|]; try done; cbn [mbind option_bind] in H;
    (destruct (seek_loop no_aggregate target bias fuel () (position c) false st) as [[[a pos] st']|] eqn:Hl; [|done]); cbn [mbind option_bind] in H;
    (destruct (item_summary _) as [s|]; [|done]); cbn [mbind option_bind] in H; injection H as <- _; exists st, a; done.
Qed.

Lemma seek_forward_spot t c target bias c' b : t ≠ new → walkable TREE_BASE t → tree c = t →
  (did_seek c = false → stack c = [] ∧ position c = dzero) →
  (did_seek c = true → spot TREE_BASE t (stack c) (position c) (resume_index false (stack c)) ∧ seek_ready false (stack c) (position c)) →
  seek_forward target bias c = Some (c', b) → spot TREE_BASE t (stack c') (position c') (resume_index false (stack c')).
Proof.
  intros Hne Hw Ht Hfresh Hold (st & a & Est & Hl)%seek_forward_loop. revert Hl. generalize seek_fuel. intros fuel Hl.
  assert (spot TREE_BASE t st (position c) (resume_index false st) ∧ seek_ready false st (position c)) as [Hsp Hr].
  { destruct (did_seek c); [injection Est as <-; by apply Hold|]. destruct (Hfresh eq_refl) as [E1 E2]. rewrite E1, E2 in *. injection Est as <-.
    rewrite Ht. split; [by apply root_spot|]. cbn. destruct (is_leaf t); auto. }
  eapply seek_loop_spot; [exact Hsp|exact Hr|exact Hl].
Qed.

Lemma seek_place t c before ahead target bias : walkable TREE_BASE t → (c = cursor_new t ∧ before = [] ∧ ahead = items t ∨ rests t c (Standing before ahead)) →
  monotone (λ p, past (target p) bias) dzero (items t) →
  match place_seek target bias before ahead with
  | Some pl => ∃ c' b, seek_forward target bias c = Some (c', b) ∧ rests t c' pl
  | None => seek_forward target bias c = None
  end.
Proof.
  intros Hw Hc Hm.
  assert (cursor_at TREE_BASE c (dpos dzero before) ahead ∧ items t = before ++ ahead ∧ tree c = t) as (Hat & Hi & Ht).
  { destruct Hc as [(-> & -> & ->)|Hc]; [by split; [apply cursor_new_at|]|]. split; [by eapply rests_at|]. by destruct Hc as (? & _ & ? & _). }
  unfold place_seek. destruct (target (dpos dzero before)) eqn:Htg.
  2: { unfold seek_forward, seek_internal. by rewrite (proj1 Hat), Htg. }
  all: pose proof (seek_forward_ok TREE_BASE c target bias _ _ Hat) as H;
    rewrite Hi in Hm; specialize (H (monotone_app _ _ _ _ Hm) ltac:(by rewrite Htg));
    pose proof (lseek_split (λ p, past (target p) bias) (dpos dzero before) ahead) as Hsp;
    destruct (lseek _ _ ahead) as [[sk d'] r]; destruct H as (c' & b & E & Hat' & Hd' & Ht'); destruct Hsp as (-> & -> & _);
    exists c', b; split; [exact E|]; unfold stand; cbn [fst snd];
    apply (land t c' (dpos (dpos dzero before) sk)); [done|congruence|done|by rewrite Hi, app_assoc|by rewrite dpos_app|done|];
    intros Hne; eapply (seek_forward_spot t c target bias c' b); try done;
    [destruct Hc as [(-> & _)|Hc]; [done|]; destruct Hc as (_ & Hd & _); congruence|];
    intros Hd; destruct Hc as [(-> & _)|Hc]; [done|]; destruct (seated_spot _ _ _ _ Hc) as (? & ? & _); done.
Qed.

Lemma seek_nowhere t target bias at_e : let c := mkCursor t [] dzero true at_e in
  match target dzero with
  | Lt => seek_forward (D:=D) target bias c = None
  | _ => ∃ b, seek_forward target bias c = Some (mkCursor t [] dzero true true, b)
  end.
Proof. intros c. destruct (target dzero) eqn:E; unfold seek_forward, seek_internal; cbn [position c]; rewrite E; cbn; eauto. Qed.
(** ** Searching forward *)

Lemma search_forward_lands t c f c' : t ≠ new → walkable TREE_BASE t → tree c = t →
  (stack c = [] → position c = dzero ∨ at_end c = true) →
  (stack c ≠ [] → ∃ before ahead, rests t c (Standing before ahead)) →
  search_forward f c = Some c' → spot TREE_BASE t (stack c') (position c') (resume_index false (stack c')).
Proof.
  intros Hne Hw Ht Hfresh Hold H. unfold search_forward in H.
  destruct (match stack c with [] => _ | _ => _ end) as [[st descend]|] eqn:Est; [|done]. cbn [mbind option_bind] in H.
  assert (spot TREE_BASE t st (position c) (forward_index descend st) ∧ forward_ready descend st (position c)) as [Hsp Hr].
  { destruct (stack c) as [|e st0] eqn:Ec.
    - destruct (at_end c); [by injection Est as <- <-|]. destruct (Hfresh eq_refl) as [Hp|?]; [|done]. injection Est as <- <-. rewrite Hp, Ht.
      split; [by apply root_spot|by right].
    - destruct Hold as (before & ahead & Hc); [done|]. injection Est as <- <-. destruct (seated_spot _ _ _ _ Hc) as (Hs & _ & Hi). rewrite Ec in *.
      rewrite Hi. split; [done|by left]. }
  revert H. generalize (search_fuel st). intros fuel H. destruct (search_forward_loop _ _ _ _ _) as [[pos st']|] eqn:Hl; [|done]. injection H as <-. cbn [stack position].
  eapply search_forward_spot; [exact Hsp|exact Hr|exact Hl].
Qed.

Lemma forward_place t c before ahead f : walkable TREE_BASE t → filter_sound f → (c = cursor_new t ∧ before = [] ∧ ahead = items t ∨ rests t c (Standing before ahead)) →
  let '(passed, rest) := match did_seek c, ahead with true, x :: ahead => (before ++ [x], ahead) | _, _ => (before, ahead) end in
  ∃ c', search_forward f c = Some c' ∧ rests t c' (stand passed (lskip f (dpos dzero passed) rest)).
Proof.
  intros Hw Hf Hc.
  assert (cursor_at TREE_BASE c (dpos dzero before) ahead ∧ items t = before ++ ahead ∧ tree c = t) as (Hat & Hi & Ht).
  { destruct Hc as [(-> & -> & ->)|Hc]; [by split; [apply cursor_new_at|]|]. split; [by eapply rests_at|]. by destruct Hc as (? & _ & ? & _). }
  pose proof (search_forward_ok TREE_BASE f c _ _ Hf Hat) as H. unfold after_current in H.
  destruct (match did_seek c, ahead with true, x :: ahead => (before ++ [x], ahead) | _, _ => (before, ahead) end) as [passed rest] eqn:Epr.
  assert (match did_seek c, ahead with true, x :: l => (dadd (dpos dzero before) (summary x), l) | _, _ => (dpos dzero before, ahead) end = (dpos dzero passed, rest) ∧
    items t = passed ++ rest) as [E Hi'].
  { destruct (did_seek c), ahead as [|x ahead]; injection Epr as <- <-; try done. rewrite <- app_assoc. split; [by rewrite dpos_app|done]. }
  rewrite E in H. pose proof (lskip_split f (dpos dzero passed) rest) as Hsp. destruct (lskip f (dpos dzero passed) rest) as [[sk d'] r].
  destruct H as (c' & Es & Hat' & Hd' & Ht'). destruct Hsp as (-> & -> & _). exists c'. split; [done|]. unfold stand. cbn [fst snd].
  apply (land t c' (dpos (dpos dzero passed) sk)); [done|congruence|done|by rewrite Hi', app_assoc|by rewrite dpos_app|done|].
  intros Hne. eapply (search_forward_lands t c f c'); try done.
  - destruct Hc as [(-> & _)|(_ & Hd & _)]; [by left|]. intros Est. right. destruct Hat as [_ [(? & _)|(_ & -> & _)]]; [congruence|]. by rewrite Est.
  - intros Hst. destruct Hc as [(-> & _)|Hc]; [done|]. eauto.
Qed.

Lemma forward_from_front t f : items t ≠ [] → walkable TREE_BASE t → search_forward f (mkCursor t [] (dzero : D) true false) = search_forward f (cursor_new t).
Proof.
  intros Hi [->|(n & _ & Hw)]; [done|]. unfold search_forward. cbn [stack at_end cursor_new tree position]. by rewrite (wf_not_empty TREE_BASE n t Hw).
Qed.

(** ** Searching backward *)

Lemma loop_steps_back t n f pos st before ahead at_e : wf TREE_BASE n t → n < STACK_CAPACITY → filter_sound f → before_place TREE_BASE t false st before → st ≠ [] →
  items t = before ++ ahead →
  ∃ pos' st', search_backward_loop (backward_fuel st) f false pos st = Some (pos', st') ∧
    (at_e = false → rests t (mkCursor t st' pos' true at_e) (step_back f before ahead)).
Proof.
  intros Hw Hn Hf Hb Hne Hi. destruct st as [|[u i q] ups]; [done|].
  pose proof (backward_loop_ok TREE_BASE f Hf n t (backward_fuel (mkEntry u i q :: ups)) Hw Hn false _ pos before Hb) as H.
  specialize (H ltac:(done)). destruct Hb as (k & p & Hp & -> & Hle). specialize (H ltac:(by eapply cost_le_fuel)).
  unfold backward_result, step_back in *. pose proof (last_accepted_spec f (p ++ items_before i u)) as Hs.
  destruct (last_accepted f (p ++ items_before i u)) as [[a b]|].
  - destruct H as (st' & -> & Hst' & Hseat). destruct Hs as [Hpre _]. eexists _, _. split; [done|]. intros ->.
    rewrite Hpre, <- app_assoc in Hi. destruct (seated_seeked TREE_BASE n t st' a Hseat Hw) as (l & Hl & Hi2).
    rewrite Hi in Hi2. apply app_inv_head in Hi2 as <-. split_and!; [done..| |done]. split; [done|]. right. split; [done|]. split; [by destruct st'|]. eauto.
  - rewrite H. eexists _, _. split; [done|]. intros ->. rewrite <- Hi. assert (items t ≠ []) as Hni by by eapply wf_items_nonempty.
    destruct (items t) eqn:E; [done|]. by split; [|rewrite E].
Qed.

Lemma end_place n t q : wf TREE_BASE n t → before_place TREE_BASE t false [mkEntry t (length (node_child_summaries t)) (q : D)] (items t).
Proof. intros Hw. exists n, []. split; [by constructor|]. split; [by rewrite (items_before_all TREE_BASE n t Hw)|done]. Qed.

(** From the end of the sequence, a fresh cursor or one that was lost. *)
Lemma backward_from_end t c f : walkable TREE_BASE t → filter_sound f → tree c = t → stack c = [] → did_seek c = false ∨ at_end c = true →
  ∃ c', search_backward f c = Some c' ∧ rests t c' (step_back f (items t) []).
Proof.
  intros Hw Hf Ht Hst He. unfold search_backward. assert (negb (did_seek c) || at_end c = true) as -> by (by destruct He as [-> | ->]; [|rewrite orb_true_r]).
  rewrite Ht, Hst. destruct Hw as [->|(n & Hn & Hw)].
  - eexists. split; [reflexivity|]. cbn. split_and!; try done. split; [done|]. right. split; [done|]. split; [done|]. exists 0. split; [unfold STACK_CAPACITY; lia|done].
  - rewrite (wf_not_empty TREE_BASE n t Hw), stack_push_nil. cbn [mbind option_bind].
    destruct (loop_steps_back t n f dzero _ (items t) [] false Hw Hn Hf (end_place n t (dadd dzero (node_summary t)) Hw)) as (pos & st & -> & H); [done|by rewrite app_nil_r|].
    eexists. split; [reflexivity|]. by apply H.
Qed.

Lemma backward_place t c before ahead f : walkable TREE_BASE t → filter_sound f → rests t c (Standing before ahead) →
  ∃ c', search_backward f c = Some c' ∧ rests t c' (step_back f before ahead).
Proof.
  intros Hw Hf (Ht & Hd & Hi & Hat & Hs). destruct (stack c) as [|[u i q] ups] eqn:Est.
  - cbn in Hs. subst before. assert (ahead = []) as -> by (apply (app_inv_head (items t)); by rewrite app_nil_r).
    apply backward_from_end; [done..|]. destruct Hat as [_ [(? & _)|(_ & -> & _)]]; [by left|by rewrite Est; right].
  - destruct Hs as (xs & p & -> & Hlt & Hp & ->). assert (at_end c = false) as Hae by (destruct Hat as [_ [(? & _)|(_ & -> & _)]]; [congruence|by rewrite Est]).
    unfold search_backward. rewrite Hd, Hae, Est, Ht. cbn [negb orb mbind option_bind].
    destruct Hw as [->|(n & Hn & Hw)].
    { apply path_wf in Hp as Hwl. apply path_items in Hp as [rest Hp]. inversion Hwl as [ys Hys|]; subst. destruct p, xs; done. }
    destruct (loop_steps_back t n f (position c) (mkEntry (mk_leaf xs) i q :: ups) (p ++ take i xs) ahead false Hw Hn Hf) as (pos & st & -> & H); [|done|done|].
    + exists 0, p. split; [done|]. split; [done|]. cbn. rewrite length_fmap. lia.
    + eexists. split; [reflexivity|]. by apply H.
Qed.

Lemma backward_from_front t f : search_backward f (mkCursor t [] (dzero : D) true false) = Some (mkCursor t [] dzero true false).
Proof. done. Qed.

(** ** The neighbours of the current item *)

Lemma next_leaf_ok root k t st pre : path TREE_BASE root k t st pre → ∃ o rest, next_leaf st = Some o ∧ items root = pre ++ items t ++ rest ∧
  match o with Some l => ∃ xs, l = mk_leaf xs ∧ xs ≠ [] ∧ head xs = head rest | None => rest = [] end.
Proof.
  induction 1 as [k Hk|k ts i u st pre Hp (o & rest & Hn & Hi & Ho) Hu]; [exists None, []; by rewrite app_nil_r|].
  change (items (mk_internal (S k) ts)) with (content ts) in Hi.
  rewrite <- (take_drop i ts), (drop_S_lookup ts i u Hu), content_app, content_cons, <- !app_assoc in Hi.
  pose proof (path_wf _ _ _ _ _ _ Hp) as Hw. inversion Hw as [|? ? Hne Hlen Hall]; subst. apply lookup_lt_Some in Hu as Hlt.
  cbn [next_leaf mk_internal]. destruct (Nat.ltb_spec i (length ts - 1)) as [Hlt'|Hge].
  - destruct (lookup_lt_is_Some_2 ts (S i)) as [v Hv]; [lia|]. rewrite Hv. cbn [mbind option_bind].
    assert (wf TREE_BASE k v) as Hwv by by apply (Forall_lookup_1 _ _ _ _ Hall Hv).
    destruct (leftmost_leaf_ok TREE_BASE (S (node_height v)) k v Hwv) as (xs & -> & Hxs & r & Hr); [rewrite (wf_height _ _ _ Hwv); lia|].
    cbn [mbind option_bind]. exists (Some (mk_leaf xs)), (content (drop (S i) ts) ++ rest). split; [done|]. split; [by rewrite Hi, <- !app_assoc|].
    exists xs. split; [done|]. split; [done|]. rewrite (drop_S_lookup ts (S i) v Hv), content_cons, Hr. by destruct xs.
  - exists o, rest. split; [exact Hn|]. rewrite (drop_ge ts (S i)) in Hi by lia. split; [by rewrite Hi, <- !app_assoc|done].
Qed.

Lemma prev_leaf_ok root k t st pre : path TREE_BASE root k t st pre → ∃ o, prev_leaf st = Some o ∧
  match o with Some l => ∃ xs, l = mk_leaf xs ∧ xs ≠ [] ∧ last xs = last pre | None => pre = [] end.
Proof.
  induction 1 as [k Hk|k ts i u st pre Hp (o & Hn & Ho) Hu]; [by exists None|].
  pose proof (path_wf _ _ _ _ _ _ Hp) as Hw. inversion Hw as [|? ? Hne Hlen Hall]; subst. apply lookup_lt_Some in Hu as Hlt.
  cbn [prev_leaf mk_internal]. destruct (Nat.eqb_spec i 0) as [->|Hi0]; cbn [negb].
  - exists o. split; [done|]. change (content (take 0 ts)) with (@nil T). by rewrite app_nil_r.
  - destruct (lookup_lt_is_Some_2 ts (i - 1)) as [v Hv]; [lia|]. rewrite Hv. cbn [mbind option_bind].
    assert (wf TREE_BASE k v) as Hwv by by apply (Forall_lookup_1 _ _ _ _ Hall Hv).
    destruct (rightmost_leaf_ok TREE_BASE (S (node_height v)) k v Hwv) as (xs & -> & Hxs & r & Hr); [rewrite (wf_height _ _ _ Hwv); lia|].
    cbn [mbind option_bind]. exists (Some (mk_leaf xs)). split; [done|]. exists xs. split; [done|]. split; [done|].
    replace i with (S (i - 1)) by lia. rewrite (content_at ts (i - 1) v Hv), Hr. destruct (nonempty_snoc xs Hxs) as (ys & y & ->). by rewrite !app_assoc, !last_snoc.
Qed.

Lemma walkable_tree t : walkable TREE_BASE t → wf_tree TREE_BASE t.
Proof. intros [->|(n & _ & H)]; [by left|right; eauto]. Qed.

Lemma standing_next t c before ahead : walkable TREE_BASE t → rests t c (Standing before ahead) → next_item c = Some (head (tail ahead)).
Proof.
  intros Hw (Ht & Hd & Hi & Hat & Hs). unfold next_item. rewrite Hd. destruct (stack c) as [|[u i q] ups] eqn:Est.
  - cbn in Hs. subst before. assert (ahead = []) as -> by (apply (app_inv_head (items t)); by rewrite app_nil_r).
    destruct Hat as [_ [(? & _)|(_ & -> & _)]]; [congruence|by rewrite Est].
  - destruct Hs as (xs & p & -> & Hlt & Hp & ->). cbn [mk_leaf]. destruct (next_leaf_ok _ _ _ _ _ Hp) as (o & rest & -> & Hr & Ho). cbn [mbind option_bind].
    rewrite Hr in Hi. cbn [items mk_leaf] in Hi. rewrite <- (take_drop i xs) in Hi at 1. rewrite <- !app_assoc in Hi. apply app_inv_head, app_inv_head in Hi as <-.
    destruct (lookup_lt_is_Some_2 xs i Hlt) as [x Hx]. rewrite (drop_S_lookup xs i x Hx). cbn [app tail].
    destruct (Nat.eqb_spec i (length xs - 1)) as [->|Hne].
    + rewrite drop_ge by lia. cbn [app]. destruct o as [l|]; [|by subst rest]. destruct Ho as (ys & -> & Hys & <-). cbn. by destruct ys.
    + destruct (lookup_lt_is_Some_2 xs (S i)) as [y Hy]; [lia|]. rewrite Hy, (drop_S_lookup xs (S i) y Hy). done.
Qed.

Lemma standing_prev t c before ahead : walkable TREE_BASE t → rests t c (Standing before ahead) → prev_item c = Some (last before).
Proof.
  intros Hw (Ht & Hd & Hi & Hat & Hs). unfold prev_item. rewrite Hd. destruct (stack c) as [|[u i q] ups] eqn:Est.
  - cbn in Hs. subst before. destruct Hat as [_ [(? & _)|(_ & -> & _)]]; [congruence|]. rewrite Est, Ht. f_equal. by apply (last_item_ok TREE_BASE), walkable_tree.
  - destruct Hs as (xs & p & -> & Hlt & Hp & ->). cbn [mk_leaf]. destruct (prev_leaf_ok _ _ _ _ _ Hp) as (o & -> & Ho). cbn [mbind option_bind].
    destruct (Nat.eqb_spec i 0) as [->|Hne].
    + rewrite take_0, app_nil_r. destruct o as [l|]; [|by subst p]. destruct Ho as (ys & -> & Hys & <-). cbn. destruct (nonempty_snoc ys Hys) as (zs & z & ->). by rewrite last_snoc.
    + destruct (lookup_lt_is_Some_2 xs (i - 1)) as [y Hy]; [lia|]. rewrite Hy. replace (take i xs) with (take (i - 1) xs ++ [y]); [by rewrite app_assoc, last_snoc|].
      rewrite <- (take_S_r xs (i - 1) y Hy). f_equal. lia.
Qed.

(** ** Moves in a row *)

Fixpoint run_cursor (ms : list Move) (c : Cursor) : option Cursor :=
  match ms with [] => Some c | m :: ms => c ← cursor_move m c; run_cursor ms c end.
Fixpoint run_place (l : list T) (ms : list Move) (pl : Place) : option Place :=
  match ms with [] => Some pl | m :: ms => pl ← place_move l m pl; run_place l ms pl end.

Lemma move_follows t c pl m : walkable TREE_BASE t → move_ok (items t) m → rests t c pl →
  match place_move (items t) m pl with
  | Some pl' => ∃ c', cursor_move m c = Some c' ∧ rests t c' pl'
  | None => cursor_move m c = None
  end.
Proof.
  intros Hw Hm Hc. pose proof (rests_tree _ _ _ Hc) as Ht.
  destruct m as [|target bias|target bias|f|f]; cbn [place_move cursor_move move_ok] in *.
  - eexists. split; [done|]. cbn. unfold Cursor.reset. by rewrite Ht.
  - unfold seek, Cursor.reset. rewrite Ht. pose proof (seek_place t (cursor_new t) [] (items t) target bias Hw (or_introl (conj eq_refl (conj eq_refl eq_refl))) Hm) as H.
    unfold seek_forward in H. destruct (place_seek target bias [] (items t)) as [pl'|].
    + destruct H as (c' & b & E & H). exists c'. split; [|done]. destruct (seek_internal _ _ _ _ _) as [[[? ?] ?]|]; [|done]. by injection E as -> ->.
    + destruct (seek_internal _ _ _ _ _) as [[[? ?] ?]|]; done.
  - destruct pl as [| |before ahead|].
    + pose proof (seek_place t c [] (items t) target bias Hw (or_introl (conj Hc (conj eq_refl eq_refl))) Hm) as H.
      destruct (place_seek target bias [] (items t)) as [pl'|]; [|by rewrite H]. destruct H as (c' & b & -> & H). eauto.
    + destruct Hc as [-> _]. pose proof (seek_nowhere t target bias false) as H. cbn zeta in H. destruct (target dzero); [|by rewrite H|]; destruct H as [b ->]; by eexists.
    + pose proof (seek_place t c before ahead target bias Hw (or_intror Hc) Hm) as H.
      destruct (place_seek target bias before ahead) as [pl'|]; [|by rewrite H]. destruct H as (c' & b & -> & H). eauto.
    + rewrite Hc. pose proof (seek_nowhere t target bias true) as H. cbn zeta in H. destruct (target dzero); [|by rewrite H|]; destruct H as [b ->]; by eexists.
  - destruct pl as [| |before ahead|].
    + cbn in Hc. rewrite Hc. apply (forward_place t (cursor_new t) [] (items t) f Hw Hm). by left.
    + destruct Hc as [-> Hne]. rewrite forward_from_front by done. apply (forward_place t (cursor_new t) [] (items t) f Hw Hm). by left.
    + pose proof (forward_place t c before ahead f Hw Hm (or_intror Hc)) as H. destruct Hc as (_ & Hd & _). rewrite Hd in H.
      destruct ahead as [|x ahead]; [|exact H]. unfold stand in H. cbn [lskip fst snd] in H. rewrite app_nil_r in H. exact H.
    + rewrite Hc. by eexists.
  - destruct pl as [| |before ahead|].
    + cbn in Hc. rewrite Hc in *. apply backward_from_end; try done. by left.
    + destruct Hc as [-> Hne]. by eexists.
    + by apply backward_place.
    + rewrite Hc. apply backward_from_end; try done. by right.
Qed.

Lemma moves_follow t ms c pl : walkable TREE_BASE t → Forall (move_ok (items t)) ms → rests t c pl →
  match run_place (items t) ms pl with
  | Some pl' => ∃ c', run_cursor ms c = Some c' ∧ rests t c' pl'
  | None => run_cursor ms c = None
  end.
Proof.
  intros Hw Hms. revert c pl. induction Hms as [|m ms Hm Hms IH]; intros c pl Hc; cbn [run_place run_cursor]; [eauto|].
  pose proof (move_follows t c pl m Hw Hm Hc) as H. destruct (place_move (items t) m pl) as [pl'|]; cbn [mbind option_bind].
  - destruct H as (c' & -> & H). by apply IH.
  - by rewrite H.
Qed.

(** What a cursor shows at a place. *)
Lemma rests_shows t c pl : walkable TREE_BASE t → rests t c pl →
  start c = place_position pl ∧ cursor_item c = place_item pl ∧
  cursor_end c = (it ← place_item pl; Some match it with Some x => dadd (place_position pl) (summary x) | None => place_position pl end) ∧
  next_item c = place_next_item (items t) pl ∧ prev_item c = place_prev_item (items t) pl.
Proof.
  intros Hw Hc. destruct pl as [| |before ahead|].
  - by rewrite Hc.
  - destruct Hc as [-> _]. split_and!; try done. unfold next_item. cbn. f_equal. by apply (first_item_ok TREE_BASE), walkable_tree.
  - pose proof Hc as (Ht & Hd & Hi & Hat & Hs). split_and!.
    + apply (proj1 Hat).
    + by apply (cursor_at_item TREE_BASE c (dpos dzero before) ahead).
    + rewrite (cursor_at_end TREE_BASE c (dpos dzero before) ahead Hat Hd). by destruct ahead.
    + by eapply standing_next.
    + by eapply standing_prev.
  - rewrite Hc. split_and!; try done. unfold prev_item. cbn. f_equal. by apply (last_item_ok TREE_BASE), walkable_tree.
Qed.

(** C22: A cursor is a place in the sequence of items: under any resets, seeks from
    the start or from where it is, and forward or backward searches, over a tree
    of any shape, it panics exactly when it would seek to a target behind it,
    and otherwise its position, its item, the end of it and the items next to
    it are those of the place the moves lead to.  In particular [seek_forward]
    on a cursor that was not sought before does not panic, although its
    documentation says that it does: it seeks from the start. *)
Theorem cursor_follows_place t ms : walkable TREE_BASE t → Forall (move_ok (items t)) ms →
  match run_place (items t) ms Fresh with
  | None => run_cursor ms (cursor_new t) = None
  | Some pl => ∃ c, run_cursor ms (cursor_new t) = Some c ∧
      start c = place_position pl ∧ cursor_item c = place_item pl ∧
      cursor_end c = (it ← place_item pl; Some match it with Some x => dadd (place_position pl) (summary x) | None => place_position pl end) ∧
      next_item c = place_next_item (items t) pl ∧ prev_item c = place_prev_item (items t) pl
  end.
Proof.
  intros Hw Hms. pose proof (moves_follow t ms (cursor_new t) Fresh Hw Hms eq_refl) as H.
  destruct (run_place (items t) ms Fresh) as [pl|]; [|done]. destruct H as (c & -> & Hc). exists c. split; [done|]. by apply rests_shows.
Qed.

End moves.

(** ** Witnesses *)

Module MovesExamples.
Import Counting Seeking.
#[local] Existing Instance nat_Dimension.

(** To the fourth item, back off the front of the sequence, forward to the
    third item and back by one. *)
Definition back : Move (Sm:=nat) (D:=nat) := MSearchBackward (λ _, true).
Definition tour : list (Move (Sm:=nat) (D:=nat)) :=
  [MSeek (nth_target 3) Right; back; back; back; back; MSearchForward (λ _, true); MSeekForward (nth_target 2) Right; back].

Lemma tour_ok : Forall (move_ok (items t5)) tour.
Proof.
  repeat (apply Forall_cons_2); [..|by apply Forall_nil_2]; try (by intros ? ? ?); intros l1 l2 l3 Hl Hne; by eapply nth_monotone.
Defined.

(** Seeking forward from before the first item finds nothing. *)
Example lost_at_front : run_place (items t5) [MSeek (nth_target 0) Right; back; MSeekForward (nth_target 2) Right] Fresh = Some (Lost : Place (T:=Z)).
Proof. vm_compute. reflexivity. Qed.

Example cursor_follows_place_witness : ∃ c, run_cursor tour (cursor_new t5) = Some c ∧
  start c = 1 ∧ cursor_item c = Some (Some 20%Z) ∧ cursor_end c = Some 2 ∧ next_item c = Some (Some 30%Z) ∧ prev_item c = Some (Some 10%Z).
Proof. exact (cursor_follows_place 2 t5 tour t5_walkable tour_ok). Defined.
End MovesExamples.
