(* ===== verification/CursorIter.v ===== *)
(** * Iterating over a tree ([crates/sum_tree/src/cursor.rs])

    [Iter], which walks a tree without positions, and [FilterCursor], a cursor
    that only stops at the items a filter accepts: collecting either gives the
    items of the tree, or the accepted ones, in order. *)

From S2P Require Import Prelude SumTree Cursor Search CursorBack CursorMoves.

Section iter.
Context `{HS : Summary Sm} `{HI : Item T Sm} `{HD : !Dimension D Sm}.
Context (TREE_BASE : nat).
Implicit Types t u : Node T Sm.
Abbreviation Cursor := (@Cursor Sm T D).

(** ** [Iter] *)

Record Iter := mkIter { iter_tree : Node T Sm; iter_stack : list (Node T Sm * nat) }.
Definition iter_new t : Iter := mkIter t [].

Definition iter_push (e : Node T Sm * nat) (s : list (Node T Sm * nat)) : option (list (Node T Sm * nat)) :=
  if length s <? STACK_CAPACITY then Some (e :: s) else None.

Fixpoint iter_loop (fuel : nat) (descend : bool) (st : list (Node T Sm * nat)) : option (option T * list (Node T Sm * nat)) :=
  match fuel with
  | O => None
  | S fuel =>
    match st with
    | [] => Some (None, [])
    | (t, index) :: rest =>
        let index := if descend then index else S index in
        match t with
        | Internal _ _ _ child_trees =>
            match child_trees !! index with
            | Some subtree => st ← iter_push (subtree, 0) ((t, index) :: rest); iter_loop fuel true st
            | None => iter_loop fuel false rest
            end
        | Leaf _ items_ _ =>
            match items_ !! index with
            | Some next_item => Some (Some next_item, (t, index) :: rest)
            | None => iter_loop fuel false rest
            end
        end
    end
  end.
Definition iter_fuel (st : list (Node T Sm * nat)) : nat := 2 * sum_list (map (λ e, node_count e.1) st) + 1.
Definition tree_iter_next (it : Iter) : option (option T * Iter) :=
  '(st, descend) ← (match iter_stack it with [] => st ← iter_push (iter_tree it, 0) []; Some (st, true) | st => Some (st, false) end);
  '(x, st) ← iter_loop (iter_fuel st) descend st;
  Some (x, mkIter (iter_tree it) st).
(** [last] and [size_hint]. *)
Definition iter_last (it : Iter) : option T :=
  l ← rightmost_leaf (S (node_height (iter_tree it))) (iter_tree it); xs ← node_items l; last xs.
Definition iter_size_hint (it : Iter) : nat :=
  match iter_stack it with (t, index) :: _ => length (node_child_summaries t) - index | [] => length (node_child_summaries (iter_tree it)) end.

(** A [for] loop that collects. *)
Fixpoint iter_collect (fuel : nat) (it : Iter) : option (list T * Iter) :=
  match fuel with
  | O => None
  | S fuel =>
      '(x, it) ← tree_iter_next it;
      match x with
      | Some x => '(l, it) ← iter_collect fuel it; Some (x :: l, it)
      | None => Some ([], it)
      end
  end.

(** ** [FilterCursor] *)

Record FilterCursor := mkFilterCursor { fc_cursor : Cursor; fc_filter : Sm → bool }.
Definition filter_cursor_new t (filter_node : Sm → bool) : FilterCursor := mkFilterCursor (cursor_new t) filter_node.
Definition fc_start (c : FilterCursor) : D := start (fc_cursor c).
Definition fc_end (c : FilterCursor) : option D := cursor_end (fc_cursor c).
Definition fc_item (c : FilterCursor) : option (option T) := cursor_item (fc_cursor c).
Definition fc_item_summary (c : FilterCursor) : option (option Sm) := item_summary (fc_cursor c).
Definition fc_next (c : FilterCursor) : option FilterCursor :=
  c' ← search_forward (fc_filter c) (fc_cursor c); Some (mkFilterCursor c' (fc_filter c)).
Definition fc_prev (c : FilterCursor) : option FilterCursor :=
  c' ← search_backward (fc_filter c) (fc_cursor c); Some (mkFilterCursor c' (fc_filter c)).
Definition fc_iter_next (c : FilterCursor) : option (option T * FilterCursor) :=
  c ← (if did_seek (fc_cursor c) then Some c else fc_next c);
  it ← fc_item c;
  match it with
  | Some x => c ← fc_next c; Some (Some x, c)
  | None => Some (None, c)
  end.
Fixpoint fc_collect (fuel : nat) (c : FilterCursor) : option (list T) :=
  match fuel with
  | O => None
  | S fuel =>
      '(x, c) ← fc_iter_next c;
      match x with Some x => l ← fc_collect fuel c; Some (x :: l) | None => Some [] end
  end.

(** ** An iterator is a cursor without positions *)

Definition erase (st : list (@StackEntry Sm T D)) : list (Node T Sm * nat) := (λ e, (entry_tree e, entry_index e)) <$> st.
Definition lean (st : list (@StackEntry Sm T D)) : Prop := Forall (λ e, ∃ k, wf TREE_BASE k (entry_tree e)) st.
Definition top_item (st : list (@StackEntry Sm T D)) : option T :=
  match st with e :: _ => match entry_tree e with Leaf _ xs _ => xs !! entry_index e | _ => None end | [] => None end.

Lemma skip_none i pos q ss : skip_children (D:=D) (λ _ : Sm, true) i pos q ss = (i, pos, q).
Proof. by destruct ss. Qed.

Lemma erase_push e st st' : stack_push e st = Some st' → iter_push (entry_tree e, entry_index e) (erase st) = Some (erase st') ∧ st' = e :: st.
Proof. unfold stack_push, iter_push, erase. rewrite length_fmap. destruct (_ <? _); [|done]. by intros [= <-]. Qed.

Lemma iter_simulates fuel descend pos st pos' st' : lean st →
  search_forward_loop fuel (λ _, true) descend pos st = Some (pos', st') →
  iter_loop fuel descend (erase st) = Some (top_item st', erase st') ∧ lean st'.
Proof.
  revert descend pos st. induction fuel as [|fuel IH]; intros descend pos st Hl H; [done|].
  destruct st as [|[t i q] rest]; [by injection H as <- <-|]. pose proof Hl as Hl'. apply Forall_cons in Hl as [[k Ht] Hrest]. cbn in Ht.
  cbn [erase fmap list_fmap iter_loop entry_tree entry_index]. change (list_fmap _ _ _ rest) with (erase rest).
  inversion Ht as [xs Hne Hlen|k' ts Hne Hlen Hall]; subst; cbn [search_forward_loop mk_leaf mk_internal] in H |- *.
  - destruct descend; cbn [mbind option_bind] in H.
    + rewrite skip_none, length_fmap in H. destruct (Nat.ltb_spec i (length xs)) as [Hlt|Hge].
      * injection H as <- <-. destruct (lookup_lt_is_Some_2 xs i Hlt) as [x Hx]. rewrite Hx. cbn. by rewrite Hx.
      * rewrite (lookup_ge_None_2 xs i) by done. by eapply IH.
    + destruct ((summary <$> xs) !! i) as [s|]; [|done]. cbn [mbind option_bind] in H. rewrite skip_none, length_fmap in H.
      destruct (Nat.ltb_spec (S i) (length xs)) as [Hlt|Hge].
      * injection H as <- <-. destruct (lookup_lt_is_Some_2 xs (S i) Hlt) as [x Hx]. rewrite Hx. cbn. rewrite Hx. split; [done|].
        apply Forall_cons. split; [by exists 0|done].
      * rewrite (lookup_ge_None_2 xs (S i)) by done. by eapply IH.
  - set (o := if descend then i else S i) in *.
    assert (∃ q', (if descend then (i, q) else (S i, pos)) = (o, q')) as [q' E] by (unfold o; destruct descend; eauto). rewrite E, skip_none in H.
    destruct (ts !! o) as [u|] eqn:Hu.
    + destruct (stack_push _ _) as [st1|] eqn:Ep; [|done]. apply erase_push in Ep as [Ep ->]. cbn [entry_tree entry_index erase fmap list_fmap] in Ep.
      change (list_fmap _ _ _ rest) with (erase rest) in Ep. rewrite Ep. cbn [mbind option_bind] in H |- *. refine (IH true pos _ _ H).
      apply Forall_cons. split; [exists k'; by apply (Forall_lookup_1 _ _ _ _ Hall Hu)|]. apply Forall_cons. split; [by exists (S k')|done].
    + by eapply IH.
Qed.

Lemma iter_fuel_erase st : iter_fuel (erase st) = search_fuel st.
Proof. unfold iter_fuel, search_fuel, erase. induction st as [|e st IH]; [done|]. cbn in *. lia. Qed.

Lemma standing_lean t c before ahead : rests TREE_BASE t c (Standing before ahead) → lean (stack c).
Proof.
  intros (_ & _ & _ & _ & Hs). destruct (stack c) as [|[u i q] ups]; [by constructor|]. destruct Hs as (xs & p & -> & _ & Hp & _).
  apply Forall_cons. split; [exists 0; by eapply path_wf|]. clear -Hp.
  induction Hp as [k Hk|k ts j u st pre Hp IH Hu]; [by constructor|]. apply Forall_cons. split; [exists (S k); by eapply path_wf|done].
Qed.

Lemma standing_top t c before ahead : rests TREE_BASE t c (Standing before ahead) → top_item (stack c) = head ahead.
Proof.
  intros (_ & Hd & _ & Hat & Hs). pose proof (cursor_at_item TREE_BASE c _ ahead Hat Hd) as H. unfold cursor_item in H. rewrite Hd in H.
  destruct (stack c) as [|[[|] i q] ups]; [by injection H as <-|done|by injection H as <-].
Qed.

Lemma standing_end t c before ahead : rests TREE_BASE t c (Standing before ahead) → ahead = [] ↔ stack c = [].
Proof.
  intros (_ & Hd & Hi & Hat & Hs). split.
  - intros ->. destruct Hat as [_ [(? & _)|(_ & _ & n & _ & Hsk)]]; [congruence|]. destruct (stack c) as [|[u i q] ups]; [done|].
    destruct Hsk as (xs & rest & -> & Hlt & _ & _ & E). apply (f_equal length) in E. rewrite length_app, length_drop in E. cbn in E. lia.
  - intros E. rewrite E in Hs. cbn in Hs. subst before. apply (app_inv_head (items t)). by rewrite app_nil_r.
Qed.
End iter.

#[local, refine] Instance unit_Dimension `{Summary Sm} : Dimension () Sm := {| dzero := (); dadd := λ _ _, () |}.
Proof. all: done. Defined.

Section collect.
Context `{HS : Summary Sm} `{HI : Item T Sm}.
Context (TREE_BASE : nat).
Implicit Types t u : Node T Sm.
Abbreviation UCursor := (@Cursor Sm T ()).

Lemma iter_step t (c : UCursor) before x ahead : walkable TREE_BASE t → rests TREE_BASE t c (Standing before (x :: ahead)) →
  ∃ c' : UCursor, tree_iter_next (mkIter t (erase (stack c))) = Some (head ahead, mkIter t (erase (stack c'))) ∧ rests TREE_BASE t c' (Standing (before ++ [x]) ahead).
Proof.
  intros Hw Hc. pose proof (forward_place TREE_BASE t c before (x :: ahead) (λ _, true) Hw ltac:(by intros ? ?) (or_intror Hc)) as H.
  rewrite (proj1 (proj2 Hc)) in H. destruct H as (c' & E & Hc'). unfold stand in Hc'. rewrite lskip_true in Hc'. cbn [fst snd] in Hc'. rewrite app_nil_r in Hc'.
  exists c'. split; [|done].
  destruct (stack c) as [|e st] eqn:Est; [by apply (standing_end TREE_BASE t c before (x :: ahead) Hc) in Est|].
  pose proof (standing_lean TREE_BASE t c _ _ Hc) as Hl. rewrite Est in Hl. unfold search_forward in E. rewrite Est in E. cbn [mbind option_bind] in E.
  destruct (search_forward_loop _ _ _ _ _) as [[pos' st']|] eqn:Hloop; [|done]. injection E as <-. cbn [stack].
  destruct (iter_simulates TREE_BASE _ _ _ _ _ _ Hl Hloop) as [Hi _].
  change (tree_iter_next (mkIter t (erase (e :: st)))) with ('(y, st') ← iter_loop (iter_fuel (erase (e :: st))) false (erase (e :: st)); Some (y, mkIter t st')).
  rewrite iter_fuel_erase, Hi. cbn [mbind option_bind]. pose proof (standing_top TREE_BASE _ _ _ _ Hc') as Htop. cbn [stack] in Htop. by rewrite Htop.
Qed.

Lemma iter_first t : walkable TREE_BASE t → t ≠ new →
  ∃ c' : UCursor, tree_iter_next (iter_new t) = Some (head (items t), mkIter t (erase (stack c'))) ∧ rests TREE_BASE t c' (Standing [] (items t)).
Proof.
  intros Hw Hne. destruct (forward_place TREE_BASE t (cursor_new t : UCursor) [] (items t) (λ _, true) Hw ltac:(by intros ? ?)) as (c' & E & Hc'); [by left|].
  unfold stand in Hc'. rewrite lskip_true in Hc'. cbn [fst snd app] in Hc'. exists c'. split; [|done].
  assert (∃ k, wf TREE_BASE k t) as [k Hk] by (destruct Hw as [?|(k & _ & ?)]; [done|eauto]).
  unfold search_forward in E. cbn [stack at_end cursor_new tree position] in E. rewrite (wf_not_empty TREE_BASE k t Hk), stack_push_nil in E. cbn [mbind option_bind] in E.
  destruct (search_forward_loop _ _ _ _ _) as [[pos' st']|] eqn:Hloop; [|done]. injection E as <-. cbn [stack].
  destruct (iter_simulates TREE_BASE _ _ _ [mkEntry t 0 (dzero : ())] _ _ ltac:(apply Forall_singleton; by exists k) Hloop) as [Hi _].
  unfold tree_iter_next. cbn [iter_stack iter_tree iter_new]. change (iter_push (t, 0) []) with (Some (erase [mkEntry t 0 (dzero : ())])). cbn [mbind option_bind].
  rewrite iter_fuel_erase, Hi. cbn [mbind option_bind]. pose proof (standing_top TREE_BASE _ _ _ _ Hc') as Htop. cbn [stack] in Htop. by rewrite Htop.
Qed.

Lemma collect_ahead fuel t (c : UCursor) before x ahead : walkable TREE_BASE t → rests TREE_BASE t c (Standing before (x :: ahead)) → length ahead < fuel →
  iter_collect fuel (mkIter t (erase (stack c))) = Some (ahead, iter_new t).
Proof.
  intros Hw. revert c before x ahead. induction fuel as [|fuel IH]; intros c before x ahead Hc Hf; [lia|].
  destruct (iter_step t c before x ahead Hw Hc) as (c' & E & Hc'). cbn [iter_collect]. rewrite E. cbn [mbind option_bind].
  destruct ahead as [|y ahead]; cbn [head].
  - apply (standing_end TREE_BASE) in Hc' as [Hc' _]. by rewrite Hc'.
  - rewrite (IH c' (before ++ [x]) y ahead Hc') by (cbn in Hf; lia). done.
Qed.

Lemma iter_collects t : walkable TREE_BASE t → iter_collect (S (length (items t))) (iter_new t) = Some (items t, iter_new t).
Proof.
  intros Hw. destruct (decide (items t = [])) as [E|Hne].
  { assert (t = new) as -> by (eapply wf_tree_items_nil; [by apply walkable_tree|done]). done. }
  assert (t ≠ new) as Hn by (intros ->; done). destruct (iter_first t Hw Hn) as (c & E & Hc). cbn [iter_collect]. rewrite E. cbn [mbind option_bind].
  destruct (items t) as [|x l] eqn:Ei; [done|]. cbn [head length]. rewrite (collect_ahead _ t c [] x l Hw Hc) by lia. done.
Qed.

Lemma iter_last_ok t st : walkable TREE_BASE t → iter_last (mkIter t st) = last (items t).
Proof. intros Hw. apply (last_item_ok TREE_BASE t). by apply walkable_tree. Qed.
End collect.

(** ** Filtered cursors *)

Section filtered.
Context `{HS : Summary Sm} `{HI : Item T Sm} `{HD : !Dimension D Sm}.
Context (TREE_BASE : nat) (f : Sm → bool) (Hf : filter_sound f).
Implicit Types t u : Node T Sm.
Abbreviation accepted := (filter (λ x : T, f (summary x) = true)).

Lemma lskip_accepted d l : let '(_, _, r) := lskip (D:=D) f d l in accepted l = accepted r ∧ match r with x :: _ => f (summary x) = true | [] => True end.
Proof using.
  pose proof (lskip_split f d l) as H. destruct (lskip f d l) as [[sk d'] r]. destruct H as (-> & _ & Hr & Hx). split.
  - rewrite filter_app. clear Hx. induction Hr as [|x sk Hx Hr IH]; [done|]. rewrite filter_cons_False; [done|]. by rewrite Hx.
  - destruct r; [done|]. by eapply Hx.
Qed.

(** A filtered cursor at an accepted item, or at the end. *)
Definition fc_at t (c : @FilterCursor Sm T D) (before ahead : list T) : Prop :=
  rests TREE_BASE t (fc_cursor c) (Standing before ahead) ∧ fc_filter c = f ∧ match ahead with x :: _ => f (summary x) = true | [] => True end.

Lemma fc_next_fresh t : walkable TREE_BASE t → ∃ c before ahead, fc_next (filter_cursor_new t f) = Some c ∧ fc_at t c before ahead ∧ accepted ahead = accepted (items t).
Proof using Hf.
  intros Hw. destruct (forward_place TREE_BASE t (cursor_new t) [] (items t) f Hw Hf) as (c & E & Hc); [by left|]. unfold fc_next. cbn [fc_filter fc_cursor filter_cursor_new].
  rewrite E. cbn [mbind option_bind]. pose proof (lskip_accepted (dpos dzero []) (items t)) as Hl. unfold stand in Hc.
  destruct (lskip _ _ _) as [[sk d'] r]. destruct Hl as [Hl Hx]. eexists _, _, _. split; [done|]. split; [by split; [exact Hc|split]|done].
Qed.
Lemma fc_next_standing t c before x ahead : walkable TREE_BASE t → fc_at t c before (x :: ahead) →
  ∃ c' before' ahead', fc_next c = Some c' ∧ fc_at t c' before' ahead' ∧ accepted ahead' = accepted ahead ∧ length ahead' ≤ length ahead.
Proof using Hf.
  intros Hw (Hc & Ef & _). pose proof (forward_place TREE_BASE t (fc_cursor c) before (x :: ahead) f Hw Hf (or_intror Hc)) as H.
  destruct Hc as (_ & Hd & _). rewrite Hd in H. destruct H as (c' & E & Hc'). unfold fc_next. rewrite Ef, E. cbn [mbind option_bind].
  pose proof (lskip_accepted (dpos dzero (before ++ [x])) ahead) as Hl. pose proof (lskip_split f (dpos dzero (before ++ [x])) ahead) as Hs. unfold stand in Hc'.
  destruct (lskip _ _ _) as [[sk d'] r]. destruct Hl as [Hl Hx]. destruct Hs as (-> & _). eexists _, _, _. split; [done|]. split; [by split; [exact Hc'|split]|].
  split; [done|]. cbn. rewrite length_app. lia.
Qed.

Lemma fc_collect_standing fuel t c before ahead : walkable TREE_BASE t → fc_at t c before ahead → length ahead < fuel →
  fc_collect fuel c = Some (accepted ahead).
Proof using Hf.
  intros Hw. revert c before ahead. induction fuel as [|fuel IH]; intros c before ahead Hc Hl; [lia|]. pose proof Hc as (Hr & Ef & Hx).
  pose proof Hr as (_ & Hd & _ & Hat & _). cbn [fc_collect]. unfold fc_iter_next. rewrite Hd. cbn [mbind option_bind]. unfold fc_item.
  rewrite (cursor_at_item TREE_BASE _ _ ahead Hat Hd). cbn [mbind option_bind]. destruct ahead as [|x ahead]; [done|]. cbn [head].
  destruct (fc_next_standing t c before x ahead Hw Hc) as (c' & b' & a' & -> & Hc' & Ha & Hle). cbn [mbind option_bind].
  rewrite (IH c' b' a' Hc') by (cbn in Hl; lia). cbn [mbind option_bind]. by rewrite filter_cons_True, Ha.
Qed.

Lemma fc_collects t : walkable TREE_BASE t → fc_collect (S (length (items t))) (filter_cursor_new t f) = Some (accepted (items t)).
Proof using Hf.
  intros Hw. destruct (fc_next_fresh t Hw) as (c & before & ahead & E & Hc & Ha).
  assert (fc_collect (S (length (items t))) (filter_cursor_new t f) = fc_collect (S (length (items t))) c) as ->.
  { cbn [fc_collect]. unfold fc_iter_next. cbn [fc_cursor filter_cursor_new cursor_new did_seek]. rewrite E.
    destruct Hc as [(_ & Hd & _) _]. rewrite Hd. done. }
  rewrite (fc_collect_standing _ t c before ahead Hw Hc); [by rewrite Ha|]. destruct Hc as [(_ & _ & Hi & _) _]. rewrite Hi, length_app. lia.
Qed.
End filtered.

(** C24: Iterating over a tree hands out its items in order and leaves the iterator
    where it began; iterating with a filtered cursor hands out exactly the items
    the filter accepts, although it only looks into subtrees whose summaries
    are accepted. *)
Theorem iteration_exact `{HS : Summary Sm} `{HI : Item T Sm} `{HD : !Dimension D Sm} TREE_BASE (t : Node T Sm) (f : Sm → bool) :
  walkable TREE_BASE t → filter_sound f →
  iter_collect (S (length (items t))) (iter_new t) = Some (items t, iter_new t) ∧
  iter_last (iter_new t) = last (items t) ∧
  fc_collect (S (length (items t))) (filter_cursor_new (D:=D) t f) = Some (filter (λ x, f (summary x) = true) (items t)).
Proof.
  intros Hw Hf. split; [by apply (iter_collects TREE_BASE)|]. split; [by apply (iter_last_ok TREE_BASE)|by apply (fc_collects TREE_BASE)].
Qed.

Module IterExamples.
Import Counting Seeking.
#[local] Existing Instance nat_Dimension.

Example iteration_exact_witness :
  iter_collect 6 (iter_new t5) = Some (items t5, iter_new t5) ∧ iter_last (iter_new t5) = last (items t5) ∧
  fc_collect 6 (filter_cursor_new (D:=nat) t5 (λ n, 0 <? n)) = Some (filter (λ x, (0 <? summary x) = true) (items t5)).
Proof.
  apply (iteration_exact 2 t5 (λ n, 0 <? n)); [apply t5_walkable|].
  intros l Hl Hs. exfalso. destruct l as [|x l]; [done|]. revert Hs. rewrite fmap_cons, sum_cons. generalize (summary <$> l). intros ss.
  assert (∀ n, 1 ≤ n → 1 ≤ foldl add n ss) as H by (clear; induction ss as [|s ss IH]; intros n Hn; [done|]; cbn; apply IH; lia).
  specialize (H (summary x) (le_n 1)). destruct (foldl add (summary x) ss); [lia|done].
Defined.
End IterExamples.
