(* ===== verification/TreeSet.v ===== *)
(** * [TreeSet] and [TreeMap::closest] ([crates/sum_tree/src/tree_map.rs])

    A set is a map to the unit value.  [closest] seeks past a key and steps
    back. *)

From S2P Require Import Prelude SumTree Cursor Search KeyedTree TreeMap CursorBack CursorMoves.
Local Open Scope ord_scope.
#[local] Existing Instances MapKey_Summary MapEntry_Item MapKey_Dimension MapEntry_KeyedItem.

Section closest.
Context {K V : Type} `{HO : !Ord K}.
Context (TREE_BASE : nat).
Abbreviation TreeMap := (Node (MapEntry K V) (option K)).
Implicit Types m : TreeMap.

Definition closest m (k : K) : option (option (K * V)) :=
  '(c, _) ← seek (cmp (Some k)) Right (cursor_new m : @Cursor (option K) (MapEntry K V) (option K));
  c ← prev c;
  it ← cursor_item c;
  Some (fmap (M:=option) (λ e, (entry_key e, entry_value e)) it).

Definition values m : list V := entry_value <$> items m.
Definition map_clear m : TreeMap := new.

(** ** What it finds *)

Lemma past_right (c : comparison) : past c Right = true ↔ c ≠ Lt.
Proof using. by destruct c. Qed.

Lemma key_monotone_right (l : list (MapEntry K V)) k : ksorted l → monotone (λ p, past (cmp (Some k) p) Right) dzero l.
Proof using.
  intros Hs l1 l2 l3 -> _. rewrite !past_right, dpos_app. intros Hle Hlt. apply Hle. clear Hle.
  eapply cmp_lt_le_trans; [exact Hlt|]. rewrite app_assoc in Hs. apply ksorted_app in Hs as (Hs & _).
  pose proof (below_none (l1 ++ l2)) as Hb. apply ksorted_app in Hs as (Hs1 & Hs2 & Hs3).
  apply dpos_ge; [apply dpos_below|]; [done|by apply ksorted_app|done].
Qed.

Lemma dpos_key (d : option K) (l : list (MapEntry K V)) x : dpos d (l ++ [x]) = Some (entry_key x).
Proof using. by rewrite dpos_app. Qed.

(** Seeking past a key cuts a sorted map behind it. *)
Lemma seek_past_key (l : list (MapEntry K V)) k : ksorted l →
  let '(sk, _, r) := lseek (λ p, past (cmp (Some k) p) Right) dzero l in
  l = sk ++ r ∧ Forall (λ e, entry_key e ≼ k) sk ∧ Forall (λ e, k ≺ entry_key e) r.
Proof using.
  intros Hs. pose proof (lseek_split (λ p, past (cmp (Some k) p) Right) dzero l) as Hsp.
  pose proof (lseek_passed (λ p, past (cmp (Some k) p) Right) dzero l) as Hp.
  destruct (lseek _ dzero l) as [[sk d'] r]. destruct Hsp as (-> & _ & Hr). split; [done|]. split.
  - apply Forall_forall. intros e He. apply list_elem_of_split in He as (l1 & l2 & ->). specialize (Hp l1 e l2 eq_refl).
    rewrite dpos_key, past_right in Hp. by rewrite <- cmp_not_lt_le.
  - destruct r as [|x r]; [constructor|]. specialize (Hr x r eq_refl). apply ksorted_app in Hs as (_ & Hs & _). apply StronglySorted_inv in Hs as [_ Hx].
    assert (k ≺ entry_key x) as Hgt.
    { change (dadd d' (summary x)) with (Some (entry_key x)) in Hr. by destruct (cmp (Some k) (Some (entry_key x))) eqn:E. }
    apply Forall_cons. split; [done|]. eapply Forall_impl; [exact Hx|]. intros e He. by eapply cmp_lt_trans.
Qed.

Lemma step_back_any (before ahead : list (MapEntry K V)) : place_item (step_back (λ _, true) before ahead) = Some (last before).
Proof using.
  unfold step_back. destruct (last before) as [x|] eqn:E.
  - apply last_Some in E as [l ->]. rewrite last_accepted_snoc by done. done.
  - apply last_None in E as ->. cbn. by destruct ahead.
Qed.

(** The entry with the greatest key up to the given one. *)
Theorem closest_is_floor m k : walkable TREE_BASE m → ksorted (items m) →
  closest m k = Some ((λ e, (entry_key e, entry_value e)) <$> last (filter (λ e, entry_key e ≼ k) (items m))).
Proof using.
  intros Hw Hs. unfold closest.
  pose proof (seek_place TREE_BASE m (cursor_new m) [] (items m) (cmp (Some k)) Right Hw (or_introl (conj eq_refl (conj eq_refl eq_refl))) (key_monotone_right _ k Hs)) as Hm.
  pose proof (seek_past_key (items m) k Hs) as Hk. unfold place_seek in Hm. change (dpos dzero []) with (None : option K) in Hm.
  change (cmp (Some k) None) with Gt in Hm. cbn match in Hm. change (dzero : option K) with (None : option K) in Hk.
  destruct (lseek _ None (items m)) as [[sk d'] r]. destruct Hk as (Hi & Hsk & Hr). destruct Hm as (c & b & E & Hc).
  rewrite seek_new, E. cbn [mbind option_bind]. unfold stand in Hc. cbn [fst snd app] in Hc. clear E.
  destruct (backward_place TREE_BASE m c sk r (λ _, true) Hw ltac:(by intros ? ?) Hc) as (c' & E & Hc'). unfold prev. rewrite E. cbn [mbind option_bind].
  destruct (rests_shows TREE_BASE m c' _ Hw Hc') as (_ & -> & _). rewrite step_back_any. cbn [mbind option_bind]. do 2 f_equal. rewrite Hi, filter_app.
  assert (filter (λ e, entry_key e ≼ k) sk = sk) as -> by (clear -Hsk; induction Hsk as [|x l Hx Hl IH]; [done|]; by rewrite filter_cons_True, IH).
  assert (filter (λ e, entry_key e ≼ k) r = []) as ->; [|by rewrite app_nil_r].
  clear -Hr. induction Hr as [|x l Hx Hl IH]; [done|]. rewrite filter_cons_False; [done|]. by rewrite cmp_not_le_lt.
Qed.
End closest.

(** ** Sets *)

Section set.
Context {K : Type} `{HO : !Ord K}.
Context (TREE_BASE : nat).
Abbreviation TreeSet := (Node (MapEntry K ()) (option K)).
Implicit Types s : TreeSet.

Definition set_from_ordered_entries (entries : list K) : TreeSet := from_ordered_entries TREE_BASE ((λ key, (key, ())) <$> entries).
Definition set_is_empty s : bool := map_is_empty s.
Definition set_insert s (key : K) : option TreeSet := map_insert TREE_BASE s key ().
Definition set_remove s (key : K) : option (bool * TreeSet) :=
  '(o, s) ← map_remove TREE_BASE s key; Some (match o with Some _ => true | None => false end, s).
Definition set_extend s (l : list K) : option TreeSet := map_extend TREE_BASE s ((λ key, (key, ())) <$> l).
Definition set_contains s (key : K) : option bool := o ← map_get s key; Some (match o with Some _ => true | None => false end).
Definition set_iter s : list K := fst <$> map_iter s.
Definition set_iter_from s (key : K) : option (list K) := l ← iter_from s key; Some (map fst l).

Definition member (k : K) (l : list (MapEntry K ())) : bool := match lookup_map k l with Some _ => true | None => false end.

(** A [TreeSet] is a set: insertion and removal change the membership of
    their key only, and removal says whether the key was there. *)
Theorem treeset_refines_set s k : 1 ≤ TREE_BASE → walkable TREE_BASE s → ksorted (items s) →
  (∀ k', set_contains s k' = Some (member k' (items s))) ∧
  (∃ u, set_insert s k = Some u ∧ ordered TREE_BASE u ∧ ∀ k', set_contains u k' = Some (match cmp k' k with Eq => true | _ => member k' (items s) end)) ∧
  (∃ u, set_remove s k = Some (member k (items s), u) ∧ ordered TREE_BASE u ∧
     ∀ k', set_contains u k' = Some (match cmp k' k with Eq => false | _ => member k' (items s) end)).
Proof using.
  intros HB Hw Hs.
  assert (∀ u (o : option ()), ordered TREE_BASE u → items u = lower (Some k) (items s) ++ option_list (mkEntry k <$> o) ++ upper (Some k) (items s) →
    ∀ k', set_contains u k' = Some (match cmp k' k with Eq => match o with Some _ => true | None => false end | _ => member k' (items s) end)) as Hget.
  { intros u o Hu Hi k'. unfold set_contains. rewrite (map_get_ok TREE_BASE) by done. cbn [mbind option_bind]. f_equal.
    rewrite (lookup_map_update k o (items s) (items u) Hs (proj2 Hu)).
    - unfold member. by destruct (cmp k' k).
    - intros x. rewrite Hi, elem_of_around. destruct o as [[]|]; simpl; [|by rewrite elem_of_nil; naive_solver].
      rewrite list_elem_of_singleton. destruct x as [kx []]. simpl. naive_solver. }
  split_and!.
  - intros k'. unfold set_contains. rewrite (map_get_ok TREE_BASE); [done|]. split; [by apply TreeMap.walkable_wf|done].
  - destruct (map_insert_ok TREE_BASE s k () HB Hw Hs) as (u & _ & E & Hu & Hi). exists u. split; [exact E|]. split; [done|]. by apply (Hget u (Some ())).
  - destruct (map_remove_ok TREE_BASE s k HB Hw Hs) as (u & E & Hu & Hi). exists u. unfold set_remove. rewrite E. split; [done|]. split; [done|]. by apply (Hget u None).
Qed.
End set.

Module TreeSetExamples.
Import TreeMapExamples.
Example closest_is_floor_witness : closest m3 4%Z = Some (Some (2, 20)%Z).
Proof. rewrite (closest_is_floor 2 m3 4%Z m3_walkable m3_sorted). vm_compute. reflexivity. Defined.
End TreeSetExamples.
