(* ===== verification/TreeBuild.v ===== *)
(** * Building in parallel, reading out and comparing trees
    ([crates/sum_tree/src/sum_tree.rs])

    [from_par_iter] builds the nodes of a level in parallel; it builds the same
    tree as [from_iter].  [items] collects with a cursor, [==] compares with
    two iterators, and dimensions combine. *)

From S2P Require Import Prelude SumTree Cursor Search CursorBack CursorMoves CursorIter.

(** ** Dimensions

    The summary itself, nothing, and several dimensions at once. *)
Section dimensions.
Context `{HS : Summary Sm}.
#[refine] Instance Summary_Dimension : Dimension Sm Sm := {| dzero := zero; dadd := add |}.
Proof. - intros d s t. by rewrite add_assoc. - apply add_zero_l. Defined.

Record Dimensions (D1 D2 D3 : Type) := mkDimensions { dim_1 : D1; dim_2 : D2; dim_3 : D3 }.
#[global] Arguments mkDimensions {D1 D2 D3}.
#[global] Arguments dim_1 {D1 D2 D3}.
#[global] Arguments dim_2 {D1 D2 D3}.
#[global] Arguments dim_3 {D1 D2 D3}.
#[refine] Instance Dimensions_Dimension `{H1 : !Dimension D1 Sm} `{H2 : !Dimension D2 Sm} `{H3 : !Dimension D3 Sm} : Dimension (Dimensions D1 D2 D3) Sm :=
  {| dzero := mkDimensions dzero dzero dzero; dadd d s := mkDimensions (dadd (dim_1 d) s) (dadd (dim_2 d) s) (dadd (dim_3 d) s) |}.
Proof.
  - intros d s t. cbn. by rewrite !dadd_assoc.
  - cbn. by rewrite !dadd_zero.
Defined.
(** Seeking by the first of several dimensions. *)
Definition dimensions_target {D1 D2 D3} (target : D1 → comparison) (d : Dimensions D1 D2 D3) : comparison := target (dim_1 d).
End dimensions.

#[local] Existing Instance unit_Dimension.

Section build.
Context `{HS : Summary Sm} `{HI : Item T Sm}.
Context (TREE_BASE : nat).
Implicit Types t u : Node T Sm.

(** *** Parallel construction

    The parallel iterators of the rayon crate: splitting into chunks, mapping
    and collecting, which keep the order of an indexed iterator. *)
Context (par_chunks : ∀ {A}, nat → list A → list (list A)) (par_map : ∀ {A B}, (A → B) → list A → list B).

Definition par_parent (height : nat) (child_trees : list (Node T Sm)) : Node T Sm :=
  let child_summaries := node_summary <$> child_trees in
  Internal height (match child_summaries with s :: rest => foldl add s rest | [] => zero end) child_summaries child_trees.
Fixpoint par_levels (fuel height : nat) (nodes : list (Node T Sm)) : list (Node T Sm) :=
  match fuel with
  | O => nodes
  | S fuel =>
      if 1 <? length nodes then par_levels fuel (S height) (par_map _ _ (par_parent (S height)) (par_chunks _ (capacity TREE_BASE) nodes))
      else nodes
  end.
Definition from_par_iter (l : list T) : Node T Sm :=
  let nodes := par_map _ _ leaf_of_chunk (par_chunks _ (capacity TREE_BASE) l) in
  match par_levels (length nodes) 0 nodes with
  | [] => new
  | nodes => default new (last nodes)
  end.
Definition par_extend (self : Node T Sm) (l : list T) : option (Node T Sm) := append TREE_BASE self (from_par_iter l).

(** What rayon documents of [chunks], [map] and [collect]. *)
Definition rayon_ok : Prop :=
  (∀ A n (l : list A), par_chunks A n l = chunks (length l) n l) ∧ (∀ A B (f : A → B) l, par_map A B f l = f <$> l).

Lemma par_parent_eq h c : c ≠ [] → par_parent h c = parent_of_chunk h c.
Proof.
  intros Hc. rewrite parent_of_chunk_eq. unfold par_parent, mk_internal. f_equal. destruct c as [|t c]; [done|].
  cbn [fmap list_fmap]. by rewrite sum_cons.
Qed.

Lemma par_levels_eq fuel h nodes : 1 ≤ TREE_BASE → rayon_ok → par_levels fuel h nodes = build_levels TREE_BASE fuel h nodes.
Proof.
  intros HB [Hc Hm]. revert h nodes. induction fuel as [|fuel IH]; intros h nodes; [done|]. cbn [par_levels build_levels].
  destruct (1 <? length nodes); [|done]. rewrite Hm, Hc, IH. f_equal.
  pose proof (chunks_bounds (length nodes) (capacity TREE_BASE) nodes ltac:(unfold capacity; lia)) as Hb.
  induction Hb as [|c cs [Hne _] Hb IHb]; [done|]. cbn [fmap list_fmap]. by rewrite par_parent_eq, IHb.
Qed.

(** ** Reading a tree out *)

(** [items]: a cursor without positions. *)
Fixpoint items_loop (fuel : nat) (acc : list T) (c : @Cursor Sm T ()) : option (list T) :=
  match fuel with
  | O => None
  | S fuel =>
      it ← cursor_item c;
      match it with
      | Some x => c ← next c; items_loop fuel (acc ++ [x]) c
      | None => Some acc
      end
  end.
Definition tree_items t : option (list T) := c ← next (cursor_new t : @Cursor Sm T ()); items_loop (S (length (items t))) [] c.

Definition extent {D} `{!Dimension D Sm} t : D := dadd dzero (node_summary t).

(** [Iterator::eq]. *)
Fixpoint iter_eq (eqb : T → T → bool) (fuel : nat) (i j : Iter (T:=T) (Sm:=Sm)) : option bool :=
  match fuel with
  | O => None
  | S fuel =>
      '(x, i) ← tree_iter_next i;
      match x with
      | None => '(y, _) ← tree_iter_next j; Some (match y with None => true | Some _ => false end)
      | Some x => '(y, j) ← tree_iter_next j; match y with None => Some false | Some y => if eqb x y then iter_eq eqb fuel i j else Some false end
      end
  end.
Definition tree_eq (eqb : T → T → bool) t u : option bool := iter_eq eqb (S (length (items t))) (iter_new t) (iter_new u).

Lemma items_loop_ok fuel acc (c : @Cursor Sm T ()) d l : cursor_at TREE_BASE c d l → did_seek c = true → length l < fuel → items_loop fuel acc c = Some (acc ++ l).
Proof using.
  revert acc c d l. induction fuel as [|fuel IH]; intros acc c d l Hc Hd Hl; [lia|]. cbn [items_loop].
  rewrite (cursor_at_item TREE_BASE c d l Hc Hd). cbn [mbind option_bind]. destruct l as [|x l]; cbn [head]; [by rewrite app_nil_r|].
  destruct (next_ok TREE_BASE c d x l Hc Hd) as (c' & -> & Hc' & Hd' & _). cbn [mbind option_bind].
  rewrite (IH _ c' _ l Hc' Hd') by (cbn in Hl; lia). by rewrite <- app_assoc.
Qed.

Lemma tree_items_ok t : walkable TREE_BASE t → tree_items t = Some (items t).
Proof using.
  intros Hw. unfold tree_items. destruct (next_first TREE_BASE _ _ _ (cursor_new_at TREE_BASE t Hw) eq_refl) as (c & -> & Hc & Hd & _).
  cbn [mbind option_bind]. by rewrite (items_loop_ok _ [] c _ _ Hc Hd) by lia.
Qed.

(** *** Comparing *)

(** An iterator that will hand out [l]. *)
Definition hands_out (i : Iter (T:=T) (Sm:=Sm)) (l : list T) : Prop :=
  match l with
  | [] => (∃ j, tree_iter_next i = Some (None, j))
  | _ => ∃ t (c : @Cursor Sm T ()) before x, walkable TREE_BASE t ∧ rests TREE_BASE t c (Standing before (x :: l)) ∧ i = mkIter t (erase (stack c)) ∨
           (walkable TREE_BASE t ∧ i = iter_new t ∧ l = items t)
  end.
Lemma hands_out_step i x l : hands_out i (x :: l) → ∃ j, tree_iter_next i = Some (Some x, j) ∧ hands_out j l.
Proof using.
  assert (∀ t (c : @Cursor Sm T ()) before y l, walkable TREE_BASE t → rests TREE_BASE t c (Standing before (y :: l)) → hands_out (mkIter t (erase (stack c))) l) as Hnext.
  { intros t c before y k Hw Hc. destruct k as [|z k]; [|exists t, c, before, y; by left].
    destruct (iter_step TREE_BASE t c before y [] Hw Hc) as (c' & E & _). by eexists. }
  intros (t & c & before & y & [(Hw & Hc & ->)|(Hw & -> & Hl)]).
  - destruct (iter_step TREE_BASE t c before y (x :: l) Hw Hc) as (c' & E & Hc'). eexists. split; [exact E|]. by eapply Hnext.
  - assert (t ≠ new) as Hne by (intros ->; done). destruct (iter_first TREE_BASE t Hw Hne) as (c' & E & Hc'). rewrite <- Hl in E, Hc'.
    eexists. split; [exact E|]. by eapply Hnext.
Qed.
Lemma hands_out_new t : walkable TREE_BASE t → hands_out (iter_new t) (items t).
Proof using.
  intros Hw. destruct (items t) as [|x l] eqn:E; [|exists t, (cursor_new t), [], x; by right].
  assert (t = new) as -> by (eapply wf_tree_items_nil; [by apply walkable_tree|done]). by eexists.
Qed.

Lemma iter_eq_ok eqb fuel i j l k : (∀ x y, eqb x y = true ↔ x = y) → hands_out i l → hands_out j k → length l < fuel →
  ∃ b, iter_eq eqb fuel i j = Some b ∧ (b = true ↔ l = k).
Proof using.
  intros Heqb. revert i j l k. induction fuel as [|fuel IH]; intros i j l k Hi Hj Hl; [lia|]. cbn [iter_eq]. destruct l as [|x l].
  - destruct Hi as [i' ->]. cbn [mbind option_bind]. destruct k as [|y k].
    + destruct Hj as [j' ->]. by exists true.
    + apply hands_out_step in Hj as (j' & -> & _). exists false. by split.
  - apply hands_out_step in Hi as (i' & -> & Hi). cbn [mbind option_bind]. destruct k as [|y k].
    + destruct Hj as [j' ->]. exists false. by split.
    + apply hands_out_step in Hj as (j' & -> & Hj). cbn [mbind option_bind]. destruct (eqb x y) eqn:E.
      * apply Heqb in E as ->. destruct (IH i' j' l k Hi Hj) as (b & -> & Hb); [cbn in Hl; lia|]. exists b. split; [done|]. rewrite Hb. by split; [intros ->|intros [= ->]].
      * exists false. split; [done|]. split; [done|]. intros [= -> _]. assert (eqb y y = true) by by apply Heqb. congruence.
Qed.

(** [from_par_iter] builds the tree [from_iter] builds, whatever the
    order in which its chunks are computed; [items] reads it out; and two trees
    are equal when their items are, whatever their shapes. *)
Theorem parallel_build_same l t u eqb : 1 ≤ TREE_BASE → rayon_ok → walkable TREE_BASE t → walkable TREE_BASE u → (∀ x y, eqb x y = true ↔ x = y) →
  from_par_iter l = from_iter TREE_BASE l ∧ par_extend t l = extend TREE_BASE t l ∧
  tree_items t = Some (items t) ∧ ∃ b, tree_eq eqb t u = Some b ∧ (b = true ↔ items t = items u).
Proof using.
  intros HB Hr Ht Hu Heqb. assert (from_par_iter l = from_iter TREE_BASE l) as E.
  { unfold from_par_iter, from_iter. destruct Hr as [Hc Hm]. rewrite Hc, Hm, par_levels_eq by done. done. }
  split; [done|]. split; [unfold par_extend, extend; by rewrite E|]. split; [by apply tree_items_ok|].
  apply iter_eq_ok; [done|by apply hands_out_new|by apply hands_out_new|lia].
Qed.
End build.

(** Rayon's iterators computed one after the other, as an instance. *)
Module BuildExamples.
Import Counting Seeking.
Definition seq_chunks (A : Type) (n : nat) (l : list A) : list (list A) := chunks (length l) n l.
Definition seq_map (A B : Type) (f : A → B) (l : list A) : list B := f <$> l.

Example parallel_build_same_witness :
  from_par_iter 2 seq_chunks seq_map [10; 20; 30; 40; 50]%Z = from_iter 2 [10; 20; 30; 40; 50]%Z ∧
  par_extend 2 seq_chunks seq_map t5 [10; 20; 30; 40; 50]%Z = extend 2 t5 [10; 20; 30; 40; 50]%Z ∧
  tree_items t5 = Some (items t5) ∧ ∃ b, tree_eq Z.eqb t5 t5 = Some b ∧ (b = true ↔ items t5 = items t5).
Proof.
  apply (parallel_build_same 2 seq_chunks seq_map [10; 20; 30; 40; 50]%Z t5 t5 Z.eqb); [lia|done|apply t5_walkable..|apply Z.eqb_eq].
Defined.
End BuildExamples.
