(* ===== verification/RopeLines.v ===== *)
(** * Bytes and lines of ropes ([Bytes], [Lines] and the line movements of
    [Chunks] in [crates/rope/src/rope.rs])

    [Bytes] hands out the bytes of a range chunk by chunk, or into buffers as an
    [io::Read]; [Lines] joins the lines of a range that chunks cut; [next_line]
    and [prev_line] move a chunks iterator between the starts of lines. *)

From S2P Require Import Prelude Text Bitmap Select Utf8 Summary Chunk Rope RopeChunks.

Section lines.
Context (MAX_BASE : nat).
Abbreviation Rope := (list (Chunk * TextSummary)).
Implicit Types (r : list (Chunk * TextSummary)).

(** ** Bytes *)

Record Bytes := mkBytes { by_cursor : TreeCursor; by_range : nat * nat; by_reversed : bool }.

Definition bytes_new r (s e : nat) (reversed : bool) : Bytes :=
  mkBytes (if reversed then seek_from [] r e Cursor.Left else seek_from [] r s Cursor.Right) (s, e) reversed.

(** Slicing bytes panics unless the ends are in order and within. *)
Definition byte_slice (t : Text) (s e : nat) : option Text :=
  if (s <=? e) && (e <=? length t) then Some (take (e - s) (drop s t)) else None.
Definition bytes_peek (b : Bytes) : option (option Text) :=
  match tc_item (by_cursor b) with
  | None => Some None
  | Some chunk =>
      if by_reversed b && (tc_end (by_cursor b) <=? (by_range b).1) then Some None
      else
        let chunk_start := tc_start (by_cursor b) in
        if (by_range b).2 <=? chunk_start then Some None
        else
          t ← byte_slice (text chunk) ((by_range b).1 - chunk_start) (Nat.min (length (text chunk)) ((by_range b).2 - chunk_start));
          Some (Some t)
  end.
Definition bytes_step (b : Bytes) (range : nat * nat) : Bytes :=
  mkBytes (if by_reversed b then tc_prev (by_cursor b) else tc_next (by_cursor b)) range (by_reversed b).
Definition bytes_next (b : Bytes) : option (option Text * Bytes) :=
  result ← bytes_peek b;
  Some (result, match result with Some _ => bytes_step b (by_range b) | None => b end).
(** [io::Read::read] into a buffer of [n] bytes: what it writes at its front. *)
Definition bytes_read (n : nat) (b : Bytes) : option (Text * Bytes) :=
  p ← bytes_peek b;
  match p with
  | None => Some ([], b)
  | Some chunk =>
      let len := Nat.min n (length chunk) in
      '(out, range) ←
        (if by_reversed b then e ← checked_sub (by_range b).2 len; Some (rev (drop (length chunk - len) chunk), ((by_range b).1, e))
         else Some (take len chunk, ((by_range b).1 + len, (by_range b).2)));
      Some (out, if len =? length chunk then bytes_step b range else mkBytes (by_cursor b) range (by_reversed b))
  end.

Definition bytes_in_range r (s e : nat) : Bytes := bytes_new r s e false.
Definition reversed_bytes_in_range r (s e : nat) : Bytes := bytes_new r s e true.

(** ** Lines *)

(** [str::split('\n')]. *)
Fixpoint split_newline (t : Text) : list Text :=
  match t with
  | [] => [[]]
  | b :: t => if is_newline b then [] :: split_newline t
              else match split_newline t with l :: ls => (b :: l) :: ls | [] => [[b]] end
  end.

Record Lines := mkLines { ln_chunks : Chunks; ln_current : Text; ln_done : bool; ln_reversed : bool }.
Definition lines_of (c : Chunks) : Lines := mkLines c [] false (ck_reversed c).

(** The [while let] loop of [next]: the line, and the lines iterator after it. *)
Fixpoint lines_loop (fuel : nat) (l : Lines) : option (Text * Lines) :=
  match fuel with
  | O => None
  | S fuel =>
      p ← peek (ln_chunks l);
      match p with
      | None => Some (ln_current l, mkLines (ln_chunks l) (ln_current l) true (ln_reversed l))
      | Some chunk =>
          let chunk_lines := if ln_reversed l then rev (split_newline chunk) else split_newline chunk in
          match chunk_lines with
          | chunk_line :: others =>
              let grown := if ln_reversed l then chunk_line ++ ln_current l else ln_current l ++ chunk_line in
              match others with
              | _ :: _ =>
                  offset ← (if ln_reversed l then o ← checked_sub (ck_offset (ln_chunks l)) (length chunk_line); checked_sub o 1
                            else Some (ck_offset (ln_chunks l) + length chunk_line + 1));
                  c ← chunks_seek (ln_chunks l) offset;
                  if bool_decide (ln_current l = []) then Some (chunk_line, mkLines c (ln_current l) false (ln_reversed l))
                  else Some (grown, mkLines c grown false (ln_reversed l))
              | [] =>
                  '(_, c) ← chunks_next (ln_chunks l);
                  lines_loop fuel (mkLines c grown false (ln_reversed l))
              end
          | [] =>
              '(_, c) ← chunks_next (ln_chunks l);
              lines_loop fuel (mkLines c (ln_current l) false (ln_reversed l))
          end
      end
  end.
Definition lines_fuel (l : Lines) : nat := S (S (length (tc_all (ck_cursor (ln_chunks l))))).
Definition lines_next (l : Lines) : option (option Text * Lines) :=
  if ln_done l then Some (None, l)
  else '(line, l) ← lines_loop (lines_fuel l) (mkLines (ln_chunks l) [] false (ln_reversed l)); Some (Some line, l).
Definition lines_seek (l : Lines) (offset : nat) : option Lines :=
  c ← chunks_seek (ln_chunks l) offset; Some (mkLines c [] false (ln_reversed l)).
Definition lines_offset (l : Lines) : nat := ck_offset (ln_chunks l).

Fixpoint collect_lines (fuel : nat) (l : Lines) : option (list Text) :=
  match fuel with
  | O => None
  | S fuel =>
      '(line, l) ← lines_next l;
      match line with None => Some [] | Some line => ls ← collect_lines fuel l; Some (line :: ls) end
  end.

(** ** Moving by lines *)

Definition has_newline (e : Chunk * TextSummary) : bool := (0 <? row (s_lines e.2))%N.

Fixpoint skip_entries (f : Chunk * TextSummary → bool) (passed rest : Rope) : TreeCursor :=
  match rest with
  | [] => AtChunk passed []
  | e :: rest' => if f e then AtChunk passed rest else skip_entries f (passed ++ [e]) rest'
  end.
Definition tc_search_forward (f : Chunk * TextSummary → bool) (c : TreeCursor) : TreeCursor :=
  match c with
  | BeforeFirst l => skip_entries f [] l
  | AtChunk a (e :: b) => skip_entries f (a ++ [e]) b
  | _ => c
  end.
(** Going back over the reversed entries [a] to one that [f] accepts. *)
Fixpoint back_entries (f : Chunk * TextSummary → bool) (a rest : Rope) : TreeCursor :=
  match a with
  | [] => match rest with [] => AtChunk [] [] | _ => BeforeFirst rest end
  | e :: a => if f e then AtChunk (rev a) (e :: rest) else back_entries f a (e :: rest)
  end.
Definition tc_search_backward (f : Chunk * TextSummary → bool) (c : TreeCursor) : TreeCursor :=
  match c with
  | BeforeFirst _ => c
  | AtChunk a b => back_entries f (rev a) b
  | Astray l => back_entries f (rev l) []
  end.

Definition with_cursor (c : Chunks) (cur : TreeCursor) : Chunks := mkChunks cur (ck_range c) (ck_offset c) (ck_reversed c).
Definition with_offset (c : Chunks) (o : nat) : Chunks := mkChunks (ck_cursor c) (ck_range c) o (ck_reversed c).

(** The outer option of both is the panic of [assert!(!self.reversed)] and of
    the slices. *)
Definition next_line (c : Chunks) : option (bool * Chunks) :=
  if ck_reversed c then None
  else
    p ← peek c;
    '(found, c) ←
      match p with
      | None => Some (false, c)
      | Some chunk =>
          '(found, c) ←
            match position is_newline chunk with
            | Some newline_ix =>
                let c := with_offset c (ck_offset c + newline_ix + 1) in
                Some (ck_offset c <=? (ck_range c).2, c)
            | None =>
                let cur := tc_search_forward has_newline (ck_cursor c) in
                let c := with_offset (with_cursor c cur) (tc_start cur) in
                p ← peek c;
                match (chunk ← p; position is_newline chunk) with
                | Some newline_ix =>
                    let c := with_offset c (ck_offset c + newline_ix + 1) in
                    Some (ck_offset c <=? (ck_range c).2, c)
                | None => Some (false, with_offset c (tc_end cur))
                end
            end;
          if ck_offset c =? tc_end (ck_cursor c) then '(_, c) ← chunks_next c; Some (found, c) else Some (found, c)
      end;
    if (ck_range c).2 <? ck_offset c then
      let o := Nat.min (ck_offset c) (ck_range c).2 in
      Some (found, with_offset (with_cursor c (tc_seek (ck_cursor c) o Cursor.Right)) o)
    else Some (found, c).

(** The line start found in the chunk under the cursor, before its byte [end_ix]. *)
Definition chunk_line_start (c : Chunks) (chunk : Chunk) (end_ix : nat) : option (option nat) :=
  t ← str_slice (text chunk) 0 end_ix;
  Some (newline_ix ← rposition is_newline t; Some (tc_start (ck_cursor c) + newline_ix + 1)).
Definition prev_line (c : Chunks) : option (bool * Chunks) :=
  if ck_reversed c then None
  else
    let initial_offset := ck_offset c in
    let c := if ck_offset c =? tc_start (ck_cursor c) then with_cursor c (tc_prev (ck_cursor c)) else c in
    here ← match tc_item (ck_cursor c) with
           | None => Some None
           | Some chunk =>
               end_ix ← checked_sub (ck_offset c) (tc_start (ck_cursor c));
               last ← checked_sub end_ix 1;
               b ← text chunk !! last;
               chunk_line_start c chunk (if is_newline b then last else end_ix)
           end;
    let c := match here with Some o => with_offset c o | None => c end in
    if match here with Some _ => offset_is_valid c | None => false end then Some (true, c)
    else
      let cur := tc_search_backward has_newline (ck_cursor c) in
      let c := with_offset (with_cursor c cur) (tc_start cur) in
      there ← match tc_item cur with
              | None => Some None
              | Some chunk => chunk_line_start c chunk (length (text chunk))
              end;
      let c := match there with Some o => with_offset c o | None => c end in
      if match there with Some _ => offset_is_valid c | None => false end then
        Some (true, if ck_offset c =? tc_end cur then with_cursor c (tc_next cur) else c)
      else
        let c := if negb (offset_is_valid c) || match tc_item cur with None => true | Some _ => false end
                 then with_offset (with_cursor c (tc_seek cur (ck_range c).1 Cursor.Right)) (ck_range c).1 else c in
        Some ((ck_offset c <? initial_offset) && (ck_offset c =? 0), c).
End lines.
