(* ===== verification/RopeLinesOk.v ===== *)
(** * What the bytes and lines of a rope are

    [Bytes] yields the bytes of its range, [Lines] the lines between its
    newlines, and the line movements go to the starts of lines. *)

From S2P Require Import Prelude Text Bitmap Select Utf8 Summary Chunk ChunkBits ChunkOk ChunkPoints ChunkClip ChunkSummary ChunkLongest Rope RopeOk RopeSeek RopeConv RopeClip RopeSlice RopeChunks RopeIter RopeLines.

(** ** Newlines and lines of a text *)

Definition flat (t : Text) : Prop := Forall (λ b, is_newline b = false) t.

#[local] Instance flat_dec t : Decision (flat t).
Proof. unfold flat. apply _. Defined.

Lemma newline_LF b : is_newline b = true ↔ b = LF.
Proof. unfold is_newline. by rewrite bool_decide_eq_true. Qed.

Lemma first_newline t : match position is_newline t with Some i => ∃ l r, t = l ++ LF :: r ∧ flat l ∧ length l = i | None => flat t end.
Proof.
  induction t as [|b t IH]; [constructor|]. cbn [position]. destruct (is_newline b) eqn:Hb.
  - apply newline_LF in Hb as ->. exists [], t. by split; [|split; [constructor|]].
  - destruct (position is_newline t); cbn; [|by constructor]. destruct IH as (l & r & -> & Hl & <-). exists (b :: l), r. split; [done|]. split; [by constructor|done].
Qed.
Lemma last_newline t : match rposition is_newline t with Some i => ∃ l r, t = l ++ LF :: r ∧ flat r ∧ length l = i | None => flat t end.
Proof.
  induction t as [|b t IH]; [constructor|]. cbn [rposition]. destruct (rposition is_newline t).
  - destruct IH as (l & r & -> & Hr & <-). by exists (b :: l), r.
  - destruct (is_newline b) eqn:Hb; [|by constructor]. apply newline_LF in Hb as ->. by exists [], t.
Qed.

Lemma flat_app l k : flat (l ++ k) ↔ flat l ∧ flat k.
Proof. apply Forall_app. Qed.
Lemma LF_not_flat l r : ¬ flat (l ++ LF :: r).
Proof. unfold flat. rewrite Forall_app, Forall_cons. by intros (_ & ? & _). Qed.

Lemma split_flat t : flat t → split_newline t = [t].
Proof. induction 1 as [|b t Hb Ht IH]; [done|]. cbn. by rewrite Hb, IH. Qed.
Lemma split_first l r : flat l → split_newline (l ++ LF :: r) = l :: split_newline r.
Proof. induction 1 as [|b l Hb Hl IH]; [done|]. cbn. by rewrite Hb, IH. Qed.
Lemma split_nonempty t : split_newline t ≠ [].
Proof. induction t as [|b t IH]; cbn; [done|]. destruct (is_newline b); [done|]. by destruct (split_newline t). Qed.
Lemma split_last l r : flat r → split_newline (l ++ LF :: r) = split_newline l ++ [r].
Proof.
  intros Hr. induction l as [|b l IH]; [cbn; by rewrite split_flat|]. cbn [app split_newline]. rewrite IH. destruct (is_newline b); [done|].
  pose proof (split_nonempty l). by destruct (split_newline l).
Qed.
Lemma split_length t : length (split_newline t) ≤ S (length t).
Proof. induction t as [|b t IH]; [done|]. cbn [split_newline length]. destruct (is_newline b); cbn; [lia|]. destruct (split_newline t); cbn in *; lia. Qed.

(** A newline is a character of its own. *)
Lemma utf8_at_newline t i : utf8 t → t !! i = Some LF → ∃ a b, t = a ++ LF :: b ∧ length a = i ∧ utf8 a ∧ utf8 b.
Proof.
  intros (cs & Hcs & ->). revert i. induction Hcs as [|c cs Hc Hcs IH]; intros i Hi; [done|]. rewrite encode_cons in Hi |- *.
  destruct (decide (i < len_utf8 c)) as [Hlt|Hge].
  - rewrite lookup_app_l in Hi by (by rewrite encode_char_length). pose proof (newline_bits_char c Hc) as Hn.
    assert (newline_bits (encode_char c) !! i = Some true) as Hb by (unfold newline_bits; rewrite list_lookup_fmap, Hi; done). rewrite Hn in Hb.
    destruct i as [|i]; [|apply lookup_replicate in Hb as [? _]; done]. injection Hb as Hb%bool_decide_eq_true. subst c. exists [], (encode cs).
    split; [done|]. split; [done|]. split; [apply utf8_nil|by exists cs].
  - rewrite lookup_app_r in Hi by (rewrite encode_char_length; lia). rewrite encode_char_length in Hi.
    destruct (IH _ Hi) as (a & b & -> & Hl & Ha & Hb). exists (encode_char c ++ a), b. split; [by rewrite <- app_assoc|].
    split; [rewrite length_app, encode_char_length; lia|]. split; [|done]. apply utf8_app; [|done]. exists [c]. split; [by constructor|cbn; by rewrite app_nil_r].
Qed.
Lemma newline_boundary t i : utf8 t → t !! i = Some LF → is_char_boundary t i = true ∧ is_char_boundary t (S i) = true.
Proof.
  intros Ht Hi. destruct (utf8_at_newline t i Ht Hi) as (a & b & -> & <- & Ha & Hb). split; [by apply front_boundary|].
  assert (S (length a) = length (a ++ [LF])) as -> by (rewrite length_app; cbn; lia). rewrite (cons_middle LF a b), app_assoc in Ht |- *.
  apply front_boundary; [|done]. apply utf8_app; [done|]. exists [char_newline]. split; [by constructor|done].
Qed.

Definition line_before (t : Text) (o : nat) : nat := match rposition is_newline (take (o - 1) t) with Some i => i + 1 | None => 0 end.
(** Where the movements lead in a range of a text. *)
Definition next_place (t : Text) (e o : nat) : bool * nat :=
  match position is_newline (drop o (take e t)) with Some i => (true, o + i + 1) | None => (false, e) end.
Definition prev_place (t : Text) (s o : nat) : bool * nat :=
  if (s <=? line_before t o) && (0 <? o) then (true, line_before t o) else (false, s).

Lemma position_first l r : flat l → position is_newline (l ++ LF :: r) = Some (length l).
Proof. induction 1 as [|b l Hb Hl IH]; [done|]. cbn. by rewrite Hb, IH. Qed.
Lemma position_flat t : flat t → position is_newline t = None.
Proof. induction 1 as [|b t Hb Ht IH]; [done|]. cbn. by rewrite Hb, IH. Qed.
Lemma rposition_flat t : flat t → rposition is_newline t = None.
Proof. induction 1 as [|b t Hb Ht IH]; [done|]. cbn. by rewrite IH, Hb. Qed.
Lemma rposition_app l r : rposition is_newline (l ++ r) = match rposition is_newline r with Some i => Some (length l + i) | None => rposition is_newline l end.
Proof.
  induction l as [|b l IH]; cbn; [by destruct (rposition is_newline r)|]. rewrite IH. destruct (rposition is_newline r); [done|]. done.
Qed.
Lemma rposition_bound t i : rposition is_newline t = Some i → i < length t ∧ t !! i = Some LF.
Proof.
  intros H. pose proof (last_newline t) as Hl. rewrite H in Hl. destruct Hl as (l & r & -> & _ & <-). rewrite length_app. cbn. split; [lia|by apply list_lookup_middle].
Qed.

Lemma line_count_flat t : line_count t = 0 ↔ flat t.
Proof. unfold line_count, flat, newline_bits. rewrite <- Forall_false_count. by rewrite Forall_fmap. Qed.

Section walk.
Context (MAX_BASE : nat) (HMAX : 8 ≤ MAX_BASE ≤ 128).
Context (ts : list Text) (Hok : Forall (text_ok MAX_BASE) ts) (Hbal : balanced MAX_BASE ts) (Hfits : fits32 (concat ts)).
Abbreviation whole := (concat ts).
Abbreviation forward := (forward ts).
Abbreviation backward := (backward ts).

Lemma whole_chars : utf8 whole.
Proof using All. by eapply text_utf8. Qed.

Lemma slice_newline o e l r : drop o (take e whole) = l ++ LF :: r → whole !! (o + length l) = Some LF ∧ o + length l < e.
Proof using.
  intros E. assert (drop o (take e whole) !! length l = Some LF) as H by (rewrite E; by apply list_lookup_middle).
  rewrite lookup_drop in H. apply lookup_take_Some in H as [H Hlt]. done.
Qed.
Lemma slice_boundary o e l r : drop o (take e whole) = l ++ LF :: r →
  is_char_boundary whole (o + length l) = true ∧ is_char_boundary whole (o + length l + 1) = true.
Proof using All.
  intros E. apply slice_newline in E as [E _]. apply newline_boundary in E; [|apply whole_chars]. by rewrite Nat.add_1_r.
Qed.

(** ** Seeking *)

(** The place of the cursor of a forward iterator. *)
Definition strictly (a b : list Text) (o : nat) : Prop :=
  length (concat a) ≤ o ∧ match b with t :: _ => o < length (concat a) + length t | [] => True end.

Lemma seek_strictly a b o : ts = a ++ b → length (concat a) ≤ o ≤ length whole →
  ∃ a' b', ts = a' ++ b' ∧ seek_from (rope_of a) (rope_of b) o Cursor.Right = AtChunk (rope_of a') (rope_of b') ∧ strictly a' b' o.
Proof using All.
  intros E Ho. pose proof Hok as Hok'. rewrite E in Hok'. apply Forall_app in Hok' as [Ha Hb]. pose proof Hfits as Hf. rewrite E, concat_app in Hf, Ho.
  pose proof (seek_entries_ok MAX_BASE usize_dim length (λ d, Nat.compare o d) Cursor.Right (concat a) b usize_measures Hb (text_utf8 _ _ Ha) Hf) as Hs.
  unfold seek_from. rewrite entries_len_of. destruct (decide (o < length (concat a ++ concat b))) as [Hlt|Hge].
  - destruct (scan_offset_right o (concat a) b) as (b1 & t & b2 & -> & Hscan & Hr); [lia|]. rewrite Hscan in Hs. cbn beta in Hs. rewrite Hs.
    exists (a ++ b1), (t :: b2). rewrite rope_of_app. split; [by rewrite <- app_assoc|]. split; [done|]. unfold strictly. rewrite concat_app. lia.
  - rewrite scan_offset_end in Hs by lia. cbn beta in Hs. rewrite Hs. exists (a ++ b), []. rewrite rope_of_app, app_nil_r. split; [done|]. split; [done|].
    split; [rewrite concat_app; lia|done].
Qed.

Lemma tc_end_of a b : tc_end (AtChunk (rope_of a) (rope_of b)) = match b with t :: _ => length (concat a) + length t | [] => length (concat a) end.
Proof using. destruct b as [|t b]; cbn; by rewrite entries_len_of. Qed.

Lemma chunks_seek_forward c a b o e o' : forward c a b o e → (ck_range c).1 ≤ o' ≤ e → is_char_boundary whole o' = true →
  ∃ c' a' b', chunks_seek c o' = Some c' ∧ forward c' a' b' o' e ∧ ck_range c' = ck_range c.
Proof using All.
  intros [Hc Hsp [Hs He] Ho Hd [Hbo Hbe] Hp] Hr Hb. unfold chunks_seek. rewrite He. pose proof (boundary_le _ _ Hb) as Hle.
  rewrite (proj2 (Nat.ltb_ge e _)) by lia. replace (Nat.min (Nat.max o' (ck_range c).1) e) with o' by lia. rewrite Hd, Hc, tc_end_of.
  assert (∀ a' b', ts = a' ++ b' → strictly a' b' o' → ∃ c', Some (mkChunks (AtChunk (rope_of a') (rope_of b')) (ck_range c) o' false) = Some c' ∧ ∃ a'' b'', forward c' a'' b'' o' e ∧ ck_range c' = ck_range c) as Hmk.
  { intros a' b' E Hst. eexists. split; [done|]. exists a', b'. split; [|done]. by split; cbn; try done; try lia. }
  destruct (Nat.leb_spec (match b with t :: _ => length (concat a) + length t | [] => length (concat a) end) o') as [Hge|Hlt].
  - unfold tc_seek_forward. cbn [tc_start]. rewrite entries_len_of, (proj2 (Nat.ltb_ge o' _)) by (destruct b; lia).
    destruct (seek_strictly a b o' Hsp) as (a' & b' & E & -> & Hst); [destruct b; lia|]. cbn [mbind option_bind].
    destruct (Hmk a' b' E Hst) as (c' & -> & a'' & b'' & H). by exists c', a'', b''.
  - cbn [tc_start]. rewrite entries_len_of. destruct (Nat.ltb_spec o' (length (concat a))) as [Hlt'|Hge'].
    + unfold tc_seek. cbn [tc_all]. rewrite <- rope_of_app, <- Hsp. destruct (seek_strictly [] ts o' eq_refl) as (a' & b' & E & Hsk & Hst); [cbn; lia|].
      change (rope_of []) with (@nil (Chunk * TextSummary)) in Hsk. rewrite Hsk. cbn [mbind option_bind].
      destruct (Hmk a' b' E Hst) as (c' & -> & a'' & b'' & H). by exists c', a'', b''.
    + cbn [mbind option_bind]. destruct (Hmk a b Hsp) as (c' & -> & a'' & b'' & H); [split; [done|by destruct b]|]. by exists c', a'', b''.
Qed.

Lemma chunks_seek_backward c a b s o o' : backward c a b s o → s ≤ o' < o → is_char_boundary whole o' = true →
  ∃ c' a' b', chunks_seek c o' = Some c' ∧ backward c' a' b' s o'.
Proof using All.
  intros [[Hs He] Ho Hd [Hbs Hbo] Hcur] Hr Hb. destruct (Hcur ltac:(lia)) as (Hc & Hsp & Hao & Hbt). destruct b as [|t b]; [done|].
  pose proof (boundary_le _ _ Hb) as Hle. unfold chunks_seek. rewrite Hs, (proj2 (Nat.ltb_ge _ s)) by lia.
  replace (Nat.min (Nat.max o' s) (ck_range c).2) with o' by lia. rewrite Hd, Hc, tc_end_of, (proj2 (Nat.ltb_ge _ o')) by lia.
  cbn [tc_start]. rewrite entries_len_of. destruct (Nat.leb_spec o' (length (concat a))) as [Hge|Hlt].
  - unfold tc_seek. cbn [tc_all]. rewrite <- rope_of_app, <- Hsp.
    destruct (seek_strict_left MAX_BASE HMAX ts Hok Hbal Hfits o' Hle) as (a' & t' & b' & E & -> & Hp & Ha'); [by rewrite Hsp; destruct a|]. cbn [mbind option_bind].
    eexists _, a', (t' :: b'). split; [done|]. split; cbn; try done; [lia|]. intros Hlt. split; [done|]. split; [done|]. destruct Ha' as [->|]; cbn in *; lia.
  - cbn [mbind option_bind]. eexists _, a, (t :: b). split; [done|]. split; cbn; try done; [lia|]. intros _. split; [done|]. split; [done|]. lia.
Qed.

(** ** Peeking *)

Lemma peek_next c c' v : chunks_next c = Some (Some v, c') → peek c = Some (Some v).
Proof using.
  unfold chunks_next. destruct (peek c) as [[w|]|]; cbn [mbind option_bind]; try done. destruct (advance c (length w)); [|done]. by intros [= -> _].
Qed.
Lemma peek_done c : chunks_next c = Some (None, c) → peek c = Some None.
Proof using. unfold chunks_next. destruct (peek c) as [[w|]|]; cbn [mbind option_bind]; try done. by destruct (advance c (length w)). Qed.
(** ** Lines *)

Lemma others_nonempty (l : list Text) : l ≠ [] → ∃ x k, l = x :: k.
Proof using. destruct l; [done|eauto]. Qed.

Lemma lines_loop_forward fuel c a b o e cur : forward c a b o e → o ≤ e → S (length b) < fuel →
  let u := drop o (take e whole) in
  (∃ l r c' a' b' cur', u = l ++ LF :: r ∧ flat l ∧ lines_loop fuel (mkLines c cur false false) = Some (cur ++ l, mkLines c' cur' false false) ∧
     forward c' a' b' (o + length l + 1) e) ∨
  (flat u ∧ ∃ c' cur', lines_loop fuel (mkLines c cur false false) = Some (cur ++ u, mkLines c' cur' true false)).
Proof using All.
  revert c a b o cur. induction fuel as [|fuel IH]; intros c a b o cur Hf Hoe Hfuel u; [lia|]. cbn [lines_loop ln_chunks ln_current ln_reversed].
  destruct (decide (e ≤ o)) as [Hle|Hlt].
  { right. assert (u = []) as -> by (apply drop_ge; rewrite length_take; lia). split; [constructor|].
    rewrite (peek_done c) by (by eapply forward_done). cbn [mbind option_bind]. rewrite app_nil_r. by eexists _, _. }
  destruct (forward_next MAX_BASE HMAX ts Hok Hbal Hfits c a b o e Hf ltac:(lia)) as (t & b' & c' & a' & b'' & Eb & Hnext & Hf' & Hu & Hcase).
  set (m := Nat.min e (length (concat a) + length t)) in *. rewrite (peek_next c _ _ Hnext). cbn [mbind option_bind].
  assert (o ≤ m ≤ e) as Hm.
  { destruct Hf as [_ _ _ _ _ _ [Hp1 Hp2]]. rewrite Eb in Hp2. unfold m. lia. }
  assert (u = drop o (take m whole) ++ drop m (take e whole)) as Eu by by apply take_cut.
  assert (length (drop o (take m whole)) = m - o) as Elen.
  { destruct Hf' as [_ _ _ _ _ [Hbm _] _]. apply boundary_le in Hbm. rewrite length_drop, length_take. lia. }
  clearbody u. subst u. set (v := drop o (take m whole)) in *.
  pose proof (first_newline v) as Hv. destruct (position is_newline v) as [i|].
  - left. destruct Hv as (l & r & Ev & Hl & _). rewrite Ev, (split_first l r Hl). destruct (others_nonempty _ (split_nonempty r)) as (x & k & ->).
    assert (drop o (take m whole) = l ++ LF :: r) as Ev' by done. destruct (slice_boundary o m l r Ev') as [_ Hb]. destruct (slice_newline o m l r Ev') as [_ Hlt'].
    pose proof Hf as [_ _ [Hs _] Ho _ _ _]. rewrite Ho.
    destruct (chunks_seek_forward c a b o e (o + length l + 1) Hf) as (c2 & a2 & b2 & -> & Hf2 & _); [lia|done|]. cbn [mbind option_bind].
    destruct (bool_decide (cur = [])) eqn:Ecur.
    + apply bool_decide_eq_true in Ecur as ->. exists l, (r ++ drop m (take e whole)), c2, a2, b2, []. by rewrite <- app_assoc.
    + exists l, (r ++ drop m (take e whole)), c2, a2, b2, (cur ++ l). by rewrite <- app_assoc.
  - rewrite (split_flat v Hv), Hnext. cbn [mbind option_bind].
    assert (S (length b'') < fuel ∨ e ≤ m ∧ 1 < fuel) as Hfuel' by (rewrite Eb in Hfuel; cbn in Hfuel; destruct Hcase; [right; unfold m; lia|left; rewrite Eb in *; cbn in *; lia]).
    assert ((∃ l r c2 a2 b2 cur', drop m (take e whole) = l ++ LF :: r ∧ flat l ∧ lines_loop fuel (mkLines c' (cur ++ v) false false) = Some ((cur ++ v) ++ l, mkLines c2 cur' false false) ∧ forward c2 a2 b2 (m + length l + 1) e) ∨
      (flat (drop m (take e whole)) ∧ ∃ c2 cur', lines_loop fuel (mkLines c' (cur ++ v) false false) = Some ((cur ++ v) ++ drop m (take e whole), mkLines c2 cur' true false))) as Hrec.
    { destruct Hfuel' as [Hfuel'|[Hem Hfuel']]; [by apply (IH c' a' b'' m); [done|lia|]|]. right.
      assert (drop m (take e whole) = []) as E0 by (apply drop_ge; rewrite length_take; lia). rewrite E0. split; [constructor|]. destruct fuel as [|fuel]; [lia|].
      cbn [lines_loop ln_chunks ln_current ln_reversed]. rewrite (peek_done c') by (by eapply forward_done). cbn [mbind option_bind]. rewrite app_nil_r. by eexists _, _. }
    destruct Hrec as [(l & r & c2 & a2 & b2 & cur' & E & Hl & Hloop & Hf2)|(Hfl & c2 & cur' & Hloop)].
    + left. exists (v ++ l), r, c2, a2, b2, cur'. rewrite E, <- app_assoc. split; [done|]. split; [by apply flat_app|]. split; [by rewrite Hloop, app_assoc|].
      rewrite length_app, Elen. by replace (o + (m - o + length l) + 1) with (m + length l + 1) by lia.
    + right. split; [by apply flat_app|]. exists c2, cur'. by rewrite Hloop, <- app_assoc.
Qed.

Lemma lines_loop_backward fuel c a b s o cur : backward c a b s o → s ≤ o → 1 < fuel → (s < o → S (S (length a)) < fuel) →
  let u := drop s (take o whole) in
  (∃ l r c' a' b' cur', u = l ++ LF :: r ∧ flat r ∧ lines_loop fuel (mkLines c cur false true) = Some (r ++ cur, mkLines c' cur' false true) ∧
     backward c' a' b' s (s + length l)) ∨
  (flat u ∧ ∃ c' cur', lines_loop fuel (mkLines c cur false true) = Some (u ++ cur, mkLines c' cur' true true)).
Proof using All.
  revert c a b o cur. induction fuel as [|fuel IH]; intros c a b o cur Hf Hso Hfuel1 Hfuel u; [lia|]. cbn [lines_loop ln_chunks ln_current ln_reversed].
  destruct (decide (o ≤ s)) as [Hle|Hlt].
  { right. assert (u = []) as -> by (apply drop_ge; rewrite length_take; lia). split; [constructor|].
    rewrite (peek_done c) by (by eapply backward_done). cbn [mbind option_bind]. by eexists _, _. }
  destruct (backward_next MAX_BASE HMAX ts Hok Hbal Hfits c a b s o Hf ltac:(lia)) as (c' & a' & b' & Hnext & Hf' & Hmo & Hu & Hcase).
  set (m := Nat.max (length (concat a)) s) in *. rewrite (peek_next c _ _ Hnext). cbn [mbind option_bind].
  assert (u = drop s (take m whole) ++ drop m (take o whole)) as Eu by (apply take_cut; unfold m; lia).
  assert (length (drop m (take o whole)) = o - m ∧ length (drop s (take m whole)) = m - s) as [Elen Elen'].
  { destruct Hf as [_ _ _ [_ Hbo] _]. apply boundary_le in Hbo. rewrite !length_drop, !length_take. lia. }
  clearbody u. subst u. set (v := drop m (take o whole)) in *.
  pose proof (last_newline v) as Hv. destruct (rposition is_newline v) as [i|].
  - left. destruct Hv as (l & r & Ev & Hr & _). rewrite Ev, (split_last l r Hr), rev_app_distr. cbn [rev app].
    destruct (others_nonempty (rev (split_newline l))) as (x & k & Ek).
    { intros E%(f_equal length). rewrite length_rev in E. cbn in E. by apply length_zero_iff_nil, split_nonempty in E. }
    assert (drop m (take o whole) = l ++ LF :: r) as Ev' by done. destruct (slice_boundary m o l r Ev') as [Hb _]. destruct (slice_newline m o l r Ev') as [_ Hlt'].
    assert (length v = length l + S (length r)) as Elv by (rewrite Ev, length_app; done).
    pose proof Hf as [_ Ho _ _ _]. rewrite Ek, Ho. rewrite !(checked_sub_ok MAX_BASE HMAX ts Hok Hfits) by lia. cbn [mbind option_bind].
    rewrite (checked_sub_ok MAX_BASE HMAX ts Hok Hfits) by lia. cbn [mbind option_bind].
    replace (o - length r - 1) with (m + length l) by lia.
    destruct (chunks_seek_backward c a b s o (m + length l) Hf) as (c2 & a2 & b2 & -> & Hf2); [unfold m in *; lia|done|]. cbn [mbind option_bind].
    assert (s + length (drop s (take m whole) ++ l) = m + length l) as Es by (rewrite length_app, Elen'; unfold m; lia).
    destruct (bool_decide (cur = [])) eqn:Ecur.
    + apply bool_decide_eq_true in Ecur as ->. exists (drop s (take m whole) ++ l), r, c2, a2, b2, []. rewrite <- app_assoc, app_nil_r, Es. done.
    + exists (drop s (take m whole) ++ l), r, c2, a2, b2, (r ++ cur). rewrite <- app_assoc, Es. done.
  - rewrite (split_flat v Hv), Hnext. cbn [rev app mbind option_bind].
    destruct (IH c' a' b' m (v ++ cur) Hf') as [(l & r & c2 & a2 & b2 & cur' & E & Hr & Hloop & Hf2)|(Hfl & c2 & cur' & Hloop)];
      [unfold m; lia|specialize (Hfuel ltac:(lia)); lia|intros; destruct Hcase; [lia|]; specialize (Hfuel ltac:(lia)); lia|..].
    + left. exists l, (r ++ v), c2, a2, b2, cur'. rewrite E, <- !app_assoc. split; [done|]. split; [by apply flat_app|]. by rewrite Hloop.
    + right. split; [by apply flat_app|]. exists c2, cur'. by rewrite Hloop, <- app_assoc.
Qed.

Lemma lines_fuel_forward c a b o e : forward c a b o e → S (length b) < lines_fuel (mkLines c [] false false).
Proof using HMAX.
  intros [Hc _ _ _ _ _ _]. unfold lines_fuel. cbn [ln_chunks]. rewrite Hc. cbn. rewrite length_app. unfold rope_of. rewrite !length_fmap. lia.
Qed.
Lemma lines_fuel_backward c a b s o : backward c a b s o → s < o → S (S (length a)) < lines_fuel (mkLines c [] false true).
Proof using HMAX.
  intros [_ _ _ _ Hcur] Hlt. destruct (Hcur Hlt) as (Hc & _ & _ & Hb). destruct b as [|t b]; [done|]. unfold lines_fuel. cbn [ln_chunks]. rewrite Hc. cbn.
  rewrite length_app. unfold rope_of. cbn. rewrite !length_fmap. lia.
Qed.

Lemma collect_done fuel c cur r : 0 < fuel → collect_lines fuel (mkLines c cur true r) = Some [].
Proof using HMAX. destruct fuel; [lia|done]. Qed.

Lemma collect_forward n c a b o e cur fuel : forward c a b o e → o ≤ e → e - o ≤ n → S n < fuel →
  collect_lines fuel (mkLines c cur false false) = Some (split_newline (drop o (take e whole))).
Proof using All.
  revert c a b o cur fuel. induction n as [|n IH]; intros c a b o cur fuel Hf Hoe Hn Hfuel; (destruct fuel as [|fuel]; [lia|]); cbn [collect_lines];
    unfold lines_next; cbn [ln_done ln_chunks ln_reversed];
    destruct (lines_loop_forward _ c a b o e [] Hf Hoe (lines_fuel_forward _ _ _ _ _ Hf)) as [(l & r & c' & a' & b' & cur' & E & Hl & Hloop & Hf')|(Hfl & c' & cur' & Hloop)].
  all: unfold lines_fuel in *; cbn [ln_chunks] in *; rewrite Hloop; cbn [mbind option_bind app].
  1,3: destruct (slice_newline o e l r E) as [_ Hlt].
  - lia.
  - rewrite (IH c' a' b' (o + length l + 1) cur' fuel Hf') by lia. cbn [mbind option_bind]. rewrite E, (split_first l r Hl). do 3 f_equal.
    rewrite <- Nat.add_assoc, <- drop_drop, E, drop_app_ge by lia. replace (length l + 1 - length l) with 1 by lia. done.
  - rewrite collect_done by lia. cbn. by rewrite split_flat.
  - rewrite collect_done by lia. cbn. by rewrite split_flat.
Qed.

Lemma collect_backward n c a b s o cur fuel : backward c a b s o → s ≤ o → o - s ≤ n → S n < fuel →
  collect_lines fuel (mkLines c cur false true) = Some (rev (split_newline (drop s (take o whole)))).
Proof using All.
  revert c a b o cur fuel. induction n as [|n IH]; intros c a b o cur fuel Hf Hso Hn Hfuel; (destruct fuel as [|fuel]; [lia|]); cbn [collect_lines];
    unfold lines_next; cbn [ln_done ln_chunks ln_reversed];
    destruct (lines_loop_backward (lines_fuel (mkLines c [] false true)) c a b s o [] Hf Hso) as [(l & r & c' & a' & b' & cur' & E & Hr & Hloop & Hf')|(Hfl & c' & cur' & Hloop)];
    try (by intros; eapply lines_fuel_backward); try (unfold lines_fuel; lia).
  all: unfold lines_fuel in *; cbn [ln_chunks] in *; rewrite Hloop; cbn [mbind option_bind app]; rewrite app_nil_r.
  1,3: destruct (slice_newline s o l r E) as [_ Hlt].
  - lia.
  - rewrite (IH c' a' b' (s + length l) cur' fuel Hf') by lia. cbn [mbind option_bind]. rewrite E, (split_last l r Hr), rev_app_distr. cbn [rev app]. do 4 f_equal.
    transitivity (take (length l) (drop s (take o whole))); [|by rewrite E, take_app_length].
    rewrite firstn_skipn_comm, take_take. do 2 f_equal. lia.
  - rewrite collect_done by lia. cbn. by rewrite split_flat.
  - rewrite collect_done by lia. cbn. by rewrite split_flat.
Qed.

(** ** Bytes *)

Definition at_place (cur : TreeCursor) (a b : list Text) : Prop := cur = AtChunk (rope_of a) (rope_of b) ∧ ts = a ++ b.

Lemma bytes_peek_at by_ a t b s e : at_place (by_cursor by_) a (t :: b) → by_range by_ = (s, e) → s ≤ e ≤ length whole → s ≤ length (concat a) + length t →
  bytes_peek by_ = Some (if (by_reversed by_ && (length (concat a) + length t <=? s)) || (e <=? length (concat a)) then None
    else Some (drop (Nat.max s (length (concat a))) (take (Nat.min e (length (concat a) + length t)) whole))).
Proof using All.
  intros [Hc Hsp] Hr Hse Hs. destruct (texts_parts MAX_BASE HMAX ts Hok Hbal Hfits a t b Hsp) as (_ & _ & Hw). unfold bytes_peek. rewrite Hc, tc_end_of, Hr.
  cbn [tc_item rope_of fmap list_fmap entry_of fst snd tc_start]. rewrite entries_len_of. destruct (_ && _) eqn:Hrev; [done|]. cbn [orb].
  destruct (Nat.leb_spec e (length (concat a))) as [Hle|Hlt]; [done|]. cbn [text chunk_of]. set (A := length (concat a)) in *.
  unfold byte_slice. rewrite (proj2 (Nat.leb_le (s - A) _)), (proj2 (Nat.leb_le _ (length t))) by lia. cbn [andb mbind option_bind]. do 2 f_equal.
  rewrite <- skipn_firstn_comm, Hw. rewrite (take_app_ge (concat a)) by lia. fold A. rewrite drop_app_ge by lia. fold A.
  replace (Nat.max s A - A) with (s - A) by lia. rewrite take_app_le by lia. do 2 f_equal. lia.
Qed.

Lemma part_length s e : s ≤ e ≤ length whole → length (drop s (take e whole)) = e - s.
Proof using HMAX. intros H. rewrite length_drop, length_take. lia. Qed.

(** *** Chunk by chunk *)

Fixpoint collect_bytes (fuel : nat) (b : Bytes) : option (list Text) :=
  match fuel with
  | O => None
  | S fuel => '(x, b) ← bytes_next b; match x with None => Some [] | Some x => l ← collect_bytes fuel b; Some (x :: l) end
  end.

Lemma collect_bytes_forward fuel cur a b s e : at_place cur a b → s ≤ e ≤ length whole → match b with t :: _ => s ≤ length (concat a) + length t | [] => True end → length b < fuel →
  ∃ l, collect_bytes fuel (mkBytes cur (s, e) false) = Some l ∧ concat l = drop (Nat.max s (length (concat a))) (take e whole).
Proof using All.
  revert cur a b. induction fuel as [|fuel IH]; intros cur a b Hp Hse Hs Hf; [lia|]. cbn [collect_bytes]. unfold bytes_next. destruct b as [|t b].
  - destruct Hp as [-> Hsp]. rewrite app_nil_r in Hsp. exists []. split; [done|]. rewrite <- Hsp. symmetry. apply drop_ge. rewrite length_take. lia.
  - cbn match in Hs. rewrite (bytes_peek_at _ a t b s e) by done. cbn [by_reversed andb orb]. destruct (Nat.leb_spec e (length (concat a))) as [Hle|Hlt].
    + exists []. split; [done|]. symmetry. apply drop_ge. rewrite length_take. lia.
    + cbn [mbind option_bind]. unfold bytes_step. cbn [by_cursor by_range by_reversed]. destruct Hp as [-> Hsp].
      assert (length (concat (a ++ [t])) = length (concat a) + length t) as El by (rewrite concat_app, length_app; cbn; by rewrite app_nil_r).
      destruct (IH (tc_next (AtChunk (rope_of a) (rope_of (t :: b)))) (a ++ [t]) b) as (l & -> & Hl).
      * split; [by cbn [tc_next rope_of fmap list_fmap]; rewrite (rope_of_app a [t])|by rewrite <- app_assoc].
      * done.
      * rewrite El. destruct b; [done|lia].
      * cbn in Hf. lia.
      * eexists. split; [done|]. cbn [concat]. rewrite Hl, El. set (A := length (concat a)) in *. symmetry. destruct (Nat.le_gt_cases e (A + length t)).
        -- rewrite Nat.min_l, (drop_ge _ (Nat.max s (A + length t))), app_nil_r by (rewrite ?length_take; lia). done.
        -- rewrite Nat.min_r by lia. replace (Nat.max s (A + length t)) with (A + length t) by lia. apply take_cut. lia.
Qed.

Lemma collect_bytes_backward fuel cur a t b s e : at_place cur a (t :: b) → s ≤ e ≤ length whole → a = [] ∨ length (concat a) < e → S (length a) < fuel →
  ∃ l, collect_bytes fuel (mkBytes cur (s, e) true) = Some l ∧ concat (rev l) = drop s (take (Nat.min e (length (concat a) + length t)) whole).
Proof using All.
  revert cur a t b. induction fuel as [|fuel IH]; intros cur a t b Hp Hse Ha Hf; [lia|]. cbn [collect_bytes]. unfold bytes_next.
  destruct (Nat.le_gt_cases (length (concat a) + length t) s) as [Hs|Hs].
  { destruct Hp as [-> Hsp]. unfold bytes_peek. cbn [by_cursor by_range by_reversed fst snd]. rewrite tc_end_of, (proj2 (Nat.leb_le _ s)) by done.
    exists []. split; [done|]. symmetry. apply drop_ge. rewrite length_take. lia. }
  rewrite (bytes_peek_at _ a t b s e) by (done || lia). cbn [by_reversed]. rewrite (proj2 (Nat.leb_gt _ s)) by done. cbn [andb orb].
  destruct (Nat.leb_spec e (length (concat a))) as [Hle|Hlt].
  { destruct Ha as [->|]; [|lia]. cbn in Hle. exists []. split; [done|]. cbn. symmetry. apply drop_ge. rewrite length_take. lia. }
  cbn [mbind option_bind]. unfold bytes_step. cbn [by_cursor by_range by_reversed]. destruct Hp as [-> Hsp]. set (A := length (concat a)) in *.
  destruct a as [|u a _] using rev_ind.
  - exists [drop (Nat.max s A) (take (Nat.min e (A + length t)) whole)]. destruct fuel as [|fuel]; [lia|]. split; [done|]. cbn. rewrite app_nil_r. unfold A. cbn. by rewrite Nat.max_0_r.
  - assert (A = length (concat a) + length u) as EA by (unfold A; rewrite concat_app, length_app; cbn; by rewrite app_nil_r).
    pose proof (nonempty_chunk MAX_BASE ts Hok a u (t :: b) ltac:(by rewrite Hsp, <- app_assoc)) as Hu.
    destruct (IH (tc_prev (AtChunk (rope_of (a ++ [u])) (rope_of (t :: b)))) a u (t :: b)) as (l & -> & Hl).
    + cbn [tc_prev]. rewrite last_rope_of. split; [|by rewrite Hsp, <- app_assoc]. rewrite rope_of_app. f_equal. apply removelast_last.
    + done.
    + right. lia.
    + rewrite length_app in Hf. cbn in Hf. lia.
    + eexists. split; [done|]. cbn [rev]. rewrite concat_app. cbn [concat]. rewrite app_nil_r, Hl, <- EA. destruct (Nat.le_gt_cases A s).
      * rewrite (drop_ge (take (Nat.min e A) whole)) by (rewrite length_take; lia). cbn. by rewrite Nat.max_l.
      * rewrite Nat.max_r, Nat.min_r by lia. symmetry. apply take_cut. lia.
Qed.

(** *** Into buffers *)

(** [Read::read_to_end] with buffers of any sizes. *)
Fixpoint read_all (fuel : nat) (size : nat → nat) (b : Bytes) : option Text :=
  match fuel with
  | O => None
  | S fuel =>
      '(out, b) ← bytes_read (size fuel) b;
      match out with [] => Some [] | _ => rest ← read_all fuel size b; Some (out ++ rest) end
  end.

(** A reader with the bytes from [s] to [e] left. *)
Definition exhausted (b : Bytes) : Prop := bytes_peek b = Some None ∨ bytes_peek b = Some (Some []).
Definition reading (b : Bytes) (s e : nat) (r : bool) : Prop :=
  by_range b = (s, e) ∧ by_reversed b = r ∧ s ≤ e ≤ length whole ∧
  (s < e → ∃ a t b', at_place (by_cursor b) a (t :: b') ∧
     if r then length (concat a) < e ≤ length (concat a) + length t else length (concat a) ≤ s < length (concat a) + length t) ∧
  (s = e → exhausted b).

Definition left_text (s e : nat) (r : bool) : Text := if r then rev (drop s (take e whole)) else drop s (take e whole).

Lemma exhausted_at by_ a b s : at_place (by_cursor by_) a b → by_range by_ = (s, s) → s ≤ length whole →
  match b with t :: _ => s ≤ length (concat a) + length t | [] => True end → exhausted by_.
Proof using All.
  intros Hp Hr Hs Hb. destruct b as [|t b]; [left; unfold bytes_peek; by rewrite (proj1 Hp)|]. unfold exhausted. rewrite (bytes_peek_at _ a t b s s) by done.
  destruct (_ || _); [by left|right]. do 2 f_equal. apply drop_ge. rewrite length_take. lia.
Qed.

Lemma read_exhausted n b s e r : reading b s e r → s = e → ∃ b', bytes_read n b = Some ([], b').
Proof using.
  intros (Hr & Hrev & _ & _ & Hex) Hse. unfold bytes_read. destruct (Hex Hse) as [-> | ->]; cbn [mbind option_bind]; [by eexists|].
  rewrite Nat.min_0_r, Hr, Hrev. destruct r; cbn; [unfold checked_sub; cbn|]; by eexists.
Qed.

Lemma read_step_forward n b s e : reading b s e false → s < e → 0 < n → ∃ out b' s', bytes_read n b = Some (out, b') ∧ out ≠ [] ∧
  s < s' ≤ e ∧ out = drop s (take s' whole) ∧ reading b' s' e false.
Proof using All.
  intros (Hr & Hrev & Hse & Hpl & _) Hlt Hn. destruct (Hpl Hlt) as (a & t & b' & Hp & Hs). unfold bytes_read.
  rewrite (bytes_peek_at b a t b' s e) by (done || lia). rewrite Hrev, (proj2 (Nat.leb_gt e _)) by lia. cbn [andb orb mbind option_bind]. rewrite Nat.max_l by lia.
  destruct (texts_parts MAX_BASE HMAX ts Hok Hbal Hfits a t b' (proj2 Hp)) as (_ & _ & Hw). apply (f_equal length) in Hw as Hwl. rewrite !length_app in Hwl.
  set (A := length (concat a)) in *. set (m := Nat.min e (A + length t)). assert (s < m ≤ e ∧ m ≤ length whole) as [Hm Hmw] by (unfold m; lia).
  rewrite part_length, Hr by lia. cbn [fst snd mbind option_bind]. set (len := Nat.min n (m - s)). assert (0 < len ≤ m - s) as Hlen by (unfold len; lia).
  exists (take len (drop s (take m whole))), (if len =? m - s then bytes_step b (s + len, e) else mkBytes (by_cursor b) (s + len, e) false), (s + len).
  assert (take len (drop s (take m whole)) = drop s (take (s + len) whole)) as Eout by (rewrite firstn_skipn_comm, take_take; do 2 f_equal; lia).
  rewrite Eout. split; [done|]. split; [intros E%(f_equal length); rewrite part_length in E by lia; cbn in E; lia|]. split; [lia|]. split; [done|].
  assert (length (concat (a ++ [t])) = A + length t) as El by (rewrite concat_app, length_app; cbn; by rewrite app_nil_r).
  destruct Hp as [Hc Hsp]. destruct (Nat.eqb_spec len (m - s)) as [E|E].
  - assert (at_place (by_cursor (bytes_step b (s + len, e))) (a ++ [t]) b') as Hp'.
    { unfold bytes_step. rewrite Hrev, Hc. cbn [by_cursor]. split; [by cbn [tc_next rope_of fmap list_fmap]; rewrite (rope_of_app a [t])|by rewrite <- app_assoc]. }
    split; [done|]. split; [done|]. split; [lia|]. split.
    + intros Hlt'. assert (s + len = A + length t) as Es by (unfold m in *; lia). destruct b' as [|u b'].
      * exfalso. cbn in Hwl. lia.
      * exists (a ++ [t]), u, b'. split; [done|]. rewrite El, Es. pose proof (nonempty_chunk MAX_BASE ts Hok (a ++ [t]) u b' ltac:(by rewrite Hsp, <- app_assoc)). lia.
    + intros Hse'. apply (exhausted_at _ (a ++ [t]) b' e); [done|unfold bytes_step; cbn; congruence|lia|]. rewrite El. destruct b'; [done|]. unfold m in *; lia.
  - split; [done|]. split; [done|]. split; [lia|]. split; [|intros Hse'; unfold m in *; lia].
    intros _. exists a, t, b'. split; [done|]. unfold m in *; lia.
Qed.

Lemma read_step_backward n b s e : reading b s e true → s < e → 0 < n → ∃ out b' e', bytes_read n b = Some (out, b') ∧ out ≠ [] ∧
  s ≤ e' < e ∧ out = rev (drop e' (take e whole)) ∧ reading b' s e' true.
Proof using All.
  intros (Hr & Hrev & Hse & Hpl & _) Hlt Hn. destruct (Hpl Hlt) as (a & t & b' & Hp & Hs). unfold bytes_read.
  destruct (texts_parts MAX_BASE HMAX ts Hok Hbal Hfits a t b' (proj2 Hp)) as (_ & _ & Hw). apply (f_equal length) in Hw as Hwl. rewrite !length_app in Hwl.
  rewrite (bytes_peek_at b a t b' s e) by (done || lia). rewrite Hrev, (proj2 (Nat.leb_gt e _)), (proj2 (Nat.leb_gt _ s)) by lia. cbn [andb orb mbind option_bind].
  rewrite (Nat.min_l e) by lia. set (A := length (concat a)) in *. set (m := Nat.max s A). assert (s ≤ m < e) as Hm by (unfold m; lia).
  rewrite part_length, Hr by lia. cbn [fst snd]. set (len := Nat.min n (e - m)). assert (0 < len ≤ e - m) as Hlen by (unfold len; lia).
  rewrite (checked_sub_ok MAX_BASE HMAX ts Hok Hfits) by lia. cbn [mbind option_bind].
  exists (rev (drop (e - len) (take e whole))), (if len =? e - m then bytes_step b (s, e - len) else mkBytes (by_cursor b) (s, e - len) true), (e - len).
  split; [rewrite drop_drop; do 4 f_equal; lia|].
  split; [intros E%(f_equal length); rewrite length_rev, part_length in E by lia; cbn in E; lia|]. split; [lia|]. split; [done|].
  destruct Hp as [Hc Hsp]. destruct (Nat.eqb_spec len (e - m)) as [E|E].
  2: { split; [done|]. split; [done|]. split; [lia|]. split; [|intros Hse'; unfold m in *; lia]. intros _. exists a, t, b'. split; [done|]. unfold m in *; lia. }
  replace (e - len) with m in * by lia. split; [done|]. split; [done|]. split; [lia|]. unfold bytes_step. rewrite Hrev, Hc. cbn [by_cursor].
  destruct a as [|u a _] using rev_ind.
  - split; [intros Hlt'; unfold m, A in Hlt'; cbn in Hlt'; lia|]. intros _. left. done.
  - assert (A = length (concat a) + length u) as EA by (unfold A; rewrite concat_app, length_app; cbn; by rewrite app_nil_r).
    pose proof (nonempty_chunk MAX_BASE ts Hok a u (t :: b') ltac:(by rewrite Hsp, <- app_assoc)) as Hu.
    assert (tc_prev (AtChunk (rope_of (a ++ [u])) (rope_of (t :: b'))) = AtChunk (rope_of a) (rope_of (u :: t :: b'))) as ->.
    { cbn [tc_prev]. rewrite last_rope_of, rope_of_app. f_equal. apply removelast_last. }
    assert (ts = a ++ u :: t :: b') as Hsp' by by rewrite Hsp, <- app_assoc. split.
    + intros Hlt'. exists a, u, (t :: b'). split; [done|]. unfold m in *; lia.
    + intros Hsm. left. unfold bytes_peek. cbn [by_cursor by_range by_reversed fst snd]. rewrite tc_end_of, <- EA, (proj2 (Nat.leb_le A s)) by (unfold m in *; lia). done.
Qed.

Lemma read_all_ok fuel size b s e r : reading b s e r → (∀ i, 0 < size i) → e - s < fuel → read_all fuel size b = Some (left_text s e r).
Proof using All.
  intros Hb Hsize. revert b s e Hb. induction fuel as [|fuel IH]; intros b s e Hb Hf; [lia|]. cbn [read_all].
  pose proof Hb as (_ & _ & Hse & _). destruct (decide (s = e)) as [->|Hne].
  { destruct (read_exhausted (size fuel) b e e r Hb eq_refl) as (b' & ->). cbn [mbind option_bind]. unfold left_text.
    rewrite (drop_ge (take e whole)) by (rewrite length_take; lia). by destruct r. }
  destruct r.
  - destruct (read_step_backward (size fuel) b s e Hb ltac:(lia) (Hsize fuel)) as (out & b' & e' & -> & Hout & He & -> & Hb'). cbn [mbind option_bind].
    rewrite (IH b' s e' Hb') by lia. cbn [mbind option_bind]. unfold left_text. rewrite (take_cut whole s e' e) by lia. rewrite rev_app_distr.
    by destruct (rev (drop e' (take e whole))).
  - destruct (read_step_forward (size fuel) b s e Hb ltac:(lia) (Hsize fuel)) as (out & b' & s' & -> & Hout & Hs & -> & Hb'). cbn [mbind option_bind].
    rewrite (IH b' s' e Hb') by lia. cbn [mbind option_bind]. unfold left_text. rewrite (take_cut whole s s' e) by lia.
    by destruct (drop s (take s' whole)).
Qed.

(** Readers as they are made. *)
Lemma reading_new s e r : s ≤ e ≤ length whole → reading (bytes_new (rope_of ts) s e r) s e r.
Proof using All.
  intros Hse. unfold bytes_new, reading. cbn [by_cursor by_range by_reversed]. split; [done|]. split; [done|]. split; [done|]. destruct r.
  - destruct (decide (ts = [])) as [Ets|Hne].
    { assert (e = 0) as -> by (rewrite Ets in Hse; cbn in Hse; lia). split; [lia|]. intros _. left. by rewrite Ets. }
    destruct (seek_strict_left MAX_BASE HMAX ts Hok Hbal Hfits e ltac:(lia) Hne) as (a & t & b & E & Hsk & Hr & Ha). rewrite Hsk. split.
    + intros Hlt. exists a, t, b. split; [done|]. destruct Ha as [->|]; cbn in *; lia.
    + intros ->. apply (exhausted_at _ a (t :: b) e); [done|done|lia|lia].
  - destruct (seek_strict MAX_BASE HMAX ts Hok Hbal Hfits s ltac:(lia)) as (a & b & E & Hsk & Hr1 & Hr2). rewrite Hsk. split.
    + intros Hlt. destruct b as [|t b]; [rewrite app_nil_r in E; subst a; lia|]. by exists a, t, b.
    + intros ->. apply (exhausted_at _ a b e); [done|done|lia|]. destruct b; [done|lia].
Qed.

End walk.
