(* ===== verification/RopeMoves.v ===== *)
(** * Moving by lines

    [next_line] and [prev_line] of chunks iterators lead to the starts of lines
    of the text, and to the ends of the range where there are none. *)

From S2P Require Import Prelude Text Bitmap Select Utf8 Summary Chunk ChunkBits ChunkOk ChunkPoints ChunkClip ChunkSummary ChunkLongest Rope RopeOk RopeSeek RopeConv RopeClip RopeSlice RopeChunks RopeIter RopeLines RopeLinesOk.

Section moves.
Context (MAX_BASE : nat) (HMAX : 8 ≤ MAX_BASE ≤ 128).
Context (ts : list Text) (Hok : Forall (text_ok MAX_BASE) ts) (Hbal : balanced MAX_BASE ts) (Hfits : fits32 (concat ts)).
Abbreviation whole := (concat ts).
Abbreviation forward := (forward ts).
Abbreviation at_place := (at_place ts).

(** ** Moving by lines *)

(** An entry whose summary counts a newline has one. *)
Lemma has_newline_entry a t b : ts = a ++ t :: b → has_newline (entry_of t) = true ↔ ¬ flat t.
Proof using All.
  intros E. destruct (texts_parts MAX_BASE HMAX ts Hok Hbal Hfits a t b E) as (Ht & _ & Hw). unfold has_newline. cbn [entry_of snd].
  assert (fits32 t) as Hf by (rewrite Hw in Hfits; apply fits32_app in Hfits as [_ H]; by apply fits32_app in H as [H _]).
  destruct (from_str_fields t Ht Hf) as (_ & _ & -> & _). unfold point_of. cbn [row]. rewrite N.ltb_lt, <- line_count_flat. lia.
Qed.

Lemma skip_entries_ok a b : ts = a ++ b → ∃ b1 b2, b = b1 ++ b2 ∧ skip_entries has_newline (rope_of a) (rope_of b) = AtChunk (rope_of (a ++ b1)) (rope_of b2) ∧
  flat (concat b1) ∧ match b2 with u :: _ => ¬ flat u | [] => True end.
Proof using All.
  revert a. induction b as [|t b IH]; intros a E; [exists [], []; split_and!; [done|by rewrite app_nil_r|constructor|done]|].
  cbn [rope_of fmap list_fmap skip_entries]. destruct (has_newline (entry_of t)) eqn:H.
  - exists [], (t :: b). rewrite app_nil_r. split; [done|]. split; [done|]. split; [constructor|]. by apply (has_newline_entry a t b E).
  - destruct (IH (a ++ [t])) as (b1 & b2 & -> & Hs & Hf & Hb2); [by rewrite <- app_assoc|]. exists (t :: b1), b2. split; [done|].
    split; [rewrite (rope_of_app a [t]), <- app_assoc in Hs; exact Hs|]. split; [|done]. cbn. apply flat_app. split; [|done].
    apply dec_stable. intros Hn. apply (has_newline_entry a t _ E) in Hn. congruence.
Qed.

Lemma back_entries_ok a b : ts = a ++ b → b ≠ [] →
  (flat (concat a) ∧ back_entries has_newline (rev (rope_of a)) (rope_of b) = BeforeFirst (rope_of ts)) ∨
  (∃ a1 u a2, a = a1 ++ u :: a2 ∧ ¬ flat u ∧ flat (concat a2) ∧ back_entries has_newline (rev (rope_of a)) (rope_of b) = AtChunk (rope_of a1) (rope_of (u :: a2 ++ b))).
Proof using All.
  revert b. induction a as [|t a IH] using rev_ind; intros b E Hb.
  - left. split; [constructor|]. cbn in E. subst b. cbn. by destruct ts.
  - rewrite rope_of_app, rev_app_distr. cbn [rope_of fmap list_fmap rev app back_entries]. rewrite <- app_assoc in E. cbn [app] in E.
    destruct (has_newline (entry_of t)) eqn:H.
    + right. exists a, t, []. split; [done|]. split; [by apply (has_newline_entry a t b E)|]. split; [constructor|]. cbn. by rewrite rev_involutive.
    + assert (flat t) as Ht by (apply dec_stable; intros Hn; apply (has_newline_entry a t b E) in Hn; congruence).
      destruct (IH (t :: b) E) as [[Hfl Hr]|(a1 & u & a2 & -> & Hu & Hfl & Hr)]; [done| |].
      * left. rewrite concat_app. split; [apply flat_app; split; [done|]; cbn; by rewrite app_nil_r|exact Hr].
      * right. exists a1, u, (a2 ++ [t]). split; [by rewrite <- app_assoc|]. split; [done|]. split; [rewrite concat_app; apply flat_app; split; [done|]; cbn; by rewrite app_nil_r|].
        rewrite <- app_assoc. exact Hr.
Qed.

Record lined (c : Chunks) (a b : list Text) (s e o : nat) : Prop := {
  li_cursor : at_place (ck_cursor c) a b;
  li_range : ck_range c = (s, e);
  li_offset : ck_offset c = o;
  li_dir : ck_reversed c = false;
  li_order : s ≤ o ≤ e;
  li_bounds : is_char_boundary whole o = true ∧ is_char_boundary whole s = true ∧ is_char_boundary whole e = true;
  li_place : length (concat a) ≤ o ∧ match b with t :: _ => o < length (concat a) + length t ∨ o = e ∧ o = length (concat a) + length t | [] => True end;
}.

Lemma lined_forward c a b s e o : lined c a b s e o → o < e → forward c a b o e.
Proof using.
  intros [[Hc Hsp] Hr Ho Hd Hse (Hbo & _ & Hbe) Hp] Hlt. split; try done.
  - rewrite Hr. cbn. destruct Hse. done.
  - destruct Hp as [Hp1 Hp2]. split; [done|]. destruct b as [|t b]; [done|]. destruct Hp2 as [?|[-> _]]; [done|]. by apply Nat.lt_irrefl in Hlt.
Qed.
Lemma lined_end c a b s e o : lined c a b s e o → e ≤ o → chunks_next c = Some (None, c).
Proof using.
  intros [_ Hr Ho Hd _ _ _] Hle. unfold chunks_next, peek, offset_is_valid. rewrite Hd, Ho, Hr. cbn [fst snd]. rewrite (proj2 (Nat.leb_le e o)), orb_true_r by done. done.
Qed.

(** A seek puts the iterator anywhere in its range. *)
Lemma seek_lined cur s e x : tc_all cur = rope_of ts → s ≤ x ≤ e → is_char_boundary whole x = true → is_char_boundary whole s = true → is_char_boundary whole e = true →
  ∃ a b, lined (mkChunks (tc_seek cur x Cursor.Right) (s, e) x false) a b s e x.
Proof using All.
  intros Hall Hse Hx Hs He. unfold tc_seek. rewrite Hall. destruct (seek_strictly MAX_BASE HMAX ts Hok Hbal Hfits [] ts x eq_refl) as (a & b & E & Hsk & Hst1 & Hst2); [cbn; split; [lia|by apply boundary_le]|].
  change (rope_of []) with (@nil (Chunk * TextSummary)) in Hsk. rewrite Hsk. exists a, b. split; cbn; try done. split; [done|]. destruct b; [done|by left].
Qed.

(** What a forward iterator sees at a place of its cursor. *)
Lemma peek_at cur a t b s e x : at_place cur a (t :: b) → length (concat a) ≤ x ≤ length (concat a) + length t → s ≤ x < e →
  is_char_boundary whole x = true → is_char_boundary whole e = true →
  peek (mkChunks cur (s, e) x false) = Some (Some (drop x (take (Nat.min e (length (concat a) + length t)) whole))) ∧
  is_char_boundary whole (Nat.min e (length (concat a) + length t)) = true.
Proof using All.
  intros [Hc Hsp] Hx Hr Hbx Hbe. set (A := length (concat a)) in *. remember (Nat.min e (A + length t)) as m eqn:Em.
  assert (is_char_boundary whole m = true) as Hbm.
  { destruct (Nat.min_spec e (A + length t)) as [[_ E]|[_ E]]; rewrite E in Em; subst m; [done|].
    assert (ts = (a ++ [t]) ++ b) as E' by by rewrite <- app_assoc. pose proof (prefix_boundary MAX_BASE HMAX ts Hok Hfits _ _ E') as Hb.
    rewrite concat_app, length_app in Hb. cbn in Hb. by rewrite app_nil_r in Hb. }
  split; [|done]. destruct (chunk_part MAX_BASE HMAX ts Hok Hbal Hfits a t b x m Hsp) as [Hsl Hu]; [apply Hx|lia|lia|done|done|]. fold A in Hsl.
  assert (tc_start cur = A) as Est by (rewrite Hc; apply entries_len_of). assert (tc_end cur = A + length t) as Een by (rewrite Hc, tc_end_of; done).
  unfold peek, offset_is_valid, slice_range. cbn [ck_reversed ck_offset ck_range ck_cursor fst snd]. rewrite Est, Een.
  rewrite (proj2 (Nat.ltb_ge x s)), (proj2 (Nat.leb_gt e x)) by lia. cbn [orb negb]. rewrite Hc. cbn [tc_item rope_of fmap list_fmap entry_of].
  rewrite !(checked_sub_ok MAX_BASE HMAX ts Hok Hfits) by lia. cbn [mbind option_bind text chunk_of].
  replace (Nat.min (A + length t) e) with m by lia. by rewrite Hsl.
Qed.

(** Settling at an offset inside or at the end of the chunk under the cursor. *)
Definition settle (found : bool) (c : Chunks) : option (bool * Chunks) :=
  if ck_offset c =? tc_end (ck_cursor c) then '(_, c) ← chunks_next c; Some (found, c) else Some (found, c).

Lemma settle_ok found cur a t b s e x : at_place cur a (t :: b) → s ≤ x ≤ e → length (concat a) ≤ x ≤ length (concat a) + length t →
  is_char_boundary whole x = true → is_char_boundary whole s = true → is_char_boundary whole e = true →
  ∃ c' a' b', settle found (mkChunks cur (s, e) x false) = Some (found, c') ∧ lined c' a' b' s e x.
Proof using All.
  intros Hp Hse Hx Hbx Hbs Hbe. unfold settle. cbn [ck_offset ck_cursor]. rewrite (proj1 Hp), tc_end_of.
  destruct (Nat.eqb_spec x (length (concat a) + length t)) as [E|Hne].
  2: { eexists _, a, (t :: b). split; [done|]. split; cbn [ck_cursor ck_range ck_offset ck_reversed]; [split; [done|apply Hp]|done..|split; [apply Hx|left; apply Nat.le_neq; split; [apply Hx|done]]]. }
  rewrite <- (proj1 Hp). destruct (decide (x = e)) as [Exe|Hxe].
  - assert (lined (mkChunks cur (s, e) x false) a (t :: b) s e x) as Hl.
    { split; cbn [ck_cursor ck_range ck_offset ck_reversed]; [done..|split; [apply Hx|by right]]. }
    rewrite (lined_end _ _ _ _ _ _ Hl) by lia. cbn [mbind option_bind]. by eexists _, a, (t :: b).
  - destruct (peek_at cur a t b s e x Hp Hx ltac:(lia) Hbx Hbe) as [Hpk _]. unfold chunks_next. rewrite Hpk. cbn [mbind option_bind].
    rewrite drop_ge by (rewrite length_take; lia). unfold advance. cbn [ck_reversed ck_offset ck_range ck_cursor mbind option_bind length].
    rewrite (proj1 Hp), tc_end_of, Nat.add_0_r, (proj2 (Nat.leb_le _ x)) by lia.
    eexists _, (a ++ [t]), b. split; [done|]. destruct Hp as [_ Hsp].
    split; cbn [ck_cursor ck_range ck_offset ck_reversed]; [split; [cbn [tc_next rope_of fmap list_fmap]; by rewrite (rope_of_app a [t])|by rewrite <- app_assoc]|done..|].
    rewrite concat_app, length_app. cbn. rewrite app_nil_r. split; [lia|]. destruct b as [|u b]; [done|].
    pose proof (nonempty_chunk MAX_BASE ts Hok (a ++ [t]) u b ltac:(by rewrite <- app_assoc)). left. lia.
Qed.

(** A newline found in the piece [l ++ LF :: r] from [o] on. *)
Lemma settle_newline found cur a t b s e o m l r : at_place cur a (t :: b) → s ≤ o → m ≤ e → m ≤ length (concat a) + length t → length (concat a) ≤ o →
  is_char_boundary whole s = true → is_char_boundary whole e = true → drop o (take m whole) = l ++ LF :: r →
  ∃ c' a' b', settle found (mkChunks cur (s, e) (o + length l + 1) false) = Some (found, c') ∧ lined c' a' b' s e (o + length l + 1) ∧ o + length l + 1 ≤ e.
Proof using All.
  intros Hp Hs Hm Hmt Ha Hbs Hbe E. destruct (slice_boundary MAX_BASE HMAX ts Hok Hbal Hfits o m l r E) as [_ Hb]. destruct (slice_newline ts o m l r E) as [_ Hlt].
  destruct (settle_ok found cur a t b s e (o + length l + 1) Hp) as (c' & a' & b' & H1 & H2); [lia|lia|done..|]. exists c', a', b'. split; [done|]. split; [done|lia].
Qed.

Lemma settle_past found c : ck_reversed c = false → (ck_range c).2 ≤ ck_offset c → settle found c = Some (found, c).
Proof using.
  intros Hd Hle. unfold settle. destruct (_ =? _); [|done]. unfold chunks_next, peek, offset_is_valid. rewrite Hd, (proj2 (Nat.leb_le _ (ck_offset c))), orb_true_r by done. done.
Qed.

(** *** Forwards *)

Lemma next_place_flat e o : flat (drop o (take e whole)) → next_place whole e o = (false, e).
Proof using. intros H. unfold next_place. by rewrite (position_flat _ H). Qed.
Lemma next_place_newline e o l r : drop o (take e whole) = l ++ LF :: r → flat l → next_place whole e o = (true, o + length l + 1).
Proof using. intros E H. unfold next_place. by rewrite E, (position_first _ _ H). Qed.

(** No newline from [o] to the end of the chunks [t] and [b1] that were searched. *)
Lemma searched_flat a t b1 b2 o e : ts = a ++ t :: b1 ++ b2 → length (concat a) ≤ o ≤ length (concat a) + length t → o ≤ e →
  flat (drop o (take (Nat.min e (length (concat a) + length t)) whole)) → flat (concat b1) →
  flat (drop o (take (Nat.min e (length (concat (a ++ t :: b1)))) whole)).
Proof using HMAX.
  intros E Ho Hoe Hv Hb. assert (length (concat (a ++ t :: b1)) = length (concat a) + length t + length (concat b1)) as -> by (rewrite concat_app, length_app; cbn; rewrite length_app; lia).
  rewrite (take_cut whole o (Nat.min e (length (concat a) + length t))) by lia. apply flat_app. split; [done|].
  destruct (Nat.min_spec e (length (concat a) + length t)) as [[Hlt ->]|[Hge ->]]; [rewrite drop_ge; [constructor|rewrite length_take; lia]|].
  rewrite skipn_firstn_comm, E, concat_app. cbn [concat]. rewrite concat_app, drop_app_ge by lia. rewrite (Nat.add_comm _ (length t)), Nat.add_sub, drop_app_length.
  rewrite take_app_le by lia. by apply Forall_take.
Qed.

(** The last lines of [next_line]: an offset past the range is clamped to it. *)
Definition clamped (found : bool) (c : Chunks) : option (bool * Chunks) :=
  if (ck_range c).2 <? ck_offset c then
    let o := Nat.min (ck_offset c) (ck_range c).2 in
    Some (found, with_offset (with_cursor c (tc_seek (ck_cursor c) o Cursor.Right)) o)
  else Some (found, c).

Lemma clamped_lined found c a b s e o : lined c a b s e o → clamped found c = Some (found, c).
Proof using. intros [_ Hr Ho _ [_ Hoe] _ _]. unfold clamped. rewrite Hr, Ho. cbn [snd]. by rewrite (proj2 (Nat.ltb_ge e o)). Qed.

Lemma clamped_past found cur a b s e x : at_place cur a b → s ≤ e → e ≤ x → is_char_boundary whole s = true → is_char_boundary whole e = true →
  (x = e → length (concat a) = e ∧ b = []) → ∃ c' a' b', clamped found (mkChunks cur (s, e) x false) = Some (found, c') ∧ lined c' a' b' s e e.
Proof using All.
  intros Hp Hse Hx Hbs Hbe Heq. unfold clamped. cbn [ck_range ck_offset ck_cursor snd]. destruct (Nat.ltb_spec e x) as [Hlt|Hge].
  - rewrite Nat.min_r by done. destruct (seek_lined cur s e e) as (a' & b' & Hl); [destruct Hp as [-> ->]; cbn [tc_all]; by rewrite <- rope_of_app|lia|done..|].
    by eexists _, a', b'.
  - assert (x = e) as -> by lia. destruct (Heq eq_refl) as [EA ->]. eexists _, a, []. split; [done|]. split; cbn [ck_cursor ck_range ck_offset ck_reversed]; [done..|]. split; [lia|done].
Qed.

Lemma next_line_unfold c : ck_reversed c = false → next_line c =
  p ← peek c;
  '(found, c) ←
    match p with
    | None => Some (false, c)
    | Some chunk =>
        match position is_newline chunk with
        | Some i => settle (ck_offset c + i + 1 <=? (ck_range c).2) (with_offset c (ck_offset c + i + 1))
        | None =>
            let cur := tc_search_forward has_newline (ck_cursor c) in
            p ← peek (with_offset (with_cursor c cur) (tc_start cur));
            match (chunk ← p; position is_newline chunk) with
            | Some i => settle (tc_start cur + i + 1 <=? (ck_range c).2) (with_offset (with_cursor c cur) (tc_start cur + i + 1))
            | None => settle false (with_offset (with_cursor c cur) (tc_end cur))
            end
        end
    end;
  clamped found c.
Proof using.
  intros Hd. unfold next_line. rewrite Hd. destruct (peek c) as [[p|]|]; cbn [mbind option_bind]; [|done..].
  destruct (position is_newline p); cbn [mbind option_bind]; [done|]. cbn [ck_cursor with_cursor with_offset ck_offset ck_range].
  destruct (peek _) as [q|]; cbn [mbind option_bind]; [|done]. by destruct (q ≫= _).
Qed.

(** What the movement does once the piece under the cursor has no newline. *)
Definition next_search (c : Chunks) (cur : TreeCursor) : option (bool * Chunks) :=
  '(found, c) ←
    (p ← peek (with_offset (with_cursor c cur) (tc_start cur));
     match (chunk ← p; position is_newline chunk) with
     | Some i => settle (tc_start cur + i + 1 <=? (ck_range c).2) (with_offset (with_cursor c cur) (tc_start cur + i + 1))
     | None => settle false (with_offset (with_cursor c cur) (tc_end cur))
     end);
  clamped found c.

(** The search ended in the chunk [u] with a newline, or past the last one. *)
Lemma next_search_ok c cur a b s e o : at_place cur a b → ck_range c = (s, e) → ck_reversed c = false → s ≤ o ≤ e → o ≤ length (concat a) →
  is_char_boundary whole s = true → is_char_boundary whole e = true → flat (drop o (take (Nat.min e (length (concat a))) whole)) →
  match b with u :: _ => ¬ flat u | [] => True end →
  ∃ c' a' b', next_search c cur = Some ((next_place whole e o).1, c') ∧ lined c' a' b' s e (next_place whole e o).2.
Proof using All.
  intros Hp Hr Hd Hse Ho Hbs Hbe Hfl Hu. set (A := length (concat a)) in *. unfold next_search, with_offset, with_cursor. cbn [ck_cursor ck_range ck_offset ck_reversed].
  rewrite Hr, Hd. assert (tc_start cur = A) as -> by (rewrite (proj1 Hp); apply entries_len_of). cbn [snd].
  assert (∀ x, e ≤ x → (x = e → A = e ∧ b = []) → flat (drop o (take e whole)) → ∃ c' a' b',
    ('(found, c) ← settle false (mkChunks cur (s, e) x false); clamped found c) = Some ((next_place whole e o).1, c') ∧ lined c' a' b' s e (next_place whole e o).2) as Hpast.
  { intros x Hx Heq Hf. rewrite (next_place_flat e o Hf), settle_past by done. cbn [mbind option_bind fst snd].
    by apply (clamped_past false cur a b s e x Hp); [lia|..]. }
  assert (tc_end cur = match b with t :: _ => A + length t | [] => A end) as Een by (rewrite (proj1 Hp); apply tc_end_of).
  destruct (decide (e ≤ A)) as [Hle|Hlt].
  - rewrite Nat.min_l in Hfl by done. unfold peek at 1, offset_is_valid. cbn [ck_reversed ck_offset ck_range snd fst]. rewrite (proj2 (Nat.leb_le e A)), orb_true_r by done.
    cbn [negb mbind option_bind]. rewrite Een. apply Hpast; [destruct b; lia| |done]. intros Hx. destruct b as [|u b]; [done|].
    pose proof (nonempty_chunk MAX_BASE ts Hok a u b (proj2 Hp)). lia.
  - destruct b as [|u b]; [pose proof (boundary_le _ _ Hbe) as Hl; destruct Hp as [_ Hsp]; rewrite app_nil_r in Hsp; subst a; lia|].
    assert (is_char_boundary whole A = true) as HbA by (eapply prefix_boundary; [exact HMAX|exact Hok|exact Hfits|exact (proj2 Hp)]).
    destruct (peek_at cur a u b s e A Hp) as [Hpk _]; [fold A; lia|lia|done|done|]. fold A in Hpk. rewrite Hpk. cbn [mbind option_bind]. rewrite Nat.min_r in Hfl by lia.
    set (m := Nat.min e (A + length u)) in *. pose proof (first_newline (drop A (take m whole))) as Hv. destruct (position is_newline (drop A (take m whole))) as [i|].
    + destruct Hv as (l & r & E & Hl & <-). destruct (settle_newline (A + length l + 1 <=? e) cur a u b s e A m l r Hp) as (c' & a' & b' & -> & Hlc & Hle); [lia..|done|done|done|].
      cbn [mbind option_bind]. rewrite (clamped_lined _ _ _ _ _ _ _ Hlc), (proj2 (Nat.leb_le _ e)) by done.
      assert (drop o (take e whole) = (drop o (take A whole) ++ l) ++ LF :: (r ++ drop m (take e whole))) as Eo.
      { rewrite (take_cut whole o A) by lia. rewrite (take_cut whole A m e) by lia. rewrite E. by rewrite <- !app_assoc. }
      rewrite (next_place_newline e o _ _ Eo) by (apply flat_app; by split). rewrite length_app, length_drop, length_take.
      pose proof (boundary_le _ _ HbA). replace (o + (Nat.min A (length whole) - o + length l) + 1) with (A + length l + 1) by lia. by exists c', a', b'.
    + assert (e < A + length u) as Hltu.
      { destruct (decide (e < A + length u)) as [|Hn]; [done|]. exfalso. apply Hu. unfold m in Hv. rewrite Nat.min_r in Hv by lia.
        destruct Hp as [_ Hsp]. rewrite Hsp, concat_app in Hv. cbn [concat] in Hv. fold (concat a) in Hv.
        unfold A in Hv. rewrite take_app_ge, drop_app_length, Nat.add_comm, Nat.add_sub, take_app_length in Hv by lia. done. }
      rewrite Een. apply Hpast; [lia|lia|]. rewrite (take_cut whole o A) by lia. apply flat_app. split; [done|].
      unfold m in Hv. by rewrite Nat.min_l in Hv by lia.
Qed.

Lemma next_line_ok c a b s e o : lined c a b s e o →
  ∃ c' a' b', next_line c = Some ((next_place whole e o).1, c') ∧ lined c' a' b' s e (next_place whole e o).2.
Proof using All.
  intros Hl. pose proof Hl as [Hp Hr Ho Hd Hse (Hbo & Hbs & Hbe) Hpl]. rewrite (next_line_unfold c Hd). destruct (decide (o = e)) as [->|Hne].
  - rewrite (peek_done c) by (by eapply lined_end). cbn [mbind option_bind]. rewrite (clamped_lined _ _ _ _ _ _ _ Hl).
    rewrite next_place_flat by (rewrite drop_ge; [constructor|rewrite length_take; lia]). by exists c, a, b.
  - destruct b as [|t b]; [destruct Hp as [_ Hsp]; rewrite app_nil_r in Hsp; pose proof (boundary_le _ _ Hbe); subst a; lia|].
    assert (length (concat a) ≤ o ≤ length (concat a) + length t) as Hin by lia.
    destruct c as [cur rng off rv]. cbn in Hp, Hr, Ho, Hd. subst rng off rv.
    destruct (peek_at cur a t b s e o Hp Hin ltac:(lia) Hbo Hbe) as [-> _]. cbn [mbind option_bind with_offset with_cursor ck_cursor ck_range ck_offset ck_reversed snd].
    set (m := Nat.min e (length (concat a) + length t)) in *. pose proof (first_newline (drop o (take m whole))) as Hv. destruct (position is_newline (drop o (take m whole))) as [i|].
    + destruct Hv as (l & r & E & Hfl & <-). destruct (settle_newline (o + length l + 1 <=? e) cur a t b s e o m l r Hp) as (c' & a' & b' & Hs & Hlc & Hle); [lia..|done|done|done|].
      unfold with_offset. cbn [ck_cursor ck_range ck_offset ck_reversed]. rewrite Hs. cbn [mbind option_bind]. rewrite (clamped_lined _ _ _ _ _ _ _ Hlc), (proj2 (Nat.leb_le _ e)) by done.
      rewrite (next_place_newline e o l (r ++ drop m (take e whole))); [by exists c', a', b'| |done]. by rewrite (take_cut whole o m) by lia; rewrite E, <- app_assoc.
    + destruct (skip_entries_ok (a ++ [t]) b) as (b1 & b2 & -> & Hsk & Hfb & Hb2); [rewrite <- app_assoc; apply Hp|].
      rewrite <- app_assoc in Hsk. cbn [app] in Hsk. pose proof (proj2 Hp) as Hsp.
      assert (tc_search_forward has_newline cur = AtChunk (rope_of (a ++ t :: b1)) (rope_of b2)) as Hcur.
      { rewrite (proj1 Hp). cbn [rope_of fmap list_fmap tc_search_forward]. rewrite <- Hsk. by rewrite (rope_of_app a [t]). }
      apply (next_search_ok (mkChunks cur (s, e) o false) (tc_search_forward has_newline cur) (a ++ t :: b1) b2 s e o); [|done|done|done| |done|done| |done].
      * split; [done|]. by rewrite <- app_assoc.
      * rewrite concat_app, length_app. cbn. rewrite length_app. lia.
      * apply (searched_flat a t b1 b2); [exact Hsp|exact Hin|apply Hse|exact Hv|exact Hfb].
Qed.

(** *** Backwards *)

(** The second half of [prev_line], from the cursor in the chunk of [initial]. *)
Definition prev_search (cur : TreeCursor) (range : nat * nat) (initial : nat) : option (bool * Chunks) :=
  let cur := tc_search_backward has_newline cur in
  let c := mkChunks cur range (tc_start cur) false in
  there ← match tc_item cur with
          | None => Some None
          | Some chunk => chunk_line_start c chunk (length (text chunk))
          end;
  let c := match there with Some o => with_offset c o | None => c end in
  if match there with Some _ => offset_is_valid c | None => false end then
    Some (true, if ck_offset c =? tc_end cur then with_cursor c (tc_next cur) else c)
  else
    let c := if negb (offset_is_valid c) || match tc_item cur with None => true | Some _ => false end
             then with_offset (with_cursor c (tc_seek cur (ck_range c).1 Cursor.Right)) (ck_range c).1 else c in
    Some ((ck_offset c <? initial) && (ck_offset c =? 0), c).

Lemma offset_is_valid_in cur s e x : x < e → offset_is_valid (mkChunks cur (s, e) x false) = (s <=? x).
Proof using HMAX.
  intros H. unfold offset_is_valid. cbn [ck_reversed ck_offset ck_range fst snd]. rewrite (proj2 (Nat.leb_gt e x)) by done. rewrite orb_false_r.
  destruct (Nat.ltb_spec x s), (Nat.leb_spec s x); done || lia.
Qed.

(** Where the last line starts in a text that ends in a chunk without newline. *)
Lemma last_start l : match rposition is_newline l with Some i => i + 1 ≤ length l | None => True end.
Proof using HMAX. destruct (rposition is_newline l) eqn:E; [|done]. apply rposition_bound in E as [? _]. lia. Qed.

(** Giving up puts the iterator at the start of its range. *)
Lemma range_start_found cur s e o : tc_all cur = rope_of ts → s ≤ e → is_char_boundary whole s = true → is_char_boundary whole e = true →
  (s <=? line_before whole o) && (0 <? o) = (s <? o) && (s =? 0) → ((s <=? line_before whole o) && (0 <? o) = true → line_before whole o = s) →
  ∃ c' a' b', Some ((s <? o) && (s =? 0), mkChunks (tc_seek cur s Cursor.Right) (s, e) s false) = Some ((prev_place whole s o).1, c') ∧
    lined c' a' b' s e (prev_place whole s o).2.
Proof using All.
  intros Hall Hse Hbs Hbe Hb Hlb. destruct (seek_lined cur s e s Hall) as (a' & b' & Hl); [lia|done..|]. unfold prev_place. rewrite Hb. rewrite Hb in Hlb.
  eexists _, a', b'. destruct ((s <? o) && (s =? 0)) eqn:Eb; cbn [fst snd]; [|by split]. split; [done|]. by rewrite (Hlb eq_refl).
Qed.

Lemma prev_search_ok a t b s e o : ts = a ++ t :: b → length (concat a) < o → s ≤ o ≤ e →
  is_char_boundary whole s = true → is_char_boundary whole e = true →
  (line_before whole o = match rposition is_newline (concat a) with Some i => i + 1 | None => 0 end ∨ length (concat a) < line_before whole o < s) →
  ∃ c' a' b', prev_search (AtChunk (rope_of a) (rope_of (t :: b))) (s, e) o = Some ((prev_place whole s o).1, c') ∧ lined c' a' b' s e (prev_place whole s o).2.
Proof using All.
  intros E Ho Hse Hbs Hbe Hlb. unfold prev_search. cbn [tc_search_backward].
  destruct (back_entries_ok a (t :: b) E ltac:(done)) as [[Hfl ->]|(a2 & u & a3 & -> & Hu & Hfl & ->)].
  - cbn [tc_item mbind option_bind tc_start]. unfold with_offset, with_cursor. cbn [ck_cursor ck_range ck_offset ck_reversed fst snd]. rewrite orb_true_r. cbn [ck_offset].
    apply (range_start_found (BeforeFirst (rope_of ts))); [done|lia|done|done| |]; rewrite (rposition_flat _ Hfl) in Hlb.
    + destruct Hlb as [->|Hlb]; destruct (Nat.leb_spec s 0), (Nat.ltb_spec 0 o), (Nat.ltb_spec s o), (Nat.eqb_spec s 0), (Nat.leb_spec s (line_before whole o)); cbn; lia || done.
    + intros Hv. apply andb_prop in Hv as [Hv _]. apply Nat.leb_le in Hv. lia.
  - rewrite concat_app, length_app in Ho. cbn [concat] in Ho. rewrite length_app in Ho. set (A := length (concat a2)) in *. rewrite <- app_assoc in E. cbn [app] in E.
    change (rope_of (u :: a3 ++ t :: b)) with (entry_of u :: rope_of (a3 ++ t :: b)).
    cbn [tc_item entry_of mbind option_bind tc_start]. rewrite entries_len_of. fold A. unfold chunk_line_start. cbn [ck_cursor tc_start text chunk_of]. rewrite entries_len_of. fold A.
    rewrite str_slice_ok by (apply boundary_length || done || lia). rewrite firstn_all. change (drop 0 u) with u. cbn [mbind option_bind].
    pose proof (last_newline u) as Hn. destruct (rposition is_newline u) as [i|] eqn:Ei; [|done]. cbn [mbind option_bind]. apply rposition_bound in Ei as Hi. destruct Hi as [Hi Hli].
    unfold with_offset, with_cursor. cbn [ck_cursor ck_range ck_offset ck_reversed fst snd]. rewrite !offset_is_valid_in by lia.
    assert (rposition is_newline (concat (a2 ++ u :: a3)) = Some (A + i)) as Er.
    { rewrite concat_app. cbn [concat]. by rewrite !rposition_app, (rposition_flat _ Hfl), Ei. }
    rewrite Er in Hlb. rewrite concat_app, length_app in Hlb. cbn [concat] in Hlb. rewrite length_app in Hlb. fold A in Hlb. destruct (Nat.leb_spec s (A + i + 1)) as [Hv|Hv].
    + assert (line_before whole o = A + i + 1) as El by lia. unfold prev_place. rewrite El, (proj2 (Nat.leb_le s _)), (proj2 (Nat.ltb_lt 0 o)) by lia. cbn [andb fst snd tc_end entry_of].
      assert (is_char_boundary whole (A + i + 1) = true) as Hb.
      { rewrite Nat.add_1_r. apply newline_boundary; [by apply (whole_chars MAX_BASE HMAX ts)|]. rewrite E, concat_app. cbn [concat].
        rewrite lookup_app_r by (unfold A; lia). replace (A + i - length (concat a2)) with i by (unfold A; lia). by rewrite lookup_app_l. }
      rewrite entries_len_of. fold A. change (s_len (from_str u)) with (s_len (entry_of u).2).
      assert (s_len (entry_of u).2 = length u) as -> by (pose proof (tc_end_of a2 [u]) as H; cbn in H; rewrite entries_len_of in H; cbn; lia).
      destruct (Nat.eqb_spec (A + i + 1) (A + length u)) as [Ee|Ee].
      * eexists _, (a2 ++ [u]), (a3 ++ t :: b). split; [done|]. split; cbn [ck_cursor ck_range ck_offset ck_reversed tc_next]; [|done|done|done|lia|done|].
        -- split; [by rewrite (rope_of_app a2 [u])|by rewrite <- app_assoc].
        -- rewrite concat_app, length_app. cbn. rewrite app_nil_r. fold A. split; [lia|]. destruct (a3 ++ t :: b) as [|w k] eqn:Ew; [done|].
           pose proof (nonempty_chunk MAX_BASE ts Hok (a2 ++ [u]) w k ltac:(by rewrite <- app_assoc)). left. lia.
      * eexists _, a2, (u :: a3 ++ t :: b). split; [done|]. split; cbn [ck_cursor ck_range ck_offset ck_reversed tc_next]; [by split|done|done|done|lia|done|].
        fold A. lia.
    + cbn [negb orb]. cbn [ck_offset]. apply (range_start_found (AtChunk (rope_of a2) (entry_of u :: rope_of (a3 ++ t :: b)))); [|lia|done|done| |].
      * cbn [tc_all]. change (entry_of u :: rope_of (a3 ++ t :: b)) with (rope_of (u :: a3 ++ t :: b)). by rewrite <- rope_of_app, <- E.
      * rewrite (proj2 (Nat.leb_gt s (line_before whole o))) by lia. rewrite (proj2 (Nat.eqb_neq s 0)) by lia. by rewrite andb_false_r.
      * rewrite (proj2 (Nat.leb_gt s (line_before whole o))) by lia. done.
Qed.

(** The first half of [prev_line]: the line that starts before [o] in the chunk under the cursor. *)
Definition here_start (cur : TreeCursor) (o : nat) : option (option nat) :=
  match tc_item cur with
  | None => Some None
  | Some chunk =>
      end_ix ← checked_sub o (tc_start cur);
      last ← checked_sub end_ix 1;
      b ← text chunk !! last;
      chunk_line_start (mkChunks cur (0, 0) 0 false) chunk (if is_newline b then last else end_ix)
  end.

Lemma prev_line_unfold cur s e o : prev_line (mkChunks cur (s, e) o false) =
  let cur := if o =? tc_start cur then tc_prev cur else cur in
  here ← here_start cur o;
  match here with
  | Some p => if offset_is_valid (mkChunks cur (s, e) p false) then Some (true, mkChunks cur (s, e) p false) else prev_search cur (s, e) o
  | None => prev_search cur (s, e) o
  end.
Proof using.
  unfold prev_line, here_start, prev_search, with_offset, with_cursor. cbn [ck_cursor ck_range ck_offset ck_reversed].
  destruct (o =? tc_start cur); cbn [ck_cursor ck_range ck_offset ck_reversed].
  all: match goal with |- context [tc_item ?k] => destruct (tc_item k); cbn [mbind option_bind ck_offset]; [|done] end.
  all: destruct (checked_sub o _) as [x|]; cbn [mbind option_bind]; [|done]; destruct (checked_sub x 1) as [y|]; cbn [mbind option_bind]; [|done].
  all: destruct (_ !! y) as [z|]; cbn [mbind option_bind]; [|done]; unfold chunk_line_start; cbn [ck_cursor]; destruct (str_slice _ 0 _); cbn [mbind option_bind]; [|done].
  all: by destruct (rposition is_newline _).
Qed.

Lemma take_last_flat (u : Text) n b : u !! n = Some b → is_newline b = false → rposition is_newline (take (S n) u) = rposition is_newline (take n u).
Proof using. intros Hb Hn. rewrite (take_S_r _ _ _ Hb), rposition_app. cbn. by rewrite Hn. Qed.

Lemma here_start_ok a t b o : ts = a ++ t :: b → length (concat a) < o ≤ length (concat a) + length t → is_char_boundary whole o = true →
  here_start (AtChunk (rope_of a) (rope_of (t :: b))) o =
    Some (i ← rposition is_newline (take (o - 1 - length (concat a)) t); Some (length (concat a) + i + 1)).
Proof using All.
  intros E Ho Hb. destruct (texts_parts MAX_BASE HMAX ts Hok Hbal Hfits a t b E) as (Ht & _ & _).
  pose proof (inner_boundary MAX_BASE HMAX ts Hok Hbal Hfits a t b o E ltac:(lia) Hb) as Hio.
  unfold here_start. change (rope_of (t :: b)) with (entry_of t :: rope_of b). cbn [tc_item entry_of tc_start]. rewrite entries_len_of. set (A := length (concat a)) in *.
  rewrite !(checked_sub_ok MAX_BASE HMAX ts Hok Hfits) by lia. cbn [mbind option_bind text chunk_of].
  rewrite (checked_sub_ok MAX_BASE HMAX ts Hok Hfits) by lia. cbn [mbind option_bind].
  destruct (lookup_lt_is_Some_2 t (o - A - 1)) as [x Hx]; [lia|]. rewrite Hx. cbn [mbind option_bind]. unfold chunk_line_start. cbn [ck_cursor tc_start text chunk_of].
  rewrite entries_len_of. fold A. replace (o - 1 - A) with (o - A - 1) by lia. destruct (is_newline x) eqn:En.
  - apply newline_LF in En as ->. rewrite str_slice_ok by (done || lia || by apply newline_boundary). done.
  - rewrite str_slice_ok by (done || lia). cbn [mbind option_bind]. change (drop 0 (take (o - A) t)) with (take (o - A) t).
    replace (o - A) with (S (o - A - 1)) at 1 by lia. by rewrite (take_last_flat _ _ _ Hx En).
Qed.

(** Both halves, from the chunk that ends or contains [o]. *)
Lemma prev_from_chunk a t b s e o : ts = a ++ t :: b → length (concat a) < o ≤ length (concat a) + length t → s ≤ o ≤ e →
  is_char_boundary whole o = true → is_char_boundary whole s = true → is_char_boundary whole e = true →
  let cur := AtChunk (rope_of a) (rope_of (t :: b)) in
  ∃ c' a' b', (here ← here_start cur o;
    match here with
    | Some p => if offset_is_valid (mkChunks cur (s, e) p false) then Some (true, mkChunks cur (s, e) p false) else prev_search cur (s, e) o
    | None => prev_search cur (s, e) o
    end) = Some ((prev_place whole s o).1, c') ∧ lined c' a' b' s e (prev_place whole s o).2.
Proof using All.
  intros E Ho Hse Hbo Hbs Hbe cur. subst cur. rewrite (here_start_ok a t b o E Ho Hbo). cbn [mbind option_bind]. set (A := length (concat a)) in *.
  assert (line_before whole o = match rposition is_newline (take (o - 1 - A) t) with Some i => A + i + 1 | None => match rposition is_newline (concat a) with Some i => i + 1 | None => 0 end end) as El.
  { unfold line_before. destruct (texts_parts MAX_BASE HMAX ts Hok Hbal Hfits a t b E) as (_ & _ & ->). rewrite take_app_ge by (fold A; lia). fold A.
    rewrite take_app_le by lia. rewrite rposition_app. fold A. by destruct (rposition is_newline (take _ t)). }
  destruct (rposition is_newline (take (o - 1 - A) t)) as [i|] eqn:Ei; cbn [mbind option_bind].
  - apply rposition_bound in Ei as [Hi Hli]. rewrite length_take in Hi. apply lookup_take_Some in Hli as [Hli _].
    rewrite offset_is_valid_in by lia. destruct (Nat.leb_spec s (A + i + 1)) as [Hv|Hv].
    + unfold prev_place. rewrite El, (proj2 (Nat.leb_le s _)), (proj2 (Nat.ltb_lt 0 o)) by lia. cbn [andb fst snd].
      eexists _, a, (t :: b). split; [done|]. split; cbn [ck_cursor ck_range ck_offset ck_reversed]; [by split|done|done|done|lia| |fold A; lia].
      split; [|done]. rewrite Nat.add_1_r. apply newline_boundary; [by apply (whole_chars MAX_BASE HMAX ts)|]. rewrite E, concat_app. cbn [concat].
      rewrite lookup_app_r by (unfold A; lia). replace (A + i - length (concat a)) with i by (unfold A; lia). rewrite lookup_app_l by lia. done.
    + apply prev_search_ok; [done|fold A; lia|done|done|done|]. right. rewrite El. fold A. lia.
  - apply prev_search_ok; [done|fold A; lia|done|done|done|]. left. exact El.
Qed.

Lemma prev_line_ok c a b s e o : lined c a b s e o →
  ∃ c' a' b', prev_line c = Some ((prev_place whole s o).1, c') ∧ lined c' a' b' s e (prev_place whole s o).2.
Proof using All.
  intros [[Hc Hsp] Hr Ho Hd Hse (Hbo & Hbs & Hbe) [Hp1 Hp2]]. destruct c as [cur rng off rv]. cbn in Hc, Hr, Ho, Hd. subst cur rng off rv.
  rewrite prev_line_unfold. cbn [tc_start]. rewrite entries_len_of. destruct (Nat.eqb_spec o (length (concat a))) as [Eo|Hne].
  - destruct a as [|t1 a1 _] using rev_ind.
    + cbn in Eo. subst o. assert (s = 0) as -> by lia.
      destruct (range_start_found (AtChunk [] (rope_of b)) 0 e 0) as (c' & a' & b' & Hg & Hl); [cbn; by rewrite Hsp|lia|done|done|by rewrite andb_false_r|by rewrite andb_false_r|].
      exists c', a', b'. split; [|done]. cbn zeta. rewrite <- Hg. cbn in Hsp. subst b. change (rope_of []) with (@nil (Chunk * TextSummary)). unfold prev_search. destruct ts; cbn -[offset_is_valid tc_seek]; by rewrite orb_true_r.
    + rewrite rope_of_app. change (rope_of [t1]) with [entry_of t1]. cbn zeta. cbn [tc_prev]. rewrite last_snoc, removelast_last. rewrite concat_app, length_app in Eo. cbn in Eo. rewrite app_nil_r in Eo.
      rewrite <- app_assoc in Hsp. cbn [app] in Hsp. pose proof (nonempty_chunk MAX_BASE ts Hok a1 t1 b Hsp).
      apply (prev_from_chunk a1 t1 b s e o); done || lia.
  - destruct b as [|t b]; [rewrite app_nil_r in Hsp; pose proof (boundary_le _ _ Hbo); subst a; lia|]. apply (prev_from_chunk a t b s e o); done || lia.
Qed.

End moves.
