(* ===== verification/RopeReading.v ===== *)
(** * Reading a rope by bytes and by lines

    What a rope of built chunks hands out over a range: its bytes, the lines
    between its newlines, and the offsets at which lines start. *)

From S2P Require Import Prelude Text Bitmap Select Utf8 Summary Chunk ChunkBits ChunkOk ChunkPoints ChunkClip ChunkSummary ChunkLongest Rope RopeOk RopeSeek RopeConv RopeClip RopeSlice RopeProps RopeChunks RopeIter RopeRanges RopeLines RopeLinesOk RopeMoves.

(** ** Sequences of line movements, on chunks and on texts *)

Inductive LineMove := NextLine | PrevLine.

Fixpoint move_lines (ms : list LineMove) (c : Chunks) : option (list bool * Chunks) :=
  match ms with
  | [] => Some ([], c)
  | m :: ms =>
      '(found, c) ← match m with NextLine => next_line c | PrevLine => prev_line c end;
      '(others, c) ← move_lines ms c; Some (found :: others, c)
  end.
Fixpoint move_text (t : Text) (s e : nat) (ms : list LineMove) (o : nat) : list bool * nat :=
  match ms with
  | [] => ([], o)
  | m :: ms =>
      let p := match m with NextLine => next_place t e o | PrevLine => prev_place t s o end in
      let q := move_text t s e ms p.2 in (p.1 :: q.1, q.2)
  end.

Section reading.
Context (MAX_BASE : nat) (HMAX : 8 ≤ MAX_BASE ≤ 128).
Context (ts : list Text) (Hok : Forall (text_ok MAX_BASE) ts) (Hbal : balanced MAX_BASE ts) (Hfits : fits32 (concat ts)).
Abbreviation whole := (concat ts).
Abbreviation lined := (lined ts).

Lemma move_lines_ok ms c a b s e o : lined c a b s e o →
  ∃ c' a' b', move_lines ms c = Some ((move_text whole s e ms o).1, c') ∧ lined c' a' b' s e (move_text whole s e ms o).2.
Proof using All.
  revert c a b o. induction ms as [|m ms IH]; intros c a b o Hl; [by exists c, a, b|]. cbn [move_lines move_text fst snd].
  destruct m.
  - destruct (next_line_ok MAX_BASE HMAX ts Hok Hbal Hfits c a b s e o Hl) as (c1 & a1 & b1 & -> & H1). cbn [mbind option_bind].
    destruct (IH _ _ _ _ H1) as (c2 & a2 & b2 & -> & H2). by exists c2, a2, b2.
  - destruct (prev_line_ok MAX_BASE HMAX ts Hok Hbal Hfits c a b s e o Hl) as (c1 & a1 & b1 & -> & H1). cbn [mbind option_bind].
    destruct (IH _ _ _ _ H1) as (c2 & a2 & b2 & -> & H2). by exists c2, a2, b2.
Qed.

Lemma lined_new s e : s ≤ e → is_char_boundary whole s = true → is_char_boundary whole e = true →
  ∃ c a b, chunks_in_range MAX_BASE (rope_of ts) s e = Some c ∧ lined c a b s e s.
Proof using All.
  intros Hse Hs He. destruct (forward_new MAX_BASE HMAX ts Hok Hbal Hfits s e Hse Hs He) as (c & a & b & Hc & [Hcu Hsp Hr Ho Hd Hb [Hp1 Hp2]]).
  assert (ck_range c = (s, e)) as Hrc.
  { unfold chunks_new in Hc. destruct (checked_sub _ _); cbn [mbind option_bind] in Hc; [|done]. repeat case_match; try done; by injection Hc as <-. }
  exists c, a, b. split; [exact Hc|]. split; [by split|done|done|done|lia|by split_and!|]. split; [done|]. destruct b; [done|by left].
Qed.

(** The chunks after a movement are those of the rest of the range. *)
Lemma lined_rest c a b s e o : lined c a b s e o → ∃ l, collect_chunks c = Some l ∧ concat l = drop o (take e whole).
Proof using All.
  intros Hl. destruct (Nat.lt_ge_cases o e) as [Hlt|Hge].
  - pose proof (lined_forward ts c a b s e o Hl Hlt) as Hf. destruct (forward_run MAX_BASE HMAX ts Hok Hbal Hfits (length b) c a b o e) as (l & Hp & Hcat & Hrun); [done|done|].
    exists l. split; [|done]. apply collect_pieces. intros B R f x. apply Hrun. by eapply chunks_fuel_forward.
  - exists []. split; [|symmetry; apply drop_ge; rewrite length_take; lia]. unfold collect_chunks, chunks_fuel. cbn [for_chunks].
    by rewrite (lined_end ts c a b s e o Hl Hge).
Qed.

Lemma bytes_forward_new s e : s ≤ e ≤ length whole →
  ∃ l, collect_bytes (S (S (length ts))) (bytes_new (rope_of ts) s e false) = Some l ∧ concat l = drop s (take e whole).
Proof using All.
  intros Hse. destruct (seek_strict MAX_BASE HMAX ts Hok Hbal Hfits s ltac:(lia)) as (a & b & E & Hsk & Hr1 & Hr2). unfold bytes_new. rewrite Hsk.
  destruct (collect_bytes_forward MAX_BASE HMAX ts Hok Hbal Hfits (S (S (length ts))) (AtChunk (rope_of a) (rope_of b)) a b s e) as (l & Hl & Hcat); [done|done|destruct b; [done|lia]| |].
  - rewrite E, length_app. lia.
  - exists l. split; [done|]. by rewrite Nat.max_l in Hcat.
Qed.
Lemma bytes_backward_new s e : s ≤ e ≤ length whole →
  ∃ l, collect_bytes (S (S (length ts))) (bytes_new (rope_of ts) s e true) = Some l ∧ concat (rev l) = drop s (take e whole).
Proof using All.
  intros Hse. destruct (decide (ts = [])) as [Ets|Hne].
  { exists []. rewrite Ets in Hse |- *. cbn in Hse. assert (e = 0 ∧ s = 0) as [-> ->] by lia. done. }
  destruct (seek_strict_left MAX_BASE HMAX ts Hok Hbal Hfits e ltac:(lia) Hne) as (a & t & b & E & Hsk & Hr & Ha). unfold bytes_new. rewrite Hsk.
  destruct (collect_bytes_backward MAX_BASE HMAX ts Hok Hbal Hfits (S (S (length ts))) (AtChunk (rope_of a) (rope_of (t :: b))) a t b s e) as (l & Hl & Hcat); [done|done|done| |].
  - rewrite E, length_app. cbn. lia.
  - exists l. split; [done|]. by rewrite Nat.min_l in Hcat by lia.
Qed.
End reading.

(** ** Claims *)

Section claims.
Context (MAX_BASE : nat) (HMAX : 8 ≤ MAX_BASE ≤ 128) (NUM_CHUNKS : nat).

(** C28: Over any range of bytes, [Bytes] yields the bytes of the range, as slices
    of chunks from the front or from the back, and as a reader into buffers of
    any sizes, which gets the bytes (reversed ones from the back) and then
    nothing; between character boundaries [Lines] yields the lines of the range
    split at its newlines, however chunks cut them, in either order. *)
Theorem bytes_and_lines_of_range r t s e : built MAX_BASE NUM_CHUNKS r t → s ≤ e ≤ length t →
  (∃ l, collect_bytes (S (S (length r))) (bytes_in_range r s e) = Some l ∧ concat l = drop s (take e t)) ∧
  (∃ l, collect_bytes (S (S (length r))) (reversed_bytes_in_range r s e) = Some l ∧ concat (rev l) = drop s (take e t)) ∧
  (∀ size fuel, (∀ i, 0 < size i) → e - s < fuel →
     read_all fuel size (bytes_in_range r s e) = Some (drop s (take e t)) ∧
     read_all fuel size (reversed_bytes_in_range r s e) = Some (rev (drop s (take e t)))) ∧
  (is_char_boundary t s = true → is_char_boundary t e = true → ∀ fuel, S (e - s) < fuel →
     (c ← chunks_in_range MAX_BASE r s e; collect_lines fuel (lines_of c)) = Some (split_newline (drop s (take e t))) ∧
     (c ← reversed_chunks_in_range MAX_BASE r s e; collect_lines fuel (lines_of c)) = Some (rev (split_newline (drop s (take e t))))).
Proof using HMAX.
  intros H Hse. destruct (built_represents MAX_BASE HMAX NUM_CHUNKS r t H) as [(ts & [-> Hok Hbal] & ->) Hf]. unfold rope_of at 1 3. rewrite length_fmap.
  split; [by apply (bytes_forward_new MAX_BASE HMAX)|]. split; [by apply (bytes_backward_new MAX_BASE HMAX)|]. split.
  - intros size fuel Hsize Hfuel.
    split; [exact (read_all_ok MAX_BASE HMAX ts Hok Hbal Hf fuel size _ s e false (reading_new MAX_BASE HMAX ts Hok Hbal Hf s e false Hse) Hsize Hfuel)|].
    exact (read_all_ok MAX_BASE HMAX ts Hok Hbal Hf fuel size _ s e true (reading_new MAX_BASE HMAX ts Hok Hbal Hf s e true Hse) Hsize Hfuel).
  - intros Hs He fuel Hfuel. split.
    + destruct (forward_new MAX_BASE HMAX ts Hok Hbal Hf s e ltac:(lia) Hs He) as (c & a & b & Hc & Hfw). unfold chunks_in_range. rewrite Hc. cbn [mbind option_bind].
      unfold lines_of. rewrite (fw_dir _ _ _ _ _ _ Hfw). apply (collect_forward MAX_BASE HMAX ts Hok Hbal Hf (e - s) c a b s e); [exact Hfw|apply Hse|apply Nat.le_refl|exact Hfuel].
    + destruct (backward_new MAX_BASE HMAX ts Hok Hbal Hf s e ltac:(lia) Hs He) as (c & a & b & Hc & Hbw & _). unfold reversed_chunks_in_range. rewrite Hc. cbn [mbind option_bind].
      unfold lines_of. rewrite (bw_dir _ _ _ _ _ _ Hbw). apply (collect_backward MAX_BASE HMAX ts Hok Hbal Hf (e - s) c a b s e); [exact Hbw|apply Hse|apply Nat.le_refl|exact Hfuel].
Qed.

(** C29: Any sequence of [next_line] and [prev_line] on the chunks of a range
    succeeds and goes where the text says: to the byte after the next newline
    of the range or else its end, to the start of the line that ends before the
    offset or else the start of the range, answering whether a line started
    there; the chunks that follow are the rest of the range. *)
Theorem line_moves_follow_text r t s e : built MAX_BASE NUM_CHUNKS r t → s ≤ e → is_char_boundary t s = true → is_char_boundary t e = true →
  ∃ c, chunks_in_range MAX_BASE r s e = Some c ∧ ∀ ms, ∃ c' l,
    move_lines ms c = Some ((move_text t s e ms s).1, c') ∧ ck_offset c' = (move_text t s e ms s).2 ∧
    collect_chunks c' = Some l ∧ concat l = drop (move_text t s e ms s).2 (take e t).
Proof using HMAX.
  intros H Hse Hs He. destruct (built_represents MAX_BASE HMAX NUM_CHUNKS r t H) as [(ts & [-> Hok Hbal] & ->) Hf].
  destruct (lined_new MAX_BASE HMAX ts Hok Hbal Hf s e Hse Hs He) as (c & a & b & -> & Hl). exists c. split; [done|]. intros ms.
  destruct (move_lines_ok MAX_BASE HMAX ts Hok Hbal Hf ms c a b s e s Hl) as (c' & a' & b' & -> & Hl').
  destruct (lined_rest MAX_BASE HMAX ts Hok Hbal Hf c' a' b' s e _ Hl') as (l & Hc & Hcat). exists c', l. split_and!; [done|apply (li_offset _ _ _ _ _ _ _ Hl')|done|done].
Qed.
End claims.

(** ** Concrete ranges *)

Lemma bytes_and_lines_of_range_witness :
  read_all 40 (λ _, 3) (reversed_bytes_in_range RopeExamples.rope_ex 3 20) = Some (rev (drop 3 (take 20 RopeExamples.text_ex))) ∧
  (c ← chunks_in_range 16 RopeExamples.rope_ex 1 22; collect_lines 40 (lines_of c)) = Some (split_newline (drop 1 (take 22 RopeExamples.text_ex))) ∧
  length (split_newline (drop 1 (take 22 RopeExamples.text_ex))) = 3.
Proof.
  destruct (bytes_and_lines_of_range 16 max16 16 _ _ 3 20 rope_ex_built) as (_ & _ & Hr & _); [vm_compute; lia|].
  destruct (bytes_and_lines_of_range 16 max16 16 _ _ 1 22 rope_ex_built) as (_ & _ & _ & Hl); [vm_compute; lia|].
  split; [refine (proj2 (Hr (λ _, 3) 40 _ _)); lia|]. split; [refine (proj1 (Hl _ _ 40 _)); [vm_compute; reflexivity|vm_compute; reflexivity|lia]|vm_compute; reflexivity].
Defined.

Lemma line_moves_follow_text_witness :
  ∃ c, chunks_in_range 16 RopeExamples.rope_ex 1 22 = Some c ∧ ∃ c', move_lines [NextLine; NextLine; PrevLine; NextLine; NextLine; PrevLine] c = Some ([true; true; true; true; false; true], c') ∧ ck_offset c' = 21.
Proof.
  destruct (line_moves_follow_text 16 max16 16 _ _ 1 22 rope_ex_built) as (c & Hc & Hms); [lia|reflexivity|reflexivity|]. exists c. split; [exact Hc|].
  destruct (Hms [NextLine; NextLine; PrevLine; NextLine; NextLine; PrevLine]) as (c' & l & Hm & Ho & _). exists c'. rewrite Hm, Ho. vm_compute. split; reflexivity.
Defined.

(** ** What the readers do not promise *)

Module ReadingExamples.
(** A reversed iterator that has run out loses its place: the tree cursor stands
    before the first chunk, from where [seek_forward] passes over the whole tree,
    so nothing is left after a seek back into the range. *)
Definition reversed_end : option Chunks :=
  c ← reversed_chunks_in_range 16 RopeExamples.rope_ex 0 21; '(_, c) ← chunks_next c; '(_, c) ← chunks_next c; Some c.
Definition sought : option (option Text) := c ← reversed_end; c ← chunks_seek c 9; '(x, _) ← chunks_next c; Some x.
(** [next] moves the cursor and leaves the range as it was: the reads after it
    count from the old start, and see the same bytes of the next chunk again. *)
Definition mixed : option (Text * Text) :=
  '(_, b) ← bytes_next (bytes_in_range RopeExamples.rope_ex 2 21); '(x, b) ← bytes_read 3 b; '(y, _) ← bytes_read 3 b; Some (x, y).
End ReadingExamples.

Example seek_after_reversed_end : ReadingExamples.sought = Some None.
Proof. vm_compute. reflexivity. Qed.
Example read_after_next : ∃ x, ReadingExamples.mixed = Some (x, x) ∧ length x = 3.
Proof. eexists. vm_compute. split; reflexivity. Qed.
