(* ===== verification/EditedRanges.v ===== *)
(** * Where the edits of a transaction are ([edited_ranges_for_edit_ids],
    [summaries_for_anchors] and [wait_for_anchors] of
    [crates/text/src/text.rs])

    Functions that walk the fragments once for a whole list: the ranges of the
    present text that some edits inserted or deleted, and the positions of a
    sorted list of anchors. *)

From S2P Require Import Prelude Clock Text SumTree Cursor Search KeyedTree UndoMap History Patch Fragment Cells BufferInv Undo UndoIndex RemoteCells RemoteEdit RemoteEditOk Tracking Converge Chunk Waiters Buffer BufferState BufferOk Replica Delivery Anchor AnchorOk AnchorProps Measures Versions VersionsOk VersionsProps.
From S2P Require Summary Locator.
#[local] Existing Instance Locator.Locator_eq_dec.

(** ** Definitions *)

(** [seek_forward] to a fragment's id, which asserts that it is not behind. *)
Definition id_seek_forward (i : Locator) (c : FragmentCursor (D := IdPosition)) : option (FragmentCursor (D := IdPosition)) :=
  if match (start c).1 with Some j => ltb i j | None => false end then None
  else Some (slice_from add_id_position (past_id i) (start c) (upcoming c)).2.

(** The ranges of the fragments, as offsets. *)
Fixpoint fragment_ranges (c : FragmentCursor (D := IdPosition)) (ids : list Locator) : option (list (nat * nat)) :=
  match ids with
  | [] => Some []
  | i :: ids =>
      c ← id_seek_forward i c;
      rs ← fragment_ranges c ids;
      Some (match item c with
            | Some f => ((start c).2, (start c).2 + if visible f then f_len f else 0) :: rs
            | None => rs
            end)
  end.

(** Adjacent ranges are combined, [prev_range] with what follows. *)
Fixpoint combine_ranges (prev_range : option (nat * nat)) (rs : list (nat * nat)) : list (nat * nat) :=
  match rs with
  | [] => match prev_range with Some p => [p] | None => [] end
  | r :: rs =>
      match prev_range with
      | Some p => if p.2 =? r.1 then combine_ranges (Some (p.1, r.2)) rs else p :: combine_ranges (Some r) rs
      | None => combine_ranges (Some r) rs
      end
  end.

Section ranges.
Context {D : Type} (td : TextMeasure D).
Implicit Types (s : BufferSnapshot).

Fixpoint convert_ranges (position : D) (c : RopeCursor) (rs : list (nat * nat)) : option (list (D * D)) :=
  match rs with
  | [] => Some []
  | r :: rs =>
      '(d, c) ← rope_summary td c r.1;
      let start := tm_add td position d in
      '(d, c) ← rope_summary td c r.2;
      let end_ := tm_add td start d in
      l ← convert_ranges end_ c rs; Some ((start, end_) :: l)
  end.

Definition edited_ranges_for_edit_ids s (edit_ids : list Lamport) : option (list (D * D)) :=
  ids ← fragment_ids_for_edits (insertion_slices s) (insertions s) edit_ids;
  offset_ranges ← fragment_ranges (mkFragmentCursor (None, 0) (fragments s)) ids;
  convert_ranges (tm_zero td) (mkRopeCursor (visible_text s) 0) (combine_ranges None offset_ranges).
Definition edited_ranges_for_transaction s (t : Transaction) : option (list (D * D)) := edited_ranges_for_edit_ids s (edit_ids t).
Definition edited_ranges_for_transaction_id (b : Buffer) (id : TransactionId) : option (list (D * D)) :=
  match get_transaction (history b) id with
  | Some t => edited_ranges_for_transaction (snapshot b) t
  | None => Some []
  end.
End ranges.

(** [summaries_for_anchors]: one cursor for all anchors, which therefore must
    ascend. *)
Section summaries.
Context {D : Type} (td : TextMeasure D) (s : BufferSnapshot).

Fixpoint summaries_loop (fragment_cursor : FragmentCursor (D := IdPosition)) (text_cursor : RopeCursor) (position : D) (anchors : list Anchor) : option (list D) :=
  match anchors with
  | [] => Some []
  | anchor :: anchors =>
      if is_min anchor then l ← summaries_loop fragment_cursor text_cursor position anchors; Some (tm_zero td :: l)
      else if is_max anchor then l ← summaries_loop fragment_cursor text_cursor position anchors; Some (tm_of td (visible_text s) :: l)
      else
        found ← try_find_fragment s anchor;
        insertion ← found;
        if bool_decide (if_timestamp insertion = a_timestamp anchor) then
          fragment_cursor ← id_seek_forward (fragment_id insertion) fragment_cursor;
          fragment ← item fragment_cursor;
          inside ← (if visible fragment then usub (N.to_nat (a_offset anchor)) (split_offset insertion) else Some 0);
          '(d, text_cursor) ← rope_summary td text_cursor ((start fragment_cursor).2 + inside);
          let position := tm_add td position d in
          l ← summaries_loop fragment_cursor text_cursor position anchors; Some (position :: l)
        else None
  end.
Definition summaries_for_anchors (anchors : list Anchor) : option (list D) :=
  summaries_loop (mkFragmentCursor (None, 0) (fragments s)) (mkRopeCursor (visible_text s) 0) (tm_zero td) anchors.
End summaries.

(** [wait_for_anchors] waits for the edits that made the anchors' bytes. *)
Fixpoint wait_for_anchors (v : Global) (w : Waiters) (anchors : list Anchor) : list nat * Waiters :=
  match anchors with
  | [] => ([], w)
  | a :: anchors =>
      if negb (observed v (a_timestamp a)) && negb (is_max a) && negb (is_min a) then
        let c := new_channel w in
        let w := mkWaiters (<[a_timestamp a := default [] (edit_id_resolvers w !! a_timestamp a) ++ [c]]> (edit_id_resolvers w))
                   (wait_for_version_txs w) (<[c := []]> (channels w)) in
        let '(futures, w) := wait_for_anchors v w anchors in (c :: futures, w)
      else wait_for_anchors v w anchors
  end.
Definition buffer_wait_for_anchors (b : Buffer) (anchors : list Anchor) : list nat * Buffer :=
  let '(futures, w) := wait_for_anchors (buffer_version b) (waiters b) anchors in (futures, with_waiters b w).

(** It is [wait_for_edits] for the timestamps that name edits. *)
Lemma wait_for_anchors_edits v w anchors :
  wait_for_anchors v w anchors = wait_for_edits v w (a_timestamp <$> List.filter (λ a, negb (is_max a) && negb (is_min a)) anchors).
Proof.
  revert w. induction anchors as [|a l IH]; intros w; [done|]. cbn [wait_for_anchors List.filter]. rewrite !IH.
  destruct (is_max a), (is_min a); cbn [negb andb]; rewrite ?andb_false_r, ?andb_true_r; [done..|].
  cbn [fmap list_fmap wait_for_edits]. by destruct (observed v (a_timestamp a)).
Qed.

(** ** The ranges of fragments *)

(** The range of the fragment [i] of a sequence. *)
Definition range_at (l : list Fragment) (i : Locator) (r : nat * nat) : Prop :=
  ∃ l1 f l2, l = l1 ++ f :: l2 ∧ f_id f = i ∧ r = (vlen l1, vlen l1 + if visible f then f_len f else 0).

Lemma slice_id_start i d l :
  let '(sk, c) := slice_from add_id_position (past_id i) d l in (start c).1 = match last sk with Some g => Some (f_id g) | None => d.1 end.
Proof.
  revert d. induction l as [|f l IH]; intros d; cbn [slice_from]; [done|]. destruct (past_id i _); [|done].
  specialize (IH (add_id_position d f)). destruct (slice_from _ _ _ l) as [sk c]. rewrite IH. rewrite last_cons. by destruct (last sk).
Qed.

(** A cursor that has passed [p]. *)
Definition id_cursor_at (L p : list Fragment) (c : FragmentCursor (D := IdPosition)) : Prop :=
  L = p ++ upcoming c ∧ (start c).2 = vlen p ∧ match (start c).1 with Some j => ∃ g, g ∈ p ∧ j = f_id g | None => True end.

Section walk.
Context (L : list Fragment) (Hsort : StronglySorted id_lt (f_id <$> L)).

Lemma id_sorted p f l g : L = p ++ f :: l → g ∈ p → id_lt (f_id g) (f_id f).
Proof using Hsort.
  intros E Hg. rewrite E, fmap_app, fmap_cons in Hsort. apply sorted_app_inv in Hsort as (_ & _ & H). apply H; [by apply list_elem_of_fmap_2|by left].
Qed.

Lemma id_seek_ok p c l1 f l2 : id_cursor_at L p c → upcoming c = l1 ++ f :: l2 →
  ∃ c', id_seek_forward (f_id f) c = Some c' ∧ id_cursor_at L (p ++ l1) c' ∧ upcoming c' = f :: l2.
Proof using Hsort.
  intros (E & Hst & Hid) Hup. unfold id_seek_forward. destruct c as [[o n] up]. cbn in *. subst n up.
  assert (match o with Some j => ltb (f_id f) j | None => false end = false) as ->.
  { destruct o as [j|]; [|done]. destruct Hid as (g & Hg & ->). destruct (ltb (f_id f) (f_id g)) eqn:Hlt; [|done]. apply ltb_lt in Hlt. exfalso.
    apply (cmp_lt_asym (f_id f) (f_id g)); [done|]. apply (id_sorted (p ++ l1) f l2 g); [by rewrite <- app_assoc|apply elem_of_app; by left]. }
  pose proof (slice_id_ok (f_id f) o (vlen p) (l1 ++ f :: l2)) as Hs. pose proof (slice_id_start (f_id f) (o, vlen p) (l1 ++ f :: l2)) as Hi.
  destruct (slice_from _ _ _ _) as [sk c]. destruct Hs as (Heq & Hst & Hlt & Hitem). exists c. split; [done|].
  assert (sk = l1 ∧ upcoming c = f :: l2) as [-> Hup].
  { rewrite Forall_forall in Hlt. apply app_eq_inv in Heq as [(k & -> & Hk)|(k & -> & Hk)]; destruct k as [|g k]; simpl in Hk; rewrite ?app_nil_r; [done| |done|]; exfalso.
    - apply (Hitem g); [unfold item; by rewrite Hk|]. apply (id_sorted (p ++ sk ++ g :: k) f l2 g); [by rewrite E, <- !app_assoc|]. apply elem_of_app. right. apply elem_of_app. right. by left.
    - injection Hk as <- _. apply (cmp_lt_irrefl (f_id f)), (Hlt f), elem_of_app. right. by left. }
  split; [|done]. split; [by rewrite Hup, E, <- app_assoc|]. split; [by rewrite Hst, vlen_app|].
  rewrite Hi. cbn [fst]. destruct (last l1) as [g|] eqn:El.
  - exists g. split; [|done]. apply elem_of_app. right. by apply last_Some_elem_of in El.
  - destruct o as [j|]; [|done]. destruct Hid as (g & Hg & ->). exists g. split; [apply elem_of_app; by left|done].
Qed.

Lemma fragment_ranges_ok ids p c : id_cursor_at L p c → StronglySorted id_lt ids → Forall (λ i, i ∈ f_id <$> upcoming c) ids →
  ∃ rs, fragment_ranges c ids = Some rs ∧ Forall2 (range_at L) ids rs.
Proof using Hsort.
  revert p c. induction ids as [|i ids IH]; intros p c Hc Hs Hin; [by exists []|]. cbn [fragment_ranges].
  apply StronglySorted_inv in Hs as [Hs Hlt]. apply Forall_cons in Hin as [Hi Hin]. apply list_elem_of_fmap in Hi as (f & -> & Hf).
  apply list_elem_of_split in Hf as (l1 & l2 & Hup). destruct (id_seek_ok p c l1 f l2 Hc Hup) as (c' & -> & Hc' & Hup'). cbn [mbind option_bind].
  destruct (IH (p ++ l1) c' Hc' Hs) as (rs & -> & Hrs).
  { rewrite Forall_forall in Hlt, Hin |- *. intros j Hj. specialize (Hlt j Hj). specialize (Hin j Hj). rewrite Hup, fmap_app in Hin. rewrite Hup'.
    apply elem_of_app in Hin as [Hin|Hin]; [|done]. exfalso. apply list_elem_of_fmap in Hin as (g & -> & Hg). apply (cmp_lt_asym (f_id f) (f_id g)); [done|].
    destruct Hc as [E _]. apply (id_sorted (p ++ l1) f l2 g); [by rewrite E, Hup, <- app_assoc|]. apply elem_of_app. by right. }
  cbn [mbind option_bind]. unfold item. rewrite Hup'. cbn [head]. eexists. split; [done|]. constructor; [|done].
  destruct Hc' as (E & Hst & _). exists (p ++ l1), f, l2. rewrite Hup' in E. split; [done|]. split; [done|]. by rewrite Hst.
Qed.
End walk.

(** ** Combining and converting *)

Definition covers_offset (rs : list (nat * nat)) (o : nat) : Prop := ∃ r, r ∈ rs ∧ r.1 ≤ o < r.2.
Definition within (r q : nat * nat) : Prop := q.1 ≤ r.1 ∧ r.2 ≤ q.2.
Definition apart (r q : nat * nat) : Prop := r.2 < q.1.

Lemma combine_some p rs : StronglySorted (λ r q, r.2 ≤ q.1) (p :: rs) → Forall (λ r, r.1 ≤ r.2) (p :: rs) →
  let c := combine_ranges (Some p) rs in
  StronglySorted apart c ∧ Forall (λ q, q.1 ≤ q.2 ∧ p.1 ≤ q.1) c ∧ (∀ o, covers_offset c o ↔ covers_offset (p :: rs) o) ∧
  (∀ r, r ∈ p :: rs → Exists (within r) c) ∧ ∀ n, Forall (λ r, r.2 ≤ n) (p :: rs) → Forall (λ r, r.2 ≤ n) c.
Proof.
  revert p. induction rs as [|r rs IH]; intros p Hs Hle; cbn [combine_ranges].
  { apply Forall_cons in Hle as [Hp _]. split; [repeat constructor|]. split; [repeat constructor; done|]. split; [done|]. split; [|done].
    intros r ->%list_elem_of_singleton. constructor. by split. }
  apply StronglySorted_inv in Hs as [Hs Hp]. apply Forall_cons in Hle as [Hpp Hle]. apply Forall_cons in Hp as [Hpr Hp].
  pose proof Hle as [Hrr _]%Forall_cons. pose proof Hs as [Hs' Hr]%StronglySorted_inv.
  destruct (Nat.eqb_spec p.2 r.1) as [Heq|Hne].
  - destruct (IH (p.1, r.2)) as (H1 & H2 & H3 & H4 & H5); [by constructor|constructor; [cbn; lia|by apply Forall_cons in Hle as [_ ?]]|].
    split; [done|]. split; [done|]. split; [|split].
    + intros o. rewrite H3. unfold covers_offset. split.
      * intros (q & [->|Hq]%elem_of_cons & Ho); [|exists q; split; [by do 2 right|done]]. cbn in Ho.
        destruct (Nat.lt_ge_cases o p.2); [exists p|exists r]; (split; [set_solver|lia]).
      * intros (q & [->|[->|Hq]%elem_of_cons]%elem_of_cons & Ho); [exists (p.1, r.2)..|exists q]; (split; [set_solver|cbn; lia]).
    + intros q Hq. apply elem_of_cons in Hq as [->|[->|Hq]%elem_of_cons]; [| |apply H4; by right];
        (eapply Exists_impl; [apply (H4 (p.1, r.2)); by left|]; unfold within; cbn; lia).
    + intros n [Hn1 [Hn2 Hn]%Forall_cons]%Forall_cons. apply H5. by constructor.
  - destruct (IH r Hs Hle) as (H1 & H2 & H3 & H4 & H5). split; [|split; [|split; [|split]]].
    + constructor; [done|]. eapply Forall_impl; [exact H2|]. unfold apart. cbn. lia.
    + constructor; [done|]. eapply Forall_impl; [exact H2|]. cbn. lia.
    + intros o. unfold covers_offset in *. split.
      * intros (q & [->|Hq]%elem_of_cons & Ho); [exists p; split; [by left|done]|]. destruct (proj1 (H3 o)) as (q' & Hq' & Ho'); [by exists q|]. exists q'. split; [by right|done].
      * intros (q & [->|Hq]%elem_of_cons & Ho); [exists p; split; [by left|done]|]. destruct (proj2 (H3 o)) as (q' & Hq' & Ho'); [by exists q|]. exists q'. split; [by right|done].
    + intros q [->|Hq]%elem_of_cons; [constructor; by split|]. right. by apply H4.
    + intros n [Hn1 Hn]%Forall_cons. constructor; [done|]. by apply H5.
Qed.

Record combined (rs c : list (nat * nat)) (n : nat) : Prop := {
  cb_apart : StronglySorted apart c;
  cb_order : Forall (λ q, q.1 ≤ q.2 ≤ n) c;
  cb_covers o : covers_offset c o ↔ covers_offset rs o;
  cb_within r : r ∈ rs → Exists (within r) c;
}.
Lemma combine_ok rs n : StronglySorted (λ r q, r.2 ≤ q.1) rs → Forall (λ r, r.1 ≤ r.2 ≤ n) rs → combined rs (combine_ranges None rs) n.
Proof.
  intros Hs Hle. destruct rs as [|r rs]; cbn [combine_ranges]; [split; [constructor|constructor|done|by intros r ?%elem_of_nil]|].
  destruct (combine_some r rs Hs) as (H1 & H2 & H3 & H4 & H5); [eapply Forall_impl; [exact Hle|]; cbn; lia|]. split; [done| |done|done].
  specialize (H5 n ltac:(eapply Forall_impl; [exact Hle|]; cbn; lia)). rewrite Forall_forall in H2, H5 |- *. intros q Hq. specialize (H2 q Hq). specialize (H5 q Hq). cbn in *. lia.
Qed.

Lemma rope_summary_to {D} (td : TextMeasure D) t a e : a ≤ e ≤ length t →
  rope_summary td (mkRopeCursor t a) e = Some (tm_of td (take (e - a) (drop a t)), mkRopeCursor t e).
Proof. intros H. unfold rope_summary. by rewrite rope_slice_to. Qed.
Lemma measure_take {D} (td : TextMeasure D) fits `{!MeasureOk td fits} t a e : fits t → a ≤ e → tm_add td (tm_of td (take a t)) (tm_of td (take (e - a) (drop a t))) = tm_of td (take e t).
Proof.
  intros Hf H. assert (take a t ++ take (e - a) (drop a t) = take e t) as E.
  { replace e with (a + (e - a)) at 2 by lia. by rewrite take_take_drop. }
  rewrite <- measure_app, E; [done|]. rewrite E. apply (measure_fits (td := td) _ (drop e t)). by rewrite take_drop.
Qed.

Definition measured {D} (td : TextMeasure D) (t : Text) (r : nat * nat) : D * D := (tm_of td (take r.1 t), tm_of td (take r.2 t)).

Lemma convert_ok {D} (td : TextMeasure D) fits `{!MeasureOk td fits} t rs o : fits t → StronglySorted apart rs → Forall (λ r, r.1 ≤ r.2 ≤ length t) rs → Forall (λ r, o ≤ r.1) rs →
  convert_ranges td (tm_of td (take o t)) (mkRopeCursor t o) rs = Some (measured td t <$> rs).
Proof.
  intros Hf. revert o. induction rs as [|r rs IH]; intros o Hs Hle Ho; [done|]. cbn [convert_ranges].
  apply StronglySorted_inv in Hs as [Hs Hr]. apply Forall_cons in Hle as [Hrr Hle]. apply Forall_cons in Ho as [Ho _].
  rewrite rope_summary_to by lia. cbn [mbind option_bind]. rewrite rope_summary_to by lia. cbn [mbind option_bind].
  rewrite !(measure_take td fits) by (done || lia). rewrite IH; [done|done|done|]. eapply Forall_impl; [exact Hr|]. unfold apart. lia.
Qed.

(** ** Exactness *)


(** ** Exactness *)

Section exact.
Context (TREE_BASE : nat) (base : option Lamport) (s : BufferSnapshot) (Hs : state_ok TREE_BASE base s) (Hw : shallow TREE_BASE s).
Abbreviation L := (fragments s).

Lemma ids_strict : StronglySorted id_lt (f_id <$> L).
Proof using Hs. exact (ids_sorted _ (ok_ids _ _ _ (so_buffer _ _ _ Hs))). Qed.

(** Two places in the sequence of fragments. *)
Lemma two_places l1 f l2 k1 g k2 : L = l1 ++ f :: l2 → L = k1 ++ g :: k2 →
  (f = g ∧ l1 = k1) ∨ (id_lt (f_id f) (f_id g) ∧ ∃ m, k1 = l1 ++ f :: m) ∨ (id_lt (f_id g) (f_id f) ∧ ∃ m, l1 = k1 ++ g :: m).
Proof using Hs.
  intros E E'. pose proof E as Eq. rewrite E' in Eq. apply app_eq_inv in Eq as [(m & Ek & Hm)|(m & El & Hm)]; destruct m as [|h m]; cbn in Hm.
  - injection Hm as -> _. left. by rewrite Ek, app_nil_r.
  - injection Hm as -> Hm. right. left. split; [|by exists m]. eapply (id_sorted L ids_strict k1 g k2); [done|]. rewrite Ek. apply elem_of_app. right. by left.
  - injection Hm as -> _. left. by rewrite El, app_nil_r.
  - injection Hm as -> Hm. right. right. split; [|by exists m]. eapply (id_sorted L ids_strict l1 f l2); [done|]. rewrite El. apply elem_of_app. right. by left.
Qed.

Lemma range_at_sorted i j r q : id_lt i j → range_at L i r → range_at L j q → r.2 ≤ q.1.
Proof using Hs.
  intros Hij (l1 & f & l2 & E & <- & ->) (k1 & g & k2 & E' & <- & ->). cbn [fst snd].
  destruct (two_places l1 f l2 k1 g k2 E E') as [[-> _]|[[_ (m & ->)]|[Hji _]]]; [by apply cmp_lt_irrefl in Hij| |by destruct (cmp_lt_asym _ _ Hij Hji)].
  rewrite vlen_app, vlen_cons. unfold fragment_text. destruct (visible f); cbn; lia.
Qed.
Lemma range_at_fun i r q : range_at L i r → range_at L i q → r = q.
Proof using Hs.
  intros (l1 & f & l2 & E & <- & ->) (k1 & g & k2 & E' & Hi & ->).
  destruct (two_places l1 f l2 k1 g k2 E E') as [[-> ->]|[[Hlt _]|[Hlt _]]]; [done|rewrite Hi in Hlt; by apply cmp_lt_irrefl in Hlt..].
Qed.

Lemma strict_ids l : StronglySorted id_le l → NoDup l → StronglySorted id_lt l.
Proof using.
  induction 1 as [|i l Hl IH Hi]; intros Hnd; [constructor|]. apply NoDup_cons in Hnd as [Hn Hnd]. constructor; [by apply IH|].
  rewrite Forall_forall in Hi |- *. intros j Hj. destruct (proj1 (cmp_le_lt_or_eq i j) (Hi j Hj)) as [?| ->]; done.
Qed.

Lemma indexed_ids : NoDup (fragment_id <$> items (insertions s)).
Proof using Hs.
  assert (NoDup (items (insertions s))) as Hnd.
  { pose proof (proj2 (so_insertions _ _ _ Hs)) as Hso. induction Hso as [|x l Hl IH Hx]; [constructor|]. constructor; [|done].
    intros Hin. rewrite Forall_forall in Hx. by apply (cmp_lt_irrefl (key x)), (Hx x). }
  apply NoDup_fmap_2_strong; [|done]. intros x y Hx Hy Hxy. destruct (so_exact _ _ _ Hs x Hx) as (f & Hf & ->). destruct (so_exact _ _ _ Hs y Hy) as (g & Hg & ->).
  cbn in Hxy. apply list_elem_of_split in Hf as (l1 & l2 & E). apply list_elem_of_split in Hg as (k1 & k2 & E').
  destruct (two_places l1 f l2 k1 g k2 E E') as [[-> _]|[[Hlt _]|[Hlt _]]]; [done|rewrite Hxy in Hlt; by apply cmp_lt_irrefl in Hlt..].
Qed.

(** A byte of a fragment that starts in a slice of one of the edits. *)
Definition touched_by (es : list Lamport) (c : Cell) : Prop :=
  ∃ sl f, sl ∈ slices_in (insertion_slices s) ∧ slice_edit_id sl ∈ es ∧ f ∈ L ∧ in_slice sl (new_insertion f) ∧ ckey c ∈ fkeys f.

(** Every byte an edit inserted or deleted is. *)
Lemma concerns_touched e es c : c ∈ scells s → concerns e c → e ∈ es → Some e ≠ base → touched_by es c.
Proof using Hs.
  intros Hc He Hes Hb. destruct (cell_fragment _ _ _ _ Hc) as (f & i & b & Hf & -> & Hi).
  destruct (first_cell _ _ _ f (so_buffer _ _ _ Hs) Hf) as [b' Hc']. pose proof (so_cells _ _ _ Hs) as Hok. rewrite Forall_forall in Hok.
  destruct (co_slices _ _ _ _ _ (Hok _ Hc') e He Hb) as (sl & Hsl & Hid & Hts & Hoff). exists sl, f. split; [done|]. split; [by rewrite Hid|]. split; [done|].
  cbn in Hts, Hoff. split; [split; [done|cbn; lia]|]. apply fkeys_elem. cbn. split; [done|lia].
Qed.
(** The offset of the byte after the cells [k] is in the ranges; a hidden byte
    has no extent of its own. *)
Definition marked (R : list (nat * nat)) (k : list Cell) (c : Cell) : Prop :=
  if c_visible c then covers_offset R (length (visible_bytes k))
  else ∃ q, q ∈ R ∧ q.1 ≤ length (visible_bytes k) ≤ q.2.

Lemma ids_touched (es : list Lamport) (ids : list Locator) : (∀ i, i ∈ ids ↔ ∃ sl x, sl ∈ slices_in (insertion_slices s) ∧ slice_edit_id sl ∈ es ∧ x ∈ items (insertions s) ∧ in_slice sl x ∧ i = fragment_id x) →
  ∀ f k, f ∈ L → k ∈ fkeys f → f_id f ∈ ids ↔ ∃ sl g, sl ∈ slices_in (insertion_slices s) ∧ slice_edit_id sl ∈ es ∧ g ∈ L ∧ in_slice sl (new_insertion g) ∧ k ∈ fkeys g.
Proof using Hs.
  intros Hids f k Hf Hk. rewrite Hids. split.
  - intros (sl & x & Hsl & He & Hx & Hin & Hfx). destruct (so_exact _ _ _ Hs x Hx) as (g & Hg & ->). exists sl, g. split_and!; try done.
    cbn in Hfx. apply list_elem_of_split in Hf as (l1 & l2 & E). apply list_elem_of_split in Hg as (k1 & k2 & E').
    destruct (two_places l1 f l2 k1 g k2 E E') as [[<- _]|[[Hlt _]|[Hlt _]]]; [done|rewrite Hfx in Hlt; by apply cmp_lt_irrefl in Hlt..].
  - intros (sl & g & Hsl & He & Hg & Hin & Hkg). exists sl, (new_insertion g). split_and!; try done; [by apply (so_indexed _ _ _ Hs)|]. cbn.
    f_equal. by apply (same_fragment L f g k (fragments_keys TREE_BASE base s Hs)).
Qed.

Lemma ranges_listed (es : list Lamport) : ∃ ids rs, fragment_ids_for_edits (insertion_slices s) (insertions s) es = Some ids ∧
  fragment_ranges (mkFragmentCursor (None, 0) L) ids = Some rs ∧ Forall2 (range_at L) ids rs ∧ StronglySorted id_lt ids ∧
  ∀ i, i ∈ ids ↔ ∃ sl x, sl ∈ slices_in (insertion_slices s) ∧ slice_edit_id sl ∈ es ∧ x ∈ items (insertions s) ∧ in_slice sl x ∧ i = fragment_id x.
Proof using Hs Hw.
  destruct Hw as (Hwi & Hws & _).
  destruct (fragment_ids_ok TREE_BASE (insertion_slices s) (insertions s) es (conj Hws (proj2 (so_slices _ _ _ Hs))) Hwi (proj2 (so_insertions _ _ _ Hs)) (so_positive _ _ _ Hs))
    as (ids & E & Hsort & Hids & Hnd). specialize (Hnd indexed_ids).
  assert (StronglySorted id_lt ids) as Hss by (apply strict_ids; [apply Sorted_StronglySorted; [intros i j k; apply cmp_le_trans|done]|done]).
  destruct (fragment_ranges_ok L ids_strict ids [] (mkFragmentCursor (None, 0) L)) as (rs & Er & Hrs); [by split_and!|done| |by exists ids, rs].
  apply Forall_forall. intros i (sl & x & _ & _ & Hx & _ & ->)%Hids. destruct (so_exact _ _ _ Hs x Hx) as (f & Hf & ->). exact (list_elem_of_fmap_2 f_id _ _ Hf).
Qed.

Lemma ranges_in_order ids rs : StronglySorted id_lt ids → Forall2 (range_at L) ids rs →
  StronglySorted (λ r q, r.2 ≤ q.1) rs ∧ Forall (λ r, r.1 ≤ r.2 ≤ length (visible_text s)) rs.
Proof using Hs.
  intros Hss Hrs. split.
  - induction Hrs as [|i r ids rs Hr Hrs IH]; [constructor|]. apply StronglySorted_inv in Hss as [Hss Hi]. constructor; [by apply IH|].
    apply Forall_forall. intros q Hq. apply list_elem_of_lookup in Hq as [n Hn]. destruct (Forall2_lookup_r _ _ _ _ _ Hrs Hn) as (j & Hj & Hq).
    rewrite Forall_forall in Hi. apply (range_at_sorted i j); [by eapply Hi, list_elem_of_lookup_2|done..].
  - apply Forall_forall. intros q Hq. apply list_elem_of_lookup in Hq as [n Hn]. destruct (Forall2_lookup_r _ _ _ _ _ Hrs Hn) as (j & _ & (l1 & f & l2 & E & _ & ->)).
    destruct (so_buffer _ _ _ Hs) as [_ _ Hv _]. rewrite <- Hv, E, vlen_app, vlen_cons. cbn [fst snd]. unfold fragment_text. destruct (visible f); cbn; lia.
Qed.

Lemma edited_ranges_ok es : ∃ R,
  (∀ D (td : TextMeasure D) fits, MeasureOk td fits → fits (visible_text s) → edited_ranges_for_edit_ids td s es = Some (measured td (visible_text s) <$> R)) ∧
  StronglySorted apart R ∧ Forall (λ q, q.1 ≤ q.2 ≤ length (visible_text s)) R ∧
  ∀ k c r, scells s = k ++ c :: r → (touched_by es c → marked R k c) ∧ (c_visible c = true → marked R k c → touched_by es c).
Proof using Hs Hw.
  destruct (ranges_listed es) as (ids & rs & Eids & Ers & Hrs & Hss & Hids). destruct (ranges_in_order ids rs Hss Hrs) as [Hord Hle].
  pose proof (combine_ok rs (length (visible_text s)) Hord Hle) as Hc. exists (combine_ranges None rs). split; [|split; [|split]].
  - intros D td fits Htd Hf. unfold edited_ranges_for_edit_ids. rewrite Eids. cbn [mbind option_bind]. rewrite Ers. cbn [mbind option_bind].
    rewrite <- (measure_nil (td := td)). change [] with (take 0 (visible_text s)) at 1. apply (convert_ok td fits); [done|apply Hc|apply Hc|]. apply Forall_forall. lia.
  - apply Hc.
  - apply Hc.
  - intros k c r Heq. destruct (so_buffer _ _ _ Hs) as [_ _ Hv Hd].
    destruct (cell_position _ _ _ k c r (Nat.eq_le_incl _ _ Hv) (Nat.eq_le_incl _ _ Hd) Heq) as (l1 & f & l2 & i & b & Hl & Hi & -> & Hlen).
    assert (f ∈ L) as Hf by (rewrite Hl; apply elem_of_app; right; by left).
    assert (ckey (cell_of f i b) ∈ fkeys f) as Hk by (apply fkeys_elem; cbn; split; [done|lia]).
    pose proof (ids_touched es ids Hids f _ Hf Hk) as Ht. unfold marked. cbn [cell_of c_visible]. rewrite Hlen. split.
    + intros Htc. apply Ht in Htc. apply list_elem_of_lookup in Htc as [n Hn]. destruct (Forall2_lookup_l _ _ _ _ _ Hrs Hn) as (q & Hq & Hr).
      assert (q = (vlen l1, vlen l1 + if visible f then f_len f else 0)) as -> by (apply (range_at_fun (f_id f)); [done|by exists l1, f, l2]).
      apply list_elem_of_lookup_2 in Hq. destruct (visible f); [apply (cb_covers _ _ _ Hc); eexists; split; [exact Hq|cbn; lia]|].
      pose proof (cb_within _ _ _ Hc _ Hq) as (q & Hqc & Hin)%Exists_exists. exists q. split; [done|]. destruct Hin as [H1 H2]. cbn in H1, H2. lia.
    + intros Hvis Hm. rewrite Hvis in Hm. apply (cb_covers _ _ _ Hc) in Hm as (q & Hq & Ho). apply Ht. apply list_elem_of_lookup in Hq as [n Hn].
      destruct (Forall2_lookup_r _ _ _ _ _ Hrs Hn) as (j & Hj & Hr). apply list_elem_of_lookup_2 in Hj. pose proof Hr as (k1 & g & k2 & E' & <- & ->).
      cbn [fst snd] in Ho. destruct (two_places l1 f l2 k1 g k2 Hl E') as [[-> _]|[[_ (m & ->)]|[_ (m & ->)]]]; [done|exfalso..].
      * rewrite vlen_app, vlen_cons in Ho. unfold fragment_text in Ho. rewrite Hvis in Ho. cbn in Ho. lia.
      * rewrite vlen_app, vlen_cons in Ho. unfold fragment_text in Ho. destruct (visible g); cbn in Ho; lia.
Qed.
End exact.

(** ** Summaries of many anchors *)

Section batch.
Context (TREE_BASE : nat) (base : option Lamport) (s : BufferSnapshot) (Hs : state_ok TREE_BASE base s) (debug : bool) (rid : N).

(** The anchor on one side of the [i]-th byte, and how many bytes are before it. *)
Definition placed (a : Anchor) (i : nat) (bias : Bias) : Prop := ∃ c, scells s !! i = Some c ∧ a = anchor_of rid c bias.
Definition cut (i : nat) (bias : Bias) : nat := i + match bias with Left => 1 | Right => 0 end.
Definition cut_offset (i : nat) (bias : Bias) : nat := length (visible_bytes (take (cut i bias) (scells s))).
Definition known (a : Anchor) : Prop := a = min_for_buffer rid ∨ a = max_for_buffer rid ∨ ∃ i bias, placed a i bias.

Lemma visible_take_le (l : list Cell) n m : n ≤ m → length (visible_bytes (take n l)) ≤ length (visible_bytes (take m l)).
Proof using. intros H. replace m with (n + (m - n)) by lia. rewrite <- take_take_drop, visible_bytes_app, length_app. lia. Qed.
Lemma cut_offset_mono i bias j gamma : rank i bias ≤ rank j gamma → i ≤ j ∧ cut_offset i bias ≤ cut_offset j gamma.
Proof using. intros H. unfold rank in H. split; [destruct bias, gamma; lia|]. apply visible_take_le. unfold cut. destruct bias, gamma; lia. Qed.
Lemma cut_offset_le i bias : cut_offset i bias ≤ length (visible_text s).
Proof using Hs.
  destruct (buffer_texts _ _ _ (so_buffer _ _ _ Hs)) as [<- _]. fold (scells s). unfold cut_offset.
  rewrite <- (take_drop (cut i bias) (scells s)) at 2. rewrite visible_bytes_app, length_app. lia.
Qed.

Lemma placed_found a i bias : placed a i bias → ∃ l1 f l2 j, fragments s = l1 ++ f :: l2 ∧ j < f_len f ∧ i = flen l1 + j ∧
  try_find_fragment s a = Some (Some (new_insertion f)) ∧ a_timestamp a = f_timestamp f ∧ N.to_nat (a_offset a) = insertion_offset f + cut j bias ∧
  is_min a = false ∧ is_max a = false ∧ (vlen l1 + if visible f then cut j bias else 0) = cut_offset i bias ∧
  offset_for_anchor debug rid s a = Some (cut_offset i bias).
Proof using Hs.
  intros (c & Hc & ->). pose proof (cells_keys _ _ _ (so_buffer _ _ _ Hs)) as Hk. fold (scells s) in Hk.
  destruct (key_fragment (fragments s) i (ckey c)) as (l1 & f & l2 & j & Hl & Hj & Hck & ->); [by rewrite <- Hk, list_lookup_fmap, Hc|].
  injection Hck as Hct Hco. exists l1, f, l2, j. destruct (anchor_of_proper TREE_BASE base s Hs rid c bias) as [Hmin Hmax]; [by apply list_elem_of_lookup_2 in Hc|].
  assert (N.to_nat (a_offset (anchor_of rid c bias)) = insertion_offset f + cut j bias) as Ho by (unfold cut; destruct bias; cbn; lia).
  assert (touches f (N.to_nat (a_offset (anchor_of rid c bias))) bias) as Ht by (rewrite Ho; unfold cut; destruct bias; cbn; lia).
  pose proof (take_drop_middle _ _ _ Hc) as Heq. symmetry in Heq. pose proof (resolve_cell TREE_BASE base s Hs debug rid _ _ _ bias Heq) as Hr.
  assert (side bias (take (flen l1 + j) (scells s)) c = take (cut (flen l1 + j) bias) (scells s)) as Hside.
  { unfold cut. destruct bias; cbn [side]; [rewrite Nat.add_1_r; symmetry; by apply take_S_r|by rewrite Nat.add_0_r]. }
  rewrite Hside in Hr. pose proof (offset_touched TREE_BASE base s Hs debug rid l1 f l2 (anchor_of rid c bias) Hl Hct eq_refl Ht Hmin Hmax) as Hr'.
  rewrite Hr in Hr'. injection Hr' as Hr'. split_and!; try done.
  - apply (find_touched TREE_BASE base s Hs f); [rewrite Hl; apply elem_of_app; right; by left|done|done].
  - unfold cut_offset. rewrite Hr'. f_equal. destruct (visible f); [|done]. revert Ho. cbn [anchor_of a_offset]. lia.
Qed.

Lemma known_proper : is_min (min_for_buffer rid) = true ∧ is_max (max_for_buffer rid) = true ∧ is_min (max_for_buffer rid) = false.
Proof using. split_and!; reflexivity. Qed.

(** The cursor is not past the fragment it has to find. *)
Lemma ahead p c l1 f l2 j i : id_cursor_at (fragments s) p c → fragments s = l1 ++ f :: l2 → j < f_len f → i = flen l1 + j → flen p ≤ i →
  ∃ k, l1 = p ++ k ∧ upcoming c = k ++ f :: l2.
Proof using.
  intros (E & _) E' Hj -> Hp. rewrite E in E'. apply app_eq_inv in E' as [(m & Ep & Hm)|(m & El & Hm)]; [|by exists m].
  destruct m as [|h m]; cbn in Hm; [exists []; by rewrite Ep, !app_nil_r, Hm|]. injection Hm as <- Hm. exfalso.
  rewrite Ep, flen_app in Hp. change (flen (f :: m)) with (f_len f + flen m) in Hp. lia.
Qed.

Definition ascending (a b : Anchor) : Prop := ∀ i bias j gamma, placed a i bias → placed b j gamma → rank i bias ≤ rank j gamma.

Lemma summaries_loop_ok {D} (td : TextMeasure D) fits `{!MeasureOk td fits} anchors : fits (visible_text s) → ∀ p c o,
  id_cursor_at (fragments s) p c → o ≤ length (visible_text s) → Forall known anchors → StronglySorted ascending anchors →
  (∀ a i bias, a ∈ anchors → placed a i bias → flen p ≤ i ∧ o ≤ cut_offset i bias) →
  ∃ os, mapM (offset_for_anchor debug rid s) anchors = Some os ∧
    summaries_loop td s c (mkRopeCursor (visible_text s) o) (tm_of td (take o (visible_text s))) anchors = Some ((λ o, tm_of td (take o (visible_text s))) <$> os).
Proof using Hs.
  intros Hf. induction anchors as [|a anchors IH]; intros p c o Hc Ho Hk Hsort Hahead; [by exists []|]. cbn [summaries_loop mapM].
  apply Forall_cons in Hk as [Ha Hk]. apply StronglySorted_inv in Hsort as [Hsort Hlater]. destruct known_proper as (Hmin & Hmax & Hmm).
  assert (∀ b i bias, b ∈ anchors → placed b i bias → flen p ≤ i ∧ o ≤ cut_offset i bias) as Hahead' by (intros; apply (Hahead b); [by right|done]).
  destruct Ha as [->|[->|(i & bias & Hpl)]].
  - rewrite Hmin. destruct (IH p c o Hc Ho Hk Hsort Hahead') as (os & Eos & El). rewrite El. rewrite (proj1 (min_resolves s debug rid)). cbn [mbind option_bind].
    rewrite Eos. exists (0 :: os). split; [done|]. cbn [mbind option_bind]. rewrite fmap_cons. rewrite take_0. by rewrite (measure_nil (td := td)).
  - rewrite Hmm, Hmax. destruct (IH p c o Hc Ho Hk Hsort Hahead') as (os & Eos & El). rewrite El. rewrite (proj1 (max_resolves s debug rid)). cbn [mbind option_bind].
    rewrite Eos. exists (length (visible_text s) :: os). split; [done|]. cbn [mbind option_bind]. rewrite fmap_cons. by rewrite firstn_all.
  - destruct (placed_found a i bias Hpl) as (l1 & f & l2 & j & E & Hj & Hi & Hfind & Hts & Hoff & -> & -> & Hcut & Hres). rewrite Hfind, Hres. cbn [mbind option_bind].
    rewrite bool_decide_true by done. destruct (Hahead a i bias ltac:(by left) Hpl) as [Hpi Hoi].
    destruct (ahead p c l1 f l2 j i Hc E Hj Hi Hpi) as (k & -> & Hup).
    destruct (id_seek_ok (fragments s) (ids_strict TREE_BASE base s Hs) p c k f l2 Hc Hup) as (c' & Hseek & Hc' & Hup').
    change (fragment_id (new_insertion f)) with (f_id f). rewrite Hseek. cbn [mbind option_bind]. unfold item. rewrite Hup'. cbn [head mbind option_bind].
    assert ((if visible f then usub (N.to_nat (a_offset a)) (split_offset (new_insertion f)) else Some 0) = Some (if visible f then cut j bias else 0)) as ->.
    { destruct (visible f); [|done]. rewrite Hoff. cbn. rewrite usub_le by lia. f_equal. lia. }
    cbn [mbind option_bind]. destruct Hc' as (Ec & Hst & Hid). rewrite Hst, Hcut. pose proof (cut_offset_le i bias) as Hle. rewrite rope_summary_to by lia. cbn [mbind option_bind].
    rewrite (measure_take td fits) by (done || lia). destruct (IH (p ++ k) c' (cut_offset i bias)) as (os & Eos & El); [by split_and!|done|done|done| |].
    { intros b i' gamma Hb Hpb. rewrite Forall_forall in Hlater. destruct (cut_offset_mono i bias i' gamma (Hlater b Hb i bias i' gamma Hpl Hpb)). split; [lia|done]. }
    rewrite Eos, El. by exists (cut_offset i bias :: os).
Qed.
End batch.

(** ** Properties *)

(** C17: The ranges of a list of edits are exact: [edited_ranges_for_edit_ids]
    never panics and yields, in bytes, UTF-16 units, points and pairs of these
    ([MeasureOk]; rows and columns of texts below 4 GB), the ends of ranges of
    the present text that are in order, do not touch and contain every visible
    byte one of the edits inserted or deleted (a byte that is hidden is where
    some range starts, ends or passes over it); and every visible byte in them
    is of a fragment the index lists for one of the edits. *)
Theorem edited_ranges_exact TREE_BASE base b es : replica_ok TREE_BASE base b → heights_ok (snapshot b) = true →
  ∃ R, (∀ D (td : TextMeasure D) fits, MeasureOk td fits → fits (visible_text (snapshot b)) → edited_ranges_for_edit_ids td (snapshot b) es = Some (measured td (visible_text (snapshot b)) <$> R)) ∧
    StronglySorted apart R ∧ Forall (λ q, q.1 ≤ q.2 ≤ length (visible_text (snapshot b))) R ∧
    ∀ k c r, scells (snapshot b) = k ++ c :: r →
      (∀ e, e ∈ es → Some e ≠ base → concerns e c → marked R k c) ∧
      (c_visible c = true → covers_offset R (length (visible_bytes k)) → touched_by (snapshot b) es c).
Proof.
  intros Hok Hh. pose proof (bi_state _ _ _ (ro_inv _ _ _ Hok)) as Hs. destruct (edited_ranges_ok TREE_BASE base _ Hs (heights_shallow _ _ _ Hs Hh) es) as (R & HR & Ha & Hb & Hm).
  exists R. split; [done|]. split; [done|]. split; [done|]. intros k c r Heq. destruct (Hm k c r Heq) as [H1 H2]. split.
  - intros e He Hbase Hc. apply H1, (concerns_touched TREE_BASE base _ Hs e); [rewrite Heq; apply elem_of_app; right; by left|done..].
  - intros Hv Hc. apply H2; [done|]. unfold marked. by rewrite Hv.
Qed.

(** Anchors made at offsets that ascend. *)
Definition place_le (p q : nat * Bias) : Prop := place_cmp p.1 q.1 p.2 q.2 ≠ Gt.

Section made_list.
Context (TREE_BASE : nat) (base : option Lamport) (s s' : BufferSnapshot) (Hs : state_ok TREE_BASE base s) (Hs' : state_ok TREE_BASE base s').
Context (debug : bool) (rid : N) (Hkeep : (cid <$> scells s) `sublist_of` (cid <$> scells s')).

Lemma made_known a n bias : made s rid a n bias → known s' rid a.
Proof using Hs Hs' Hkeep.
  intros [(-> & _)|[(-> & _)|(_ & _ & Hb)]]%(made_index TREE_BASE base s Hs); [by left|right; by left|right; right].
  destruct (beside_index s s' rid Hkeep a n bias Hb) as (i & c & Hi & ->). by exists i, bias, c.
Qed.

Lemma made_list_ok places anchors : Forall2 (λ p a, made s rid a p.1 p.2) places anchors → StronglySorted place_le places →
  Forall (known s' rid) anchors ∧ StronglySorted (ascending s' rid) anchors.
Proof using All.
  induction 1 as [|p a places anchors Ha Hl IH]; intros Hsort; [by split; constructor|]. apply StronglySorted_inv in Hsort as [Hsort Hp].
  destruct (IH Hsort) as [Hk Hs2]. split; constructor; [by eapply made_known|done|done|].
  apply Forall_forall. intros b Hb i bias j gamma (c & Hc & ->) (d & Hd & ->). apply list_elem_of_lookup in Hb as [n Hn].
  destruct (Forall2_lookup_r _ _ _ _ _ Hl Hn) as (q & Hq & Hmb). rewrite Forall_forall in Hp. specialize (Hp q (list_elem_of_lookup_2 _ _ _ Hq)).
  pose proof (made_cmp TREE_BASE base s s' Hs Hs' debug rid Hkeep _ _ _ _ _ _ Ha Hmb) as Hcmp.
  rewrite (cmp_rank TREE_BASE base s' Hs' debug rid i j c d bias gamma Hc Hd) in Hcmp. injection Hcmp as Hcmp. unfold place_le in Hp. rewrite <- Hcmp in Hp.
  by apply Nat.compare_le_iff.
Qed.
End made_list.

(** C20: Resolving a sorted list of anchors with one cursor gives what
    resolving each gives: anchors made at ascending places of a buffer resolve,
    in every later state and in bytes, UTF-16 units, points and pairs of these
    ([MeasureOk]; rows and columns of texts below 4 GB), by
    [summaries_for_anchors] to the measures of the text before their offsets. *)
Theorem summaries_for_anchors_each TREE_BASE max base b b' debug rid places :
  1 ≤ TREE_BASE → (4 ≤ max ≤ u32_max)%N → replica_ok TREE_BASE base b → rtc (replica_step TREE_BASE max base) b b' →
  Forall (λ p : nat * Bias, is_char_boundary (visible_text (snapshot b)) p.1 = true) places → StronglySorted place_le places →
  ∃ anchors os, mapM (λ p : nat * Bias, anchor_at_offset debug rid (snapshot b) p.1 p.2) places = Some anchors ∧
    mapM (offset_for_anchor debug rid (snapshot b')) anchors = Some os ∧
    ∀ D (td : TextMeasure D) fits, MeasureOk td fits → fits (visible_text (snapshot b')) →
      summaries_for_anchors td (snapshot b') anchors = Some ((λ o, tm_of td (take o (visible_text (snapshot b')))) <$> os).
Proof.
  intros HB Hmax Hok Hsteps Hp Hsort. destruct (steps_keep_bytes TREE_BASE HB max Hmax base b b' Hsteps Hok) as [Hok' Hkeep].
  pose proof (bi_state _ _ _ (ro_inv _ _ _ Hok)) as Hs. pose proof (bi_state _ _ _ (ro_inv _ _ _ Hok')) as Hs'.
  assert (∃ anchors, mapM (λ p : nat * Bias, anchor_at_offset debug rid (snapshot b) p.1 p.2) places = Some anchors ∧
    Forall2 (λ p a, made (snapshot b) rid a p.1 p.2) places anchors) as (anchors & Ea & Hmade).
  { clear Hsort. induction Hp as [|p places Hp Hps IH]; [by exists []|]. destruct IH as (l & El & Hl).
    destruct (boundary_roundtrip TREE_BASE base _ Hs debug rid p.1 p.2 Hp) as (x & Ex & _ & _ & _ & Hx). exists (x :: l). cbn [mapM]. rewrite Ex. cbn [mbind option_bind].
    rewrite El. split; [done|by constructor]. }
  destruct (made_list_ok TREE_BASE base (snapshot b) (snapshot b') Hs Hs' debug rid Hkeep places anchors Hmade Hsort) as [Hk Ha].
  assert (∃ os, mapM (offset_for_anchor debug rid (snapshot b')) anchors = Some os) as (os & Eos).
  { destruct (summaries_loop_ok TREE_BASE base _ Hs' debug rid usize_measure (λ _, True) anchors I [] (mkFragmentCursor (None, 0) (fragments (snapshot b'))) 0) as (os & Eos & _); [by split_and!|lia|done|done|intros; unfold flen; cbn; lia|by exists os]. }
  exists anchors, os. split; [done|]. split; [done|]. intros D td fits Htd Hf.
  destruct (summaries_loop_ok TREE_BASE base _ Hs' debug rid td fits anchors Hf [] (mkFragmentCursor (None, 0) (fragments (snapshot b'))) 0) as (os' & Eos' & El); [by split_and!|lia|done|done|intros; unfold flen; cbn; lia|].
  rewrite Eos in Eos'. injection Eos' as <-. unfold summaries_for_anchors. rewrite <- (measure_nil (td := td)). exact El.
Qed.

Module EditedExamples.
Import ReplicaExamples.

(** The timestamp of the edit of [b1], which inserted "X" and deleted "b". *)
Definition edit_stamp : Lamport := op_timestamp op1.

Example edited_b1 : edited_ranges_for_edit_ids usize_measure (snapshot b1) [edit_stamp] = Some [(2, 3)] ∧
  edited_ranges_for_edit_ids usize_measure (snapshot b2) [edit_stamp] = Some [(2, 3)].
Proof. vm_compute. split; reflexivity. Qed.

(** The same range in points, and two anchors of the edited text. *)
Example edited_b1_points : edited_ranges_for_edit_ids point_utf16_measure (snapshot b1) [edit_stamp] = Some [(Summary.mkPoint 1 0, Summary.mkPoint 1 1)].
Proof. vm_compute. reflexivity. Qed.
Example summaries_b1_points :
  (l ← mapM (λ n, anchor_at_offset true 0 (snapshot b0) n Right) [1; 2]; summaries_for_anchors point_measure (snapshot b1) l) =
    Some [Summary.mkPoint 0 1; Summary.mkPoint 1 1].
Proof. vm_compute. reflexivity. Qed.

Example edited_ranges_exact_witness :
  ∃ R, (∀ D (td : TextMeasure D) fits, MeasureOk td fits → fits (visible_text (snapshot b2)) → edited_ranges_for_edit_ids td (snapshot b2) [edit_stamp] = Some (measured td (visible_text (snapshot b2)) <$> R)) ∧
    StronglySorted apart R ∧ Forall (λ q, q.1 ≤ q.2 ≤ length (visible_text (snapshot b2))) R ∧
    ∀ k c r, scells (snapshot b2) = k ++ c :: r →
      (∀ e, e ∈ [edit_stamp] → Some e ≠ base_of (normalize text) → concerns e c → marked R k c) ∧
      (c_visible c = true → covers_offset R (length (visible_bytes k)) → touched_by (snapshot b2) [edit_stamp] c).
Proof.
  apply (edited_ranges_exact 6 (base_of (normalize text)) b2); [|vm_compute; reflexivity].
  destruct (steps_keep_bytes 6 ltac:(lia) 16 small_max (base_of (normalize text)) b0 b2 b2_reachable b0_ok) as [H _]. exact H.
Defined.

(** Both sides of the newline, and the end, after the edit was made and undone. *)
Example summaries_for_anchors_each_witness :
  ∃ anchors os, mapM (λ p : nat * Bias, anchor_at_offset true 0 (snapshot b0) p.1 p.2) [(1, Right); (2, Left); (2, Right); (3, Right)] = Some anchors ∧
    mapM (offset_for_anchor true 0 (snapshot b2)) anchors = Some os ∧
    ∀ D (td : TextMeasure D) fits, MeasureOk td fits → fits (visible_text (snapshot b2)) →
      summaries_for_anchors td (snapshot b2) anchors = Some ((λ o, tm_of td (take o (visible_text (snapshot b2)))) <$> os).
Proof.
  apply (summaries_for_anchors_each 6 16 (base_of (normalize text)) b0 b2 true 0); [lia|apply small_max|apply b0_ok|apply b2_reachable| |].
  - repeat (apply Forall_cons; split; [vm_compute; reflexivity|]). apply Forall_nil_2.
  - repeat constructor; unfold place_le; vm_compute; discriminate.
Defined.
End EditedExamples.
