(* ===== verification/CharBag.v ===== *)
(** * Character bags ([crates/fuzzy/src/char_bag.rs])

    Before a candidate is scored against a query, the letters, digits and
    hyphens of both are compared as sets of bits: two bits count a letter up to
    two, one bit each marks a digit or a hyphen.  The lowercase of a character
    is a parameter: the sequence of characters Unicode gives it. *)

From S2P Require Import Prelude.
#[local] Open Scope N_scope.

Section bag.
Context (to_lowercase : N → list N).
Implicit Types (b : N) (c : N) (s : list N).

(** A [u64]; [char]s are their scalar values. *)
Definition simple_lowercase c : N := default c (head (to_lowercase c)).
Definition u64_bits b : N := N.land b (N.ones 64).
Definition is_superset b other : bool := N.land b other =? other.
Definition is_ascii_lowercase c : bool := (97 <=? c) && (c <=? 122).
Definition is_ascii_digit c : bool := (48 <=? c) && (c <=? 57).
Definition bag_insert b c : N :=
  let c := simple_lowercase c in
  if is_ascii_lowercase c then
    let idx := c - 97 in
    let count := N.shiftr b (idx * 2) in
    let count := N.land (N.lor (u64_bits (N.shiftl count 1)) 1) 3 in
    let count := u64_bits (N.shiftl count (idx * 2)) in
    N.lor b count
  else if is_ascii_digit c then N.lor b (u64_bits (N.shiftl 1 (c - 48 + 52)))
  else if c =? 45 then N.lor b (u64_bits (N.shiftl 1 62))
  else b.
Definition bag_extend b s : N := foldl bag_insert b s.
Definition bag_from s : N := bag_extend 0 s.

(** ** What the bits mean *)

(** How often a string has a character, up to case. *)
Definition occurrences s c : nat := length (List.filter (λ d, simple_lowercase d =? c) s).
(** Letters count up to two, digits and the hyphen up to one. *)
Definition most c : nat := if is_ascii_lowercase c then 2 else if is_ascii_digit c || (c =? 45) then 1 else 0.
(** The character a bit is about, and how often it has to occur. *)
Definition slot (i : N) : option (N * nat) :=
  if i <? 52 then Some (97 + i / 2, S (N.to_nat (i mod 2))) else if i <? 62 then Some (48 + (i - 52), 1%nat) else if i =? 62 then Some (45, 1%nat) else None.

Lemma occurrences_snoc s c d : occurrences (s ++ [c]) d = (occurrences s d + if (simple_lowercase c =? d)%N then 1 else 0)%nat.
Proof using. unfold occurrences. rewrite List.filter_app, length_app. cbn. by destruct (_ =? d). Qed.

Lemma u64_testbit b i : N.testbit (u64_bits b) i = N.testbit b i && (i <? 64).
Proof using. unfold u64_bits. rewrite N.land_spec. f_equal. destruct (N.ltb_spec i 64); [by apply N.ones_spec_low|by apply N.ones_spec_high]. Qed.

Lemma one_bit n i : N.testbit (N.shiftl 1 n) i = (i =? n).
Proof using.
  rewrite N.shiftl_1_l. destruct (N.eqb_spec i n) as [->|H]; [apply N.pow2_bits_true|by apply N.pow2_bits_false, not_eq_sym].
Qed.

(** The two low bits of the counter of a letter after one more. *)
Lemma count_bits b k i : k < 26 →
  N.testbit (u64_bits (N.shiftl (N.land (N.lor (u64_bits (N.shiftl (N.shiftr b (k * 2)) 1)) 1) 3) (k * 2))) i =
  (i =? k * 2) || (i =? k * 2 + 1) && N.testbit b (k * 2).
Proof using.
  intros Hk. rewrite u64_testbit. destruct (N.lt_ge_cases i (k * 2)) as [Hlt|Hge].
  { rewrite N.shiftl_spec_low by done. rewrite (proj2 (N.eqb_neq i (k * 2))), (proj2 (N.eqb_neq i (k * 2 + 1))) by lia. done. }
  rewrite N.shiftl_spec_high' by done. rewrite N.land_spec, N.lor_spec, u64_testbit.
  destruct (N.eq_dec i (k * 2)) as [->|H0]; [rewrite N.sub_diag, N.eqb_refl, (proj2 (N.ltb_lt (k * 2) 64)) by lia; change (N.testbit 1 0) with true; change (N.testbit 3 0) with true; by rewrite !orb_true_r|].
  rewrite (proj2 (N.eqb_neq i (k * 2)) H0). destruct (N.eq_dec i (k * 2 + 1)) as [->|H1].
  - rewrite (proj2 (N.ltb_lt (k * 2 + 1) 64)) by lia. replace (k * 2 + 1 - k * 2) with 1 by lia. rewrite N.eqb_refl, N.shiftl_spec_high' by lia.
    rewrite N.shiftr_spec'. change (1 - 1 + k * 2) with (k * 2). change (N.testbit 1 1) with false. change (N.testbit 3 1) with true. change (1 <? 64) with true.
    by rewrite !andb_true_r, orb_false_r.
  - rewrite (proj2 (N.eqb_neq i (k * 2 + 1)) H1). assert (N.testbit 3 (i - k * 2) = false) as ->; [|by rewrite andb_false_r].
    change 3 with (N.ones 2). apply N.ones_spec_high. lia.
Qed.

Lemma letter_slot k : k < 26 → slot (k * 2) = Some (97 + k, 1%nat) ∧ slot (k * 2 + 1) = Some (97 + k, 2%nat).
Proof using.
  intros Hk. unfold slot. rewrite !(proj2 (N.ltb_lt _ 52)) by lia. split; do 2 f_equal.
  - by rewrite N.div_mul.
  - by rewrite N.Div0.mod_mul.
  - rewrite N.div_add_l, N.add_0_r; done.
  - by rewrite N.add_comm, N.Div0.mod_add.
Qed.

Lemma slot_inv i c n : slot i = Some (c, n) →
  (∃ k, k < 26 ∧ c = 97 + k ∧ (i = k * 2 ∧ n = 1%nat ∨ i = k * 2 + 1 ∧ n = 2%nat)) ∨ (48 ≤ c ≤ 57 ∧ i = c - 48 + 52 ∧ n = 1%nat) ∨ (c = 45 ∧ i = 62 ∧ n = 1%nat).
Proof using.
  unfold slot. destruct (N.ltb_spec i 52) as [H|H]; [|destruct (N.ltb_spec i 62); [|destruct (N.eqb_spec i 62); [|done]]]; intros [= <- <-].
  - left. exists (i / 2). pose proof (N.div_mod i 2 ltac:(done)) as E. pose proof (N.mod_lt i 2 ltac:(done)) as Hm.
    assert (i / 2 < 26) by (apply N.Div0.div_lt_upper_bound; lia). split; [done|]. split; [done|].
    generalize dependent (i / 2). generalize dependent (i mod 2). intros m Hm q E _. destruct (decide (m = 0)) as [->|E0]; [left; split; [lia|done]|right]. assert (m = 1) as -> by lia. split; [lia|done].
  - right. left. split_and!; lia || done.
  - right. right. by split_and!.
Qed.
Lemma digit_slot c : is_ascii_digit c = true → slot (c - 48 + 52) = Some (c, 1%nat).
Proof using.
  intros [H1%N.leb_le H2%N.leb_le]%andb_prop. unfold slot. rewrite (proj2 (N.ltb_ge _ 52)), (proj2 (N.ltb_lt _ 62)) by lia. do 2 f_equal. lia.
Qed.

(** Inserting a character sets the next of its bits. *)
Lemma insert_bits b c i : N.testbit (bag_insert b c) i = N.testbit b i || match slot i with
  | Some (d, n) => (simple_lowercase c =? d) && (if (n =? 2)%nat then N.testbit b (i - 1) else true)
  | None => false end.
Proof using.
  unfold bag_insert. set (l := simple_lowercase c). destruct (is_ascii_lowercase l) eqn:El; [|destruct (is_ascii_digit l) eqn:Ed; [|destruct (N.eqb_spec l 45) as [E45|E45]]].
  - pose proof El as [H1%N.leb_le H2%N.leb_le]%andb_prop. rewrite N.lor_spec, count_bits by lia. f_equal. destruct (letter_slot (l - 97) ltac:(lia)) as [S1 S2].
    destruct (N.eqb_spec i ((l - 97) * 2)) as [->|Hn]; [rewrite S1; replace (97 + (l - 97)) with l by lia; by rewrite N.eqb_refl|].
    destruct (N.eqb_spec i ((l - 97) * 2 + 1)) as [->|Hn']; [rewrite S2; replace (97 + (l - 97)) with l by lia; rewrite N.eqb_refl; cbn; f_equal; lia|].
    destruct (slot i) as [[d n]|] eqn:E; [|done]. cbn. destruct (N.eqb_spec l d) as [<-|]; [|done]. apply slot_inv in E. exfalso. destruct E as [(k & ? & ? & [[? _]|[? _]])|[[? _]|[? _]]]; lia.
  - pose proof Ed as [H1%N.leb_le H2%N.leb_le]%andb_prop. rewrite N.lor_spec, u64_testbit, one_bit. f_equal.
    destruct (N.eqb_spec i (l - 48 + 52)) as [->|Hn].
    { rewrite (digit_slot l) by done. rewrite N.eqb_refl. cbn. apply N.ltb_lt. lia. }
    destruct (slot i) as [[d n]|] eqn:E; [|done]. cbn. destruct (N.eqb_spec l d) as [<-|]; [|done]. apply slot_inv in E. exfalso. destruct E as [(k & ? & ? & _)|[(_ & ? & _)|[? _]]]; lia.
  - rewrite N.lor_spec, u64_testbit, one_bit. f_equal. destruct (N.eqb_spec i 62) as [->|Hn]; [change (slot 62) with (Some (45, 1%nat)); by rewrite E45|].
    destruct (slot i) as [[d n]|] eqn:E; [|done]. cbn. destruct (N.eqb_spec l d) as [<-|]; [|done]. apply slot_inv in E. exfalso. destruct E as [(k & ? & ? & _)|[(? & _)|(_ & ? & _)]]; lia.
  - assert (match slot i with Some (d, n) => (l =? d) && (if (n =? 2)%nat then N.testbit b (i - 1) else true) | None => false end = false) as ->; [|by rewrite orb_false_r].
    destruct (slot i) as [[d n]|] eqn:E; [|done]. destruct (N.eqb_spec l d) as [<-|]; [|done]. exfalso. apply slot_inv in E.
    unfold is_ascii_lowercase in El. unfold is_ascii_digit in Ed. destruct E as [(k & ? & ? & _)|[(? & _)|(? & _)]]; [|..|lia].
    + rewrite (proj2 (N.leb_le 97 l)), (proj2 (N.leb_le l 122)) in El by lia. done.
    + rewrite (proj2 (N.leb_le 48 l)), (proj2 (N.leb_le l 57)) in Ed by lia. done.
Qed.

(** Every bit of a bag is exact. *)
Lemma bag_bits s i : N.testbit (bag_from s) i = match slot i with Some (c, n) => (n <=? occurrences s c)%nat | None => false end.
Proof using.
  revert i. induction s as [|c s IH] using rev_ind; intros i.
  { change (bag_from []) with 0. rewrite N.bits_0. destruct (slot i) as [[c n]|] eqn:E; [|done]. symmetry. apply Nat.leb_gt.
    apply slot_inv in E. change (occurrences [] c) with 0%nat. destruct E as [(k & _ & _ & [[_ ->]|[_ ->]])|[(_ & _ & ->)|(_ & _ & ->)]]; lia. }
  unfold bag_from, bag_extend in *. rewrite foldl_app. cbn [foldl]. rewrite insert_bits, IH. destruct (slot i) as [[d n]|] eqn:E; [|done].
  rewrite occurrences_snoc. destruct (N.eqb_spec (simple_lowercase c) d) as [Hd|Hd]; [|by rewrite Nat.add_0_r, orb_false_r]. cbn [andb].
  apply slot_inv in E. destruct E as [(k & Hk & -> & [[-> ->]|[-> ->]])|[(_ & _ & ->)|(_ & _ & ->)]]; cbn [Nat.eqb].
  1, 3, 4: rewrite orb_true_r; symmetry; apply Nat.leb_le; lia.
  rewrite N.add_sub, IH, (proj1 (letter_slot k Hk)).
  destruct (Nat.leb_spec 2 (occurrences s (97 + k))), (Nat.leb_spec 1 (occurrences s (97 + k))), (Nat.leb_spec 2 (occurrences s (97 + k) + 1)); done || lia.
Qed.

Lemma superset_bits a b : is_superset a b = true ↔ ∀ i, N.testbit b i = true → N.testbit a i = true.
Proof using.
  unfold is_superset. rewrite N.eqb_eq. split.
  - intros E i Hi. rewrite <- E, N.land_spec in Hi. by apply andb_prop in Hi as [? _].
  - intros H. apply N.bits_inj. intros i. rewrite N.land_spec. specialize (H i). destruct (N.testbit b i); [by rewrite H|by rewrite andb_false_r].
Qed.

(** A character that is counted has a bit for each count. *)
Lemma slot_for c n : (1 ≤ n ≤ most c)%nat → ∃ i, slot i = Some (c, n).
Proof using.
  unfold most. destruct (is_ascii_lowercase c) eqn:El.
  - intros Hn. pose proof El as [H1%N.leb_le H2%N.leb_le]%andb_prop. destruct (letter_slot (c - 97) ltac:(lia)) as [S1 S2]. replace (97 + (c - 97)) with c in * by lia.
    destruct (decide (n = 1)%nat) as [->|]; [by eexists|]. assert (n = 2)%nat as -> by lia. by eexists.
  - destruct (is_ascii_digit c) eqn:Ed; [|destruct (N.eqb_spec c 45) as [->|]]; cbn [orb]; intros Hn; [| |lia]; assert (n = 1)%nat as -> by lia.
    + exists (c - 48 + 52). by apply digit_slot.
    + by exists 62.
Qed.
Lemma slot_most i c n : slot i = Some (c, n) → (1 ≤ n ≤ most c)%nat.
Proof using.
  intros E%slot_inv. unfold most, is_ascii_lowercase, is_ascii_digit. destruct E as [(k & Hk & -> & Hn)|[(Hc & _ & ->)|(-> & _ & ->)]]; [| |done].
  - rewrite (proj2 (N.leb_le 97 _)), (proj2 (N.leb_le _ 122)) by lia. cbn. lia.
  - rewrite (proj2 (N.leb_gt 97 _)), (proj2 (N.leb_le 48 _)), (proj2 (N.leb_le _ 57)) by lia. cbn. lia.
Qed.

Lemma superset_counts s q : is_superset (bag_from s) (bag_from q) = true ↔ ∀ c, (Nat.min (occurrences q c) (most c) ≤ occurrences s c)%nat.
Proof using.
  rewrite superset_bits. split.
  - intros H c. destruct (decide (Nat.min (occurrences q c) (most c) = 0)%nat) as [->|Hne]; [lia|].
    destruct (slot_for c (Nat.min (occurrences q c) (most c))) as [i Hi]; [lia|]. specialize (H i). rewrite !bag_bits, Hi in H. rewrite !Nat.leb_le in H. lia.
  - intros H i. rewrite !bag_bits. destruct (slot i) as [[c n]|] eqn:E; [|done]. apply slot_most in E. specialize (H c). rewrite !Nat.leb_le. lia.
Qed.

Lemma occurrences_submultiset s q c : (simple_lowercase <$> q) ⊆+ (simple_lowercase <$> s) → (occurrences q c ≤ occurrences s c)%nat.
Proof using.
  assert (∀ l, occurrences l c = length (List.filter (λ d, d =? c) (simple_lowercase <$> l))) as E.
  { unfold occurrences. induction l as [|d l IH]; [done|]. cbn. destruct (simple_lowercase d =? c); cbn; by rewrite IH. }
  rewrite !E. intros H. induction H as [|x l k _ IH|x y l|x l k _ IH|l k m _ IH1 _ IH2]; cbn; repeat case_match; cbn; lia.
Qed.
(** C37: The filter is exact on what it counts: the bag of a candidate is a
    superset of the bag of a query exactly when the candidate has every letter
    of the query as often as the query does, up to twice, and every digit and
    hyphen of it; so a candidate that contains the characters of the query, in
    any order and case, is never filtered out. *)
Theorem superset_exact s q :
  (is_superset (bag_from s) (bag_from q) = true ↔ ∀ c, (Nat.min (occurrences q c) (most c) ≤ occurrences s c)%nat) ∧
  ((simple_lowercase <$> q) ⊆+ (simple_lowercase <$> s) → is_superset (bag_from s) (bag_from q) = true).
Proof using.
  split; [apply superset_counts|]. intros H. apply superset_counts. intros c. pose proof (occurrences_submultiset s q c H). lia.
Qed.
End bag.

(** ** A concrete alphabet *)

Module CharBagExamples.
Definition ascii_lowercase (c : N) : list N := if (65 <=? c) && (c <=? 90) then [c + 32] else [c].
(** "Foo-1", "o1f", "ooo" and "oz". *)
Definition candidate : list N := [70; 111; 111; 45; 49].
Example bags : is_superset (bag_from ascii_lowercase candidate) ∘ bag_from ascii_lowercase <$> [[111; 49; 102]; [111; 111; 111]; [111; 122]] = [true; true; false].
Proof. vm_compute. reflexivity. Qed.
End CharBagExamples.
