(* ===== verification/Reindent.v ===== *)
(** * Reindenting a stream of lines ([crates/agent/src/edit_agent/reindent.rs])

    The text an agent writes arrives in pieces and has to be indented like the
    text it replaces: each line's indentation changes by a delta.  A piece may
    end inside the indentation, which is kept back until it is known whether
    anything follows it on its line. *)

From S2P Require Import Prelude Text Bitmap Select Utf8 Summary Chunk ChunkBits RopeLines RopeLinesOk.
#[local] Open Scope nat_scope.

Inductive IndentDelta := Spaces (n : Z) | Tabs (n : Z).
Definition delta_character (d : IndentDelta) : byte := match d with Spaces _ => Byte.x20 | Tabs _ => Byte.x09 end.
Definition delta_len (d : IndentDelta) : Z := match d with Spaces n => n | Tabs n => n end.

(** The counts are [u32]s, so their differences are [isize]s. *)
Definition compute_indent_delta (buffer_indent query_indent : LineIndent) : IndentDelta :=
  if (0 <? li_tabs buffer_indent)%N then Tabs (Z.of_N (li_tabs buffer_indent) - Z.of_N (li_tabs query_indent))
  else Spaces (Z.of_N (li_spaces buffer_indent) - Z.of_N (li_spaces query_indent)).

Record Reindenter := mkReindenter { re_delta : IndentDelta; re_buffer : Text; in_leading_whitespace : bool }.
Definition new_reindenter (d : IndentDelta) : Reindenter := mkReindenter d [] true.

(** [match_indices('\n')]. *)
Fixpoint newline_indices (ix : nat) (t : Text) : list nat :=
  match t with [] => [] | b :: t => if is_newline b then ix :: newline_indices (S ix) t else newline_indices (S ix) t end.
(** [line.find(|c| self.delta.character() != c)]: the characters before it are
    single bytes. *)
Definition find_other (d : IndentDelta) (line : Text) : option nat := position (λ b, negb (Byte.eqb (delta_character d) b)) line.

(** The loop of [drain]: what is emitted, where it stopped, and whether in the
    indentation of a line. *)
Fixpoint drain_loop (d : IndentDelta) (is_final : bool) (buffer : Text) (newlines : list nat) (start_ix : nat) (leading : bool) (indented : Text) : Text * nat * bool :=
  let line_end := match newlines with ix :: _ => ix | [] => length buffer end in
  let is_pending_line := match newlines with _ :: _ => false | [] => true end in
  let line := take (line_end - start_ix) (drop start_ix buffer) in
  let stop := (indented, start_ix, leading) in
  let go_on (indented : Text) (leading : bool) :=
    match newlines with
    | [] => (indented, line_end, leading)
    | _ :: newlines => drain_loop d is_final buffer newlines (line_end + 1) true (indented ++ [LF])
    end in
  if leading then
    match find_other d line with
    | Some ix =>
        let new_indent_len := Z.to_nat (Z.max 0 (Z.of_nat ix + delta_len d)) in
        go_on (indented ++ repeat (delta_character d) new_indent_len ++ drop ix line) false
    | None => if is_pending_line && negb is_final then stop else go_on (indented ++ line) leading
    end
  else go_on (indented ++ line) leading.

Definition drain (r : Reindenter) (is_final : bool) : Text * Reindenter :=
  let '(indented, start_ix, leading) := drain_loop (re_delta r) is_final (re_buffer r) (newline_indices 0 (re_buffer r)) 0 (in_leading_whitespace r) [] in
  let buffer := drop start_ix (re_buffer r) in
  if is_final then (indented ++ buffer, mkReindenter (re_delta r) [] leading) else (indented, mkReindenter (re_delta r) buffer leading).
Definition reindent_push (r : Reindenter) (chunk : Text) : Text * Reindenter :=
  drain (mkReindenter (re_delta r) (re_buffer r ++ chunk) (in_leading_whitespace r)) false.
Definition reindent_finish (r : Reindenter) : Text * Reindenter := drain r true.

(** A stream of pieces. *)
Fixpoint reindent_all (r : Reindenter) (chunks : list Text) : Text :=
  match chunks with
  | [] => (reindent_finish r).1
  | c :: chunks => let '(out, r) := reindent_push r c in out ++ reindent_all r chunks
  end.

(** ** The specification *)

Section spec.
Context (d : IndentDelta).

Definition reindent_line (line : Text) : Text :=
  match find_other d line with
  | Some ix => repeat (delta_character d) (Z.to_nat (Z.max 0 (Z.of_nat ix + delta_len d))) ++ drop ix line
  | None => line
  end.
Fixpoint join_lines (lines : list Text) : Text :=
  match lines with [] => [] | [l] => l | l :: ls => l ++ LF :: join_lines ls end.
Definition reindented (t : Text) : Text := join_lines (reindent_line <$> split_newline t).

(** [drain] on the list of lines: what is emitted, kept back, and the flag. *)
Fixpoint drain_lines (is_final leading : bool) (lines : list Text) : Text * Text * bool :=
  match lines with
  | [] => ([], [], leading)
  | [l] =>
      if leading then
        match find_other d l with
        | Some _ => (reindent_line l, [], false)
        | None => if is_final then (l, [], true) else ([], l, true)
        end
      else (l, [], false)
  | l :: ls => let '(o, rest, leading') := drain_lines is_final true ls in ((if leading then reindent_line l else l) ++ LF :: o, rest, leading')
  end.

Lemma split_cases t : flat t ∧ split_newline t = [t] ∨ ∃ l r x ls, t = l ++ LF :: r ∧ flat l ∧ split_newline r = x :: ls ∧ split_newline t = l :: x :: ls.
Proof using.
  pose proof (first_newline t) as H. destruct (position is_newline t) as [i|].
  - right. destruct H as (l & r & -> & Hl & _). destruct (others_nonempty _ (split_nonempty r)) as (x & ls & E). exists l, r, x, ls. split_and!; try done. by rewrite split_first, E.
  - left. split; [done|by apply split_flat].
Qed.

Lemma drain_lines_cons is_final leading l x ls : drain_lines is_final leading (l :: x :: ls) =
  let '(o, rest, leading') := drain_lines is_final true (x :: ls) in ((if leading then reindent_line l else l) ++ LF :: o, rest, leading').
Proof using. done. Qed.

Lemma newline_indices_flat ix t : flat t → newline_indices ix t = [].
Proof using. intros H. revert ix. induction H as [|b t Hb Ht IH]; intros ix; [done|]. cbn. by rewrite Hb. Qed.
Lemma newline_indices_first ix l r : flat l → newline_indices ix (l ++ LF :: r) = (ix + length l) :: newline_indices (ix + length l + 1) r.
Proof using.
  intros H. revert ix. induction H as [|b l Hb Hl IH]; intros ix; cbn [app newline_indices length].
  - change (is_newline LF) with true. cbn. f_equal; [lia|f_equal; lia].
  - rewrite Hb, IH. f_equal; [lia|f_equal; lia].
Qed.

Lemma drain_loop_lines n is_final pre w leading indented : length w ≤ n →
  drain_loop d is_final (pre ++ w) (newline_indices (length pre) w) (length pre) leading indented =
  let '(o, rest, leading') := drain_lines is_final leading (split_newline w) in (indented ++ o, length (pre ++ w) - length rest, leading').
Proof using.
  revert pre w leading indented. induction n as [|n IH]; intros pre w leading indented Hn.
  all: destruct (split_cases w) as [[Hf ->]|(l & r & x & ls & -> & Hl & Er & ->)].
  1, 3: rewrite (newline_indices_flat _ _ Hf); cbn [drain_loop drain_lines]; rewrite drop_app_length, (take_ge w) by (rewrite length_app; lia);
    unfold reindent_line; destruct leading; [destruct (find_other d w); [|destruct is_final; cbn [andb negb]]|]; cbn [length]; rewrite ?Nat.sub_0_r, ?app_nil_r, ?length_app, ?Nat.add_sub; done.
  - rewrite length_app in Hn. cbn in Hn. lia.
  - rewrite (newline_indices_first _ _ _ Hl). cbn [drain_loop]. rewrite drop_app_length. replace (length pre + length l - length pre) with (length l) by lia. rewrite take_app_length.
    assert (∀ ind lead, drain_loop d is_final (pre ++ l ++ LF :: r) (newline_indices (length pre + length l + 1) r) (length pre + length l + 1) lead ind =
      let '(o, rest, leading') := drain_lines is_final lead (x :: ls) in (ind ++ o, length (pre ++ l ++ LF :: r) - length rest, leading')) as Hrest.
    { intros ind lead. specialize (IH (pre ++ l ++ [LF]) r lead ind). rewrite <- !app_assoc, Er in IH. cbn [app] in IH.
      rewrite !length_app in IH. cbn [length] in IH. rewrite Nat.add_assoc in IH. rewrite IH; [by rewrite !length_app|]. rewrite length_app in Hn. cbn in Hn. lia. }
    rewrite drain_lines_cons. unfold reindent_line at 1. destruct leading; [destruct (find_other d l)|]; cbn [andb]; rewrite Hrest;
      destruct (drain_lines is_final true (x :: ls)) as [[o rest] leading']; by rewrite <- !app_assoc.
Qed.

(** Induction on the lines of a text. *)
Lemma lines_ind (P : Text → Prop) : (∀ t, flat t → P t) → (∀ l r, flat l → P r → P (l ++ LF :: r)) → ∀ t, P t.
Proof using.
  intros H0 H1 t. remember (length t) as n eqn:En. revert t En. induction n as [n IH] using lt_wf_ind. intros t ->.
  destruct (split_cases t) as [[Hf _]|(l & r & x & ls & -> & Hl & _)]; [by apply H0|]. apply H1; [done|]. apply (IH (length r)); [|done].
  rewrite length_app. cbn. lia.
Qed.

(** The lines before the first newline are followed by those after it. *)
Lemma drain_first is_final leading l r : flat l → drain_lines is_final leading (split_newline (l ++ LF :: r)) =
  let '(o, rest, leading') := drain_lines is_final true (split_newline r) in ((if leading then reindent_line l else l) ++ LF :: o, rest, leading').
Proof using. intros Hl. rewrite split_first by done. destruct (others_nonempty _ (split_nonempty r)) as (x & ls & ->). apply drain_lines_cons. Qed.

(** What is kept back is the end of the text, and nothing at the end. *)
Lemma drain_rest is_final leading t : let '(_, rest, _) := drain_lines is_final leading (split_newline t) in (∃ p, t = p ++ rest) ∧ (is_final = true → rest = []).
Proof using.
  revert leading. pattern t. revert t. apply lines_ind; [intros t Hf leading|intros l r Hl IH leading].
  - rewrite split_flat by done. cbn [drain_lines]. destruct leading; [destruct (find_other d t); [|destruct is_final]|]; split; try done; try (by exists t; rewrite app_nil_r). by exists [].
  - rewrite drain_first by done. specialize (IH true). destruct (drain_lines is_final true (split_newline r)) as [[o rest] lead]. destruct IH as [[p ->] H].
    split; [|done]. exists (l ++ LF :: p). by rewrite <- app_assoc.
Qed.

Lemma drain_of b leading is_final : drain (mkReindenter d b leading) is_final =
  let '(o, rest, leading') := drain_lines is_final leading (split_newline b) in (o, mkReindenter d rest leading').
Proof using.
  unfold drain. cbn [re_delta re_buffer in_leading_whitespace].
  pose proof (drain_loop_lines (length b) is_final [] b leading [] (Nat.le_refl _)) as H. cbn [app length] in H. rewrite H.
  pose proof (drain_rest is_final leading b) as Hr. destruct (drain_lines is_final leading (split_newline b)) as [[o rest] lead]. destruct Hr as [[p ->] Hfin].
  rewrite length_app, Nat.add_sub, drop_app_length. destruct is_final; [|done]. by rewrite (Hfin eq_refl), app_nil_r.
Qed.

Lemma find_other_app t u i : find_other d t = Some i → find_other d (t ++ u) = Some i ∧ i ≤ length t.
Proof using.
  unfold find_other. revert i. induction t as [|b t IH]; intros i; cbn; [done|]. destruct (negb _); [intros [= <-]; split; [done|lia]|].
  destruct (position _ t) as [j|]; [|done]. cbn. intros [= <-]. destruct (IH j eq_refl) as [-> Hj]. split; [done|lia].
Qed.
Lemma reindent_line_app t u i : find_other d t = Some i → reindent_line (t ++ u) = reindent_line t ++ u.
Proof using.
  intros H. unfold reindent_line. destruct (find_other_app t u i H) as [-> Hi]. rewrite H, <- app_assoc. f_equal. rewrite drop_app_le by done. done.
Qed.

(** A text that is continued: the new lines go on where the old ones stopped. *)
Lemma drain_app is_final leading t u : let '(o, rest, leading') := drain_lines false leading (split_newline t) in
  let '(o', rest', leading'') := drain_lines is_final leading' (split_newline (rest ++ u)) in
  drain_lines is_final leading (split_newline (t ++ u)) = (o ++ o', rest', leading'').
Proof using.
  revert leading. pattern t. revert t. apply lines_ind; [intros t Hf leading|intros l r Hl IH leading].
  - rewrite (split_flat t) by done. cbn [drain_lines].
    assert (∀ o, (∀ v, flat v → (if leading then reindent_line (t ++ v) else t ++ v) = o ++ v) → (leading = true → ∀ v, ∃ i, find_other d (t ++ v) = Some i) →
      let '(o', rest', leading'') := drain_lines is_final false (split_newline u) in drain_lines is_final leading (split_newline (t ++ u)) = (o ++ o', rest', leading'')) as Hgo.
    { intros o Ho Hfind. destruct (split_cases u) as [[Hu ->]|(l & r & x & ls & -> & Hl & Er & _)].
      - rewrite split_flat by (apply flat_app; by split). cbn [drain_lines]. rewrite <- (Ho u Hu). destruct leading; [|done]. destruct (Hfind eq_refl u) as [i ->]. done.
      - rewrite drain_first by done. rewrite app_assoc, drain_first by (apply flat_app; by split). rewrite (Ho l Hl).
        destruct (drain_lines is_final true (split_newline r)) as [[o' rest'] lead]. by rewrite <- app_assoc. }
    destruct leading; [destruct (find_other d t) as [i|] eqn:E|].
    + cbn [app]. apply Hgo; [intros v _; by eapply reindent_line_app|]. intros _ v. exists i. by apply find_other_app.
    + destruct (drain_lines is_final true (split_newline (t ++ u))) as [[o' rest'] lead]. done.
    + cbn [app]. by apply Hgo.
  - rewrite drain_first by done. rewrite <- app_assoc. cbn [app]. rewrite drain_first by done. specialize (IH true).
    destruct (drain_lines false true (split_newline r)) as [[o rest] lead]. destruct (drain_lines is_final lead (split_newline (rest ++ u))) as [[o' rest'] lead'].
    rewrite IH. by rewrite <- app_assoc.
Qed.

Lemma drain_final t : (drain_lines true true (split_newline t)).1.1 = reindented t.
Proof using.
  pattern t. revert t. apply lines_ind; [intros t Hf|intros l r Hl IH].
  - unfold reindented. rewrite split_flat by done. cbn. unfold reindent_line. by destruct (find_other d t).
  - rewrite drain_first by done. unfold reindented in *. rewrite split_first by done. destruct (others_nonempty _ (split_nonempty r)) as (x & ls & E). rewrite E in *.
    destruct (drain_lines true true (x :: ls)) as [[o rest] lead]. cbn in IH. subst o. done.
Qed.

Lemma reindent_all_ok chunks b leading : reindent_all (mkReindenter d b leading) chunks = (drain_lines true leading (split_newline (b ++ concat chunks))).1.1.
Proof using.
  revert b leading. induction chunks as [|c chunks IH]; intros b leading; cbn [reindent_all concat].
  - unfold reindent_finish. rewrite drain_of, app_nil_r. by destruct (drain_lines true leading (split_newline b)) as [[o rest] lead].
  - unfold reindent_push. cbn [re_delta re_buffer in_leading_whitespace]. rewrite drain_of.
    pose proof (drain_app true leading (b ++ c) (concat chunks)) as H. destruct (drain_lines false leading (split_newline (b ++ c))) as [[o rest] lead].
    rewrite IH. rewrite app_assoc. destruct (drain_lines true lead (split_newline (rest ++ concat chunks))) as [[o' rest'] lead']. by rewrite H.
Qed.

(** C35: However the text is cut into pieces, pushing them and finishing emits
    the whole text with each line reindented: a line of only the indentation
    character stays as it is, and every other line has its leading run of it
    lengthened by the delta, or cut to nothing if the delta takes more. *)
Theorem reindent_stream chunks : reindent_all (new_reindenter d) chunks = reindented (concat chunks).
Proof using. unfold new_reindenter. rewrite reindent_all_ok. apply drain_final. Qed.
End spec.

(** With the delta of two indentations, a line indented like the query becomes
    one indented like the buffer. *)
Lemma delta_moves_indent buffer_indent query_indent line b : let d := compute_indent_delta buffer_indent query_indent in
  b ≠ delta_character d → let n (li : LineIndent) := N.to_nat match d with Spaces _ => li_spaces li | Tabs _ => li_tabs li end in
  reindent_line d (repeat (delta_character d) (n query_indent) ++ b :: line) = repeat (delta_character d) (n buffer_indent) ++ b :: line.
Proof.
  intros d Hb n. assert (∀ m, find_other d (repeat (delta_character d) m ++ b :: line) = Some m) as Hf.
  { induction m as [|m IH]; unfold find_other in *; cbn [repeat app position].
    - destruct (Byte.eqb (delta_character d) b) eqn:E; [|done]. by apply Byte.byte_dec_bl in E; subst.
    - assert (Byte.eqb (delta_character d) (delta_character d) = true) as -> by by apply Byte.byte_dec_lb. cbn [negb]. by rewrite IH. }
  unfold reindent_line. rewrite Hf, drop_app_length' by (by rewrite repeat_length). do 2 f_equal.
  unfold n, d, compute_indent_delta. destruct (0 <? li_tabs buffer_indent)%N; cbn [delta_len]; lia.
Qed.

Module ReindentExamples.
Import Byte.
(** "  a" / "b" by two spaces, cut inside the indentation and inside a line. *)
Example streamed : reindent_all (new_reindenter (Spaces 2)) [[x20]; [x20; x61]; [x62; LF; x20]; [LF; x62]] = [x20; x20; x20; x20; x61; x62; LF; x20; LF; x20; x20; x62].
Proof. vm_compute. reflexivity. Qed.
End ReindentExamples.
