(* ===== verification/Snippet.v ===== *)
(** * Snippets ([crates/snippet/src/snippet.rs])

    A snippet is a text with numbered tabstops: [$1], [${1:default}] with a
    snippet of its own as the default, [${1|a,b|}] with choices.  Parsing gives
    the text with the defaults filled in and, for each number, where it is.  A
    [str] is the list of its characters; offsets count its bytes. *)

From S2P Require Import Prelude Text Utf8.
#[local] Open Scope nat_scope.

(** ** Results *)

Inductive ParseError := ExpectedInteger | IntegerTooLarge | ExpectedClosingBrace | NoClosingPipe.
(** A [Result]; a loop that is out of fuel is neither. *)
Inductive Parsed (A : Type) := Ok (a : A) | Fails (e : ParseError) | NoFuel.
Arguments Ok {A} a.
Arguments Fails {A} e.
Arguments NoFuel {A}.
#[export] Instance Parsed_bind : MBind Parsed := λ A B f m, match m with Ok a => f a | Fails e => Fails e | NoFuel => NoFuel end.

(** ** Data *)

Definition Str : Type := list Char.
Definition str_len (s : Str) : nat := length (encode s).

Record TabStop := mkTabStop { ts_ranges : list (Z * Z); ts_choices : option (list Str) }.
#[export] Instance TabStop_eq_dec : EqDecision TabStop.
Proof. solve_decision. Defined.
Record Snippet := mkSnippet { sn_text : Str; sn_tabstops : list TabStop }.
(** A [BTreeMap]: its entries in the order of their keys. *)
Definition TabStops : Type := list (N * TabStop).

(** [entry(index).or_insert_with(..).ranges.push(range)]. *)
Fixpoint add_range (index : N) (choices : option (list Str)) (range : Z * Z) (tabstops : TabStops) : TabStops :=
  match tabstops with
  | [] => [(index, mkTabStop [range] choices)]
  | (i, t) :: tabstops' =>
      if (index <? i)%N then (index, mkTabStop [range] choices) :: tabstops
      else if (index =? i)%N then (i, mkTabStop (ts_ranges t ++ [range]) (ts_choices t)) :: tabstops'
      else (i, t) :: add_range index choices range tabstops'
  end.

(** ** The parser *)

Definition char_dollar : Char := 36.
Definition char_backslash : Char := 92.
Definition char_open : Char := 123.
Definition char_close : Char := 125.
Definition char_pipe : Char := 124.
Definition char_comma : Char := 44.
Definition char_colon : Char := 58.

Definition is_ascii_digit (c : Char) : bool := ((48 <=? c) && (c <=? 57))%N.
(** [prefix.parse()] of digits, into a [usize] of 64 bits. *)
Definition digits_value (ds : Str) : N := foldl (λ v c, v * 10 + (c - 48))%N 0%N ds.
Definition parse_int (source : Str) : Parsed (N * Str) :=
  let len := default (length source) (position (λ c, negb (is_ascii_digit c)) source) in
  if 0 <? len then
    let prefix := take len source in
    if (digits_value prefix <? 2 ^ 64)%N then Ok (digits_value prefix, drop len source) else Fails IntegerTooLarge
  else Fails ExpectedInteger.

Definition ends_choice_chunk (c : Char) : bool := ((c =? char_comma) || (c =? char_pipe) || (c =? char_backslash))%N.
(** The loop of [parse_choices]: the rest of the source, the choices and the
    text. *)
Fixpoint choices_loop (fuel : nat) (source : Str) (found_default_choice : bool) (current_choice : Str) (choices : list Str) (text : Str) : Parsed (Str * list Str * Str) :=
  match fuel with O => NoFuel | S fuel =>
  match source with
  | [] => Ok ([], choices, text)
  | c :: rest =>
      if (c =? char_backslash)%N then
        match rest with
        | [] => choices_loop fuel rest found_default_choice current_choice choices text
        | d :: rest' =>
            if negb found_default_choice then choices_loop fuel rest' found_default_choice (current_choice ++ [d]) choices (text ++ [d])
            else choices_loop fuel rest' found_default_choice current_choice choices text
        end
      else if (c =? char_comma)%N then choices_loop fuel rest true [] (choices ++ [current_choice]) text
      else if (c =? char_pipe)%N then Ok (rest, choices ++ [current_choice], text)
      else match position ends_choice_chunk source with
      | None => Fails NoClosingPipe
      | Some chunk_end =>
          let chunk := take chunk_end source in
          let text := if negb found_default_choice then text ++ chunk else text in
          choices_loop fuel (drop chunk_end source) found_default_choice (current_choice ++ chunk) choices text
      end
  end end.
Definition parse_choices (source : Str) (text : Str) : Parsed (Str * list Str * Str) := choices_loop (S (length source)) source false [] [] text.

(** [source.starts_with(c)] and the rest. *)
Definition strip_char (c : Char) (source : Str) : option Str :=
  match source with d :: rest => if (d =? c)%N then Some rest else None | [] => None end.

Definition ends_chunk (c : Char) : bool := ((c =? char_close) || (c =? char_dollar) || (c =? char_backslash))%N.
Definition escapable (c : Char) : bool := ((c =? char_dollar) || (c =? char_backslash) || (c =? char_close))%N.

Fixpoint parse_snippet (fuel : nat) (source : Str) (nested : bool) (text : Str) (tabstops : TabStops) : Parsed (Str * Str * TabStops) :=
  match fuel with O => NoFuel | S fuel =>
  match source with
  | [] => Ok ([], text, tabstops)
  | c :: rest =>
      if (c =? char_dollar)%N then
        '(source, text, tabstops) ← parse_tabstop fuel rest text tabstops;
        parse_snippet fuel source nested text tabstops
      else if (c =? char_backslash)%N then
        match rest with
        | d :: rest' =>
            if escapable d then parse_snippet fuel rest' nested (text ++ [d]) tabstops
            else parse_snippet fuel rest nested (text ++ [char_backslash]) tabstops
        | [] => parse_snippet fuel rest nested (text ++ [char_backslash]) tabstops
        end
      else if (c =? char_close)%N then
        if nested then Ok (source, text, tabstops) else parse_snippet fuel rest nested (text ++ [char_close]) tabstops
      else
        let chunk_end := default (length source) (position ends_chunk source) in
        parse_snippet fuel (drop chunk_end source) nested (text ++ take chunk_end source) tabstops
  end end
with parse_tabstop (fuel : nat) (source : Str) (text : Str) (tabstops : TabStops) : Parsed (Str * Str * TabStops) :=
  match fuel with O => NoFuel | S fuel =>
  let tabstop_start := str_len text in
  '(source, index, choices, text, tabstops) ← match strip_char char_open source with
    | Some source =>
        '(index, source) ← parse_int source;
        '(source, choices, text) ← match strip_char char_pipe source with
          | Some source => '(source, choices, text) ← parse_choices source text; Ok (source, Some choices, text)
          | None => Ok (source, None, text)
          end;
        '(source, text, tabstops) ← match strip_char char_colon source with
          | Some source => parse_snippet fuel source true text tabstops
          | None => Ok (source, text, tabstops)
          end;
        match strip_char char_close source with
        | Some source => Ok (source, index, choices, text, tabstops)
        | None => Fails ExpectedClosingBrace
        end
    | None =>
        '(index, source) ← parse_int source;
        Ok (source, index, None, text, tabstops)
    end;
  Ok (source, text, add_range index choices (Z.of_nat tabstop_start, Z.of_nat (str_len text)) tabstops)
  end.

(** The end of [Snippet::parse]: the final tabstop comes last. *)
Definition finish (text : Str) (tabstops : TabStops) : Snippet :=
  let len := Z.of_nat (str_len text) in
  let final_tabstop := snd <$> List.find (λ e, (e.1 =? 0)%N) tabstops in
  let tabstops := snd <$> List.filter (λ e, negb (e.1 =? 0)%N) tabstops in
  match final_tabstop with
  | Some final_tabstop => mkSnippet text (tabstops ++ [final_tabstop])
  | None =>
      let end_tabstop := mkTabStop [(len, len)] None in
      if match last tabstops with Some t => bool_decide (t = end_tabstop) | None => false end then mkSnippet text tabstops
      else mkSnippet text (tabstops ++ [end_tabstop])
  end.
Definition parse (source : Str) : Parsed Snippet :=
  '(_, text, tabstops) ← parse_snippet (S (length source)) source false [] [];
  Ok (finish text tabstops).
