(* ===== verification/SnippetOk.v ===== *)
(** * Snippets: the parser against an abstract syntax

    A snippet is a list of elements: literal text and tabstops with a snippet
    inside.  Expanding it is the meaning of a snippet; the parser computes the
    expansion of some snippet from every source it accepts, and of the printed
    snippet from its printed form. *)

From S2P Require Import Prelude Text Utf8 Snippet.
#[local] Open Scope nat_scope.

(** ** Abstract syntax and its meaning *)

Inductive Element := Lit (s : Str) | Stop (index : N) (choices : option (list Str)) (body : list Element).
Definition State : Type := Str * TabStops.

(** A tabstop spans the expansion of its body, and is recorded after those in
    it. *)
Fixpoint expand (e : Element) (st : State) : State :=
  match e with
  | Lit s => (st.1 ++ s, st.2)
  | Stop index choices body =>
      let st' := foldl (λ st e, expand e st) st body in
      (st'.1, add_range index choices (Z.of_nat (str_len st.1), Z.of_nat (str_len st'.1)) st'.2)
  end.
Definition expand_all (es : list Element) (st : State) : State := foldl (λ st e, expand e st) st es.
Definition snippet_of (es : list Element) : Snippet := let st := expand_all es ([], []) in finish st.1 st.2.

(** The first choice is also the default. *)
Definition choices_ok (choices : option (list Str)) (body : list Element) : Prop :=
  match choices with None => True | Some [] => False | Some (c :: _) => ∃ body', body = Lit c :: body' end.
Inductive wf : Element → Prop :=
  | wf_lit s : wf (Lit s)
  | wf_stop index choices body : (index < 2 ^ 64)%N → choices_ok choices body → Forall wf body → wf (Stop index choices body).

(** ** Every accepted source is the expansion of a snippet *)

(** A result that is not out of fuel, and has a property when it is [Ok]. *)
Definition post {A} (Q : A → Prop) (m : Parsed A) : Prop := match m with Ok a => Q a | Fails _ => True | NoFuel => False end.

Lemma post_bind {A B} (Q : A → Prop) (R : B → Prop) (m : Parsed A) (f : A → Parsed B) :
  post Q m → (∀ a, Q a → post R (f a)) → post R (m ≫= f).
Proof. destruct m; cbn; auto. Qed.
Lemma post_weaken {A} (Q R : A → Prop) (m : Parsed A) : post Q m → (∀ a, Q a → R a) → post R m.
Proof. destruct m; cbn; auto. Qed.

Lemma chunk_nonempty p (c : Char) rest : p c = false → 0 < default (length (c :: rest)) (position p (c :: rest)).
Proof. intros H. cbn [position]. rewrite H. destruct (position p rest); cbn; lia. Qed.

Lemma strip_char_some c source rest : strip_char c source = Some rest → source = c :: rest.
Proof. unfold strip_char. destruct source as [|d r]; [done|]. destruct (N.eqb_spec d c); [|done]. intros [= <-]. by subst. Qed.

Lemma parse_int_post source : post (λ '(i, rest), (i < 2 ^ 64)%N ∧ length rest < length source) (parse_int source).
Proof.
  unfold parse_int. set (len := default _ _). destruct (Nat.ltb_spec 0 len); [|done]. destruct (N.ltb_spec (digits_value (take len source)) (2 ^ 64)); [|done].
  split; [done|]. rewrite length_drop. destruct source; [|cbn [length]; lia]. by cbn in len.
Qed.

(** What the loop knows: before the first comma the text grows with the choice,
    then it ends with the first choice. *)
Definition choices_inv (text0 : Str) (found : bool) (current : Str) (choices : list Str) (text : Str) : Prop :=
  if found then ∃ c l, choices = c :: l ∧ text = text0 ++ c else choices = [] ∧ text = text0 ++ current.

Lemma choices_loop_post text0 fuel source found current choices text : length source < fuel → choices_inv text0 found current choices text →
  post (λ '(rest, choices', text'), length rest ≤ length source ∧ (rest = [] ∨ ∃ c l, choices' = c :: l ∧ text' = text0 ++ c))
    (choices_loop fuel source found current choices text).
Proof.
  revert source found current choices text. induction fuel as [|fuel IH]; intros source found current choices text Hf Hinv; [lia|].
  cbn [choices_loop]. destruct source as [|c rest]; [by split; [|left]|]. cbn [length] in Hf.
  assert (∃ c' l, choices ++ [current] = c' :: l ∧ text = text0 ++ c') as Hpush.
  { destruct found; cbn in Hinv; [destruct Hinv as (d & l & -> & ->); by exists d, (l ++ [current])|destruct Hinv as [-> ->]; by exists current, []]. }
  assert (∀ source f cur chs t, length source < length (c :: rest) → choices_inv text0 f cur chs t →
    post (λ '(r, choices', text'), length r ≤ length (c :: rest) ∧ (r = [] ∨ ∃ c l, choices' = c :: l ∧ text' = text0 ++ c)) (choices_loop fuel source f cur chs t)) as Hgo.
  { intros s f cur chs t Hs Hi. cbn [length] in Hs. eapply post_weaken; [apply IH; [lia|done]|]. intros [[r chs'] t'] [Hr H]. cbn [length]. split; [lia|done]. }
  destruct (c =? char_backslash)%N eqn:Eb.
  { destruct rest as [|d rest]; [apply Hgo; cbn; [lia|done]|]. destruct found; cbn [negb]; apply Hgo; cbn [length]; try lia; try done.
    destruct Hinv as [-> ->]. split; [done|]. by rewrite app_assoc. }
  destruct (c =? char_comma)%N eqn:Ec; [apply Hgo; [cbn; lia|done]|]. destruct (c =? char_pipe)%N eqn:Ep; [split; [cbn; lia|by right]|].
  pose proof (chunk_nonempty ends_choice_chunk c rest) as Hn. destruct (position ends_choice_chunk (c :: rest)) as [n|]; [|done].
  unfold ends_choice_chunk in Hn. rewrite Ec, Ep, Eb in Hn. specialize (Hn eq_refl). change (0 < n) in Hn.
  apply Hgo; [rewrite length_drop; cbn; lia|]. destruct found; [done|]. destruct Hinv as [-> ->]. split; [done|]. by rewrite app_assoc.
Qed.

(** What a run of the parser from a state does: it leaves a shorter source, and
    the expansion of some elements. *)
Definition ran (source : Str) (st : State) : Str * Str * TabStops → Prop :=
  λ '(rest, text, tabs), length rest ≤ length source ∧ ∃ es, Forall wf es ∧ expand_all es st = (text, tabs).
Definition ran_tabstop (source : Str) (st : State) : Str * Str * TabStops → Prop :=
  λ '(rest, text, tabs), length rest ≤ length source ∧ ∃ e, wf e ∧ expand e st = (text, tabs).

Lemma ran_step source source' st e st' : length source' ≤ length source → wf e → expand e st = st' → ∀ r, ran source' st' r → ran source st r.
Proof. intros Hl He <- [[rest text] tabs] [Hr (es & Hes & E)]. split; [lia|]. exists (e :: es). split; [by constructor|done]. Qed.

Lemma parse_snippet_step fuel source nested text tabs :
  (∀ source, length source < fuel → ∀ nested text tabs, post (ran source (text, tabs)) (parse_snippet fuel source nested text tabs)) →
  (∀ source, length source < fuel → ∀ text tabs, post (ran_tabstop source (text, tabs)) (parse_tabstop fuel source text tabs)) →
  length source < S fuel → post (ran source (text, tabs)) (parse_snippet (S fuel) source nested text tabs).
Proof.
  intros IHs IHt Hf. cbn [parse_snippet]. destruct source as [|c rest]; [split; [done|]; by exists []|]. cbn [length] in Hf.
  assert (∀ source' s nested, length source' < length (c :: rest) →
    post (ran (c :: rest) (text, tabs)) (parse_snippet fuel source' nested (text ++ s) tabs)) as Hlit.
  { intros source' s nested' Hs. cbn [length] in Hs. eapply post_weaken; [apply IHs; lia|]. apply (ran_step _ _ _ (Lit s)); [cbn; lia|constructor|done]. }
  destruct (c =? char_dollar)%N eqn:Ed.
  { eapply post_bind; [apply IHt; lia|]. intros [[source' text'] tabs'] [Hl (e & He & E)]. eapply post_weaken; [apply IHs; lia|]. by apply (ran_step _ _ _ e); [cbn; lia|..]. }
  destruct (c =? char_backslash)%N eqn:Eb.
  { destruct rest as [|d rest]; [apply Hlit; cbn; lia|]. destruct (escapable d); apply Hlit; cbn; lia. }
  destruct (c =? char_close)%N eqn:Ec; [destruct nested; [split; [done|]; by exists []|apply Hlit; cbn; lia]|].
  apply Hlit. rewrite length_drop. assert (ends_chunk c = false) as Hn%(chunk_nonempty _ _ rest) by (unfold ends_chunk; by rewrite Ec, Ed, Eb).
  revert Hn. generalize (default (length (c :: rest)) (position ends_chunk (c :: rest))). intros n Hn. cbn [length]. lia.
Qed.

Lemma parse_tabstop_step fuel source text tabs :
  (∀ source, length source < fuel → ∀ nested text tabs, post (ran source (text, tabs)) (parse_snippet fuel source nested text tabs)) →
  length source < S fuel → post (ran_tabstop source (text, tabs)) (parse_tabstop (S fuel) source text tabs).
Proof.
  intros IHs Hf. cbn [parse_tabstop].
  apply (post_bind (λ '(rest, index, choices, text', tabs'), length rest ≤ length source ∧ (index < 2 ^ 64)%N ∧ ∃ body, choices_ok choices body ∧ Forall wf body ∧ expand_all body (text, tabs) = (text', tabs'))).
  2: { intros [[[[rest index] choices] text'] tabs'] (Hl & Hi & body & Hc & Hb & E). split; [done|]. exists (Stop index choices body). split; [by constructor|].
    cbn. fold (expand_all body (text, tabs)). by rewrite E. }
  destruct (strip_char char_open source) as [s1|] eqn:E1.
  2: { eapply post_bind; [apply parse_int_post|]. intros [index rest] [Hi Hl]. split; [lia|]. split; [done|]. by exists []. }
  apply strip_char_some in E1 as ->. cbn [length] in *. eapply post_bind; [apply parse_int_post|]. intros [index s2] [Hi Hl].
  apply (post_bind (λ '(s3, choices, text'), length s3 ≤ length s2 ∧ (s3 = [] ∨ ∃ body, (∀ es, choices_ok choices (body ++ es)) ∧ Forall wf body ∧ expand_all body (text, tabs) = (text', tabs)))).
  { destruct (strip_char char_pipe s2) as [s3|] eqn:E2; [|split; [done|right; by exists []]]. apply strip_char_some in E2 as ->. cbn [length] in *.
    eapply post_bind; [apply (choices_loop_post text); [lia|by split; [|rewrite app_nil_r]]|]. intros [[s4 choices] text'] [Hl4 H]. split; [lia|]. destruct H as [->|(c & l & -> & ->)]; [by left|right].
    exists [Lit c]. split; [intros es; by exists es|]. split; [repeat constructor|done]. }
  intros [[s3 choices] text'] [Hl3 H].
  apply (post_bind (λ '(s4, text'', tabs'), length s4 ≤ length s3 ∧ (s4 = [] ∨ ∃ body, choices_ok choices body ∧ Forall wf body ∧ expand_all body (text, tabs) = (text'', tabs')))).
  { destruct (strip_char char_colon s3) as [s4|] eqn:E3.
    - apply strip_char_some in E3 as ->. cbn [length] in *. eapply post_weaken; [apply IHs; lia|]. intros [[s5 text''] tabs'] [Hl5 (es & Hes & Ees)]. split; [lia|].
      destruct H as [?|(body & Hc & Hb & E)]; [done|]. right. exists (body ++ es). split; [apply Hc|]. split; [by apply Forall_app|].
      unfold expand_all in *. by rewrite foldl_app, E.
    - split; [done|]. destruct H as [->|(body & Hc & Hb & E)]; [by left|right]. exists body. split; [|done]. specialize (Hc []). by rewrite app_nil_r in Hc. }
  intros [[s4 text''] tabs'] [Hl4 H4]. destruct (strip_char char_close s4) as [s5|] eqn:E4; [|done]. apply strip_char_some in E4 as ->. cbn [length] in *.
  split; [lia|]. split; [done|]. by destruct H4.
Qed.

Lemma parse_runs fuel :
  (∀ source, length source < fuel → ∀ nested text tabs, post (ran source (text, tabs)) (parse_snippet fuel source nested text tabs)) ∧
  (∀ source, length source < fuel → ∀ text tabs, post (ran_tabstop source (text, tabs)) (parse_tabstop fuel source text tabs)).
Proof.
  induction fuel as [|fuel [IHs IHt]]; [split; intros; lia|]. split; intros; [by apply parse_snippet_step|by apply parse_tabstop_step].
Qed.

Lemma parse_accepts source : post (λ s, ∃ es, Forall wf es ∧ s = snippet_of es) (parse source).
Proof.
  unfold parse. eapply post_bind; [apply parse_runs; lia|]. intros [[rest text] tabs] [_ (es & Hes & E)]. exists es. split; [done|]. exact (f_equal (λ st, finish st.1 st.2) (eq_sym E)).
Qed.

(** ** Where the tabstops are *)

Definition ranges_of (tabstops : list TabStop) : list (Z * Z) := concat (ts_ranges <$> tabstops).
Definition all_ranges (tabs : TabStops) : list (Z * Z) := ranges_of (snd <$> tabs).
(** A range between character boundaries of a text. *)
Definition spans_text (text : Str) (r : Z * Z) : Prop := ∃ u v w, text = u ++ v ++ w ∧ r = (Z.of_nat (str_len u), Z.of_nat (str_len (u ++ v))).
(** Apart, or one in the other. *)
Definition laminar (r s : Z * Z) : Prop := (r.2 ≤ s.1 ∨ s.2 ≤ r.1 ∨ (r.1 ≤ s.1 ∧ s.2 ≤ r.2) ∨ (s.1 ≤ r.1 ∧ r.2 ≤ s.2))%Z.
Definition snippet_ok (s : Snippet) : Prop :=
  sn_tabstops s ≠ [] ∧ Forall (λ t, ts_ranges t ≠ []) (sn_tabstops s) ∧
  (∀ r, r ∈ ranges_of (sn_tabstops s) → spans_text (sn_text s) r) ∧
  (∀ r1 r2, r1 ∈ ranges_of (sn_tabstops s) → r2 ∈ ranges_of (sn_tabstops s) → laminar r1 r2).

Lemma elem_of_ranges r ts : r ∈ ranges_of ts ↔ ∃ t, t ∈ ts ∧ r ∈ ts_ranges t.
Proof.
  unfold ranges_of. rewrite list_elem_of_In, in_concat. setoid_rewrite <- list_elem_of_In. split.
  - intros (rs & (t & -> & Ht)%list_elem_of_fmap & Hr). by exists t.
  - intros (t & Ht & Hr). exists (ts_ranges t). split; [by apply list_elem_of_fmap_2|done].
Qed.

Lemma str_len_app s t : str_len (s ++ t) = str_len s + str_len t.
Proof. unfold str_len. by rewrite encode_app, length_app. Qed.

Lemma laminar_sym r s : laminar r s → laminar s r.
Proof. unfold laminar. lia. Qed.

Lemma add_range_ranges index choices r tabs : all_ranges (add_range index choices r tabs) ≡ₚ r :: all_ranges tabs.
Proof.
  unfold all_ranges, ranges_of. induction tabs as [|[i t] tabs IH]; cbn; [done|]. destruct (_ <? _)%N; [done|]. destruct (_ =? _)%N; cbn.
  - rewrite <- app_assoc. cbn. by rewrite <- Permutation_middle.
  - rewrite IH. by rewrite Permutation_middle.
Qed.

Lemma add_range_nonempty index choices r tabs : Forall (λ e, ts_ranges e.2 ≠ []) tabs → Forall (λ e, ts_ranges e.2 ≠ []) (add_range index choices r tabs).
Proof.
  induction 1 as [|[i t] tabs Ht H IH]; cbn; [by repeat constructor|]. destruct (_ <? _)%N; [by repeat constructor|]. destruct (_ =? _)%N; constructor; try done.
  cbn. by destruct (ts_ranges t).
Qed.

(** One state follows another: text is added, and ranges in the added text. *)
Definition grows (st st' : State) : Prop :=
  (Forall (λ e, ts_ranges e.2 ≠ []) st.2 → Forall (λ e, ts_ranges e.2 ≠ []) st'.2) ∧
  ∃ added new, st'.1 = st.1 ++ added ∧ all_ranges st'.2 ≡ₚ new ++ all_ranges st.2 ∧
    (∀ r, r ∈ new → spans_text st'.1 r ∧ (Z.of_nat (str_len st.1) ≤ r.1)%Z) ∧ (∀ r s, r ∈ new → s ∈ new → laminar r s).

Lemma spans_bounds text r : spans_text text r → (0 ≤ r.1 ≤ r.2 ∧ r.2 ≤ Z.of_nat (str_len text))%Z.
Proof. intros (u & v & w & -> & ->). cbn. rewrite !str_len_app. lia. Qed.
Lemma spans_longer text r more : spans_text text r → spans_text (text ++ more) r.
Proof. intros (u & v & w & -> & ->). exists u, v, (w ++ more). by rewrite <- !app_assoc. Qed.

Lemma grows_refl st : grows st st.
Proof. split; [done|]. exists [], []. rewrite app_nil_r. split_and!; try done; intros r; intros; by apply not_elem_of_nil in H. Qed.
Lemma grows_trans st st1 st2 : grows st st1 → grows st1 st2 → grows st st2.
Proof.
  intros [Hn1 (a1 & n1 & E1 & P1 & S1 & L1)] [Hn2 (a2 & n2 & E2 & P2 & S2 & L2)]. split; [auto|]. exists (a1 ++ a2), (n2 ++ n1).
  split; [by rewrite E2, E1, app_assoc|]. split; [by rewrite P2, P1, app_assoc|].
  assert (str_len st.1 ≤ str_len st1.1) by (rewrite E1, str_len_app; lia). split.
  - intros r [Hr|Hr]%elem_of_app; [destruct (S2 r Hr); split; [done|lia]|]. destruct (S1 r Hr). split; [rewrite E2; by apply spans_longer|done].
  - assert (∀ r s, r ∈ n1 → s ∈ n2 → laminar r s) as Hx.
    { intros r s [Hr _]%S1 [_ Hs]%S2. left. apply spans_bounds in Hr. lia. }
    intros r s [Hr|Hr]%elem_of_app [Hs|Hs]%elem_of_app; eauto using laminar_sym.
Qed.

Lemma grows_lit st s : grows st (st.1 ++ s, st.2).
Proof. split; [done|]. exists s, []. split_and!; try done; intros r; intros; by apply not_elem_of_nil in H. Qed.
Lemma grows_stop st st' index choices : grows st st' → grows st (st'.1, add_range index choices (Z.of_nat (str_len st.1), Z.of_nat (str_len st'.1)) st'.2).
Proof.
  intros [Hn (a & new & E & P & S & L)]. split; [intros; by apply add_range_nonempty, Hn|]. exists a, ((Z.of_nat (str_len st.1), Z.of_nat (str_len st'.1)) :: new). cbn [fst snd].
  split; [done|]. split; [by rewrite add_range_ranges, P|].
  assert (∀ r, r ∈ new → laminar (Z.of_nat (str_len st.1), Z.of_nat (str_len st'.1)) r) as Hx.
  { intros r [Hr%spans_bounds Hs]%S. right. right. left. cbn. lia. }
  split.
  - intros r [->|Hr]%elem_of_cons; [|by apply S]. split; [|cbn; lia]. exists st.1, a, []. by rewrite app_nil_r, E.
  - intros r s [->|Hr]%elem_of_cons [->|Hs]%elem_of_cons; eauto using laminar_sym. right. right. left. lia.
Qed.

(** Induction on elements. *)
Lemma element_induction (P : Element → Prop) : (∀ s, P (Lit s)) → (∀ index choices body, Forall P body → P (Stop index choices body)) → ∀ e, P e.
Proof.
  intros HL HS. fix IH 1. intros [s|index choices body]; [apply HL|]. apply HS. induction body as [|e body IHb]; constructor; [apply IH|apply IHb].
Qed.

Lemma expand_all_grows es st : Forall (λ e, ∀ st, grows st (expand e st)) es → grows st (expand_all es st).
Proof. intros H. revert st. induction H as [|e es He _ IH]; intros st; [apply grows_refl|]. cbn. eapply grows_trans; [apply He|apply IH]. Qed.
Lemma expand_grows e : ∀ st, grows st (expand e st).
Proof.
  induction e as [s|index choices body IH] using element_induction; intros st; [apply grows_lit|]. cbn. apply grows_stop. by apply (expand_all_grows body st).
Qed.

Lemma finish_ranges text tabs : sn_text (finish text tabs) = text ∧ sn_tabstops (finish text tabs) ≠ [] ∧
  ∀ t, t ∈ sn_tabstops (finish text tabs) → t ∈ tabs.*2 ∨ t = mkTabStop [(Z.of_nat (str_len text), Z.of_nat (str_len text))] None.
Proof.
  unfold finish. set (rest := snd <$> List.filter _ tabs). set (end_tabstop := mkTabStop _ None).
  assert (∀ t, t ∈ rest → t ∈ tabs.*2) as Hrest.
  { intros t ([i t'] & -> & H)%list_elem_of_fmap. apply list_elem_of_In, List.filter_In in H as [H _]. apply list_elem_of_fmap. exists (i, t'). split; [done|]. by apply list_elem_of_In. }
  destruct (List.find _ tabs) as [[i t0]|] eqn:E0; cbn [fmap option_fmap option_map].
  - split; [done|]. split; [cbn; by destruct rest|]. cbn. intros t [H|H]%elem_of_app; [by left; auto|]. apply list_elem_of_singleton in H as ->.
    apply List.find_some in E0 as [E0 _]. left. apply list_elem_of_fmap. exists (i, t0). split; [done|]. by apply list_elem_of_In.
  - destruct (last rest) as [t|] eqn:El; [case_bool_decide|]; (split; [done|]); (split; [cbn; by destruct rest|]); cbn; intros t'; rewrite ?elem_of_app, ?list_elem_of_singleton; naive_solver.
Qed.

Lemma snippet_of_ok es : snippet_ok (snippet_of es).
Proof.
  assert (grows ([], []) (expand_all es ([], []))) as [Hn (a & new & E & P & S & L)] by (apply expand_all_grows, Forall_true; apply expand_grows).
  unfold snippet_of. set (st := expand_all es ([], [])) in *. cbn in E, P. rewrite app_nil_r in P.
  destruct (finish_ranges st.1 st.2) as (Et & Hne & Ht). set (f := finish st.1 st.2) in *. set (len := Z.of_nat (str_len st.1)) in *.
  assert (∀ r, r ∈ ranges_of (sn_tabstops f) → r ∈ new ∨ r = (len, len)) as Hr.
  { intros r (t & Hin & Hr)%elem_of_ranges. destruct (Ht t Hin) as [H| ->]; [left|right; by apply list_elem_of_singleton in Hr].
    rewrite <- P. apply elem_of_ranges. by exists t. }
  assert (spans_text st.1 (len, len)) as Hend by (exists st.1, [], []; by rewrite !app_nil_r).
  split; [done|]. split; [|split].
  - apply Forall_forall. intros t Hin. destruct (Ht t Hin) as [Hin2| ->]; [|done]. apply list_elem_of_fmap in Hin2 as ([i t'] & -> & Hin').
    assert (Forall (λ e, ts_ranges e.2 ≠ []) st.2) as HF by by apply Hn. rewrite Forall_forall in HF. by apply (HF (i, t')).
  - intros r [H| ->]%Hr; rewrite Et; [by apply S|done].
  - assert (∀ r, spans_text st.1 r → laminar r (len, len)) as Hx by (intros r ?%spans_bounds; left; cbn; lia).
    intros r s [H| ->]%Hr [H'| ->]%Hr; [by apply L|apply Hx; by apply S|apply laminar_sym, Hx; by apply S|by apply Hx].
Qed.

(** ** Printing *)

Definition escape (p : Char → bool) (s : Str) : Str := concat ((λ c, if p c then [char_backslash; c] else [c]) <$> s).
Fixpoint print_digits (fuel : nat) (n : N) (acc : Str) : Str :=
  match fuel with
  | O => acc
  | S fuel => let acc := (48 + n mod 10)%N :: acc in if (n <? 10)%N then acc else print_digits fuel (n / 10) acc
  end.
Definition print_int (n : N) : Str := print_digits (S (N.size_nat n)) n [].
Definition print_choices (l : list Str) : Str :=
  match l with [] => [] | c :: l => escape ends_choice_chunk c ++ concat ((λ c, char_comma :: escape ends_choice_chunk c) <$> l) end.
(** The default is printed as the first choice where there are choices. *)
Fixpoint print (e : Element) : Str :=
  match e with
  | Lit s => escape escapable s
  | Stop index choices body =>
      [char_dollar; char_open] ++ print_int index ++
      match choices with
      | None => char_colon :: concat (map print body)
      | Some l => [char_pipe] ++ print_choices l ++ [char_pipe; char_colon] ++ match body with [] => [] | _ :: body => concat (map print body) end
      end ++ [char_close]
  end.
Definition print_all (es : list Element) : Str := concat (map print es).

(** What the parser makes of a printed snippet: an escaped character of a
    choice that is not the first is lost. *)
Definition keep_plain (s : Str) : Str := List.filter (λ c, negb (ends_choice_chunk c)) s.
Fixpoint as_parsed (e : Element) : Element :=
  match e with
  | Lit s => Lit s
  | Stop index choices body => Stop index (match choices with Some (c :: l) => Some (c :: (keep_plain <$> l)) | _ => choices end) (map as_parsed body)
  end.

Lemma size_nat_size i : N.of_nat (N.size_nat i) = N.size i.
Proof.
  destruct i as [|p]; [done|]. cbn [N.size_nat N.size]. induction p as [p IH|p IH|]; [..|done]; cbn [Pos.size_nat Pos.size]; by rewrite Nat2N.inj_succ, IH.
Qed.
Lemma digits_value_snoc ds d : digits_value (ds ++ [d]) = (digits_value ds * 10 + (d - 48))%N.
Proof. unfold digits_value. by rewrite foldl_app. Qed.

Lemma print_digits_ok fuel n acc : (n < 2 ^ N.of_nat (S fuel))%N →
  ∃ ds, print_digits (S fuel) n acc = ds ++ acc ∧ ds ≠ [] ∧ Forall (λ c, is_ascii_digit c = true) ds ∧ digits_value ds = n.
Proof.
  assert (∀ d, (d < 10)%N → is_ascii_digit (48 + d) = true) as Hd.
  { intros d Hd. unfold is_ascii_digit. by rewrite (proj2 (N.leb_le 48 _)), (proj2 (N.leb_le _ 57)) by lia. }
  revert n acc. induction fuel as [|fuel IH]; intros n acc Hn; cbn [print_digits]; destruct (N.ltb_spec n 10) as [Hlt|Hge].
  1, 3: exists [(48 + n mod 10)%N]; split; [done|]; split; [done|]; rewrite N.mod_small by done; split; [by repeat constructor; apply Hd|cbn; lia].
  - cbn in Hn. lia.
  - destruct (IH (n / 10)%N ((48 + n mod 10)%N :: acc)) as (ds & E & Hne & Hds & Hv).
    { apply N.Div0.div_lt_upper_bound. rewrite Nat2N.inj_succ, N.pow_succ_r' in Hn. lia. }
    cbn [print_digits] in E. rewrite E. exists (ds ++ [(48 + n mod 10)%N]). rewrite <- app_assoc. split; [done|]. split; [by destruct ds|].
    pose proof (N.mod_lt n 10 ltac:(done)) as Hm. split; [apply Forall_app; split; [done|by repeat constructor; apply Hd]|].
    rewrite digits_value_snoc, Hv, (N.add_comm 48), N.add_sub, N.mul_comm. symmetry. by apply N.div_mod.
Qed.

Lemma position_digits ds c rest : Forall (λ c, is_ascii_digit c = true) ds → is_ascii_digit c = false →
  position (λ c, negb (is_ascii_digit c)) (ds ++ c :: rest) = Some (length ds).
Proof. intros H Hc. induction H as [|d ds Hd _ IH]; cbn; [by rewrite Hc|]. by rewrite Hd, IH. Qed.

Lemma parse_print_int i c rest : (i < 2 ^ 64)%N → is_ascii_digit c = false → parse_int (print_int i ++ c :: rest) = Ok (i, c :: rest).
Proof.
  intros Hi Hc. unfold print_int. destruct (print_digits_ok (N.size_nat i) i []) as (ds & -> & Hne & Hds & Hv).
  { pose proof (N.size_gt i). rewrite Nat2N.inj_succ, N.pow_succ_r'. assert (N.of_nat (N.size_nat i) = N.size i) as -> by apply size_nat_size. lia. }
  unfold parse_int. rewrite app_nil_r, position_digits by done. change (default (length (ds ++ c :: rest)) (Some (length ds))) with (length ds). cbv zeta. destruct (Nat.ltb_spec 0 (length ds)) as [_|H]; [|destruct ds; [done|cbn in H; lia]].
  rewrite take_app_length, drop_app_length, Hv. by rewrite (proj2 (N.ltb_lt i _) Hi).
Qed.

(** ** The parser on printed snippets *)

(** With any fuel beyond the length of the source. *)
Definition gives source nested text tabs R : Prop := ∀ fuel, length source < fuel → parse_snippet fuel source nested text tabs = R.
Definition tabstop_gives source text tabs R : Prop := ∀ fuel, length source < fuel → parse_tabstop fuel source text tabs = R.
Definition choices_give source found current choices text R : Prop := ∀ fuel, length source < fuel → choices_loop fuel source found current choices text = R.

Lemma escapable_ends c : escapable c = ends_chunk c.
Proof. unfold escapable, ends_chunk. by destruct (c =? char_dollar)%N, (c =? char_backslash)%N, (c =? char_close)%N. Qed.

Lemma gives_nil nested text tabs : gives [] nested text tabs (Ok ([], text, tabs)).
Proof. intros [|fuel] Hf; [lia|done]. Qed.
Lemma gives_close rest text tabs : gives (char_close :: rest) true text tabs (Ok (char_close :: rest, text, tabs)).
Proof. intros [|fuel] Hf; [lia|done]. Qed.
Lemma gives_escaped d rest nested text tabs R : escapable d = true → gives rest nested (text ++ [d]) tabs R → gives (char_backslash :: d :: rest) nested text tabs R.
Proof.
  intros Hd H. intros [|fuel] Hf; [lia|]. cbn [length] in Hf. cbn [parse_snippet].
  change (char_backslash =? char_dollar)%N with false. change (char_backslash =? char_backslash)%N with true. cbn iota. rewrite Hd. apply H. lia.
Qed.

(** The parser on a character of the text that is not special, whose chunk goes
    on. *)
Lemma plain_step fuel c rest nested text tabs : ends_chunk c = false →
  parse_snippet (S fuel) (c :: rest) nested text tabs =
  let n := default (length (c :: rest)) (position ends_chunk (c :: rest)) in parse_snippet fuel (drop n (c :: rest)) nested (text ++ take n (c :: rest)) tabs.
Proof.
  intros H. cbn [parse_snippet]. unfold ends_chunk in H. apply orb_false_iff in H as [[-> ->]%orb_false_iff ->]. done.
Qed.
Lemma gives_plain c rest nested text tabs R : ends_chunk c = false → gives rest nested (text ++ [c]) tabs R → gives (c :: rest) nested text tabs R.
Proof.
  intros Hc H. intros [|fuel] Hf; [lia|]. cbn [length] in Hf. rewrite plain_step by done. cbn [position length]. rewrite Hc.
  destruct rest as [|d rest]; [apply H; cbn in *; lia|]. destruct (ends_chunk d) eqn:Ed.
  { cbn [position]. rewrite Ed. cbn. apply H. cbn in *; lia. }
  rewrite <- (H (S fuel)) by lia. rewrite plain_step by done. cbn zeta. destruct (position ends_chunk (d :: rest)) as [n|]; cbn [option_map fmap option_fmap default length];
    cbn [drop take]; by rewrite <- app_assoc.
Qed.
Lemma gives_lit s rest nested text tabs R : gives rest nested (text ++ s) tabs R → gives (escape escapable s ++ rest) nested text tabs R.
Proof.
  revert text. induction s as [|c s IH]; intros text H; [by rewrite app_nil_r in H|]. unfold escape. cbn [fmap list_fmap concat]. rewrite <- app_assoc. fold (escape escapable s).
  assert (gives (escape escapable s ++ rest) nested (text ++ [c]) tabs R) as H' by (apply IH; by rewrite <- app_assoc).
  destruct (escapable c) eqn:E; [by apply gives_escaped|]. apply gives_plain; [by rewrite <- escapable_ends|done].
Qed.
Lemma gives_tabstop source rest nested text tabs text' tabs' R : length rest ≤ length source →
  tabstop_gives source text tabs (Ok (rest, text', tabs')) → gives rest nested text' tabs' R → gives (char_dollar :: source) nested text tabs R.
Proof.
  intros Hl Ht H. intros [|fuel] Hf; [lia|]. cbn [length] in Hf. cbn [parse_snippet].
  change (char_dollar =? char_dollar)%N with true. cbn iota. rewrite Ht by lia. cbn. apply H. lia.
Qed.

Lemma choices_step fuel c rest found current choices text n : ends_choice_chunk c = false → position ends_choice_chunk (c :: rest) = Some n →
  choices_loop (S fuel) (c :: rest) found current choices text =
  choices_loop fuel (drop n (c :: rest)) found (current ++ take n (c :: rest)) choices (if found then text else text ++ take n (c :: rest)).
Proof.
  intros H Hp. cbn [choices_loop]. rewrite Hp. unfold ends_choice_chunk in H. apply orb_false_iff in H as [[-> ->]%orb_false_iff ->]. by destruct found.
Qed.
Lemma choices_plain c rest found current choices text R : ends_choice_chunk c = false → position ends_choice_chunk rest ≠ None →
  choices_give rest found (current ++ [c]) choices (if found then text else text ++ [c]) R → choices_give (c :: rest) found current choices text R.
Proof.
  intros Hc Hr H [|fuel] Hf; [lia|]. cbn [length] in Hf. destruct (position ends_choice_chunk rest) as [n|] eqn:En; [|done].
  rewrite (choices_step fuel c rest _ _ _ _ (S n)) by (done || cbn [position]; by rewrite Hc, En). cbn [drop take].
  destruct rest as [|d rest]; [done|]. destruct (ends_choice_chunk d) eqn:Ed.
  { cbn [position] in En. rewrite Ed in En. injection En as <-. apply H. lia. }
  rewrite <- (H (S fuel)) by lia. rewrite (choices_step fuel d rest _ _ _ _ n) by done. cbn [drop take].
  destruct found; by rewrite <- !app_assoc.
Qed.
Lemma choices_escaped d rest found current choices text R :
  choices_give rest found (if found then current else current ++ [d]) choices (if found then text else text ++ [d]) R → choices_give (char_backslash :: d :: rest) found current choices text R.
Proof.
  intros H [|fuel] Hf; [lia|]. cbn [length] in Hf. cbn [choices_loop]. change (char_backslash =? char_backslash)%N with true. cbn iota.
  destruct found; apply H; lia.
Qed.
Lemma choices_comma rest found current choices text R : choices_give rest true [] (choices ++ [current]) text R → choices_give (char_comma :: rest) found current choices text R.
Proof. intros H [|fuel] Hf; [lia|]. cbn [length] in Hf. apply H. lia. Qed.
Lemma choices_pipe rest found current choices text : choices_give (char_pipe :: rest) found current choices text (Ok (rest, choices ++ [current], text)).
Proof. intros [|fuel] Hf; [lia|done]. Qed.

Lemma position_app_some {A} (p : A → bool) l r : position p r ≠ None → position p (l ++ r) ≠ None.
Proof. intros H. induction l as [|x l IH]; [done|]. cbn. destruct (p x); [done|]. by destruct (position p (l ++ r)). Qed.

Lemma choices_choice s rest found current choices text R : position ends_choice_chunk rest ≠ None →
  choices_give rest found (current ++ if found then keep_plain s else s) choices (if found then text else text ++ s) R →
  choices_give (escape ends_choice_chunk s ++ rest) found current choices text R.
Proof.
  intros Hr. revert current text. induction s as [|c s IH]; intros current text H; [destruct found; by rewrite ?app_nil_r in H|].
  unfold escape. cbn [fmap list_fmap concat]. rewrite <- app_assoc. fold (escape ends_choice_chunk s). unfold keep_plain in *. cbn [List.filter] in H.
  destruct (ends_choice_chunk c) eqn:E; cbn [negb] in H.
  - apply choices_escaped. apply IH. destruct found; [done|]. by rewrite <- !app_assoc.
  - apply choices_plain; [done|by apply position_app_some|]. apply IH. destruct found; by rewrite <- !app_assoc.
Qed.

Lemma pipe_ends rest : position ends_choice_chunk (char_pipe :: rest) ≠ None.
Proof. by change (Some 0 ≠ None). Qed.
Lemma choices_rest l rest found current choices text : choices_give (concat ((λ c, char_comma :: escape ends_choice_chunk c) <$> l) ++ char_pipe :: rest) found current choices text
  (Ok (rest, choices ++ current :: (keep_plain <$> l), text)).
Proof.
  revert found current choices. induction l as [|c l IH]; intros found current choices; [apply choices_pipe|]. cbn [fmap list_fmap concat app]. rewrite <- app_assoc.
  apply choices_comma, choices_choice; [apply position_app_some, pipe_ends|]. cbn [app]. specialize (IH true (keep_plain c) (choices ++ [current])). by rewrite <- app_assoc in IH.
Qed.
Lemma parse_print_choices c l rest text : parse_choices (print_choices (c :: l) ++ char_pipe :: rest) text = Ok (rest, c :: (keep_plain <$> l), text ++ c).
Proof.
  unfold parse_choices, print_choices. rewrite <- app_assoc. apply choices_choice; [apply position_app_some, pipe_ends|apply (choices_rest l rest false c [])|lia].
Qed.

(** An element prints to a source that the parser expands. *)
Definition prints (e : Element) : Prop := ∀ rest nested text tabs R, let '(text', tabs') := expand (as_parsed e) (text, tabs) in
  gives rest nested text' tabs' R → gives (print e ++ rest) nested text tabs R.

Lemma prints_all es rest nested text tabs R : Forall prints es → let '(text', tabs') := expand_all (map as_parsed es) (text, tabs) in
  gives rest nested text' tabs' R → gives (print_all es ++ rest) nested text tabs R.
Proof.
  intros H. revert text tabs. induction H as [|e es He _ IH]; intros text tabs; [exact (λ x, x)|]. change (expand_all (map as_parsed (e :: es)) (text, tabs)) with (expand_all (map as_parsed es) (expand (as_parsed e) (text, tabs))). unfold print_all. cbn [map concat]. rewrite <- app_assoc. fold (print_all es).
  specialize (He (print_all es ++ rest) nested text tabs R). destruct (expand (as_parsed e) (text, tabs)) as [text1 tabs1]. specialize (IH text1 tabs1).
  destruct (expand_all _ _) as [text' tabs']. auto.
Qed.

(** A body and the brace that closes it. *)
Lemma body_gives es rest text tabs : Forall prints es → let '(text', tabs') := expand_all (map as_parsed es) (text, tabs) in
  gives (print_all es ++ char_close :: rest) true text tabs (Ok (char_close :: rest, text', tabs')).
Proof.
  intros H. pose proof (λ R, prints_all es (char_close :: rest) true text tabs R H) as Hp. destruct (expand_all _ _) as [text' tabs']. apply Hp, gives_close.
Qed.

Definition print_inner (choices : option (list Str)) (body : list Element) : Str :=
  match choices with
  | None => char_colon :: print_all body
  | Some l => char_pipe :: print_choices l ++ char_pipe :: char_colon :: print_all (tail body)
  end.
Lemma print_stop index choices body rest : print (Stop index choices body) ++ rest = char_dollar :: char_open :: print_int index ++ print_inner choices body ++ char_close :: rest.
Proof.
  cbn [print]. cbn [app]. do 2 f_equal. rewrite <- app_assoc. f_equal. rewrite <- app_assoc. destruct choices as [l|]; cbn [print_inner app]; f_equal.
  rewrite <- !app_assoc. cbn [app]. do 3 f_equal. by destruct body.
Qed.

Lemma parse_inner fuel (index : N) choices body rest text tabs : choices_ok choices body → Forall prints body → length (print_inner choices body ++ char_close :: rest) < fuel →
  let '(text', tabs') := expand_all (map as_parsed body) (text, tabs) in
  ('(source, choices, text) ← match strip_char char_pipe (print_inner choices body ++ char_close :: rest) with
     | Some source => '(source, choices, text) ← parse_choices source text; Ok (source, Some choices, text)
     | None => Ok (print_inner choices body ++ char_close :: rest, None, text)
     end;
   '(source, text, tabs) ← match strip_char char_colon source with
     | Some source => parse_snippet fuel source true text tabs
     | None => Ok (source, text, tabs)
     end;
   match strip_char char_close source with Some source => Ok (source, index, choices, text, tabs) | None => Fails ExpectedClosingBrace end) =
  Ok (rest, index, match choices with Some (c :: l) => Some (c :: (keep_plain <$> l)) | _ => choices end, text', tabs').
Proof.
  intros Hc Hb Hf. destruct choices as [[|c l]|]; cbn [choices_ok] in Hc; [done| |].
  - destruct Hc as [body' ->]. apply Forall_cons_1 in Hb as [_ Hb]. cbn [print_inner tail app] in *. rewrite <- app_assoc in *. cbn [strip_char app]. change (char_pipe =? char_pipe)%N with true. cbn iota.
    rewrite parse_print_choices. cbn [mbind Parsed_bind]. cbn [strip_char app]. change (char_colon =? char_colon)%N with true. cbn iota.
    pose proof (body_gives body' rest (text ++ c) tabs Hb) as H. cbn [map as_parsed]. change (expand_all (Lit c :: ?l) (text, tabs)) with (expand_all l (text ++ c, tabs)).
    match goal with |- context [expand_all ?l ?s] => change (expand_all (map as_parsed body') _) with (expand_all l s) in H; destruct (expand_all l s) as [text' tabs'] end. unfold gives in H. rewrite H; [done|]. cbn [length] in Hf. rewrite length_app in Hf. cbn [length app] in Hf. lia.
  - cbn [print_inner app] in *. cbn [strip_char]. change (char_colon =? char_pipe)%N with false. cbn iota. cbn [mbind Parsed_bind strip_char]. change (char_colon =? char_colon)%N with true. cbn iota.
    pose proof (body_gives body rest text tabs Hb) as H. destruct (expand_all (map as_parsed body) (text, tabs)) as [text' tabs']. unfold gives in H. rewrite H; [done|]. cbn [length] in Hf. lia.
Qed.

Lemma prints_stop index choices body : (index < 2 ^ 64)%N → choices_ok choices body → Forall prints body → prints (Stop index choices body).
Proof.
  intros Hi Hc Hb rest nested text tabs R. rewrite print_stop. cbn [as_parsed expand fst snd]. fold (expand_all (map as_parsed body) (text, tabs)).
  pose proof (λ fuel, parse_inner fuel index choices body rest text tabs Hc Hb) as Hp. destruct (expand_all (map as_parsed body) (text, tabs)) as [text' tabs'].
  cbn [fst snd]. apply gives_tabstop.
  { cbn [length]. rewrite !length_app. cbn [length]. lia. }
  intros [|fuel] Hf; [lia|]. cbn [parse_tabstop]. cbn [strip_char]. change (char_open =? char_open)%N with true. cbn iota.
  assert (∃ c s, print_inner choices body ++ char_close :: rest = c :: s ∧ is_ascii_digit c = false) as (c & s & E & Hcd) by (destruct choices; by eexists _, _).
  rewrite E in *. rewrite parse_print_int by done. specialize (Hp fuel).
  assert (length (c :: s) < fuel) as Hlen by (cbn [length] in *; rewrite length_app in Hf; cbn [length] in Hf; lia).
  etransitivity; [exact (f_equal (λ m : Parsed _, m ≫= _) (Hp Hlen))|done].
Qed.

Lemma wf_prints e : wf e → prints e.
Proof.
  induction e as [s|index choices body IH] using element_induction; intros H.
  - intros rest nested text tabs R. cbn. apply gives_lit.
  - inversion H as [|? ? ? Hi Hc Hb]; subst. apply prints_stop; [done..|]. rewrite Forall_forall in *. auto.
Qed.

Lemma parse_print es : Forall wf es → parse (print_all es) = Ok (snippet_of (map as_parsed es)).
Proof.
  intros H. assert (Forall prints es) as Hp by (eapply Forall_impl; [done|apply wf_prints]).
  pose proof (λ R, prints_all es [] false [] [] R Hp) as Hg. unfold parse, snippet_of. rewrite app_nil_r in Hg.
  match goal with |- context [expand_all ?l ?s] => change (expand_all (map as_parsed es) _) with (expand_all l s) in Hg; destruct (expand_all l s) as [text tabs] end. specialize (Hg _ (gives_nil false text tabs)). unfold gives in Hg. by rewrite Hg by lia.
Qed.

(** Nothing is lost where the later choices have nothing to escape. *)
Inductive plain_choices : Element → Prop :=
  | plain_lit s : plain_choices (Lit s)
  | plain_stop index choices body :
      (∀ c l s, choices = Some (c :: l) → s ∈ l → Forall (λ c, ends_choice_chunk c = false) s) → Forall plain_choices body → plain_choices (Stop index choices body).

Lemma as_parsed_plain e : plain_choices e → as_parsed e = e.
Proof.
  induction e as [s|index choices body IH] using element_induction; [done|]. intros H. inversion H as [|? ? ? Hc Hb]; subst. cbn. f_equal.
  - destruct choices as [[|c l]|]; [done| |done]. do 2 f_equal. rewrite <- (list_fmap_id l) at 2. apply list_fmap_ext. intros i s Hs.
    specialize (Hc c l s eq_refl (list_elem_of_lookup_2 _ _ _ Hs)). clear Hs. unfold keep_plain, id. induction Hc as [|d s Hd _ IHs]; cbn; [done|]. rewrite Hd. cbn. by f_equal.
  - clear Hc H. induction body as [|e body IHb]; [done|]. apply Forall_cons_1 in IH as [He Hes]. apply Forall_cons_1 in Hb as [? ?]. cbn. f_equal; auto.
Qed.

(** C36: Parsing a snippet is total: it returns, and either refuses the source
    or computes the expansion of a list of elements, text and numbered tabstops
    around lists of elements, whose tabstops are never missing, have a range at
    least, lie between character boundaries of the text and are pairwise apart
    or nested.  And every list of elements prints to a source that parses to its
    expansion, escapes included; only of the choices after the first the
    characters that had to be escaped are lost, so nothing is where there are
    none. *)
Theorem snippet_parse_exact source es : Forall wf es →
  ((∃ e, parse source = Fails e) ∨ ∃ es', Forall wf es' ∧ parse source = Ok (snippet_of es') ∧ snippet_ok (snippet_of es')) ∧
  parse (print_all es) = Ok (snippet_of (map as_parsed es)) ∧
  (Forall plain_choices es → parse (print_all es) = Ok (snippet_of es)).
Proof.
  intros Hes. pose proof (parse_print es Hes) as Hp. split_and!; [|done|].
  - pose proof (parse_accepts source) as H. destruct (parse source) as [s|e|]; [right|left; by exists e|done].
    destruct H as (es' & Hwf & ->). exists es'. split; [done|]. split; [done|apply snippet_of_ok].
  - intros Hc. rewrite Hp. do 2 f_equal. rewrite <- (List.map_id es) at 2. apply List.map_ext_in. intros e He%list_elem_of_In. rewrite Forall_forall in Hc. by apply as_parsed_plain, Hc.
Qed.

(** ** Concrete snippets *)

Module SnippetExamples.
(** "a$" with a tabstop of "b}" in one of "b}c", and choices "x" and "y,": the
    comma of the second is lost. *)
Definition elements : list Element := [Lit [97; 36]; Stop 12 None [Stop 3 None [Lit [98; 125]]; Lit [99]]; Stop 0 (Some [[120]; [121; 44]]) [Lit [120]]]%N.
Lemma elements_wf : Forall wf elements.
Proof. repeat constructor. by exists []. Defined.
Example printed : print_all elements = [97; 92; 36; 36; 123; 49; 50; 58; 36; 123; 51; 58; 98; 92; 125; 125; 99; 125; 36; 123; 48; 124; 120; 44; 121; 92; 44; 124; 58; 125]%N.
Proof. vm_compute. reflexivity. Qed.
Example parsed : parse (print_all elements) =
  Ok (mkSnippet [97; 36; 98; 125; 99; 120]%N [mkTabStop [(2, 4)%Z] None; mkTabStop [(2, 5)%Z] None; mkTabStop [(5, 6)%Z] (Some [[120]; [121]]%N)]).
Proof. vm_compute. reflexivity. Qed.
(** "${1" is refused, and so is a number beyond a [usize]. *)
Example refused : parse [36; 123; 49]%N = Fails ExpectedClosingBrace ∧ parse (36 :: replicate 20 57)%N = Fails IntegerTooLarge ∧ parse [36; 97]%N = Fails ExpectedInteger ∧ parse [36; 123; 49; 124; 97]%N = Fails NoClosingPipe.
Proof. vm_compute. by split_and!. Qed.

Example snippet_parse_exact_witness :
  ((∃ e, parse [36; 49]%N = Fails e) ∨ ∃ es', Forall wf es' ∧ parse [36; 49]%N = Ok (snippet_of es') ∧ snippet_ok (snippet_of es')) ∧
  parse (print_all elements) = Ok (snippet_of (map as_parsed elements)) ∧
  (Forall plain_choices elements → parse (print_all elements) = Ok (snippet_of elements)).
Proof. apply (snippet_parse_exact [36; 49]%N elements elements_wf). Defined.
End SnippetExamples.
